(* ===== verification/_CoqProject ===== *)
-Q . S2P
Prelude.v
Engine.v
RecordFormat.v
Names.v
Paths.v
StreamLog.v
ConsumerState.v
DeliveryState.v
StorageLane.v
Durability.v
Broker.v
BrokerInvariant.v
BrokerEvents.v
BrokerSteps.v
BrokerDelivery.v
BrokerDeadLetters.v
BrokerSearch.v
BrokerPoll.v
BrokerBatch.v
BrokerAcks.v
BrokerPublish.v
BrokerRestart.v
BrokerOps.v
BrokerGuarantees.v
RaftState.v
RaftDelivery.v
RaftInvariant.v
RaftHandlers.v
RaftBatch.v
RaftStateMachine.v
RaftGuarantees.v
RaftPreview.v
Disk.v
RaftLogFormat.v
RaftLogSegments.v
RaftLogFiles.v
RaftLogRecovery.v
RaftLogSteps.v
RaftLogTruncation.v
RaftLogAppend.v
RaftLogOps.v
RaftLogStore.v
RaftLogGuarantees.v
RaftJournal.v
RaftStateStore.v
RaftStateRecovery.v
RaftStateSteps.v
RaftStateGuarantees.v
RaftStateHistory.v
RaftStateConflict.v
RaftStateExample.v
Protobuf.v
WireMessages.v
Protocol.v
ProtocolRoundtrip.v
ProtobufDecoder.v
ProtocolGuarantees.v
ProtocolSizes.v
