(* ===== verification/Prelude.v ===== *)
(** * Runnel: a verification development

    Runnel is a message broker with durable streams. Producers append records
    to a stream; consumer groups poll records, hold them under a lease and
    acknowledge them; a record that exhausts its delivery attempts is copied to
    a dead-letter stream. The same contract (crates/runnel-engine) has two
    implementations: a broker over local files (crates/runnel-core) and a state
    machine replicated with Raft (crates/runnel-raft).

    ** The parts and where they are modelled

    - [Prelude]: Rust's results and integers, lists, maps and strings as the
      components use them, the tactics and hint databases.
    - [Engine] (crates/runnel-engine/src/lib.rs): the values that cross the
      engine boundary, the request validators, the classification of errors and
      the size estimates of poll responses.
    - [RecordFormat], [StreamLog] (crates/runnel-core/src/stream_log.rs): the
      RNL3 frame with its CRC-32C, and the append-only log: bounded tail cache,
      sparse index, request identities, appends, reads, candidate search and
      recovery. A file is its list of bytes; the outcome of a write and of its
      sync is an argument.
    - [Names] (crates/runnel-core/src/lib.rs): valid names, dead-letter names
      and move identities.
    - [ConsumerState], [Durability] (crates/runnel-core/src/consumer_state.rs):
      the committed state of a consumer, its events, and the checkpoint and
      journal files with the failure of each file operation.
    - [DeliveryState] (crates/runnel-core/src/delivery_state.rs): deliveries in
      flight with their deadline and consumer indexes, the bounded cache of
      consumer states, reconciliation after a failed persist, tokens.
    - [StorageLane] (crates/runnel-core/src/storage.rs): the queue that orders
      the storage operations of a stream, as a step relation.
    - [Broker] (crates/runnel-core/src/broker.rs): every operation of the
      broker, composed of the components above, in a monad of state and errors.
      Clocks, faults and the order of hash maps come from an environment
      ([Env]) that the operations read in sequence.
    - [BrokerInvariant] .. [BrokerRestart]: the invariant, the program logic
      [wp], and one specification per operation. [BrokerOps] collects the
      operations in one type, with restarts, into the relation [reachable];
      [BrokerGuarantees] states what holds of every reachable broker.
    - [RaftState], [RaftDelivery], [RaftStateMachine]
      (crates/runnel-raft/src/state_machine.rs, delivery.rs): the replicated
      state, the delivery handlers and [apply_command]. [RaftInvariant],
      [RaftHandlers], [RaftBatch], [RaftGuarantees] and [RaftPreview] prove
      their properties.
    - [Paths], [Disk]: file names as the storage code takes them apart, and a
      disk of directories and files with the system calls on it. Any call may
      fail, a write also after part of its bytes ([Os], [Fault]); [io_wp] is the
      program logic: what holds after success, and of the disk after a failure.
    - [RaftLogFormat], [RaftLogSegments]
      (crates/runnel-raft/src/raft_log_segments.rs, and atomic_write_with_role
      of lib.rs): the bytes of a segment and their parser; creating, opening,
      appending, truncating and purging a family of segment files.
      [RaftLogFiles] says what the files mean; [RaftLogRecovery],
      [RaftLogSteps], [RaftLogTruncation], [RaftLogAppend] and [RaftLogOps] give
      each operation its specification in [io_wp].
    - [RaftLogStore] (crates/runnel-raft/src/log_store.rs): the storage that
      openraft uses, over the segments. [RaftLogGuarantees] relates histories
      of operations, failures and restarts to a plain log.
    - [RaftJournal], [RaftStateStore]
      (crates/runnel-raft/src/state_machine_journal.rs, state_machine_store.rs):
      journal, checkpoint and snapshot files of the state machine, applying
      entries, building and installing snapshots, opening, and the queries.
      [RaftStateRecovery], [RaftStateSteps] and [RaftStateGuarantees] hold what
      the files mean and the specifications; [RaftStateHistory] the histories,
      in which a snapshot is built in the steps that the locks make of it;
      [RaftStateConflict] an interleaving below that grain; [RaftStateExample]
      concrete runs.
    - [Protobuf], [WireMessages] (crates/runnel-protocol/proto/runnel.proto): the
      wire format of protobuf and the messages of the schema with the numbers of
      their fields.
    - [Protocol] (crates/runnel-protocol/src/lib.rs, v2.rs): requests, replies,
      the negotiation, their conversion to messages and back, and frames.
      [ProtocolRoundtrip], [ProtobufDecoder] and [ProtocolGuarantees] prove that
      both sides read what the other writes; [ProtocolSizes] relates a delivery
      to the estimate of its size in [Engine].

    ** What the theorems show

    - Broker: no request panics or runs out of a search bound; polls, batch
      polls and both kinds of acknowledgement answer exactly as specified: a
      batch leaves out a ready record only for its limits, is refused only for
      what does not fit them, and ends while other requests are served;
      progress has a cause (an accepted acknowledgement, or a dead letter that
      is already stored); publishing refines an abstract append with
      deduplication, also across crashes; records and progress are never lost;
      a restart from files with torn tails gives back the same histories.
    - Replicated state machine: the same contract for every run of commands: a
      poll resumes, delivers, refuses or finds nothing, each exactly in its
      case; keys are in order, leases fence late acknowledgements with a
      receipt, and a preview agrees with the poll it predicts. The conditions
      of an acknowledgement are those of the code; without a receipt they are
      wider than the engine interface describes.
    - Raft log: whatever operations are called, wherever they fail and however
      often the process restarts, the log answers like a plain log that keeps
      what was acknowledged; a start without faults always opens it; segments
      are read back as they were written.
    - State machine store: the same for the applied state, with snapshots built
      concurrently and installed; a snapshot brings another member to the state
      it was built from. When a build compacts the journal while a snapshot is
      installed, a temporary name that both use can cost the store its journal.
    - Stream log: recovery accepts exactly what it can represent, searches
      through the indexes equal searches of the history, and a changed payload
      is detected.
    - Consumer files: an event is persisted completely or not at all.
    - Delivery state: the indexes mirror the map, and reconciliation restores
      the durable state. Storage lanes: one holder, in order of arrival.
    - Protocol: a frame that is not refused for its size or for contradicting
      itself arrives as the frame that was sent.
    - Behaviours that a user of the code would not expect: after a failed sync
      the next append makes the file unrecoverable, in general; on concrete
      runs, an oversized consumer event, an empty key, the size check of a poll,
      progress of older logs, waiters of a dead-letter stream.

    ** Bounds and assumptions

    - Machine integers are [N] with their width written where the code can
      reach it. The broker's theorems take streams of at most 2^62 records, so
      that offsets do not reach the end of [u64]; wall clocks below [u64_max]
      and monotonic clocks that leave room for one lease.
    - Appends to stream files succeed in the broker's theorems; what a failed
      append does is stated for the log alone. Consumer files, the creation of
      streams and the sync of a journal may fail at every point.
    - A published record has no empty key ([publishable]): the code accepts
      an empty one and reads it back as no key. An event of a consumer fits the
      bound of its journal; the code does not check that.
    - Reading the checkpoint and the journal of a consumer, and cutting off a torn
      line while they are read, do not fail in [load_consumer_state]; writing them
      may fail at every point.
    - Arithmetic is that of a release build: [offset + 1] in the older command
      [Ack] wraps at the end of [u64], where a debug build panics.
    - Fuel: a search loop of the broker takes one step per record of the
      stream, and the fuel given to it is that number plus one; the loops of
      the replicated delivery take the number of stored messages. Running out
      counts as a panic, and the theorems exclude it.
    - JSON (serde_json) is a class with a round-trip law for each kind of file:
      [ConsumerCodec], [LogJson], [JournalJson] and [StoreJson]; instances exist
      in [BrokerGuarantees], [RaftLogGuarantees] and [RaftStateExample].
      Protobuf (prost) is the class [ProstMessage]; its laws [ProstLaws] say that
      it writes the wire format and reads what it wrote, and [ProtobufDecoder]
      is an instance.
    - In the Raft storage a call that fails may leave part of its effect, and a
      crash is a failure followed by a restart. What a successful call did is
      on the disk: data that a crash takes back although it was written before
      a sync is covered as the failure of the write. A rename is durable when it
      returns: that the renames of one append reach the disk in another order,
      before the directory is synced, is not covered. In the histories of the
      state store the two system-call sequences of a snapshot build, the snapshot
      file and the compaction, are one step each; [RaftStateConflict] looks
      inside them. Opening a directory for the
      first time is assumed to succeed in the histories of the log; when it fails
      the code refuses the directory from then on.
    - openraft stops a node whose storage reports an error; so after an error
      the histories of the state machine store continue with a start. It applies
      entries in log order and installs only newer snapshots ([may_ask]).
    - Parsing loops take as fuel the number of bytes that are left, and each
      round consumes at least one; the append loop takes the number of entries.

    ** Not modelled

    - Sockets, TLS, process start, metrics, the command line and test support
      (crates/runnel-server, runnel-cli, runnel-test-support): input and output
      of the operating system around the components above.
    - The consensus protocol, which is the library openraft, and the code that
      drives it (crates/runnel-raft/src/engine.rs, group_manager.rs, lib.rs and
      the network modules).
    - The counters of crates/runnel-raft/src/persistence_write.rs and the metrics
      of snapshots, which observe the storage and do not change it.
    - The roles and token format of crates/runnel-protocol/src/security.rs and the
      asynchronous client (crates/runnel-client).
*)

From stdpp Require Export base numbers list gmap strings sorting fin_maps pretty.
From Stdlib Require Export NArith Lia.
From Stdlib Require Strings.Byte Strings.Ascii Strings.String.

#[export] Set Default Goal Selector "!".

Abbreviation byte := Init.Byte.byte.

(** ** Rust results

    [Result A E] is Rust's [Result<A, E>]; [let? x := c in k] is the [?]
    operator followed by the rest of the function. *)

Inductive Result (A E : Type) : Type :=
| Ok (a : A)
| Err (e : E).
Arguments Ok {A E} a.
Arguments Err {A E} e.

Declare Scope rust_scope.
Delimit Scope rust_scope with rust.
Notation "'let?' x ':=' c 'in' k" :=
  (match c with Ok x => k | Err err => Err err end)
  (at level 10, x pattern, c at level 100, k at level 200) : rust_scope.
Open Scope rust_scope.

Definition is_ok {A E} (r : Result A E) : bool :=
  match r with Ok _ => true | Err _ => false end.

(** Rust's [Option::is_some_and] and [Option::is_none_or]. *)
Definition is_some_and {A} (p : A -> bool) (o : option A) : bool :=
  match o with Some a => p a | None => false end.
Definition is_none_or {A} (p : A -> bool) (o : option A) : bool :=
  match o with Some a => p a | None => true end.

(** ** Automation

    [step_bind] runs a computation in [option] past a step whose result is
    known; [n_cases] splits on the first comparison of naturals in the goal. The
    hint database [runnel] holds the lemmas that close the frame conditions of
    the components. *)

Ltac step_bind := cbn [mbind option_bind].

Ltac n_cases :=
  match goal with
  | |- context [(?a <=? ?b)%N] => destruct (N.leb_spec a b)
  | |- context [(?a <? ?b)%N] => destruct (N.ltb_spec a b)
  | |- context [(?a =? ?b)%N] => destruct (N.eqb_spec a b)
  end.

Create HintDb runnel.

(** ** Machine integers

    [u32], [u64] and [usize] values are naturals [N]; the operations the
    source uses say what happens at the width. *)

Definition u16_max : N := 65535.
Definition u32_max : N := 4294967295.
Definition u64_max : N := 18446744073709551615.
Definition usize_max : N := u64_max.

Definition saturating_add (max a b : N) : N := N.min (a + b) max.
Definition u64_saturating_add (a b : N) : N := saturating_add u64_max a b.
Definition u32_saturating_add (a b : N) : N := saturating_add u32_max a b.
Definition usize_saturating_add (a b : N) : N := saturating_add usize_max a b.
Definition u64_checked_add (a b : N) : option N :=
  if (a + b <=? u64_max)%N then Some (a + b)%N else None.
Definition u64_wrapping_add (a b : N) : N := ((a + b) mod (u64_max + 1))%N.
Definition u64_wrapping_mul (a b : N) : N := ((a * b) mod (u64_max + 1))%N.

Lemma saturating_add_small max a b :
  (a + b <= max)%N -> saturating_add max a b = (a + b)%N.
Proof. unfold saturating_add. lia. Qed.

Lemma saturating_add_le max a b : (saturating_add max a b <= max)%N.
Proof. unfold saturating_add. lia. Qed.

Lemma saturating_add_mono max a b c d :
  (a <= c -> b <= d -> saturating_add max a b <= saturating_add max c d)%N.
Proof. unfold saturating_add. lia. Qed.

(** ** Bytes *)

Definition byte_of_N (v : N) : byte :=
  default Byte.x00 (Byte.of_N (v mod 256)).

Lemma byte_to_N_bound (b : byte) : (Byte.to_N b < 256)%N.
Proof. pose proof (Byte.to_N_bounded b). lia. Qed.

Lemma byte_to_N_of_N v : Byte.to_N (byte_of_N v) = (v mod 256)%N.
Proof.
  unfold byte_of_N. destruct (Byte.of_N (v mod 256)) as [b|] eqn:E.
  - by apply Byte.to_of_N.
  - apply Byte.of_N_None_iff in E. pose proof (N.mod_lt v 256). lia.
Qed.

Lemma byte_of_N_to_N (b : byte) : byte_of_N (Byte.to_N b) = b.
Proof.
  unfold byte_of_N. rewrite N.mod_small by apply byte_to_N_bound.
  by rewrite Byte.of_to_N.
Qed.

#[export] Instance byte_eq_dec : EqDecision byte := Byte.byte_eq_dec.

(** [to_le_bytes n v] is the little-endian form of [v] on [n] bytes (Rust's
    [u16/u32/u64::to_le_bytes]); [from_le_bytes] reads it back. *)
Fixpoint to_le_bytes (n : nat) (v : N) : list byte :=
  match n with
  | O => []
  | S n => byte_of_N v :: to_le_bytes n (v / 256)
  end.

Fixpoint from_le_bytes (l : list byte) : N :=
  match l with
  | [] => 0
  | b :: l => Byte.to_N b + 256 * from_le_bytes l
  end.

Lemma length_to_le_bytes n v : length (to_le_bytes n v) = n.
Proof. revert v; induction n; intros v; simpl; auto. Qed.

Lemma from_to_le_bytes n v :
  (v < 256 ^ N.of_nat n)%N -> from_le_bytes (to_le_bytes n v) = v.
Proof.
  revert v; induction n as [|n IH]; intros v Hv; simpl.
  - simpl in Hv. lia.
  - rewrite byte_to_N_of_N, IH.
    + pose proof (N.div_mod v 256). lia.
    + rewrite Nat2N.inj_succ, N.pow_succ_r' in Hv.
      apply N.Div0.div_lt_upper_bound. lia.
Qed.

Lemma from_le_bytes_bound l : (from_le_bytes l < 256 ^ N.of_nat (length l))%N.
Proof.
  induction l as [|b l IH]; simpl length; simpl from_le_bytes; [done|].
  rewrite Nat2N.inj_succ, N.pow_succ_r'. pose proof (byte_to_N_bound b). lia.
Qed.

Lemma to_from_le_bytes l : to_le_bytes (length l) (from_le_bytes l) = l.
Proof.
  induction l as [|b l IH]; cbn [length to_le_bytes from_le_bytes]; [done|].
  pose proof (byte_to_N_bound b) as Hb.
  assert (Hm : ((Byte.to_N b + 256 * from_le_bytes l) mod 256 = Byte.to_N b)%N).
  { rewrite (N.mul_comm 256), N.Div0.mod_add. by apply N.mod_small. }
  assert (Hd : ((Byte.to_N b + 256 * from_le_bytes l) / 256 = from_le_bytes l)%N).
  { rewrite (N.mul_comm 256), N.div_add by lia. rewrite N.div_small by done. lia. }
  f_equal.
  - rewrite <-(byte_of_N_to_N b) at 2. unfold byte_of_N. rewrite Hm.
    by rewrite (N.mod_small (Byte.to_N b)).
  - by rewrite Hd.
Qed.

(** Byte strings: a Rust [String] is a [string] of bytes, [as_bytes] its list
    of bytes. *)
Definition as_bytes (s : string) : list byte := String.list_byte_of_string s.
Definition of_bytes (l : list byte) : string := String.string_of_list_byte l.
Definition str_len (s : string) : N := N.of_nat (length (as_bytes s)).

Lemma of_bytes_as_bytes s : of_bytes (as_bytes s) = s.
Proof. apply String.string_of_list_byte_of_string. Qed.

Lemma as_bytes_of_bytes l : as_bytes (of_bytes l) = l.
Proof. apply String.list_byte_of_string_of_list_byte. Qed.

Lemma as_bytes_inj s t : as_bytes s = as_bytes t -> s = t.
Proof.
  intros H. by rewrite <-(of_bytes_as_bytes s), <-(of_bytes_as_bytes t), H.
Qed.

(** ** Ordered maps

    A Rust [BTreeMap] keyed by offsets is a [gmap N A]; where the source
    iterates over it, it does so in ascending key order: [btree_items]. *)

Definition key_le {A} (p q : N * A) : Prop := (p.1 <= q.1)%N.
Definition key_lt {A} (p q : N * A) : Prop := (p.1 < q.1)%N.

#[export] Instance key_le_dec {A} : RelDecision (@key_le A).
Proof. intros p q. unfold key_le. apply _. Defined.

#[export] Instance key_le_total {A} : Total (@key_le A).
Proof. intros p q. unfold key_le. lia. Qed.

#[export] Instance key_le_trans {A} : Transitive (@key_le A).
Proof. intros p q r. unfold key_le. lia. Qed.

Definition btree_items {A} (m : gmap N A) : list (N * A) :=
  merge_sort key_le (map_to_list m).

Definition btree_keys {A} (m : gmap N A) : list N := (btree_items m).*1.

Definition btree_values {A} (m : gmap N A) : list A := (btree_items m).*2.

Lemma elem_of_btree_items {A} (m : gmap N A) k v :
  (k, v) ∈ btree_items m <-> m !! k = Some v.
Proof.
  unfold btree_items. by rewrite merge_sort_Permutation, elem_of_map_to_list.
Qed.

Lemma elem_of_btree_values {A} (m : gmap N A) v :
  v ∈ btree_values m <-> exists k, m !! k = Some v.
Proof.
  unfold btree_values. rewrite list_elem_of_fmap. split.
  - intros [[k v'] [-> Hin]]. exists k. by apply elem_of_btree_items.
  - intros [k Hk]. exists (k, v). split; [done|]. by apply elem_of_btree_items.
Qed.

Lemma btree_items_NoDup_keys {A} (m : gmap N A) : NoDup (btree_keys m).
Proof.
  unfold btree_keys, btree_items. rewrite merge_sort_Permutation.
  apply NoDup_fst_map_to_list.
Qed.

Lemma StronglySorted_key_lt {A} (l : list (N * A)) :
  StronglySorted key_le l -> NoDup l.*1 -> StronglySorted key_lt l.
Proof.
  induction 1 as [|p l Hs IH Hall]; simpl; intros Hnd; constructor;
    inversion Hnd as [|? ? Hni Hnd']; subst; auto.
  apply Forall_forall. intros q Hq. rewrite Forall_forall in Hall.
  specialize (Hall q Hq). unfold key_le, key_lt in *.
  assert (p.1 ≠ q.1); [|lia]. intros Heq. apply Hni. rewrite Heq.
  by apply list_elem_of_fmap_2.
Qed.

Lemma btree_items_sorted {A} (m : gmap N A) :
  StronglySorted key_lt (btree_items m).
Proof.
  apply StronglySorted_key_lt; [|apply btree_items_NoDup_keys].
  apply Sorted_StronglySorted; [apply _|]. apply Sorted_merge_sort, _.
Qed.

(** ** Searching lists

    [List.find] is Rust's [Iterator::find]. *)

Lemma find_Some_split {A} (p : A -> bool) l x :
  List.find p l = Some x ->
  exists l1 l2, l = l1 ++ x :: l2 /\ p x = true /\ Forall (fun y => p y = false) l1.
Proof.
  induction l as [|y l IH]; simpl; [done|]. destruct (p y) eqn:E.
  - intros [= ->]. exists [], l. repeat split; auto.
  - intros (l1 & l2 & -> & ? & ?)%IH. exists (y :: l1), l2. repeat split; auto.
Qed.

Lemma find_None_Forall {A} (p : A -> bool) l :
  List.find p l = None <-> Forall (fun y => p y = false) l.
Proof.
  induction l as [|y l IH]; simpl; [by split|]. destruct (p y) eqn:E.
  - split; [done|]. intros H; inversion H; congruence.
  - rewrite IH. split; [by constructor|]. by inversion 1.
Qed.

Lemma find_ext_in {A} (p q : A -> bool) l :
  (forall x, x ∈ l -> p x = q x) -> List.find p l = List.find q l.
Proof.
  induction l as [|y l IH]; simpl; [done|]. intros H.
  rewrite (H y) by apply list_elem_of_here.
  destruct (q y); [done|]. apply IH. intros x Hx. apply H. by right.
Qed.

Lemma find_app {A} (p : A -> bool) l1 l2 :
  List.find p (l1 ++ l2) =
  match List.find p l1 with Some x => Some x | None => List.find p l2 end.
Proof. induction l1 as [|y l IH]; simpl; [done|]. by destruct (p y). Qed.

Lemma find_filter {A} (P : A -> Prop) `{!forall x, Decision (P x)} (p : A -> bool) l :
  List.find p (filter P l) = List.find (fun x => bool_decide (P x) && p x) l.
Proof.
  induction l as [|x l IH]; [done|]. rewrite filter_cons.
  destruct (decide (P x)) as [Hx|Hx]; cbn [List.find].
  - rewrite (bool_decide_eq_true_2 _ Hx). cbn. by destruct (p x).
  - by rewrite (bool_decide_eq_false_2 _ Hx).
Qed.

Lemma forallb_Forall_true {A} (p : A -> bool) l :
  forallb p l = true <-> Forall (fun x => p x = true) l.
Proof.
  induction l as [|x l IH]; simpl; [by split|].
  rewrite andb_true_iff, IH, Forall_cons. done.
Qed.

Lemma existsb_false_Forall {A} (p : A -> bool) l :
  existsb p l = false <-> Forall (fun x => p x = false) l.
Proof.
  induction l as [|x l IH]; simpl; [by split|]. by rewrite orb_false_iff, IH, Forall_cons.
Qed.

Lemma foldl_fmap {A B C} (f : A -> B -> A) (g : C -> B) a l :
  foldl f a (g <$> l) = foldl (fun x y => f x (g y)) a l.
Proof. revert a; induction l as [|y l IH]; intros a; simpl; [done|]. apply IH. Qed.

Lemma find_skip {A} (p : A -> bool) l1 l2 :
  Forall (fun x => p x = false) l1 -> List.find p (l1 ++ l2) = List.find p l2.
Proof. intros H. by rewrite find_app, (proj2 (find_None_Forall p l1) H). Qed.

Lemma find_true_and {A} (q p : A -> bool) l :
  Forall (fun x => q x = true) l -> List.find (fun x => q x && p x) l = List.find p l.
Proof.
  intros H. apply find_ext_in. intros x Hx. rewrite Forall_forall in H. by rewrite (H x Hx).
Qed.

Lemma existsb_false_intro {A} (p : A -> bool) l :
  (forall x, x ∈ l -> p x = false) -> existsb p l = false.
Proof. intros H. by apply existsb_false_Forall, Forall_forall. Qed.

Lemma elem_of_btree_keys {A} (m : gmap N A) k : k ∈ btree_keys m <-> is_Some (m !! k).
Proof.
  unfold btree_keys. rewrite list_elem_of_fmap. split.
  - intros [[k' v] [-> Hin]]. apply elem_of_btree_items in Hin. eauto.
  - intros [v Hv]. exists (k, v). split; [done|]. by apply elem_of_btree_items.
Qed.

Lemma btree_keys_sorted {A} (m : gmap N A) : StronglySorted N.le (btree_keys m).
Proof.
  unfold btree_keys. pose proof (btree_items_sorted m) as Hs.
  induction Hs as [|p l Hs IH Hall]; cbn; constructor; [done|].
  apply Forall_fmap. eapply Forall_impl; [apply Hall|]. intros q Hq. unfold key_lt in Hq. cbn. lia.
Qed.

Lemma StronglySorted_filter {A} (R : relation A) (P : A -> Prop) `{!forall x, Decision (P x)} l :
  StronglySorted R l -> StronglySorted R (filter P l).
Proof.
  induction 1 as [|x l Hs IH Hall]; [constructor|]. rewrite filter_cons. case_decide; [|done].
  constructor; [done|]. rewrite Forall_forall in Hall |- *.
  intros y [_ Hy]%list_elem_of_filter. by apply Hall.
Qed.

#[export] Instance key_lt_antisymm {A} : AntiSymm (=) (@key_lt A).
Proof. intros p q. unfold key_lt. lia. Qed.

(** Filtering an ordered map filters its listing. *)
Lemma btree_items_filter {A} (P : N * A -> Prop) `{!forall p, Decision (P p)} (m : gmap N A) :
  btree_items (filter P m) = filter P (btree_items m).
Proof.
  assert (Hnd : forall m : gmap N A, NoDup (btree_items m)).
  { intros m'. apply (NoDup_fmap_1 fst), btree_items_NoDup_keys. }
  apply (StronglySorted_unique key_lt).
  - apply btree_items_sorted.
  - apply StronglySorted_filter, btree_items_sorted.
  - apply NoDup_Permutation; [done|by apply NoDup_filter|]. intros [k v].
    rewrite elem_of_btree_items, list_elem_of_filter, elem_of_btree_items.
    rewrite map_lookup_filter_Some. tauto.
Qed.

(** A filtered listing of an ordered map has distinct keys. *)
Lemma NoDup_filter_items {A} (P : N * A -> Prop) `{!forall p, Decision (P p)} (m : gmap N A) :
  NoDup (filter P (btree_items m)).*1.
Proof.
  eapply sublist_NoDup; [apply (btree_items_NoDup_keys m)|]. apply fmap_sublist, sublist_filter.
Qed.

(** Two ordered maps with the same domain list the same keys. *)
Lemma btree_keys_dom {A B} (m1 : gmap N A) (m2 : gmap N B) :
  (forall k, is_Some (m1 !! k) <-> is_Some (m2 !! k)) -> btree_keys m1 = btree_keys m2.
Proof.
  intros H. apply (StronglySorted_unique N.le); [apply btree_keys_sorted..|].
  apply NoDup_Permutation; [apply btree_items_NoDup_keys..|].
  intros k. by rewrite !elem_of_btree_keys.
Qed.

Lemma NoDup_fmap_inj {A B} (f : A -> B) l x y :
  NoDup (f <$> l) -> x ∈ l -> y ∈ l -> f x = f y -> x = y.
Proof.
  intros Hnd [i Hi]%list_elem_of_lookup [j Hj]%list_elem_of_lookup Hf.
  assert (i = j) as ->; [|congruence].
  eapply NoDup_lookup; [exact Hnd| |]; rewrite list_lookup_fmap, ?Hi, ?Hj; cbn; [done|congruence].
Qed.

(** [enumerate] is Rust's [Iterator::enumerate] with the index as an offset. *)
Fixpoint enumerate_from {A} (i : N) (l : list A) : list (N * A) :=
  match l with
  | [] => []
  | x :: l => (i, x) :: enumerate_from (i + 1) l
  end.
Definition enumerate {A} (l : list A) : list (N * A) := enumerate_from 0 l.

(** [vec_get l k] is Rust's [l.get(k as usize)]. *)
Definition vec_get {A} (l : list A) (k : N) : option A := l !! N.to_nat k.
Definition vec_len {A} (l : list A) : N := N.of_nat (length l).

Lemma elem_of_enumerate_from {A} (l : list A) i k x :
  (k, x) ∈ enumerate_from i l <-> (i <= k)%N /\ vec_get l (k - i) = Some x.
Proof.
  unfold vec_get. revert i; induction l as [|y l IH]; intros i; simpl.
  - split; [by intros ?%not_elem_of_nil|]. intros [_ H].
    by rewrite lookup_nil in H.
  - rewrite elem_of_cons, IH. split.
    + intros [[= -> ->]|[Hle Hl]].
      * split; [lia|]. by replace (i - i)%N with 0%N by lia.
      * split; [lia|]. replace (N.to_nat (k - i)) with (S (N.to_nat (k - (i + 1)))) by lia.
        done.
    + intros [Hle Hl]. destruct (decide (k = i)) as [->|Hne].
      * replace (i - i)%N with 0%N in Hl by lia. simpl in Hl. left. congruence.
      * right. split; [lia|].
        replace (N.to_nat (k - i)) with (S (N.to_nat (k - (i + 1)))) in Hl by lia.
        done.
Qed.

Lemma elem_of_enumerate {A} (l : list A) k x :
  (k, x) ∈ enumerate l <-> vec_get l k = Some x.
Proof.
  unfold enumerate. rewrite elem_of_enumerate_from.
  replace (k - 0)%N with k by lia. split; [by intros []|]. split; [lia|done].
Qed.

Lemma enumerate_from_sorted {A} (l : list A) i :
  StronglySorted key_lt (enumerate_from i l).
Proof.
  revert i; induction l as [|x l IH]; intros i; simpl; constructor; auto.
  apply Forall_forall. intros [k y] [Hk _]%elem_of_enumerate_from.
  unfold key_lt; simpl; lia.
Qed.

Lemma enumerate_from_app {A} (l1 l2 : list A) i :
  enumerate_from i (l1 ++ l2) =
  enumerate_from i l1 ++ enumerate_from (i + vec_len l1) l2.
Proof.
  unfold vec_len. revert i; induction l1 as [|x l IH]; intros i; simpl.
  - f_equal. lia.
  - rewrite IH. do 3 f_equal. lia.
Qed.

Lemma StronglySorted_lt_NoDup (l : list N) : StronglySorted N.lt l -> NoDup l.
Proof.
  induction 1 as [|x l _ IH Hx]; constructor; [|done]. intros Hin.
  rewrite Forall_forall in Hx. specialize (Hx x Hin). lia.
Qed.

Lemma length_filter_sub_lt {A} (P Q : A -> Prop) `{!forall x, Decision (P x), !forall x, Decision (Q x)} x l :
  x ∈ l -> (forall y, Q y -> P y) -> P x -> ~ Q x -> (length (filter Q l) < length (filter P l))%nat.
Proof.
  intros Hx Hsub HP HQ. induction l as [|y l IH]; [by apply not_elem_of_nil in Hx|].
  assert (Hle : forall l : list A, (length (filter Q l) <= length (filter P l))%nat).
  { clear -Hsub. induction l as [|y l IH]; [done|]. rewrite !filter_cons.
    destruct (decide (Q y)) as [Hq|], (decide (P y)) as [|Hp]; cbn; try lia. by destruct Hp; apply Hsub. }
  rewrite !filter_cons. apply elem_of_cons in Hx as [<-|Hx].
  - rewrite decide_False, decide_True by done. cbn. specialize (Hle l). lia.
  - specialize (IH Hx). destruct (decide (Q y)) as [Hq|], (decide (P y)) as [|Hp]; cbn; try lia.
    by destruct Hp; apply Hsub.
Qed.

Lemma vec_get_lt {A} (l : list A) k x : vec_get l k = Some x -> (k < vec_len l)%N.
Proof.
  unfold vec_get, vec_len. intros H%lookup_lt_Some. lia.
Qed.

Lemma vec_get_is_Some {A} (l : list A) k : (k < vec_len l)%N <-> is_Some (vec_get l k).
Proof.
  unfold vec_get, vec_len. rewrite lookup_lt_is_Some. lia.
Qed.

Lemma vec_get_app_l {A} (l1 l2 : list A) k x :
  vec_get l1 k = Some x -> vec_get (l1 ++ l2) k = Some x.
Proof. apply lookup_app_l_Some. Qed.

Lemma vec_get_snoc {A} (l : list A) x : vec_get (l ++ [x]) (vec_len l) = Some x.
Proof.
  unfold vec_get, vec_len. rewrite Nat2N.id. by apply list_lookup_middle.
Qed.

Lemma vec_len_app {A} (l1 l2 : list A) : vec_len (l1 ++ l2) = (vec_len l1 + vec_len l2)%N.
Proof. unfold vec_len. rewrite length_app. lia. Qed.

Lemma vec_len_nil {A} : vec_len (@nil A) = 0%N.
Proof. done. Qed.

Lemma vec_len_cons {A} (x : A) l : vec_len (x :: l) = (1 + vec_len l)%N.
Proof. unfold vec_len. simpl. lia. Qed.

#[export] Hint Resolve vec_get_lt vec_get_app_l : runnel.

(** The first entry of a key-sorted list that satisfies a test is the one with
    the least key. *)
Lemma find_sorted_least {A} (p : N * A -> bool) l k v :
  StronglySorted key_lt l ->
  List.find p l = Some (k, v) <->
  (k, v) ∈ l /\ p (k, v) = true /\
  (forall k' v', (k', v') ∈ l -> p (k', v') = true -> (k <= k')%N).
Proof.
  intros Hs. induction Hs as [|[k0 v0] l Hs IH Hall]; simpl.
  - split; [done|]. by intros [?%not_elem_of_nil _].
  - rewrite Forall_forall in Hall. destruct (p (k0, v0)) eqn:E.
    + split.
      * intros [= -> ->]. split; [apply list_elem_of_here|]. split; [done|].
        intros k' v' [[= -> ->]|Hin]%elem_of_cons _; [lia|].
        specialize (Hall _ Hin). unfold key_lt in Hall; simpl in Hall. lia.
      * intros ([[= -> ->]|Hin]%elem_of_cons & Hp & Hmin); [done|].
        specialize (Hall _ Hin). specialize (Hmin k0 v0).
        unfold key_lt in Hall; simpl in Hall.
        assert (k <= k0)%N by (apply Hmin; [apply list_elem_of_here|done]). lia.
    + rewrite IH. split.
      * intros (Hin & Hp & Hmin). split; [by right|]. split; [done|].
        intros k' v' [[= -> ->]|Hin']%elem_of_cons Hp'; [congruence|eauto].
      * intros ([[= -> ->]|Hin]%elem_of_cons & Hp & Hmin); [congruence|].
        split; [done|]. split; [done|]. intros k' v' Hin' Hp'.
        apply (Hmin k' v'); [by right|done].
Qed.
