(* ===== verification/Engine.v ===== *)
(** The shared engine contract of crates/runnel-engine/src/lib.rs: the values
    that cross the engine boundary (policies, messages, receipts, errors), the
    request validators, the retry classification of errors, and the response
    sizer that engines consult before they assign a delivery. *)

From S2P Require Import Prelude.

Local Open Scope N_scope.

Abbreviation Offset := N.

(** ** Limits *)

Definition MAX_CONSUMER_POLICY_ACK_TIMEOUT_MS : N := 7 * 24 * 60 * 60 * 1000.
Definition MAX_CONSUMER_POLICY_RETRY_DELAY_MS : N := MAX_CONSUMER_POLICY_ACK_TIMEOUT_MS.
Definition MAX_PUBLISH_BATCH_RECORDS : N := 1024.
Definition MAX_CONSUME_BATCH_RECORDS : N := 1024.
Definition MAX_CONSUME_BATCH_RESPONSE_BYTES : N := 65 * 1024 * 1024.

(** ** Errors *)

Inductive IoErrorKind :=
| InvalidData | InvalidInput | WouldBlock | NotFound | AlreadyExists
| UnexpectedEof | Interrupted | OtherIo.

#[export] Instance IoErrorKind_eq_dec : EqDecision IoErrorKind.
Proof. solve_decision. Defined.

Inductive ConsumerStatePersistStage := BeforeAppend | Append | Sync.

#[export] Instance ConsumerStatePersistStage_eq_dec : EqDecision ConsumerStatePersistStage.
Proof. solve_decision. Defined.

Inductive BrokerError :=
| InvalidName (kind name : string)
| InvalidRecord (message : string)
| StreamNotFound (stream : string)
| StreamNotReady (stream : string)
| AckNotInFlight (consumer : string) (offset : Offset)
| StaleDelivery (consumer : string) (offset : Offset)
| OutOfOrderAck (consumer : string) (expected received : Offset)
| HistoryUnavailable (stream : string) (requested_offset earliest_offset next_offset : Offset)
| CorruptRecord (offset : Offset)
| Io (kind : IoErrorKind) (message : string)
| State (message : string)
| ConsumerStatePersistence (stage : ConsumerStatePersistStage) (message : string)
| RequestIdContentConflict
| LockPoisoned
| Configuration (message : string)
| InvalidBatchRequest (message : string)
| ConsumeBatchRecordTooLarge (max_bytes : N)
| ResponseTooLarge (max_bytes : N)
| NotLeader (leader_id : option N)
| Cluster (message : string).

#[export] Instance BrokerError_eq_dec : EqDecision BrokerError.
Proof. solve_decision. Defined.

Record HealthSnapshot := {
  hs_streams : N;
  hs_storage_bytes : N;
  hs_in_flight_deliveries : N;
  hs_redeliveries : N;
  hs_dead_letters : N;
}.

Inductive BrokerErrorKind :=
| KInvalidRequest | KResourceNotFound | KResourceNotReady | KDeliveryRejected
| KRequestIdContentConflict | KHistoryUnavailable | KCorruptData | KStorage
| KState | KConfiguration | KRouting | KCluster | KInternal.

Inductive BrokerErrorOutcome := Rejected | Retryable | Unknown.

#[export] Instance BrokerErrorOutcome_eq_dec : EqDecision BrokerErrorOutcome.
Proof. solve_decision. Defined.

Definition error_kind (e : BrokerError) : BrokerErrorKind :=
  match e with
  | InvalidName _ _ | InvalidRecord _ => KInvalidRequest
  | StreamNotFound _ => KResourceNotFound
  | StreamNotReady _ => KResourceNotReady
  | AckNotInFlight _ _ | StaleDelivery _ _ | OutOfOrderAck _ _ _ => KDeliveryRejected
  | RequestIdContentConflict => KRequestIdContentConflict
  | HistoryUnavailable _ _ _ _ => KHistoryUnavailable
  | CorruptRecord _ => KCorruptData
  | Io _ _ => KStorage
  | State _ => KState
  | ConsumerStatePersistence _ _ => KState
  | LockPoisoned => KInternal
  | Configuration _ => KConfiguration
  | InvalidBatchRequest _ | ConsumeBatchRecordTooLarge _ | ResponseTooLarge _ => KInvalidRequest
  | NotLeader _ => KRouting
  | Cluster _ => KCluster
  end.

Definition error_outcome (e : BrokerError) : BrokerErrorOutcome :=
  match e with
  | ConsumerStatePersistence BeforeAppend _ => Retryable
  | _ =>
    match error_kind e with
    | KResourceNotReady | KRouting => Retryable
    | KCorruptData | KStorage | KState | KInternal | KCluster => Unknown
    | KInvalidRequest | KResourceNotFound | KDeliveryRejected
    | KRequestIdContentConflict | KHistoryUnavailable | KConfiguration => Rejected
    end
  end.

(** ** Values *)

Record ConsumeBatchLimits := {
  max_records : N;
  max_bytes : N;
  max_wait_ms : N;
}.

Record DeliveryReceipt := {
  dr_offset : Offset;
  dr_delivery_token : string;
}.

Inductive AckBatchRejection := NotInFlight | StaleDeliveryReceipt.

#[export] Instance AckBatchRejection_eq_dec : EqDecision AckBatchRejection.
Proof. solve_decision. Defined.

Inductive AckBatchOutcome :=
| Confirmed
| AlreadyConfirmed
| ReceiptRejected (reason : AckBatchRejection).

#[export] Instance AckBatchOutcome_eq_dec : EqDecision AckBatchOutcome.
Proof. solve_decision. Defined.

Record AckBatchItem := {
  abi_offset : Offset;
  abi_outcome : AckBatchOutcome;
}.

Record PublishRecord := {
  pr_key : option string;
  pr_payload : list byte;
  pr_request_id : option string;
}.

Record ConsumerPolicy := {
  policy_version : N;
  configured : bool;
  ack_timeout_ms : N;
  max_delivery_attempts : option N;
  retry_delay_ms : N;
}.

#[export] Instance ConsumerPolicy_eq_dec : EqDecision ConsumerPolicy.
Proof. solve_decision. Defined.

Definition policy_legacy (timeout : N) (attempts : option N) : ConsumerPolicy :=
  {| policy_version := 0; configured := false; ack_timeout_ms := timeout;
     max_delivery_attempts := attempts; retry_delay_ms := 0 |}.

Definition policy_configured (version timeout : N) (attempts : option N) (delay : N) :
  ConsumerPolicy :=
  {| policy_version := version; configured := true; ack_timeout_ms := timeout;
     max_delivery_attempts := attempts; retry_delay_ms := delay |}.

Record Message := {
  msg_stream : string;
  msg_offset : Offset;
  msg_key : option string;
  msg_payload : list byte;
  msg_published_at_ms : N;
  msg_delivery_token : option string;
  msg_delivery_attempt : option N;
}.

Record ReplayMessage := {
  rm_stream : string;
  rm_offset : Offset;
  rm_key : option string;
  rm_payload : list byte;
  rm_published_at_ms : N;
}.

Inductive PollResult :=
| PollMessage (m : Message)
| PollEmpty.

Inductive AckResult := Acknowledged | AlreadyAcknowledged.

(** The attempt budget of a policy is spent: [max.is_some_and(|m| attempts >= m)]. *)
Definition attempts_exhausted (policy : ConsumerPolicy) (attempts : N) : bool :=
  is_some_and (fun maximum => maximum <=? attempts) (max_delivery_attempts policy).

(** ** Validators *)

Definition validate_consume_batch_limits (limits : ConsumeBatchLimits) : Result unit BrokerError :=
  if negb ((1 <=? max_records limits) && (max_records limits <=? MAX_CONSUME_BATCH_RECORDS)) then
    Err (InvalidBatchRequest
           ("max_records must be between 1 and " +:+ pretty MAX_CONSUME_BATCH_RECORDS))
  else if (max_bytes limits =? 0) || (MAX_CONSUME_BATCH_RESPONSE_BYTES <? max_bytes limits) then
    Err (InvalidBatchRequest
           ("max_bytes must be between 1 and " +:+ pretty MAX_CONSUME_BATCH_RESPONSE_BYTES))
  else Ok tt.

Definition validate_poll_response_limit (max_response_bytes : N) : Result unit BrokerError :=
  if negb ((1 <=? max_response_bytes) && (max_response_bytes <=? MAX_CONSUME_BATCH_RESPONSE_BYTES))
  then
    Err (InvalidBatchRequest
           ("max_response_bytes must be between 1 and "
              +:+ pretty MAX_CONSUME_BATCH_RESPONSE_BYTES))
  else Ok tt.

Fixpoint check_duplicate_receipts (offsets : gset N) (receipts : list DeliveryReceipt) :
  Result unit BrokerError :=
  match receipts with
  | [] => Ok tt
  | receipt :: receipts =>
    if decide (dr_offset receipt ∈ offsets) then
      Err (InvalidBatchRequest
             ("duplicate acknowledgement offset " +:+ pretty (dr_offset receipt)))
    else check_duplicate_receipts ({[dr_offset receipt]} ∪ offsets) receipts
  end.

Definition validate_ack_batch_receipts (receipts : list DeliveryReceipt) : Result unit BrokerError :=
  if (vec_len receipts =? 0) || (MAX_CONSUME_BATCH_RECORDS <? vec_len receipts) then
    Err (InvalidBatchRequest
           ("acknowledgement receipt count must be between 1 and "
              +:+ pretty MAX_CONSUME_BATCH_RECORDS))
  else check_duplicate_receipts ∅ receipts.

Definition validate_consumer_policy (timeout : N) (attempts : option N) (delay : N) :
  Result unit BrokerError :=
  if MAX_CONSUMER_POLICY_ACK_TIMEOUT_MS <? timeout then
    Err (Configuration
           ("consumer acknowledgement timeout must not exceed "
              +:+ pretty MAX_CONSUMER_POLICY_ACK_TIMEOUT_MS +:+ " milliseconds"))
  else if decide (attempts = Some 0) then
    Err (Configuration "max delivery attempts must be greater than zero")
  else if MAX_CONSUMER_POLICY_RETRY_DELAY_MS <? delay then
    Err (Configuration
           ("consumer retry delay must not exceed "
              +:+ pretty MAX_CONSUMER_POLICY_RETRY_DELAY_MS +:+ " milliseconds"))
  else Ok tt.

(** ** Response sizes *)

(** The loop of [protobuf_varint_len]; ten rounds reach the end of any [u64]
    ([varint_len_exact]). *)
Fixpoint varint_len_loop (fuel : nat) (value length : N) : N :=
  match fuel with
  | O => length
  | S fuel => if 128 <=? value then varint_len_loop fuel (N.shiftr value 7) (length + 1) else length
  end.

Definition protobuf_varint_len (value : N) : N := varint_len_loop 10 value 1.

Definition protobuf_bytes_field_upper_bound (value_len : N) : N :=
  usize_saturating_add (usize_saturating_add 1 (protobuf_varint_len value_len)) value_len.

Definition protobuf_string_field_upper_bound (value : string) : N :=
  protobuf_bytes_field_upper_bound (str_len value).

Definition protobuf_varint_field_upper_bound (value : N) : N :=
  usize_saturating_add 1 (protobuf_varint_len value).

Definition length_delimited_field_upper_bound (value_len : N) : N :=
  protobuf_bytes_field_upper_bound value_len.

Record MessageResultMetadata := {
  mrm_stream : string;
  mrm_consumer : string;
  mrm_member : option string;
  mrm_offset : Offset;
  mrm_key : option string;
  mrm_payload_len : N;
  mrm_published_at_ms : N;
  mrm_delivery_token : option string;
  mrm_delivery_attempt : option N;
  mrm_include_delivery_token : bool;
}.

Definition message_result_upper_bound (m : MessageResultMetadata) : N :=
  let length :=
    usize_saturating_add
      (usize_saturating_add
         (usize_saturating_add
            (usize_saturating_add
               (protobuf_string_field_upper_bound (mrm_stream m))
               (protobuf_string_field_upper_bound (mrm_consumer m)))
            (protobuf_varint_field_upper_bound (mrm_offset m)))
         (protobuf_bytes_field_upper_bound (mrm_payload_len m)))
      (protobuf_varint_field_upper_bound (mrm_published_at_ms m)) in
  let length :=
    match mrm_member m with
    | Some member => usize_saturating_add length (protobuf_string_field_upper_bound member)
    | None => length
    end in
  let length :=
    match mrm_key m with
    | Some key => usize_saturating_add length (protobuf_string_field_upper_bound key)
    | None => length
    end in
  let length :=
    match (if mrm_include_delivery_token m then mrm_delivery_token m else None) with
    | Some token => usize_saturating_add length (protobuf_string_field_upper_bound token)
    | None => length
    end in
  match mrm_delivery_attempt m with
  | Some attempt => usize_saturating_add length (protobuf_varint_field_upper_bound attempt)
  | None => length
  end.

Definition poll_message_response_upper_bound_parts
  (stream consumer : string) (member : option string) (offset : Offset)
  (key : option string) (payload_len published_at_ms : N)
  (delivery_token : option string) (delivery_attempt : option N)
  (include_delivery_token : bool) : N :=
  let message_len := message_result_upper_bound
    {| mrm_stream := stream; mrm_consumer := consumer; mrm_member := member;
       mrm_offset := offset; mrm_key := key; mrm_payload_len := payload_len;
       mrm_published_at_ms := published_at_ms; mrm_delivery_token := delivery_token;
       mrm_delivery_attempt := delivery_attempt;
       mrm_include_delivery_token := include_delivery_token |} in
  let application_response_len :=
    usize_saturating_add 4 (length_delimited_field_upper_bound message_len) in
  length_delimited_field_upper_bound application_response_len.

Definition poll_message_response_upper_bound (message : Message) (consumer : string)
  (member : option string) (include_delivery_token : bool) : N :=
  poll_message_response_upper_bound_parts (msg_stream message) consumer member
    (msg_offset message) (msg_key message) (vec_len (msg_payload message))
    (msg_published_at_ms message) (msg_delivery_token message)
    (msg_delivery_attempt message) include_delivery_token.

Definition batch_message_item_upper_bound (message : Message) (consumer : string)
  (member : option string) : N :=
  let message_len := message_result_upper_bound
    {| mrm_stream := msg_stream message; mrm_consumer := consumer; mrm_member := member;
       mrm_offset := msg_offset message; mrm_key := msg_key message;
       mrm_payload_len := vec_len (msg_payload message);
       mrm_published_at_ms := msg_published_at_ms message;
       mrm_delivery_token := msg_delivery_token message;
       mrm_delivery_attempt := msg_delivery_attempt message;
       mrm_include_delivery_token := bool_decide (is_Some (msg_delivery_token message)) |} in
  let item_len := usize_saturating_add 4 (length_delimited_field_upper_bound message_len) in
  length_delimited_field_upper_bound item_len.

Record PollBatchResponseSizer := {
  sizer_consumer : string;
  sizer_member : option string;
  encoded_len : N;
}.

Definition sizer_new (stream consumer : string) (member : option string) : PollBatchResponseSizer :=
  let batch_result_len :=
    usize_saturating_add (protobuf_string_field_upper_bound stream)
      (protobuf_string_field_upper_bound consumer) in
  let application_response_len := length_delimited_field_upper_bound batch_result_len in
  {| sizer_consumer := consumer; sizer_member := member;
     encoded_len := length_delimited_field_upper_bound application_response_len |}.

Definition projected_len (s : PollBatchResponseSizer) (message : Message) : N :=
  usize_saturating_add (encoded_len s)
    (batch_message_item_upper_bound message (sizer_consumer s) (sizer_member s)).

Definition sizer_push (s : PollBatchResponseSizer) (message : Message) : PollBatchResponseSizer :=
  {| sizer_consumer := sizer_consumer s; sizer_member := sizer_member s;
     encoded_len := projected_len s message |}.

Definition poll_batch_response_len (stream consumer : string) (member : option string)
  (messages : list Message) : N :=
  encoded_len (foldl sizer_push (sizer_new stream consumer member) messages).

(** ** Facts about the validators *)

Lemma check_duplicate_receipts_Ok offsets receipts :
  check_duplicate_receipts offsets receipts = Ok tt <->
  NoDup (dr_offset <$> receipts) /\ Forall (fun r => dr_offset r ∉ offsets) receipts.
Proof.
  revert offsets; induction receipts as [|r receipts IH]; intros offsets; simpl.
  - split; [|done]. intros _. split; constructor.
  - case_decide as Hin.
    + split; [done|]. intros [_ Hall]. by inversion Hall.
    + rewrite IH, NoDup_cons, Forall_cons, !Forall_forall, list_elem_of_fmap. clear IH. split.
      * intros [Hnd Hall]. split_and!; [|done|done|].
        -- intros (r' & Heq & Hr'). apply (Hall r' Hr'). rewrite <-Heq. set_solver.
        -- intros r' Hr'. specialize (Hall r' Hr'). set_solver.
      * intros [[Hni Hnd] [_ Hall]]. split; [done|]. intros r' Hr'.
        specialize (Hall r' Hr'). rewrite elem_of_union, elem_of_singleton.
        intros [Heq|]; [|done]. apply Hni. by exists r'.
Qed.

(** ** Facts about sizes *)

Lemma varint_len_loop_spec fuel value length :
  value < 128 ^ N.of_nat (S fuel) ->
  exists k, varint_len_loop fuel value length = length + k /\
    value < 128 ^ (k + 1) /\ (0 < k -> 128 ^ k <= value) /\ k <= N.of_nat fuel.
Proof.
  revert value length; induction fuel as [|fuel IH]; intros value length Hv.
  - exists 0. simpl in *. repeat split; lia.
  - simpl varint_len_loop. destruct (128 <=? value) eqn:E.
    + apply N.leb_le in E. rewrite N.shiftr_div_pow2.
      rewrite Nat2N.inj_succ, N.pow_succ_r' in Hv.
      destruct (IH (value / 2 ^ 7) (length + 1)) as (k & -> & Hlt & Hge & Hk).
      { change (2 ^ 7) with 128. apply N.Div0.div_lt_upper_bound. lia. }
      change (2 ^ 7) with 128 in *. exists (k + 1). repeat split; [lia| | |lia].
      * rewrite (N.pow_add_r 128 (k + 1) 1). change (128 ^ 1) with 128.
        pose proof (N.div_mod value 128). pose proof (N.mod_lt value 128). nia.
      * intros _. rewrite N.pow_add_r. change (128 ^ 1) with 128.
        pose proof (N.Div0.mul_div_le value 128).
        destruct (decide (k = 0)) as [->|]; [simpl; lia|].
        assert (128 ^ k <= value / 128) by (apply Hge; lia). nia.
    + apply N.leb_gt in E. exists 0. repeat split; lia.
Qed.

Lemma protobuf_varint_len_bounds value :
  value <= u64_max -> 1 <= protobuf_varint_len value <= 10.
Proof.
  intros Hv. unfold protobuf_varint_len. unfold u64_max in Hv.
  destruct (varint_len_loop_spec 10 value 1) as (k & -> & Hlt & Hge & Hk).
  - change (N.of_nat 11) with 11. change (128 ^ 11) with 151115727451828646838272. lia.
  - split; [lia|]. destruct (decide (k = 10)) as [->|]; [|lia].
    assert (128 ^ 10 <= value) by (apply Hge; lia).
    change (128 ^ 10) with 1180591620717411303424 in *. lia.
Qed.

Lemma protobuf_bytes_field_upper_bound_ge n :
  n <= usize_max -> N.min (n + 2) usize_max <= protobuf_bytes_field_upper_bound n.
Proof.
  intros Hn. pose proof (protobuf_varint_len_bounds n Hn).
  unfold protobuf_bytes_field_upper_bound, usize_saturating_add, saturating_add, usize_max, u64_max in *.
  lia.
Qed.

(** C37: The request validators accept exactly the documented ranges: consume
    limits of 1 to 1024 records and 1 byte to 65 MiB, response limits of 1 byte to
    65 MiB, between 1 and 1024 receipts with distinct offsets, and consumer
    policies with a timeout and a delay of at most seven days and a positive
    number of attempts. *)
Theorem validators_exact limits response_bytes receipts timeout attempts delay :
  (validate_consume_batch_limits limits = Ok tt <->
     1 <= max_records limits <= 1024 /\ 1 <= max_bytes limits <= 68157440) /\
  (validate_poll_response_limit response_bytes = Ok tt <-> 1 <= response_bytes <= 68157440) /\
  (validate_ack_batch_receipts receipts = Ok tt <->
     1 <= vec_len receipts <= 1024 /\ NoDup (dr_offset <$> receipts)) /\
  (validate_consumer_policy timeout attempts delay = Ok tt <->
     timeout <= 604800000 /\ attempts <> Some 0 /\ delay <= 604800000).
Proof.
  split_and!.
  - unfold validate_consume_batch_limits, MAX_CONSUME_BATCH_RECORDS, MAX_CONSUME_BATCH_RESPONSE_BYTES.
    repeat n_cases; cbn [andb negb orb]; split; try done; lia.
  - unfold validate_poll_response_limit, MAX_CONSUME_BATCH_RESPONSE_BYTES.
    repeat n_cases; cbn [andb negb]; split; try done; lia.
  - unfold validate_ack_batch_receipts, MAX_CONSUME_BATCH_RECORDS.
    destruct (_ || _) eqn:E.
    + rewrite orb_true_iff, N.eqb_eq, N.ltb_lt in E. split; [done|lia].
    + rewrite orb_false_iff, N.eqb_neq, N.ltb_ge in E. rewrite check_duplicate_receipts_Ok.
      split; [intros [? _]; split; [lia|done]|]. intros [_ ?]. split; [done|].
      apply Forall_forall. set_solver.
  - unfold validate_consumer_policy, MAX_CONSUMER_POLICY_ACK_TIMEOUT_MS,
      MAX_CONSUMER_POLICY_RETRY_DELAY_MS, MAX_CONSUMER_POLICY_ACK_TIMEOUT_MS.
    destruct (N.ltb_spec (7 * 24 * 60 * 60 * 1000) timeout); [split; [done|lia]|].
    case_decide; [split; [done|tauto]|].
    destruct (N.ltb_spec (7 * 24 * 60 * 60 * 1000) delay); split; try done; lia.
Qed.

(**  The varint length is exact: for every [u64] it is the least number of
    seven-bit groups that hold the value, at least one and at most ten. *)
Theorem varint_len_exact value :
  value <= u64_max ->
  let len := protobuf_varint_len value in
  1 <= len <= 10 /\ value < 128 ^ len /\ (forall n, 1 <= n -> value < 128 ^ n -> len <= n).
Proof.
  intros Hv. pose proof (protobuf_varint_len_bounds value Hv) as Hb. cbn zeta. split; [done|].
  unfold protobuf_varint_len in *. unfold u64_max in Hv.
  destruct (varint_len_loop_spec 10 value 1) as (k & -> & Hlt & Hge & _).
  - change (N.of_nat 11) with 11. change (128 ^ 11) with 151115727451828646838272. lia.
  - rewrite (N.add_comm 1). split; [done|]. intros n Hn Hvn.
    destruct (decide (k = 0)) as [->|]; [lia|].
    assert (128 ^ k <= value) by (apply Hge; lia). apply N.nlt_ge. intros Hlt'.
    assert (128 ^ n <= 128 ^ k); [apply N.pow_le_mono_r; lia|lia].
Qed.

Lemma varint_len_exact_witness :
  let len := protobuf_varint_len 16384 in
  1 <= len <= 10 /\ 16384 < 128 ^ len /\ (forall n, 1 <= n -> 16384 < 128 ^ n -> len <= n).
Proof. apply varint_len_exact. vm_compute. discriminate. Defined.
