(* ===== verification/RecordFormat.v ===== *)
(** The RNL3 record frame of crates/runnel-core/src/stream_log.rs: CRC-32C, the
    48-byte header, and the parser of one frame. *)

From S2P Require Import Prelude Engine.

Local Open Scope N_scope.

(** ** CRC-32C (Castagnoli), table driven *)

(** One bit of [crc32c_table]'s inner loop. *)
Definition crc32c_bit (value : N) : N :=
  if N.land value 1 =? 1 then N.lxor (N.shiftr value 1) 0x82f63b78 else N.shiftr value 1.

Definition crc32c_table_entry (index : nat) : N := Nat.iter 8 crc32c_bit (N.of_nat index).

Definition crc32c_table : list N := crc32c_table_entry <$> seq 0 256.

Definition CRC32C_TABLE : list N := Eval vm_compute in crc32c_table.

Definition crc32c_step (checksum : N) (b : byte) : N :=
  let table_index := N.land (N.lxor checksum (Byte.to_N b)) 0xff in
  N.lxor (N.shiftr checksum 8) (nth (N.to_nat table_index) CRC32C_TABLE 0).

Definition crc32c_update (checksum : N) (bytes : list byte) : N :=
  foldl crc32c_step checksum bytes.

(** [!checksum] on [u32]. *)
Definition u32_not (v : N) : N := N.lxor v u32_max.

Definition crc32c_finalize (checksum : N) : N := u32_not checksum.

(** ** UTF-8 ([std::str::from_utf8]) *)

Definition in_range (lo hi : N) (b : byte) : bool :=
  (lo <=? Byte.to_N b) && (Byte.to_N b <=? hi).

Definition utf8_cont (b : byte) : bool := in_range 0x80 0xbf b.

Fixpoint utf8_valid (l : list byte) : bool :=
  match l with
  | [] => true
  | b0 :: l0 =>
    if in_range 0 0x7f b0 then utf8_valid l0
    else
      match l0 with
      | [] => false
      | b1 :: l1 =>
        if in_range 0xc2 0xdf b0 then utf8_cont b1 && utf8_valid l1
        else
          match l1 with
          | [] => false
          | b2 :: l2 =>
            if in_range 0xe0 0xe0 b0 then in_range 0xa0 0xbf b1 && utf8_cont b2 && utf8_valid l2
            else if in_range 0xe1 0xec b0 then utf8_cont b1 && utf8_cont b2 && utf8_valid l2
            else if in_range 0xed 0xed b0 then in_range 0x80 0x9f b1 && utf8_cont b2 && utf8_valid l2
            else if in_range 0xee 0xef b0 then utf8_cont b1 && utf8_cont b2 && utf8_valid l2
            else
              match l2 with
              | [] => false
              | b3 :: l3 =>
                if in_range 0xf0 0xf0 b0 then
                  in_range 0x90 0xbf b1 && utf8_cont b2 && utf8_cont b3 && utf8_valid l3
                else if in_range 0xf1 0xf3 b0 then
                  utf8_cont b1 && utf8_cont b2 && utf8_cont b3 && utf8_valid l3
                else if in_range 0xf4 0xf4 b0 then
                  in_range 0x80 0x8f b1 && utf8_cont b2 && utf8_cont b3 && utf8_valid l3
                else false
              end
          end
      end
  end.

(** A value of Rust's type [String] holds valid UTF-8. *)
Definition rust_string (s : string) : Prop := utf8_valid (as_bytes s) = true.

(** ** Frame layout *)

Definition RECORD_MAGIC : list byte := as_bytes "RNL3".
Definition RECORD_HEADER_LEN : N := 48.
Definition RECORD_FORMAT_VERSION : N := 2.
Definition NO_IDENTITY_FLAG : N := 2.
Definition MAX_KEY_LEN : N := 128.
Definition MAX_BODY_LEN : N := 64 * 1024 * 1024.
Definition MAX_REQUEST_ID_LEN : N := 1024.

Inductive RequestIdentityKind := Public | DeadLetterMove.

#[export] Instance RequestIdentityKind_eq_dec : EqDecision RequestIdentityKind.
Proof. solve_decision. Defined.

Definition kind_flag (k : RequestIdentityKind) : N :=
  match k with Public => 0 | DeadLetterMove => 1 end.

Inductive RecordIdentity :=
| NoIdentity
| PublicId (request_id : string)
| MoveId (move_id : string).

Definition identity_flag (i : RecordIdentity) : N :=
  match i with
  | NoIdentity => NO_IDENTITY_FLAG
  | PublicId _ => kind_flag Public
  | MoveId _ => kind_flag DeadLetterMove
  end.

Definition identity_request_id (i : RecordIdentity) : option string :=
  match i with NoIdentity => None | PublicId r | MoveId r => Some r end.

Definition identity_kind (i : RecordIdentity) : option RequestIdentityKind :=
  match i with NoIdentity => None | PublicId _ => Some Public | MoveId _ => Some DeadLetterMove end.

Definition u32_try_from (n : N) : option N := if n <=? u32_max then Some n else None.

Definition record_lengths (key_len payload_len : N) : Result (N * N) BrokerError :=
  match u32_try_from key_len with
  | None => Err (InvalidRecord "message key length exceeds u32 storage representation")
  | Some key_len =>
    if MAX_KEY_LEN <? key_len then
      Err (InvalidRecord ("message key is " +:+ pretty key_len
             +:+ " bytes; stream record limit is " +:+ pretty MAX_KEY_LEN +:+ " bytes"))
    else
      match u32_try_from payload_len with
      | None => Err (InvalidRecord "message payload length exceeds u32 storage representation")
      | Some payload_len =>
        if MAX_BODY_LEN <? payload_len then
          Err (InvalidRecord ("message payload is " +:+ pretty payload_len
                 +:+ " bytes; stream record limit is " +:+ pretty MAX_BODY_LEN +:+ " bytes"))
        else Ok (key_len, payload_len)
      end
  end.

(** The header bytes with a given checksum field. *)
Definition record_header (flag payload_len offset published_at_ms key_len request_id_len checksum : N) :
  list byte :=
  RECORD_MAGIC ++ [byte_of_N RECORD_FORMAT_VERSION] ++ [byte_of_N flag]
  ++ to_le_bytes 2 RECORD_HEADER_LEN ++ to_le_bytes 4 payload_len ++ to_le_bytes 4 payload_len
  ++ to_le_bytes 8 offset ++ to_le_bytes 8 published_at_ms
  ++ to_le_bytes 4 key_len ++ to_le_bytes 4 request_id_len
  ++ replicate 4 Byte.x00 ++ to_le_bytes 4 checksum.

(** [header[44..48].fill(0)] *)
Definition zero_checksum (header : list byte) : list byte := take 44 header ++ replicate 4 Byte.x00.

Definition record_checksum (header key request_id body : list byte) : N :=
  let checksum := crc32c_update u32_max (zero_checksum header) in
  let checksum := crc32c_update checksum key in
  let checksum := crc32c_update checksum request_id in
  crc32c_finalize (crc32c_update checksum body).

(** The complete frame the append path writes. *)
Definition encode_record (flag offset published_at_ms : N) (key request_id payload : list byte) :
  list byte :=
  let header checksum :=
    record_header flag (vec_len payload) offset published_at_ms (vec_len key) (vec_len request_id)
      checksum in
  header (record_checksum (header 0) key request_id payload) ++ key ++ request_id ++ payload.

Arguments record_header : simpl never.
Arguments encode_record : simpl never.

(** ** Parsing one frame *)

Record RecordIndex := {
  ri_offset : Offset;
  ri_payload_offset : N;
  ri_payload_len : N;
  ri_key : option string;
  ri_request_id : option string;
  ri_request_identity_kind : option RequestIdentityKind;
  ri_published_at_ms : N;
}.

Record ParsedRecord := {
  pr_index : RecordIndex;
  pr_next_cursor : N;
}.

Definition invalid_record_data (message : string) : BrokerError := Io InvalidData message.

(** [Read::read_exact] of [n] bytes at position [pos] of the file. *)
Definition read_exact (file : list byte) (pos n : N) : Result (list byte) BrokerError :=
  let rest := drop (N.to_nat pos) file in
  if N.of_nat (length rest) <? n then Err (Io UnexpectedEof "failed to fill whole buffer")
  else Ok (take (N.to_nat n) rest).

(** [header[a..b]] *)
Definition slice (a b : nat) (l : list byte) : list byte := take (b - a) (drop a l).

Definition identity_kind_of_flag (flag : N) : Result (option RequestIdentityKind) BrokerError :=
  if flag =? 0 then Ok (Some Public)
  else if flag =? 1 then Ok (Some DeadLetterMove)
  else if flag =? NO_IDENTITY_FLAG then Ok None
  else Err (invalid_record_data "unsupported RNL3 record identity flag").

(** The checksum loop over the payload, 8192 bytes at a time. Each round reads
    at least one byte, so [remaining] rounds are enough. *)
Fixpoint checksum_payload (fuel : nat) (file : list byte) (pos remaining checksum : N) :
  Result N BrokerError :=
  if remaining =? 0 then Ok checksum
  else
    match fuel with
    | O => Ok checksum
    | S fuel =>
      let read_len := N.min remaining 8192 in
      let? buffer := read_exact file pos read_len in
      checksum_payload fuel file (pos + read_len) (remaining - read_len)
        (crc32c_update checksum buffer)
    end.

(** The fields of a header that passed every structural check. *)
Record HeaderFields := {
  hf_kind : option RequestIdentityKind;
  hf_stored_len : N;
  hf_key_len : N;
  hf_request_id_len : N;
}.

Definition check_header (header : list byte) : Result HeaderFields BrokerError :=
  if negb (from_le_bytes (slice 4 5 header) =? RECORD_FORMAT_VERSION) then
    Err (invalid_record_data "unsupported RNL3 record version")
  else
    let? kind := identity_kind_of_flag (from_le_bytes (slice 5 6 header)) in
    if negb (from_le_bytes (slice 6 8 header) =? RECORD_HEADER_LEN) then
      Err (invalid_record_data "invalid RNL3 record header length")
    else
      let stored_len := from_le_bytes (slice 8 12 header) in
      let logical_len := from_le_bytes (slice 12 16 header) in
      let key_len := from_le_bytes (slice 32 36 header) in
      let request_id_len := from_le_bytes (slice 36 40 header) in
      if MAX_KEY_LEN <? key_len then
        Err (invalid_record_data "RNL3 record key exceeds storage limit")
      else if MAX_REQUEST_ID_LEN <? request_id_len then
        Err (invalid_record_data "RNL3 record ID exceeds storage limit")
      else if (MAX_BODY_LEN <? stored_len) || (MAX_BODY_LEN <? logical_len) then
        Err (invalid_record_data "RNL3 record exceeds storage limit")
      else if bool_decide (kind = None) && negb (request_id_len =? 0) then
        Err (invalid_record_data "RNL3 record without identity contains ID bytes")
      else if negb (logical_len =? stored_len) then
        Err (invalid_record_data "compressed RNL3 records are not supported")
      else if negb (bool_decide (slice 40 44 header = replicate 4 Byte.x00)) then
        Err (invalid_record_data "unsupported RNL3 record header fields")
      else
        Ok {| hf_kind := kind; hf_stored_len := stored_len; hf_key_len := key_len;
              hf_request_id_len := request_id_len |}.

Definition read_record_body (file : list byte) (cursor : N) (header : list byte)
  (fields : HeaderFields) (record_len : N) : Result (option ParsedRecord) BrokerError :=
  let key_len := hf_key_len fields in
  let request_id_len := hf_request_id_len fields in
  let stored_len := hf_stored_len fields in
  let? key_bytes := read_exact file (cursor + RECORD_HEADER_LEN) key_len in
  let? key :=
    (if bool_decide (key_bytes = []) then Ok None
     else if utf8_valid key_bytes then Ok (Some (of_bytes key_bytes))
     else Err (invalid_record_data "RNL3 record key is not UTF-8")) in
  let? request_id_bytes := read_exact file (cursor + RECORD_HEADER_LEN + key_len) request_id_len in
  let? request_id :=
    (match hf_kind fields with
     | None => Ok None
     | Some _ =>
       if utf8_valid request_id_bytes then Ok (Some (of_bytes request_id_bytes))
       else Err (invalid_record_data "RNL3 record ID is not UTF-8")
     end) in
  let payload_offset := cursor + RECORD_HEADER_LEN + key_len + request_id_len in
  let expected_checksum := from_le_bytes (slice 44 48 header) in
  let checksum := crc32c_update u32_max (zero_checksum header) in
  let checksum := crc32c_update checksum key_bytes in
  let checksum := crc32c_update checksum request_id_bytes in
  let? checksum := checksum_payload (N.to_nat stored_len) file payload_offset stored_len checksum in
  if negb (crc32c_finalize checksum =? expected_checksum) then
    Err (invalid_record_data "RNL3 record checksum mismatch")
  else
    Ok (Some {| pr_index :=
                  {| ri_offset := from_le_bytes (slice 16 24 header);
                     ri_payload_offset := payload_offset; ri_payload_len := stored_len;
                     ri_key := key; ri_request_id := request_id;
                     ri_request_identity_kind := hf_kind fields;
                     ri_published_at_ms := from_le_bytes (slice 24 32 header) |};
                pr_next_cursor := cursor + record_len |}).

Definition read_record (file : list byte) (cursor file_len : N) (magic : list byte) :
  Result (option ParsedRecord) BrokerError :=
  if file_len - cursor <? RECORD_HEADER_LEN then Ok None
  else
    let? tail := read_exact file (cursor + 4) (RECORD_HEADER_LEN - 4) in
    let header := magic ++ tail in
    let? fields := check_header header in
    let checked_len :=
      match u64_checked_add RECORD_HEADER_LEN (hf_key_len fields) with
      | Some length =>
        match u64_checked_add length (hf_request_id_len fields) with
        | Some length => u64_checked_add length (hf_stored_len fields)
        | None => None
        end
      | None => None
      end in
    match checked_len with
    | None => Err (invalid_record_data "RNL3 record length overflows u64")
    | Some record_len =>
      if file_len - cursor <? record_len then Ok None
      else read_record_body file cursor header fields record_len
    end.

Definition read_next_record (file : list byte) (cursor file_len : N) :
  Result (option ParsedRecord) BrokerError :=
  if file_len - cursor <? 4 then Ok None
  else
    let? magic := read_exact file cursor 4 in
    if bool_decide (magic = as_bytes "RNL1") then
      Err (invalid_record_data "unsupported RNL1 stream format; this broker requires RNL3")
    else if bool_decide (magic = as_bytes "RNL2") then
      Err (invalid_record_data "unsupported RNL2 stream format; this broker requires RNL3")
    else if negb (bool_decide (magic = RECORD_MAGIC)) then
      Err (invalid_record_data "unsupported stream record magic")
    else read_record file cursor file_len magic.

(** ** Facts about the checksum *)

Lemma CRC32C_TABLE_eq : CRC32C_TABLE = crc32c_table.
Proof. vm_compute. reflexivity. Qed.

Lemma CRC32C_TABLE_bound i : nth i CRC32C_TABLE 0 < 2 ^ 32.
Proof.
  assert (H : Forall (fun v => v < 2 ^ 32) CRC32C_TABLE).
  { apply (bool_decide_eq_true_1 _). vm_compute. reflexivity. }
  destruct (decide (i < length CRC32C_TABLE)%nat) as [Hi|Hi].
  - rewrite Forall_forall in H. apply H. apply list_elem_of_In, nth_In, Hi.
  - rewrite nth_overflow by lia. done.
Qed.

Lemma CRC32C_TABLE_top_inj i j :
  (i < 256)%nat -> (j < 256)%nat ->
  N.shiftr (nth i CRC32C_TABLE 0) 24 = N.shiftr (nth j CRC32C_TABLE 0) 24 -> i = j.
Proof.
  assert (H : NoDup ((fun v => N.shiftr v 24) <$> CRC32C_TABLE)).
  { apply (bool_decide_eq_true_1 _). vm_compute. reflexivity. }
  assert (Hl : length CRC32C_TABLE = 256%nat) by reflexivity.
  assert (Hn : forall k, (k < 256)%nat -> CRC32C_TABLE !! k = Some (nth k CRC32C_TABLE 0)).
  { intros k Hk. destruct (nth_lookup_or_length CRC32C_TABLE k 0); [done|lia]. }
  intros Hi Hj Heq. rewrite NoDup_alt in H.
  apply (H i j (N.shiftr (nth i CRC32C_TABLE 0) 24)); rewrite list_lookup_fmap.
  - by rewrite (Hn i Hi).
  - by rewrite (Hn j Hj), Heq.
Qed.

Lemma lxor_bound a b n : a < 2 ^ n -> b < 2 ^ n -> N.lxor a b < 2 ^ n.
Proof.
  intros Ha Hb. destruct (decide (N.lxor a b = 0)) as [->|Hne]; [lia|].
  apply N.log2_lt_pow2; [lia|]. eapply N.le_lt_trans; [apply N.log2_lxor|].
  destruct (decide (n = 0)) as [->|Hn].
  - simpl in *. assert (a = 0) as -> by lia. assert (b = 0) as -> by lia. done.
  - apply N.max_lub_lt.
    + destruct (decide (a = 0)) as [->|]; [simpl; lia|]. apply N.log2_lt_pow2; lia.
    + destruct (decide (b = 0)) as [->|]; [simpl; lia|]. apply N.log2_lt_pow2; lia.
Qed.

Lemma shiftr_lt_pow2 a n m : a < 2 ^ (n + m) -> N.shiftr a n < 2 ^ m.
Proof.
  intros H. rewrite N.shiftr_div_pow2. apply N.Div0.div_lt_upper_bound.
  by rewrite <-N.pow_add_r.
Qed.

Lemma lxor_cancel_l a b c : N.lxor a b = N.lxor a c -> b = c.
Proof.
  intros H. rewrite <-(N.lxor_0_l b), <-(N.lxor_0_l c), <-(N.lxor_nilpotent a).
  by rewrite !N.lxor_assoc, H.
Qed.

Lemma lxor_cancel_r a b c : N.lxor b a = N.lxor c a -> b = c.
Proof. rewrite !(N.lxor_comm _ a). apply lxor_cancel_l. Qed.

Lemma land_255_bound a : N.land a 0xff < 256.
Proof. change 0xff with (N.ones 8). rewrite N.land_ones. by apply N.mod_lt. Qed.

Lemma land_255_byte (b : byte) : N.land (Byte.to_N b) 0xff = Byte.to_N b.
Proof.
  change 0xff with (N.ones 8). rewrite N.land_ones.
  apply N.mod_small, byte_to_N_bound.
Qed.

Lemma land_lxor_distr_l a b c : N.land (N.lxor a b) c = N.lxor (N.land a c) (N.land b c).
Proof.
  apply N.bits_inj; intros n. rewrite N.land_spec, !N.lxor_spec, !N.land_spec.
  by destruct (N.testbit a n), (N.testbit b n), (N.testbit c n).
Qed.

Lemma N_split_low_byte a b :
  N.shiftr a 8 = N.shiftr b 8 -> N.land a 0xff = N.land b 0xff -> a = b.
Proof.
  change 0xff with (N.ones 8). rewrite !N.land_ones, !N.shiftr_div_pow2.
  change (2 ^ 8) with 256. intros Hd Hm.
  rewrite (N.div_mod a 256), (N.div_mod b 256), Hd, Hm by lia. done.
Qed.

Lemma crc32c_step_bound s b : s < 2 ^ 32 -> crc32c_step s b < 2 ^ 32.
Proof.
  intros Hs. unfold crc32c_step. apply lxor_bound; [|apply CRC32C_TABLE_bound].
  rewrite N.shiftr_div_pow2. eapply N.le_lt_trans; [|exact Hs].
  apply N.Div0.div_le_upper_bound. lia.
Qed.

Lemma crc32c_update_bound s l : s < 2 ^ 32 -> crc32c_update s l < 2 ^ 32.
Proof.
  revert s; induction l as [|b l IH]; intros s Hs; simpl; [done|].
  apply IH, crc32c_step_bound, Hs.
Qed.

Lemma crc32c_update_app s l1 l2 :
  crc32c_update s (l1 ++ l2) = crc32c_update (crc32c_update s l1) l2.
Proof. unfold crc32c_update. apply foldl_app. Qed.

Lemma u32_not_inj a b : u32_not a = u32_not b -> a = b.
Proof. apply lxor_cancel_r. Qed.

Lemma u32_not_bound a : a < 2 ^ 32 -> u32_not a < 2 ^ 32.
Proof. intros. by apply lxor_bound. Qed.

Lemma record_checksum_bound header key request_id body :
  record_checksum header key request_id body < 2 ^ 32.
Proof.
  apply u32_not_bound. do 4 apply crc32c_update_bound. done.
Qed.

(** The shift-and-lookup step shows its table index in the top byte. *)
Lemma crc32c_step_index s b t c :
  s < 2 ^ 32 -> t < 2 ^ 32 -> crc32c_step s b = crc32c_step t c ->
  N.land (N.lxor s (Byte.to_N b)) 0xff = N.land (N.lxor t (Byte.to_N c)) 0xff /\
  N.shiftr s 8 = N.shiftr t 8.
Proof.
  intros Hs Ht. unfold crc32c_step.
  set (i := N.land _ 0xff). set (j := N.land _ 0xff). intros Heq.
  assert (Hz : forall v, v < 2 ^ 32 -> N.shiftr (N.shiftr v 8) 24 = 0).
  { intros v Hv. rewrite N.shiftr_shiftr. rewrite N.shiftr_div_pow2.
    by apply N.div_small. }
  assert (Hi : i < 256) by apply land_255_bound.
  assert (Hj : j < 256) by apply land_255_bound.
  assert (Hij : N.to_nat i = N.to_nat j).
  { apply CRC32C_TABLE_top_inj; [lia|lia|].
    apply (f_equal (fun v => N.shiftr v 24)) in Heq.
    by rewrite !N.shiftr_lxor, !Hz, !N.lxor_0_l in Heq. }
  rewrite Hij in Heq. split; [lia|]. by apply lxor_cancel_r in Heq.
Qed.

Lemma crc32c_step_inj_state b s t :
  s < 2 ^ 32 -> t < 2 ^ 32 -> crc32c_step s b = crc32c_step t b -> s = t.
Proof.
  intros Hs Ht [Hi Hsh]%crc32c_step_index; [|done..].
  apply N_split_low_byte; [done|]. rewrite !land_lxor_distr_l in Hi.
  by apply lxor_cancel_r in Hi.
Qed.

Lemma crc32c_step_inj_byte s b c :
  s < 2 ^ 32 -> crc32c_step s b = crc32c_step s c -> b = c.
Proof.
  intros Hs [Hi _]%crc32c_step_index; [|done..].
  rewrite !land_lxor_distr_l in Hi. apply lxor_cancel_l in Hi.
  rewrite !land_255_byte in Hi.
  by rewrite <-(byte_of_N_to_N b), <-(byte_of_N_to_N c), Hi.
Qed.

Lemma crc32c_update_inj_state l s t :
  s < 2 ^ 32 -> t < 2 ^ 32 -> crc32c_update s l = crc32c_update t l -> s = t.
Proof.
  revert s t; induction l as [|b l IH]; intros s t Hs Ht; simpl; [done|].
  intros H%IH; [|by apply crc32c_step_bound..]. by apply crc32c_step_inj_state in H.
Qed.

Lemma crc32c_update_one_byte s l1 b c l2 :
  s < 2 ^ 32 -> crc32c_update s (l1 ++ b :: l2) = crc32c_update s (l1 ++ c :: l2) -> b = c.
Proof.
  intros Hs. rewrite !crc32c_update_app. simpl.
  pose proof (crc32c_update_bound s l1 Hs) as Hb.
  intros H%crc32c_update_inj_state; [|by apply crc32c_step_bound..].
  by apply crc32c_step_inj_byte in H.
Qed.

(** ** Facts about the parser *)

Lemma read_exact_at file pos n l1 x l2 :
  file = l1 ++ x ++ l2 -> pos = vec_len l1 -> n = vec_len x ->
  read_exact file pos n = Ok x.
Proof.
  intros -> -> ->. unfold read_exact, vec_len. rewrite !Nat2N.id, drop_app_length.
  destruct (N.of_nat (length (x ++ l2)) <? N.of_nat (length x)) eqn:E.
  - apply N.ltb_lt in E. rewrite length_app in E. lia.
  - by rewrite take_app_length.
Qed.

Lemma checksum_payload_spec fuel file pos remaining checksum l1 x l2 :
  (N.to_nat remaining <= fuel)%nat ->
  file = l1 ++ x ++ l2 -> pos = vec_len l1 -> remaining = vec_len x ->
  checksum_payload fuel file pos remaining checksum = Ok (crc32c_update checksum x).
Proof.
  revert pos remaining checksum l1 x; induction fuel as [|fuel IH];
    intros pos remaining checksum l1 x Hf Hfile Hpos Hrem.
  - assert (x = []) as -> by (apply length_zero_iff_nil; unfold vec_len in *; lia).
    subst remaining. done.
  - simpl. destruct (remaining =? 0) eqn:E.
    + apply N.eqb_eq in E.
      assert (x = []) as -> by (apply length_zero_iff_nil; unfold vec_len in *; lia). done.
    + apply N.eqb_neq in E. set (k := N.min remaining 8192).
      assert (Hk : (N.to_nat k <= length x)%nat) by (unfold vec_len in *; lia).
      assert (Hk' : k = vec_len (take (N.to_nat k) x)).
      { unfold vec_len. rewrite length_take. lia. }
      rewrite (read_exact_at file pos k l1 (take (N.to_nat k) x) (drop (N.to_nat k) x ++ l2));
        [|by rewrite (app_assoc (take _ _)), take_drop|done|done].
      rewrite (IH _ _ _ (l1 ++ take (N.to_nat k) x) (drop (N.to_nat k) x)).
      * by rewrite <-crc32c_update_app, take_drop.
      * lia.
      * by rewrite <-(app_assoc l1), (app_assoc (take _ _)), take_drop.
      * rewrite vec_len_app. lia.
      * unfold vec_len in *. rewrite length_drop. lia.
Qed.

(** The records the append path can write. *)
Record writable (flag offset published_at_ms : N) (key request_id payload : list byte) : Prop := {
  w_flag : flag <= 2;
  w_no_id : flag = 2 -> request_id = [];
  w_offset : offset <= u64_max;
  w_published : published_at_ms <= u64_max;
  w_key : vec_len key <= MAX_KEY_LEN;
  w_id : vec_len request_id <= MAX_REQUEST_ID_LEN;
  w_payload : vec_len payload <= MAX_BODY_LEN;
  w_key_utf8 : utf8_valid key = true;
  w_id_utf8 : utf8_valid request_id = true;
}.

Definition flag_kind (flag : N) : option RequestIdentityKind :=
  if flag =? 0 then Some Public else if flag =? 1 then Some DeadLetterMove else None.

Lemma le_field n v m : v <= m -> m < 256 ^ N.of_nat n -> from_le_bytes (to_le_bytes n v) = v.
Proof. intros. apply from_to_le_bytes. lia. Qed.

Lemma check_header_written flag payload_len offset published_at_ms key_len request_id_len checksum :
  flag <= 2 -> (flag = 2 -> request_id_len = 0) ->
  key_len <= MAX_KEY_LEN -> request_id_len <= MAX_REQUEST_ID_LEN -> payload_len <= MAX_BODY_LEN ->
  check_header (record_header flag payload_len offset published_at_ms key_len request_id_len checksum)
  = Ok {| hf_kind := flag_kind flag; hf_stored_len := payload_len; hf_key_len := key_len;
          hf_request_id_len := request_id_len |}.
Proof.
  intros Hf Hid Hk Hr Hp. unfold check_header.
  set (h := record_header _ _ _ _ _ _ _).
  change (slice 4 5 h) with [byte_of_N RECORD_FORMAT_VERSION].
  change (slice 5 6 h) with [byte_of_N flag].
  change (slice 6 8 h) with (to_le_bytes 2 RECORD_HEADER_LEN).
  change (slice 8 12 h) with (to_le_bytes 4 payload_len).
  change (slice 12 16 h) with (to_le_bytes 4 payload_len).
  change (slice 32 36 h) with (to_le_bytes 4 key_len).
  change (slice 36 40 h) with (to_le_bytes 4 request_id_len).
  change (slice 40 44 h) with (replicate 4 Byte.x00).
  change (from_le_bytes [byte_of_N RECORD_FORMAT_VERSION]) with RECORD_FORMAT_VERSION.
  change (from_le_bytes (to_le_bytes 2 RECORD_HEADER_LEN)) with RECORD_HEADER_LEN.
  assert (Hflag : from_le_bytes [byte_of_N flag] = flag).
  { simpl. rewrite byte_to_N_of_N, N.mod_small; lia. }
  unfold MAX_KEY_LEN, MAX_REQUEST_ID_LEN, MAX_BODY_LEN in *.
  rewrite Hflag, !N.eqb_refl,
    (le_field 4 payload_len _ Hp), (le_field 4 key_len _ Hk), (le_field 4 request_id_len _ Hr) by done.
  cbn [negb]. rewrite (bool_decide_eq_true_2 (replicate 4 Byte.x00 = _)) by done.
  assert (Hc : identity_kind_of_flag flag = Ok (flag_kind flag)).
  { assert (flag = 0 \/ flag = 1 \/ flag = 2) as [->|[->| ->]] by lia; done. }
  rewrite Hc.
  assert ((128 <? key_len) = false) as -> by (apply N.ltb_ge; lia).
  assert ((1024 <? request_id_len) = false) as -> by (apply N.ltb_ge; lia).
  assert ((64 * 1024 * 1024 <? payload_len) = false) as -> by (apply N.ltb_ge; lia).
  cbn [orb negb].
  assert (bool_decide (flag_kind flag = None) && negb (request_id_len =? 0) = false) as ->; [|done].
  assert (flag = 0 \/ flag = 1 \/ flag = 2) as [->|[->| ->]] by lia; [done|done|].
  rewrite Hid by done. by rewrite andb_false_r.
Qed.

Definition record_len (key request_id payload : list byte) : N :=
  RECORD_HEADER_LEN + vec_len key + vec_len request_id + vec_len payload.

Lemma encode_record_len flag offset ts key request_id payload :
  vec_len (encode_record flag offset ts key request_id payload) =
  record_len key request_id payload.
Proof.
  unfold encode_record, record_len. rewrite !vec_len_app. cbv zeta.
  assert (forall c, vec_len (record_header flag (vec_len payload) offset ts (vec_len key)
    (vec_len request_id) c) = 48) as -> by (intros; reflexivity).
  unfold RECORD_HEADER_LEN. lia.
Qed.

(** The index entry a scan at [cursor] builds for a written record. *)
Definition scanned_index (cursor flag offset ts : N) (key request_id payload : list byte) :
  RecordIndex :=
  {| ri_offset := offset;
     ri_payload_offset := cursor + RECORD_HEADER_LEN + vec_len key + vec_len request_id;
     ri_payload_len := vec_len payload;
     ri_key := if bool_decide (key = []) then None else Some (of_bytes key);
     ri_request_id := (fun _ => of_bytes request_id) <$> flag_kind flag;
     ri_request_identity_kind := flag_kind flag;
     ri_published_at_ms := ts |}.

(** Reading a frame: [body] is whatever follows the header on disk. *)
Section read_written.
Context (flag offset ts : N) (key request_id payload : list byte).
Context (Hw : writable flag offset ts key request_id payload).
Context (pre : list byte).

Let h : list byte :=
  record_header flag (vec_len payload) offset ts (vec_len key) (vec_len request_id)
    (record_checksum
       (record_header flag (vec_len payload) offset ts (vec_len key) (vec_len request_id) 0)
       key request_id payload).

Lemma read_next_record_header body :
  read_next_record (pre ++ h ++ body) (vec_len pre) (vec_len (pre ++ h ++ body)) =
  if vec_len body <? vec_len key + vec_len request_id + vec_len payload then Ok None
  else
    read_record_body (pre ++ h ++ body) (vec_len pre) h
      {| hf_kind := flag_kind flag; hf_stored_len := vec_len payload; hf_key_len := vec_len key;
         hf_request_id_len := vec_len request_id |} (record_len key request_id payload).
Proof.
  destruct Hw as [Hf Hn Ho Ht Hk Hi Hp _ _].
  assert (Hh : vec_len h = 48) by reflexivity.
  assert (Htail : h = RECORD_MAGIC ++ drop 4 h) by reflexivity.
  unfold read_next_record, read_record. rewrite !vec_len_app, Hh.
  assert ((vec_len pre + (48 + vec_len body) - vec_len pre <? 4) = false) as ->
    by (apply N.ltb_ge; lia).
  rewrite (read_exact_at _ _ 4 pre RECORD_MAGIC (drop 4 h ++ body));
    [|by rewrite (app_assoc RECORD_MAGIC), <-Htail|done|done].
  rewrite !bool_decide_eq_false_2 by (vm_compute; congruence).
  rewrite bool_decide_eq_true_2 by done. cbn [negb].
  assert ((vec_len pre + (48 + vec_len body) - vec_len pre <? RECORD_HEADER_LEN) = false) as ->
    by (apply N.ltb_ge; unfold RECORD_HEADER_LEN; lia).
  rewrite (read_exact_at _ _ (RECORD_HEADER_LEN - 4) (pre ++ RECORD_MAGIC) (drop 4 h) body);
    [|by rewrite <-app_assoc, (app_assoc RECORD_MAGIC), <-Htail|by rewrite vec_len_app|done].
  rewrite <-Htail. unfold h at 1. rewrite check_header_written; [|done| |done..].
  - cbn [hf_key_len hf_request_id_len hf_stored_len].
    unfold MAX_KEY_LEN, MAX_REQUEST_ID_LEN, MAX_BODY_LEN in *.
    unfold u64_checked_add, u64_max, RECORD_HEADER_LEN.
    rewrite !(proj2 (N.leb_le _ _)) by lia.
    replace (vec_len pre + (48 + vec_len body) - vec_len pre) with (48 + vec_len body) by lia.
    unfold record_len, RECORD_HEADER_LEN.
    destruct (vec_len body <? _) eqn:E; destruct (48 + vec_len body <? _) eqn:E'; try done;
      rewrite ?N.ltb_lt, ?N.ltb_ge in *; lia.
  - intros ->. by rewrite Hn.
Qed.

(** With the key and the identity intact, the outcome is decided by the bytes
    [stored] found in place of the payload. *)
Lemma read_next_record_stored stored post :
  vec_len stored = vec_len payload ->
  let file := pre ++ h ++ key ++ request_id ++ stored ++ post in
  read_next_record file (vec_len pre) (vec_len file) =
  if record_checksum h key request_id stored =? record_checksum h key request_id payload then
    Ok (Some {| pr_index := scanned_index (vec_len pre) flag offset ts key request_id payload;
                pr_next_cursor := vec_len pre + record_len key request_id payload |})
  else Err (invalid_record_data "RNL3 record checksum mismatch").
Proof.
  intros Hlen file. unfold file.
  assert (Hh : vec_len h = RECORD_HEADER_LEN) by reflexivity.
  rewrite read_next_record_header.
  rewrite (proj2 (N.ltb_ge _ _)) by (rewrite !vec_len_app; lia).
  destruct Hw as [Hf Hn Ho Ht Hk Hi Hp Hku Hiu].
  unfold read_record_body. cbn [hf_key_len hf_request_id_len hf_stored_len hf_kind].
  rewrite (read_exact_at _ _ _ (pre ++ h) key (request_id ++ stored ++ post));
    [|by rewrite <-!app_assoc|by rewrite vec_len_app, Hh|done].
  rewrite (read_exact_at _ _ _ (pre ++ h ++ key) request_id (stored ++ post));
    [|by rewrite <-!app_assoc|rewrite !vec_len_app, Hh; lia|done].
  rewrite (checksum_payload_spec _ _ _ _ _ (pre ++ h ++ key ++ request_id) stored post);
    [|done|by rewrite <-!app_assoc|rewrite !vec_len_app, Hh; lia|done].
  rewrite Hku, Hiu.
  change (slice 44 48 h) with (to_le_bytes 4 (record_checksum h key request_id payload)).
  rewrite from_to_le_bytes by apply record_checksum_bound.
  fold (record_checksum h key request_id stored).
  change (slice 16 24 h) with (to_le_bytes 8 offset).
  change (slice 24 32 h) with (to_le_bytes 8 ts).
  rewrite (le_field 8 offset _ Ho), (le_field 8 ts _ Ht) by done.
  unfold scanned_index.
  case_bool_decide; destruct (flag_kind flag), (_ =? _); reflexivity.
Qed.

Lemma read_next_record_written post :
  let file := pre ++ encode_record flag offset ts key request_id payload ++ post in
  read_next_record file (vec_len pre) (vec_len file) =
  Ok (Some {| pr_index := scanned_index (vec_len pre) flag offset ts key request_id payload;
              pr_next_cursor := vec_len pre + record_len key request_id payload |}).
Proof.
  assert (Hfile : pre ++ encode_record flag offset ts key request_id payload ++ post
    = pre ++ h ++ key ++ request_id ++ payload ++ post).
  { unfold encode_record, h. by rewrite <-!app_assoc. }
  cbv zeta. rewrite Hfile, read_next_record_stored by done. by rewrite N.eqb_refl.
Qed.

Lemma read_next_record_torn m :
  (m < length (encode_record flag offset ts key request_id payload))%nat ->
  let file := pre ++ take m (encode_record flag offset ts key request_id payload) in
  read_next_record file (vec_len pre) (vec_len file) = Ok None.
Proof.
  intros Hm file.
  assert (Hlen : length h = 48%nat) by reflexivity.
  assert (Henc : encode_record flag offset ts key request_id payload =
    h ++ (key ++ request_id ++ payload)) by (unfold encode_record, h; done).
  destruct (decide (m < 48)%nat) as [Hs|Hl].
  - assert (Hfl : vec_len file = vec_len pre + N.of_nat m).
    { unfold file, vec_len. rewrite length_app, length_take. lia. }
    assert (Hsub : vec_len file - vec_len pre = N.of_nat m) by lia.
    unfold read_next_record, read_record. rewrite Hsub.
    destruct (N.of_nat m <? 4) eqn:E4; [done|]. apply N.ltb_ge in E4.
    assert (Htk : take m (encode_record flag offset ts key request_id payload)
       = RECORD_MAGIC ++ take (m - 4) (drop 4 h)).
    { rewrite Henc, take_app_le by lia.
      assert (Htail : h = RECORD_MAGIC ++ drop 4 h) by reflexivity.
      rewrite Htail at 1. rewrite take_app_ge by (simpl; lia). done. }
    rewrite (read_exact_at _ _ 4 pre RECORD_MAGIC (take (m - 4) (drop 4 h)));
      [|by unfold file; rewrite Htk|done|done].
    rewrite !bool_decide_eq_false_2 by (vm_compute; congruence).
    rewrite bool_decide_eq_true_2 by done. cbn [negb].
    by rewrite (proj2 (N.ltb_lt _ _)) by (unfold RECORD_HEADER_LEN; lia).
  - assert (Hfile : file = pre ++ h ++ take (m - 48) (key ++ request_id ++ payload)).
    { unfold file. rewrite Henc, take_app_ge by lia. by rewrite Hlen. }
    rewrite Hfile, read_next_record_header.
    rewrite (proj2 (N.ltb_lt _ _)); [done|].
    rewrite Henc, !length_app in Hm.
    unfold vec_len. rewrite length_take, !length_app. lia.
Qed.

Lemma read_next_record_bad_payload l1 b c l2 post :
  payload = l1 ++ b :: l2 -> b <> c ->
  let file := pre ++ h ++ key ++ request_id ++ (l1 ++ c :: l2) ++ post in
  read_next_record file (vec_len pre) (vec_len file) =
  Err (invalid_record_data "RNL3 record checksum mismatch").
Proof.
  intros Hpay Hbc. cbv zeta. rewrite read_next_record_stored.
  - destruct (_ =? _) eqn:E; [|done]. apply N.eqb_eq, u32_not_inj in E. destruct Hbc.
    rewrite Hpay in E. symmetry in E.
    by apply crc32c_update_one_byte in E; [|do 3 apply crc32c_update_bound].
  - rewrite Hpay, !vec_len_app. done.
Qed.
End read_written.

(** ** The parser accepts exactly the written frames *)

Lemma header_split (h : list byte) :
  length h = 48%nat ->
  h = slice 0 4 h ++ slice 4 5 h ++ slice 5 6 h ++ slice 6 8 h ++ slice 8 12 h ++ slice 12 16 h
      ++ slice 16 24 h ++ slice 24 32 h ++ slice 32 36 h ++ slice 36 40 h ++ slice 40 44 h
      ++ slice 44 48 h.
Proof. intros Hl. do 48 (destruct h as [|? h]; [discriminate Hl|]). by destruct h. Qed.

Lemma slice_length a b (h : list byte) : (a <= b <= length h)%nat -> length (slice a b h) = (b - a)%nat.
Proof. intros. unfold slice. rewrite length_take, length_drop. lia. Qed.

Lemma le_slice a b (h : list byte) n :
  n = (b - a)%nat -> (a <= b <= length h)%nat ->
  to_le_bytes n (from_le_bytes (slice a b h)) = slice a b h.
Proof. intros -> Hl. rewrite <-(slice_length a b h Hl). apply to_from_le_bytes. Qed.

Lemma identity_kind_of_flag_inv flag kind :
  identity_kind_of_flag flag = Ok kind -> flag <= 2 /\ kind = flag_kind flag.
Proof.
  unfold identity_kind_of_flag, flag_kind, NO_IDENTITY_FLAG.
  destruct (N.eqb_spec flag 0) as [->|]; [intros [= <-]; split; [lia|done]|].
  destruct (N.eqb_spec flag 1) as [->|]; [intros [= <-]; split; [lia|done]|].
  destruct (N.eqb_spec flag 2) as [->|]; [intros [= <-]; split; [lia|done]|done].
Qed.

(** A header that passes the checks is the header of some written record, whose
    fields are those the checks return. *)
Lemma check_header_inv h fields :
  check_header h = Ok fields -> length h = 48%nat -> slice 0 4 h = RECORD_MAGIC ->
  exists flag offset ts checksum,
    h = record_header flag (hf_stored_len fields) offset ts (hf_key_len fields)
          (hf_request_id_len fields) checksum /\
    flag <= 2 /\ hf_kind fields = flag_kind flag /\ (flag = 2 -> hf_request_id_len fields = 0) /\
    offset = from_le_bytes (slice 16 24 h) /\ ts = from_le_bytes (slice 24 32 h) /\
    checksum = from_le_bytes (slice 44 48 h) /\
    hf_key_len fields <= MAX_KEY_LEN /\ hf_request_id_len fields <= MAX_REQUEST_ID_LEN /\
    hf_stored_len fields <= MAX_BODY_LEN.
Proof.
  unfold check_header. intros Hc Hl Hm.
  destruct (N.eqb_spec (from_le_bytes (slice 4 5 h)) RECORD_FORMAT_VERSION) as [Hv|]; [|done].
  cbn [negb] in Hc. destruct (identity_kind_of_flag _) as [kind|] eqn:Hk; [|done].
  destruct (N.eqb_spec (from_le_bytes (slice 6 8 h)) RECORD_HEADER_LEN) as [Hh|]; [|done].
  cbn [negb] in Hc.
  destruct (N.ltb_spec MAX_KEY_LEN (from_le_bytes (slice 32 36 h))) as [|Hkl]; [done|].
  destruct (N.ltb_spec MAX_REQUEST_ID_LEN (from_le_bytes (slice 36 40 h))) as [|Hil]; [done|].
  destruct (N.ltb_spec MAX_BODY_LEN (from_le_bytes (slice 8 12 h))) as [|Hsl]; [done|].
  destruct (N.ltb_spec MAX_BODY_LEN (from_le_bytes (slice 12 16 h))) as [|Hll]; [done|].
  cbn [orb] in Hc. destruct (bool_decide (kind = None) && _) eqn:Hid; [done|].
  destruct (N.eqb_spec (from_le_bytes (slice 12 16 h)) (from_le_bytes (slice 8 12 h))) as [Heq|];
    [|done]. cbn [negb] in Hc.
  case_bool_decide as Hz; [|done]. injection Hc as <-.
  cbn [hf_stored_len hf_key_len hf_request_id_len hf_kind].
  apply identity_kind_of_flag_inv in Hk as [Hf ->].
  exists (from_le_bytes (slice 5 6 h)), (from_le_bytes (slice 16 24 h)),
    (from_le_bytes (slice 24 32 h)), (from_le_bytes (slice 44 48 h)).
  split_and!; try done.
  - rewrite (header_split h Hl) at 1. unfold record_header. rewrite Hm, Hz, <-Hh.
    change [byte_of_N RECORD_FORMAT_VERSION] with (to_le_bytes 1 RECORD_FORMAT_VERSION).
    change [byte_of_N (from_le_bytes (slice 5 6 h))] with (to_le_bytes 1 (from_le_bytes (slice 5 6 h))).
    rewrite <-Hv. rewrite <-Heq at 2.
    by rewrite !le_slice by (reflexivity || lia).
  - intros Hf2. rewrite Hf2 in Hid. apply andb_false_iff in Hid as [Hid|Hid].
    + by apply bool_decide_eq_false_1 in Hid.
    + apply negb_false_iff, N.eqb_eq in Hid. done.
Qed.

Lemma read_exact_inv pre rest pos n x :
  pos = vec_len pre -> read_exact (pre ++ rest) pos n = Ok x ->
  exists rest', rest = x ++ rest' /\ vec_len x = n.
Proof.
  intros ->. unfold read_exact, vec_len. rewrite Nat2N.id, drop_app_length.
  destruct (N.ltb_spec (N.of_nat (length rest)) n) as [|Hle]; [done|]. intros [= <-].
  exists (drop (N.to_nat n) rest). rewrite take_drop, length_take. split; [done|lia].
Qed.

Lemma read_record_body_inv pre h rest fields p :
  vec_len h = RECORD_HEADER_LEN ->
  hf_key_len fields + hf_request_id_len fields + hf_stored_len fields <= vec_len rest ->
  read_record_body (pre ++ h ++ rest) (vec_len pre) h fields
    (RECORD_HEADER_LEN + hf_key_len fields + hf_request_id_len fields + hf_stored_len fields)
  = Ok (Some p) ->
  exists key request_id payload post,
    rest = key ++ request_id ++ payload ++ post /\
    vec_len key = hf_key_len fields /\ vec_len request_id = hf_request_id_len fields /\
    vec_len payload = hf_stored_len fields /\ utf8_valid key = true /\
    (hf_kind fields = None \/ utf8_valid request_id = true) /\
    record_checksum h key request_id payload = from_le_bytes (slice 44 48 h).
Proof.
  intros Hh Hlen. unfold read_record_body.
  destruct (read_exact _ _ (hf_key_len fields)) as [key|] eqn:Hk; [|done].
  rewrite app_assoc in Hk. apply read_exact_inv in Hk as (r1 & -> & Hkl);
    [|by rewrite vec_len_app, Hh].
  destruct (if bool_decide (key = []) then _ else _) as [k|] eqn:Hku; [|done].
  destruct (read_exact _ _ (hf_request_id_len fields)) as [rid|] eqn:Hi; [|done].
  assert (Ha : pre ++ h ++ key ++ r1 = (pre ++ h ++ key) ++ r1) by (by rewrite <-!app_assoc).
  rewrite Ha in Hi. apply read_exact_inv in Hi as (r2 & -> & Hil);
    [|rewrite !vec_len_app, Hh; lia].
  destruct (match hf_kind fields with Some _ => _ | None => _ end) as [r|] eqn:Hiu; [|done].
  rewrite !vec_len_app in Hlen.
  set (payload := take (N.to_nat (hf_stored_len fields)) r2).
  set (post := drop (N.to_nat (hf_stored_len fields)) r2).
  assert (Hpl : vec_len payload = hf_stored_len fields).
  { unfold payload, vec_len in *. rewrite length_take. lia. }
  assert (Hr2 : r2 = payload ++ post) by (symmetry; apply take_drop).
  rewrite (checksum_payload_spec _ _ _ _ _ (pre ++ h ++ key ++ rid) payload post);
    [|done|by rewrite Hr2, <-!app_assoc|rewrite !vec_len_app, Hh; lia|done].
  destruct (N.eqb_spec (crc32c_finalize (crc32c_update (crc32c_update (crc32c_update
    (crc32c_update u32_max (zero_checksum h)) key) rid) payload)) (from_le_bytes (slice 44 48 h)))
    as [Hcrc|]; [|done].
  intros _. exists key, rid, payload, post. rewrite Hr2 at 1. split_and!; try done.
  - case_bool_decide; [by subst key|]. by destruct (utf8_valid key).
  - destruct (hf_kind fields); [right|by left]. by destruct (utf8_valid rid).
Qed.

Lemma le_slice_u64 a b (h : list byte) :
  (a <= b <= length h)%nat -> (b - a = 8)%nat -> from_le_bytes (slice a b h) <= u64_max.
Proof.
  intros Hl Hab. pose proof (from_le_bytes_bound (slice a b h)) as Hbd.
  rewrite slice_length, Hab in Hbd by lia. unfold u64_max. simpl in Hbd. lia.
Qed.

(** Header and body of an accepted frame make up the frame of a writable record. *)
Lemma accepted_frame h fields key request_id payload :
  length h = 48%nat -> slice 0 4 h = RECORD_MAGIC -> check_header h = Ok fields ->
  vec_len key = hf_key_len fields -> vec_len request_id = hf_request_id_len fields ->
  vec_len payload = hf_stored_len fields -> utf8_valid key = true ->
  (hf_kind fields = None \/ utf8_valid request_id = true) ->
  record_checksum h key request_id payload = from_le_bytes (slice 44 48 h) ->
  exists flag offset ts,
    writable flag offset ts key request_id payload /\
    h ++ key ++ request_id ++ payload = encode_record flag offset ts key request_id payload.
Proof.
  intros Hl Hs Hc Hkl Hil Hpl Hku Hiu Hcrc.
  destruct (check_header_inv h fields Hc Hl Hs)
    as (flag & offset & ts & checksum & Hh & Hf & Hk & Hid & Ho & Ht & Hck & Hb1 & Hb2 & Hb3).
  assert (Hrid : flag = 2 -> request_id = []).
  { intros E. apply length_zero_iff_nil. rewrite Hid in Hil by done. unfold vec_len in Hil. lia. }
  exists flag, offset, ts. split.
  - split; try done; try lia; try (subst offset ts; apply le_slice_u64; lia).
    destruct Hiu as [Hnone|]; [|done]. rewrite Hrid; [done|]. rewrite Hk in Hnone.
    unfold flag_kind in Hnone. destruct (N.eqb_spec flag 0); [done|].
    destruct (N.eqb_spec flag 1); [done|]. lia.
  - unfold encode_record. rewrite Hkl, Hil, Hpl.
    assert (Hz : forall c, zero_checksum (record_header flag (hf_stored_len fields) offset ts
      (hf_key_len fields) (hf_request_id_len fields) c) = record_header flag (hf_stored_len fields)
      offset ts (hf_key_len fields) (hf_request_id_len fields) 0) by reflexivity.
    assert (Hc2 : record_checksum h key request_id payload =
      record_checksum (record_header flag (hf_stored_len fields) offset ts (hf_key_len fields)
        (hf_request_id_len fields) 0) key request_id payload).
    { unfold record_checksum. by rewrite Hh, !Hz. }
    rewrite <-Hc2, Hcrc, <-Hck. by rewrite <-Hh.
Qed.

Lemma checked_len_ok a b c :
  a <= MAX_KEY_LEN -> b <= MAX_REQUEST_ID_LEN -> c <= MAX_BODY_LEN ->
  match u64_checked_add RECORD_HEADER_LEN a with
  | Some length =>
    match u64_checked_add length b with
    | Some length => u64_checked_add length c
    | None => None
    end
  | None => None
  end = Some (RECORD_HEADER_LEN + a + b + c).
Proof.
  unfold u64_checked_add, u64_max, RECORD_HEADER_LEN, MAX_KEY_LEN, MAX_REQUEST_ID_LEN, MAX_BODY_LEN.
  intros. by rewrite !(proj2 (N.leb_le _ _)) by lia.
Qed.

(** Reading past the magic and the header. *)
Lemma read_record_inv pre tl r2 p :
  let h := RECORD_MAGIC ++ tl in
  vec_len tl = RECORD_HEADER_LEN - 4 ->
  read_record (pre ++ h ++ r2) (vec_len pre) (vec_len (pre ++ h ++ r2)) RECORD_MAGIC = Ok (Some p) ->
  exists flag offset ts key request_id payload post,
    writable flag offset ts key request_id payload /\
    h ++ r2 = encode_record flag offset ts key request_id payload ++ post.
Proof.
  intros h Htl. unfold read_record.
  destruct (_ <? RECORD_HEADER_LEN); [done|].
  rewrite (read_exact_at _ _ _ (pre ++ RECORD_MAGIC) tl r2);
    [|unfold h; by rewrite <-!app_assoc|by rewrite vec_len_app|done].
  fold h. destruct (check_header h) as [fields|] eqn:Hc; [|done].
  assert (Hhl : length h = 48%nat).
  { unfold h. rewrite length_app. unfold vec_len, RECORD_HEADER_LEN in Htl. simpl. lia. }
  destruct (check_header_inv h fields Hc Hhl eq_refl)
    as (? & ? & ? & ? & _ & _ & _ & _ & _ & _ & _ & Hb1 & Hb2 & Hb3).
  rewrite checked_len_ok by done.
  destruct (N.ltb_spec (vec_len (pre ++ h ++ r2) - vec_len pre) (RECORD_HEADER_LEN
    + hf_key_len fields + hf_request_id_len fields + hf_stored_len fields)) as [|Hle]; [done|].
  assert (Hh48 : vec_len h = RECORD_HEADER_LEN) by (unfold vec_len; by rewrite Hhl).
  rewrite !vec_len_app, Hh48 in Hle. intros Hr.
  apply read_record_body_inv in Hr
    as (key & rid & payload & post & -> & Hkl & Hil & Hpl & Hku & Hiu & Hcrc); [|done|lia].
  destruct (accepted_frame h fields key rid payload) as (flag & offset & ts & Hw & Henc); try done.
  exists flag, offset, ts, key, rid, payload, post. split; [done|].
  by rewrite <-Henc, <-!app_assoc.
Qed.

Lemma read_next_record_inv pre rest p :
  read_next_record (pre ++ rest) (vec_len pre) (vec_len (pre ++ rest)) = Ok (Some p) ->
  exists flag offset ts key request_id payload post,
    writable flag offset ts key request_id payload /\
    rest = encode_record flag offset ts key request_id payload ++ post /\
    p = {| pr_index := scanned_index (vec_len pre) flag offset ts key request_id payload;
           pr_next_cursor := vec_len pre + record_len key request_id payload |}.
Proof.
  intros Hread. assert (Hr : exists tl r2, rest = (RECORD_MAGIC ++ tl) ++ r2 /\
    vec_len tl = RECORD_HEADER_LEN - 4 /\
    read_record (pre ++ rest) (vec_len pre) (vec_len (pre ++ rest)) RECORD_MAGIC = Ok (Some p)).
  { unfold read_next_record in Hread. destruct (_ <? 4); [done|].
    destruct (read_exact _ _ 4) as [magic|] eqn:Hm; [|done].
    apply read_exact_inv in Hm as (r1 & -> & Hml); [|done].
    do 2 (case_bool_decide; [done|]). case_bool_decide as Hmagic; [|done]. cbn [negb] in Hread.
    subst magic. pose proof Hread as Hr. unfold read_record in Hr.
    destruct (_ <? RECORD_HEADER_LEN); [done|].
    destruct (read_exact _ _ (RECORD_HEADER_LEN - 4)) as [tl|] eqn:Ht; [|done].
    rewrite app_assoc in Ht. apply read_exact_inv in Ht as (r2 & -> & Htl);
      [|by rewrite vec_len_app].
    exists tl, r2. by rewrite <-(app_assoc RECORD_MAGIC). }
  destruct Hr as (tl & r2 & -> & Htl & Hr).
  destruct (read_record_inv pre tl r2 p Htl Hr)
    as (flag & offset & ts & key & rid & payload & post & Hw & Hall).
  exists flag, offset, ts, key, rid, payload, post. rewrite Hall in Hread |- *.
  split_and!; [done|done|]. rewrite read_next_record_written in Hread by done. congruence.
Qed.

(** Every parse error is a data or end-of-file error. *)
Definition parse_error (e : BrokerError) : Prop :=
  exists kind message, e = Io kind message /\ (kind = InvalidData \/ kind = UnexpectedEof).

Lemma invalid_record_data_parse_error m : parse_error (invalid_record_data m).
Proof. exists InvalidData, m. auto. Qed.

Lemma read_exact_error file pos n e : read_exact file pos n = Err e -> parse_error e.
Proof. unfold read_exact. destruct (_ <? _); [|done]. intros [= <-]. eexists _, _. eauto. Qed.

Lemma checksum_payload_error fuel file pos remaining checksum e :
  checksum_payload fuel file pos remaining checksum = Err e -> parse_error e.
Proof.
  revert pos remaining checksum; induction fuel as [|fuel IH]; intros pos remaining checksum;
    cbn [checksum_payload]; destruct (remaining =? 0); try done.
  destruct (read_exact _ _ _) as [buf|e'] eqn:E; [apply IH|].
  intros [= <-]. by eapply read_exact_error.
Qed.

Lemma check_header_error h e : check_header h = Err e -> parse_error e.
Proof.
  unfold check_header, identity_kind_of_flag. intros H.
  repeat match type of H with
  | context [if ?b then _ else _] => destruct b
  end; simplify_eq/=; apply invalid_record_data_parse_error.
Qed.

Lemma read_next_record_error file cursor len e :
  read_next_record file cursor len = Err e -> parse_error e.
Proof.
  unfold read_next_record, read_record, read_record_body. intros H.
  repeat (first
    [ match type of H with context [read_exact ?a ?b ?c] =>
        destruct (read_exact a b c) eqn:?; [|simplify_eq; by eapply read_exact_error] end
    | match type of H with context [checksum_payload ?a ?b ?c ?d ?f] =>
        destruct (checksum_payload a b c d f) eqn:?; [|simplify_eq; by eapply checksum_payload_error] end
    | match type of H with context [check_header ?a] =>
        destruct (check_header a) eqn:?; [|simplify_eq; by eapply check_header_error] end
    | match type of H with context [bool_decide ?b] => destruct (bool_decide b) end
    | match type of H with context [utf8_valid ?b] => destruct (utf8_valid b) end
    | match type of H with context [hf_kind ?b] => destruct (hf_kind b) end
    | match type of H with context [match ?b with _ => _ end] => destruct b end
    | discriminate H
    | (injection H as <-; apply invalid_record_data_parse_error) ]).
Qed.
