(* ===== verification/Names.v ===== *)
(** Names and identities derived from names: [validate_name],
    [dead_letter_stream_name] and [dead_letter_move_id] of
    crates/runnel-core/src/lib.rs. *)

From S2P Require Import Prelude Engine RecordFormat.

Local Open Scope N_scope.

Definition DEAD_LETTER_SUFFIX : string := ".dead-letter".
Definition DEAD_LETTER_HASH_PREFIX : string := "runnel.dead-letter.".

(** [u8::is_ascii_alphanumeric] or one of [.], [_], [-]. *)
Definition name_byte (b : byte) : bool :=
  in_range 0x30 0x39 b || in_range 0x41 0x5a b || in_range 0x61 0x7a b
  || bool_decide (b = Byte.x2e) || bool_decide (b = Byte.x5f) || bool_decide (b = Byte.x2d).

(** [str::ends_with] and [str::starts_with] *)
Definition ends_with (s suf : string) : bool := bool_decide (as_bytes suf `suffix_of` as_bytes s).
Definition starts_with (s pre : string) : bool := bool_decide (as_bytes pre `prefix_of` as_bytes s).

Definition validate_name (kind name : string) : Result unit BrokerError :=
  let valid_length := (1 <=? str_len name) && (str_len name <=? 128) in
  let valid_characters := forallb name_byte (as_bytes name) in
  if valid_length && valid_characters then Ok tt else Err (InvalidName kind name).

(** The FNV-1a hash of the stream name on [u64]. *)
Definition fnv_step (hash : N) (b : byte) : N :=
  u64_wrapping_mul (N.lxor hash (Byte.to_N b)) 0x100000001b3.

Definition fnv_hash (stream : string) : N := foldl fnv_step 0xcbf29ce484222325 (as_bytes stream).

(** [{hash:016x}] *)
Definition hex_digit (v : N) : byte :=
  if v <? 10 then byte_of_N (0x30 + v) else byte_of_N (0x57 + v).

Definition hex16 (v : N) : string :=
  of_bytes ((fun i => hex_digit (N.shiftr v (4 * N.of_nat i) mod 16)) <$> rev (seq 0 16)).

(** [{:x}]: hexadecimal digits, most significant first, at least one. *)
Fixpoint hex_go (fuel : nat) (v : N) (acc : list byte) : list byte :=
  match fuel with
  | O => acc
  | S fuel =>
    let acc := hex_digit (v mod 16) :: acc in
    if v <? 16 then acc else hex_go fuel (v / 16) acc
  end.

Definition hex (v : N) : string := of_bytes (hex_go (S (N.to_nat (N.log2 v))) v []).

Definition dead_letter_stream_name (stream : string) : Result string BrokerError :=
  let name := stream +:+ DEAD_LETTER_SUFFIX in
  if str_len name <=? 128 then
    let? _ := validate_name "dead-letter stream" name in Ok name
  else
    let fallback := DEAD_LETTER_HASH_PREFIX +:+ hex16 (fnv_hash stream) in
    let? _ := validate_name "dead-letter stream" fallback in Ok fallback.

Definition move_id (source_stream source_consumer : string) (source_offset : Offset) : string :=
  "runnel-dlq/v1/" +:+ pretty (str_len source_stream) +:+ ":" +:+ source_stream +:+ "/"
  +:+ pretty (str_len source_consumer) +:+ ":" +:+ source_consumer +:+ "/" +:+ pretty source_offset.

Definition dead_letter_move_id (source_stream source_consumer : string) (source_offset : Offset) :
  Result string BrokerError :=
  let move_id := move_id source_stream source_consumer source_offset in
  if str_len move_id <=? MAX_REQUEST_ID_LEN then Ok move_id
  else Err (Io InvalidInput "dead-letter move identity exceeds storage limit").

(** ** Strings as bytes *)

Lemma as_bytes_app s t : as_bytes (s +:+ t) = as_bytes s ++ as_bytes t.
Proof.
  unfold as_bytes, String.list_byte_of_string. induction s as [|c s IH]; [done|].
  simpl. simpl in IH. by rewrite IH.
Qed.

Lemma str_len_app s t : str_len (s +:+ t) = str_len s + str_len t.
Proof. unfold str_len. rewrite as_bytes_app, length_app. lia. Qed.

Lemma validate_name_Ok kind name u :
  validate_name kind name = Ok u <->
  1 <= str_len name <= 128 /\ Forall (fun b => name_byte b = true) (as_bytes name).
Proof.
  unfold validate_name. destruct u. rewrite <-forallb_Forall_true.
  destruct (N.leb_spec 1 (str_len name)), (N.leb_spec (str_len name) 128),
    (forallb name_byte (as_bytes name)); cbn [andb]; split; try done; lia || naive_solver lia.
Qed.

Definition valid_name (name : string) : Prop :=
  1 <= str_len name <= 128 /\ Forall (fun b => name_byte b = true) (as_bytes name).

Lemma validate_name_valid kind name : valid_name name -> validate_name kind name = Ok tt.
Proof. apply validate_name_Ok. Qed.

Lemma hex_digit_name v : v < 16 -> name_byte (hex_digit v) = true.
Proof.
  intros Hv.
  assert (Hall : Forall (fun v => name_byte (hex_digit v) = true)
    (N.of_nat <$> seq 0 16)) by (apply (bool_decide_eq_true_1 _); vm_compute; reflexivity).
  rewrite Forall_forall in Hall. apply Hall. apply list_elem_of_fmap. exists (N.to_nat v).
  split; [lia|]. apply elem_of_seq. lia.
Qed.

Lemma hex16_bytes v :
  length (as_bytes (hex16 v)) = 16%nat /\ Forall (fun b => name_byte b = true) (as_bytes (hex16 v)).
Proof.
  unfold hex16. rewrite as_bytes_of_bytes. split; [by rewrite length_fmap|].
  apply Forall_fmap, Forall_forall. intros i _. apply hex_digit_name. by apply N.mod_lt.
Qed.

Lemma dead_letter_stream_name_total stream :
  valid_name stream -> exists name, dead_letter_stream_name stream = Ok name /\ valid_name name.
Proof.
  intros [Hl Hc]. unfold dead_letter_stream_name. destruct (N.leb_spec
    (str_len (stream +:+ DEAD_LETTER_SUFFIX)) 128) as [Hle|Hgt].
  - assert (Hv : valid_name (stream +:+ DEAD_LETTER_SUFFIX)).
    { split; [rewrite str_len_app in *; lia|]. rewrite as_bytes_app. apply Forall_app. split; [done|].
      apply (bool_decide_eq_true_1 _). vm_compute. reflexivity. }
    rewrite validate_name_valid by done. eauto.
  - destruct (hex16_bytes (fnv_hash stream)) as [Hx Hn].
    assert (Hv : valid_name (DEAD_LETTER_HASH_PREFIX +:+ hex16 (fnv_hash stream))).
    { split.
      - rewrite str_len_app. unfold str_len at 2 4. rewrite Hx.
        change (str_len DEAD_LETTER_HASH_PREFIX) with 19. lia.
      - rewrite as_bytes_app. apply Forall_app. split; [|done].
        apply (bool_decide_eq_true_1 _). vm_compute. reflexivity. }
    rewrite validate_name_valid by done. eauto.
Qed.

(** ** Hexadecimal numbers *)

Definition hex_byte_value (b : byte) : N :=
  if Byte.to_N b <? 0x57 then Byte.to_N b - 0x30 else Byte.to_N b - 0x57.

Definition hex_value (l : list byte) : N := foldl (fun v b => 16 * v + hex_byte_value b) 0 l.

Lemma hex_digit_value v : v < 16 -> hex_byte_value (hex_digit v) = v /\ hex_digit v <> Byte.x2d.
Proof.
  intros Hv. assert (Hall : Forall (fun v => hex_byte_value (hex_digit v) = v /\
    hex_digit v <> Byte.x2d) (N.of_nat <$> seq 0 16))
    by (apply (bool_decide_eq_true_1 _); vm_compute; reflexivity).
  rewrite Forall_forall in Hall. apply Hall. apply list_elem_of_fmap. exists (N.to_nat v).
  split; [lia|]. apply elem_of_seq. lia.
Qed.

Lemma hex_go_spec fuel v acc :
  (0 < fuel)%nat -> v < 16 ^ N.of_nat fuel ->
  exists ds, hex_go fuel v acc = ds ++ acc /\ hex_value ds = v /\ Forall (fun b => b <> Byte.x2d) ds.
Proof.
  revert v acc; induction fuel as [|fuel IH]; intros v acc Hf Hv; [lia|]. cbn [hex_go].
  assert (Hm : v mod 16 < 16) by (by apply N.mod_lt).
  destruct (hex_digit_value (v mod 16) Hm) as [Hdv Hdd].
  destruct (N.ltb_spec v 16) as [Hlt|Hge].
  - exists [hex_digit (v mod 16)]. split_and!; [done| |by constructor].
    unfold hex_value. cbn [foldl]. rewrite Hdv. rewrite N.mod_small by done. lia.
  - rewrite Nat2N.inj_succ, N.pow_succ_r' in Hv.
    destruct (IH (v / 16) (hex_digit (v mod 16) :: acc)) as (ds & Hds & Hval & Hall).
    + destruct fuel; [|lia]. cbn in Hv. lia.
    + apply N.Div0.div_lt_upper_bound. lia.
    + exists (ds ++ [hex_digit (v mod 16)]). rewrite Hds, <-app_assoc. split_and!; [done| |].
      * unfold hex_value in *. rewrite foldl_app, Hval. cbn [foldl]. rewrite Hdv.
        pose proof (N.div_mod v 16). lia.
      * apply Forall_app. split; [done|]. by constructor.
Qed.

Lemma hex_spec v :
  hex_value (as_bytes (hex v)) = v /\ Forall (fun b => b <> Byte.x2d) (as_bytes (hex v)).
Proof.
  unfold hex. rewrite as_bytes_of_bytes.
  destruct (hex_go_spec (S (N.to_nat (N.log2 v))) v []) as (ds & -> & ? & ?); [lia| |].
  - rewrite Nat2N.inj_succ, N2Nat.id. destruct (decide (v = 0)) as [->|]; [done|].
    destruct (N.log2_spec v) as [_ Hl]; [lia|].
    eapply N.lt_le_trans; [exact Hl|]. apply N.pow_le_mono_l. lia.
  - by rewrite app_nil_r.
Qed.

(** ** Decimal numbers *)

Definition digit_byte (b : byte) : Prop := name_byte b = true /\ b <> Byte.x3a /\ b <> Byte.x2f.

Lemma pretty_N_go_digits x s :
  Forall digit_byte (as_bytes s) -> Forall digit_byte (as_bytes (pretty_N_go x s)).
Proof.
  revert s. induction (N.lt_wf_0 x) as [x _ IH]; intros s Hs.
  destruct (decide (x = 0)) as [->|]; [by rewrite pretty_N_go_0|].
  rewrite pretty_N_go_step by lia. apply IH; [apply N.div_lt; lia|].
  change (as_bytes (String ?c s)) with (as_bytes (String c "") ++ as_bytes s).
  apply Forall_app. split; [|done]. unfold pretty_N_char.
  repeat case_match; (constructor; [|constructor]); (split_and!; [reflexivity|discriminate..]).
Qed.

Lemma pretty_N_digits (x : N) : Forall digit_byte (as_bytes (pretty x)).
Proof.
  unfold pretty, pretty_N. case_decide.
  - constructor; [|constructor]. split_and!; [reflexivity|discriminate..].
  - apply pretty_N_go_digits. constructor.
Qed.

Lemma pretty_N_go_len k x s :
  x < 10 ^ N.of_nat k -> str_len (pretty_N_go x s) <= N.of_nat k + str_len s.
Proof.
  revert x s; induction k as [|k IH]; intros x s Hx.
  - assert (x = 0) as -> by (simpl in Hx; lia). rewrite pretty_N_go_0. lia.
  - destruct (decide (x = 0)) as [->|]; [rewrite pretty_N_go_0; lia|].
    rewrite pretty_N_go_step by lia.
    rewrite Nat2N.inj_succ, N.pow_succ_r' in Hx.
    specialize (IH (x / 10) (String (pretty_N_char (x mod 10)) s)).
    assert (Hl : forall c, str_len (String c s) = 1 + str_len s).
    { intros c. unfold str_len. change (as_bytes (String c s)) with
        (as_bytes (String c "") ++ as_bytes s). rewrite length_app. simpl. lia. }
    rewrite Hl in IH. etrans; [apply IH|lia]. apply N.Div0.div_lt_upper_bound. lia.
Qed.

Lemma pretty_N_len k (x : N) : (0 < k)%nat -> x < 10 ^ N.of_nat k -> str_len (pretty x) <= N.of_nat k.
Proof.
  intros Hk Hx. unfold pretty, pretty_N. case_decide; [change (str_len "0") with 1; lia|].
  pose proof (pretty_N_go_len k x "" Hx). change (str_len "") with 0 in *. lia.
Qed.

(** ** Move identities *)

Lemma separated_inj (sep : byte) d1 d2 r1 r2 :
  Forall (fun b => b <> sep) d1 -> Forall (fun b => b <> sep) d2 ->
  d1 ++ sep :: r1 = d2 ++ sep :: r2 -> d1 = d2 /\ r1 = r2.
Proof.
  intros H1. revert d2. induction H1 as [|b d1 Hb H1 IH]; intros d2 H2 Heq.
  - destruct H2 as [|c d2 Hc H2]; simplify_eq/=; done.
  - destruct H2 as [|c d2 Hc H2]; simplify_eq/=.
    match goal with H : _ ++ _ = _ ++ _ |- _ => apply IH in H as [-> ->] end; done.
Qed.

(** A length-prefixed field determines its text and what follows it. *)
Lemma length_prefixed_inj s t r1 r2 :
  as_bytes (pretty (str_len s)) ++ Byte.x3a :: as_bytes s ++ r1 =
  as_bytes (pretty (str_len t)) ++ Byte.x3a :: as_bytes t ++ r2 ->
  s = t /\ r1 = r2.
Proof.
  assert (Hd : forall x : N, Forall (fun b => b <> Byte.x3a) (as_bytes (pretty x))).
  { intros x. eapply Forall_impl; [apply pretty_N_digits|]. by intros b (_ & ? & _). }
  intros [Hl Hr]%separated_inj; [|apply Hd..].
  apply as_bytes_inj, (inj pretty) in Hl. unfold str_len in Hl.
  apply app_inj_1 in Hr as [Hs ->]; [|lia]. by apply as_bytes_inj in Hs as ->.
Qed.

Lemma move_id_bytes stream consumer offset :
  as_bytes (move_id stream consumer offset) =
  as_bytes "runnel-dlq/v1/" ++
  as_bytes (pretty (str_len stream)) ++ Byte.x3a :: as_bytes stream ++
  Byte.x2f :: as_bytes (pretty (str_len consumer)) ++ Byte.x3a :: as_bytes consumer ++
  Byte.x2f :: as_bytes (pretty offset).
Proof. unfold move_id. by rewrite !as_bytes_app. Qed.

Lemma move_id_inj s c o s' c' o' :
  move_id s c o = move_id s' c' o' -> s = s' /\ c = c' /\ o = o'.
Proof.
  intros H%(f_equal as_bytes). rewrite !move_id_bytes in H. apply (inj (app _)) in H.
  apply length_prefixed_inj in H as [-> H]. injection H as H.
  apply length_prefixed_inj in H as [-> H]. injection H as H.
  by apply as_bytes_inj, (inj pretty) in H as ->.
Qed.

Lemma dead_letter_move_id_total s c o :
  valid_name s -> valid_name c -> o <= u64_max -> dead_letter_move_id s c o = Ok (move_id s c o).
Proof.
  intros [Hs _] [Hc _] Ho. unfold dead_letter_move_id. rewrite (proj2 (N.leb_le _ _)); [done|].
  unfold move_id. rewrite !str_len_app.
  pose proof (pretty_N_len 3 (str_len s) ltac:(lia) ltac:(simpl; lia)).
  pose proof (pretty_N_len 3 (str_len c) ltac:(lia) ltac:(simpl; lia)).
  pose proof (pretty_N_len 20 o ltac:(lia) ltac:(unfold u64_max in *; simpl; lia)).
  change (str_len "runnel-dlq/v1/") with 14. change (str_len ":") with 1.
  change (str_len "/") with 1. unfold MAX_REQUEST_ID_LEN. lia.
Qed.

(**  Dead-letter identities are well defined and unambiguous. For valid
    names and any offset the move identity exists and fits the storage limit,
    two moves share an identity only when they move the same offset of the same
    stream for the same consumer, and the dead-letter stream of a valid stream
    name has a valid name of its own. *)
Theorem dead_letter_identity s c o :
  valid_name s -> valid_name c -> o <= u64_max ->
  (exists id, dead_letter_move_id s c o = Ok id /\ str_len id <= MAX_REQUEST_ID_LEN /\
     forall s' c' o', dead_letter_move_id s' c' o' = Ok id -> s' = s /\ c' = c /\ o' = o) /\
  (exists name, dead_letter_stream_name s = Ok name /\ validate_name "stream" name = Ok tt).
Proof.
  intros Hs Hc Ho. split.
  - pose proof (dead_letter_move_id_total s c o Hs Hc Ho) as Hid.
    exists (move_id s c o). split; [done|]. unfold dead_letter_move_id in Hid |- *.
    destruct (N.leb_spec (str_len (move_id s c o)) MAX_REQUEST_ID_LEN); [|done]. split; [done|].
    intros s' c' o'. destruct (_ <=? _); [|done]. intros Heq. apply move_id_inj. congruence.
  - destruct (dead_letter_stream_name_total s Hs) as (name & ? & Hv). exists name.
    split; [done|]. by apply validate_name_valid.
Qed.

Lemma dead_letter_identity_witness :
  (exists id, dead_letter_move_id "orders" "billing" 7 = Ok id /\ str_len id <= MAX_REQUEST_ID_LEN /\
     forall s' c' o', dead_letter_move_id s' c' o' = Ok id -> s' = "orders" /\ c' = "billing" /\ o' = 7) /\
  (exists name, dead_letter_stream_name "orders" = Ok name /\ validate_name "stream" name = Ok tt).
Proof.
  apply dead_letter_identity.
  - apply (validate_name_Ok "stream" _ tt). vm_compute. reflexivity.
  - apply (validate_name_Ok "consumer" _ tt). vm_compute. reflexivity.
  - vm_compute. discriminate.
Defined.
