(* ===== verification/Paths.v ===== *)
(** Names of files: decimal numbers in them, their extensions, and the order in
    which [Vec<PathBuf>::sort] puts them. *)

From S2P Require Import Prelude Engine RecordFormat Names.

Local Open Scope N_scope.

(** ** Decimal numbers *)

Definition is_ascii_digit (b : byte) : bool := in_range 0x30 0x39 b.

Definition dec_digit (v : N) : byte := byte_of_N (0x30 + v).

(** [{v:0n}] for a number of at most [n] digits. *)
Fixpoint dec_digits (n : nat) (v : N) : list byte :=
  match n with
  | O => []
  | S n => dec_digit (v / 10 ^ N.of_nat n mod 10) :: dec_digits n v
  end.

Fixpoint skip_zeros (l : list byte) : list byte :=
  match l with
  | [] => []
  | b :: rest => if bool_decide (b = Byte.x30) then skip_zeros rest else l
  end.

(** [{v}] for a [u32] *)
Definition dec_u32 (v : N) : list byte :=
  match skip_zeros (dec_digits 10 v) with [] => [Byte.x30] | l => l end.

(** [str::parse] to an unsigned integer with the largest value [max]. *)
Fixpoint parse_decimal (max acc : N) (l : list byte) : option N :=
  match l with
  | [] => Some acc
  | b :: l =>
    if is_ascii_digit b then
      let acc := acc * 10 + (Byte.to_N b - 0x30) in
      if acc <=? max then parse_decimal max acc l else None
    else None
  end.

Definition parse_uint (max : N) (l : list byte) : option N :=
  match l with
  | [] => None
  | b :: rest =>
    if bool_decide (b = Byte.x2b) then
      match rest with [] => None | _ => parse_decimal max 0 rest end
    else parse_decimal max 0 l
  end.

(** ** Extensions *)

Definition dot : byte := Byte.x2e.

(** The text before and after the last dot. *)
Fixpoint split_last_dot (l : list byte) : option (list byte * list byte) :=
  match l with
  | [] => None
  | b :: rest =>
    match split_last_dot rest with
    | Some (stem, ext) => Some (b :: stem, ext)
    | None => if bool_decide (b = dot) then Some ([], rest) else None
    end
  end.

(** [Path::file_stem] and [Path::extension]: a leading dot starts no extension. *)
Definition file_stem (name : list byte) : list byte :=
  match split_last_dot name with
  | Some ([], _) | None => name
  | Some (stem, _) => stem
  end.

Definition extension (name : list byte) : option (list byte) :=
  match split_last_dot name with
  | Some ([], _) | None => None
  | Some (_, ext) => Some ext
  end.

Definition with_extension (name ext : list byte) : list byte := file_stem name ++ [dot] ++ ext.

(** ** Searching text *)

(** [str::strip_prefix] *)
Fixpoint strip_prefix (pre l : list byte) : option (list byte) :=
  match pre, l with
  | [], _ => Some l
  | a :: pre, b :: l => if bool_decide (a = b) then strip_prefix pre l else None
  | _ :: _, [] => None
  end.

(** [str::split_once]: before and after the first occurrence. *)
Fixpoint split_once (pat l : list byte) : option (list byte * list byte) :=
  match strip_prefix pat l with
  | Some rest => Some ([], rest)
  | None =>
    match l with
    | [] => None
    | b :: l =>
      match split_once pat l with
      | Some (before, after) => Some (b :: before, after)
      | None => None
      end
    end
  end.

(** ** The order of names *)

Fixpoint bytes_leb (l1 l2 : list byte) : bool :=
  match l1, l2 with
  | [], _ => true
  | _ :: _, [] => false
  | a :: l1, b :: l2 =>
    (Byte.to_N a <? Byte.to_N b) || ((Byte.to_N a =? Byte.to_N b) && bytes_leb l1 l2)
  end.

Definition name_le (s t : string) : Prop := bytes_leb (as_bytes s) (as_bytes t) = true.

#[export] Instance name_le_dec : RelDecision name_le.
Proof. intros s t. unfold name_le. apply _. Defined.

(** [paths.sort()] for files of one directory. *)
Definition sort_names (names : list string) : list string := merge_sort name_le names.

(** ** Facts *)

Lemma bytes_leb_total l1 l2 : bytes_leb l1 l2 = true \/ bytes_leb l2 l1 = true.
Proof.
  revert l2; induction l1 as [|a l1 IH]; intros [|b l2]; cbn; auto.
  destruct (IH l2) as [H|H]; rewrite H;
    destruct (N.ltb_spec (Byte.to_N a) (Byte.to_N b)), (N.ltb_spec (Byte.to_N b) (Byte.to_N a)); cbn; auto;
    assert (E : Byte.to_N a = Byte.to_N b) by lia; rewrite E, N.eqb_refl; auto.
Qed.

Lemma bytes_leb_trans l1 l2 l3 : bytes_leb l1 l2 = true -> bytes_leb l2 l3 = true -> bytes_leb l1 l3 = true.
Proof.
  revert l2 l3; induction l1 as [|a l1 IH]; intros [|b l2] [|c l3]; cbn; try done.
  rewrite !orb_true_iff, !andb_true_iff, !N.ltb_lt, !N.eqb_eq.
  intros [?|[? ?]] [?|[? ?]]; [left; lia..|right]. split; [lia|eauto].
Qed.

Lemma byte_to_N_inj (a b : byte) : Byte.to_N a = Byte.to_N b -> a = b.
Proof. intros H. by rewrite <-(byte_of_N_to_N a), <-(byte_of_N_to_N b), H. Qed.

Lemma bytes_leb_antisym l1 l2 : bytes_leb l1 l2 = true -> bytes_leb l2 l1 = true -> l1 = l2.
Proof.
  revert l2; induction l1 as [|a l1 IH]; intros [|b l2]; cbn; try done.
  rewrite !orb_true_iff, !andb_true_iff, !N.ltb_lt, !N.eqb_eq.
  intros [?|[E1 ?]] [?|[? ?]]; [lia..|]. f_equal; [by apply byte_to_N_inj|auto].
Qed.

#[export] Instance name_le_total : Total name_le.
Proof. intros s t. apply bytes_leb_total. Qed.

#[export] Instance name_le_trans : Transitive name_le.
Proof. intros s t u. apply bytes_leb_trans. Qed.

#[export] Instance name_le_antisymm : AntiSymm (=) name_le.
Proof. intros s t H1 H2. by apply as_bytes_inj, bytes_leb_antisym. Qed.

(** A permutation of a sorted list of names is sorted to it. *)
Lemma sort_names_unique names sorted :
  names ≡ₚ sorted -> StronglySorted name_le sorted -> sort_names names = sorted.
Proof.
  intros Hp Hs. apply (StronglySorted_unique name_le); [|done|by rewrite <-Hp; apply merge_sort_Permutation].
  apply Sorted_StronglySorted; [apply _|]. apply Sorted_merge_sort, _.
Qed.

Lemma dec_digit_to_N v : v < 10 -> Byte.to_N (dec_digit v) = 0x30 + v.
Proof. intros Hv. unfold dec_digit. rewrite byte_to_N_of_N. apply N.mod_small. lia. Qed.

Lemma dec_digit_is_digit v : v < 10 -> is_ascii_digit (dec_digit v) = true.
Proof.
  intros Hv. unfold is_ascii_digit, in_range. rewrite dec_digit_to_N by done.
  apply andb_true_iff. rewrite !N.leb_le. lia.
Qed.

Lemma dec_digits_len n v : length (dec_digits n v) = n.
Proof. induction n; cbn; auto. Qed.

Lemma dec_digits_digits n v : Forall (fun b => is_ascii_digit b = true) (dec_digits n v).
Proof. induction n; cbn; constructor; [|done]. apply dec_digit_is_digit, N.mod_lt. lia. Qed.

Lemma pow10_pos n : 0 < 10 ^ n.
Proof. apply N.neq_0_lt_0, N.pow_nonzero. lia. Qed.

(** The digits of [v] are its leading digit and those of the rest. *)
Lemma div_mod_split v n : v mod 10 ^ N.succ n = (v / 10 ^ n mod 10) * 10 ^ n + v mod 10 ^ n.
Proof.
  rewrite N.pow_succ_r', (N.mul_comm 10), N.Div0.mod_mul_r, N.add_comm. f_equal. apply N.mul_comm.
Qed.

Lemma parse_decimal_dec max acc n v :
  acc * 10 ^ N.of_nat n + v mod 10 ^ N.of_nat n <= max ->
  parse_decimal max acc (dec_digits n v) = Some (acc * 10 ^ N.of_nat n + v mod 10 ^ N.of_nat n).
Proof.
  revert acc; induction n as [|n IH]; intros acc Hm.
  - cbn. rewrite N.mod_1_r. f_equal. lia.
  - cbn [dec_digits parse_decimal]. rewrite Nat2N.inj_succ in *.
    set (c := v / 10 ^ N.of_nat n mod 10). assert (Hc : c < 10) by (apply N.mod_lt; lia).
    rewrite dec_digit_is_digit, dec_digit_to_N by done. cbv zeta.
    replace (0x30 + c - 0x30) with c by lia. rewrite div_mod_split in *. fold c in Hm |- *.
    rewrite N.pow_succ_r' in *. pose proof (pow10_pos (N.of_nat n)) as Hp.
    set (P := 10 ^ N.of_nat n) in *. set (r := v mod P) in *. clearbody P r c.
    assert (Hle : acc * 10 + c <= max).
    { transitivity ((acc * 10 + c) * P); [nia|]. etransitivity; [|exact Hm]. nia. }
    rewrite (proj2 (N.leb_le _ _) Hle), IH; [f_equal; nia|nia].
Qed.

Lemma parse_decimal_head max l : Forall (fun b => is_ascii_digit b = true) l -> l <> [] -> parse_uint max l = parse_decimal max 0 l.
Proof.
  intros Hd Hn. destruct l as [|b l]; [done|]. cbn [parse_uint]. rewrite bool_decide_eq_false_2; [done|].
  intros ->. by apply Forall_cons in Hd as [Hd _].
Qed.

Lemma parse_uint_dec max n v :
  (0 < n)%nat -> v < 10 ^ N.of_nat n -> v <= max -> parse_uint max (dec_digits n v) = Some v.
Proof.
  intros Hn Hv Hm. rewrite parse_decimal_head; [|apply dec_digits_digits|].
  - rewrite parse_decimal_dec; rewrite N.mod_small by done; [f_equal; lia|lia].
  - intros E. pose proof (dec_digits_len n v) as H. rewrite E in H. cbn in H. lia.
Qed.

Lemma parse_skip_zeros max l : parse_decimal max 0 (skip_zeros l) = parse_decimal max 0 l.
Proof.
  induction l as [|b l IH]; [done|]. cbn [skip_zeros]. case_bool_decide as Hb; [|done].
  subst b. rewrite IH. cbn [parse_decimal]. change (is_ascii_digit Byte.x30) with true.
  change (0 * 10 + (Byte.to_N Byte.x30 - 48)) with 0. by rewrite (proj2 (N.leb_le 0 max) (N.le_0_l max)).
Qed.

Lemma skip_zeros_suffix l : exists z, l = z ++ skip_zeros l.
Proof.
  induction l as [|b l [z IH]]; [by exists []|]. cbn [skip_zeros]. case_bool_decide; [|by exists []].
  exists (b :: z). cbn. by f_equal.
Qed.

Lemma dec_u32_digits v : Forall (fun b => is_ascii_digit b = true) (dec_u32 v).
Proof.
  unfold dec_u32. destruct (skip_zeros_suffix (dec_digits 10 v)) as [z Hz].
  pose proof (dec_digits_digits 10 v) as H. rewrite Hz in H. apply Forall_app in H as [_ H].
  destruct (skip_zeros (dec_digits 10 v)); [by repeat constructor|done].
Qed.

Lemma parse_dec_u32 v : v <= u32_max -> parse_uint u32_max (dec_u32 v) = Some v.
Proof.
  intros Hv. assert (Hp : parse_decimal u32_max 0 (dec_digits 10 v) = Some v).
  { rewrite parse_decimal_dec; rewrite N.mod_small; unfold u32_max in *; try (f_equal; lia); cbn; lia. }
  rewrite parse_decimal_head; [|apply dec_u32_digits|unfold dec_u32; by destruct (skip_zeros _)].
  unfold dec_u32. rewrite <-parse_skip_zeros in Hp. destruct (skip_zeros (dec_digits 10 v)); [|done].
  injection Hp as <-. done.
Qed.

(** Numbers written with as many digits are in the order of their text. *)
Lemma dec_digits_order n v v' rest :
  v mod 10 ^ N.of_nat n <= v' mod 10 ^ N.of_nat n ->
  bytes_leb (dec_digits n v ++ rest) (dec_digits n v' ++ rest) = true.
Proof.
  induction n as [|n IH]; intros Hle.
  - cbn. by destruct (bytes_leb_total rest rest).
  - cbn [dec_digits app bytes_leb]. rewrite Nat2N.inj_succ, !div_mod_split in Hle.
    set (c := v / 10 ^ N.of_nat n mod 10) in *. set (c' := v' / 10 ^ N.of_nat n mod 10) in *.
    assert (Hc : c < 10) by (apply N.mod_lt; lia). assert (Hc' : c' < 10) by (apply N.mod_lt; lia).
    rewrite !dec_digit_to_N by done. pose proof (pow10_pos (N.of_nat n)) as Hp.
    pose proof (N.mod_lt v (10 ^ N.of_nat n) ltac:(lia)). pose proof (N.mod_lt v' (10 ^ N.of_nat n) ltac:(lia)).
    apply orb_true_iff. rewrite andb_true_iff, N.ltb_lt, N.eqb_eq.
    destruct (N.lt_trichotomy c c') as [|[E|]]; [left; lia| |].
    2: { exfalso. set (r := v mod _) in *. set (r' := v' mod _) in *. set (P := 10 ^ _) in *.
         clearbody P r r' c c'. nia. }
    right. split; [lia|]. apply IH. rewrite E in Hle. nia.
Qed.

Lemma split_last_dot_none l : Forall (fun b => b <> dot) l -> split_last_dot l = None.
Proof.
  induction 1 as [|b l Hb _ IH]; [done|]. cbn [split_last_dot]. rewrite IH. by rewrite bool_decide_eq_false_2.
Qed.

Lemma split_last_dot_app stem ext :
  Forall (fun b => b <> dot) ext -> split_last_dot (stem ++ dot :: ext) = Some (stem, ext).
Proof.
  intros He. induction stem as [|b stem IH]; cbn [app split_last_dot].
  - rewrite split_last_dot_none by done. by rewrite bool_decide_eq_true_2.
  - by rewrite IH.
Qed.

Lemma strip_prefix_app pre l : strip_prefix pre (pre ++ l) = Some l.
Proof. induction pre as [|a pre IH]; cbn; [by destruct l|]. by rewrite bool_decide_eq_true_2. Qed.

(** Text without the first byte of a pattern holds none of its occurrences. *)
Lemma split_once_skip a pat l rest :
  Forall (fun b => b <> a) l ->
  split_once (a :: pat) (l ++ rest) =
  match split_once (a :: pat) rest with
  | Some (before, after) => Some (l ++ before, after)
  | None => None
  end.
Proof.
  induction 1 as [|b l Hb _ IH]; cbn [app]; [by destruct (split_once _ rest) as [[]|]|].
  cbn [split_once strip_prefix]. rewrite bool_decide_eq_false_2 by congruence.
  rewrite IH. by destruct (split_once (a :: pat) rest) as [[]|].
Qed.
