(* ===== verification/StreamLog.v ===== *)
(** The append-only stream log of crates/runnel-core/src/stream_log.rs: the
    bounded tail cache, the sparse checkpoint index, the request-identity index,
    the append, lookup and candidate-search paths, and recovery.

    The file is its list of bytes; writes go to its end ([OpenOptions::append]).
    Every append takes the outcome of its I/O as an argument, so the error paths
    (a short write, a failed sync) are part of the model. *)

From S2P Require Import Prelude Engine RecordFormat.

Local Open Scope N_scope.

Definition MAX_IN_MEMORY_RECORDS : N := 1024.
Definition SPARSE_INDEX_STRIDE : N := 64.
Definition MAX_SPARSE_INDEX_ENTRIES : N := 1024.

(** ** Request identities *)

Record RequestIdentityIndex := {
  public : gmap string Offset;
  dead_letter_moves : gmap string Offset;
}.

Definition identities_empty : RequestIdentityIndex := {| public := ∅; dead_letter_moves := ∅ |}.

Definition identity_get (ids : RequestIdentityIndex) (identity : string)
  (kind : RequestIdentityKind) : option Offset :=
  match kind with
  | Public => public ids !! identity
  | DeadLetterMove => dead_letter_moves ids !! identity
  end.

(** [entry(identity).or_insert(offset)] *)
Definition or_insert (m : gmap string Offset) (k : string) (v : Offset) : gmap string Offset :=
  match m !! k with Some _ => m | None => <[k := v]> m end.

Definition identity_remember (ids : RequestIdentityIndex) (identity : string)
  (kind : RequestIdentityKind) (offset : Offset) : RequestIdentityIndex :=
  match kind with
  | Public =>
    {| public := or_insert (public ids) identity offset;
       dead_letter_moves := dead_letter_moves ids |}
  | DeadLetterMove =>
    {| public := public ids;
       dead_letter_moves := or_insert (dead_letter_moves ids) identity offset |}
  end.

(** ** Sparse index and tail cache *)

Record LogCheckpoint := {
  cp_offset : Offset;
  cp_cursor : N;
}.

(** A [VecDeque] is a list, front first. *)
Definition push_bounded {A} (bound : N) (x : A) (l : list A) : list A :=
  (if vec_len l =? bound then tail l else l) ++ [x].

Definition sparse_remember (checkpoints : list LogCheckpoint) (offset cursor : N) :
  list LogCheckpoint :=
  if negb (offset mod SPARSE_INDEX_STRIDE =? 0) then checkpoints
  else push_bounded MAX_SPARSE_INDEX_ENTRIES {| cp_offset := offset; cp_cursor := cursor |} checkpoints.

Definition start_for (checkpoints : list LogCheckpoint) (offset : Offset) : N :=
  match List.find (fun checkpoint => cp_offset checkpoint <=? offset) (rev checkpoints) with
  | Some checkpoint => cp_cursor checkpoint
  | None => 0
  end.

Definition remember_record (records : list RecordIndex) (record : RecordIndex) : list RecordIndex :=
  push_bounded MAX_IN_MEMORY_RECORDS record records.

(** ** The log *)

Record StreamLog := {
  log_file : list byte;
  log_records : list RecordIndex;
  log_sparse_index : list LogCheckpoint;
  log_request_ids : RequestIdentityIndex;
  log_next_offset : Offset;
}.

Definition log_create : StreamLog :=
  {| log_file := []; log_records := []; log_sparse_index := [];
     log_request_ids := identities_empty; log_next_offset := 0 |}.

Definition log_set_file (log : StreamLog) (file : list byte) : StreamLog :=
  {| log_file := file; log_records := log_records log; log_sparse_index := log_sparse_index log;
     log_request_ids := log_request_ids log; log_next_offset := log_next_offset log |}.

Definition remember_identity (ids : RequestIdentityIndex) (request_id : option string)
  (kind : option RequestIdentityKind) (offset : Offset) : RequestIdentityIndex :=
  match request_id, kind with
  | Some request_id, Some kind => identity_remember ids request_id kind offset
  | _, _ => ids
  end.

(** *** Recovery *)

(** The scan of [StreamLog::inspect]. Every round consumes at least a header,
    so a round per byte is enough. *)
Fixpoint inspect_loop (fuel : nat) (file : list byte) (file_len cursor next_offset : N)
  (records : list RecordIndex) (sparse : list LogCheckpoint) (ids : RequestIdentityIndex) :
  Result (StreamLog * N) BrokerError :=
  match fuel with
  | O => Err (Io OtherIo "scan did not terminate")
  | S fuel =>
    let? parsed := read_next_record file cursor file_len in
    match parsed with
    | None =>
      Ok ({| log_file := file; log_records := records; log_sparse_index := sparse;
             log_request_ids := ids; log_next_offset := next_offset |}, cursor)
    | Some parsed =>
      let index := pr_index parsed in
      if negb (ri_offset index =? next_offset) then
        Err (invalid_record_data "record offsets are not contiguous")
      else
        match u64_checked_add next_offset 1 with
        | None => Err (invalid_record_data "record offset exceeds u64 range")
        | Some next_offset =>
          inspect_loop fuel file file_len (pr_next_cursor parsed) next_offset
            (remember_record records index)
            (sparse_remember sparse (ri_offset index) cursor)
            (remember_identity ids (ri_request_id index) (ri_request_identity_kind index)
               (ri_offset index))
        end
    end
  end.

Definition log_inspect (file : list byte) : Result (StreamLog * option N) BrokerError :=
  let file_len := vec_len file in
  let? (log, cursor) := inspect_loop (S (length file)) file file_len 0 0 [] [] identities_empty in
  Ok (log, if cursor =? file_len then None else Some cursor).

Definition finish_recovery (log : StreamLog) (incomplete_tail : option N) : StreamLog :=
  match incomplete_tail with
  | Some cursor => log_set_file log (take (N.to_nat cursor) (log_file log))
  | None => log
  end.

(** *** Lookup *)

Definition scan_start (log : StreamLog) (offset : Offset) : N :=
  start_for (log_sparse_index log) offset.

(** The scan loops of [find_candidate] and [find_record]: parse records from
    [cursor] on and return the first that satisfies [p]. *)
Fixpoint scan_for (fuel : nat) (file : list byte) (file_len cursor : N) (p : RecordIndex -> bool) :
  Result (option RecordIndex) BrokerError :=
  match fuel with
  | O => Err (Io OtherIo "scan did not terminate")
  | S fuel =>
    let? parsed := read_next_record file cursor file_len in
    match parsed with
    | None => Ok None
    | Some parsed =>
      if p (pr_index parsed) then Ok (Some (pr_index parsed))
      else scan_for fuel file file_len (pr_next_cursor parsed) p
    end
  end.

Definition log_scan (log : StreamLog) (cursor : N) (p : RecordIndex -> bool) :
  Result (option RecordIndex) BrokerError :=
  scan_for (S (length (log_file log))) (log_file log) (vec_len (log_file log)) cursor p.

Definition find_record (log : StreamLog) (offset : Offset) : Result RecordIndex BrokerError :=
  match List.find (fun record => ri_offset record =? offset) (log_records log) with
  | Some record => Ok record
  | None =>
    let? found :=
      log_scan log (scan_start log offset) (fun record => ri_offset record =? offset) in
    match found with
    | Some record => Ok record
    | None => Err (CorruptRecord offset)
    end
  end.

Definition read_payload (log : StreamLog) (record : RecordIndex) : Result (list byte) BrokerError :=
  read_exact (log_file log) (ri_payload_offset record) (ri_payload_len record).

Definition read_message (log : StreamLog) (stream : string) (offset : Offset) :
  Result Message BrokerError :=
  let? index := find_record log offset in
  let? payload := read_payload log index in
  Ok {| msg_stream := stream; msg_offset := ri_offset index; msg_key := ri_key index;
        msg_payload := payload; msg_published_at_ms := ri_published_at_ms index;
        msg_delivery_token := None; msg_delivery_attempt := None |}.

Definition read_replay_message (log : StreamLog) (stream : string) (offset : Offset) :
  Result ReplayMessage BrokerError :=
  if log_next_offset log <=? offset then
    Err (HistoryUnavailable stream offset 0 (log_next_offset log))
  else
    let? index := find_record log offset in
    let? payload := read_payload log index in
    Ok {| rm_stream := stream; rm_offset := ri_offset index; rm_key := ri_key index;
          rm_payload := payload; rm_published_at_ms := ri_published_at_ms index |}.

(** *** Candidate search *)

(** Offsets and ordering keys reserved by in-flight deliveries and retry delays. *)
Abbreviation Filter := (gset Offset * gset string)%type.

Definition record_is_candidate (acknowledged_offsets : gset Offset) (in_flight : option Filter)
  (record : RecordIndex) : bool :=
  if bool_decide (ri_offset record ∈ acknowledged_offsets)
     || is_some_and (fun f => bool_decide (ri_offset record ∈ f.1)) in_flight
  then false
  else
    is_none_or (fun key => is_none_or (fun f => negb (bool_decide (key ∈ f.2))) in_flight)
      (ri_key record).

(** The binary search of [tail_start_index]: the window halves every round. *)
Fixpoint tail_start_loop (fuel : nat) (records : list RecordIndex) (offset : Offset)
  (low high : nat) : nat :=
  match fuel with
  | O => low
  | S fuel =>
    if Nat.ltb low high then
      let middle := (low + (high - low) / 2)%nat in
      match records !! middle with
      | Some record =>
        if ri_offset record <? offset then tail_start_loop fuel records offset (S middle) high
        else tail_start_loop fuel records offset low middle
      | None => low
      end
    else low
  end.

Definition tail_start_index (records : list RecordIndex) (offset : Offset) : nat :=
  tail_start_loop (length records) records offset 0 (length records).

Definition find_candidate (log : StreamLog) (committed_offset : Offset)
  (acknowledged_offsets : gset Offset) (in_flight : option Filter) :
  Result (option RecordIndex) BrokerError :=
  match head (log_records log) with
  | None => Ok None
  | Some front =>
    if ri_offset front <=? committed_offset then
      Ok (List.find (record_is_candidate acknowledged_offsets in_flight)
            (drop (tail_start_index (log_records log) committed_offset) (log_records log)))
    else
      log_scan log (scan_start log committed_offset)
        (fun record =>
           (committed_offset <=? ri_offset record)
           && record_is_candidate acknowledged_offsets in_flight record)
  end.

(** *** Appending *)

(** What the operating system did with one append. *)
Inductive WriteIo :=
| WriteOk
| WriteFails (written : nat) (kind : IoErrorKind).

Record AppendIo := {
  io_now_ms : N;
  io_write : WriteIo;
  io_sync : option IoErrorKind;
}.

Definition append_record_with_sync (io : AppendIo) (log : StreamLog) (key : option string)
  (payload : list byte) (identity : RecordIdentity) (sync : bool) :
  Result Offset BrokerError * StreamLog :=
  let key_bytes := as_bytes (default "" key) in
  match record_lengths (vec_len key_bytes) (vec_len payload) with
  | Err e => (Err e, log)
  | Ok (key_len, payload_len) =>
    let request_id_bytes := as_bytes (default "" (identity_request_id identity)) in
    match u32_try_from (vec_len request_id_bytes) with
    | None => (Err (InvalidRecord "request ID length exceeds u32 storage representation"), log)
    | Some request_id_len =>
      if MAX_REQUEST_ID_LEN <? request_id_len then
        (Err (InvalidRecord ("request ID is " +:+ pretty request_id_len
                +:+ " bytes; stream record limit is " +:+ pretty MAX_REQUEST_ID_LEN +:+ " bytes")),
         log)
      else
        let offset := log_next_offset log in
        let published_at_ms := io_now_ms io in
        let frame :=
          encode_record (identity_flag identity) offset published_at_ms key_bytes
            request_id_bytes payload in
        match io_write io with
        | WriteFails written kind =>
          (Err (Io kind "write failed"), log_set_file log (log_file log ++ take written frame))
        | WriteOk =>
          let log := log_set_file log (log_file log ++ frame) in
          match (if sync then io_sync io else None) with
          | Some kind => (Err (Io kind "sync failed"), log)
          | None =>
            let payload_offset := vec_len (log_file log) - vec_len payload in
            let record_cursor :=
              payload_offset - vec_len request_id_bytes - vec_len key_bytes - RECORD_HEADER_LEN in
            (Ok offset,
             {| log_file := log_file log;
                log_records := remember_record (log_records log)
                  {| ri_offset := offset; ri_payload_offset := payload_offset;
                     ri_payload_len := payload_len; ri_key := key;
                     ri_request_id := identity_request_id identity;
                     ri_request_identity_kind := identity_kind identity;
                     ri_published_at_ms := published_at_ms |};
                log_sparse_index := sparse_remember (log_sparse_index log) offset record_cursor;
                log_request_ids := remember_identity (log_request_ids log)
                  (identity_request_id identity) (identity_kind identity) offset;
                log_next_offset := u64_saturating_add offset 1 |})
          end
        end
    end
  end.

Definition log_append (io : AppendIo) (log : StreamLog) (key : option string) (payload : list byte) :
  Result Offset BrokerError * StreamLog :=
  append_record_with_sync io log key payload NoIdentity true.

Definition append_with_request_id (io : AppendIo) (log : StreamLog) (key : option string)
  (payload : list byte) (request_id : string) : Result Offset BrokerError * StreamLog :=
  append_record_with_sync io log key payload (PublicId request_id) true.

Definition request_offset (log : StreamLog) (request_id : string) : option Offset :=
  identity_get (log_request_ids log) request_id Public.

Definition dead_letter_move_offset (log : StreamLog) (move_id : string) : option Offset :=
  identity_get (log_request_ids log) move_id DeadLetterMove.

Definition request_offset_for_content (log : StreamLog) (request_id : string) (key : option string)
  (payload : list byte) : Result (option Offset) BrokerError :=
  match request_offset log request_id with
  | None => Ok None
  | Some offset =>
    let? existing := find_record log offset in
    let existing_key := as_bytes (default "" (ri_key existing)) in
    let incoming_key := as_bytes (default "" key) in
    if bool_decide (existing_key <> incoming_key) then Err RequestIdContentConflict
    else
      let? existing_payload := read_payload log existing in
      if bool_decide (existing_payload <> payload) then Err RequestIdContentConflict
      else Ok (Some offset)
  end.

Definition append_with_move_id (io : AppendIo) (log : StreamLog) (key : option string)
  (payload : list byte) (move_id : string) : Result Offset BrokerError * StreamLog :=
  match dead_letter_move_offset log move_id with
  | Some offset =>
    (let? existing := find_record log offset in
     if bool_decide (ri_key existing <> key) then
       Err (invalid_record_data "dead-letter move identity has different key or payload")
     else
       let? existing_payload := read_payload log existing in
       if bool_decide (existing_payload <> payload) then
         Err (invalid_record_data "dead-letter move identity has different key or payload")
       else Ok offset, log)
  | None => append_record_with_sync io log key payload (MoveId move_id) true
  end.

Definition is_per_record_rejection (e : BrokerError) : bool :=
  match e with
  | InvalidRecord _ => true
  | Io kind _ => bool_decide (kind = InvalidInput)
  | _ => false
  end.

(** The loop of [append_batch]; [ios] gives the I/O outcome of each append. *)
Fixpoint append_batch_loop (ios : list AppendIo) (log : StreamLog) (records : list PublishRecord)
  (outcomes : list (Result Offset BrokerError)) (appended : bool) :
  Result (list (Result Offset BrokerError) * bool) BrokerError * StreamLog :=
  match records with
  | [] => (Ok (outcomes, appended), log)
  | record :: records =>
    let io := default {| io_now_ms := 0; io_write := WriteOk; io_sync := None |} (head ios) in
    let key := pr_key record in
    let payload := pr_payload record in
    let known :=
      match pr_request_id record with
      | Some request_id => request_offset_for_content log request_id key payload
      | None => Ok None
      end in
    match known with
    | Ok (Some offset) =>
      append_batch_loop (tail ios) log records (outcomes ++ [Ok offset]) appended
    | Err RequestIdContentConflict =>
      append_batch_loop (tail ios) log records (outcomes ++ [Err RequestIdContentConflict]) appended
    | Err e => (Err e, log)
    | Ok None =>
      let identity :=
        match pr_request_id record with Some request_id => PublicId request_id | None => NoIdentity end in
      match append_record_with_sync io log key payload identity false with
      | (Ok offset, log) => append_batch_loop (tail ios) log records (outcomes ++ [Ok offset]) true
      | (Err e, log) =>
        if is_per_record_rejection e then
          append_batch_loop (tail ios) log records (outcomes ++ [Err e]) appended
        else (Err e, log)
      end
    end
  end.

Definition append_batch (ios : list AppendIo) (sync : option IoErrorKind) (log : StreamLog)
  (records : list PublishRecord) : Result (list (Result Offset BrokerError)) BrokerError * StreamLog :=
  match append_batch_loop ios log records [] false with
  | (Err e, log) => (Err e, log)
  | (Ok (outcomes, appended), log) =>
    match (if appended then sync else None) with
    | Some kind => (Err (Io kind "sync failed"), log)
    | None => (Ok outcomes, log)
    end
  end.

(** ** The abstract log

    A stream is the list of its entries in offset order; [log_of] is the one
    concrete log that represents it. The theorems below are equations between
    the operations on [log_of es] and list operations on [es]. *)

Record Entry := {
  e_key : option string;
  e_payload : list byte;
  e_identity : RecordIdentity;
  e_published_at_ms : N;
}.

Definition entry_key_bytes (e : Entry) : list byte := as_bytes (default "" (e_key e)).
Definition entry_id_bytes (e : Entry) : list byte :=
  as_bytes (default "" (identity_request_id (e_identity e))).

(** Entries the log accepts; keys are [None] or non-empty. *)
Record entry_ok (e : Entry) : Prop := {
  eo_key_nonempty : e_key e <> Some "";
  eo_key : vec_len (entry_key_bytes e) <= MAX_KEY_LEN;
  eo_key_utf8 : rust_string (default "" (e_key e));
  eo_id : vec_len (entry_id_bytes e) <= MAX_REQUEST_ID_LEN;
  eo_id_utf8 : rust_string (default "" (identity_request_id (e_identity e)));
  eo_payload : vec_len (e_payload e) <= MAX_BODY_LEN;
  eo_published : e_published_at_ms e <= u64_max;
}.

Definition encode_entry (i : Offset) (e : Entry) : list byte :=
  encode_record (identity_flag (e_identity e)) i (e_published_at_ms e) (entry_key_bytes e)
    (entry_id_bytes e) (e_payload e).

Arguments encode_entry : simpl never.

Definition entry_len (e : Entry) : N :=
  record_len (entry_key_bytes e) (entry_id_bytes e) (e_payload e).

Definition entry_index (cursor : N) (i : Offset) (e : Entry) : RecordIndex :=
  {| ri_offset := i;
     ri_payload_offset :=
       cursor + RECORD_HEADER_LEN + vec_len (entry_key_bytes e) + vec_len (entry_id_bytes e);
     ri_payload_len := vec_len (e_payload e);
     ri_key := e_key e;
     ri_request_id := identity_request_id (e_identity e);
     ri_request_identity_kind := identity_kind (e_identity e);
     ri_published_at_ms := e_published_at_ms e |}.

Fixpoint entries_bytes (i : Offset) (es : list Entry) : list byte :=
  match es with
  | [] => []
  | e :: es => encode_entry i e ++ entries_bytes (i + 1) es
  end.

Fixpoint entries_index (cursor : N) (i : Offset) (es : list Entry) : list RecordIndex :=
  match es with
  | [] => []
  | e :: es => entry_index cursor i e :: entries_index (cursor + entry_len e) (i + 1) es
  end.

Fixpoint entries_checkpoints (cursor : N) (i : Offset) (es : list Entry) : list LogCheckpoint :=
  match es with
  | [] => []
  | e :: es =>
    (if i mod SPARSE_INDEX_STRIDE =? 0 then [{| cp_offset := i; cp_cursor := cursor |}] else [])
    ++ entries_checkpoints (cursor + entry_len e) (i + 1) es
  end.

Fixpoint entries_ids (ids : RequestIdentityIndex) (i : Offset) (es : list Entry) :
  RequestIdentityIndex :=
  match es with
  | [] => ids
  | e :: es =>
    entries_ids
      (remember_identity ids (identity_request_id (e_identity e)) (identity_kind (e_identity e)) i)
      (i + 1) es
  end.

Definition last_n {A} (n : N) (l : list A) : list A := drop (length l - N.to_nat n) l.

Definition log_of (es : list Entry) : StreamLog :=
  {| log_file := entries_bytes 0 es;
     log_records := last_n MAX_IN_MEMORY_RECORDS (entries_index 0 0 es);
     log_sparse_index := last_n MAX_SPARSE_INDEX_ENTRIES (entries_checkpoints 0 0 es);
     log_request_ids := entries_ids identities_empty 0 es;
     log_next_offset := vec_len es |}.

(** The byte position of entry [i]. *)
Definition cursor_of (es : list Entry) (i : nat) : N := vec_len (entries_bytes 0 (take i es)).

(** *** Structure of the representation *)

Lemma entry_writable i e :
  entry_ok e -> i <= u64_max ->
  writable (identity_flag (e_identity e)) i (e_published_at_ms e) (entry_key_bytes e)
    (entry_id_bytes e) (e_payload e).
Proof.
  intros [] Hi. split; try done.
  - destruct (e_identity e); simpl; unfold NO_IDENTITY_FLAG; lia.
  - unfold entry_id_bytes. by destruct (e_identity e).
Qed.

Lemma scanned_index_entry cursor i e :
  entry_ok e ->
  scanned_index cursor (identity_flag (e_identity e)) i (e_published_at_ms e) (entry_key_bytes e)
    (entry_id_bytes e) (e_payload e) = entry_index cursor i e.
Proof.
  intros [Hne _ _ _ _ _ _]. unfold scanned_index, entry_index. f_equal.
  - unfold entry_key_bytes. destruct (e_key e) as [k|]; simpl; [|done].
    rewrite bool_decide_eq_false_2; [by rewrite of_bytes_as_bytes|].
    intros Hk. apply Hne. f_equal. apply as_bytes_inj. by rewrite Hk.
  - unfold entry_id_bytes. destruct (e_identity e); simpl; by rewrite ?of_bytes_as_bytes.
  - by destruct (e_identity e).
Qed.

Lemma encode_entry_len i e : vec_len (encode_entry i e) = entry_len e.
Proof. apply encode_record_len. Qed.

Lemma encode_entry_pos i e : (0 < length (encode_entry i e))%nat.
Proof.
  pose proof (encode_entry_len i e) as Hl.
  unfold vec_len, entry_len, record_len, RECORD_HEADER_LEN in Hl. lia.
Qed.

Lemma entries_bytes_app i es1 es2 :
  entries_bytes i (es1 ++ es2) = entries_bytes i es1 ++ entries_bytes (i + vec_len es1) es2.
Proof.
  revert i; induction es1 as [|e es IH]; intros i; cbn [entries_bytes entries_ids app].
  - by rewrite vec_len_nil, N.add_0_r.
  - by rewrite IH, app_assoc, vec_len_cons, N.add_assoc.
Qed.

Lemma entries_bytes_len i j es : vec_len (entries_bytes i es) = vec_len (entries_bytes j es).
Proof.
  revert i j; induction es as [|e es IH]; intros i j; cbn [entries_bytes]; [done|].
  by rewrite !vec_len_app, !encode_entry_len, (IH (i + 1) (j + 1)).
Qed.

Lemma entries_index_app cursor i es1 es2 :
  entries_index cursor i (es1 ++ es2) =
  entries_index cursor i es1
    ++ entries_index (cursor + vec_len (entries_bytes i es1)) (i + vec_len es1) es2.
Proof.
  revert cursor i; induction es1 as [|e es IH]; intros cursor i; cbn [entries_bytes entries_index entries_checkpoints app].
  - by rewrite !vec_len_nil, !N.add_0_r.
  - by rewrite IH, vec_len_app, encode_entry_len, vec_len_cons, !N.add_assoc.
Qed.

Lemma entries_checkpoints_app cursor i es1 es2 :
  entries_checkpoints cursor i (es1 ++ es2) =
  entries_checkpoints cursor i es1
    ++ entries_checkpoints (cursor + vec_len (entries_bytes i es1)) (i + vec_len es1) es2.
Proof.
  revert cursor i; induction es1 as [|e es IH]; intros cursor i; cbn [entries_bytes entries_index entries_checkpoints app].
  - by rewrite !vec_len_nil, !N.add_0_r.
  - by rewrite IH, vec_len_app, encode_entry_len, vec_len_cons, !N.add_assoc, app_assoc.
Qed.

Lemma entries_ids_app ids i es1 es2 :
  entries_ids ids i (es1 ++ es2) = entries_ids (entries_ids ids i es1) (i + vec_len es1) es2.
Proof.
  revert ids i; induction es1 as [|e es IH]; intros ids i; cbn [entries_ids app].
  - by rewrite vec_len_nil, N.add_0_r.
  - by rewrite IH, vec_len_cons, N.add_assoc.
Qed.

Lemma entries_index_length cursor i es : length (entries_index cursor i es) = length es.
Proof. revert cursor i; induction es; intros; simpl; auto. Qed.

Lemma entries_bytes_length_ge i es : (length es <= length (entries_bytes i es))%nat.
Proof.
  revert i; induction es as [|e es IH]; intros i; cbn [entries_bytes length]; [lia|].
  rewrite length_app. pose proof (encode_entry_pos i e). specialize (IH (i + 1)). lia.
Qed.

Lemma push_bounded_last_n {A} b (x : A) l :
  0 < b -> push_bounded b x (last_n b l) = last_n b (l ++ [x]).
Proof.
  intros Hb. unfold push_bounded, last_n, vec_len. rewrite length_app, length_drop. simpl.
  destruct (decide (N.to_nat b <= length l)%nat) as [Hle|Hgt].
  - rewrite (proj2 (N.eqb_eq _ _)) by lia.
    assert (Ht : forall k : list A, tail k = drop 1 k) by (by intros []).
    rewrite Ht, drop_drop, drop_app_le by lia. do 2 f_equal. lia.
  - rewrite (proj2 (N.eqb_neq _ _)) by lia.
    replace (length l - N.to_nat b)%nat with 0%nat by lia.
    replace (length l + 1 - N.to_nat b)%nat with 0%nat by lia. done.
Qed.

(** *** Reading a represented file back *)

Lemma read_entry pre i e post :
  entry_ok e -> i <= u64_max ->
  let file := pre ++ encode_entry i e ++ post in
  read_next_record file (vec_len pre) (vec_len file) =
  Ok (Some {| pr_index := entry_index (vec_len pre) i e;
              pr_next_cursor := vec_len pre + entry_len e |}).
Proof.
  intros He Hi. cbv zeta. unfold encode_entry.
  rewrite (read_next_record_written _ _ _ _ _ _ (entry_writable i e He Hi)).
  by rewrite scanned_index_entry.
Qed.

(** What a crash can leave behind the last complete record: nothing, or a
    proper prefix of the frame that was being written. *)
Inductive torn_tail : list byte -> Prop :=
| torn_prefix e i m :
  entry_ok e -> i <= u64_max -> (m < length (encode_entry i e))%nat ->
  torn_tail (take m (encode_entry i e)).

Lemma torn_tail_nil : torn_tail [].
Proof.
  set (e := {| e_key := None; e_payload := []; e_identity := NoIdentity; e_published_at_ms := 0 |}).
  apply (torn_prefix e 0 0); [|done|].
  - split; vm_compute; try done.
  - vm_compute. lia.
Qed.

Lemma read_torn pre tail :
  torn_tail tail -> read_next_record (pre ++ tail) (vec_len pre) (vec_len (pre ++ tail)) = Ok None.
Proof.
  intros [e i m He Hi Hm].
  apply (read_next_record_torn _ _ _ _ _ _ (entry_writable i e He Hi) pre m Hm).
Qed.

Lemma scan_for_spec fuel p pre i es tail :
  (length es < fuel)%nat -> Forall entry_ok es -> i + vec_len es <= u64_max -> torn_tail tail ->
  let file := pre ++ entries_bytes i es ++ tail in
  scan_for fuel file (vec_len file) (vec_len pre) p =
  Ok (List.find p (entries_index (vec_len pre) i es)).
Proof.
  cbv zeta. intros Hfuel Hok Hi Ht.
  revert fuel pre i Hfuel Hi; induction Hok as [|e es He Hok IH]; intros fuel pre i Hfuel Hi;
    (destruct fuel as [|fuel]; [simpl in Hfuel; lia|]);
    cbn [scan_for entries_bytes entries_index List.find app].
  - by rewrite read_torn.
  - rewrite vec_len_cons in Hi. rewrite <-app_assoc, read_entry by (done || lia).
    cbn [pr_index pr_next_cursor]. destruct (p _); [done|].
    specialize (IH fuel (pre ++ encode_entry i e) (i + 1)).
    rewrite (vec_len_app pre), encode_entry_len, <-app_assoc in IH.
    apply IH; [simpl in Hfuel; lia|lia].
Qed.

Lemma entries_index_lookup cursor i es k :
  entries_index cursor i es !! k =
  entry_index (cursor + vec_len (entries_bytes i (take k es))) (i + N.of_nat k) <$> es !! k.
Proof.
  revert cursor i k; induction es as [|e es IH]; intros cursor i k; cbn [entries_index].
  - by rewrite !lookup_nil.
  - destruct k as [|k].
    + simpl. by rewrite vec_len_nil, !N.add_0_r.
    + cbn [lookup list_lookup]. rewrite IH. cbn [firstn entries_bytes].
      rewrite vec_len_app, encode_entry_len.
      replace (i + 1 + N.of_nat k) with (i + N.of_nat (S k)) by lia.
      by rewrite !N.add_assoc.
Qed.

Lemma entries_index_offsets cursor i es x :
  x ∈ entries_index cursor i es -> i <= ri_offset x < i + vec_len es.
Proof.
  intros [k Hk]%list_elem_of_lookup. rewrite entries_index_lookup in Hk.
  destruct (es !! k) as [e|] eqn:E; [|done]. simplify_eq/=.
  apply lookup_lt_Some in E. unfold vec_len. lia.
Qed.

Lemma entries_index_split es n :
  (n <= length es)%nat ->
  entries_index 0 0 es =
  entries_index 0 0 (take n es) ++ entries_index (cursor_of es n) (N.of_nat n) (drop n es).
Proof.
  intros Hn. rewrite <-(take_drop n es) at 1. rewrite entries_index_app. unfold cursor_of.
  rewrite !N.add_0_l. do 2 f_equal. unfold vec_len. rewrite length_take. lia.
Qed.

(** A scan from the position of entry [n] finds what a scan of the whole
    history finds, when the test refuses everything before [n]. *)
Lemma log_scan_spec es n p :
  Forall entry_ok es -> vec_len es <= u64_max -> (n <= length es)%nat ->
  (forall x, ri_offset x < N.of_nat n -> p x = false) ->
  log_scan (log_of es) (cursor_of es n) p = Ok (List.find p (entries_index 0 0 es)).
Proof.
  intros Hok Hlen Hn Hp. unfold log_scan. cbn [log_of log_file].
  assert (Hb : entries_bytes 0 es =
    entries_bytes 0 (take n es) ++ entries_bytes (N.of_nat n) (drop n es) ++ []).
  { rewrite app_nil_r. rewrite <-(take_drop n es) at 1. rewrite entries_bytes_app. do 2 f_equal.
    unfold vec_len. rewrite length_take. lia. }
  rewrite (entries_index_split es n Hn), find_skip.
  - rewrite Hb at 2 3. apply scan_for_spec.
    + rewrite length_drop. pose proof (entries_bytes_length_ge 0 es). lia.
    + by apply Forall_drop.
    + unfold vec_len in *. rewrite length_drop. lia.
    + apply torn_tail_nil.
  - apply Forall_forall. intros x [_ Hx]%entries_index_offsets. apply Hp.
    unfold vec_len in Hx. rewrite length_take in Hx. lia.
Qed.

Lemma entries_checkpoints_spec cursor i es cp :
  cp ∈ entries_checkpoints cursor i es ->
  exists n, (n < length es)%nat /\ cp_offset cp = i + N.of_nat n /\
    cp_cursor cp = cursor + vec_len (entries_bytes i (take n es)).
Proof.
  revert cursor i; induction es as [|e es IH]; intros cursor i; cbn [entries_checkpoints].
  - by intros ?%not_elem_of_nil.
  - rewrite elem_of_app. intros [Hin|Hin].
    + destruct (_ =? 0); [|by apply not_elem_of_nil in Hin].
      apply list_elem_of_singleton in Hin as ->. exists 0%nat.
      split_and!; [simpl; lia|simpl; lia|symmetry; apply N.add_0_r].
    + apply IH in Hin as (n & Hn & Ho & Hc). exists (S n). cbn [length firstn entries_bytes].
      rewrite vec_len_app, encode_entry_len, Hc, Ho. split_and!; lia.
Qed.

Lemma elem_of_last_n {A} n (x : A) l : x ∈ last_n n l -> x ∈ l.
Proof. unfold last_n. intros Hx. rewrite <-(take_drop (length l - N.to_nat n) l). set_solver. Qed.

Lemma scan_start_spec es offset :
  exists n, (n <= length es)%nat /\ N.of_nat n <= offset /\
    scan_start (log_of es) offset = cursor_of es n.
Proof.
  unfold scan_start, start_for. cbn [log_of log_sparse_index].
  destruct (List.find _ _) as [cp|] eqn:E.
  - apply List.find_some in E as [Hin Hle]. apply N.leb_le in Hle.
    rewrite <-in_rev, <-list_elem_of_In in Hin.
    apply elem_of_last_n, entries_checkpoints_spec in Hin as (n & Hn & Ho & Hc).
    exists n. split_and!; [lia|lia|]. by rewrite Hc.
  - exists 0%nat. split_and!; [lia|lia|done].
Qed.

Lemma entries_index_find es i e :
  vec_get es i = Some e ->
  List.find (fun record => ri_offset record =? i) (entries_index 0 0 es) =
  Some (entry_index (cursor_of es (N.to_nat i)) i e).
Proof.
  intros Hi. pose proof (vec_get_lt _ _ _ Hi) as Hlt. unfold vec_get, vec_len in *.
  rewrite (entries_index_split es (N.to_nat i)) by lia. rewrite find_skip.
  - rewrite (drop_S _ _ _ Hi). cbn [entries_index List.find].
    rewrite N2Nat.id. cbn [entry_index ri_offset]. by rewrite N.eqb_refl.
  - apply Forall_forall. intros x [_ Hx]%entries_index_offsets. apply N.eqb_neq.
    unfold vec_len in Hx. rewrite length_take in Hx. lia.
Qed.

Lemma entries_index_find_None es i :
  vec_len es <= i ->
  List.find (fun record => ri_offset record =? i) (entries_index 0 0 es) = None.
Proof.
  intros Hi. apply find_None_Forall, Forall_forall.
  intros x [_ Hx]%entries_index_offsets. apply N.eqb_neq. lia.
Qed.

(** The cached tail answers as the whole index does, or not at all. *)
Lemma last_n_find b es i r :
  List.find (fun record => ri_offset record =? i) (last_n b (entries_index 0 0 es)) = Some r ->
  List.find (fun record => ri_offset record =? i) (entries_index 0 0 es) = Some r.
Proof.
  intros [Hin Ho]%List.find_some. apply N.eqb_eq in Ho. rewrite <-list_elem_of_In in Hin.
  apply elem_of_last_n, list_elem_of_lookup in Hin as [k Hk].
  rewrite entries_index_lookup in Hk. destruct (es !! k) as [e|] eqn:E; [|done].
  injection Hk as <-. cbn [entry_index ri_offset] in Ho. rewrite N.add_0_l in Ho |- *.
  assert (He : vec_get es i = Some e) by (unfold vec_get; by subst i; rewrite Nat2N.id).
  rewrite (entries_index_find _ _ _ He). unfold cursor_of. subst i. by rewrite Nat2N.id.
Qed.

Lemma find_record_log_of es i :
  Forall entry_ok es -> vec_len es <= u64_max ->
  find_record (log_of es) i =
  match vec_get es i with
  | Some e => Ok (entry_index (cursor_of es (N.to_nat i)) i e)
  | None => Err (CorruptRecord i)
  end.
Proof.
  intros Hok Hlen. unfold find_record.
  assert (Hf : List.find (fun record => ri_offset record =? i) (entries_index 0 0 es) =
    (fun e => entry_index (cursor_of es (N.to_nat i)) i e) <$> vec_get es i).
  { destruct (vec_get es i) as [e|] eqn:E; [by apply entries_index_find|].
    apply entries_index_find_None. apply N.nlt_ge. rewrite vec_get_is_Some, E. by intros []. }
  destruct (List.find _ (log_records _)) as [r|] eqn:E.
  - apply last_n_find in E. rewrite Hf in E. by destruct (vec_get es i); simplify_eq/=.
  - destruct (scan_start_spec es i) as (n & Hn & Hni & ->).
    rewrite log_scan_spec, Hf by (try done; intros x Hx; apply N.eqb_neq; lia).
    by destruct (vec_get es i).
Qed.

Lemma read_payload_log_of es i e :
  vec_get es i = Some e ->
  read_payload (log_of es) (entry_index (cursor_of es (N.to_nat i)) i e) = Ok (e_payload e).
Proof.
  intros Hi. unfold read_payload. cbn [log_of log_file entry_index ri_payload_offset ri_payload_len].
  pose proof (vec_get_lt _ _ _ Hi) as Hlt. unfold vec_get in Hi.
  rewrite <-(take_drop (N.to_nat i) es), (drop_S _ _ _ Hi), entries_bytes_app at 1.
  cbn [entries_bytes]. unfold encode_entry, encode_record. set (h := record_header _ _ _ _ _ _ _).
  eapply (read_exact_at _ _ _ (entries_bytes 0 (take (N.to_nat i) es) ++ h ++ entry_key_bytes e
    ++ entry_id_bytes e)).
  - by rewrite <-!app_assoc.
  - rewrite !vec_len_app. unfold cursor_of. change (vec_len h) with RECORD_HEADER_LEN. lia.
  - done.
Qed.

Definition message_of (stream : string) (i : Offset) (e : Entry) : Message :=
  {| msg_stream := stream; msg_offset := i; msg_key := e_key e; msg_payload := e_payload e;
     msg_published_at_ms := e_published_at_ms e; msg_delivery_token := None;
     msg_delivery_attempt := None |}.

Definition replay_of (stream : string) (i : Offset) (e : Entry) : ReplayMessage :=
  {| rm_stream := stream; rm_offset := i; rm_key := e_key e; rm_payload := e_payload e;
     rm_published_at_ms := e_published_at_ms e |}.

Lemma read_message_log_of stream es i :
  Forall entry_ok es -> vec_len es <= u64_max ->
  read_message (log_of es) stream i =
  match vec_get es i with
  | Some e => Ok (message_of stream i e)
  | None => Err (CorruptRecord i)
  end.
Proof.
  intros Hok Hlen. unfold read_message. rewrite find_record_log_of by done.
  destruct (vec_get es i) as [e|] eqn:E; [|done]. by rewrite read_payload_log_of.
Qed.

(** A log represents one history. *)
Definition represents (log : StreamLog) (es : list Entry) : Prop :=
  log = log_of es /\ Forall entry_ok es /\ vec_len es <= u64_max.

Lemma read_replay_message_log_of stream es offset :
  Forall entry_ok es -> vec_len es <= u64_max ->
  read_replay_message (log_of es) stream offset =
    match vec_get es offset with
    | Some e => Ok (replay_of stream offset e)
    | None => Err (HistoryUnavailable stream offset 0 (vec_len es))
    end.
Proof.
  intros Hok Hlen. unfold read_replay_message. cbn [log_of log_next_offset].
  destruct (vec_get es offset) as [e|] eqn:E.
  - rewrite (proj2 (N.leb_gt _ _)) by (by eapply vec_get_lt).
    fold (log_of es). by rewrite find_record_log_of, E, read_payload_log_of by done.
  - rewrite (proj2 (N.leb_le _ _)); [done|].
    apply N.nlt_ge. rewrite vec_get_is_Some, E. by intros [].
Qed.

Lemma represents_inj log es es' : represents log es -> represents log es' -> es = es'.
Proof.
  intros (-> & Hok & Hlen) (E & Hok' & Hlen'). apply list_eq. intros k.
  pose proof (find_record_log_of es (N.of_nat k) Hok Hlen) as Hf.
  pose proof (find_record_log_of es' (N.of_nat k) Hok' Hlen') as Hf'.
  rewrite <-E, Hf in Hf'.
  pose proof (read_payload_log_of es (N.of_nat k)) as Hp.
  pose proof (read_payload_log_of es' (N.of_nat k)) as Hp'. rewrite <-E in Hp'.
  unfold vec_get in *. rewrite Nat2N.id in *.
  destruct (es !! k) as [e|], (es' !! k) as [e'|]; try done. injection Hf' as Hpo Hpl Hk Hid Hkd Hts.
  specialize (Hp e eq_refl). specialize (Hp' e' eq_refl). f_equal.
  assert (Hpay : e_payload e = e_payload e').
  { assert (Hx : forall x y, read_payload (log_of es) x = Ok (e_payload e) ->
      read_payload (log_of es) y = Ok (e_payload e') -> ri_payload_offset x = ri_payload_offset y ->
      ri_payload_len x = ri_payload_len y -> e_payload e = e_payload e').
    { intros x y. unfold read_payload. intros Hx Hy E1 E2. rewrite E1, E2 in Hx. congruence. }
    by apply (Hx _ _ Hp Hp'). }
  destruct e as [k1 p1 i1 t1], e' as [k2 p2 i2 t2]. cbn in *. subst. f_equal.
  by destruct i1, i2; simplify_eq/=.
Qed.

(** *** The tail cache's binary search *)

(** [records] holds consecutive offsets from [i] on. *)
Definition consecutive (i : Offset) (records : list RecordIndex) : Prop :=
  forall k r, records !! k = Some r -> ri_offset r = i + N.of_nat k.

Lemma tail_start_loop_spec fuel records i offset low high :
  consecutive i records -> (high <= length records)%nat -> (high - low <= fuel)%nat ->
  (low <= N.to_nat (offset - i))%nat -> (low <= high)%nat ->
  (high < length records -> N.to_nat (offset - i) <= high)%nat ->
  tail_start_loop fuel records offset low high = Nat.min (N.to_nat (offset - i)) high.
Proof.
  intros Hc. revert low high; induction fuel as [|fuel IH]; intros low high Hh Hf Hl Hlh Hup;
    cbn [tail_start_loop].
  - lia.
  - destruct (Nat.ltb low high) eqn:E; [|apply Nat.ltb_ge in E; lia]. apply Nat.ltb_lt in E.
    set (middle := (low + (high - low) / 2)%nat).
    assert (Hm : (low <= middle < high)%nat).
    { pose proof (Nat.div_lt (high - low) 2). unfold middle.
      assert (high - low > 0)%nat by lia. lia. }
    destruct (records !! middle) as [r|] eqn:Er; [|apply lookup_ge_None in Er; lia].
    apply Hc in Er. rewrite Er. destruct (_ <? _) eqn:Eo.
    + apply N.ltb_lt in Eo. apply IH; lia.
    + apply N.ltb_ge in Eo. rewrite IH; lia.
Qed.

Lemma tail_start_index_spec records i offset :
  consecutive i records ->
  tail_start_index records offset = Nat.min (N.to_nat (offset - i)) (length records).
Proof.
  intros Hc. apply tail_start_loop_spec; try done; lia.
Qed.

Lemma entries_index_consecutive cursor i es : consecutive i (entries_index cursor i es).
Proof.
  intros k r. rewrite entries_index_lookup. destruct (es !! k); [|done].
  intros [= <-]. done.
Qed.

Lemma drop_consecutive n i l : consecutive i l -> consecutive (i + N.of_nat n) (drop n l).
Proof. intros Hc k r. rewrite lookup_drop. intros Hk%Hc. lia. Qed.

(** The records from a position of a consecutive list on are those at or above
    that offset. *)
Lemma find_from_committed l i committed p :
  consecutive i l ->
  List.find p (drop (N.to_nat (committed - i)) l) =
  List.find (fun r => (committed <=? ri_offset r) && p r) l.
Proof.
  intros Hc. set (n := N.to_nat (committed - i)).
  rewrite <-(take_drop n l) at 2. rewrite find_skip.
  - rewrite find_true_and; [done|]. apply Forall_lookup. intros k r.
    rewrite lookup_drop. intros Hk%Hc. apply N.leb_le. lia.
  - apply Forall_lookup. intros k r [Hk Hlt]%lookup_take_Some. apply Hc in Hk.
    apply andb_false_intro1, N.leb_gt. lia.
Qed.

(** The candidate over the whole history: the first record at or after the
    committed offset that is neither acknowledged nor reserved. *)
Definition candidate_of (es : list Entry) (committed_offset : Offset)
  (acknowledged_offsets : gset Offset) (in_flight : option Filter) : option RecordIndex :=
  List.find (fun r => (committed_offset <=? ri_offset r)
                      && record_is_candidate acknowledged_offsets in_flight r)
    (entries_index 0 0 es).

Lemma find_candidate_log_of es committed acked in_flight :
  Forall entry_ok es -> vec_len es <= u64_max ->
  find_candidate (log_of es) committed acked in_flight =
  Ok (candidate_of es committed acked in_flight).
Proof.
  intros Hok Hlen. unfold find_candidate, candidate_of. cbn [log_of log_records].
  set (idx := entries_index 0 0 es). set (p := record_is_candidate acked in_flight).
  pose proof (entries_index_consecutive 0 0 es) as Hc. fold idx in Hc.
  unfold last_n. set (n := (length idx - N.to_nat MAX_IN_MEMORY_RECORDS)%nat).
  pose proof (drop_consecutive n 0 idx Hc) as Hcd. rewrite N.add_0_l in Hcd.
  destruct (head (drop n idx)) as [front|] eqn:Ef.
  - assert (Ho : ri_offset front = N.of_nat n).
    { rewrite (Hcd 0%nat front) by (by destruct (drop n idx)). lia. }
    rewrite Ho. destruct (N.of_nat n <=? committed) eqn:E.
    + apply N.leb_le in E. rewrite (tail_start_index_spec _ _ _ Hcd). f_equal.
      assert (Hd : forall m (l : list RecordIndex), drop (Nat.min m (length l)) l = drop m l).
      { intros m l. destruct (decide (m <= length l)%nat); [by rewrite Nat.min_l|].
        rewrite Nat.min_r by lia. by rewrite !drop_ge by lia. }
      rewrite Hd, drop_drop, <-(find_from_committed idx 0 committed p Hc). do 2 f_equal. lia.
    + apply N.leb_gt in E. destruct (scan_start_spec es committed) as (m & Hm & Hmc & ->).
      apply log_scan_spec; [done..|]. intros x Hx. apply andb_false_intro1, N.leb_gt. lia.
  - assert (Hnil : drop n idx = []) by (by destruct (drop n idx)).
    apply (f_equal length) in Hnil. rewrite length_drop in Hnil. simpl in Hnil.
    assert (Hi : idx = []).
    { apply length_zero_iff_nil. unfold n, MAX_IN_MEMORY_RECORDS in Hnil. lia. }
    by rewrite Hi.
Qed.

(** *** Appending *)

Definition entry_of (io : AppendIo) (key : option string) (payload : list byte)
  (identity : RecordIdentity) : Entry :=
  {| e_key := key; e_payload := payload; e_identity := identity;
     e_published_at_ms := io_now_ms io |}.

Lemma log_of_snoc es e :
  log_of (es ++ [e]) =
  {| log_file := entries_bytes 0 es ++ encode_entry (vec_len es) e;
     log_records := remember_record (last_n MAX_IN_MEMORY_RECORDS (entries_index 0 0 es))
       (entry_index (vec_len (entries_bytes 0 es)) (vec_len es) e);
     log_sparse_index :=
       sparse_remember (last_n MAX_SPARSE_INDEX_ENTRIES (entries_checkpoints 0 0 es))
         (vec_len es) (vec_len (entries_bytes 0 es));
     log_request_ids :=
       remember_identity (entries_ids identities_empty 0 es) (identity_request_id (e_identity e))
         (identity_kind (e_identity e)) (vec_len es);
     log_next_offset := vec_len es + 1 |}.
Proof.
  unfold log_of, remember_record, sparse_remember.
  rewrite entries_bytes_app, entries_index_app, entries_checkpoints_app, entries_ids_app, vec_len_app.
  rewrite !N.add_0_l. cbn [entries_bytes entries_index entries_checkpoints entries_ids].
  rewrite !app_nil_r, !push_bounded_last_n by done. f_equal.
  destruct (_ =? 0); cbn [negb]; [done|by rewrite app_nil_r].
Qed.

Definition size_ok (key : option string) (payload : list byte) (identity : RecordIdentity) : Prop :=
  vec_len (as_bytes (default "" key)) <= MAX_KEY_LEN /\ vec_len payload <= MAX_BODY_LEN /\
  vec_len (as_bytes (default "" (identity_request_id identity))) <= MAX_REQUEST_ID_LEN.

#[export] Instance size_ok_dec key payload identity : Decision (size_ok key payload identity).
Proof. unfold size_ok. apply _. Defined.

(** What an append within the limits does to any log when its write succeeds. *)
Lemma append_record_eq io log key payload identity (sync : bool) :
  size_ok key payload identity -> io_write io = WriteOk ->
  append_record_with_sync io log key payload identity sync =
  let e := entry_of io key payload identity in
  let i := log_next_offset log in
  let file := log_file log ++ encode_entry i e in
  match (if sync then io_sync io else None) with
  | Some kind => (Err (Io kind "sync failed"), log_set_file log file)
  | None =>
    (Ok i,
     {| log_file := file;
        log_records := remember_record (log_records log) (entry_index (vec_len (log_file log)) i e);
        log_sparse_index := sparse_remember (log_sparse_index log) i (vec_len (log_file log));
        log_request_ids := remember_identity (log_request_ids log) (identity_request_id identity)
          (identity_kind identity) i;
        log_next_offset := u64_saturating_add i 1 |})
  end.
Proof.
  intros (Hkl & Hpl & Hil) Hw. unfold append_record_with_sync, record_lengths, u32_try_from.
  unfold MAX_KEY_LEN, MAX_BODY_LEN, MAX_REQUEST_ID_LEN, u32_max in *.
  rewrite !(proj2 (N.leb_le _ _)), !(proj2 (N.ltb_ge _ _)) by lia. rewrite Hw.
  cbv zeta. unfold encode_entry, entry_index, entry_key_bytes, entry_id_bytes.
  cbn [log_set_file log_file log_records log_sparse_index log_request_ids log_next_offset
    entry_of e_key e_payload e_identity e_published_at_ms].
  destruct (if sync then _ else _); [done|].
  rewrite vec_len_app, encode_record_len. unfold record_len, RECORD_HEADER_LEN.
  do 3 f_equal; [f_equal|]; lia.
Qed.

Lemma append_record_log_of io es key payload identity (sync : bool) :
  entry_ok (entry_of io key payload identity) -> vec_len es < u64_max -> io_write io = WriteOk ->
  (if sync then io_sync io else None) = None ->
  append_record_with_sync io (log_of es) key payload identity sync =
  (Ok (vec_len es), log_of (es ++ [entry_of io key payload identity])).
Proof.
  intros [Hne Hk Hku Hi Hiu Hp Hts] Hlen Hwr Hsync.
  rewrite append_record_eq, Hsync, log_of_snoc by done.
  cbn [log_of log_file log_records log_sparse_index log_request_ids log_next_offset].
  unfold u64_saturating_add. rewrite saturating_add_small by (unfold u64_max in *; lia). done.
Qed.

(** *** Recovery *)

(** The scan walks over the represented records, whatever follows them. *)
Lemma inspect_loop_prefix fuel es1 es2 rest :
  Forall entry_ok es2 -> vec_len (es1 ++ es2) <= u64_max ->
  let file := entries_bytes 0 (es1 ++ es2) ++ rest in
  inspect_loop (length es2 + fuel) file (vec_len file) (vec_len (entries_bytes 0 es1)) (vec_len es1)
    (log_records (log_of es1)) (log_sparse_index (log_of es1)) (log_request_ids (log_of es1)) =
  inspect_loop fuel file (vec_len file) (vec_len (entries_bytes 0 (es1 ++ es2)))
    (vec_len (es1 ++ es2)) (log_records (log_of (es1 ++ es2)))
    (log_sparse_index (log_of (es1 ++ es2))) (log_request_ids (log_of (es1 ++ es2))).
Proof.
  cbv zeta. intros Hok Hlen. revert es1 Hlen.
  induction Hok as [|e es He Hok IH]; intros es1 Hlen; cbn [length Nat.add]; [by rewrite app_nil_r|].
  cbn [inspect_loop]. rewrite vec_len_app, vec_len_cons in Hlen.
  set (file := entries_bytes 0 (es1 ++ e :: es) ++ rest).
  assert (Hfile : file = entries_bytes 0 es1 ++ encode_entry (vec_len es1) e
    ++ (entries_bytes (vec_len es1 + 1) es ++ rest)).
  { unfold file. rewrite entries_bytes_app, N.add_0_l. cbn [entries_bytes].
    by rewrite <-!app_assoc. }
  rewrite Hfile at 1 2. rewrite read_entry by (done || lia).
  cbn [pr_index pr_next_cursor entry_index ri_offset]. rewrite N.eqb_refl. cbn [negb].
  unfold u64_checked_add. rewrite (proj2 (N.leb_le _ _)) by lia.
  specialize (IH (es1 ++ [e])). rewrite log_of_snoc in IH.
  cbn [log_records log_sparse_index log_request_ids] in IH.
  rewrite <-app_assoc in IH. cbn [app] in IH. fold file in IH.
  rewrite (entries_bytes_app 0 es1 [e]), !(vec_len_app _ (entries_bytes _ [e])),
    !(vec_len_app es1 [e]), N.add_0_l in IH. cbn [entries_bytes] in IH.
  rewrite app_nil_r, encode_entry_len in IH.
  apply IH. rewrite vec_len_app, vec_len_cons. lia.
Qed.

Lemma log_inspect_prefix es rest :
  Forall entry_ok es -> vec_len es <= u64_max ->
  let file := entries_bytes 0 es ++ rest in
  exists fuel, (length rest < fuel)%nat /\
    inspect_loop (S (length file)) file (vec_len file) 0 0 [] [] identities_empty =
    inspect_loop fuel file (vec_len file) (vec_len (entries_bytes 0 es)) (vec_len es)
      (log_records (log_of es)) (log_sparse_index (log_of es)) (log_request_ids (log_of es)).
Proof.
  intros Hok Hlen. cbv zeta.
  pose proof (entries_bytes_length_ge 0 es) as Hge.
  exists (S (length (entries_bytes 0 es)) - length es + length rest)%nat. split; [lia|].
  rewrite <-(inspect_loop_prefix _ [] es rest Hok Hlen). cbn [app]. f_equal.
  rewrite length_app. lia.
Qed.

Lemma log_inspect_log_of es tail :
  Forall entry_ok es -> vec_len es <= u64_max -> torn_tail tail ->
  log_inspect (entries_bytes 0 es ++ tail) =
  Ok (log_set_file (log_of es) (entries_bytes 0 es ++ tail),
      if vec_len tail =? 0 then None else Some (vec_len (entries_bytes 0 es))).
Proof.
  intros Hok Hlen Ht. unfold log_inspect. set (file := entries_bytes 0 es ++ tail).
  destruct (log_inspect_prefix es tail Hok Hlen) as ([|fuel] & Hf & Hl); [lia|].
  fold file in Hl. rewrite Hl. cbn [inspect_loop]. unfold file at 1 2. rewrite read_torn by done.
  unfold file. rewrite vec_len_app. do 2 f_equal.
  destruct (vec_len tail =? 0) eqn:E; rewrite ?N.eqb_eq, ?N.eqb_neq in E.
  - by rewrite (proj2 (N.eqb_eq _ _)) by lia.
  - by rewrite (proj2 (N.eqb_neq _ _)) by lia.
Qed.

Lemma finish_recovery_log_of es tail :
  finish_recovery (log_set_file (log_of es) (entries_bytes 0 es ++ tail))
    (if vec_len tail =? 0 then None else Some (vec_len (entries_bytes 0 es))) = log_of es.
Proof.
  destruct (vec_len tail =? 0) eqn:E; rewrite ?N.eqb_eq, ?N.eqb_neq in E.
  - assert (tail = []) as -> by (apply length_zero_iff_nil; unfold vec_len in E; lia).
    by rewrite app_nil_r.
  - unfold finish_recovery, log_set_file. cbn [log_file]. unfold vec_len.
    by rewrite Nat2N.id, take_app_length.
Qed.

(** The record a parsed frame holds. *)
Lemma writable_entry flag offset ts key request_id payload :
  writable flag offset ts key request_id payload ->
  exists e, entry_ok e /\
    encode_record flag offset ts key request_id payload = encode_entry offset e /\
    entry_len e = record_len key request_id payload /\
    forall cursor, scanned_index cursor flag offset ts key request_id payload = entry_index cursor offset e.
Proof.
  intros [Hf Hn Ho Ht Hk Hi Hp Hku Hiu].
  set (e := {| e_key := if bool_decide (key = []) then None else Some (of_bytes key);
               e_payload := payload;
               e_identity := match flag_kind flag with
                             | None => NoIdentity
                             | Some Public => PublicId (of_bytes request_id)
                             | Some DeadLetterMove => MoveId (of_bytes request_id)
                             end;
               e_published_at_ms := ts |}).
  assert (Hkb : entry_key_bytes e = key).
  { unfold entry_key_bytes. cbn [e e_key]. case_bool_decide; [by subst key|apply as_bytes_of_bytes]. }
  assert (Hcases : flag = 0 \/ flag = 1 \/ flag = 2) by lia.
  assert (Hib : entry_id_bytes e = request_id).
  { unfold entry_id_bytes. cbn [e e_identity].
    destruct Hcases as [->|[->| ->]]; cbn; [apply as_bytes_of_bytes..|by rewrite Hn]. }
  assert (Hfl : identity_flag (e_identity e) = flag) by (by destruct Hcases as [->|[->| ->]]).
  assert (He : entry_ok e).
  { split; rewrite ?Hkb, ?Hib; try done.
    - cbn [e e_key]. case_bool_decide as Hne; [done|]. intros [= Hs]. apply Hne.
      by rewrite <-(as_bytes_of_bytes key), Hs.
    - unfold rust_string. fold (entry_key_bytes e). by rewrite Hkb.
    - unfold rust_string. fold (entry_id_bytes e). by rewrite Hib. }
  exists e. split_and!; [done| | |].
  - unfold encode_entry. by rewrite Hkb, Hib, Hfl.
  - unfold entry_len. by rewrite Hkb, Hib.
  - intros cursor. rewrite <-scanned_index_entry by done. by rewrite Hkb, Hib, Hfl.
Qed.

Lemma read_next_entry pre rest p :
  read_next_record (pre ++ rest) (vec_len pre) (vec_len (pre ++ rest)) = Ok (Some p) ->
  exists i e post, entry_ok e /\ rest = encode_entry i e ++ post /\
    p = {| pr_index := entry_index (vec_len pre) i e; pr_next_cursor := vec_len pre + entry_len e |}.
Proof.
  intros (flag & offset & ts & key & rid & payload & post & Hw & -> & ->)%read_next_record_inv.
  apply writable_entry in Hw as (e & He & Henc & Hl & Hidx).
  exists offset, e, post. by rewrite Henc, Hidx, Hl.
Qed.

(** Whatever the file holds, a successful scan has decoded a prefix of it that
    some sequence of appends wrote. *)
Lemma inspect_loop_sound fuel es1 rest log cursor :
  let file := entries_bytes 0 es1 ++ rest in
  inspect_loop fuel file (vec_len file) (vec_len (entries_bytes 0 es1)) (vec_len es1)
    (log_records (log_of es1)) (log_sparse_index (log_of es1)) (log_request_ids (log_of es1)) =
  Ok (log, cursor) ->
  exists es2 tail, rest = entries_bytes (vec_len es1) es2 ++ tail /\ Forall entry_ok es2 /\
    log = log_set_file (log_of (es1 ++ es2)) file /\
    cursor = vec_len (entries_bytes 0 (es1 ++ es2)) /\
    read_next_record file cursor (vec_len file) = Ok None.
Proof.
  cbv zeta. revert es1 rest; induction fuel as [|fuel IH]; intros es1 rest; cbn [inspect_loop]; [done|].
  destruct (read_next_record _ _ _) as [[p|]|] eqn:Hread; [| |done].
  - pose proof Hread as (i & e & post & He & -> & ->)%read_next_entry.
    cbn [pr_index pr_next_cursor entry_index ri_offset ri_request_id ri_request_identity_kind].
    destruct (N.eqb_spec i (vec_len es1)) as [->|]; [|done]. cbn [negb].
    unfold u64_checked_add. destruct (_ <=? _); [|done].
    specialize (IH (es1 ++ [e]) post).
    assert (Hb : entries_bytes 0 (es1 ++ [e]) = entries_bytes 0 es1 ++ encode_entry (vec_len es1) e).
    { rewrite entries_bytes_app, N.add_0_l. cbn [entries_bytes]. by rewrite app_nil_r. }
    rewrite Hb, log_of_snoc, <-app_assoc, (vec_len_app (entries_bytes 0 es1) (encode_entry _ e)),
      encode_entry_len, (vec_len_app es1) in IH.
    intros (es2 & tail & -> & Hok & -> & -> & Hnone)%IH.
    exists (e :: es2), tail. cbn [entries_bytes]. rewrite <-app_assoc in Hnone |- *.
    rewrite <-!app_assoc. split_and!; [done|by constructor|done|done|done].
  - intros [= <- <-]. exists [], rest. rewrite app_nil_r. split_and!; [done|constructor|done..].
Qed.

(** *** Request identities *)

Definition has_identity (id : string) (kind : RequestIdentityKind) (e : Entry) : bool :=
  bool_decide (identity_request_id (e_identity e) = Some id)
  && bool_decide (identity_kind (e_identity e) = Some kind).

(** The offset of the first entry with a given identity. *)
Definition first_identity (es : list Entry) (id : string) (kind : RequestIdentityKind) :
  option Offset :=
  fst <$> List.find (fun p => has_identity id kind p.2) (enumerate es).

Lemma or_insert_lookup m k v k' :
  or_insert m k v !! k' = match m !! k' with Some o => Some o | None => if bool_decide (k = k') then Some v else None end.
Proof.
  unfold or_insert. case_bool_decide as Hk.
  - subst k'. destruct (m !! k) eqn:E; [done|]. by rewrite lookup_insert_eq.
  - destruct (m !! k) eqn:E; [by destruct (m !! k')|].
    rewrite lookup_insert_ne by done. by destruct (m !! k').
Qed.

Lemma remember_identity_get ids e i id kind :
  identity_get (remember_identity ids (identity_request_id (e_identity e))
    (identity_kind (e_identity e)) i) id kind =
  match identity_get ids id kind with
  | Some o => Some o
  | None => if has_identity id kind e then Some i else None
  end.
Proof.
  unfold has_identity. destruct (e_identity e) as [|r|r]; cbn.
  - by destruct (identity_get ids id kind).
  - destruct kind; cbn; rewrite ?or_insert_lookup; destruct (_ !! id); try done;
      repeat case_bool_decide; naive_solver.
  - destruct kind; cbn; rewrite ?or_insert_lookup; destruct (_ !! id); try done;
      repeat case_bool_decide; naive_solver.
Qed.

Lemma entries_ids_get ids i es id kind :
  identity_get (entries_ids ids i es) id kind =
  match identity_get ids id kind with
  | Some o => Some o
  | None => fst <$> List.find (fun p => has_identity id kind p.2) (enumerate_from i es)
  end.
Proof.
  revert ids i; induction es as [|e es IH]; intros ids i; cbn [entries_ids enumerate_from List.find].
  - by destruct (identity_get ids id kind).
  - rewrite IH, remember_identity_get. cbn [snd].
    destruct (identity_get ids id kind); [done|]. by destruct (has_identity id kind e).
Qed.

Lemma log_of_identity es id kind :
  identity_get (log_request_ids (log_of es)) id kind = first_identity es id kind.
Proof. cbn [log_of log_request_ids]. rewrite entries_ids_get. by destruct kind. Qed.

Lemma first_identity_Some es id kind i :
  first_identity es id kind = Some i ->
  exists e, vec_get es i = Some e /\ has_identity id kind e = true.
Proof.
  unfold first_identity. destruct (List.find _ _) as [[j e]|] eqn:E; [|done]. intros [= <-].
  apply List.find_some in E as [Hin Hp]. exists e. split; [|done].
  by apply elem_of_enumerate, list_elem_of_In.
Qed.

Lemma first_identity_None es id kind e :
  first_identity es id kind = None -> e ∈ es -> has_identity id kind e = false.
Proof.
  unfold first_identity. intros H Hin.
  destruct (List.find _ _) eqn:E; [done|]. rewrite find_None_Forall, Forall_forall in E.
  apply list_elem_of_lookup in Hin as [k Hk].
  apply (E (N.of_nat k, e)), elem_of_enumerate. unfold vec_get. by rewrite Nat2N.id.
Qed.

(** Each identity is stored at most once. *)
Definition unique_ids (es : list Entry) : Prop :=
  forall i j e e' id kind,
    es !! i = Some e -> es !! j = Some e' ->
    has_identity id kind e = true -> has_identity id kind e' = true -> i = j.

Lemma unique_ids_snoc es e :
  unique_ids es ->
  (forall id kind, has_identity id kind e = true -> first_identity es id kind = None) ->
  unique_ids (es ++ [e]).
Proof.
  intros Hu Hf i j e1 e2 id kind Hi Hj H1 H2.
  apply lookup_snoc_Some in Hi as [[Hil Hi]|[-> <-]];
    apply lookup_snoc_Some in Hj as [[Hjl Hj]|[-> <-]]; [by eapply Hu| | |done].
  - apply list_elem_of_lookup_2 in Hi.
    pose proof (first_identity_None _ _ _ _ (Hf _ _ H2) Hi). congruence.
  - apply list_elem_of_lookup_2 in Hj.
    pose proof (first_identity_None _ _ _ _ (Hf _ _ H1) Hj). congruence.
Qed.

(** What one publish does to the stream, by what is already stored. *)
Definition same_content (key : option string) (payload : list byte) (e : Entry) : bool :=
  bool_decide (as_bytes (default "" (e_key e)) = as_bytes (default "" key))
  && bool_decide (e_payload e = payload).

Lemma request_offset_for_content_log_of es id key payload :
  Forall entry_ok es -> vec_len es <= u64_max ->
  request_offset_for_content (log_of es) id key payload =
  match first_identity es id Public with
  | None => Ok None
  | Some i =>
    if is_some_and (same_content key payload) (vec_get es i) then Ok (Some i)
    else Err RequestIdContentConflict
  end.
Proof.
  intros Hok Hlen. unfold request_offset_for_content, request_offset. rewrite log_of_identity.
  destruct (first_identity es id Public) as [i|] eqn:E; [|done].
  apply first_identity_Some in E as (e & Hi & _).
  rewrite find_record_log_of, Hi by done. cbn [entry_index ri_key is_some_and].
  unfold same_content. fold (entry_index (cursor_of es (N.to_nat i)) i e).
  rewrite read_payload_log_of by done. repeat case_bool_decide; by try done.
Qed.

(** *** Publishing, abstractly *)

(** A record over a limit is refused and nothing changes, whatever the log. *)
Lemma append_record_rejects io log key payload identity sync :
  ~ size_ok key payload identity ->
  exists m, append_record_with_sync io log key payload identity sync = (Err (InvalidRecord m), log).
Proof.
  intros Hs. unfold append_record_with_sync, record_lengths, u32_try_from.
  set (kl := vec_len (as_bytes (default "" key))). set (pl := vec_len payload).
  set (il := vec_len (as_bytes (default "" (identity_request_id identity)))).
  destruct (kl <=? u32_max); [|eauto].
  destruct (N.ltb_spec MAX_KEY_LEN kl); [eauto|].
  destruct (pl <=? u32_max); [|eauto].
  destruct (N.ltb_spec MAX_BODY_LEN pl); [eauto|].
  destruct (il <=? u32_max); [|eauto].
  destruct (N.ltb_spec MAX_REQUEST_ID_LEN il); [eauto|].
  exfalso. by apply Hs.
Qed.

Definition io_ok (io : AppendIo) : Prop :=
  io_write io = WriteOk /\ io_sync io = None /\ io_now_ms io <= u64_max.

(** Strings a client can send, with a key that is absent or not empty. *)
Definition publishable (r : PublishRecord) : Prop :=
  pr_key r <> Some "" /\ rust_string (default "" (pr_key r)) /\
  rust_string (default "" (pr_request_id r)).

Definition publish_identity (r : PublishRecord) : RecordIdentity :=
  match pr_request_id r with Some request_id => PublicId request_id | None => NoIdentity end.

Definition published (es : list Entry) (r : PublishRecord) : option Offset :=
  match pr_request_id r with
  | Some request_id => first_identity es request_id Public
  | None => None
  end.

(** One record of a publish: appended when its identity is new, found again
    when it is already stored with the same content, refused otherwise. *)
Inductive publish_step (now : N) (es : list Entry) (r : PublishRecord) :
  Result Offset BrokerError -> list Entry -> Prop :=
| publish_new :
  published es r = None -> size_ok (pr_key r) (pr_payload r) (publish_identity r) ->
  publish_step now es r (Ok (vec_len es))
    (es ++ [{| e_key := pr_key r; e_payload := pr_payload r; e_identity := publish_identity r;
               e_published_at_ms := now |}])
| publish_oversized m :
  published es r = None -> ~ size_ok (pr_key r) (pr_payload r) (publish_identity r) ->
  publish_step now es r (Err (InvalidRecord m)) es
| publish_again i e :
  published es r = Some i -> vec_get es i = Some e ->
  same_content (pr_key r) (pr_payload r) e = true ->
  publish_step now es r (Ok i) es
| publish_conflict i e :
  published es r = Some i -> vec_get es i = Some e ->
  same_content (pr_key r) (pr_payload r) e = false ->
  publish_step now es r (Err RequestIdContentConflict) es.

Inductive publish_steps : list N -> list Entry -> list PublishRecord ->
  list (Result Offset BrokerError) -> list Entry -> Prop :=
| publish_done nows es : publish_steps nows es [] [] es
| publish_more now nows es r rs out outs es1 es2 :
  publish_step now es r out es1 -> publish_steps nows es1 rs outs es2 ->
  publish_steps (now :: nows) es (r :: rs) (out :: outs) es2.

Lemma published_entry es r i :
  published es r = Some i -> exists e, vec_get es i = Some e.
Proof.
  unfold published. destruct (pr_request_id r); [|done].
  intros (e & He & _)%first_identity_Some. by exists e.
Qed.

Lemma entry_of_ok io r :
  io_ok io -> publishable r -> size_ok (pr_key r) (pr_payload r) (publish_identity r) ->
  entry_ok (entry_of io (pr_key r) (pr_payload r) (publish_identity r)).
Proof.
  intros (_ & _ & Hnow) (Hne & Hk & Hi) (Hkl & Hpl & Hil). split; try done.
  cbn. unfold publish_identity. by destruct (pr_request_id r).
Qed.

Lemma publish_step_ok now es r out es' :
  publishable r -> now <= u64_max -> Forall entry_ok es -> publish_step now es r out es' ->
  Forall entry_ok es'.
Proof.
  intros Hp Hnow Hok Hstep. destruct Hstep as [? Hs| | | ]; try done.
  apply Forall_app. split; [done|]. apply Forall_singleton.
  by apply (entry_of_ok {| io_now_ms := now; io_write := WriteOk; io_sync := None |}).
Qed.

Lemma publish_step_unique now es r out es' :
  unique_ids es -> publish_step now es r out es' -> unique_ids es'.
Proof.
  intros Hu Hstep. destruct Hstep as [Hnone Hs| | | ]; try done.
  apply unique_ids_snoc; [done|]. intros id kind.
  unfold has_identity, published, publish_identity in *. cbn [e_identity].
  destruct (pr_request_id r) as [rid|]; cbn.
  - intros [Ha Hb]%andb_true_iff. apply bool_decide_eq_true_1 in Ha, Hb. by simplify_eq.
  - by case_bool_decide.
Qed.

Lemma published_content es r :
  Forall entry_ok es -> vec_len es <= u64_max ->
  match pr_request_id r with
  | Some request_id => request_offset_for_content (log_of es) request_id (pr_key r) (pr_payload r)
  | None => Ok None
  end =
  match published es r with
  | None => Ok None
  | Some i =>
    if is_some_and (same_content (pr_key r) (pr_payload r)) (vec_get es i) then Ok (Some i)
    else Err RequestIdContentConflict
  end.
Proof.
  intros Hok Hlen. unfold published. destruct (pr_request_id r); [|done].
  by rewrite request_offset_for_content_log_of.
Qed.

Lemma append_batch_loop_log_of ios es rs outs appended :
  length ios = length rs -> Forall io_ok ios -> Forall publishable rs ->
  Forall entry_ok es -> vec_len es + vec_len rs <= u64_max ->
  exists outs' appended' es',
    append_batch_loop ios (log_of es) rs outs appended = (Ok (outs ++ outs', appended'), log_of es') /\
    publish_steps (io_now_ms <$> ios) es rs outs' es'.
Proof.
  intros Hl Hios Hrs. revert es rs outs appended Hl Hrs.
  induction Hios as [|io ios Hio Hios IH]; intros es [|r rs] outs appended Hl Hrs Hok Hlen;
    try discriminate Hl.
  { exists [], appended, es. rewrite app_nil_r. split; [done|constructor]. }
  apply Forall_cons in Hrs as [Hr Hrs]. injection Hl as Hl.
  rewrite vec_len_cons in Hlen.
  assert (Hgo : forall out es1 app1, publish_step (io_now_ms io) es r out es1 ->
    vec_len es1 <= vec_len es + 1 ->
    append_batch_loop (io :: ios) (log_of es) (r :: rs) outs appended =
    append_batch_loop ios (log_of es1) rs (outs ++ [out]) app1 ->
    exists outs' appended' es',
      append_batch_loop (io :: ios) (log_of es) (r :: rs) outs appended =
        (Ok (outs ++ outs', appended'), log_of es') /\
      publish_steps (io_now_ms <$> io :: ios) es (r :: rs) outs' es').
  { intros out es1 app1 Hstep Hl1 ->.
    destruct (IH es1 rs (outs ++ [out]) app1 Hl Hrs) as (outs' & a' & es' & -> & Hs).
    - apply (publish_step_ok _ _ _ _ _ Hr (proj2 (proj2 Hio)) Hok Hstep).
    - lia.
    - exists (out :: outs'), a', es'. rewrite <-app_assoc. split; [done|]. by econstructor. }
  cbn [append_batch_loop head default from_option id tail] in Hgo |- *.
  rewrite published_content in Hgo |- * by (done || lia).
  fold (publish_identity r) in Hgo |- *.
  destruct (published es r) as [i|] eqn:Hp.
  - destruct (published_entry _ _ _ Hp) as [e He]. rewrite He in Hgo |- *.
    cbn [is_some_and] in Hgo |- *.
    destruct (same_content (pr_key r) (pr_payload r) e) eqn:Hs.
    + apply (Hgo (Ok i) es appended); [by eapply publish_again|lia|done].
    + apply (Hgo (Err RequestIdContentConflict) es appended); [by eapply publish_conflict|lia|done].
  - destruct (decide (size_ok (pr_key r) (pr_payload r) (publish_identity r))) as [Hs|Hs].
    + pose proof (append_record_log_of io es (pr_key r) (pr_payload r) (publish_identity r) false
        (entry_of_ok _ _ Hio Hr Hs) ltac:(lia) (proj1 Hio) eq_refl) as Ha.
      rewrite Ha in Hgo |- *.
      eapply Hgo; [by apply publish_new|by rewrite vec_len_app|done].
    + destruct (append_record_rejects io (log_of es) _ _ _ false Hs) as [m Hm].
      rewrite Hm in Hgo |- *. cbn [is_per_record_rejection] in Hgo |- *.
      eapply Hgo; [by apply publish_oversized|lia|done].
Qed.

Lemma append_with_move_id_log_of io es key payload move_id :
  Forall entry_ok es -> vec_len es < u64_max -> io_ok io ->
  key <> Some "" -> rust_string (default "" key) -> rust_string move_id ->
  size_ok key payload (MoveId move_id) ->
  append_with_move_id io (log_of es) key payload move_id =
  match first_identity es move_id DeadLetterMove with
  | Some i =>
    (if is_some_and (fun e => bool_decide (e_key e = key) && bool_decide (e_payload e = payload))
          (vec_get es i)
     then Ok i
     else Err (invalid_record_data "dead-letter move identity has different key or payload"),
     log_of es)
  | None => (Ok (vec_len es), log_of (es ++ [entry_of io key payload (MoveId move_id)]))
  end.
Proof.
  intros Hok Hlen (Hw & Hs & Hnow) Hne Hk Hm (Hkl & Hpl & Hil).
  unfold append_with_move_id, dead_letter_move_offset. rewrite log_of_identity.
  destruct (first_identity es move_id DeadLetterMove) as [i|] eqn:E.
  - apply first_identity_Some in E as (e & Hi & _).
    rewrite find_record_log_of, Hi by (done || lia). rewrite read_payload_log_of by done.
    cbn [entry_index ri_key is_some_and]. repeat case_bool_decide; by try done.
  - apply append_record_log_of; done.
Qed.

(** ** What the log guarantees *)

Definition example_entry : Entry :=
  {| e_key := Some "k"; e_payload := [Byte.x01; Byte.x02]; e_identity := PublicId "r1";
     e_published_at_ms := 7 |}.

Lemma example_entry_ok : entry_ok example_entry.
Proof. split; vm_compute; done. Qed.

Definition example_io : AppendIo := {| io_now_ms := 7; io_write := WriteOk; io_sync := None |}.

Definition example_record : PublishRecord :=
  {| pr_key := Some "k"; pr_payload := [Byte.x01; Byte.x02]; pr_request_id := Some "r1" |}.

(** C30: Recovery is sound for every file. Whatever bytes the stream file holds,
    when the recovery scan accepts it, the file starts with the frames of some
    sequence of records that the broker could have written, and after the
    truncation of the incomplete tail the recovered log (file, tail cache,
    sparse index, identity index and next offset) is exactly the log that
    appending those records produces. *)
Theorem recovery_sound file log incomplete_tail :
  log_inspect file = Ok (log, incomplete_tail) ->
  exists es tail, file = entries_bytes 0 es ++ tail /\ Forall entry_ok es /\
    finish_recovery log incomplete_tail = log_of es.
Proof.
  unfold log_inspect.
  destruct (inspect_loop _ _ _ _ _ _ _ _) as [[log' cursor]|] eqn:E; [|done].
  apply (inspect_loop_sound _ [] file) in E as (es & tail & -> & Hok & -> & -> & _).
  intros [= <- <-]. exists es, tail. split_and!; [done|done|].
  rewrite <-(finish_recovery_log_of es tail) at 2. change (vec_len (@nil Entry)) with 0.
  cbn [app entries_bytes]. rewrite vec_len_app. f_equal.
  destruct (N.eqb_spec (vec_len tail) 0).
  - by rewrite (proj2 (N.eqb_eq _ _)) by lia.
  - by rewrite (proj2 (N.eqb_neq _ _)) by lia.
Qed.

Lemma recovery_sound_witness :
  exists es tail, entries_bytes 0 [example_entry] ++ [Byte.x52; Byte.x4e] = entries_bytes 0 es ++ tail /\
    Forall entry_ok es /\
    finish_recovery (log_set_file (log_of [example_entry])
      (entries_bytes 0 [example_entry] ++ [Byte.x52; Byte.x4e])) (Some 53) = log_of es.
Proof. apply (recovery_sound _ _ (Some 53)). vm_compute. reflexivity. Defined.

(**  Recovery after a crash. A process that stops in the middle of an append
    leaves the complete frames and a proper prefix of the next one; inspection
    and truncation give back the log of exactly the complete records, with its
    indexes. *)
Theorem recovery_after_crash es tail :
  Forall entry_ok es -> vec_len es <= u64_max -> torn_tail tail ->
  exists log incomplete_tail,
    log_inspect (log_file (log_of es) ++ tail) = Ok (log, incomplete_tail) /\
    finish_recovery log incomplete_tail = log_of es.
Proof.
  intros Hok Hlen Ht. eexists _, _. split; [by apply log_inspect_log_of|].
  apply finish_recovery_log_of.
Qed.

Lemma recovery_after_crash_witness :
  exists log incomplete_tail,
    log_inspect (log_file (log_of [example_entry]) ++ take 20 (encode_entry 1 example_entry))
      = Ok (log, incomplete_tail) /\
    finish_recovery log incomplete_tail = log_of [example_entry].
Proof.
  apply recovery_after_crash.
  - constructor; [apply example_entry_ok|constructor].
  - vm_compute. discriminate.
  - apply torn_prefix; [apply example_entry_ok|vm_compute; discriminate|vm_compute; lia].
Defined.

(** The round bound of the scan is never reached. *)
Lemma inspect_loop_fuel fuel es1 rest m :
  (length rest < fuel)%nat ->
  let file := entries_bytes 0 es1 ++ rest in
  inspect_loop fuel file (vec_len file) (vec_len (entries_bytes 0 es1)) (vec_len es1)
    (log_records (log_of es1)) (log_sparse_index (log_of es1)) (log_request_ids (log_of es1)) <>
  Err (Io OtherIo m).
Proof.
  cbv zeta. revert es1 rest; induction fuel as [|fuel IH]; intros es1 rest Hf; [lia|].
  cbn [inspect_loop]. destruct (read_next_record _ _ _) as [[p|]|err] eqn:Hread; [|done|].
  - pose proof Hread as (i & e & post & He & -> & ->)%read_next_entry.
    cbn [pr_index pr_next_cursor entry_index ri_offset ri_request_id ri_request_identity_kind].
    destruct (N.eqb_spec i (vec_len es1)) as [->|]; [|done]. cbn [negb].
    unfold u64_checked_add. destruct (_ <=? _); [|done].
    specialize (IH (es1 ++ [e]) post).
    assert (Hb : entries_bytes 0 (es1 ++ [e]) = entries_bytes 0 es1 ++ encode_entry (vec_len es1) e).
    { rewrite entries_bytes_app, N.add_0_l. cbn [entries_bytes]. by rewrite app_nil_r. }
    rewrite Hb, log_of_snoc, <-app_assoc, (vec_len_app (entries_bytes 0 es1) (encode_entry _ e)),
      encode_entry_len, (vec_len_app es1) in IH.
    apply IH. rewrite length_app in Hf. pose proof (encode_entry_pos (vec_len es1) e). lia.
  - intros [= ->]. apply read_next_record_error in Hread as (k & m' & Hk & [?|?]); congruence.
Qed.

(**  The recovery scan terminates on every file: the bound on its rounds,
    one per byte of the file, is never what ends it. *)
Theorem inspect_terminates file : log_inspect file <> Err (Io OtherIo "scan did not terminate").
Proof.
  unfold log_inspect.
  pose proof (inspect_loop_fuel (S (length file)) [] file "scan did not terminate" ltac:(lia)) as Hf.
  cbn [entries_bytes app] in Hf. change (vec_len []) with 0 in Hf. cbv zeta in Hf.
  change (log_records (log_of [])) with (@nil RecordIndex) in Hf.
  change (log_sparse_index (log_of [])) with (@nil LogCheckpoint) in Hf.
  change (log_request_ids (log_of [])) with identities_empty in Hf.
  destruct (inspect_loop _ _ _ _ _ _ _ _) as [[]|]; congruence.
Qed.

(** C31: Candidate search agrees with a search of the whole history. The tail
    cache with its binary search, and the disk scan that starts at a sparse
    checkpoint when the cache does not reach back far enough, both return the
    first record at or after the committed offset that is not acknowledged and
    whose offset and ordering key are not reserved. *)
Theorem find_candidate_refines es committed_offset acknowledged_offsets in_flight :
  Forall entry_ok es -> vec_len es <= u64_max ->
  find_candidate (log_of es) committed_offset acknowledged_offsets in_flight =
  Ok (List.find (fun r => (committed_offset <=? ri_offset r)
                          && record_is_candidate acknowledged_offsets in_flight r)
        (entries_index 0 0 es)).
Proof. apply find_candidate_log_of. Qed.

Lemma find_candidate_refines_witness :
  find_candidate (log_of [example_entry; example_entry]) 0 {[ 0 ]} None =
  Ok (Some (entry_index 53 1 example_entry)).
Proof.
  rewrite find_candidate_refines; [vm_compute; reflexivity| |vm_compute; discriminate].
  repeat constructor; apply example_entry_ok.
Defined.

(**  Reading an offset returns the record that was appended there, whether
    it is still cached or must be found on disk, and the error of the API for
    offsets outside the history. *)
Theorem read_refines stream es offset :
  Forall entry_ok es -> vec_len es <= u64_max ->
  read_message (log_of es) stream offset =
    match vec_get es offset with
    | Some e => Ok (message_of stream offset e)
    | None => Err (CorruptRecord offset)
    end /\
  read_replay_message (log_of es) stream offset =
    match vec_get es offset with
    | Some e => Ok (replay_of stream offset e)
    | None => Err (HistoryUnavailable stream offset 0 (vec_len es))
    end.
Proof.
  intros Hok Hlen. split; [by apply read_message_log_of|by apply read_replay_message_log_of].
Qed.

Lemma read_refines_witness :
  read_message (log_of [example_entry]) "s" 0 = Ok (message_of "s" 0 example_entry) /\
  read_replay_message (log_of [example_entry]) "s" 0 = Ok (replay_of "s" 0 example_entry).
Proof.
  apply (read_refines "s" [example_entry] 0).
  - constructor; [apply example_entry_ok|constructor].
  - vm_compute. discriminate.
Defined.

(**  One append. A record within the limits goes to the next offset and the
    log becomes the log of the longer history; a record over a limit is refused
    and the log is unchanged. *)
Theorem append_refines io es key payload identity (sync : bool) :
  vec_len es < u64_max -> io_ok io -> key <> Some "" -> rust_string (default "" key) ->
  rust_string (default "" (identity_request_id identity)) ->
  (size_ok key payload identity ->
   append_record_with_sync io (log_of es) key payload identity sync =
   (Ok (vec_len es), log_of (es ++ [entry_of io key payload identity]))) /\
  (~ size_ok key payload identity ->
   exists m, append_record_with_sync io (log_of es) key payload identity sync =
     (Err (InvalidRecord m), log_of es)).
Proof.
  intros Hlen (Hw & Hs & Hnow) Hne Hk Hi. split.
  - intros (Hkl & Hpl & Hil). apply append_record_log_of; try done.
    destruct sync; [done|reflexivity].
  - apply append_record_rejects.
Qed.

Lemma append_refines_witness :
  append_record_with_sync example_io (log_of [example_entry]) None [] NoIdentity true =
  (Ok 1, log_of [example_entry; entry_of example_io None [] NoIdentity]).
Proof.
  apply (append_refines example_io [example_entry] None [] NoIdentity true); done.
Defined.

Lemma publish_steps_unique nows es rs outs es' :
  publish_steps nows es rs outs es' -> unique_ids es -> unique_ids es'.
Proof. induction 1; [done|]. eauto using publish_step_unique. Qed.

(**  A batch publish is the sequence of its single publishes: each record in
    order is appended when its request identity is new, answered with the
    stored offset when the identity is stored with the same key and payload,
    and refused otherwise, without affecting the rest of the batch; and a
    request identity is never stored twice. *)
Theorem append_batch_refines ios es rs :
  length ios = length rs -> Forall io_ok ios -> Forall publishable rs ->
  Forall entry_ok es -> vec_len es + vec_len rs <= u64_max -> unique_ids es ->
  exists outs es',
    append_batch ios None (log_of es) rs = (Ok outs, log_of es') /\
    publish_steps (io_now_ms <$> ios) es rs outs es' /\ unique_ids es'.
Proof.
  intros Hl Hio Hr Hok Hlen Hu. unfold append_batch.
  destruct (append_batch_loop_log_of ios es rs [] false) as (outs & a & es' & -> & Hs); try done.
  exists outs, es'. split_and!; [by destruct a|done|]. by eapply publish_steps_unique.
Qed.

Lemma append_batch_refines_witness :
  exists outs es',
    append_batch [example_io; example_io] None (log_of []) [example_record; example_record] =
      (Ok outs, log_of es') /\
    publish_steps (io_now_ms <$> [example_io; example_io]) [] [example_record; example_record] outs es' /\
    unique_ids es'.
Proof.
  apply append_batch_refines.
  - done.
  - repeat constructor; vm_compute; discriminate.
  - repeat constructor; vm_compute; done.
  - constructor.
  - vm_compute. discriminate.
  - intros i j e e' id kind Hi. by rewrite lookup_nil in Hi.
Defined.

Lemma first_identity_snoc es e id kind :
  first_identity es id kind = None -> has_identity id kind e = true ->
  first_identity (es ++ [e]) id kind = Some (vec_len es).
Proof.
  unfold first_identity, enumerate. intros Hn He. rewrite enumerate_from_app, find_app.
  destruct (List.find _ (enumerate_from 0 es)); [done|]. cbn. by rewrite He.
Qed.

Lemma has_identity_move io key payload move_id :
  has_identity move_id DeadLetterMove (entry_of io key payload (MoveId move_id)) = true.
Proof. unfold has_identity. cbn. by rewrite !bool_decide_eq_true_2. Qed.

(**  Moving a record to the dead-letter stream is idempotent. When a move
    with some identity has succeeded, repeating it with the same record returns
    the same offset and changes nothing, so a retry after a lost reply or a
    restart does not duplicate the record. *)
Theorem append_with_move_id_idempotent io io' es key payload move_id offset log :
  Forall entry_ok es -> vec_len es + 1 < u64_max -> io_ok io -> io_ok io' ->
  key <> Some "" -> rust_string (default "" key) -> rust_string move_id ->
  size_ok key payload (MoveId move_id) ->
  append_with_move_id io (log_of es) key payload move_id = (Ok offset, log) ->
  append_with_move_id io' log key payload move_id = (Ok offset, log).
Proof.
  intros Hok Hlen Hio Hio' Hne Hk Hm Hs.
  assert (Hlen' : vec_len es < u64_max) by lia.
  rewrite append_with_move_id_log_of by done.
  destruct (first_identity es move_id DeadLetterMove) as [i|] eqn:E; intros Heq.
  - destruct (is_some_and _ _) eqn:Hc; simplify_eq.
    rewrite append_with_move_id_log_of by done. by rewrite E, Hc.
  - injection Heq as <- <-. set (e := entry_of io key payload (MoveId move_id)).
    rewrite append_with_move_id_log_of; try done.
    + rewrite (first_identity_snoc _ _ _ _ E) by apply has_identity_move.
      rewrite vec_get_snoc. cbn. by rewrite !bool_decide_eq_true_2.
    + apply Forall_app. split; [done|]. apply Forall_singleton.
      destruct Hio as (_ & _ & Hnow), Hs as (? & ? & ?). by split.
    + rewrite vec_len_app. change (vec_len [e]) with 1. lia.
Qed.

Lemma append_with_move_id_idempotent_witness :
  append_with_move_id example_io (log_of [entry_of example_io None [] (MoveId "m")]) None [] "m" =
  (Ok 0, log_of [entry_of example_io None [] (MoveId "m")]).
Proof.
  apply (append_with_move_id_idempotent example_io example_io []); done.
Defined.

(** C39: A failed sync is not undone. When the sync of an append fails, the append
    reports the error but the written frame stays in the file, and its offset is
    given out again: the next append of the same process, whatever it writes,
    succeeds with that offset, and from then on recovery refuses the file, because
    two frames carry the same offset. *)
Theorem failed_sync_then_append_unrecoverable io io' kind es key payload key' payload' :
  Forall entry_ok es -> vec_len es + 1 < u64_max ->
  io_write io = WriteOk -> io_sync io = Some kind -> io_now_ms io <= u64_max -> io_ok io' ->
  key <> Some "" -> rust_string (default "" key) -> size_ok key payload NoIdentity ->
  key' <> Some "" -> rust_string (default "" key') -> size_ok key' payload' NoIdentity ->
  exists log log',
    log_append io (log_of es) key payload = (Err (Io kind "sync failed"), log) /\
    log_append io' log key' payload' = (Ok (vec_len es), log') /\
    log_inspect (log_file log') = Err (invalid_record_data "record offsets are not contiguous").
Proof.
  intros Hok Hlen Hw Hs Hnow (Hw' & Hs' & Hnow') Hne Hk (Hkl & Hpl & Hil) Hne' Hk' (Hkl' & Hpl' & Hil').
  set (e := entry_of io key payload NoIdentity). set (e' := entry_of io' key' payload' NoIdentity).
  assert (He : entry_ok e) by (by split). assert (He' : entry_ok e') by (by split).
  eexists _, _. split_and!.
  { unfold log_append. rewrite append_record_eq by done. rewrite Hs. reflexivity. }
  { unfold log_append. rewrite append_record_eq by done. rewrite Hs'. reflexivity. }
  cbn [log_of log_set_file log_file log_next_offset].
  assert (Hfile : (entries_bytes 0 es ++ encode_entry (vec_len es) e) ++ encode_entry (vec_len es) e' =
    entries_bytes 0 (es ++ [e]) ++ encode_entry (vec_len es) e' ++ []).
  { rewrite entries_bytes_app, N.add_0_l, app_nil_r. cbn [entries_bytes].
    by rewrite app_nil_r. }
  assert (Hl1 : vec_len (es ++ [e]) = vec_len es + 1) by (by rewrite vec_len_app).
  unfold log_inspect. fold e e'. rewrite Hfile.
  destruct (log_inspect_prefix (es ++ [e]) (encode_entry (vec_len es) e' ++ []))
    as ([|fuel] & Hf & ->); [|lia|lia|].
  { apply Forall_app. split; [done|]. by apply Forall_singleton. }
  cbn [inspect_loop]. rewrite read_entry by (done || lia).
  cbn [pr_index entry_index ri_offset]. rewrite (proj2 (N.eqb_neq _ _)) by lia. done.
Qed.

Lemma failed_sync_then_append_unrecoverable_witness :
  exists log log',
    log_append {| io_now_ms := 1; io_write := WriteOk; io_sync := Some OtherIo |} (log_of []) None []
      = (Err (Io OtherIo "sync failed"), log) /\
    log_append example_io log None [] = (Ok 0, log') /\
    log_inspect (log_file log') = Err (invalid_record_data "record offsets are not contiguous").
Proof.
  apply (failed_sync_then_append_unrecoverable
    {| io_now_ms := 1; io_write := WriteOk; io_sync := Some OtherIo |} example_io OtherIo []
    None [] None []); done.
Defined.

(** C32: A damaged payload byte is detected. When any single byte of any stored
    payload is changed on disk, recovery refuses the file with a checksum
    error, whatever follows that record. *)
Theorem corrupted_payload_detected es1 e l1 b c l2 rest :
  Forall entry_ok es1 -> entry_ok e -> vec_len es1 < u64_max ->
  e_payload e = l1 ++ b :: l2 -> b <> c ->
  let header_key_id := take (length (encode_entry (vec_len es1) e) - length (e_payload e))
    (encode_entry (vec_len es1) e) in
  log_inspect (entries_bytes 0 es1 ++ header_key_id ++ (l1 ++ c :: l2) ++ rest) =
  Err (invalid_record_data "RNL3 record checksum mismatch").
Proof.
  intros Hok He Hlen Hp Hbc. cbv zeta. unfold log_inspect.
  destruct (log_inspect_prefix es1 (take (length (encode_entry (vec_len es1) e)
    - length (e_payload e)) (encode_entry (vec_len es1) e) ++ (l1 ++ c :: l2) ++ rest))
    as ([|fuel] & Hf & ->); [done|lia|lia|].
  cbn [inspect_loop].
  pose proof (read_next_record_bad_payload _ _ _ _ _ _ (entry_writable (vec_len es1) e He
    ltac:(lia)) (entries_bytes 0 es1) l1 b c l2 rest Hp Hbc) as Hbad. cbv zeta in Hbad.
  assert (Htake : forall h k r p : list byte,
    take (length (h ++ k ++ r ++ p) - length p) (h ++ k ++ r ++ p) = h ++ k ++ r).
  { intros h k r p. rewrite !(app_assoc h), !(app_assoc _ r), !length_app.
    apply take_app_length'. rewrite !length_app. lia. }
  assert (Hfile : forall x, take (length (encode_entry (vec_len es1) e) - length (e_payload e))
      (encode_entry (vec_len es1) e) ++ x = record_header (identity_flag (e_identity e))
      (vec_len (e_payload e)) (vec_len es1) (e_published_at_ms e) (vec_len (entry_key_bytes e))
      (vec_len (entry_id_bytes e)) (record_checksum (record_header (identity_flag (e_identity e))
        (vec_len (e_payload e)) (vec_len es1) (e_published_at_ms e) (vec_len (entry_key_bytes e))
        (vec_len (entry_id_bytes e)) 0) (entry_key_bytes e) (entry_id_bytes e) (e_payload e))
      ++ entry_key_bytes e ++ entry_id_bytes e ++ x).
  { intros x. unfold encode_entry, encode_record. rewrite Htake. by rewrite <-!app_assoc. }
  rewrite Hfile. by rewrite Hbad.
Qed.

Lemma corrupted_payload_detected_witness :
  log_inspect (entries_bytes 0 []
    ++ take (length (encode_entry 0 example_entry) - length (e_payload example_entry))
         (encode_entry 0 example_entry)
    ++ ([Byte.x01] ++ [Byte.x03]) ++ []) =
  Err (invalid_record_data "RNL3 record checksum mismatch").
Proof.
  apply (corrupted_payload_detected [] example_entry [Byte.x01] Byte.x02 Byte.x03 [] []);
    [constructor|apply example_entry_ok|done..].
Defined.

(**  An empty key is not preserved. A record published with the key [Some ""]
    is served with that key while it is cached, and without a key by the log
    that recovery builds from the same file. *)
Theorem empty_key_lost_by_recovery io payload stream :
  io_ok io -> vec_len payload <= MAX_BODY_LEN ->
  exists log recovered,
    log_append io log_create (Some "") payload = (Ok 0, log) /\
    log_inspect (log_file log) = Ok (recovered, None) /\
    (msg_key <$> match read_message log stream 0 with Ok m => Some m | Err _ => None end)
      = Some (Some "") /\
    (msg_key <$> match read_message (finish_recovery recovered None) stream 0 with
                 | Ok m => Some m | Err _ => None end) = Some None.
Proof.
  intros (Hw & Hs & Hnow) Hp.
  set (e := entry_of io None payload NoIdentity).
  assert (He : entry_ok e) by (by split).
  assert (Hkey : size_ok (Some "") payload NoIdentity) by (by split).
  set (e' := entry_of io (Some "") payload NoIdentity).
  assert (Hfile : encode_entry 0 e' = entries_bytes 0 [e]).
  { cbn [entries_bytes]. rewrite app_nil_r. unfold encode_entry, entry_key_bytes, entry_id_bytes.
    reflexivity. }
  unfold log_append. rewrite append_record_eq, Hs by done. cbv zeta. fold e'.
  cbn [log_create log_file log_records log_next_offset app]. rewrite Hfile.
  eexists _, (log_of [e]). split; [reflexivity|]. cbn [log_file log_records]. split_and!.
  - pose proof (log_inspect_log_of [e] []) as Hi. rewrite app_nil_r in Hi.
    apply Hi; [by constructor|done|apply torn_tail_nil].
  - unfold read_message, find_record. cbn [log_records].
    change (remember_record [] (entry_index (vec_len []) 0 e')) with [entry_index 0 0 e'].
    cbn [List.find entry_index ri_offset]. rewrite N.eqb_refl.
    pose proof (read_payload_log_of [e] 0 e eq_refl) as Hr. unfold read_payload in Hr |- *.
    cbn [log_of log_file ri_payload_offset ri_payload_len entry_index] in Hr |- *.
    change (cursor_of [e] (N.to_nat 0)) with 0 in Hr.
    change (entry_key_bytes e') with (entry_key_bytes e).
    change (entry_id_bytes e') with (entry_id_bytes e).
    change (e_payload e') with (e_payload e). by rewrite Hr.
  - cbn [finish_recovery]. rewrite read_message_log_of; [done|by constructor|done].
Qed.

Lemma empty_key_lost_by_recovery_witness :
  exists log recovered,
    log_append example_io log_create (Some "") [Byte.x01] = (Ok 0, log) /\
    log_inspect (log_file log) = Ok (recovered, None) /\
    (msg_key <$> match read_message log "s" 0 with Ok m => Some m | Err _ => None end)
      = Some (Some "") /\
    (msg_key <$> match read_message (finish_recovery recovered None) "s" 0 with
                 | Ok m => Some m | Err _ => None end) = Some None.
Proof. apply empty_key_lost_by_recovery; vm_compute; repeat split; discriminate. Defined.
