(* ===== verification/ConsumerState.v ===== *)
(** Durable consumer progress: crates/runnel-core/src/consumer_state.rs.

    [ConsumerState] is the committed state of one consumer group, [apply_event]
    its transition on one journal event, and [Files] the two files that store
    it: a checkpoint and an append-only journal of newline-terminated JSON
    events. JSON itself (serde_json) is a parameter, the class [ConsumerCodec].

    Offsets are below the length of a stream, so [committed_offset += 1] does
    not reach the end of [u64] and is plain addition here. *)

From S2P Require Import Prelude Engine StreamLog.

Local Open Scope N_scope.

Definition MAX_CONSUMER_STATE_JOURNAL_BYTES : N := 1024 * 1024.

Record RetrySchedule := {
  retry_not_before_ms : N;
  rs_key : option string;
}.

Record ConsumerState := {
  cs_stream : string;
  cs_consumer : string;
  committed_offset : Offset;
  acknowledged_offsets : gset Offset;
  delivery_attempts : gmap Offset N;
  cs_policy : option ConsumerPolicy;
  delivery_policies : gmap Offset ConsumerPolicy;
  retry_not_before : gmap Offset RetrySchedule;
}.

Record DeliveryAttempt := {
  da_offset : Offset;
  da_attempt : N;
  da_policy : ConsumerPolicy;
}.

Record RetryScheduleEvent := {
  rse_offset : Offset;
  rse_retry_not_before_ms : N;
  rse_key : option string;
}.

Inductive ConsumerStateEvent :=
| EvDeliveryAttempt (attempt : DeliveryAttempt)
| EvDeliveryAttempts (attempts : list DeliveryAttempt)
| EvRetrySchedules (schedules : list RetryScheduleEvent)
| EvAcknowledge (offset : Offset)
| EvAcknowledgeBatch (offsets : list Offset)
| EvPolicyConfigured (policy : ConsumerPolicy).

(** The state a missing checkpoint stands for. *)
Definition consumer_initial (stream consumer : string) : ConsumerState :=
  {| cs_stream := stream; cs_consumer := consumer; committed_offset := 0;
     acknowledged_offsets := ∅; delivery_attempts := ∅; cs_policy := None;
     delivery_policies := ∅; retry_not_before := ∅ |}.

(** ** Operations on the state *)

Definition retry_filter (s : ConsumerState) (now_ms : N) : Filter :=
  foldl (fun '(offsets, keys) '(offset, schedule) =>
    if retry_not_before_ms schedule <=? now_ms then (offsets, keys)
    else ({[offset]} ∪ offsets,
          match rs_key schedule with Some key => {[key]} ∪ keys | None => keys end))
    (∅, ∅) (btree_items (retry_not_before s)).

(** The [while] loop of [acknowledge]; each round removes an element of
    [acknowledged], so its size bounds the rounds. *)
Fixpoint advance_committed (fuel : nat) (committed : Offset) (acknowledged : gset Offset)
  (attempts : gmap Offset N) (policies : gmap Offset ConsumerPolicy) :
  Offset * gset Offset * gmap Offset N * gmap Offset ConsumerPolicy :=
  match fuel with
  | O => (committed, acknowledged, attempts, policies)
  | S fuel =>
    if decide (committed ∈ acknowledged) then
      advance_committed fuel (committed + 1) (acknowledged ∖ {[committed]})
        (delete committed attempts) (delete committed policies)
    else (committed, acknowledged, attempts, policies)
  end.

Definition acknowledge (s : ConsumerState) (offset : Offset) : ConsumerState :=
  if (offset <? committed_offset s) || bool_decide (offset ∈ acknowledged_offsets s) then s
  else
    let attempts := delete offset (delivery_attempts s) in
    let policies := delete offset (delivery_policies s) in
    let retries := delete offset (retry_not_before s) in
    let '(committed, acknowledged, attempts, policies) :=
      if offset =? committed_offset s then
        advance_committed (size (acknowledged_offsets s)) (committed_offset s + 1)
          (acknowledged_offsets s) attempts policies
      else (committed_offset s, {[offset]} ∪ acknowledged_offsets s, attempts, policies) in
    {| cs_stream := cs_stream s; cs_consumer := cs_consumer s; committed_offset := committed;
       acknowledged_offsets := acknowledged; delivery_attempts := attempts;
       cs_policy := cs_policy s; delivery_policies := policies; retry_not_before := retries |}.

Definition is_done (s : ConsumerState) (offset : Offset) : bool :=
  (offset <? committed_offset s) || bool_decide (offset ∈ acknowledged_offsets s).

(** One element of a [DeliveryAttempt(s)] event. *)
Definition apply_delivery_attempt (s : ConsumerState) (d : DeliveryAttempt) : ConsumerState :=
  let offset := da_offset d in
  if negb (offset <? committed_offset s) && negb (bool_decide (offset ∈ acknowledged_offsets s)) then
    {| cs_stream := cs_stream s; cs_consumer := cs_consumer s;
       committed_offset := committed_offset s; acknowledged_offsets := acknowledged_offsets s;
       delivery_attempts :=
         <[offset := match delivery_attempts s !! offset with
                     | Some current => N.max current (da_attempt d)
                     | None => da_attempt d
                     end]> (delivery_attempts s);
       cs_policy := cs_policy s;
       delivery_policies :=
         match delivery_policies s !! offset with
         | Some _ => delivery_policies s
         | None => <[offset := da_policy d]> (delivery_policies s)
         end;
       retry_not_before := delete offset (retry_not_before s) |}
  else s.

(** One element of a [RetrySchedules] event. *)
Definition apply_retry_schedule (s : ConsumerState) (r : RetryScheduleEvent) : ConsumerState :=
  let offset := rse_offset r in
  if (offset <? committed_offset s) || bool_decide (offset ∈ acknowledged_offsets s)
     || negb (bool_decide (is_Some (delivery_attempts s !! offset))) then s
  else
    {| cs_stream := cs_stream s; cs_consumer := cs_consumer s;
       committed_offset := committed_offset s; acknowledged_offsets := acknowledged_offsets s;
       delivery_attempts := delivery_attempts s; cs_policy := cs_policy s;
       delivery_policies := delivery_policies s;
       retry_not_before :=
         match retry_not_before s !! offset with
         | Some _ => retry_not_before s
         | None =>
           <[offset := {| retry_not_before_ms := rse_retry_not_before_ms r; rs_key := rse_key r |}]>
             (retry_not_before s)
         end |}.

Definition validate_policy (policy : ConsumerPolicy) : Result unit BrokerError :=
  if (policy_version policy =? 0) || negb (configured policy) then
    Err (Io InvalidData "persisted consumer policy must be configured with a positive version")
  else
    validate_consumer_policy (ack_timeout_ms policy) (max_delivery_attempts policy)
      (retry_delay_ms policy).

Definition set_policy (s : ConsumerState) (policy : option ConsumerPolicy) : ConsumerState :=
  {| cs_stream := cs_stream s; cs_consumer := cs_consumer s;
     committed_offset := committed_offset s; acknowledged_offsets := acknowledged_offsets s;
     delivery_attempts := delivery_attempts s; cs_policy := policy;
     delivery_policies := delivery_policies s; retry_not_before := retry_not_before s |}.

Definition apply_event (s : ConsumerState) (event : ConsumerStateEvent) :
  Result ConsumerState BrokerError :=
  match event with
  | EvDeliveryAttempt attempt =>
    if da_attempt attempt =? 0 then
      Err (Io InvalidData "consumer delivery attempt must be greater than zero")
    else Ok (apply_delivery_attempt s attempt)
  | EvDeliveryAttempts attempts =>
    if existsb (fun attempt => da_attempt attempt =? 0) attempts then
      Err (Io InvalidData "consumer delivery attempt must be greater than zero")
    else Ok (foldl apply_delivery_attempt s attempts)
  | EvRetrySchedules schedules => Ok (foldl apply_retry_schedule s schedules)
  | EvAcknowledge offset => Ok (acknowledge s offset)
  | EvAcknowledgeBatch offsets => Ok (foldl acknowledge s offsets)
  | EvPolicyConfigured policy =>
    let? _ := validate_policy policy in Ok (set_policy s (Some policy))
  end.

Definition policy_for_offset (s : ConsumerState) (offset : Offset) (legacy_policy : ConsumerPolicy) :
  Result ConsumerPolicy BrokerError :=
  match delivery_policies s !! offset with
  | Some policy => Ok policy
  | None =>
    if bool_decide (is_Some (delivery_attempts s !! offset)) then
      Err (Io InvalidData "persisted delivery attempt is missing its pinned consumer policy")
    else Ok (default legacy_policy (cs_policy s))
  end.

Definition consumer_validate (s : ConsumerState) : Result unit BrokerError :=
  if existsb (fun '(offset, attempt) =>
        (attempt =? 0) || negb (bool_decide (is_Some (delivery_policies s !! offset))))
       (btree_items (delivery_attempts s))
     || existsb (fun offset => negb (bool_decide (is_Some (delivery_attempts s !! offset))))
       (btree_keys (delivery_policies s))
     || existsb (fun offset => negb (bool_decide (is_Some (delivery_attempts s !! offset))))
       (btree_keys (retry_not_before s))
  then Err (Io InvalidData "persisted consumer retry state is inconsistent")
  else Ok tt.

(** ** The files *)

(** JSON encoding and decoding (serde_json). *)
Class ConsumerCodec := {
  encode_event : ConsumerStateEvent -> list byte;
  decode_event : list byte -> option ConsumerStateEvent;
  is_json_value : list byte -> bool;
  encode_state : ConsumerState -> list byte;
  decode_state : list byte -> option ConsumerState;
}.

Definition newline : byte := Byte.x0a.

(** What the code relies on: values decode to what was encoded, compact JSON
    contains no line break, and an object cut short is not a JSON value. *)
Class ConsumerCodecLaws (C : ConsumerCodec) : Prop := {
  decode_encode_event e : decode_event (encode_event e) = Some e;
  encode_event_one_line e : newline ∉ encode_event e;
  encode_event_prefix e n :
    (n < length (encode_event e))%nat -> is_json_value (take n (encode_event e)) = false;
  decode_encode_state s : decode_state (encode_state s ++ [newline]) = Some s;
}.

Record Files := {
  checkpoint : option (list byte);
  journal : option (list byte);
}.

Definition set_journal (f : Files) (bytes : list byte) : Files :=
  {| checkpoint := checkpoint f; journal := Some bytes |}.

(** [bytes.split_inclusive(|byte| *byte == b'\n')] *)
Fixpoint split_inclusive (bytes : list byte) : list (list byte) :=
  match bytes with
  | [] => []
  | b :: bytes =>
    if bool_decide (b = newline) then [b] :: split_inclusive bytes
    else
      match split_inclusive bytes with
      | [] => [[b]]
      | line :: lines => (b :: line) :: lines
      end
  end.

Definition ends_with_newline (line : list byte) : bool := bool_decide (last line = Some newline).

Section files.
Context `{ConsumerCodec}.

(** The loop over the journal's lines; returns the state and [valid_length]. *)
Fixpoint replay_lines (s : ConsumerState) (valid_length : N) (lines : list (list byte)) :
  Result (ConsumerState * N) BrokerError :=
  match lines with
  | [] => Ok (s, valid_length)
  | line :: lines =>
    if negb (ends_with_newline line) then
      if is_json_value line && negb (bool_decide (is_Some (decode_event line))) then
        Err (Io InvalidData "consumer state journal contains a complete unsupported record")
      else Ok (s, valid_length)
    else
      let line := take (length line - 1) line in
      match decode_event line with
      | None => Err (State "invalid consumer state event")
      | Some event =>
        let? s := apply_event s event in
        replay_lines s (valid_length + vec_len line + 1) lines
      end
  end.

Definition replay_consumer_state_journal (f : Files) (s : ConsumerState) :
  Result ConsumerState BrokerError * Files :=
  match journal f with
  | None => (Ok s, f)
  | Some bytes =>
    if MAX_CONSUMER_STATE_JOURNAL_BYTES <? vec_len bytes then
      (Err (Io InvalidData "consumer state journal exceeds its configured bound"), f)
    else
      match replay_lines s 0 (split_inclusive bytes) with
      | Err e => (Err e, f)
      | Ok (s, valid_length) =>
        (Ok s, if valid_length =? vec_len bytes then f
               else set_journal f (take (N.to_nat valid_length) bytes))
      end
  end.

Definition load_checkpoint (f : Files) (stream consumer : string) : Result ConsumerState BrokerError :=
  match checkpoint f with
  | Some bytes =>
    match decode_state bytes with
    | Some s => Ok s
    | None => Err (State "invalid consumer state checkpoint")
    end
  | None => Ok (consumer_initial stream consumer)
  end.

Definition load_consumer_state (f : Files) (stream consumer : string) :
  Result ConsumerState BrokerError * Files :=
  match load_checkpoint f stream consumer with
  | Err e => (Err e, f)
  | Ok s =>
    match replay_consumer_state_journal f s with
    | (Err e, f) => (Err e, f)
    | (Ok s, f) =>
      match consumer_validate s with
      | Ok _ => (Ok s, f)
      | Err e => (Err e, f)
      end
    end
  end.

(** The I/O step of a persist that fails, if any. *)
Inductive PersistFault :=
| NoFault
| FaultMetadata (kind : IoErrorKind)
| FaultCheckpoint (kind : IoErrorKind)
| FaultTruncate (truncated : bool) (kind : IoErrorKind)
| FaultOpen (kind : IoErrorKind)
| FaultAppend (written : nat) (kind : IoErrorKind)
| FaultSync (kind : IoErrorKind).

Definition is_batch_event (event : ConsumerStateEvent) : bool :=
  match event with
  | EvDeliveryAttempts _ | EvRetrySchedules _ | EvAcknowledgeBatch _ => true
  | _ => false
  end.

(** [map_io_failure] and [map_broker_failure] *)
Definition map_failure (stage : ConsumerStatePersistStage) (kind : IoErrorKind) (batch_event : bool) :
  BrokerError :=
  if batch_event then ConsumerStatePersistence stage "i/o error" else Io kind "i/o error".

Definition rename_state (s : ConsumerState) (stream consumer : string) : ConsumerState :=
  {| cs_stream := stream; cs_consumer := consumer; committed_offset := committed_offset s;
     acknowledged_offsets := acknowledged_offsets s; delivery_attempts := delivery_attempts s;
     cs_policy := cs_policy s; delivery_policies := delivery_policies s;
     retry_not_before := retry_not_before s |}.

(** The checkpoint is written to a temporary file and renamed, so it is
    replaced as a whole or not at all. *)
Definition persist_consumer_state (f : Files) (s : ConsumerState) : Files :=
  {| checkpoint := Some (encode_state s ++ [newline]); journal := journal f |}.

(** The compaction step: publish a checkpoint, then truncate the journal. *)
Definition compact_consumer_state (fault : PersistFault) (f : Files) (stream consumer : string)
  (current_state : ConsumerState) (batch_event : bool) : Result unit BrokerError * Files :=
  match fault with
  | FaultCheckpoint kind => (Err (map_failure BeforeAppend kind batch_event), f)
  | _ =>
    let f := persist_consumer_state f (rename_state current_state stream consumer) in
    match journal f, fault with
    | None, _ => (Err (map_failure BeforeAppend NotFound batch_event), f)
    | Some _, FaultTruncate true kind =>
      (Err (map_failure BeforeAppend kind batch_event), set_journal f [])
    | Some _, FaultTruncate false kind => (Err (map_failure BeforeAppend kind batch_event), f)
    | Some _, _ => (Ok tt, set_journal f [])
    end
  end.

Definition persist_consumer_event (fault : PersistFault) (f : Files) (stream consumer : string)
  (current_state : ConsumerState) (event : ConsumerStateEvent) : Result unit BrokerError * Files :=
  let batch_event := is_batch_event event in
  let encoded := encode_event event ++ [newline] in
  match fault with
  | FaultMetadata kind => (Err (map_failure BeforeAppend kind batch_event), f)
  | _ =>
    let journal_len := vec_len (default [] (journal f)) in
    match
      (if MAX_CONSUMER_STATE_JOURNAL_BYTES <? u64_saturating_add journal_len (vec_len encoded) then
         compact_consumer_state fault f stream consumer current_state batch_event
       else (Ok tt, f))
    with
    | (Err e, f) => (Err e, f)
    | (Ok _, f) =>
      match fault with
      | FaultOpen kind => (Err (map_failure BeforeAppend kind batch_event), f)
      | _ =>
        let bytes := default [] (journal f) in
        match fault with
        | FaultAppend written kind =>
          (Err (map_failure Append kind batch_event), set_journal f (bytes ++ take written encoded))
        | FaultSync kind =>
          (Err (map_failure Sync kind batch_event), set_journal f (bytes ++ encoded))
        | _ => (Ok tt, set_journal f (bytes ++ encoded))
        end
      end
    end
  end.
End files.

(** ** The invariant *)

Record consumer_wf (s : ConsumerState) : Prop := {
  wf_acknowledged : forall o, o ∈ acknowledged_offsets s -> committed_offset s < o;
  wf_attempts : forall o a, delivery_attempts s !! o = Some a -> a <> 0 /\ is_done s o = false;
  wf_policies : forall o, is_Some (delivery_policies s !! o) <-> is_Some (delivery_attempts s !! o);
  wf_retries : forall o, is_Some (retry_not_before s !! o) -> is_Some (delivery_attempts s !! o);
}.

Lemma is_done_spec s o :
  is_done s o = true <-> o < committed_offset s \/ o ∈ acknowledged_offsets s.
Proof. unfold is_done. by rewrite orb_true_iff, N.ltb_lt, bool_decide_eq_true. Qed.

Lemma is_done_false s o :
  is_done s o = false <-> committed_offset s <= o /\ o ∉ acknowledged_offsets s.
Proof. unfold is_done. by rewrite orb_false_iff, N.ltb_ge, bool_decide_eq_false. Qed.

(** The check at load time is the part of the invariant that ties the three
    per-delivery maps together. *)
Lemma consumer_validate_spec s :
  consumer_validate s = Ok tt <->
  (forall o a, delivery_attempts s !! o = Some a -> a <> 0) /\
  (forall o, is_Some (delivery_policies s !! o) <-> is_Some (delivery_attempts s !! o)) /\
  (forall o, is_Some (retry_not_before s !! o) -> is_Some (delivery_attempts s !! o)).
Proof.
  assert (Hkeys : forall A (m : gmap Offset A) (p : Offset -> bool),
    existsb p (btree_keys m) = false <-> forall o, is_Some (m !! o) -> p o = false).
  { intros A m p. rewrite existsb_false_Forall, Forall_forall. unfold btree_keys.
    setoid_rewrite list_elem_of_fmap. split.
    - intros Hp o [v Hv]. apply Hp. exists (o, v). by rewrite elem_of_btree_items.
    - intros Hp o ([o' v] & -> & Hin%elem_of_btree_items). apply Hp. eauto. }
  unfold consumer_validate. destruct (_ || _) eqn:E.
  - split; [done|]. intros (H1 & H2 & H3). exfalso.
    apply not_false_iff_true in E. apply E. rewrite !orb_false_iff, !Hkeys. split_and!.
    + apply existsb_false_Forall, Forall_forall. intros [o a] Hin%elem_of_btree_items.
      rewrite orb_false_iff, N.eqb_neq, negb_false_iff, bool_decide_eq_true. split; [by eapply H1|].
      apply H2. eauto.
    + intros o Ho%H2. by rewrite negb_false_iff, bool_decide_eq_true.
    + intros o Ho%H3. by rewrite negb_false_iff, bool_decide_eq_true.
  - split; [intros _|done]. rewrite !orb_false_iff, !Hkeys in E. destruct E as [[E1 E2] E3].
    rewrite existsb_false_Forall, Forall_forall in E1. split_and!.
    + intros o a Ho%elem_of_btree_items%E1. by apply orb_false_iff in Ho as [?%N.eqb_neq _].
    + intros o. split.
      * intros Ho%E2. by apply negb_false_iff, bool_decide_eq_true_1 in Ho.
      * intros [a Ha%elem_of_btree_items%E1]. apply orb_false_iff in Ha as [_ Ha].
        by apply negb_false_iff, bool_decide_eq_true_1 in Ha.
    + intros o Ho%E3. by apply negb_false_iff, bool_decide_eq_true_1 in Ho.
Qed.

Lemma wf_validate s : consumer_wf s -> consumer_validate s = Ok tt.
Proof.
  intros [_ Ha Hp Hr]. apply consumer_validate_spec. split_and!; [|done|done].
  intros o a H. by apply (Ha o a).
Qed.

Lemma consumer_initial_wf stream consumer : consumer_wf (consumer_initial stream consumer).
Proof.
  split; cbn.
  - set_solver.
  - intros o a. by rewrite lookup_empty.
  - intros o. by rewrite !lookup_empty.
  - intros o. rewrite lookup_empty. by intros [].
Qed.

(** *** Acknowledgement *)

Lemma advance_committed_spec fuel c acked attempts policies :
  (size acked <= fuel)%nat -> (forall o, o ∈ acked -> c <= o) ->
  let '(c', acked', attempts', policies') := advance_committed fuel c acked attempts policies in
  c <= c' /\ (forall o, c <= o < c' -> o ∈ acked) /\ (c' ∉ acked') /\
  (forall o, o ∈ acked' <-> o ∈ acked /\ c' <= o) /\
  (forall o, attempts' !! o = (if bool_decide (c <= o < c') then None else attempts !! o)) /\
  (forall o, policies' !! o = (if bool_decide (c <= o < c') then None else policies !! o)).
Proof.
  assert (Hstop : forall c (acked : gset Offset) (attempts : gmap Offset N)
    (policies : gmap Offset ConsumerPolicy), c ∉ acked -> (forall o, o ∈ acked -> c <= o) ->
    c <= c /\ (forall o, c <= o < c -> o ∈ acked) /\ (c ∉ acked) /\
    (forall o, o ∈ acked <-> o ∈ acked /\ c <= o) /\
    (forall o, attempts !! o = (if bool_decide (c <= o < c) then None else attempts !! o)) /\
    (forall o, policies !! o = (if bool_decide (c <= o < c) then None else policies !! o))).
  { intros c0 a0 t0 p0 Hni Hge. split_and!; [lia|lia|done|naive_solver| |];
      intros o; rewrite bool_decide_eq_false_2 by lia; done. }
  revert c acked attempts policies; induction fuel as [|fuel IH];
    intros c acked attempts policies Hsz Hge; cbn [advance_committed].
  - apply Hstop; [|done]. assert (acked ≡ ∅) by (apply size_empty_inv; lia). set_solver.
  - destruct (decide (c ∈ acked)) as [Hin|Hni]; [|by apply Hstop].
    assert (Hsz' : (size (acked ∖ {[c]}) <= fuel)%nat).
    { rewrite size_difference by set_solver. rewrite size_singleton. lia. }
    assert (Hge' : forall o, o ∈ acked ∖ {[c]} -> c + 1 <= o).
    { intros o [Ho Hne]%elem_of_difference. apply Hge in Ho.
      assert (o <> c) by set_solver. lia. }
    specialize (IH (c + 1) (acked ∖ {[c]}) (delete c attempts) (delete c policies) Hsz' Hge').
    destruct (advance_committed fuel _ _ _ _) as [[[c' acked'] attempts'] policies'].
    destruct IH as (H1 & H2 & H3 & H4 & H5 & H6). split_and!; [lia| |done| | |].
    + intros o Ho. destruct (decide (o = c)) as [->|]; [done|].
      assert (o ∈ acked ∖ {[c]}) by (apply H2; lia). set_solver.
    + intros o. rewrite H4. split; [set_solver|]. intros [Ho Hle]. split; [|done].
      apply elem_of_difference. split; [done|]. rewrite elem_of_singleton. lia.
    + intros o. rewrite H5. repeat case_bool_decide; try lia; try done.
      * destruct (decide (o = c)) as [->|]; [by rewrite lookup_delete_eq|lia].
      * rewrite lookup_delete_ne by lia. done.
    + intros o. rewrite H6. repeat case_bool_decide; try lia; try done.
      * destruct (decide (o = c)) as [->|]; [by rewrite lookup_delete_eq|lia].
      * rewrite lookup_delete_ne by lia. done.
Qed.

Lemma wf_done_None s o :
  consumer_wf s -> is_done s o = true ->
  delivery_attempts s !! o = None /\ delivery_policies s !! o = None /\
  retry_not_before s !! o = None.
Proof.
  intros [_ Hatt Hpol Hret] Ho. assert (Ha : delivery_attempts s !! o = None).
  { destruct (delivery_attempts s !! o) eqn:E; [|done]. apply Hatt in E as [_ E]. congruence. }
  split_and!; [done|..]; apply eq_None_not_Some; intros Hs.
  - apply Hpol in Hs. rewrite Ha in Hs. by destruct Hs.
  - apply Hret in Hs. rewrite Ha in Hs. by destruct Hs.
Qed.

(** What [acknowledge] does to one of the maps kept per offset. *)
Lemma acknowledged_map {A} (m m' : gmap Offset A) (done : Offset -> bool) c (gone : Offset -> bool) :
  (forall o, done o = true -> m !! o = None) -> (forall o, gone o = true -> done o = true) ->
  (forall o, m' !! o = (if gone o then None else delete c m !! o)) ->
  forall o, m' !! o = (if done o || (o =? c) then None else m !! o).
Proof.
  intros Hm Hg Hm' o. rewrite Hm'. destruct (gone o) eqn:E; [by rewrite (Hg o E)|].
  destruct (N.eqb_spec o c) as [->|]; [by rewrite lookup_delete_eq, orb_true_r|].
  rewrite lookup_delete_ne, orb_false_r by done. destruct (done o) eqn:Ed; [by apply Hm|done].
Qed.

(** Acknowledging marks exactly one more offset as done and forgets what was
    kept for it. *)
Record acknowledged (s : ConsumerState) (offset : Offset) (s' : ConsumerState) : Prop := {
  ak_done o : is_done s' o = is_done s o || (o =? offset);
  ak_attempts o :
    delivery_attempts s' !! o = (if is_done s o || (o =? offset) then None else delivery_attempts s !! o);
  ak_policies o :
    delivery_policies s' !! o = (if is_done s o || (o =? offset) then None else delivery_policies s !! o);
  ak_retries o :
    retry_not_before s' !! o = (if is_done s o || (o =? offset) then None else retry_not_before s !! o);
  ak_acknowledged o : o ∈ acknowledged_offsets s' -> committed_offset s' < o;
  ak_committed : committed_offset s <= committed_offset s';
  ak_policy : cs_policy s' = cs_policy s;
  ak_stream : cs_stream s' = cs_stream s;
  ak_consumer : cs_consumer s' = cs_consumer s;
}.

Lemma acknowledge_again s offset :
  consumer_wf s -> is_done s offset = true -> acknowledged s offset s.
Proof.
  intros Hwf Hd.
  assert (Hor : forall o, is_done s o || (o =? offset) = is_done s o).
  { intros o. destruct (N.eqb_spec o offset) as [->|]; [by rewrite Hd|by rewrite orb_false_r]. }
  pose proof (fun o Ho => wf_done_None s o Hwf Ho) as Hnone.
  split; [done| | | |apply Hwf|lia|done..].
  - intros o. rewrite Hor. destruct (is_done s o) eqn:E; [by apply Hnone|done].
  - intros o. rewrite Hor. destruct (is_done s o) eqn:E; [by apply Hnone|done].
  - intros o. rewrite Hor. destruct (is_done s o) eqn:E; [by apply Hnone|done].
Qed.

Lemma acknowledge_next s :
  consumer_wf s -> is_done s (committed_offset s) = false ->
  acknowledged s (committed_offset s) (acknowledge s (committed_offset s)).
Proof.
  intros Hwf Hd. unfold acknowledge. fold (is_done s (committed_offset s)).
  rewrite Hd, N.eqb_refl.
  pose proof (advance_committed_spec (size (acknowledged_offsets s)) (committed_offset s + 1)
    (acknowledged_offsets s) (delete (committed_offset s) (delivery_attempts s))
    (delete (committed_offset s) (delivery_policies s)) ltac:(lia)) as Hadv.
  destruct (advance_committed _ _ _ _ _) as [[[c' acked'] attempts'] policies'].
  destruct Hadv as (H1 & H2 & H3 & H4 & H5 & H6).
  { intros o Ho. apply (wf_acknowledged s Hwf) in Ho. lia. }
  assert (Hgone : forall o, bool_decide (committed_offset s + 1 <= o < c') = true ->
    is_done s o = true).
  { intros o Ho%bool_decide_eq_true_1. apply is_done_spec. right. by apply H2. }
  pose proof (fun o Ho => wf_done_None s o Hwf Ho) as Hnone.
  split; cbn; try done; try lia.
  - intros o. apply eq_true_iff_eq. unfold is_done. cbn.
    rewrite !orb_true_iff, !N.ltb_lt, !bool_decide_eq_true, N.eqb_eq, H4. split.
    + intros [Hlt|[Ho _]]; [|by auto]. destruct (decide (o <= committed_offset s)); [lia|].
      left; right. apply H2. lia.
    + intros [[Hlt|Ho]|Ho]; [left; lia| |left; lia].
      destruct (decide (o < c')); [by left|right]. split; [done|lia].
  - apply (acknowledged_map _ _ _ _ _ (fun o Ho => proj1 (Hnone o Ho)) Hgone H5).
  - apply (acknowledged_map _ _ _ _ _ (fun o Ho => proj1 (proj2 (Hnone o Ho))) Hgone H6).
  - apply (acknowledged_map _ _ _ _ (fun _ => false) (fun o Ho => proj2 (proj2 (Hnone o Ho))));
      done.
  - intros o [Ho Hle]%H4. assert (o <> c') by (intros ->; apply H3, H4; done). lia.
Qed.

Lemma acknowledge_later s offset :
  consumer_wf s -> is_done s offset = false -> offset <> committed_offset s ->
  acknowledged s offset (acknowledge s offset).
Proof.
  intros Hwf Hd Hne. unfold acknowledge. fold (is_done s offset).
  rewrite Hd, (proj2 (N.eqb_neq _ _) Hne). apply is_done_false in Hd as [Hge Hni].
  pose proof (fun o Ho => wf_done_None s o Hwf Ho) as Hnone.
  split; cbn; try done; try lia.
  - intros o. apply eq_true_iff_eq. unfold is_done. cbn.
    rewrite !orb_true_iff, !N.ltb_lt, !bool_decide_eq_true, N.eqb_eq. set_solver.
  - apply (acknowledged_map _ _ _ _ (fun _ => false) (fun o Ho => proj1 (Hnone o Ho))); done.
  - apply (acknowledged_map _ _ _ _ (fun _ => false) (fun o Ho => proj1 (proj2 (Hnone o Ho)))); done.
  - apply (acknowledged_map _ _ _ _ (fun _ => false) (fun o Ho => proj2 (proj2 (Hnone o Ho)))); done.
  - intros o [->%elem_of_singleton|Ho]%elem_of_union; [lia|]. by apply Hwf.
Qed.

Lemma acknowledge_spec s offset :
  consumer_wf s -> acknowledged s offset (acknowledge s offset).
Proof.
  intros Hwf. destruct (is_done s offset) eqn:Hd.
  - unfold acknowledge. fold (is_done s offset). rewrite Hd. by apply acknowledge_again.
  - destruct (decide (offset = committed_offset s)) as [->|].
    + by apply acknowledge_next.
    + by apply acknowledge_later.
Qed.

Lemma acknowledge_wf s offset : consumer_wf s -> consumer_wf (acknowledge s offset).
Proof.
  intros Hwf. destruct (acknowledge_spec s offset Hwf) as [Hd Ha Hp Hr Hk _ _ _ _].
  split; [done|..].
  - intros o a. rewrite Ha, Hd. destruct (is_done s o || _) eqn:E; [done|].
    intros [Hz _]%(wf_attempts s Hwf). done.
  - intros o. rewrite Ha, Hp. destruct (is_done s o || _); [done|]. apply Hwf.
  - intros o. rewrite Ha, Hr. destruct (is_done s o || _); [done|]. apply Hwf.
Qed.

(** *** Events as sequences of elementary operations *)

Inductive Op :=
| OpAttempt (d : DeliveryAttempt)
| OpRetry (r : RetryScheduleEvent)
| OpAcknowledge (offset : Offset)
| OpPolicy (policy : ConsumerPolicy).

Definition apply_op (s : ConsumerState) (op : Op) : ConsumerState :=
  match op with
  | OpAttempt d => apply_delivery_attempt s d
  | OpRetry r => apply_retry_schedule s r
  | OpAcknowledge offset => acknowledge s offset
  | OpPolicy policy => set_policy s (Some policy)
  end.

Definition op_ok (op : Op) : Prop :=
  match op with
  | OpAttempt d => da_attempt d <> 0
  | OpPolicy policy => validate_policy policy = Ok tt
  | _ => True
  end.

Definition event_ops (event : ConsumerStateEvent) : list Op :=
  match event with
  | EvDeliveryAttempt d => [OpAttempt d]
  | EvDeliveryAttempts ds => OpAttempt <$> ds
  | EvRetrySchedules rs => OpRetry <$> rs
  | EvAcknowledge offset => [OpAcknowledge offset]
  | EvAcknowledgeBatch offsets => OpAcknowledge <$> offsets
  | EvPolicyConfigured policy => [OpPolicy policy]
  end.

(** Whether an event is accepted does not depend on the state. *)
Lemma apply_event_spec s event s' :
  apply_event s event = Ok s' <->
  Forall op_ok (event_ops event) /\ s' = foldl apply_op s (event_ops event).
Proof.
  destruct event as [d|ds|rs|o|os|p]; cbn [apply_event event_ops].
  - rewrite Forall_singleton. cbn. destruct (N.eqb_spec (da_attempt d) 0); naive_solver.
  - rewrite foldl_fmap, Forall_fmap. cbn.
    destruct (existsb _ ds) eqn:E.
    + split; [done|]. intros [Hall _]. apply existsb_exists in E as (d & Hin & Hz%N.eqb_eq).
      rewrite Forall_forall in Hall. apply list_elem_of_In, Hall in Hin. done.
    + split; [|by intros [_ ->]]. intros [= <-]. split; [|done].
      apply existsb_false_Forall in E. eapply Forall_impl; [apply E|].
      intros d Hd%N.eqb_neq. done.
  - rewrite foldl_fmap, Forall_fmap. cbn. split; [|by intros [_ ->]].
    intros [= <-]. split; [|done]. by apply Forall_true.
  - rewrite Forall_singleton. cbn. naive_solver.
  - rewrite foldl_fmap, Forall_fmap. cbn. split; [|by intros [_ ->]].
    intros [= <-]. split; [|done]. by apply Forall_true.
  - rewrite Forall_singleton. cbn. destruct (validate_policy p) as [[]|]; naive_solver.
Qed.

Lemma apply_delivery_attempt_wf s d :
  da_attempt d <> 0 -> consumer_wf s -> consumer_wf (apply_delivery_attempt s d).
Proof.
  intros Hz Hwf. unfold apply_delivery_attempt.
  destruct (negb _ && negb _) eqn:Hc; [|done].
  apply andb_true_iff in Hc as [Hc1 Hc2].
  assert (Hd : is_done s (da_offset d) = false).
  { unfold is_done. by rewrite (proj1 (negb_true_iff _) Hc1), (proj1 (negb_true_iff _) Hc2). }
  destruct Hwf as [Hk Ha Hp Hr]. split; cbn.
  - done.
  - intros o a. destruct (decide (o = da_offset d)) as [->|Hne].
    + rewrite lookup_insert_eq. intros [= <-]. split; [|done].
      destruct (delivery_attempts s !! da_offset d); lia.
    + rewrite lookup_insert_ne by done. apply Ha.
  - intros o. destruct (decide (o = da_offset d)) as [->|Hne].
    + rewrite lookup_insert_eq. destruct (delivery_policies s !! da_offset d) eqn:E;
        [by rewrite E|by rewrite lookup_insert_eq].
    + rewrite lookup_insert_ne by done.
      destruct (delivery_policies s !! da_offset d); [apply Hp|].
      rewrite lookup_insert_ne by done. apply Hp.
  - intros o. destruct (decide (o = da_offset d)) as [->|Hne].
    + by rewrite lookup_insert_eq.
    + rewrite lookup_insert_ne, lookup_delete_ne by done. apply Hr.
Qed.

Lemma apply_retry_schedule_wf s r :
  consumer_wf s -> consumer_wf (apply_retry_schedule s r).
Proof.
  intros Hwf. unfold apply_retry_schedule.
  destruct (_ || _ || negb _) eqn:Hc; [done|].
  apply orb_false_iff in Hc as [_ Hc%negb_false_iff%bool_decide_eq_true_1].
  destruct Hwf as [Hk Ha Hp Hr]. split; cbn; try done.
  intros o. destruct (retry_not_before s !! rse_offset r) eqn:E; [apply Hr|].
  destruct (decide (o = rse_offset r)) as [->|Hne]; [done|].
  rewrite lookup_insert_ne by done. apply Hr.
Qed.

Lemma apply_op_wf s op : op_ok op -> consumer_wf s -> consumer_wf (apply_op s op).
Proof.
  destruct op as [d|r|o|p]; cbn; intros Hok Hwf.
  - by apply apply_delivery_attempt_wf.
  - by apply apply_retry_schedule_wf.
  - by apply acknowledge_wf.
  - by destruct Hwf.
Qed.

Lemma apply_ops_wf s ops : Forall op_ok ops -> consumer_wf s -> consumer_wf (foldl apply_op s ops).
Proof.
  intros Hok. revert s; induction Hok as [|op ops Hop Hok IH]; intros s Hwf; simpl; [done|].
  apply IH. by apply apply_op_wf.
Qed.

Lemma apply_event_wf s event s' : consumer_wf s -> apply_event s event = Ok s' -> consumer_wf s'.
Proof. intros Hwf [Hok ->]%apply_event_spec. by apply apply_ops_wf. Qed.

(** *** One offset at a time *)

(** What a state records for one offset. *)
Abbreviation View := (option N * option ConsumerPolicy * option RetrySchedule)%type.

Definition view (s : ConsumerState) (o : Offset) : View :=
  (delivery_attempts s !! o, delivery_policies s !! o, retry_not_before s !! o).

Definition acks (o : Offset) (op : Op) : bool :=
  match op with OpAcknowledge offset => o =? offset | _ => false end.

Definition view_step (o : Offset) (v : View) (op : Op) : View :=
  let '(a, p, r) := v in
  match op with
  | OpAttempt d =>
    if decide (da_offset d = o) then
      (Some (match a with Some current => N.max current (da_attempt d) | None => da_attempt d end),
       Some (default (da_policy d) p), None)
    else v
  | OpRetry e =>
    if decide (rse_offset e = o) then
      (a, p, match a, r with
             | Some _, None =>
               Some {| retry_not_before_ms := rse_retry_not_before_ms e; rs_key := rse_key e |}
             | _, _ => r
             end)
    else v
  | _ => v
  end.

Lemma op_done s op o : consumer_wf s -> is_done (apply_op s op) o = is_done s o || acks o op.
Proof.
  intros Hwf. destruct op as [d|r|offset|p]; cbn; rewrite ?orb_false_r.
  - unfold apply_delivery_attempt. by destruct (negb _ && _).
  - unfold apply_retry_schedule. by destruct (_ || _ || _).
  - apply (ak_done _ _ _ (acknowledge_spec s offset Hwf)).
  - done.
Qed.

Lemma op_view s op o :
  consumer_wf s -> is_done (apply_op s op) o = false ->
  view (apply_op s op) o = view_step o (view s o) op.
Proof.
  intros Hwf Hd. rewrite op_done in Hd by done. apply orb_false_iff in Hd as [Hd Hack].
  unfold view. destruct op as [d|r|offset|p]; cbn in *.
  - unfold apply_delivery_attempt.
    destruct (decide (da_offset d = o)) as [<-|Hne].
    + unfold is_done in Hd. apply orb_false_iff in Hd as [-> ->]. cbn.
      rewrite lookup_insert_eq, lookup_delete_eq. f_equal. f_equal.
      destruct (delivery_policies s !! da_offset d) eqn:E; [done|by rewrite lookup_insert_eq].
    + destruct (negb _ && _); [cbn|done]. rewrite lookup_insert_ne, lookup_delete_ne by done.
      do 2 f_equal. destruct (delivery_policies s !! da_offset d); [done|].
      by rewrite lookup_insert_ne.
  - unfold apply_retry_schedule.
    destruct (decide (rse_offset r = o)) as [<-|Hne].
    + unfold is_done in Hd. apply orb_false_iff in Hd as [-> ->]. cbn.
      case_bool_decide as Hs; cbn.
      * destruct Hs as [a Ha]. rewrite Ha. f_equal.
        destruct (retry_not_before s !! rse_offset r) eqn:E; [done|by rewrite lookup_insert_eq].
      * apply eq_None_not_Some in Hs. by rewrite Hs.
    + destruct (_ || _ || _); [done|cbn]. f_equal.
      destruct (retry_not_before s !! rse_offset r); [done|]. by rewrite lookup_insert_ne.
  - destruct (acknowledge_spec s offset Hwf) as [_ Ha Hp Hr _ _ _ _ _].
    by rewrite Ha, Hp, Hr, Hd, Hack.
  - done.
Qed.

Lemma ops_done s ops o :
  Forall op_ok ops -> consumer_wf s ->
  is_done (foldl apply_op s ops) o = is_done s o || existsb (acks o) ops.
Proof.
  intros Hok. revert s; induction Hok as [|op ops Hop Hok IH]; intros s Hwf; simpl.
  - by rewrite orb_false_r.
  - rewrite IH by (by apply apply_op_wf). by rewrite op_done, orb_assoc.
Qed.

Lemma ops_view s ops o :
  Forall op_ok ops -> consumer_wf s -> is_done (foldl apply_op s ops) o = false ->
  view (foldl apply_op s ops) o = foldl (view_step o) (view s o) ops.
Proof.
  intros Hok. revert s; induction Hok as [|op ops Hop Hok IH]; intros s Hwf Hd; simpl in *; [done|].
  pose proof (apply_op_wf _ _ Hop Hwf) as Hwf'. rewrite IH by done. f_equal. apply op_view; [done|].
  rewrite ops_done in Hd by done. by apply orb_false_iff in Hd as [? _].
Qed.

(** Views as they occur in well-formed states. *)
Definition view_ok (v : View) : Prop :=
  let '(a, p, r) := v in (is_Some p <-> is_Some a) /\ (is_Some r -> is_Some a).

Lemma view_step_ok o v op : view_ok v -> view_ok (view_step o v op).
Proof.
  destruct v as [[a p] r], op as [d|e|?|?]; cbn; try done; case_decide; cbn; try done.
  intros [Hp Hr]. destruct a, r; try done; naive_solver.
Qed.

(** Later attempts never fall below an earlier one. *)
Lemma views_attempt_mono o v ops m :
  (exists a, v.1.1 = Some a /\ m <= a) ->
  exists a, (foldl (view_step o) v ops).1.1 = Some a /\ m <= a.
Proof.
  revert v; induction ops as [|op ops IH]; intros v Hv; simpl; [done|]. apply IH.
  destruct v as [[a p] r], Hv as (a' & [= ->] & Hm), op as [d|e|?|?]; cbn; eauto;
    case_decide; cbn; eauto. eexists. split; [done|]. lia.
Qed.

Lemma views_policy_mono o v ops p :
  v.1.2 = Some p -> (foldl (view_step o) v ops).1.2 = Some p.
Proof.
  revert v; induction ops as [|op ops IH]; intros v Hv; simpl; [done|]. apply IH.
  destruct v as [[a q] r], op as [d|e|?|?]; cbn in *; subst; try done; by case_decide.
Qed.

Definition has_attempt (o : Offset) (ops : list Op) : bool :=
  existsb (fun op => match op with OpAttempt d => bool_decide (da_offset d = o) | _ => false end) ops.

Lemma views_no_attempt o v ops :
  has_attempt o ops = false ->
  (foldl (view_step o) v ops).1.1 = v.1.1 /\
  (forall r, v.2 = Some r -> (foldl (view_step o) v ops).2 = Some r).
Proof.
  revert v; induction ops as [|op ops IH]; intros v; cbn; [done|].
  intros [Hop Hops]%orb_false_iff. destruct (IH (view_step o v op) Hops) as [Ha Hr]. rewrite Ha.
  destruct v as [[a p] r], op as [d|e|?|?]; cbn in *; try done.
  - apply bool_decide_eq_false_1 in Hop. rewrite decide_False by done.
    rewrite decide_False in Hr by done. done.
  - destruct (decide _); cbn in *; [|done]. split; [done|]. intros r' ->. apply Hr. by destruct a.
Qed.

(** Replaying operations over their own result: the attempt counts and pinned
    policies are already there, and the retry time of an offset is either
    final, reset by a later attempt, or in step with the first run. *)
Definition in_step (o : Offset) (ops : list Op) (v V t : View) : Prop :=
  t.1 = V.1 /\
  (has_attempt o ops = true \/ t.2 = V.2 \/ (t.2 = v.2 /\ is_Some v.1.1)).

Lemma in_step_attempt o d ops v t :
  da_offset d = o ->
  let v1 := view_step o v (OpAttempt d) in
  let V := foldl (view_step o) v1 ops in
  t.1 = V.1 -> in_step o ops v1 V (view_step o t (OpAttempt d)).
Proof.
  intros Heq v1 V Ht. destruct v as [[a p] r], t as [[ta tp] tr].
  assert (Hv1 : v1 = (Some (match a with Some c => N.max c (da_attempt d) | None => da_attempt d end),
    Some (default (da_policy d) p), None)) by (unfold v1; cbn; by rewrite decide_True).
  destruct (views_attempt_mono o v1 ops (da_attempt d)) as (A & HA & HAle).
  { rewrite Hv1. eexists. split; [done|]. destruct a; lia. }
  pose proof (views_policy_mono o v1 ops (default (da_policy d) p) ltac:(by rewrite Hv1)) as HP.
  fold V in HA, HP. destruct V as [[Va Vp] Vr]; cbn in *; simplify_eq/=.
  unfold v1. rewrite !decide_True by done. split; cbn; [by rewrite N.max_l|].
  right; right. split; [done|eauto].
Qed.

Lemma in_step_retry o e ops v t :
  rse_offset e = o ->
  let v1 := view_step o v (OpRetry e) in
  let V := foldl (view_step o) v1 ops in
  in_step o ops v V t -> in_step o ops v1 V (view_step o t (OpRetry e)).
Proof.
  intros Heq v1 V [Ht Hd]. destruct v as [[a p] r], t as [[ta tp] tr].
  assert (Hstep : forall a p r, view_step o (a, p, r) (OpRetry e) = (a, p, match a, r with
    | Some _, None => Some {| retry_not_before_ms := rse_retry_not_before_ms e; rs_key := rse_key e |}
    | _, _ => r end)) by (intros; cbn; by rewrite decide_True).
  destruct (has_attempt o ops) eqn:Hat.
  { split; [by rewrite Hstep|by left]. }
  destruct (views_no_attempt o v1 ops Hat) as [Ha Hr]. fold V in Ha, Hr.
  unfold v1 in Ha, Hr |- *. clearbody V. rewrite !Hstep in *. cbn [fst snd] in *.
  unfold in_step. cbn [fst snd]. split; [done|right].
  destruct V as [[Va Vp] Vr]; cbn in *; simplify_eq/=.
  destruct Hd as [?|[->|[-> [x ->]]]]; [done| |].
  - left. destruct a as [x|]; [|done]. destruct Vr; [done|].
    destruct r as [y|]; discriminate (Hr _ eq_refl).
  - right. split; [done|eauto].
Qed.

Lemma view_again o ops v t :
  in_step o ops v (foldl (view_step o) v ops) t ->
  foldl (view_step o) t ops = foldl (view_step o) v ops.
Proof.
  revert v t; induction ops as [|op ops IH]; intros v t Hin.
  { destruct v as [[]], t as [[]], Hin as [Ht Hd]; cbn in *; destruct Hd as [?|[?|[??]]]; by simplify_eq. }
  cbn [foldl] in *. apply IH.
  assert (Hsame : (forall w, view_step o w op = w) -> has_attempt o (op :: ops) = has_attempt o ops ->
    in_step o ops (view_step o v op) (foldl (view_step o) (view_step o v op) ops) (view_step o t op)).
  { intros Hs Hh. unfold in_step in *. rewrite Hh in Hin. rewrite !Hs in *. done. }
  destruct op as [d|e|?|?].
  - destruct (decide (da_offset d = o)) as [Heq|Hne].
    + apply in_step_attempt; [done|apply Hin].
    + apply Hsame; [intros [[]]; cbn; by rewrite decide_False|].
      cbn. by rewrite bool_decide_eq_false_2.
  - destruct (decide (rse_offset e = o)) as [Heq|Hne].
    + by apply in_step_retry.
    + apply Hsame; [intros [[]]; cbn; by rewrite decide_False|done].
  - apply Hsame; [by intros [[]]|done].
  - apply Hsame; [by intros [[]]|done].
Qed.

Lemma view_idempotent o ops v :
  foldl (view_step o) (foldl (view_step o) v ops) ops = foldl (view_step o) v ops.
Proof. apply view_again. split; [done|]. by right; left. Qed.

(** Well-formed states that agree on every offset are equal. *)
Lemma state_ext s t :
  consumer_wf s -> consumer_wf t ->
  (forall o, is_done s o = is_done t o) -> (forall o, view s o = view t o) ->
  cs_policy s = cs_policy t -> cs_stream s = cs_stream t -> cs_consumer s = cs_consumer t -> s = t.
Proof.
  intros Hs Ht Hd Hv Hp Hst Hco.
  assert (Hnext : forall s, consumer_wf s -> is_done s (committed_offset s) = false).
  { intros u Hu. apply is_done_false. split; [lia|]. intros Hin%(wf_acknowledged u Hu). lia. }
  assert (Hle : forall s t, consumer_wf s -> (forall o, is_done s o = is_done t o) ->
    committed_offset t <= committed_offset s).
  { intros u w Hu Huw. pose proof (Hnext u Hu) as H. rewrite Huw in H.
    by apply is_done_false in H as [? _]. }
  assert (Hc : committed_offset s = committed_offset t).
  { pose proof (Hle s t Hs Hd). pose proof (Hle t s Ht (fun o => eq_sym (Hd o))). lia. }
  assert (Ha : acknowledged_offsets s = acknowledged_offsets t).
  { apply set_eq. intros o. specialize (Hd o).
    pose proof (wf_acknowledged s Hs o) as Hso. pose proof (wf_acknowledged t Ht o) as Hto.
    assert (Hiff : is_done s o = true <-> is_done t o = true) by (by rewrite Hd).
    rewrite !is_done_spec, Hc in Hiff. split; intros Hin.
    - destruct (proj1 Hiff (or_intror Hin)); [|done]. specialize (Hso Hin). lia.
    - destruct (proj2 Hiff (or_intror Hin)); [|done]. specialize (Hto Hin). lia. }
  destruct s, t; cbn in *; subst. unfold view in Hv; cbn in Hv.
  f_equal; apply map_eq; intros o; specialize (Hv o); congruence.
Qed.

Definition op_policy (p : option ConsumerPolicy) (op : Op) : option ConsumerPolicy :=
  match op with OpPolicy policy => Some policy | _ => p end.

Lemma ops_names s ops :
  cs_policy (foldl apply_op s ops) = foldl op_policy (cs_policy s) ops /\
  cs_stream (foldl apply_op s ops) = cs_stream s /\
  cs_consumer (foldl apply_op s ops) = cs_consumer s.
Proof.
  revert s; induction ops as [|op ops IH]; intros s; simpl; [done|].
  destruct (IH (apply_op s op)) as (-> & -> & ->). destruct op as [d|r|o|p]; cbn; [..|done].
  - unfold apply_delivery_attempt. by destruct (negb _ && _).
  - unfold apply_retry_schedule. by destruct (_ || _ || _).
  - unfold acknowledge. destruct (_ || _); [done|].
    destruct (if o =? committed_offset s then _ else _) as [[[]]]; done.
Qed.

Lemma op_policy_const ops :
  (exists q, forall p, foldl op_policy p ops = q) \/ (forall p, foldl op_policy p ops = p).
Proof.
  induction ops as [|op ops IH]; simpl; [by right|].
  destruct IH as [[q Hq]|Hid]; [left; by exists q|].
  destruct op as [| | |policy]; [by right..|]. left. exists (Some policy). intros p. by rewrite Hid.
Qed.

(** Replaying a sequence of operations over the state it produced changes
    nothing. *)
Lemma ops_idempotent s ops :
  Forall op_ok ops -> consumer_wf s ->
  foldl apply_op (foldl apply_op s ops) ops = foldl apply_op s ops.
Proof.
  intros Hok Hwf. set (t := foldl apply_op s ops).
  assert (Hwt : consumer_wf t) by (by apply apply_ops_wf).
  assert (Hwt' : consumer_wf (foldl apply_op t ops)) by (by apply apply_ops_wf).
  assert (Hdone : forall o, is_done (foldl apply_op t ops) o = is_done t o).
  { intros o. rewrite (ops_done t) by done. unfold t. rewrite ops_done by done.
    by destruct (is_done s o), (existsb (acks o) ops). }
  destruct (ops_names t ops) as (Hp & Hst & Hco). destruct (ops_names s ops) as (Hp' & _ & _).
  apply state_ext; try done.
  - intros o. destruct (is_done t o) eqn:E.
    + unfold view. destruct (wf_done_None t o Hwt E) as (-> & -> & ->).
      rewrite <-Hdone in E. by destruct (wf_done_None _ o Hwt' E) as (-> & -> & ->).
    + rewrite ops_view by (try done; by rewrite Hdone).
      unfold t. rewrite ops_view by done. apply view_idempotent.
  - rewrite Hp. unfold t. rewrite Hp'.
    destruct (op_policy_const ops) as [[q Hq]|Hid]; [by rewrite !Hq|by rewrite !Hid].
Qed.

(** Replay of a list of events. *)
Fixpoint replay_events (s : ConsumerState) (events : list ConsumerStateEvent) :
  Result ConsumerState BrokerError :=
  match events with
  | [] => Ok s
  | event :: events => let? s := apply_event s event in replay_events s events
  end.

Definition events_ops (events : list ConsumerStateEvent) : list Op :=
  flat_map event_ops events.

Lemma replay_events_spec s events s' :
  replay_events s events = Ok s' <->
  Forall op_ok (events_ops events) /\ s' = foldl apply_op s (events_ops events).
Proof.
  unfold events_ops. revert s; induction events as [|event events IH]; intros s;
    cbn [replay_events flat_map].
  - split; [intros [= ->]; split; [constructor|done]|by intros [_ ->]].
  - rewrite Forall_app, foldl_app. destruct (apply_event s event) as [s1|e] eqn:E.
    + apply apply_event_spec in E as [Hok ->]. rewrite IH. naive_solver.
    + split; [done|]. intros [[Hok _] _].
      destruct (apply_event_spec s event (foldl apply_op s (event_ops event))) as [_ H].
      rewrite H in E by done. done.
Qed.

Lemma replay_events_wf s events s' :
  consumer_wf s -> replay_events s events = Ok s' -> consumer_wf s'.
Proof. intros Hwf [Hok ->]%replay_events_spec. by apply apply_ops_wf. Qed.

Lemma replay_events_idempotent s events s' :
  consumer_wf s -> replay_events s events = Ok s' -> replay_events s' events = Ok s'.
Proof.
  intros Hwf [Hok ->]%replay_events_spec. apply replay_events_spec. split; [done|].
  by rewrite ops_idempotent.
Qed.

Lemma replay_events_app s events1 events2 :
  replay_events s (events1 ++ events2) =
  let? s1 := replay_events s events1 in replay_events s1 events2.
Proof.
  revert s; induction events1 as [|event events IH]; intros s; simpl; [done|].
  destruct (apply_event s event); [apply IH|done].
Qed.

(** ** Files and states *)

Lemma split_inclusive_line l rest :
  newline ∉ l -> split_inclusive (l ++ newline :: rest) = (l ++ [newline]) :: split_inclusive rest.
Proof.
  induction l as [|b l IH]; intros Hni; cbn [app split_inclusive].
  - by rewrite bool_decide_eq_true_2.
  - apply not_elem_of_cons in Hni as [Hb Hni].
    rewrite bool_decide_eq_false_2 by done. by rewrite IH.
Qed.

Lemma split_inclusive_tail l :
  newline ∉ l -> split_inclusive l = match l with [] => [] | _ => [l] end.
Proof.
  induction l as [|b l IH]; intros Hni; [done|]. cbn [split_inclusive].
  apply not_elem_of_cons in Hni as [Hb Hni]. rewrite bool_decide_eq_false_2, IH by done.
  by destruct l.
Qed.

Lemma ends_with_newline_line l : ends_with_newline (l ++ [newline]) = true.
Proof. unfold ends_with_newline. rewrite last_snoc. by apply bool_decide_eq_true_2. Qed.

Lemma ends_with_newline_tail l : newline ∉ l -> ends_with_newline l = false.
Proof.
  intros Hni. apply bool_decide_eq_false_2. intros Hl. apply Hni.
  apply last_Some in Hl as [l' ->]. set_solver.
Qed.

Section persistence.
Context `{HC : ConsumerCodec} {HL : ConsumerCodecLaws HC}.

Definition encode_line (event : ConsumerStateEvent) : list byte := encode_event event ++ [newline].

Definition encode_journal (events : list ConsumerStateEvent) : list byte :=
  flat_map encode_line events.

(** What a stopped process can leave of the line it was writing. *)
Definition torn_line (bytes : list byte) : Prop :=
  exists event n, (n < length (encode_line event))%nat /\ bytes = take n (encode_line event).

Lemma torn_line_nil : torn_line [].
Proof.
  exists (EvAcknowledge 0), 0%nat. split; [|done]. unfold encode_line. rewrite length_app. simpl. lia.
Qed.

Lemma torn_line_event bytes :
  torn_line bytes ->
  (newline ∉ bytes) /\ is_json_value bytes && negb (bool_decide (is_Some (decode_event bytes))) = false.
Proof.
  intros (event & n & Hn & ->). unfold encode_line in *. rewrite length_app in Hn. simpl in Hn.
  rewrite take_app_le by lia. split.
  - intros Hin. apply (encode_event_one_line event). rewrite <-(take_drop n (encode_event event)).
    set_solver.
  - destruct (decide (n < length (encode_event event))%nat).
    + by rewrite encode_event_prefix.
    + rewrite take_ge by lia. rewrite decode_encode_event, bool_decide_eq_true_2 by eauto.
      by rewrite andb_false_r.
Qed.

Lemma replay_lines_journal s v events tail :
  torn_line tail ->
  replay_lines s v (split_inclusive (encode_journal events ++ tail)) =
  let? s' := replay_events s events in Ok (s', v + vec_len (encode_journal events)).
Proof.
  intros Ht. revert s v; induction events as [|event events IH]; intros s v.
  - cbn [encode_journal flat_map app replay_events]. rewrite vec_len_nil, N.add_0_r.
    destruct (torn_line_event tail Ht) as [Hni Hj]. rewrite split_inclusive_tail by done.
    destruct tail as [|b tail]; [done|]. cbn [replay_lines].
    rewrite ends_with_newline_tail by done. cbn [negb]. by rewrite Hj.
  - unfold encode_journal. cbn [flat_map]. fold (encode_journal events).
    unfold encode_line at 1. rewrite <-!app_assoc. cbn [app].
    rewrite split_inclusive_line by apply encode_event_one_line.
    cbn [replay_lines]. rewrite ends_with_newline_line. cbn [negb].
    rewrite length_app. cbn [length]. rewrite Nat.add_sub, take_app_length, decode_encode_event.
    cbn [replay_events]. destruct (apply_event s event); [|done]. rewrite IH.
    destruct (replay_events a events); [|done]. do 2 f_equal.
    unfold encode_line. rewrite !vec_len_app. change (vec_len [newline]) with 1. lia.
Qed.

(** The files hold a state: a checkpoint and the events since. *)
Record stored (f : Files) (stream consumer : string) (base : ConsumerState)
  (events : list ConsumerStateEvent) (s : ConsumerState) : Prop := {
  st_checkpoint : load_checkpoint f stream consumer = Ok base;
  st_journal : default [] (journal f) = encode_journal events;
  st_bound : vec_len (encode_journal events) <= MAX_CONSUMER_STATE_JOURNAL_BYTES;
  st_base : consumer_wf base;
  st_names : cs_stream base = stream /\ cs_consumer base = consumer;
  st_replay : replay_events base events = Ok s;
}.

(** Loading files whose journal may end in a torn line: the state is the one
    stored, and the torn line is removed. *)
Lemma load_torn f stream consumer base events s tail :
  stored f stream consumer base events s -> torn_line tail ->
  vec_len (encode_journal events ++ tail) <= MAX_CONSUMER_STATE_JOURNAL_BYTES ->
  exists f', load_consumer_state (set_journal f (encode_journal events ++ tail)) stream consumer
    = (Ok s, f') /\ stored f' stream consumer base events s.
Proof.
  intros [Hc Hj Hb Hw Hn Hr] Ht Hlen. unfold load_consumer_state.
  change (load_checkpoint (set_journal f _) stream consumer) with (load_checkpoint f stream consumer).
  rewrite Hc. unfold replay_consumer_state_journal. cbn [set_journal journal].
  rewrite (proj2 (N.ltb_ge _ _)) by done. rewrite replay_lines_journal, Hr, N.add_0_l by done.
  rewrite wf_validate by (by eapply replay_events_wf).
  eexists. split; [reflexivity|].
  assert (Htk : take (N.to_nat (vec_len (encode_journal events))) (encode_journal events ++ tail)
    = encode_journal events) by (unfold vec_len; by rewrite Nat2N.id, take_app_length).
  destruct (N.eqb_spec (vec_len (encode_journal events)) (vec_len (encode_journal events ++ tail)))
    as [Heq|Hne]; split; cbn; try done.
  rewrite vec_len_app in Heq.
  assert (tail = []) as -> by (apply length_zero_iff_nil; unfold vec_len in Heq; lia).
  apply app_nil_r.
Qed.

Lemma load_stored f stream consumer base events s :
  stored f stream consumer base events s -> load_consumer_state f stream consumer = (Ok s, f).
Proof.
  intros [Hc Hj Hb Hw Hn Hr]. unfold load_consumer_state.
  rewrite Hc. unfold replay_consumer_state_journal.
  pose proof (wf_validate s (replay_events_wf _ _ _ Hw Hr)) as Hv.
  destruct (journal f) as [bytes|]; cbn in Hj.
  - subst bytes. rewrite (proj2 (N.ltb_ge _ _)) by done.
    rewrite <-(app_nil_r (encode_journal events)) at 1.
    rewrite replay_lines_journal, Hr, N.add_0_l by apply torn_line_nil.
    by rewrite Hv, N.eqb_refl.
  - assert (events = []) as ->.
    { destruct events as [|e events]; [done|]. unfold encode_journal in Hj. cbn in Hj.
      unfold encode_line in Hj. by destruct (encode_event e). }
    injection Hr as ->. by rewrite Hv.
Qed.

Lemma encode_journal_snoc events event :
  encode_journal (events ++ [event]) = encode_journal events ++ encode_line event.
Proof. unfold encode_journal. rewrite flat_map_app. cbn. by rewrite app_nil_r. Qed.

Lemma stored_names f stream consumer base events s :
  stored f stream consumer base events s -> rename_state s stream consumer = s.
Proof.
  intros [_ _ _ _ [Hst Hco] Hr]. apply replay_events_spec in Hr as [_ Hs].
  destruct (ops_names base (events_ops events)) as (_ & Hst' & Hco').
  rewrite <-Hs, Hst in Hst'. rewrite <-Hs, Hco in Hco'.
  destruct s; cbn in *. by subst.
Qed.

(** Publishing a checkpoint before the journal is truncated loses nothing: the
    old events replay to the same state. *)
Lemma stored_checkpoint f stream consumer base events s :
  stored f stream consumer base events s ->
  stored (persist_consumer_state f s) stream consumer s events s.
Proof.
  intros Hst. pose proof (stored_names _ _ _ _ _ _ Hst) as Hren. destruct Hst as [Hc Hj Hb Hw Hn Hr].
  split; try done.
  - unfold load_checkpoint. cbn. by rewrite decode_encode_state.
  - by eapply replay_events_wf.
  - rewrite <-Hren. done.
  - by eapply replay_events_idempotent.
Qed.

Lemma stored_truncated f stream consumer base s :
  load_checkpoint f stream consumer = Ok s -> consumer_wf s ->
  cs_stream s = stream /\ cs_consumer s = consumer -> base = s ->
  stored (set_journal f []) stream consumer base [] s.
Proof. intros Hc Hw Hn ->. split; try done. Qed.

Lemma compact_stored fault f stream consumer base events s batch r f' :
  stored f stream consumer base events s -> journal f <> None ->
  compact_consumer_state fault f stream consumer s batch = (r, f') ->
  exists base' events', stored f' stream consumer base' events' s /\ (r = Ok tt -> events' = []) /\
    (forall e, r = Err e -> exists kind, e = map_failure BeforeAppend kind batch).
Proof.
  intros Hst Hj. pose proof (stored_names _ _ _ _ _ _ Hst) as Hren.
  pose proof (stored_checkpoint _ _ _ _ _ _ Hst) as Hck.
  assert (Htr : stored (set_journal (persist_consumer_state f s) []) stream consumer s [] s).
  { destruct Hck as [Hc _ _ Hw Hn _]. by apply (stored_truncated _ _ _ s s). }
  unfold compact_consumer_state. rewrite Hren. cbn [persist_consumer_state journal].
  destruct (journal f) as [bytes|]; [|done].
  destruct fault as [| | |[]| | |]; intros [= <- <-];
    (eexists _, _; split; [first [exact Htr|exact Hck|exact Hst]|split; [done|naive_solver]]).
Qed.

Lemma persist_appended f stream consumer base events s event s' :
  stored f stream consumer base events s -> apply_event s event = Ok s' ->
  vec_len (encode_journal events ++ encode_line event) <= MAX_CONSUMER_STATE_JOURNAL_BYTES ->
  stored (set_journal f (encode_journal events ++ encode_line event)) stream consumer base
    (events ++ [event]) s'.
Proof.
  intros [Hc Hj Hb Hw Hn Hr] He Hlen. split; try done.
  - cbn. by rewrite encode_journal_snoc.
  - by rewrite encode_journal_snoc.
  - rewrite replay_events_app, Hr. cbn. by rewrite He.
Qed.

(** The state a persist leaves behind, by its result. *)
Definition persist_outcome (stream consumer : string) (s s' : ConsumerState)
  (r : Result unit BrokerError) (f' : Files) : Prop :=
  match r with
  | Ok _ => load_consumer_state f' stream consumer = (Ok s', f')
  | Err e =>
    exists t f'', load_consumer_state f' stream consumer = (Ok t, f'') /\
      (exists base events, stored f'' stream consumer base events t) /\
      (t = s \/ t = s') /\ (error_outcome e = Retryable -> t = s)
  end.

Lemma persist_outcome_same f stream consumer base events s s' e :
  stored f stream consumer base events s -> persist_outcome stream consumer s s' (Err e) f.
Proof.
  intros Hst. exists s, f. split_and!; [by eapply load_stored|eauto|by left|done].
Qed.

Lemma map_failure_retryable stage kind batch :
  error_outcome (map_failure stage kind batch) = Retryable -> stage = BeforeAppend.
Proof. by destruct stage, batch. Qed.

(** The last two steps of a persist, once the journal has room for the line. *)
Lemma persist_write f stream consumer base events s event s' stage kind written :
  stored f stream consumer base events s -> apply_event s event = Ok s' ->
  vec_len (encode_journal events ++ encode_line event) <= MAX_CONSUMER_STATE_JOURNAL_BYTES ->
  stage <> BeforeAppend ->
  persist_outcome stream consumer s s' (Err (map_failure stage kind (is_batch_event event)))
    (set_journal f (encode_journal events ++ take written (encode_line event))).
Proof.
  intros Hst He Hlen Hstage. cbn.
  destruct (decide (written < length (encode_line event))%nat) as [Hlt|Hge].
  - destruct (load_torn f stream consumer base events s (take written (encode_line event)))
      as (f' & Hl & Hst'); [done|by exists event, written| |].
    + rewrite vec_len_app in *. unfold vec_len in *. rewrite length_take. lia.
    + exists s, f'. split_and!; [done|eauto|by left|done].
  - rewrite take_ge by lia. pose proof (persist_appended _ _ _ _ _ _ _ _ Hst He Hlen) as Hst'.
    exists s', (set_journal f (encode_journal events ++ encode_line event)).
    split_and!; [by eapply load_stored|eauto|by right|].
    by intros ?%map_failure_retryable.
Qed.

(** Making room: the files still hold the state, and on success the line fits. *)
Lemma make_room fault f stream consumer base events s event r f' :
  stored f stream consumer base events s ->
  vec_len (encode_line event) <= MAX_CONSUMER_STATE_JOURNAL_BYTES ->
  (if MAX_CONSUMER_STATE_JOURNAL_BYTES
        <? u64_saturating_add (vec_len (default [] (journal f))) (vec_len (encode_line event))
   then compact_consumer_state fault f stream consumer s (is_batch_event event)
   else (Ok tt, f)) = (r, f') ->
  exists base' events', stored f' stream consumer base' events' s /\
    (r = Ok tt ->
     vec_len (encode_journal events' ++ encode_line event) <= MAX_CONSUMER_STATE_JOURNAL_BYTES).
Proof.
  intros Hst Hlen. pose proof (st_journal _ _ _ _ _ _ Hst) as Hj.
  pose proof (st_bound _ _ _ _ _ _ Hst) as Hb. rewrite Hj.
  unfold u64_saturating_add. rewrite saturating_add_small
    by (unfold MAX_CONSUMER_STATE_JOURNAL_BYTES, u64_max in *; lia).
  destruct (N.ltb_spec MAX_CONSUMER_STATE_JOURNAL_BYTES
    (vec_len (encode_journal events) + vec_len (encode_line event))) as [Hlt|Hle].
  - intros Hc. assert (Hsome : journal f <> None).
    { intros Hnone. rewrite Hnone in Hj. cbn in Hj. rewrite <-Hj, vec_len_nil in Hlt. lia. }
    destruct (compact_stored _ _ _ _ _ _ _ _ _ _ Hst Hsome Hc)
      as (base' & events' & Hst' & Hnil & _).
    exists base', events'. split; [done|]. intros Hr. by rewrite (Hnil Hr).
  - intros [= <- <-]. exists base, events. split; [done|]. intros _. by rewrite vec_len_app.
Qed.

Lemma persist_consumer_event_outcome fault f stream consumer base events s event s' r f' :
  stored f stream consumer base events s -> apply_event s event = Ok s' ->
  vec_len (encode_line event) <= MAX_CONSUMER_STATE_JOURNAL_BYTES ->
  persist_consumer_event fault f stream consumer s event = (r, f') ->
  persist_outcome stream consumer s s' r f'.
Proof.
  intros Hst He Hlen. unfold persist_consumer_event. fold (encode_line event).
  destruct (if _ <? _ then _ else _) as [r1 f1] eqn:Hroom.
  destruct (make_room _ _ _ _ _ _ _ _ _ _ Hst Hlen Hroom) as (base' & events' & Hst' & Hfit).
  assert (Hrest : forall e, r1 = Err e -> persist_outcome stream consumer s s' (Err e) f1).
  { intros e _. by eapply persist_outcome_same. }
  assert (Hwrite : forall stage kind written, r1 = Ok tt -> stage <> BeforeAppend ->
    persist_outcome stream consumer s s' (Err (map_failure stage kind (is_batch_event event)))
      (set_journal f1 (default [] (journal f1) ++ take written (encode_line event)))).
  { intros stage kind written Hr Hs. rewrite (st_journal _ _ _ _ _ _ Hst').
    eapply persist_write; eauto. }
  assert (Hdone : r1 = Ok tt -> persist_outcome stream consumer s s' (Ok tt)
    (set_journal f1 (default [] (journal f1) ++ encode_line event))).
  { intros Hr. rewrite (st_journal _ _ _ _ _ _ Hst'). cbn.
    eapply load_stored, persist_appended; eauto. }
  destruct r1 as [[]|e].
  - destruct fault; intros [= <- <-]; auto; try (by eapply persist_outcome_same).
    rewrite <-(firstn_all (encode_line event)). auto.
  - destruct fault; intros [= <- <-]; auto; by eapply persist_outcome_same.
Qed.
End persistence.

(** ** A codec that satisfies the laws
    (a brace, padding, the binary digits of a numbering, a brace) *)

Module ExampleCodec.

#[local] Instance policy_countable : Countable ConsumerPolicy.
Proof.
  refine (inj_countable'
    (fun p => (policy_version p, configured p, ack_timeout_ms p, max_delivery_attempts p, retry_delay_ms p))
    (fun '(v, c, t, m, r) => {| policy_version := v; configured := c; ack_timeout_ms := t;
       max_delivery_attempts := m; retry_delay_ms := r |}) _).
  by intros [].
Defined.

#[local] Instance RetrySchedule_eq_dec : EqDecision RetrySchedule.
Proof. solve_decision. Defined.
#[local] Instance DeliveryAttempt_eq_dec : EqDecision DeliveryAttempt.
Proof. solve_decision. Defined.
#[local] Instance RetryScheduleEvent_eq_dec : EqDecision RetryScheduleEvent.
Proof. solve_decision. Defined.
#[local] Instance ConsumerStateEvent_eq_dec : EqDecision ConsumerStateEvent.
Proof. solve_decision. Defined.
#[local] Instance ConsumerState_eq_dec : EqDecision ConsumerState.
Proof. solve_decision. Defined.

#[local] Instance retry_schedule_countable : Countable RetrySchedule.
Proof.
  refine (inj_countable' (fun r => (retry_not_before_ms r, rs_key r))
    (fun '(t, k) => {| retry_not_before_ms := t; rs_key := k |}) _).
  by intros [].
Defined.

#[local] Instance delivery_attempt_countable : Countable DeliveryAttempt.
Proof.
  refine (inj_countable' (fun d => (da_offset d, da_attempt d, da_policy d))
    (fun '(o, a, p) => {| da_offset := o; da_attempt := a; da_policy := p |}) _).
  by intros [].
Defined.

#[local] Instance retry_schedule_event_countable : Countable RetryScheduleEvent.
Proof.
  refine (inj_countable' (fun r => (rse_offset r, rse_retry_not_before_ms r, rse_key r))
    (fun '(o, t, k) => {| rse_offset := o; rse_retry_not_before_ms := t; rse_key := k |}) _).
  by intros [].
Defined.

#[local] Instance event_countable : Countable ConsumerStateEvent.
Proof.
  refine (inj_countable'
    (fun e => match e with
     | EvDeliveryAttempt d => inl (inl (inl d)) | EvDeliveryAttempts ds => inl (inl (inr ds))
     | EvRetrySchedules rs => inl (inr rs) | EvAcknowledge o => inr (inl o)
     | EvAcknowledgeBatch os => inr (inr (inl os)) | EvPolicyConfigured p => inr (inr (inr p)) end)
    (fun x => match x with
     | inl (inl (inl d)) => EvDeliveryAttempt d | inl (inl (inr ds)) => EvDeliveryAttempts ds
     | inl (inr rs) => EvRetrySchedules rs | inr (inl o) => EvAcknowledge o
     | inr (inr (inl os)) => EvAcknowledgeBatch os | inr (inr (inr p)) => EvPolicyConfigured p end) _).
  by intros [].
Defined.

#[local] Instance state_countable : Countable ConsumerState.
Proof.
  refine (inj_countable'
    (fun s => (cs_stream s, cs_consumer s, committed_offset s, acknowledged_offsets s,
       delivery_attempts s, cs_policy s, delivery_policies s, retry_not_before s))
    (fun '(a, b, c, d, e, f, g, h) => {| cs_stream := a; cs_consumer := b; committed_offset := c;
       acknowledged_offsets := d; delivery_attempts := e; cs_policy := f; delivery_policies := g;
       retry_not_before := h |}) _).
  by intros [].
Defined.

Fixpoint pos_digits (p : positive) : list byte :=
  match p with
  | xH => []
  | xO p => Byte.x30 :: pos_digits p
  | xI p => Byte.x31 :: pos_digits p
  end.

Fixpoint parse_digits (l : list byte) : option positive :=
  match l with
  | Byte.x30 :: l => xO <$> parse_digits l
  | Byte.x31 :: l => xI <$> parse_digits l
  | Byte.x20 :: l => parse_digits l
  | [Byte.x7d] => Some xH
  | _ => None
  end.

Definition parse_value (l : list byte) : option positive :=
  match l with Byte.x7b :: l => parse_digits l | _ => None end.

Definition print_value (pad : nat) (p : positive) : list byte :=
  Byte.x7b :: (replicate pad Byte.x20 ++ pos_digits p) ++ [Byte.x7d].

Lemma parse_digits_print pad p :
  parse_digits ((replicate pad Byte.x20 ++ pos_digits p) ++ [Byte.x7d]) = Some p.
Proof.
  induction pad as [|pad IH]; [|done].
  cbn [replicate app]. induction p as [p IH|p IH|]; cbn; [by rewrite IH..|done].
Qed.

Lemma parse_digits_open l : Byte.x7d ∉ l -> parse_digits l = None.
Proof.
  induction l as [|b l IH]; intros Hni; [done|].
  apply not_elem_of_cons in Hni as [Hb Hni]. specialize (IH Hni).
  destruct b; cbn; rewrite ?IH; done.
Qed.

Lemma digits_plain pad p b :
  b ∈ replicate pad Byte.x20 ++ pos_digits p -> b = Byte.x20 \/ b = Byte.x30 \/ b = Byte.x31.
Proof.
  intros [Hin|Hin]%elem_of_app; [left; by apply elem_of_replicate in Hin as [-> _]|right].
  induction p as [p IH|p IH|]; cbn in Hin; [..|by apply not_elem_of_nil in Hin];
    apply elem_of_cons in Hin as [->|Hin]; auto.
Qed.

(** [pad] blanks, as pretty printers insert, make the encodings arbitrarily long. *)
Definition codec (pad : nat) : ConsumerCodec := {|
  encode_event e := print_value pad (encode e);
  decode_event l := parse_value l ≫= decode;
  is_json_value l := bool_decide (is_Some (parse_value l));
  encode_state s := print_value pad (encode s);
  decode_state l := parse_value (take (length l - 1) l) ≫= decode;
|}.

Lemma parse_value_print pad p : parse_value (print_value pad p) = Some p.
Proof. apply parse_digits_print. Qed.

Lemma codec_laws pad : ConsumerCodecLaws (codec pad).
Proof.
  split; cbn [codec encode_event decode_event is_json_value encode_state decode_state].
  - intros e. rewrite parse_value_print. cbn. by rewrite decode_encode.
  - intros e [Heq|Hin]%elem_of_cons; [done|].
    apply elem_of_app in Hin as [Hin|Hin]; [|by apply list_elem_of_singleton in Hin].
    apply digits_plain in Hin as [?|[?|?]]; done.
  - intros e n Hn. apply bool_decide_eq_false_2. unfold print_value in *.
    destruct n as [|n]; [by intros []|]. cbn [length firstn parse_value] in *.
    rewrite length_app in Hn. simpl in Hn.
    rewrite take_app_le by lia. rewrite parse_digits_open; [by intros []|].
    intros Hin. set (l := replicate pad Byte.x20 ++ pos_digits (encode e)) in *.
    assert (Hl : Byte.x7d ∈ l) by (rewrite <-(take_drop n l); set_solver).
    apply digits_plain in Hl as [?|[?|?]]; done.
  - intros s. rewrite length_app. cbn [length]. rewrite Nat.add_sub, take_app_length.
    rewrite parse_value_print. cbn. by rewrite decode_encode.
Qed.

Lemma codec_event_len pad e : (pad <= length (@encode_event (codec pad) e))%nat.
Proof.
  cbn [codec encode_event]. unfold print_value. cbn [length].
  rewrite !length_app, length_replicate. lia.
Qed.
End ExampleCodec.

(** ** What consumer progress guarantees *)

Definition example_attempt (offset : Offset) : DeliveryAttempt :=
  {| da_offset := offset; da_attempt := 1; da_policy := policy_legacy 30000 None |}.

Definition example_events : list ConsumerStateEvent :=
  [EvDeliveryAttempts [example_attempt 0; example_attempt 1];
   EvRetrySchedules [{| rse_offset := 1; rse_retry_not_before_ms := 50; rse_key := Some "k" |}];
   EvAcknowledge 0; EvDeliveryAttempt {| da_offset := 1; da_attempt := 2;
                                         da_policy := policy_legacy 30000 None |}].

Definition example_state : ConsumerState :=
  Eval vm_compute in
    match replay_events (consumer_initial "orders" "billing") example_events with
    | Ok s => s
    | Err _ => consumer_initial "orders" "billing"
    end.

Lemma example_state_eq :
  replay_events (consumer_initial "orders" "billing") example_events = Ok example_state.
Proof. vm_compute. reflexivity. Qed.

Lemma example_state_wf : consumer_wf example_state.
Proof. eapply replay_events_wf; [apply consumer_initial_wf|apply example_state_eq]. Qed.

Lemma ops_committed_mono s ops :
  Forall op_ok ops -> consumer_wf s -> committed_offset s <= committed_offset (foldl apply_op s ops).
Proof.
  intros Hok. revert s; induction Hok as [|op ops Hop Hok IH]; intros s Hwf; simpl; [lia|].
  etrans; [|apply IH; by apply apply_op_wf]. destruct op as [d|r|o|p]; cbn.
  - unfold apply_delivery_attempt. destruct (negb _ && _); cbn; lia.
  - unfold apply_retry_schedule. destruct (_ || _ || _); cbn; lia.
  - apply (ak_committed _ _ _ (acknowledge_spec s o Hwf)).
  - lia.
Qed.

(** C34: Every event keeps the consumer state consistent and never takes
    progress back: the invariant holds again (so the consistency check at load
    accepts the state), the committed offset does not decrease, and an offset
    that was acknowledged stays acknowledged. *)
Theorem event_keeps_state_consistent s event s' :
  consumer_wf s -> apply_event s event = Ok s' ->
  consumer_wf s' /\ consumer_validate s' = Ok tt /\
  committed_offset s <= committed_offset s' /\
  (forall o, is_done s o = true -> is_done s' o = true).
Proof.
  intros Hwf He. pose proof (apply_event_wf _ _ _ Hwf He) as Hwf'.
  apply apply_event_spec in He as [Hok ->]. split_and!; [done|by apply wf_validate| |].
  - by apply ops_committed_mono.
  - intros o Ho. by rewrite ops_done, Ho.
Qed.

Lemma event_keeps_state_consistent_witness :
  consumer_wf (acknowledge example_state 1) /\
  consumer_validate (acknowledge example_state 1) = Ok tt /\
  committed_offset example_state <= committed_offset (acknowledge example_state 1) /\
  (forall o, is_done example_state o = true -> is_done (acknowledge example_state 1) o = true).
Proof.
  apply (event_keeps_state_consistent example_state (EvAcknowledge 1)); [apply example_state_wf|].
  reflexivity.
Defined.

(**  An acknowledgement marks exactly its offset as done, in whatever order
    acknowledgements arrive: the offset and nothing else joins the done ones,
    its delivery state is dropped, other offsets keep theirs, and the committed
    offset of the result is the first offset that is not done. *)
Theorem acknowledge_marks_exactly s offset :
  consumer_wf s ->
  let s' := acknowledge s offset in
  (forall o, is_done s' o = is_done s o || (o =? offset)) /\
  (forall o, is_done s' o = true -> view s' o = (None, None, None)) /\
  (forall o, is_done s' o = false -> view s' o = view s o) /\
  is_done s' (committed_offset s') = false /\
  (forall o, o < committed_offset s' -> is_done s' o = true).
Proof.
  intros Hwf. cbv zeta. pose proof (acknowledge_wf s offset Hwf) as Hwf'.
  destruct (acknowledge_spec s offset Hwf) as [Hd Ha Hp Hr Hk _ _ _ _]. split_and!.
  - done.
  - intros o Ho. unfold view. by destruct (wf_done_None _ o Hwf' Ho) as (-> & -> & ->).
  - intros o Ho. unfold view. rewrite Hd in Ho. by rewrite Ha, Hp, Hr, Ho.
  - apply is_done_false. split; [lia|]. intros Hin%Hk. lia.
  - intros o Ho. apply is_done_spec. by left.
Qed.

Lemma acknowledge_marks_exactly_witness :
  (forall o, is_done (acknowledge example_state 1) o = is_done example_state o || (o =? 1)) /\
  (forall o, is_done (acknowledge example_state 1) o = true ->
     view (acknowledge example_state 1) o = (None, None, None)) /\
  (forall o, is_done (acknowledge example_state 1) o = false ->
     view (acknowledge example_state 1) o = view example_state o) /\
  is_done (acknowledge example_state 1) (committed_offset (acknowledge example_state 1)) = false /\
  (forall o, o < committed_offset (acknowledge example_state 1) ->
     is_done (acknowledge example_state 1) o = true).
Proof. apply acknowledge_marks_exactly. apply example_state_wf. Defined.

(**  Replaying a journal over the checkpoint that already contains its
    events changes nothing, so a process that stops between publishing a
    checkpoint and truncating the journal recovers the same state. *)
Theorem journal_replay_idempotent s events s' :
  consumer_wf s -> replay_events s events = Ok s' -> replay_events s' events = Ok s'.
Proof. apply replay_events_idempotent. Qed.

Lemma journal_replay_idempotent_witness : replay_events example_state example_events = Ok example_state.
Proof.
  apply (journal_replay_idempotent (consumer_initial "orders" "billing")).
  - apply consumer_initial_wf.
  - apply example_state_eq.
Defined.

(**  A delivery keeps the policy it was first delivered under: whatever event
    follows, as long as the offset is not acknowledged, the policy in force for
    it is the pinned one, and looking it up never fails. *)
Theorem delivery_policy_pinned s event s' offset policy legacy_policy :
  consumer_wf s -> apply_event s event = Ok s' ->
  delivery_policies s !! offset = Some policy -> is_done s' offset = false ->
  policy_for_offset s' offset legacy_policy = Ok policy.
Proof.
  intros Hwf [Hok ->]%apply_event_spec Hp Hd. unfold policy_for_offset.
  pose proof (ops_view _ _ _ Hok Hwf Hd) as Hv.
  pose proof (views_policy_mono offset (view s offset) (event_ops event) policy Hp) as Hm.
  rewrite <-Hv in Hm. cbn in Hm. by rewrite Hm.
Qed.

Lemma delivery_policy_pinned_witness :
  policy_for_offset (set_policy example_state (Some (policy_configured 1 1000 (Some 3) 0))) 1
    (policy_legacy 5 None) = Ok (policy_legacy 30000 None).
Proof.
  apply (delivery_policy_pinned example_state
    (EvPolicyConfigured (policy_configured 1 1000 (Some 3) 0))).
  - apply example_state_wf.
  - reflexivity.
  - reflexivity.
  - reflexivity.
Defined.

(** C33: Persisting an event, whose line fits the bound of the journal, is atomic,
    whatever I/O step fails (the metadata read, the checkpoint, the truncation, the
    open, a short write at any length,
    the sync) and with or without compaction. On success the files load to the
    state after the event. On failure they load to the state before or after
    it, nothing in between; and when the reported error invites a retry
    ([error_outcome] is [Retryable]) the event has not been applied. *)
Theorem persist_consumer_event_atomic `{HC : ConsumerCodec} `{HL : !ConsumerCodecLaws HC}
  fault f stream consumer base events s event s' r f' :
  stored f stream consumer base events s -> apply_event s event = Ok s' ->
  vec_len (encode_line event) <= MAX_CONSUMER_STATE_JOURNAL_BYTES ->
  persist_consumer_event fault f stream consumer s event = (r, f') ->
  match r with
  | Ok _ => load_consumer_state f' stream consumer = (Ok s', f')
  | Err e =>
    exists t f'', load_consumer_state f' stream consumer = (Ok t, f'') /\
      (exists base events, stored f'' stream consumer base events t) /\
      (t = s \/ t = s') /\ (error_outcome e = Retryable -> t = s)
  end.
Proof. apply persist_consumer_event_outcome. Qed.

Lemma persist_consumer_event_atomic_witness :
  let event := EvDeliveryAttempts [example_attempt 0] in
  let s := consumer_initial "orders" "billing" in
  let s' := apply_delivery_attempt s (example_attempt 0) in
  exists f', @persist_consumer_event (ExampleCodec.codec 0) (FaultAppend 5 OtherIo)
      {| checkpoint := None; journal := None |} "orders" "billing" s event
      = (Err (ConsumerStatePersistence Append "i/o error"), f') /\
    exists t f'', @load_consumer_state (ExampleCodec.codec 0) f' "orders" "billing" = (Ok t, f'') /\
      (exists base events, @stored (ExampleCodec.codec 0) f'' "orders" "billing" base events t) /\
      (t = s \/ t = s') /\
      (error_outcome (ConsumerStatePersistence Append "i/o error") = Retryable -> t = s).
Proof.
  cbv zeta. eexists. split; [vm_compute; reflexivity|].
  apply (@persist_consumer_event_atomic (ExampleCodec.codec 0) (ExampleCodec.codec_laws 0)
    (FaultAppend 5 OtherIo) {| checkpoint := None; journal := None |} "orders" "billing"
    (consumer_initial "orders" "billing") [] (consumer_initial "orders" "billing")
    (EvDeliveryAttempts [example_attempt 0])
    (apply_delivery_attempt (consumer_initial "orders" "billing") (example_attempt 0))
    (Err (ConsumerStatePersistence Append "i/o error"))).
  - split; try done. apply consumer_initial_wf.
  - reflexivity.
  - vm_compute. discriminate.
  - vm_compute. reflexivity.
Defined.

(**  An event larger than the journal bound is accepted and makes the
    consumer unloadable: the persist compacts, appends it and reports success,
    after which loading refuses the journal as larger than its bound. *)
Theorem oversized_event_accepted_then_refused `{HC : ConsumerCodec} f stream consumer s event :
  (exists bytes, journal f = Some bytes) ->
  MAX_CONSUMER_STATE_JOURNAL_BYTES < vec_len (encode_line event) ->
  (forall t, decode_state (encode_state t ++ [newline]) = Some t) ->
  exists f', persist_consumer_event NoFault f stream consumer s event = (Ok tt, f') /\
    (load_consumer_state f' stream consumer).1 =
      Err (Io InvalidData "consumer state journal exceeds its configured bound").
Proof.
  intros [bytes Hj] Hlen Hdec. unfold persist_consumer_event. fold (encode_line event).
  rewrite Hj. unfold u64_saturating_add, saturating_add. cbn [default from_option id].
  rewrite (proj2 (N.ltb_lt _ _))
    by (unfold MAX_CONSUMER_STATE_JOURNAL_BYTES, u64_max, usize_max in *; lia).
  unfold compact_consumer_state. cbn [persist_consumer_state journal]. rewrite Hj.
  eexists. split; [reflexivity|]. cbn [set_journal journal checkpoint default from_option id app].
  unfold load_consumer_state, load_checkpoint. cbn [persist_consumer_state set_journal checkpoint].
  rewrite Hdec.
  unfold replay_consumer_state_journal. cbn [set_journal journal].
  by rewrite (proj2 (N.ltb_lt _ _)) by done.
Qed.

Lemma oversized_event_accepted_then_refused_witness :
  let pad := N.to_nat (MAX_CONSUMER_STATE_JOURNAL_BYTES + 1) in
  exists f', @persist_consumer_event (ExampleCodec.codec pad) NoFault
      {| checkpoint := None; journal := Some [] |} "orders" "billing"
      (consumer_initial "orders" "billing") (EvAcknowledge 0) = (Ok tt, f') /\
    (@load_consumer_state (ExampleCodec.codec pad) f' "orders" "billing").1 =
      Err (Io InvalidData "consumer state journal exceeds its configured bound").
Proof.
  cbv zeta. apply oversized_event_accepted_then_refused.
  - by exists [].
  - pose proof (ExampleCodec.codec_event_len (N.to_nat (MAX_CONSUMER_STATE_JOURNAL_BYTES + 1))
      (EvAcknowledge 0)) as Hl.
    unfold vec_len, encode_line. rewrite length_app. lia.
  - intros t. apply (@decode_encode_state _ (ExampleCodec.codec_laws _)).
Defined.
