(* ===== verification/DeliveryState.v ===== *)
(** In-flight deliveries: crates/runnel-core/src/delivery_state.rs.

    [in_flight] is the primary map; the deadline index and the per-consumer
    index mirror it. An [Instant] is a natural number. Where the source iterates
    over a [HashMap], the iteration order is an argument ([pick]) or the order of
    [map_to_list]; the theorems do not depend on it. *)

From S2P Require Import Prelude Engine Names StreamLog ConsumerState.

Local Open Scope N_scope.

Definition MAX_CACHED_CONSUMER_STATES : nat := 1024.

(** Consumer and offset. *)
Abbreviation DeliveryKey := (string * Offset)%type.

Record InFlight := {
  if_member : string;
  if_offset : Offset;
  if_key : option string;
  if_delivery_attempt : N;
  if_delivery_token : string;
  if_requires_receipt : bool;
  if_deadline : N;
}.

Record ConsumerInFlightIndex := {
  ix_offsets : gset Offset;
  ix_keys : gset string;
  ix_members : gmap string (gset Offset);
}.

Definition index_default : ConsumerInFlightIndex :=
  {| ix_offsets := ∅; ix_keys := ∅; ix_members := ∅ |}.

Record DeliveryState := {
  consumer_states : gmap string ConsumerState;
  in_flight : gmap DeliveryKey InFlight;
  in_flight_deadlines : gmap N (list DeliveryKey);
  in_flight_by_consumer : gmap string ConsumerInFlightIndex;
  consumers_needing_reconcile : gset string;
}.

Definition delivery_new : DeliveryState :=
  {| consumer_states := ∅; in_flight := ∅; in_flight_deadlines := ∅; in_flight_by_consumer := ∅;
     consumers_needing_reconcile := ∅ |}.

Definition set_consumer_states (d : DeliveryState) (states : gmap string ConsumerState) :
  DeliveryState :=
  {| consumer_states := states; in_flight := in_flight d;
     in_flight_deadlines := in_flight_deadlines d; in_flight_by_consumer := in_flight_by_consumer d;
     consumers_needing_reconcile := consumers_needing_reconcile d |}.

Definition set_needing_reconcile (d : DeliveryState) (consumers : gset string) : DeliveryState :=
  {| consumer_states := consumer_states d; in_flight := in_flight d;
     in_flight_deadlines := in_flight_deadlines d; in_flight_by_consumer := in_flight_by_consumer d;
     consumers_needing_reconcile := consumers |}.

(** ** Queries *)

(** [in_flight_deadlines.range(..=now)] in deadline order, flattened. *)
Definition due_keys (d : DeliveryState) (now : N) : list DeliveryKey :=
  mjoin (snd <$> filter (fun entry => entry.1 <= now) (btree_items (in_flight_deadlines d))).

Definition expired_deliveries (d : DeliveryState) (consumer : string) (now : N) : list InFlight :=
  filter (fun delivery => if_deadline delivery <= now)
    (omap (fun key => in_flight d !! key)
       (filter (fun key => key.1 = consumer) (due_keys d now))).

(** The offsets of a [BTreeSet] in ascending order. *)
Definition btree_set (s : gset Offset) : list Offset := btree_keys (gset_to_gmap tt s).

Definition member_offsets (d : DeliveryState) (consumer member : string) : option (gset Offset) :=
  match in_flight_by_consumer d !! consumer with
  | Some index => ix_members index !! member
  | None => None
  end.

Definition get_in_flight (d : DeliveryState) (consumer : string) (offset : Offset) : option InFlight :=
  in_flight d !! (consumer, offset).

Definition member_delivery (d : DeliveryState) (consumer member : string) :
  Result (option InFlight) BrokerError :=
  match member_offsets d consumer member with
  | None => Ok None
  | Some offsets =>
    match head (btree_set offsets) with
    | None => Ok None
    | Some offset =>
      match get_in_flight d consumer offset with
      | Some delivery => Ok (Some delivery)
      | None => Err (CorruptRecord offset)
      end
    end
  end.

(** [collect] into a [Result] stops at the first error. *)
Fixpoint collect_deliveries (d : DeliveryState) (consumer : string) (offsets : list Offset) :
  Result (list InFlight) BrokerError :=
  match offsets with
  | [] => Ok []
  | offset :: offsets =>
    match get_in_flight d consumer offset with
    | None => Err (CorruptRecord offset)
    | Some delivery =>
      let? deliveries := collect_deliveries d consumer offsets in Ok (delivery :: deliveries)
    end
  end.

Definition member_deliveries (d : DeliveryState) (consumer member : string) :
  Result (list InFlight) BrokerError :=
  match member_offsets d consumer member with
  | None => Ok []
  | Some offsets => collect_deliveries d consumer (btree_set offsets)
  end.

Definition list_min (l : list N) : option N :=
  match l with [] => None | x :: l => Some (foldl N.min x l) end.

Definition next_deadline_for_consumer (d : DeliveryState) (consumer : string) : option N :=
  list_min (if_deadline ∘ snd <$>
    filter (fun entry => entry.1.1 = consumer) (map_to_list (in_flight d))).

Definition in_flight_filter (d : DeliveryState) (consumer : string) : option Filter :=
  (fun index => (ix_offsets index, ix_keys index)) <$> in_flight_by_consumer d !! consumer.

Definition in_flight_filter_excluding (d : DeliveryState) (consumer : string)
  (excluded_offsets : gset Offset) : Filter :=
  if bool_decide (excluded_offsets = ∅) then default (∅, ∅) (in_flight_filter d consumer)
  else
    foldl (fun '(offsets, keys) '(delivery_key, delivery) =>
      if bool_decide (delivery_key.1 <> consumer)
         || bool_decide (if_offset delivery ∈ excluded_offsets) then (offsets, keys)
      else ({[if_offset delivery]} ∪ offsets,
            match if_key delivery with Some key => {[key]} ∪ keys | None => keys end))
      (∅, ∅) (map_to_list (in_flight d)).

Definition in_flight_count (d : DeliveryState) : N := N.of_nat (size (in_flight d)).

(** ** Updates *)

Definition add_to_index (index : ConsumerInFlightIndex) (delivery : InFlight) :
  ConsumerInFlightIndex :=
  {| ix_offsets := {[if_offset delivery]} ∪ ix_offsets index;
     ix_keys := match if_key delivery with Some key => {[key]} ∪ ix_keys index | None => ix_keys index end;
     ix_members :=
       <[if_member delivery :=
           {[if_offset delivery]} ∪ default ∅ (ix_members index !! if_member delivery)]>
         (ix_members index) |}.

Definition delivery_insert (d : DeliveryState) (consumer : string) (delivery : InFlight) :
  DeliveryState :=
  let delivery_key := (consumer, if_offset delivery) in
  {| consumer_states := consumer_states d;
     in_flight := <[delivery_key := delivery]> (in_flight d);
     in_flight_deadlines :=
       <[if_deadline delivery :=
           default [] (in_flight_deadlines d !! if_deadline delivery) ++ [delivery_key]]>
         (in_flight_deadlines d);
     in_flight_by_consumer :=
       <[consumer :=
           add_to_index (default index_default (in_flight_by_consumer d !! consumer)) delivery]>
         (in_flight_by_consumer d);
     consumers_needing_reconcile := consumers_needing_reconcile d |}.

(** [Vec::swap_remove]: the last element takes the place of the removed one. *)
Definition swap_remove {A} (i : nat) (l : list A) : list A :=
  match last l with
  | Some x => if decide (S i = length l) then take i l else <[i := x]> (take (length l - 1) l)
  | None => l
  end.

Definition remove_deadline (deadlines : gmap N (list DeliveryKey)) (deadline : N)
  (delivery_key : DeliveryKey) : gmap N (list DeliveryKey) :=
  match deadlines !! deadline with
  | None => deadlines
  | Some deliveries =>
    let deliveries :=
      match list_find (fun key => key = delivery_key) deliveries with
      | Some (index, _) => swap_remove index deliveries
      | None => deliveries
      end in
    if bool_decide (deliveries = []) then delete deadline deadlines
    else <[deadline := deliveries]> deadlines
  end.

Definition remove_from_index (index : ConsumerInFlightIndex) (offset : Offset) (delivery : InFlight) :
  ConsumerInFlightIndex :=
  {| ix_offsets := ix_offsets index ∖ {[offset]};
     ix_keys := match if_key delivery with Some key => ix_keys index ∖ {[key]} | None => ix_keys index end;
     ix_members :=
       match ix_members index !! if_member delivery with
       | None => ix_members index
       | Some offsets =>
         let offsets := offsets ∖ {[offset]} in
         if bool_decide (offsets = ∅) then delete (if_member delivery) (ix_members index)
         else <[if_member delivery := offsets]> (ix_members index)
       end |}.

Definition remove_in_flight (d : DeliveryState) (delivery_key : DeliveryKey) :
  option InFlight * DeliveryState :=
  match in_flight d !! delivery_key with
  | None => (None, d)
  | Some delivery =>
    (Some delivery,
     {| consumer_states := consumer_states d;
        in_flight := delete delivery_key (in_flight d);
        in_flight_deadlines :=
          remove_deadline (in_flight_deadlines d) (if_deadline delivery) delivery_key;
        in_flight_by_consumer :=
          match in_flight_by_consumer d !! delivery_key.1 with
          | None => in_flight_by_consumer d
          | Some index =>
            let index := remove_from_index index delivery_key.2 delivery in
            if bool_decide (ix_offsets index = ∅) then
              delete delivery_key.1 (in_flight_by_consumer d)
            else <[delivery_key.1 := index]> (in_flight_by_consumer d)
          end;
        consumers_needing_reconcile := consumers_needing_reconcile d |})
  end.

Definition delivery_remove (d : DeliveryState) (consumer : string) (offset : Offset) :
  option InFlight * DeliveryState :=
  remove_in_flight d (consumer, offset).

(** ** The state cache *)

(** The order in which a [HashMap] of states yields its keys. *)
Definition KeyOrder : Type := gmap string ConsumerState -> list string.

Definition lists_keys (pick : KeyOrder) : Prop :=
  forall states, pick states ≡ₚ (map_to_list states).*1.

Definition active_consumers (d : DeliveryState) : gset string :=
  list_to_set ((fun entry => entry.1.1) <$> map_to_list (in_flight d)).

(** The eviction loop; each round removes an entry. *)
Fixpoint evict (fuel : nat) (pick : KeyOrder) (active : gset string)
  (states : gmap string ConsumerState) : gmap string ConsumerState :=
  match fuel with
  | O => states
  | S fuel =>
    if decide (MAX_CACHED_CONSUMER_STATES < size states)%nat then
      let keys := pick states in
      match (match List.find (fun consumer => negb (bool_decide (consumer ∈ active))) keys with
             | Some consumer => Some consumer
             | None => head keys
             end) with
      | None => states
      | Some evicted => evict fuel pick active (delete evicted states)
      end
    else states
  end.

Definition cache_consumer_state (pick : KeyOrder) (d : DeliveryState) (consumer : string)
  (state : ConsumerState) : DeliveryState :=
  let states := <[consumer := state]> (consumer_states d) in
  set_consumer_states d (evict (size states) pick (active_consumers d) states).

Definition mark_consumer_needs_reconcile (d : DeliveryState) (consumer : string) : DeliveryState :=
  set_consumer_states (set_needing_reconcile d ({[consumer]} ∪ consumers_needing_reconcile d))
    (delete consumer (consumer_states d)).

(** The in-flight offsets of a consumer that its recovered state has already
    acknowledged. *)
Definition stale_offsets (d : DeliveryState) (consumer : string) (recovered : ConsumerState) :
  list Offset :=
  (fun entry => entry.1.2) <$>
    filter (fun entry => entry.1.1 = consumer /\
              (entry.1.2 < committed_offset recovered
               \/ entry.1.2 ∈ acknowledged_offsets recovered))
      (map_to_list (in_flight d)).

Definition remove_all (d : DeliveryState) (consumer : string) (offsets : list Offset) : DeliveryState :=
  foldl (fun d offset => (delivery_remove d consumer offset).2) d offsets.

(** [sync] is the outcome of syncing the recovered journal. *)
Definition load_consumer_state_for_request `{ConsumerCodec} (pick : KeyOrder)
  (sync : option IoErrorKind) (d : DeliveryState) (f : Files) (stream consumer : string) :
  Result ConsumerState BrokerError * DeliveryState * Files :=
  if bool_decide (consumer ∈ consumers_needing_reconcile d) then
    match load_consumer_state f stream consumer with
    | (Err e, f) => (Err e, d, f)
    | (Ok recovered, f) =>
      match (match journal f with Some _ => sync | None => None end) with
      | Some kind => (Err (Io kind "sync failed"), d, f)
      | None =>
        let d := remove_all d consumer (stale_offsets d consumer recovered) in
        let d := set_needing_reconcile d (consumers_needing_reconcile d ∖ {[consumer]}) in
        (Ok recovered, cache_consumer_state pick d consumer recovered, f)
      end
    end
  else
    match consumer_states d !! consumer with
    | Some cached => (Ok cached, d, f)
    | None =>
      match load_consumer_state f stream consumer with
      | (r, f) => (r, d, f)
      end
    end.

(** ** Delivery tokens *)

Record DeliveryTokenGenerator := {
  epoch : N;
  next_id : N;
}.

(** [fetch_add(1)] wraps around at the end of [u64]. *)
Definition token_next (g : DeliveryTokenGenerator) : string * DeliveryTokenGenerator :=
  let next_id := u64_wrapping_add (next_id g) 1 in
  (hex (epoch g) +:+ "-" +:+ hex next_id, {| epoch := epoch g; next_id := next_id |}).

(** ** The indexes mirror the deliveries *)

Record delivery_wf (d : DeliveryState) : Prop := {
  dw_offset : forall c o i, in_flight d !! (c, o) = Some i -> if_offset i = o;
  dw_deadlines : forall t k,
    k ∈ default [] (in_flight_deadlines d !! t) <->
    exists i, in_flight d !! k = Some i /\ if_deadline i = t;
  dw_deadlines_nodup : forall t keys, in_flight_deadlines d !! t = Some keys -> NoDup keys /\ keys <> [];
  dw_index_offsets : forall c o,
    o ∈ ix_offsets (default index_default (in_flight_by_consumer d !! c)) <->
    is_Some (in_flight d !! (c, o));
  dw_index_keys : forall c k,
    k ∈ ix_keys (default index_default (in_flight_by_consumer d !! c)) <->
    exists o i, in_flight d !! (c, o) = Some i /\ if_key i = Some k;
  dw_index_members : forall c m o,
    o ∈ default ∅ (ix_members (default index_default (in_flight_by_consumer d !! c)) !! m) <->
    exists i, in_flight d !! (c, o) = Some i /\ if_member i = m;
  dw_members_nonempty : forall c index m s,
    in_flight_by_consumer d !! c = Some index -> ix_members index !! m = Some s -> s <> ∅;
  dw_index_nonempty : forall c index, in_flight_by_consumer d !! c = Some index -> ix_offsets index <> ∅;
  dw_distinct_keys : forall c o o' i i' k,
    in_flight d !! (c, o) = Some i -> in_flight d !! (c, o') = Some i' ->
    if_key i = Some k -> if_key i' = Some k -> o = o';
}.

Lemma delivery_new_wf : delivery_wf delivery_new.
Proof.
  split; cbn; intros *; rewrite ?lookup_empty; cbn; try done; set_solver.
Qed.

(** What [find_candidate] ensures before a record is delivered. *)
Definition deliverable (d : DeliveryState) (consumer : string) (delivery : InFlight) : Prop :=
  in_flight d !! (consumer, if_offset delivery) = None /\
  (forall key, if_key delivery = Some key ->
     key ∉ ix_keys (default index_default (in_flight_by_consumer d !! consumer))).

Definition index_of (d : DeliveryState) (c : string) : ConsumerInFlightIndex :=
  default index_default (in_flight_by_consumer d !! c).

Lemma index_of_insert d consumer delivery c :
  index_of (delivery_insert d consumer delivery) c =
  if decide (c = consumer) then add_to_index (index_of d consumer) delivery else index_of d c.
Proof.
  unfold index_of. cbn. case_decide as Hc; [subst; by rewrite lookup_insert_eq|].
  by rewrite lookup_insert_ne.
Qed.

Lemma in_flight_insert d consumer delivery c o :
  in_flight (delivery_insert d consumer delivery) !! (c, o) =
  if decide (c = consumer /\ o = if_offset delivery) then Some delivery
  else in_flight d !! (c, o).
Proof.
  cbn. case_decide as Hc; [destruct Hc; subst; by rewrite lookup_insert_eq|].
  rewrite lookup_insert_ne; [done|]. intros [= <- <-]. by apply Hc.
Qed.

Lemma insert_deadlines d consumer delivery t :
  default [] (in_flight_deadlines (delivery_insert d consumer delivery) !! t) =
  default [] (in_flight_deadlines d !! t)
    ++ (if decide (t = if_deadline delivery) then [(consumer, if_offset delivery)] else []).
Proof.
  cbn. case_decide as Ht; [subst; by rewrite lookup_insert_eq|].
  by rewrite lookup_insert_ne, app_nil_r.
Qed.

Section insert.
Context (d : DeliveryState) (consumer : string) (delivery : InFlight).
Context (Hwf : delivery_wf d) (Hnew : deliverable d consumer delivery).
Let d' := delivery_insert d consumer delivery.

Lemma insert_wf_deadlines t k :
  k ∈ default [] (in_flight_deadlines d' !! t) <->
  exists i, in_flight d' !! k = Some i /\ if_deadline i = t.
Proof.
  destruct Hnew as [Hnone _], k as [c o]. unfold d'.
  rewrite insert_deadlines, elem_of_app, (dw_deadlines d Hwf), in_flight_insert.
  destruct (decide (c = consumer /\ o = if_offset delivery)) as [[-> ->]|Hc];
    case_decide as Ht.
  - subst. rewrite list_elem_of_singleton. naive_solver.
  - rewrite Hnone. set_unfold. naive_solver.
  - rewrite list_elem_of_singleton. naive_solver.
  - set_unfold. naive_solver.
Qed.

Lemma insert_wf_nodup t keys :
  in_flight_deadlines d' !! t = Some keys -> NoDup keys /\ keys <> [].
Proof.
  destruct Hnew as [Hnone _]. cbn. destruct (decide (t = if_deadline delivery)) as [->|Hne].
  - rewrite lookup_insert_eq. intros [= <-]. split; [|by destruct (default [] _)].
    apply NoDup_app. split_and!.
    + destruct (in_flight_deadlines d !! if_deadline delivery) as [l|] eqn:E; [|constructor].
      by apply (dw_deadlines_nodup d Hwf) in E as [? _].
    + intros k Hk%(dw_deadlines d Hwf) Hin%list_elem_of_singleton. subst k. naive_solver.
    + apply NoDup_singleton.
  - rewrite lookup_insert_ne by done. apply (dw_deadlines_nodup d Hwf).
Qed.

Lemma insert_wf_offsets c o :
  o ∈ ix_offsets (index_of d' c) <-> is_Some (in_flight d' !! (c, o)).
Proof.
  unfold d'. rewrite index_of_insert, in_flight_insert. case_decide as Hc; [subst c; cbn|].
  - rewrite elem_of_union, elem_of_singleton. unfold index_of. rewrite (dw_index_offsets d Hwf).
    case_decide; naive_solver.
  - rewrite decide_False by naive_solver. apply (dw_index_offsets d Hwf).
Qed.

Lemma insert_wf_keys c k :
  k ∈ ix_keys (index_of d' c) <-> exists o i, in_flight d' !! (c, o) = Some i /\ if_key i = Some k.
Proof.
  destruct Hnew as [Hnone _]. unfold d'. setoid_rewrite in_flight_insert. rewrite index_of_insert.
  assert (Hold : k ∈ ix_keys (index_of d c) <->
    exists o i, in_flight d !! (c, o) = Some i /\ if_key i = Some k) by apply (dw_index_keys d Hwf).
  case_decide as Hc; [subst c|].
  - cbn. assert (Hcase : k ∈ (match if_key delivery with Some key => {[key]} ∪ ix_keys (index_of d consumer)
        | None => ix_keys (index_of d consumer) end) <->
      if_key delivery = Some k \/ k ∈ ix_keys (index_of d consumer)).
    { destruct (if_key delivery); set_unfold; naive_solver. }
    rewrite Hcase, Hold. split.
    + intros [Hk|(o & i & Hi & Hk)].
      * exists (if_offset delivery), delivery. by rewrite decide_True.
      * exists o, i. rewrite decide_False; [done|]. intros [_ ->]. congruence.
    + intros (o & i & Hi & Hk). case_decide; [left; congruence|right; eauto].
  - rewrite Hold. split; intros (o & i & Hi & Hk); exists o, i.
    + rewrite decide_False by naive_solver. done.
    + rewrite decide_False in Hi by naive_solver. done.
Qed.

Lemma insert_wf_members c m o :
  o ∈ default ∅ (ix_members (index_of d' c) !! m) <->
  exists i, in_flight d' !! (c, o) = Some i /\ if_member i = m.
Proof.
  destruct Hnew as [Hnone _]. unfold d'. rewrite index_of_insert, in_flight_insert.
  assert (Hold : forall m o, o ∈ default ∅ (ix_members (index_of d c) !! m) <->
    exists i, in_flight d !! (c, o) = Some i /\ if_member i = m)
    by (intros; apply (dw_index_members d Hwf)).
  case_decide as Hc; [subst c; cbn|rewrite decide_False by naive_solver; apply Hold].
  destruct (decide (m = if_member delivery)) as [->|Hne].
  - rewrite lookup_insert_eq. cbn. rewrite elem_of_union, elem_of_singleton, Hold.
    case_decide as Ho; [naive_solver|]. split; [|naive_solver]. intros [->|?]; [|done].
    by destruct Ho.
  - rewrite lookup_insert_ne, Hold by done. case_decide as Ho; [|done].
    destruct Ho as [_ ->]. rewrite Hnone. naive_solver.
Qed.

Lemma insert_wf_nonempty c index :
  in_flight_by_consumer d' !! c = Some index ->
  ix_offsets index <> ∅ /\ (forall m s, ix_members index !! m = Some s -> s <> ∅).
Proof.
  cbn. destruct (decide (c = consumer)) as [->|Hne].
  - rewrite lookup_insert_eq. intros [= <-]. split; [cbn; set_solver|]. intros m s. cbn.
    destruct (decide (m = if_member delivery)) as [->|Hm].
    + rewrite lookup_insert_eq. intros [= <-]. set_solver.
    + rewrite lookup_insert_ne by done.
      destruct (in_flight_by_consumer d !! consumer) as [ix|] eqn:E; cbn; [|by rewrite lookup_empty].
      by apply (dw_members_nonempty d Hwf consumer ix).
  - rewrite lookup_insert_ne by done. intros Hix. split.
    + by apply (dw_index_nonempty d Hwf c).
    + intros m s. by apply (dw_members_nonempty d Hwf c).
Qed.

Lemma insert_wf_distinct c o o' i i' k :
  in_flight d' !! (c, o) = Some i -> in_flight d' !! (c, o') = Some i' ->
  if_key i = Some k -> if_key i' = Some k -> o = o'.
Proof.
  destruct Hnew as [_ Hkey]. unfold d'. rewrite !in_flight_insert.
  assert (Hno : forall o i, in_flight d !! (consumer, o) = Some i -> if_key i = Some k ->
    if_key delivery = Some k -> False).
  { intros o1 i1 Ho1 Hk1 Hk. apply (Hkey k Hk). apply (dw_index_keys d Hwf). eauto. }
  repeat case_decide; intros Hi Hi' Hk Hk'; [naive_solver| | |].
  - exfalso. simplify_eq. destruct_and!. subst. by eapply (Hno o').
  - exfalso. simplify_eq. destruct_and!. subst. by eapply (Hno o).
  - by eapply (dw_distinct_keys d Hwf).
Qed.

Lemma delivery_insert_wf : delivery_wf d'.
Proof.
  split.
  - intros c o i. unfold d'. rewrite in_flight_insert. case_decide as Hc; [|apply (dw_offset d Hwf)].
    destruct Hc as [_ ->]. by intros [= <-].
  - apply insert_wf_deadlines.
  - apply insert_wf_nodup.
  - apply insert_wf_offsets.
  - apply insert_wf_keys.
  - apply insert_wf_members.
  - intros c index m s Hix. by apply (insert_wf_nonempty c index Hix).
  - intros c index Hix. by apply (insert_wf_nonempty c index Hix).
  - apply insert_wf_distinct.
Qed.
End insert.

Lemma swap_remove_Permutation {A} (l : list A) i x :
  l !! i = Some x -> x :: swap_remove i l ≡ₚ l.
Proof.
  intros Hi. apply list_elem_of_split_length in Hi as (l1 & l2 & -> & ->).
  unfold swap_remove. destruct l2 as [|y l2 _] using rev_ind.
  - rewrite last_snoc, length_app. cbn. rewrite decide_True by lia.
    rewrite take_app_length. by rewrite Permutation_cons_append.
  - replace (l1 ++ x :: l2 ++ [y]) with ((l1 ++ x :: l2) ++ [y]) by (by rewrite <-app_assoc).
    rewrite last_snoc, decide_False by (rewrite !length_app; cbn; lia).
    rewrite length_app. cbn. rewrite Nat.add_sub, take_app_length, insert_app_r_alt by lia.
    rewrite Nat.sub_diag. cbn. rewrite <-app_assoc. cbn.
    solve_Permutation.
Qed.

Lemma remove_deadline_lookup deadlines t k t' :
  (forall keys, deadlines !! t = Some keys -> NoDup keys) ->
  k ∈ default [] (deadlines !! t) ->
  (forall k', k' ∈ default [] (remove_deadline deadlines t k !! t') <->
     k' ∈ default [] (deadlines !! t') /\ ~ (t' = t /\ k' = k)) /\
  (forall keys, remove_deadline deadlines t k !! t' = Some keys ->
     (t' = t -> NoDup keys /\ keys <> []) /\ (t' <> t -> deadlines !! t' = Some keys)).
Proof.
  intros Hnd Hin. unfold remove_deadline.
  destruct (deadlines !! t) as [keys|] eqn:E; cbn in Hin; [|by apply not_elem_of_nil in Hin].
  specialize (Hnd keys eq_refl).
  destruct (list_find_elem_of (fun key => key = k) keys k Hin eq_refl) as [[j y] Hf].
  rewrite Hf. apply list_find_Some in Hf as (Hj & -> & _).
  pose proof (swap_remove_Permutation keys j k Hj) as Hperm.
  set (rest := swap_remove j keys) in *.
  assert (Hrest : NoDup rest /\ k ∉ rest).
  { rewrite <-Hperm in Hnd. by apply NoDup_cons in Hnd as [??]. }
  assert (Helem : forall k', k' ∈ keys <-> k' = k \/ k' ∈ rest).
  { intros k'. by rewrite <-Hperm, elem_of_cons. }
  destruct (decide (t' = t)) as [->|Hne].
  - rewrite E. cbn. case_bool_decide as Hnil.
    + rewrite lookup_delete_eq. rewrite Hnil in Helem, Hrest. cbn. split; [|done].
      intros k'. rewrite Helem. set_solver.
    + rewrite lookup_insert_eq. cbn. split; [|intros ? [= <-]; naive_solver].
      intros k'. rewrite Helem. naive_solver.
  - case_bool_decide; [rewrite lookup_delete_ne by done|rewrite lookup_insert_ne by done];
      (split; [naive_solver|]); naive_solver.
Qed.

Section remove.
Context (d : DeliveryState) (consumer : string) (offset : Offset) (delivery : InFlight).
Context (Hwf : delivery_wf d) (Hin : in_flight d !! (consumer, offset) = Some delivery).
Let d' := (remove_in_flight d (consumer, offset)).2.

Lemma in_flight_removed k :
  in_flight d' !! k = if decide (k = (consumer, offset)) then None else in_flight d !! k.
Proof.
  unfold d', remove_in_flight. rewrite Hin. cbn. case_decide as Hk.
  - subst. by rewrite lookup_delete_eq.
  - by rewrite lookup_delete_ne.
Qed.

(** The consumer's index exists while it has a delivery. *)
Lemma index_present : exists index, in_flight_by_consumer d !! consumer = Some index.
Proof.
  destruct (in_flight_by_consumer d !! consumer) as [index|] eqn:E; [eauto|].
  assert (Hno : offset ∈ ix_offsets (default index_default (in_flight_by_consumer d !! consumer)))
    by (apply (dw_index_offsets d Hwf); eauto).
  rewrite E in Hno. by apply elem_of_empty in Hno.
Qed.

Lemma index_removed c :
  index_of d' c =
  if decide (c = consumer) then
    if bool_decide (ix_offsets (remove_from_index (index_of d c) offset delivery) = ∅)
    then index_default
    else remove_from_index (index_of d c) offset delivery
  else index_of d c.
Proof.
  destruct index_present as [index Hix]. unfold d', remove_in_flight, index_of. rewrite Hin.
  cbn [in_flight_by_consumer fst snd]. rewrite Hix. case_decide as Hc.
  - subst c. rewrite Hix. cbn [default from_option id].
    case_bool_decide; [by rewrite lookup_delete_eq|by rewrite lookup_insert_eq].
  - case_bool_decide; [by rewrite lookup_delete_ne|by rewrite lookup_insert_ne].
Qed.

Let ix' := remove_from_index (index_of d consumer) offset delivery.

Lemma removed_offsets o :
  o ∈ ix_offsets ix' <-> is_Some (in_flight d' !! (consumer, o)).
Proof.
  rewrite in_flight_removed. cbn. rewrite elem_of_difference, elem_of_singleton.
  unfold index_of. rewrite (dw_index_offsets d Hwf).
  case_decide as Ho; [simplify_eq; naive_solver|]. split; [naive_solver|]. intros ?. split; [done|].
  intros ->. by apply Ho.
Qed.

Lemma removed_keys k :
  k ∈ ix_keys ix' <-> exists o i, in_flight d' !! (consumer, o) = Some i /\ if_key i = Some k.
Proof.
  setoid_rewrite in_flight_removed.
  assert (Hold : forall k, k ∈ ix_keys (index_of d consumer) <->
    exists o i, in_flight d !! (consumer, o) = Some i /\ if_key i = Some k)
    by (intros; apply (dw_index_keys d Hwf)).
  assert (Hcase : k ∈ ix_keys ix' <-> if_key delivery <> Some k /\ k ∈ ix_keys (index_of d consumer)).
  { unfold ix'. cbn. destruct (if_key delivery); set_unfold; naive_solver. }
  rewrite Hcase, Hold. split.
  - intros (Hne & o & i & Hi & Hk). exists o, i. rewrite decide_False; [done|].
    intros [= ->]. congruence.
  - intros (o & i & Hi & Hk). case_decide as Ho; [done|]. split; [|eauto].
    intros Hk'. apply Ho. f_equal. by eapply (dw_distinct_keys d Hwf).
Qed.

Lemma removed_members m o :
  o ∈ default ∅ (ix_members ix' !! m) <->
  exists i, in_flight d' !! (consumer, o) = Some i /\ if_member i = m.
Proof.
  rewrite in_flight_removed.
  assert (Hold : forall m o, o ∈ default ∅ (ix_members (index_of d consumer) !! m) <->
    exists i, in_flight d !! (consumer, o) = Some i /\ if_member i = m)
    by (intros; apply (dw_index_members d Hwf)).
  assert (Hcase : default ∅ (ix_members ix' !! m) =
    default ∅ (ix_members (index_of d consumer) !! m)
      ∖ (if decide (m = if_member delivery) then {[offset]} else ∅)).
  { unfold ix'. cbn. destruct (decide (m = if_member delivery)) as [->|Hm].
    - destruct (ix_members (index_of d consumer) !! if_member delivery) as [s|] eqn:E.
      + cbn. case_bool_decide as Hs; [rewrite lookup_delete_eq; cbn; by rewrite Hs|].
        by rewrite lookup_insert_eq.
      + rewrite E. cbn. set_solver.
    - rewrite difference_empty_L.
      destruct (ix_members (index_of d consumer) !! if_member delivery) as [s|] eqn:E; [|done].
      case_bool_decide; [by rewrite lookup_delete_ne|by rewrite lookup_insert_ne]. }
  rewrite Hcase, elem_of_difference, Hold. case_decide as Hm; case_decide as Ho.
  - simplify_eq. set_solver.
  - split; [naive_solver|]. intros ?. split; [done|]. rewrite elem_of_singleton.
    intros ->. by apply Ho.
  - simplify_eq. split; [|naive_solver]. intros [(i & Hi & <-) _]. congruence.
  - set_solver.
Qed.

Lemma removed_empty o : ix_offsets ix' = ∅ -> in_flight d' !! (consumer, o) = None.
Proof.
  intros Hempty. apply eq_None_not_Some. intros Ho%removed_offsets. set_solver.
Qed.

Lemma removed_members_nonempty m s : ix_members ix' !! m = Some s -> s <> ∅.
Proof.
  unfold ix'. cbn. destruct index_present as [index Hix]. unfold index_of. rewrite Hix. cbn.
  destruct (ix_members index !! if_member delivery) as [s'|] eqn:E;
    [|by apply (dw_members_nonempty d Hwf consumer)].
  destruct (decide (m = if_member delivery)) as [->|Hm].
  - case_bool_decide as Hs; [by rewrite lookup_delete_eq|]. rewrite lookup_insert_eq.
    by intros [= <-].
  - case_bool_decide; [rewrite lookup_delete_ne by done|rewrite lookup_insert_ne by done];
      by apply (dw_members_nonempty d Hwf consumer).
Qed.

Lemma in_flight_removed_other c o : c <> consumer -> in_flight d' !! (c, o) = in_flight d !! (c, o).
Proof. intros Hc. rewrite in_flight_removed, decide_False; [done|]. congruence. Qed.

Lemma removed_deadlines t :
  (forall k, k ∈ default [] (in_flight_deadlines d' !! t) <->
     exists i, in_flight d' !! k = Some i /\ if_deadline i = t) /\
  (forall keys, in_flight_deadlines d' !! t = Some keys -> NoDup keys /\ keys <> []).
Proof.
  assert (Hk : (consumer, offset) ∈ default [] (in_flight_deadlines d !! if_deadline delivery))
    by (apply (dw_deadlines d Hwf); eauto).
  destruct (remove_deadline_lookup (in_flight_deadlines d) (if_deadline delivery) (consumer, offset) t)
    as [Hmem Hlk]; [|done|].
  { intros keys Hkeys. by apply (dw_deadlines_nodup d Hwf) in Hkeys as [? _]. }
  assert (Hd' : in_flight_deadlines d' =
    remove_deadline (in_flight_deadlines d) (if_deadline delivery) (consumer, offset))
    by (unfold d', remove_in_flight; by rewrite Hin).
  rewrite Hd'. split.
  - intros k. rewrite Hmem, (dw_deadlines d Hwf), in_flight_removed.
    case_decide as Hkk; [|naive_solver]. subst k. rewrite Hin. naive_solver.
  - intros keys [Heq Hne]%Hlk. destruct (decide (t = if_deadline delivery)); [auto|].
    apply (dw_deadlines_nodup d Hwf t). auto.
Qed.

(** The index of a consumer after the removal, whether or not it is dropped. *)
Lemma index_removed_fields c :
  (forall o, o ∈ ix_offsets (index_of d' c) <-> is_Some (in_flight d' !! (c, o))) /\
  (forall k, k ∈ ix_keys (index_of d' c) <->
     exists o i, in_flight d' !! (c, o) = Some i /\ if_key i = Some k) /\
  (forall m o, o ∈ default ∅ (ix_members (index_of d' c) !! m) <->
     exists i, in_flight d' !! (c, o) = Some i /\ if_member i = m).
Proof.
  rewrite index_removed. case_decide as Hc; [subst c|].
  - fold ix'. case_bool_decide as Hempty.
    + pose proof (fun o => removed_empty o Hempty) as Hnone. cbn.
      split_and!; intros *; setoid_rewrite Hnone; rewrite ?lookup_empty; cbn; set_solver.
    + split_and!; [apply removed_offsets|apply removed_keys|apply removed_members].
  - setoid_rewrite in_flight_removed_other; [|done..]. unfold index_of. split_and!.
    + apply (dw_index_offsets d Hwf).
    + apply (dw_index_keys d Hwf).
    + apply (dw_index_members d Hwf).
Qed.

Lemma removed_nonempty c index :
  in_flight_by_consumer d' !! c = Some index ->
  ix_offsets index <> ∅ /\ (forall m s, ix_members index !! m = Some s -> s <> ∅).
Proof.
  destruct index_present as [ix Hix]. unfold d', remove_in_flight. rewrite Hin.
  cbn [snd in_flight_by_consumer fst]. rewrite Hix.
  pose proof removed_members_nonempty as Hm. unfold ix', index_of in Hm. rewrite Hix in Hm.
  destruct (decide (c = consumer)) as [->|Hne].
  - case_bool_decide as Hempty; [by rewrite lookup_delete_eq|]. rewrite lookup_insert_eq.
    intros [= <-]. split; [done|]. exact Hm.
  - assert (Hold : in_flight_by_consumer d !! c = Some index ->
      ix_offsets index <> ∅ /\ (forall m s, ix_members index !! m = Some s -> s <> ∅)).
    { intros Hi. split; [by apply (dw_index_nonempty d Hwf c)|].
      intros m s. by apply (dw_members_nonempty d Hwf c). }
    case_bool_decide; [by rewrite lookup_delete_ne|by rewrite lookup_insert_ne].
Qed.

Lemma remove_present_wf : delivery_wf d'.
Proof.
  split.
  - intros c o i. rewrite in_flight_removed. case_decide; [done|]. apply (dw_offset d Hwf).
  - intros t k. apply removed_deadlines.
  - intros t. apply removed_deadlines.
  - intros c. apply index_removed_fields.
  - intros c. apply index_removed_fields.
  - intros c. apply index_removed_fields.
  - intros c index m s Hix. by apply (removed_nonempty c index Hix).
  - intros c index Hix. by apply (removed_nonempty c index Hix).
  - intros c o o' i i' k. rewrite !in_flight_removed.
    repeat case_decide; try done. apply (dw_distinct_keys d Hwf).
Qed.
End remove.

Lemma remove_in_flight_wf d k : delivery_wf d -> delivery_wf (remove_in_flight d k).2.
Proof.
  intros Hwf. destruct k as [c o]. destruct (in_flight d !! (c, o)) as [i|] eqn:E.
  - by eapply remove_present_wf.
  - unfold remove_in_flight. by rewrite E.
Qed.

Lemma remove_in_flight_lookup d c o k :
  in_flight (remove_in_flight d (c, o)).2 !! k =
  if decide (k = (c, o)) then None else in_flight d !! k.
Proof.
  destruct (in_flight d !! (c, o)) as [i|] eqn:E; [by eapply in_flight_removed|].
  unfold remove_in_flight. rewrite E. cbn. case_decide; [by subst|done].
Qed.

Lemma remove_all_wf d c offsets : delivery_wf d -> delivery_wf (remove_all d c offsets).
Proof.
  unfold remove_all. revert d; induction offsets as [|o offsets IH]; intros d Hwf; cbn; [done|].
  apply IH. by apply remove_in_flight_wf.
Qed.

Lemma remove_all_lookup d c offsets k :
  in_flight (remove_all d c offsets) !! k =
  if decide (k.1 = c /\ k.2 ∈ offsets) then None else in_flight d !! k.
Proof.
  unfold remove_all. revert d; induction offsets as [|o offsets IH]; intros d; cbn.
  - case_decide as Hk; [|done]. destruct Hk as [_ Hk]. by apply not_elem_of_nil in Hk.
  - rewrite IH. unfold delivery_remove. rewrite remove_in_flight_lookup.
    destruct k as [c' o']. cbn. repeat case_decide; try done; exfalso; set_solver.
Qed.

(** ** Queries answer from the deliveries *)

Lemma elem_of_due_keys d now k :
  delivery_wf d ->
  k ∈ due_keys d now <-> exists i, in_flight d !! k = Some i /\ if_deadline i <= now.
Proof.
  intros Hwf. unfold due_keys. rewrite list_elem_of_join. split.
  - intros (l & Hk & Hl). apply list_elem_of_fmap in Hl as ([t l'] & -> & Hl).
    apply list_elem_of_filter in Hl as [Hle Hl%elem_of_btree_items]. cbn in *.
    assert (Hd : k ∈ default [] (in_flight_deadlines d !! t)) by (by rewrite Hl).
    apply (dw_deadlines d Hwf) in Hd as (i & Hi & <-). eauto.
  - intros (i & Hi & Hle).
    assert (Hd : k ∈ default [] (in_flight_deadlines d !! if_deadline i))
      by (apply (dw_deadlines d Hwf); eauto).
    destruct (in_flight_deadlines d !! if_deadline i) as [l|] eqn:E; cbn in Hd;
      [|by apply not_elem_of_nil in Hd].
    exists l. split; [done|]. apply list_elem_of_fmap. exists (if_deadline i, l). split; [done|].
    apply list_elem_of_filter. split; [done|]. by apply elem_of_btree_items.
Qed.

Lemma elem_of_expired d c now i :
  delivery_wf d ->
  i ∈ expired_deliveries d c now <->
  exists o, in_flight d !! (c, o) = Some i /\ if_deadline i <= now.
Proof.
  intros Hwf. unfold expired_deliveries. rewrite list_elem_of_filter, list_elem_of_omap. split.
  - intros (Hle & [c' o] & Hin & Hi). apply list_elem_of_filter in Hin as [Hc _]. cbn in Hc. subst.
    eauto.
  - intros (o & Hi & Hle). split; [done|]. exists (c, o). split; [|done].
    apply list_elem_of_filter. split; [done|]. apply elem_of_due_keys; eauto.
Qed.

Lemma elem_of_btree_set s o : o ∈ btree_set s <-> o ∈ s.
Proof.
  unfold btree_set, btree_keys. rewrite list_elem_of_fmap. split.
  - intros ([o' []] & -> & Hin%elem_of_btree_items). by apply lookup_gset_to_gmap_Some in Hin as [? _].
  - intros Ho. exists (o, tt). split; [done|]. apply elem_of_btree_items.
    by apply lookup_gset_to_gmap_Some.
Qed.

Lemma btree_set_sorted s : StronglySorted N.lt (btree_set s).
Proof.
  unfold btree_set, btree_keys. pose proof (btree_items_sorted (gset_to_gmap tt s)) as Hs.
  induction Hs as [|p l Hs IH Hall]; cbn; constructor; [done|].
  apply Forall_fmap. eapply Forall_impl; [apply Hall|]. by intros [].
Qed.

Lemma member_offsets_spec d c m :
  delivery_wf d ->
  match member_offsets d c m with
  | Some s => s <> ∅ /\ forall o, o ∈ s <-> exists i, in_flight d !! (c, o) = Some i /\ if_member i = m
  | None => forall o i, in_flight d !! (c, o) = Some i -> if_member i <> m
  end.
Proof.
  intros Hwf. unfold member_offsets. pose proof (dw_index_members d Hwf c m) as Hm.
  destruct (in_flight_by_consumer d !! c) as [index|] eqn:E; cbn in Hm.
  - destruct (ix_members index !! m) as [s|] eqn:Es; cbn in Hm.
    + split; [by eapply (dw_members_nonempty d Hwf)|done].
    + intros o i Hi Heq. assert (Ho : o ∈ (∅ : gset Offset)) by (apply Hm; eauto).
      by apply elem_of_empty in Ho.
  - rewrite lookup_empty in Hm. intros o i Hi Heq.
    assert (Ho : o ∈ (∅ : gset Offset)) by (apply Hm; eauto). by apply elem_of_empty in Ho.
Qed.

Lemma collect_deliveries_spec d c offsets :
  (forall o, o ∈ offsets -> is_Some (get_in_flight d c o)) ->
  exists l, collect_deliveries d c offsets = Ok l /\
    Forall2 (fun o i => in_flight d !! (c, o) = Some i) offsets l.
Proof.
  induction offsets as [|o offsets IH]; intros Hall; cbn; [eauto|].
  destruct (Hall o) as [i Hi]; [set_solver|]. rewrite Hi.
  destruct IH as (l & -> & Hl); [set_solver|]. exists (i :: l). split; [done|]. by constructor.
Qed.

(** ** The state cache *)

Lemma evict_spec fuel pick active states :
  lists_keys pick -> (size states <= fuel)%nat ->
  (size (evict fuel pick active states) <= MAX_CACHED_CONSUMER_STATES)%nat /\
  evict fuel pick active states ⊆ states.
Proof.
  unfold lists_keys. intros Hpick. revert states; induction fuel as [|fuel IH]; intros states Hsz; cbn [evict].
  - split; [|done]. unfold MAX_CACHED_CONSUMER_STATES. lia.
  - case_decide as Hlt; [|split; [lia|done]].
    assert (Hev : exists c, c ∈ dom states /\
      (match List.find (fun consumer => negb (bool_decide (consumer ∈ active))) (pick states) with
       | Some consumer => Some consumer | None => head (pick states) end) = Some c).
    { assert (Hdom : forall c, c ∈ pick states -> c ∈ dom states).
      { intros c. rewrite Hpick, list_elem_of_fmap. intros ([c' v] & -> & Hin%elem_of_map_to_list).
        by apply elem_of_dom. }
      destruct (List.find _ _) as [c|] eqn:E.
      - apply List.find_some in E as [Hin%list_elem_of_In _]. eauto.
      - destruct (pick states) as [|c l] eqn:El; [|exists c; split; [apply Hdom; set_solver|done]].
        pose proof (Hpick states) as Hp. rewrite El in Hp. apply Permutation_length in Hp.
        rewrite length_fmap in Hp. rewrite length_map_to_list in Hp. cbn in Hp.
        unfold MAX_CACHED_CONSUMER_STATES in Hlt. lia. }
    destruct Hev as (c & Hc & ->). apply elem_of_dom in Hc as [v Hv].
    assert (Hs : size (delete c states) = pred (size states)) by (apply map_size_delete_Some; eauto).
    destruct (IH (delete c states)) as [H1 H2]; [lia|].
    split; [done|]. etrans; [apply H2|]. apply delete_subseteq.
Qed.

(** ** Tokens *)

Definition token_text (epoch id : N) : string := hex epoch +:+ "-" +:+ hex id.

Lemma token_text_inj e i e' i' : token_text e i = token_text e' i' -> e = e' /\ i = i'.
Proof.
  intros H%(f_equal as_bytes). unfold token_text in H. rewrite !as_bytes_app in H.
  destruct (hex_spec e) as [He Hde], (hex_spec e') as [He' Hde'].
  apply separated_inj in H as [H1 H2]; [|done..].
  split; [congruence|]. destruct (hex_spec i) as [Hi _], (hex_spec i') as [Hi' _].
  change (as_bytes (hex i) = as_bytes (hex i')) in H2. congruence.
Qed.

(** The tokens of [n] consecutive calls. *)
Fixpoint tokens (n : nat) (g : DeliveryTokenGenerator) : list string :=
  match n with
  | O => []
  | S n => (token_next g).1 :: tokens n (token_next g).2
  end.

Lemma tokens_lookup n g k t :
  next_id g + N.of_nat n <= u64_max -> tokens n g !! k = Some t ->
  t = token_text (epoch g) (next_id g + 1 + N.of_nat k).
Proof.
  revert g k; induction n as [|n IH]; intros g k Hn Hk; [done|].
  assert (Hw : u64_wrapping_add (next_id g) 1 = next_id g + 1)
    by (unfold u64_wrapping_add; apply N.mod_small; unfold u64_max in *; lia).
  destruct k as [|k]; cbn in Hk.
  - rewrite Hw in Hk. injection Hk as <-. by replace (next_id g + 1 + N.of_nat 0) with (next_id g + 1) by lia.
  - apply IH in Hk; cbn in *; rewrite ?Hw in *; [|lia]. rewrite Hk. f_equal. lia.
Qed.

(** ** What the delivery state guarantees *)

Definition key_order : KeyOrder := fun states => (map_to_list states).*1.

Lemma key_order_lists : lists_keys key_order.
Proof. intros states. reflexivity. Qed.

Definition example_delivery (offset : Offset) (key : option string) (member : string) : InFlight :=
  {| if_member := member; if_offset := offset; if_key := key; if_delivery_attempt := 1;
     if_delivery_token := "1-1"; if_requires_receipt := false; if_deadline := 100 + offset |}.

Definition example_deliveries : DeliveryState :=
  delivery_insert (delivery_insert delivery_new "workers" (example_delivery 0 (Some "k") "a"))
    "workers" (example_delivery 1 None "b").

Lemma example_first : deliverable delivery_new "workers" (example_delivery 0 (Some "k") "a").
Proof. split; [done|]. intros key _. change (key ∉ (∅ : gset string)). set_solver. Qed.

(** One change of the delivery state. *)
Inductive delivery_step (pick : KeyOrder) : DeliveryState -> DeliveryState -> Prop :=
| step_insert d consumer delivery :
  deliverable d consumer delivery -> delivery_step pick d (delivery_insert d consumer delivery)
| step_remove d consumer offset :
  delivery_step pick d (delivery_remove d consumer offset).2
| step_cache d consumer state : delivery_step pick d (cache_consumer_state pick d consumer state)
| step_mark d consumer : delivery_step pick d (mark_consumer_needs_reconcile d consumer)
| step_load (C : ConsumerCodec) sync d f stream consumer r d' f' :
  load_consumer_state_for_request pick sync d f stream consumer = (r, d', f') ->
  delivery_step pick d d'.

(** The invariant reads the in-flight maps only. *)
Lemma delivery_wf_frame d d' :
  in_flight d' = in_flight d -> in_flight_deadlines d' = in_flight_deadlines d ->
  in_flight_by_consumer d' = in_flight_by_consumer d -> delivery_wf d -> delivery_wf d'.
Proof. intros H1 H2 H3 []. split; rewrite ?H1, ?H2, ?H3; done. Qed.

Lemma load_for_request_wf `{ConsumerCodec} pick sync d f stream consumer r d' f' :
  load_consumer_state_for_request pick sync d f stream consumer = (r, d', f') ->
  delivery_wf d -> delivery_wf d'.
Proof.
  unfold load_consumer_state_for_request. intros Hl Hwf. case_bool_decide.
  - destruct (load_consumer_state f stream consumer) as [[recovered|] f1]; [|by simplify_eq].
    destruct (match journal f1 with Some _ => sync | None => None end); [by simplify_eq|].
    simplify_eq. eapply delivery_wf_frame; [..|by eapply remove_all_wf]; done.
  - destruct (consumer_states d !! consumer); [by simplify_eq|].
    destruct (load_consumer_state f stream consumer). by simplify_eq.
Qed.

Lemma delivery_step_wf pick d d' : delivery_step pick d d' -> delivery_wf d -> delivery_wf d'.
Proof.
  intros Hstep Hwf. destruct Hstep as [d c i Hnew|d c o|d c s|d c|C sync d f st c r d' f' Hl].
  - by apply delivery_insert_wf.
  - by apply remove_in_flight_wf.
  - by apply (delivery_wf_frame d).
  - by apply (delivery_wf_frame d).
  - by eapply load_for_request_wf.
Qed.

(** C35: Whatever sequence of inserts, removals, cache updates and reloads the
    broker performs, the deadline index and the per-consumer index list exactly
    the in-flight deliveries, without duplicates or empty entries, and no two
    in-flight deliveries of a consumer share an ordering key. *)
Theorem delivery_indexes_mirror pick d :
  rtc (delivery_step pick) delivery_new d -> delivery_wf d.
Proof.
  intros Hsteps. pose proof delivery_new_wf as Hwf. induction Hsteps; eauto using delivery_step_wf.
Qed.

Lemma delivery_indexes_mirror_witness : delivery_wf example_deliveries.
Proof.
  apply (delivery_indexes_mirror key_order). eapply rtc_l; [|eapply rtc_l; [|apply rtc_refl]].
  - apply (step_insert _ _ "workers" (example_delivery 0 (Some "k") "a")). apply example_first.
  - apply (step_insert _ _ "workers" (example_delivery 1 None "b")). by split.
Defined.

Lemma member_deliveries_spec d consumer member :
  delivery_wf d ->
  exists l, member_deliveries d consumer member = Ok l /\
    StronglySorted N.lt (if_offset <$> l) /\
    (forall i, i ∈ l <-> exists o, in_flight d !! (consumer, o) = Some i /\ if_member i = member) /\
    member_delivery d consumer member = Ok (head l).
Proof.
  intros Hwf. pose proof (member_offsets_spec d consumer member Hwf) as Hm.
  unfold member_deliveries, member_delivery.
  destruct (member_offsets d consumer member) as [s|].
  - destruct Hm as [_ Hs].
    destruct (collect_deliveries_spec d consumer (btree_set s)) as (l & -> & Hl).
    { intros o Ho%elem_of_btree_set%Hs. destruct Ho as (i & Hi & _). eauto. }
    assert (Hoff : if_offset <$> l = btree_set s).
    { clear Hs. induction Hl as [|o i os l Hi Hl IH]; cbn; [done|].
      by rewrite (dw_offset d Hwf _ _ _ Hi), IH. }
    exists l. split_and!; [done|rewrite Hoff; apply btree_set_sorted| |].
    + intros i. split.
      * intros [k Hk]%list_elem_of_lookup.
        destruct (Forall2_lookup_r _ _ _ _ _ Hl Hk) as (o & Ho & Hi).
        apply list_elem_of_lookup_2, elem_of_btree_set, Hs in Ho as (i' & Hi' & Hmem).
        exists o. by simplify_eq.
      * intros (o & Hi & Hmem).
        assert (Ho : o ∈ btree_set s) by (apply elem_of_btree_set, Hs; eauto).
        apply list_elem_of_lookup in Ho as [k Hk].
        destruct (Forall2_lookup_l _ _ _ _ _ Hl Hk) as (i' & Hk' & Hi').
        simplify_eq. by eapply list_elem_of_lookup_2.
    + destruct Hl as [|o i os l Hi Hl]; cbn; [done|]. unfold get_in_flight. by rewrite Hi.
  - exists []. split_and!; [done|constructor| |done]. intros i. split; [by intros ?%not_elem_of_nil|].
    intros (o & Hi & Hmem). by apply Hm in Hi.
Qed.

(**  The indexed queries answer from the deliveries themselves: the expired
    deliveries of a consumer are exactly its in-flight ones whose deadline has
    passed; a member's delivery is its in-flight one with the least offset, and
    its deliveries are all of them in offset order; the filter used for
    candidate search holds exactly the in-flight offsets and keys; and the
    lookup never reports a corrupt record. *)
Theorem delivery_queries_exact d consumer member now :
  delivery_wf d ->
  (forall i, i ∈ expired_deliveries d consumer now <->
     exists o, in_flight d !! (consumer, o) = Some i /\ if_deadline i <= now) /\
  (exists l, member_deliveries d consumer member = Ok l /\
     StronglySorted N.lt (if_offset <$> l) /\
     (forall i, i ∈ l <-> exists o, in_flight d !! (consumer, o) = Some i /\ if_member i = member) /\
     member_delivery d consumer member = Ok (head l)) /\
  (forall o, o ∈ (default (∅, ∅) (in_flight_filter d consumer)).1 <->
     is_Some (in_flight d !! (consumer, o))) /\
  (forall k, k ∈ (default (∅, ∅) (in_flight_filter d consumer)).2 <->
     exists o i, in_flight d !! (consumer, o) = Some i /\ if_key i = Some k).
Proof.
  intros Hwf. split; [intros; by apply elem_of_expired|]. split; [|split].
  - by apply member_deliveries_spec.
  - intros o. rewrite <-(dw_index_offsets d Hwf). unfold in_flight_filter.
    by destruct (in_flight_by_consumer d !! consumer).
  - intros k. rewrite <-(dw_index_keys d Hwf). unfold in_flight_filter.
    by destruct (in_flight_by_consumer d !! consumer).
Qed.

Lemma delivery_queries_exact_witness :
  exists l, member_deliveries example_deliveries "workers" "b" = Ok l /\
    member_delivery example_deliveries "workers" "b" = Ok (head l).
Proof.
  destruct (delivery_queries_exact example_deliveries "workers" "b" 100) as (_ & (l & H1 & _ & _ & H2) & _).
  - apply (delivery_insert_wf _ "workers" (example_delivery 1 None "b")).
    + apply (delivery_insert_wf _ "workers" (example_delivery 0 (Some "k") "a"));
        [apply delivery_new_wf|apply example_first].
    + by split.
  - exists l. by split.
Defined.

(**  The consumer-state cache is bounded: after caching a state at most 1024
    are cached, whatever order the map yields its keys in, and what is cached
    was cached before or is the new state. *)
Theorem cache_bounded pick d consumer state :
  lists_keys pick ->
  let d' := cache_consumer_state pick d consumer state in
  (size (consumer_states d') <= MAX_CACHED_CONSUMER_STATES)%nat /\
  consumer_states d' ⊆ <[consumer := state]> (consumer_states d) /\
  in_flight d' = in_flight d.
Proof.
  intros Hpick. cbv zeta. cbn [cache_consumer_state set_consumer_states consumer_states in_flight].
  destruct (evict_spec (size (<[consumer := state]> (consumer_states d))) pick (active_consumers d)
    (<[consumer := state]> (consumer_states d)) Hpick) as [H1 H2]; [lia|]. done.
Qed.

Lemma cache_bounded_witness :
  let d' := cache_consumer_state key_order delivery_new "c" (consumer_initial "s" "c") in
  (size (consumer_states d') <= MAX_CACHED_CONSUMER_STATES)%nat /\
  consumer_states d' ⊆ <["c" := consumer_initial "s" "c"]> (consumer_states delivery_new) /\
  in_flight d' = in_flight delivery_new.
Proof. apply cache_bounded. apply key_order_lists. Defined.

(**  The delivery tokens of one generator are pairwise distinct, and differ
    from those of a generator started at another time, as long as the 64-bit
    counter does not wrap. *)
Theorem tokens_distinct n g n' g' :
  next_id g + N.of_nat n <= u64_max -> next_id g' + N.of_nat n' <= u64_max ->
  NoDup (tokens n g) /\ (epoch g <> epoch g' -> forall t, t ∈ tokens n g -> t ∉ tokens n' g').
Proof.
  intros Hn Hn'. split.
  - apply NoDup_alt. intros i j t Hi%tokens_lookup Hj%tokens_lookup; [|done..].
    rewrite Hi in Hj. apply token_text_inj in Hj as [_ Hj]. lia.
  - intros He t Ht Ht'. apply list_elem_of_lookup in Ht as [i Hi], Ht' as [j Hj].
    apply tokens_lookup in Hi, Hj; [|done..]. rewrite Hi in Hj.
    by apply token_text_inj in Hj as [? _].
Qed.

Lemma tokens_distinct_witness :
  NoDup (tokens 3 {| epoch := 5; next_id := 0 |}) /\
  (5 <> 6 -> forall t, t ∈ tokens 3 {| epoch := 5; next_id := 0 |} ->
     t ∉ tokens 2 {| epoch := 6; next_id := 0 |}).
Proof.
  apply (tokens_distinct 3 {| epoch := 5; next_id := 0 |} 2 {| epoch := 6; next_id := 0 |});
    vm_compute; discriminate.
Defined.

Lemma elem_of_stale_offsets d consumer s o :
  o ∈ stale_offsets d consumer s <-> is_Some (in_flight d !! (consumer, o)) /\ is_done s o = true.
Proof.
  unfold stale_offsets. rewrite list_elem_of_fmap, is_done_spec. split.
  - intros ([[c o'] i] & -> & Hin). apply list_elem_of_filter in Hin as [[Hc Hd] Hin%elem_of_map_to_list].
    cbn in *. subst. eauto.
  - intros [[i Hi] Hd]. exists ((consumer, o), i). split; [done|].
    apply list_elem_of_filter. split; [done|]. by apply elem_of_map_to_list.
Qed.

(**  After a failed persist the next request reconciles: it returns the state
    that the files hold, drops the in-flight deliveries which that state has
    already acknowledged and no others, leaves other consumers alone, and clears
    the mark. *)
Theorem reconcile_restores_durable_state `{ConsumerCodec} pick d f stream consumer s f' :
  consumer ∈ consumers_needing_reconcile d -> load_consumer_state f stream consumer = (Ok s, f') ->
  exists d', load_consumer_state_for_request pick None d f stream consumer = (Ok s, d', f') /\
    (consumer ∉ consumers_needing_reconcile d') /\
    (forall o, in_flight d' !! (consumer, o) =
       if is_done s o then None else in_flight d !! (consumer, o)) /\
    (forall c o, c <> consumer -> in_flight d' !! (c, o) = in_flight d !! (c, o)).
Proof.
  intros Hin Hl. unfold load_consumer_state_for_request.
  rewrite bool_decide_eq_true_2, Hl by done.
  assert (Hsync : (match journal f' with Some _ => None | None => None end) = @None IoErrorKind)
    by (by destruct (journal f')). rewrite Hsync.
  eexists. split; [reflexivity|]. split_and!.
  - cbn. set_solver.
  - intros o. cbn [cache_consumer_state set_consumer_states set_needing_reconcile in_flight].
    rewrite remove_all_lookup. cbn [fst snd].
    destruct (is_done s o) eqn:E; case_decide as Hs; try done.
    + apply eq_None_not_Some. intros Hi. apply Hs. split; [done|]. by apply elem_of_stale_offsets.
    + destruct Hs as [_ [_ Hd]%elem_of_stale_offsets]. congruence.
  - intros c o Hc. cbn [cache_consumer_state set_consumer_states set_needing_reconcile in_flight].
    rewrite remove_all_lookup, decide_False; [done|]. by intros [? _].
Qed.

Lemma reconcile_restores_durable_state_witness :
  let d := mark_consumer_needs_reconcile example_deliveries "workers" in
  let s := acknowledge (consumer_initial "events" "workers") 0 in
  let f := {| checkpoint := Some (@encode_state (ExampleCodec.codec 0) s ++ [newline]); journal := None |} in
  exists d', @load_consumer_state_for_request (ExampleCodec.codec 0) key_order None d f "events" "workers"
      = (Ok s, d', f) /\
    ("workers" ∉ consumers_needing_reconcile d') /\
    (forall o, in_flight d' !! ("workers", o) =
       if is_done s o then None else in_flight d !! ("workers", o)) /\
    (forall c o, c <> "workers" -> in_flight d' !! (c, o) = in_flight d !! (c, o)).
Proof.
  cbv zeta. apply (@reconcile_restores_durable_state (ExampleCodec.codec 0)).
  - cbn. set_solver.
  - unfold load_consumer_state, load_checkpoint. cbn [checkpoint].
    rewrite (@decode_encode_state _ (ExampleCodec.codec_laws 0)). reflexivity.
Defined.
