(* ===== verification/StorageLane.v ===== *)
(** The per-stream storage lane of crates/runnel-core/src/storage.rs: a FIFO
    queue of operations of which one at a time owns the lane.

    [lane_reserve], [lane_claim], [lane_cancel] and [lane_release] are the
    critical sections of [StorageLane]; each also returns the waiters it
    notifies. [lane_step] interleaves them with the [wait] loop of the queued
    operations and with their cancellation (a dropped future). Of tokio's
    [Notify] the model uses that [notify_one] stores a permit which the next
    [notified().await] consumes. *)

From S2P Require Import Prelude Engine.

(** A waiter is identified by its allocation ([Arc::ptr_eq]). *)
Abbreviation Waiter := nat.

Inductive LaneOwnership := Idle | Held | Handoff.

#[export] Instance LaneOwnership_eq_dec : EqDecision LaneOwnership.
Proof. solve_decision. Defined.

Record LaneState := {
  ownership : LaneOwnership;
  waiters : list Waiter;
}.

Inductive LaneReservation := Active | Queued.

Definition queue_full : BrokerError := Io WouldBlock "storage stream queue is full".

(** [permit]: whether the shared pool still has a waiter permit. *)
Definition lane_reserve (queue_capacity : nat) (permit : bool) (s : LaneState) (waiter : Waiter) :
  Result LaneReservation BrokerError * LaneState :=
  if bool_decide (ownership s = Idle) && bool_decide (waiters s = []) then
    (Ok Active, {| ownership := Held; waiters := waiters s |})
  else if Nat.leb queue_capacity (length (waiters s)) then (Err queue_full, s)
  else if negb permit then (Err queue_full, s)
  else (Ok Queued, {| ownership := ownership s; waiters := waiters s ++ [waiter] |}).

Definition lane_claim (s : LaneState) (waiter : Waiter) : bool * LaneState :=
  if negb (bool_decide (ownership s = Handoff)) then (false, s)
  else if negb (is_some_and (fun front => Nat.eqb front waiter) (head (waiters s))) then (false, s)
  else (true, {| ownership := Held; waiters := tail (waiters s) |}).

Definition lane_cancel (s : LaneState) (waiter : Waiter) : LaneState * list Waiter :=
  match list_find (fun queued => queued = waiter) (waiters s) with
  | None => (s, [])
  | Some (position, _) =>
    let remaining := delete position (waiters s) in
    let owner :=
      if bool_decide (ownership s = Handoff) && bool_decide (remaining = []) then Idle
      else ownership s in
    ({| ownership := owner; waiters := remaining |},
     if Nat.eqb position 0 then match remaining with next :: _ => [next] | [] => [] end else [])
  end.

Definition lane_release (s : LaneState) : LaneState * list Waiter :=
  match waiters s with
  | next :: _ => ({| ownership := Handoff; waiters := waiters s |}, [next])
  | [] => ({| ownership := Idle; waiters := waiters s |}, [])
  end.

(** ** The lane with its clients *)

(** [arrived] and [served] record, for the theorems, the order in which
    operations asked for the lane and the order in which they got it. *)
Record LaneSystem := {
  lane : LaneState;
  holders : list Waiter;
  sleeping : gset Waiter;
  notified : gset Waiter;
  arrived : list Waiter;
  served : list Waiter;
}.

Definition lane_start : LaneSystem :=
  {| lane := {| ownership := Idle; waiters := [] |}; holders := []; sleeping := ∅; notified := ∅;
     arrived := []; served := [] |}.

Definition notify (notified : gset Waiter) (l : list Waiter) : gset Waiter := list_to_set l ∪ notified.

Inductive lane_step (queue_capacity : nat) : LaneSystem -> LaneSystem -> Prop :=
(** A new operation finds the lane idle and holds it. *)
| reserve_active s w permit lane' :
  w ∉ arrived s -> lane_reserve queue_capacity permit (lane s) w = (Ok Active, lane') ->
  lane_step queue_capacity s
    {| lane := lane'; holders := w :: holders s; sleeping := sleeping s; notified := notified s;
       arrived := arrived s ++ [w]; served := served s ++ [w] |}
(** A new operation joins the queue; its [wait] loop is about to try a claim. *)
| reserve_queued s w permit lane' :
  w ∉ arrived s -> lane_reserve queue_capacity permit (lane s) w = (Ok Queued, lane') ->
  lane_step queue_capacity s
    {| lane := lane'; holders := holders s; sleeping := sleeping s; notified := notified s;
       arrived := arrived s ++ [w]; served := served s |}
(** A refused operation leaves no trace. *)
| reserve_refused s w permit e lane' :
  lane_reserve queue_capacity permit (lane s) w = (Err e, lane') ->
  lane_step queue_capacity s
    {| lane := lane'; holders := holders s; sleeping := sleeping s; notified := notified s;
       arrived := arrived s; served := served s |}
(** One round of the [wait] loop: claim, or go to sleep. *)
| wait_claimed s w lane' :
  w ∈ waiters (lane s) -> w ∉ sleeping s -> lane_claim (lane s) w = (true, lane') ->
  lane_step queue_capacity s
    {| lane := lane'; holders := w :: holders s; sleeping := sleeping s; notified := notified s;
       arrived := arrived s; served := served s ++ [w] |}
| wait_sleeps s w lane' :
  w ∈ waiters (lane s) -> w ∉ sleeping s -> lane_claim (lane s) w = (false, lane') ->
  lane_step queue_capacity s
    {| lane := lane'; holders := holders s; sleeping := {[w]} ∪ sleeping s; notified := notified s;
       arrived := arrived s; served := served s |}
(** A stored notification ends the [notified().await]. *)
| wait_wakes s w :
  w ∈ sleeping s -> w ∈ notified s ->
  lane_step queue_capacity s
    {| lane := lane s; holders := holders s; sleeping := sleeping s ∖ {[w]};
       notified := notified s ∖ {[w]}; arrived := arrived s; served := served s |}
(** A queued operation is dropped before it claimed the lane. *)
| wait_cancelled s w lane' l :
  w ∈ waiters (lane s) -> lane_cancel (lane s) w = (lane', l) ->
  lane_step queue_capacity s
    {| lane := lane'; holders := holders s; sleeping := sleeping s ∖ {[w]};
       notified := notify (notified s) l; arrived := arrived s; served := served s |}
(** The holder is done. *)
| holder_releases s w rest lane' l :
  holders s = w :: rest -> lane_release (lane s) = (lane', l) ->
  lane_step queue_capacity s
    {| lane := lane'; holders := rest; sleeping := sleeping s;
       notified := notify (notified s) l; arrived := arrived s; served := served s |}.

(** ** The invariant *)

Record lane_wf (queue_capacity : nat) (s : LaneSystem) : Prop := {
  lw_idle : ownership (lane s) = Idle -> waiters (lane s) = [] /\ holders s = [];
  lw_held : ownership (lane s) = Held -> exists w, holders s = [w];
  lw_handoff : ownership (lane s) = Handoff -> holders s = [] /\
    exists w rest, waiters (lane s) = w :: rest /\ (w ∉ sleeping s \/ w ∈ notified s);
  lw_order : served s ++ waiters (lane s) `sublist_of` arrived s;
  lw_nodup : NoDup (arrived s);
  lw_bound : (length (waiters (lane s)) <= queue_capacity)%nat;
}.

Lemma lane_start_wf cap : lane_wf cap lane_start.
Proof. split; cbn; try done; [constructor|lia]. Qed.

Lemma lane_reserve_cases cap permit s w r s' :
  lane_reserve cap permit s w = (r, s') ->
  match r with
  | Ok Active => ownership s = Idle /\ waiters s = [] /\ s' = {| ownership := Held; waiters := [] |}
  | Ok Queued => ~ (ownership s = Idle /\ waiters s = []) /\ (length (waiters s) < cap)%nat /\
      s' = {| ownership := ownership s; waiters := waiters s ++ [w] |}
  | Err _ => s' = s
  end.
Proof.
  unfold lane_reserve. do 2 case_bool_decide; cbn; intros Hr;
    [simplify_eq; by match goal with H : waiters s = [] |- _ => rewrite H end|..];
    destruct (Nat.leb_spec cap (length (waiters s))); destruct permit; simplify_eq/=; try done;
    split_and!; naive_solver.
Qed.

Lemma lane_claim_cases s w b s' :
  lane_claim s w = (b, s') ->
  match b with
  | true => ownership s = Handoff /\ exists rest, waiters s = w :: rest /\
      s' = {| ownership := Held; waiters := rest |}
  | false => s' = s /\ ~ (ownership s = Handoff /\ head (waiters s) = Some w)
  end.
Proof.
  unfold lane_claim. case_bool_decide as Ho; cbn; [|intros [= <- <-]; naive_solver].
  destruct (waiters s) as [|front rest] eqn:E; cbn; [intros [= <- <-]; naive_solver|].
  destruct (Nat.eqb_spec front w) as [->|Hne]; cbn; intros [= <- <-]; naive_solver.
Qed.

Lemma lane_cancel_cases s w s' l :
  w ∈ waiters s -> lane_cancel s w = (s', l) ->
  exists i, waiters s !! i = Some w /\ waiters s' = delete i (waiters s) /\
    ownership s' =
      (if bool_decide (ownership s = Handoff) && bool_decide (delete i (waiters s) = []) then Idle
       else ownership s) /\
    (i = 0%nat -> l = match delete i (waiters s) with next :: _ => [next] | [] => [] end).
Proof.
  intros Hin. unfold lane_cancel.
  destruct (list_find_elem_of (fun queued => queued = w) (waiters s) w Hin eq_refl) as [[i y] Hf].
  rewrite Hf. apply list_find_Some in Hf as (Hi & -> & _). intros [= <- <-].
  exists i. split_and!; try done. by intros ->.
Qed.

Section steps.
Context (cap : nat) (s : LaneSystem) (Hwf : lane_wf cap s).

Lemma reserve_active_wf w permit lane' :
  w ∉ arrived s -> lane_reserve cap permit (lane s) w = (Ok Active, lane') ->
  lane_wf cap {| lane := lane'; holders := w :: holders s; sleeping := sleeping s;
    notified := notified s; arrived := arrived s ++ [w]; served := served s ++ [w] |}.
Proof.
  intros Hnew (Hi & Hw & ->)%lane_reserve_cases. destruct Hwf as [Hidle _ _ Hord Hnd _].
  destruct (Hidle Hi) as [_ Hh]. split; cbn; try done; try lia.
  - rewrite Hh. eauto.
  - rewrite Hw, !app_nil_r in *. by apply sublist_app.
  - apply NoDup_app. split_and!; [done| |apply NoDup_singleton]. set_solver.
Qed.

Lemma reserve_queued_wf w permit lane' :
  w ∉ arrived s -> lane_reserve cap permit (lane s) w = (Ok Queued, lane') ->
  lane_wf cap {| lane := lane'; holders := holders s; sleeping := sleeping s;
    notified := notified s; arrived := arrived s ++ [w]; served := served s |}.
Proof.
  intros Hnew (Hi & Hl & ->)%lane_reserve_cases. destruct Hwf as [Hidle Hheld Hhand Hord Hnd Hb].
  split; cbn; try done.
  - intros Ho. destruct Hi. split; [done|]. by apply Hidle.
  - intros Ho. destruct (Hhand Ho) as (Hh & w0 & rest & Hw & Hn). split; [done|].
    exists w0, (rest ++ [w]). by rewrite Hw.
  - rewrite app_assoc. by apply sublist_app.
  - apply NoDup_app. split_and!; [done| |apply NoDup_singleton]. set_solver.
  - rewrite length_app. cbn. lia.
Qed.

Lemma wait_claimed_wf w lane' :
  lane_claim (lane s) w = (true, lane') ->
  lane_wf cap {| lane := lane'; holders := w :: holders s; sleeping := sleeping s;
    notified := notified s; arrived := arrived s; served := served s ++ [w] |}.
Proof.
  intros (Ho & rest & Hw & ->)%lane_claim_cases. destruct Hwf as [_ _ Hhand Hord Hnd Hb].
  destruct (Hhand Ho) as (Hh & _). split; cbn; try done.
  - rewrite Hh. eauto.
  - rewrite Hw in Hord. by rewrite <-app_assoc.
  - rewrite Hw in Hb. cbn in Hb. lia.
Qed.

Lemma wait_sleeps_wf w lane' :
  lane_claim (lane s) w = (false, lane') ->
  lane_wf cap {| lane := lane'; holders := holders s; sleeping := {[w]} ∪ sleeping s;
    notified := notified s; arrived := arrived s; served := served s |}.
Proof.
  intros (-> & Hno)%lane_claim_cases. destruct Hwf as [Hidle Hheld Hhand Hord Hnd Hb].
  split; cbn; try done. intros Ho. destruct (Hhand Ho) as (Hh & w0 & rest & Hw & Hn).
  split; [done|]. exists w0, rest. split; [done|]. destruct Hn as [Hn|Hn]; [left|by right].
  assert (w <> w0); [|set_solver]. intros ->. apply Hno. by rewrite Hw.
Qed.

Lemma wait_wakes_wf w :
  lane_wf cap {| lane := lane s; holders := holders s; sleeping := sleeping s ∖ {[w]};
    notified := notified s ∖ {[w]}; arrived := arrived s; served := served s |}.
Proof.
  destruct Hwf as [Hidle Hheld Hhand Hord Hnd Hb]. split; cbn; try done.
  intros Ho. destruct (Hhand Ho) as (Hh & w0 & rest & Hw & Hn). split; [done|].
  exists w0, rest. split; [done|]. destruct (decide (w0 = w)); set_solver.
Qed.

Lemma wait_cancelled_wf w lane' l :
  w ∈ waiters (lane s) -> lane_cancel (lane s) w = (lane', l) ->
  lane_wf cap {| lane := lane'; holders := holders s; sleeping := sleeping s ∖ {[w]};
    notified := notify (notified s) l; arrived := arrived s; served := served s |}.
Proof.
  intros Hin (i & Hi & Hw' & Ho' & Hl)%lane_cancel_cases; [|done].
  destruct Hwf as [Hidle Hheld Hhand Hord Hnd Hb].
  assert (Hni : ownership (lane s) <> Idle).
  { intros Ho%Hidle. destruct Ho as [Hw _]. rewrite Hw in Hin. by apply not_elem_of_nil in Hin. }
  split; cbn; rewrite ?Hw', ?Ho'; try done.
  - case_bool_decide as Hh; case_bool_decide as Hr; cbn; try done.
    intros _. split; [done|]. by apply Hhand.
  - case_bool_decide as Hh; case_bool_decide as Hr; cbn; done.
  - case_bool_decide as Hh; [|by cbn]. case_bool_decide as Hr; cbn; [done|]. intros _.
    destruct (Hhand Hh) as (Hho & w0 & rest & Hw & Hn). split; [done|].
    rewrite Hw in Hi, Hr, Hl |- *. destruct i as [|i]; cbn in *.
    + destruct rest as [|w1 rest]; [done|]. exists w1, rest. split; [done|]. right.
      rewrite Hl by done. unfold notify. set_solver.
    + exists w0, (delete i rest). split; [done|]. unfold notify. set_solver.
  - etrans; [|exact Hord]. apply sublist_app; [done|]. apply sublist_delete.
  - rewrite length_delete by eauto. lia.
Qed.

Lemma holder_releases_wf w rest lane' l :
  holders s = w :: rest -> lane_release (lane s) = (lane', l) ->
  lane_wf cap {| lane := lane'; holders := rest; sleeping := sleeping s;
    notified := notify (notified s) l; arrived := arrived s; served := served s |}.
Proof.
  intros Hh Hr. destruct Hwf as [Hidle Hheld Hhand Hord Hnd Hb].
  assert (Hrest : rest = []).
  { destruct (ownership (lane s)) eqn:Ho.
    - destruct (Hidle eq_refl). congruence.
    - destruct (Hheld eq_refl). congruence.
    - destruct (Hhand eq_refl). congruence. }
  unfold lane_release in Hr. destruct (waiters (lane s)) as [|next ws] eqn:Hw; simplify_eq.
  - split; cbn; rewrite ?Hw; try done.
  - split; cbn; rewrite ?Hw; try done. intros _. split; [done|]. exists next, ws. split; [done|].
    right. unfold notify. set_solver.
Qed.
End steps.

Lemma lane_step_wf cap s s' : lane_step cap s s' -> lane_wf cap s -> lane_wf cap s'.
Proof.
  intros Hstep Hwf. destruct Hstep; eauto using reserve_active_wf, reserve_queued_wf,
    wait_claimed_wf, wait_sleeps_wf, wait_wakes_wf, wait_cancelled_wf, holder_releases_wf.
  match goal with H : lane_reserve _ _ _ _ = (Err _, _) |- _ => apply lane_reserve_cases in H as -> end.
  by destruct Hwf.
Qed.

Lemma lane_reachable_wf cap s : rtc (lane_step cap) lane_start s -> lane_wf cap s.
Proof.
  intros Hsteps. pose proof (lane_start_wf cap) as Hwf. induction Hsteps; eauto using lane_step_wf.
Qed.

(** ** What the lane guarantees *)

(** Operation 0 holds the lane, operation 1 queues, sleeps, and 0 releases. *)
Definition example_handoff : LaneSystem :=
  {| lane := {| ownership := Handoff; waiters := [1] |}; holders := []; sleeping := {[1]} ∪ ∅;
     notified := notify ∅ [1]; arrived := [0; 1]; served := [0] |}.

Lemma example_handoff_reachable : rtc (lane_step 4) lane_start example_handoff.
Proof.
  eapply rtc_l; [apply (reserve_active 4 lane_start 0 true); [set_solver|reflexivity]|].
  eapply rtc_l; [eapply (reserve_queued 4 _ 1 true); [cbn; set_solver|reflexivity]|].
  eapply rtc_l; [eapply (wait_sleeps 4 _ 1); [cbn; set_solver|cbn; set_solver|reflexivity]|].
  eapply rtc_l; [eapply (holder_releases 4 _ 0 []); reflexivity|].
  apply rtc_refl.
Qed.

(** C36: Operations on a stream are serialized in arrival order, however they
    interleave and whichever of them are dropped: at most one holds the lane,
    nobody holds it while it is idle or handed over, the operations served so
    far followed by those queued are in arrival order, and the queue never
    exceeds its capacity. *)
Theorem lane_exclusive_fifo cap s :
  rtc (lane_step cap) lane_start s ->
  (length (holders s) <= 1)%nat /\ (holders s <> [] <-> ownership (lane s) = Held) /\
  served s ++ waiters (lane s) `sublist_of` arrived s /\ NoDup (arrived s) /\
  (length (waiters (lane s)) <= cap)%nat.
Proof.
  intros [Hidle Hheld Hhand Hord Hnd Hb]%lane_reachable_wf.
  assert (Hcases : (holders s = [] /\ ownership (lane s) <> Held) \/
    (exists w, holders s = [w] /\ ownership (lane s) = Held)).
  { destruct (ownership (lane s)) eqn:Ho.
    - left. split; [by apply Hidle|done].
    - right. destruct (Hheld eq_refl) as [w Hw]. eauto.
    - left. split; [by apply Hhand|done]. }
  destruct Hcases as [[-> Hne]|(w & -> & ->)]; split_and!; try done; cbn; lia.
Qed.

Lemma lane_exclusive_fifo_witness :
  (length (holders example_handoff) <= 1)%nat /\
  (holders example_handoff <> [] <-> ownership (lane example_handoff) = Held) /\
  served example_handoff ++ waiters (lane example_handoff) `sublist_of` arrived example_handoff /\
  NoDup (arrived example_handoff) /\ (length (waiters (lane example_handoff)) <= 4)%nat.
Proof. apply lane_exclusive_fifo. apply example_handoff_reachable. Defined.

(**  No wakeup is lost. Whenever operations are queued and none holds the
    lane, the first of the queue can take it: at once, or after consuming a
    notification that is already stored for it. *)
Theorem lane_front_can_proceed cap s w rest :
  rtc (lane_step cap) lane_start s -> holders s = [] -> waiters (lane s) = w :: rest ->
  exists s1 s2, rtc (lane_step cap) s s1 /\ lane_step cap s1 s2 /\
    holders s2 = [w] /\ waiters (lane s2) = rest /\ (s1 = s \/ lane_step cap s s1).
Proof.
  intros [Hidle Hheld Hhand Hord Hnd Hb]%lane_reachable_wf Hh Hw.
  destruct (ownership (lane s)) eqn:Ho.
  { destruct (Hidle eq_refl). congruence. } { destruct (Hheld eq_refl). congruence. }
  destruct (Hhand eq_refl) as (_ & w' & rest' & Hw' & Hready).
  assert (w' = w /\ rest' = rest) as [-> ->] by (split; congruence).
  assert (Hclaim : lane_claim (lane s) w = (true, {| ownership := Held; waiters := rest |})).
  { unfold lane_claim. rewrite bool_decide_eq_true_2, Hw by done. cbn. by rewrite Nat.eqb_refl. }
  destruct (decide (w ∈ sleeping s)) as [Hsl|Hsl].
  - destruct Hready as [?|Hn]; [done|].
    eexists _, _. split_and!; [apply rtc_once, (wait_wakes cap s w); done| | | |right; by apply wait_wakes].
    + eapply (wait_claimed cap _ w); [cbn; rewrite Hw; set_solver|cbn; set_solver|exact Hclaim].
    + cbn. by rewrite Hh.
    + done.
  - exists s. eexists. split_and!; [apply rtc_refl| | | |by left].
    + eapply (wait_claimed cap _ w); [rewrite Hw; set_solver|done|exact Hclaim].
    + cbn. by rewrite Hh.
    + done.
Qed.

Lemma lane_front_can_proceed_witness :
  exists s1 s2, rtc (lane_step 4) example_handoff s1 /\ lane_step 4 s1 s2 /\
    holders s2 = [1] /\ waiters (lane s2) = [] /\
    (s1 = example_handoff \/ lane_step 4 example_handoff s1).
Proof.
  apply lane_front_can_proceed; [apply example_handoff_reachable|reflexivity|reflexivity].
Defined.
