(* ===== verification/Durability.v ===== *)
(** What the files of a consumer hold, apart from the bound on the journal: the
    checkpoint with the complete journal lines replayed over it, whatever torn
    line follows. Loading returns that state or refuses an oversized journal;
    persisting an event moves it to the state after the event, or keeps it
    when the persist fails. The broker's invariant is stated with these two
    facts of crates/runnel-core/src/consumer_state.rs. *)

From S2P Require Import Prelude Engine StreamLog ConsumerState.

Local Open Scope N_scope.

Definition no_files : Files := {| checkpoint := None; journal := None |}.

Section durability.
Context `{HC : ConsumerCodec} {HL : ConsumerCodecLaws HC}.

Record journaled (f : Files) (stream consumer : string) (base : ConsumerState)
  (events : list ConsumerStateEvent) (tail : list byte) (s : ConsumerState) : Prop := {
  jn_checkpoint : load_checkpoint f stream consumer = Ok base;
  jn_journal : default [] (journal f) = encode_journal events ++ tail;
  jn_tail : torn_line tail;
  jn_base : consumer_wf base;
  jn_names : cs_stream base = stream /\ cs_consumer base = consumer;
  jn_replay : replay_events base events = Ok s;
}.

(** The files hold [s], possibly with the torn line of a stopped process... *)
Definition holds_torn (f : Files) (stream consumer : string) (s : ConsumerState) : Prop :=
  exists base events tail, journaled f stream consumer base events tail s.

(** ... or without one. *)
Definition holds (f : Files) (stream consumer : string) (s : ConsumerState) : Prop :=
  exists base events, journaled f stream consumer base events [] s.

Lemma holds_holds_torn f stream consumer s :
  holds f stream consumer s -> holds_torn f stream consumer s.
Proof. intros (base & events & H). by exists base, events, []. Qed.

Lemma holds_no_files stream consumer :
  holds no_files stream consumer (consumer_initial stream consumer).
Proof.
  exists (consumer_initial stream consumer), []. split; try done.
  - apply torn_line_nil.
  - apply consumer_initial_wf.
Qed.

Lemma holds_torn_wf f stream consumer s :
  holds_torn f stream consumer s ->
  consumer_wf s /\ cs_stream s = stream /\ cs_consumer s = consumer.
Proof.
  intros (base & events & tail & [_ _ _ Hw [Hst Hco] Hr]).
  split; [by eapply replay_events_wf|].
  apply replay_events_spec in Hr as [_ ->].
  destruct (ops_names base (events_ops events)) as (_ & -> & ->). done.
Qed.

Lemma rename_same s stream consumer :
  cs_stream s = stream -> cs_consumer s = consumer -> rename_state s stream consumer = s.
Proof. intros <- <-. by destruct s. Qed.

(** The files determine the state. *)
Lemma holds_torn_inj f stream consumer s t :
  holds_torn f stream consumer s -> holds_torn f stream consumer t -> s = t.
Proof.
  intros (base & events & tail & H1) (base' & events' & tail' & H2).
  assert (base' = base) as ->.
  { pose proof (jn_checkpoint _ _ _ _ _ _ _ H1). pose proof (jn_checkpoint _ _ _ _ _ _ _ H2).
    congruence. }
  pose proof (replay_lines_journal base 0 events tail (jn_tail _ _ _ _ _ _ _ H1)) as E1.
  pose proof (replay_lines_journal base 0 events' tail' (jn_tail _ _ _ _ _ _ _ H2)) as E2.
  rewrite <-(jn_journal _ _ _ _ _ _ _ H1), (jn_replay _ _ _ _ _ _ _ H1) in E1.
  rewrite <-(jn_journal _ _ _ _ _ _ _ H2), (jn_replay _ _ _ _ _ _ _ H2) in E2.
  rewrite E1 in E2. congruence.
Qed.

(** Loading returns the state and leaves no torn line, or refuses a journal
    over the bound, a storage error. *)
Lemma load_holds f stream consumer s r f' :
  holds_torn f stream consumer s ->
  load_consumer_state f stream consumer = (r, f') ->
  (r = Ok s /\ holds f' stream consumer s) \/ (exists e, r = Err e /\ f' = f /\ error_kind e = KStorage).
Proof.
  intros (base & events & tail & [Hc Hj Ht Hw Hn Hr]). unfold load_consumer_state. rewrite Hc.
  unfold replay_consumer_state_journal.
  pose proof (wf_validate s (replay_events_wf _ _ _ Hw Hr)) as Hv.
  destruct (journal f) as [bytes|] eqn:Ejn; cbn in Hj.
  - subst bytes. n_cases; [intros [= <- <-]; right; by eexists|].
    rewrite replay_lines_journal, Hr, N.add_0_l by done. rewrite Hv.
    intros [= <- <-]. left. split; [done|]. exists base, events.
    assert (Htk : take (N.to_nat (vec_len (encode_journal events))) (encode_journal events ++ tail)
      = encode_journal events) by (unfold vec_len; by rewrite Nat2N.id, take_app_length).
    n_cases; split; try done; try apply torn_line_nil; cbn.
    + rewrite Ejn. cbn. rewrite vec_len_app in *.
      assert (tail = []) as -> by (apply length_zero_iff_nil; unfold vec_len in *; lia). done.
    + by rewrite Htk, app_nil_r.
  - symmetry in Hj. apply app_eq_nil in Hj as [Hj ->].
    assert (events = []) as ->.
    { destruct events as [|e events]; [done|]. unfold encode_journal in Hj. cbn in Hj.
      unfold encode_line in Hj. by destruct (encode_event e). }
    injection Hr as ->. rewrite Hv. intros [= <- <-]. left. split; [done|].
    exists s, []. split; try done; rewrite ?Ejn; done || apply torn_line_nil.
Qed.

Lemma holds_checkpoint f stream consumer s :
  holds f stream consumer s -> holds (persist_consumer_state f s) stream consumer s.
Proof.
  intros Hh. pose proof (holds_torn_wf _ _ _ _ (holds_holds_torn _ _ _ _ Hh)) as (Hwf & Hn).
  destruct Hh as (base & events & [Hc Hj Ht Hw _ Hr]). exists s, events. split; try done.
  - unfold load_checkpoint. cbn. by rewrite decode_encode_state.
  - exact (replay_events_idempotent base events s Hw Hr).
Qed.

Lemma holds_truncated f stream consumer s :
  holds f stream consumer s ->
  holds (set_journal (persist_consumer_state f s) []) stream consumer s.
Proof.
  intros Hh. pose proof (holds_torn_wf _ _ _ _ (holds_holds_torn _ _ _ _ Hh)) as (Hwf & Hn).
  exists s, []. split; try done.
  - unfold load_checkpoint. cbn. by rewrite decode_encode_state.
  - apply torn_line_nil.
Qed.

Lemma compact_holds fault f stream consumer s batch r f' :
  holds f stream consumer s ->
  compact_consumer_state fault f stream consumer s batch = (r, f') ->
  holds f' stream consumer s /\
  (forall e, r = Err e -> exists kind, e = map_failure BeforeAppend kind batch).
Proof.
  intros Hh. pose proof (holds_torn_wf _ _ _ _ (holds_holds_torn _ _ _ _ Hh)) as (_ & Hst & Hco).
  pose proof (holds_checkpoint _ _ _ _ Hh) as Hck. pose proof (holds_truncated _ _ _ _ Hh) as Htr.
  unfold compact_consumer_state. rewrite rename_same by done.
  cbn [persist_consumer_state journal] in *.
  destruct fault as [| | |[]| | |], (journal f); intros [= <- <-]; (split; [done|naive_solver]).
Qed.

(** The state the files hold after a persist, by its result. *)
Definition persisted (stream consumer : string) (s s' : ConsumerState)
  (r : Result unit BrokerError) (f' : Files) : Prop :=
  match r with
  | Ok _ => holds f' stream consumer s'
  | Err e => exists t, holds_torn f' stream consumer t /\ (t = s \/ t = s') /\
               (error_outcome e = Retryable -> t = s)
  end.

Lemma persisted_same f stream consumer s s' e :
  holds f stream consumer s -> persisted stream consumer s s' (Err e) f.
Proof. intros Hh. exists s. split; [by apply holds_holds_torn|]. split; [by left|done]. Qed.

Lemma holds_appended f stream consumer s event s' :
  holds f stream consumer s -> apply_event s event = Ok s' ->
  holds (set_journal f (default [] (journal f) ++ encode_line event)) stream consumer s'.
Proof.
  intros (base & events & [Hc Hj Ht Hw Hn Hr]) He. exists base, (events ++ [event]).
  split; try done.
  - cbn. by rewrite Hj, encode_journal_snoc, !app_nil_r.
  - rewrite replay_events_app, Hr. cbn. by rewrite He.
Qed.

Lemma persisted_written f stream consumer s event s' stage kind written :
  holds f stream consumer s -> apply_event s event = Ok s' -> stage <> BeforeAppend ->
  persisted stream consumer s s' (Err (map_failure stage kind (is_batch_event event)))
    (set_journal f (default [] (journal f) ++ take written (encode_line event))).
Proof.
  intros Hh He Hstage.
  destruct (decide (written < length (encode_line event))%nat) as [Hlt|Hge].
  - destruct Hh as (base & events & [Hc Hj Ht Hw Hn Hr]). exists s. split; [|split; [by left|done]].
    exists base, events, (take written (encode_line event)). split; try done.
    + cbn. by rewrite Hj, app_nil_r.
    + by exists event, written.
  - rewrite take_ge by lia. exists s'. split; [by eapply holds_holds_torn, holds_appended|].
    split; [by right|]. by intros ?%map_failure_retryable.
Qed.

Lemma persist_holds fault f stream consumer s event s' r f' :
  holds f stream consumer s -> apply_event s event = Ok s' ->
  persist_consumer_event fault f stream consumer s event = (r, f') ->
  persisted stream consumer s s' r f'.
Proof.
  intros Hh He. unfold persist_consumer_event. fold (encode_line event).
  destruct (if _ <? _ then _ else _) as [r1 f1] eqn:Hroom.
  assert (H1 : holds f1 stream consumer s).
  { destruct (_ <? _); [by eapply compact_holds|by simplify_eq]. }
  assert (Hdone : persisted stream consumer s s' (Ok tt)
    (set_journal f1 (default [] (journal f1) ++ encode_line event))).
  { by apply holds_appended with s. }
  pose proof (persisted_written f1 stream consumer s event s') as Hwr.
  destruct r1 as [[]|e], fault; intros [= <- <-]; try done; try (by apply persisted_same);
    try (by apply Hwr).
  rewrite <-(firstn_all (encode_line event)) at 1. by apply Hwr.
Qed.
End durability.
