(* ===== verification/Broker.v ===== *)
(** The broker of crates/runnel-core/src/broker.rs: streams with their logs and
    deliveries, the consumer files, and every operation of the engine
    interface composed from the stream log, the consumer state and the
    delivery state.

    An operation is a function of the broker in a monad of state and errors:
    an error keeps what was done before it, as in the code. [Aborts] stands
    for an [expect] that fails and for a loop that runs out of the bound given
    to it. What the operations read of the outside (clocks, the outcome of
    each file operation, the order of a hash map) comes from an environment
    indexed by a counter that every such read advances, so a theorem for all
    environments covers every timing and every failure. A stream's lock makes
    the operations on it atomic; the waiters of a stream are represented by
    the number of wakeups sent to them. *)

From S2P Require Import Prelude Engine RecordFormat Names Paths StreamLog ConsumerState DeliveryState Durability.

Local Open Scope N_scope.

(** ** State *)

Record StreamState := {
  ss_log : StreamLog;
  ss_delivery : DeliveryState;
  ss_notified : N;
}.

Definition stream_new (log : StreamLog) : StreamState :=
  {| ss_log := log; ss_delivery := delivery_new; ss_notified := 0 |}.

Definition set_log (ss : StreamState) (log : StreamLog) : StreamState :=
  {| ss_log := log; ss_delivery := ss_delivery ss; ss_notified := ss_notified ss |}.

Definition set_delivery (ss : StreamState) (d : DeliveryState) : StreamState :=
  {| ss_log := ss_log ss; ss_delivery := d; ss_notified := ss_notified ss |}.

Record BrokerState := {
  br_streams : gmap string StreamState;
  br_consumers : gmap (string * string) Files;
  br_ack_timeout : N;
  br_max_delivery_attempts : option N;
  br_redeliveries : N;
  br_dead_letters : N;
  br_delivery_tokens : DeliveryTokenGenerator;
  br_tick : nat;
}.

Definition set_streams (b : BrokerState) (streams : gmap string StreamState) : BrokerState :=
  {| br_streams := streams; br_consumers := br_consumers b; br_ack_timeout := br_ack_timeout b;
     br_max_delivery_attempts := br_max_delivery_attempts b; br_redeliveries := br_redeliveries b;
     br_dead_letters := br_dead_letters b; br_delivery_tokens := br_delivery_tokens b;
     br_tick := br_tick b |}.

Definition set_consumers (b : BrokerState) (consumers : gmap (string * string) Files) : BrokerState :=
  {| br_streams := br_streams b; br_consumers := consumers; br_ack_timeout := br_ack_timeout b;
     br_max_delivery_attempts := br_max_delivery_attempts b; br_redeliveries := br_redeliveries b;
     br_dead_letters := br_dead_letters b; br_delivery_tokens := br_delivery_tokens b;
     br_tick := br_tick b |}.

Definition set_counters (b : BrokerState) (redeliveries dead_letters : N)
  (tokens : DeliveryTokenGenerator) (tick : nat) : BrokerState :=
  {| br_streams := br_streams b; br_consumers := br_consumers b; br_ack_timeout := br_ack_timeout b;
     br_max_delivery_attempts := br_max_delivery_attempts b; br_redeliveries := redeliveries;
     br_dead_letters := dead_letters; br_delivery_tokens := tokens; br_tick := tick |}.

(** ** Environment and effects *)

Record Env := {
  env_instant : nat -> N;              (* [Instant::now()], in nanoseconds *)
  env_wall_ms : nat -> N;              (* milliseconds since the epoch *)
  env_append : nat -> AppendIo;        (* the write and sync of one record *)
  env_batch_sync : nat -> option IoErrorKind;  (* the sync of a batch *)
  env_create : nat -> option IoErrorKind;      (* creating a stream file *)
  env_persist : nat -> PersistFault;   (* persisting a consumer event *)
  env_journal_sync : nat -> option IoErrorKind;  (* the sync before a reconcile *)
  env_keys : nat -> KeyOrder;          (* the order of a hash map *)
}.

Inductive Outcome (A : Type) : Type :=
| Val (a : A)
| Fail (e : BrokerError)
| Aborts.
Arguments Val {A} a.
Arguments Fail {A} e.
Arguments Aborts {A}.

Definition M (A : Type) : Type := BrokerState -> Outcome A * BrokerState.

Definition ret {A} (a : A) : M A := fun b => (Val a, b).
Definition fail {A} (e : BrokerError) : M A := fun b => (Fail e, b).
Definition abort {A} : M A := fun b => (Aborts, b).

Definition bind {A B} (m : M A) (k : A -> M B) : M B := fun b =>
  match m b with
  | (Val a, b) => k a b
  | (Fail e, b) => (Fail e, b)
  | (Aborts, b) => (Aborts, b)
  end.

Declare Scope broker_scope.
Delimit Scope broker_scope with broker.
Notation "'let!' x ':=' c 'in' k" := (bind c (fun x => k))
  (at level 10, x pattern, c at level 100, k at level 200) : broker_scope.
Notation "'do!' c 'in' k" := (bind c (fun _ => k))
  (at level 10, c at level 100, k at level 200) : broker_scope.
Open Scope broker_scope.

(** [?] on a [Result]. *)
Definition lift {A} (r : Result A BrokerError) : M A :=
  match r with Ok a => ret a | Err e => fail e end.

(** [if let Err(error) = m { handler; return Err(error) }]. *)
Definition on_error {A} (m : M A) (handler : M unit) : M A := fun b =>
  match m b with
  | (Fail e, b) => match handler b with (Aborts, b) => (Aborts, b) | (_, b) => (Fail e, b) end
  | r => r
  end.

Definition gets {A} (f : BrokerState -> A) : M A := fun b => (Val (f b), b).
Definition modify (f : BrokerState -> BrokerState) : M unit := fun b => (Val tt, f b).

Definition effect {A} (f : nat -> A) : M A := fun b =>
  (Val (f (br_tick b)),
   set_counters b (br_redeliveries b) (br_dead_letters b) (br_delivery_tokens b) (S (br_tick b))).

(** One effect for each of [n] records. *)
Definition effects {A} (n : nat) (f : nat -> A) : M (list A) := fun b =>
  (Val ((fun i => f (br_tick b + i)%nat) <$> seq 0 n),
   set_counters b (br_redeliveries b) (br_dead_letters b) (br_delivery_tokens b)
     (br_tick b + n)).

(** The stream whose lock is held. *)
Definition locked (stream : string) : M StreamState := fun b =>
  match br_streams b !! stream with
  | Some ss => (Val ss, b)
  | None => (Aborts, b)
  end.

Definition put_stream (stream : string) (ss : StreamState) : M unit :=
  modify (fun b => set_streams b (<[stream := ss]> (br_streams b))).

Definition update_delivery (stream : string) (f : DeliveryState -> DeliveryState) : M unit :=
  let! ss := locked stream in
  put_stream stream (set_delivery ss (f (ss_delivery ss))).

(** [availability.notify_waiters()] *)
Definition notify_waiters (stream : string) : M unit :=
  let! ss := locked stream in
  put_stream stream {| ss_log := ss_log ss; ss_delivery := ss_delivery ss;
                       ss_notified := ss_notified ss + 1 |}.

Definition consumer_files (stream consumer : string) : M Files :=
  gets (fun b => default no_files (br_consumers b !! (stream, consumer))).

Definition put_files (stream consumer : string) (f : Files) : M unit :=
  modify (fun b => set_consumers b (<[(stream, consumer) := f]> (br_consumers b))).

(** [redeliveries.fetch_add(1)], [dead_letters.fetch_add(1)] and the token generator. *)
Definition count_redelivery : M unit :=
  modify (fun b => set_counters b (u64_wrapping_add (br_redeliveries b) 1) (br_dead_letters b)
    (br_delivery_tokens b) (br_tick b)).

Definition count_dead_letter : M unit :=
  modify (fun b => set_counters b (br_redeliveries b) (u64_wrapping_add (br_dead_letters b) 1)
    (br_delivery_tokens b) (br_tick b)).

Definition next_token : M string := fun b =>
  let '(token, tokens) := token_next (br_delivery_tokens b) in
  (Val token, set_counters b (br_redeliveries b) (br_dead_letters b) tokens (br_tick b)).

(** ** Time *)

Definition nanos_of_millis (ms : N) : N := ms * 1000000.

(** The last [Instant] of the platform: a signed 64-bit count of seconds. *)
Definition instant_max : N := 9223372036854775807 * 1000000000 + 999999999.

Definition instant_checked_add (instant nanos : N) : option N :=
  if instant + nanos <=? instant_max then Some (instant + nanos) else None.

(** [Instant + Duration], which panics on overflow. *)
Definition instant_add (instant nanos : N) : M N :=
  match instant_checked_add instant nanos with Some t => ret t | None => abort end.

(** ** Searching a stream *)

Definition filter_is_empty (f : Filter) : bool := bool_decide (f.1 = ∅) && bool_decide (f.2 = ∅).

Definition filter_union (f g : Filter) : Filter := (f.1 ∪ g.1, f.2 ∪ g.2).

Definition find_candidate_excluding (ss : StreamState) (consumer : string)
  (committed_offset : Offset) (acknowledged_offsets : gset Offset) (extra : Filter) :
  Result (option RecordIndex) BrokerError :=
  match in_flight_filter (ss_delivery ss) consumer with
  | None =>
    if filter_is_empty extra then
      find_candidate (ss_log ss) committed_offset acknowledged_offsets None
    else find_candidate (ss_log ss) committed_offset acknowledged_offsets (Some extra)
  | Some current =>
    if filter_is_empty extra then
      find_candidate (ss_log ss) committed_offset acknowledged_offsets (Some current)
    else
      find_candidate (ss_log ss) committed_offset acknowledged_offsets
        (Some (filter_union current extra))
  end.

Definition find_candidate_excluding_released (ss : StreamState) (consumer : string)
  (committed_offset : Offset) (acknowledged_offsets : gset Offset) (extra : Filter)
  (released_offsets : gset Offset) : Result (option RecordIndex) BrokerError :=
  let filter :=
    filter_union (in_flight_filter_excluding (ss_delivery ss) consumer released_offsets) extra in
  if filter_is_empty filter then
    find_candidate (ss_log ss) committed_offset acknowledged_offsets None
  else find_candidate (ss_log ss) committed_offset acknowledged_offsets (Some filter).

(** [retry_offsets.insert(offset)] and, for a key, [retry_keys.insert(key)]. *)
Definition filter_insert (f : Filter) (offset : Offset) (key : option string) : Filter :=
  ({[offset]} ∪ f.1, match key with Some key => {[key]} ∪ f.2 | None => f.2 end).

(** ** Consumer-state updates in memory *)

Definition set_retries (s : ConsumerState) (retries : gmap Offset RetrySchedule) : ConsumerState :=
  {| cs_stream := cs_stream s; cs_consumer := cs_consumer s;
     committed_offset := committed_offset s; acknowledged_offsets := acknowledged_offsets s;
     delivery_attempts := delivery_attempts s; cs_policy := cs_policy s;
     delivery_policies := delivery_policies s; retry_not_before := retries |}.

Definition schedule_of (schedule : RetryScheduleEvent) : RetrySchedule :=
  {| retry_not_before_ms := rse_retry_not_before_ms schedule; rs_key := rse_key schedule |}.

(** [retry_not_before.entry(schedule.offset).or_insert(...)] *)
Definition or_insert_schedule (s : ConsumerState) (schedule : RetryScheduleEvent) : ConsumerState :=
  match retry_not_before s !! rse_offset schedule with
  | Some _ => s
  | None => set_retries s (<[rse_offset schedule := schedule_of schedule]> (retry_not_before s))
  end.

(** The assignments after a persisted delivery attempt. *)
Definition record_attempt (s : ConsumerState) (offset : Offset) (attempt : N)
  (policy : ConsumerPolicy) : ConsumerState :=
  {| cs_stream := cs_stream s; cs_consumer := cs_consumer s;
     committed_offset := committed_offset s; acknowledged_offsets := acknowledged_offsets s;
     delivery_attempts := <[offset := attempt]> (delivery_attempts s); cs_policy := cs_policy s;
     delivery_policies :=
       match delivery_policies s !! offset with
       | Some _ => delivery_policies s
       | None => <[offset := policy]> (delivery_policies s)
       end;
     retry_not_before := delete offset (retry_not_before s) |}.

Definition attempts_of (s : ConsumerState) (offset : Offset) : N :=
  default 0 (delivery_attempts s !! offset).

Definition with_delivery (message : Message) (token : string) (attempt : N) : Message :=
  {| msg_stream := msg_stream message; msg_offset := msg_offset message;
     msg_key := msg_key message; msg_payload := msg_payload message;
     msg_published_at_ms := msg_published_at_ms message;
     msg_delivery_token := Some token; msg_delivery_attempt := Some attempt |}.

Section operations.
Context `{ConsumerCodec} (env : Env).

Definition instant_now : M N := effect (env_instant env).

Definition wall_clock_ms : M N := effect (fun n => N.min (env_wall_ms env n) u64_max).

(** ** Files *)

Definition load_for_request (stream consumer : string) : M ConsumerState :=
  let! sync := effect (env_journal_sync env) in
  let! pick := effect (env_keys env) in
  let! ss := locked stream in
  let! f := consumer_files stream consumer in
  let '(r, d, f) :=
    load_consumer_state_for_request pick sync (ss_delivery ss) f stream consumer in
  do! put_stream stream (set_delivery ss d) in
  do! put_files stream consumer f in
  lift r.

Definition persist_event (stream consumer : string) (current_state : ConsumerState)
  (event : ConsumerStateEvent) : M unit :=
  let! fault := effect (env_persist env) in
  let! f := consumer_files stream consumer in
  let '(r, f) := persist_consumer_event fault f stream consumer current_state event in
  do! put_files stream consumer f in
  lift r.

(** Every caller marks the consumer when the persist fails. *)
Definition persist_or_reconcile (locked_stream stream consumer : string)
  (current_state : ConsumerState) (event : ConsumerStateEvent) : M unit :=
  on_error (persist_event stream consumer current_state event)
    (update_delivery locked_stream (fun d => mark_consumer_needs_reconcile d consumer)).

Definition cache_state (stream consumer : string) (state : ConsumerState) : M unit :=
  let! pick := effect (env_keys env) in
  update_delivery stream (fun d => cache_consumer_state pick d consumer state).

Definition legacy_policy : M ConsumerPolicy :=
  gets (fun b => policy_legacy (N.min (br_ack_timeout b / 1000000) u64_max)
                   (br_max_delivery_attempts b)).

(** ** Streams *)

Definition get_stream (stream : string) : M unit := fun b =>
  match br_streams b !! stream with
  | Some _ => (Val tt, b)
  | None => (Fail (StreamNotFound stream), b)
  end.

Definition insert_stream (stream : string) : M unit :=
  let! fault := effect (env_create env) in
  match fault with
  | Some kind => fail (Io kind "create failed")
  | None => put_stream stream (stream_new log_create)
  end.

Definition get_or_create_stream (stream : string) : M unit :=
  let! known := gets (fun b => bool_decide (is_Some (br_streams b !! stream))) in
  if known then ret tt else insert_stream stream.

Definition create_stream (stream : string) : M bool :=
  do! lift (validate_name "stream" stream) in
  let! known := gets (fun b => bool_decide (is_Some (br_streams b !! stream))) in
  if known then ret false
  else do! insert_stream stream in ret true.

Definition publish_with_request_id (stream : string) (key : option string) (payload : list byte)
  (request_id : option string) : M Offset :=
  do! lift (validate_name "stream" stream) in
  do! get_or_create_stream stream in
  let! ss := locked stream in
  let! known :=
    match request_id with
    | Some request_id => lift (request_offset_for_content (ss_log ss) request_id key payload)
    | None => ret None
    end in
  match known with
  | Some offset => ret offset
  | None =>
    let! io := effect (env_append env) in
    let '(r, log) :=
      match request_id with
      | Some request_id => append_with_request_id io (ss_log ss) key payload request_id
      | None => log_append io (ss_log ss) key payload
      end in
    do! put_stream stream (set_log ss log) in
    let! offset := lift r in
    do! notify_waiters stream in
    ret offset
  end.

Definition publish (stream : string) (key : option string) (payload : list byte) : M Offset :=
  publish_with_request_id stream key payload None.

Definition publish_batch (stream : string) (records : list PublishRecord) :
  M (list (Result Offset BrokerError)) :=
  if MAX_PUBLISH_BATCH_RECORDS <? vec_len records then
    fail (Configuration ("publish batch contains more than "
            +:+ pretty MAX_PUBLISH_BATCH_RECORDS +:+ " records"))
  else
    do! lift (validate_name "stream" stream) in
    do! get_or_create_stream stream in
    let! ss := locked stream in
    let! ios := effects (length records) (env_append env) in
    let! sync := effect (env_batch_sync env) in
    let '(r, log) := append_batch ios sync (ss_log ss) records in
    do! put_stream stream (set_log ss log) in
    let! outcomes := lift r in
    do! (if existsb is_ok outcomes then notify_waiters stream else ret tt) in
    ret outcomes.

Definition replay (stream consumer : string) (offset : Offset) : M ReplayMessage :=
  do! lift (validate_name "stream" stream) in
  do! lift (validate_name "consumer" consumer) in
  do! get_stream stream in
  let! ss := locked stream in
  lift (read_replay_message (ss_log ss) stream offset).

(** ** Consumer policies *)

Definition policy_unchanged (s : ConsumerState) (timeout : N) (attempts : option N) (delay : N) :
  option ConsumerPolicy :=
  match cs_policy s with
  | Some current =>
    if (ack_timeout_ms current =? timeout)
       && bool_decide (max_delivery_attempts current = attempts)
       && (retry_delay_ms current =? delay)
    then Some current else None
  | None => None
  end.

Definition configure_consumer (stream consumer : string) (timeout : N) (attempts : option N)
  (delay : N) : M ConsumerPolicy :=
  do! lift (validate_name "stream" stream) in
  do! lift (validate_name "consumer" consumer) in
  do! lift (validate_consumer_policy timeout attempts delay) in
  do! get_stream stream in
  let! s := load_for_request stream consumer in
  match policy_unchanged s timeout attempts delay with
  | Some current => ret current
  | None =>
    let version :=
      match cs_policy s with
      | Some policy => u64_saturating_add (policy_version policy) 1
      | None => 1
      end in
    if version =? 0 then fail (Configuration "consumer policy version exhausted")
    else
      let policy := policy_configured version timeout attempts delay in
      do! persist_or_reconcile stream stream consumer s (EvPolicyConfigured policy) in
      let s := rename_state (set_policy s (Some policy)) stream consumer in
      do! cache_state stream consumer s in
      do! notify_waiters stream in
      ret policy
  end.

Definition inspect_consumer (stream consumer : string) : M ConsumerPolicy :=
  do! lift (validate_name "stream" stream) in
  do! lift (validate_name "consumer" consumer) in
  do! get_stream stream in
  let! s := load_for_request stream consumer in
  match cs_policy s with
  | Some policy => ret policy
  | None => legacy_policy
  end.

(** ** Expired deliveries *)

Record ExpiredDeliveryPlan := {
  ep_deliveries : list InFlight;
  ep_schedules : list RetryScheduleEvent;
}.

Fixpoint plan_schedules (s : ConsumerState) (legacy : ConsumerPolicy) (observed_at_ms : N)
  (deliveries : list InFlight) : Result (list RetryScheduleEvent) BrokerError :=
  match deliveries with
  | [] => Ok []
  | delivery :: deliveries =>
    let offset := if_offset delivery in
    if bool_decide (is_Some (retry_not_before s !! offset)) then
      plan_schedules s legacy observed_at_ms deliveries
    else
      let? policy := policy_for_offset s offset legacy in
      if attempts_exhausted policy (attempts_of s offset) || (retry_delay_ms policy =? 0) then
        plan_schedules s legacy observed_at_ms deliveries
      else
        let? schedules := plan_schedules s legacy observed_at_ms deliveries in
        Ok ({| rse_offset := offset;
               rse_retry_not_before_ms :=
                 u64_saturating_add observed_at_ms (retry_delay_ms policy);
               rse_key := if_key delivery |} :: schedules)
  end.

Definition plan_expired_deliveries (ss : StreamState) (consumer : string) (s : ConsumerState)
  (legacy : ConsumerPolicy) (now observed_at_ms : N) : Result ExpiredDeliveryPlan BrokerError :=
  let deliveries := expired_deliveries (ss_delivery ss) consumer now in
  let? schedules := plan_schedules s legacy observed_at_ms deliveries in
  Ok {| ep_deliveries := deliveries; ep_schedules := schedules |}.

Definition apply_expired_delivery_plan (stream consumer : string) (s : ConsumerState)
  (plan : ExpiredDeliveryPlan) : M ConsumerState :=
  match ep_deliveries plan with
  | [] => ret s
  | _ =>
    let! s :=
      match ep_schedules plan with
      | [] => ret s
      | schedules =>
        do! persist_or_reconcile stream (cs_stream s) consumer s (EvRetrySchedules schedules) in
        let s := foldl or_insert_schedule s schedules in
        do! cache_state stream consumer s in
        ret s
      end in
    do! update_delivery stream
      (fun d => remove_all d consumer (if_offset <$> ep_deliveries plan)) in
    do! notify_waiters stream in
    ret s
  end.

Definition observe_expired_deliveries (stream consumer : string) (s : ConsumerState)
  (legacy : ConsumerPolicy) (now : N) : M ConsumerState :=
  let! observed_at_ms := wall_clock_ms in
  let! ss := locked stream in
  let! plan := lift (plan_expired_deliveries ss consumer s legacy now observed_at_ms) in
  apply_expired_delivery_plan stream consumer s plan.

(** ** Deliveries of an earlier process *)

Definition orphan_retry_schedule (log : StreamLog) (s : ConsumerState) (legacy : ConsumerPolicy)
  (offset : Offset) (observed_at_ms : N) : Result (option RetryScheduleEvent) BrokerError :=
  if bool_decide (is_Some (retry_not_before s !! offset)) then Ok None
  else if attempts_of s offset =? 0 then Ok None
  else
    let? policy := policy_for_offset s offset legacy in
    if attempts_exhausted policy (attempts_of s offset) || (retry_delay_ms policy =? 0) then Ok None
    else
      let? record := find_record log offset in
      Ok (Some {| rse_offset := offset;
                  rse_retry_not_before_ms :=
                    u64_saturating_add observed_at_ms (retry_delay_ms policy);
                  rse_key := ri_key record |}).

Definition schedule_orphan_retry (stream consumer : string) (s : ConsumerState)
  (legacy : ConsumerPolicy) (offset : Offset) : M (ConsumerState * bool) :=
  let! observed_at_ms := wall_clock_ms in
  let! ss := locked stream in
  let! schedule := lift (orphan_retry_schedule (ss_log ss) s legacy offset observed_at_ms) in
  match schedule with
  | None => ret (s, false)
  | Some schedule =>
    do! persist_or_reconcile stream stream consumer s (EvRetrySchedules [schedule]) in
    let s := set_retries s (<[offset := schedule_of schedule]> (retry_not_before s)) in
    do! cache_state stream consumer s in
    do! notify_waiters stream in
    ret (s, observed_at_ms <? rse_retry_not_before_ms schedule)
  end.

(** An attempt is recorded, no retry is scheduled and nobody holds the delivery. *)
Definition is_orphan (ss : StreamState) (consumer : string) (s : ConsumerState) (offset : Offset) :
  bool :=
  (0 <? attempts_of s offset)
  && negb (bool_decide (is_Some (retry_not_before s !! offset)))
  && negb (bool_decide (is_Some (get_in_flight (ss_delivery ss) consumer offset))).

(** ** Dead letters *)

Definition is_dead_letter_stream (stream : string) : M bool :=
  if ends_with stream DEAD_LETTER_SUFFIX then ret true
  else if negb (starts_with stream DEAD_LETTER_HASH_PREFIX) then ret false
  else
    gets (fun b =>
      existsb (fun source =>
          match dead_letter_stream_name source with
          | Ok target => bool_decide (target = stream)
          | Err _ => false
          end) (map_to_list (br_streams b)).*1).

(** Whether a record has used up its attempts, which sends it to the
    dead-letter stream unless it is in one. *)
Definition exhausted_now (stream : string) (policy : ConsumerPolicy) (attempts : N) : M bool :=
  if attempts_exhausted policy attempts then
    let! dead_letter := is_dead_letter_stream stream in ret (negb dead_letter)
  else ret false.

Definition dead_letter_record (stream consumer : string) (record : RecordIndex) : M unit :=
  let! dead_letter_stream := lift (dead_letter_stream_name stream) in
  let! move_id := lift (dead_letter_move_id stream consumer (ri_offset record)) in
  let! source := locked stream in
  let! message := lift (read_message (ss_log source) stream (ri_offset record)) in
  do! get_or_create_stream dead_letter_stream in
  let! target := locked dead_letter_stream in
  let! io := effect (env_append env) in
  let '(r, log) :=
    append_with_move_id io (ss_log target) (msg_key message) (msg_payload message) move_id in
  do! put_stream dead_letter_stream (set_log target log) in
  let! _ := lift r in
  ret tt.

(** A dead letter is copied first and acknowledged after. *)
Definition dead_letter (stream consumer : string) (s : ConsumerState) (record : RecordIndex) :
  M ConsumerState :=
  do! dead_letter_record stream consumer record in
  do! persist_or_reconcile stream stream consumer s (EvAcknowledge (ri_offset record)) in
  let s := acknowledge s (ri_offset record) in
  do! cache_state stream consumer s in
  do! notify_waiters stream in
  do! count_dead_letter in
  ret s.

Fixpoint persist_pending_dead_letters (stream consumer : string) (s : ConsumerState)
  (candidates : list RecordIndex) : M ConsumerState :=
  match candidates with
  | [] => ret s
  | candidate :: candidates =>
    let! s := dead_letter stream consumer s candidate in
    persist_pending_dead_letters stream consumer s candidates
  end.

(** ** Single polls *)

(** A poll of a member: the names, the member shown in the response, the limit
    on the response and the policy of unconfigured consumers. *)
Record PollRequest := {
  po_stream : string;
  po_consumer : string;
  po_member : string;
  po_response_member : option string;
  po_max_response_bytes : option N;
  po_legacy : ConsumerPolicy;
}.

Definition response_bound (req : PollRequest) (message : Message) : N :=
  poll_message_response_upper_bound message (po_consumer req) (po_response_member req)
    (bool_decide (is_Some (po_response_member req))).

(** [if max_response_bytes.is_some_and(|limit| bound > limit) { return Err(...) }] *)
Definition check_response (req : PollRequest) (message : Message) : M unit :=
  match po_max_response_bytes req with
  | Some limit =>
    if limit <? response_bound req message then fail (ResponseTooLarge limit) else ret tt
  | None => ret tt
  end.

(** The delivery that a member already holds. *)
Definition existing_message (req : PollRequest) (ss : StreamState) (delivery : InFlight) :
  M PollResult :=
  let! message := lift (read_message (ss_log ss) (po_stream req) (if_offset delivery)) in
  let message := with_delivery message (if_delivery_token delivery) (if_delivery_attempt delivery) in
  do! check_response req message in
  ret (PollMessage message).

Definition preview_retry (s : ConsumerState) (schedule : RetryScheduleEvent) : ConsumerState :=
  set_retries s (<[rse_offset schedule := schedule_of schedule]> (retry_not_before s)).

(** The retry that the preflight foresees for an orphan: only one in the future counts. *)
Definition future_schedule (now_ms : N) (schedule : option RetryScheduleEvent) :
  option RetryScheduleEvent :=
  match schedule with
  | Some schedule => if now_ms <? rse_retry_not_before_ms schedule then Some schedule else None
  | None => None
  end.

(** The loop of the preflight: what the poll is going to deliver, found
    without changing anything. *)
Fixpoint preflight_loop (fuel : nat) (req : PollRequest) (limit now_ms : N)
  (released : gset Offset) (is_dead_letter : bool) (s : ConsumerState) (retry : Filter) :
  M (option (Offset * string)) :=
  match fuel with
  | O => abort
  | S fuel =>
    let! ss := locked (po_stream req) in
    let! candidate :=
      lift (find_candidate_excluding_released ss (po_consumer req) (committed_offset s)
              (acknowledged_offsets s) retry released) in
    match candidate with
    | None => ret None
    | Some candidate =>
      let offset := ri_offset candidate in
      let attempts := attempts_of s offset in
      let! policy := lift (policy_for_offset s offset (po_legacy req)) in
      let! schedule :=
        (if is_orphan ss (po_consumer req) s offset then
           lift (orphan_retry_schedule (ss_log ss) s (po_legacy req) offset now_ms)
         else ret None) in
      match future_schedule now_ms schedule with
      | Some schedule =>
        preflight_loop fuel req limit now_ms released is_dead_letter (preview_retry s schedule)
          (filter_insert retry (rse_offset schedule) (rse_key schedule))
      | None =>
        if attempts_exhausted policy attempts && negb is_dead_letter then
          preflight_loop fuel req limit now_ms released is_dead_letter s
            (filter_insert retry offset None)
        else
          let! message := lift (read_message (ss_log ss) (po_stream req) offset) in
          let! token := next_token in
          let message := with_delivery message token (u32_saturating_add attempts 1) in
          if limit <? response_bound req message then fail (ResponseTooLarge limit)
          else ret (Some (offset, token))
      end
    end
  end.

(** Enough rounds for any loop that takes a new record in each. *)
Definition search_fuel (ss : StreamState) : nat := S (N.to_nat (log_next_offset (ss_log ss))).

Definition preflight_poll_response (req : PollRequest) (limit : N) (s : ConsumerState) (now_ms : N)
  (plan : ExpiredDeliveryPlan) : M (option (Offset * string)) :=
  let released := list_to_set (if_offset <$> ep_deliveries plan) in
  let! ss := locked (po_stream req) in
  let! held := lift (member_deliveries (ss_delivery ss) (po_consumer req) (po_member req)) in
  match List.find (fun delivery => negb (bool_decide (if_offset delivery ∈ released))) held with
  | Some delivery => do! existing_message req ss delivery in ret None
  | None =>
    let s := foldl or_insert_schedule s (ep_schedules plan) in
    let! is_dead_letter := is_dead_letter_stream (po_stream req) in
    preflight_loop (search_fuel ss) req limit now_ms released is_dead_letter s
      (retry_filter s now_ms)
  end.

(** The delivery of one record, once it is selected: the attempt is persisted
    first, then the lease starts. *)
Definition hand_over (req : PollRequest) (s : ConsumerState) (candidate : RecordIndex)
  (policy : ConsumerPolicy) (attempt : N) (token : string) (message : Message) : M PollResult :=
  let stream := po_stream req in
  let consumer := po_consumer req in
  let offset := ri_offset candidate in
  do! persist_or_reconcile stream stream consumer s
    (EvDeliveryAttempt {| da_offset := offset; da_attempt := attempt; da_policy := policy |}) in
  let s := record_attempt s offset attempt policy in
  do! (if 1 <? attempt then count_redelivery else ret tt) in
  let! now := instant_now in
  let! deadline := instant_add now (nanos_of_millis (ack_timeout_ms policy)) in
  do! update_delivery stream (fun d =>
    delivery_insert d consumer
      {| if_member := po_member req; if_offset := offset; if_key := ri_key candidate;
         if_delivery_attempt := attempt; if_delivery_token := token;
         if_requires_receipt := false; if_deadline := deadline |}) in
  do! cache_state stream consumer s in
  do! notify_waiters stream in
  ret (PollMessage message).

(** Dead letters that were put off go before it, once the response is known to fit. *)
Definition send (req : PollRequest) (s : ConsumerState) (terminal : list RecordIndex)
  (candidate : RecordIndex) (policy : ConsumerPolicy) (message : Message) (token : string) :
  M PollResult :=
  let attempt := u32_saturating_add (attempts_of s (ri_offset candidate)) 1 in
  let message := with_delivery message token attempt in
  do! check_response req message in
  let! s := persist_pending_dead_letters (po_stream req) (po_consumer req) s terminal in
  hand_over req s candidate policy attempt token message.

Definition deliver (req : PollRequest) (s : ConsumerState) (terminal : list RecordIndex)
  (prepared : option (Offset * string)) (candidate : RecordIndex) (policy : ConsumerPolicy) :
  M PollResult :=
  let! ss := locked (po_stream req) in
  let! message := lift (read_message (ss_log ss) (po_stream req) (ri_offset candidate)) in
  let! token :=
    match po_max_response_bytes req with
    | Some _ => match prepared with Some (_, token) => ret token | None => abort end
    | None => next_token
    end in
  send req s terminal candidate policy message token.

Fixpoint poll_loop (fuel : nat) (req : PollRequest) (s : ConsumerState)
  (terminal : list RecordIndex) (retry : Filter) (prepared : option (Offset * string)) :
  M PollResult :=
  match fuel with
  | O => abort
  | S fuel =>
    let stream := po_stream req in
    let consumer := po_consumer req in
    let! ss := locked stream in
    let! candidate :=
      lift (find_candidate_excluding ss consumer (committed_offset s) (acknowledged_offsets s) retry) in
    match candidate with
    | None =>
      do! persist_pending_dead_letters stream consumer s terminal in
      ret PollEmpty
    | Some candidate =>
      let offset := ri_offset candidate in
      let attempts := attempts_of s offset in
      let! policy := lift (policy_for_offset s offset (po_legacy req)) in
      let! (s, delayed) :=
        (if is_orphan ss consumer s offset then
           schedule_orphan_retry stream consumer s (po_legacy req) offset
         else ret (s, false)) in
      if delayed then
        let key :=
          match retry_not_before s !! offset with Some schedule => rs_key schedule | None => None end in
        poll_loop fuel req s terminal (filter_insert retry offset key) prepared
      else
        let! exhausted := exhausted_now stream policy attempts in
        if exhausted then
          poll_loop fuel req s (terminal ++ [candidate]) (filter_insert retry offset None) prepared
        else deliver req s terminal prepared candidate policy
    end
  end.

(** A poll that has passed the checks, at the time [now]. *)
Definition poll_at (req : PollRequest) (now : N) : M PollResult :=
  let stream := po_stream req in
  let consumer := po_consumer req in
  let! s := load_for_request stream consumer in
  let! now_ms := wall_clock_ms in
  let! ss := locked stream in
  let! plan := lift (plan_expired_deliveries ss consumer s (po_legacy req) now now_ms) in
  let! prepared :=
    match po_max_response_bytes req with
    | Some limit => preflight_poll_response req limit s now_ms plan
    | None => ret None
    end in
  let! s := apply_expired_delivery_plan stream consumer s plan in
  let! ss := locked stream in
  let! held := lift (member_delivery (ss_delivery ss) consumer (po_member req)) in
  match held with
  | Some delivery => existing_message req ss delivery
  | None => poll_loop (search_fuel ss) req s [] (retry_filter s now_ms) prepared
  end.

Definition poll_group_inner (stream consumer member : string) (response_member : option string)
  (max_response_bytes : option N) : M PollResult :=
  do! lift (validate_name "stream" stream) in
  do! lift (validate_name "consumer" consumer) in
  do! lift (validate_name "member" member) in
  do! (match max_response_bytes with
       | Some limit => lift (validate_poll_response_limit limit)
       | None => ret tt
       end) in
  do! get_stream stream in
  let! now := instant_now in
  let! legacy := legacy_policy in
  poll_at {| po_stream := stream; po_consumer := consumer; po_member := member;
             po_response_member := response_member;
             po_max_response_bytes := max_response_bytes; po_legacy := legacy |} now.

Definition poll_group (stream consumer member : string) : M PollResult :=
  poll_group_inner stream consumer member (Some member) None.

Definition poll (stream consumer : string) : M PollResult := poll_group stream consumer consumer.

Definition poll_with_response_limit (stream consumer : string) (limit : N) : M PollResult :=
  poll_group_inner stream consumer consumer None (Some limit).

Definition poll_group_with_response_limit (stream consumer member : string) (limit : N) :
  M PollResult :=
  poll_group_inner stream consumer member (Some member) (Some limit).

(** ** Batch polls *)

Inductive PollBatchStep :=
| Complete (messages : list Message)
| Waiting (next_expiry : option N).

Record PendingDelivery := {
  pd_message : Message;
  pd_key : option string;
  pd_attempt : N;
  pd_policy : ConsumerPolicy;
}.

Record BatchRequest := {
  ba_stream : string;
  ba_consumer : string;
  ba_member : string;
  ba_response_member : option string;
  ba_limits : ConsumeBatchLimits;
  ba_deadline : N;
  ba_token_seed : string;
}.

(** The deliveries that the member already holds. *)
Fixpoint batch_existing (req : BatchRequest) (log : StreamLog) (deliveries : list InFlight)
  (sizer : PollBatchResponseSizer) : Result (list Message) BrokerError :=
  match deliveries with
  | [] => Ok []
  | delivery :: deliveries =>
    let? message := read_message log (ba_stream req) (if_offset delivery) in
    let message := with_delivery message (if_delivery_token delivery) (if_delivery_attempt delivery) in
    let sizer := sizer_push sizer message in
    if max_bytes (ba_limits req) <? encoded_len sizer then
      Err (InvalidBatchRequest "the active delivery set exceeds max_bytes; retry with the original or a larger limit")
    else
      let? messages := batch_existing req log deliveries sizer in
      Ok (message :: messages)
  end.

(** What the selection loop has gathered. *)
Record BatchSelection := {
  bs_state : ConsumerState;
  bs_extra : Filter;
  bs_pending : list PendingDelivery;
  bs_sizer : PollBatchResponseSizer;
  bs_stopped : bool;
}.

(** One more record, unless it does not fit. The flag says whether to go on. *)
Definition batch_take (req : BatchRequest) (sel : BatchSelection) (candidate : RecordIndex)
  (attempts : N) (policy : ConsumerPolicy) : M (BatchSelection * bool) :=
  let stream := ba_stream req in
  let limits := ba_limits req in
  let offset := ri_offset candidate in
  let! ss := locked stream in
  let! message := lift (read_message (ss_log ss) stream offset) in
  let attempt := u32_saturating_add attempts 1 in
  let message := with_delivery message (ba_token_seed req +:+ "-" +:+ hex offset) attempt in
  if max_bytes limits <? projected_len (bs_sizer sel) message then
    match bs_pending sel with
    | [] => fail (ConsumeBatchRecordTooLarge (max_bytes limits))
    | _ =>
      ret ({| bs_state := bs_state sel; bs_extra := bs_extra sel; bs_pending := bs_pending sel;
              bs_sizer := bs_sizer sel; bs_stopped := true |}, false)
    end
  else
    ret ({| bs_state := bs_state sel;
            bs_extra := filter_insert (bs_extra sel) offset (msg_key message);
            bs_pending := bs_pending sel ++
              [{| pd_message := message; pd_key := ri_key candidate; pd_attempt := attempt;
                  pd_policy := policy |}];
            bs_sizer := sizer_push (bs_sizer sel) message;
            bs_stopped := bs_stopped sel |}, true).

(** The selection with a new consumer state and new reservations. *)
Definition with_state (sel : BatchSelection) (s : ConsumerState) (extra : Filter) : BatchSelection :=
  {| bs_state := s; bs_extra := extra; bs_pending := bs_pending sel; bs_sizer := bs_sizer sel;
     bs_stopped := bs_stopped sel |}.

(** What the loop does with the record it found. *)
Definition batch_round (req : BatchRequest) (legacy : ConsumerPolicy) (sel : BatchSelection)
  (ss : StreamState) (candidate : RecordIndex) : M (BatchSelection * bool) :=
  let stream := ba_stream req in
  let consumer := ba_consumer req in
  let offset := ri_offset candidate in
  let attempts := attempts_of (bs_state sel) offset in
  let! policy := lift (policy_for_offset (bs_state sel) offset legacy) in
  let! (s, delayed) :=
    (if is_orphan ss consumer (bs_state sel) offset then
       schedule_orphan_retry stream consumer (bs_state sel) legacy offset
     else ret (bs_state sel, false)) in
  if delayed then
    let extra :=
      match retry_not_before s !! offset with
      | Some schedule => filter_insert (bs_extra sel) offset (rs_key schedule)
      | None => bs_extra sel
      end in
    ret (with_state sel s extra, true)
  else
    let! dead := exhausted_now stream policy attempts in
    if dead then
      let! s := dead_letter stream consumer s candidate in
      ret (with_state sel s (bs_extra sel), true)
    else batch_take req (with_state sel s (bs_extra sel)) candidate attempts policy.

Fixpoint batch_loop (fuel : nat) (req : BatchRequest) (legacy : ConsumerPolicy)
  (sel : BatchSelection) : M BatchSelection :=
  match fuel with
  | O => abort
  | S fuel =>
    let limits := ba_limits req in
    let s := bs_state sel in
    if (vec_len (bs_pending sel) <? max_records limits)
       && (encoded_len (bs_sizer sel) <? max_bytes limits) then
      let! ss := locked (ba_stream req) in
      let! candidate :=
        lift (find_candidate_excluding ss (ba_consumer req) (committed_offset s)
                (acknowledged_offsets s) (bs_extra sel)) in
      match candidate with
      | None => ret sel
      | Some candidate =>
        let! (sel, continues) := batch_round req legacy sel ss candidate in
        if continues then batch_loop fuel req legacy sel else ret sel
      end
    else ret sel
  end.

Definition next_consumer_wake (d : DeliveryState) (consumer : string) (s : ConsumerState)
  (now_ms : N) : M (option N) :=
  let next_lease := next_deadline_for_consumer d consumer in
  let pending :=
    list_min (filter (fun deadline => now_ms < deadline)
      (retry_not_before_ms <$> btree_values (retry_not_before s))) in
  let! next_retry :=
    match pending with
    | Some deadline =>
      let! now := instant_now in
      let! wake := instant_add now (nanos_of_millis (deadline - now_ms)) in
      ret (Some wake)
    | None => ret None
    end in
  ret (match next_lease, next_retry with
       | Some lease, Some retry => Some (N.min lease retry)
       | Some lease, None => Some lease
       | None, retry => retry
       end).

(** [.expect("batch delivery token was assigned above")] *)
Definition expect {A} (o : option A) : M A :=
  match o with Some a => ret a | None => abort end.

Fixpoint assign_pending (req : BatchRequest) (s : ConsumerState) (pending : list PendingDelivery) :
  M ConsumerState :=
  match pending with
  | [] => ret s
  | delivery :: pending =>
    let message := pd_message delivery in
    let offset := msg_offset message in
    let s := record_attempt s offset (pd_attempt delivery) (pd_policy delivery) in
    let! token := expect (msg_delivery_token message) in
    let! now := instant_now in
    let! deadline := instant_add now (nanos_of_millis (ack_timeout_ms (pd_policy delivery))) in
    do! update_delivery (ba_stream req) (fun d =>
      delivery_insert d (ba_consumer req)
        {| if_member := ba_member req; if_offset := offset; if_key := pd_key delivery;
           if_delivery_attempt := pd_attempt delivery; if_delivery_token := token;
           if_requires_receipt := true; if_deadline := deadline |}) in
    do! (if 1 <? pd_attempt delivery then count_redelivery else ret tt) in
    assign_pending req s pending
  end.

Definition attempt_of (delivery : PendingDelivery) : DeliveryAttempt :=
  {| da_offset := msg_offset (pd_message delivery); da_attempt := pd_attempt delivery;
     da_policy := pd_policy delivery |}.

(** The end of a batch poll: all its deliveries become durable with one event. *)
Definition batch_deliver (req : BatchRequest) (s : ConsumerState) (pending : list PendingDelivery) :
  M PollBatchStep :=
  let stream := ba_stream req in
  let consumer := ba_consumer req in
  do! persist_or_reconcile stream stream consumer s (EvDeliveryAttempts (attempt_of <$> pending)) in
  let! s := assign_pending req s pending in
  do! cache_state stream consumer (rename_state s stream consumer) in
  do! notify_waiters stream in
  ret (Complete (pd_message <$> pending)).

(** The member gets the deliveries that it holds, if they fit. *)
Definition batch_held (req : BatchRequest) (ss : StreamState) (held : list InFlight) : M PollBatchStep :=
  if max_records (ba_limits req) <? vec_len held then
    fail (InvalidBatchRequest "the active delivery set exceeds max_records; retry with the original or a larger limit")
  else
    let! messages :=
      lift (batch_existing req (ss_log ss) held
              (sizer_new (ba_stream req) (ba_consumer req) (ba_response_member req))) in
    ret (Complete messages).

(** After the selection: wait for more, or deliver. *)
Definition batch_finish (req : BatchRequest) (is_waiting : bool) (now_ms : N) (sel : BatchSelection) :
  M PollBatchStep :=
  let limits := ba_limits req in
  let! now := instant_now in
  let deadline_reached := ba_deadline req <=? now in
  let record_limit_reached := vec_len (bs_pending sel) =? max_records limits in
  let byte_limit_reached := bs_stopped sel || (max_bytes limits <=? encoded_len (bs_sizer sel)) in
  if is_waiting && negb deadline_reached && negb record_limit_reached && negb byte_limit_reached then
    let! ss := locked (ba_stream req) in
    let! next_expiry :=
      next_consumer_wake (ss_delivery ss) (ba_consumer req) (bs_state sel) now_ms in
    ret (Waiting next_expiry)
  else
    match bs_pending sel with
    | [] => ret (Complete [])
    | pending => batch_deliver req (bs_state sel) pending
    end.

Definition poll_batch_step (req : BatchRequest) : M PollBatchStep :=
  let stream := ba_stream req in
  let consumer := ba_consumer req in
  let limits := ba_limits req in
  do! get_stream stream in
  let! now := instant_now in
  let! legacy := legacy_policy in
  let! s := load_for_request stream consumer in
  let! now_ms := wall_clock_ms in
  let! s := observe_expired_deliveries stream consumer s legacy now in
  let! ss := locked stream in
  let! held := lift (member_deliveries (ss_delivery ss) consumer (ba_member req)) in
  match held with
  | _ :: _ => batch_held req ss held
  | [] =>
    let is_waiting := (0 <? max_wait_ms limits) && (now <? ba_deadline req) in
    let! sel :=
      batch_loop (search_fuel ss) req legacy
        {| bs_state := s; bs_extra := retry_filter s now_ms; bs_pending := [];
           bs_sizer := sizer_new stream consumer (ba_response_member req); bs_stopped := false |} in
    batch_finish req is_waiting now_ms sel
  end.

(** The checks of a batch poll, the deadline and the seed of its tokens. *)
Definition poll_batch_start (stream consumer member : string) (response_member : option string)
  (limits : ConsumeBatchLimits) : M BatchRequest :=
  do! lift (validate_name "stream" stream) in
  do! lift (validate_name "consumer" consumer) in
  do! lift (validate_name "member" member) in
  do! lift (validate_consume_batch_limits limits) in
  if max_bytes limits <? poll_batch_response_len stream consumer response_member [] then
    fail (InvalidBatchRequest "max_bytes is too small for an empty consume-batch response")
  else
    do! get_stream stream in
    let! start := instant_now in
    match instant_checked_add start (nanos_of_millis (max_wait_ms limits)) with
    | None => fail (InvalidBatchRequest "max_wait_ms is too large")
    | Some deadline =>
      let! token_seed := next_token in
      ret {| ba_stream := stream; ba_consumer := consumer; ba_member := member;
             ba_response_member := response_member; ba_limits := limits;
             ba_deadline := deadline; ba_token_seed := token_seed |}
    end.

(** The rounds of a batch poll. Between two rounds the operations of others
    run ([others]), until a notification or the time [wake_at] arrives. *)
Definition wake_at (req : BatchRequest) (next_expiry : option N) : N :=
  match next_expiry with
  | Some expiry => N.min (ba_deadline req) expiry
  | None => ba_deadline req
  end.

Fixpoint poll_batch_rounds (rounds : nat) (others : N -> M unit) (req : BatchRequest) :
  M (list Message) :=
  match rounds with
  | O => abort
  | S rounds =>
    let! step := poll_batch_step req in
    match step with
    | Complete messages => ret messages
    | Waiting next_expiry =>
      do! others (wake_at req next_expiry) in
      poll_batch_rounds rounds others req
    end
  end.

Definition poll_batch_wait (rounds : nat) (others : N -> M unit) (stream consumer member : string)
  (response_member : option string) (limits : ConsumeBatchLimits) : M (list Message) :=
  let! req := poll_batch_start stream consumer member response_member limits in
  poll_batch_rounds rounds others req.

(** ** Acknowledgements *)

Definition ack_group (stream consumer member : string) (offset : Offset) (delivery_token : string) :
  M AckResult :=
  do! lift (validate_name "stream" stream) in
  do! lift (validate_name "consumer" consumer) in
  do! lift (validate_name "member" member) in
  do! get_stream stream in
  let! s := load_for_request stream consumer in
  let! legacy := legacy_policy in
  let! now := instant_now in
  let! s := observe_expired_deliveries stream consumer s legacy now in
  if offset <? committed_offset s then ret AlreadyAcknowledged
  else if bool_decide (offset ∈ acknowledged_offsets s) then ret AlreadyAcknowledged
  else
    let! ss := locked stream in
    match get_in_flight (ss_delivery ss) consumer offset with
    | None =>
      do! (if bool_decide (is_Some (delivery_attempts s !! offset)) then
             do! schedule_orphan_retry stream consumer s legacy offset in ret tt
           else ret tt) in
      if bool_decide (delivery_token = "") then fail (AckNotInFlight consumer offset)
      else fail (StaleDelivery consumer offset)
    | Some delivery =>
      if negb (bool_decide (if_member delivery = member))
         || (if_requires_receipt delivery || negb (bool_decide (delivery_token = "")))
            && negb (bool_decide (if_delivery_token delivery = delivery_token))
      then fail (StaleDelivery consumer offset)
      else
        do! persist_or_reconcile stream stream consumer s (EvAcknowledge offset) in
        let s := rename_state (acknowledge s offset) stream consumer in
        do! update_delivery stream (fun d => (delivery_remove d consumer offset).2) in
        do! cache_state stream consumer s in
        do! notify_waiters stream in
        ret Acknowledged
    end.

Definition ack (stream consumer : string) (offset : Offset) : M AckResult :=
  ack_group stream consumer consumer offset "".

Definition receipt_judgement (s : ConsumerState) (d : DeliveryState) (consumer member : string)
  (receipt : DeliveryReceipt) : AckBatchOutcome :=
  let offset := dr_offset receipt in
  if (offset <? committed_offset s) || bool_decide (offset ∈ acknowledged_offsets s) then
    AlreadyConfirmed
  else if bool_decide (dr_delivery_token receipt = "") then ReceiptRejected StaleDeliveryReceipt
  else
    match get_in_flight d consumer offset with
    | Some delivery =>
      if negb (bool_decide (if_member delivery = member))
         || negb (bool_decide (if_delivery_token delivery = dr_delivery_token receipt))
      then ReceiptRejected StaleDeliveryReceipt
      else Confirmed
    | None =>
      if bool_decide (is_Some (delivery_attempts s !! offset))
      then ReceiptRejected StaleDeliveryReceipt
      else ReceiptRejected NotInFlight
    end.

(** The receipts in order: an orphan among them gets its retry scheduled. *)
Fixpoint judge_receipts (stream consumer member : string) (legacy : ConsumerPolicy)
  (s : ConsumerState) (receipts : list DeliveryReceipt) (outcomes : list AckBatchItem) :
  M (ConsumerState * list AckBatchItem) :=
  match receipts with
  | [] => ret (s, outcomes)
  | receipt :: receipts =>
    let offset := dr_offset receipt in
    let! ss := locked stream in
    let! (s, _) :=
      (if bool_decide (is_Some (delivery_attempts s !! offset))
          && negb (bool_decide (is_Some (get_in_flight (ss_delivery ss) consumer offset))) then
         schedule_orphan_retry stream consumer s legacy offset
       else ret (s, false)) in
    let! ss := locked stream in
    let outcome := receipt_judgement s (ss_delivery ss) consumer member receipt in
    judge_receipts stream consumer member legacy s receipts
      (outcomes ++ [{| abi_offset := offset; abi_outcome := outcome |}])
  end.

(** [valid_offsets]: the offsets of the confirmed receipts, in order. *)
Definition confirmed_offsets (outcomes : list AckBatchItem) : list Offset :=
  abi_offset <$> filter (fun item => abi_outcome item = Confirmed) outcomes.

Definition ack_batch (stream consumer member : string) (receipts : list DeliveryReceipt) :
  M (list AckBatchItem) :=
  do! lift (validate_name "stream" stream) in
  do! lift (validate_name "consumer" consumer) in
  do! lift (validate_name "member" member) in
  do! lift (validate_ack_batch_receipts receipts) in
  do! get_stream stream in
  let! s := load_for_request stream consumer in
  let! legacy := legacy_policy in
  let! now := instant_now in
  let! s := observe_expired_deliveries stream consumer s legacy now in
  let! (s, outcomes) := judge_receipts stream consumer member legacy s receipts [] in
  match confirmed_offsets outcomes with
  | [] => ret outcomes
  | valid_offsets =>
    do! persist_or_reconcile stream stream consumer s (EvAcknowledgeBatch valid_offsets) in
    do! update_delivery stream (fun d => remove_all d consumer valid_offsets) in
    do! cache_state stream consumer (rename_state (foldl acknowledge s valid_offsets) stream consumer) in
    do! notify_waiters stream in
    ret outcomes
  end.

(** ** Health *)

Definition health : M HealthSnapshot :=
  gets (fun b =>
    let streams := (map_to_list (br_streams b)).*2 in
    {| hs_streams := vec_len streams;
       hs_storage_bytes :=
         foldl (fun bytes ss => bytes + vec_len (log_file (ss_log ss))) 0 streams;
       hs_in_flight_deliveries :=
         foldl (fun n ss => n + in_flight_count (ss_delivery ss)) 0 streams;
       hs_redeliveries := br_redeliveries b;
       hs_dead_letters := br_dead_letters b |}).

End operations.

(** ** Opening the data directory *)

(** The stream that a directory entry holds: [None] for entries that are skipped. *)
Definition stream_of_file (name : string) : option string :=
  match split_last_dot (as_bytes name) with
  | Some ((_ :: _) as stem, extension) =>
    if bool_decide (extension = as_bytes "log") && utf8_valid stem then Some (of_bytes stem) else None
  | _ => None
  end.

(** The first pass reads and checks every stream file. *)
Fixpoint inspect_streams (files : list (string * list byte)) :
  Result (list (string * (StreamLog * option N))) BrokerError :=
  match files with
  | [] => Ok []
  | (file_name, bytes) :: files =>
    match stream_of_file file_name with
    | None => inspect_streams files
    | Some name =>
      let? _ := validate_name "stream" name in
      let? recovered := log_inspect bytes in
      let? rest := inspect_streams files in
      Ok ((name, recovered) :: rest)
    end
  end.

Record BrokerConfig := {
  bc_ack_timeout : N;
  bc_max_delivery_attempts : option N;
}.

(** The second pass truncates incomplete tails and starts every stream. *)
Definition recovered_streams (recovered : list (string * (StreamLog * option N))) :
  gmap string StreamState :=
  foldl (fun streams '(name, (log, incomplete_tail)) =>
    <[name := stream_new (finish_recovery log incomplete_tail)]> streams) ∅ recovered.

Definition broker_open (config : BrokerConfig) (files : list (string * list byte))
  (consumers : gmap (string * string) Files) (epoch : N) (tick : nat) :
  Result BrokerState BrokerError :=
  if bool_decide (bc_max_delivery_attempts config = Some 0) then
    Err (Configuration "max delivery attempts must be greater than zero")
  else
    let? recovered := inspect_streams files in
    Ok {| br_streams := recovered_streams recovered;
          br_consumers := consumers;
          br_ack_timeout := bc_ack_timeout config;
          br_max_delivery_attempts := bc_max_delivery_attempts config;
          br_redeliveries := 0;
          br_dead_letters := 0;
          br_delivery_tokens := {| epoch := epoch; next_id := 0 |};
          br_tick := tick |}.
