(* ===== verification/BrokerInvariant.v ===== *)
(** The broker's invariant and the program logic its proofs use.

    [wp m Q E b] says that running [m] from [b] never aborts, ends in [Q] when
    it returns a value and in [E] when it returns an error. The invariant says
    of every stream that its log represents a history of records, that the
    delivery indexes are consistent, and of every consumer that the cached
    state is what its files hold, that its deliveries belong to unfinished
    records, and that everything earlier with the key of a delivery is
    finished. *)

From S2P Require Import Prelude Engine RecordFormat Names StreamLog ConsumerState DeliveryState Durability Broker.

Local Open Scope N_scope.

(** ** Weakest preconditions *)

Definition wp {A} (m : M A) (Q : A -> BrokerState -> Prop) (E : BrokerError -> BrokerState -> Prop)
  (b : BrokerState) : Prop :=
  match m b with
  | (Val a, b') => Q a b'
  | (Fail e, b') => E e b'
  | (Aborts, _) => False
  end.

Lemma wp_mono {A} (m : M A) (Q Q' : A -> BrokerState -> Prop) (E E' : BrokerError -> BrokerState -> Prop) b :
  wp m Q E b -> (forall a b', Q a b' -> Q' a b') -> (forall e b', E e b' -> E' e b') -> wp m Q' E' b.
Proof. unfold wp. destruct (m b) as [[a|e|] b']; naive_solver. Qed.

Lemma wp_bind {A B} (m : M A) (k : A -> M B) Q E b :
  wp m (fun a b' => wp (k a) Q E b') E b -> wp (bind m k) Q E b.
Proof. unfold wp, bind. by destruct (m b) as [[a|e|] b']. Qed.

Lemma wp_ret {A} (a : A) (Q : A -> BrokerState -> Prop) E b : Q a b -> wp (ret a) Q E b.
Proof. done. Qed.

Lemma wp_fail {A} e (Q : A -> BrokerState -> Prop) (E : BrokerError -> BrokerState -> Prop) b :
  E e b -> wp (fail e) Q E b.
Proof. done. Qed.

Lemma wp_lift {A} (r : Result A BrokerError) (Q : A -> BrokerState -> Prop)
  (E : BrokerError -> BrokerState -> Prop) b :
  (forall a, r = Ok a -> Q a b) -> (forall e, r = Err e -> E e b) -> wp (lift r) Q E b.
Proof. destruct r; unfold wp, lift, ret, fail; auto. Qed.

Lemma wp_gets {A} (f : BrokerState -> A) (Q : A -> BrokerState -> Prop) E b :
  Q (f b) b -> wp (gets f) Q E b.
Proof. done. Qed.

Lemma wp_modify f (Q : unit -> BrokerState -> Prop) E b : Q tt (f b) -> wp (modify f) Q E b.
Proof. done. Qed.

Lemma wp_locked stream ss (Q : StreamState -> BrokerState -> Prop) E b :
  br_streams b !! stream = Some ss -> Q ss b -> wp (locked stream) Q E b.
Proof. intros H. unfold wp, locked. by rewrite H. Qed.

(** Reading the environment changes nothing but the counter. *)
Definition ticked (b : BrokerState) (n : nat) : BrokerState :=
  set_counters b (br_redeliveries b) (br_dead_letters b) (br_delivery_tokens b) n.

Lemma wp_effect {A} (f : nat -> A) (Q : A -> BrokerState -> Prop) E b :
  Q (f (br_tick b)) (ticked b (S (br_tick b))) -> wp (effect f) Q E b.
Proof. done. Qed.

Lemma wp_on_error {A} (m : M A) (handler : M unit) (Q : A -> BrokerState -> Prop)
  (E : BrokerError -> BrokerState -> Prop) b :
  wp m Q (fun e b' => wp handler (fun _ => E e) (fun _ => E e) b') b -> wp (on_error m handler) Q E b.
Proof.
  unfold wp, on_error. destruct (m b) as [[a|e|] b']; try done.
  by destruct (handler b') as [[?|?|] ?].
Qed.

Lemma wp_get_stream stream (Q : unit -> BrokerState -> Prop) (E : BrokerError -> BrokerState -> Prop) b :
  (forall ss, br_streams b !! stream = Some ss -> Q tt b) ->
  (br_streams b !! stream = None -> E (StreamNotFound stream) b) -> wp (get_stream stream) Q E b.
Proof. intros HQ HE. unfold wp, get_stream. destruct (br_streams b !! stream) eqn:H; eauto. Qed.

(** The policy of consumers without one of their own. *)
Definition legacy_of (b : BrokerState) : ConsumerPolicy :=
  policy_legacy (N.min (br_ack_timeout b / 1000000) u64_max) (br_max_delivery_attempts b).

Lemma legacy_of_timeout b : ack_timeout_ms (legacy_of b) <= u64_max.
Proof. cbn. lia. Qed.

(** One step of a symbolic run. *)
Ltac wp_step :=
  cbv zeta;
  match goal with
  | |- wp (bind _ _) _ _ _ => apply wp_bind
  | |- wp (ret _) _ _ _ => apply wp_ret
  | |- wp (fail _) _ _ _ => apply wp_fail
  | |- wp (gets _) _ _ _ => apply wp_gets
  | |- wp (consumer_files _ _) _ _ _ => apply wp_gets
  | |- wp legacy_policy _ _ _ => apply wp_gets
  | |- wp (modify _) _ _ _ => apply wp_modify
  | |- wp (put_files _ _ _) _ _ _ => apply wp_modify
  | |- wp (put_stream _ _) _ _ _ => apply wp_modify
  | |- wp (effect _) _ _ _ => apply wp_effect
  | |- wp (lift (Ok _)) _ _ _ => apply wp_ret
  | |- wp (lift (Err _)) _ _ _ => apply wp_fail
  end.

Section invariant.
Context `{HC : ConsumerCodec} {HL : ConsumerCodecLaws HC}.

(** ** The durable state of a consumer *)

Definition durable_state (f : Files) (stream consumer : string) : ConsumerState :=
  match load_checkpoint f stream consumer with
  | Ok base =>
    match replay_lines base 0 (split_inclusive (default [] (journal f))) with
    | Ok (s, _) => s
    | Err _ => base
    end
  | Err _ => consumer_initial stream consumer
  end.

Lemma holds_torn_durable f stream consumer s :
  holds_torn f stream consumer s -> durable_state f stream consumer = s.
Proof.
  intros (base & events & tail & [Hc Hj Ht _ _ Hr]). unfold durable_state.
  by rewrite Hc, Hj, replay_lines_journal, Hr by done.
Qed.

Lemma holds_durable f stream consumer s :
  holds f stream consumer s -> durable_state f stream consumer = s.
Proof. intros ?%holds_holds_torn. by apply holds_torn_durable. Qed.

Definition files_of (b : BrokerState) (stream consumer : string) : Files :=
  default no_files (br_consumers b !! (stream, consumer)).

(** ** What the broker maintains *)

(** The consumer's state fits the history: attempts and retries belong to
    records, under the record's key, and the numbers are in range. *)
Record known (es : list Entry) (s : ConsumerState) : Prop := {
  kn_attempts o a : delivery_attempts s !! o = Some a -> o < vec_len es /\ a <= u32_max;
  kn_retries o r : retry_not_before s !! o = Some r ->
    (exists e, vec_get es o = Some e /\ rs_key r = e_key e) /\ retry_not_before_ms r <= u64_max;
  kn_policy p : cs_policy s = Some p -> ack_timeout_ms p <= u64_max;
  kn_policies o p : delivery_policies s !! o = Some p -> ack_timeout_ms p <= u64_max;
}.

(** Everything earlier with the key of the record is finished. *)
Definition key_ready (es : list Entry) (s : ConsumerState) (o : Offset) (key : option string) : Prop :=
  forall k o' e', key = Some k -> o' < o -> vec_get es o' = Some e' -> e_key e' = Some k ->
  is_done s o' = true.

(** The deliveries of the consumer belong to records, count the recorded
    attempts, and respect the order of keys. *)
Definition flying (es : list Entry) (d : DeliveryState) (consumer : string) (s : ConsumerState) : Prop :=
  forall o i, in_flight d !! (consumer, o) = Some i ->
  exists e, vec_get es o = Some e /\ if_key i = e_key e /\ key_ready es s o (e_key e) /\
    (is_done s o = false -> delivery_attempts s !! o = Some (if_delivery_attempt i)).

(** None of them is finished. *)
Definition unfinished (d : DeliveryState) (consumer : string) (s : ConsumerState) : Prop :=
  forall o, is_Some (in_flight d !! (consumer, o)) -> is_done s o = false.

(** [settled] is false for a consumer whose files are ahead of its cached
    state, between a persist and the update of the cache. *)
Record consumer_ok (settled : bool) (es : list Entry) (d : DeliveryState) (f : Files)
  (stream consumer : string) : Prop := {
  co_files : holds_torn f stream consumer (durable_state f stream consumer);
  co_known : known es (durable_state f stream consumer);
  co_flying : flying es d consumer (durable_state f stream consumer);
  co_marked : consumer ∈ consumers_needing_reconcile d -> consumer_states d !! consumer = None;
  co_cached s : settled = true -> consumer_states d !! consumer = Some s ->
    s = durable_state f stream consumer /\ holds f stream consumer s;
  co_unfinished : settled = true -> consumer ∉ consumers_needing_reconcile d ->
    unfinished d consumer (durable_state f stream consumer);
}.

Record stream_ok (settled : string -> bool) (b : BrokerState) (stream : string) (ss : StreamState)
  (es : list Entry) : Prop := {
  so_log : ss_log ss = log_of es;
  so_entries : Forall entry_ok es;
  so_len : vec_len es <= u64_max;
  so_name : valid_name stream;
  so_delivery : delivery_wf (ss_delivery ss);
  so_consumers consumer :
    consumer_ok (settled consumer) es (ss_delivery ss) (files_of b stream consumer) stream consumer;
}.

Lemma so_represents settled b stream ss es :
  stream_ok settled b stream ss es -> represents (ss_log ss) es.
Proof. intros []. by split. Qed.

(** All consumers are settled except possibly [busy]. *)
Definition settled_for (busy : option (string * string)) (stream consumer : string) : bool :=
  negb (bool_decide (busy = Some (stream, consumer))).

Record inv (busy : option (string * string)) (b : BrokerState) : Prop := {
  inv_streams stream ss : br_streams b !! stream = Some ss ->
    exists es, stream_ok (settled_for busy stream) b stream ss es;
  inv_files stream consumer : is_Some (br_consumers b !! (stream, consumer)) ->
    is_Some (br_streams b !! stream);
}.

(** ** Monotonicity *)

Lemma known_mono es es' s : known es s -> known (es ++ es') s.
Proof.
  intros [H1 H2 H3 H4]. split; [|..|done|done].
  - intros o a [Ho Ha]%H1. rewrite vec_len_app. split; [lia|done].
  - intros o r Hr. destruct (H2 o r Hr) as [(e & He & Hk) Ht]. split; [|done].
    exists e. split; [by apply vec_get_app_l|done].
Qed.

Lemma key_ready_mono es es' s o key :
  o < vec_len es -> key_ready es s o key -> key_ready (es ++ es') s o key.
Proof.
  intros Ho H k o' e' Hk Hlt He' Hk'. apply (H k o' e' Hk Hlt); [|done].
  unfold vec_get in *. rewrite lookup_app_l in He'; [done|]. unfold vec_len in Ho. lia.
Qed.

Lemma flying_mono es es' d c s : flying es d c s -> flying (es ++ es') d c s.
Proof.
  intros H o i Hi. destruct (H o i Hi) as (e & He & Hk & Hr & Ha). exists e.
  split_and!; [by apply vec_get_app_l|done| |done].
  apply key_ready_mono; [by eapply vec_get_lt|done].
Qed.

Lemma consumer_ok_mono settled es es' d f stream c :
  consumer_ok settled es d f stream c -> consumer_ok settled (es ++ es') d f stream c.
Proof. intros []. split; eauto using known_mono, flying_mono. Qed.

(** A consumer of a stream without deliveries or files. *)
Lemma consumer_ok_new settled es stream c : consumer_ok settled es delivery_new no_files stream c.
Proof.
  pose proof (holds_no_files stream c) as Hh.
  pose proof (holds_durable _ _ _ _ Hh) as E.
  assert (Hnone : forall o, in_flight delivery_new !! (c, o) = None) by (intros o; apply lookup_empty).
  split; rewrite ?E.
  - by apply holds_holds_torn.
  - split; cbn; intros *; by rewrite ?lookup_empty.
  - intros o i. by rewrite Hnone.
  - done.
  - intros s _. cbn. by rewrite lookup_empty.
  - intros _ _ o. rewrite Hnone. by intros [].
Qed.

(** The facts about a consumer carry over when its part of the delivery state
    does: its deliveries and its mark are kept, its cached state is kept or
    evicted. *)
Record same_consumer (d d' : DeliveryState) (c : string) : Prop := {
  sc_in_flight o : in_flight d' !! (c, o) = in_flight d !! (c, o);
  sc_marked : c ∈ consumers_needing_reconcile d' <-> c ∈ consumers_needing_reconcile d;
  sc_cached s : consumer_states d' !! c = Some s -> consumer_states d !! c = Some s;
}.

Lemma same_consumer_refl d c : same_consumer d d c.
Proof. by split. Qed.

Lemma flying_same es d d' c s :
  (forall o, in_flight d' !! (c, o) = in_flight d !! (c, o)) -> flying es d c s -> flying es d' c s.
Proof. intros Hs H o i. rewrite Hs. apply H. Qed.

Lemma consumer_ok_same settled es d d' f stream c :
  same_consumer d d' c -> consumer_ok settled es d f stream c -> consumer_ok settled es d' f stream c.
Proof.
  intros [Hf Hm Hc] [H1 H2 H3 H4 H5 H6]. split; try done.
  - by eapply flying_same.
  - intros Hin. apply Hm, H4 in Hin. apply eq_None_not_Some. intros [s Hs].
    apply Hc in Hs. congruence.
  - intros s Hset Hs. by apply H5, Hc.
  - intros Hset Hni o. rewrite Hf. apply H6; [done|]. by rewrite <-Hm.
Qed.

Section consumer.
Context (stream consumer : string).

Definition busy (settled : bool) : option (string * string) :=
  if settled then None else Some (stream, consumer).

Lemma settled_for_other settled n c :
  (n, c) <> (stream, consumer) -> settled_for (busy settled) n c = true.
Proof.
  intros Hne. unfold settled_for, busy. destruct settled; cbn; [done|].
  rewrite bool_decide_eq_false_2; [done|]. congruence.
Qed.

Lemma settled_for_self settled : settled_for (busy settled) stream consumer = settled.
Proof.
  unfold settled_for, busy. destruct settled; cbn; [done|]. by rewrite bool_decide_eq_true_2.
Qed.

(** One step on the consumer's own stream: its log is kept, the other
    consumers are left alone. *)
Lemma inv_update settled settled' b b' ss ss' es :
  inv (busy settled) b -> br_streams b !! stream = Some ss ->
  stream_ok (settled_for (busy settled) stream) b stream ss es ->
  br_streams b' = <[stream := ss']> (br_streams b) ->
  (forall n c, (n, c) <> (stream, consumer) -> br_consumers b' !! (n, c) = br_consumers b !! (n, c)) ->
  ss_log ss' = ss_log ss -> delivery_wf (ss_delivery ss') ->
  (forall c, c <> consumer -> same_consumer (ss_delivery ss) (ss_delivery ss') c) ->
  consumer_ok settled' es (ss_delivery ss') (files_of b' stream consumer) stream consumer ->
  inv (busy settled') b' /\
  stream_ok (settled_for (busy settled') stream) b' stream ss' es.
Proof.
  intros [Hin Hfi] Hss [Hlog Hent Hlen Hname Hdel Hcons] Hst Hco Hlog' Hdel' Hoth Hself.
  assert (Hso : stream_ok (settled_for (busy settled') stream) b' stream ss' es).
  { split; try done; [congruence|]. intros c. destruct (decide (c = consumer)) as [->|Hne].
    - by rewrite settled_for_self.
    - unfold files_of. rewrite Hco by congruence. rewrite settled_for_other by congruence.
      specialize (Hcons c). rewrite settled_for_other in Hcons by congruence.
      by eapply consumer_ok_same; [apply Hoth|]. }
  split; [split|done].
  - intros n ss1. rewrite Hst. destruct (decide (n = stream)) as [->|Hne].
    + rewrite lookup_insert_eq. intros [= <-]. eauto.
    + rewrite lookup_insert_ne by done. intros Hn. destruct (Hin n ss1 Hn) as (es1 & H1).
      exists es1. destruct H1 as [? ? ? ? ? Hc1]. split; try done. intros c.
      unfold files_of. rewrite Hco by congruence. specialize (Hc1 c).
      rewrite settled_for_other in Hc1 |- * by congruence. done.
  - intros n c. rewrite Hst. destruct (decide (n = stream)) as [->|Hne].
    + rewrite lookup_insert_eq. eauto.
    + rewrite lookup_insert_ne, Hco by congruence. apply Hfi.
Qed.

(** ** How an operation changes the broker *)

Definition extends (log log' : StreamLog) : Prop :=
  forall es, represents log es -> exists es', represents log' (es ++ es').

(** The dead-letter stream holds a copy of the record, under the identity of
    its move. *)
Definition moved (b : BrokerState) (o : Offset) : Prop :=
  exists target tss tes i e' sss ses e,
    dead_letter_stream_name stream = Ok target /\ br_streams b !! target = Some tss /\
    represents (ss_log tss) tes /\ vec_get tes i = Some e' /\
    e_identity e' = MoveId (move_id stream consumer o) /\
    br_streams b !! stream = Some sss /\ represents (ss_log sss) ses /\ vec_get ses o = Some e /\
    e_key e' = e_key e /\ e_payload e' = e_payload e.

(** Logs grow; other streams keep their deliveries, other consumers keep
    theirs and their files; the consumer keeps what it has finished, and an
    offset becomes finished only if [A], or if [D] and it was moved. *)
Record evolves (A D : Offset -> Prop) (b b' : BrokerState) : Prop := {
  ev_config : br_ack_timeout b' = br_ack_timeout b /\
    br_max_delivery_attempts b' = br_max_delivery_attempts b;
  ev_tick : (br_tick b <= br_tick b')%nat;
  ev_streams n ss : br_streams b !! n = Some ss ->
    exists ss', br_streams b' !! n = Some ss' /\ extends (ss_log ss) (ss_log ss') /\
      (n <> stream -> ss_delivery ss' = ss_delivery ss) /\
      (forall c o, c <> consumer ->
         in_flight (ss_delivery ss') !! (c, o) = in_flight (ss_delivery ss) !! (c, o));
  ev_files n c : (n, c) <> (stream, consumer) ->
    br_consumers b' !! (n, c) = br_consumers b !! (n, c);
  ev_done o : is_done (durable_state (files_of b stream consumer) stream consumer) o = true ->
    is_done (durable_state (files_of b' stream consumer) stream consumer) o = true;
  ev_cause o : is_done (durable_state (files_of b' stream consumer) stream consumer) o = true ->
    is_done (durable_state (files_of b stream consumer) stream consumer) o = true \/
    A o \/ (D o /\ moved b' o);
}.

Lemma extends_refl log : extends log log.
Proof. intros es Hes. exists []. by rewrite app_nil_r. Qed.

Lemma moved_mono A D b b' o : evolves A D b b' -> moved b o -> moved b' o.
Proof.
  intros Hev (target & tss & tes & i & e' & sss & ses & e & Hn & Ht & Htl & Hi & Hid & Hs & Hsl & Ho & Hk & Hp).
  destruct (ev_streams _ _ _ _ Hev _ _ Ht) as (tss' & Ht' & Hext & _).
  destruct (ev_streams _ _ _ _ Hev _ _ Hs) as (sss' & Hs' & Hexs & _).
  destruct (Hext _ Htl) as [tes' Htl']. destruct (Hexs _ Hsl) as [ses' Hsl'].
  exists target, tss', (tes ++ tes'), i, e', sss', (ses ++ ses'), e.
  split_and!; try done; by apply vec_get_app_l.
Qed.

Lemma evolves_refl A D b : evolves A D b b.
Proof. split; eauto using extends_refl. Qed.

Lemma evolves_trans A D b1 b2 b3 : evolves A D b1 b2 -> evolves A D b2 b3 -> evolves A D b1 b3.
Proof.
  intros H12 H23. split.
  - destruct (ev_config _ _ _ _ H12), (ev_config _ _ _ _ H23). split; congruence.
  - pose proof (ev_tick _ _ _ _ H12). pose proof (ev_tick _ _ _ _ H23). lia.
  - intros n ss Hn. destruct (ev_streams _ _ _ _ H12 n ss Hn) as (ss2 & Hn2 & He2 & Hd2 & Hf2).
    destruct (ev_streams _ _ _ _ H23 n ss2 Hn2) as (ss3 & Hn3 & He3 & Hd3 & Hf3).
    exists ss3. split_and!; [done| | |].
    + intros es Hes. destruct (He2 es Hes) as [es2 Hes2]. destruct (He3 _ Hes2) as [es3 Hes3].
      exists (es2 ++ es3). by rewrite app_assoc.
    + intros Hne. by rewrite Hd3, Hd2.
    + intros c o Hc. by rewrite Hf3, Hf2.
  - intros n c Hne. rewrite (ev_files _ _ _ _ H23), (ev_files _ _ _ _ H12); done.
  - intros o Ho. eapply ev_done, ev_done; eauto.
  - intros o [Ho|[Ho|Ho]]%(ev_cause _ _ _ _ H23); [|auto|auto].
    apply (ev_cause _ _ _ _ H12) in Ho as [|[|[HD Ho]]]; [auto|auto|]. right; right. split; [done|].
    by eapply moved_mono.
Qed.

(** Steps that touch neither streams nor files. *)
Lemma evolves_counters A D b b' redeliveries dead_letters tokens tick :
  evolves A D b b' -> (br_tick b' <= tick)%nat ->
  evolves A D b (set_counters b' redeliveries dead_letters tokens tick).
Proof. intros [] Ht. split; try done. cbn. lia. Qed.

Lemma inv_counters ex b redeliveries dead_letters tokens tick :
  inv ex b -> inv ex (set_counters b redeliveries dead_letters tokens tick).
Proof.
  intros [H1 H2]. split; [|done]. intros n ss Hn. destruct (H1 n ss Hn) as (es & []). by exists es.
Qed.
End consumer.
End invariant.
