(* ===== verification/BrokerEvents.v ===== *)
(** What the broker's assignments to a consumer state do, compared with the
    events it persists: the in-memory update is the event, and the invariant's
    facts about the state carry over. *)

From S2P Require Import Prelude Engine RecordFormat Names StreamLog ConsumerState DeliveryState Durability Broker BrokerInvariant.

Local Open Scope N_scope.

(** ** Facts kept when progress grows *)

Lemma key_ready_done es s s' o key :
  (forall o, is_done s o = true -> is_done s' o = true) ->
  key_ready es s o key -> key_ready es s' o key.
Proof. intros Hd H k o' e' Hk Hlt He Hk'. eapply Hd, H; eauto. Qed.

Lemma flying_state es d c s s' :
  (forall o, is_done s o = true -> is_done s' o = true) ->
  (forall o, is_Some (in_flight d !! (c, o)) -> is_done s' o = false ->
     delivery_attempts s' !! o = delivery_attempts s !! o) ->
  flying es d c s -> flying es d c s'.
Proof.
  intros Hd Ha H o i Hi. destruct (H o i Hi) as (e & He & Hk & Hr & Hat). exists e.
  split_and!; [done|done|by eapply key_ready_done|]. intros Hdo. rewrite Ha by eauto.
  apply Hat. destruct (is_done s o) eqn:E; [|done]. rewrite (Hd o E) in Hdo. done.
Qed.

Lemma attempts_of_Some s o a : delivery_attempts s !! o = Some a -> attempts_of s o = a.
Proof. intros H. unfold attempts_of. by rewrite H. Qed.

(** ** Policies *)

Lemma policy_for_offset_ok es s o legacy :
  consumer_wf s -> known es s -> ack_timeout_ms legacy <= u64_max ->
  exists p, policy_for_offset s o legacy = Ok p /\ ack_timeout_ms p <= u64_max.
Proof.
  intros Hwf Hk Hl. unfold policy_for_offset.
  destruct (delivery_policies s !! o) as [p|] eqn:E.
  - exists p. split; [done|]. by eapply kn_policies.
  - rewrite bool_decide_eq_false_2.
    + eexists. split; [done|]. destruct (cs_policy s) as [p|] eqn:Ep; [|done]. by apply (kn_policy es s Hk).
    + intros Ha%(wf_policies s Hwf). rewrite E in Ha. by destruct Ha.
Qed.

(** ** Acknowledgements *)

Lemma acknowledge_done s o o' :
  consumer_wf s -> is_done (acknowledge s o) o' = is_done s o' || (o' =? o).
Proof. intros Hwf. apply (ak_done _ _ _ (acknowledge_spec s o Hwf)). Qed.

Lemma acknowledge_mono s o o' :
  consumer_wf s -> is_done s o' = true -> is_done (acknowledge s o) o' = true.
Proof. intros Hwf Hd. by rewrite acknowledge_done, Hd. Qed.

Lemma known_acknowledge es s o : consumer_wf s -> known es s -> known es (acknowledge s o).
Proof.
  intros Hwf [H1 H2 H3 H4]. destruct (acknowledge_spec s o Hwf) as [_ Ha Hp Hr _ _ Hpo _ _].
  split.
  - intros o' a. rewrite Ha. destruct (_ || _); [done|]. apply H1.
  - intros o' r. rewrite Hr. destruct (_ || _); [done|]. apply H2.
  - intros p. rewrite Hpo. apply H3.
  - intros o' p. rewrite Hp. destruct (_ || _); [done|]. apply H4.
Qed.

Lemma flying_acknowledge es d c s o :
  consumer_wf s -> flying es d c s -> flying es d c (acknowledge s o).
Proof.
  intros Hwf. apply flying_state; [intros; by apply acknowledge_mono|].
  intros o' _. rewrite acknowledge_done by done. intros Hd.
  by rewrite (ak_attempts _ _ _ (acknowledge_spec s o Hwf)), Hd.
Qed.

(** Several in a row. *)
Record acknowledged_all (es : list Entry) (d : DeliveryState) (c : string) (os : list Offset)
  (s s' : ConsumerState) : Prop := {
  aa_wf : consumer_wf s';
  aa_known : known es s';
  aa_flying : flying es d c s';
  aa_done o : is_done s' o = is_done s o || bool_decide (o ∈ os);
  aa_attempts o : is_done s' o = false -> delivery_attempts s' !! o = delivery_attempts s !! o;
  aa_policies o : is_done s' o = false -> delivery_policies s' !! o = delivery_policies s !! o;
  aa_retries o : is_done s' o = false -> retry_not_before s' !! o = retry_not_before s !! o;
  aa_policy : cs_policy s' = cs_policy s;
  aa_stream : cs_stream s' = cs_stream s;
  aa_consumer : cs_consumer s' = cs_consumer s;
}.

Lemma acknowledged_in_turn es d c s os :
  consumer_wf s -> known es s -> flying es d c s ->
  acknowledged_all es d c os s (foldl acknowledge s os).
Proof.
  revert s; induction os as [|o os IH]; intros s Hwf Hk Hf; cbn.
  - split; try done. intros o. rewrite bool_decide_eq_false_2, orb_false_r; [done|].
    apply not_elem_of_nil.
  - destruct (IH (acknowledge s o)) as [H1 H2 H3 H4 Ha Hp Hr Hpo Hst Hco];
      [by apply acknowledge_wf|by apply known_acknowledge|by apply flying_acknowledge|].
    destruct (acknowledge_spec s o Hwf) as [_ Ka Kp Kr _ _ Kpo Kst Kco].
    assert (Hmid : forall o', is_done (foldl acknowledge (acknowledge s o) os) o' = false ->
      is_done s o' || (o' =? o) = false).
    { intros o'. rewrite H4, acknowledge_done by done. by intros [? _]%orb_false_iff. }
    split; try done; [|..|congruence|congruence|congruence].
    + intros o'. rewrite H4, acknowledge_done by done. apply eq_true_iff_eq.
      rewrite !orb_true_iff, !bool_decide_eq_true, N.eqb_eq, elem_of_cons. tauto.
    + intros o' Hd. by rewrite Ha, Ka, Hmid.
    + intros o' Hd. by rewrite Hp, Kp, Hmid.
    + intros o' Hd. by rewrite Hr, Kr, Hmid.
Qed.

Lemma acknowledge_all_retries es d c os s s' o :
  consumer_wf s -> acknowledged_all es d c os s s' -> o ∉ os ->
  retry_not_before s' !! o = retry_not_before s !! o.
Proof.
  intros Hwf Haa Hn. destruct (is_done s' o) eqn:E; [|by apply (aa_retries _ _ _ _ _ _ Haa)].
  pose proof E as E'. rewrite (aa_done _ _ _ _ _ _ Haa), (bool_decide_eq_false_2 (o ∈ os)) in E' by done.
  rewrite orb_false_r in E'. destruct (wf_done_None s o Hwf E') as (_ & _ & ->).
  by destruct (wf_done_None s' o (aa_wf _ _ _ _ _ _ Haa) E) as (_ & _ & ->).
Qed.

(** ** Delivery attempts *)

Lemma record_attempt_done s o a p o' : is_done (record_attempt s o a p) o' = is_done s o'.
Proof. done. Qed.

Lemma next_attempt_pos a : u32_saturating_add a 1 <> 0.
Proof. unfold u32_saturating_add, saturating_add, u32_max. lia. Qed.

(** The assignments after a persisted attempt are the event. *)
Lemma apply_attempt_record es s o p :
  known es s -> is_done s o = false ->
  apply_delivery_attempt s
    {| da_offset := o; da_attempt := u32_saturating_add (attempts_of s o) 1; da_policy := p |} =
  record_attempt s o (u32_saturating_add (attempts_of s o) 1) p.
Proof.
  intros Hk Hd. unfold apply_delivery_attempt. cbn [da_offset da_attempt da_policy].
  unfold is_done in Hd. apply orb_false_iff in Hd as [-> ->]. cbn [negb andb].
  unfold record_attempt. do 2 f_equal. destruct (delivery_attempts s !! o) as [a|] eqn:E; [|done].
  apply (kn_attempts es s Hk) in E as Hle. rewrite (attempts_of_Some _ _ _ E).
  unfold u32_saturating_add, saturating_add. unfold u32_max in *. lia.
Qed.

Lemma known_record es s o a p :
  known es s -> o < vec_len es -> a <= u32_max -> ack_timeout_ms p <= u64_max ->
  known es (record_attempt s o a p).
Proof.
  intros [H1 H2 H3 H4] Ho Ha Hp. split; cbn.
  - intros o' a'. rewrite lookup_insert_Some. intros [[<- <-]|[_ ?]]; [done|by apply H1].
  - intros o' r. rewrite lookup_delete_Some. intros [_ ?]. by apply H2.
  - done.
  - intros o' p'. destruct (delivery_policies s !! o); [apply H4|].
    rewrite lookup_insert_Some. intros [[<- <-]|[_ ?]]; [done|by eapply H4].
Qed.

Lemma flying_record es d c s o a p :
  in_flight d !! (c, o) = None -> flying es d c s -> flying es d c (record_attempt s o a p).
Proof.
  intros Hn. apply flying_state; [done|]. intros o' [i Hi] _. cbn.
  rewrite lookup_insert_ne; [done|]. intros ->. congruence.
Qed.

(** ** Retry schedules *)

Definition schedulable (s : ConsumerState) (r : RetryScheduleEvent) : Prop :=
  is_done s (rse_offset r) = false /\ is_Some (delivery_attempts s !! rse_offset r).

Lemma or_insert_schedule_frame s r :
  committed_offset (or_insert_schedule s r) = committed_offset s /\
  acknowledged_offsets (or_insert_schedule s r) = acknowledged_offsets s /\
  delivery_attempts (or_insert_schedule s r) = delivery_attempts s /\
  delivery_policies (or_insert_schedule s r) = delivery_policies s /\
  cs_policy (or_insert_schedule s r) = cs_policy s /\
  cs_stream (or_insert_schedule s r) = cs_stream s /\
  cs_consumer (or_insert_schedule s r) = cs_consumer s.
Proof. unfold or_insert_schedule. by destruct (retry_not_before s !! rse_offset r). Qed.

Lemma or_insert_schedule_done s r o : is_done (or_insert_schedule s r) o = is_done s o.
Proof. unfold is_done. by destruct (or_insert_schedule_frame s r) as (-> & -> & _). Qed.

Lemma or_insert_schedules_frame s rs :
  let s' := foldl or_insert_schedule s rs in
  committed_offset s' = committed_offset s /\ acknowledged_offsets s' = acknowledged_offsets s /\
  delivery_attempts s' = delivery_attempts s /\ delivery_policies s' = delivery_policies s /\
  cs_policy s' = cs_policy s /\ cs_stream s' = cs_stream s /\ cs_consumer s' = cs_consumer s.
Proof.
  revert s; induction rs as [|r rs IH]; intros s; [done|]. cbn.
  destruct (IH (or_insert_schedule s r)) as (-> & -> & -> & -> & -> & -> & ->).
  apply or_insert_schedule_frame.
Qed.

Lemma apply_schedule_or_insert s r :
  schedulable s r -> apply_retry_schedule s r = or_insert_schedule s r.
Proof.
  intros [Hd Ha]. unfold apply_retry_schedule, or_insert_schedule.
  fold (is_done s (rse_offset r)). rewrite Hd, bool_decide_eq_true_2 by done. cbn [orb negb].
  unfold schedule_of, set_retries. destruct (retry_not_before s !! rse_offset r) eqn:E; [by destruct s|done].
Qed.

Lemma apply_schedules_or_insert s rs :
  Forall (schedulable s) rs -> apply_event s (EvRetrySchedules rs) = Ok (foldl or_insert_schedule s rs).
Proof.
  cbn. intros H. f_equal. revert s H; induction rs as [|r rs IH]; intros s H; [done|].
  apply Forall_cons in H as [Hr Hrs]. cbn. rewrite apply_schedule_or_insert by done. apply IH.
  eapply Forall_impl; [exact Hrs|]. intros r' [Hd Ha].
  destruct (or_insert_schedule_frame s r) as (_ & _ & Ea & _).
  split; [by rewrite or_insert_schedule_done|by rewrite Ea].
Qed.

(** A schedule under the key of its record. *)
Definition schedule_fits (es : list Entry) (r : RetryScheduleEvent) : Prop :=
  (exists e, vec_get es (rse_offset r) = Some e /\ rse_key r = e_key e) /\
  rse_retry_not_before_ms r <= u64_max.

Lemma known_schedules es s rs :
  known es s -> Forall (schedule_fits es) rs -> known es (foldl or_insert_schedule s rs).
Proof.
  revert s; induction rs as [|r rs IH]; intros s Hk Hrs; [done|].
  apply Forall_cons in Hrs as [Hr Hrs]. cbn. apply IH; [|done]. destruct Hk as [H1 H2 H3 H4].
  destruct (or_insert_schedule_frame s r) as (_ & _ & Ea & Ep & Ec & _).
  split; rewrite ?Ea, ?Ep, ?Ec; try done.
  intros o x. unfold or_insert_schedule. destruct (retry_not_before s !! rse_offset r) eqn:E; [apply H2|].
  cbn. rewrite lookup_insert_Some. intros [[<- <-]|[_ ?]]; [done|by apply H2].
Qed.

Lemma flying_same_progress es d c s s' :
  committed_offset s' = committed_offset s -> acknowledged_offsets s' = acknowledged_offsets s ->
  delivery_attempts s' = delivery_attempts s -> flying es d c s -> flying es d c s'.
Proof.
  intros E1 E2 E3. apply flying_state; [|by rewrite E3].
  intros o. unfold is_done. by rewrite E1, E2.
Qed.
