(* ===== verification/BrokerSteps.v ===== *)
(** Specifications of the steps that broker operations are made of: loading a
    consumer, persisting an event, updating the cache and the deliveries. *)

From S2P Require Import Prelude Engine RecordFormat Names StreamLog ConsumerState DeliveryState Durability Broker BrokerInvariant.

Local Open Scope N_scope.

(** What is assumed of the environment: stream files accept writes (a failed
    write leaves a log that recovery refuses, see
    [failed_sync_then_append_unrecoverable]) and the clocks are far from the end
    of their range. Creating a file, persisting consumer events and syncing a
    journal may fail at any time, and the clocks may jump either way. *)
Record env_ok (env : Env) : Prop := {
  eo_append n : io_ok (env_append env n);
  eo_batch_sync n : env_batch_sync env n = None;
  eo_instant n : env_instant env n + nanos_of_millis u64_max <= instant_max;
  eo_wall n : env_wall_ms env n < u64_max;
  eo_keys n : lists_keys (env_keys env n);
}.

Section steps.
Context `{HC : ConsumerCodec} {HL : ConsumerCodecLaws HC}.
Context (env : Env) (Henv : env_ok env) (stream consumer : string) (A D : Offset -> Prop).
Context (R : BrokerError -> BrokerState -> Prop).

Abbreviation busy := (busy stream consumer).
Abbreviation evolves := (evolves stream consumer A D).

(** Every log has offsets left for [room] more records. *)
Definition has_room (room : N) (b : BrokerState) : Prop :=
  forall name ss, br_streams b !! name = Some ss -> log_next_offset (ss_log ss) + room <= u64_max.

(** The operation holds the lock of [stream]: its history is [es], its
    deliveries are [d], and [s] is the state of [consumer] that the files hold. *)
Record at_state (settled : bool) (room : N) (es : list Entry) (d : DeliveryState) (s : ConsumerState)
  (b : BrokerState) : Prop := {
  as_inv : inv (busy settled) b;
  as_stream : exists ss, br_streams b !! stream = Some ss /\ ss_delivery ss = d /\
    stream_ok (settled_for (busy settled) stream) b stream ss es;
  as_holds : holds (files_of b stream consumer) stream consumer s;
  as_unmarked : consumer ∉ consumers_needing_reconcile d;
  as_room : has_room room b;
}.

(** The operation started at [b0] and has come this far. *)
Definition goes (settled : bool) (room : N) (es : list Entry) (d : DeliveryState) (s : ConsumerState)
  (b0 b : BrokerState) : Prop := evolves b0 b /\ at_state settled room es d s b.

(** A fault of the storage, not a rejection of the request. *)
Definition broken (e : BrokerError) : Prop := error_kind e = KStorage \/ error_kind e = KState.

(** It ended with an error, a fault or one of the rejections [R] in the broker it
    leaves: the invariant holds. *)
Definition stops (b0 : BrokerState) (e : BrokerError) (b : BrokerState) : Prop :=
  evolves b0 b /\ inv None b /\ (broken e \/ R e b).

(** It has locked the stream and not yet loaded the consumer. *)
Definition starts (room : N) (es : list Entry) (d : DeliveryState) (b0 b : BrokerState) : Prop :=
  evolves b0 b /\ inv None b /\ has_room room b /\
  exists ss, br_streams b !! stream = Some ss /\ ss_delivery ss = d /\
    stream_ok (settled_for None stream) b stream ss es.

Lemma at_state_durable settled room es d s b :
  at_state settled room es d s b -> durable_state (files_of b stream consumer) stream consumer = s.
Proof. intros H. eapply holds_durable, as_holds, H. Qed.

(** What is known while the lock is held. *)
Lemma at_state_facts settled room es d s b :
  at_state settled room es d s b ->
  consumer_wf s /\ known es s /\ flying es d consumer s /\ delivery_wf d /\
  Forall entry_ok es /\ vec_len es <= u64_max /\ cs_stream s = stream /\ cs_consumer s = consumer.
Proof.
  intros H. pose proof (at_state_durable _ _ _ _ _ _ H) as Ed.
  destruct (holds_torn_wf _ _ _ _ (holds_holds_torn _ _ _ _ (as_holds _ _ _ _ _ _ H))) as (Hwf & Hs & Hc).
  destruct (as_stream _ _ _ _ _ _ H) as (ss & _ & <- & [_ Hent Hlen _ Hdel Hcons]).
  destruct (Hcons consumer) as [_ Hk Hf _ _ _]. rewrite Ed in Hk, Hf. done.
Qed.

Lemma at_state_settled room es d s b :
  at_state true room es d s b ->
  unfinished d consumer s /\
  (consumer_states d !! consumer = None \/ consumer_states d !! consumer = Some s).
Proof.
  intros H. pose proof (at_state_durable _ _ _ _ _ _ H) as Ed.
  pose proof (as_unmarked _ _ _ _ _ _ H) as Hm.
  destruct (as_stream _ _ _ _ _ _ H) as (ss & _ & <- & [_ _ _ _ _ Hcons]).
  destruct (Hcons consumer) as [_ _ _ _ H5 H6]. rewrite Ed in H5, H6. split; [by apply H6|].
  destruct (consumer_states (ss_delivery ss) !! consumer) as [s'|] eqn:E; [|by left].
  right. destruct (H5 s' eq_refl eq_refl) as [-> _]. done.
Qed.

Lemma goes_stops room es d s b0 b e :
  goes true room es d s b0 b -> broken e \/ R e b -> stops b0 e b.
Proof. intros [? []] ?. done. Qed.

Lemma goes_locked settled room es d s b0 b (Q : StreamState -> BrokerState -> Prop) E :
  goes settled room es d s b0 b ->
  (forall ss, br_streams b !! stream = Some ss -> ss_log ss = log_of es -> ss_delivery ss = d -> Q ss b) ->
  wp (locked stream) Q E b.
Proof.
  intros [_ Hat] HQ. destruct (as_stream _ _ _ _ _ _ Hat) as (ss & Hss & Hd & Hok).
  apply (wp_locked _ ss); [done|]. apply HQ; [done| |done]. apply Hok.
Qed.

Lemma at_state_counters settled room es d s b r l t n :
  at_state settled room es d s b -> at_state settled room es d s (set_counters b r l t n).
Proof.
  intros [Hi (ss & Hss & Hd & [? ? ? ? ? ?]) Hh Hu Hr]. split; try done.
  - by apply inv_counters.
  - by exists ss.
Qed.

Lemma goes_counters settled room es d s b0 b r l t n :
  goes settled room es d s b0 b -> (br_tick b <= n)%nat -> goes settled room es d s b0 (set_counters b r l t n).
Proof.
  intros [Hev Hat] Hn. split; [by apply evolves_counters|by apply at_state_counters].
Qed.

Lemma goes_ticked settled room es d s b0 b :
  goes settled room es d s b0 b -> goes settled room es d s b0 (ticked b (S (br_tick b))).
Proof. intros H. apply goes_counters; [done|lia]. Qed.

Lemma starts_ticked room es d b0 b :
  starts room es d b0 b -> starts room es d b0 (ticked b (S (br_tick b))).
Proof.
  intros (Hev & Hi & Hr & ss & Hss & Hd & [? ? ? ? ? ?]). split_and!.
  - apply evolves_counters; [done|lia].
  - by apply inv_counters.
  - done.
  - by exists ss.
Qed.

(** ** One update of the stream and of the consumer's files *)

(** The changes an update may make, and what the consumer is left in. *)
Record local_update (b b' : BrokerState) (ss ss' : StreamState) : Prop := {
  lu_streams : br_streams b' = <[stream := ss']> (br_streams b);
  lu_files n c : (n, c) <> (stream, consumer) -> br_consumers b' !! (n, c) = br_consumers b !! (n, c);
  lu_config : br_ack_timeout b' = br_ack_timeout b /\
    br_max_delivery_attempts b' = br_max_delivery_attempts b;
  lu_tick : (br_tick b <= br_tick b')%nat;
  lu_log : ss_log ss' = ss_log ss;
  lu_delivery : delivery_wf (ss_delivery ss');
  lu_others c : c <> consumer -> same_consumer (ss_delivery ss) (ss_delivery ss') c;
}.

Lemma evolves_update b b' ss ss' :
  br_streams b !! stream = Some ss -> local_update b b' ss ss' ->
  (forall o, is_done (durable_state (files_of b stream consumer) stream consumer) o = true ->
     is_done (durable_state (files_of b' stream consumer) stream consumer) o = true) ->
  (forall o, is_done (durable_state (files_of b' stream consumer) stream consumer) o = true ->
     is_done (durable_state (files_of b stream consumer) stream consumer) o = true \/ A o \/
     (D o /\ moved stream consumer b' o)) ->
  evolves b b'.
Proof.
  intros Hss [Hst Hfi Hcf Htk Hlog Hdel Hoth] H1 H2. split; try done.
  intros n ss1 Hn. rewrite Hst. destruct (decide (n = stream)) as [->|Hne].
  - rewrite lookup_insert_eq. simplify_eq. exists ss'. split_and!; [done| |done|].
    + rewrite Hlog. apply extends_refl.
    + intros c o Hc. by apply Hoth.
  - rewrite lookup_insert_ne by done. exists ss1. split_and!; [done|apply extends_refl|done|done].
Qed.

Lemma stream_moved b b' ss ss' o :
  br_streams b !! stream = Some ss -> br_streams b' = <[stream := ss']> (br_streams b) ->
  ss_log ss' = ss_log ss -> moved stream consumer b o -> moved stream consumer b' o.
Proof.
  intros Hss Hst Hlog (target & tss & tes & i & e' & sss & ses & e & Hn & Ht & Htl & Hi & Hid & Hs & Hsl & Ho & Hk & Hp).
  simplify_eq.
  destruct (decide (target = stream)) as [->|Hne].
  - simplify_eq. exists stream, ss', tes, i, e', ss', ses, e. rewrite Hst, lookup_insert_eq.
    split_and!; congruence.
  - exists target, tss, tes, i, e', ss', ses, e.
    rewrite Hst, lookup_insert_eq, lookup_insert_ne by done. split_and!; congruence.
Qed.

Lemma has_room_update room b b' ss ss' :
  br_streams b !! stream = Some ss -> br_streams b' = <[stream := ss']> (br_streams b) ->
  ss_log ss' = ss_log ss -> has_room room b -> has_room room b'.
Proof.
  intros Hss Hst Hlog Hr n ss1. rewrite Hst. intros [[<- <-]|[_ Hn]]%lookup_insert_Some.
  - rewrite Hlog. by apply (Hr stream).
  - by apply (Hr n).
Qed.

(** An update that leaves the files alone. *)
Lemma goes_delivery settled settled' room es d d' s b0 b b' ss ss' :
  goes settled room es d s b0 b -> br_streams b !! stream = Some ss -> ss_delivery ss = d ->
  ss_delivery ss' = d' -> local_update b b' ss ss' -> br_consumers b' = br_consumers b ->
  consumer ∉ consumers_needing_reconcile d' -> flying es d' consumer s ->
  (settled' = true -> unfinished d' consumer s /\
     forall s', consumer_states d' !! consumer = Some s' -> s' = s) ->
  goes settled' room es d' s b0 b'.
Proof.
  intros [Hev Hat] Hss Hd Hd' Hlu Hfi Hm Hfl Hset. destruct Hat as [Hi (ss1 & Hss1 & _ & Hok) Hh Hu Hro].
  rewrite Hss in Hss1. injection Hss1 as <-. subst d d'.
  assert (Hf : files_of b' stream consumer = files_of b stream consumer)
    by (unfold files_of; by rewrite Hfi).
  pose proof (holds_durable _ _ _ _ Hh) as Ed.
  destruct (inv_update stream consumer settled settled' b b' ss ss' es) as [Hi' Hok']; try apply Hlu; try done.
  { rewrite Hf. destruct (so_consumers _ _ _ _ _ Hok consumer) as [H1 H2 _ _ _ _].
    rewrite Ed in *. split; rewrite ?Ed; try done.
    - intros s' Hs Hc. destruct (Hset Hs) as [_ Hc']. rewrite (Hc' s' Hc). done.
    - intros Hs _. by apply Hset. }
  split.
  - eapply evolves_trans; [exact Hev|]. apply (evolves_update _ _ ss ss'); rewrite ?Hf; auto.
  - split; [done| |by rewrite Hf|done|].
    + exists ss'. split_and!; [|done|done]. by rewrite (lu_streams _ _ _ _ Hlu), lookup_insert_eq.
    + by eapply (has_room_update room b b' ss ss'); [|apply Hlu|apply Hlu|].
Qed.

Lemma wp_update_delivery settled settled' room es d s b0 b f (Q : unit -> BrokerState -> Prop) E :
  goes settled room es d s b0 b -> delivery_wf (f d) ->
  (forall c, c <> consumer -> same_consumer d (f d) c) ->
  consumer ∉ consumers_needing_reconcile (f d) -> flying es (f d) consumer s ->
  (settled' = true -> unfinished (f d) consumer s /\
     forall s', consumer_states (f d) !! consumer = Some s' -> s' = s) ->
  (forall b', goes settled' room es (f d) s b0 b' -> br_tick b' = br_tick b -> Q tt b') ->
  wp (update_delivery stream f) Q E b.
Proof.
  intros Hg Hwf Hoth Hm Hfl Hset HQ. unfold update_delivery. wp_step.
  eapply goes_locked; [exact Hg|]. intros ss Hss Hlog Hd. apply HQ; [|done].
  apply (goes_delivery settled settled' room es d (f d) s b0 b _ ss
    (set_delivery ss (f (ss_delivery ss)))); try done; [by rewrite <-Hd|].
  split; try done; cbn; by rewrite Hd.
Qed.

Lemma wp_notify settled room es d s b0 b (Q : unit -> BrokerState -> Prop) E :
  goes settled room es d s b0 b ->
  (forall b', goes settled room es d s b0 b' -> br_tick b' = br_tick b -> Q tt b') ->
  wp (notify_waiters stream) Q E b.
Proof.
  intros Hg HQ. unfold notify_waiters. wp_step.
  eapply goes_locked; [exact Hg|]. intros ss Hss Hlog Hd. apply HQ; [|done].
  pose proof Hg as [_ Hat]. destruct (at_state_facts _ _ _ _ _ _ Hat) as (_ & _ & Hfl & Hwf & _).
  apply (goes_delivery settled settled room es d d s b0 b _ ss
    {| ss_log := ss_log ss; ss_delivery := ss_delivery ss; ss_notified := ss_notified ss + 1 |}); try done.
  - split; try done; cbn; rewrite Hd; done || (intros c _; apply same_consumer_refl).
  - apply Hat.
  - intros ->. destruct (at_state_settled _ _ _ _ _ Hat) as [Hun Hc]. split; [done|].
    intros s' Hs'. destruct Hc; congruence.
Qed.

(** ** Loading *)

Lemma starts_update room es d d' b0 b b' ss ss' :
  starts room es d b0 b -> br_streams b !! stream = Some ss -> ss_delivery ss = d ->
  ss_delivery ss' = d' -> local_update b b' ss ss' ->
  durable_state (files_of b' stream consumer) stream consumer =
    durable_state (files_of b stream consumer) stream consumer ->
  consumer_ok true es d' (files_of b' stream consumer) stream consumer ->
  starts room es d' b0 b'.
Proof.
  intros (Hev & Hi & Hro & ss1 & Hss1 & _ & Hok) Hss Hd Hd' Hlu Hdur Hcok.
  rewrite Hss in Hss1. injection Hss1 as <-. subst d d'.
  destruct (inv_update stream consumer true true b b' ss ss' es) as [Hi' Hok']; try apply Hlu; try done.
  split_and!.
  - eapply evolves_trans; [exact Hev|]. apply (evolves_update _ _ ss ss'); rewrite ?Hdur; auto.
  - done.
  - by eapply (has_room_update room b b' ss ss'); [|apply Hlu|apply Hlu|].
  - exists ss'. split_and!; [|done|done]. by rewrite (lu_streams _ _ _ _ Hlu), lookup_insert_eq.
Qed.

Lemma starts_stops room es d b0 b e :
  starts room es d b0 b -> broken e \/ R e b -> stops b0 e b.
Proof. intros (? & ? & _ & _) ?. done. Qed.

Lemma starts_goes room es d s b0 b :
  starts room es d b0 b -> holds (files_of b stream consumer) stream consumer s ->
  consumer ∉ consumers_needing_reconcile d -> goes true room es d s b0 b.
Proof. intros (Hev & Hi & Hr & ss & Hss & Hd & Hok) Hh Hm. split; [done|]. split; eauto. Qed.

Lemma remove_all_frame d c offsets :
  consumer_states (remove_all d c offsets) = consumer_states d /\
  consumers_needing_reconcile (remove_all d c offsets) = consumers_needing_reconcile d.
Proof.
  unfold remove_all. revert d; induction offsets as [|o offsets IH]; intros d; cbn; [done|].
  destruct (IH (delivery_remove d c o).2) as [-> ->].
  unfold delivery_remove, remove_in_flight. by destruct (in_flight d !! (c, o)).
Qed.

Lemma cache_lookup pick d c s c' s' :
  lists_keys pick -> consumer_states (cache_consumer_state pick d c s) !! c' = Some s' ->
  <[c := s]> (consumer_states d) !! c' = Some s'.
Proof.
  intros Hp Hs'. eapply lookup_weaken; [exact Hs'|]. by apply evict_spec.
Qed.

Lemma same_consumer_cache pick d c s c' :
  lists_keys pick -> c' <> c -> same_consumer d (cache_consumer_state pick d c s) c'.
Proof.
  intros Hp Hne. split; [done|done|]. intros s' Hs'%cache_lookup; [|done].
  by rewrite lookup_insert_ne in Hs'.
Qed.

Lemma same_consumer_remove d c c' offsets :
  c' <> c -> same_consumer d (remove_all d c offsets) c'.
Proof.
  intros Hne. destruct (remove_all_frame d c offsets) as [E1 E2].
  split; rewrite ?E1, ?E2; [|done|done]. intros o. rewrite remove_all_lookup, decide_False; [done|].
  by intros [? _].
Qed.

Lemma flying_subset es d d' c s :
  (forall o i, in_flight d' !! (c, o) = Some i -> in_flight d !! (c, o) = Some i) ->
  flying es d c s -> flying es d' c s.
Proof. intros Hs H o i Hi. by apply H, Hs. Qed.

(** What a reconcile makes of the deliveries. *)
Definition reconciled (pick : KeyOrder) (d : DeliveryState) (s : ConsumerState) : DeliveryState :=
  let d' := remove_all d consumer (stale_offsets d consumer s) in
  cache_consumer_state pick
    (set_needing_reconcile d' (consumers_needing_reconcile d' ∖ {[consumer]})) consumer s.

Lemma reconciled_in_flight pick d s o :
  in_flight (reconciled pick d s) !! (consumer, o) =
  if is_done s o then None else in_flight d !! (consumer, o).
Proof.
  cbn [reconciled cache_consumer_state set_consumer_states set_needing_reconcile in_flight].
  rewrite remove_all_lookup. cbn [fst snd].
  destruct (is_done s o) eqn:E; case_decide as Hs; try done.
  - apply eq_None_not_Some. intros Hi. apply Hs. split; [done|]. by apply elem_of_stale_offsets.
  - destruct Hs as [_ [_ Hd]%elem_of_stale_offsets]. congruence.
Qed.

Lemma reconciled_others pick d s c :
  lists_keys pick -> c <> consumer -> same_consumer d (reconciled pick d s) c.
Proof.
  intros Hp Hne. unfold reconciled. set (d1 := remove_all d consumer _).
  destruct (remove_all_frame d consumer (stale_offsets d consumer s)) as [E1 E2]. fold d1 in E1, E2.
  destruct (same_consumer_remove d consumer c (stale_offsets d consumer s) Hne) as [H1 _ _].
  fold d1 in H1. split.
  - intros o. apply H1.
  - cbn. rewrite E2. set_solver.
  - intros s' Hs'%cache_lookup; [|done]. cbn in Hs'. rewrite lookup_insert_ne, E1 in Hs' by done. done.
Qed.

(** The files and the deliveries are replaced together. *)
Definition replaced (b : BrokerState) (ss : StreamState) (d : DeliveryState) (f : Files) : BrokerState :=
  set_consumers (set_streams b (<[stream := set_delivery ss d]> (br_streams b)))
    (<[(stream, consumer) := f]> (br_consumers b)).

Lemma files_replaced b ss d f : files_of (replaced b ss d f) stream consumer = f.
Proof. unfold files_of. cbn. by rewrite lookup_insert_eq. Qed.

Lemma local_replaced b ss d f :
  delivery_wf d -> (forall c, c <> consumer -> same_consumer (ss_delivery ss) d c) ->
  local_update b (replaced b ss d f) ss (set_delivery ss d).
Proof.
  intros Hdw Hoth. split; try done. intros n c Hne. cbn. by rewrite lookup_insert_ne by congruence.
Qed.

Lemma starts_replaced room es d d' f b0 b ss :
  starts room es d b0 b -> br_streams b !! stream = Some ss -> ss_delivery ss = d ->
  holds_torn f stream consumer (durable_state (files_of b stream consumer) stream consumer) ->
  delivery_wf d' -> (forall c, c <> consumer -> same_consumer d d' c) ->
  consumer_ok true es d' f stream consumer ->
  starts room es d' b0 (replaced b ss d' f).
Proof.
  intros Hst Hss Hd Hf Hwf Hoth Hcok. apply holds_torn_durable in Hf. subst d.
  apply (starts_update room es (ss_delivery ss) d' b0 b _ ss (set_delivery ss d'));
    rewrite ?files_replaced; try done. by apply local_replaced.
Qed.

(** Loading may rewrite the files without changing what they hold. *)
Lemma consumer_ok_files es d f f' :
  consumer_ok true es d f stream consumer ->
  holds_torn f' stream consumer (durable_state f stream consumer) ->
  (forall s, consumer_states d !! consumer = Some s -> holds f' stream consumer s) ->
  consumer_ok true es d f' stream consumer.
Proof.
  intros [Hf Hk Hfl Hma Hca Hun] Hf' Hc. pose proof (holds_torn_durable _ _ _ _ Hf') as E.
  split; rewrite ?E; try done. intros s _ Hs. split; [by apply Hca|by apply Hc].
Qed.

Lemma consumer_ok_reconciled es d f f' pick :
  lists_keys pick -> consumer_ok true es d f stream consumer ->
  holds f' stream consumer (durable_state f stream consumer) ->
  consumer_ok true es (reconciled pick d (durable_state f stream consumer)) f' stream consumer.
Proof.
  intros Hp [Hf Hk Hfl Hma Hca Hun] Hf'. set (t := durable_state f stream consumer) in *.
  pose proof (holds_durable _ _ _ _ Hf') as E. split; rewrite ?E; try done.
  - by apply holds_holds_torn.
  - eapply flying_subset; [|exact Hfl]. intros o i. rewrite reconciled_in_flight.
    by destruct (is_done t o).
  - cbn. set_solver.
  - intros s _ Hs%cache_lookup; [|done]. rewrite lookup_insert_eq in Hs. by simplify_eq.
  - intros _ _ o. rewrite reconciled_in_flight. destruct (is_done t o); [by intros []|done].
Qed.

Lemma reconciled_wf pick d s : delivery_wf d -> delivery_wf (reconciled pick d s).
Proof. intros Hwf. eapply delivery_wf_frame; [..|by apply (remove_all_wf d consumer (stale_offsets d consumer s))]; done. Qed.

Lemma starts_consumer room es d b0 b :
  starts room es d b0 b ->
  delivery_wf d /\ consumer_ok true es d (files_of b stream consumer) stream consumer.
Proof.
  intros (_ & _ & _ & ss & _ & <- & Hok). split; [apply Hok|].
  apply (so_consumers _ _ _ _ _ Hok consumer).
Qed.

Section load.
Context (room : N) (es : list Entry) (d : DeliveryState) (b0 b : BrokerState) (ss : StreamState).
Context (Q : ConsumerState -> BrokerState -> Prop).
Context (Hst : starts room es d b0 b) (Hss : br_streams b !! stream = Some ss) (Hd : ss_delivery ss = d).
Let t := durable_state (files_of b stream consumer) stream consumer.
Context (HQ : forall d' b', goes true room es d' t b0 b' ->
  (forall o, in_flight d' !! (consumer, o) = if is_done t o then None else in_flight d !! (consumer, o)) ->
  br_tick b' = br_tick b -> Q t b').

(** Every way a load ends. *)
Lemma wp_load_fails f e :
  broken e -> holds_torn f stream consumer t ->
  (forall s, consumer_states d !! consumer = Some s -> holds f stream consumer s) ->
  wp (do! put_stream stream (set_delivery ss d) in do! put_files stream consumer f in lift (Err e))
    Q (stops b0) b.
Proof.
  intros He Hf Hc. destruct (starts_consumer _ _ _ _ _ Hst) as [Hwf Hcok].
  change (stops b0 e (replaced b ss d f)). eapply starts_stops; [|by left]. eapply starts_replaced; try done.
  by eapply consumer_ok_files.
Qed.

Lemma wp_load_kept f :
  consumer ∉ consumers_needing_reconcile d -> holds f stream consumer t ->
  wp (do! put_stream stream (set_delivery ss d) in do! put_files stream consumer f in lift (Ok t))
    Q (stops b0) b.
Proof.
  intros Hm Hf. destruct (starts_consumer _ _ _ _ _ Hst) as [Hwf Hcok]. change (Q t (replaced b ss d f)).
  apply (HQ d); [|intros o|done].
  - apply starts_goes; [|by rewrite files_replaced|done].
    eapply starts_replaced; try done; [by apply holds_holds_torn|].
    eapply consumer_ok_files; [exact Hcok|by apply holds_holds_torn|]. intros s Hs.
    by destruct (co_cached _ _ _ _ _ _ Hcok s eq_refl Hs) as [-> _].
  - destruct (is_done t o) eqn:E; [|done]. apply eq_None_not_Some. intros Hi.
    pose proof (co_unfinished _ _ _ _ _ _ Hcok eq_refl Hm o Hi). unfold t in E. congruence.
Qed.

Lemma wp_load_reconciled pick f :
  lists_keys pick -> holds f stream consumer t ->
  wp (do! put_stream stream (set_delivery ss (reconciled pick d t)) in
      do! put_files stream consumer f in lift (Ok t)) Q (stops b0) b.
Proof.
  intros Hp Hf. destruct (starts_consumer _ _ _ _ _ Hst) as [Hwf Hcok].
  change (Q t (replaced b ss (reconciled pick d t) f)).
  apply (HQ (reconciled pick d t)); [|intros o; apply reconciled_in_flight|done].
  apply starts_goes; [|by rewrite files_replaced|cbn; set_solver].
  eapply starts_replaced; try done; [by apply holds_holds_torn|by apply reconciled_wf| |].
  - intros c Hne. by apply reconciled_others.
  - by apply (consumer_ok_reconciled es d (files_of b stream consumer)).
Qed.
End load.

Lemma wp_load room es d b0 b (Q : ConsumerState -> BrokerState -> Prop) :
  starts room es d b0 b ->
  (forall s d' b', goes true room es d' s b0 b' ->
     durable_state (files_of b stream consumer) stream consumer = s ->
     (forall o, in_flight d' !! (consumer, o) =
        if is_done s o then None else in_flight d !! (consumer, o)) ->
     (br_tick b <= br_tick b')%nat -> Q s b') ->
  wp (load_for_request env stream consumer) Q (stops b0) b.
Proof.
  intros Hst HQ. unfold load_for_request. do 4 wp_step.
  apply starts_ticked, starts_ticked in Hst. set (b1 := ticked (ticked b _) _) in Hst.
  fold b1. set (pick := env_keys env _). assert (Hp : lists_keys pick) by apply Henv.
  change (files_of b stream consumer) with (files_of b1 stream consumer) in HQ.
  set (t := durable_state _ _ _) in HQ.
  assert (HQ' : forall d' b', goes true room es d' t b0 b' ->
    (forall o, in_flight d' !! (consumer, o) = if is_done t o then None else in_flight d !! (consumer, o)) ->
    br_tick b' = br_tick b1 -> Q t b').
  { intros d' b' Hg Hin Ht. apply (HQ t d'); try done. rewrite Ht. cbn. lia. }
  pose proof Hst as (_ & _ & _ & ss & Hss & Hd & _). wp_step. eapply wp_locked; [exact Hss|]. do 2 wp_step.
  change (default no_files _) with (files_of b1 stream consumer). rewrite Hd.
  destruct (starts_consumer _ _ _ _ _ Hst) as [_ Hcok].
  pose proof (fun r f' => load_holds _ _ _ _ r f' (co_files _ _ _ _ _ _ Hcok)) as Hload. fold t in Hload.
  unfold load_consumer_state_for_request. case_bool_decide as Hmark.
  - pose proof (co_marked _ _ _ _ _ _ Hcok Hmark) as Hnone.
    destruct (load_consumer_state _ _ _) as [r f1]. destruct (Hload _ _ eq_refl) as [[-> Hh]|(e & -> & -> & He)].
    + destruct (match journal f1 with Some _ => _ | None => None end).
      * eapply wp_load_fails; try done; [by left|by apply holds_holds_torn|congruence].
      * by eapply (wp_load_reconciled room es d b0 b1 ss Q).
    + eapply wp_load_fails; try done; [by left|apply Hcok|congruence].
  - destruct (consumer_states d !! consumer) as [s|] eqn:Es.
    + destruct (co_cached _ _ _ _ _ _ Hcok s eq_refl Es) as [-> Hh].
      by eapply (wp_load_kept room es d b0 b1 ss Q).
    + destruct (load_consumer_state _ _ _) as [r f1]. destruct (Hload _ _ eq_refl) as [[-> Hh]|(e & -> & -> & He)].
      * by eapply (wp_load_kept room es d b0 b1 ss Q).
      * eapply wp_load_fails; try done; [by left|apply Hcok|congruence].
Qed.

(** ** Persisting and caching *)

Lemma persist_broken fault f path s event e f' :
  persist_consumer_event fault f path consumer s event = (Err e, f') -> broken e.
Proof.
  assert (Hm : forall stage kind batch, broken (map_failure stage kind batch)).
  { intros stage kind []; [by right|by left]. }
  unfold persist_consumer_event. destruct fault; cbn; try (intros [= <- _]; apply Hm);
    unfold compact_consumer_state; cbn;
    (destruct (_ <? _); [destruct (journal f); cbn|]); repeat case_match; intros; simplify_eq; apply Hm.
Qed.

(** The files come to hold [t] and the deliveries become [d']. *)
Lemma goes_replaced settled room es d d' s t f b0 b ss :
  goes true room es d s b0 b -> br_streams b !! stream = Some ss -> ss_delivery ss = d ->
  holds_torn f stream consumer t -> delivery_wf d' -> (forall c, c <> consumer -> same_consumer d d' c) ->
  consumer_ok settled es d' f stream consumer ->
  (forall o, is_done s o = true -> is_done t o = true) ->
  (forall o, is_done t o = true -> is_done s o = true \/ A o \/ (D o /\ moved stream consumer b o)) ->
  let b' := replaced b ss d' f in
  evolves b0 b' /\ inv (busy settled) b' /\
  stream_ok (settled_for (busy settled) stream) b' stream (set_delivery ss d') es.
Proof.
  intros [Hev Hat] Hss Hd Hf Hdw Hoth Hcok Hmono Hcause b'. subst d.
  apply holds_torn_durable in Hf. pose proof (at_state_durable _ _ _ _ _ _ Hat) as Ed.
  pose proof (local_replaced b ss d' f Hdw Hoth) as Hlu.
  destruct Hat as [Hi (ss1 & Hss1 & _ & Hok) _ _ _]. rewrite Hss in Hss1. injection Hss1 as <-.
  destruct (inv_update stream consumer true settled b b' ss (set_delivery ss d') es) as [Hi' Hok'];
    try apply Hlu; unfold b'; rewrite ?files_replaced; try done.
  split_and!; [|done|done]. eapply evolves_trans; [exact Hev|].
  apply (evolves_update b b' ss (set_delivery ss d')); unfold b'; rewrite ?files_replaced, ?Hf, ?Ed; try done.
  intros o Ho. destruct (Hcause o Ho) as [|[|[HD Hm]]]; [auto|auto|]. right; right. split; [done|].
  by eapply (stream_moved b b' ss (set_delivery ss d')).
Qed.

(** A persist: on success the files are ahead of the cache; on failure the
    consumer is marked, and the files hold the state before or after the event. *)
Section persist.
Context (room : N) (es : list Entry) (d : DeliveryState) (s s' : ConsumerState) (b0 b : BrokerState).
Context (ss : StreamState) (Hg : goes true room es d s b0 b).
Context (Hss : br_streams b !! stream = Some ss) (Hd : ss_delivery ss = d).
Context (Hknown : known es s') (Hflying : flying es d consumer s').
Context (Hmono : forall o, is_done s o = true -> is_done s' o = true).
Context (Hcause : forall o, is_done s' o = true ->
  is_done s o = true \/ A o \/ (D o /\ moved stream consumer b o)).

Lemma persisted f :
  holds f stream consumer s' ->
  goes false room es d s' b0 (set_consumers b (<[(stream, consumer) := f]> (br_consumers b))).
Proof.
  intros Hf. pose proof (holds_durable _ _ _ _ Hf) as E1. pose proof Hg as [_ Hat].
  destruct (at_state_facts _ _ _ _ _ _ Hat) as (_ & _ & _ & Hdw & _).
  destruct (goes_replaced false room es d d s s' f b0 b ss) as (Hev & Hi & Hok); try done.
  { by apply holds_holds_torn. }
  { split; rewrite ?E1; try done; [by apply holds_holds_torn|].
    intros Hm. by destruct (as_unmarked _ _ _ _ _ _ Hat). }
  assert (Hb : replaced b ss d f = set_consumers b (<[(stream, consumer) := f]> (br_consumers b))).
  { unfold replaced. rewrite (insert_id (br_streams b) stream); [by destruct b|].
    rewrite Hss, <-Hd. by destruct ss. }
  rewrite Hb in *. assert (Hsame : set_delivery ss d = ss) by (rewrite <-Hd; by destruct ss).
  split; [done|]. split; [done| | |apply Hat|apply Hat].
  - exists ss. by rewrite <-Hsame at 3.
  - unfold files_of. cbn. by rewrite lookup_insert_eq.
Qed.

Lemma persist_failed f t e :
  holds_torn f stream consumer t -> t = s \/ t = s' -> broken e ->
  stops b0 e (replaced b ss (mark_consumer_needs_reconcile d consumer) f).
Proof.
  intros Hf Ht He. pose proof (holds_torn_durable _ _ _ _ Hf) as E1. pose proof Hg as [_ Hat].
  destruct (at_state_facts _ _ _ _ _ _ Hat) as (_ & Hk & Hfl & Hdw & _).
  destruct (goes_replaced true room es d (mark_consumer_needs_reconcile d consumer) s t f b0 b ss)
    as (Hev & Hi & _); try done.
  - by apply (delivery_wf_frame d).
  - intros c Hne. split; cbn; [done|set_solver|]. intros s1. by rewrite lookup_delete_ne by done.
  - split; rewrite ?E1; cbn; try done; [by destruct Ht as [-> | ->]..| | |set_solver].
    + intros _. by rewrite lookup_delete_eq.
    + intros s1 _. by rewrite lookup_delete_eq.
  - destruct Ht as [-> | ->]; auto.
  - destruct Ht as [-> | ->]; auto.
  - split_and!; [done|done|by left].
Qed.
End persist.

Lemma wp_persist room es d s s' path b0 b event (Q : unit -> BrokerState -> Prop) :
  goes true room es d s b0 b -> path = stream -> apply_event s event = Ok s' ->
  known es s' -> flying es d consumer s' ->
  (forall o, is_done s o = true -> is_done s' o = true) ->
  (forall o, is_done s' o = true -> is_done s o = true \/ A o \/ (D o /\ moved stream consumer b o)) ->
  (forall b', goes false room es d s' b0 b' -> (br_tick b <= br_tick b')%nat ->
     br_streams b' = br_streams b -> Q tt b') ->
  wp (persist_or_reconcile env stream path consumer s event) Q (stops b0) b.
Proof.
  intros Hg -> He Hk Hf Hmono Hcause HQ. unfold persist_or_reconcile. apply wp_on_error.
  unfold persist_event. do 4 wp_step. apply goes_ticked in Hg. set (b1 := ticked b _) in Hg |- *.
  change (default no_files _) with (files_of b1 stream consumer).
  pose proof Hg as [_ Hat]. destruct (as_stream _ _ _ _ _ _ Hat) as (ss & Hss & Hd & _).
  destruct (persist_consumer_event _ _ _ _ _ _) as [r f1] eqn:Ep.
  pose proof (persist_holds _ _ _ _ _ _ _ _ _ (as_holds _ _ _ _ _ _ Hat) He Ep) as Hp. do 2 wp_step.
  destruct r as [[]|e]; wp_step.
  - apply HQ; [|cbn; lia|done]. by eapply (persisted room es d s s' b0 b1 ss).
  - destruct Hp as (t & Hft & Ht & _). unfold update_delivery. wp_step. apply (wp_locked _ ss); [done|].
    rewrite Hd. by eapply (persist_failed room es d s s' b0 b1 ss), persist_broken.
Qed.

Lemma wp_cache settled room es d s b0 b (Q : unit -> BrokerState -> Prop) E :
  goes settled room es d s b0 b -> unfinished d consumer s ->
  (forall d' b', goes true room es d' s b0 b' -> in_flight d' = in_flight d ->
     in_flight_by_consumer d' = in_flight_by_consumer d ->
     (br_tick b <= br_tick b')%nat -> Q tt b') ->
  wp (cache_state env stream consumer s) Q E b.
Proof.
  intros Hg Hun HQ. unfold cache_state. do 2 wp_step. apply goes_ticked in Hg.
  set (pick := env_keys env _). assert (Hp : lists_keys pick) by apply Henv.
  pose proof Hg as [_ Hat]. destruct (at_state_facts _ _ _ _ _ _ Hat) as (_ & _ & Hf & Hdw & _).
  eapply (wp_update_delivery settled true); [exact Hg|..]; try done.
  - by apply (delivery_wf_frame d).
  - intros c Hne. by apply same_consumer_cache.
  - apply Hat.
  - intros _. split; [done|]. intros s' Hs'%cache_lookup; [|done].
    rewrite lookup_insert_eq in Hs'. by simplify_eq.
  - intros b' Hg' Ht. apply (HQ _ b' Hg'); [done..|]. rewrite Ht. cbn. lia.
Qed.
End steps.
