(* ===== verification/BrokerDelivery.v ===== *)
(** Expired deliveries, deliveries of an earlier process and dead letters:
    what the parts of a poll or an acknowledgement do. *)

From S2P Require Import Prelude Engine RecordFormat Names StreamLog ConsumerState DeliveryState Durability Broker BrokerInvariant BrokerEvents BrokerSteps.

Local Open Scope N_scope.

Section delivery.
Context `{HC : ConsumerCodec} {HL : ConsumerCodecLaws HC}.
Context (env : Env) (Henv : env_ok env) (stream consumer : string) (A D : Offset -> Prop).
Context (R : BrokerError -> BrokerState -> Prop).
Context (legacy : ConsumerPolicy) (Hlegacy : ack_timeout_ms legacy <= u64_max).

Abbreviation goes := (goes stream consumer A D).
Abbreviation stops := (stops stream consumer A D R).
Abbreviation starts := (starts stream consumer A D).

Lemma wp_wall_clock (Q : N -> BrokerState -> Prop) E b :
  (forall now, now = N.min (env_wall_ms env (br_tick b)) u64_max -> Q now (ticked b (S (br_tick b)))) ->
  wp (wall_clock_ms env) Q E b.
Proof. intros HQ. apply wp_effect. by apply HQ. Qed.

(** ** Expired deliveries *)

(** The delivery of an offset, unless its lease has lapsed. *)
Definition live (d : DeliveryState) (now : N) (o : Offset) : option InFlight :=
  match in_flight d !! (consumer, o) with
  | Some i => if if_deadline i <=? now then None else Some i
  | None => None
  end.

(** Nothing will be scheduled for the offset. *)
Definition no_retry (s : ConsumerState) (o : Offset) : Prop :=
  forall log observed_at_ms, orphan_retry_schedule log s legacy o observed_at_ms = Ok None.

Lemma plan_schedules_spec es d s observed_at_ms deliveries :
  consumer_wf s -> known es s -> delivery_wf d -> flying es d consumer s -> unfinished d consumer s ->
  observed_at_ms <= u64_max ->
  (forall i, i ∈ deliveries -> exists o, in_flight d !! (consumer, o) = Some i) ->
  exists rs, plan_schedules s legacy observed_at_ms deliveries = Ok rs /\
    Forall (schedulable s) rs /\ Forall (schedule_fits es) rs /\
    (forall i, i ∈ deliveries -> no_retry s (if_offset i) \/ if_offset i ∈ (rse_offset <$> rs)).
Proof.
  intros Hwf Hk Hdw Hf Hun Hobs.
  induction deliveries as [|i l IH]; intros Hl; cbn [plan_schedules].
  { exists []. split_and!; try done. intros i Hi. by apply not_elem_of_nil in Hi. }
  destruct IH as (rs & E & Hs & Hfit & Hcov); [intros j Hj; apply Hl; by right|].
  destruct (Hl i) as [o Hi]; [by left|]. pose proof (dw_offset d Hdw _ _ _ Hi) as Eo. rewrite Eo.
  assert (Hskip : no_retry s o -> exists rs, plan_schedules s legacy observed_at_ms l = Ok rs /\
    Forall (schedulable s) rs /\ Forall (schedule_fits es) rs /\
    (forall j, j ∈ i :: l -> no_retry s (if_offset j) \/ if_offset j ∈ (rse_offset <$> rs))).
  { intros Hno. exists rs. split_and!; try done. intros j [->|Hj]%elem_of_cons; [by left; rewrite Eo|auto]. }
  case_bool_decide as Hr.
  { apply Hskip. intros log t. unfold orphan_retry_schedule. by rewrite bool_decide_eq_true_2. }
  destruct (policy_for_offset_ok es s o legacy Hwf Hk Hlegacy) as (p & Ep & _). rewrite Ep.
  destruct (attempts_exhausted p (attempts_of s o) || (retry_delay_ms p =? 0)) eqn:Ex.
  { apply Hskip. intros log t. unfold orphan_retry_schedule. rewrite bool_decide_eq_false_2 by done.
    rewrite Ep, Ex. by destruct (attempts_of s o =? 0). }
  rewrite E. eexists. split; [reflexivity|].
  assert (Hd : is_done s o = false) by (apply Hun; eauto).
  destruct (Hf o i Hi) as (e & He & Hkey & _ & Ha). split_and!.
  - constructor; [|done]. split; cbn; [done|]. rewrite Ha; eauto.
  - constructor; [|done]. split; cbn; [eauto|]. apply saturating_add_le.
  - intros j [->|Hj]%elem_of_cons; cbn.
    + right. rewrite Eo. by left.
    + destruct (Hcov j Hj); [by left|right]. by right.
Qed.

Lemma or_insert_schedules_keep s rs o :
  is_Some (retry_not_before s !! o) -> is_Some (retry_not_before (foldl or_insert_schedule s rs) !! o).
Proof.
  revert s; induction rs as [|r rs IH]; intros s Hs; [done|]. cbn. apply IH.
  unfold or_insert_schedule. destruct (retry_not_before s !! rse_offset r) eqn:E; [done|]. cbn.
  destruct (decide (o = rse_offset r)) as [->|]; [by rewrite lookup_insert_eq|].
  by rewrite lookup_insert_ne.
Qed.

Lemma or_insert_schedules_lookup s rs o :
  o ∈ (rse_offset <$> rs) -> is_Some (retry_not_before (foldl or_insert_schedule s rs) !! o).
Proof.
  revert s; induction rs as [|r rs IH]; intros s; cbn; [by intros ?%not_elem_of_nil|].
  intros [->|Ho]%elem_of_cons; [|by apply IH]. apply or_insert_schedules_keep.
  unfold or_insert_schedule.
  destruct (retry_not_before s !! rse_offset r) eqn:E; [by rewrite E|]. cbn. by rewrite lookup_insert_eq.
Qed.

(** The plan schedules what must be scheduled: after it, nothing is left to
    schedule for the deliveries that expired. *)
Lemma plan_covers s rs o :
  no_retry s o \/ o ∈ (rse_offset <$> rs) -> no_retry (foldl or_insert_schedule s rs) o.
Proof.
  intros Ho log t. unfold orphan_retry_schedule. case_bool_decide as Hr; [done|].
  destruct Ho as [Ho|Ho]; [|by destruct (Hr (or_insert_schedules_lookup s rs o Ho))].
  specialize (Ho log t). unfold orphan_retry_schedule in Ho.
  destruct (or_insert_schedules_frame s rs) as (_ & _ & Ea & Ep & Ec & _).
  unfold policy_for_offset, attempts_of in *. rewrite Ea, Ep, Ec.
  assert (Hn : retry_not_before s !! o = None).
  { apply eq_None_not_Some. intros Hs. by apply Hr, or_insert_schedules_keep. }
  rewrite bool_decide_eq_false_2 in Ho by (rewrite Hn; by intros []).
  done.
Qed.

Lemma expired_offsets d now o :
  delivery_wf d ->
  o ∈ (if_offset <$> expired_deliveries d consumer now) <->
  exists i, in_flight d !! (consumer, o) = Some i /\ if_deadline i <= now.
Proof.
  intros Hdw. rewrite list_elem_of_fmap. split.
  - intros (i & -> & (o' & Hi & Hle)%elem_of_expired); [|done].
    rewrite (dw_offset d Hdw _ _ _ Hi). eauto.
  - intros (i & Hi & Hle). exists i. split; [by rewrite (dw_offset d Hdw _ _ _ Hi)|].
    apply elem_of_expired; eauto.
Qed.

Lemma remove_expired_lookup d now o :
  delivery_wf d ->
  in_flight (remove_all d consumer (if_offset <$> expired_deliveries d consumer now)) !! (consumer, o) =
  live d now o.
Proof.
  intros Hdw. rewrite remove_all_lookup. cbn [fst snd]. unfold live.
  destruct (in_flight d !! (consumer, o)) as [i|] eqn:Hi; [|by case_decide].
  destruct (N.leb_spec (if_deadline i) now) as [Hle|Hgt]; case_decide as Hx; try done.
  - destruct Hx. split; [done|]. apply expired_offsets; eauto.
  - destruct Hx as [_ (i' & Hi' & Hle)%expired_offsets]; [|done]. simplify_eq. lia.
Qed.

Lemma live_sub d now o i : live d now o = Some i -> in_flight d !! (consumer, o) = Some i.
Proof. unfold live. destruct (in_flight d !! (consumer, o)) as [j|]; [|done]. by destruct (_ <=? _). Qed.

(** Recording the retries of a plan. *)
Lemma wp_record_schedules room es d s rs path b0 b (Q : ConsumerState -> BrokerState -> Prop) :
  goes true room es d s b0 b -> path = stream -> Forall (schedulable s) rs -> Forall (schedule_fits es) rs ->
  (forall d' b', goes true room es d' (foldl or_insert_schedule s rs) b0 b' ->
     in_flight d' = in_flight d -> in_flight_by_consumer d' = in_flight_by_consumer d ->
     (br_tick b <= br_tick b')%nat -> Q (foldl or_insert_schedule s rs) b') ->
  wp (do! persist_or_reconcile env stream path consumer s (EvRetrySchedules rs) in
      let s := foldl or_insert_schedule s rs in
      do! cache_state env stream consumer s in ret s) Q (stops b0) b.
Proof.
  intros Hg Hpath Hsch Hfit HQ. wp_step. pose proof Hg as [_ Hat].
  destruct (at_state_facts _ _ _ _ _ _ _ _ Hat) as (Hwf & Hk & Hf & _).
  destruct (at_state_settled _ _ _ _ _ _ _ Hat) as [Hun _].
  destruct (or_insert_schedules_frame s rs) as (E1 & E2 & E3 & _).
  assert (Hd : forall o, is_done (foldl or_insert_schedule s rs) o = is_done s o)
    by (intros o; unfold is_done; by rewrite E1, E2).
  eapply wp_persist; [exact Henv|exact Hg|exact Hpath|by apply apply_schedules_or_insert|..].
  - by apply known_schedules.
  - by eapply flying_same_progress.
  - intros o. by rewrite Hd.
  - intros o. rewrite Hd. by left.
  - intros b' Hg' Ht _. wp_step. eapply wp_cache; [exact Henv|exact Hg'| |].
    + intros o Ho. rewrite Hd. by apply Hun.
    + intros d' b'' Hg'' Ein Eix Ht'. wp_step. apply (HQ d'); [done..|lia].
Qed.

(** Releasing the expired deliveries. *)
Lemma wp_release room es d d1 s now b0 b (Q : ConsumerState -> BrokerState -> Prop) :
  goes true room es d1 s b0 b -> delivery_wf d -> in_flight d1 = in_flight d ->
  (forall d' b', goes true room es d' s b0 b' ->
     (forall o, in_flight d' !! (consumer, o) = live d now o) -> br_tick b' = br_tick b -> Q s b') ->
  wp (do! update_delivery stream (fun d' =>
        remove_all d' consumer (if_offset <$> expired_deliveries d consumer now)) in
      do! notify_waiters stream in ret s) Q (stops b0) b.
Proof.
  intros Hg Hdw Ein HQ. wp_step. pose proof Hg as [_ Hat].
  destruct (at_state_facts _ _ _ _ _ _ _ _ Hat) as (_ & _ & Hf & Hdw1 & _).
  destruct (at_state_settled _ _ _ _ _ _ _ Hat) as [Hun Hc].
  set (offsets := if_offset <$> _). destruct (remove_all_frame d1 consumer offsets) as [E1 E2].
  assert (Hl : forall o, in_flight (remove_all d1 consumer offsets) !! (consumer, o) = live d now o).
  { intros o. by rewrite <-(remove_expired_lookup d now o Hdw), !remove_all_lookup, Ein. }
  assert (Hsub : forall o i, in_flight (remove_all d1 consumer offsets) !! (consumer, o) = Some i ->
    in_flight d1 !! (consumer, o) = Some i).
  { intros o i. rewrite Hl, Ein. apply live_sub. }
  eapply (wp_update_delivery _ _ _ _ true true); [exact Hg|..].
  - by apply remove_all_wf.
  - intros c Hne. by apply same_consumer_remove.
  - rewrite E2. apply Hat.
  - by eapply flying_subset.
  - intros _. split.
    + intros o [i Hi]. apply Hun. eauto.
    + intros s' Hs'. rewrite E1 in Hs'. destruct Hc; congruence.
  - intros b2 Hg2 Ht2. wp_step. eapply wp_notify; [exact Hg2|]. intros b3 Hg3 Ht3. wp_step.
    apply (HQ _ b3 Hg3 Hl). lia.
Qed.

Lemma plan_spec es d s ss now now_ms :
  consumer_wf s -> known es s -> delivery_wf d -> flying es d consumer s -> unfinished d consumer s ->
  now_ms <= u64_max -> ss_delivery ss = d ->
  exists plan, plan_expired_deliveries ss consumer s legacy now now_ms = Ok plan /\
    ep_deliveries plan = expired_deliveries d consumer now /\
    (forall o, o ∈ (if_offset <$> ep_deliveries plan) ->
       no_retry (foldl or_insert_schedule s (ep_schedules plan)) o).
Proof.
  intros Hwf Hk Hdw Hf Hun Hms Hd. unfold plan_expired_deliveries. rewrite Hd.
  destruct (plan_schedules_spec es d s now_ms (expired_deliveries d consumer now))
    as (rs & Ers & _ & _ & Hcov); try done.
  { intros i (o & Hi & _)%elem_of_expired; eauto. }
  rewrite Ers. eexists. split; [reflexivity|]. split; [done|]. cbn.
  intros o (i & -> & Hi)%list_elem_of_fmap. by apply plan_covers, Hcov.
Qed.

Lemma wp_apply_plan room es d s ss plan now observed_at_ms b0 b (Q : ConsumerState -> BrokerState -> Prop) :
  goes true room es d s b0 b -> ss_delivery ss = d -> observed_at_ms <= u64_max ->
  plan_expired_deliveries ss consumer s legacy now observed_at_ms = Ok plan ->
  (forall d' b', goes true room es d' (foldl or_insert_schedule s (ep_schedules plan)) b0 b' ->
     (forall o, in_flight d' !! (consumer, o) = live d now o) -> (br_tick b <= br_tick b')%nat ->
     Q (foldl or_insert_schedule s (ep_schedules plan)) b') ->
  wp (apply_expired_delivery_plan env stream consumer s plan) Q (stops b0) b.
Proof.
  intros Hg Hss Hobs Hplan HQ. pose proof Hg as [_ Hat].
  destruct (at_state_facts _ _ _ _ _ _ _ _ Hat) as (Hwf & Hk & Hf & Hdw & _ & _ & Hst & _).
  destruct (at_state_settled _ _ _ _ _ _ _ Hat) as [Hun _].
  unfold plan_expired_deliveries in Hplan. rewrite Hss in Hplan.
  destruct (plan_schedules_spec es d s observed_at_ms (expired_deliveries d consumer now))
    as (rs & Ers & Hsch & Hfit & _); try done.
  { intros i (o & Hi & _)%elem_of_expired; eauto. }
  rewrite Ers in Hplan. injection Hplan as <-. cbn [ep_schedules] in HQ.
  unfold apply_expired_delivery_plan. cbn [ep_deliveries ep_schedules].
  destruct (expired_deliveries d consumer now) as [|i l] eqn:Ed.
  - injection Ers as <-. wp_step. apply (HQ d); [done| |lia]. intros o.
    rewrite <-remove_expired_lookup, Ed by done. done.
  - wp_step. rewrite <-Ed. destruct rs as [|r rs].
    + wp_step. eapply wp_release; [exact Hg|done|done|]. intros d' b' Hg' Hl Ht. apply (HQ d'); [done..|lia].
    + rewrite Hst. eapply wp_record_schedules; [exact Hg|done..|].
      intros d1 b1 Hg1 Ein Eix Ht. eapply wp_release; [exact Hg1|done|done|].
      intros d' b' Hg' Hl Ht'. apply (HQ d'); [done..|lia].
Qed.

Lemma wp_observe room es d s now b0 b (Q : ConsumerState -> BrokerState -> Prop) :
  goes true room es d s b0 b ->
  (forall rs d' b', goes true room es d' (foldl or_insert_schedule s rs) b0 b' ->
     (forall o, in_flight d' !! (consumer, o) = live d now o) -> (br_tick b <= br_tick b')%nat ->
     Q (foldl or_insert_schedule s rs) b') ->
  wp (observe_expired_deliveries env stream consumer s legacy now) Q (stops b0) b.
Proof.
  intros Hg HQ. unfold observe_expired_deliveries. wp_step. apply wp_wall_clock. intros obs Hobs.
  apply goes_ticked in Hg. wp_step. eapply goes_locked; [exact Hg|]. intros ss Hss Hlog Hd. wp_step.
  pose proof Hg as [_ Hat]. destruct (at_state_facts _ _ _ _ _ _ _ _ Hat) as (Hwf & Hk & Hf & Hdw & _).
  destruct (at_state_settled _ _ _ _ _ _ _ Hat) as [Hun _].
  destruct (plan_spec es d s ss now obs) as (plan & Hplan & _); try done; [lia|]. rewrite Hplan. wp_step.
  eapply wp_apply_plan; [exact Hg|done| |exact Hplan|]; [lia|].
  intros d' b' Hg' Hl Ht. apply (HQ (ep_schedules plan) d' b' Hg' Hl). cbn in Ht. lia.
Qed.

(** ** Deliveries of an earlier process *)

Lemma orphan_none log s o t : orphan_retry_schedule log s legacy o t = Ok None -> no_retry s o.
Proof.
  unfold orphan_retry_schedule, no_retry. intros H log' t'. unfold orphan_retry_schedule.
  destruct (bool_decide _); [done|]. destruct (attempts_of s o =? 0); [done|].
  destruct (policy_for_offset s o legacy) as [p|]; [|done].
  destruct (_ || _); [done|]. by destruct (find_record log o).
Qed.

(** The plan is total where the policies and the records are known. *)
Lemma orphan_total es s o p e t :
  Forall entry_ok es -> vec_len es <= u64_max -> policy_for_offset s o legacy = Ok p ->
  vec_get es o = Some e -> exists r, orphan_retry_schedule (log_of es) s legacy o t = Ok r.
Proof.
  intros Hent Hlen Hp He. unfold orphan_retry_schedule. rewrite Hp, find_record_log_of, He by done.
  repeat (destruct (_ : bool); [by eexists|]). by eexists.
Qed.

Lemma orphan_spec es s o t :
  consumer_wf s -> known es s -> Forall entry_ok es -> vec_len es <= u64_max -> t <= u64_max ->
  exists r, orphan_retry_schedule (log_of es) s legacy o t = Ok r /\
    match r with
    | None => True
    | Some r => rse_offset r = o /\ schedulable s r /\ schedule_fits es r /\
        retry_not_before s !! o = None /\
        exists p, policy_for_offset s o legacy = Ok p /\ retry_delay_ms p <> 0 /\
          rse_retry_not_before_ms r = u64_saturating_add t (retry_delay_ms p)
    end.
Proof.
  intros Hwf Hk Hent Hlen Ht. unfold orphan_retry_schedule. case_bool_decide as Hr; [by eexists|].
  destruct (N.eqb_spec (attempts_of s o) 0) as [|Ha]; [by eexists|].
  destruct (policy_for_offset_ok es s o legacy Hwf Hk Hlegacy) as (p & Ep & _). rewrite Ep.
  destruct (attempts_exhausted p _); [by eexists|]. cbn [orb].
  destruct (N.eqb_spec (retry_delay_ms p) 0) as [|Hdel]; [by eexists|].
  destruct (delivery_attempts s !! o) as [a|] eqn:Ea;
    [|by destruct Ha; unfold attempts_of; rewrite Ea].
  destruct (kn_attempts es s Hk o a Ea) as [Ho _].
  apply vec_get_is_Some in Ho as [e He]. rewrite find_record_log_of, He by done.
  eexists. split; [reflexivity|]. cbn. destruct (wf_attempts s Hwf o a Ea) as [_ Hd]. split_and!.
  - done.
  - split; cbn; [done|]. by rewrite Ea.
  - split; cbn; [by exists e|apply saturating_add_le].
  - by apply eq_None_not_Some.
  - exists p. done.
Qed.

Lemma wp_orphan room es d s o b0 b (Q : ConsumerState * bool -> BrokerState -> Prop) :
  goes true room es d s b0 b ->
  (forall b', goes true room es d s b0 b' -> no_retry s o -> (br_tick b <= br_tick b')%nat ->
     Q (s, false) b') ->
  (forall r n p d' b', goes true room es d' (preview_retry s r) b0 b' ->
     in_flight d' = in_flight d -> in_flight_by_consumer d' = in_flight_by_consumer d ->
     rse_offset r = o -> schedule_fits es r -> retry_not_before s !! o = None ->
     policy_for_offset s o legacy = Ok p -> retry_delay_ms p <> 0 ->
     rse_retry_not_before_ms r = u64_saturating_add (N.min (env_wall_ms env n) u64_max) (retry_delay_ms p) ->
     (forall t, exists r', orphan_retry_schedule (log_of es) s legacy o t = Ok (Some r') /\
        rse_offset r' = o /\ rse_key r' = rse_key r /\
        rse_retry_not_before_ms r' = u64_saturating_add t (retry_delay_ms p)) ->
     (br_tick b <= n < br_tick b')%nat ->
     Q (preview_retry s r, N.min (env_wall_ms env n) u64_max <? rse_retry_not_before_ms r) b') ->
  wp (schedule_orphan_retry env stream consumer s legacy o) Q (stops b0) b.
Proof.
  intros Hg Hnone Hsome. unfold schedule_orphan_retry. wp_step. apply wp_wall_clock. intros t Et.
  set (n := br_tick b) in *. apply goes_ticked in Hg. set (b1 := ticked b _) in *.
  wp_step. eapply goes_locked; [exact Hg|]. intros ss Hss Hlog Hd. wp_step. rewrite Hlog.
  pose proof Hg as [_ Hat].
  destruct (at_state_facts _ _ _ _ _ _ _ _ Hat) as (Hwf & Hk & Hf & Hdw & Hent & Hlen & _).
  destruct (at_state_settled _ _ _ _ _ _ _ Hat) as [Hun _].
  destruct (orphan_spec es s o t) as (r & Er & Hr); [done..|lia|]. rewrite Er. wp_step.
  destruct r as [r|].
  - destruct Hr as (Ho & Hsch & Hfit & Hret & p & Ep & Hdel & Etime).
    assert (Es : foldl or_insert_schedule s [r] = preview_retry s r).
    { cbn. unfold or_insert_schedule, preview_retry. by rewrite Ho, Hret. }
    assert (Hdone : forall x, is_done (preview_retry s r) x = is_done s x) by done.
    wp_step. eapply wp_persist; [exact Henv|exact Hg|done|..].
    + rewrite apply_schedules_or_insert by (constructor; [done|constructor]). by rewrite Es.
    + rewrite <-Es. apply known_schedules; [done|]. constructor; [done|constructor].
    + by eapply flying_same_progress.
    + done.
    + by left.
    + intros b2 Hg2 Ht2 _. wp_step. fold (preview_retry s r). rewrite <-Ho. fold (preview_retry s r).
      eapply wp_cache; [exact Henv|exact Hg2|exact Hun|].
      intros d' b3 Hg3 Ein Eix Ht3. wp_step. eapply wp_notify; [exact Hg3|]. intros b4 Hg4 Ht4.
      wp_step. rewrite Et. apply (Hsome r n p d' b4); try done; [by rewrite <-Et|..].
      * intros t'. unfold orphan_retry_schedule in Er |- *.
        destruct (bool_decide _); [done|]. destruct (attempts_of s o =? 0); [done|].
        rewrite Ep in Er |- *. destruct (_ || _); [done|].
        destruct (find_record (log_of es) o) as [rec|]; [|done]. injection Er as <-.
        eexists. split; [reflexivity|done].
      * cbn in Ht2. lia.
  - wp_step. apply Hnone; [done|by eapply orphan_none|cbn; lia].
Qed.
End delivery.

Lemma not_orphan consumer legacy ss s o :
  is_orphan ss consumer s o = false -> in_flight (ss_delivery ss) !! (consumer, o) = None ->
  no_retry legacy s o.
Proof.
  unfold is_orphan, get_in_flight. intros Ho Hf log t. rewrite Hf in Ho.
  unfold orphan_retry_schedule. case_bool_decide as Hr; [done|].
  destruct (N.eqb_spec (attempts_of s o) 0) as [|Ha]; [done|].
  rewrite (proj2 (N.ltb_lt _ _)) in Ho by lia. cbn in Ho. done.
Qed.
