(* ===== verification/BrokerDeadLetters.v ===== *)
(** Dead letters: the copy into the dead-letter stream and the acknowledgement
    that follows it. *)

From S2P Require Import Prelude Engine RecordFormat Names StreamLog ConsumerState DeliveryState Durability Broker BrokerInvariant BrokerEvents BrokerSteps.

Local Open Scope N_scope.

(** ** Move identities are valid strings *)

Lemma ascii_utf8 l : Forall (fun b => in_range 0 0x7f b = true) l -> utf8_valid l = true.
Proof. induction 1 as [|b l Hb _ IH]; [done|]. cbn [utf8_valid]. by rewrite Hb. Qed.

Lemma name_byte_ascii b : name_byte b = true -> in_range 0 0x7f b = true.
Proof.
  intros H. assert (Hall : forall b, implb (name_byte b) (in_range 0 0x7f b) = true)
    by (intros []; vm_compute; reflexivity).
  specialize (Hall b). by rewrite H in Hall.
Qed.

Lemma move_id_string stream consumer o :
  valid_name stream -> valid_name consumer -> rust_string (move_id stream consumer o).
Proof.
  intros [_ Hs] [_ Hc]. unfold rust_string. apply ascii_utf8. rewrite move_id_bytes.
  assert (Hn : forall l, Forall (fun b => name_byte b = true) l ->
    Forall (fun b => in_range 0 0x7f b = true) l).
  { intros l Hl. eapply Forall_impl; [exact Hl|]. intros b. apply name_byte_ascii. }
  assert (Hd : forall x : N, Forall (fun b => in_range 0 0x7f b = true) (as_bytes (pretty x))).
  { intros x. apply Hn. eapply Forall_impl; [apply pretty_N_digits|]. by intros b []. }
  repeat first [apply Forall_app; split | apply Forall_cons; split];
    try apply Hd; by try apply Hn.
Qed.

Section dead_letters.
Context `{HC : ConsumerCodec} {HL : ConsumerCodecLaws HC}.
Context (env : Env) (Henv : env_ok env) (stream consumer : string) (A D : Offset -> Prop).
Context (R : BrokerError -> BrokerState -> Prop).

Abbreviation goes := (goes stream consumer A D).
Abbreviation stops := (stops stream consumer A D R).

(** ** Changing the log of another stream *)

Lemma has_room_less room room' b : has_room room b -> room' <= room -> has_room room' b.
Proof. intros H Hle n ss Hn. specialize (H n ss Hn). lia. Qed.

Lemma goes_room settled room room' es d s b0 b :
  goes settled room es d s b0 b -> room' <= room -> goes settled room' es d s b0 b.
Proof. intros [Hev []] Hle. split; [done|]. split; try done. by eapply has_room_less. Qed.

(** A new stream, or more records in an old one. *)
Inductive log_change (b : BrokerState) (target : string) : StreamState -> list Entry -> Prop :=
| log_new : br_streams b !! target = None -> log_change b target (stream_new log_create) []
| log_more tss tss' tes tes' :
  br_streams b !! target = Some tss -> stream_ok (settled_for None target) b target tss tes ->
  ss_log tss' = log_of (tes ++ tes') -> ss_delivery tss' = ss_delivery tss ->
  Forall entry_ok (tes ++ tes') -> vec_len (tes ++ tes') <= u64_max ->
  log_change b target tss' (tes ++ tes').

Lemma log_change_ok b target tss' tes :
  inv None b -> valid_name target -> log_change b target tss' tes ->
  stream_ok (settled_for None target) b target tss' tes.
Proof.
  intros [Hst Hfi] Hname [Hnone|tss tss1 tes0 tes' Ht [Hlog0 Hent0 Hlen0 _ Hdel0 Hcons0] El Ed Hent Hlen].
  - split; try done; [apply delivery_new_wf|]. intros c.
    assert (E : files_of b target c = no_files).
    { unfold files_of. destruct (br_consumers b !! (target, c)) eqn:E; [|done].
      destruct (Hfi target c) as [ss Hss]; [eauto|congruence]. }
    rewrite E. apply consumer_ok_new.
  - split; rewrite ?Ed; try done. intros c. apply consumer_ok_mono, Hcons0.
Qed.

Lemma inv_other b b' target tss' tes :
  inv None b -> valid_name target -> log_change b target tss' tes ->
  br_streams b' = <[target := tss']> (br_streams b) -> br_consumers b' = br_consumers b ->
  inv None b'.
Proof.
  intros Hi Hname Hch Hst Hco. pose proof (log_change_ok _ _ _ _ Hi Hname Hch) as Hok.
  assert (Hf : forall n c, files_of b' n c = files_of b n c) by (intros; unfold files_of; by rewrite Hco).
  destruct Hi as [Hin Hfi]. split.
  - intros n ss. rewrite Hst. intros [[<- <-]|[_ Hn]]%lookup_insert_Some.
    + exists tes. destruct Hok as [? ? ? ? ? Hc]. split; try done. intros c. rewrite Hf. apply Hc.
    + destruct (Hin n ss Hn) as (es & [? ? ? ? ? Hc]). exists es. split; try done.
      intros c. rewrite Hf. apply Hc.
  - intros n c. rewrite Hco, Hst. intros Hs%Hfi. apply lookup_insert_is_Some'. by right.
Qed.

Lemma evolves_other b b' target tss' tes :
  log_change b target tss' tes ->
  br_streams b' = <[target := tss']> (br_streams b) -> br_consumers b' = br_consumers b ->
  br_ack_timeout b' = br_ack_timeout b -> br_max_delivery_attempts b' = br_max_delivery_attempts b ->
  (br_tick b <= br_tick b')%nat ->
  evolves stream consumer A D b b'.
Proof.
  intros Hch Hst Hco Hc1 Hc2 Ht.
  assert (Hf : files_of b' stream consumer = files_of b stream consumer)
    by (unfold files_of; by rewrite Hco).
  split; rewrite ?Hf; auto; [|by rewrite Hco].
  intros n ss Hn. rewrite Hst. destruct (decide (n = target)) as [->|Hne].
  - rewrite lookup_insert_eq. exists tss'. split; [done|].
    destruct Hch as [|tss tss1 tes0 tes' Ht' Hok El Ed Hent Hlen]; [congruence|]. simplify_eq.
    rewrite Ed. split; [|done]. intros es Hes. exists tes'.
    rewrite (represents_inj _ _ _ Hes (so_represents _ _ _ _ _ Hok)). by split.
  - rewrite lookup_insert_ne by done. exists ss. split_and!; [done|apply extends_refl|done|done].
Qed.

Lemma goes_other room room' es d s b0 b b' target tss' tes :
  goes true room es d s b0 b -> target <> stream -> valid_name target -> log_change b target tss' tes ->
  br_streams b' = <[target := tss']> (br_streams b) -> br_consumers b' = br_consumers b ->
  br_ack_timeout b' = br_ack_timeout b -> br_max_delivery_attempts b' = br_max_delivery_attempts b ->
  (br_tick b <= br_tick b')%nat -> room' <= room -> vec_len tes + room' <= u64_max ->
  goes true room' es d s b0 b'.
Proof.
  intros [Hev [Hi (ss & Hss & Hd & Hok) Hh Hu Hro]] Hne Hname Hch Hst Hco Hc1 Hc2 Ht Hle Hlen.
  assert (Hf : forall c, files_of b' stream c = files_of b stream c)
    by (intros; unfold files_of; by rewrite Hco).
  split; [eapply evolves_trans; [exact Hev|by eapply evolves_other]|]. split; try done.
  - by eapply inv_other.
  - exists ss. rewrite Hst, lookup_insert_ne by done. split_and!; [done|done|].
    destruct Hok as [? ? ? ? ? Hc]. split; try done. intros c. rewrite Hf. apply Hc.
  - by rewrite Hf.
  - intros n ss1. rewrite Hst. intros [[<- <-]|[_ Hn]]%lookup_insert_Some.
    + destruct Hch as [|tss tss1 tes0 tes' _ _ -> _ _ _]; [|done]. cbn. rewrite vec_len_nil in Hlen. done.
    + specialize (Hro n ss1 Hn). lia.
Qed.

(** ** Copying a record *)

Context (Hstream : valid_name stream) (Hconsumer : valid_name consumer).
Context (Hdistinct : dead_letter_stream_name stream <> Ok stream).

Lemma wp_dead_letter_target room es d s target b0 b (Q : unit -> BrokerState -> Prop) :
  goes true room es d s b0 b -> dead_letter_stream_name stream = Ok target ->
  (forall b', goes true room es d s b0 b' -> is_Some (br_streams b' !! target) ->
     (br_tick b <= br_tick b')%nat -> Q tt b') ->
  wp (get_or_create_stream env target) Q (stops b0) b.
Proof.
  intros Hg Htarget HQ. unfold get_or_create_stream. do 2 wp_step. case_bool_decide as Hknown.
  { wp_step. by apply HQ. }
  unfold insert_stream. do 2 wp_step. apply goes_ticked in Hg.
  destruct (env_create env _); wp_step; [eapply goes_stops; [exact Hg|by left; left]|].
  assert (Hnone : br_streams b !! target = None) by (by apply eq_None_not_Some).
  destruct (dead_letter_stream_name_total stream Hstream) as (name & Hn & Hv). rewrite Htarget in Hn. simplify_eq.
  apply HQ; [|cbn; rewrite lookup_insert_eq; eauto|cbn; lia].
  eapply goes_other; [exact Hg| |exact Hv|by apply log_new|done..|lia|].
  - congruence.
  - destruct Hg as [_ [_ (ss & Hss & _) _ _ Hro]]. specialize (Hro _ _ Hss). rewrite vec_len_nil. lia.
Qed.

(** The copy of a record fits the target's log. *)
Lemma move_size_ok e o :
  entry_ok e -> o <= u64_max -> size_ok (e_key e) (e_payload e) (MoveId (move_id stream consumer o)).
Proof.
  intros [_ Hk _ _ _ Hp _] Ho. split_and!; [done|done|]. cbn.
  pose proof (dead_letter_move_id_total stream consumer o Hstream Hconsumer Ho) as Hid.
  unfold dead_letter_move_id in Hid.
  destruct (N.leb_spec (str_len (move_id stream consumer o)) MAX_REQUEST_ID_LEN); [done|discriminate].
Qed.

Lemma move_entry_ok io e o :
  io_ok io -> entry_ok e -> o <= u64_max ->
  entry_ok (entry_of io (e_key e) (e_payload e) (MoveId (move_id stream consumer o))).
Proof.
  intros (_ & _ & Hnow) He Ho. destruct (move_size_ok e o He Ho) as (? & ? & ?). destruct He.
  split; try done. by apply move_id_string.
Qed.

(** An entry of the target with the identity and the content is the copy. *)
Lemma moved_entry room es d s b b' target tss' tes i e' o e :
  at_state stream consumer true room es d s b -> br_streams b' !! stream = br_streams b !! stream ->
  vec_get es o = Some e -> dead_letter_stream_name stream = Ok target ->
  br_streams b' !! target = Some tss' -> represents (ss_log tss') tes -> vec_get tes i = Some e' ->
  has_identity (move_id stream consumer o) DeadLetterMove e' = true ->
  e_key e' = e_key e -> e_payload e' = e_payload e -> moved stream consumer b' o.
Proof.
  intros Hat Hs He Ht Htss Hrep Hi Hid Hk Hp.
  destruct (as_stream _ _ _ _ _ _ _ _ Hat) as (ss & Hss & _ & Hok).
  exists target, tss', tes, i, e', ss, es, e. rewrite Hs. split_and!; try done; [|by eapply so_represents].
  unfold has_identity in Hid. apply andb_true_iff in Hid as [H1%bool_decide_eq_true_1 H2%bool_decide_eq_true_1].
  by destruct (e_identity e'); simplify_eq/=.
Qed.

Lemma wp_move room es d s o e target b0 b (Q : unit -> BrokerState -> Prop) :
  goes true (room + 1) es d s b0 b -> vec_get es o = Some e ->
  dead_letter_stream_name stream = Ok target -> is_Some (br_streams b !! target) ->
  (forall b', goes true room es d s b0 b' -> moved stream consumer b' o ->
     (br_tick b <= br_tick b')%nat -> Q tt b') ->
  wp (let! tss := locked target in
      let! io := effect (env_append env) in
      let '(r, log) := append_with_move_id io (ss_log tss) (e_key e) (e_payload e) (move_id stream consumer o) in
      do! put_stream target (set_log tss log) in
      do! lift r in ret tt) Q (stops b0) b.
Proof.
  intros Hg He Htarget [tss Htss] HQ. pose proof Hg as [_ Hat].
  destruct (at_state_facts _ _ _ _ _ _ _ _ Hat) as (_ & _ & _ & _ & Hent & Hlen & _).
  assert (Hoe : o <= u64_max) by (apply vec_get_lt in He; lia).
  assert (Heok : entry_ok e) by (rewrite Forall_forall in Hent; eapply Hent, list_elem_of_lookup_2, He).
  assert (Hne : target <> stream) by congruence.
  destruct (dead_letter_stream_name_total stream Hstream) as (name & Hn & Hvt). rewrite Htarget in Hn. simplify_eq.
  wp_step. eapply wp_locked; [exact Htss|]. do 2 wp_step.
  destruct (inv_streams _ _ (as_inv _ _ _ _ _ _ _ _ Hat) _ _ Htss) as (tes & Htok).
  destruct (so_represents _ _ _ _ _ Htok) as (Htlog & Htent & Htlen).
  pose proof (as_room _ _ _ _ _ _ _ _ Hat _ _ Htss) as Hroom. rewrite Htlog in Hroom |- *.
  cbn [log_of log_next_offset] in Hroom.
  set (io := env_append env _). assert (Hio : io_ok io) by apply Henv.
  rewrite append_with_move_id_log_of;
    [|done|unfold u64_max in *; lia|done|apply Heok|apply Heok|by apply move_id_string|by apply move_size_ok].
  apply goes_ticked in Hg. destruct (first_identity tes _ DeadLetterMove) as [i|] eqn:Ei.
  - apply first_identity_Some in Ei as (e' & Hi & Hid). rewrite Hi. cbn [is_some_and].
    assert (Hsame : set_log tss (log_of tes) = tss) by (rewrite <-Htlog; by destruct tss).
    rewrite Hsame. do 2 wp_step. rewrite insert_id by done. set (b1 := set_streams _ _).
    assert (Hb1 : b1 = ticked b (S (br_tick b))) by done. rewrite Hb1.
    destruct (_ && _) eqn:Ec; do 2 wp_step; [|eapply goes_stops; [exact Hg|by left; left]].
    apply andb_true_iff in Ec as [Hk%bool_decide_eq_true_1 Hp%bool_decide_eq_true_1].
    wp_step. apply HQ; [eapply goes_room; [exact Hg|lia]| |cbn; lia].
    by eapply (moved_entry (room + 1) es d s b _ name tss tes i e'); [..|by apply (so_represents _ _ _ _ _ Htok)| | | |].
  - set (e' := entry_of io (e_key e) (e_payload e) _).
    assert (Hent' : Forall entry_ok (tes ++ [e'])).
    { apply Forall_app. split; [done|]. apply Forall_singleton. by apply move_entry_ok. }
    assert (Hlen' : vec_len (tes ++ [e']) = vec_len tes + 1) by (by rewrite vec_len_app).
    do 5 wp_step. apply HQ; [| |cbn; lia].
    + eapply goes_other; [exact Hg|exact Hne|exact Hvt| |done..|lia|rewrite Hlen'; lia].
      eapply (log_more _ _ tss _ tes [e']); try done; [|rewrite Hlen'; lia].
      destruct Htok as [? ? ? ? ? Hc]. split; try done.
    + eapply (moved_entry (room + 1) es d s b _ name (set_log tss (log_of (tes ++ [e']))) (tes ++ [e']) (vec_len tes) e');
        try done; cbn; [by rewrite lookup_insert_ne|by rewrite lookup_insert_eq| | |].
      * split_and!; [done|done|rewrite Hlen'; lia].
      * apply vec_get_snoc.
      * unfold has_identity. cbn. by rewrite !bool_decide_eq_true_2.
Qed.

(** The copy is in the dead-letter stream, whether it was there already or not. *)
Lemma wp_dead_letter_record room es d s o e record b0 b (Q : unit -> BrokerState -> Prop) :
  goes true (room + 1) es d s b0 b -> ri_offset record = o -> vec_get es o = Some e ->
  (forall b', goes true room es d s b0 b' -> moved stream consumer b' o ->
     (br_tick b <= br_tick b')%nat -> Q tt b') ->
  wp (dead_letter_record env stream consumer record) Q (stops b0) b.
Proof.
  intros Hg Ho He HQ. pose proof Hg as [_ Hat].
  destruct (at_state_facts _ _ _ _ _ _ _ _ Hat) as (_ & _ & _ & _ & Hent & Hlen & _).
  assert (Hoe : o <= u64_max) by (apply vec_get_lt in He; lia).
  destruct (dead_letter_stream_name_total stream Hstream) as (target & Htarget & Hvt).
  unfold dead_letter_record. rewrite Htarget, Ho, dead_letter_move_id_total by done. do 5 wp_step.
  eapply goes_locked; [exact Hg|]. intros ss Hss Hlog Hd. wp_step.
  rewrite Hlog, read_message_log_of, He by done. do 2 wp_step.
  eapply wp_dead_letter_target; [exact Hg|exact Htarget|]. intros b1 Hg1 Htss Ht1.
  eapply wp_move; [exact Hg1|exact He|exact Htarget|exact Htss|].
  intros b2 Hg2 Hm Ht2. apply HQ; [done|done|lia].
Qed.

(** ** Copy, then acknowledge *)

Lemma wp_dead_letter room es d s o e record b0 b (Q : ConsumerState -> BrokerState -> Prop) :
  goes true (room + 1) es d s b0 b -> ri_offset record = o -> vec_get es o = Some e ->
  in_flight d !! (consumer, o) = None -> D o ->
  (forall d' b', goes true room es d' (acknowledge s o) b0 b' -> in_flight d' = in_flight d ->
     in_flight_by_consumer d' = in_flight_by_consumer d -> (br_tick b <= br_tick b')%nat ->
     Q (acknowledge s o) b') ->
  wp (dead_letter env stream consumer s record) Q (stops b0) b.
Proof.
  intros Hg Ho He Hni HD HQ. unfold dead_letter. rewrite Ho. wp_step.
  eapply wp_dead_letter_record; [exact Hg|exact Ho|exact He|]. intros b1 Hg1 Hm Ht1. wp_step.
  pose proof Hg1 as [_ Hat]. destruct (at_state_facts _ _ _ _ _ _ _ _ Hat) as (Hwf & Hk & Hf & _).
  destruct (at_state_settled _ _ _ _ _ _ _ Hat) as [Hun _].
  assert (Hun' : unfinished d consumer (acknowledge s o)).
  { intros o' Ho'. rewrite acknowledge_done, (Hun o' Ho') by done. apply N.eqb_neq. intros ->.
    rewrite Hni in Ho'. by destruct Ho'. }
  eapply (wp_persist env Henv); [exact Hg1|done|done|by apply known_acknowledge|by apply flying_acknowledge|..].
  - intros o'. by apply acknowledge_mono.
  - intros o'. rewrite acknowledge_done by done. intros [|Heq%N.eqb_eq]%orb_true_iff; [by left|].
    subst. by right; right.
  - intros b2 Hg2 Ht2 _. wp_step. eapply (wp_cache env Henv); [exact Hg2|exact Hun'|].
    intros d' b3 Hg3 Ein Eix Ht3. wp_step. eapply wp_notify; [exact Hg3|]. intros b4 Hg4 Ht4.
    wp_step. unfold count_dead_letter. wp_step. wp_step.
    apply (HQ d'); [|done|done|cbn; lia]. by apply goes_counters.
Qed.

Lemma wp_pending_dead_letters es d s (terminal : list RecordIndex) b0 room b (Q : ConsumerState -> BrokerState -> Prop) :
  goes true (room + vec_len terminal) es d s b0 b ->
  (forall r : RecordIndex, r ∈ terminal -> in_flight d !! (consumer, ri_offset r) = None /\ ri_offset r < vec_len es /\
     D (ri_offset r)) ->
  (forall d' b', goes true room es d' (foldl acknowledge s (ri_offset <$> terminal)) b0 b' ->
     in_flight d' = in_flight d -> in_flight_by_consumer d' = in_flight_by_consumer d ->
     (br_tick b <= br_tick b')%nat ->
     Q (foldl acknowledge s (ri_offset <$> terminal)) b') ->
  wp (persist_pending_dead_letters env stream consumer s terminal) Q (stops b0) b.
Proof.
  revert d s b; induction terminal as [|r terminal IH]; intros d s b Hg Hr HQ; cbn [persist_pending_dead_letters].
  - wp_step. apply (HQ d); [|done..]. eapply goes_room; [exact Hg|]. lia.
  - wp_step. destruct (Hr r) as (Hni & Hlt & HD); [by left|]. apply vec_get_is_Some in Hlt as [e He].
    eapply wp_dead_letter; [|done|exact He|exact Hni|exact HD|].
    { eapply (goes_room _ (room + vec_len (r :: terminal)) (room + vec_len terminal + 1));
        [exact Hg|]. rewrite vec_len_cons. lia. }
    intros d' b' Hg' Ein Eix Ht. eapply IH; [exact Hg'| |].
    + intros r' Hr'. rewrite Ein. apply Hr. by right.
    + intros d'' b'' Hg'' Ein' Eix' Ht'. apply (HQ d''); [done|congruence|congruence|lia].
Qed.
End dead_letters.
