(* ===== verification/BrokerSearch.v ===== *)
(** The search for the next record of a consumer, and the rounds of the loops
    that search until a record can be delivered. *)

From S2P Require Import Prelude Engine RecordFormat Names StreamLog ConsumerState DeliveryState Durability Broker BrokerInvariant BrokerEvents BrokerSteps.

Local Open Scope N_scope.

(** ** What a filter reserves *)

Record reserves (flight : Offset -> option InFlight) (f : Filter) : Prop := {
  rv_offsets o : o ∈ f.1 <-> is_Some (flight o);
  rv_keys k : k ∈ f.2 <-> exists o i, flight o = Some i /\ if_key i = Some k;
}.

Lemma reserves_unique flight flight' f f' :
  (forall o, flight o = flight' o) -> reserves flight f -> reserves flight' f' -> f = f'.
Proof.
  intros Hfl [H1 H2] [H1' H2']. destruct f as [f1 f2], f' as [f1' f2']; cbn in *. f_equal.
  - apply set_eq. intros o. by rewrite H1, H1', Hfl.
  - apply set_eq. intros k. rewrite H2, H2'. by setoid_rewrite Hfl.
Qed.

Lemma filter_insert_offsets f o key x : x ∈ (filter_insert f o key).1 <-> x = o \/ x ∈ f.1.
Proof. cbn. set_solver. Qed.

Lemma filter_insert_keys f o key k : k ∈ (filter_insert f o key).2 <-> key = Some k \/ k ∈ f.2.
Proof. cbn. destruct key; set_solver. Qed.

Lemma filter_insert_sub f o key : f.1 ⊆ (filter_insert f o key).1.
Proof. intros x Hx. apply filter_insert_offsets. by right. Qed.

Lemma filter_insert_self f o key : o ∈ (filter_insert f o key).1.
Proof. apply filter_insert_offsets. by left. Qed.

Section search.
Context (consumer : string).

Definition flight_of (d : DeliveryState) (o : Offset) : option InFlight := in_flight d !! (consumer, o).

(** The reservations of the deliveries in flight. *)
Definition flight_filter (d : DeliveryState) : Filter := default (∅, ∅) (in_flight_filter d consumer).

Lemma flight_filter_reserves d : delivery_wf d -> reserves (flight_of d) (flight_filter d).
Proof.
  intros Hwf. unfold flight_filter, in_flight_filter. split.
  - intros o. unfold flight_of. rewrite <-(dw_index_offsets d Hwf).
    by destruct (in_flight_by_consumer d !! consumer).
  - intros k. unfold flight_of. rewrite <-(dw_index_keys d Hwf).
    by destruct (in_flight_by_consumer d !! consumer).
Qed.

Definition flight_without (d : DeliveryState) (released : gset Offset) (o : Offset) : option InFlight :=
  if bool_decide (o ∈ released) then None else flight_of d o.

Definition exclude_step (released : gset Offset) : Filter -> DeliveryKey * InFlight -> Filter :=
  fun '(offsets, keys) '(delivery_key, delivery) =>
  if bool_decide (delivery_key.1 <> consumer) || bool_decide (if_offset delivery ∈ released)
  then (offsets, keys)
  else ({[if_offset delivery]} ∪ offsets,
        match if_key delivery with Some key => {[key]} ∪ keys | None => keys end).

Lemma exclude_fold released l f :
  let f' := foldl (exclude_step released) f l in
  (forall o, o ∈ f'.1 <-> o ∈ f.1 \/ exists key i, (key, i) ∈ l /\ key.1 = consumer /\
     (if_offset i ∉ released) /\ if_offset i = o) /\
  (forall k, k ∈ f'.2 <-> k ∈ f.2 \/ exists key i, (key, i) ∈ l /\ key.1 = consumer /\
     (if_offset i ∉ released) /\ if_key i = Some k).
Proof.
  revert f; induction l as [|[key i] l IH]; intros f; cbn [foldl].
  { split; intros x; (split; [by left|]); (intros [?|(? & ? & H & _)]; [done|by apply not_elem_of_nil in H]). }
  destruct (IH (exclude_step released f (key, i))) as [H1 H2]. cbv zeta.
  split; intros x; rewrite ?H1, ?H2; clear IH H1 H2; destruct f as [f1 f2];
    cbn [exclude_step]; setoid_rewrite elem_of_cons;
    (case_bool_decide as Hc; [|case_bool_decide as Hr]); cbn [orb fst snd].
  - naive_solver.
  - naive_solver.
  - assert (key.1 = consumer) by (by destruct (decide (key.1 = consumer))). set_unfold. naive_solver.
  - naive_solver.
  - naive_solver.
  - assert (key.1 = consumer) by (by destruct (decide (key.1 = consumer))).
    destruct (if_key i) eqn:Ek; set_unfold; naive_solver.
Qed.

Lemma excluding_reserves d released :
  delivery_wf d ->
  reserves (flight_without d released) (in_flight_filter_excluding d consumer released).
Proof.
  intros Hwf. unfold in_flight_filter_excluding. case_bool_decide as He.
  - subst. fold (flight_filter d).
    destruct (flight_filter_reserves d Hwf) as [H1 H2]. split; intros x; rewrite ?H1, ?H2;
      unfold flight_without; setoid_rewrite bool_decide_eq_false_2; done || set_solver.
  - change (foldl _ (∅, ∅) (map_to_list (in_flight d)))
      with (foldl (exclude_step released) (∅, ∅) (map_to_list (in_flight d))).
    destruct (exclude_fold released (map_to_list (in_flight d)) (∅, ∅)) as [H1 H2].
    assert (Hfl : forall o i, flight_without d released o = Some i <->
      in_flight d !! (consumer, o) = Some i /\ o ∉ released).
    { intros o i. unfold flight_without, flight_of. case_bool_decide; naive_solver. }
    split; intros x; rewrite ?H1, ?H2; unfold is_Some; setoid_rewrite Hfl;
      setoid_rewrite elem_of_map_to_list; set_unfold; split.
    + intros [?|([c o] & i & Hi & ? & Hn & <-)]; [done|]. cbn in *. subst.
      pose proof (dw_offset d Hwf _ _ _ Hi). subst. eauto.
    + intros (i & Hi & Hn). right. exists (consumer, x), i.
      rewrite (dw_offset d Hwf _ _ _ Hi). done.
    + intros [?|([c o] & i & Hi & ? & Hn & Hk)]; [done|]. cbn in *. subst.
      pose proof (dw_offset d Hwf _ _ _ Hi). subst. eauto.
    + intros (o & i & (Hi & Hn) & Hk). right. exists (consumer, o), i.
      rewrite (dw_offset d Hwf _ _ _ Hi). done.
Qed.

(** ** The next record *)

(** A record that is not finished, not reserved, and whose key is free. *)
Record eligible (flight : Offset -> option InFlight) (s : ConsumerState) (extra : Filter)
  (o : Offset) (key : option string) : Prop := {
  el_done : is_done s o = false;
  el_flight : flight o = None;
  el_extra : o ∉ extra.1;
  el_key k : key = Some k ->
    (forall o' i, flight o' = Some i -> if_key i <> Some k) /\ k ∉ extra.2;
}.

Definition search (es : list Entry) (s : ConsumerState) (f : Filter) : option RecordIndex :=
  candidate_of es (committed_offset s) (acknowledged_offsets s) (Some f).

Lemma candidate_of_None es committed acked :
  candidate_of es committed acked None = candidate_of es committed acked (Some (∅, ∅)).
Proof.
  unfold candidate_of. apply find_ext_in. intros r _. f_equal.
Qed.

Lemma find_excluding es ss s extra :
  ss_log ss = log_of es -> Forall entry_ok es -> vec_len es <= u64_max ->
  find_candidate_excluding ss consumer (committed_offset s) (acknowledged_offsets s) extra =
  Ok (search es s (filter_union (flight_filter (ss_delivery ss)) extra)).
Proof.
  intros Hlog Hent Hlen. unfold find_candidate_excluding, flight_filter, search. rewrite Hlog.
  assert (Hemp : filter_is_empty extra = true -> extra = (∅, ∅)).
  { unfold filter_is_empty. intros [H1%bool_decide_eq_true_1 H2%bool_decide_eq_true_1]%andb_true_iff.
    destruct extra; cbn in *; by subst. }
  assert (Hr : forall f, filter_union f (∅, ∅) = f).
  { intros []. unfold filter_union; cbn. by rewrite !(right_id_L ∅ (∪)). }
  assert (Hl : forall f, filter_union (∅, ∅) f = f).
  { intros []. unfold filter_union; cbn. by rewrite !(left_id_L ∅ (∪)). }
  destruct (in_flight_filter _ _) as [f|]; destruct (filter_is_empty extra) eqn:E;
    rewrite find_candidate_log_of by done; cbn [default id].
  - by rewrite Hemp, Hr.
  - done.
  - by rewrite Hemp, Hr, candidate_of_None.
  - by rewrite Hl.
Qed.

Lemma find_excluding_released es ss s extra released :
  ss_log ss = log_of es -> Forall entry_ok es -> vec_len es <= u64_max ->
  find_candidate_excluding_released ss consumer (committed_offset s) (acknowledged_offsets s)
    extra released =
  Ok (search es s
    (filter_union (in_flight_filter_excluding (ss_delivery ss) consumer released) extra)).
Proof.
  intros Hlog Hent Hlen. unfold find_candidate_excluding_released, search. rewrite Hlog. cbv zeta.
  destruct (filter_is_empty _) eqn:E; rewrite find_candidate_log_of by done; [|done].
  rewrite candidate_of_None. do 3 f_equal. unfold filter_is_empty in E.
  apply andb_true_iff in E as [H1%bool_decide_eq_true_1 H2%bool_decide_eq_true_1].
  destruct (filter_union _ _); cbn in *; by subst.
Qed.

Lemma search_eligible s flight f extra r :
  reserves flight f ->
  (committed_offset s <=? ri_offset r)
    && record_is_candidate (acknowledged_offsets s) (Some (filter_union f extra)) r = true <->
  eligible flight s extra (ri_offset r) (ri_key r).
Proof.
  intros [H1 H2]. unfold record_is_candidate. cbn [is_some_and filter_union fst snd].
  rewrite andb_true_iff, N.leb_le. split.
  - intros [Hc Hr]. case_bool_decide as Ha; [done|]. case_bool_decide as Hf; [done|].
    cbn [orb] in Hr. rewrite not_elem_of_union, H1 in Hf. destruct Hf as [Hf He]. split; try done.
    + unfold is_done. rewrite bool_decide_eq_false_2 by done. rewrite orb_false_r. by apply N.ltb_ge.
    + by apply eq_None_not_Some.
    + intros k Hk. rewrite Hk in Hr. cbn in Hr. apply negb_true_iff, bool_decide_eq_false_1 in Hr.
      rewrite not_elem_of_union, H2 in Hr. destruct Hr as [Hr1 Hr2]. split; [|done].
      intros o' i Hi Hik. apply Hr1. eauto.
  - intros [Hd Hf He Hk]. unfold is_done in Hd. apply orb_false_iff in Hd as [Hc%N.ltb_ge Ha].
    split; [done|]. rewrite Ha, (bool_decide_eq_false_2 (_ ∈ _ ∪ _)); cbn [orb].
    + destruct (ri_key r) as [k|]; [|done]. cbn. rewrite bool_decide_eq_false_2; [done|].
      destruct (Hk k eq_refl) as [Hk1 Hk2]. rewrite not_elem_of_union, H2. split; [|done].
      intros (o' & i & Hi & Hik). by apply (Hk1 o' i).
    + rewrite not_elem_of_union, H1, Hf. split; [by intros []|done].
Qed.

(** The first record that is eligible. *)
Lemma search_spec es s flight f extra :
  reserves flight f ->
  match search es s (filter_union f extra) with
  | None => forall o e, vec_get es o = Some e -> ~ eligible flight s extra o (e_key e)
  | Some r => exists e, vec_get es (ri_offset r) = Some e /\ ri_key r = e_key e /\
      eligible flight s extra (ri_offset r) (e_key e) /\
      forall o' e', o' < ri_offset r -> vec_get es o' = Some e' ->
        ~ eligible flight s extra o' (e_key e')
  end.
Proof.
  intros Hres. unfold search, candidate_of.
  assert (Hidx : forall k r, entries_index 0 0 es !! k = Some r ->
    exists e, vec_get es (ri_offset r) = Some e /\ ri_key r = e_key e /\ ri_offset r = N.of_nat k).
  { intros k r. rewrite entries_index_lookup. destruct (es !! k) as [e|] eqn:E; [|done].
    intros [= <-]. exists e. cbn. unfold vec_get. rewrite N.add_0_l, Nat2N.id. done. }
  assert (Hget : forall o e, vec_get es o = Some e -> exists r,
    entries_index 0 0 es !! N.to_nat o = Some r /\ ri_offset r = o /\ ri_key r = e_key e).
  { intros o e He. rewrite entries_index_lookup. unfold vec_get in He. rewrite He.
    eexists. split; [done|]. cbn. split; [lia|done]. }
  destruct (List.find _ _) as [r|] eqn:Ef.
  - apply find_Some_split in Ef as (l1 & l2 & El & Hr & Hl1).
    destruct (Hidx (length l1) r) as (e & He & Hk & Ho); [by rewrite El, list_lookup_middle|].
    exists e. apply (search_eligible s flight f extra r Hres) in Hr. rewrite Hk in Hr.
    split_and!; [done..|]. intros o' e' Hlt He' Hel.
    destruct (Hget o' e' He') as (r' & Hr' & Ho' & Hk').
    rewrite El, lookup_app_l in Hr' by lia. rewrite Forall_forall in Hl1.
    specialize (Hl1 r' (list_elem_of_lookup_2 _ _ _ Hr')). cbn in Hl1.
    rewrite <-Ho', <-Hk' in Hel. apply (search_eligible s flight f extra r' Hres) in Hel. congruence.
  - intros o e He Hel. apply find_None_Forall in Ef. rewrite Forall_forall in Ef.
    destruct (Hget o e He) as (r & Hr & Ho & Hk).
    specialize (Ef r (list_elem_of_lookup_2 _ _ _ Hr)). cbn in Ef.
    rewrite <-Ho, <-Hk in Hel. apply (search_eligible s flight f extra r Hres) in Hel. congruence.
Qed.

(** ** Keys *)

(** When everything that [extra] holds back is finished or holds back its key
    too, the record found comes first among its key. *)
Lemma search_key_ready es d s s' extra o e :
  flying es d consumer s -> eligible (flight_of d) s extra o (e_key e) ->
  (forall o' e', o' < o -> vec_get es o' = Some e' -> ~ eligible (flight_of d) s extra o' (e_key e')) ->
  (forall o, is_done s o = true -> is_done s' o = true) ->
  (forall o' e' k, o' ∈ extra.1 -> vec_get es o' = Some e' -> e_key e' = Some k ->
     is_done s' o' = true \/ k ∈ extra.2) ->
  key_ready es s' o (e_key e).
Proof.
  intros Hf [Hd Hfl Hex Hk] Hmin Hmono Hheld k o' e' Hkey Hlt He' Hkey'.
  destruct (Hk k Hkey) as [Hk1 Hk2].
  destruct (is_done s o') eqn:Ed; [by apply Hmono|].
  destruct (decide (o' ∈ extra.1)) as [Hin|Hin].
  { by destruct (Hheld o' e' k Hin He' Hkey'). }
  destruct (flight_of d o') as [i|] eqn:Ei.
  { destruct (Hf o' i Ei) as (e1 & He1 & Hik & _). exfalso. apply (Hk1 o' i Ei). congruence. }
  exfalso. apply (Hmin o' e' Hlt He'). split; try done.
  intros k' Hk'. rewrite Hkey' in Hk'. injection Hk' as <-. by split.
Qed.

(** ** Retries *)

Definition retry_held (s : ConsumerState) (now : N) (o : Offset) (r : RetrySchedule) : Prop :=
  retry_not_before s !! o = Some r /\ now < retry_not_before_ms r.

Definition retry_step (now : N) : Filter -> Offset * RetrySchedule -> Filter :=
  fun '(offsets, keys) '(offset, schedule) =>
  if retry_not_before_ms schedule <=? now then (offsets, keys)
  else ({[offset]} ∪ offsets,
        match rs_key schedule with Some key => {[key]} ∪ keys | None => keys end).

Lemma retry_step_fold now l (f : Filter) :
  let f' := foldl (retry_step now) f l in
  (forall o, o ∈ f'.1 <-> o ∈ f.1 \/ exists r, (o, r) ∈ l /\ now < retry_not_before_ms r) /\
  (forall k, k ∈ f'.2 <-> k ∈ f.2 \/
     exists o r, ((o, r) ∈ l /\ now < retry_not_before_ms r) /\ rs_key r = Some k).
Proof.
  revert f. induction l as [|[o1 r1] l IH]; intros [f1 f2]; cbn [foldl retry_step].
  - cbn. split; intros; (split; [by left|]); intros [?|H]; [done| |done|].
    + by destruct H as (? & ?%not_elem_of_nil & _).
    + by destruct H as (? & ? & [?%not_elem_of_nil _] & _).
  - setoid_rewrite elem_of_cons. destruct (N.leb_spec (retry_not_before_ms r1) now) as [Hle|Hgt].
    + destruct (IH (f1, f2)) as [H1 H2]. split; intros x; rewrite ?H1, ?H2; clear -Hle.
      * naive_solver lia.
      * naive_solver lia.
    + destruct (IH ({[o1]} ∪ f1,
        match rs_key r1 with Some key => {[key]} ∪ f2 | None => f2 end)) as [H1 H2].
      split; intros x; rewrite ?H1, ?H2; clear -Hgt; cbn [fst snd].
      * rewrite elem_of_union, elem_of_singleton. naive_solver.
      * destruct (rs_key r1) as [k|] eqn:E; rewrite ?elem_of_union, ?elem_of_singleton; naive_solver.
Qed.

Lemma retries_reserved s now :
  (forall o, o ∈ (retry_filter s now).1 <-> exists r, retry_held s now o r) /\
  (forall k, k ∈ (retry_filter s now).2 <-> exists o r, retry_held s now o r /\ rs_key r = Some k).
Proof.
  destruct (retry_step_fold now (btree_items (retry_not_before s)) (∅, ∅)) as [H1 H2].
  change (retry_filter s now) with (foldl (retry_step now) (∅, ∅) (btree_items (retry_not_before s))).
  unfold retry_held. split; [intros o|intros k].
  - rewrite H1. setoid_rewrite elem_of_btree_items. set_solver.
  - rewrite H2. setoid_rewrite elem_of_btree_items. set_solver.
Qed.

(** ** Rounds *)

Definition rounds (es : list Entry) (s : ConsumerState) (extra : Filter) : nat :=
  length (filter (fun i => is_done s (N.of_nat i) = false /\ N.of_nat i ∉ extra.1) (seq 0 (length es))).

Lemma rounds_start es s extra : (rounds es s extra <= length es)%nat.
Proof. unfold rounds. etrans; [apply length_filter|]. by rewrite length_seq. Qed.

Lemma rounds_less es s s' extra extra' o :
  o < vec_len es -> is_done s o = false -> o ∉ extra.1 ->
  (forall o', is_done s o' = true -> is_done s' o' = true) -> extra.1 ⊆ extra'.1 ->
  is_done s' o = true \/ o ∈ extra'.1 ->
  (rounds es s' extra' < rounds es s extra)%nat.
Proof.
  intros Hlt Hd Hn Hmono Hsub Ho. unfold rounds. apply length_filter_sub_lt with (N.to_nat o).
  - apply elem_of_seq. unfold vec_len in Hlt. lia.
  - intros i [H1 H2]. split; [|set_solver]. destruct (is_done s (N.of_nat i)) eqn:E; [|done].
    apply Hmono in E. congruence.
  - rewrite N2Nat.id. done.
  - rewrite N2Nat.id. intros [H1 H2]. destruct Ho; [congruence|done].
Qed.
End search.
