(* ===== verification/BrokerPoll.v ===== *)
(** Single polls: the loop that searches and delivers, the preflight that
    foresees its choice, and what a poll answers. *)

From S2P Require Import Prelude Engine RecordFormat Names StreamLog ConsumerState DeliveryState Durability Broker BrokerInvariant BrokerEvents BrokerSteps BrokerDelivery BrokerDeadLetters BrokerSearch.

Local Open Scope N_scope.

(** ** Which streams are dead-letter streams *)

(** Computations that add no stream. *)
Definition names_kept {A} (m : M A) : Prop := forall b, dom (br_streams (m b).2) = dom (br_streams b).

Lemma wp_names {A} (m : M A) (Q : A -> BrokerState -> Prop) E b :
  names_kept m -> wp m (fun a b' => dom (br_streams b') = dom (br_streams b) -> Q a b') E b ->
  wp m Q E b.
Proof. intros Hn. specialize (Hn b). unfold wp. destruct (m b) as [[a|e|] b']; auto. Qed.

Lemma names_kept_bind {A B} (m : M A) (k : A -> M B) :
  names_kept m -> (forall a, names_kept (k a)) -> names_kept (bind m k).
Proof.
  intros Hm Hk b. specialize (Hm b). unfold bind. destruct (m b) as [[a|e|] b']; cbn in *; try done.
  by rewrite (Hk a b').
Qed.

Lemma names_kept_update stream f : names_kept (update_delivery stream f).
Proof.
  intros b. unfold update_delivery, bind, locked.
  destruct (br_streams b !! stream) as [ss|] eqn:E; [|done]. cbn. apply dom_insert_lookup_L. eauto.
Qed.

Lemma names_kept_notify stream : names_kept (notify_waiters stream).
Proof.
  intros b. unfold notify_waiters, bind, locked.
  destruct (br_streams b !! stream) as [ss|] eqn:E; [|done]. cbn. apply dom_insert_lookup_L. eauto.
Qed.

Lemma names_kept_on_error {A} (m : M A) h : names_kept m -> names_kept h -> names_kept (on_error m h).
Proof.
  intros Hm Hh b. specialize (Hm b). unfold on_error. destruct (m b) as [[a|e|] b']; cbn in *; try done.
  specialize (Hh b'). destruct (h b') as [[?|?|] b'']; cbn in *; congruence.
Qed.

Section names.
Context `{ConsumerCodec} (env : Env).

Lemma names_kept_locked stream : names_kept (locked stream).
Proof. intros b. unfold locked. by destruct (br_streams b !! stream). Qed.

Lemma names_kept_lift {A} (r : Result A BrokerError) : names_kept (lift r).
Proof. by destruct r. Qed.

Lemma names_kept_persist locked_stream stream consumer s event :
  names_kept (persist_or_reconcile env locked_stream stream consumer s event).
Proof.
  apply names_kept_on_error; [|apply names_kept_update]. intros b. unfold persist_event, bind. cbn.
  destruct (persist_consumer_event _ _ _ _ _ _) as [r f]. cbn. by destruct r.
Qed.

Lemma names_kept_cache stream consumer s : names_kept (cache_state env stream consumer s).
Proof. apply names_kept_bind; [done|]. intros. apply names_kept_update. Qed.
End names.

Ltac solve_names :=
  repeat first
    [ done
    | progress cbv zeta
    | apply names_kept_locked | apply names_kept_lift | apply names_kept_update
    | apply names_kept_notify | apply names_kept_persist | apply names_kept_cache
    | match goal with
      | |- names_kept (bind _ _) => apply names_kept_bind; [|intros ?]
      | |- names_kept (match ?x with _ => _ end) => destruct x
      end ].

Lemma names_kept_orphan `{ConsumerCodec} env stream consumer s legacy o :
  names_kept (schedule_orphan_retry env stream consumer s legacy o).
Proof. unfold schedule_orphan_retry. solve_names. Qed.

Lemma names_kept_plan `{ConsumerCodec} env stream consumer s plan :
  names_kept (apply_expired_delivery_plan env stream consumer s plan).
Proof. unfold apply_expired_delivery_plan. solve_names. Qed.

Definition dead_letters_of (stream : string) (b : BrokerState) : bool :=
  match is_dead_letter_stream stream b with (Val flag, _) => flag | _ => false end.

Lemma wp_is_dead_letter stream (Q : bool -> BrokerState -> Prop) E b :
  Q (dead_letters_of stream b) b -> wp (is_dead_letter_stream stream) Q E b.
Proof.
  unfold wp, dead_letters_of, is_dead_letter_stream.
  by destruct (ends_with _ _); [|destruct (negb _)].
Qed.

Lemma wp_exhausted_now stream policy attempts (Q : bool -> BrokerState -> Prop) E b :
  Q (attempts_exhausted policy attempts && negb (dead_letters_of stream b)) b ->
  wp (exhausted_now stream policy attempts) Q E b.
Proof.
  intros HQ. unfold exhausted_now. destruct (attempts_exhausted policy attempts); [|done].
  wp_step. apply wp_is_dead_letter. by wp_step.
Qed.

Lemma dead_letters_of_names stream b b' :
  dom (br_streams b) = dom (br_streams b') -> dead_letters_of stream b = dead_letters_of stream b'.
Proof.
  intros Hdom. unfold dead_letters_of, is_dead_letter_stream.
  destruct (ends_with _ _); [done|]. destruct (negb _); [done|]. cbn.
  assert (Hel : forall x, In x (map_to_list (br_streams b)).*1 <-> In x (map_to_list (br_streams b')).*1).
  { assert (Hx : forall (m : gmap string StreamState) x, In x (map_to_list m).*1 <-> x ∈ dom m).
    { intros m x. rewrite <-list_elem_of_In, list_elem_of_fmap, elem_of_dom. split.
      - intros ([n ss] & -> & Hn%elem_of_map_to_list). by eexists.
      - intros [ss Hss]. exists (x, ss). split; [done|]. by apply elem_of_map_to_list. }
    intros x. by rewrite !Hx, Hdom. }
  apply eq_true_iff_eq. rewrite !existsb_exists. by setoid_rewrite Hel.
Qed.

(** A stream that is not a dead-letter stream is not its own dead-letter stream. *)
Lemma dead_letters_of_distinct stream b :
  is_Some (br_streams b !! stream) -> dead_letters_of stream b = false ->
  dead_letter_stream_name stream <> Ok stream.
Proof.
  intros [ss Hss] Hdl Hname. unfold dead_letters_of, is_dead_letter_stream in Hdl.
  destruct (ends_with stream DEAD_LETTER_SUFFIX); [done|].
  destruct (starts_with stream DEAD_LETTER_HASH_PREFIX) eqn:Es; cbn in Hdl.
  - assert (Hin : In stream (map_to_list (br_streams b)).*1).
    { rewrite <-list_elem_of_In, list_elem_of_fmap. exists (stream, ss). split; [done|].
      by apply elem_of_map_to_list. }
    rewrite <-not_true_iff_false, existsb_exists in Hdl. apply Hdl. exists stream. split; [done|].
    rewrite Hname. by apply bool_decide_eq_true_2.
  - unfold dead_letter_stream_name in Hname. destruct (_ <=? 128).
    + destruct (validate_name _ _); [|done]. injection Hname as Hname.
      apply (f_equal str_len) in Hname. rewrite str_len_app in Hname.
      change (str_len DEAD_LETTER_SUFFIX) with 12 in Hname. lia.
    + destruct (validate_name _ _); [|done]. injection Hname as Hname.
      unfold starts_with in Es. rewrite <-Hname in Es.
      apply bool_decide_eq_false_1 in Es. apply Es. rewrite as_bytes_app. by apply prefix_app_r.
Qed.

(** ** The loop's decisions *)

Section decisions.
Context (legacy : ConsumerPolicy).

Definition exhausted_at (s : ConsumerState) (o : Offset) : bool :=
  match policy_for_offset s o legacy with
  | Ok policy => attempts_exhausted policy (attempts_of s o)
  | Err _ => false
  end.

(** A retry is going to be scheduled for the record. *)
Definition delays (es : list Entry) (s : ConsumerState) (o : Offset) : bool :=
  match orphan_retry_schedule (log_of es) s legacy o 0 with Ok (Some _) => true | _ => false end.

(** The states of a loop differ from the first only in the retries it has scheduled. *)
Record agree (seen : gset Offset) (s1 s : ConsumerState) : Prop := {
  ag_committed : committed_offset s = committed_offset s1;
  ag_acknowledged : acknowledged_offsets s = acknowledged_offsets s1;
  ag_attempts : delivery_attempts s = delivery_attempts s1;
  ag_policies : delivery_policies s = delivery_policies s1;
  ag_policy : cs_policy s = cs_policy s1;
  ag_retries o : o ∉ seen -> retry_not_before s !! o = retry_not_before s1 !! o;
}.

Lemma agree_refl seen s : agree seen s s.
Proof. by split. Qed.

Lemma agree_mono seen seen' s1 s : agree seen s1 s -> seen ⊆ seen' -> agree seen' s1 s.
Proof. intros [] Hs. split; auto. Qed.

Lemma agree_preview seen s1 s r :
  agree seen s1 s -> rse_offset r ∈ seen -> agree seen s1 (preview_retry s r).
Proof.
  intros [H1 H2 H3 H4 H5 H6] Hin. split; try done. intros o Ho. cbn.
  rewrite lookup_insert_ne; [by apply H6|]. by intros <-.
Qed.

Lemma agree_done seen s1 s o : agree seen s1 s -> is_done s o = is_done s1 o.
Proof. intros [H1 H2 _ _ _ _]. unfold is_done. by rewrite H1, H2. Qed.

Lemma agree_search seen s1 s es f : agree seen s1 s -> search es s f = search es s1 f.
Proof. intros [H1 H2 _ _ _ _]. unfold search. by rewrite H1, H2. Qed.

Lemma agree_attempts seen s1 s o : agree seen s1 s -> attempts_of s o = attempts_of s1 o.
Proof. intros [_ _ H3 _ _ _]. unfold attempts_of. by rewrite H3. Qed.

Lemma agree_policy_for seen s1 s o :
  agree seen s1 s -> policy_for_offset s o legacy = policy_for_offset s1 o legacy.
Proof. intros [_ _ H3 H4 H5 _]. unfold policy_for_offset. by rewrite H3, H4, H5. Qed.

Lemma agree_exhausted seen s1 s o : agree seen s1 s -> exhausted_at s o = exhausted_at s1 o.
Proof.
  intros Ha. unfold exhausted_at. by rewrite (agree_policy_for seen s1 s), (agree_attempts seen s1 s).
Qed.

Lemma agree_orphan seen s1 s o log t :
  agree seen s1 s -> o ∉ seen ->
  orphan_retry_schedule log s legacy o t = orphan_retry_schedule log s1 legacy o t.
Proof.
  intros Ha Ho. unfold orphan_retry_schedule.
  by rewrite (ag_retries _ _ _ Ha), (agree_policy_for _ _ _ _ Ha), (agree_attempts _ _ _ _ Ha).
Qed.

Lemma agree_delays seen s1 s o es : agree seen s1 s -> o ∉ seen -> delays es s o = delays es s1 o.
Proof. intros Ha Ho. unfold delays. by rewrite (agree_orphan seen s1 s). Qed.

(** The record that the loop is going to deliver. *)
Fixpoint choose (fuel : nat) (es : list Entry) (s : ConsumerState) (dead : bool) (f extra : Filter) :
  option Offset :=
  match fuel with
  | O => None
  | S fuel =>
    match search es s (filter_union f extra) with
    | None => None
    | Some r =>
      if delays es s (ri_offset r) then
        choose fuel es s dead f (filter_insert extra (ri_offset r) (ri_key r))
      else if exhausted_at s (ri_offset r) && negb dead then
        choose fuel es s dead f (filter_insert extra (ri_offset r) None)
      else Some (ri_offset r)
    end
  end.
End decisions.

(** ** Small steps *)

Lemma wp_next_token (Q : string -> BrokerState -> Prop) E b :
  (forall token tokens, Q token (set_counters b (br_redeliveries b) (br_dead_letters b) tokens (br_tick b))) ->
  wp next_token Q E b.
Proof. intros HQ. unfold wp, next_token. destruct (token_next _). apply HQ. Qed.

Lemma wp_instant_add instant ms (Q : N -> BrokerState -> Prop) E b :
  instant + nanos_of_millis u64_max <= instant_max -> ms <= u64_max ->
  Q (instant + nanos_of_millis ms) b -> wp (instant_add instant (nanos_of_millis ms)) Q E b.
Proof.
  intros Hi Hms HQ. unfold instant_add, instant_checked_add.
  rewrite (proj2 (N.leb_le _ _)); [done|]. unfold nanos_of_millis in *. lia.
Qed.

(** ** Why records wait *)

Section answers.
Context (env : Env) (consumer : string).

(** The retry was ahead of the clock at some moment of the operation. *)
Definition ahead (b0 b : BrokerState) (r : RetrySchedule) : Prop :=
  exists n, (br_tick b0 <= n < br_tick b)%nat /\ env_wall_ms env n < retry_not_before_ms r.

Lemma ahead_mono b0 b b' r : ahead b0 b r -> (br_tick b <= br_tick b')%nat -> ahead b0 b' r.
Proof. intros (n & Hn & Hr) Ht. exists n. split; [lia|done]. Qed.

(** Why an unfinished record is not delivered now: it is in flight, its retry is
    ahead of the clock, or its key is busy for one of these reasons. *)
Definition waits (d : DeliveryState) (s : ConsumerState) (b0 b : BrokerState) (o : Offset)
  (key : option string) : Prop :=
  is_Some (flight_of consumer d o) \/
  (exists r, retry_not_before s !! o = Some r /\ ahead b0 b r) \/
  (exists k, key = Some k /\
     ((exists o' i, flight_of consumer d o' = Some i /\ if_key i = Some k) \/
      (exists o' r, retry_not_before s !! o' = Some r /\ rs_key r = Some k /\ ahead b0 b r))).

Definition settled_below (bound : N) (es : list Entry) (d : DeliveryState) (s : ConsumerState)
  (b0 b : BrokerState) : Prop :=
  forall o e, o < bound -> vec_get es o = Some e -> is_done s o = true \/ waits d s b0 b o (e_key e).
End answers.

(** ** Deliveries *)

(** The delivery that a poll makes between [b] and [b']. *)
Record made (env : Env) (member : string) (receipt : bool) (o : Offset) (e : Entry)
  (policy : ConsumerPolicy) (attempt : N) (token : string) (b b' : BrokerState) (i : InFlight) : Prop := {
  ma_member : if_member i = member;
  ma_offset : if_offset i = o;
  ma_key : if_key i = e_key e;
  ma_attempt : if_delivery_attempt i = attempt;
  ma_token : if_delivery_token i = token;
  ma_receipt : if_requires_receipt i = receipt;
  ma_deadline : exists n, (br_tick b <= n < br_tick b')%nat /\
    if_deadline i = env_instant env n + nanos_of_millis (ack_timeout_ms policy);
}.

Lemma made_mono env member receipt o e policy attempt token b1 b b' b2 i :
  made env member receipt o e policy attempt token b b' i ->
  (br_tick b1 <= br_tick b)%nat -> (br_tick b' <= br_tick b2)%nat ->
  made env member receipt o e policy attempt token b1 b2 i.
Proof. intros [? ? ? ? ? ? (n & Hn & Hd)] H1 H2. split; try done. exists n. split; [lia|done]. Qed.

(** The message that shows a delivery. *)
Definition delivery_message (stream : string) (o : Offset) (e : Entry) (i : InFlight) : Message :=
  with_delivery (message_of stream o e) (if_delivery_token i) (if_delivery_attempt i).

Section poll.
Context `{HC : ConsumerCodec} {HL : ConsumerCodecLaws HC}.
Context (env : Env) (Henv : env_ok env) (A D : Offset -> Prop) (R : BrokerError -> BrokerState -> Prop).

Section assign.
Context (stream consumer : string).

(** A delivery becomes in flight, after its attempt was persisted. *)
Lemma wp_assign room es d s o e i b0 b (Q : unit -> BrokerState -> Prop) E :
  goes stream consumer A D false room es d s b0 b ->
  if_offset i = o -> vec_get es o = Some e -> if_key i = e_key e -> key_ready es s o (e_key e) ->
  delivery_attempts s !! o = Some (if_delivery_attempt i) -> deliverable d consumer i ->
  (forall b', goes stream consumer A D false room es (delivery_insert d consumer i) s b0 b' ->
     br_tick b' = br_tick b -> Q tt b') ->
  wp (update_delivery stream (fun d => delivery_insert d consumer i)) Q E b.
Proof.
  intros Hg Ho He Hk Hr Ha Hdel HQ. pose proof Hg as [_ Hat].
  destruct (at_state_facts _ _ _ _ _ _ _ _ Hat) as (_ & _ & Hf & Hdw & _).
  eapply (wp_update_delivery _ _ _ _ false false); [exact Hg|..]; try done.
  - by apply delivery_insert_wf.
  - intros c Hne. split; try done. intros o'. rewrite in_flight_insert, decide_False; [done|].
    by intros [? _].
  - apply Hat.
  - intros o' i'. rewrite in_flight_insert. case_decide as Hc; [|apply Hf].
    destruct Hc as [_ ->]. intros [= <-]. rewrite Ho. exists e. done.
Qed.

(** Dead letters that were put off; none in a dead-letter stream. *)
Lemma wp_terminal es d s (terminal : list RecordIndex) b0 room b (Q : ConsumerState -> BrokerState -> Prop) :
  goes stream consumer A D true room es d s b0 b -> vec_len terminal <= room ->
  valid_name consumer ->
  (terminal <> [] -> dead_letter_stream_name stream <> Ok stream) ->
  (forall r : RecordIndex, r ∈ terminal -> in_flight d !! (consumer, ri_offset r) = None /\
     ri_offset r < vec_len es /\ D (ri_offset r)) ->
  (forall d' b', goes stream consumer A D true (room - vec_len terminal) es d'
       (foldl acknowledge s (ri_offset <$> terminal)) b0 b' ->
     in_flight d' = in_flight d -> in_flight_by_consumer d' = in_flight_by_consumer d ->
     (br_tick b <= br_tick b')%nat ->
     Q (foldl acknowledge s (ri_offset <$> terminal)) b') ->
  wp (persist_pending_dead_letters env stream consumer s terminal) Q (stops stream consumer A D R b0) b.
Proof.
  intros Hg Hle Hname Hdist Hr HQ. destruct terminal as [|r terminal].
  - cbn [persist_pending_dead_letters]. wp_step. apply (HQ d); [|done..].
    by replace (room - vec_len []) with room by (rewrite vec_len_nil; lia).
  - pose proof Hg as [_ Hat]. destruct (as_stream _ _ _ _ _ _ _ _ Hat) as (ss & _ & _ & Hok).
    eapply (wp_pending_dead_letters env Henv); [by eapply so_name|done|by apply Hdist| |exact Hr|exact HQ].
    by replace (room - vec_len (r :: terminal) + vec_len (r :: terminal)) with room by lia.
Qed.
End assign.

Context (req : PollRequest).
Context (Hlegacy : ack_timeout_ms (po_legacy req) <= u64_max) (Hconsumer : valid_name (po_consumer req)).
Context (Hlarge : forall limit, po_max_response_bytes req = Some limit -> forall b, R (ResponseTooLarge limit) b).

Abbreviation stream := (po_stream req).
Abbreviation consumer := (po_consumer req).
Abbreviation legacy := (po_legacy req).
Abbreviation goes := (goes stream consumer A D).
Abbreviation stops := (stops stream consumer A D R).
Abbreviation flight := (flight_of consumer).
Abbreviation made := (made env (po_member req) false).
Abbreviation delivery_message := (delivery_message stream).
Abbreviation ahead := (ahead env).
Abbreviation ahead_mono := (ahead_mono env).
Abbreviation waits := (waits env consumer).
Abbreviation settled_below := (settled_below env consumer).

(** ** The loop *)

(** What is held back is a dead letter to be, or waits for a retry together
    with its key. *)
Record held_back (s : ConsumerState) (terminal : list Offset) (retry : Filter) (b0 b : BrokerState) :
  Prop := {
  hb_offsets o : o ∈ retry.1 -> o ∈ terminal \/
    (exists r, retry_not_before s !! o = Some r /\ ahead b0 b r /\
       forall k, rs_key r = Some k -> k ∈ retry.2);
  hb_keys k : k ∈ retry.2 ->
    exists o r, o ∈ retry.1 /\ (o ∉ terminal) /\ retry_not_before s !! o = Some r /\ rs_key r = Some k /\ ahead b0 b r;
  hb_terminal o : o ∈ terminal -> o ∈ retry.1;
}.

(** Another retry holds back its record and key. *)
Lemma held_back_delayed s terminal retry b0 b b' sch :
  held_back s terminal retry b0 b -> rse_offset sch ∉ retry.1 -> (br_tick b <= br_tick b')%nat ->
  ahead b0 b' (schedule_of sch) ->
  held_back (preview_retry s sch) terminal (filter_insert retry (rse_offset sch) (rse_key sch)) b0 b'.
Proof.
  intros Hhe Hnr Ht Hahead.
  assert (Hother : forall o x, o ∈ retry.1 -> retry_not_before s !! o = Some x ->
    retry_not_before (preview_retry s sch) !! o = Some x).
  { intros o x Hin Hx. cbn. rewrite lookup_insert_ne; [done|]. by intros <-. }
  assert (Hnew : retry_not_before (preview_retry s sch) !! rse_offset sch = Some (schedule_of sch))
    by (cbn; by rewrite lookup_insert_eq).
  split.
  - intros o [->|Hin]%filter_insert_offsets.
    + right. exists (schedule_of sch). split_and!; [done|done|].
      intros k Hkk. apply filter_insert_keys. by left.
    + destruct (hb_offsets _ _ _ _ _ Hhe o Hin) as [|(x & Hx & Ha & Hkx)]; [by left|right].
      exists x. split_and!; [by apply Hother|by eapply ahead_mono|].
      intros k Hkk. apply filter_insert_keys. right. by apply Hkx.
  - intros k [Hkk|Hkin']%filter_insert_keys.
    + exists (rse_offset sch), (schedule_of sch). split_and!; [apply filter_insert_self| |done|done|done].
      intros Hin. by apply (hb_terminal _ _ _ _ _ Hhe) in Hin.
    + destruct (hb_keys _ _ _ _ _ Hhe k Hkin') as (o & x & Hin & Hnt' & Hx & Hkx & Ha).
      exists o, x. split_and!; [by apply filter_insert_sub|done|by apply Hother|done|by eapply ahead_mono].
  - intros o Hin. apply filter_insert_sub. apply (hb_terminal _ _ _ _ _ Hhe o Hin).
Qed.

(** Another dead letter to be. *)
Lemma held_back_terminal s terminal retry b0 b b' o :
  held_back s terminal retry b0 b -> o ∉ retry.1 -> (br_tick b <= br_tick b')%nat ->
  held_back s (terminal ++ [o]) (filter_insert retry o None) b0 b'.
Proof.
  intros Hhe Hnr Ht. split.
  - intros x [->|Hin]%filter_insert_offsets; [left; apply elem_of_app; right; by left|].
    destruct (hb_offsets _ _ _ _ _ Hhe x Hin) as [|(r & Hr & Ha & Hk)].
    + left. apply elem_of_app. by left.
    + right. exists r. split_and!; [done|by eapply ahead_mono|done].
  - intros k Hk. destruct (hb_keys _ _ _ _ _ Hhe k Hk) as (x & r & Hin & Hnt & Hr & Hkr & Ha).
    exists x, r. split_and!; [by apply filter_insert_sub| |done|done|by eapply ahead_mono].
    rewrite elem_of_app, list_elem_of_singleton. intros [?| ->]; done.
  - intros x [Hin| ->%list_elem_of_singleton]%elem_of_app; [|apply filter_insert_self].
    apply filter_insert_sub. apply (hb_terminal _ _ _ _ _ Hhe x Hin).
Qed.

Record found (es : list Entry) (d : DeliveryState) (s : ConsumerState) (retry : Filter)
  (r : RecordIndex) (e : Entry) : Prop := {
  fo_get : vec_get es (ri_offset r) = Some e;
  fo_key : ri_key r = e_key e;
  fo_eligible : eligible (flight d) s retry (ri_offset r) (e_key e);
  fo_first o' e' : o' < ri_offset r -> vec_get es o' = Some e' ->
    ~ eligible (flight d) s retry o' (e_key e');
}.

(** After the dead letters, everything earlier with its key is finished. *)
Lemma found_key_ready es d s s' terminal retry r e b0 b :
  found es d s retry r e -> flying es d consumer s -> known es s ->
  held_back s terminal retry b0 b ->
  (forall o, is_done s o = true -> is_done s' o = true) ->
  (forall o, o ∈ terminal -> is_done s' o = true) ->
  key_ready es s' (ri_offset r) (e_key e).
Proof.
  intros [He Hk Hel Hfirst] Hf Hkn Hb Hmono Hterm.
  eapply search_key_ready; [exact Hf|exact Hel|exact Hfirst|exact Hmono|].
  intros o' e' k Hin He' Hk'. destruct (hb_offsets _ _ _ _ _ Hb o' Hin) as [Ht|(x & Hx & _ & Hkey)].
  - left. by apply Hterm.
  - right. apply Hkey. destruct (kn_retries es s Hkn o' x Hx) as [(e1 & He1 & Hk1) _].
    congruence.
Qed.

Definition within_limit (m : Message) : Prop :=
  forall limit, po_max_response_bytes req = Some limit -> response_bound req m <= limit.

Lemma wp_check_response m (Q : unit -> BrokerState -> Prop) (E : BrokerError -> BrokerState -> Prop) b :
  (forall limit, po_max_response_bytes req = Some limit -> E (ResponseTooLarge limit) b) ->
  (within_limit m -> Q tt b) -> wp (check_response req m) Q E b.
Proof.
  intros HE HQ. unfold check_response, within_limit in *.
  destruct (po_max_response_bytes req) as [limit|]; [|by apply HQ].
  destruct (N.ltb_spec limit (response_bound req m)); [by apply HE|].
  apply HQ. by intros ? [= <-].
Qed.

Lemma wp_lease room es d s candidate e policy attempt token message b0 b b1
  (Q : PollResult -> BrokerState -> Prop) :
  let o := ri_offset candidate in
  goes false room es d s b0 b -> vec_get es o = Some e -> ri_key candidate = e_key e ->
  ack_timeout_ms policy <= u64_max -> unfinished d consumer s -> is_done s o = false ->
  key_ready es s o (e_key e) -> flight d o = None ->
  (forall k o' i, e_key e = Some k -> flight d o' = Some i -> if_key i <> Some k) ->
  delivery_attempts s !! o = Some attempt -> (br_tick b1 <= br_tick b)%nat ->
  (forall i d' b', goes true room es d' s b0 b' -> in_flight d' = <[(consumer, o) := i]> (in_flight d) ->
     made o e policy attempt token b1 b' i -> Q (PollMessage message) b') ->
  wp (let! now := instant_now env in
      let! deadline := instant_add now (nanos_of_millis (ack_timeout_ms policy)) in
      do! update_delivery stream (fun d =>
        delivery_insert d consumer
          {| if_member := po_member req; if_offset := o; if_key := ri_key candidate;
             if_delivery_attempt := attempt; if_delivery_token := token;
             if_requires_receipt := false; if_deadline := deadline |}) in
      do! cache_state env stream consumer s in
      do! notify_waiters stream in
      ret (PollMessage message)) Q (stops b0) b.
Proof.
  intros o Hg He Hkc Hp Hun Hd Hkr Hfl Hkeys Ha Ht0 HQ. unfold instant_now. wp_step. wp_step.
  pose proof Hg as [_ Hat]. destruct (at_state_facts _ _ _ _ _ _ _ _ Hat) as (_ & _ & _ & Hdw & _).
  set (n := br_tick b) in *. apply goes_ticked in Hg. wp_step.
  apply wp_instant_add; [apply Henv|done|]. wp_step. set (i := Build_InFlight _ _ _ _ _ _ _).
  eapply (wp_assign stream consumer room es d s o e i); [exact Hg|done..| |].
  - split; [done|]. cbn. intros k Hkk Hin. apply (dw_index_keys d Hdw) in Hin as (o' & i' & Hi' & Hk').
    eapply (Hkeys k o' i'); [congruence|done|done].
  - intros b3 Hg3 Ht3. wp_step. eapply (wp_cache env Henv); [exact Hg3| |].
    + intros o' [i' Hi']. rewrite in_flight_insert in Hi'. case_decide as Hc; [|apply Hun; eauto].
      by destruct Hc as [_ ->].
    + intros d4 b4 Hg4 Ein Eix Ht4. wp_step. eapply wp_notify; [exact Hg4|]. intros b5 Hg5 Ht5.
      wp_step. apply (HQ i d4); [done|by rewrite Ein|]. split; try done.
      exists n. split; [cbn in *; lia|done].
Qed.

(** The last part of a delivery: persist the attempt, start the lease. *)
Lemma wp_hand_over room es d s candidate e policy token message b0 b
  (Q : PollResult -> BrokerState -> Prop) :
  let o := ri_offset candidate in
  let attempt := u32_saturating_add (attempts_of s o) 1 in
  goes true room es d s b0 b -> vec_get es o = Some e -> ri_key candidate = e_key e ->
  ack_timeout_ms policy <= u64_max -> is_done s o = false -> key_ready es s o (e_key e) ->
  flight d o = None ->
  (forall k o' i, e_key e = Some k -> flight d o' = Some i -> if_key i <> Some k) ->
  (forall i d' b', goes true room es d' (record_attempt s o attempt policy) b0 b' ->
     in_flight d' = <[(consumer, o) := i]> (in_flight d) -> made o e policy attempt token b b' i ->
     Q (PollMessage message) b') ->
  wp (hand_over env req s candidate policy attempt token message) Q (stops b0) b.
Proof.
  intros o attempt Hg He Hkc Hp Hd Hkr Hfl Hkeys HQ. unfold hand_over. fold o. wp_step.
  pose proof Hg as [_ Hat].
  destruct (at_state_facts _ _ _ _ _ _ _ _ Hat) as (Hwf & Hk & Hf & Hdw & _).
  destruct (at_state_settled _ _ _ _ _ _ _ Hat) as [Hun _].
  set (s' := record_attempt s o attempt policy).
  eapply (wp_persist env Henv stream consumer A D R room es d s s'); [exact Hg|done|..]; try done.
  - cbn [apply_event da_attempt]. destruct (N.eqb_spec attempt 0) as [E|_]; [by apply next_attempt_pos in E|].
    f_equal. by eapply apply_attempt_record.
  - apply known_record; [done|by eapply vec_get_lt|apply saturating_add_le|done].
  - by apply flying_record.
  - by left.
  - intros b1 Hg1 Ht1 _. cbv zeta. wp_step.
    assert (Ha : delivery_attempts s' !! o = Some attempt) by (cbn; by rewrite lookup_insert_eq).
    destruct (1 <? attempt).
    + unfold count_redelivery. wp_step. eapply wp_lease; [by apply goes_counters|done..|exact HQ].
    + wp_step. by eapply wp_lease.
Qed.

(** ** Deliveries *)

Definition terminal_ok (es : list Entry) (d : DeliveryState) (terminal : list RecordIndex) : Prop :=
  (terminal <> [] -> dead_letter_stream_name stream <> Ok stream) /\
  (forall r : RecordIndex, r ∈ terminal -> in_flight d !! (consumer, ri_offset r) = None /\
     ri_offset r < vec_len es /\ D (ri_offset r)).

Section deliver.
Context (room : N) (es : list Entry) (d : DeliveryState) (s : ConsumerState) (terminal : list RecordIndex).
Context (retry : Filter) (candidate : RecordIndex) (e : Entry) (policy : ConsumerPolicy) (b0 : BrokerState).
Let o := ri_offset candidate.
Let attempt := u32_saturating_add (attempts_of s o) 1.
Let s2 := foldl acknowledge s (ri_offset <$> terminal).
Context (Hroom : vec_len terminal <= room) (Hterm : terminal_ok es d terminal).
Context (Hfound : found es d s retry candidate e) (Hpol : policy_for_offset s o legacy = Ok policy).

Lemma wp_send token b1 b (Q : PollResult -> BrokerState -> Prop) :
  goes true room es d s b0 b -> held_back s (ri_offset <$> terminal) retry b0 b1 ->
  (br_tick b1 <= br_tick b)%nat ->
  (forall i d' b', goes true 0 es d' (record_attempt s2 o attempt policy) b0 b' ->
     in_flight d' = <[(consumer, o) := i]> (in_flight d) -> made o e policy attempt token b1 b' i ->
     within_limit (delivery_message o e i) -> Q (PollMessage (delivery_message o e i)) b') ->
  wp (send env req s terminal candidate policy (message_of stream o e) token) Q (stops b0) b.
Proof.
  intros Hg Hheld Ht HQ. pose proof Hg as [_ Hat]. destruct Hterm as [Hdist Hrs].
  destruct (at_state_facts _ _ _ _ _ _ _ _ Hat) as (Hwf & Hk & Hf & _).
  pose proof (fo_eligible _ _ _ _ _ _ Hfound) as [Hd Hfl Hex Hkeys].
  unfold send. fold o attempt. wp_step.
  apply wp_check_response; [intros; eapply goes_stops; [exact Hg|by right; apply Hlarge]|]. intros Hwithin. wp_step.
  eapply (wp_terminal stream consumer); [exact Hg|exact Hroom|exact Hconsumer|exact Hdist|exact Hrs|].
  intros d2 b2 Hg2 Ein Eix Ht2. fold s2 in Hg2 |- *.
  pose proof (acknowledged_in_turn es d consumer s (ri_offset <$> terminal) Hwf Hk Hf) as Haa. fold s2 in Haa.
  assert (Hd2 : is_done s2 o = false).
  { rewrite (aa_done _ _ _ _ _ _ Haa). fold o in Hd. rewrite Hd. apply bool_decide_eq_false_2. intros Hin.
    by apply Hex, (hb_terminal _ _ _ _ _ Hheld). }
  assert (Ha2 : u32_saturating_add (attempts_of s2 o) 1 = attempt)
    by (unfold attempt, attempts_of; by rewrite (aa_attempts _ _ _ _ _ _ Haa)).
  rewrite <-Ha2. eapply (wp_hand_over (room - vec_len terminal) es d2 s2 candidate e);
    [exact Hg2|apply Hfound|apply Hfound| |done| | | |]; fold o.
  - destruct (policy_for_offset_ok es s o legacy Hwf Hk Hlegacy) as (p & Hp & Hle). congruence.
  - eapply (found_key_ready es d s s2); [exact Hfound|done|done|exact Hheld|..].
    + intros o' Ho'. by rewrite (aa_done _ _ _ _ _ _ Haa), Ho'.
    + intros o' Ho'. rewrite (aa_done _ _ _ _ _ _ Haa), (bool_decide_eq_true_2 _ Ho'). apply orb_true_r.
  - unfold flight_of. by rewrite Ein.
  - intros k o' i Hkk Hi. unfold flight_of in Hi. rewrite Ein in Hi. by apply (Hkeys k Hkk) in Hi.
  - rewrite Ha2. intros i d' b' Hg' Ein' Hmade.
    assert (Em : with_delivery (message_of stream o e) token attempt = delivery_message o e i).
    { unfold delivery_message. by destruct Hmade as [_ _ _ -> -> _ _]. }
    rewrite Em in Hwithin |- *. apply (HQ i d'); [|by rewrite Ein', Ein| |done].
    + eapply goes_room; [exact Hg'|lia].
    + eapply made_mono; [exact Hmade|lia|lia].
Qed.

Lemma wp_deliver prepared b (Q : PollResult -> BrokerState -> Prop) :
  goes true room es d s b0 b -> held_back s (ri_offset <$> terminal) retry b0 b ->
  (is_Some (po_max_response_bytes req) -> is_Some prepared) ->
  (forall i d' b', goes true 0 es d' (record_attempt s2 o attempt policy) b0 b' ->
     in_flight d' = <[(consumer, o) := i]> (in_flight d) ->
     made o e policy attempt (if_delivery_token i) b b' i ->
     within_limit (delivery_message o e i) -> Q (PollMessage (delivery_message o e i)) b') ->
  wp (deliver env req s terminal prepared candidate policy) Q (stops b0) b.
Proof.
  intros Hg Hheld Hprep HQ. pose proof Hg as [_ Hat].
  destruct (at_state_facts _ _ _ _ _ _ _ _ Hat) as (_ & _ & _ & _ & Hent & Hlen & _).
  unfold deliver. wp_step. eapply goes_locked; [exact Hg|]. intros ss Hss Hlog Hdel.
  wp_step. rewrite Hlog, read_message_log_of, (fo_get _ _ _ _ _ _ Hfound) by done. do 2 wp_step.
  destruct (po_max_response_bytes req) as [limit|] in Hprep |- *.
  - destruct Hprep as [[po pt] ->]; [eauto|]. wp_step. eapply wp_send; [exact Hg|exact Hheld|done|].
    intros i d' b' Hg' Ein [] Hw. by apply (HQ i d').
  - apply wp_next_token. intros token tokens. eapply wp_send; [by apply goes_counters|exact Hheld|done|].
    intros i d' b' Hg' Ein [] Hw. by apply (HQ i d').
Qed.
End deliver.

(** ** What a poll answers *)

Definition poll_result (es : list Entry) (f0 : Offset -> option InFlight) (s1 : ConsumerState)
  (b0 b1 : BrokerState) (res : PollResult) (b' : BrokerState) : Prop :=
  exists d s, goes true 0 es d s b0 b' /\
  match res with
  | PollMessage m => exists o e i policy,
      vec_get es o = Some e /\ m = delivery_message o e i /\ within_limit m /\
      f0 o = None /\ (forall o', flight d o' = if decide (o' = o) then Some i else f0 o') /\
      policy_for_offset s1 o legacy = Ok policy /\
      made o e policy (u32_saturating_add (attempts_of s1 o) 1) (if_delivery_token i) b1 b' i /\
      settled_below o es d s b0 b'
  | PollEmpty => (forall o, flight d o = f0 o) /\ settled_below (vec_len es) es d s b0 b'
  end.

Lemma not_eligible_waits d d' s s' terminal retry b0 b b' o key :
  delivery_wf d -> ~ eligible (flight d) s retry o key ->
  held_back s terminal retry b0 b -> (br_tick b <= br_tick b')%nat ->
  (forall o' i, flight d o' = Some i -> flight d' o' = Some i) ->
  (forall o, is_done s o = true -> is_done s' o = true) ->
  (forall o, o ∈ terminal -> is_done s' o = true) ->
  (forall o, o ∈ retry.1 -> o ∉ terminal -> retry_not_before s' !! o = retry_not_before s !! o) ->
  is_done s' o = true \/ waits d' s' b0 b' o key.
Proof.
  intros Hdw Hne Hb Ht Hfl Hmono Hterm Hret.
  destruct (is_done s o) eqn:Ed; [left; by apply Hmono|].
  destruct (decide (o ∈ terminal)) as [Hin|Hnt]; [left; by apply Hterm|]. right.
  destruct (flight d o) as [i|] eqn:Ei; [left; rewrite (Hfl o i Ei); eauto|].
  destruct (decide (o ∈ retry.1)) as [Hin|Hnin].
  { destruct (hb_offsets _ _ _ _ _ Hb o Hin) as [|(r & Hr & Ha & _)]; [done|].
    right; left. exists r. rewrite Hret by done. split; [done|by eapply ahead_mono]. }
  destruct key as [k|]; [|by destruct Hne].
  right; right. exists k. split; [done|].
  destruct (decide (k ∈ (flight_filter consumer d).2)) as [Hk|Hk].
  { apply (rv_keys _ _ (flight_filter_reserves consumer d Hdw)) in Hk as (o' & i & Hi & Hik).
    left. exists o', i. eauto. }
  destruct (decide (k ∈ retry.2)) as [Hk2|Hk2].
  { destruct (hb_keys _ _ _ _ _ Hb k Hk2) as (o' & r & Hin' & Hnt' & Hr & Hkr & Ha).
    right. exists o', r. rewrite Hret by done. split_and!; [done|done|by eapply ahead_mono]. }
  destruct Hne. split; try done. intros k' [= <-]. split; [|done].
  intros o' i Hi Hik. apply Hk, (rv_keys _ _ (flight_filter_reserves consumer d Hdw)). eauto.
Qed.

Lemma no_retry_delays es s o : no_retry legacy s o -> delays legacy es s o = false.
Proof. intros H. unfold delays. by rewrite H. Qed.

(** ** The loop, round by round *)

Section loop.
Context (room : N) (es : list Entry) (s1 : ConsumerState) (dead : bool) (f0 : Filter).
Context (flight0 : Offset -> option InFlight) (prepared : option (Offset * string)).
Context (b0 b1 : BrokerState) (HD : forall o, exhausted_at legacy s1 o = true -> D o).

Record in_loop (fuel : nat) (d : DeliveryState) (s : ConsumerState) (terminal : list RecordIndex)
  (retry : Filter) (b : BrokerState) : Prop := {
  il_goes : goes true room es d s b0 b;
  il_tick : (br_tick b1 <= br_tick b)%nat;
  il_fuel : (rounds es s retry < fuel)%nat;
  il_room : vec_len terminal + N.of_nat (rounds es s retry) <= room;
  il_agree : agree retry.1 s1 s;
  il_held : held_back s (ri_offset <$> terminal) retry b0 b;
  il_terminal : terminal_ok es d terminal;
  il_dead : dead_letters_of stream b = dead;
  il_flight o : flight d o = flight0 o;
  il_filter : flight_filter consumer d = f0;
  il_prepared : is_Some (po_max_response_bytes req) ->
    is_Some (choose legacy fuel es s1 dead f0 retry) -> is_Some prepared;
}.

Lemma in_loop_found fuel d s terminal retry b r e :
  in_loop fuel d s terminal retry b -> found es d s retry r e ->
  (ri_offset r ∉ retry.1) /\ is_done s (ri_offset r) = false /\ ri_offset r < vec_len es /\
  flight d (ri_offset r) = None.
Proof.
  intros _ [He _ [Hd Hf Hx _] _]. split_and!; try done. by eapply vec_get_lt.
Qed.

(** The next round after a retry was scheduled. *)
Lemma loop_delayed fuel d d' s terminal retry b b' r e sch n :
  in_loop (S fuel) d s terminal retry b -> found es d s retry r e ->
  search es s1 (filter_union f0 retry) = Some r -> delays legacy es s1 (ri_offset r) = true ->
  goes true room es d' (preview_retry s sch) b0 b' ->
  in_flight d' = in_flight d -> in_flight_by_consumer d' = in_flight_by_consumer d ->
  rse_offset sch = ri_offset r -> rse_key sch = e_key e ->
  (br_tick b <= n < br_tick b')%nat -> env_wall_ms env n < rse_retry_not_before_ms sch ->
  dom (br_streams b') = dom (br_streams b) ->
  in_loop fuel d' (preview_retry s sch) terminal (filter_insert retry (ri_offset r) (rse_key sch)) b'.
Proof.
  intros Hl Hfo Hsr Hdl Hg' Ein Eix Ho Hk Ht Hwall Hdom.
  destruct (in_loop_found _ _ _ _ _ _ _ _ Hl Hfo) as (Hnr & Hnd & Hlt & Hnf).
  destruct Hl as [Hg Htk Hfu Hro Hag Hhe Hte Hde Hfl Hff Hpr].
  assert (Hless : (rounds es (preview_retry s sch) (filter_insert retry (ri_offset r) (rse_key sch)) <
    rounds es s retry)%nat).
  { apply rounds_less with (ri_offset r); try done; [apply filter_insert_sub|right; apply filter_insert_self]. }
  assert (Hcan : (br_tick b0 <= br_tick b)%nat) by (destruct Hg as [Hev _]; apply Hev).
  assert (Hahead : ahead b0 b' (schedule_of sch)) by (exists n; split; [lia|done]).
  split; try done; try lia.
  - apply agree_preview; [|rewrite Ho; apply filter_insert_self].
    eapply agree_mono; [exact Hag|apply filter_insert_sub].
  - rewrite <-Ho. apply (held_back_delayed _ _ _ _ b); [done|by rewrite Ho|lia|done].
  - destruct Hte as [H1 H2]. split; [done|]. by rewrite Ein.
  - rewrite <-Hde. by apply dead_letters_of_names.
  - intros o. rewrite <-Hfl. unfold flight_of. by rewrite Ein.
  - rewrite <-Hff. unfold flight_filter, in_flight_filter. by rewrite Eix.
  - intros Hm Hc. apply Hpr; [done|]. cbn [choose]. rewrite Hsr, Hdl.
    by rewrite (fo_key _ _ _ _ _ _ Hfo), <-Hk.
Qed.

(** The next round after a record became a dead letter to be. *)
Lemma loop_terminal fuel d d' s terminal retry b b' r e :
  in_loop (S fuel) d s terminal retry b -> found es d s retry r e ->
  search es s1 (filter_union f0 retry) = Some r -> delays legacy es s1 (ri_offset r) = false ->
  exhausted_at legacy s1 (ri_offset r) = true -> dead = false ->
  goes true room es d' s b0 b' ->
  in_flight d' = in_flight d -> in_flight_by_consumer d' = in_flight_by_consumer d ->
  (br_tick b <= br_tick b')%nat -> dom (br_streams b') = dom (br_streams b) ->
  in_loop fuel d' s (terminal ++ [r]) (filter_insert retry (ri_offset r) None) b'.
Proof.
  intros Hl Hfo Hsr Hdl Hexh Hdead Hg' Ein Eix Ht Hdom.
  destruct (in_loop_found _ _ _ _ _ _ _ _ Hl Hfo) as (Hnr & Hnd & Hlt & Hnf).
  destruct Hl as [Hg Htk Hfu Hro Hag Hhe Hte Hde Hfl Hff Hpr].
  assert (Hless : (rounds es s (filter_insert retry (ri_offset r) None) < rounds es s retry)%nat).
  { apply rounds_less with (ri_offset r); try done; [apply filter_insert_sub|right; apply filter_insert_self]. }
  split; try done; try lia.
  - rewrite vec_len_app, vec_len_cons, vec_len_nil. lia.
  - eapply agree_mono; [exact Hag|apply filter_insert_sub].
  - rewrite fmap_app. by apply (held_back_terminal _ _ _ _ b).
  - destruct Hte as [H1 H2]. split.
    + intros _. apply (dead_letters_of_distinct _ b); [|by rewrite Hde].
      destruct Hg as [_ Hat]. destruct (as_stream _ _ _ _ _ _ _ _ Hat) as (ss & Hss & _). eauto.
    + intros r' [Hr'| ->%list_elem_of_singleton]%elem_of_app; rewrite Ein; [by apply H2|].
      split_and!; [done|done|by apply HD].
  - rewrite <-Hde. by apply dead_letters_of_names.
  - intros o. rewrite <-Hfl. unfold flight_of. by rewrite Ein.
  - rewrite <-Hff. unfold flight_filter, in_flight_filter. by rewrite Eix.
  - intros Hm Hc. apply Hpr; [done|]. cbn [choose]. rewrite Hsr, Hdl, Hexh.
    replace (negb dead) with true by (by rewrite Hdead). exact Hc.
Qed.

(** The loop found nothing. *)
Lemma loop_empty fuel d s terminal retry b :
  in_loop fuel d s terminal retry b ->
  (forall o e, vec_get es o = Some e -> ~ eligible (flight d) s retry o (e_key e)) ->
  wp (do! persist_pending_dead_letters env stream consumer s terminal in ret PollEmpty)
    (poll_result es flight0 s1 b0 b1) (stops b0) b.
Proof.
  intros Hl Hnone. destruct Hl as [Hg _ _ Hro _ Hhe [Hdist Hrs] _ Hfl _ _]. pose proof Hg as [_ Hat].
  destruct (at_state_facts _ _ _ _ _ _ _ _ Hat) as (Hwf & Hk & Hf & Hdw & _). wp_step.
  eapply (wp_terminal stream consumer); [exact Hg|lia|exact Hconsumer|exact Hdist|exact Hrs|].
  intros d2 b2 Hg2 Ein Eix Ht2. wp_step. set (s2 := foldl acknowledge s _) in *.
  pose proof (acknowledged_in_turn es d consumer s (ri_offset <$> terminal) Hwf Hk Hf) as Haa. fold s2 in Haa.
  exists d2, s2. split_and!.
  - eapply goes_room; [exact Hg2|lia].
  - intros o. rewrite <-Hfl. unfold flight_of. by rewrite Ein.
  - intros o e _ He. eapply (not_eligible_waits d d2 s s2); [done|by apply Hnone|exact Hhe|done|..].
    + intros o' i. unfold flight_of. by rewrite Ein.
    + intros o' Ho'. by rewrite (aa_done _ _ _ _ _ _ Haa), Ho'.
    + intros o' Ho'. rewrite (aa_done _ _ _ _ _ _ Haa), (bool_decide_eq_true_2 _ Ho'). apply orb_true_r.
    + intros o' _ Ho'. by eapply acknowledge_all_retries.
Qed.

(** The loop delivers. *)
Lemma loop_deliver fuel d s terminal retry b r e policy :
  in_loop (S fuel) d s terminal retry b -> found es d s retry r e ->
  search es s1 (filter_union f0 retry) = Some r -> delays legacy es s1 (ri_offset r) = false ->
  exhausted_at legacy s1 (ri_offset r) && negb dead = false ->
  policy_for_offset s (ri_offset r) legacy = Ok policy ->
  wp (deliver env req s terminal prepared r policy) (poll_result es flight0 s1 b0 b1) (stops b0) b.
Proof.
  intros Hl Hfo Hsr Hdl Hexh Hpol.
  destruct (in_loop_found _ _ _ _ _ _ _ _ Hl Hfo) as (Hnr & Hnd & Hlt & Hnf).
  destruct Hl as [Hg Htk _ Hro Hag Hhe Hte _ Hfl _ Hpr]. pose proof Hg as [_ Hat].
  destruct (at_state_facts _ _ _ _ _ _ _ _ Hat) as (Hwf & Hk & Hf & Hdw & _).
  eapply (wp_deliver room es d s terminal retry r e policy b0); [lia|done|exact Hfo|exact Hpol|exact Hg|exact Hhe| |].
  { intros Hm. apply Hpr; [done|]. cbn [choose]. rewrite Hsr, Hdl, Hexh. eauto. }
  intros i d' b' Hg' Ein Hmade Hwithin.
  pose proof (acknowledged_in_turn es d consumer s (ri_offset <$> terminal) Hwf Hk Hf) as Haa.
  set (s2 := foldl acknowledge s _) in *.
  assert (Hfl' : forall o', flight d' o' = if decide (o' = ri_offset r) then Some i else flight0 o').
  { intros o'. unfold flight_of. rewrite Ein. case_decide as Ho; [subst; by rewrite lookup_insert_eq|].
    rewrite lookup_insert_ne by congruence. apply Hfl. }
  eexists d', _. split; [exact Hg'|]. exists (ri_offset r), e, i, policy. split_and!; try done.
  - apply Hfo.
  - by rewrite <-Hfl.
  - by rewrite <-(agree_policy_for legacy _ _ _ _ Hag).
  - rewrite <-(agree_attempts _ _ _ _ Hag). eapply made_mono; [exact Hmade|lia|lia].
  - intros o' e' Hlt' He'. eapply (not_eligible_waits d d' s);
      [done|by eapply (fo_first _ _ _ _ _ _ Hfo)|exact Hhe| |..].
    + destruct Hmade as [? ? ? ? ? ? (n & Hn & _)]. lia.
    + intros x j Hx. rewrite Hfl'. case_decide as Hxo; [by subst; congruence|]. by rewrite <-Hfl.
    + intros x Hx. rewrite record_attempt_done. by rewrite (aa_done _ _ _ _ _ _ Haa), Hx.
    + intros x Hx. rewrite record_attempt_done, (aa_done _ _ _ _ _ _ Haa), (bool_decide_eq_true_2 _ Hx).
      apply orb_true_r.
    + intros x Hin Hx. cbn. rewrite lookup_delete_ne by (by intros <-).
      by eapply acknowledge_all_retries.
Qed.

(** The rest of a round, once no retry is scheduled for the record. *)
Lemma loop_round fuel d d' s terminal retry b b' r e policy :
  (forall d s terminal retry b, in_loop fuel d s terminal retry b ->
     wp (poll_loop env fuel req s terminal retry prepared) (poll_result es flight0 s1 b0 b1) (stops b0) b) ->
  in_loop (S fuel) d s terminal retry b -> found es d s retry r e ->
  search es s1 (filter_union f0 retry) = Some r -> no_retry legacy s (ri_offset r) ->
  policy_for_offset s (ri_offset r) legacy = Ok policy ->
  goes true room es d' s b0 b' ->
  in_flight d' = in_flight d -> in_flight_by_consumer d' = in_flight_by_consumer d ->
  (br_tick b <= br_tick b')%nat -> dom (br_streams b') = dom (br_streams b) ->
  wp (let! exhausted := exhausted_now stream policy (attempts_of s (ri_offset r)) in
      if exhausted then
        poll_loop env fuel req s (terminal ++ [r]) (filter_insert retry (ri_offset r) None) prepared
      else deliver env req s terminal prepared r policy)
    (poll_result es flight0 s1 b0 b1) (stops b0) b'.
Proof.
  intros IH Hl Hfo Hsr Hno Hpol Hg' Ein Eix Ht Hdom.
  destruct (in_loop_found _ _ _ _ _ _ _ _ Hl Hfo) as (Hnr & Hnd & Hlt & Hnf).
  pose proof (il_agree _ _ _ _ _ _ Hl) as Hag.
  assert (Hdl : delays legacy es s1 (ri_offset r) = false)
    by (rewrite <-(agree_delays legacy _ _ _ _ _ Hag Hnr); by apply no_retry_delays).
  assert (Hexh : exhausted_at legacy s1 (ri_offset r) = attempts_exhausted policy (attempts_of s (ri_offset r)))
    by (rewrite <-(agree_exhausted legacy _ _ _ _ Hag); unfold exhausted_at; by rewrite Hpol).
  assert (Hl' : in_loop (S fuel) d' s terminal retry b').
  { destruct Hl as [Hg Htk Hfu Hro _ Hhe Hte Hde Hfl Hff Hpr]. split; try done; try lia.
    - destruct Hhe as [H1 H2 H3]. split; [| |done].
      + intros o Ho. destruct (H1 o Ho) as [|(x & Hx & Ha & Hkx)]; [by left|right].
        exists x. split_and!; [done|by eapply ahead_mono|done].
      + intros k Hk. destruct (H2 k Hk) as (o & x & ? & ? & ? & ? & Ha).
        exists o, x. split_and!; try done. by eapply ahead_mono.
    - destruct Hte as [H1 H2]. split; [done|]. by rewrite Ein.
    - rewrite <-Hde. by apply dead_letters_of_names.
    - intros o. rewrite <-Hfl. unfold flight_of. by rewrite Ein.
    - rewrite <-Hff. unfold flight_filter, in_flight_filter. by rewrite Eix. }
  assert (Hfo' : found es d' s retry r e).
  { destruct Hfo as [H1 H2 H3 H4]. unfold flight_of in *. split; try done; unfold flight_of; by rewrite Ein. }
  pose proof (il_dead _ _ _ _ _ _ Hl') as Hde. wp_step. apply wp_exhausted_now. rewrite Hde.
  destruct (attempts_exhausted policy _ && negb dead) eqn:Ee.
  - apply andb_true_iff in Ee as [Ee Edead%negb_true_iff]. apply (IH d'). eapply loop_terminal; try done.
    by rewrite Hexh.
  - eapply loop_deliver; try done. by rewrite Hexh.
Qed.

Lemma wp_poll_loop fuel d s terminal retry b :
  in_loop fuel d s terminal retry b ->
  wp (poll_loop env fuel req s terminal retry prepared) (poll_result es flight0 s1 b0 b1) (stops b0) b.
Proof.
  revert d s terminal retry b. induction fuel as [|fuel IH]; intros d s terminal retry b Hl;
    [by destruct Hl; lia|]. pose proof (il_goes _ _ _ _ _ _ Hl) as Hg. pose proof Hg as [_ Hat].
  destruct (at_state_facts _ _ _ _ _ _ _ _ Hat) as (Hwf & Hk & Hf & Hdw & Hent & Hlen & _).
  cbn [poll_loop]. wp_step. eapply goes_locked; [exact Hg|]. intros ss Hss Hlog Hdel. wp_step.
  rewrite (find_excluding consumer es ss s retry Hlog Hent Hlen), Hdel, (il_filter _ _ _ _ _ _ Hl). wp_step.
  pose proof (search_spec es s (flight d) f0 retry) as Hsp.
  rewrite <-(il_filter _ _ _ _ _ _ Hl) in Hsp at 1.
  specialize (Hsp (flight_filter_reserves consumer d Hdw)).
  pose proof (agree_search _ _ _ es (filter_union f0 retry) (il_agree _ _ _ _ _ _ Hl)) as Hag.
  destruct (search es s (filter_union f0 retry)) as [r|]; [|by eapply loop_empty].
  destruct Hsp as (e & He & Hkey & Hel & Hfirst).
  assert (Hfo : found es d s retry r e) by done. symmetry in Hag. clear He Hkey Hel Hfirst.
  destruct (in_loop_found _ _ _ _ _ _ _ _ Hl Hfo) as (Hnr & Hnd & Hlt & Hnf).
  destruct (policy_for_offset_ok es s (ri_offset r) legacy Hwf Hk Hlegacy) as (policy & Hpol & Htimeout).
  wp_step. rewrite Hpol. do 2 wp_step. destruct (is_orphan ss consumer s (ri_offset r)) eqn:Eor.
  - apply wp_names; [apply names_kept_orphan|].
    eapply (wp_orphan env Henv stream consumer A D R legacy Hlegacy); [exact Hg|..].
    + intros b' Hg' Hno Ht Hdom. by eapply (loop_round fuel d d).
    + intros sch n p d' b' Hg' Ein Eix Ho Hfit Hret Hp Hdelay Etime Hall Ht Hdom.
      pose proof (eo_wall env Henv n) as Hw.
      assert (Hwall : env_wall_ms env n < rse_retry_not_before_ms sch).
      { rewrite Etime, N.min_l by lia. unfold u64_saturating_add, saturating_add. lia. }
      rewrite N.min_l, (proj2 (N.ltb_lt _ _) Hwall) by lia. cbn [retry_not_before preview_retry set_retries].
      rewrite Ho, lookup_insert_eq. cbn [rs_key schedule_of]. apply (IH d').
      eapply (loop_delayed fuel d d'); try done.
      * rewrite <-(agree_delays legacy _ _ _ _ _ (il_agree _ _ _ _ _ _ Hl) Hnr). unfold delays.
        by destruct (Hall 0) as (r' & -> & _).
      * destruct Hfit as [(e' & He' & Hk') _]. rewrite Ho, (fo_get _ _ _ _ _ _ Hfo) in He'. congruence.
  - wp_step. eapply (loop_round fuel d d); try done. eapply not_orphan; [exact Eor|]. by rewrite Hdel.
Qed.
End loop.

(** ** The preflight *)

Section preflight.
Context (room : N) (es : list Entry) (d : DeliveryState) (s0 s1 : ConsumerState) (dead : bool).
Context (limit now_ms : N) (released : gset Offset) (b0 : BrokerState).
Context (Hdw : delivery_wf d) (Hent : Forall entry_ok es) (Hlen : vec_len es <= u64_max).
Context (Hnow : now_ms < u64_max).
Context (Hcover : forall o, o ∈ released -> no_retry legacy s1 o).
Context (Hpolicies : forall o, exists p, policy_for_offset s1 o legacy = Ok p).
Context (Hlimit : po_max_response_bytes req = Some limit).

Abbreviation f0 := (in_flight_filter_excluding d consumer released).

(** Whether the preflight foresees a retry for the record that is up. *)
Lemma foresees ss s (retry : Filter) o schedule :
  ss_log ss = log_of es -> ss_delivery ss = d -> agree retry.1 s1 s -> o ∉ retry.1 ->
  flight_without consumer d released o = None ->
  (if is_orphan ss consumer s o then orphan_retry_schedule (ss_log ss) s legacy o now_ms else Ok None) =
    Ok schedule ->
  match future_schedule now_ms schedule with
  | Some sch => delays legacy es s1 o = true /\ rse_offset sch = o /\
      exists record, find_record (log_of es) o = Ok record /\ rse_key sch = ri_key record
  | None => delays legacy es s1 o = false
  end.
Proof.
  intros Hlog Hd Hag Ho Hfl Hs. rewrite <-(agree_delays legacy _ _ _ _ es Hag Ho).
  assert (Hno : no_retry legacy s1 o -> delays legacy es s o = false).
  { intros H. unfold delays. by rewrite (agree_orphan legacy _ _ _ _ _ _ Hag Ho), H. }
  destruct (is_orphan ss consumer s o) eqn:Eor.
  - rewrite Hlog in Hs. destruct schedule as [sch|]; cbn.
    + unfold orphan_retry_schedule in Hs. destruct (bool_decide _) eqn:E1; [done|].
      destruct (attempts_of s o =? 0) eqn:E2; [done|].
      destruct (policy_for_offset s o legacy) as [p|] eqn:Ep; [|done].
      destruct (attempts_exhausted p (attempts_of s o)) eqn:E3; [done|]. cbn [orb] in Hs.
      destruct (N.eqb_spec (retry_delay_ms p) 0) as [|Hdelay]; [done|].
      destruct (find_record (log_of es) o) as [record|] eqn:Ef; [|done]. injection Hs as <-. cbn.
      rewrite (proj2 (N.ltb_lt _ _)) by (unfold u64_saturating_add, saturating_add; lia).
      split_and!; [|done|by exists record]. unfold delays, orphan_retry_schedule.
      rewrite E1, E2, Ep, E3. cbn [orb]. by rewrite (proj2 (N.eqb_neq _ _) Hdelay), Ef.
    + apply no_retry_delays. by eapply orphan_none.
  - injection Hs as <-. cbn. unfold flight_without in Hfl. case_bool_decide as Hr; [by apply Hno, Hcover|].
    apply no_retry_delays. eapply not_orphan; [exact Eor|]. by rewrite Hd.
Qed.

Lemma wp_preflight_loop fuel s (retry : Filter) b (Q : option (Offset * string) -> BrokerState -> Prop) :
  goes true room es d s0 b0 b -> agree retry.1 s1 s -> (rounds es s retry < fuel)%nat ->
  (forall prepared b', goes true room es d s0 b0 b' -> br_streams b' = br_streams b -> br_tick b' = br_tick b ->
     (is_Some (choose legacy fuel es s1 dead f0 retry) -> is_Some prepared) -> Q prepared b') ->
  wp (preflight_loop fuel req limit now_ms released dead s retry) Q (stops b0) b.
Proof.
  revert s retry b Q. induction fuel as [|fuel IH]; intros s retry b Q Hg Hag Hfu HQ; [lia|].
  cbn [preflight_loop]. wp_step. eapply goes_locked; [exact Hg|]. intros ss Hss Hlog Hdel. wp_step.
  rewrite (find_excluding_released consumer es ss s retry released Hlog Hent Hlen), Hdel. wp_step.
  pose proof (search_spec es s _ f0 retry (excluding_reserves consumer d released Hdw)) as Hsp.
  cbn [choose] in HQ. rewrite <-(agree_search _ _ _ es (filter_union f0 retry) Hag) in HQ.
  destruct (search es s (filter_union f0 retry)) as [r|]; [|wp_step; apply HQ; [done..|by intros []]].
  destruct Hsp as (e & He & Hkey & [Hd Hfl Hnr Hk] & Hfirst). set (o := ri_offset r) in *.
  assert (Hless : forall s' key, is_done s' = is_done s ->
    (rounds es s' (filter_insert retry o key) < fuel)%nat).
  { intros s' key Hsame. assert (rounds es s' (filter_insert retry o key) < rounds es s retry)%nat; [|lia].
    apply rounds_less with o; try done; [by eapply vec_get_lt|by rewrite Hsame|apply filter_insert_sub|].
    right. apply filter_insert_self. }
  destruct (Hpolicies o) as [policy Hpol]. rewrite <-(agree_policy_for legacy _ _ _ o Hag) in Hpol.
  wp_step. rewrite Hpol. do 2 wp_step.
  assert (Hexh : exhausted_at legacy s1 o = attempts_exhausted policy (attempts_of s o))
    by (rewrite <-(agree_exhausted legacy _ _ _ _ Hag); unfold exhausted_at; by rewrite Hpol).
  match goal with |- wp ?m _ _ _ => replace m with
    (lift (if is_orphan ss consumer s o then orphan_retry_schedule (ss_log ss) s legacy o now_ms
           else Ok None)) by (by destruct (is_orphan ss consumer s o)) end.
  assert (Hsched : exists schedule, (if is_orphan ss consumer s o
    then orphan_retry_schedule (ss_log ss) s legacy o now_ms else Ok None) = Ok schedule).
  { destruct (is_orphan _ _ _ _); [|by eexists]. rewrite Hlog. by eapply orphan_total. }
  destruct Hsched as [schedule Hsched]. rewrite Hsched. wp_step.
  pose proof (foresees ss s retry o schedule Hlog Hdel Hag Hnr Hfl Hsched) as Hfs.
  destruct (future_schedule now_ms schedule) as [sch|].
  - destruct Hfs as (Hdl & Ho & record & Hrec & Hkr). rewrite Hdl in HQ.
    rewrite find_record_log_of, He in Hrec by done. injection Hrec as <-.
    assert (Ekey : rse_key sch = ri_key r) by (by rewrite Hkr, Hkey). rewrite Ho, Ekey.
    apply IH; [done| |by apply Hless|exact HQ].
    apply agree_preview; [|rewrite Ho; apply filter_insert_self].
    eapply agree_mono; [exact Hag|apply filter_insert_sub].
  - rewrite Hfs, Hexh in HQ. destruct (attempts_exhausted policy (attempts_of s o) && negb dead).
    + apply IH; [done| |by apply Hless|exact HQ]. eapply agree_mono; [exact Hag|apply filter_insert_sub].
    + wp_step. rewrite Hlog, read_message_log_of, He by done. do 2 wp_step.
      apply wp_next_token. intros token tokens.
      assert (Hg' : forall n, (br_tick b <= n)%nat -> goes true room es d s0 b0 (set_counters b
        (br_redeliveries b) (br_dead_letters b) tokens n)) by (intros; by apply goes_counters).
      cbv zeta. destruct (limit <? _); wp_step; [eapply goes_stops; [by apply Hg'|right; by apply Hlarge]|].
      apply HQ; [by apply Hg'|done..|eauto].
Qed.
End preflight.

(** ** A whole poll *)

Lemma released_live d now o :
  delivery_wf d ->
  flight_without consumer d (list_to_set (if_offset <$> expired_deliveries d consumer now)) o =
  live consumer d now o.
Proof.
  intros Hdw. unfold flight_without, live, flight_of.
  destruct (in_flight d !! (consumer, o)) as [i|] eqn:Hi; [|by case_bool_decide].
  case_bool_decide as Hr; rewrite elem_of_list_to_set, expired_offsets in Hr by done.
  - destruct Hr as (i' & Hi' & Hle). simplify_eq. by rewrite (proj2 (N.leb_le _ _)).
  - rewrite (proj2 (N.leb_gt _ _)); [done|]. apply N.nle_gt. intros Hle. apply Hr. eauto.
Qed.

(** After the expired deliveries were released, what the preflight leaves out
    is what is in flight. *)
Lemma released_filter d d' now :
  delivery_wf d -> delivery_wf d' -> (forall o, flight d' o = live consumer d now o) ->
  in_flight_filter_excluding d consumer (list_to_set (if_offset <$> expired_deliveries d consumer now)) =
  flight_filter consumer d'.
Proof.
  intros Hdw Hdw' Hl. eapply (reserves_unique _ (flight d')); [|by apply excluding_reserves|by apply flight_filter_reserves].
  intros o. by rewrite Hl, released_live.
Qed.

(** A member that holds a delivery gets it again. *)
Lemma held_again d d' now l l' i :
  (forall i, i ∈ l <-> exists o, in_flight d !! (consumer, o) = Some i /\ if_member i = po_member req) ->
  (forall i, i ∈ l' <-> exists o, in_flight d' !! (consumer, o) = Some i /\ if_member i = po_member req) ->
  delivery_wf d -> (forall o, flight d' o = live consumer d now o) ->
  List.find (fun i => negb (bool_decide (if_offset i ∈
    list_to_set (C := gset Offset) (if_offset <$> expired_deliveries d consumer now)))) l = Some i ->
  head l' <> None.
Proof.
  intros Hl Hl' Hdw Hlive [Hin Hn]%find_some. apply list_elem_of_In, Hl in Hin as (o & Hi & Hm).
  apply negb_true_iff, bool_decide_eq_false_1 in Hn.
  assert (Hin' : i ∈ l').
  { apply Hl'. exists o. split; [|done]. fold (flight_of consumer d' o). rewrite Hlive.
    rewrite <-(released_live d now o Hdw). unfold flight_without, flight_of.
    rewrite <-(dw_offset d Hdw _ _ _ Hi), bool_decide_eq_false_2 by done. by rewrite (dw_offset d Hdw _ _ _ Hi). }
  destruct l'; [by apply not_elem_of_nil in Hin'|done].
Qed.

Lemma retry_held_back es s now_ms n b0 b :
  known es s -> now_ms = env_wall_ms env n -> (br_tick b0 <= n < br_tick b)%nat ->
  held_back s [] (retry_filter s now_ms) b0 b.
Proof.
  intros Hk Hn Ht. destruct (retries_reserved s now_ms) as [H1 H2].
  assert (Ha : forall o r, retry_held s now_ms o r -> ahead b0 b r).
  { intros o r [_ Hlt]. exists n. split; [done|]. by rewrite <-Hn. }
  split.
  - intros o (r & Hr)%H1. right. exists r. split_and!; [apply Hr|by eapply Ha|].
    intros k Hkk. apply H2. eauto.
  - intros k (o & r & Hr & Hkk)%H2. exists o, r. split_and!; [apply H1; eauto|apply not_elem_of_nil|apply Hr|done|by eapply Ha].
  - intros o Ho. by apply not_elem_of_nil in Ho.
Qed.

Lemma search_fuel_log es ss : ss_log ss = log_of es -> search_fuel ss = S (length es).
Proof. intros H. unfold search_fuel. rewrite H. cbn. unfold vec_len. by rewrite Nat2N.id. Qed.

(** The delivery that the member already holds. *)
Lemma wp_existing room es d s ss i b0 b (Q : PollResult -> BrokerState -> Prop) :
  goes true room es d s b0 b -> ss_log ss = log_of es ->
  in_flight d !! (consumer, if_offset i) = Some i ->
  (forall e, vec_get es (if_offset i) = Some e -> within_limit (delivery_message (if_offset i) e i) ->
     Q (PollMessage (delivery_message (if_offset i) e i)) b) ->
  wp (existing_message req ss i) Q (stops b0) b.
Proof.
  intros Hg Hlog Hi HQ. pose proof Hg as [_ Hat].
  destruct (at_state_facts _ _ _ _ _ _ _ _ Hat) as (_ & _ & Hf & _ & Hent & Hlen & _).
  destruct (Hf _ _ Hi) as (e & He & _). unfold existing_message. wp_step.
  rewrite Hlog, read_message_log_of, He by done. do 2 wp_step.
  apply wp_check_response; [intros; eapply goes_stops; [exact Hg|by right; apply Hlarge]|]. intros Hw. wp_step. by apply HQ.
Qed.

Lemma agree_schedules s rs :
  exists seen, agree seen s (foldl or_insert_schedule s rs).
Proof.
  exists (dom (retry_not_before (foldl or_insert_schedule s rs)) ∪ dom (retry_not_before s)).
  destruct (or_insert_schedules_frame s rs) as (E1 & E2 & E3 & E4 & E5 & _). split; try done.
  intros o [H1%not_elem_of_dom H2%not_elem_of_dom]%not_elem_of_union. by rewrite H1, H2.
Qed.

Section whole.
Context (room : N) (es : list Entry) (d : DeliveryState) (s0 : ConsumerState) (plan : ExpiredDeliveryPlan).
Context (now now_ms : N) (b0 : BrokerState).
Let released : gset Offset := list_to_set (if_offset <$> ep_deliveries plan).
Let s1 := foldl or_insert_schedule s0 (ep_schedules plan).
Context (Hexp : ep_deliveries plan = expired_deliveries d consumer now).
Context (Hcover : forall o, o ∈ (if_offset <$> ep_deliveries plan) -> no_retry legacy s1 o).
Context (Hnow : now_ms < u64_max).

(** What the preflight tells the loop: the member holds a delivery, or there is
    a token for the record that the loop is going to choose. *)
Definition foretold (dead : bool) (prepared : option (Offset * string)) : Prop :=
  (forall d' l', delivery_wf d' -> (forall o, flight d' o = live consumer d now o) ->
     (forall i, i ∈ l' <-> exists o, in_flight d' !! (consumer, o) = Some i /\ if_member i = po_member req) ->
     head l' <> None) \/
  (is_Some (choose legacy (S (length es)) es s1 dead (in_flight_filter_excluding d consumer released)
     (retry_filter s1 now_ms)) -> is_Some prepared).

Lemma wp_preflight limit b (Q : option (Offset * string) -> BrokerState -> Prop) :
  goes true room es d s0 b0 b -> po_max_response_bytes req = Some limit ->
  (forall prepared b', goes true room es d s0 b0 b' -> br_streams b' = br_streams b -> br_tick b' = br_tick b ->
     foretold (dead_letters_of stream b) prepared -> Q prepared b') ->
  wp (preflight_poll_response req limit s0 now_ms plan) Q (stops b0) b.
Proof.
  intros Hg Hlimit HQ. pose proof Hg as [_ Hat].
  destruct (at_state_facts _ _ _ _ _ _ _ _ Hat) as (Hwf & Hk & _ & Hdw & Hent & Hlen & _).
  unfold preflight_poll_response. fold released s1. wp_step. eapply goes_locked; [exact Hg|].
  intros ss Hss Hlog Hdel. wp_step.
  destruct (member_deliveries_spec d consumer (po_member req) Hdw) as (l & El & _ & Hl & _).
  rewrite Hdel, El. wp_step. destruct (List.find _ l) as [i|] eqn:Ef.
  - wp_step. pose proof Ef as [Hin _]%find_some. apply list_elem_of_In, Hl in Hin as (o & Hi & _).
    eapply wp_existing; [exact Hg|exact Hlog|by rewrite (dw_offset d Hdw _ _ _ Hi)|]. intros e He Hw. wp_step.
    apply HQ; try done. left. intros d' l' Hdw' Hlive Hl'.
    eapply (held_again d d' now l l' i); try done. by rewrite <-Hexp.
  - wp_step. apply wp_is_dead_letter. rewrite (search_fuel_log es ss Hlog).
    eapply (wp_preflight_loop room es d s0 s1); [done..| | |exact Hlimit|exact Hg|apply agree_refl| |].
    + intros o Ho. apply Hcover. by apply elem_of_list_to_set in Ho.
    + intros o. destruct (agree_schedules s0 (ep_schedules plan)) as [seen Hag].
      unfold s1. rewrite (agree_policy_for legacy _ _ _ o Hag).
      destruct (policy_for_offset_ok es s0 o legacy Hwf Hk Hlegacy) as (p & Hp & _). eauto.
    + pose proof (rounds_start es s1 (retry_filter s1 now_ms)). lia.
    + intros prepared b' Hg' Hst Ht Hc. apply HQ; try done. by right.
Qed.
End whole.

(** The answer of a poll: the member's delivery with the least offset, or a new
    one; [f0] is what is in flight when the poll starts. *)
Definition poll_answer (es : list Entry) (f0 : Offset -> option InFlight) (s0 : ConsumerState)
  (b0 b1 : BrokerState) (res : PollResult) (b' : BrokerState) : Prop :=
  (exists d s o e i, goes true 0 es d s b0 b' /\ (forall o', flight d o' = f0 o') /\
     res = PollMessage (delivery_message o e i) /\ vec_get es o = Some e /\
     within_limit (delivery_message o e i) /\ f0 o = Some i /\ if_member i = po_member req /\
     (forall o' i', f0 o' = Some i' -> if_member i' = po_member req -> o <= o')) \/
  ((forall o i, f0 o = Some i -> if_member i <> po_member req) /\ poll_result es f0 s0 b0 b1 res b').


Lemma poll_result_agree seen es f0 s0 s1 b0 b1 res b' :
  agree seen s0 s1 -> poll_result es f0 s1 b0 b1 res b' -> poll_result es f0 s0 b0 b1 res b'.
Proof.
  intros Hag (d & s & Hg & Hr). exists d, s. split; [done|]. destruct res as [m|]; [|done].
  destruct Hr as (o & e & i & policy & H1 & H2 & H3 & H4 & H5 & H6 & H7 & H8).
  exists o, e, i, policy.
  rewrite (agree_policy_for legacy _ _ _ _ Hag) in H6. rewrite (agree_attempts _ _ _ _ Hag) in H7. done.
Qed.

(** The end of a poll, when the expired deliveries are released. *)
Lemma wp_poll_rest room es d d1 s0 plan now now_ms n b0 b1 b prepared :
  let s1 := foldl or_insert_schedule s0 (ep_schedules plan) in
  goes true room es d1 s1 b0 b -> delivery_wf d -> vec_len es <= room ->
  (forall o, exhausted_at legacy s0 o = true -> D o) -> (br_tick b1 <= br_tick b)%nat ->
  ep_deliveries plan = expired_deliveries d consumer now ->
  (forall o, flight d1 o = live consumer d now o) ->
  now_ms = env_wall_ms env n -> (br_tick b0 <= n < br_tick b)%nat ->
  (is_Some (po_max_response_bytes req) ->
     foretold es d s0 plan now now_ms (dead_letters_of stream b) prepared) ->
  wp (let! ss := locked stream in
      let! held := lift (member_delivery (ss_delivery ss) consumer (po_member req)) in
      match held with
      | Some delivery => existing_message req ss delivery
      | None => poll_loop env (search_fuel ss) req s1 [] (retry_filter s1 now_ms) prepared
      end) (poll_answer es (live consumer d now) s0 b0 b1) (stops b0) b.
Proof.
  intros s1 Hg Hdw Hroom HD Ht Hexp Hlive Hnow Hn Hfore. pose proof Hg as [_ Hat].
  destruct (at_state_facts _ _ _ _ _ _ _ _ Hat) as (Hwf & Hk & Hf & Hdw1 & Hent & Hlen & _).
  wp_step. eapply goes_locked; [exact Hg|]. intros ss Hss Hlog Hdel. wp_step. rewrite Hdel.
  destruct (member_deliveries_spec d1 consumer (po_member req) Hdw1) as (l & El & Hsort & Hl & ->). wp_step.
  destruct (agree_schedules s0 (ep_schedules plan)) as [seen Hag]. fold s1 in Hag.
  destruct l as [|i l]; cbn [head].
  - rewrite (search_fuel_log es ss Hlog).
    eapply wp_mono; [eapply (wp_poll_loop room es s1 (dead_letters_of stream b)
      (in_flight_filter_excluding d consumer (list_to_set (if_offset <$> ep_deliveries plan)))
      (live consumer d now) prepared b0 b1)| |done].
    + intros o. rewrite (agree_exhausted legacy _ _ _ _ Hag). apply HD.
    + pose proof (rounds_start es s1 (retry_filter s1 now_ms)) as Hr.
      split; try done; try lia; [rewrite vec_len_nil; unfold vec_len in Hroom; lia| | | |].
      * by eapply (retry_held_back es s1 now_ms n).
      * split; [done|]. intros r Hr'. by apply not_elem_of_nil in Hr'.
      * rewrite Hexp. symmetry. by apply released_filter.
      * intros Hm Hc. destruct (Hfore Hm) as [Hheld|Hch]; [|by apply Hch].
        exfalso. by apply (Hheld d1 [] Hdw1 Hlive Hl).
    + intros res b' Hres. right. split; [|by eapply poll_result_agree].
      intros o i Hi Hm. rewrite <-Hlive in Hi.
      assert (Hin : i ∈ []) by (apply Hl; eauto). by apply not_elem_of_nil in Hin.
  - assert (Hi : in_flight d1 !! (consumer, if_offset i) = Some i /\ if_member i = po_member req).
    { destruct (proj1 (Hl i)) as (o & Hi & Hm); [by left|]. by rewrite (dw_offset d1 Hdw1 _ _ _ Hi). }
    destruct Hi as [Hi Hm]. eapply wp_existing; [exact Hg|exact Hlog|exact Hi|]. intros e He Hw. left.
    exists d1, s1, (if_offset i), e, i. split_and!; try done; [eapply goes_room; [exact Hg|lia]|by rewrite <-Hlive|].
    intros o' i' Hi' Hm'. rewrite <-Hlive in Hi'.
    assert (Hin : i' ∈ i :: l) by (apply Hl; eauto).
    pose proof (dw_offset d1 Hdw1 _ _ _ Hi') as <-. apply elem_of_cons in Hin as [->|Hin]; [done|].
    cbn in Hsort. apply StronglySorted_inv in Hsort as [_ Hall]. rewrite Forall_forall in Hall.
    apply N.lt_le_incl, Hall, list_elem_of_fmap. eauto.
Qed.

Lemma wp_poll_at room es d now b0 b :
  starts stream consumer A D room es d b0 b -> vec_len es <= room ->
  (forall o, exhausted_at legacy (durable_state (files_of b stream consumer) stream consumer) o = true -> D o) ->
  wp (poll_at env req now)
    (fun res b' => let s0 := durable_state (files_of b stream consumer) stream consumer in
       exists d1, (forall o, in_flight d1 !! (consumer, o) =
           if is_done s0 o then None else in_flight d !! (consumer, o)) /\
         poll_answer es (live consumer d1 now) s0 b0 b res b')
    (stops b0) b.
Proof.
  intros Hst Hroom HD. unfold poll_at. wp_step. eapply (wp_load env Henv); [exact Hst|].
  assert (Ht0 : (br_tick b0 <= br_tick b)%nat) by (destruct Hst as [Hev _]; apply Hev).
  intros s d1 b1 Hg1 Es Hin Ht1. rewrite Es in *. wp_step. apply wp_wall_clock. intros now_ms Hms.
  pose proof (eo_wall env Henv (br_tick b1)) as Hw. rewrite N.min_l in Hms by lia.
  apply goes_ticked in Hg1. set (b2 := ticked b1 _) in *. wp_step. eapply goes_locked; [exact Hg1|].
  intros ss Hss Hlog Hdel. pose proof Hg1 as [_ Hat].
  destruct (at_state_facts _ _ _ _ _ _ _ _ Hat) as (Hwf & Hk & Hf & Hdw & _).
  destruct (at_state_settled _ _ _ _ _ _ _ Hat) as [Hun _].
  destruct (plan_spec consumer legacy Hlegacy es d1 s ss now now_ms) as (plan & Eplan & Hexp & Hcover); try done; [lia|].
  wp_step. rewrite Eplan. do 2 wp_step.
  assert (Hend : forall prepared b3, goes true room es d1 s b0 b3 -> br_streams b3 = br_streams b2 ->
    br_tick b3 = br_tick b2 -> (is_Some (po_max_response_bytes req) ->
      foretold es d1 s plan now now_ms (dead_letters_of stream b2) prepared) ->
    wp (let! s := apply_expired_delivery_plan env stream consumer s plan in
        let! ss := locked stream in
        let! held := lift (member_delivery (ss_delivery ss) consumer (po_member req)) in
        match held with
        | Some delivery => existing_message req ss delivery
        | None => poll_loop env (search_fuel ss) req s [] (retry_filter s now_ms) prepared
        end) (poll_answer es (live consumer d1 now) s b0 b) (stops b0) b3).
  { intros prepared b3 Hg3 Hst3 Ht3 Hfore. wp_step. apply wp_names; [apply names_kept_plan|].
    eapply (wp_apply_plan env Henv stream consumer A D R legacy Hlegacy room es d1 s ss plan now now_ms);
      [exact Hg3|done|lia|exact Eplan|].
    intros d4 b4 Hg4 Hlive Ht4 Hdom. eapply (wp_poll_rest room es d1 d4 s plan now now_ms (br_tick b1)); try done.
    - cbn in Ht3. lia.
    - cbn in Ht3. lia.
    - intros Hm. rewrite (dead_letters_of_names stream b4 b2); [by apply Hfore|]. by rewrite Hdom, Hst3. }
  destruct (po_max_response_bytes req) as [limit|] eqn:Emax in Hend |- *.
  - eapply (wp_preflight room es d1 s plan now now_ms); [done|done|lia|exact Hg1|exact Emax|].
    intros prepared b3 Hg3 Hst3 Ht3 Hfore. eapply wp_mono; [by apply Hend| |done].
    intros res b' Hres. by exists d1.
  - wp_step. eapply wp_mono; [apply Hend; try done; by intros []| |done].
    intros res b' Hres. by exists d1.
Qed.
End poll.

