(* ===== verification/BrokerBatch.v ===== *)
(** Batch polls: the loop that selects records within the limits, and the
    delivery of all of them with one persisted event. *)

From S2P Require Import Prelude Engine RecordFormat Names StreamLog ConsumerState DeliveryState Durability Broker BrokerInvariant BrokerEvents BrokerSteps BrokerDelivery BrokerDeadLetters BrokerSearch BrokerPoll.

Local Open Scope N_scope.

Lemma policy_for_offset_same legacy s s' o :
  delivery_attempts s' !! o = delivery_attempts s !! o ->
  delivery_policies s' !! o = delivery_policies s !! o -> cs_policy s' = cs_policy s ->
  policy_for_offset s' o legacy = policy_for_offset s o legacy.
Proof. intros E1 E2 E3. unfold policy_for_offset. by rewrite E1, E2, E3. Qed.

Lemma eligible_anti flight s s' extra extra' o key :
  (forall o, is_done s o = true -> is_done s' o = true) ->
  extra.1 ⊆ extra'.1 -> extra.2 ⊆ extra'.2 ->
  eligible flight s' extra' o key -> eligible flight s extra o key.
Proof.
  intros Hd H1 H2 [E1 E2 E3 E4]. split; [|done|set_solver|].
  - destruct (is_done s o) eqn:E; [|done]. rewrite (Hd o E) in E1. done.
  - intros k Hk. destruct (E4 k Hk). split; [done|set_solver].
Qed.

Lemma filter_insert_sub_keys f o key : f.2 ⊆ (filter_insert f o key).2.
Proof. intros k Hk. apply filter_insert_keys. by right. Qed.

Definition pd_offset (p : PendingDelivery) : Offset := msg_offset (pd_message p).

Section batch.
Context `{HC : ConsumerCodec} {HL : ConsumerCodecLaws HC}.
Context (env : Env) (Henv : env_ok env) (A D : Offset -> Prop) (R : BrokerError -> BrokerState -> Prop).
Context (req : BatchRequest) (legacy : ConsumerPolicy).
Context (Hlegacy : ack_timeout_ms legacy <= u64_max) (Hconsumer : valid_name (ba_consumer req)).

Abbreviation stream := (ba_stream req).
Abbreviation consumer := (ba_consumer req).
Abbreviation limits := (ba_limits req).
Abbreviation goes := (goes stream consumer A D).
Abbreviation stops := (stops stream consumer A D R).
Abbreviation flight := (flight_of consumer).
Abbreviation ahead := (ahead env).
Abbreviation settled_below := (settled_below env consumer).

Abbreviation response_len := (poll_batch_response_len stream consumer (ba_response_member req)).

Definition token_of (o : Offset) : string := ba_token_seed req +:+ "-" +:+ hex o.

(** The message by which the poll would hand out a record. *)
Definition offered (s0 : ConsumerState) (o : Offset) (e : Entry) : Message :=
  with_delivery (message_of stream o e) (token_of o) (u32_saturating_add (attempts_of s0 o) 1).

(** ** Selected records *)

Section selection.
Context (es : list Entry) (s0 : ConsumerState) (flight0 : Offset -> option InFlight) (b0 : BrokerState).
Context (HD : forall o, exhausted_at legacy s0 o = true -> D o).

Record selected (s : ConsumerState) (p : PendingDelivery) : Prop := {
  se_record : exists e, vec_get es (pd_offset p) = Some e /\ pd_key p = e_key e /\
    pd_message p =
      with_delivery (message_of stream (pd_offset p) e) (token_of (pd_offset p)) (pd_attempt p) /\
    key_ready es s (pd_offset p) (e_key e);
  se_attempt : pd_attempt p = u32_saturating_add (attempts_of s0 (pd_offset p)) 1;
  se_policy : policy_for_offset s0 (pd_offset p) legacy = Ok (pd_policy p);
  se_done : is_done s (pd_offset p) = false;
  se_flight : flight0 (pd_offset p) = None;
  se_key k : pd_key p = Some k -> forall o i, flight0 o = Some i -> if_key i <> Some k;
}.

(** What is held back is selected, or waits for a retry together with its key. *)
Record withheld (s : ConsumerState) (pending : list PendingDelivery) (extra : Filter) (b : BrokerState) :
  Prop := {
  wh_offsets o : o ∈ extra.1 -> o ∈ (pd_offset <$> pending) \/
    (exists r, retry_not_before s !! o = Some r /\ ahead b0 b r /\ forall k, rs_key r = Some k -> k ∈ extra.2);
  wh_keys k : k ∈ extra.2 -> k ∈ omap pd_key pending \/
    (exists o r, o ∈ extra.1 /\ retry_not_before s !! o = Some r /\ rs_key r = Some k /\ ahead b0 b r);
  wh_pending p : p ∈ pending -> pd_offset p ∈ extra.1 /\ forall k, pd_key p = Some k -> k ∈ extra.2;
}.

Record batch_state (room : N) (d : DeliveryState) (sel : BatchSelection) (b : BrokerState) : Prop := {
  bt_goes : goes true room es d (bs_state sel) b0 b;
  bt_same o : is_done (bs_state sel) o = false ->
    attempts_of (bs_state sel) o = attempts_of s0 o /\
    policy_for_offset (bs_state sel) o legacy = policy_for_offset s0 o legacy;
  bt_withheld : withheld (bs_state sel) (bs_pending sel) (bs_extra sel) b;
  bt_selected p : p ∈ bs_pending sel -> selected (bs_state sel) p;
  bt_sorted : StronglySorted N.lt (pd_offset <$> bs_pending sel);
  bt_below : exists bound, (forall p, p ∈ bs_pending sel -> pd_offset p < bound) /\
    forall o e, o < bound -> vec_get es o = Some e ->
      ~ eligible (flight d) (bs_state sel) (bs_extra sel) o (e_key e);
  bt_keys : NoDup (omap pd_key (bs_pending sel));
  bt_flight o : flight d o = flight0 o;
  bt_sizer : bs_sizer sel =
    foldl sizer_push (sizer_new stream consumer (ba_response_member req)) (pd_message <$> bs_pending sel);
  bt_count : vec_len (bs_pending sel) <= max_records limits;
  bt_size : bs_pending sel <> [] -> encoded_len (bs_sizer sel) <= max_bytes limits;
}.

Definition found_next (d : DeliveryState) (sel : BatchSelection) (r : RecordIndex) (e : Entry) : Prop :=
  vec_get es (ri_offset r) = Some e /\ ri_key r = e_key e /\
  eligible (flight d) (bs_state sel) (bs_extra sel) (ri_offset r) (e_key e) /\
  forall o' e', o' < ri_offset r -> vec_get es o' = Some e' ->
    ~ eligible (flight d) (bs_state sel) (bs_extra sel) o' (e_key e').

(** The found record lies after everything selected. *)
Lemma found_after room d sel b r e p :
  batch_state room d sel b -> found_next d sel r e -> p ∈ bs_pending sel -> pd_offset p < ri_offset r.
Proof.
  intros Hb (He & Hk & Hel & _) Hp. destruct (bt_below _ _ _ _ Hb) as (bound & Hlt & Hno).
  specialize (Hlt p Hp). apply N.lt_le_trans with bound; [done|]. apply N.nlt_ge. intros Hlt'.
  by apply (Hno _ _ Hlt' He).
Qed.

Lemma withheld_key_ready d sel b r e :
  flying es d consumer (bs_state sel) -> known es (bs_state sel) ->
  withheld (bs_state sel) (bs_pending sel) (bs_extra sel) b ->
  (forall p, p ∈ bs_pending sel -> selected (bs_state sel) p) ->
  found_next d sel r e -> key_ready es (bs_state sel) (ri_offset r) (e_key e).
Proof.
  intros Hf Hkn Hw Hse (He & Hk & Hel & Hfirst).
  eapply search_key_ready; [exact Hf|exact Hel|exact Hfirst|done|].
  intros o' e' k Hin He' Hk'. right.
  destruct (wh_offsets _ _ _ _ Hw o' Hin) as [(p & -> & Hp)%list_elem_of_fmap|(x & Hx & _ & Hkey)].
  - apply (wh_pending _ _ _ _ Hw p Hp). destruct (se_record _ _ (Hse p Hp)) as (e1 & He1 & Hk1 & _).
    congruence.
  - apply Hkey. destruct (kn_retries es _ Hkn o' x Hx) as [(e1 & He1 & Hk1) _]. congruence.
Qed.

(** ** Steps of the selection *)

(** Progress that selects nothing. *)
Lemma batch_advance room room' d d' sel b b' s extra :
  batch_state room d sel b -> goes true room' es d' s b0 b' -> in_flight d' = in_flight d ->
  (forall o, is_done (bs_state sel) o = true -> is_done s o = true) ->
  (forall p, p ∈ bs_pending sel -> is_done s (pd_offset p) = false) ->
  (bs_extra sel).1 ⊆ extra.1 -> (bs_extra sel).2 ⊆ extra.2 -> withheld s (bs_pending sel) extra b' ->
  (forall o, is_done s o = false ->
     attempts_of s o = attempts_of (bs_state sel) o /\
     policy_for_offset s o legacy = policy_for_offset (bs_state sel) o legacy) ->
  batch_state room' d' (with_state sel s extra) b'.
Proof.
  intros Hb Hg Ein Hmono Hpend Hs1 Hs2 Hw Hsame.
  destruct Hb as [_ Hs Hw0 Hse Hso (bound & Hlt & Hno) Hke Hfl Hsi Hco Hsz]. split; try done; cbn.
  - intros o Ho. destruct (Hsame o Ho) as [-> ->]. apply Hs.
    destruct (is_done (bs_state sel) o) eqn:E; [|done]. rewrite (Hmono o E) in Ho. done.
  - intros p Hp. destruct (Hse p Hp) as [(e & He & Hk & Hm & Hr) H2 H3 H4 H5 H6]. split; try done.
    + exists e. split_and!; try done. by eapply key_ready_done.
    + by apply Hpend.
  - exists bound. split; [done|]. intros o e Ho He Hel. apply (Hno o e Ho He).
    assert (Hfl' : forall x, flight d' x = flight d x) by (intros x; unfold flight_of; by rewrite Ein).
    destruct Hel as [E1 E2 E3 E4]. eapply eligible_anti; [exact Hmono|exact Hs1|exact Hs2|].
    split; [done|by rewrite <-Hfl'|done|]. intros k Hk. setoid_rewrite <-Hfl'. by apply E4.
  - intros o. rewrite <-Hfl. unfold flight_of. by rewrite Ein.
Qed.

Lemma batch_delayed room d d' sel b b' r e sch :
  batch_state room d sel b -> found_next d sel r e ->
  goes true room es d' (preview_retry (bs_state sel) sch) b0 b' -> in_flight d' = in_flight d ->
  rse_offset sch = ri_offset r -> ahead b0 b' (schedule_of sch) -> (br_tick b <= br_tick b')%nat ->
  batch_state room d'
    (with_state sel (preview_retry (bs_state sel) sch)
       (filter_insert (bs_extra sel) (ri_offset r) (rse_key sch))) b'.
Proof.
  intros Hb Hfo Hg Ein Ho Ha Ht. pose proof Hfo as (He & Hk & Hel & _).
  eapply batch_advance; try done.
  - intros p Hp. apply (se_done _ _ (bt_selected _ _ _ _ Hb p Hp)).
  - apply filter_insert_sub.
  - apply filter_insert_sub_keys.
  - destruct (bt_withheld _ _ _ _ Hb) as [H1 H2 H3].
    assert (Hnew : retry_not_before (preview_retry (bs_state sel) sch) !! ri_offset r = Some (schedule_of sch))
      by (cbn; by rewrite Ho, lookup_insert_eq).
    assert (Hother : forall o x, o ∈ (bs_extra sel).1 -> retry_not_before (bs_state sel) !! o = Some x ->
      retry_not_before (preview_retry (bs_state sel) sch) !! o = Some x).
    { intros o x Hin Hx. cbn. rewrite Ho, lookup_insert_ne; [done|]. intros <-. by destruct Hel. }
    split.
    + intros o [->|Hin]%filter_insert_offsets.
      * right. exists (schedule_of sch). split_and!; [done|done|]. intros k Hkk. apply filter_insert_keys. by left.
      * destruct (H1 o Hin) as [|(x & Hx & Hax & Hkx)]; [by left|right]. exists x.
        split_and!; [by apply Hother|by eapply ahead_mono|]. intros k Hkk. by apply filter_insert_sub_keys, Hkx.
    + intros k [Hkk|Hin]%filter_insert_keys.
      * right. exists (ri_offset r), (schedule_of sch). split_and!; try done. apply filter_insert_self.
      * destruct (H2 k Hin) as [|(o & x & Hox & Hx & Hkx & Hax)]; [by left|right]. exists o, x.
        split_and!; [by apply filter_insert_sub|by apply Hother|done|by eapply ahead_mono].
    + intros p Hp. destruct (H3 p Hp) as [Hpo Hpk]. split; [by apply filter_insert_sub|].
      intros k Hkk. by apply filter_insert_sub_keys, Hpk.
Qed.

Lemma batch_dead room room' d d' sel b b' r e :
  batch_state room d sel b -> found_next d sel r e ->
  goes true room' es d' (acknowledge (bs_state sel) (ri_offset r)) b0 b' -> in_flight d' = in_flight d ->
  (br_tick b <= br_tick b')%nat ->
  batch_state room' d' (with_state sel (acknowledge (bs_state sel) (ri_offset r)) (bs_extra sel)) b'.
Proof.
  intros Hb Hfo Hg Ein Ht. pose proof Hfo as (He & Hk & Hel & _). pose proof (bt_goes _ _ _ _ Hb) as [_ Hat].
  destruct (at_state_facts _ _ _ _ _ _ _ _ Hat) as (Hwf & Hkn & Hf & _).
  pose proof (acknowledged_in_turn es d consumer (bs_state sel) [ri_offset r] Hwf Hkn Hf) as Haa. cbn in Haa.
  destruct (bt_withheld _ _ _ _ Hb) as [H1 H2 H3].
  assert (Hother : forall o, o ∈ (bs_extra sel).1 ->
    retry_not_before (acknowledge (bs_state sel) (ri_offset r)) !! o = retry_not_before (bs_state sel) !! o).
  { intros o Ho. eapply acknowledge_all_retries; [done|exact Haa|]. intros ->%list_elem_of_singleton.
    by destruct Hel. }
  eapply batch_advance; try done.
  - intros o. by apply acknowledge_mono.
  - intros p Hp. rewrite acknowledge_done by done. rewrite (se_done _ _ (bt_selected _ _ _ _ Hb p Hp)).
    apply N.eqb_neq. intros E. destruct Hel as [_ _ Hel _]. apply Hel. rewrite <-E. by apply H3.
  - split; [| |done].
    + intros o Ho. destruct (H1 o Ho) as [|(x & Hx & Hax & Hkx)]; [by left|right]. exists x.
      rewrite Hother by done. split_and!; [done|by eapply ahead_mono|done].
    + intros k Hkin. destruct (H2 k Hkin) as [|(o & x & Hox & Hx & Hkx & Hax)]; [by left|right]. exists o, x.
      rewrite Hother by done. split_and!; [done|done|done|by eapply ahead_mono].
  - intros o Ho. unfold attempts_of. rewrite (aa_attempts _ _ _ _ _ _ Haa) by done. split; [done|].
    apply policy_for_offset_same; apply Haa; done.
Qed.

(** A record is selected. *)
Lemma withheld_select s pending extra b p :
  withheld s pending extra b ->
  withheld s (pending ++ [p]) (filter_insert extra (pd_offset p) (pd_key p)) b.
Proof.
  intros [H1 H2 H3]. split.
  - intros x [->|Hin]%filter_insert_offsets.
    + left. rewrite fmap_app. apply elem_of_app. right. by left.
    + destruct (H1 x Hin) as [Hx|(y & Hy & Hay & Hky)].
      * left. rewrite fmap_app. apply elem_of_app. by left.
      * right. exists y. split_and!; [done|done|]. intros k Hkk. by apply filter_insert_sub_keys, Hky.
  - intros k [Hkk|Hin]%filter_insert_keys; rewrite omap_app.
    + left. apply elem_of_app. right. cbn. rewrite Hkk. by left.
    + destruct (H2 k Hin) as [Hx|(x & y & Hin' & Hy & Hky & Hay)].
      * left. apply elem_of_app. by left.
      * right. exists x, y. split_and!; try done. by apply filter_insert_sub.
  - intros q [Hq| ->%list_elem_of_singleton]%elem_of_app.
    + destruct (H3 q Hq) as [Hpo Hpk]. split; [by apply filter_insert_sub|].
      intros k Hkk. by apply filter_insert_sub_keys, Hpk.
    + split; [apply filter_insert_self|]. intros k Hkk. apply filter_insert_keys. by left.
Qed.

Definition select (sel : BatchSelection) (p : PendingDelivery) : BatchSelection :=
  {| bs_state := bs_state sel;
     bs_extra := filter_insert (bs_extra sel) (pd_offset p) (msg_key (pd_message p));
     bs_pending := bs_pending sel ++ [p];
     bs_sizer := sizer_push (bs_sizer sel) (pd_message p); bs_stopped := bs_stopped sel |}.

Definition chosen (s : ConsumerState) (r : RecordIndex) (e : Entry) (policy : ConsumerPolicy) :
  PendingDelivery :=
  let attempt := u32_saturating_add (attempts_of s (ri_offset r)) 1 in
  {| pd_message := with_delivery (message_of stream (ri_offset r) e) (token_of (ri_offset r)) attempt;
     pd_key := ri_key r; pd_attempt := attempt; pd_policy := policy |}.

Lemma selected_chosen room d sel b r e policy :
  batch_state room d sel b -> found_next d sel r e ->
  policy_for_offset (bs_state sel) (ri_offset r) legacy = Ok policy ->
  selected (bs_state sel) (chosen (bs_state sel) r e policy).
Proof.
  intros Hb Hfo Hpol. pose proof (bt_goes _ _ _ _ Hb) as [_ Hat].
  destruct (at_state_facts _ _ _ _ _ _ _ _ Hat) as (_ & Hkn & Hf & _).
  pose proof (withheld_key_ready d sel b r e Hf Hkn (bt_withheld _ _ _ _ Hb)
    (bt_selected _ _ _ _ Hb) Hfo) as Hr.
  destruct Hfo as (He & Hk & [Hd Hfl Hx Hkey] & _).
  destruct (bt_same _ _ _ _ Hb _ Hd) as [Ea Ep]. split; cbn [chosen pd_attempt pd_policy pd_key].
  - exists e. done.
  - by rewrite Ea.
  - etrans; [symmetry; exact Ep|exact Hpol].
  - done.
  - by rewrite <-(bt_flight _ _ _ _ Hb).
  - intros k Hkk o i. rewrite <-(bt_flight _ _ _ _ Hb). intros Hi.
    rewrite Hk in Hkk. by apply (proj1 (Hkey k Hkk) o i).
Qed.

Lemma batch_select room d sel b r e policy :
  let p := chosen (bs_state sel) r e policy in
  batch_state room d sel b -> found_next d sel r e ->
  policy_for_offset (bs_state sel) (ri_offset r) legacy = Ok policy ->
  vec_len (bs_pending sel) < max_records limits ->
  projected_len (bs_sizer sel) (pd_message p) <= max_bytes limits ->
  batch_state room d (select sel p) b.
Proof.
  intros p Hb Hfo Hpol Hcount Hsize.
  pose proof (fun q => found_after room d sel b r e q Hb Hfo) as Hafter.
  pose proof (selected_chosen _ _ _ _ _ _ _ Hb Hfo Hpol) as Hp. fold p in Hp.
  destruct Hfo as (He & Hk & Hel & Hfirst).
  assert (Ekey : msg_key (pd_message p) = pd_key p) by (cbn; by rewrite Hk).
  destruct Hb as [Hg Hs Hw Hse Hso Hbe Hke Hfl Hsi Hco Hsz].
  split; cbn [select bs_state bs_extra bs_pending bs_sizer bs_stopped]; try done.
  - rewrite Ekey. by apply withheld_select.
  - intros q [Hq| ->%list_elem_of_singleton]%elem_of_app; [by apply Hse|done].
  - rewrite fmap_app. apply StronglySorted_app_2; [|done|repeat constructor].
    intros x1 x2 (q & -> & Hq)%list_elem_of_fmap ->%list_elem_of_singleton. by apply Hafter.
  - exists (ri_offset r + 1). split.
    + intros q [Hq| ->%list_elem_of_singleton]%elem_of_app; [specialize (Hafter q Hq); lia|].
      change (pd_offset p) with (ri_offset r). lia.
    + intros o e' Ho He' Hel'. destruct (decide (o = ri_offset r)) as [->|Hne].
      * destruct Hel' as [_ _ Hn _]. apply Hn, filter_insert_self.
      * apply (Hfirst o e'); [lia|done|]. eapply eligible_anti; [..|exact Hel']; [done| |].
        -- apply filter_insert_sub.
        -- apply filter_insert_sub_keys.
  - rewrite omap_app. apply NoDup_app. split_and!; [done| |].
    + intros k (q & Hq & Hqk)%list_elem_of_omap Hk'. cbn in Hk'. rewrite Hk in Hk'.
      destruct (e_key e) as [k'|] eqn:Ee; [|by apply not_elem_of_nil in Hk'].
      apply list_elem_of_singleton in Hk' as ->. destruct Hel as [_ _ _ Hel].
      destruct (Hel k' eq_refl) as [_ Hnk]. by apply Hnk, (wh_pending _ _ _ _ Hw q Hq).
    + cbn. destruct (ri_key r); repeat constructor. apply not_elem_of_nil.
  - rewrite fmap_app, foldl_app. cbn. by rewrite Hsi.
  - rewrite vec_len_app, vec_len_cons, vec_len_nil. lia.
Qed.

(** ** The loop *)

Lemma batch_state_room room room' d sel b :
  batch_state room d sel b -> room' <= room -> batch_state room' d sel b.
Proof. intros [] Hle. split; try done. by eapply goes_room. Qed.

(** The record that was found does not fit. *)
Definition unfit (d : DeliveryState) (sel : BatchSelection) (r : RecordIndex) (e : Entry) : Prop :=
  found_next d sel r e /\ max_bytes limits < projected_len (bs_sizer sel) (offered s0 (ri_offset r) e).

(** Why the selection ended. *)
Definition batch_end (d : DeliveryState) (sel : BatchSelection) : Prop :=
  (bs_stopped sel = true /\ bs_pending sel <> [] /\ exists r e, unfit d sel r e) \/
  (bs_stopped sel = false /\
    (max_records limits <= vec_len (bs_pending sel) \/ max_bytes limits <= encoded_len (bs_sizer sel) \/
     (forall o e, vec_get es o = Some e -> ~ eligible (flight d) (bs_state sel) (bs_extra sel) o (e_key e)))).

Context (HR1 : forall d sel b r e, batch_state 0 d sel b -> bs_pending sel = [] -> unfit d sel r e ->
  R (ConsumeBatchRecordTooLarge (max_bytes limits)) b).

Definition batch_post (b1 : BrokerState) (Q : BatchSelection -> BrokerState -> Prop) : Prop :=
  forall d sel b, batch_state 0 d sel b -> batch_end d sel -> (br_tick b1 <= br_tick b)%nat -> Q sel b.

(** After a round the loop goes on with fewer rounds left, or has ended. *)
Definition round_post (room : N) (sel : BatchSelection) (b1 : BrokerState)
  (Q : BatchSelection * bool -> BrokerState -> Prop) : Prop :=
  (forall room' d sel' b, batch_state room' d sel' b -> bs_stopped sel' = false ->
     (rounds es (bs_state sel') (bs_extra sel') < rounds es (bs_state sel) (bs_extra sel))%nat ->
     room <= room' + 1 -> (br_tick b1 <= br_tick b)%nat -> Q (sel', true) b) /\
  (forall d sel' b, batch_state 0 d sel' b -> batch_end d sel' -> (br_tick b1 <= br_tick b)%nat -> Q (sel', false) b).

Lemma wp_batch_take room d sel b r e policy (Q : BatchSelection * bool -> BrokerState -> Prop) b1 :
  batch_state room d sel b -> bs_stopped sel = false -> found_next d sel r e ->
  policy_for_offset (bs_state sel) (ri_offset r) legacy = Ok policy ->
  vec_len (bs_pending sel) < max_records limits -> round_post room sel b1 Q -> (br_tick b1 <= br_tick b)%nat ->
  wp (batch_take req sel r (attempts_of (bs_state sel) (ri_offset r)) policy) Q (stops b0) b.
Proof.
  intros Hb Hstop Hfo Hpol Hcount [HQ1 HQ2] Ht. pose proof (bt_goes _ _ _ _ Hb) as Hg. pose proof Hg as [_ Hat].
  destruct (at_state_facts _ _ _ _ _ _ _ _ Hat) as (_ & _ & _ & _ & Hent & Hlen & _).
  pose proof Hfo as (He & Hk & [Hd Hfl Hx Hkey] & _). unfold batch_take. wp_step.
  eapply goes_locked; [exact Hg|]. intros ss Hss Hlog Hdel. wp_step.
  rewrite Hlog, read_message_log_of, He by done. wp_step. cbv zeta.
  set (p := chosen (bs_state sel) r e policy). change (with_delivery _ _ _) with (pd_message p).
  assert (Hb0 : batch_state 0 d sel b) by (eapply (batch_state_room room); [done|lia]).
  destruct (N.ltb_spec (max_bytes limits) (projected_len (bs_sizer sel) (pd_message p))) as [Hbig|Hsmall].
  - assert (Hun : unfit d sel r e).
    { split; [done|]. unfold offered. rewrite <-(proj1 (bt_same _ _ _ _ Hb _ Hd)). exact Hbig. }
    destruct (bs_pending sel) as [|q pending] eqn:Ep; wp_step;
      [eapply goes_stops; [exact Hg|right; by apply (HR1 d sel b r e)]|].
    rewrite <-Ep. apply (HQ2 d); [by destruct Hb0| |done].
    left. split; [done|]. split; [cbn; by rewrite Ep|]. by exists r, e.
  - wp_step. apply (HQ1 room d); [|done| |lia|done].
    + change (batch_state room d (select sel p) b). by apply (batch_select room d sel b r e policy).
    + apply rounds_less with (ri_offset r); try done; [by eapply vec_get_lt|apply filter_insert_sub|].
      right. apply filter_insert_self.
Qed.

Lemma wp_batch_dead room d sel b r e policy (Q : BatchSelection * bool -> BrokerState -> Prop) b1 :
  batch_state room d sel b -> bs_stopped sel = false -> 1 <= room -> found_next d sel r e ->
  policy_for_offset (bs_state sel) (ri_offset r) legacy = Ok policy ->
  attempts_exhausted policy (attempts_of (bs_state sel) (ri_offset r)) = true ->
  dead_letters_of stream b = false -> round_post room sel b1 Q -> (br_tick b1 <= br_tick b)%nat ->
  wp (let! s := dead_letter env stream consumer (bs_state sel) r in
      ret (with_state sel s (bs_extra sel), true)) Q (stops b0) b.
Proof.
  intros Hb Hstop Hroom Hfo Hpol Hex Hdead [HQ1 _] Ht.
  pose proof (bt_goes _ _ _ _ Hb) as Hg. pose proof Hg as [_ Hat].
  destruct (at_state_facts _ _ _ _ _ _ _ _ Hat) as (Hwf & _).
  pose proof Hfo as (He & Hk & [Hd Hfl Hx Hkey] & _). wp_step.
  destruct (as_stream _ _ _ _ _ _ _ _ Hat) as (ss & Hss & _ & Hok).
  eapply (wp_dead_letter env Henv stream consumer A D); [by eapply so_name|done| | |done|exact He|exact Hfl| |].
  - apply (dead_letters_of_distinct _ b); [eauto|done].
  - replace room with (room - 1 + 1) in Hg by lia. exact Hg.
  - apply HD. unfold exhausted_at. destruct (bt_same _ _ _ _ Hb _ Hd) as [<- <-]. by rewrite Hpol.
  - intros d' b' Hg' Ein Eix Ht'. wp_step. apply (HQ1 (room - 1) d'); [|done| |lia|lia].
    + by eapply (batch_dead room (room - 1) d d' sel b b' r e).
    + apply rounds_less with (ri_offset r); try done; [by eapply vec_get_lt|intros; by apply acknowledge_mono|].
      left. cbn. rewrite acknowledge_done, N.eqb_refl by done. apply orb_true_r.
Qed.

Lemma wp_batch_round room d sel b ss r e (Q : BatchSelection * bool -> BrokerState -> Prop) :
  batch_state room d sel b -> bs_stopped sel = false -> 1 <= room -> found_next d sel r e ->
  ss_delivery ss = d -> vec_len (bs_pending sel) < max_records limits -> round_post room sel b Q ->
  wp (batch_round env req legacy sel ss r) Q (stops b0) b.
Proof.
  intros Hb Hstop Hroom Hfo Hdel Hcount HQ. pose proof (bt_goes _ _ _ _ Hb) as Hg. pose proof Hg as [_ Hat].
  destruct (at_state_facts _ _ _ _ _ _ _ _ Hat) as (Hwf & Hkn & _).
  pose proof Hfo as (He & Hk & [Hd Hfl Hx Hkey] & _). unfold batch_round. wp_step.
  destruct (policy_for_offset_ok es (bs_state sel) (ri_offset r) legacy Hwf Hkn Hlegacy) as (policy & Hpol & _).
  rewrite Hpol. do 2 wp_step.
  assert (Hrest : forall b', batch_state room d sel b' -> (br_tick b <= br_tick b')%nat ->
    wp (let! dead := exhausted_now stream policy (attempts_of (bs_state sel) (ri_offset r)) in
        if dead then let! s := dead_letter env stream consumer (bs_state sel) r in
          ret (with_state sel s (bs_extra sel), true)
        else batch_take req (with_state sel (bs_state sel) (bs_extra sel)) r
          (attempts_of (bs_state sel) (ri_offset r)) policy) Q (stops b0) b').
  { intros b' Hb' Ht. wp_step. apply wp_exhausted_now.
    destruct (attempts_exhausted policy _ && negb (dead_letters_of stream b')) eqn:Ee.
    - apply andb_true_iff in Ee as [Ee Edead%negb_true_iff]. by eapply wp_batch_dead.
    - replace (with_state sel (bs_state sel) (bs_extra sel)) with sel by (by destruct sel).
      by eapply wp_batch_take. }
  destruct (is_orphan ss consumer (bs_state sel) (ri_offset r)) eqn:Eor; [|wp_step; by apply Hrest].
  eapply (wp_orphan env Henv stream consumer A D R legacy Hlegacy); [exact Hg|..].
  - intros b' Hg' Hno Ht. apply Hrest; [|done]. destruct Hb as [? ? [H1 H2 H3] ? ? ? ? ? ? ? ?]. split; try done.
    split; [| |done].
    + intros o Ho. destruct (H1 o Ho) as [|(x & Hx' & Ha & Hkx)]; [by left|right].
      exists x. split_and!; [done|by eapply ahead_mono|done].
    + intros k Hk'. destruct (H2 k Hk') as [|(o & x & ? & ? & ? & Ha)]; [by left|right].
      exists o, x. split_and!; try done. by eapply ahead_mono.
  - intros sch n p d' b' Hg' Ein Eix Ho Hfit Hret Hp Hdelay Etime Hall Ht.
    pose proof (eo_wall env Henv n) as Hw.
    assert (Hwall : env_wall_ms env n < rse_retry_not_before_ms sch).
    { rewrite Etime, N.min_l by lia. unfold u64_saturating_add, saturating_add. lia. }
    rewrite N.min_l, (proj2 (N.ltb_lt _ _) Hwall) by lia. wp_step.
    cbn [retry_not_before preview_retry set_retries]. rewrite Ho, lookup_insert_eq.
    cbn [rs_key schedule_of]. rewrite <-Ho. change (set_retries _ _) with (preview_retry (bs_state sel) sch). rewrite Ho.
    destruct HQ as [HQ1 _]. apply (HQ1 room d'); [|done| |lia|lia].
    + eapply (batch_delayed room d d' sel b b' r e sch); try done; [|lia].
      exists n. split; [|done]. destruct Hg as [Hev _]. pose proof (ev_tick _ _ _ _ _ _ Hev). lia.
    + apply rounds_less with (ri_offset r); try done; [by eapply vec_get_lt|apply filter_insert_sub|].
      right. apply filter_insert_self.
Qed.

Lemma wp_batch_loop fuel room d sel b (Q : BatchSelection -> BrokerState -> Prop) :
  batch_state room d sel b -> (rounds es (bs_state sel) (bs_extra sel) < fuel)%nat ->
  N.of_nat (rounds es (bs_state sel) (bs_extra sel)) <= room -> bs_stopped sel = false -> batch_post b Q ->
  wp (batch_loop env fuel req legacy sel) Q (stops b0) b.
Proof.
  revert room d sel b. induction fuel as [|fuel IH]; intros room d sel b Hb Hfu Hro Hstop HQ; [lia|].
  cbn [batch_loop]. cbv zeta. assert (Hb0 : batch_state 0 d sel b) by (by eapply (batch_state_room room); [|lia]).
  destruct (N.ltb_spec (vec_len (bs_pending sel)) (max_records limits)) as [Hcount|Hcount]; cbn [andb].
  2: { wp_step. apply (HQ d); [done|right; split; [done|by left]|done]. }
  destruct (N.ltb_spec (encoded_len (bs_sizer sel)) (max_bytes limits)) as [Hsz|Hsz].
  2: { wp_step. apply (HQ d); [done|right; split; [done|right; by left]|done]. }
  pose proof (bt_goes _ _ _ _ Hb) as Hg. pose proof Hg as [_ Hat].
  destruct (at_state_facts _ _ _ _ _ _ _ _ Hat) as (_ & _ & _ & Hdw & Hent & Hlen & _).
  wp_step. eapply goes_locked; [exact Hg|]. intros ss Hss Hlog Hdel. wp_step.
  rewrite (find_excluding consumer es ss (bs_state sel) (bs_extra sel) Hlog Hent Hlen), Hdel. wp_step.
  pose proof (search_spec es (bs_state sel) _ _ (bs_extra sel) (flight_filter_reserves consumer d Hdw)) as Hsp.
  destruct (search _ _ _) as [r|]; [|wp_step; apply (HQ d); [done|right; split; [done|right; by right]|done]].
  destruct Hsp as (e & He & Hk & Hel & Hfirst).
  assert (Hroom : 1 <= room).
  { assert (0 < rounds es (bs_state sel) (bs_extra sel))%nat; [|lia].
    eapply Nat.le_lt_trans; [apply Nat.le_0_l|].
    apply (rounds_less es (bs_state sel) (bs_state sel) (bs_extra sel)
      (filter_insert (bs_extra sel) (ri_offset r) None) (ri_offset r)); try done;
      [by eapply vec_get_lt|by destruct Hel|by destruct Hel|apply filter_insert_sub|right; apply filter_insert_self]. }
  wp_step. eapply (wp_batch_round room d sel b ss r e); try done. split.
  - intros room' d' sel' b' Hb' Hstop' Hless Hrm Ht. apply (IH room' d'); try done; [lia|lia|].
    intros d2 sel2 b2 Hb2 He2 Ht2. eapply HQ; [done|done|lia].
  - intros d' sel' b' Hb' He' Ht. wp_step. by eapply HQ.
Qed.
End selection.

(** ** Delivering what was selected *)

Definition record_pending (s : ConsumerState) (p : PendingDelivery) : ConsumerState :=
  record_attempt s (pd_offset p) (pd_attempt p) (pd_policy p).

Record recordable (es : list Entry) (d : DeliveryState) (s : ConsumerState) (p : PendingDelivery) : Prop := {
  rc_offset : pd_offset p < vec_len es;
  rc_done : is_done s (pd_offset p) = false;
  rc_attempt : pd_attempt p = u32_saturating_add (attempts_of s (pd_offset p)) 1;
  rc_policy : ack_timeout_ms (pd_policy p) <= u64_max;
  rc_flight : flight d (pd_offset p) = None;
}.

(** The one event records what the assignments record one by one. *)
Lemma record_pending_spec es d s pending :
  NoDup (pd_offset <$> pending) -> known es s -> flying es d consumer s ->
  (forall p, p ∈ pending -> recordable es d s p) ->
  let s' := foldl record_pending s pending in
  foldl apply_delivery_attempt s (attempt_of <$> pending) = s' /\
  known es s' /\ flying es d consumer s' /\ (forall o, is_done s' o = is_done s o) /\
  (forall p, p ∈ pending -> delivery_attempts s' !! pd_offset p = Some (pd_attempt p)) /\
  (forall o, o ∉ (pd_offset <$> pending) ->
     delivery_attempts s' !! o = delivery_attempts s !! o /\
     retry_not_before s' !! o = retry_not_before s !! o) /\
  cs_stream s' = cs_stream s /\ cs_consumer s' = cs_consumer s.
Proof.
  revert s; induction pending as [|p pending IH]; intros s Hnd Hk Hf Hp.
  { cbn. split_and!; try done. intros p Hp'. by apply not_elem_of_nil in Hp'. }
  cbn [fmap list_fmap foldl]. cbn [fmap list_fmap] in Hnd. apply NoDup_cons in Hnd as [Hni Hnd].
  destruct (Hp p) as [Ho Hd Ha Hpo Hfl]; [by left|].
  assert (Hrec : apply_delivery_attempt s (attempt_of p) = record_pending s p).
  { unfold attempt_of, record_pending. rewrite Ha. by eapply apply_attempt_record. }
  assert (Hk' : known es (record_pending s p))
    by (apply known_record; [done|done|rewrite Ha; apply saturating_add_le|done]).
  assert (Hf' : flying es d consumer (record_pending s p)) by (by apply flying_record).
  assert (Hne : forall q, q ∈ pending -> pd_offset q <> pd_offset p).
  { intros q Hq E. apply Hni. rewrite <-E. apply list_elem_of_fmap. eauto. }
  destruct (IH (record_pending s p) Hnd Hk' Hf') as (I1 & I2 & I3 & I4 & I5 & I6 & I7 & I8).
  { intros q Hq. destruct (Hp q) as [Qo Qd Qa Qpo Qfl]; [by right|]. split; try done.
    rewrite Qa. f_equal. unfold attempts_of. cbn. by rewrite lookup_insert_ne by (symmetry; by apply Hne). }
  rewrite Hrec. split_and!; try done.
  - intros q [->|Hq]%elem_of_cons; [|by apply I5]. destruct (I6 (pd_offset p) Hni) as [-> _].
    cbn. by rewrite lookup_insert_eq.
  - intros o [Hop Hop']%not_elem_of_cons. destruct (I6 o Hop') as [-> ->]. cbn.
    by rewrite lookup_insert_ne, lookup_delete_ne by done.
Qed.

Section assign.
Context (room : N) (es : list Entry) (sf : ConsumerState) (b0 : BrokerState).

Record assignable (d : DeliveryState) (p : PendingDelivery) : Prop := {
  an_record : exists e, vec_get es (pd_offset p) = Some e /\ pd_key p = e_key e /\
    key_ready es sf (pd_offset p) (e_key e);
  an_attempt : delivery_attempts sf !! pd_offset p = Some (pd_attempt p);
  an_token : msg_delivery_token (pd_message p) = Some (token_of (pd_offset p));
  an_policy : ack_timeout_ms (pd_policy p) <= u64_max;
  an_flight : flight d (pd_offset p) = None;
  an_key k : pd_key p = Some k -> forall o i, flight d o = Some i -> if_key i <> Some k;
}.

Definition assigned (b b' : BrokerState) (p : PendingDelivery) (i : InFlight) : Prop :=
  exists e, vec_get es (pd_offset p) = Some e /\
    made env (ba_member req) true (pd_offset p) e (pd_policy p) (pd_attempt p)
      (token_of (pd_offset p)) b b' i.

Lemma wp_assign_pending pending s d b (Q : ConsumerState -> BrokerState -> Prop) E :
  goes false room es d sf b0 b -> NoDup (pd_offset <$> pending) -> NoDup (omap pd_key pending) ->
  (forall p, p ∈ pending -> assignable d p) ->
  (forall d' b', goes false room es d' sf b0 b' -> (br_tick b <= br_tick b')%nat ->
     (forall p, p ∈ pending -> exists i, flight d' (pd_offset p) = Some i /\ assigned b b' p i) ->
     (forall o, o ∉ (pd_offset <$> pending) -> flight d' o = flight d o) ->
     Q (foldl record_pending s pending) b') ->
  wp (assign_pending env req s pending) Q E b.
Proof.
  revert s d b; induction pending as [|p pending IH]; intros s d b Hg Hnd Hnk Hp HQ; cbn [assign_pending].
  { wp_step. apply (HQ d); try done. intros p Hp'. by apply not_elem_of_nil in Hp'. }
  cbn [fmap list_fmap] in Hnd. apply NoDup_cons in Hnd as [Hni Hnd].
  destruct (Hp p) as [(e & He & Hk & Hr) Ha Htok Hpol Hfl Hkey]; [by left|].
  wp_step. unfold expect. rewrite Htok. do 2 wp_step. unfold instant_now. wp_step.
  set (n := br_tick b). apply goes_ticked in Hg. wp_step. apply wp_instant_add; [apply Henv|done|].
  wp_step. set (i := Build_InFlight _ _ _ _ _ _ _). pose proof Hg as [_ Hat].
  destruct (at_state_facts _ _ _ _ _ _ _ _ Hat) as (_ & _ & _ & Hdw & _).
  eapply (wp_assign A D stream consumer room es d sf (pd_offset p) e i); [exact Hg|done..| |].
  { split; [done|]. intros k Hkk Hin. apply (dw_index_keys d Hdw) in Hin as (o' & i' & Hi' & Hk').
    by eapply (Hkey k Hkk o' i'). }
  intros b1 Hg1 Ht1.
  assert (Hfl1 : forall o, flight (delivery_insert d consumer i) o =
    if decide (o = pd_offset p) then Some i else flight d o).
  { intros o. unfold flight_of. rewrite in_flight_insert.
    destruct (decide (o = pd_offset p)) as [->|Hne]; [by rewrite decide_True|].
    rewrite decide_False; [done|]. by intros [_ ?]. }
  assert (Hrest : forall b2, goes false room es (delivery_insert d consumer i) sf b0 b2 -> br_tick b2 = br_tick b1 ->
    wp (assign_pending env req (record_pending s p) pending) Q E b2).
  { intros b2 Hg2 Ht2. eapply (IH _ (delivery_insert d consumer i)); [exact Hg2|done| | |].
    - cbn in Hnk. destruct (pd_key p); [by apply NoDup_cons in Hnk as [_ ?]|done].
    - intros q Hq. destruct (Hp q) as [Q1 Q2 Q3 Q4 Q5 Q6]; [by right|]. split; try done.
      + rewrite Hfl1, decide_False; [done|]. intros E1. apply Hni. rewrite <-E1. apply list_elem_of_fmap. eauto.
      + intros k Hkq o j. rewrite Hfl1. case_decide; [|by apply Q6]. intros [= <-] Hkp.
        change (pd_key p = Some k) in Hkp. cbn in Hnk. rewrite Hkp in Hnk. apply NoDup_cons in Hnk as [Hnk _].
        apply Hnk. apply list_elem_of_omap. eauto.
    - intros d' b' Hg' Ht' Hnew Hold. cbn in Ht1. apply (HQ d'); [done|lia| |].
      + intros q [->|Hq]%elem_of_cons.
        * exists i. rewrite Hold, Hfl1, decide_True by done. split; [done|]. exists e. split; [done|].
          split; try done. exists n. split; [lia|done].
        * destruct (Hnew q Hq) as (j & Hj & e' & He' & Hm). exists j. split; [done|]. exists e'. split; [done|].
          eapply made_mono; [exact Hm|lia|lia].
      + intros o [Hop Hop']%not_elem_of_cons. by rewrite Hold, Hfl1, decide_False. }
  wp_step. destruct (1 <? pd_attempt p).
  - unfold count_redelivery. wp_step. apply Hrest; [by apply goes_counters|done].
  - wp_step. by apply Hrest.
Qed.
End assign.

(** ** What a batch poll answers *)

(** The messages show deliveries that the poll has just made. *)
Definition batch_message (es : list Entry) (s0 : ConsumerState) (f0 : Offset -> option InFlight)
  (d : DeliveryState) (b1 b' : BrokerState) (m : Message) : Prop :=
  let o := msg_offset m in
  exists e i policy, vec_get es o = Some e /\ m = delivery_message stream o e i /\ f0 o = None /\
    flight d o = Some i /\ policy_for_offset s0 o legacy = Ok policy /\
    made env (ba_member req) true o e policy (u32_saturating_add (attempts_of s0 o) 1) (token_of o) b1 b' i.

(** The next record in turn does not fit: it is unfinished, it is not in flight
    and no earlier one holds its key, and all records before it are finished or
    wait. *)
Definition next_unfit (es : list Entry) (s0 : ConsumerState) (f0 : Offset -> option InFlight) (d : DeliveryState)
  (s : ConsumerState) (b0 b' : BrokerState) (messages : list Message) : Prop :=
  exists o e, vec_get es o = Some e /\ is_done s o = false /\ f0 o = None /\ key_ready es s o (e_key e) /\
    (forall m, m ∈ messages -> msg_offset m < o) /\ settled_below o es d s b0 b' /\
    max_bytes limits < response_len (messages ++ [offered s0 o e]).

(** Nothing more was added because of a limit. *)
Definition batch_full (es : list Entry) (s0 : ConsumerState) (f0 : Offset -> option InFlight) (d : DeliveryState)
  (s : ConsumerState) (b0 b' : BrokerState) (messages : list Message) : Prop :=
  vec_len messages = max_records limits \/ max_bytes limits <= response_len messages \/
  (messages <> [] /\ next_unfit es s0 f0 d s b0 b' messages).

(** The poll does not wait, or its time is over. *)
Definition time_over (is_waiting : bool) (b1 b' : BrokerState) : Prop :=
  (br_tick b1 < br_tick b')%nat /\
  (is_waiting = false \/ exists n, (br_tick b1 <= n < br_tick b')%nat /\ ba_deadline req <= env_instant env n).

Definition batch_fresh (es : list Entry) (s0 : ConsumerState) (f0 : Offset -> option InFlight)
  (b0 b1 : BrokerState) (is_waiting : bool) (messages : list Message) (b' : BrokerState) : Prop :=
  exists d s, goes true 0 es d s b0 b' /\
    (forall m, m ∈ messages -> batch_message es s0 f0 d b1 b' m) /\
    (forall o, o ∉ (msg_offset <$> messages) -> flight d o = f0 o) /\
    StronglySorted N.lt (msg_offset <$> messages) /\
    vec_len messages <= max_records limits /\ (messages <> [] -> response_len messages <= max_bytes limits) /\
    (batch_full es s0 f0 d s b0 b' messages \/
     (settled_below (vec_len es) es d s b0 b' /\ time_over is_waiting b1 b')).

Section deliver.
Context (es : list Entry) (s0 : ConsumerState) (f0 : Offset -> option InFlight) (b0 : BrokerState).
Context (d : DeliveryState) (sel : BatchSelection) (b : BrokerState).
Context (Hb : batch_state es s0 f0 b0 0 d sel b).

Let pending := bs_pending sel.
Let sf := foldl record_pending (bs_state sel) pending.

Lemma pending_offsets : msg_offset <$> (pd_message <$> pending) = pd_offset <$> pending.
Proof. by rewrite <-list_fmap_compose. Qed.

Lemma pending_nodup : NoDup (pd_offset <$> pending).
Proof. apply StronglySorted_lt_NoDup, (bt_sorted _ _ _ _ _ _ _ _ Hb). Qed.

Lemma pending_recordable p : p ∈ pending -> recordable es d (bs_state sel) p.
Proof.
  intros Hp. pose proof (bt_goes _ _ _ _ _ _ _ _ Hb) as [_ Hat].
  destruct (at_state_facts _ _ _ _ _ _ _ _ Hat) as (Hwf & Hk & _).
  destruct (bt_selected _ _ _ _ _ _ _ _ Hb p Hp) as [(e & He & Hke & Hm & Hr) Ha Hpo Hd Hfl _].
  destruct (bt_same _ _ _ _ _ _ _ _ Hb _ Hd) as [Ea Ep]. split.
  - by eapply vec_get_lt.
  - done.
  - by rewrite Ea.
  - destruct (policy_for_offset_ok es (bs_state sel) (pd_offset p) legacy Hwf Hk Hlegacy) as (q & Hq & Hle).
    congruence.
  - by rewrite (bt_flight _ _ _ _ _ _ _ _ Hb).
Qed.

(** The state after the deliveries were recorded. *)
Lemma recorded :
  apply_event (bs_state sel) (EvDeliveryAttempts (attempt_of <$> pending)) = Ok sf /\
  known es sf /\ flying es d consumer sf /\ (forall o, is_done sf o = is_done (bs_state sel) o) /\
  (forall p, p ∈ pending -> delivery_attempts sf !! pd_offset p = Some (pd_attempt p)) /\
  (forall o, o ∉ (pd_offset <$> pending) ->
     retry_not_before sf !! o = retry_not_before (bs_state sel) !! o) /\
  rename_state sf stream consumer = sf.
Proof.
  pose proof (bt_goes _ _ _ _ _ _ _ _ Hb) as [_ Hat].
  destruct (at_state_facts _ _ _ _ _ _ _ _ Hat) as (_ & Hk & Hf & _ & _ & _ & Hst & Hco).
  destruct (record_pending_spec es d (bs_state sel) pending pending_nodup Hk Hf pending_recordable)
    as (I1 & I2 & I3 & I4 & I5 & I6 & I7 & I8). fold sf in I1, I2, I3, I4, I5, I6, I7, I8.
  split_and!; try done.
  - cbn [apply_event]. destruct (existsb _ _) eqn:E; [|by rewrite I1]. exfalso.
    apply existsb_exists in E as (a & Ha & Ez%N.eqb_eq).
    apply list_elem_of_In, list_elem_of_fmap in Ha as (p & -> & Hp). cbn in Ez.
    rewrite (rc_attempt _ _ _ _ (pending_recordable p Hp)) in Ez. by apply next_attempt_pos in Ez.
  - intros o Ho. by apply I6.
  - rewrite <-Hst, <-I7, <-Hco, <-I8. by destruct sf.
Qed.

Lemma pending_assignable p : p ∈ pending -> assignable es sf d p.
Proof.
  intros Hp. destruct recorded as (_ & _ & _ & Hdone & Hatt & _).
  destruct (bt_selected _ _ _ _ _ _ _ _ Hb p Hp) as [(e & He & Hke & Hm & Hr) Ha Hpo Hd Hfl Hkey]. split.
  - exists e. split_and!; try done. eapply key_ready_done; [|exact Hr]. intros o. by rewrite Hdone.
  - by apply Hatt.
  - by rewrite Hm.
  - by apply pending_recordable.
  - by rewrite (bt_flight _ _ _ _ _ _ _ _ Hb).
  - intros k Hk o i. rewrite (bt_flight _ _ _ _ _ _ _ _ Hb). by apply Hkey.
Qed.

(** When nothing is eligible, everything is finished or waits. *)
Lemma batch_settled bound d' s' b' :
  (forall o e, o < bound -> vec_get es o = Some e ->
     ~ eligible (flight d) (bs_state sel) (bs_extra sel) o (e_key e)) ->
  (forall p, p ∈ pending -> exists i, flight d' (pd_offset p) = Some i /\ if_key i = pd_key p) ->
  (forall o i, flight d o = Some i -> flight d' o = Some i) ->
  (forall o, is_done (bs_state sel) o = true -> is_done s' o = true) ->
  (forall o, o ∉ (pd_offset <$> pending) ->
     retry_not_before s' !! o = retry_not_before (bs_state sel) !! o) ->
  (br_tick b <= br_tick b')%nat -> settled_below bound es d' s' b0 b'.
Proof.
  intros Hno Hnew Hold Hdone Hret Ht o e Ho He. pose proof (bt_goes _ _ _ _ _ _ _ _ Hb) as [_ Hat].
  destruct (at_state_facts _ _ _ _ _ _ _ _ Hat) as (_ & Hkn & _ & Hdw & _).
  destruct (bt_withheld _ _ _ _ _ _ _ _ Hb) as [Hw1 Hw2 Hw3].
  assert (Hpend : forall x, x ∈ (pd_offset <$> pending) -> is_Some (flight d' x)).
  { intros x (p & -> & Hp)%list_elem_of_fmap. destruct (Hnew p Hp) as (i & Hi & _). eauto. }
  destruct (is_done (bs_state sel) o) eqn:Ed; [left; by apply Hdone|right].
  destruct (decide (o ∈ (pd_offset <$> pending))) as [Hp|Hp]; [left; by apply Hpend|].
  destruct (flight d o) as [i|] eqn:Ei; [left; rewrite (Hold o i Ei); eauto|].
  destruct (decide (o ∈ (bs_extra sel).1)) as [Hin|Hin].
  { destruct (Hw1 o Hin) as [|(r & Hr & Ha & _)]; [done|]. right; left. exists r.
    rewrite Hret by done. split; [done|by eapply ahead_mono]. }
  destruct (e_key e) as [k|] eqn:Ek; [|by destruct (Hno o e Ho He); split; rewrite ?Ek].
  right; right. exists k. split; [done|].
  destruct (decide (k ∈ (flight_filter consumer d).2)) as [Hk|Hk].
  { apply (rv_keys _ _ (flight_filter_reserves consumer d Hdw)) in Hk as (o' & i & Hi & Hik).
    left. exists o', i. eauto. }
  assert (Hbusy : forall p, p ∈ pending -> pd_key p = Some k -> exists o' i, flight d' o' = Some i /\ if_key i = Some k).
  { intros p Hpp Hpk. destruct (Hnew p Hpp) as (i & Hi & Hik). exists (pd_offset p), i. split; [done|congruence]. }
  destruct (decide (k ∈ (bs_extra sel).2)) as [Hk2|Hk2].
  { destruct (Hw2 k Hk2) as [(p & Hpp & Hpk)%list_elem_of_omap|(o' & r & Hin' & Hr & Hkr & Ha)]; [left; eauto|].
    destruct (decide (o' ∈ (pd_offset <$> pending))) as [(p & -> & Hpp)%list_elem_of_fmap|Hnp].
    - left. apply (Hbusy p Hpp). destruct (kn_retries es _ Hkn _ r Hr) as [(e1 & He1 & Hk1) _].
      destruct (se_record _ _ _ _ _ (bt_selected _ _ _ _ _ _ _ _ Hb p Hpp)) as (e2 & He2 & Hk3 & _). congruence.
    - right. exists o', r. rewrite Hret by done. split_and!; [done|done|by eapply ahead_mono]. }
  exfalso. apply (Hno o e Ho He). split; rewrite ?Ek; try done. intros k' [= <-]. split; [|done].
  intros o' i Hi Hik. apply Hk, (rv_keys _ _ (flight_filter_reserves consumer d Hdw)). eauto.
Qed.

Lemma pending_len : response_len (pd_message <$> pending) = encoded_len (bs_sizer sel).
Proof. unfold poll_batch_response_len. by rewrite (bt_sizer _ _ _ _ _ _ _ _ Hb). Qed.

(** A record that does not fit stays the next one while others are delivered. *)
Lemma unfit_next r e d' s' b' :
  unfit es s0 d sel r e ->
  (forall bound, (forall o e, o < bound -> vec_get es o = Some e ->
     ~ eligible (flight d) (bs_state sel) (bs_extra sel) o (e_key e)) -> settled_below bound es d' s' b0 b') ->
  (forall o, is_done s' o = is_done (bs_state sel) o) ->
  next_unfit es s0 f0 d' s' b0 b' (pd_message <$> pending).
Proof.
  intros [Hfo Hbig] Hset Hdone. pose proof (bt_goes _ _ _ _ _ _ _ _ Hb) as [_ Hat].
  destruct (at_state_facts _ _ _ _ _ _ _ _ Hat) as (_ & Hkn & Hf & _).
  pose proof (withheld_key_ready es s0 f0 b0 d sel b r e Hf Hkn (bt_withheld _ _ _ _ _ _ _ _ Hb)
    (bt_selected _ _ _ _ _ _ _ _ Hb) Hfo) as Hr.
  pose proof Hfo as (He & _ & [Hd Hfl _ _] & Hfirst). exists (ri_offset r), e. split_and!; [done| | | | | |].
  - by rewrite Hdone.
  - by rewrite <-(bt_flight _ _ _ _ _ _ _ _ Hb).
  - eapply key_ready_done; [|exact Hr]. intros o. by rewrite Hdone.
  - intros m (p & -> & Hp)%list_elem_of_fmap. by apply (found_after es s0 f0 b0 0 d sel b r e p).
  - by apply Hset.
  - unfold poll_batch_response_len in *. rewrite foldl_app. cbn. rewrite (bt_sizer _ _ _ _ _ _ _ _ Hb) in Hbig. done.
Qed.

Lemma batch_end_full is_waiting b1 d' s' b' :
  batch_end es s0 d sel ->
  (is_waiting = false \/ (exists n, (br_tick b1 <= n < br_tick b)%nat /\ ba_deadline req <= env_instant env n) \/
   vec_len pending = max_records limits \/ bs_stopped sel = true \/ max_bytes limits <= encoded_len (bs_sizer sel)) ->
  (forall bound, (forall o e, o < bound -> vec_get es o = Some e ->
     ~ eligible (flight d) (bs_state sel) (bs_extra sel) o (e_key e)) -> settled_below bound es d' s' b0 b') ->
  (forall o, is_done s' o = is_done (bs_state sel) o) -> (br_tick b1 < br_tick b <= br_tick b')%nat ->
  batch_full es s0 f0 d' s' b0 b' (pd_message <$> pending) \/
  (settled_below (vec_len es) es d' s' b0 b' /\ time_over is_waiting b1 b').
Proof.
  intros Hend Hwhy Hset Hdone Ht.
  assert (Hcount : vec_len pending = max_records limits ->
    batch_full es s0 f0 d' s' b0 b' (pd_message <$> pending)) by (intros H; left; rewrite <-H; unfold vec_len; by rewrite length_fmap).
  assert (Hsize : max_bytes limits <= encoded_len (bs_sizer sel) ->
    batch_full es s0 f0 d' s' b0 b' (pd_message <$> pending)) by (intros H; right; left; by rewrite pending_len).
  destruct Hend as [(Hs & Hne & r & e & Hun)|[Hs [Hc|[Hz|Hno]]]]; [left|left|left; by apply Hsize|].
  - right; right. split; [|by eapply unfit_next]. unfold pending. by destruct (bs_pending sel).
  - apply Hcount. pose proof (bt_count _ _ _ _ _ _ _ _ Hb). unfold pending. lia.
  - destruct Hwhy as [Hw|[(n & Hn & Hw)|[Hc|[Hst|Hz]]]]; [right|right|left; by apply Hcount|congruence|left; by apply Hsize].
    + split; [apply Hset; eauto|split; [lia|by left]].
    + split; [apply Hset; eauto|split; [lia|right]]. exists n. split; [lia|done].
Qed.

Lemma wp_batch_deliver is_waiting b1 :
  batch_end es s0 d sel -> pending <> [] -> (br_tick b1 < br_tick b)%nat ->
  (is_waiting = false \/ (exists n, (br_tick b1 <= n < br_tick b)%nat /\ ba_deadline req <= env_instant env n) \/
   vec_len pending = max_records limits \/ bs_stopped sel = true \/ max_bytes limits <= encoded_len (bs_sizer sel)) ->
  wp (batch_deliver env req (bs_state sel) pending)
    (fun step b' => step = Complete (pd_message <$> pending) /\
       batch_fresh es s0 f0 b0 b1 is_waiting (pd_message <$> pending) b') (stops b0) b.
Proof.
  intros Hend Hne Ht1 Hwhy. pose proof (bt_goes _ _ _ _ _ _ _ _ Hb) as Hg. pose proof Hg as [_ Hat].
  destruct (at_state_settled _ _ _ _ _ _ _ Hat) as [Hun _].
  destruct recorded as (Eev & Hk & Hf & Hdone & Hatt & Hret & Hren).
  unfold batch_deliver. wp_step.
  eapply (wp_persist env Henv stream consumer A D R 0 es d (bs_state sel) sf); [exact Hg|done|exact Eev|done|done|..].
  { intros o. by rewrite Hdone. }
  { intros o. rewrite Hdone. by left. }
  intros b2 Hg2 Ht2 _. wp_step.
  eapply (wp_assign_pending 0 es sf b0 pending (bs_state sel) d b2);
    [exact Hg2|apply pending_nodup|apply (bt_keys _ _ _ _ _ _ _ _ Hb)|apply pending_assignable|].
  intros d3 b3 Hg3 Ht3 Hnew Hold. fold sf. rewrite Hren. wp_step.
  assert (Hun3 : unfinished d3 consumer sf).
  { intros o Ho. rewrite Hdone. destruct (decide (o ∈ (pd_offset <$> pending))) as [(p & -> & Hp)%list_elem_of_fmap|Hp].
    - apply (pending_recordable p Hp).
    - apply Hun. unfold flight_of in Hold. by rewrite <-Hold. }
  eapply (wp_cache env Henv); [exact Hg3|exact Hun3|]. intros d4 b4 Hg4 Ein Eix Ht4. wp_step.
  eapply wp_notify; [exact Hg4|]. intros b5 Hg5 Ht5. wp_step. split; [done|].
  assert (Hfl : forall o, flight d4 o = flight d3 o) by (intros o; unfold flight_of; by rewrite Ein).
  exists d4, sf. split_and!.
  - done.
  - intros m (p & -> & Hp)%list_elem_of_fmap. destruct (Hnew p Hp) as (i & Hi & e' & He' & Hm).
    destruct (bt_selected _ _ _ _ _ _ _ _ Hb p Hp) as [(e & He & Hke & Hmsg & Hr) Ha Hpo Hd Hf0 _].
    change (msg_offset (pd_message p)) with (pd_offset p) in *. exists e, i, (pd_policy p). simplify_eq.
    unfold batch_message. change (msg_offset (pd_message p)) with (pd_offset p).
    split_and!; try done.
    + unfold delivery_message. by rewrite (ma_attempt _ _ _ _ _ _ _ _ _ _ _ Hm), (ma_token _ _ _ _ _ _ _ _ _ _ _ Hm).
    + by rewrite Hfl.
    + rewrite <-Ha. eapply made_mono; [exact Hm|lia|lia].
  - intros o. rewrite pending_offsets, Hfl. intros Ho. rewrite Hold by done. apply (bt_flight _ _ _ _ _ _ _ _ Hb).
  - rewrite pending_offsets. apply (bt_sorted _ _ _ _ _ _ _ _ Hb).
  - pose proof (bt_count _ _ _ _ _ _ _ _ Hb). unfold vec_len in *. by rewrite length_fmap.
  - intros _. pose proof (bt_size _ _ _ _ _ _ _ _ Hb Hne) as Hs. rewrite (bt_sizer _ _ _ _ _ _ _ _ Hb) in Hs. done.
  - apply batch_end_full; [done|done| |done|lia]. intros bound Hno. eapply batch_settled; [exact Hno|..|lia].
    + intros p Hp. destruct (Hnew p Hp) as (i & Hi & e' & He' & Hm). exists i. rewrite Hfl. split; [done|].
      rewrite (ma_key _ _ _ _ _ _ _ _ _ _ _ Hm).
      destruct (se_record _ _ _ _ _ (bt_selected _ _ _ _ _ _ _ _ Hb p Hp)) as (e & He & Hke & _). congruence.
    + intros o i Hi. rewrite Hfl, Hold; [done|]. intros (p & -> & Hp)%list_elem_of_fmap.
      pose proof (rc_flight _ _ _ _ (pending_recordable p Hp)). congruence.
    + intros o. by rewrite Hdone.
    + done.
Qed.
End deliver.

(** ** Deliveries that the member holds *)

Definition shown (es : list Entry) (i : InFlight) (m : Message) : Prop :=
  exists e, vec_get es (if_offset i) = Some e /\ m = delivery_message stream (if_offset i) e i.

Lemma batch_existing_spec es l sizer ms :
  Forall entry_ok es -> vec_len es <= u64_max ->
  batch_existing req (log_of es) l sizer = Ok ms ->
  Forall2 (shown es) l ms /\ (l <> [] -> encoded_len (foldl sizer_push sizer ms) <= max_bytes limits).
Proof.
  intros Hent Hlen. revert sizer ms. induction l as [|i l IH]; intros sizer ms; cbn [batch_existing].
  { intros [= <-]. by split. }
  rewrite read_message_log_of by done. destruct (vec_get es (if_offset i)) as [e|] eqn:He; [|done].
  set (m := with_delivery _ _ _).
  destruct (N.ltb_spec (max_bytes limits) (encoded_len (sizer_push sizer m))) as [|Hle]; [done|].
  destruct (batch_existing req (log_of es) l (sizer_push sizer m)) as [ms'|] eqn:E; [|done].
  intros [= <-]. destruct (IH _ _ E) as [H1 H2]. split.
  - constructor; [|done]. by exists e.
  - intros _. cbn [foldl]. destruct l as [|j l]; [by inversion H1|]. by apply H2.
Qed.

Lemma shown_all es l : (forall i, i ∈ l -> is_Some (vec_get es (if_offset i))) -> exists ms, Forall2 (shown es) l ms.
Proof.
  induction l as [|i l IH]; intros Hl; [by exists []|]. destruct IH as [ms Hms]; [intros j Hj; apply Hl; by right|].
  destruct (Hl i) as [x Hx]; [by left|]. eexists (_ :: ms). constructor; [by exists x|done].
Qed.

Lemma sizer_push_mono ms sizer :
  encoded_len sizer <= usize_max -> encoded_len sizer <= encoded_len (foldl sizer_push sizer ms).
Proof.
  revert sizer. induction ms as [|m ms IH]; intros sizer Hs; [done|]. cbn [foldl].
  assert (Hp : encoded_len sizer <= encoded_len (sizer_push sizer m) <= usize_max)
    by (cbn; unfold projected_len, usize_saturating_add, saturating_add; lia).
  specialize (IH (sizer_push sizer m)). lia.
Qed.

Lemma batch_existing_rejects es l sizer e :
  Forall entry_ok es -> vec_len es <= u64_max -> (forall i, i ∈ l -> is_Some (vec_get es (if_offset i))) ->
  batch_existing req (log_of es) l sizer = Err e ->
  e = InvalidBatchRequest "the active delivery set exceeds max_bytes; retry with the original or a larger limit" /\
  exists ms, Forall2 (shown es) l ms /\ max_bytes limits < encoded_len (foldl sizer_push sizer ms).
Proof.
  intros Hent Hlen Hl. revert sizer. induction l as [|i l IH]; intros sizer; cbn [batch_existing]; [done|].
  destruct (Hl i) as [x Hx]; [by left|]. rewrite read_message_log_of, Hx by done.
  assert (Hl' : forall j, j ∈ l -> is_Some (vec_get es (if_offset j))) by (intros j Hj; apply Hl; by right).
  set (m := with_delivery _ _ _). assert (Hm : shown es i m) by (by exists x).
  destruct (N.ltb_spec (max_bytes limits) (encoded_len (sizer_push sizer m))) as [Hbig|].
  - intros [= <-]. split; [done|].
    destruct (shown_all es l Hl') as [ms Hms]. exists (m :: ms). split; [by constructor|]. cbn [foldl].
    eapply N.lt_le_trans; [exact Hbig|]. apply sizer_push_mono. cbn. unfold projected_len, usize_saturating_add, saturating_add. lia.
  - destruct (batch_existing req (log_of es) l _) eqn:E; [done|]. intros [= <-].
    destruct (IH Hl' _ E) as (-> & ms & Hms & Hbig). split; [done|]. exists (m :: ms). split; [by constructor|done].
Qed.

(** The deliveries that the member holds do not fit its limits. *)
Definition held_unfit (es : list Entry) (f0 : Offset -> option InFlight) (e : BrokerError) : Prop :=
  exists l ms, l <> [] /\ StronglySorted N.lt (if_offset <$> l) /\
    (forall i, i ∈ l <-> exists o, f0 o = Some i /\ if_member i = ba_member req) /\ Forall2 (shown es) l ms /\
    ((e = InvalidBatchRequest "the active delivery set exceeds max_records; retry with the original or a larger limit" /\
      max_records limits < vec_len l) \/
     (e = InvalidBatchRequest "the active delivery set exceeds max_bytes; retry with the original or a larger limit" /\
      max_bytes limits < response_len ms)).

Definition batch_again (es : list Entry) (f0 : Offset -> option InFlight) (b0 : BrokerState)
  (messages : list Message) (b' : BrokerState) : Prop :=
  exists d s l, goes true 0 es d s b0 b' /\ (forall o, flight d o = f0 o) /\
    l <> [] /\ StronglySorted N.lt (if_offset <$> l) /\
    (forall i, i ∈ l <-> exists o, f0 o = Some i /\ if_member i = ba_member req) /\
    Forall2 (shown es) l messages /\ vec_len messages <= max_records limits /\
    response_len messages <= max_bytes limits.

Lemma wp_batch_held room es d s ss f0 l b0 b :
  goes true room es d s b0 b -> ss_log ss = log_of es -> (forall o, flight d o = f0 o) ->
  StronglySorted N.lt (if_offset <$> l) ->
  (forall i, i ∈ l <-> exists o, in_flight d !! (consumer, o) = Some i /\ if_member i = ba_member req) ->
  l <> [] -> (forall e b', held_unfit es f0 e -> R e b') ->
  wp (batch_held req ss l) (fun step b' => exists ms, step = Complete ms /\ batch_again es f0 b0 ms b')
    (stops b0) b.
Proof.
  intros Hg Hlog Hfl Hso Hl Hne HR2. pose proof Hg as [_ Hat].
  destruct (at_state_facts _ _ _ _ _ _ _ _ Hat) as (_ & _ & Hf & Hdw & Hent & Hlen & _). unfold batch_held.
  assert (Hl0 : forall i, i ∈ l <-> exists o, f0 o = Some i /\ if_member i = ba_member req)
    by (intros i; rewrite Hl; unfold flight_of in Hfl; by setoid_rewrite Hfl).
  assert (Hin : forall i, i ∈ l -> is_Some (vec_get es (if_offset i))).
  { intros i (o & Hi & _)%Hl. rewrite (dw_offset d Hdw _ _ _ Hi). by destruct (Hf o i Hi) as (e & He & _). }
  destruct (N.ltb_spec (max_records limits) (vec_len l)) as [Hmany|Hcount].
  { wp_step. eapply goes_stops; [exact Hg|right]. apply HR2. destruct (shown_all es l Hin) as [ms Hms].
    exists l, ms. split_and!; try done. by left. }
  wp_step. apply wp_lift; [|intros err Herr; eapply goes_stops; [exact Hg|right]].
  2: { rewrite Hlog in Herr. apply batch_existing_rejects in Herr as (-> & ms & Hms & Hbig); try done. apply HR2.
       exists l, ms. split_and!; try done. by right. }
  intros ms Hms. wp_step. exists ms. split; [done|].
  rewrite Hlog in Hms. destruct (batch_existing_spec es l _ ms Hent Hlen Hms) as [H1 H2].
  exists d, s, l. split_and!; try done; [eapply goes_room; [exact Hg|lia]| |].
  - apply Forall2_length in H1. unfold vec_len in *. by rewrite <-H1.
  - by apply H2.
Qed.

(** ** Waiting *)

Lemma list_min_le l x : x ∈ l -> exists m, list_min l = Some m /\ m <= x.
Proof.
  assert (Hf : forall l a, foldl N.min a l <= a /\ forall y, y ∈ l -> foldl N.min a l <= y).
  { clear. induction l as [|z l IH]; intros a; cbn; [by split; [|intros y ?%not_elem_of_nil]|].
    destruct (IH (N.min a z)) as [H1 H2]. split; [lia|]. intros y [->|Hy]%elem_of_cons; [lia|auto]. }
  destruct l as [|z l]; [by intros ?%not_elem_of_nil|]. intros Hx. exists (foldl N.min z l). split; [done|].
  destruct (Hf l z) as [H1 H2]. apply elem_of_cons in Hx as [->|Hx]; [done|auto].
Qed.

Lemma list_min_elem l m : list_min l = Some m -> m ∈ l.
Proof.
  assert (Hf : forall l a, foldl N.min a l ∈ a :: l).
  { clear. induction l as [|z l IH]; intros a; cbn; [by left|].
    specialize (IH (N.min a z)). apply elem_of_cons in IH as [->|Hin]; [|by right; right].
    destruct (N.min_spec a z) as [[_ ->]|[_ ->]]; [by left|by right; left]. }
  destruct l as [|z l]; [done|]. intros [= <-]. apply Hf.
Qed.

Lemma next_deadline_le d o i :
  flight d o = Some i -> exists t, next_deadline_for_consumer d consumer = Some t /\ t <= if_deadline i.
Proof.
  intros Hi. apply list_min_le, list_elem_of_fmap. exists ((consumer, o), i). split; [done|].
  apply list_elem_of_filter. split; [done|]. by apply elem_of_map_to_list.
Qed.

(** The wakeup comes no later than any lease ends or any retry is due. *)
Definition wakes (d : DeliveryState) (s : ConsumerState) (now_ms : N) (b b' : BrokerState)
  (next : option N) : Prop :=
  (forall o i, flight d o = Some i -> exists t, next = Some t /\ t <= if_deadline i) /\
  (forall o r, retry_not_before s !! o = Some r -> now_ms < retry_not_before_ms r ->
     exists t n, next = Some t /\ (br_tick b <= n < br_tick b')%nat /\
       t <= env_instant env n + nanos_of_millis (retry_not_before_ms r - now_ms)).

Lemma wp_next_wake room es d s now_ms b0 b (Q : option N -> BrokerState -> Prop) :
  goes true room es d s b0 b ->
  (forall next b', goes true room es d s b0 b' -> (br_tick b <= br_tick b')%nat -> wakes d s now_ms b b' next -> Q next b') ->
  wp (next_consumer_wake env d consumer s now_ms) Q (stops b0) b.
Proof.
  intros Hg HQ. pose proof Hg as [_ Hat]. destruct (at_state_facts _ _ _ _ _ _ _ _ Hat) as (_ & Hk & _).
  unfold next_consumer_wake. set (times := filter _ _). cbv zeta. wp_step.
  assert (Hin : forall o r, retry_not_before s !! o = Some r -> now_ms < retry_not_before_ms r ->
    retry_not_before_ms r ∈ times).
  { intros o r Hr Hlt. apply list_elem_of_filter. split; [done|]. apply list_elem_of_fmap. exists r. split; [done|].
    unfold btree_values. apply list_elem_of_fmap. exists (o, r). split; [done|]. by apply elem_of_btree_items. }
  destruct (list_min times) as [m|] eqn:Em.
  - assert (Hm : m <= u64_max).
    { assert (Hx : m ∈ times) by (by apply list_min_elem).
      apply list_elem_of_filter in Hx as [_ (r & -> & Hr)%list_elem_of_fmap]. unfold btree_values in Hr.
      apply list_elem_of_fmap in Hr as ([o r'] & -> & Hr'%elem_of_btree_items). by apply (kn_retries es s Hk o r'). }
    unfold instant_now. wp_step. wp_step. set (n := br_tick b). apply goes_ticked in Hg. wp_step.
    apply wp_instant_add; [apply Henv|lia|]. do 2 wp_step. apply HQ; [done|cbn; lia|]. split.
    + intros o i Hi. destruct (next_deadline_le d o i Hi) as (t & -> & Hle). eexists. split; [done|lia].
    + intros o r Hr Hlt. destruct (list_min_le times _ (Hin o r Hr Hlt)) as (m' & Em' & Hle).
      rewrite Em in Em'. injection Em' as <-.
      assert (Hmono : nanos_of_millis (m - now_ms) <= nanos_of_millis (retry_not_before_ms r - now_ms))
        by (unfold nanos_of_millis; lia).
      exists (match next_deadline_for_consumer d consumer with
              | Some lease => N.min lease (env_instant env n + nanos_of_millis (m - now_ms))
              | None => env_instant env n + nanos_of_millis (m - now_ms) end), n.
      split_and!; [by destruct (next_deadline_for_consumer d consumer)|cbn; lia|cbn; lia|].
      destruct (next_deadline_for_consumer d consumer); lia.
  - do 2 wp_step. apply HQ; [done|done|]. split.
    + intros o i Hi. destruct (next_deadline_le d o i Hi) as (t & -> & Hle). eauto.
    + intros o r Hr Hlt. destruct (list_min_le times _ (Hin o r Hr Hlt)) as (m' & Em' & Hle). congruence.
Qed.

(** ** One step of a batch poll *)

Definition batch_outcome (es : list Entry) (s0 : ConsumerState) (f0 : Offset -> option InFlight)
  (b0 b1 : BrokerState) (is_waiting : bool) (now_ms : N) (step : PollBatchStep) (b' : BrokerState) : Prop :=
  match step with
  | Complete messages => batch_fresh es s0 f0 b0 b1 is_waiting messages b'
  | Waiting next => is_waiting = true /\ exists d s n, goes true 0 es d s b0 b' /\
      (forall o, flight d o = f0 o) /\ (br_tick b1 <= n < br_tick b')%nat /\
      env_instant env n < ba_deadline req /\ wakes d s now_ms b1 b' next
  end.

Lemma wp_batch_finish es s0 f0 b0 d sel b b1 is_waiting now_ms :
  batch_state es s0 f0 b0 0 d sel b -> batch_end es s0 d sel -> (br_tick b1 <= br_tick b)%nat ->
  wp (batch_finish env req is_waiting now_ms sel)
    (batch_outcome es s0 f0 b0 b1 is_waiting now_ms) (stops b0) b.
Proof.
  intros Hb Hend Ht. unfold batch_finish, instant_now. wp_step. wp_step. set (n := br_tick b).
  assert (Hb' : batch_state es s0 f0 b0 0 d sel (ticked b (S (br_tick b)))).
  { destruct Hb as [Hg ? [H1 H2 H3] ? ? ? ? ? ? ? ?]. split; try done; [by apply goes_ticked|]. split; [| |done].
    - intros o Ho. destruct (H1 o Ho) as [|(x & Hx & Ha & Hkx)]; [by left|right].
      exists x. split_and!; [done|eapply ahead_mono; [exact Ha|cbn; lia]|done].
    - intros k Hk'. destruct (H2 k Hk') as [|(o & x & ? & ? & ? & Ha)]; [by left|right].
      exists o, x. split_and!; try done. eapply ahead_mono; [exact Ha|cbn; lia]. }
  clear Hb. set (b2 := ticked b _) in *. pose proof (bt_goes _ _ _ _ _ _ _ _ Hb') as Hg.
  assert (Hdone : (is_waiting = false \/
      (exists n, (br_tick b1 <= n < br_tick b2)%nat /\ ba_deadline req <= env_instant env n) \/
      vec_len (bs_pending sel) = max_records limits \/ bs_stopped sel = true \/
      max_bytes limits <= encoded_len (bs_sizer sel)) -> wp match bs_pending sel with
      | [] => ret (Complete [])
      | pending => batch_deliver env req (bs_state sel) pending
      end (batch_outcome es s0 f0 b0 b1 is_waiting now_ms) (stops b0) b2).
  { intros Hwhy. destruct (bs_pending sel) as [|p pending] eqn:Ep.
    - wp_step. exists d, (bs_state sel). split_and!; try done.
      + intros m Hm. by apply not_elem_of_nil in Hm.
      + intros o _. apply (bt_flight _ _ _ _ _ _ _ _ Hb').
      + constructor.
      + rewrite vec_len_nil. lia.
      + pose proof (batch_end_full es s0 f0 b0 d sel b2 Hb' is_waiting b1 d (bs_state sel) b2 Hend) as Hf.
        rewrite Ep in Hf. apply Hf; try done; [|cbn; lia]. intros bound Hno.
        eapply (batch_settled es s0 f0 b0 d sel b2 Hb'); try done. intros p Hp. rewrite Ep in Hp.
        by apply not_elem_of_nil in Hp.
    - rewrite <-Ep. eapply wp_mono; [apply (wp_batch_deliver es s0 f0 b0 d sel b2 Hb' is_waiting b1 Hend)| |done].
      + by rewrite Ep.
      + cbn. lia.
      + by rewrite Ep.
      + intros step b' [-> Hf]. exact Hf. }
  cbv zeta. destruct (is_waiting && _ && _ && _) eqn:Ew.
  2: { apply Hdone. destruct is_waiting; [right|by left]. destruct (N.leb_spec (ba_deadline req) (env_instant env n)) as [Hdl|_].
       { left. exists n. split; [cbn; lia|done]. }
       right. destruct (N.eqb_spec (vec_len (bs_pending sel)) (max_records limits)) as [|_]; [by left|right].
       destruct (bs_stopped sel); [by left|right]. cbn in Ew. apply negb_false_iff in Ew. by apply N.leb_le. }
  apply andb_true_iff in Ew as [Ew _]. apply andb_true_iff in Ew as [Ew _].
  apply andb_true_iff in Ew as [Hw Hd%negb_true_iff%N.leb_gt]. wp_step.
  eapply goes_locked; [exact Hg|]. intros ss Hss Hlog Hdel. wp_step. rewrite Hdel.
  eapply wp_next_wake; [exact Hg|]. intros next b3 Hg3 Ht3 [W1 W2]. wp_step. split; [done|].
  exists d, (bs_state sel), n. cbn in Ht3. split_and!; try done; try lia.
  - apply (bt_flight _ _ _ _ _ _ _ _ Hb').
  - split; [done|]. intros o r Hr Hlt. destruct (W2 o r Hr Hlt) as (t & x & Hx & Htx & Hle).
    exists t, x. split_and!; [done|cbn in Htx; lia|lia|done].
Qed.

Lemma batch_start room es d s s0 f0 now_ms n b0 b rs :
  goes true room es d s b0 b -> s = foldl or_insert_schedule s0 rs -> (forall o, flight d o = f0 o) ->
  now_ms = env_wall_ms env n -> (br_tick b0 <= n < br_tick b)%nat ->
  batch_state es s0 f0 b0 room d
    {| bs_state := s; bs_extra := retry_filter s now_ms; bs_pending := [];
       bs_sizer := sizer_new stream consumer (ba_response_member req); bs_stopped := false |} b.
Proof.
  intros Hg Es Hfl Hn Ht. destruct (retries_reserved s now_ms) as [H1 H2].
  assert (Ha : forall o r, retry_held s now_ms o r -> ahead b0 b r).
  { intros o r [_ Hlt]. exists n. split; [done|]. by rewrite <-Hn. }
  split; cbn; try done.
  - intros o _. destruct (agree_schedules s0 rs) as [seen Hag]. rewrite <-Es in Hag.
    by rewrite (agree_attempts _ _ _ _ Hag), (agree_policy_for legacy _ _ _ _ Hag).
  - split.
    + intros o (r & Hr)%H1. right. exists r. split_and!; [apply Hr|by eapply Ha|].
      intros k Hkk. apply H2. eauto.
    + intros k (o & r & Hr & Hkk)%H2. right. exists o, r. split_and!; [apply H1; eauto|apply Hr|done|by eapply Ha].
    + intros p Hp. by apply not_elem_of_nil in Hp.
  - intros p Hp. by apply not_elem_of_nil in Hp.
  - constructor.
  - exists 0. split; [intros p Hp; by apply not_elem_of_nil in Hp|]. intros o e Ho. lia.
  - constructor.
  - rewrite vec_len_nil. lia.
Qed.

(** The answer of one step: what the member holds, or new deliveries, or a wait. *)
Definition batch_answer (es : list Entry) (s0 : ConsumerState) (f0 : Offset -> option InFlight)
  (b0 b1 : BrokerState) (is_waiting : bool) (now_ms : N) (step : PollBatchStep) (b' : BrokerState) : Prop :=
  (exists messages, step = Complete messages /\ batch_again es f0 b0 messages b') \/
  ((forall o i, f0 o = Some i -> if_member i <> ba_member req) /\
   batch_outcome es s0 f0 b0 b1 is_waiting now_ms step b').

(** When a step is refused: the deliveries that the member holds exceed its
    limits, or it holds none and the next record in turn does not fit by itself. *)
Definition batch_refusal (es : list Entry) (s0 : ConsumerState) (f0 : Offset -> option InFlight)
  (b0 : BrokerState) (e : BrokerError) (b' : BrokerState) : Prop :=
  held_unfit es f0 e \/
  (e = ConsumeBatchRecordTooLarge (max_bytes limits) /\
   (forall o i, f0 o = Some i -> if_member i <> ba_member req) /\
   exists d s, goes true 0 es d s b0 b' /\ next_unfit es s0 f0 d s b0 b' []).

Lemma held_unfit_ext es f f' e : (forall o, f o = f' o) -> held_unfit es f e -> held_unfit es f' e.
Proof. intros Hf (l & ms & H1 & H2 & H3 & H4). exists l, ms. split; [done|split; [done|split; [|done]]]. intros i. rewrite H3. by setoid_rewrite Hf. Qed.

Lemma next_unfit_ext es s0 f f' d s b0 b' ms :
  (forall o, f o = f' o) -> next_unfit es s0 f d s b0 b' ms -> next_unfit es s0 f' d s b0 b' ms.
Proof. intros Hf (o & e & H1 & H2 & H3 & H4). exists o, e. by rewrite <-Hf. Qed.

Lemma batch_full_ext es s0 f f' d s b0 b' ms :
  (forall o, f o = f' o) -> batch_full es s0 f d s b0 b' ms -> batch_full es s0 f' d s b0 b' ms.
Proof. intros Hf [H|[H|[H1 H2]]]; [by left|by right; left|right; right]. split; [done|by eapply next_unfit_ext]. Qed.

Lemma wp_poll_batch_step room es d b0 b :
  starts stream consumer A D room es d b0 b -> vec_len es <= room -> legacy = legacy_of b ->
  (forall o, exhausted_at legacy (durable_state (files_of b stream consumer) stream consumer) o = true -> D o) ->
  (forall d1 e b', (forall o, in_flight d1 !! (consumer, o) =
       if is_done (durable_state (files_of b stream consumer) stream consumer) o then None else in_flight d !! (consumer, o)) ->
     batch_refusal es (durable_state (files_of b stream consumer) stream consumer)
       (live consumer d1 (env_instant env (br_tick b))) b0 e b' -> R e b') ->
  wp (poll_batch_step env req)
    (fun step b' =>
       let s0 := durable_state (files_of b stream consumer) stream consumer in
       let now := env_instant env (br_tick b) in
       exists d1 now_ms n, now_ms = env_wall_ms env n /\ (br_tick b <= n)%nat /\
         (forall o, in_flight d1 !! (consumer, o) =
            if is_done s0 o then None else in_flight d !! (consumer, o)) /\
         batch_answer es s0 (live consumer d1 now) b0 b
           ((0 <? max_wait_ms limits) && (now <? ba_deadline req)) now_ms step b')
    (stops b0) b.
Proof.
  intros Hst Hroom Hleg HD HR. unfold poll_batch_step, instant_now. wp_step.
  assert (Ht0 : (br_tick b0 <= br_tick b)%nat) by (destruct Hst as [Hev _]; apply Hev).
  apply wp_get_stream; [|intros Hnone; destruct Hst as (_ & _ & _ & ss & Hss & _); congruence]. intros _ _. do 2 wp_step.
  set (now := env_instant env (br_tick b)). apply starts_ticked in Hst. set (b1 := ticked b _) in *. do 2 wp_step.
  change (policy_legacy _ _) with (legacy_of b). rewrite <-Hleg. wp_step.
  change (files_of b stream consumer) with (files_of b1 stream consumer) in *.
  eapply (wp_load env Henv); [exact Hst|]. intros s d1 b2 Hg2 Es Hin Ht2. rewrite Es in *.
  wp_step. apply wp_wall_clock. intros now_ms Hms. pose proof (eo_wall env Henv (br_tick b2)) as Hw.
  rewrite N.min_l in Hms by lia. apply goes_ticked in Hg2. wp_step.
  eapply (wp_observe env Henv stream consumer A D R legacy Hlegacy); [exact Hg2|].
  intros rs d3 b3 Hg3 Hlive Ht3. cbn in Ht2, Ht3. wp_step. eapply goes_locked; [exact Hg3|].
  intros ss Hss Hlog Hdel. wp_step. rewrite Hdel. pose proof Hg3 as [_ Hat3].
  destruct (at_state_facts _ _ _ _ _ _ _ _ Hat3) as (_ & _ & _ & Hdw & _).
  destruct (member_deliveries_spec d3 consumer (ba_member req) Hdw) as (l & -> & Hso & Hl & _). wp_step.
  destruct l as [|i l].
  - rewrite (search_fuel_log es ss Hlog). wp_step.
    pose proof (rounds_start es (foldl or_insert_schedule s rs)
      (retry_filter (foldl or_insert_schedule s rs) now_ms)) as Hr.
    assert (Hmine : forall o i, live consumer d1 now o = Some i -> if_member i <> ba_member req).
    { intros o i Hi Hm. rewrite <-Hlive in Hi. assert (Hx : i ∈ []) by (apply Hl; eauto). by apply not_elem_of_nil in Hx. }
    eapply (wp_batch_loop es s (live consumer d1 now) b0 HD).
    + intros d4 sel b4 r e Hb4 Ep Hun. apply (HR d1); [done|]. right. split; [done|]. split; [done|].
      exists d4, (bs_state sel). split; [apply (bt_goes _ _ _ _ _ _ _ _ Hb4)|].
      pose proof (unfit_next es s (live consumer d1 now) b0 d4 sel b4 Hb4 r e d4 (bs_state sel) b4 Hun) as Hn.
      rewrite Ep in Hn. apply Hn; [|done]. intros bound Hno.
      eapply (batch_settled es s (live consumer d1 now) b0 d4 sel b4 Hb4); try done.
      intros p Hp. rewrite Ep in Hp. by apply not_elem_of_nil in Hp.
    + eapply (batch_start room es d3 _ s (live consumer d1 now) now_ms (br_tick b2) b0 b3 rs); try done. lia.
    + cbn. lia.
    + cbn. unfold vec_len in Hroom. lia.
    + done.
    + intros d4 sel b4 Hb4 Hend Ht4.
      eapply wp_mono; [eapply (wp_batch_finish es s (live consumer d1 now) b0 d4 sel b4 b); [done|done|lia]| |done].
      intros step b' Hout. exists d1, now_ms, (br_tick b2). split_and!; [done|lia|done|]. right. by split.
  - eapply wp_mono; [eapply (wp_batch_held room es d3 _ ss (live consumer d1 now)); try done| |done].
    { intros e b' Hu. apply (HR d1); [done|by left]. }
    intros step b' (ms & -> & Ha). exists d1, now_ms, (br_tick b2). split_and!; [done|lia|done|]. left. eauto.
Qed.
End batch.
