(* ===== verification/BrokerAcks.v ===== *)
(** Specifications of the broker's acknowledgements, of single deliveries and
    of batches of receipts, and of the consumer policies. *)

From S2P Require Import Prelude Engine RecordFormat Names StreamLog ConsumerState DeliveryState Durability Broker BrokerInvariant BrokerEvents BrokerSteps BrokerDelivery BrokerSearch BrokerPoll.

Local Open Scope N_scope.

(** The deliveries that acknowledgements are checked against: unfinished ones
    whose lease has not lapsed at [now]. *)
Definition held_at (consumer : string) (d : DeliveryState) (s : ConsumerState) (now : N) (o : Offset) :
  option InFlight :=
  if is_done s o then None else live consumer d now o.

(** A delivery that the member may acknowledge with this token. *)
Definition accepted (member token : string) (i : InFlight) : Prop :=
  if_member i = member /\
  (if_requires_receipt i = true \/ token <> "" -> if_delivery_token i = token).

#[export] Instance accepted_dec member token i : Decision (accepted member token i).
Proof. unfold accepted. apply _. Defined.

(** Receipts always carry the token. *)
Definition receipted (member : string) (receipt : DeliveryReceipt) (i : InFlight) : Prop :=
  if_member i = member /\ dr_delivery_token receipt <> "" /\
  if_delivery_token i = dr_delivery_token receipt.

Lemma accepted_check member token i :
  (negb (bool_decide (if_member i = member))
   || (if_requires_receipt i || negb (bool_decide (token = "")))
      && negb (bool_decide (if_delivery_token i = token))) = false <-> accepted member token i.
Proof.
  unfold accepted. rewrite orb_false_iff, negb_false_iff, andb_false_iff, orb_false_iff,
    !negb_false_iff, !bool_decide_eq_true.
  destruct (if_requires_receipt i); split.
  - intros [? [[? ?]|?]]; done.
  - intros [? H]. split; [done|]. right. apply H. by left.
  - intros [? [[? Ht]|?]]; split; try done. by intros [?|?].
  - intros [? H]. split; [done|]. destruct (decide (token = "")); [by left|right]. apply H. by right.
Qed.

Section acks.
Context `{HC : ConsumerCodec} {HL : ConsumerCodecLaws HC}.
Context (env : Env) (Henv : env_ok env) (stream consumer : string).

(** ** Before the answer *)

Section arrive.
Context (A D : Offset -> Prop) (R : BrokerError -> BrokerState -> Prop).

Abbreviation goes := (goes stream consumer A D).
Abbreviation stops := (stops stream consumer A D R).
Abbreviation flight := (flight_of consumer).

(** Every request of a consumer starts by loading its state. *)
Lemma wp_fetch {B} room es d b (k : ConsumerState -> M B) (Q : B -> BrokerState -> Prop) :
  let s0 := durable_state (files_of b stream consumer) stream consumer in
  starts stream consumer A D room es d b b ->
  (forall d' b', goes true room es d' s0 b b' -> legacy_of b' = legacy_of b ->
     (br_tick b <= br_tick b')%nat ->
     (forall o, flight d' o = if is_done s0 o then None else flight d o) -> wp (k s0) Q (stops b) b') ->
  wp (do! get_stream stream in let! s := load_for_request env stream consumer in k s) Q (stops b) b.
Proof.
  intros s0 Hst HQ. wp_step.
  apply wp_get_stream; [|intros Hnone; destruct Hst as (_ & _ & _ & ss & Hss & _); congruence].
  intros _ _. wp_step. eapply (wp_load env Henv); [exact Hst|]. intros s d1 b1 Hg1 <- Hin Ht1.
  apply (HQ d1 b1 Hg1); [|done|done].
  pose proof Hg1 as [Hev _]. unfold legacy_of. by destruct (ev_config _ _ _ _ _ _ Hev) as [-> ->].
Qed.

(** An acknowledgement first drops what is finished and what has expired. *)
Lemma wp_arrive {B} room es d b (k : ConsumerPolicy -> ConsumerState -> M B) (Q : B -> BrokerState -> Prop) :
  let s0 := durable_state (files_of b stream consumer) stream consumer in
  starts stream consumer A D room es d b b ->
  (forall n rs d' b', goes true room es d' (foldl or_insert_schedule s0 rs) b b' ->
     (br_tick b <= n)%nat -> (forall o, flight d' o = held_at consumer d s0 (env_instant env n) o) ->
     wp (k (legacy_of b) (foldl or_insert_schedule s0 rs)) Q (stops b) b') ->
  wp (do! get_stream stream in
      let! s := load_for_request env stream consumer in
      let! legacy := legacy_policy in
      let! now := instant_now env in
      let! s := observe_expired_deliveries env stream consumer s legacy now in
      k legacy s) Q (stops b) b.
Proof.
  intros s0 Hst HQ. eapply wp_fetch; [exact Hst|]. fold s0. intros d1 b1 Hg1 Hleg Ht1 Hin. do 2 wp_step.
  change (policy_legacy _ _) with (legacy_of b1). rewrite Hleg. unfold instant_now. do 2 wp_step.
  apply goes_ticked in Hg1. wp_step.
  eapply (wp_observe env Henv); [apply legacy_of_timeout|exact Hg1|]. intros rs d2 b2 Hg2 Hlive Ht2.
  eapply (HQ (br_tick b1) rs d2); [exact Hg2|lia|]. intros o. unfold flight_of, held_at. rewrite Hlive.
  unfold flight_of in Hin. unfold live. rewrite Hin. by destruct (is_done s0 o).
Qed.

(** ** Confirming *)

Lemma wp_confirm {B} room es d s event os f (r : B) b0 b (Q : B -> BrokerState -> Prop) :
  goes true room es d s b0 b ->
  apply_event s event = Ok (foldl acknowledge s os) -> (forall d, f d = remove_all d consumer os) ->
  (forall o, o ∈ os -> A o) ->
  (forall d' b', goes true room es d' (foldl acknowledge s os) b0 b' ->
     (forall o, flight d' o = if bool_decide (o ∈ os) then None else flight d o) -> Q r b') ->
  wp (do! persist_or_reconcile env stream stream consumer s event in
      do! update_delivery stream f in
      do! cache_state env stream consumer (rename_state (foldl acknowledge s os) stream consumer) in
      do! notify_waiters stream in
      ret r) Q (stops b0) b.
Proof.
  intros Hg Hev Hfn HA HQ. wp_step. pose proof Hg as [_ Hat].
  destruct (at_state_facts _ _ _ _ _ _ _ _ Hat) as (Hwf & Hk & Hf & Hdw & _ & _ & Hs & Hc).
  destruct (at_state_settled _ _ _ _ _ _ _ Hat) as [Hun _].
  pose proof (acknowledged_in_turn es d consumer s os Hwf Hk Hf) as Haa.
  set (s' := foldl acknowledge s os) in *.
  eapply (wp_persist env Henv); [exact Hg|done|exact Hev|apply Haa|apply Haa|..].
  { intros o Ho. by rewrite (aa_done _ _ _ _ _ _ Haa), Ho. }
  { intros o. rewrite (aa_done _ _ _ _ _ _ Haa). intros [|Ho%bool_decide_eq_true]%orb_true_iff; auto. }
  intros b1 Hg1 Ht1 _. wp_step. pose proof Hg1 as [_ Hat1].
  destruct (remove_all_frame d consumer os) as [E1 E2].
  assert (Hl : forall o, in_flight (f d) !! (consumer, o) = if bool_decide (o ∈ os) then None else flight d o).
  { intros o. rewrite Hfn, remove_all_lookup. cbn. unfold flight_of.
    case_bool_decide; case_decide as Hx; try done; [|by destruct Hx]. by destruct Hx. }
  eapply (wp_update_delivery _ _ _ _ false false); [exact Hg1|..]; try done.
  - rewrite Hfn. by apply remove_all_wf.
  - intros c Hne. rewrite Hfn. by apply same_consumer_remove.
  - rewrite Hfn, E2. apply Hat.
  - eapply flying_subset; [|apply Haa]. intros o i. rewrite Hl. by case_bool_decide.
  - intros b2 Hg2 Ht2. wp_step.
    rewrite rename_same by (rewrite ?(aa_stream _ _ _ _ _ _ Haa), ?(aa_consumer _ _ _ _ _ _ Haa); done).
    eapply (wp_cache env Henv); [exact Hg2| |].
    + intros o. rewrite Hl. case_bool_decide as Hin; [by intros []|]. intros Hi.
      by rewrite (aa_done _ _ _ _ _ _ Haa), (Hun o Hi), bool_decide_eq_false_2.
    + intros d3 b3 Hg3 Ein _ _. wp_step. eapply wp_notify; [exact Hg3|]. intros b4 Hg4 _. wp_step.
      apply (HQ d3 b4 Hg4). intros o. unfold flight_of at 1. by rewrite Ein, Hl.
Qed.
End arrive.

(** ** One delivery *)

Section ack.
Context (member : string) (offset : Offset) (token : string).

(** What the acknowledgement is judged by. *)
Definition judged (b : BrokerState) (d : DeliveryState) (P : option InFlight -> Prop) : Prop :=
  let s0 := durable_state (files_of b stream consumer) stream consumer in
  exists n, (br_tick b <= n)%nat /\ P (held_at consumer d s0 (env_instant env n) offset).

Definition acceptable (held : option InFlight) : Prop :=
  exists i, held = Some i /\ accepted member token i.

Definition ack_cause (b : BrokerState) (d : DeliveryState) (o : Offset) : Prop :=
  o = offset /\ judged b d acceptable.

Definition ack_rejection (b : BrokerState) (d : DeliveryState) (e : BrokerError) : Prop :=
  is_done (durable_state (files_of b stream consumer) stream consumer) offset = false /\
  judged b d (fun held => ~ acceptable held /\
    e = if bool_decide (held = None) && bool_decide (token = "") then AckNotInFlight consumer offset
        else StaleDelivery consumer offset).

Definition ack_answer (room : N) (es : list Entry) (d : DeliveryState) (b : BrokerState) (res : AckResult)
  (b' : BrokerState) : Prop :=
  let s0 := durable_state (files_of b stream consumer) stream consumer in
  exists d' s' n, goes stream consumer (ack_cause b d) (fun _ => False) true room es d' s' b b' /\
    (br_tick b <= n)%nat /\
    let held := held_at consumer d s0 (env_instant env n) in
    match res with
    | AlreadyAcknowledged => is_done s0 offset = true /\ (forall o, is_done s' o = is_done s0 o) /\
        (forall o, flight_of consumer d' o = held o)
    | Acknowledged => is_done s0 offset = false /\ acceptable (held offset) /\
        (forall o, is_done s' o = is_done s0 o || (o =? offset)) /\
        (forall o, flight_of consumer d' o = if o =? offset then None else held o)
    end.

Lemma wp_ack_group room es d b :
  valid_name stream -> valid_name consumer -> valid_name member ->
  starts stream consumer (ack_cause b d) (fun _ => False) room es d b b ->
  wp (ack_group env stream consumer member offset token) (ack_answer room es d b)
    (stops stream consumer (ack_cause b d) (fun _ => False) (fun e _ => ack_rejection b d e) b) b.
Proof.
  intros Hv1 Hv2 Hv3 Hst. unfold ack_group.
  rewrite (validate_name_valid _ stream), (validate_name_valid _ consumer), (validate_name_valid _ member) by done.
  do 6 wp_step. eapply (wp_arrive _ _ _ room es d); [exact Hst|]. set (s0 := durable_state _ _ _).
  intros n rs d1 b1 Hg1 Hn Hfl. set (s1 := foldl or_insert_schedule s0 rs) in *.
  assert (Hdone : forall o, is_done s1 o = is_done s0 o).
  { intros o. destruct (or_insert_schedules_frame s0 rs) as (E1 & E2 & _). unfold is_done, s1. by rewrite E1, E2. }
  assert (Halready : is_done s1 offset = true -> ack_answer room es d b AlreadyAcknowledged b1).
  { intros Hd. exists d1, s1, n. split_and!; try done. by rewrite <-Hdone. }
  unfold is_done in Halready. destruct (offset <? committed_offset s1) eqn:E1; [wp_step; by apply Halready|].
  destruct (bool_decide (offset ∈ acknowledged_offsets s1)) eqn:E2; [wp_step; by apply Halready|].
  assert (Hd0 : is_done s0 offset = false) by (rewrite <-Hdone; unfold is_done; by rewrite E1, E2).
  wp_step. eapply goes_locked; [exact Hg1|]. intros ss Hss Hlog Hdel. rewrite Hdel.
  change (get_in_flight d1 consumer offset) with (flight_of consumer d1 offset). rewrite Hfl.
  destruct (held_at consumer d s0 (env_instant env n) offset) as [i|] eqn:Eh.
  - destruct (negb _ || _) eqn:Ec.
    + wp_step. eapply goes_stops; [exact Hg1|]. right. split; [done|]. exists n. fold s0. rewrite Eh.
      split_and!; [done| |by rewrite bool_decide_eq_false_2].
      intros (i' & [= <-] & Ha%accepted_check). congruence.
    + apply accepted_check in Ec.
      eapply (wp_confirm _ _ _ room es d1 s1 _ [offset]); [exact Hg1|done|done|..].
      * intros o ->%list_elem_of_singleton. split; [done|]. exists n. fold s0. rewrite Eh. by split; [|exists i].
      * intros d2 b2 Hg2 Hfl2. exists d2, (acknowledge s1 offset), n. fold s0.
        pose proof Hg1 as [_ Hat1]. destruct (at_state_facts _ _ _ _ _ _ _ _ Hat1) as (Hwf1 & _).
        cbv zeta. split_and!; try done; [by exists i| |].
        -- intros o. by rewrite acknowledge_done, Hdone.
        -- intros o. rewrite Hfl2, Hfl.
           destruct (N.eqb_spec o offset) as [->|Hne]; [rewrite bool_decide_eq_true_2; [done|by left]|].
           rewrite bool_decide_eq_false_2; [done|]. by intros ?%list_elem_of_singleton.
  - assert (Hrej : ack_rejection b d (if bool_decide (token = "") then AckNotInFlight consumer offset
      else StaleDelivery consumer offset)).
    { split; [done|]. exists n. fold s0. rewrite Eh. split_and!; [done|by intros (? & ? & _)|done]. }
    assert (Hend : forall d2 s2 b2, goes stream consumer (ack_cause b d) (fun _ => False) true room es d2 s2 b b2 ->
      wp (if bool_decide (token = "") then fail (AckNotInFlight consumer offset)
          else fail (StaleDelivery consumer offset)) (ack_answer room es d b)
        (stops stream consumer (ack_cause b d) (fun _ => False) (fun e _ => ack_rejection b d e) b) b2).
    { intros d2 s2 b2 Hg2. destruct (bool_decide (token = "")); wp_step; (eapply goes_stops; [exact Hg2|by right]). }
    wp_step. destruct (bool_decide (is_Some _)); [|wp_step; by eapply Hend]. wp_step.
    eapply (wp_orphan env Henv stream consumer _ _ _ (legacy_of b)); [apply legacy_of_timeout|exact Hg1|..].
    + intros b2 Hg2 _ _. wp_step. by eapply Hend.
    + intros r m p d2 b2 Hg2 _ _ _ _ _ _ _ _ _ _. wp_step. by eapply Hend.
Qed.
End ack.

(** ** A batch of receipts *)

Section ack_batch.
Context (member : string) (receipts : list DeliveryReceipt).

(** The answer for one receipt, from the consumer's progress and the delivery
    that is held. *)
Definition verdict (s : ConsumerState) (held : option InFlight) (receipt : DeliveryReceipt) :
  AckBatchOutcome :=
  if is_done s (dr_offset receipt) then AlreadyConfirmed
  else if bool_decide (dr_delivery_token receipt = "") then ReceiptRejected StaleDeliveryReceipt
  else
    match held with
    | Some i =>
      if bool_decide (if_member i = member) && bool_decide (if_delivery_token i = dr_delivery_token receipt)
      then Confirmed else ReceiptRejected StaleDeliveryReceipt
    | None =>
      if bool_decide (is_Some (delivery_attempts s !! dr_offset receipt))
      then ReceiptRejected StaleDeliveryReceipt else ReceiptRejected NotInFlight
    end.

Lemma receipt_judgement_verdict s d receipt :
  receipt_judgement s d consumer member receipt = verdict s (flight_of consumer d (dr_offset receipt)) receipt.
Proof.
  unfold receipt_judgement, verdict. fold (is_done s (dr_offset receipt)).
  destruct (is_done _ _); [done|]. destruct (bool_decide (_ = "")); [done|].
  unfold get_in_flight, flight_of. destruct (in_flight d !! _) as [i|]; [|done].
  by destruct (bool_decide (if_member i = member)), (bool_decide (if_delivery_token i = _)).
Qed.

Lemma verdict_confirmed s held receipt :
  verdict s held receipt = Confirmed <->
  is_done s (dr_offset receipt) = false /\ exists i, held = Some i /\ receipted member receipt i.
Proof.
  unfold verdict, receipted. destruct (is_done _ _); [naive_solver|].
  case_bool_decide; [naive_solver|]. destruct held as [i|]; [|case_bool_decide; naive_solver].
  repeat case_bool_decide; naive_solver.
Qed.

(** The verdict depends on the progress of the state only. *)
Lemma verdict_progress s s' held receipt :
  (forall o, is_done s' o = is_done s o) -> delivery_attempts s' = delivery_attempts s ->
  verdict s' held receipt = verdict s held receipt.
Proof. intros Hd Ha. unfold verdict. by rewrite Hd, Ha. Qed.

Definition judgement (s : ConsumerState) (held : Offset -> option InFlight) (receipt : DeliveryReceipt) :
  AckBatchItem :=
  {| abi_offset := dr_offset receipt; abi_outcome := verdict s (held (dr_offset receipt)) receipt |}.

Lemma wp_judge_receipts A D R room es rs outcomes legacy d s b0 b
  (Q : ConsumerState * list AckBatchItem -> BrokerState -> Prop) :
  ack_timeout_ms legacy <= u64_max -> goes stream consumer A D true room es d s b0 b ->
  (forall s' d' b', goes stream consumer A D true room es d' s' b0 b' ->
     (forall o, is_done s' o = is_done s o) -> delivery_attempts s' = delivery_attempts s ->
     in_flight d' = in_flight d ->
     Q (s', outcomes ++ (judgement s (flight_of consumer d) <$> rs)) b') ->
  wp (judge_receipts env stream consumer member legacy s rs outcomes) Q (stops stream consumer A D R b0) b.
Proof.
  intros Hleg. revert outcomes d s b. induction rs as [|r rs IH]; intros outcomes d s b Hg HQ; cbn [judge_receipts].
  { wp_step. rewrite <-(app_nil_r outcomes). by apply (HQ s d). }
  wp_step. eapply goes_locked; [exact Hg|]. intros ss Hss Hlog Hdel. wp_step.
  assert (Hnext : forall s1 d1 b1, goes stream consumer A D true room es d1 s1 b0 b1 ->
    (forall o, is_done s1 o = is_done s o) -> delivery_attempts s1 = delivery_attempts s ->
    in_flight d1 = in_flight d ->
    wp (let! ss := locked stream in
        judge_receipts env stream consumer member legacy s1 rs
          (outcomes ++ [{| abi_offset := dr_offset r;
             abi_outcome := receipt_judgement s1 (ss_delivery ss) consumer member r |}]))
      Q (stops stream consumer A D R b0) b1).
  { intros s1 d1 b1 Hg1 Hd1 Ha1 Ein. wp_step. eapply goes_locked; [exact Hg1|]. intros ss1 _ _ Hdel1.
    rewrite Hdel1, receipt_judgement_verdict, (verdict_progress s) by done.
    eapply IH; [exact Hg1|]. intros s2 d2 b2 Hg2 Hd2 Ha2 Ein2.
    replace (_ ++ _) with (outcomes ++ (judgement s (flight_of consumer d) <$> r :: rs)).
    { apply (HQ s2 d2 b2 Hg2); [intros o; by rewrite Hd2|by rewrite Ha2|by rewrite Ein2]. }
    rewrite <-app_assoc, fmap_cons. f_equal. cbn [app]. unfold judgement, flight_of. rewrite Ein. f_equal.
    apply list_fmap_ext. intros _ r' _. by rewrite (verdict_progress s s1). }
  destruct (bool_decide _ && _); [|wp_step; by apply (Hnext s d b)].
  eapply (wp_orphan env Henv stream consumer A D R legacy Hleg); [exact Hg|..].
  - intros b1 Hg1 _ _. by apply (Hnext s d b1).
  - intros sch n p d1 b1 Hg1 Ein _ _ _ _ _ _ _ _ _. by apply (Hnext (preview_retry s sch) d1 b1).
Qed.

Definition receipts_cause (b : BrokerState) (d : DeliveryState) (o : Offset) : Prop :=
  let s0 := durable_state (files_of b stream consumer) stream consumer in
  exists r i n, r ∈ receipts /\ dr_offset r = o /\ (br_tick b <= n)%nat /\
    held_at consumer d s0 (env_instant env n) o = Some i /\ receipted member r i.

Definition ack_batch_answer (room : N) (es : list Entry) (d : DeliveryState) (b : BrokerState)
  (outcomes : list AckBatchItem) (b' : BrokerState) : Prop :=
  let s0 := durable_state (files_of b stream consumer) stream consumer in
  exists d' s' n, goes stream consumer (receipts_cause b d) (fun _ => False) true room es d' s' b b' /\
    (br_tick b <= n)%nat /\
    let held := held_at consumer d s0 (env_instant env n) in
    outcomes = (judgement s0 held <$> receipts) /\
    (forall o, is_done s' o = is_done s0 o || bool_decide (o ∈ confirmed_offsets outcomes)) /\
    (forall o, flight_of consumer d' o =
       if bool_decide (o ∈ confirmed_offsets outcomes) then None else held o).

Lemma elem_of_confirmed s held rs o :
  o ∈ confirmed_offsets (judgement s held <$> rs) <->
  exists r i, r ∈ rs /\ dr_offset r = o /\ is_done s o = false /\ held o = Some i /\ receipted member r i.
Proof.
  unfold confirmed_offsets. rewrite list_elem_of_fmap. setoid_rewrite list_elem_of_filter.
  setoid_rewrite list_elem_of_fmap. split.
  - intros (item & -> & Hc & r & -> & Hr). cbn in Hc |- *. apply verdict_confirmed in Hc as (Hd & i & Hi & Hx). eauto 10.
  - intros (r & i & Hr & <- & Hd & Hi & Hx). exists (judgement s held r). split_and!; [done| |eauto].
    cbn. apply verdict_confirmed. eauto.
Qed.

Lemma wp_ack_batch room es d b R :
  valid_name stream -> valid_name consumer -> valid_name member ->
  validate_ack_batch_receipts receipts = Ok tt ->
  starts stream consumer (receipts_cause b d) (fun _ => False) room es d b b ->
  wp (ack_batch env stream consumer member receipts) (ack_batch_answer room es d b)
    (stops stream consumer (receipts_cause b d) (fun _ => False) R b) b.
Proof.
  intros Hv1 Hv2 Hv3 Hv4 Hst. unfold ack_batch.
  rewrite (validate_name_valid _ stream), (validate_name_valid _ consumer), (validate_name_valid _ member), Hv4 by done.
  do 8 wp_step. eapply (wp_arrive _ _ _ room es d); [exact Hst|]. set (s0 := durable_state _ _ _).
  intros n rs d1 b1 Hg1 Hn Hfl. set (s1 := foldl or_insert_schedule s0 rs) in *.
  destruct (or_insert_schedules_frame s0 rs) as (E1 & E2 & E3 & _).
  assert (Hdone : forall o, is_done s1 o = is_done s0 o) by (intros o; unfold is_done, s1; by rewrite E1, E2).
  wp_step. eapply wp_judge_receipts; [apply legacy_of_timeout|exact Hg1|].
  intros s2 d2 b2 Hg2 Hd2 Ha2 Ein. cbn [app].
  set (held := held_at consumer d s0 (env_instant env n)) in *.
  assert (Hout : judgement s1 (flight_of consumer d1) <$> receipts = judgement s0 held <$> receipts).
  { apply list_fmap_ext. intros _ r _. unfold judgement. by rewrite Hfl, (verdict_progress s0). }
  rewrite Hout. set (outcomes := judgement s0 held <$> receipts).
  assert (Hend : forall d' s' b', goes stream consumer (receipts_cause b d) (fun _ => False) true room es d' s' b b' ->
    (forall o, is_done s' o = is_done s0 o || bool_decide (o ∈ confirmed_offsets outcomes)) ->
    (forall o, flight_of consumer d' o = if bool_decide (o ∈ confirmed_offsets outcomes) then None else held o) ->
    ack_batch_answer room es d b outcomes b').
  { intros d' s' b' Hg' H1 H2. exists d', s', n. split_and!; done. }
  assert (Hfl2 : forall o, flight_of consumer d2 o = held o) by (intros o; rewrite <-Hfl; unfold flight_of; by rewrite Ein).
  destruct (confirmed_offsets outcomes) as [|o0 os] eqn:Eos.
  - wp_step. apply (Hend d2 s2 b2 Hg2); [|exact Hfl2]. intros o. by rewrite Hd2, Hdone, orb_false_r.
  - rewrite <-Eos in *. eapply (wp_confirm _ _ _ room es d2 s2); [exact Hg2|done|done|..].
    + intros o (r & i & Hr & Ho & _ & Hi & Hx)%elem_of_confirmed. by exists r, i, n.
    + intros d3 b3 Hg3 Hfl3. eapply (Hend d3 _ b3 Hg3); [|intros o; by rewrite Hfl3, Hfl2].
      intros o. pose proof Hg2 as [_ Hat2]. destruct (at_state_facts _ _ _ _ _ _ _ _ Hat2) as (Hwf & Hk & Hf & _).
      by rewrite (aa_done _ _ _ _ _ _ (acknowledged_in_turn es d2 consumer s2 _ Hwf Hk Hf)), Hd2, Hdone.
Qed.
End ack_batch.

(** ** Policies *)

Section policy.
Abbreviation nothing := (fun _ : Offset => False).

Definition policy_answer (room : N) (es : list Entry) (timeout : N) (attempts : option N) (delay : N)
  (b : BrokerState) (p : ConsumerPolicy) (b' : BrokerState) : Prop :=
  let s0 := durable_state (files_of b stream consumer) stream consumer in
  ack_timeout_ms p = timeout /\ max_delivery_attempts p = attempts /\ retry_delay_ms p = delay /\
  exists d', goes stream consumer nothing nothing true room es d' (set_policy s0 (Some p)) b b' /\
    match cs_policy s0 with
    | Some old => p = old \/ policy_version p = u64_saturating_add (policy_version old) 1
    | None => policy_version p = 1
    end.

Lemma set_policy_same s p : cs_policy s = Some p -> set_policy s (Some p) = s.
Proof. intros E. destruct s; cbn in *. by rewrite E. Qed.

Lemma wp_configure room es d timeout attempts delay b R :
  valid_name stream -> valid_name consumer -> validate_consumer_policy timeout attempts delay = Ok tt ->
  starts stream consumer nothing nothing room es d b b ->
  wp (configure_consumer env stream consumer timeout attempts delay)
    (policy_answer room es timeout attempts delay b) (stops stream consumer nothing nothing R b) b.
Proof.
  intros Hv1 Hv2 Hv3 Hst.
  assert (Hto : timeout <= u64_max).
  { unfold validate_consumer_policy in Hv3.
    destruct (N.ltb_spec MAX_CONSUMER_POLICY_ACK_TIMEOUT_MS timeout); [done|].
    unfold MAX_CONSUMER_POLICY_ACK_TIMEOUT_MS, u64_max in *. lia. }
  unfold configure_consumer.
  rewrite (validate_name_valid _ stream), (validate_name_valid _ consumer), Hv3 by done. do 6 wp_step.
  eapply wp_fetch; [exact Hst|]. set (s0 := durable_state _ _ _). intros d1 b1 Hg1 _ _ _.
  destruct (policy_unchanged s0 timeout attempts delay) as [old|] eqn:Eu.
  - wp_step. unfold policy_unchanged in Eu. destruct (cs_policy s0) as [p|] eqn:Ep; [|done].
    destruct (_ && _) eqn:Ec; [|done]. injection Eu as <-.
    apply andb_true_iff in Ec as [[E1%N.eqb_eq E2%bool_decide_eq_true]%andb_true_iff E3%N.eqb_eq].
    split_and!; try done. exists d1. fold s0. rewrite set_policy_same, Ep by done. by split; [|left].
  - set (version := match cs_policy s0 with Some _ => _ | None => 1 end).
    assert (Hversion : (version =? 0) = false).
    { apply N.eqb_neq. unfold version, u64_saturating_add, saturating_add, u64_max. destruct (cs_policy s0); lia. }
    cbv zeta. rewrite Hversion. wp_step. pose proof Hg1 as [_ Hat].
    destruct (at_state_facts _ _ _ _ _ _ _ _ Hat) as (_ & Hk & Hf & _ & _ & _ & Hs & Hc).
    destruct (at_state_settled _ _ _ _ _ _ _ Hat) as [Hun _].
    set (p := policy_configured version timeout attempts delay). set (s' := set_policy s0 (Some p)).
    eapply (wp_persist env Henv _ _ _ _ _ room es d1 s0 s'); [exact Hg1|done| | |done|done|by left|].
    { cbn. unfold validate_policy. cbn. by rewrite Hversion, Hv3. }
    { destruct Hk as [H1 H2 H3 H4]. split; try done. cbn. by intros p' [= <-]. }
    intros b2 Hg2 _ _. wp_step. rewrite rename_same by done.
    eapply (wp_cache env Henv); [exact Hg2|exact Hun|]. intros d3 b3 Hg3 _ _ _. wp_step.
    eapply wp_notify; [exact Hg3|]. intros b4 Hg4 _. wp_step. split_and!; try done.
    exists d3. split; [exact Hg4|]. fold s0. unfold p, version. cbn. destruct (cs_policy s0); [by right|done].
Qed.

Lemma wp_inspect room es d b R :
  valid_name stream -> valid_name consumer -> starts stream consumer nothing nothing room es d b b ->
  wp (inspect_consumer env stream consumer)
    (fun p b' => let s0 := durable_state (files_of b stream consumer) stream consumer in
       p = default (legacy_of b) (cs_policy s0) /\
       exists d', goes stream consumer nothing nothing true room es d' s0 b b')
    (stops stream consumer nothing nothing R b) b.
Proof.
  intros Hv1 Hv2 Hst. unfold inspect_consumer.
  rewrite (validate_name_valid _ stream), (validate_name_valid _ consumer) by done. do 4 wp_step.
  eapply wp_fetch; [exact Hst|]. set (s0 := durable_state _ _ _). intros d1 b1 Hg1 Hleg _ _. fold s0.
  destruct (cs_policy s0) as [p|]; wp_step; [by split; [|exists d1]|].
  change (policy_legacy _ _) with (legacy_of b1). rewrite Hleg. split; [done|by exists d1].
Qed.
End policy.
End acks.
