(* ===== verification/BrokerPublish.v ===== *)
(** Specifications of the broker's operations on streams: create, publish,
    batch publish and replay. *)

From S2P Require Import Prelude Engine RecordFormat Names StreamLog ConsumerState DeliveryState Durability Broker BrokerInvariant BrokerSteps BrokerDeadLetters.

Local Open Scope N_scope.

(** The records of a stream; a stream that does not exist has none. *)
Definition history (stream : string) (b : BrokerState) (es : list Entry) : Prop :=
  match br_streams b !! stream with
  | Some ss => represents (ss_log ss) es
  | None => es = []
  end.

(** The wakeups sent to the waiters of a stream. *)
Definition wakeups (stream : string) (b : BrokerState) : N :=
  match br_streams b !! stream with Some ss => ss_notified ss | None => 0 end.

Lemma history_inj stream b es es' : history stream b es -> history stream b es' -> es = es'.
Proof.
  unfold history. destruct (br_streams b !! stream); [apply represents_inj|congruence].
Qed.

Section publish.
Context `{HC : ConsumerCodec} {HL : ConsumerCodecLaws HC}.
Context (env : Env) (Henv : env_ok env) (stream : string).

(** Only the log of the stream has grown. *)
Record grown (b b' : BrokerState) : Prop := {
  gr_config : br_ack_timeout b' = br_ack_timeout b /\
    br_max_delivery_attempts b' = br_max_delivery_attempts b;
  gr_tick : (br_tick b <= br_tick b')%nat;
  gr_files : br_consumers b' = br_consumers b;
  gr_others n : n <> stream -> br_streams b' !! n = br_streams b !! n;
  gr_stream ss : br_streams b !! stream = Some ss -> exists ss', br_streams b' !! stream = Some ss' /\
    extends (ss_log ss) (ss_log ss') /\ ss_delivery ss' = ss_delivery ss;
}.

Lemma grown_refl b : grown b b.
Proof. split; eauto using extends_refl. Qed.

Lemma grown_evolves n c A D b b' : grown b b' -> evolves n c A D b b'.
Proof.
  intros [Hc Ht Hf Ho Hs].
  assert (E : files_of b' n c = files_of b n c) by (unfold files_of; by rewrite Hf).
  split; rewrite ?E, ?Hf; auto. intros n' ss Hn. destruct (decide (n' = stream)) as [->|Hne].
  - destruct (Hs ss Hn) as (ss' & Hss' & Hx & Hd). exists ss'. rewrite Hd. done.
  - exists ss. rewrite Ho by done. split_and!; [done|apply extends_refl|done|done].
Qed.

Lemma grown_ticked b n : (br_tick b <= n)%nat -> grown b (ticked b n).
Proof. intros Hn. split; eauto using extends_refl. Qed.

Lemma extends_trans l1 l2 l3 : extends l1 l2 -> extends l2 l3 -> extends l1 l3.
Proof.
  intros H12 H23 es Hes. destruct (H12 es Hes) as [es2 Hes2]. destruct (H23 _ Hes2) as [es3 Hes3].
  exists (es2 ++ es3). by rewrite app_assoc.
Qed.

Lemma grown_trans b1 b2 b3 : grown b1 b2 -> grown b2 b3 -> grown b1 b3.
Proof.
  intros [[? ?] ? F1 O1 S1] [[? ?] ? F2 O2 S2]. split; [split; congruence|lia|congruence| |].
  - intros n Hn. by rewrite O2, O1.
  - intros ss Hss. destruct (S1 ss Hss) as (ss2 & Hss2 & X2 & D2).
    destruct (S2 ss2 Hss2) as (ss3 & Hss3 & X3 & D3). exists ss3. split_and!; [done| |congruence].
    by eapply extends_trans.
Qed.

(** A change of the log, alone. *)
Lemma grown_change b b' tss' tes :
  log_change b stream tss' tes -> br_streams b' = <[stream := tss']> (br_streams b) ->
  br_consumers b' = br_consumers b -> br_ack_timeout b' = br_ack_timeout b ->
  br_max_delivery_attempts b' = br_max_delivery_attempts b -> (br_tick b <= br_tick b')%nat ->
  grown b b'.
Proof.
  intros Hch Hst Hco Hc1 Hc2 Ht. split; try done; rewrite Hst.
  - intros n Hne. by rewrite lookup_insert_ne.
  - intros ss Hss. rewrite lookup_insert_eq. exists tss'. split; [done|].
    destruct Hch as [|tss tss1 tes0 tes' Ht' Hok El Ed Hent Hlen]; [congruence|]. simplify_eq.
    split; [|done]. intros es Hes. exists tes'.
    rewrite (represents_inj _ _ _ Hes (so_represents _ _ _ _ _ Hok)). by split.
Qed.

(** ** Finding or creating the stream *)

Definition ready (es : list Entry) (b0 b : BrokerState) : Prop :=
  history stream b0 es /\ inv None b /\ grown b0 b /\ wakeups stream b = wakeups stream b0 /\
  exists ss, br_streams b !! stream = Some ss /\ stream_ok (settled_for None stream) b stream ss es.

Lemma ready_known b ss :
  inv None b -> br_streams b !! stream = Some ss -> exists es, ready es b b.
Proof.
  intros Hi Hss. destruct (inv_streams _ _ Hi _ _ Hss) as (es & Hok). exists es.
  split_and!; [|done|apply grown_refl|done|by exists ss].
  unfold history. rewrite Hss. by eapply so_represents.
Qed.

Lemma wp_insert_stream b (Q : unit -> BrokerState -> Prop) (E : BrokerError -> BrokerState -> Prop) :
  inv None b -> valid_name stream -> br_streams b !! stream = None ->
  (forall b', ready [] b b' -> Q tt b') ->
  (forall kind b', inv None b' -> grown b b' -> br_streams b' = br_streams b ->
     E (Io kind "create failed") b') ->
  wp (insert_stream env stream) Q E b.
Proof.
  intros Hi Hv Hnone HQ HE. unfold insert_stream. do 2 wp_step.
  assert (Hi1 : inv None (ticked b (S (br_tick b)))) by (by apply inv_counters).
  destruct (env_create env _); wp_step.
  { apply HE; [done| |done]. apply grown_ticked. lia. }
  assert (Hch : log_change b stream (stream_new log_create) []) by (by apply log_new).
  apply HQ. set (b' := set_streams _ _).
  assert (Hi' : inv None b') 
    by (eapply inv_other; [exact Hi1|exact Hv|by apply log_new|done|done]).
  split_and!.
  - unfold history. by rewrite Hnone.
  - done.
  - eapply grown_change; [exact Hch|done..|cbn; lia].
  - unfold wakeups. cbn. by rewrite lookup_insert_eq, Hnone.
  - exists (stream_new log_create). cbn. rewrite lookup_insert_eq. split; [done|].
    destruct (log_change_ok b stream _ _ Hi Hv Hch) as [? ? ? ? ? Hc]. split; try done.
Qed.

Lemma wp_get_or_create b (Q : unit -> BrokerState -> Prop) (E : BrokerError -> BrokerState -> Prop) :
  inv None b -> valid_name stream -> (forall es b', ready es b b' -> Q tt b') ->
  (forall kind b', inv None b' -> grown b b' -> br_streams b' = br_streams b -> br_streams b !! stream = None ->
     E (Io kind "create failed") b') ->
  wp (get_or_create_stream env stream) Q E b.
Proof.
  intros Hi Hv HQ HE. unfold get_or_create_stream. do 2 wp_step. case_bool_decide as Hknown.
  - wp_step. destruct Hknown as [ss Hss]. destruct (ready_known b ss Hi Hss) as [es Hr]. by apply (HQ es).
  - apply eq_None_not_Some in Hknown. apply wp_insert_stream; [done|done|done| |by eauto]. intros b' Hr. by apply (HQ []).
Qed.

(** The log of a stream that is ready becomes longer; its waiters may be woken. *)
Lemma ready_longer es es' b0 b b' ss ss' :
  ready es b0 b -> valid_name stream -> br_streams b !! stream = Some ss ->
  Forall entry_ok (es ++ es') -> vec_len (es ++ es') <= u64_max ->
  ss_log ss' = log_of (es ++ es') -> ss_delivery ss' = ss_delivery ss ->
  br_streams b' = <[stream := ss']> (br_streams b) -> br_consumers b' = br_consumers b ->
  br_ack_timeout b' = br_ack_timeout b -> br_max_delivery_attempts b' = br_max_delivery_attempts b ->
  (br_tick b <= br_tick b')%nat ->
  inv None b' /\ grown b0 b' /\ history stream b' (es ++ es') /\ wakeups stream b' = ss_notified ss'.
Proof.
  intros (Hh & Hi & Hgr & _ & ss1 & Hss1 & Hok) Hv Hss Hent Hlen El Ed Hst Hco Hc1 Hc2 Ht.
  rewrite Hss in Hss1. injection Hss1 as <-.
  assert (Hch : log_change b stream ss' (es ++ es')) by (by apply (log_more _ _ ss)).
  split_and!.
  - by eapply inv_other.
  - eapply grown_trans; [exact Hgr|]. by eapply grown_change.
  - unfold history. rewrite Hst, lookup_insert_eq. by split_and!.
  - unfold wakeups. by rewrite Hst, lookup_insert_eq.
Qed.

(** ** Publishing *)

(** The outcome [out] of publishing [r] is that of the abstract step on the
    stream's history; a record that was appended wakes the waiters. *)
Definition publishes (r : PublishRecord) (out : Result Offset BrokerError) (b b' : BrokerState) : Prop :=
  inv None b' /\ grown b b' /\ exists es es' now, history stream b es /\ history stream b' es' /\
    publish_step now es r out es' /\
    wakeups stream b' = wakeups stream b + (vec_len es' - vec_len es).

Definition create_fails (e : BrokerError) (b b' : BrokerState) : Prop :=
  inv None b' /\ grown b b' /\ br_streams b' = br_streams b /\ br_streams b !! stream = None /\
  exists kind, e = Io kind "create failed".

(** A step that leaves the log as it is. *)
Lemma publishes_same r out es now b0 b :
  ready es b0 b -> publish_step now es r out es -> publishes r out b0 b.
Proof.
  intros (Hh & Hi & Hgr & Hw & ss & Hss & Hok) Hstep. split_and!; [done|done|].
  exists es, es, now. split_and!; [done| |done|lia].
  unfold history. rewrite Hss. by eapply so_represents.
Qed.

Section publish_one.
Context (key : option string) (payload : list byte) (request_id : option string).
Let r := {| pr_key := key; pr_payload := payload; pr_request_id := request_id |}.
Context (Hname : valid_name stream) (Hr : publishable r).

Lemma append_identity io log :
  match request_id with
  | Some request_id => append_with_request_id io log key payload request_id
  | None => log_append io log key payload
  end = append_record_with_sync io log key payload (publish_identity r) true.
Proof. unfold publish_identity, r. cbn. by destruct request_id. Qed.

(** The append at the end of a publish. *)
Lemma wp_append es b0 b ss :
  ready es b0 b -> br_streams b !! stream = Some ss -> vec_len es < u64_max -> published es r = None ->
  wp (let! io := effect (env_append env) in
      let '(result, log) :=
        match request_id with
        | Some request_id => append_with_request_id io (ss_log ss) key payload request_id
        | None => log_append io (ss_log ss) key payload
        end in
      do! put_stream stream (set_log ss log) in
      let! offset := lift result in
      do! notify_waiters stream in
      ret offset)
    (fun offset b' => publishes r (Ok offset) b0 b') (fun e b' => publishes r (Err e) b0 b') b.
Proof.
  intros Hrdy Hss Hlen Hnew. pose proof Hrdy as (Hh & Hi & Hgr & Hw & ss1 & Hss1 & Hok).
  rewrite Hss in Hss1. injection Hss1 as <-. do 2 wp_step. set (io := env_append env (br_tick b)).
  assert (Hio : io_ok io) by apply Henv. rewrite append_identity.
  destruct (so_represents _ _ _ _ _ Hok) as (Hlog & Hent & Hle). rewrite Hlog.
  assert (Hww : wakeups stream b = ss_notified ss) by (unfold wakeups; by rewrite Hss).
  destruct (decide (size_ok key payload (publish_identity r))) as [Hs|Hs].
  - pose proof (entry_of_ok io r Hio Hr Hs) as Hnewok. set (e := entry_of _ _ _ _) in Hnewok.
    rewrite append_record_log_of by (done || apply Hio). fold e.
    assert (Hent' : Forall entry_ok (es ++ [e])) by (apply Forall_app; by split; [|apply Forall_singleton]).
    assert (Hlen' : vec_len (es ++ [e]) = vec_len es + 1) by (by rewrite vec_len_app).
    do 5 wp_step. unfold notify_waiters. wp_step.
    eapply wp_locked; [by cbn; rewrite lookup_insert_eq|]. do 2 wp_step.
    match goal with |- publishes _ _ _ ?x => set (b' := x) end.
    destruct (ready_longer es [e] b0 b b' ss {| ss_log := log_of (es ++ [e]);
      ss_delivery := ss_delivery ss; ss_notified := ss_notified ss + 1 |}) as (Hi' & Hg' & Hh' & Hw'); try done.
    + lia.
    + cbn. by rewrite insert_insert_eq.
    + cbn. lia.
    + split_and!; [done|done|]. exists es, (es ++ [e]), (io_now_ms io).
      split_and!; [done|done|by apply publish_new|]. rewrite Hw', <-Hw, Hww, Hlen'. cbn. lia.
  - destruct (append_record_rejects io (log_of es) key payload _ true Hs) as [m ->].
    do 4 wp_step. eapply (publishes_same r _ es (io_now_ms io)); [|by apply publish_oversized].
    assert (Hsame : set_log ss (log_of es) = ss) by (rewrite <-Hlog; by destruct ss).
    rewrite Hsame. cbn [br_streams set_counters]. rewrite insert_id by done.
    change (ready es b0 (ticked b (S (br_tick b)))). split_and!; [done|by apply inv_counters| |done|exists ss; split; [done|by destruct Hok]].
    eapply grown_trans; [exact Hgr|]. apply (grown_ticked b (S (br_tick b))). lia.
Qed.

Lemma wp_publish b :
  inv None b -> has_room 1 b ->
  wp (publish_with_request_id env stream key payload request_id)
    (fun offset b' => publishes r (Ok offset) b b')
    (fun e b' => publishes r (Err e) b b' \/ create_fails e b b') b.
Proof.
  intros Hi Hro. unfold publish_with_request_id. rewrite validate_name_valid by done. do 3 wp_step.
  eapply wp_get_or_create; [done|done| |]. 2: { intros kind b' Hi' Hg' Hs' Hn'. right. split_and!; eauto. }
  intros es b1 Hrdy. wp_step. pose proof Hrdy as (Hh & Hi1 & Hgr & Hw & ss & Hss & Hok).
  eapply wp_locked; [exact Hss|]. wp_step.
  destruct (so_represents _ _ _ _ _ Hok) as (Hlog & Hent & Hle).
  assert (Hlen : vec_len es < u64_max).
  { unfold history in Hh. destruct (br_streams b !! stream) as [ss0|] eqn:E0; [|by subst].
    specialize (Hro _ _ E0). destruct Hh as (E & _). rewrite E in Hro. cbn in Hro. lia. }
  pose proof (published_content es r Hent Hle) as Hc. rewrite <-Hlog in Hc.
  match goal with |- wp ?m _ _ _ => replace m with (lift (match pr_request_id r with
    | Some request_id => request_offset_for_content (ss_log ss) request_id (pr_key r) (pr_payload r)
    | None => Ok None end)) by (unfold r; cbn; by destruct request_id) end.
  rewrite Hc. destruct (published es r) as [i|] eqn:Ep.
  - destruct (published_entry _ _ _ Ep) as [e He]. rewrite He. cbn [is_some_and].
    destruct (same_content _ _ e) eqn:Es; wp_step.
    + wp_step. eapply (publishes_same r _ es 0); [exact Hrdy|by eapply publish_again].
    + left. eapply (publishes_same r _ es 0); [exact Hrdy|by eapply publish_conflict].
  - wp_step. eapply wp_mono; [by eapply wp_append|done|]. intros e b' Hp. by left.
Qed.
End publish_one.

(** ** Batches *)

Lemma publish_steps_grow nows es rs outs es' :
  Forall publishable rs -> Forall (fun now => now <= u64_max) nows -> Forall entry_ok es ->
  publish_steps nows es rs outs es' ->
  Forall entry_ok es' /\ exists new, es' = es ++ new /\ vec_len new <= vec_len rs.
Proof.
  intros Hp Hn Hent Hs. revert Hp Hn Hent. induction Hs as [nows es|now nows es r rs out outs es1 es2 Hstep Hs IH];
    intros Hp Hn Hent.
  - split; [done|]. exists []. rewrite app_nil_r. by split; [|rewrite !vec_len_nil].
  - apply Forall_cons in Hp as [Hr Hp]. apply Forall_cons in Hn as [Hnow Hn].
    destruct (IH Hp Hn) as (Hent2 & new & -> & Hle); [by eapply publish_step_ok|]. split; [done|].
    rewrite vec_len_cons. destruct Hstep as [? ?| | | ]; [|exists new; split; [done|lia]..].
    exists ({| e_key := pr_key r; e_payload := pr_payload r; e_identity := publish_identity r;
               e_published_at_ms := now |} :: new).
    rewrite vec_len_cons, <-app_assoc. by split; [|lia].
Qed.

Definition publishes_all (rs : list PublishRecord) (outs : list (Result Offset BrokerError))
  (b b' : BrokerState) : Prop :=
  inv None b' /\ grown b b' /\ exists es es' nows, history stream b es /\ history stream b' es' /\
    publish_steps nows es rs outs es' /\
    wakeups stream b' = wakeups stream b + (if existsb is_ok outs then 1 else 0).

Lemma wp_effects {A} n (f : nat -> A) (Q : list A -> BrokerState -> Prop) E b :
  Q ((fun i => f (br_tick b + i)%nat) <$> seq 0 n) (ticked b (br_tick b + n)) -> wp (effects n f) Q E b.
Proof. done. Qed.

Section publish_many.
Context (rs : list PublishRecord) (Hname : valid_name stream) (Hrs : Forall publishable rs).

(** The end of a batch: the log is stored, the waiters are woken. *)
Lemma batch_published es new outs nows b0 b ss n :
  ready es b0 b -> br_streams b !! stream = Some ss -> Forall entry_ok (es ++ new) ->
  vec_len (es ++ new) <= u64_max -> publish_steps nows es rs outs (es ++ new) -> (br_tick b <= n)%nat ->
  wp (do! put_stream stream (set_log ss (log_of (es ++ new))) in
      let! outcomes := lift (Ok outs) in
      do! (if existsb is_ok outcomes then notify_waiters stream else ret tt) in
      ret outcomes)
    (fun outs b' => publishes_all rs outs b0 b') (fun _ _ => False) (ticked b n).
Proof.
  intros Hrdy Hss Hent Hlen Hsteps Hn. do 4 wp_step. wp_step. pose proof Hrdy as (Hh & _ & _ & Hw & _).
  assert (Hww : wakeups stream b = ss_notified ss) by (unfold wakeups; by rewrite Hss).
  set (b2 := set_streams _ _).
  assert (Hend : forall b' m, br_streams b' = <[stream := {| ss_log := log_of (es ++ new);
      ss_delivery := ss_delivery ss; ss_notified := ss_notified ss + m |}]> (br_streams b) ->
    br_consumers b' = br_consumers b -> br_ack_timeout b' = br_ack_timeout b ->
    br_max_delivery_attempts b' = br_max_delivery_attempts b -> br_tick b' = n ->
    m = (if existsb is_ok outs then 1 else 0) -> publishes_all rs outs b0 b').
  { intros b' m Hst Hco Hc1 Hc2 Ht Hm.
    edestruct (ready_longer es new b0 b b' ss) as (Hi' & Hg' & Hh' & Hw');
      [exact Hrdy|exact Hname|exact Hss|exact Hent|exact Hlen| | |exact Hst|exact Hco|exact Hc1|exact Hc2|lia|];
      [done|done|].
    split_and!; [done|done|]. exists es, (es ++ new), nows. split_and!; try done.
    rewrite Hw', <-Hw, Hww, <-Hm. done. }
  destruct (existsb is_ok outs) eqn:Eo.
  - unfold notify_waiters. wp_step. eapply wp_locked; [by cbn; rewrite lookup_insert_eq|]. do 2 wp_step.
    apply (Hend _ 1); try done. cbn. by rewrite insert_insert_eq.
  - do 2 wp_step. apply (Hend _ 0); try done. cbn. by rewrite N.add_0_r.
Qed.

Lemma wp_publish_batch b :
  inv None b -> has_room (vec_len rs) b -> vec_len rs <= MAX_PUBLISH_BATCH_RECORDS ->
  wp (publish_batch env stream rs) (fun outs b' => publishes_all rs outs b b') (fun e b' => create_fails e b b') b.
Proof.
  intros Hi Hro Hmax. unfold publish_batch. rewrite (proj2 (N.ltb_ge _ _)), validate_name_valid by done.
  do 3 wp_step. eapply wp_get_or_create; [done|done| |]. 2: { intros kind b' Hi' Hg' Hs' Hn'. split_and!; eauto. }
  intros es b1 Hrdy. wp_step. pose proof Hrdy as (Hh & Hi1 & Hgr & Hw & ss & Hss & Hok).
  eapply wp_locked; [exact Hss|]. wp_step. apply wp_effects. do 2 wp_step.
  destruct (so_represents _ _ _ _ _ Hok) as (Hlog & Hent & Hle).
  assert (Hlen : vec_len es + vec_len rs <= u64_max).
  { unfold history in Hh. destruct (br_streams b !! stream) as [ss0|] eqn:E0.
    - specialize (Hro _ _ E0). destruct Hh as (E & _). rewrite E in Hro. cbn in Hro. lia.
    - subst es. rewrite vec_len_nil. unfold MAX_PUBLISH_BATCH_RECORDS, u64_max in *. lia. }
  set (ios := _ <$> _). set (sync := env_batch_sync env _). assert (Hsync : sync = None) by apply Henv.
  assert (Hios : Forall io_ok ios) by (apply Forall_fmap, Forall_forall; intros i _; apply Henv).
  assert (Hil : length ios = length rs) by (unfold ios; by rewrite length_fmap, length_seq).
  unfold append_batch. rewrite Hlog, Hsync.
  destruct (append_batch_loop_log_of ios es rs [] false) as (outs & a & es' & -> & Hs); try done.
  assert (Hnows : Forall (fun now => now <= u64_max) (io_now_ms <$> ios)).
  { apply Forall_fmap. eapply Forall_impl; [exact Hios|]. by intros io (_ & _ & ?). }
  destruct (publish_steps_grow _ _ _ _ _ Hrs Hnows Hent Hs) as (Hent' & new & -> & Hnl).
  replace (if a then None else None) with (@None IoErrorKind) by (by destruct a). cbn [app].
  eapply wp_mono; [eapply (batch_published es new outs _ b b1 ss)|done|done]; try done.
  - rewrite vec_len_app. lia.
  - cbn. lia.
Qed.
End publish_many.

(** ** Creating and reading *)

Lemma wp_create_stream b :
  inv None b -> valid_name stream ->
  wp (create_stream env stream)
    (fun created b' => inv None b' /\ grown b b' /\ is_Some (br_streams b' !! stream) /\
       (created = true <-> br_streams b !! stream = None) /\
       (forall es, history stream b es -> history stream b' es))
    (fun e b' => create_fails e b b') b.
Proof.
  intros Hi Hv. unfold create_stream. rewrite validate_name_valid by done. do 4 wp_step.
  case_bool_decide as Hknown.
  - wp_step. split_and!; [done|apply grown_refl|done| |done].
    split; [done|]. intros Hnone. destruct Hknown. congruence.
  - apply eq_None_not_Some in Hknown. wp_step.
    apply wp_insert_stream; [done|done|done| |]. 2: { intros kind b' Hi' Hg' Hs'. split_and!; eauto. }
    intros b' (Hh & Hi' & Hg' & _ & ss & Hss & Hok). wp_step. split_and!; try done.
    intros es Hes. rewrite (history_inj _ _ _ _ Hes Hh). unfold history. rewrite Hss. by eapply so_represents.
Qed.

Lemma wp_replay consumer offset b :
  inv None b -> valid_name stream -> valid_name consumer ->
  wp (replay stream consumer offset)
    (fun m b' => b' = b /\ exists es e, history stream b es /\ vec_get es offset = Some e /\
       m = replay_of stream offset e)
    (fun e b' => b' = b /\ exists es, history stream b es /\ vec_get es offset = None /\
       (e = StreamNotFound stream \/ e = HistoryUnavailable stream offset 0 (vec_len es))) b.
Proof.
  intros Hi Hv1 Hv2. unfold replay.
  rewrite (validate_name_valid _ stream), (validate_name_valid _ consumer) by done. do 5 wp_step.
  apply wp_get_stream.
  2: { intros Hnone. split; [done|]. exists []. unfold history. rewrite Hnone. split_and!; [done|done|by left]. }
  intros ss Hss. wp_step. eapply wp_locked; [exact Hss|].
  destruct (inv_streams _ _ Hi _ _ Hss) as (es & Hok).
  pose proof (so_represents _ _ _ _ _ Hok) as Hrep. pose proof Hrep as (Hlog & Hent & Hle).
  assert (Hh : history stream b es) by (unfold history; by rewrite Hss).
  rewrite Hlog, read_replay_message_log_of by done. destruct (vec_get es offset) as [e|] eqn:E; wp_step.
  - split; [done|]. by exists es, e.
  - split; [done|]. exists es. split_and!; [done|done|by right].
Qed.
End publish.
