(* ===== verification/BrokerRestart.v ===== *)
(** Restart: opening the data directory of a broker that stopped gives back its
    histories and the durable states of its consumers. *)

From S2P Require Import Prelude Engine RecordFormat Names Paths StreamLog ConsumerState DeliveryState Durability Broker BrokerInvariant BrokerSteps BrokerDeadLetters BrokerPublish.

Local Open Scope N_scope.

(** ** File names *)

Definition stream_file (stream : string) : string := stream +:+ ".log".

Lemma stream_of_stream_file stream : valid_name stream -> stream_of_file (stream_file stream) = Some stream.
Proof.
  intros [Hlen Hb]. unfold stream_of_file, stream_file. rewrite as_bytes_app.
  change (as_bytes ".log") with (Byte.x2e :: as_bytes "log").
  rewrite split_last_dot_app by (by repeat constructor).
  destruct (as_bytes stream) as [|b l] eqn:E.
  { unfold str_len in Hlen. rewrite E in Hlen. cbn in Hlen. lia. }
  rewrite <-E, bool_decide_eq_true_2 by done. rewrite ascii_utf8, of_bytes_as_bytes; [done|].
  rewrite E. eapply Forall_impl; [exact Hb|]. apply name_byte_ascii.
Qed.

(** ** The directory of a broker *)

(** What a crash leaves of the stream files: every record that was complete,
    and maybe a part of the next one; other files are skipped. *)
Record on_disk (b : BrokerState) (files : list (string * list byte)) : Prop := {
  od_files file bytes name : (file, bytes) ∈ files -> stream_of_file file = Some name ->
    exists ss tail, br_streams b !! name = Some ss /\ bytes = log_file (ss_log ss) ++ tail /\ torn_tail tail;
  od_streams name ss : br_streams b !! name = Some ss -> exists bytes, (stream_file name, bytes) ∈ files;
}.

Lemma recovered_lookup recovered name :
  match recovered_streams recovered !! name with
  | Some ss => exists log tail, (name, (log, tail)) ∈ recovered /\ ss = stream_new (finish_recovery log tail)
  | None => name ∉ recovered.*1
  end.
Proof.
  unfold recovered_streams. induction recovered as [|[n [log tail]] recovered IH] using rev_ind.
  { cbn. rewrite lookup_empty. apply not_elem_of_nil. }
  rewrite foldl_app. cbn. destruct (decide (n = name)) as [->|Hne].
  - rewrite lookup_insert_eq. exists log, tail. split; [|done]. apply elem_of_app. right. by left.
  - rewrite lookup_insert_ne by done. destruct (foldl _ _ _ !! name).
    + destruct IH as (log' & tail' & Hin & ->). exists log', tail'. split; [|done]. apply elem_of_app. by left.
    + rewrite fmap_app, elem_of_app. intros [?|Hin]; [done|]. apply list_elem_of_singleton in Hin. done.
Qed.

Section restart.
Context `{HC : ConsumerCodec} {HL : ConsumerCodecLaws HC}.

Lemma inspect_streams_spec ex b files :
  inv ex b ->
  (forall file bytes name, (file, bytes) ∈ files -> stream_of_file file = Some name ->
    exists ss tail, br_streams b !! name = Some ss /\ bytes = log_file (ss_log ss) ++ tail /\ torn_tail tail) ->
  exists recovered, inspect_streams files = Ok recovered /\
    (forall name log tail, (name, (log, tail)) ∈ recovered ->
       exists ss, br_streams b !! name = Some ss /\ finish_recovery log tail = ss_log ss) /\
    (forall file bytes name, (file, bytes) ∈ files -> stream_of_file file = Some name -> name ∈ recovered.*1).
Proof.
  intros Hi. induction files as [|[file bytes] files IH]; intros Hf; cbn [inspect_streams].
  { exists []. split_and!; [done|..]; intros * Hin; by apply not_elem_of_nil in Hin. }
  destruct IH as (recovered & Er & H1 & H2); [intros f' b' n Hin; apply (Hf f' b' n); by right|].
  destruct (stream_of_file file) as [name|] eqn:En.
  - destruct (Hf file bytes name) as (ss & tail & Hss & -> & Ht); [by left|done|].
    destruct (inv_streams _ _ Hi _ _ Hss) as (es & [Hlog Hent Hlen Hv _ _]).
    rewrite validate_name_valid, Er by done. rewrite Hlog. cbn [log_of log_file].
    rewrite log_inspect_log_of by done. eexists. split; [reflexivity|]. split.
    + intros n log t [[= -> -> ->]|Hin]%elem_of_cons; [|by apply H1].
      exists ss. rewrite finish_recovery_log_of, Hlog. done.
    + intros f' b' n [[= -> ->]|Hin]%elem_of_cons Hn; [rewrite En in Hn; injection Hn as ->; by left|].
      right. by eapply H2.
  - exists recovered. split_and!; [done|done|].
    intros f' b' n [[= -> ->]|Hin]%elem_of_cons Hn; [congruence|by eapply H2].
Qed.

(** A consumer without deliveries needs only its files. *)
Lemma consumer_ok_restart settled es d f stream c :
  consumer_ok settled es d f stream c -> consumer_ok true es delivery_new f stream c.
Proof.
  intros [Hf Hk _ _ _ _].
  assert (Hnone : forall o, in_flight delivery_new !! (c, o) = None) by (intros o; apply lookup_empty).
  split; try done. intros _ _ o. rewrite Hnone. by intros [].
Qed.

Lemma broker_open_spec config files epoch tick ex b :
  inv ex b -> on_disk b files -> bc_max_delivery_attempts config <> Some 0 ->
  exists b', broker_open config files (br_consumers b) epoch tick = Ok b' /\ inv None b' /\
    br_consumers b' = br_consumers b /\ br_tick b' = tick /\
    forall name, br_streams b' !! name = (fun ss => stream_new (ss_log ss)) <$> br_streams b !! name.
Proof.
  intros Hi [Hf Hs] Hc. unfold broker_open. rewrite bool_decide_eq_false_2 by done.
  destruct (inspect_streams_spec ex b files Hi Hf) as (recovered & -> & H1 & H2).
  eexists. split; [reflexivity|]. set (b' := {| br_streams := _ |}).
  assert (Hlook : forall name, br_streams b' !! name = (fun ss => stream_new (ss_log ss)) <$> br_streams b !! name).
  { intros name. pose proof (recovered_lookup recovered name) as Hr. cbn.
    destruct (recovered_streams recovered !! name) as [ss'|].
    - destruct Hr as (log & tail & Hin & ->). destruct (H1 _ _ _ Hin) as (ss & -> & ->). done.
    - destruct (br_streams b !! name) as [ss|] eqn:Hss; [|done]. destruct Hr.
      destruct (Hs name ss Hss) as [bytes Hin]. eapply H2; [exact Hin|].
      destruct (inv_streams _ _ Hi _ _ Hss) as (es & Hok). by apply stream_of_stream_file, Hok. }
  split_and!; [|done|done|exact Hlook]. split.
  - intros name ss'. rewrite Hlook. destruct (br_streams b !! name) as [ss|] eqn:Hss; [|done].
    intros [= <-]. destruct (inv_streams _ _ Hi _ _ Hss) as (es & [Hlog Hent Hlen Hv Hdel Hcons]).
    exists es. split; try done; [apply delivery_new_wf|]. intros c. eapply consumer_ok_restart, Hcons.
  - intros name c Hin. rewrite Hlook. apply (inv_files _ _ Hi) in Hin as [ss ->]. by eexists.
Qed.
End restart.
