(* ===== verification/BrokerOps.v ===== *)
(** The operations of the broker as one type, what each may do to the broker,
    and the brokers that can be reached by operations, crashes and restarts. *)

From S2P Require Import Prelude Engine RecordFormat Names StreamLog ConsumerState DeliveryState Durability Broker BrokerInvariant BrokerEvents BrokerSteps BrokerDelivery BrokerDeadLetters BrokerSearch BrokerPoll BrokerBatch BrokerAcks BrokerPublish BrokerRestart.

Local Open Scope N_scope.

(** The requests of the engine interface. A batch poll is a start and then
    rounds, with other operations between them. *)
Inductive BrokerOp :=
| OpCreateStream (stream : string)
| OpPublish (stream : string) (record : PublishRecord)
| OpPublishBatch (stream : string) (records : list PublishRecord)
| OpReplay (stream consumer : string) (offset : Offset)
| OpConfigure (stream consumer : string) (timeout : N) (attempts : option N) (delay : N)
| OpInspect (stream consumer : string)
| OpPoll (stream consumer member : string) (response_member : option string) (limit : option N)
| OpBatchStart (stream consumer member : string) (response_member : option string)
    (limits : ConsumeBatchLimits)
| OpBatchRound (req : BatchRequest)
| OpAck (stream consumer member : string) (offset : Offset) (token : string)
| OpAckBatch (stream consumer member : string) (receipts : list DeliveryReceipt)
| OpHealth.

Inductive Reply :=
| RCreated (created : bool)
| ROffset (offset : Offset)
| ROutcomes (outcomes : list (Result Offset BrokerError))
| RReplayed (message : ReplayMessage)
| RPolicy (policy : ConsumerPolicy)
| RPolled (result : PollResult)
| RStarted (req : BatchRequest)
| RRound (step : PollBatchStep)
| RAcked (result : AckResult)
| RAckItems (items : list AckBatchItem)
| RHealth (snapshot : HealthSnapshot).

Section ops.
Context `{HC : ConsumerCodec} {HL : ConsumerCodecLaws HC}.

Section run.
Context (env : Env).

Definition run_op (op : BrokerOp) : M Reply :=
  match op with
  | OpCreateStream stream => let! r := create_stream env stream in ret (RCreated r)
  | OpPublish stream r =>
    let! offset := publish_with_request_id env stream (pr_key r) (pr_payload r) (pr_request_id r) in
    ret (ROffset offset)
  | OpPublishBatch stream records =>
    let! outcomes := publish_batch env stream records in ret (ROutcomes outcomes)
  | OpReplay stream consumer offset => let! m := replay stream consumer offset in ret (RReplayed m)
  | OpConfigure stream consumer timeout attempts delay =>
    let! p := configure_consumer env stream consumer timeout attempts delay in ret (RPolicy p)
  | OpInspect stream consumer => let! p := inspect_consumer env stream consumer in ret (RPolicy p)
  | OpPoll stream consumer member response_member limit =>
    let! r := poll_group_inner env stream consumer member response_member limit in ret (RPolled r)
  | OpBatchStart stream consumer member response_member limits =>
    let! req := poll_batch_start env stream consumer member response_member limits in ret (RStarted req)
  | OpBatchRound req => let! step := poll_batch_step env req in ret (RRound step)
  | OpAck stream consumer member offset token =>
    let! r := ack_group env stream consumer member offset token in ret (RAcked r)
  | OpAckBatch stream consumer member receipts =>
    let! items := ack_batch env stream consumer member receipts in ret (RAckItems items)
  | OpHealth => let! s := health in ret (RHealth s)
  end.

(** Requests that clients can make: strings are UTF-8 and the round of a batch
    poll belongs to a request that passed its checks. *)
Definition op_ok (op : BrokerOp) : Prop :=
  match op with
  | OpPublish _ r => publishable r
  | OpPublishBatch _ rs => Forall publishable rs
  | OpBatchRound req => valid_name (ba_stream req) /\ valid_name (ba_consumer req)
  | _ => True
  end.

Definition op_target (op : BrokerOp) : string * string :=
  match op with
  | OpCreateStream stream | OpPublish stream _ | OpPublishBatch stream _ => (stream, "")
  | OpReplay stream consumer _ | OpConfigure stream consumer _ _ _ | OpInspect stream consumer
  | OpPoll stream consumer _ _ _ | OpBatchStart stream consumer _ _ _
  | OpAck stream consumer _ _ _ | OpAckBatch stream consumer _ _ => (stream, consumer)
  | OpBatchRound req => (ba_stream req, ba_consumer req)
  | OpHealth => ("", "")
  end.

(** Which offsets an operation may finish for its consumer: those whose held
    delivery it acknowledges ... *)
Definition acknowledges (op : BrokerOp) (b : BrokerState) (o : Offset) : Prop :=
  match op with
  | OpAck stream consumer member offset token =>
    exists ss, br_streams b !! stream = Some ss /\
      ack_cause env stream consumer member offset token b (ss_delivery ss) o
  | OpAckBatch stream consumer member receipts =>
    exists ss, br_streams b !! stream = Some ss /\
      receipts_cause env stream consumer member receipts b (ss_delivery ss) o
  | _ => False
  end.

(** ... and those whose attempts are exhausted, which a poll moves to the
    dead-letter stream. *)
Definition gives_up (op : BrokerOp) (b : BrokerState) (o : Offset) : Prop :=
  match op with
  | OpPoll stream consumer _ _ _ | OpBatchRound {| ba_stream := stream; ba_consumer := consumer |} =>
    exhausted_at (legacy_of b) (durable_state (files_of b stream consumer) stream consumer) o = true
  | _ => False
  end.

(** What holds after an operation, whatever its answer. *)
Definition after (op : BrokerOp) (b b' : BrokerState) : Prop :=
  inv None b' /\ evolves (op_target op).1 (op_target op).2 (acknowledges op b) (gives_up op b) b b'.
End run.

(** Every log is far from the end of the offsets. *)
Definition spacious (b : BrokerState) : Prop :=
  forall name ss, br_streams b !! name = Some ss -> log_next_offset (ss_log ss) <= 2 ^ 62.

Lemma spacious_room room b : spacious b -> room <= 2 ^ 62 -> has_room room b.
Proof. intros Hs Hr n ss Hn. specialize (Hs n ss Hn). unfold u64_max. lia. Qed.

(** ** Every operation *)

Lemma evolves_weaken stream consumer (A A' D D' : Offset -> Prop) b b' :
  (forall o, A o -> A' o) -> (forall o, D o -> D' o) ->
  evolves stream consumer A D b b' -> evolves stream consumer A' D' b b'.
Proof. intros HA HD []. split; try done. intros o Ho. destruct (ev_cause o Ho) as [|[|[]]]; auto. Qed.

Section each.
Context (env : Env) (Henv : env_ok env) (b : BrokerState) (Hinv : inv None b) (Hroom : spacious b).

Lemma after_refl op : after env op b b.
Proof. split; [done|apply evolves_refl]. Qed.

Lemma after_grown op b' : inv None b' -> grown (op_target op).1 b b' -> after env op b b'.
Proof. intros Hi Hg. split; [done|by eapply grown_evolves]. Qed.

Lemma after_goes op A D room es d s b' :
  goes (op_target op).1 (op_target op).2 A D true room es d s b b' ->
  (forall o, A o -> acknowledges env op b o) -> (forall o, D o -> gives_up op b o) -> after env op b b'.
Proof. intros [Hev Hat] HA HD. split; [apply Hat|by eapply evolves_weaken]. Qed.

Lemma after_stops op A D R e b' :
  stops (op_target op).1 (op_target op).2 A D R b e b' ->
  (forall o, A o -> acknowledges env op b o) -> (forall o, D o -> gives_up op b o) -> after env op b b'.
Proof. intros (Hev & Hi & _) HA HD. split; [done|by eapply evolves_weaken]. Qed.

(** An operation on a stream that exists. *)
Lemma starts_here stream consumer A D ss :
  br_streams b !! stream = Some ss ->
  exists es, represents (ss_log ss) es /\ starts stream consumer A D (2 ^ 62) es (ss_delivery ss) b b /\
    vec_len es <= 2 ^ 62.
Proof.
  intros Hss. destruct (inv_streams _ _ Hinv _ _ Hss) as (es & Hok). exists es.
  pose proof (so_represents _ _ _ _ _ Hok) as Hrep. split_and!; [done| |].
  - split_and!; [apply evolves_refl|done|by apply spacious_room|]. by exists ss.
  - specialize (Hroom _ _ Hss). destruct Hrep as (E & _). by rewrite E in Hroom.
Qed.

(** A request that fails a check leaves the broker as it was. *)
Ltac refused :=
  repeat match goal with H : _ = Ok _ |- _ => rewrite H end;
  repeat match goal with H : _ = Err _ |- _ => rewrite H end;
  repeat wp_step; first [apply after_refl | done].

Lemma wp_op_ack stream consumer member offset token :
  let op := OpAck stream consumer member offset token in
  wp (ack_group env stream consumer member offset token)
    (fun _ b' => after env op b b') (fun _ b' => after env op b b') b.
Proof.
  intros op.
  destruct (validate_name "stream" stream) as [[]|] eqn:E1; [|unfold ack_group; refused].
  destruct (validate_name "consumer" consumer) as [[]|] eqn:E2; [|unfold ack_group; refused].
  destruct (validate_name "member" member) as [[]|] eqn:E3; [|unfold ack_group; refused].
  destruct (br_streams b !! stream) as [ss|] eqn:Hss.
  2: { unfold ack_group. rewrite E1, E2, E3. do 7 wp_step. apply wp_get_stream; [congruence|].
       intros _. apply after_refl. }
  destruct (starts_here stream consumer (ack_cause env stream consumer member offset token b (ss_delivery ss))
    (fun _ => False) ss Hss) as (es & _ & Hst & _).
  apply validate_name_Ok in E1, E2, E3.
  eapply wp_mono; [by apply (wp_ack_group env Henv stream consumer member offset token (2 ^ 62) es)| |].
  - intros res b' (d & s & n & Hg & _). eapply (after_goes op); [exact Hg| |done]. cbn. eauto.
  - intros e b' Hs. eapply (after_stops op); [exact Hs| |done]. cbn. eauto.
Qed.

Lemma wp_op_ack_batch stream consumer member receipts :
  let op := OpAckBatch stream consumer member receipts in
  wp (ack_batch env stream consumer member receipts)
    (fun _ b' => after env op b b') (fun _ b' => after env op b b') b.
Proof.
  intros op.
  destruct (validate_name "stream" stream) as [[]|] eqn:E1; [|unfold ack_batch; refused].
  destruct (validate_name "consumer" consumer) as [[]|] eqn:E2; [|unfold ack_batch; refused].
  destruct (validate_name "member" member) as [[]|] eqn:E3; [|unfold ack_batch; refused].
  destruct (validate_ack_batch_receipts receipts) as [[]|] eqn:E4; [|unfold ack_batch; refused].
  destruct (br_streams b !! stream) as [ss|] eqn:Hss.
  2: { unfold ack_batch. rewrite E1, E2, E3, E4. do 9 wp_step. apply wp_get_stream; [congruence|].
       intros _. apply after_refl. }
  destruct (starts_here stream consumer (receipts_cause env stream consumer member receipts b (ss_delivery ss))
    (fun _ => False) ss Hss) as (es & _ & Hst & _).
  apply validate_name_Ok in E1, E2, E3.
  eapply wp_mono; [by apply (wp_ack_batch env Henv stream consumer member receipts (2 ^ 62) es (ss_delivery ss) b (fun _ _ => False))| |].
  - intros res b' (d & s & n & Hg & _). eapply (after_goes op); [exact Hg| |done]. cbn. eauto.
  - intros e b' Hs. eapply (after_stops op); [exact Hs| |done]. cbn. eauto.
Qed.

Lemma wp_op_configure stream consumer timeout attempts delay :
  let op := OpConfigure stream consumer timeout attempts delay in
  wp (configure_consumer env stream consumer timeout attempts delay)
    (fun _ b' => after env op b b') (fun _ b' => after env op b b') b.
Proof.
  intros op.
  destruct (validate_name "stream" stream) as [[]|] eqn:E1; [|unfold configure_consumer; refused].
  destruct (validate_name "consumer" consumer) as [[]|] eqn:E2; [|unfold configure_consumer; refused].
  destruct (validate_consumer_policy timeout attempts delay) as [[]|] eqn:E3; [|unfold configure_consumer; refused].
  destruct (br_streams b !! stream) as [ss|] eqn:Hss.
  2: { unfold configure_consumer. rewrite E1, E2, E3. do 7 wp_step. apply wp_get_stream; [congruence|].
       intros _. apply after_refl. }
  destruct (starts_here stream consumer (fun _ => False) (fun _ => False) ss Hss) as (es & _ & Hst & _).
  apply validate_name_Ok in E1, E2.
  eapply wp_mono; [by apply (wp_configure env Henv stream consumer (2 ^ 62) es (ss_delivery ss) timeout attempts delay b (fun _ _ => False))| |].
  - intros p b' (_ & _ & _ & d & Hg & _). by eapply (after_goes op).
  - intros e b' Hs. by eapply (after_stops op).
Qed.

Lemma wp_op_inspect stream consumer :
  let op := OpInspect stream consumer in
  wp (inspect_consumer env stream consumer)
    (fun _ b' => after env op b b') (fun _ b' => after env op b b') b.
Proof.
  intros op.
  destruct (validate_name "stream" stream) as [[]|] eqn:E1; [|unfold inspect_consumer; refused].
  destruct (validate_name "consumer" consumer) as [[]|] eqn:E2; [|unfold inspect_consumer; refused].
  destruct (br_streams b !! stream) as [ss|] eqn:Hss.
  2: { unfold inspect_consumer. rewrite E1, E2. do 5 wp_step. apply wp_get_stream; [congruence|].
       intros _. apply after_refl. }
  destruct (starts_here stream consumer (fun _ => False) (fun _ => False) ss Hss) as (es & _ & Hst & _).
  apply validate_name_Ok in E1, E2.
  eapply wp_mono; [by apply (wp_inspect env Henv stream consumer (2 ^ 62) es (ss_delivery ss) b (fun _ _ => False))| |].
  - intros p b' (_ & d & Hg). by eapply (after_goes op).
  - intros e b' Hs. by eapply (after_stops op).
Qed.

(** ** Polls *)

Definition poll_request (stream consumer member : string) (response_member : option string)
  (limit : option N) : PollRequest :=
  {| po_stream := stream; po_consumer := consumer; po_member := member;
     po_response_member := response_member; po_max_response_bytes := limit; po_legacy := legacy_of b |}.

Definition limit_ok (limit : option N) : Prop :=
  forall l, limit = Some l -> validate_poll_response_limit l = Ok tt.

Definition exhausted (stream consumer : string) (o : Offset) : Prop :=
  exhausted_at (legacy_of b) (durable_state (files_of b stream consumer) stream consumer) o = true.

(** The answer of a poll refers to what the consumer holds when it starts. *)
Definition poll_answers (req : PollRequest) (ss : StreamState) (es : list Entry) (res : PollResult)
  (b' : BrokerState) : Prop :=
  let s0 := durable_state (files_of b (po_stream req) (po_consumer req)) (po_stream req) (po_consumer req) in
  exists f0, (forall o, f0 o =
      held_at (po_consumer req) (ss_delivery ss) s0 (env_instant env (br_tick b)) o) /\
    poll_answer env (fun _ => False) (exhausted (po_stream req) (po_consumer req)) req es f0 s0 b
      (ticked b (S (br_tick b))) res b'.

Lemma wp_poll_group stream consumer member response_member limit ss es :
  valid_name stream -> valid_name consumer -> valid_name member -> limit_ok limit ->
  br_streams b !! stream = Some ss -> represents (ss_log ss) es ->
  wp (poll_group_inner env stream consumer member response_member limit)
    (poll_answers (poll_request stream consumer member response_member limit) ss es)
    (stops stream consumer (fun _ => False) (exhausted stream consumer)
       (fun e _ => exists l, limit = Some l /\ e = ResponseTooLarge l) b) b.
Proof.
  intros Hv1 Hv2 Hv3 Hl Hss Hrep. unfold poll_group_inner.
  rewrite (validate_name_valid _ stream), (validate_name_valid _ consumer), (validate_name_valid _ member) by done.
  do 7 wp_step. eapply (wp_mono _ (fun _ b' => b' = b) _ (fun _ _ => False)); [|intros _ ? ->|done].
  { destruct limit as [l|]; [rewrite (Hl l) by done|]; by wp_step. }
  wp_step. apply wp_get_stream; [|congruence]. intros _ _. unfold instant_now. do 4 wp_step.
  destruct (starts_here stream consumer (fun _ => False) (exhausted stream consumer) ss Hss)
    as (es' & Hrep' & Hst & Hlen). rewrite (represents_inj _ _ _ Hrep' Hrep) in *.
  apply starts_ticked in Hst. set (b1 := ticked b _) in *. change (policy_legacy _ _) with (legacy_of b).
  fold (poll_request stream consumer member response_member limit).
  eapply wp_mono; [eapply (wp_poll_at env Henv (fun _ => False) (exhausted stream consumer)
    (fun e _ => exists l, limit = Some l /\ e = ResponseTooLarge l)
    (poll_request stream consumer member response_member limit)); [apply legacy_of_timeout|done| |exact Hst|done|done]| |done].
  - intros l Hlim. exists l. done.
  - intros res b' (d1 & Hd1 & Ha). exists (live consumer d1 (env_instant env (br_tick b))). split; [|exact Ha].
    intros o. unfold held_at, live. rewrite Hd1. cbn [poll_request po_stream po_consumer].
    change (files_of b1 stream consumer) with (files_of b stream consumer). by destruct (is_done _ o).
Qed.

Lemma poll_answers_goes req ss es res b' :
  poll_answers req ss es res b' ->
  exists d s, goes (po_stream req) (po_consumer req) (fun _ => False)
    (exhausted (po_stream req) (po_consumer req)) true 0 es d s b b'.
Proof.
  intros (f0 & _ & [(d & s & _ & _ & _ & Hg & _)|[_ (d & s & Hg & _)]]); eauto.
Qed.

Lemma wp_op_poll stream consumer member response_member limit :
  let op := OpPoll stream consumer member response_member limit in
  wp (poll_group_inner env stream consumer member response_member limit)
    (fun _ b' => after env op b b') (fun _ b' => after env op b b') b.
Proof.
  intros op.
  destruct (validate_name "stream" stream) as [[]|] eqn:E1; [|unfold poll_group_inner; refused].
  destruct (validate_name "consumer" consumer) as [[]|] eqn:E2; [|unfold poll_group_inner; refused].
  destruct (validate_name "member" member) as [[]|] eqn:E3; [|unfold poll_group_inner; refused].
  assert (Hlim : limit_ok limit \/ exists l e, limit = Some l /\ validate_poll_response_limit l = Err e).
  { destruct limit as [l|]; [|by left]. destruct (validate_poll_response_limit l) as [[]|e] eqn:E; [left|right; eauto].
    by intros ? [= <-]. }
  destruct Hlim as [Hlim|(l & e & -> & El)].
  2: { unfold poll_group_inner. rewrite E1, E2, E3, El. repeat wp_step. apply after_refl. }
  destruct (br_streams b !! stream) as [ss|] eqn:Hss.
  2: { unfold poll_group_inner. rewrite E1, E2, E3. do 7 wp_step.
       eapply (wp_mono _ (fun _ b' => b' = b) _ (fun _ _ => False)); [|intros _ ? ->|done].
       { destruct limit as [l|]; [rewrite (Hlim l) by done|]; by wp_step. }
       wp_step. apply wp_get_stream; [congruence|]. intros _. apply after_refl. }
  apply validate_name_Ok in E1, E2, E3. destruct (inv_streams _ _ Hinv _ _ Hss) as (es & Hok).
  eapply wp_mono; [apply (wp_poll_group stream consumer member response_member limit ss es); try done; by eapply so_represents| |].
  - intros res b' (d & s & Hg)%poll_answers_goes. by eapply (after_goes op).
  - intros e b' Hs. by eapply (after_stops op).
Qed.

(** ** Batch polls *)

Lemma wp_batch_start stream consumer member response_member limits :
  wp (poll_batch_start env stream consumer member response_member limits)
    (fun req b' => (inv None b' /\ forall A D, evolves stream consumer A D b b') /\
       ba_stream req = stream /\ ba_consumer req = consumer /\ ba_member req = member /\
       ba_limits req = limits /\ valid_name stream /\ valid_name consumer /\ valid_name member /\
       validate_consume_batch_limits limits = Ok tt /\ is_Some (br_streams b !! stream) /\
       ba_deadline req = env_instant env (br_tick b) + nanos_of_millis (max_wait_ms limits))
    (fun e b' => inv None b' /\ forall A D, evolves stream consumer A D b b') b.
Proof.
  assert (Hrefl : inv None b /\ forall A D, evolves stream consumer A D b b) by (split; [done|intros; apply evolves_refl]).
  unfold poll_batch_start.
  destruct (validate_name "stream" stream) as [[]|] eqn:E1; [|by repeat wp_step].
  destruct (validate_name "consumer" consumer) as [[]|] eqn:E2; [|by repeat wp_step].
  destruct (validate_name "member" member) as [[]|] eqn:E3; [|by repeat wp_step].
  destruct (validate_consume_batch_limits limits) as [[]|] eqn:E4; [|by repeat wp_step].
  apply validate_name_Ok in E1, E2, E3. do 8 wp_step. destruct (_ <? _); [by wp_step|]. wp_step.
  apply wp_get_stream; [|done]. intros ss Hss. unfold instant_now. do 2 wp_step.
  unfold instant_checked_add. destruct (_ <=? _); wp_step; [|].
  - apply wp_next_token. intros token tokens. wp_step. split; [|split_and!; eauto].
    split; [by apply inv_counters, inv_counters|]. intros A D. repeat (apply evolves_counters; [|cbn; lia]); apply evolves_refl.
  - split; [by apply inv_counters|]. intros A D. apply evolves_counters; [apply evolves_refl|cbn; lia].
Qed.

(** The answer of one round. *)
Definition round_answers (req : BatchRequest) (ss : StreamState) (es : list Entry) (step : PollBatchStep)
  (b' : BrokerState) : Prop :=
  let s0 := durable_state (files_of b (ba_stream req) (ba_consumer req)) (ba_stream req) (ba_consumer req) in
  let now := env_instant env (br_tick b) in
  exists f0 n, (br_tick b <= n)%nat /\
    (forall o, f0 o = held_at (ba_consumer req) (ss_delivery ss) s0 now o) /\
    batch_answer env (fun _ => False) (exhausted (ba_stream req) (ba_consumer req)) req (legacy_of b) es s0 f0
      b b ((0 <? max_wait_ms (ba_limits req)) && (now <? ba_deadline req)) (env_wall_ms env n) step b'.

(** Why a round is refused. *)
Definition round_rejection (req : BatchRequest) (ss : StreamState) (es : list Entry) (e : BrokerError)
  (b' : BrokerState) : Prop :=
  let s0 := durable_state (files_of b (ba_stream req) (ba_consumer req)) (ba_stream req) (ba_consumer req) in
  exists f0, (forall o, f0 o = held_at (ba_consumer req) (ss_delivery ss) s0 (env_instant env (br_tick b)) o) /\
    batch_refusal env (fun _ => False) (exhausted (ba_stream req) (ba_consumer req)) req es s0 f0 b e b'.

Lemma wp_batch_round_op req ss es :
  valid_name (ba_stream req) -> valid_name (ba_consumer req) ->
  br_streams b !! ba_stream req = Some ss -> represents (ss_log ss) es ->
  wp (poll_batch_step env req) (round_answers req ss es)
    (stops (ba_stream req) (ba_consumer req) (fun _ => False) (exhausted (ba_stream req) (ba_consumer req))
       (round_rejection req ss es) b) b.
Proof.
  intros Hv1 Hv2 Hss Hrep.
  destruct (starts_here (ba_stream req) (ba_consumer req) (fun _ => False) (exhausted (ba_stream req) (ba_consumer req)) ss Hss)
    as (es' & Hrep' & Hst & Hlen). rewrite (represents_inj _ _ _ Hrep' Hrep) in *.
  eapply wp_mono; [eapply (wp_poll_batch_step env Henv (fun _ => False) (exhausted (ba_stream req) (ba_consumer req))
    (round_rejection req ss es) req (legacy_of b)); [apply legacy_of_timeout|done|exact Hst|done|done|done|]| |done].
  { intros d1 e b' Hd1 Href. exists (live (ba_consumer req) d1 (env_instant env (br_tick b))). split; [|exact Href].
    intros o. unfold held_at, live. rewrite Hd1. by destruct (is_done _ o). }
  intros step b' (d1 & now_ms & n & -> & Hn & Hd1 & Ha).
  exists (live (ba_consumer req) d1 (env_instant env (br_tick b))), n. split_and!; [done| |exact Ha].
  intros o. unfold held_at, live. rewrite Hd1. by destruct (is_done _ o).
Qed.

Lemma round_answers_goes req ss es step b' :
  round_answers req ss es step b' ->
  exists d s, goes (ba_stream req) (ba_consumer req) (fun _ => False)
    (exhausted (ba_stream req) (ba_consumer req)) true 0 es d s b b'.
Proof.
  intros (f0 & n & _ & _ & [(ms & _ & d & s & l & Hg & _)|[_ Ho]]); [eauto|].
  destruct step as [ms|next]; [destruct Ho as (d & s & Hg & _)|destruct Ho as (_ & d & s & m & Hg & _)]; eauto.
Qed.

Lemma wp_op_round req :
  op_ok (OpBatchRound req) ->
  wp (poll_batch_step env req) (fun _ b' => after env (OpBatchRound req) b b')
    (fun _ b' => after env (OpBatchRound req) b b') b.
Proof.
  intros [Hv1 Hv2]. destruct (br_streams b !! ba_stream req) as [ss|] eqn:Hss.
  2: { unfold poll_batch_step. wp_step. apply wp_get_stream; [congruence|]. intros _. apply after_refl. }
  destruct (inv_streams _ _ Hinv _ _ Hss) as (es & Hok).
  assert (HD : forall o, exhausted (ba_stream req) (ba_consumer req) o -> gives_up (OpBatchRound req) b o)
    by (by destruct req).
  eapply wp_mono; [apply (wp_batch_round_op req ss es); try done; by eapply so_represents| |].
  - intros step b' (d & s & Hg)%round_answers_goes. by eapply (after_goes (OpBatchRound req)).
  - intros e b' Hs. by eapply (after_stops (OpBatchRound req)).
Qed.

(** ** Operations on streams *)

Lemma wp_op_create stream :
  wp (create_stream env stream) (fun _ b' => after env (OpCreateStream stream) b b')
    (fun _ b' => after env (OpCreateStream stream) b b') b.
Proof.
  destruct (validate_name "stream" stream) as [[]|] eqn:E1; [|unfold create_stream; refused].
  apply validate_name_Ok in E1. eapply wp_mono; [by apply (wp_create_stream env stream)|..].
  - intros r b' (Hi & Hg & _). by apply after_grown.
  - intros e b' (Hi & Hg & _). by apply after_grown.
Qed.

Lemma wp_op_publish stream r :
  publishable r ->
  wp (publish_with_request_id env stream (pr_key r) (pr_payload r) (pr_request_id r))
    (fun _ b' => after env (OpPublish stream r) b b') (fun _ b' => after env (OpPublish stream r) b b') b.
Proof.
  intros Hr. destruct (validate_name "stream" stream) as [[]|] eqn:E1; [|unfold publish_with_request_id; refused].
  apply validate_name_Ok in E1. destruct r as [key payload request_id].
  eapply wp_mono; [apply (wp_publish env Henv stream key payload request_id); try done; by apply spacious_room|..].
  - intros r b' (Hi & Hg & _). by apply after_grown.
  - intros e b' [(Hi & Hg & _)|(Hi & Hg & _)]; by apply after_grown.
Qed.

Lemma wp_op_publish_batch stream rs :
  Forall publishable rs ->
  wp (publish_batch env stream rs)
    (fun _ b' => after env (OpPublishBatch stream rs) b b') (fun _ b' => after env (OpPublishBatch stream rs) b b') b.
Proof.
  intros Hr. destruct (N.ltb_spec MAX_PUBLISH_BATCH_RECORDS (vec_len rs)) as [Hbig|Hmax].
  { unfold publish_batch. rewrite (proj2 (N.ltb_lt _ _)) by done. wp_step. apply after_refl. }
  destruct (validate_name "stream" stream) as [[]|] eqn:E1.
  2: { unfold publish_batch. rewrite (proj2 (N.ltb_ge _ _)), E1 by done. do 2 wp_step. apply after_refl. }
  apply validate_name_Ok in E1.
  eapply wp_mono; [apply (wp_publish_batch env Henv stream rs); try done; apply spacious_room; [done|]|..].
  - unfold MAX_PUBLISH_BATCH_RECORDS in Hmax. lia.
  - intros outs b' (Hi & Hg & _). by apply after_grown.
  - intros e b' (Hi & Hg & _). by apply after_grown.
Qed.

Lemma wp_op_replay stream consumer offset :
  wp (replay stream consumer offset) (fun _ b' => after env (OpReplay stream consumer offset) b b')
    (fun _ b' => after env (OpReplay stream consumer offset) b b') b.
Proof.
  destruct (validate_name "stream" stream) as [[]|] eqn:E1; [|unfold replay; refused].
  destruct (validate_name "consumer" consumer) as [[]|] eqn:E2; [|unfold replay; refused].
  apply validate_name_Ok in E1, E2. eapply wp_mono; [by apply (wp_replay stream)|..];
    intros ? b' [-> _]; apply after_refl.
Qed.

Lemma wp_run_op op :
  op_ok op -> wp (run_op env op) (fun _ b' => after env op b b') (fun _ b' => after env op b b') b.
Proof.
  intros Hok. destruct op; cbn [run_op]; wp_step;
    (eapply wp_mono; [|intros ? b' Ha; wp_step; exact Ha|intros ? b' Ha; exact Ha]).
  - apply wp_op_create.
  - by apply wp_op_publish.
  - by apply wp_op_publish_batch.
  - apply wp_op_replay.
  - apply wp_op_configure.
  - apply wp_op_inspect.
  - apply wp_op_poll.
  - eapply wp_mono; [apply wp_batch_start|..]; [intros req b' [[Hi Hev] _]|intros e b' [Hi Hev]]; by split.
  - by apply wp_op_round.
  - apply wp_op_ack.
  - apply wp_op_ack_batch.
  - apply wp_gets. apply after_refl.
Qed.
End each.

(** ** Reachable brokers *)

(** A broker runs an operation, or stops, maybe in the middle of an append, and
    is opened again on what it left. *)
Inductive broker_step (b : BrokerState) : BrokerState -> Prop :=
| step_op env op : env_ok env -> op_ok op -> spacious b -> broker_step b (run_op env op b).2
| step_restart config files epoch tick b' :
  on_disk b files -> broker_open config files (br_consumers b) epoch tick = Ok b' -> broker_step b b'.

Inductive reachable : BrokerState -> Prop :=
| reach_open config epoch tick b : broker_open config [] ∅ epoch tick = Ok b -> reachable b
| reach_step b b' : reachable b -> broker_step b b' -> reachable b'.

Lemma open_empty_inv config epoch tick b : broker_open config [] ∅ epoch tick = Ok b -> inv None b.
Proof.
  unfold broker_open. destruct (bool_decide _); [done|]. cbn. intros [= <-]. split; cbn.
  - intros n ss Hn. by rewrite lookup_empty in Hn.
  - intros n c [f Hf]. by rewrite lookup_empty in Hf.
Qed.

Lemma step_restart_spec config files epoch tick b b' :
  inv None b -> on_disk b files -> broker_open config files (br_consumers b) epoch tick = Ok b' ->
  inv None b' /\ br_consumers b' = br_consumers b /\
  forall name, br_streams b' !! name = (fun ss => stream_new (ss_log ss)) <$> br_streams b !! name.
Proof.
  intros Hi Hd Ho. assert (Hmax : bc_max_delivery_attempts config <> Some 0).
  { intros E. unfold broker_open in Ho. by rewrite bool_decide_eq_true_2 in Ho. }
  destruct (broker_open_spec config files epoch tick None b Hi Hd Hmax) as (b'' & E & Hi' & Hc & _ & Hs).
  rewrite Ho in E. injection E as <-. done.
Qed.

Lemma run_op_after env op b :
  env_ok env -> op_ok op -> inv None b -> spacious b ->
  (run_op env op b).1 <> Aborts /\ after env op b (run_op env op b).2.
Proof.
  intros Henv Hok Hi Hs. pose proof (wp_run_op env Henv b Hi Hs op Hok) as H. unfold wp in H.
  by destruct (run_op env op b) as [[] b'].
Qed.

Lemma reachable_inv b : reachable b -> inv None b.
Proof.
  induction 1 as [config epoch tick b Ho|b b' _ IH Hstep]; [by eapply open_empty_inv|].
  destruct Hstep as [env op Henv Hok Hs|config files epoch tick b' Hd Ho].
  - by apply (run_op_after env op b).
  - by eapply step_restart_spec.
Qed.
End ops.
