(* ===== verification/BrokerGuarantees.v ===== *)
(** What the broker guarantees, stated for every broker that operations,
    crashes and restarts can reach. *)

From S2P Require Import Prelude Engine RecordFormat Names StreamLog ConsumerState DeliveryState Durability Broker BrokerInvariant BrokerEvents BrokerSteps BrokerDelivery BrokerDeadLetters BrokerSearch BrokerPoll BrokerBatch BrokerAcks BrokerPublish BrokerRestart BrokerOps.

Local Open Scope N_scope.

(** ** A concrete broker *)

Module Example.
Definition codec : ConsumerCodec := ExampleCodec.codec 0.
Definition laws : ConsumerCodecLaws codec := ExampleCodec.codec_laws 0.

Definition clock (n : nat) : N := N.min (N.of_nat n) 1000000.

(** Nothing fails, a millisecond passes between two looks at a clock. *)
Definition env : Env :=
  {| env_instant := fun n => clock n * 1000000; env_wall_ms := fun n => 1000 + clock n;
     env_append := fun _ => example_io; env_batch_sync := fun _ => None; env_create := fun _ => None;
     env_persist := fun _ => NoFault; env_journal_sync := fun _ => None; env_keys := fun _ => key_order |}.

Lemma env_is_ok : env_ok env.
Proof.
  split; intros n; cbn [env env_append env_batch_sync env_instant env_wall_ms env_keys].
  - by split_and!.
  - done.
  - unfold clock, instant_max, u64_max, nanos_of_millis. lia.
  - unfold clock, u64_max. lia.
  - apply key_order_lists.
Qed.

Definition config : BrokerConfig := {| bc_ack_timeout := 5000000; bc_max_delivery_attempts := Some 1 |}.

Definition opened : BrokerState :=
  match broker_open config [] ∅ 7 0 with
  | Ok b => b
  | Err _ => {| br_streams := ∅; br_consumers := ∅; br_ack_timeout := 0; br_max_delivery_attempts := None;
                br_redeliveries := 0; br_dead_letters := 0;
                br_delivery_tokens := {| epoch := 0; next_id := 0 |}; br_tick := 0 |}
  end.

Definition run (ops : list BrokerOp) : BrokerState :=
  foldl (fun b op => (@run_op codec env op b).2) opened ops.

Definition record (key : option string) (request_id : option string) : PublishRecord :=
  {| pr_key := key; pr_payload := as_bytes "x"; pr_request_id := request_id |}.

Definition publish : BrokerOp := OpPublish "orders" (record (Some "k") (Some "r1")).
Definition poll : BrokerOp := OpPoll "orders" "billing" "m1" (Some "m1") None.

Definition spaciousb (b : BrokerState) : bool :=
  bool_decide (map_Forall (fun _ ss => log_next_offset (ss_log ss) <= 2 ^ 62) (br_streams b)).

Lemma spaciousb_ok b : spaciousb b = true -> spacious b.
Proof. intros H%bool_decide_eq_true name ss Hss. apply (H name ss Hss). Qed.

(** Each request of a run finds a spacious broker. *)
Fixpoint fits (b : BrokerState) (ops : list BrokerOp) : bool :=
  match ops with
  | [] => true
  | op :: ops => spaciousb b && fits (@run_op codec env op b).2 ops
  end.

Lemma example_run_from ops b :
  @reachable codec b -> Forall op_ok ops -> fits b ops = true ->
  @reachable codec (foldl (fun b op => (@run_op codec env op b).2) b ops).
Proof.
  revert b. induction ops as [|op ops IH]; intros b Hb Hok Hs; [done|].
  apply Forall_cons in Hok as [Hop Hok]. apply andb_true_iff in Hs as [H0 Hs]. cbn [foldl].
  apply IH; [|done|done]. eapply reach_step; [exact Hb|].
  apply step_op; [apply env_is_ok|done|by apply spaciousb_ok].
Qed.

Lemma opened_reachable : @reachable codec opened.
Proof. apply (reach_open config 7 0). reflexivity. Qed.

Lemma example_run_reachable ops : Forall op_ok ops -> fits opened ops = true -> @reachable codec (run ops).
Proof. apply example_run_from, opened_reachable. Qed.
End Example.

Section guarantees.
Context `{HC : ConsumerCodec} {HL : ConsumerCodecLaws HC}.

(** The durable progress of a consumer. *)
Definition progress (b : BrokerState) (stream consumer : string) : ConsumerState :=
  durable_state (files_of b stream consumer) stream consumer.

(** ** Invariants *)

(** C4: In every reachable broker each stream file holds a history of whole
    records, and for every consumer: its durable state is consistent, the cached
    state is the durable state, and a delivery in flight shows an existing record
    under its key, carries the recorded attempt, is the only one of its key, and
    everything earlier with that key is finished. *)
Theorem broker_invariant b stream ss :
  reachable b -> br_streams b !! stream = Some ss ->
  exists es, represents (ss_log ss) es /\
  forall consumer, let s := progress b stream consumer in
    consumer_wf s /\
    (forall s', consumer_states (ss_delivery ss) !! consumer = Some s' -> s' = s) /\
    forall o i, in_flight (ss_delivery ss) !! (consumer, o) = Some i ->
      if_offset i = o /\
      exists e, vec_get es o = Some e /\ if_key i = e_key e /\
        (is_done s o = false -> delivery_attempts s !! o = Some (if_delivery_attempt i)) /\
        forall k, e_key e = Some k ->
          (forall o' e', o' < o -> vec_get es o' = Some e' -> e_key e' = Some k -> is_done s o' = true) /\
          (forall o' i', in_flight (ss_delivery ss) !! (consumer, o') = Some i' -> if_key i' = Some k -> o' = o).
Proof.
  intros Hr Hss. destruct (inv_streams _ _ (reachable_inv b Hr) _ _ Hss) as (es & Hok). exists es.
  split; [by eapply so_represents|]. destruct Hok as [_ _ _ _ Hdw Hcons]. intros consumer s.
  destruct (Hcons consumer) as [Hf Hk Hfl _ Hca _]. fold (progress b stream consumer) in Hf, Hk, Hfl, Hca.
  split_and!; [by eapply holds_torn_wf|intros s' Hs'; by apply Hca|]. intros o i Hi.
  split; [by eapply dw_offset|]. destruct (Hfl o i Hi) as (e & He & Hke & Hready & Ha).
  exists e. split_and!; try done. intros k Hk'. split.
  - intros o' e' Ho' He' Hke'. by eapply Hready.
  - intros o' i' Hi' Hki'. eapply (dw_distinct_keys _ Hdw); [exact Hi'|exact Hi|done|congruence].
Qed.

(** C10: No request makes a reachable broker panic: no [expect] fails, no clock
    arithmetic overflows and every search ends within its bound, whatever the
    clocks show and whichever consumer-file operations fail. *)
Theorem broker_never_panics env op b :
  reachable b -> env_ok env -> op_ok op -> spacious b -> (run_op env op b).1 <> Aborts.
Proof. intros Hr Henv Hop Hs. by apply run_op_after; [..|apply reachable_inv|]. Qed.

(** C3: A request finishes an offset of a consumer only by acknowledging a
    delivery that the member holds, or by moving a record whose attempts are
    exhausted after its copy is in the dead-letter stream. *)
Theorem broker_progress_has_cause env op b stream consumer o :
  reachable b -> env_ok env -> op_ok op -> spacious b ->
  let b' := (run_op env op b).2 in
  is_done (progress b stream consumer) o = false -> is_done (progress b' stream consumer) o = true ->
  op_target op = (stream, consumer) /\
  (acknowledges env op b o \/ (gives_up op b o /\ moved stream consumer b' o)).
Proof.
  intros Hr Henv Hop Hs b' H0 H1.
  destruct (run_op_after env op b Henv Hop (reachable_inv b Hr) Hs) as [_ [_ Hev]]. fold b' in Hev.
  destruct (decide (op_target op = (stream, consumer))) as [E|Hne].
  - split; [done|]. rewrite E in Hev. cbn in Hev.
    destruct (ev_cause _ _ _ _ _ _ Hev o H1) as [Hd|[|]]; auto. unfold progress in H0. congruence.
  - exfalso. assert (E : files_of b' stream consumer = files_of b stream consumer).
    { unfold files_of. rewrite (ev_files _ _ _ _ _ _ Hev stream consumer); [done|].
      destruct (op_target op). cbn. congruence. }
    unfold progress in *. rewrite E in H1. congruence.
Qed.

Lemma extends_history stream b b' ss :
  br_streams b !! stream = Some ss ->
  (exists ss', br_streams b' !! stream = Some ss' /\ extends (ss_log ss) (ss_log ss')) ->
  forall es, history stream b es -> exists es', history stream b' (es ++ es').
Proof.
  unfold history. intros -> (ss' & -> & Hx) es He. exact (Hx es He).
Qed.

(** One step keeps histories and progress. *)
Lemma step_keeps b b' :
  reachable b -> broker_step b b' ->
  (forall stream es, history stream b es -> exists es', history stream b' (es ++ es')) /\
  (forall stream consumer o, is_done (progress b stream consumer) o = true ->
     is_done (progress b' stream consumer) o = true).
Proof.
  intros Hr Hstep. pose proof (reachable_inv b Hr) as Hi.
  assert (Hnone : forall stream b', inv None b' -> br_streams b !! stream = None ->
    forall es, history stream b es -> exists es', history stream b' (es ++ es')).
  { intros stream b1 Hi1 E es He. unfold history in He. rewrite E in He. subst es. cbn.
    unfold history. destruct (br_streams b1 !! stream) as [ss|] eqn:Hss; [|by exists []].
    destruct (inv_streams _ _ Hi1 _ _ Hss) as (es & Hok). exists es. by eapply so_represents. }
  destruct Hstep as [env op Henv Hop Hs|config files epoch tick b' Hd Ho].
  - destruct (run_op_after env op b Henv Hop Hi Hs) as [_ [Hi' Hev]]. split.
    + intros stream. destruct (br_streams b !! stream) as [ss|] eqn:Hss; [|by apply Hnone].
      destruct (ev_streams _ _ _ _ _ _ Hev stream ss Hss) as (ss' & Hss' & Hx & _).
      eapply extends_history; eauto.
    + intros stream consumer o Hdone. destruct (decide (op_target op = (stream, consumer))) as [E|Hne].
      * rewrite E in Hev. by apply (ev_done _ _ _ _ _ _ Hev).
      * unfold progress in *. unfold files_of. rewrite (ev_files _ _ _ _ _ _ Hev stream consumer); [done|].
        destruct (op_target op). cbn. congruence.
  - destruct (step_restart_spec _ _ _ _ _ _ Hi Hd Ho) as (Hi' & Hc & Hs). split.
    + intros stream. destruct (br_streams b !! stream) as [ss|] eqn:Hss; [|by apply Hnone].
      eapply extends_history; [exact Hss|]. rewrite Hs, Hss. eexists. split; [done|apply extends_refl].
    + intros stream consumer o. unfold progress, files_of. by rewrite Hc.
Qed.

Lemma steps_keep b b' :
  reachable b -> rtc broker_step b b' ->
  (forall stream es, history stream b es -> exists es', history stream b' (es ++ es')) /\
  (forall stream consumer o, is_done (progress b stream consumer) o = true ->
     is_done (progress b' stream consumer) o = true).
Proof.
  intros Hr Hsteps. revert Hr. induction Hsteps as [b|b1 b2 b3 Hstep _ IH]; intros Hr.
  { split; [|done]. intros stream es He. exists []. by rewrite app_nil_r. }
  destruct (IH (reach_step _ _ Hr Hstep)) as [IH1 IH2].
  pose proof (step_keeps _ _ Hr Hstep) as [H1 H2]. split; [|by eauto].
  intros stream es He. destruct (H1 stream es He) as [es1 He1]. destruct (IH1 stream _ He1) as [es2 He2].
  exists (es1 ++ es2). by rewrite app_assoc.
Qed.

Lemma steps_reachable b b' : reachable b -> rtc broker_step b b' -> reachable b'.
Proof. intros Hr Hsteps. induction Hsteps; [done|]. apply IHHsteps. by eapply reach_step. Qed.

(** C5: Nothing is lost: over any further requests, crashes and restarts every
    stream keeps its records at their offsets, and every consumer keeps what it
    has finished. *)
Theorem broker_keeps_everything b b' :
  reachable b -> rtc broker_step b b' ->
  (forall stream es, history stream b es -> exists es', history stream b' (es ++ es')) /\
  (forall stream consumer o, is_done (progress b stream consumer) o = true ->
     is_done (progress b' stream consumer) o = true).
Proof. apply steps_keep. Qed.

(** ** Answers *)

(** Where an operation on a consumer ends. *)
Lemma goes_end stream consumer A D room es d s b b' :
  goes stream consumer A D true room es d s b b' ->
  exists ss', br_streams b' !! stream = Some ss' /\ represents (ss_log ss') es /\
    ss_delivery ss' = d /\ progress b' stream consumer = s.
Proof.
  intros [_ Hat]. destruct (as_stream _ _ _ _ _ _ _ _ Hat) as (ss' & Hss' & Hd & Hok).
  exists ss'. split_and!; [done|by eapply so_represents|done|by eapply at_state_durable].
Qed.

(** What the consumer holds when an operation looks at the clock. *)
Definition holding (env : Env) (b : BrokerState) (ss : StreamState) (stream consumer : string) (n : nat) :
  Offset -> option InFlight :=
  held_at consumer (ss_delivery ss) (progress b stream consumer) (env_instant env n).


(** C2: An acknowledgement of a finished offset says so and changes no progress.
    It finishes exactly its offset when the member holds the delivery with that
    token (a delivery of a single poll may be acknowledged without it). Apart
    from storage faults it is rejected exactly otherwise. *)
Theorem broker_ack_exact env b stream consumer member offset token ss :
  reachable b -> env_ok env -> spacious b ->
  valid_name stream -> valid_name consumer -> valid_name member ->
  br_streams b !! stream = Some ss ->
  let s0 := progress b stream consumer in
  let held := holding env b ss stream consumer in
  wp (ack_group env stream consumer member offset token)
    (fun res b' => exists ss' n, br_streams b' !! stream = Some ss' /\ (br_tick b <= n)%nat /\
       let s' := progress b' stream consumer in
       let flight' o := in_flight (ss_delivery ss') !! (consumer, o) in
       match res with
       | AlreadyAcknowledged => is_done s0 offset = true /\ (forall o, is_done s' o = is_done s0 o) /\
           (forall o, flight' o = held n o)
       | Acknowledged => is_done s0 offset = false /\
           (exists i, held n offset = Some i /\ accepted member token i) /\
           (forall o, is_done s' o = is_done s0 o || (o =? offset)) /\
           (forall o, flight' o = if o =? offset then None else held n o)
       end)
    (fun e b' => broken e \/
       is_done s0 offset = false /\ exists n, (br_tick b <= n)%nat /\
         (forall i, held n offset = Some i -> ~ accepted member token i) /\
         e = if bool_decide (held n offset = None) && bool_decide (token = "")
             then AckNotInFlight consumer offset else StaleDelivery consumer offset) b.
Proof.
  intros Hr Henv Hs Hv1 Hv2 Hv3 Hss s0 held.
  destruct (starts_here b (reachable_inv b Hr) Hs stream consumer
    (ack_cause env stream consumer member offset token b (ss_delivery ss)) (fun _ => False) ss Hss) as (es & _ & Hst & _).
  eapply wp_mono; [by apply (wp_ack_group env Henv stream consumer member offset token (2 ^ 62) es)| |].
  - intros res b' (d & s & n & Hg & Hn & Hres). destruct (goes_end _ _ _ _ _ _ _ _ _ _ Hg) as (ss' & Hss' & _ & <- & <-).
    exists ss', n. split_and!; done.
  - intros e b' (_ & _ & [He|(Hd & n & Hn & Hna & He)]); [by left|right]. split; [done|]. exists n.
    split_and!; [done| |done]. intros i Hi Ha. apply Hna. by exists i.
Qed.

(** C9: A batch of receipts is judged receipt by receipt against what the member
    holds. The batch finishes exactly the offsets of the confirmed receipts, with
    one event; it fails only when the storage does. *)
Theorem broker_batch_ack_exact env b stream consumer member receipts ss :
  reachable b -> env_ok env -> spacious b ->
  valid_name stream -> valid_name consumer -> valid_name member ->
  validate_ack_batch_receipts receipts = Ok tt -> br_streams b !! stream = Some ss ->
  let s0 := progress b stream consumer in
  wp (ack_batch env stream consumer member receipts)
    (fun items b' => exists ss' n, br_streams b' !! stream = Some ss' /\ (br_tick b <= n)%nat /\
       let held := holding env b ss stream consumer n in
       let confirmed o := exists r i, r ∈ receipts /\ dr_offset r = o /\ is_done s0 o = false /\
         held o = Some i /\ receipted member r i in
       items = (judgement member s0 held <$> receipts) /\
       (forall o, is_done (progress b' stream consumer) o = true <-> is_done s0 o = true \/ confirmed o) /\
       (forall o i, in_flight (ss_delivery ss') !! (consumer, o) = Some i <-> held o = Some i /\ ~ confirmed o))
    (fun e b' => broken e) b.
Proof.
  intros Hr Henv Hs Hv1 Hv2 Hv3 Hv4 Hss s0.
  destruct (starts_here b (reachable_inv b Hr) Hs stream consumer
    (receipts_cause env stream consumer member receipts b (ss_delivery ss)) (fun _ => False) ss Hss) as (es & _ & Hst & _).
  eapply wp_mono; [by apply (wp_ack_batch env Henv stream consumer member receipts (2 ^ 62) es (ss_delivery ss) b (fun _ _ => False))| |].
  - intros items b' (d & s & n & Hg & Hn & -> & Hdone & Hfl).
    destruct (goes_end _ _ _ _ _ _ _ _ _ _ Hg) as (ss' & Hss' & _ & <- & <-).
    exists ss', n. cbv zeta. split_and!; try done.
    + intros o. by rewrite Hdone, orb_true_iff, bool_decide_eq_true, elem_of_confirmed.
    + intros o i. rewrite <-elem_of_confirmed. unfold flight_of in Hfl. rewrite Hfl. case_bool_decide; naive_solver.
  - by intros e b' (_ & _ & [He|[]]).
Qed.

(** ** Publishing *)

(** C11: A publish is the abstract step on the history of its stream: a record
    with a new identity goes to the next offset and wakes the waiters, a record
    already stored under its request id with the same content is answered with
    its offset, anything else is refused and changes nothing. Only the log of the
    stream changes. *)
Theorem broker_publish_exact env b stream key payload request_id :
  let r := {| pr_key := key; pr_payload := payload; pr_request_id := request_id |} in
  reachable b -> env_ok env -> spacious b -> valid_name stream -> publishable r ->
  wp (publish_with_request_id env stream key payload request_id)
    (fun offset b' => grown stream b b' /\ exists es es' now, history stream b es /\ history stream b' es' /\
       publish_step now es r (Ok offset) es' /\
       wakeups stream b' = wakeups stream b + (vec_len es' - vec_len es))
    (fun e b' => grown stream b b' /\
       ((exists es now, history stream b es /\ history stream b' es /\ publish_step now es r (Err e) es) \/
        (br_streams b' = br_streams b /\ exists kind, e = Io kind "create failed"))) b.
Proof.
  intros r Hr Henv Hs Hv Hp.
  eapply wp_mono; [apply (wp_publish env Henv stream key payload request_id); try done;
    [by apply reachable_inv|by apply spacious_room]|..].
  - intros offset b' (_ & Hg & Hx). by split.
  - intros e b' [(_ & Hg & es & es' & now & Hh & Hh' & Hstep & _)|(_ & Hg & Hst & _ & Hx)]; (split; [done|]); [left|by right].
    exists es, now. assert (es' = es) as -> by (by inversion Hstep). done.
Qed.

Lemma publish_step_found now es r offset es' request_id :
  pr_request_id r = Some request_id -> publish_step now es r (Ok offset) es' ->
  exists e, published es' r = Some offset /\ vec_get es' offset = Some e /\
    same_content (pr_key r) (pr_payload r) e = true.
Proof.
  intros Hid Hstep. inversion Hstep as [Hnew Hs| |i e Hp He Hc|]; subst; [|by exists e].
  set (e := {| e_key := _ |}). exists e. unfold published in *. rewrite Hid in *. split_and!.
  - apply first_identity_snoc; [done|]. unfold has_identity, e, publish_identity. cbn. rewrite Hid.
    by rewrite !bool_decide_eq_true_2.
  - apply vec_get_snoc.
  - unfold same_content, e. cbn. by rewrite !bool_decide_eq_true_2.
Qed.

Lemma first_identity_app es es' id kind i :
  first_identity es id kind = Some i -> first_identity (es ++ es') id kind = Some i.
Proof.
  unfold first_identity, enumerate. rewrite enumerate_from_app, find_app.
  by destruct (List.find _ (enumerate_from 0 es)).
Qed.

(** C6: A publish with a request id happens once. After it has succeeded, and
    whatever requests, crashes and restarts follow, repeating it returns the same
    offset and stores nothing. *)
Theorem broker_publish_once env env' b b1 b2 stream key payload request_id offset :
  let r := {| pr_key := key; pr_payload := payload; pr_request_id := Some request_id |} in
  reachable b -> env_ok env -> env_ok env' -> spacious b -> spacious b2 -> valid_name stream -> publishable r ->
  publish_with_request_id env stream key payload (Some request_id) b = (Val offset, b1) ->
  rtc broker_step b1 b2 ->
  exists b3, publish_with_request_id env' stream key payload (Some request_id) b2 = (Val offset, b3) /\
    forall es, history stream b2 es -> history stream b3 es.
Proof.
  intros r Hr Henv Henv' Hs Hs2 Hv Hp Hrun Hsteps.
  assert (Hr1 : reachable b1).
  { eapply reach_step; [exact Hr|]. pose proof (step_op b env (OpPublish stream r) Henv Hp Hs) as Hst.
    cbn [run_op] in Hst. unfold bind in Hst. cbn [r pr_key pr_payload pr_request_id] in Hst. by rewrite Hrun in Hst. }
  assert (Hr2 : reachable b2).
  { by eapply steps_reachable. }
  pose proof (wp_publish env Henv stream key payload (Some request_id) Hv Hp b (reachable_inv b Hr)
    (spacious_room 1 b Hs ltac:(done))) as H1. unfold wp in H1. rewrite Hrun in H1.
  destruct H1 as (_ & _ & es & es1 & now & _ & Hh1 & Hstep & _).
  destruct (publish_step_found now es r offset es1 request_id eq_refl Hstep) as (e & Hpub & He & Hc).
  destruct (steps_keep b1 b2 Hr1 Hsteps) as [Hkeep _]. destruct (Hkeep stream es1 Hh1) as [es2 Hh2].
  pose proof (wp_publish env' Henv' stream key payload (Some request_id) Hv Hp b2 (reachable_inv b2 Hr2)
    (spacious_room 1 b2 Hs2 ltac:(done))) as H2. unfold wp in H2.
  assert (Hpub2 : published (es1 ++ es2) r = Some offset) by (by apply first_identity_app).
  assert (He2 : vec_get (es1 ++ es2) offset = Some e) by (by apply vec_get_app_l).
  assert (Hagain : forall out now' es' es3, history stream b2 es' -> publish_step now' es' r out es3 ->
    out = Ok offset /\ es3 = es').
  { intros out now' es' es3 Hh' Hst. rewrite (history_inj _ _ _ _ Hh' Hh2) in *.
    inversion Hst; subst; simplify_eq; try congruence; done. }
  destruct (publish_with_request_id env' stream key payload (Some request_id) b2) as [[o'|e'|] b3]; [..|done].
  - destruct H2 as (_ & _ & es' & es3 & now' & Hh' & Hh3 & Hst & _).
    destruct (Hagain _ _ _ _ Hh' Hst) as [[= ->] ->]. exists b3. split; [done|].
    intros x Hx. by rewrite (history_inj _ _ _ _ Hx Hh').
  - exfalso. destruct H2 as [(_ & _ & es' & es3 & now' & Hh' & Hh3 & Hst & _)|(_ & _ & _ & Hnone & _)].
    + by destruct (Hagain _ _ _ _ Hh' Hst).
    + unfold history in Hh2. rewrite Hnone in Hh2. rewrite Hh2 in He2. done.
Qed.

(** ** Batch polls *)




(** While the poll waits, the broker serves the requests that [choose] picks, in
    the order of the list; the poll is woken after the last one. *)
Definition serve (env : Env) (ops : list BrokerOp) (b : BrokerState) : BrokerState :=
  foldl (fun b op => (run_op env op b).2) b ops.

Definition serving (env : Env) (choose : N -> BrokerState -> list BrokerOp) (wake : N) : M unit :=
  fun b => (Val tt, serve env (choose wake b) b).

(** The brokers in which a round of the poll starts. *)
Inductive round_at (env : Env) (choose : N -> BrokerState -> list BrokerOp) (req : BatchRequest) (b : BrokerState) :
  BrokerState -> Prop :=
| round_first : round_at env choose req b b
| round_next b1 next b2 : round_at env choose req b b1 -> poll_batch_step env req b1 = (Val (Waiting next), b2) ->
    round_at env choose req b (serve env (choose (wake_at req next) b2) b2).

(** The requests are well formed, and none of them finds a full log. *)
Definition served_in_room (env : Env) (choose : N -> BrokerState -> list BrokerOp) (req : BatchRequest) (b : BrokerState) :
  Prop :=
  forall b1 next b2 ops rest, round_at env choose req b b1 -> poll_batch_step env req b1 = (Val (Waiting next), b2) ->
    choose (wake_at req next) b2 = ops ++ rest -> Forall op_ok ops /\ spacious (serve env ops b2).

Lemma serve_keeps env ops stream b :
  env_ok env -> inv None b -> is_Some (br_streams b !! stream) ->
  (forall ops1 ops2, ops = ops1 ++ ops2 -> Forall op_ok ops1 /\ spacious (serve env ops1 b)) ->
  inv None (serve env ops b) /\ spacious (serve env ops b) /\ is_Some (br_streams (serve env ops b) !! stream) /\
  (br_tick b <= br_tick (serve env ops b))%nat.
Proof.
  intros Henv. revert b. induction ops as [|op ops IH]; intros b Hi [ss Hss] Hall.
  { destruct (Hall [] [] eq_refl) as [_ Hs]. by split_and!; [| |eexists|]. }
  destruct (Hall [] (op :: ops) eq_refl) as [_ Hs]. destruct (Hall [op] ops eq_refl) as [[Hop _]%Forall_cons _].
  destruct (run_op_after env op b Henv Hop Hi Hs) as [_ [Hi' Hev]].
  destruct (ev_streams _ _ _ _ _ _ Hev stream ss Hss) as (ss' & Hss' & _).
  destruct (IH (run_op env op b).2 Hi') as (H1 & H2 & H3 & H4).
  - by eexists.
  - intros ops1 ops2 ->. destruct (Hall (op :: ops1) ops2 eq_refl) as [Hok Hsp]. by apply Forall_cons in Hok as [_ Hok].
  - split_and!; try done. pose proof (ev_tick _ _ _ _ _ _ Hev). cbn [serve foldl] in *. unfold serve in H4. lia.
Qed.

Lemma rounds_end env req choose k b b1 :
  env_ok env -> valid_name (ba_stream req) -> valid_name (ba_consumer req) -> served_in_room env choose req b ->
  round_at env choose req b b1 -> inv None b1 -> spacious b1 -> is_Some (br_streams b1 !! ba_stream req) ->
  (forall n, (br_tick b1 + k <= n)%nat -> ba_deadline req <= env_instant env n) ->
  (poll_batch_rounds env (S k) (serving env choose) req b1).1 <> Aborts.
Proof.
  intros Henv Hv1 Hv2 Hserved. revert b1. induction k as [|k IH]; intros b1 Hat1 Hi Hs [ss Hss] Hdl.
  all: destruct (inv_streams _ _ Hi _ _ Hss) as (es & Hok);
    pose proof (wp_batch_round_op env Henv b1 Hi Hs req ss es Hv1 Hv2 Hss (so_represents _ _ _ _ _ Hok)) as Hstep;
    unfold wp in Hstep; cbn [poll_batch_rounds]; unfold bind at 1;
    destruct (poll_batch_step env req b1) as [[[ms|next]|e|] b2] eqn:Estep; try done;
    pose proof (round_answers_goes _ _ _ _ _ _ _ Hstep) as (d & s & Hg);
    destruct Hstep as (f0 & n & _ & _ & [(ms & ? & _)|[_ (Hw & _ & _ & m & _ & _ & Hm & _)]]); [done|];
    apply andb_true_iff in Hw as [_ Hw%N.ltb_lt].
  - specialize (Hdl (br_tick b1)). lia.
  - pose proof Hg as [_ Hat]. destruct (goes_end _ _ _ _ _ _ _ _ _ _ Hg) as (ss2 & Hss2 & _).
    destruct (serve_keeps env (choose (wake_at req next) b2) (ba_stream req) b2) as (Hi3 & Hs3 & Hx3 & Ht3);
      [done|apply Hat|by eexists|intros ops1 ops2 E; by eapply Hserved|].
    unfold bind, serving at 1. apply IH; [by eapply round_next|done|done|done|]. intros n' Hn'. apply Hdl. lia.
Qed.

(** C12: A batch poll ends. When the clock has passed the deadline after [k] looks
    at it, at most [k + 1] rounds run, whatever requests the broker serves while
    the poll waits, as long as no log is full. *)
Theorem broker_batch_poll_ends env req choose k b :
  reachable b -> env_ok env -> spacious b ->
  valid_name (ba_stream req) -> valid_name (ba_consumer req) -> is_Some (br_streams b !! ba_stream req) ->
  served_in_room env choose req b ->
  (forall n, (br_tick b + k <= n)%nat -> ba_deadline req <= env_instant env n) ->
  (poll_batch_rounds env (S k) (serving env choose) req b).1 <> Aborts.
Proof. intros Hr Henv Hs Hv1 Hv2 Hx Ho Hdl. apply (rounds_end env req choose k b b); try done; [constructor|by apply reachable_inv]. Qed.

(** ** Policies and restarts *)

(**  Configuring a consumer returns a policy with the requested values that is
    durable when it returns: unchanged if it was already so, otherwise with the
    next version. It changes nothing else of the consumer. *)
Theorem broker_configure_durable env b stream consumer timeout attempts delay ss :
  reachable b -> env_ok env -> spacious b -> valid_name stream -> valid_name consumer ->
  validate_consumer_policy timeout attempts delay = Ok tt -> br_streams b !! stream = Some ss ->
  let s0 := progress b stream consumer in
  wp (configure_consumer env stream consumer timeout attempts delay)
    (fun p b' => ack_timeout_ms p = timeout /\ max_delivery_attempts p = attempts /\ retry_delay_ms p = delay /\
       progress b' stream consumer = set_policy s0 (Some p) /\
       match cs_policy s0 with
       | Some old => p = old \/ policy_version p = u64_saturating_add (policy_version old) 1
       | None => policy_version p = 1
       end)
    (fun e b' => broken e) b.
Proof.
  intros Hr Henv Hs Hv1 Hv2 Hv3 Hss s0.
  destruct (starts_here b (reachable_inv b Hr) Hs stream consumer (fun _ => False) (fun _ => False) ss Hss)
    as (es & _ & Hst & _).
  eapply wp_mono; [by apply (wp_configure env Henv stream consumer (2 ^ 62) es (ss_delivery ss) timeout attempts delay b (fun _ _ => False))| |].
  - intros p b' (H1 & H2 & H3 & d & Hg & Hv). destruct (goes_end _ _ _ _ _ _ _ _ _ _ Hg) as (ss' & _ & _ & _ & Hp).
    by split_and!.
  - by intros e b' (_ & _ & [He|[]]).
Qed.

(** C7: Opening the directory that a stopped broker left, even with a record cut
    off at the end of each file, gives a broker with the same histories and the
    same durable consumer states, and with nothing in flight. *)
Theorem broker_restart_refines b files config epoch tick :
  reachable b -> on_disk b files -> bc_max_delivery_attempts config <> Some 0 ->
  exists b', broker_open config files (br_consumers b) epoch tick = Ok b' /\
    (forall stream es, history stream b' es <-> history stream b es) /\
    (forall stream consumer, progress b' stream consumer = progress b stream consumer) /\
    (forall stream ss k, br_streams b' !! stream = Some ss -> in_flight (ss_delivery ss) !! k = None).
Proof.
  intros Hr Hd Hc. destruct (broker_open_spec config files epoch tick None b (reachable_inv b Hr) Hd Hc)
    as (b' & Ho & _ & Hco & _ & Hst).
  exists b'. split_and!; [done|..].
  - intros stream es. unfold history. rewrite Hst. by destruct (br_streams b !! stream).
  - intros stream consumer. unfold progress, files_of. by rewrite Hco.
  - intros stream ss k. rewrite Hst. destruct (br_streams b !! stream); [|done]. intros [= <-]. apply lookup_empty.
Qed.

(** ** Dead letters *)

Lemma wakeups_lookup stream b : wakeups stream b = default 0 (ss_notified <$> br_streams b !! stream).
Proof. unfold wakeups. by destruct (br_streams b !! stream). Qed.

Lemma dead_letter_record_wakeups env stream consumer record b n :
  wakeups n (dead_letter_record env stream consumer record b).2 = wakeups n b.
Proof.
  unfold dead_letter_record. unfold bind at 1. destruct (dead_letter_stream_name stream) as [target|]; [|done].
  unfold bind at 1. destruct (dead_letter_move_id _ _ _) as [id|]; [|done]. cbn [lift ret].
  unfold bind at 1, locked at 1. destruct (br_streams b !! stream) as [ss|]; [|done].
  unfold bind at 1. destruct (read_message _ _ _) as [m|]; [|done]. cbn [lift ret].
  unfold bind at 1. destruct (get_or_create_stream env target b) as [r b1] eqn:E.
  assert (Hb1 : wakeups n b1 = wakeups n b).
  { unfold get_or_create_stream, gets, bind in E. case_bool_decide as Hk; [by injection E as <- <-|].
    unfold insert_stream, effect, bind in E. destruct (env_create env _); [by injection E as <- <-|].
    injection E as <- <-. apply eq_None_not_Some in Hk. rewrite !wakeups_lookup. cbn.
    destruct (decide (n = target)) as [->|Hne]; [by rewrite lookup_insert_eq, Hk|by rewrite lookup_insert_ne]. }
  destruct r as [[]|e|]; [|done|done]. rewrite <-Hb1. clear E Hb1 b.
  unfold bind at 1, locked. destruct (br_streams b1 !! target) as [tss|] eqn:Ht; [|done].
  unfold bind at 1, effect. destruct (append_with_move_id _ _ _ _ _) as [r log].
  unfold bind at 1, put_stream, modify. set (b2 := set_streams _ _).
  assert (Hb2 : wakeups n b2 = wakeups n b1).
  { rewrite !wakeups_lookup. cbn. destruct (decide (n = target)) as [->|Hne];
      [by rewrite lookup_insert_eq, Ht|by rewrite lookup_insert_ne]. }
  by destruct r.
Qed.
End guarantees.

(** ** Concrete instances *)

Module ExampleRuns.
Import Example.
#[local] Existing Instance codec.
#[local] Existing Instance laws.

Lemma publish_ok : op_ok publish.
Proof. by split_and!. Qed.

Definition orders (b : BrokerState) : StreamState :=
  default (stream_new log_create) (br_streams b !! "orders").

Definition entry : Entry := entry_of example_io (Some "k") (as_bytes "x") (PublicId "r1").

(** One record is published, then delivered. *)
Definition published_one : BrokerState := run [publish].
Definition delivered_one : BrokerState := run [publish; poll].

Lemma published_reachable : reachable published_one.
Proof. apply example_run_reachable; [by repeat constructor; apply publish_ok|vm_compute; reflexivity]. Qed.

Lemma delivered_reachable : reachable delivered_one.
Proof. apply example_run_reachable; [by repeat constructor; apply publish_ok|vm_compute; reflexivity]. Qed.

Lemma published_spacious : spacious published_one.
Proof. apply spaciousb_ok. vm_compute. reflexivity. Qed.

Lemma delivered_spacious : spacious delivered_one.
Proof. apply spaciousb_ok. vm_compute. reflexivity. Qed.

Lemma published_orders : br_streams published_one !! "orders" = Some (orders published_one).
Proof. vm_compute. reflexivity. Qed.

Lemma delivered_orders : br_streams delivered_one !! "orders" = Some (orders delivered_one).
Proof. vm_compute. reflexivity. Qed.

Lemma entry_is_ok : entry_ok entry.
Proof.
  apply (entry_of_ok example_io (record (Some "k") (Some "r1"))); [by split_and!|by split_and!|].
  split_and!; vm_compute; discriminate.
Qed.

Lemma published_represents : represents (ss_log (orders published_one)) [entry].
Proof.
  split_and!; [vm_compute; reflexivity|constructor; [apply entry_is_ok|constructor]|vm_compute; discriminate].
Qed.

Lemma names_ok : valid_name "orders" /\ valid_name "billing" /\ valid_name "m1".
Proof. split_and!; apply (validate_name_Ok "stream" _ tt); reflexivity. Qed.

Definition ack : BrokerOp := OpAck "orders" "billing" "m1" 0 "7-1".

Lemma broker_invariant_witness :
  exists es i, represents (ss_log (orders delivered_one)) es /\
    in_flight (ss_delivery (orders delivered_one)) !! ("billing", 0) = Some i /\ if_offset i = 0.
Proof.
  destruct (broker_invariant delivered_one "orders" (orders delivered_one) delivered_reachable delivered_orders)
    as (es & Hrep & Hc). destruct (Hc "billing") as (_ & _ & Hf).
  destruct (in_flight (ss_delivery (orders delivered_one)) !! ("billing", 0)) as [i|] eqn:E;
    [|exfalso; vm_compute in E; discriminate E].
  exists es, i. split_and!; [done|done|]. by apply (Hf 0 i E).
Defined.

Lemma broker_never_panics_witness : (run_op env poll published_one).1 <> Aborts.
Proof.
  apply (broker_never_panics env poll published_one);
    [apply published_reachable|apply env_is_ok|exact I|apply published_spacious].
Defined.

Lemma broker_progress_has_cause_witness :
  op_target ack = ("orders", "billing") /\
  (acknowledges env ack delivered_one 0 \/
   (gives_up ack delivered_one 0 /\ moved "orders" "billing" (run_op env ack delivered_one).2 0)).
Proof.
  apply (broker_progress_has_cause env ack delivered_one "orders" "billing" 0).
  - apply delivered_reachable.
  - apply env_is_ok.
  - exact I.
  - apply delivered_spacious.
  - vm_compute. reflexivity.
  - vm_compute. reflexivity.
Defined.

Lemma broker_keeps_everything_witness :
  exists es', history "orders" delivered_one ([entry] ++ es').
Proof.
  destruct (broker_keeps_everything published_one delivered_one published_reachable) as [H _].
  - apply rtc_once. change delivered_one with (run_op env poll published_one).2.
    apply step_op; [apply env_is_ok|exact I|apply published_spacious].
  - apply H. unfold history. rewrite published_orders. apply published_represents.
Defined.


Lemma broker_ack_exact_witness :
  exists b', ack_group env "orders" "billing" "m1" 0 "7-1" delivered_one = (Val Acknowledged, b') /\
    forall o, is_done (progress b' "orders" "billing") o =
      is_done (progress delivered_one "orders" "billing") o || (o =? 0).
Proof.
  pose proof (broker_ack_exact env delivered_one "orders" "billing" "m1" 0 "7-1" (orders delivered_one)
    delivered_reachable env_is_ok delivered_spacious (proj1 names_ok) (proj1 (proj2 names_ok))
    (proj2 (proj2 names_ok)) delivered_orders) as H.
  assert (Hrun : exists b', ack_group env "orders" "billing" "m1" 0 "7-1" delivered_one = (Val Acknowledged, b'))
    by (eexists; vm_compute; reflexivity).
  destruct Hrun as (b' & E). unfold wp in H. rewrite E in H. destruct H as (ss' & n & _ & _ & _ & _ & H & _).
  exists b'. exact (conj E H).
Defined.

Lemma broker_batch_ack_exact_witness :
  exists b', ack_batch env "orders" "billing" "m1" [{| dr_offset := 0; dr_delivery_token := "7-1" |}] delivered_one =
      (Val [{| abi_offset := 0; abi_outcome := Confirmed |}], b') /\
    forall o, is_done (progress b' "orders" "billing") o = true -> o = 0.
Proof.
  pose proof (broker_batch_ack_exact env delivered_one "orders" "billing" "m1"
    [{| dr_offset := 0; dr_delivery_token := "7-1" |}] (orders delivered_one)
    delivered_reachable env_is_ok delivered_spacious (proj1 names_ok) (proj1 (proj2 names_ok))
    (proj2 (proj2 names_ok)) eq_refl delivered_orders) as H.
  assert (Hrun : exists b', ack_batch env "orders" "billing" "m1" [{| dr_offset := 0; dr_delivery_token := "7-1" |}]
    delivered_one = (Val [{| abi_offset := 0; abi_outcome := Confirmed |}], b'))
    by (eexists; vm_compute; reflexivity).
  destruct Hrun as (b' & E). unfold wp in H. rewrite E in H.
  destruct H as (ss' & n & _ & _ & _ & Hd & _). exists b'. split; [exact E|]. intros o Ho.
  destruct (proj1 (Hd o) Ho) as [Hs|(r & i & Hr & Hro & _)].
  - assert (Hp : committed_offset (progress delivered_one "orders" "billing") = 0) by (vm_compute; reflexivity).
    assert (Hq : acknowledged_offsets (progress delivered_one "orders" "billing") = ∅) by (vm_compute; reflexivity).
    unfold is_done in Hs. rewrite Hp, Hq in Hs. clear - Hs. apply orb_true_iff in Hs as [Hs|Hs].
    + apply N.ltb_lt in Hs. lia.
    + apply bool_decide_eq_true in Hs. set_solver.
  - apply list_elem_of_singleton in Hr. subst r. symmetry. exact Hro.
Defined.

Lemma broker_publish_exact_witness :
  wp (publish_with_request_id env "orders" (Some "k") (as_bytes "x") (Some "r1"))
    (fun offset b' => offset = 0 /\ grown "orders" published_one b') (fun _ _ => False) published_one.
Proof.
  pose proof (broker_publish_exact env published_one "orders" (Some "k") (as_bytes "x") (Some "r1")
    published_reachable env_is_ok published_spacious (proj1 names_ok) publish_ok) as H.
  assert (Hrun : exists b', publish_with_request_id env "orders" (Some "k") (as_bytes "x") (Some "r1") published_one =
    (Val 0, b')) by (eexists; vm_compute; reflexivity).
  destruct Hrun as (b' & E). unfold wp in H |- *. rewrite E in H |- *. destruct H as [Hg _]. exact (conj eq_refl Hg).
Defined.

Lemma broker_publish_once_witness :
  exists b', publish_with_request_id env "orders" (Some "k") (as_bytes "x") (Some "r1") delivered_one = (Val 0, b') /\
    forall es, history "orders" delivered_one es -> history "orders" b' es.
Proof.
  apply (broker_publish_once env env opened published_one delivered_one "orders" (Some "k") (as_bytes "x") "r1" 0).
  - apply opened_reachable.
  - apply env_is_ok.
  - apply env_is_ok.
  - apply spaciousb_ok. vm_compute. reflexivity.
  - apply delivered_spacious.
  - apply names_ok.
  - apply publish_ok.
  - vm_compute. reflexivity.
  - apply rtc_once. change delivered_one with (run_op env poll published_one).2.
    apply step_op; [apply env_is_ok|exact I|apply published_spacious].
Defined.



(** A batch request that waits longer. *)
Definition patient : BatchRequest :=
  {| ba_stream := "orders"; ba_consumer := "billing"; ba_member := "m1"; ba_response_member := None;
     ba_limits := {| max_records := 10; max_bytes := 1000; max_wait_ms := 15 |};
     ba_deadline := (clock (br_tick published_one) + 15) * 1000000; ba_token_seed := "7-9" |}.

(** While the poll waits another producer publishes and another consumer polls. *)
Definition busy (_ : N) (_ : BrokerState) : list BrokerOp :=
  [OpPublish "orders" (record None None); OpPoll "orders" "audit" "m2" (Some "m2") None].

(** The brokers of such a run have room. *)
Fixpoint rounds_fit (rounds : nat) (b : BrokerState) : bool :=
  match poll_batch_step env patient b, rounds with
  | (Val (Waiting next), b2), S rounds =>
    fits b2 (busy (wake_at patient next) b2) && spaciousb (serve env (busy (wake_at patient next) b2) b2)
    && rounds_fit rounds (serve env (busy (wake_at patient next) b2) b2)
  | (Val (Waiting _), _), O => false
  | _, _ => true
  end.

Lemma fits_prefix ops1 ops2 b : fits b (ops1 ++ ops2) = true -> spaciousb (serve env (ops1 ++ ops2) b) = true ->
  spaciousb (serve env ops1 b) = true.
Proof.
  revert b. induction ops1 as [|op ops1 IH]; intros b Hf Hs.
  - cbn [app] in *. destruct ops2; [done|]. by apply andb_true_iff in Hf as [Hf _].
  - apply andb_true_iff in Hf as [_ Hf]. by apply IH.
Qed.

Lemma rounds_fit_room rounds b : rounds_fit rounds b = true -> served_in_room env busy patient b.
Proof.
  intros Hfit b1 next b2 ops rest Hat Estep Eops.
  assert (H : exists rounds, rounds_fit rounds b1 = true).
  { clear Estep. induction Hat as [|b1 next' b2' Hat IH Estep]; [by eexists|]. destruct IH as [r Hr].
    destruct r as [|r]; cbn [rounds_fit] in Hr; rewrite Estep in Hr; [done|]. exists r. by apply andb_true_iff in Hr as [_ Hr]. }
  destruct H as [[|r] Hr]; cbn [rounds_fit] in Hr; rewrite Estep in Hr; [done|].
  apply andb_true_iff in Hr as [Hr _]. apply andb_true_iff in Hr as [Hf Hs]. split.
  - assert (Hok : Forall op_ok (ops ++ rest)).
    { rewrite <-Eops. apply Forall_cons. split; [split_and!; vm_compute; congruence|]. by apply Forall_cons. }
    by apply Forall_app in Hok as [Hok _].
  - apply spaciousb_ok. eapply fits_prefix; rewrite <-Eops; done.
Qed.

Lemma broker_batch_poll_ends_witness :
  (exists next, (poll_batch_step env patient published_one).1 = Val (Waiting next)) /\
  (poll_batch_rounds env 20 (serving env busy) patient published_one).1 <> Aborts.
Proof.
  split; [eexists; vm_compute; reflexivity|].
  apply (broker_batch_poll_ends env patient busy 19 published_one).
  - apply published_reachable.
  - apply env_is_ok.
  - apply published_spacious.
  - apply names_ok.
  - apply names_ok.
  - vm_compute. eexists. reflexivity.
  - apply (rounds_fit_room 5). vm_compute. reflexivity.
  - intros n Hn. change (br_tick published_one) with 2%nat in Hn. cbn [env env_instant patient ba_deadline].
    change (br_tick published_one) with 2%nat. unfold clock. lia.
Defined.

Lemma broker_configure_durable_witness :
  exists b', configure_consumer env "orders" "billing" 5000 (Some 3) 100 published_one =
      (Val (policy_configured 1 5000 (Some 3) 100), b') /\
    progress b' "orders" "billing" =
      set_policy (progress published_one "orders" "billing") (Some (policy_configured 1 5000 (Some 3) 100)).
Proof.
  pose proof (broker_configure_durable env published_one "orders" "billing" 5000 (Some 3) 100 (orders published_one)
    published_reachable env_is_ok published_spacious (proj1 names_ok) (proj1 (proj2 names_ok)) eq_refl
    published_orders) as H.
  assert (Hrun : exists b', configure_consumer env "orders" "billing" 5000 (Some 3) 100 published_one =
    (Val (policy_configured 1 5000 (Some 3) 100), b')) by (eexists; vm_compute; reflexivity).
  destruct Hrun as (b' & E). unfold wp in H. rewrite E in H. destruct H as (_ & _ & _ & H & _).
  exists b'. exact (conj E H).
Defined.

(** The directory after a crash in the middle of the next append. *)
Definition crashed : list (string * list byte) :=
  [("orders.log", log_file (ss_log (orders delivered_one)) ++ take 20 (encode_entry 1 entry)); ("notes.txt", [])].

Lemma crashed_on_disk : on_disk delivered_one crashed.
Proof.
  assert (Hdom : forall name ss, br_streams delivered_one !! name = Some ss -> name = "orders").
  { assert (H : bool_decide (map_Forall (fun name _ => name = "orders") (br_streams delivered_one)) = true)
      by (vm_compute; reflexivity).
    apply bool_decide_eq_true in H. intros name ss Hss. exact (H name ss Hss). }
  split.
  - intros file bytes name [H|[H|H%not_elem_of_nil]%elem_of_cons]%elem_of_cons Hn; [| |done];
      apply pair_equal_spec in H as [-> ->].
    + change (stream_of_file "orders.log") with (Some "orders") in Hn. injection Hn as <-.
      exists (orders delivered_one), (take 20 (encode_entry 1 entry)). split_and!; [apply delivered_orders|done|].
      apply torn_prefix; [apply entry_is_ok|vm_compute; discriminate|vm_compute; lia].
    + change (stream_of_file "notes.txt") with (@None string) in Hn. discriminate Hn.
  - intros name ss Hss. rewrite (Hdom name ss Hss). eexists. by left.
Qed.

Lemma broker_restart_refines_witness :
  exists b', broker_open config crashed (br_consumers delivered_one) 8 0 = Ok b' /\
    progress b' "orders" "billing" = progress delivered_one "orders" "billing".
Proof.
  destruct (broker_restart_refines delivered_one crashed config 8 0) as (b' & E & _ & Hp & _).
  - apply delivered_reachable.
  - apply crashed_on_disk.
  - discriminate.
  - exists b'. exact (conj E (Hp "orders" "billing")).
Defined.

(**  Copying a record to the dead-letter stream wakes no waiter of that
    stream, in contrast to a publish: in the example a poll moves the record whose
    attempts are exhausted, the dead-letter stream has one record more, and its
    wakeups are as before. *)
Theorem dead_letter_wakes_nobody :
  (forall env stream consumer record b n,
     wakeups n (dead_letter_record env stream consumer record b).2 = wakeups n b) /\
  exists b es, reachable b /\ spacious b /\
    history "orders.dead-letter" b [] /\ is_Some (br_streams b !! "orders.dead-letter") /\
    let b' := (run_op env poll b).2 in
    history "orders.dead-letter" b' es /\ es <> [] /\
    wakeups "orders.dead-letter" b' = wakeups "orders.dead-letter" b.
Proof.
  split; [apply dead_letter_record_wakeups|].
  set (b := run [OpCreateStream "orders.dead-letter"; publish; poll; OpHealth; OpInspect "orders" "billing"; OpInspect "orders" "billing"; OpInspect "orders" "billing"]).
  assert (Hr : reachable b) by (apply example_run_reachable; [by repeat constructor; apply publish_ok|vm_compute; reflexivity]).
  assert (Hs : spacious b) by (apply spaciousb_ok; vm_compute; reflexivity).
  destruct (run_op_after env poll b env_is_ok I (reachable_inv b Hr) Hs) as [_ [Hi' _]].
  destruct (br_streams (run_op env poll b).2 !! "orders.dead-letter") as [ss|] eqn:Hss;
    [|exfalso; vm_compute in Hss; discriminate Hss].
  destruct (inv_streams _ _ Hi' _ _ Hss) as (es & Hok). exists b, es. cbv zeta. split_and!; [done|done| | | | |].
  - unfold history. vm_compute. split_and!; [reflexivity|constructor|discriminate].
  - vm_compute. eexists. reflexivity.
  - unfold history. rewrite Hss. by eapply so_represents.
  - intros ->. pose proof (so_log _ _ _ _ _ Hok) as E.
    assert (Hn : log_next_offset <$> (ss_log <$> br_streams (run_op env poll b).2 !! "orders.dead-letter") = Some 1)
      by (vm_compute; reflexivity).
    rewrite Hss in Hn. cbn in Hn. rewrite E in Hn. discriminate Hn.
  - vm_compute. reflexivity.
Qed.
End ExampleRuns.
