(* ===== verification/RaftState.v ===== *)
(** The replicated state of one Raft group: the types of
    crates/runnel-raft/src/state_machine.rs and the per-consumer delivery state
    of crates/runnel-raft/src/delivery.rs.

    Constructors of [CommandResponse] carry the prefix [R], since the engine's
    errors have some of the same names. A [LogId] belongs to openraft: what the
    state machine uses of it is its text, so a log id is a [string] here. *)

From S2P Require Import Prelude Engine RecordFormat Names.

Local Open Scope N_scope.

(** ** Streams *)

Record StoredMessage := {
  sm_key : option string;
  sm_payload : list byte;
  sm_published_at_ms : N;
}.

Inductive StreamLifecycle := Creating | Active.

#[export] Instance StreamLifecycle_eq_dec : EqDecision StreamLifecycle.
Proof. solve_decision. Defined.

Record StreamMetadata := {
  smd_stream_id : string;
  smd_group_id : string;
  smd_lifecycle : StreamLifecycle;
}.

Record StreamState := {
  ss_stream_id : string;
  ss_group_id : string;
  ss_lifecycle : StreamLifecycle;
  ss_messages : list StoredMessage;
}.

Inductive GroupKind :=
| Combined
| Metadata
| Data (stream stream_id group_id : string).

#[export] Instance GroupKind_eq_dec : EqDecision GroupKind.
Proof. solve_decision. Defined.

(** [matches!(kind, GroupKind::Metadata)] *)
Definition kind_is_metadata (kind : GroupKind) : bool :=
  match kind with Metadata => true | _ => false end.

(** [matches!(kind, GroupKind::Data { .. })] *)
Definition kind_is_data (kind : GroupKind) : bool :=
  match kind with Data _ _ _ => true | _ => false end.

Definition stream_active (stream_id group_id : string) : StreamState :=
  {| ss_stream_id := stream_id; ss_group_id := group_id; ss_lifecycle := Active;
     ss_messages := [] |}.

Definition stream_identity (stream : string) : string * string :=
  ("stream/" +:+ stream, "group/" +:+ stream +:+ "/data").

Definition stream_metadata (s : StreamState) (stream : string) : StreamMetadata :=
  let '(stream_id, group_id) := stream_identity stream in
  {| smd_stream_id := if decide (ss_stream_id s = "") then stream_id else ss_stream_id s;
     smd_group_id := if decide (ss_group_id s = "") then group_id else ss_group_id s;
     smd_lifecycle := ss_lifecycle s |}.

Definition is_active (s : StreamState) : bool := bool_decide (ss_lifecycle s = Active).

Definition push_message (s : StreamState) (m : StoredMessage) : StreamState :=
  {| ss_stream_id := ss_stream_id s; ss_group_id := ss_group_id s;
     ss_lifecycle := ss_lifecycle s; ss_messages := ss_messages s ++ [m] |}.

(** ** Group consumers *)

Record GroupDelivery := {
  gd_member : string;
  gd_key : option string;
  gd_delivery_attempt : N;
  gd_delivery_token : string;
  gd_requires_receipt : bool;
  gd_deadline_ms : N;
}.

Record GroupRetrySchedule := {
  grs_retry_not_before_ms : N;
  grs_key : option string;
}.

Record GroupConsumerState := {
  gc_committed_offset : Offset;
  gc_acknowledged_offsets : gset Offset;
  gc_delivery_attempts : gmap Offset N;
  gc_policy : option ConsumerPolicy;
  gc_delivery_policies : gmap Offset ConsumerPolicy;
  gc_in_flight : gmap Offset GroupDelivery;
  gc_retry_not_before : gmap Offset GroupRetrySchedule;
}.

Definition group_consumer_default : GroupConsumerState :=
  {| gc_committed_offset := 0; gc_acknowledged_offsets := ∅; gc_delivery_attempts := ∅;
     gc_policy := None; gc_delivery_policies := ∅; gc_in_flight := ∅;
     gc_retry_not_before := ∅ |}.

(** [GroupConsumerState { committed_offset, ..GroupConsumerState::default() }] *)
Definition group_consumer_at (committed : Offset) : GroupConsumerState :=
  {| gc_committed_offset := committed; gc_acknowledged_offsets := ∅;
     gc_delivery_attempts := ∅; gc_policy := None; gc_delivery_policies := ∅;
     gc_in_flight := ∅; gc_retry_not_before := ∅ |}.

Definition validate_pinned_policies (c : GroupConsumerState) : Result unit string :=
  if negb (bool_decide (btree_keys (gc_delivery_attempts c) =
                        btree_keys (gc_delivery_policies c))) then
    Err "delivery attempts and pinned policies must have identical offsets"
  else if existsb (fun attempt => attempt =? 0) (btree_values (gc_delivery_attempts c)) then
    Err "delivery attempts must be positive"
  else if existsb (fun '(offset, delivery) =>
      negb (bool_decide (gc_delivery_attempts c !! offset = Some (gd_delivery_attempt delivery))))
      (btree_items (gc_in_flight c)) then
    Err "in-flight delivery must match its pinned attempt"
  else if existsb (fun offset =>
      negb (bool_decide (is_Some (gc_delivery_attempts c !! offset)))
      || bool_decide (is_Some (gc_in_flight c !! offset))) (btree_keys (gc_retry_not_before c)) then
    Err "retry schedule must belong to a non-in-flight attempted offset"
  else if existsb (fun offset => offset <? gc_committed_offset c) (btree_keys (gc_in_flight c))
      || existsb (fun offset => offset <? gc_committed_offset c)
           (btree_keys (gc_delivery_attempts c)) then
    Err "uncommitted delivery state must be at or after the committed offset"
  else Ok tt.

(** ** The snapshot state *)

Record SnapshotState := {
  st_streams : gmap string StreamState;
  st_consumers : gmap (string * string) Offset;
  st_group_consumers : gmap (string * string) GroupConsumerState;
  st_lease_clock_ms : N;
  st_dedup : gmap string (gmap string Offset);
  st_redeliveries : N;
  st_dead_letters : N;
}.

Definition snapshot_default : SnapshotState :=
  {| st_streams := ∅; st_consumers := ∅; st_group_consumers := ∅; st_lease_clock_ms := 0;
     st_dedup := ∅; st_redeliveries := 0; st_dead_letters := 0 |}.

(** Assignments to one field of the state. *)
Definition set_streams (st : SnapshotState) v :=
  {| st_streams := v; st_consumers := st_consumers st;
     st_group_consumers := st_group_consumers st; st_lease_clock_ms := st_lease_clock_ms st;
     st_dedup := st_dedup st; st_redeliveries := st_redeliveries st;
     st_dead_letters := st_dead_letters st |}.
Definition set_consumers (st : SnapshotState) v :=
  {| st_streams := st_streams st; st_consumers := v;
     st_group_consumers := st_group_consumers st; st_lease_clock_ms := st_lease_clock_ms st;
     st_dedup := st_dedup st; st_redeliveries := st_redeliveries st;
     st_dead_letters := st_dead_letters st |}.
Definition set_group_consumers (st : SnapshotState) v :=
  {| st_streams := st_streams st; st_consumers := st_consumers st; st_group_consumers := v;
     st_lease_clock_ms := st_lease_clock_ms st; st_dedup := st_dedup st;
     st_redeliveries := st_redeliveries st; st_dead_letters := st_dead_letters st |}.
Definition set_lease_clock (st : SnapshotState) v :=
  {| st_streams := st_streams st; st_consumers := st_consumers st;
     st_group_consumers := st_group_consumers st; st_lease_clock_ms := v;
     st_dedup := st_dedup st; st_redeliveries := st_redeliveries st;
     st_dead_letters := st_dead_letters st |}.
Definition set_dedup (st : SnapshotState) v :=
  {| st_streams := st_streams st; st_consumers := st_consumers st;
     st_group_consumers := st_group_consumers st; st_lease_clock_ms := st_lease_clock_ms st;
     st_dedup := v; st_redeliveries := st_redeliveries st;
     st_dead_letters := st_dead_letters st |}.
Definition set_redeliveries (st : SnapshotState) v :=
  {| st_streams := st_streams st; st_consumers := st_consumers st;
     st_group_consumers := st_group_consumers st; st_lease_clock_ms := st_lease_clock_ms st;
     st_dedup := st_dedup st; st_redeliveries := v; st_dead_letters := st_dead_letters st |}.
Definition set_dead_letters (st : SnapshotState) v :=
  {| st_streams := st_streams st; st_consumers := st_consumers st;
     st_group_consumers := st_group_consumers st; st_lease_clock_ms := st_lease_clock_ms st;
     st_dedup := st_dedup st; st_redeliveries := st_redeliveries st; st_dead_letters := v |}.

(** ** Commands and responses *)

Inductive Command :=
| CreateStream (stream : string) (stream_id group_id : option string)
| InitializeDataStream (stream stream_id group_id : string)
| ActivateStream (stream : string)
| Publish (stream : string) (key : option string) (payload : list byte)
    (published_at_ms : N) (request_id : option string)
| Ack (stream consumer : string) (offset : Offset)
| ConfigureConsumer (stream consumer : string) (ack_timeout_ms : N)
    (max_delivery_attempts : option N) (retry_delay_ms : N)
| Replay (stream consumer : string) (offset : Offset)
| PollGroup (stream consumer member : string) (response_member : option string)
    (max_response_bytes now_ms lease_deadline_ms : N) (max_delivery_attempts : option N)
    (legacy_ack_timeout_ms policy_version : option N)
| PollGroupBatch (stream consumer member : string) (response_member : option string)
    (max_records max_bytes : N) (token_seed : string) (now_ms lease_deadline_ms : N)
    (max_delivery_attempts legacy_ack_timeout_ms policy_version : option N)
    (transition_only : bool)
| AckGroup (stream consumer member : string) (offset : Offset) (delivery_token : string)
    (now_ms : N)
| AckGroupBatch (stream consumer member : string) (receipts : list DeliveryReceipt)
    (now_ms : N).

Inductive CommandResponse :=
| RStreamCreated (created : bool)
| RDataStreamInitialized (initialized : bool)
| RStreamActivated (activated : bool)
| RPublished (offset : Offset)
| RRequestIdContentConflict
| RAcknowledged
| RConsumerPolicy (policy : ConsumerPolicy)
| RAlreadyAcknowledged
| ROutOfOrderAck (expected received : Offset)
| RGroupPoll (result : PollResult)
| RGroupPollResponseTooLarge (max_bytes : N)
| RGroupBatchPoll (messages : list Message) (collection_complete : bool)
    (terminal_transitions : N)
| RGroupBatchPollActiveSetLimitExceeded
| RGroupBatchPollRecordTooLarge (max_bytes : N)
| RReplay (result : ReplayMessage)
| RHistoryUnavailable (requested_offset earliest_offset next_offset : Offset)
| RGroupAcknowledged
| RGroupAlreadyAcknowledged
| RGroupAckNotInFlight (consumer : string) (offset : Offset)
| RGroupStaleDelivery (consumer : string) (offset : Offset)
| RGroupBatchAcknowledged (outcomes : list AckBatchItem)
| RStreamNotFound
| RNoop.
