(* ===== verification/RaftDelivery.v ===== *)
(** Group delivery in the replicated state machine:
    crates/runnel-raft/src/delivery.rs.

    The handlers return an [option]: [None] is a panic of the Rust code (an
    [expect] that fails) or a loop that runs out of the fuel given to it, which
    the number of stored messages bounds. [Some (response, state)] is the
    response and the new state. *)

From S2P Require Import Prelude Engine RecordFormat Names RaftState.

Local Open Scope N_scope.

(** ** Requests *)

Record GroupPollRequest := {
  gp_stream : string;
  gp_consumer : string;
  gp_member : string;
  gp_response_member : option string;
  gp_max_response_bytes : N;
  gp_now_ms : N;
  gp_lease_deadline_ms : N;
  gp_max_delivery_attempts : option N;
  gp_legacy_ack_timeout_ms : option N;
  gp_policy_version : option N;
}.

Record GroupAckRequest := {
  ga_stream : string;
  ga_consumer : string;
  ga_member : string;
  ga_offset : Offset;
  ga_delivery_token : string;
  ga_now_ms : N;
}.

Record GroupBatchPollRequest := {
  gb_stream : string;
  gb_consumer : string;
  gb_member : string;
  gb_response_member : option string;
  gb_max_records : N;
  gb_max_bytes : N;
  gb_token_seed : string;
  gb_now_ms : N;
  gb_lease_deadline_ms : N;
  gb_max_delivery_attempts : option N;
  gb_legacy_ack_timeout_ms : option N;
  gb_policy_version : option N;
  gb_transition_only : bool;
}.

Record GroupBatchAckRequest := {
  gba_stream : string;
  gba_consumer : string;
  gba_member : string;
  gba_receipts : list DeliveryReceipt;
  gba_now_ms : N;
}.

(** ** Shared helpers *)

Definition lease_expired (deadline_ms now_ms : N) : bool := deadline_ms <=? now_ms.

Definition observe_lease_clock (st : SnapshotState) (observed_ms : N) : N * SnapshotState :=
  let st := set_lease_clock st (N.max (st_lease_clock_ms st) observed_ms) in
  (st_lease_clock_ms st, st).

Definition raft_dead_letter_stream_name (stream : string) : string :=
  let name := stream +:+ DEAD_LETTER_SUFFIX in
  if str_len name <=? 128 then name
  else
    let hash := foldl (fun hash b => u64_wrapping_mul (N.lxor hash (Byte.to_N b)) 0x100000001b3)
                  0xcbf29ce484222325 (as_bytes stream) in
    DEAD_LETTER_HASH_PREFIX +:+ hex16 hash.

Definition is_dead_letter_stream (st : SnapshotState) (stream : string) : bool :=
  if ends_with stream DEAD_LETTER_SUFFIX then true
  else if negb (starts_with stream DEAD_LETTER_HASH_PREFIX) then false
  else existsb (fun source => bool_decide (raft_dead_letter_stream_name source = stream))
         (map_to_list (st_streams st)).*1.

(** The test each handler opens with: the stream exists and is active. *)
Definition stream_is_active (st : SnapshotState) (stream : string) : bool :=
  is_some_and is_active (st_streams st !! stream).

(** [if !state.group_consumers.contains_key(..) { insert(..) }] *)
Definition ensure_group_consumer (st : SnapshotState) (consumer_key : string * string) :
  SnapshotState :=
  match st_group_consumers st !! consumer_key with
  | Some _ => st
  | None =>
    let committed := default 0 (st_consumers st !! consumer_key) in
    set_group_consumers st
      (<[consumer_key := group_consumer_at committed]> (st_group_consumers st))
  end.

(** The policy of an attempted offset is the pinned one; the [expect] on it is
    the [None] case. *)
Definition group_policy_for_offset (c : GroupConsumerState) (offset : Offset) (attempts : N)
  (legacy_policy : ConsumerPolicy) (version : option N) : option ConsumerPolicy :=
  policy ←
    (if 0 <? attempts then gc_delivery_policies c !! offset
     else
       Some (default legacy_policy
               (match gc_delivery_policies c !! offset with
                | Some policy => Some policy
                | None => gc_policy c
                end)));
  if is_some_and (fun version =>
       is_some_and (fun current => policy_version current =? version) (gc_policy c)) version
  then Some policy
  else if attempts =? 0 then Some (default policy (gc_policy c))
  else Some policy.

(** The [while] loop that moves the committed offset over acknowledged ones; it
    removes one acknowledged offset per round. *)
Fixpoint advance_group_committed (fuel : nat) (committed : Offset) (acknowledged : gset Offset)
  (policies : gmap Offset ConsumerPolicy) (retries : gmap Offset GroupRetrySchedule) :
  Offset * gset Offset * gmap Offset ConsumerPolicy * gmap Offset GroupRetrySchedule :=
  match fuel with
  | O => (committed, acknowledged, policies, retries)
  | S fuel =>
    if decide (committed ∈ acknowledged) then
      advance_group_committed fuel (u64_saturating_add committed 1)
        (acknowledged ∖ {[committed]}) (delete committed policies) (delete committed retries)
    else (committed, acknowledged, policies, retries)
  end.

Definition acknowledge_group_offset (c : GroupConsumerState) (offset : Offset) :
  GroupConsumerState :=
  let in_flight := delete offset (gc_in_flight c) in
  let attempts := delete offset (gc_delivery_attempts c) in
  let policies := delete offset (gc_delivery_policies c) in
  let retries := delete offset (gc_retry_not_before c) in
  let '(committed, acknowledged, policies, retries) :=
    if offset =? gc_committed_offset c then
      advance_group_committed (size (gc_acknowledged_offsets c))
        (u64_saturating_add (gc_committed_offset c) 1) (gc_acknowledged_offsets c)
        policies retries
    else (gc_committed_offset c, {[offset]} ∪ gc_acknowledged_offsets c, policies, retries) in
  {| gc_committed_offset := committed; gc_acknowledged_offsets := acknowledged;
     gc_delivery_attempts := attempts; gc_policy := gc_policy c;
     gc_delivery_policies := policies; gc_in_flight := in_flight;
     gc_retry_not_before := retries |}.

Definition retry_filter_step (now_ms : N) (acc : gset Offset * gset string)
  (p : Offset * GroupRetrySchedule) : gset Offset * gset string :=
  let '(offsets, keys) := acc in
  let '(offset, schedule) := p in
  if grs_retry_not_before_ms schedule <=? now_ms then (offsets, keys)
  else ({[offset]} ∪ offsets,
        match grs_key schedule with Some key => {[key]} ∪ keys | None => keys end).

Definition retry_filter (c : GroupConsumerState) (now_ms : N) : gset Offset * gset string :=
  foldl (retry_filter_step now_ms) (∅, ∅) (btree_items (gc_retry_not_before c)).

Definition remove_in_flight (c : GroupConsumerState) (offset : Offset) : GroupConsumerState :=
  {| gc_committed_offset := gc_committed_offset c;
     gc_acknowledged_offsets := gc_acknowledged_offsets c;
     gc_delivery_attempts := gc_delivery_attempts c; gc_policy := gc_policy c;
     gc_delivery_policies := gc_delivery_policies c;
     gc_in_flight := delete offset (gc_in_flight c);
     gc_retry_not_before := gc_retry_not_before c |}.

Definition schedule_retry (c : GroupConsumerState) (offset : Offset) (s : GroupRetrySchedule) :
  GroupConsumerState :=
  {| gc_committed_offset := gc_committed_offset c;
     gc_acknowledged_offsets := gc_acknowledged_offsets c;
     gc_delivery_attempts := gc_delivery_attempts c; gc_policy := gc_policy c;
     gc_delivery_policies := gc_delivery_policies c; gc_in_flight := gc_in_flight c;
     gc_retry_not_before := <[offset := s]> (gc_retry_not_before c) |}.

(** One round of the loop over the expired deliveries. *)
Definition expire_delivery (now_ms : N) (legacy_policy : ConsumerPolicy) (c : GroupConsumerState)
  (expired : Offset * GroupDelivery) : option GroupConsumerState :=
  let '(offset, delivery) := expired in
  let c := remove_in_flight c offset in
  match gc_retry_not_before c !! offset with
  | Some _ => Some c
  | None =>
    let attempts := default 0 (gc_delivery_attempts c !! offset) in
    policy ← group_policy_for_offset c offset attempts legacy_policy None;
    if attempts_exhausted policy attempts || (retry_delay_ms policy =? 0) then Some c
    else
      Some (schedule_retry c offset
        {| grs_retry_not_before_ms := u64_saturating_add now_ms (retry_delay_ms policy);
           grs_key := gd_key delivery |})
  end.

Fixpoint expire_deliveries (now_ms : N) (legacy_policy : ConsumerPolicy) (c : GroupConsumerState)
  (expired : list (Offset * GroupDelivery)) : option GroupConsumerState :=
  match expired with
  | [] => Some c
  | e :: expired =>
    c ← expire_delivery now_ms legacy_policy c e;
    expire_deliveries now_ms legacy_policy c expired
  end.

Definition expired_deliveries (c : GroupConsumerState) (now_ms : N) :
  list (Offset * GroupDelivery) :=
  filter (fun p => lease_expired (gd_deadline_ms p.2) now_ms = true)
    (btree_items (gc_in_flight c)).

Definition observe_expired_deliveries (st : SnapshotState) (stream consumer : string) (now_ms : N)
  (legacy_policy : ConsumerPolicy) : option SnapshotState :=
  c ← st_group_consumers st !! (stream, consumer);
  c ← expire_deliveries now_ms legacy_policy c (expired_deliveries c now_ms);
  Some (set_group_consumers st (<[(stream, consumer) := c]> (st_group_consumers st))).

(** The dead-letter branch of both polls: copy the record to the dead-letter
    stream and acknowledge its offset. *)
Definition dead_letter_group_offset (st : SnapshotState) (stream : string)
  (consumer_key : string * string) (c : GroupConsumerState) (offset : Offset)
  (original : StoredMessage) : SnapshotState :=
  let dead_letter_stream := raft_dead_letter_stream_name stream in
  let '(stream_id, group_id) := stream_identity dead_letter_stream in
  let target := default (stream_active stream_id group_id)
                  (st_streams st !! dead_letter_stream) in
  let st := set_streams st
              (<[dead_letter_stream := push_message target original]> (st_streams st)) in
  let st := set_group_consumers st
              (<[consumer_key := acknowledge_group_offset c offset]> (st_group_consumers st)) in
  set_dead_letters st (u64_saturating_add (st_dead_letters st) 1).

(** [if policy_version != policy.configured.then_some(policy.version)] *)
Definition effective_deadline_ms (version : option N) (policy : ConsumerPolicy)
  (now_ms lease_deadline_ms : N) : N :=
  if decide (version = (if configured policy then Some (policy_version policy) else None))
  then lease_deadline_ms
  else u64_saturating_add now_ms (ack_timeout_ms policy).

(** Some live delivery of the consumer holds the key. *)
Definition key_in_flight (c : GroupConsumerState) (key : string) : bool :=
  existsb (fun delivery => bool_decide (gd_key delivery = Some key)) (btree_values (gc_in_flight c)).

Definition delivered_message (stream : string) (offset : Offset) (m : StoredMessage)
  (token : string) (attempt : N) : Message :=
  {| msg_stream := stream; msg_offset := offset; msg_key := sm_key m;
     msg_payload := sm_payload m; msg_published_at_ms := sm_published_at_ms m;
     msg_delivery_token := Some token; msg_delivery_attempt := Some attempt |}.

Definition group_poll_message (stream : string) (offset : Offset)
  (messages : list StoredMessage) (delivery : GroupDelivery) : CommandResponse :=
  match vec_get messages offset with
  | None => RStreamNotFound
  | Some m =>
    RGroupPoll (PollMessage
      (delivered_message stream offset m (gd_delivery_token delivery)
         (gd_delivery_attempt delivery)))
  end.

(** ** Single poll *)

(** The [find] closure of [group_poll_response_upper_bound]. *)
Definition sizing_eligible (c : GroupConsumerState) (p : Offset * StoredMessage) : bool :=
  let '(offset, message) := p in
  if bool_decide (offset ∈ gc_acknowledged_offsets c)
     || bool_decide (is_Some (gc_in_flight c !! offset))
  then false
  else is_none_or (fun key => negb (key_in_flight c key)) (sm_key message).

Fixpoint sizing_loop (fuel : nat) (st : SnapshotState) (request : GroupPollRequest)
  (messages : list StoredMessage) (legacy_policy : ConsumerPolicy) (token : string)
  (c : GroupConsumerState) : option (option N) :=
  match fuel with
  | O => None
  | S fuel =>
    match List.find (sizing_eligible c)
            (filter (fun p => gc_committed_offset c <= p.1) (enumerate messages)) with
    | None => Some None
    | Some (offset, stored) =>
      let attempts := default 0 (gc_delivery_attempts c !! offset) in
      policy ← group_policy_for_offset c offset attempts legacy_policy
                 (gp_policy_version request);
      if attempts_exhausted policy attempts && negb (is_dead_letter_stream st (gp_stream request))
      then sizing_loop fuel st request messages legacy_policy token
             (acknowledge_group_offset c offset)
      else
        Some (Some (poll_message_response_upper_bound_parts (gp_stream request)
          (gp_consumer request) (gp_response_member request) offset (sm_key stored)
          (vec_len (sm_payload stored)) (sm_published_at_ms stored) (Some token)
          (Some (u32_saturating_add attempts 1))
          (bool_decide (is_Some (gp_response_member request)))))
    end
  end.

(** [in_flight.retain(|_, delivery| !lease_expired(..))] *)
Definition retain_live (c : GroupConsumerState) (now_ms : N) : GroupConsumerState :=
  {| gc_committed_offset := gc_committed_offset c;
     gc_acknowledged_offsets := gc_acknowledged_offsets c;
     gc_delivery_attempts := gc_delivery_attempts c; gc_policy := gc_policy c;
     gc_delivery_policies := gc_delivery_policies c;
     gc_in_flight := filter (fun p => lease_expired (gd_deadline_ms p.2) now_ms = false)
                       (gc_in_flight c);
     gc_retry_not_before := gc_retry_not_before c |}.

Definition member_delivery (c : GroupConsumerState) (member : string) :
  option (Offset * GroupDelivery) :=
  List.find (fun p => bool_decide (gd_member p.2 = member)) (btree_items (gc_in_flight c)).

Definition group_poll_response_upper_bound (st : SnapshotState) (request : GroupPollRequest)
  (log_id : string) : option (option N) :=
  match st_streams st !! gp_stream request with
  | None => Some None
  | Some stream_state =>
    let consumer_key := (gp_stream request, gp_consumer request) in
    let now_ms := N.max (st_lease_clock_ms st) (gp_now_ms request) in
    let c := retain_live
      (default (group_consumer_at (default 0 (st_consumers st !! consumer_key)))
         (st_group_consumers st !! consumer_key)) now_ms in
    match member_delivery c (gp_member request) with
    | Some (offset, delivery) =>
      match vec_get (ss_messages stream_state) offset with
      | None => Some None
      | Some stored =>
        Some (Some (poll_message_response_upper_bound_parts (gp_stream request)
          (gp_consumer request) (gp_response_member request) offset (sm_key stored)
          (vec_len (sm_payload stored)) (sm_published_at_ms stored)
          (Some (gd_delivery_token delivery)) (Some (gd_delivery_attempt delivery))
          (bool_decide (is_Some (gp_response_member request)))))
      end
    | None =>
      let legacy_policy := policy_legacy (default 0 (gp_legacy_ack_timeout_ms request))
                             (gp_max_delivery_attempts request) in
      sizing_loop (S (length (ss_messages stream_state))) st request (ss_messages stream_state)
        legacy_policy ("raft-" +:+ log_id) c
    end
  end.

(** The [find] closure of [apply_group_poll]. *)
Definition poll_eligible (c : GroupConsumerState) (retry_offsets : gset Offset)
  (retry_keys : gset string) (p : Offset * StoredMessage) : bool :=
  let '(offset, message) := p in
  if bool_decide (offset ∈ gc_acknowledged_offsets c)
     || bool_decide (is_Some (gc_in_flight c !! offset))
     || bool_decide (offset ∈ retry_offsets)
  then false
  else is_none_or (fun key => negb (bool_decide (key ∈ retry_keys)) && negb (key_in_flight c key))
         (sm_key message).

(** Recording a new delivery of [offset] in [apply_group_poll]; the result is
    the delivery and the consumer. *)
Definition record_delivery (c : GroupConsumerState) (offset : Offset) (key : option string)
  (policy : ConsumerPolicy) (member token : string) (deadline_ms : N) :
  GroupDelivery * GroupConsumerState :=
  let attempt := match gc_delivery_attempts c !! offset with
                 | Some attempt => u32_saturating_add attempt 1
                 | None => 1
                 end in
  let delivery :=
    {| gd_member := member; gd_key := key; gd_delivery_attempt := attempt;
       gd_delivery_token := token; gd_requires_receipt := false;
       gd_deadline_ms := deadline_ms |} in
  (delivery,
   {| gc_committed_offset := gc_committed_offset c;
      gc_acknowledged_offsets := gc_acknowledged_offsets c;
      gc_delivery_attempts := <[offset := attempt]> (gc_delivery_attempts c);
      gc_policy := gc_policy c;
      gc_delivery_policies :=
        match gc_delivery_policies c !! offset with
        | Some _ => gc_delivery_policies c
        | None => <[offset := policy]> (gc_delivery_policies c)
        end;
      gc_in_flight := <[offset := delivery]> (gc_in_flight c);
      gc_retry_not_before := delete offset (gc_retry_not_before c) |}).

Fixpoint group_poll_loop (fuel : nat) (st : SnapshotState) (request : GroupPollRequest)
  (log_id : string) (now_ms : N) (legacy_policy : ConsumerPolicy) :
  option (CommandResponse * SnapshotState) :=
  match fuel with
  | O => None
  | S fuel =>
    let stream := gp_stream request in
    let consumer_key := (stream, gp_consumer request) in
    c ← st_group_consumers st !! consumer_key;
    stream_state ← st_streams st !! stream;
    let '(retry_offsets, retry_keys) := retry_filter c now_ms in
    match List.find (poll_eligible c retry_offsets retry_keys)
            (filter (fun p => gc_committed_offset c <= p.1)
               (enumerate (ss_messages stream_state))) with
    | None => Some (RGroupPoll PollEmpty, st)
    | Some (offset, message) =>
      let attempts := default 0 (gc_delivery_attempts c !! offset) in
      policy ← group_policy_for_offset c offset attempts legacy_policy
                 (gp_policy_version request);
      let deadline := effective_deadline_ms (gp_policy_version request) policy now_ms
                        (gp_lease_deadline_ms request) in
      if attempts_exhausted policy attempts && negb (is_dead_letter_stream st stream) then
        original ← vec_get (ss_messages stream_state) offset;
        group_poll_loop fuel (dead_letter_group_offset st stream consumer_key c offset original)
          request log_id now_ms legacy_policy
      else
        let '(delivery, c) := record_delivery c offset (sm_key message) policy
                                (gp_member request) ("raft-" +:+ log_id) deadline in
        let st := set_group_consumers st (<[consumer_key := c]> (st_group_consumers st)) in
        let st := if 1 <? gd_delivery_attempt delivery
                  then set_redeliveries st (u64_saturating_add (st_redeliveries st) 1)
                  else st in
        Some (group_poll_message stream offset (ss_messages stream_state) delivery, st)
    end
  end.

Definition apply_group_poll (st : SnapshotState) (request : GroupPollRequest) (log_id : string)
  (kind : GroupKind) : option (CommandResponse * SnapshotState) :=
  if kind_is_metadata kind then Some (RStreamNotFound, st)
  else if negb (stream_is_active st (gp_stream request)) then Some (RStreamNotFound, st)
  else
    response_bytes ← group_poll_response_upper_bound st request log_id;
    if is_some_and (fun response_bytes => gp_max_response_bytes request <? response_bytes)
         response_bytes
    then Some (RGroupPollResponseTooLarge (gp_max_response_bytes request), st)
    else
      let '(now_ms, st) := observe_lease_clock st (gp_now_ms request) in
      let legacy_policy := policy_legacy (default 0 (gp_legacy_ack_timeout_ms request))
                             (gp_max_delivery_attempts request) in
      let consumer_key := (gp_stream request, gp_consumer request) in
      let st := ensure_group_consumer st consumer_key in
      st ← observe_expired_deliveries st (gp_stream request) (gp_consumer request) now_ms
             legacy_policy;
      c ← st_group_consumers st !! consumer_key;
      stream_state ← st_streams st !! gp_stream request;
      match member_delivery c (gp_member request) with
      | Some (offset, delivery) =>
        Some (group_poll_message (gp_stream request) offset (ss_messages stream_state) delivery, st)
      | None =>
        group_poll_loop (S (length (ss_messages stream_state))) st request log_id now_ms
          legacy_policy
      end.

(** ** Batch poll *)

(** The messages of the deliveries a member already holds. *)
Definition existing_messages (stream : string) (messages : list StoredMessage)
  (existing : list (Offset * GroupDelivery)) : list Message :=
  omap (fun '(offset, delivery) =>
    stored ← vec_get messages offset;
    Some (delivered_message stream offset stored (gd_delivery_token delivery)
            (gd_delivery_attempt delivery))) existing.

(** The answer to a member that holds deliveries, the same in the poll and in
    its preview. *)
Definition existing_response (request : GroupBatchPollRequest) (messages : list StoredMessage)
  (existing : list (Offset * GroupDelivery)) : CommandResponse :=
  if gb_max_records request <? vec_len existing then RGroupBatchPollActiveSetLimitExceeded
  else
    let messages := existing_messages (gb_stream request) messages existing in
    if negb (vec_len messages =? vec_len existing)
       || (gb_max_bytes request <?
           poll_batch_response_len (gb_stream request) (gb_consumer request)
             (gb_response_member request) messages)
    then RGroupBatchPollActiveSetLimitExceeded
    else RGroupBatchPoll messages true 0.

Definition batch_eligible (c : GroupConsumerState) (retry_offsets : gset Offset)
  (retry_keys : gset string) (selected_offsets : gset Offset) (selected_keys : gset string)
  (p : Offset * StoredMessage) : bool :=
  let '(offset, message) := p in
  if bool_decide (offset ∈ gc_acknowledged_offsets c)
     || bool_decide (is_Some (gc_in_flight c !! offset))
     || bool_decide (offset ∈ retry_offsets)
     || bool_decide (offset ∈ selected_offsets)
  then false
  else is_none_or (fun key =>
    negb (bool_decide (key ∈ selected_keys)) && negb (bool_decide (key ∈ retry_keys))
    && negb (key_in_flight c key)) (sm_key message).

(** The local variables of the batch loop. *)
Record BatchLocals := {
  bl_selected_offsets : gset Offset;
  bl_selected_keys : gset string;
  bl_pending : list (Message * GroupDelivery * ConsumerPolicy);
  bl_sizer : PollBatchResponseSizer;
  bl_stopped_at_byte_limit : bool;
  bl_terminal_transitions : N;
}.

Definition batch_locals_new (request : GroupBatchPollRequest) : BatchLocals :=
  {| bl_selected_offsets := ∅; bl_selected_keys := ∅; bl_pending := [];
     bl_sizer := sizer_new (gb_stream request) (gb_consumer request)
                   (gb_response_member request);
     bl_stopped_at_byte_limit := false; bl_terminal_transitions := 0 |}.

Definition count_transition (l : BatchLocals) : BatchLocals :=
  {| bl_selected_offsets := bl_selected_offsets l; bl_selected_keys := bl_selected_keys l;
     bl_pending := bl_pending l; bl_sizer := bl_sizer l;
     bl_stopped_at_byte_limit := bl_stopped_at_byte_limit l;
     bl_terminal_transitions := usize_saturating_add (bl_terminal_transitions l) 1 |}.

Definition stop_at_byte_limit (l : BatchLocals) : BatchLocals :=
  {| bl_selected_offsets := bl_selected_offsets l; bl_selected_keys := bl_selected_keys l;
     bl_pending := bl_pending l; bl_sizer := bl_sizer l; bl_stopped_at_byte_limit := true;
     bl_terminal_transitions := bl_terminal_transitions l |}.

Definition select (l : BatchLocals) (message : Message) (delivery : GroupDelivery)
  (policy : ConsumerPolicy) : BatchLocals :=
  {| bl_selected_offsets := {[msg_offset message]} ∪ bl_selected_offsets l;
     bl_selected_keys :=
       match gd_key delivery with
       | Some key => {[key]} ∪ bl_selected_keys l
       | None => bl_selected_keys l
       end;
     bl_pending := bl_pending l ++ [(message, delivery, policy)];
     bl_sizer := sizer_push (bl_sizer l) message;
     bl_stopped_at_byte_limit := bl_stopped_at_byte_limit l;
     bl_terminal_transitions := bl_terminal_transitions l |}.

(** How the loop ends: the early return for a record over the limit, or the
    collected locals. *)
Inductive BatchExit :=
| BatchRecordTooLarge
| BatchCollected (l : BatchLocals).

Definition batch_token (seed : string) (offset : Offset) : string :=
  seed +:+ "-" +:+ hex offset.

Fixpoint group_batch_loop (fuel : nat) (st : SnapshotState) (request : GroupBatchPollRequest)
  (now_ms : N) (legacy_policy : ConsumerPolicy) (l : BatchLocals) :
  option (BatchExit * SnapshotState) :=
  if negb ((vec_len (bl_pending l) <? gb_max_records request)
           && (encoded_len (bl_sizer l) <? gb_max_bytes request))
  then Some (BatchCollected l, st)
  else
  match fuel with
  | O => None
  | S fuel =>
    let stream := gb_stream request in
    let consumer_key := (stream, gb_consumer request) in
    c ← st_group_consumers st !! consumer_key;
    stream_state ← st_streams st !! stream;
    let '(retry_offsets, retry_keys) := retry_filter c now_ms in
    match List.find (batch_eligible c retry_offsets retry_keys (bl_selected_offsets l)
                       (bl_selected_keys l))
            (filter (fun p => gc_committed_offset c <= p.1)
               (enumerate (ss_messages stream_state))) with
    | None => Some (BatchCollected l, st)
    | Some (offset, candidate) =>
      let key := sm_key candidate in
      let attempts := default 0 (gc_delivery_attempts c !! offset) in
      policy ← group_policy_for_offset c offset attempts legacy_policy
                 (gb_policy_version request);
      if attempts_exhausted policy attempts && negb (is_dead_letter_stream st stream) then
        original ← vec_get (ss_messages stream_state) offset;
        group_batch_loop fuel (dead_letter_group_offset st stream consumer_key c offset original)
          request now_ms legacy_policy (count_transition l)
      else if gb_transition_only request then Some (BatchCollected l, st)
      else
        let delivery_attempt := u32_saturating_add attempts 1 in
        stored ← vec_get (ss_messages stream_state) offset;
        let token := batch_token (gb_token_seed request) offset in
        let message := delivered_message stream offset stored token delivery_attempt in
        if gb_max_bytes request <? projected_len (bl_sizer l) message then
          if decide (bl_pending l = []) then Some (BatchRecordTooLarge, st)
          else Some (BatchCollected (stop_at_byte_limit l), st)
        else
          let delivery :=
            {| gd_member := gb_member request; gd_key := key;
               gd_delivery_attempt := delivery_attempt; gd_delivery_token := token;
               gd_requires_receipt := true;
               gd_deadline_ms := effective_deadline_ms (gb_policy_version request) policy
                                   now_ms (gb_lease_deadline_ms request) |} in
          group_batch_loop fuel st request now_ms legacy_policy (select l message delivery policy)
    end
  end.

(** One round of the final loop over the pending deliveries: the consumer and
    the [redeliveries] counter. *)
Definition commit_pending (acc : GroupConsumerState * N)
  (p : Message * GroupDelivery * ConsumerPolicy) : GroupConsumerState * N :=
  let '(c, redeliveries) := acc in
  let '(message, delivery, policy) := p in
  let offset := msg_offset message in
  let attempt := match gc_delivery_attempts c !! offset with
                 | Some attempt => N.max attempt (gd_delivery_attempt delivery)
                 | None => gd_delivery_attempt delivery
                 end in
  ({| gc_committed_offset := gc_committed_offset c;
      gc_acknowledged_offsets := gc_acknowledged_offsets c;
      gc_delivery_attempts := <[offset := attempt]> (gc_delivery_attempts c);
      gc_policy := gc_policy c;
      gc_delivery_policies :=
        match gc_delivery_policies c !! offset with
        | Some _ => gc_delivery_policies c
        | None => <[offset := policy]> (gc_delivery_policies c)
        end;
      gc_in_flight := <[offset := delivery]> (gc_in_flight c);
      gc_retry_not_before := delete offset (gc_retry_not_before c) |},
   if 1 <? attempt then u64_saturating_add redeliveries 1 else redeliveries).

(** What follows the batch loop. *)
Definition finish_batch (request : GroupBatchPollRequest) (l : BatchLocals) (st : SnapshotState) :
  option (CommandResponse * SnapshotState) :=
  if decide (bl_pending l = []) then
    Some (RGroupBatchPoll [] false (bl_terminal_transitions l), st)
  else
    let consumer_key := (gb_stream request, gb_consumer request) in
    let record_limit_reached := vec_len (bl_pending l) =? gb_max_records request in
    c ← st_group_consumers st !! consumer_key;
    let '(c, redeliveries) := foldl commit_pending (c, st_redeliveries st) (bl_pending l) in
    let st := set_redeliveries
                (set_group_consumers st (<[consumer_key := c]> (st_group_consumers st)))
                redeliveries in
    Some (RGroupBatchPoll ((fun p => p.1.1) <$> bl_pending l)
            (record_limit_reached || bl_stopped_at_byte_limit l) (bl_terminal_transitions l), st).

Definition apply_group_batch_poll (st : SnapshotState) (request : GroupBatchPollRequest)
  (kind : GroupKind) : option (CommandResponse * SnapshotState) :=
  if kind_is_metadata kind then Some (RStreamNotFound, st)
  else if (gb_max_records request =? 0) || (gb_max_bytes request =? 0) then
    Some (RGroupBatchPollActiveSetLimitExceeded, st)
  else if negb (stream_is_active st (gb_stream request)) then Some (RStreamNotFound, st)
  else
    let '(now_ms, st) := observe_lease_clock st (gb_now_ms request) in
    let legacy_policy := policy_legacy (default 0 (gb_legacy_ack_timeout_ms request))
                           (gb_max_delivery_attempts request) in
    let consumer_key := (gb_stream request, gb_consumer request) in
    let st := ensure_group_consumer st consumer_key in
    st ← observe_expired_deliveries st (gb_stream request) (gb_consumer request) now_ms
           legacy_policy;
    c ← st_group_consumers st !! consumer_key;
    stream_state ← st_streams st !! gb_stream request;
    let existing := filter (fun p => gd_member p.2 = gb_member request)
                      (btree_items (gc_in_flight c)) in
    if negb (bool_decide (existing = [])) then
      Some (existing_response request (ss_messages stream_state) existing, st)
    else
      exit ← group_batch_loop (S (length (ss_messages stream_state))) st request now_ms
               legacy_policy (batch_locals_new request);
      match exit with
      | (BatchRecordTooLarge, st) =>
        Some (RGroupBatchPollRecordTooLarge (gb_max_bytes request), st)
      | (BatchCollected l, st) => finish_batch request l st
      end.

(** ** Acknowledgements *)

Definition put_consumer (st : SnapshotState) (consumer_key : string * string)
  (c : GroupConsumerState) : SnapshotState :=
  set_group_consumers st (<[consumer_key := c]> (st_group_consumers st)).

Definition apply_group_ack (st : SnapshotState) (request : GroupAckRequest) (kind : GroupKind) :
  option (CommandResponse * SnapshotState) :=
  if kind_is_metadata kind then Some (RStreamNotFound, st)
  else
  match st_streams st !! ga_stream request with
  | None => Some (RStreamNotFound, st)
  | Some stream_state =>
    if negb (is_active stream_state) then Some (RStreamNotFound, st)
    else
    let consumer := ga_consumer request in
    let offset := ga_offset request in
    let token := ga_delivery_token request in
    let '(now_ms, st) := observe_lease_clock st (ga_now_ms request) in
    let legacy_policy := policy_legacy 0 None in
    let consumer_key := (ga_stream request, consumer) in
    let st := ensure_group_consumer st consumer_key in
    st ← observe_expired_deliveries st (ga_stream request) consumer now_ms legacy_policy;
    let c := default group_consumer_default (st_group_consumers st !! consumer_key) in
    let st := put_consumer st consumer_key c in
    if (offset <? gc_committed_offset c) || bool_decide (offset ∈ gc_acknowledged_offsets c) then
      Some (RGroupAlreadyAcknowledged, st)
    else
    match gc_in_flight c !! offset with
    | None =>
      if bool_decide (token = "") && bool_decide (ga_member request = consumer)
         && (offset =? gc_committed_offset c)
      then Some (RGroupAcknowledged,
                 put_consumer st consumer_key (acknowledge_group_offset c offset))
      else if bool_decide (is_Some (gc_delivery_attempts c !! offset))
      then Some (RGroupStaleDelivery consumer offset, st)
      else Some (RGroupAckNotInFlight consumer offset, st)
    | Some delivery =>
      if negb (bool_decide (gd_member delivery = ga_member request))
         || ((gd_requires_receipt delivery || negb (bool_decide (token = "")))
             && negb (bool_decide (gd_delivery_token delivery = token)))
      then Some (RGroupStaleDelivery consumer offset, st)
      else Some (RGroupAcknowledged,
                 put_consumer st consumer_key (acknowledge_group_offset c offset))
    end
  end.

(** The outcome of one receipt against the consumer as it was before the batch. *)
Definition receipt_outcome (c : GroupConsumerState) (member : string) (receipt : DeliveryReceipt) :
  AckBatchOutcome :=
  let offset := dr_offset receipt in
  if (offset <? gc_committed_offset c) || bool_decide (offset ∈ gc_acknowledged_offsets c) then
    AlreadyConfirmed
  else if bool_decide (dr_delivery_token receipt = "") then ReceiptRejected StaleDeliveryReceipt
  else
    match gc_in_flight c !! offset with
    | Some delivery =>
      if negb (bool_decide (gd_member delivery = member))
         || negb (bool_decide (gd_delivery_token delivery = dr_delivery_token receipt))
      then ReceiptRejected StaleDeliveryReceipt
      else Confirmed
    | None =>
      if bool_decide (is_Some (gc_delivery_attempts c !! offset))
      then ReceiptRejected StaleDeliveryReceipt
      else ReceiptRejected NotInFlight
    end.

Definition apply_group_batch_ack (st : SnapshotState) (request : GroupBatchAckRequest)
  (kind : GroupKind) : option (CommandResponse * SnapshotState) :=
  if kind_is_metadata kind then Some (RStreamNotFound, st)
  else if negb (stream_is_active st (gba_stream request)) then Some (RStreamNotFound, st)
  else
    let '(now_ms, st) := observe_lease_clock st (gba_now_ms request) in
    let legacy_policy := policy_legacy 0 None in
    let consumer_key := (gba_stream request, gba_consumer request) in
    let st := ensure_group_consumer st consumer_key in
    st ← observe_expired_deliveries st (gba_stream request) (gba_consumer request) now_ms
           legacy_policy;
    c ← st_group_consumers st !! consumer_key;
    let outcomes := (fun receipt =>
      {| abi_offset := dr_offset receipt;
         abi_outcome := receipt_outcome c (gba_member request) receipt |}) <$>
      gba_receipts request in
    let valid_offsets :=
      dr_offset <$> filter (fun receipt =>
        receipt_outcome c (gba_member request) receipt = Confirmed) (gba_receipts request) in
    let c := foldl acknowledge_group_offset c valid_offsets in
    Some (RGroupBatchAcknowledged outcomes, put_consumer st consumer_key c).

(** ** Batch preview *)

(** [advance_preview_committed_offset]: it passes over acknowledged and terminal
    offsets, of which there are [fuel] at most. *)
Fixpoint advance_preview_committed_offset (fuel : nat) (committed : Offset)
  (c : option GroupConsumerState) (terminal_offsets : gset Offset) : Offset :=
  match fuel with
  | O => committed
  | S fuel =>
    let acknowledged := is_some_and (fun c =>
      bool_decide (committed ∈ gc_acknowledged_offsets c)) c in
    if negb acknowledged && negb (bool_decide (committed ∈ terminal_offsets)) then committed
    else
      match u64_checked_add committed 1 with
      | None => committed
      | Some next => advance_preview_committed_offset fuel next c terminal_offsets
      end
  end.

Definition preview_fuel (c : option GroupConsumerState) (terminal_offsets : gset Offset) : nat :=
  size (from_option gc_acknowledged_offsets ∅ c) + size terminal_offsets.

(** One round of the loop that adds the expired deliveries to the retry filter. *)
Definition preview_expired (now_ms : N) (legacy_policy : ConsumerPolicy) (version : option N)
  (c : GroupConsumerState) (acc : gset Offset * gset string) (p : Offset * GroupDelivery) :
  option (gset Offset * gset string) :=
  let '(offsets, keys) := acc in
  let '(offset, delivery) := p in
  if negb (lease_expired (gd_deadline_ms delivery) now_ms)
     || bool_decide (is_Some (gc_retry_not_before c !! offset))
  then Some (offsets, keys)
  else
    let attempts := default 0 (gc_delivery_attempts c !! offset) in
    policy ← group_policy_for_offset c offset attempts legacy_policy version;
    if (retry_delay_ms policy =? 0) || attempts_exhausted policy attempts
    then Some (offsets, keys)
    else Some ({[offset]} ∪ offsets,
               match gd_key delivery with Some key => {[key]} ∪ keys | None => keys end).

Fixpoint preview_retry_filter (now_ms : N) (legacy_policy : ConsumerPolicy) (version : option N)
  (c : GroupConsumerState) (acc : gset Offset * gset string) (l : list (Offset * GroupDelivery)) :
  option (gset Offset * gset string) :=
  match l with
  | [] => Some acc
  | p :: l =>
    acc ← preview_expired now_ms legacy_policy version c acc p;
    preview_retry_filter now_ms legacy_policy version c acc l
  end.

(** The [find] closure of [preview_group_batch]. *)
Definition preview_eligible (c : option GroupConsumerState) (now_ms : N)
  (retry_offsets : gset Offset) (retry_keys : gset string) (terminal_offsets : gset Offset)
  (selected_offsets : gset Offset) (selected_keys : gset string)
  (p : Offset * StoredMessage) : bool :=
  let '(offset, message) := p in
  if is_some_and (fun c =>
       bool_decide (offset ∈ gc_acknowledged_offsets c) || bool_decide (offset ∈ retry_offsets)
       || is_some_and (fun d => negb (lease_expired (gd_deadline_ms d) now_ms))
            (gc_in_flight c !! offset)) c
     || bool_decide (offset ∈ terminal_offsets) || bool_decide (offset ∈ selected_offsets)
  then false
  else is_none_or (fun key =>
    negb (bool_decide (key ∈ selected_keys)) && negb (bool_decide (key ∈ retry_keys))
    && negb (is_some_and (fun c => existsb (fun d =>
           negb (lease_expired (gd_deadline_ms d) now_ms) && bool_decide (gd_key d = Some key))
           (btree_values (gc_in_flight c))) c)) (sm_key message).

(** The local variables of the preview loop. *)
Record PreviewLocals := {
  pl_selected_offsets : gset Offset;
  pl_selected_keys : gset string;
  pl_terminal_offsets : gset Offset;
  pl_messages : list Message;
  pl_sizer : PollBatchResponseSizer;
  pl_stopped_at_byte_limit : bool;
  pl_terminal_transitions : N;
}.

Definition preview_locals_new (request : GroupBatchPollRequest) : PreviewLocals :=
  {| pl_selected_offsets := ∅; pl_selected_keys := ∅; pl_terminal_offsets := ∅;
     pl_messages := [];
     pl_sizer := sizer_new (gb_stream request) (gb_consumer request)
                   (gb_response_member request);
     pl_stopped_at_byte_limit := false; pl_terminal_transitions := 0 |}.

Definition preview_terminal (l : PreviewLocals) (offset : Offset) : PreviewLocals :=
  {| pl_selected_offsets := pl_selected_offsets l; pl_selected_keys := pl_selected_keys l;
     pl_terminal_offsets := {[offset]} ∪ pl_terminal_offsets l; pl_messages := pl_messages l;
     pl_sizer := pl_sizer l; pl_stopped_at_byte_limit := pl_stopped_at_byte_limit l;
     pl_terminal_transitions := usize_saturating_add (pl_terminal_transitions l) 1 |}.

Definition preview_stop (l : PreviewLocals) : PreviewLocals :=
  {| pl_selected_offsets := pl_selected_offsets l; pl_selected_keys := pl_selected_keys l;
     pl_terminal_offsets := pl_terminal_offsets l; pl_messages := pl_messages l;
     pl_sizer := pl_sizer l; pl_stopped_at_byte_limit := true;
     pl_terminal_transitions := pl_terminal_transitions l |}.

Definition preview_select (l : PreviewLocals) (message : Message) : PreviewLocals :=
  {| pl_selected_offsets := {[msg_offset message]} ∪ pl_selected_offsets l;
     pl_selected_keys :=
       match msg_key message with
       | Some key => {[key]} ∪ pl_selected_keys l
       | None => pl_selected_keys l
       end;
     pl_terminal_offsets := pl_terminal_offsets l; pl_messages := pl_messages l ++ [message];
     pl_sizer := sizer_push (pl_sizer l) message;
     pl_stopped_at_byte_limit := pl_stopped_at_byte_limit l;
     pl_terminal_transitions := pl_terminal_transitions l |}.

(** [None] inside the result is the early return for a record over the limit. *)
Fixpoint preview_loop (fuel : nat) (request : GroupBatchPollRequest) (now_ms : N)
  (legacy_policy : ConsumerPolicy) (c : option GroupConsumerState) (committed : Offset)
  (messages : list StoredMessage) (retry_offsets : gset Offset) (retry_keys : gset string)
  (is_dead_letter : bool) (l : PreviewLocals) : option (option PreviewLocals) :=
  if negb ((vec_len (pl_messages l) <? gb_max_records request)
           && (encoded_len (pl_sizer l) <? gb_max_bytes request))
  then Some (Some l)
  else
  match fuel with
  | O => None
  | S fuel =>
    let next := preview_loop fuel request now_ms legacy_policy c committed messages
                  retry_offsets retry_keys is_dead_letter in
    let effective_committed := advance_preview_committed_offset
      (preview_fuel c (pl_terminal_offsets l)) committed c (pl_terminal_offsets l) in
    match List.find (preview_eligible c now_ms retry_offsets retry_keys (pl_terminal_offsets l)
                       (pl_selected_offsets l) (pl_selected_keys l))
            (filter (fun p => effective_committed <= p.1) (enumerate messages)) with
    | None => Some (Some l)
    | Some (offset, stored) =>
      let attempts := default 0 (c ← c; gc_delivery_attempts c !! offset) in
      policy ←
        match c with
        | None => Some legacy_policy
        | Some c => group_policy_for_offset c offset attempts legacy_policy
                      (gb_policy_version request)
        end;
      if attempts_exhausted policy attempts && negb is_dead_letter then
        next (preview_terminal l offset)
      else if gb_transition_only request then Some (Some l)
      else
        let message := delivered_message (gb_stream request) offset stored
          (batch_token (gb_token_seed request) offset) (u32_saturating_add attempts 1) in
        if gb_max_bytes request <? projected_len (pl_sizer l) message then
          if decide (pl_messages l = []) then Some None else Some (Some (preview_stop l))
        else next (preview_select l message)
    end
  end.

Definition preview_group_batch (st : SnapshotState) (request : GroupBatchPollRequest)
  (kind : GroupKind) : option CommandResponse :=
  if kind_is_metadata kind then Some RStreamNotFound
  else if (gb_max_records request =? 0) || (gb_max_bytes request =? 0) then
    Some RGroupBatchPollActiveSetLimitExceeded
  else
  match st_streams st !! gb_stream request with
  | Some stream_state =>
    if negb (is_active stream_state) then Some RStreamNotFound
    else
    let messages := ss_messages stream_state in
    let now_ms := N.max (st_lease_clock_ms st) (gb_now_ms request) in
    let consumer_key := (gb_stream request, gb_consumer request) in
    let consumer := st_group_consumers st !! consumer_key in
    let committed := match consumer with
                     | None => default 0 (st_consumers st !! consumer_key)
                     | Some c => gc_committed_offset c
                     end in
    let live := filter (fun p => lease_expired (gd_deadline_ms p.2) now_ms = false)
                  (from_option (fun c => btree_items (gc_in_flight c)) [] consumer) in
    let existing := filter (fun p => gd_member p.2 = gb_member request) live in
    if negb (bool_decide (existing = [])) then Some (existing_response request messages existing)
    else
    let legacy_policy := policy_legacy (default 0 (gb_legacy_ack_timeout_ms request))
                           (gb_max_delivery_attempts request) in
    retry ←
      match consumer with
      | None => Some (∅, ∅)
      | Some c => preview_retry_filter now_ms legacy_policy (gb_policy_version request) c
                    (retry_filter c now_ms) (btree_items (gc_in_flight c))
      end;
    let '(retry_offsets, retry_keys) := retry in
    exit ← preview_loop (S (length messages)) request now_ms legacy_policy consumer committed
             messages retry_offsets retry_keys (is_dead_letter_stream st (gb_stream request))
             (preview_locals_new request);
    match exit with
    | None => Some (RGroupBatchPollRecordTooLarge (gb_max_bytes request))
    | Some l =>
      Some (RGroupBatchPoll (pl_messages l)
              (negb (bool_decide (pl_messages l = []))
               && ((vec_len (pl_messages l) =? gb_max_records request)
                   || pl_stopped_at_byte_limit l))
              (pl_terminal_transitions l))
    end
  | None => Some RStreamNotFound
  end.
