(* ===== verification/RaftInvariant.v ===== *)
(** The invariant of a group consumer in the replicated state machine, and that
    each step of delivery.rs keeps it.

    [group_wf messages c] relates a consumer to the messages of its stream; it
    implies the check that recovery makes ([validate_pinned_policies]) and adds
    the order of deliveries: a delivery in flight under a key has every earlier
    message of that key behind it. *)

From S2P Require Import Prelude Engine RecordFormat Names RaftState RaftDelivery.

Local Open Scope N_scope.

(** ** Finished offsets *)

Definition group_done (c : GroupConsumerState) (o : Offset) : Prop :=
  o < gc_committed_offset c \/ o ∈ gc_acknowledged_offsets c.

#[export] Instance group_done_dec c o : Decision (group_done c o).
Proof. unfold group_done. apply _. Defined.

(** The test the handlers make for a finished offset. *)
Lemma group_done_test c o :
  (o <? gc_committed_offset c) || bool_decide (o ∈ gc_acknowledged_offsets c) =
  bool_decide (group_done c o).
Proof.
  apply eq_true_iff_eq. by rewrite orb_true_iff, N.ltb_lt, !bool_decide_eq_true.
Qed.

Record group_wf (messages : list StoredMessage) (c : GroupConsumerState) : Prop := {
  gw_policies : forall o,
    is_Some (gc_delivery_attempts c !! o) <-> is_Some (gc_delivery_policies c !! o);
  gw_positive : forall o a, gc_delivery_attempts c !! o = Some a -> 0 < a <= u32_max;
  gw_attempted : forall o, is_Some (gc_delivery_attempts c !! o) ->
    o < vec_len messages /\ ~ group_done c o;
  gw_in_flight : forall o d, gc_in_flight c !! o = Some d ->
    gc_delivery_attempts c !! o = Some (gd_delivery_attempt d) /\
    exists m, vec_get messages o = Some m /\ gd_key d = sm_key m;
  gw_retry : forall o s, gc_retry_not_before c !! o = Some s ->
    is_Some (gc_delivery_attempts c !! o) /\ gc_in_flight c !! o = None /\
    exists m, vec_get messages o = Some m /\ grs_key s = sm_key m;
  gw_acknowledged : forall o, o ∈ gc_acknowledged_offsets c ->
    gc_committed_offset c < o < vec_len messages;
  gw_committed : gc_committed_offset c <= u64_max;
  gw_order : forall o d k o' m, gc_in_flight c !! o = Some d -> gd_key d = Some k ->
    o' < o -> vec_get messages o' = Some m -> sm_key m = Some k -> group_done c o';
}.

Lemma group_wf_at messages committed :
  committed <= u64_max -> group_wf messages (group_consumer_at committed).
Proof.
  intros Hc. split; unfold group_consumer_at; cbn; try done; intros; try set_solver;
    repeat match goal with H : context [∅ !! _] |- _ => rewrite lookup_empty in H end;
    try done; try (by destruct H).
  rewrite !lookup_empty. by split; intros [? ?].
Qed.

Lemma group_wf_app messages more c : group_wf messages c -> group_wf (messages ++ more) c.
Proof.
  intros [H1 H2 H3 H4 H5 H6 H7 H8]. split; try done.
  - intros o Ho. rewrite vec_len_app. destruct (H3 o Ho). split; [lia|done].
  - intros o d Ho. destruct (H4 o d Ho) as (? & m & ? & ?). split; [done|].
    exists m. split; [by apply vec_get_app_l|done].
  - intros o s Ho. destruct (H5 o s Ho) as (? & ? & m & ? & ?). split_and!; [done..|].
    exists m. split; [by apply vec_get_app_l|done].
  - intros o Ho. rewrite vec_len_app. specialize (H6 o Ho). lia.
  - intros o d k o' m Ho Hk Hlt Hm. apply (H8 o d k o' m Ho Hk Hlt).
    destruct (H4 o d Ho) as (_ & m0 & Hm0%vec_get_lt & _).
    assert (Hl : is_Some (vec_get messages o')) by (apply vec_get_is_Some; lia).
    destruct Hl as [m' Hm']. pose proof (vec_get_app_l _ more _ _ Hm'). congruence.
Qed.

(** The invariant contains the check made when a snapshot is loaded. *)
Lemma group_wf_validates messages c : group_wf messages c -> validate_pinned_policies c = Ok tt.
Proof.
  intros Hwf. unfold validate_pinned_policies.
  assert (Hdone : forall o, is_Some (gc_delivery_attempts c !! o) -> gc_committed_offset c <= o).
  { intros o Ho. apply (gw_attempted _ _ Hwf) in Ho as [_ Hn]. unfold group_done in Hn. lia. }
  rewrite bool_decide_eq_true_2; cbn [negb]; [|apply btree_keys_dom, gw_policies with messages; done].
  rewrite (existsb_false_intro _ (btree_values _)).
  2:{ intros a [o Ho]%elem_of_btree_values. apply (gw_positive _ _ Hwf) in Ho.
      apply N.eqb_neq. lia. }
  rewrite (existsb_false_intro _ (btree_items _)).
  2:{ intros [o d] Ho%elem_of_btree_items. apply (gw_in_flight _ _ Hwf) in Ho as [Ha _].
      by rewrite bool_decide_eq_true_2. }
  rewrite (existsb_false_intro _ (btree_keys (gc_retry_not_before c))).
  2:{ intros o [s Ho]%elem_of_btree_keys. apply (gw_retry _ _ Hwf) in Ho as (Ha & Hi & _).
      rewrite bool_decide_eq_true_2 by done. rewrite Hi. by rewrite bool_decide_eq_false_2. }
  rewrite !existsb_false_intro; [done| |].
  - intros o [a Ho]%elem_of_btree_keys. apply N.ltb_ge, Hdone. eauto.
  - intros o [d Ho]%elem_of_btree_keys. apply N.ltb_ge, Hdone.
    apply (gw_in_flight _ _ Hwf) in Ho as [Ha _]. eauto.
Qed.

(** ** Acknowledging an offset *)

Lemma advance_group_committed_spec fuel c acked policies retries :
  (size acked <= fuel)%nat -> (forall o, o ∈ acked -> c <= o < u64_max) -> c <= u64_max ->
  let '(c', acked', policies', retries') := advance_group_committed fuel c acked policies retries in
  c <= c' <= u64_max /\ (forall o, c <= o < c' -> o ∈ acked) /\ (c' ∉ acked') /\
  (forall o, o ∈ acked' <-> o ∈ acked /\ c' <= o) /\
  (forall o, policies' !! o = (if decide (o ∈ acked /\ o < c') then None else policies !! o)) /\
  (forall o, retries' !! o = (if decide (o ∈ acked /\ o < c') then None else retries !! o)).
Proof.
  revert c acked policies retries; induction fuel as [|fuel IH];
    intros c acked policies retries Hsz Hge Hc; cbn [advance_group_committed].
  - assert (acked = ∅) as -> by (apply leibniz_equiv, size_empty_inv; lia).
    split_and!; try set_solver; try lia; intros o; by rewrite decide_False by set_solver.
  - destruct (decide (c ∈ acked)) as [Hin|Hni].
    2:{ split_and!; [lia|lia|lia|done|naive_solver| |]; intros o; rewrite decide_False; try done;
          intros [Ho Hlt]; apply Hge in Ho; lia. }
    assert (Hsat : u64_saturating_add c 1 = c + 1).
    { apply saturating_add_small. apply Hge in Hin. lia. }
    rewrite Hsat.
    assert (Hge' : forall o, o ∈ acked ∖ {[c]} -> c + 1 <= o < u64_max).
    { intros o [Ho Hne]%elem_of_difference. apply Hge in Ho. assert (o <> c) by set_solver. lia. }
    specialize (IH (c + 1) (acked ∖ {[c]}) (delete c policies) (delete c retries)).
    destruct (advance_group_committed _ _ _ _ _) as [[[c' acked'] policies'] retries'].
    destruct IH as (H1 & H2 & H3 & H4 & H5 & H6).
    { rewrite size_difference by set_solver. rewrite size_singleton. lia. }
    { done. } { apply Hge in Hin. lia. }
    assert (Hdel : forall {B} (m : gmap Offset B) o,
      (if decide (o ∈ acked ∖ {[c]} /\ o < c') then None else delete c m !! o) =
      (if decide (o ∈ acked /\ o < c') then None else m !! o)).
    { intros B m o. destruct (decide (o = c)) as [->|Hne].
      - rewrite lookup_delete_eq, (decide_True (P := c ∈ acked /\ c < c')) by (split; [done|lia]).
        by case_decide.
      - rewrite lookup_delete_ne by done. repeat case_decide; set_solver. }
    split_and!; [lia|lia| |done| | |].
    + intros o Ho. destruct (decide (o = c)) as [->|]; [done|].
      assert (o ∈ acked ∖ {[c]}) by (apply H2; lia). set_solver.
    + intros o. rewrite H4. split; [set_solver|]. intros [Ho Hle]. split; [|done].
      apply elem_of_difference. split; [done|]. rewrite elem_of_singleton. lia.
    + intros o. by rewrite H5, Hdel.
    + intros o. by rewrite H6, Hdel.
Qed.

(** What [acknowledge_group_offset] does to an offset that is not finished. *)
Record ack_step (c : GroupConsumerState) (offset : Offset) (c' : GroupConsumerState) : Prop := {
  as_in_flight : gc_in_flight c' = delete offset (gc_in_flight c);
  as_attempts : gc_delivery_attempts c' = delete offset (gc_delivery_attempts c);
  as_policies : gc_delivery_policies c' = delete offset (gc_delivery_policies c);
  as_retries : gc_retry_not_before c' = delete offset (gc_retry_not_before c);
  as_policy : gc_policy c' = gc_policy c;
  as_committed : gc_committed_offset c <= gc_committed_offset c' <= u64_max;
  as_acknowledged : forall o, o ∈ gc_acknowledged_offsets c' ->
    gc_committed_offset c' < o /\ (o ∈ gc_acknowledged_offsets c \/ o = offset);
  as_done : offset < u64_max -> forall o, group_done c' o <-> group_done c o \/ o = offset;
  as_keeps : forall o, group_done c o -> group_done c' o;
  as_only : forall o, group_done c' o -> group_done c o \/ o = offset;
}.

Lemma ack_step_later messages c offset :
  group_wf messages c -> ~ group_done c offset -> offset <> gc_committed_offset c ->
  ack_step c offset (acknowledge_group_offset c offset).
Proof.
  intros Hwf Hnd Hne. unfold acknowledge_group_offset.
  rewrite (proj2 (N.eqb_neq _ _)) by done. pose proof (gw_committed _ _ Hwf).
  unfold group_done in Hnd. split; cbn; try done; unfold group_done; cbn.
  - intros o [->%elem_of_singleton|Ho]%elem_of_union; [split; [lia|by right]|].
    split; [apply (gw_acknowledged _ _ Hwf) in Ho; lia|by left].
  - intros _ o. rewrite elem_of_union, elem_of_singleton. naive_solver.
  - intros o. rewrite elem_of_union. naive_solver.
  - intros o. rewrite elem_of_union, elem_of_singleton. naive_solver.
Qed.

Lemma ack_step_next messages c :
  group_wf messages c -> vec_len messages <= u64_max ->
  ack_step c (gc_committed_offset c) (acknowledge_group_offset c (gc_committed_offset c)).
Proof.
  intros Hwf Hlen. unfold acknowledge_group_offset. rewrite N.eqb_refl.
  pose proof (gw_committed _ _ Hwf) as Hc. set (o0 := gc_committed_offset c) in *.
  assert (Hs : o0 <= u64_saturating_add o0 1 <= u64_max /\
    (o0 < u64_max -> u64_saturating_add o0 1 = o0 + 1)).
  { unfold u64_saturating_add, saturating_add. lia. }
  destruct Hs as [Hs1 Hs2]. set (o1 := u64_saturating_add o0 1) in *.
  assert (Hack : forall o, o ∈ gc_acknowledged_offsets c -> o1 <= o < u64_max).
  { intros o Ho. apply (gw_acknowledged _ _ Hwf) in Ho. fold o0 in Ho. lia. }
  pose proof (advance_group_committed_spec (size (gc_acknowledged_offsets c)) o1
    (gc_acknowledged_offsets c) (delete o0 (gc_delivery_policies c))
    (delete o0 (gc_retry_not_before c)) ltac:(lia) Hack ltac:(lia)) as Hadv.
  destruct (advance_group_committed _ _ _ _ _) as [[[c' acked'] policies'] retries'].
  destruct Hadv as (H1 & H2 & H3 & H4 & H5 & H6).
  assert (Hpol : forall o, o ∈ gc_acknowledged_offsets c -> gc_delivery_attempts c !! o = None).
  { intros o Ho. apply eq_None_not_Some. intros Ha.
    apply (gw_attempted _ _ Hwf) in Ha as [_ Hn]. apply Hn. by right. }
  split; cbn; try done; fold o0; try lia; unfold group_done; cbn; fold o0.
  - apply map_eq. intros o. rewrite H5. case_decide as Hd; [|done]. destruct Hd as [Ho _].
    symmetry. rewrite lookup_delete_ne by (intros <-; apply (gw_acknowledged _ _ Hwf) in Ho; fold o0 in Ho; lia).
    apply eq_None_not_Some. rewrite <-(gw_policies _ _ Hwf), Hpol by done. by intros [? ?].
  - apply map_eq. intros o. rewrite H6. case_decide as Hd; [|done]. destruct Hd as [Ho _].
    symmetry. rewrite lookup_delete_ne by (intros <-; apply (gw_acknowledged _ _ Hwf) in Ho; fold o0 in Ho; lia).
    apply eq_None_not_Some. intros [s Hr]. apply (gw_retry _ _ Hwf) in Hr as ([a Ha] & _).
    rewrite Hpol in Ha by done. done.
  - intros o [Ho Hle]%H4. split; [|by left]. destruct (decide (o = c')) as [->|]; [|lia].
    exfalso. apply H3, H4. done.
  - intros Hlt o. rewrite H4. specialize (Hs2 Hlt). split.
    + intros [Ho|[Ho _]]; [|by auto]. destruct (decide (o < o1)); [lia|].
      left; right. apply H2. lia.
    + intros [[Ho|Ho]|Ho]; [left; lia| |left; lia].
      destruct (decide (o < c')); [by left|right; split; [done|lia]].
  - intros o [Ho|Ho]; [left; lia|]. rewrite H4.
    destruct (decide (o < c')); [by left|right; split; [done|lia]].
  - intros o. rewrite H4. intros [Ho|[Ho _]]; [|by auto].
    destruct (decide (o < o1)) as [|]; [|left; right; apply H2; lia].
    destruct (decide (o0 < u64_max)); lia.
Qed.

Lemma ack_step_spec messages c offset :
  group_wf messages c -> vec_len messages <= u64_max -> ~ group_done c offset ->
  ack_step c offset (acknowledge_group_offset c offset).
Proof.
  intros Hwf Hlen Hnd. destruct (decide (offset = gc_committed_offset c)) as [->|Hne].
  - by apply (ack_step_next messages).
  - by apply (ack_step_later messages).
Qed.

Lemma ack_step_wf messages c offset c' :
  group_wf messages c -> ack_step c offset c' ->
  (offset < vec_len messages \/ offset = gc_committed_offset c) -> vec_len messages <= u64_max ->
  group_wf messages c'.
Proof.
  intros Hwf Hack Hoff Hlen.
  pose proof (as_committed _ _ _ Hack) as Hcom. pose proof (as_only _ _ _ Hack) as Honly.
  split; rewrite ?(as_in_flight _ _ _ Hack), ?(as_attempts _ _ _ Hack), ?(as_policies _ _ _ Hack),
    ?(as_retries _ _ _ Hack).
  - intros o. rewrite !lookup_delete_is_Some, (gw_policies _ _ Hwf). done.
  - intros o a [_ Ho]%lookup_delete_Some. by apply (gw_positive _ _ Hwf) in Ho.
  - intros o [Hne Ho]%lookup_delete_is_Some. apply (gw_attempted _ _ Hwf) in Ho as [? Hn].
    split; [done|]. intros [?| ->]%Honly; done.
  - intros o d [Hne Ho]%lookup_delete_Some. rewrite lookup_delete_ne by done.
    by apply (gw_in_flight _ _ Hwf).
  - intros o s [Hne Ho]%lookup_delete_Some. rewrite !lookup_delete_ne by done.
    by apply (gw_retry _ _ Hwf).
  - intros o Ho. apply (as_acknowledged _ _ _ Hack) in Ho as [Hlt [Ho| ->]].
    + apply (gw_acknowledged _ _ Hwf) in Ho. lia.
    + lia.
  - lia.
  - intros o d k o' m [Hne Ho]%lookup_delete_Some Hk Hlt Hm Hmk.
    apply (as_keeps _ _ _ Hack). by apply (gw_order _ _ Hwf o d k o' m).
Qed.

Lemma acknowledge_group_wf messages c offset :
  group_wf messages c -> vec_len messages <= u64_max -> ~ group_done c offset ->
  (offset < vec_len messages \/ offset = gc_committed_offset c) ->
  group_wf messages (acknowledge_group_offset c offset).
Proof. intros Hwf Hlen Hnd Ho. eapply ack_step_wf; eauto using ack_step_spec. Qed.

(** ** Expired deliveries *)

(** The retry schedule that the expiry of a delivery leaves behind, from the
    policy pinned to the offset. *)
Definition expiry_schedule (c : GroupConsumerState) (now_ms : N) (offset : Offset)
  (d : GroupDelivery) : option GroupRetrySchedule :=
  if lease_expired (gd_deadline_ms d) now_ms then
    attempts ← gc_delivery_attempts c !! offset;
    policy ← gc_delivery_policies c !! offset;
    if attempts_exhausted policy attempts || (retry_delay_ms policy =? 0) then None
    else Some {| grs_retry_not_before_ms := u64_saturating_add now_ms (retry_delay_ms policy);
                 grs_key := gd_key d |}
  else None.

(** The consumer after every delivery expired at [now_ms] is observed. *)
Definition expired_consumer (c : GroupConsumerState) (now_ms : N) : GroupConsumerState :=
  {| gc_committed_offset := gc_committed_offset c;
     gc_acknowledged_offsets := gc_acknowledged_offsets c;
     gc_delivery_attempts := gc_delivery_attempts c; gc_policy := gc_policy c;
     gc_delivery_policies := gc_delivery_policies c;
     gc_in_flight := filter (fun p => lease_expired (gd_deadline_ms p.2) now_ms = false)
                       (gc_in_flight c);
     gc_retry_not_before :=
       gc_retry_not_before c ∪ map_imap (expiry_schedule c now_ms) (gc_in_flight c) |}.

Lemma group_policy_pinned c offset attempts legacy version policy :
  0 < attempts -> gc_delivery_policies c !! offset = Some policy ->
  group_policy_for_offset c offset attempts legacy version = Some policy.
Proof.
  intros Ha Hp. unfold group_policy_for_offset. rewrite (proj2 (N.ltb_lt _ _)) by done.
  rewrite Hp. cbn. rewrite (proj2 (N.eqb_neq _ _)) by lia. by case_match.
Qed.

Lemma group_policy_total messages c offset legacy version :
  group_wf messages c ->
  is_Some (group_policy_for_offset c offset
             (default 0 (gc_delivery_attempts c !! offset)) legacy version).
Proof.
  intros Hwf. destruct (gc_delivery_attempts c !! offset) as [a|] eqn:Ha; cbn.
  - assert (Hp : is_Some (gc_delivery_policies c !! offset)).
    { apply (gw_policies _ _ Hwf). eauto. }
    destruct Hp as [p Hp]. apply (gw_positive _ _ Hwf) in Ha.
    rewrite (group_policy_pinned _ _ _ _ _ p) by (done || lia). eauto.
  - unfold group_policy_for_offset. cbn. case_match; eauto.
Qed.

(** An offset whose delivery can expire: it has a positive attempt, a pinned
    policy and no retry schedule. *)
Definition expirable (c : GroupConsumerState) (o : Offset) : Prop :=
  gc_retry_not_before c !! o = None /\
  exists a p, gc_delivery_attempts c !! o = Some a /\ 0 < a /\ gc_delivery_policies c !! o = Some p.

Lemma group_wf_expirable messages c o d :
  group_wf messages c -> gc_in_flight c !! o = Some d -> expirable c o.
Proof.
  intros Hwf Ho. split.
  - destruct (gc_retry_not_before c !! o) as [s|] eqn:Hr; [|done].
    apply (gw_retry _ _ Hwf) in Hr as (_ & Hn & _). congruence.
  - destruct (gw_in_flight _ _ Hwf o d Ho) as [Ha _].
    assert (Hp : is_Some (gc_delivery_policies c !! o)) by (apply (gw_policies _ _ Hwf); eauto).
    destruct Hp as [p Hp]. exists (gd_delivery_attempt d), p.
    split_and!; [done| |done]. apply (gw_positive _ _ Hwf) in Ha. lia.
Qed.

Lemma expire_delivery_spec now legacy c o d :
  lease_expired (gd_deadline_ms d) now = true -> expirable c o ->
  exists c', expire_delivery now legacy c (o, d) = Some c' /\
    gc_committed_offset c' = gc_committed_offset c /\
    gc_acknowledged_offsets c' = gc_acknowledged_offsets c /\
    gc_delivery_attempts c' = gc_delivery_attempts c /\ gc_policy c' = gc_policy c /\
    gc_delivery_policies c' = gc_delivery_policies c /\
    gc_in_flight c' = delete o (gc_in_flight c) /\
    gc_retry_not_before c' = partial_alter (fun _ => expiry_schedule c now o d) o
                               (gc_retry_not_before c).
Proof.
  intros He [Hr (a & p & Ha & Hpos & Hp)]. unfold expire_delivery, remove_in_flight.
  cbn [gc_retry_not_before gc_delivery_attempts]. rewrite Hr, Ha.
  change (default 0 (Some a)) with a.
  rewrite (group_policy_pinned _ _ _ _ _ p) by done. step_bind.
  unfold expiry_schedule. rewrite He, Ha, Hp. step_bind.
  destruct (attempts_exhausted p a || _).
  - eexists. split; [done|]. cbn. split_and!; try done. apply map_eq. intros o'.
    destruct (decide (o' = o)) as [->|]; [by rewrite lookup_partial_alter_eq|].
    by rewrite lookup_partial_alter_ne.
  - eexists. split; [done|]. cbn. split_and!; done.
Qed.

Lemma expire_deliveries_spec now legacy l c :
  NoDup l.*1 ->
  (forall o d, (o, d) ∈ l -> lease_expired (gd_deadline_ms d) now = true /\ expirable c o) ->
  exists c', expire_deliveries now legacy c l = Some c' /\
    gc_committed_offset c' = gc_committed_offset c /\
    gc_acknowledged_offsets c' = gc_acknowledged_offsets c /\
    gc_delivery_attempts c' = gc_delivery_attempts c /\ gc_policy c' = gc_policy c /\
    gc_delivery_policies c' = gc_delivery_policies c /\
    (forall o, o ∉ l.*1 -> gc_in_flight c' !! o = gc_in_flight c !! o /\
       gc_retry_not_before c' !! o = gc_retry_not_before c !! o) /\
    (forall o d, (o, d) ∈ l -> gc_in_flight c' !! o = None /\
       gc_retry_not_before c' !! o = expiry_schedule c now o d).
Proof.
  revert c. induction l as [|[o d] l IH]; intros c Hnd Hl; cbn [expire_deliveries].
  - exists c. split_and!; try done. by intros o d ?%not_elem_of_nil.
  - cbn in Hnd. apply NoDup_cons in Hnd as [Hni Hnd].
    destruct (Hl o d) as [He Hx]; [by left|].
    destruct (expire_delivery_spec now legacy c o d He Hx)
      as (c1 & -> & A1 & A2 & A3 & A4 & A5 & A6 & A7). step_bind.
    assert (Hsch : forall o d, expiry_schedule c1 now o d = expiry_schedule c now o d).
    { intros. unfold expiry_schedule. by rewrite A3, A5. }
    destruct (IH c1 Hnd) as (c2 & -> & B1 & B2 & B3 & B4 & B5 & B6 & B7).
    { intros o' d' Hin. assert (o' <> o).
      { intros ->. apply Hni. by apply (list_elem_of_fmap_2 fst) in Hin. }
      destruct (Hl o' d') as [? (? & ?)]; [by right|]. split; [done|].
      split; [rewrite A7, lookup_partial_alter_ne by done; done|]. by rewrite A3, A5. }
    exists c2. split_and!; try congruence.
    + cbn. intros o' [Hne Hni']%not_elem_of_cons. destruct (B6 o' Hni') as [-> ->].
      by rewrite A6, A7, lookup_delete_ne, lookup_partial_alter_ne.
    + intros o' d' [[= -> ->]|Hin]%elem_of_cons.
      * destruct (B6 o Hni) as [-> ->]. rewrite A6, A7, lookup_delete_eq.
        by rewrite lookup_partial_alter_eq.
      * destruct (B7 o' d' Hin) as [-> ->]. by rewrite Hsch.
Qed.

Lemma elem_of_expired_deliveries c now o d :
  (o, d) ∈ expired_deliveries c now <->
  gc_in_flight c !! o = Some d /\ lease_expired (gd_deadline_ms d) now = true.
Proof.
  unfold expired_deliveries. rewrite list_elem_of_filter, elem_of_btree_items. naive_solver.
Qed.

Lemma NoDup_expired_deliveries c now : NoDup (expired_deliveries c now).*1.
Proof. apply NoDup_filter_items. Qed.

Lemma group_consumer_ext c1 c2 :
  gc_committed_offset c1 = gc_committed_offset c2 ->
  gc_acknowledged_offsets c1 = gc_acknowledged_offsets c2 ->
  gc_delivery_attempts c1 = gc_delivery_attempts c2 -> gc_policy c1 = gc_policy c2 ->
  gc_delivery_policies c1 = gc_delivery_policies c2 -> gc_in_flight c1 = gc_in_flight c2 ->
  gc_retry_not_before c1 = gc_retry_not_before c2 -> c1 = c2.
Proof. destruct c1, c2. cbn. by intros -> -> -> -> -> -> ->. Qed.

Lemma lookup_live c now o d :
  gc_in_flight (expired_consumer c now) !! o = Some d <->
  gc_in_flight c !! o = Some d /\ lease_expired (gd_deadline_ms d) now = false.
Proof. cbn. by rewrite map_lookup_filter_Some. Qed.

Lemma lookup_live_None c now o :
  gc_in_flight (expired_consumer c now) !! o = None <->
  forall d, gc_in_flight c !! o = Some d -> lease_expired (gd_deadline_ms d) now = true.
Proof.
  cbn. rewrite map_lookup_filter_None. split.
  - intros [Hn|Hn] d Hd; [congruence|]. apply Hn in Hd. cbn in Hd. by destruct lease_expired.
  - intros H. destruct (gc_in_flight c !! o) as [d|] eqn:E; [right|by left].
    intros d' [= <-]. cbn. by rewrite (H d).
Qed.

(** Observing the expired deliveries of a well-formed consumer does not panic,
    whatever the legacy policy, and its result is [expired_consumer]. *)
Lemma expire_deliveries_eq messages now legacy c :
  group_wf messages c ->
  expire_deliveries now legacy c (expired_deliveries c now) = Some (expired_consumer c now).
Proof.
  intros Hwf. destruct (expire_deliveries_spec now legacy (expired_deliveries c now) c)
    as (c' & -> & A1 & A2 & A3 & A4 & A5 & A6 & A7).
  { apply NoDup_expired_deliveries. }
  { intros o d [Ho He]%elem_of_expired_deliveries. split; [done|].
    by apply (group_wf_expirable messages c o d). }
  assert (Hin : forall o, (o ∈ (expired_deliveries c now).*1) <->
    exists d, gc_in_flight c !! o = Some d /\ lease_expired (gd_deadline_ms d) now = true).
  { intros o. rewrite list_elem_of_fmap. split.
    - intros ([o' d] & -> & Hd%elem_of_expired_deliveries). eauto.
    - intros [d Hd%elem_of_expired_deliveries]. by exists (o, d). }
  f_equal. apply group_consumer_ext; try done; apply map_eq; intros o;
    destruct (decide (o ∈ (expired_deliveries c now).*1)) as [Hx|Hx].
  - pose proof Hx as Hx'. apply Hin in Hx as (d & Hd & He).
    rewrite (proj1 (A7 o d ltac:(by apply elem_of_expired_deliveries))).
    symmetry. apply lookup_live_None. congruence.
  - rewrite (proj1 (A6 o Hx)). destruct (gc_in_flight c !! o) as [d|] eqn:E.
    + symmetry. apply lookup_live. split; [done|]. apply not_true_is_false. intros He.
      apply Hx, Hin. eauto.
    + symmetry. apply lookup_live_None. congruence.
  - apply Hin in Hx as (d & Hd & He).
    rewrite (proj2 (A7 o d ltac:(by apply elem_of_expired_deliveries))). cbn.
    destruct (group_wf_expirable _ _ _ _ Hwf Hd) as [Hr _].
    by rewrite lookup_union_r, map_lookup_imap, Hd.
  - rewrite (proj2 (A6 o Hx)). cbn. rewrite lookup_union, map_lookup_imap.
    destruct (gc_in_flight c !! o) as [d|] eqn:E; cbn; [|by destruct (gc_retry_not_before c !! o)].
    assert (expiry_schedule c now o d = None) as ->.
    { unfold expiry_schedule. destruct lease_expired eqn:He; [|done]. exfalso. apply Hx, Hin. eauto. }
    by destruct (gc_retry_not_before c !! o).
Qed.

Lemma expired_consumer_wf messages now c :
  group_wf messages c -> group_wf messages (expired_consumer c now).
Proof.
  intros Hwf. split; try apply Hwf.
  - intros o d [Ho _]%lookup_live. by apply (gw_in_flight _ _ Hwf).
  - intros o s Hs. cbn in Hs. rewrite lookup_union_Some_raw, map_lookup_imap in Hs.
    destruct Hs as [Hs|[_ Hs]].
    + destruct (gw_retry _ _ Hwf o s Hs) as (Ha & Hi & Hm). split_and!; [done| |done].
      apply lookup_live_None. congruence.
    + apply bind_Some in Hs as (d & Hd & Hs).
      destruct (gw_in_flight _ _ Hwf o d Hd) as (Ha & m & Hm & Hk).
      unfold expiry_schedule in Hs. destruct lease_expired eqn:He; [|done].
      split_and!.
      * cbn. rewrite Ha. eauto.
      * apply lookup_live_None. intros d' Hd'. congruence.
      * exists m. split; [done|]. repeat (apply bind_Some in Hs as (? & ? & Hs)).
        destruct (_ || _); [done|]. injection Hs as <-. done.
  - intros o d k o' m [Ho _]%lookup_live. by apply (gw_order _ _ Hwf).
Qed.

(** ** Candidates *)

Lemma key_in_flight_spec c k :
  key_in_flight c k = true <->
  exists o d, gc_in_flight c !! o = Some d /\ gd_key d = Some k.
Proof.
  unfold key_in_flight. rewrite existsb_exists. split.
  - intros (d & Hd & Hk%bool_decide_eq_true_1).
    apply list_elem_of_In, elem_of_btree_values in Hd as [o Ho]. eauto.
  - intros (o & d & Ho & Hk). exists d. split; [|by apply bool_decide_eq_true_2].
    apply list_elem_of_In, elem_of_btree_values. eauto.
Qed.

(** A schedule still closed at [now]. *)
Definition retry_pending (c : GroupConsumerState) (now_ms : N) (o : Offset)
  (s : GroupRetrySchedule) : Prop :=
  gc_retry_not_before c !! o = Some s /\ now_ms < grs_retry_not_before_ms s.

Lemma retry_filter_fold now l offsets keys :
  let r := foldl (retry_filter_step now) (offsets, keys) l in
  (forall o : Offset, o ∈ r.1 <->
     o ∈ offsets \/ exists s, (o, s) ∈ l /\ now < grs_retry_not_before_ms s) /\
  (forall k : string, k ∈ r.2 <->
     k ∈ keys \/ exists o s, (o, s) ∈ l /\ now < grs_retry_not_before_ms s /\ grs_key s = Some k).
Proof.
  revert offsets keys. induction l as [|[o s] l IH]; intros offsets keys; cbn [foldl retry_filter_step].
  - cbn. split; intros; (split; [by left|]); intros [?|H]; [done| |done|].
    + by destruct H as (? & ?%not_elem_of_nil & _).
    + by destruct H as (? & ? & ?%not_elem_of_nil & _).
  - setoid_rewrite elem_of_cons. destruct (N.leb_spec (grs_retry_not_before_ms s) now) as [Hle|Hgt].
    + destruct (IH offsets keys) as [H1 H2]. split; intros x; rewrite ?H1, ?H2; clear -Hle.
      * naive_solver lia.
      * naive_solver lia.
    + destruct (IH ({[o]} ∪ offsets)
        (match grs_key s with Some key => {[key]} ∪ keys | None => keys end)) as [H1 H2].
      split; intros x; rewrite ?H1, ?H2; clear -Hgt.
      * rewrite elem_of_union, elem_of_singleton. naive_solver.
      * destruct (grs_key s) as [k|] eqn:E; rewrite ?elem_of_union, ?elem_of_singleton; naive_solver.
Qed.

Lemma retry_filter_spec c now :
  (forall o, o ∈ (retry_filter c now).1 <-> exists s, retry_pending c now o s) /\
  (forall k, k ∈ (retry_filter c now).2 <-> exists o s, retry_pending c now o s /\ grs_key s = Some k).
Proof.
  destruct (retry_filter_fold now (btree_items (gc_retry_not_before c)) ∅ ∅) as [H1 H2].
  unfold retry_pending. split; [intros o|intros k].
  - unfold retry_filter. rewrite H1. setoid_rewrite elem_of_btree_items. set_solver.
  - unfold retry_filter. rewrite H2. setoid_rewrite elem_of_btree_items. set_solver.
Qed.

(** What a message must satisfy to be delivered, with the offsets and keys
    already selected in the batch. *)
Definition deliverable (c : GroupConsumerState) (now_ms : N) (selected_offsets : gset Offset)
  (selected_keys : gset string) (o : Offset) (m : StoredMessage) : Prop :=
  ~ group_done c o /\ gc_in_flight c !! o = None /\ (o ∉ selected_offsets) /\
  (forall s, ~ retry_pending c now_ms o s) /\
  (forall k, sm_key m = Some k ->
     (k ∉ selected_keys) /\ (forall o' s, retry_pending c now_ms o' s -> grs_key s <> Some k) /\
     (forall o' d, gc_in_flight c !! o' = Some d -> gd_key d <> Some k)).

Lemma batch_eligible_spec c now so sk o m :
  (gc_committed_offset c <= o /\
   batch_eligible c (retry_filter c now).1 (retry_filter c now).2 so sk (o, m) = true) <->
  deliverable c now so sk o m.
Proof.
  destruct (retry_filter_spec c now) as [Ho Hk].
  unfold batch_eligible, deliverable, group_done.
  destruct (decide (o ∈ gc_acknowledged_offsets c)) as [Ha|Ha];
    [rewrite bool_decide_eq_true_2 by done; cbn; naive_solver|
     rewrite bool_decide_eq_false_2 by done].
  destruct (gc_in_flight c !! o) as [d|] eqn:Hi;
    [rewrite bool_decide_eq_true_2 by eauto; cbn; naive_solver|
     rewrite bool_decide_eq_false_2 by (by intros [? ?])].
  destruct (decide (o ∈ (retry_filter c now).1)) as [Hr|Hr];
    [rewrite bool_decide_eq_true_2 by done; apply Ho in Hr; cbn; naive_solver|
     rewrite bool_decide_eq_false_2 by done; rewrite Ho in Hr].
  destruct (decide (o ∈ so)) as [Hs|Hs];
    [rewrite bool_decide_eq_true_2 by done; cbn; naive_solver|
     rewrite bool_decide_eq_false_2 by done].
  cbn [orb]. destruct (sm_key m) as [k|] eqn:Em; cbn [is_none_or]; [|naive_solver lia].
  rewrite !andb_true_iff, !negb_true_iff, !bool_decide_eq_false, <-not_true_iff_false.
  rewrite key_in_flight_spec, Hk. split.
  - intros (Hle & [H1 H2] & H3). split_and!; [intros [?|?]; [lia|done]|done|done|naive_solver|].
    intros k' [= <-]. naive_solver.
  - intros (Hle & _ & _ & _ & H). destruct (H k eq_refl) as (H1 & H2 & H3). naive_solver lia.
Qed.

Lemma poll_eligible_batch c ro rk p : poll_eligible c ro rk p = batch_eligible c ro rk ∅ ∅ p.
Proof.
  destruct p as [o m]. unfold poll_eligible, batch_eligible.
  rewrite (bool_decide_eq_false_2 (o ∈ (∅ : gset Offset))) by set_solver.
  rewrite orb_false_r. case_match; [done|]. destruct (sm_key m) as [k|]; [|done]. cbn.
  by rewrite (bool_decide_eq_false_2 (k ∈ (∅ : gset string))) by set_solver.
Qed.

(** The candidate of a poll is the least deliverable offset. *)
Lemma candidate_spec c now so sk messages o m :
  List.find (batch_eligible c (retry_filter c now).1 (retry_filter c now).2 so sk)
    (filter (fun p => gc_committed_offset c <= p.1) (enumerate messages)) = Some (o, m) <->
  vec_get messages o = Some m /\ deliverable c now so sk o m /\
  (forall o' m', vec_get messages o' = Some m' -> deliverable c now so sk o' m' -> o <= o').
Proof.
  rewrite find_sorted_least.
  2:{ eapply StronglySorted_filter, enumerate_from_sorted. }
  setoid_rewrite list_elem_of_filter. setoid_rewrite elem_of_enumerate. cbn [fst].
  setoid_rewrite <-batch_eligible_spec. naive_solver.
Qed.

Lemma no_candidate_spec c now so sk messages :
  List.find (batch_eligible c (retry_filter c now).1 (retry_filter c now).2 so sk)
    (filter (fun p => gc_committed_offset c <= p.1) (enumerate messages)) = None <->
  (forall o m, vec_get messages o = Some m -> ~ deliverable c now so sk o m).
Proof.
  rewrite find_None_Forall, Forall_forall. split.
  - intros H o m Hm [Hle He]%batch_eligible_spec. rewrite H in He; [done|].
    apply list_elem_of_filter. split; [done|]. by apply elem_of_enumerate.
  - intros H [o m] [Hle Hin]%list_elem_of_filter. apply elem_of_enumerate in Hin.
    apply not_true_iff_false. intros He. apply (H o m Hin). apply batch_eligible_spec. done.
Qed.

(** ** Recording a delivery *)

(** Every earlier message with the key of [m] is finished. *)
Definition key_behind (messages : list StoredMessage) (c : GroupConsumerState) (o : Offset)
  (m : StoredMessage) : Prop :=
  forall k o' m', sm_key m = Some k -> o' < o -> vec_get messages o' = Some m' ->
    sm_key m' = Some k -> group_done c o'.

(** The offsets selected so far account for their keys. *)
Definition keys_selected (messages : list StoredMessage) (so : gset Offset) (sk : gset string) :
  Prop :=
  forall o m k, o ∈ so -> vec_get messages o = Some m -> sm_key m = Some k -> k ∈ sk.

(** The least deliverable offset has the earlier messages of its key behind it. *)
Lemma candidate_key_behind messages c now so sk o m :
  group_wf messages c -> keys_selected messages so sk ->
  deliverable c now so sk o m ->
  (forall o' m', vec_get messages o' = Some m' -> deliverable c now so sk o' m' -> o <= o') ->
  key_behind messages c o m.
Proof.
  intros Hwf Hsel (_ & _ & _ & _ & Hkeys) Hmin k o' m' Hk Hlt Hm' Hk'.
  destruct (Hkeys k Hk) as (Hsk & Hrk & Hfk). clear Hkeys.
  destruct (decide (group_done c o')) as [|Hnd]; [done|exfalso].
  assert (o <= o'); [|lia]. apply (Hmin o' m' Hm'). split_and!; [done| | | |].
  - destruct (gc_in_flight c !! o') as [d|] eqn:Hd; [|done]. exfalso.
    destruct (gw_in_flight _ _ Hwf o' d Hd) as (_ & m0 & Hm0 & Hk0).
    apply (Hfk o' d Hd). congruence.
  - intros Hin. by apply Hsk, (Hsel o' m' k).
  - intros s Hs. apply (Hrk o' s Hs). destruct Hs as [Hs _].
    destruct (gw_retry _ _ Hwf o' s Hs) as (_ & _ & m0 & Hm0 & Hk0). congruence.
  - intros k0 Hk0. assert (k0 = k) as -> by congruence. done.
Qed.

(** What recording the delivery [d] of [o] does to a consumer. *)
Record delivery_recorded (c : GroupConsumerState) (o : Offset) (d : GroupDelivery)
  (policy : ConsumerPolicy) (c' : GroupConsumerState) : Prop := {
  dr_committed : gc_committed_offset c' = gc_committed_offset c;
  dr_acknowledged : gc_acknowledged_offsets c' = gc_acknowledged_offsets c;
  dr_attempts : gc_delivery_attempts c' =
    <[o := gd_delivery_attempt d]> (gc_delivery_attempts c);
  dr_policy : gc_policy c' = gc_policy c;
  dr_policies : gc_delivery_policies c' =
    <[o := default policy (gc_delivery_policies c !! o)]> (gc_delivery_policies c);
  dr_in_flight : gc_in_flight c' = <[o := d]> (gc_in_flight c);
  dr_retries : gc_retry_not_before c' = delete o (gc_retry_not_before c);
}.

Lemma pin_policy (m : gmap Offset ConsumerPolicy) o policy :
  match m !! o with Some _ => m | None => <[o := policy]> m end =
  <[o := default policy (m !! o)]> m.
Proof. destruct (m !! o) as [p|] eqn:E; cbn; [by rewrite insert_id|done]. Qed.

Lemma delivery_recorded_done c o d policy c' o' :
  delivery_recorded c o d policy c' -> group_done c' o' <-> group_done c o'.
Proof. intros H. unfold group_done. by rewrite (dr_committed _ _ _ _ _ H), (dr_acknowledged _ _ _ _ _ H). Qed.

Lemma delivery_recorded_wf messages c o m d policy c' :
  group_wf messages c -> delivery_recorded c o d policy c' -> vec_get messages o = Some m ->
  ~ group_done c o -> gd_key d = sm_key m -> 0 < gd_delivery_attempt d <= u32_max ->
  key_behind messages c o m -> group_wf messages c'.
Proof.
  intros Hwf Hd Hm Hnd Hk Ha Hb.
  pose proof (fun o' => delivery_recorded_done _ _ _ _ _ o' Hd) as Hdone.
  pose proof (vec_get_lt _ _ _ Hm).
  split; rewrite ?(dr_committed _ _ _ _ _ Hd), ?(dr_acknowledged _ _ _ _ _ Hd),
    ?(dr_attempts _ _ _ _ _ Hd), ?(dr_policies _ _ _ _ _ Hd), ?(dr_in_flight _ _ _ _ _ Hd),
    ?(dr_retries _ _ _ _ _ Hd); try apply Hwf.
  - intros o'. rewrite !lookup_insert_is_Some, (gw_policies _ _ Hwf). done.
  - intros o' a [[<- <-]|[_ Ho]]%lookup_insert_Some; [done|]. by apply (gw_positive _ _ Hwf) in Ho.
  - intros o'. rewrite Hdone, lookup_insert_is_Some. intros [<-|[_ Ho]]; [done|].
    by apply (gw_attempted _ _ Hwf).
  - intros o' d' [[<- <-]|[Hne Ho]]%lookup_insert_Some.
    + split; [by rewrite lookup_insert_eq|]. eauto.
    + rewrite lookup_insert_ne by done. by apply (gw_in_flight _ _ Hwf).
  - intros o' s [Hne Ho]%lookup_delete_Some. rewrite !lookup_insert_ne by done.
    by apply (gw_retry _ _ Hwf).
  - intros o' d' k o'' m'' Ho'. rewrite Hdone. revert Ho'.
    intros [[<- <-]|[Hne Ho]]%lookup_insert_Some.
    + intros Hk'. apply (Hb k). congruence.
    + by apply (gw_order _ _ Hwf).
Qed.

Lemma u32_next_attempt messages c o :
  group_wf messages c ->
  let next := u32_saturating_add (default 0 (gc_delivery_attempts c !! o)) 1 in
  0 < next <= u32_max /\ forall a, gc_delivery_attempts c !! o = Some a -> a <= next.
Proof.
  intros Hwf. cbn. unfold u32_saturating_add, saturating_add.
  destruct (gc_delivery_attempts c !! o) as [a|] eqn:Ha; cbn.
  - apply (gw_positive _ _ Hwf) in Ha. split; [unfold u32_max in *; lia|].
    intros a' [= <-]. lia.
  - split; [unfold u32_max; lia|done].
Qed.
