(* ===== verification/RaftHandlers.v ===== *)
(** The handlers of delivery.rs on whole states: the invariant of the replicated
    state, that no handler panics or runs out of fuel, and what each of them
    changes. *)

From S2P Require Import Prelude Engine RecordFormat Names RaftState RaftDelivery RaftInvariant.

Local Open Scope N_scope.

(** ** The invariant of the state *)

Definition messages_of (st : SnapshotState) (stream : string) : list StoredMessage :=
  from_option ss_messages [] (st_streams st !! stream).

(** The consumer a handler works on: the stored one, or the one it creates. *)
Definition consumer_of (st : SnapshotState) (consumer_key : string * string) : GroupConsumerState :=
  default (group_consumer_at (default 0 (st_consumers st !! consumer_key)))
    (st_group_consumers st !! consumer_key).

Record snapshot_wf (st : SnapshotState) : Prop := {
  sw_group : forall s n c, st_group_consumers st !! (s, n) = Some c ->
    is_Some (st_streams st !! s) /\ group_wf (messages_of st s) c;
  sw_consumer : forall k o, st_consumers st !! k = Some o -> o <= u64_max;
  sw_dedup : forall s requests id o, st_dedup st !! s = Some requests -> requests !! id = Some o ->
    o < vec_len (messages_of st s);
}.

(** The stream's messages can be counted on [u64] ([Vec] holds fewer). *)
Definition stream_fits (st : SnapshotState) (stream : string) : Prop :=
  vec_len (messages_of st stream) <= u64_max.

Lemma snapshot_default_wf : snapshot_wf snapshot_default.
Proof. split; cbn; intros *; by rewrite lookup_empty. Qed.

Lemma consumer_of_wf st s n : snapshot_wf st -> group_wf (messages_of st s) (consumer_of st (s, n)).
Proof.
  intros Hwf. unfold consumer_of. destruct (st_group_consumers st !! (s, n)) as [c|] eqn:E; cbn.
  - by apply (sw_group _ Hwf) in E as [_ ?].
  - apply group_wf_at. destruct (st_consumers st !! (s, n)) as [o|] eqn:Eo; cbn.
    + by apply (sw_consumer _ Hwf) in Eo.
    + unfold u64_max. lia.
Qed.

(** The streams of [st'] are those of [st], with messages appended, and more. *)
Definition streams_extended (st st' : SnapshotState) : Prop :=
  forall s, is_Some (st_streams st !! s) ->
    is_Some (st_streams st' !! s) /\ exists more, messages_of st' s = messages_of st s ++ more.

Lemma snapshot_wf_extended st st' :
  snapshot_wf st -> streams_extended st st' ->
  st_group_consumers st' = st_group_consumers st -> st_consumers st' = st_consumers st ->
  st_dedup st' = st_dedup st -> snapshot_wf st'.
Proof.
  intros Hwf Hex Hg Hc Hd. split; rewrite ?Hg, ?Hc, ?Hd.
  - intros s n c H. destruct (sw_group _ Hwf s n c H) as [Hs Hw].
    destruct (Hex s Hs) as [Hs' [more ->]]. split; [done|]. by apply group_wf_app.
  - apply (sw_consumer _ Hwf).
  - intros s reqs id o H1 H2. pose proof (sw_dedup _ Hwf s reqs id o H1 H2) as Hlt.
    assert (Hs : is_Some (st_streams st !! s)).
    { unfold messages_of in Hlt. destruct (st_streams st !! s); [eauto|].
      cbn in Hlt. unfold vec_len in Hlt. cbn in Hlt. lia. }
    destruct (Hex s Hs) as [_ [more ->]]. rewrite vec_len_app. lia.
Qed.

Lemma streams_extended_eq st st' : st_streams st' = st_streams st -> streams_extended st st'.
Proof.
  intros H s Hs. unfold messages_of. rewrite H. split; [done|]. exists []. by rewrite app_nil_r.
Qed.

Lemma streams_extended_trans st1 st2 st3 :
  streams_extended st1 st2 -> streams_extended st2 st3 -> streams_extended st1 st3.
Proof.
  intros H1 H2 s Hs. destruct (H1 s Hs) as [Hs2 [m1 E1]]. destruct (H2 s Hs2) as [Hs3 [m2 E2]].
  split; [done|]. exists (m1 ++ m2). by rewrite E2, E1, app_assoc.
Qed.

Lemma snapshot_wf_frame st st' :
  snapshot_wf st -> st_streams st' = st_streams st ->
  st_group_consumers st' = st_group_consumers st -> st_consumers st' = st_consumers st ->
  st_dedup st' = st_dedup st -> snapshot_wf st'.
Proof. intros Hwf Hs. apply snapshot_wf_extended; [done|]. by apply streams_extended_eq. Qed.



Lemma put_consumer_wf st s n c :
  snapshot_wf st -> is_Some (st_streams st !! s) -> group_wf (messages_of st s) c ->
  snapshot_wf (put_consumer st (s, n) c).
Proof.
  intros Hwf Hs Hc. split; cbn; try apply Hwf.
  intros s' n' c' [[[= <- <-] <-]|[_ H]]%lookup_insert_Some; [done|]. by apply (sw_group _ Hwf) in H.
Qed.

Lemma messages_of_push st s m fresh :
  ss_messages fresh = [] ->
  let st' := set_streams st
    (<[s := push_message (default fresh (st_streams st !! s)) m]> (st_streams st)) in
  messages_of st' s = messages_of st s ++ [m] /\
  (forall s', s' <> s -> st_streams st' !! s' = st_streams st !! s') /\ streams_extended st st'.
Proof.
  intros Hf. cbn. assert (H1 : messages_of (set_streams st (<[s :=
    push_message (default fresh (st_streams st !! s)) m]> (st_streams st))) s =
    messages_of st s ++ [m]).
  { unfold messages_of. cbn. rewrite lookup_insert_eq. cbn.
    destruct (st_streams st !! s); cbn; [done|]. by rewrite Hf. }
  split_and!; [done| |].
  - intros s' Hne. by rewrite lookup_insert_ne.
  - intros s' Hs'. destruct (decide (s' = s)) as [->|Hne].
    + split; [cbn; rewrite lookup_insert_eq; eauto|]. by exists [m].
    + unfold messages_of. cbn. rewrite lookup_insert_ne by done. split; [done|].
      exists []. by rewrite app_nil_r.
Qed.

(** ** The preamble of the handlers *)

(** Clock, consumer and expired deliveries observed at [now_ms]. *)
Definition prepared (st : SnapshotState) (stream consumer : string) (now_ms : N) : SnapshotState :=
  put_consumer (set_lease_clock st now_ms) (stream, consumer)
    (expired_consumer (consumer_of st (stream, consumer)) now_ms).

Lemma observe_prepared st s n now legacy :
  snapshot_wf st ->
  observe_expired_deliveries (ensure_group_consumer (set_lease_clock st now) (s, n)) s n now legacy =
  Some (prepared st s n now).
Proof.
  intros Hwf. pose proof (consumer_of_wf st s n Hwf) as Hc.
  unfold observe_expired_deliveries, ensure_group_consumer, prepared, put_consumer.
  unfold consumer_of in *. cbn [set_lease_clock st_group_consumers st_consumers].
  destruct (st_group_consumers st !! (s, n)) as [c|] eqn:E; cbn [default from_option id] in *.
  - cbn [set_lease_clock st_group_consumers]. rewrite E. step_bind.
    by rewrite (expire_deliveries_eq (messages_of st s)).
  - cbn [set_group_consumers st_group_consumers]. rewrite lookup_insert_eq. step_bind.
    rewrite (expire_deliveries_eq (messages_of st s)) by done. step_bind.
    unfold set_group_consumers. cbn. by rewrite insert_insert_eq.
Qed.

Lemma prepared_lookup st s n now :
  st_group_consumers (prepared st s n now) !! (s, n) =
  Some (expired_consumer (consumer_of st (s, n)) now).
Proof. cbn. by rewrite lookup_insert_eq. Qed.

Lemma prepared_wf st s n now :
  snapshot_wf st -> is_Some (st_streams st !! s) -> snapshot_wf (prepared st s n now).
Proof.
  intros Hwf Hs. apply put_consumer_wf; [by apply (snapshot_wf_frame st)|done|].
  change (group_wf (messages_of st s) (expired_consumer (consumer_of st (s, n)) now)).
  by apply expired_consumer_wf, consumer_of_wf.
Qed.

Lemma prepared_consumer st s n now :
  consumer_of (prepared st s n now) (s, n) = expired_consumer (consumer_of st (s, n)) now.
Proof. unfold consumer_of at 1. by rewrite prepared_lookup. Qed.

Lemma active_stream st s : stream_is_active st s = true -> is_Some (st_streams st !! s).
Proof. unfold stream_is_active. destruct (st_streams st !! s); [eauto|done]. Qed.

(** ** The dead-letter stream is another stream *)

Lemma dead_letter_name_neq s : raft_dead_letter_stream_name s <> s.
Proof.
  intros H%(f_equal str_len). revert H. unfold raft_dead_letter_stream_name.
  destruct (N.leb_spec (str_len (s +:+ DEAD_LETTER_SUFFIX)) 128) as [Hle|Hgt].
  - rewrite str_len_app. change (str_len DEAD_LETTER_SUFFIX) with 12. lia.
  - rewrite str_len_app in *. change (str_len DEAD_LETTER_SUFFIX) with 12 in Hgt.
    change (str_len DEAD_LETTER_HASH_PREFIX) with 19. unfold str_len at 1.
    rewrite (proj1 (hex16_bytes _)). lia.
Qed.

(** ** How much is left to deliver *)

(** The offsets neither finished nor selected: what bounds the poll loops. *)
Definition open_offsets (messages : list StoredMessage) (selected : gset Offset)
  (c : GroupConsumerState) : list Offset :=
  filter (fun o => ~ group_done c o /\ o ∉ selected) (N.of_nat <$> seq 0 (length messages)).

Lemma elem_of_open_offsets messages so c o :
  o ∈ open_offsets messages so c <-> o < vec_len messages /\ ~ group_done c o /\ o ∉ so.
Proof.
  unfold open_offsets, vec_len. rewrite list_elem_of_filter, list_elem_of_fmap. split.
  - intros [Hn (i & -> & Hi%elem_of_seq)]. split; [lia|done].
  - intros [Ho Hn]. split; [done|]. exists (N.to_nat o). rewrite elem_of_seq. lia.
Qed.

Lemma open_offsets_le messages so c : (length (open_offsets messages so c) <= length messages)%nat.
Proof.
  unfold open_offsets. etrans; [apply length_filter|]. by rewrite length_fmap, length_seq.
Qed.

Lemma open_offsets_shrink messages so so' c c' o :
  o ∈ open_offsets messages so c ->
  (forall x, ~ group_done c' x /\ x ∉ so' <-> x <> o /\ ~ group_done c x /\ x ∉ so) ->
  (length (open_offsets messages so' c') < length (open_offsets messages so c))%nat.
Proof.
  intros Ho Heq. unfold open_offsets at 1.
  rewrite (list_filter_iff _ (fun x => x <> o /\ ~ group_done c x /\ x ∉ so)) by done.
  rewrite <-list_filter_filter. eapply length_filter_lt; [exact Ho|]. naive_solver.
Qed.

Lemma open_offsets_ack messages so c o c' :
  ack_step c o c' -> o < vec_len messages -> vec_len messages <= u64_max -> ~ group_done c o ->
  o ∉ so -> (length (open_offsets messages so c') < length (open_offsets messages so c))%nat.
Proof.
  intros Hack Ho Hlen Hnd Hso. apply (open_offsets_shrink _ _ _ _ _ o).
  - by apply elem_of_open_offsets.
  - intros x. rewrite (as_done _ _ _ Hack) by lia. naive_solver.
Qed.

(** ** The dead-letter phase of a poll *)

(** The attempts of [o] are used up under the policy a poll applies to it. *)
Definition exhausted (legacy : ConsumerPolicy) (version : option N) (c : GroupConsumerState)
  (o : Offset) : Prop :=
  exists policy,
    group_policy_for_offset c o (default 0 (gc_delivery_attempts c !! o)) legacy version =
      Some policy /\
    attempts_exhausted policy (default 0 (gc_delivery_attempts c !! o)) = true.

(** [st'] is [st] after the offsets [moved] went to the dead-letter stream. *)
Record dead_lettered (legacy : ConsumerPolicy) (version : option N) (stream consumer : string)
  (moved : list Offset) (st st' : SnapshotState) : Prop := {
  dl_wf : snapshot_wf st';
  dl_clock : st_lease_clock_ms st' = st_lease_clock_ms st;
  dl_consumers : st_consumers st' = st_consumers st;
  dl_dedup : st_dedup st' = st_dedup st;
  dl_redeliveries : st_redeliveries st' = st_redeliveries st;
  dl_groups : forall key, key <> (stream, consumer) ->
    st_group_consumers st' !! key = st_group_consumers st !! key;
  dl_present : is_Some (st_group_consumers st' !! (stream, consumer));
  dl_streams : forall s, s <> raft_dead_letter_stream_name stream ->
    st_streams st' !! s = st_streams st !! s;
  dl_extended : streams_extended st st';
  dl_copied : messages_of st' (raft_dead_letter_stream_name stream) =
    messages_of st (raft_dead_letter_stream_name stream) ++
    omap (vec_get (messages_of st stream)) moved;
  dl_nodup : NoDup moved;
  dl_open : forall o, o ∈ moved -> o < vec_len (messages_of st stream) /\
    ~ group_done (consumer_of st (stream, consumer)) o /\
    exhausted legacy version (consumer_of st (stream, consumer)) o;
  dl_done : forall o, group_done (consumer_of st' (stream, consumer)) o <->
    group_done (consumer_of st (stream, consumer)) o \/ o ∈ moved;
  dl_in_flight : gc_in_flight (consumer_of st' (stream, consumer)) =
    gc_in_flight (consumer_of st (stream, consumer));
  dl_policy : gc_policy (consumer_of st' (stream, consumer)) =
    gc_policy (consumer_of st (stream, consumer));
  dl_attempts : forall o, o ∉ moved ->
    gc_delivery_attempts (consumer_of st' (stream, consumer)) !! o =
    gc_delivery_attempts (consumer_of st (stream, consumer)) !! o;
  dl_policies : forall o, o ∉ moved ->
    gc_delivery_policies (consumer_of st' (stream, consumer)) !! o =
    gc_delivery_policies (consumer_of st (stream, consumer)) !! o;
  dl_retries : forall o, o ∉ moved ->
    gc_retry_not_before (consumer_of st' (stream, consumer)) !! o =
    gc_retry_not_before (consumer_of st (stream, consumer)) !! o;
}.

Lemma dead_lettered_refl legacy version s n st :
  snapshot_wf st -> is_Some (st_group_consumers st !! (s, n)) ->
  dead_lettered legacy version s n [] st st.
Proof.
  intros Hwf Hg. split; try done; cbn.
  - by apply streams_extended_eq.
  - by rewrite app_nil_r.
  - constructor.
  - by intros o ?%not_elem_of_nil.
  - intros o. rewrite elem_of_nil. naive_solver.
Qed.

Lemma group_policy_ext c c' o a legacy version :
  gc_policy c' = gc_policy c -> gc_delivery_policies c' !! o = gc_delivery_policies c !! o ->
  group_policy_for_offset c' o a legacy version = group_policy_for_offset c o a legacy version.
Proof. intros H1 H2. unfold group_policy_for_offset. by rewrite H1, H2. Qed.

Lemma dead_lettered_exhausted legacy version s n moved st st' o :
  dead_lettered legacy version s n moved st st' -> o ∉ moved ->
  exhausted legacy version (consumer_of st' (s, n)) o <->
  exhausted legacy version (consumer_of st (s, n)) o.
Proof.
  intros H Ho. unfold exhausted. rewrite (dl_attempts _ _ _ _ _ _ _ H) by done.
  by setoid_rewrite (group_policy_ext _ _ _ _ _ _ (dl_policy _ _ _ _ _ _ _ H)
    (dl_policies _ _ _ _ _ _ _ H o Ho)).
Qed.

Lemma dead_lettered_messages legacy version s n moved st st' :
  dead_lettered legacy version s n moved st st' -> messages_of st' s = messages_of st s.
Proof.
  intros H. unfold messages_of. rewrite (dl_streams _ _ _ _ _ _ _ H); [done|].
  apply not_eq_sym, dead_letter_name_neq.
Qed.

Lemma dead_lettered_trans legacy version s n m1 m2 st1 st2 st3 :
  dead_lettered legacy version s n m1 st1 st2 -> dead_lettered legacy version s n m2 st2 st3 ->
  dead_lettered legacy version s n (m1 ++ m2) st1 st3.
Proof.
  intros H1 H2. pose proof (dead_lettered_messages _ _ _ _ _ _ _ H1) as Hm.
  assert (Hdis : forall o, o ∈ m2 -> o ∉ m1).
  { intros o Ho Ho1. apply (dl_open _ _ _ _ _ _ _ H2) in Ho as (_ & Hn & _).
    apply Hn, (dl_done _ _ _ _ _ _ _ H1). by right. }
  split.
  - apply H2.
  - etrans; [apply H2|apply H1].
  - etrans; [apply H2|apply H1].
  - etrans; [apply H2|apply H1].
  - etrans; [apply H2|apply H1].
  - intros key Hk. etrans; [by apply H2|by apply H1].
  - apply H2.
  - intros s' Hs. etrans; [by apply H2|by apply H1].
  - eapply streams_extended_trans; [apply H1|apply H2].
  - rewrite (dl_copied _ _ _ _ _ _ _ H2), (dl_copied _ _ _ _ _ _ _ H1), Hm.
    by rewrite omap_app, app_assoc.
  - apply NoDup_app. split_and!; [apply H1| |apply H2]. intros o Ho1 Ho2. by apply (Hdis o).
  - intros o [Ho|Ho]%elem_of_app; [by apply H1|]. pose proof (Hdis o Ho) as Hni.
    destruct (dl_open _ _ _ _ _ _ _ H2 o Ho) as (Hlt & Hnd & Hex). rewrite Hm in Hlt.
    split_and!; [done| |by apply (dead_lettered_exhausted _ _ _ _ _ _ _ o H1)].
    intros Hd. apply Hnd, (dl_done _ _ _ _ _ _ _ H1). by left.
  - intros o. rewrite (dl_done _ _ _ _ _ _ _ H2), (dl_done _ _ _ _ _ _ _ H1), elem_of_app. tauto.
  - etrans; [apply H2|apply H1].
  - etrans; [apply H2|apply H1].
  - intros o [? ?]%not_elem_of_app. etrans; [by apply H2|by apply H1].
  - intros o [? ?]%not_elem_of_app. etrans; [by apply H2|by apply H1].
  - intros o [? ?]%not_elem_of_app. etrans; [by apply H2|by apply H1].
Qed.

Lemma dead_letter_step legacy version st s n c o m :
  snapshot_wf st -> stream_fits st s -> st_group_consumers st !! (s, n) = Some c ->
  vec_get (messages_of st s) o = Some m -> ~ group_done c o -> gc_in_flight c !! o = None ->
  exhausted legacy version c o ->
  dead_lettered legacy version s n [o] st (dead_letter_group_offset st s (s, n) c o m).
Proof.
  intros Hwf Hfit Hc Hm Hnd Hif Hex.
  destruct (sw_group _ Hwf s n c Hc) as [Hs Hw].
  pose proof (vec_get_lt _ _ _ Hm) as Hlt. unfold stream_fits in Hfit.
  pose proof (ack_step_spec _ _ _ Hw Hfit Hnd) as Hack.
  assert (Hcof : consumer_of st (s, n) = c) by (unfold consumer_of; by rewrite Hc).
  unfold dead_letter_group_offset. set (dlq := raft_dead_letter_stream_name s).
  destruct (stream_identity dlq) as [sid gid].
  destruct (messages_of_push st dlq m (stream_active sid gid) eq_refl) as (Hpush & Hother & Hext).
  set (st1 := set_streams st _) in *.
  set (c' := acknowledge_group_offset c o) in *. cbn zeta.
  set (st2 := set_dead_letters _ _).
  assert (Hcof' : consumer_of st2 (s, n) = c') by (unfold consumer_of; cbn; by rewrite lookup_insert_eq).
  assert (Hms : messages_of st1 s = messages_of st s).
  { unfold messages_of. rewrite Hother; [done|]. apply not_eq_sym, dead_letter_name_neq. }
  assert (Hwf2 : snapshot_wf st2).
  { apply (snapshot_wf_frame (put_consumer st1 (s, n) c')); try done.
    apply put_consumer_wf; [by apply (snapshot_wf_extended st)|by apply Hext|].
    rewrite Hms. apply acknowledge_group_wf; try done. by left. }
  split; rewrite ?Hcof, ?Hcof'; try done.
  - intros key Hk. cbn. by rewrite lookup_insert_ne.
  - cbn. rewrite lookup_insert_eq. eauto.
  - cbn [omap list_omap]. rewrite Hm. exact Hpush.
  - apply NoDup_singleton.
  - intros o' ->%list_elem_of_singleton. done.
  - intros o'. rewrite (as_done _ _ _ Hack) by lia. by rewrite list_elem_of_singleton.
  - rewrite (as_in_flight _ _ _ Hack). by rewrite delete_id.
  - apply (as_policy _ _ _ Hack).
  - intros o' Hne%not_elem_of_cons. rewrite (as_attempts _ _ _ Hack).
    rewrite lookup_delete_ne; [done|naive_solver].
  - intros o' Hne%not_elem_of_cons. rewrite (as_policies _ _ _ Hack).
    rewrite lookup_delete_ne; [done|naive_solver].
  - intros o' Hne%not_elem_of_cons. rewrite (as_retries _ _ _ Hack).
    rewrite lookup_delete_ne; [done|naive_solver].
Qed.

(** ** Single poll *)

Lemma record_delivery_spec messages c o key policy member token deadline :
  group_wf messages c ->
  let '(d, c') := record_delivery c o key policy member token deadline in
  delivery_recorded c o d policy c' /\ gd_member d = member /\ gd_key d = key /\
  gd_delivery_token d = token /\ gd_requires_receipt d = false /\ gd_deadline_ms d = deadline /\
  gd_delivery_attempt d = u32_saturating_add (default 0 (gc_delivery_attempts c !! o)) 1.
Proof.
  intros Hwf. unfold record_delivery. split.
  - split; cbn; try done. by rewrite pin_policy.
  - cbn. split_and!; try done. by destruct (gc_delivery_attempts c !! o).
Qed.

(** What a poll delivers: the least deliverable message [m] at [o], recorded as
    the delivery [d]. *)
Record delivers (st : SnapshotState) (request : GroupPollRequest) (log_id : string) (now_ms : N)
  (legacy : ConsumerPolicy) (o : Offset) (m : StoredMessage) (d : GroupDelivery)
  (st' : SnapshotState) : Prop := {
  de_message : vec_get (messages_of st (gp_stream request)) o = Some m;
  de_deliverable :
    deliverable (consumer_of st (gp_stream request, gp_consumer request)) now_ms ∅ ∅ o m;
  de_least : forall o' m', vec_get (messages_of st (gp_stream request)) o' = Some m' ->
    deliverable (consumer_of st (gp_stream request, gp_consumer request)) now_ms ∅ ∅ o' m' ->
    o <= o';
  de_delivery : gd_member d = gp_member request /\ gd_key d = sm_key m /\
    gd_delivery_token d = "raft-" +:+ log_id /\ gd_requires_receipt d = false;
  de_attempt : gd_delivery_attempt d = u32_saturating_add (default 0
    (gc_delivery_attempts (consumer_of st (gp_stream request, gp_consumer request)) !! o)) 1;
  de_recorded : exists policy c' redeliveries,
    delivery_recorded (consumer_of st (gp_stream request, gp_consumer request)) o d policy c' /\
    st' = set_redeliveries (put_consumer st (gp_stream request, gp_consumer request) c')
            redeliveries;
  de_attempts_left : exhausted legacy (gp_policy_version request)
      (consumer_of st (gp_stream request, gp_consumer request)) o ->
    is_dead_letter_stream st (gp_stream request) = true;
}.

Lemma delivers_wf st request log_id now legacy o m d st' :
  snapshot_wf st -> is_Some (st_streams st !! gp_stream request) ->
  delivers st request log_id now legacy o m d st' -> snapshot_wf st'.
Proof.
  intros Hwf Hs [Hm Hd Hmin (_ & Hk & _) Ha (policy & c' & r & Hrec & ->) _].
  pose proof (consumer_of_wf st (gp_stream request) (gp_consumer request) Hwf) as Hc.
  apply (snapshot_wf_frame (put_consumer st (gp_stream request, gp_consumer request) c')); try done.
  apply put_consumer_wf; [done..|].
  eapply (delivery_recorded_wf _ _ _ m d); eauto; [apply Hd| |].
  - rewrite Ha. by destruct (u32_next_attempt _ _ o Hc).
  - eapply candidate_key_behind; eauto. intros ?????. set_solver.
Qed.

(** The answer that hands out the delivery [d] of [m] at [o]. *)
Definition poll_response (stream : string) (o : Offset) (m : StoredMessage) (d : GroupDelivery) :
  CommandResponse :=
  RGroupPoll (PollMessage (delivered_message stream o m (gd_delivery_token d)
                             (gd_delivery_attempt d))).

Lemma group_poll_message_eq stream o messages m d :
  vec_get messages o = Some m -> group_poll_message stream o messages d = poll_response stream o m d.
Proof. intros H. unfold group_poll_message. by rewrite H. Qed.

(** One delivery of the loop. *)
Lemma poll_delivers st request log_id now legacy o m policy c ss :
  snapshot_wf st -> st_group_consumers st !! (gp_stream request, gp_consumer request) = Some c ->
  st_streams st !! gp_stream request = Some ss ->
  vec_get (ss_messages ss) o = Some m -> deliverable c now ∅ ∅ o m ->
  (forall o' m', vec_get (ss_messages ss) o' = Some m' -> deliverable c now ∅ ∅ o' m' -> o <= o') ->
  (exhausted legacy (gp_policy_version request) c o ->
   is_dead_letter_stream st (gp_stream request) = true) ->
  let '(d, c') := record_delivery c o (sm_key m) policy (gp_member request) ("raft-" +:+ log_id)
    (effective_deadline_ms (gp_policy_version request) policy now (gp_lease_deadline_ms request)) in
  let st1 := put_consumer st (gp_stream request, gp_consumer request) c' in
  delivers st request log_id now legacy o m d
    (if 1 <? gd_delivery_attempt d
     then set_redeliveries st1 (u64_saturating_add (st_redeliveries st1) 1) else st1).
Proof.
  intros Hwf Hc Hs Hm Hd Hmin Hleft.
  assert (Hco : consumer_of st (gp_stream request, gp_consumer request) = c)
    by (unfold consumer_of; by rewrite Hc).
  assert (Hms : messages_of st (gp_stream request) = ss_messages ss)
    by (unfold messages_of; by rewrite Hs).
  pose proof (consumer_of_wf st (gp_stream request) (gp_consumer request) Hwf) as Hcw.
  rewrite Hco in Hcw.
  pose proof (record_delivery_spec _ c o (sm_key m) policy (gp_member request)
    ("raft-" +:+ log_id) (effective_deadline_ms (gp_policy_version request) policy now
    (gp_lease_deadline_ms request)) Hcw) as Hr.
  destruct (record_delivery _ _ _ _ _ _ _) as [d c'].
  destruct Hr as (Hrec & H1 & H2 & H3 & H4 & _ & H6). split; rewrite ?Hco, ?Hms; try done.
  exists policy, c'. cbn zeta. case_match.
  - eexists. split; [done|]. reflexivity.
  - exists (st_redeliveries st). split; [done|]. by destruct st.
Qed.

Lemma group_poll_loop_spec fuel st request log_id now legacy :
  snapshot_wf st -> stream_fits st (gp_stream request) ->
  is_Some (st_group_consumers st !! (gp_stream request, gp_consumer request)) ->
  is_Some (st_streams st !! gp_stream request) ->
  (length (open_offsets (messages_of st (gp_stream request)) ∅
     (consumer_of st (gp_stream request, gp_consumer request))) < fuel)%nat ->
  exists moved st1 r st',
    group_poll_loop fuel st request log_id now legacy = Some (r, st') /\
    dead_lettered legacy (gp_policy_version request) (gp_stream request) (gp_consumer request)
      moved st st1 /\
    ((r = RGroupPoll PollEmpty /\ st' = st1 /\
      forall o m, vec_get (messages_of st (gp_stream request)) o = Some m ->
        ~ deliverable (consumer_of st1 (gp_stream request, gp_consumer request)) now ∅ ∅ o m) \/
     (exists o m d, r = poll_response (gp_stream request) o m d /\
        delivers st1 request log_id now legacy o m d st')).
Proof.
  revert st. induction fuel as [|fuel IH]; intros st Hwf Hfit [c Hc] [ss Hs] Hfuel; [lia|].
  cbn [group_poll_loop]. rewrite Hc, Hs. step_bind.
  assert (Hco : consumer_of st (gp_stream request, gp_consumer request) = c)
    by (unfold consumer_of; by rewrite Hc).
  assert (Hms : messages_of st (gp_stream request) = ss_messages ss)
    by (unfold messages_of; by rewrite Hs).
  rewrite Hco, Hms in *. destruct (sw_group _ Hwf _ _ _ Hc) as [_ Hcw]. rewrite Hms in Hcw.
  rewrite (surjective_pairing (retry_filter c now)).
  rewrite (find_ext_in _ (batch_eligible c (retry_filter c now).1 (retry_filter c now).2 ∅ ∅))
    by (intros; apply poll_eligible_batch).
  destruct (List.find _ _) as [[o m]|] eqn:Hf.
  2:{ exists [], st, (RGroupPoll PollEmpty), st. split_and!; [done|by apply dead_lettered_refl|].
      left. split_and!; [done..|]. rewrite Hco. by apply no_candidate_spec. }
  apply candidate_spec in Hf as (Hm & Hd & Hmin).
  destruct (group_policy_total _ c o legacy (gp_policy_version request) Hcw) as [policy Hp].
  rewrite Hp. step_bind.
  destruct (attempts_exhausted policy _ && _) eqn:Hx.
  - apply andb_true_iff in Hx as [Hx _]. rewrite Hm. step_bind.
    assert (Hstep : dead_lettered legacy (gp_policy_version request) (gp_stream request)
      (gp_consumer request) [o] st (dead_letter_group_offset st (gp_stream request)
      (gp_stream request, gp_consumer request) c o m)).
    { apply dead_letter_step; try done; [by rewrite Hms|apply Hd|apply Hd|by exists policy]. }
    pose proof (dead_lettered_messages _ _ _ _ _ _ _ Hstep) as Hm1.
    destruct (IH (dead_letter_group_offset st (gp_stream request)
      (gp_stream request, gp_consumer request) c o m)) as (moved & st1 & r & st' & -> & Hdl & Hr).
    + apply Hstep.
    + unfold stream_fits. by rewrite Hm1.
    + apply Hstep.
    + rewrite (dl_streams _ _ _ _ _ _ _ Hstep); [eauto|]. apply not_eq_sym, dead_letter_name_neq.
    + rewrite Hm1, Hms. eapply Nat.lt_le_trans; [|apply Nat.lt_succ_r, Hfuel].
      unfold consumer_of. unfold dead_letter_group_offset. cbn. rewrite lookup_insert_eq. cbn.
      unfold stream_fits in Hfit. rewrite Hms in Hfit.
      eapply open_offsets_ack; [|by eapply vec_get_lt|done|apply Hd|set_solver].
      eapply ack_step_spec; [exact Hcw|done|apply Hd].
    + exists ([o] ++ moved), st1, r, st'. split_and!; [done|by eapply dead_lettered_trans|].
      rewrite Hm1, Hms in Hr. done.
  - assert (Hleft : exhausted legacy (gp_policy_version request) c o ->
      is_dead_letter_stream st (gp_stream request) = true).
    { intros (policy' & Hp' & Hx'). rewrite Hp in Hp'. injection Hp' as <-.
      rewrite Hx' in Hx. by apply negb_false_iff. }
    pose proof (poll_delivers st request log_id now legacy o m policy c ss Hwf Hc Hs Hm Hd Hmin Hleft) as Hdel.
    destruct (record_delivery _ _ _ _ _ _ _) as [d c'].
    eexists [], st, _, _. split_and!; [reflexivity|by apply dead_lettered_refl|].
    right. exists o, m, d. split; [by apply group_poll_message_eq|]. exact Hdel.
Qed.

Lemma retain_live_wf messages c now : group_wf messages c -> group_wf messages (retain_live c now).
Proof.
  intros Hwf. split; try apply Hwf; cbn.
  - intros o d [Ho _]%map_lookup_filter_Some. by apply (gw_in_flight _ _ Hwf).
  - intros o s Hs. destruct (gw_retry _ _ Hwf o s Hs) as (? & Hn & ?). split_and!; [done| |done].
    apply map_lookup_filter_None. by left.
  - intros o d k o' m [Ho _]%map_lookup_filter_Some. by apply (gw_order _ _ Hwf).
Qed.

(** ** The size check

    The size check looks at the message the poll would hand out: the one the
    member holds, or the first that waits, once the ones whose attempts are used
    up are passed over. It does not look at retry delays. *)
Definition waiting (c : GroupConsumerState) (o : Offset) (m : StoredMessage) : Prop :=
  ~ group_done c o /\ gc_in_flight c !! o = None /\
  (forall k, sm_key m = Some k ->
     forall o' d, gc_in_flight c !! o' = Some d -> gd_key d <> Some k).

Lemma sizing_eligible_spec c o m :
  gc_committed_offset c <= o /\ sizing_eligible c (o, m) = true <-> waiting c o m.
Proof.
  unfold sizing_eligible, waiting, group_done.
  destruct (decide (o ∈ gc_acknowledged_offsets c)) as [Ha|Ha];
    [rewrite bool_decide_eq_true_2 by done; cbn; naive_solver|
     rewrite bool_decide_eq_false_2 by done].
  destruct (gc_in_flight c !! o) as [d|] eqn:Hi;
    [rewrite bool_decide_eq_true_2 by eauto; cbn; naive_solver|
     rewrite bool_decide_eq_false_2 by (by intros [? ?])].
  cbn [orb]. destruct (sm_key m) as [k|] eqn:Em; cbn [is_none_or]; [|naive_solver lia].
  rewrite negb_true_iff, <-not_true_iff_false, key_in_flight_spec. naive_solver lia.
Qed.

(** The first message that waits and does not go to the dead-letter stream. *)
Definition first_waiting (st : SnapshotState) (request : GroupPollRequest) (legacy : ConsumerPolicy)
  (messages : list StoredMessage) (c : GroupConsumerState) (o : Offset) (m : StoredMessage) : Prop :=
  let gives_up o := exhausted legacy (gp_policy_version request) c o /\
                    is_dead_letter_stream st (gp_stream request) = false in
  vec_get messages o = Some m /\ waiting c o m /\ ~ gives_up o /\
  (forall o' m', vec_get messages o' = Some m' -> waiting c o' m' -> ~ gives_up o' -> o <= o').

Definition answer_bound (request : GroupPollRequest) (o : Offset) (m : StoredMessage)
  (token : string) (attempt : N) : N :=
  poll_message_response_upper_bound_parts (gp_stream request) (gp_consumer request)
    (gp_response_member request) o (sm_key m) (vec_len (sm_payload m)) (sm_published_at_ms m)
    (Some token) (Some attempt) (bool_decide (is_Some (gp_response_member request))).

Lemma sizing_candidate_spec c messages :
  match List.find (sizing_eligible c)
          (filter (fun p => gc_committed_offset c <= p.1) (enumerate messages)) with
  | Some (o, m) => vec_get messages o = Some m /\ waiting c o m /\
      (forall o' m', vec_get messages o' = Some m' -> waiting c o' m' -> o <= o')
  | None => forall o m, vec_get messages o = Some m -> ~ waiting c o m
  end.
Proof.
  destruct (List.find _ _) as [[o m]|] eqn:Hf.
  - apply find_sorted_least in Hf; [|eapply StronglySorted_filter, enumerate_from_sorted].
    setoid_rewrite list_elem_of_filter in Hf. setoid_rewrite elem_of_enumerate in Hf.
    cbn [fst] in Hf. setoid_rewrite <-sizing_eligible_spec. naive_solver.
  - rewrite find_None_Forall, Forall_forall in Hf. intros o m Hm [Hle He]%sizing_eligible_spec.
    rewrite (Hf (o, m)) in He; [done|]. apply list_elem_of_filter. split; [done|].
    by apply elem_of_enumerate.
Qed.

(** The delivery a member already holds. *)
Lemma member_delivery_Some messages c member o d :
  group_wf messages c -> member_delivery c member = Some (o, d) ->
  gc_in_flight c !! o = Some d /\ gd_member d = member /\ is_Some (vec_get messages o) /\
  (forall o' d', gc_in_flight c !! o' = Some d' -> gd_member d' = member -> o <= o').
Proof.
  intros Hwf (Hin & Hm & Hmin)%find_sorted_least; [|apply btree_items_sorted].
  apply bool_decide_eq_true_1 in Hm. cbn in Hm. apply elem_of_btree_items in Hin.
  destruct (gw_in_flight _ _ Hwf o d Hin) as (_ & m & ? & _). split_and!; [done..|eauto|].
  intros o' d' Ho'%elem_of_btree_items Hd'. eapply Hmin; [done|by apply bool_decide_eq_true_2].
Qed.

Lemma member_delivery_None c member :
  member_delivery c member = None <-> forall o d, gc_in_flight c !! o = Some d -> gd_member d <> member.
Proof.
  unfold member_delivery. rewrite find_None_Forall, Forall_forall. split.
  - intros H o d Ho%elem_of_btree_items. apply H in Ho. by apply bool_decide_eq_false_1 in Ho.
  - intros H [o d] Ho%elem_of_btree_items. apply bool_decide_eq_false_2. by apply (H o).
Qed.

(** Passing over an offset that is given up leaves the others as they are. *)
Lemma first_waiting_passed st request legacy messages c c' o o' m' :
  ack_step c o c' -> o < u64_max -> gc_in_flight c !! o = None ->
  exhausted legacy (gp_policy_version request) c o ->
  is_dead_letter_stream st (gp_stream request) = false ->
  first_waiting st request legacy messages c' o' m' <-> first_waiting st request legacy messages c o' m'.
Proof.
  intros Ha Hlt Hif Hx Hdl.
  assert (Hw : forall q m, waiting c' q m <-> waiting c q m /\ q <> o).
  { intros q m. unfold waiting. rewrite (as_in_flight _ _ _ Ha), delete_id by done.
    rewrite (as_done _ _ _ Ha) by done. naive_solver. }
  assert (He : forall q, q <> o -> exhausted legacy (gp_policy_version request) c' q <->
    exhausted legacy (gp_policy_version request) c q).
  { intros q Hq. unfold exhausted, group_policy_for_offset.
    rewrite (as_attempts _ _ _ Ha), (as_policies _ _ _ Ha), (as_policy _ _ _ Ha).
    by rewrite !lookup_delete_ne by done. }
  unfold first_waiting. split.
  - intros (Hm & [Hw1 Hne]%Hw & Hg & Hmin). split_and!; [done..| |].
    + by rewrite <-He.
    + intros q mq Hq Hwq Hgq. destruct (decide (q = o)) as [->|]; [naive_solver|].
      eapply Hmin; [done|by apply Hw|by rewrite He].
  - intros (Hm & Hw1 & Hg & Hmin). destruct (decide (o' = o)) as [->|Hne]; [naive_solver|].
    split_and!; [done|by apply Hw|by rewrite He|].
    intros q mq Hq [Hwq Hqo]%Hw Hgq. eapply Hmin; [done|done|by rewrite <-He].
Qed.

(** The bound the size check computes. *)
Lemma sizing_loop_spec fuel st request messages legacy token c :
  group_wf messages c -> vec_len messages <= u64_max ->
  (length (open_offsets messages ∅ c) < fuel)%nat ->
  exists r, sizing_loop fuel st request messages legacy token c = Some r /\
    forall bound, r = Some bound <->
      exists o m, first_waiting st request legacy messages c o m /\
        bound = answer_bound request o m token
          (u32_saturating_add (default 0 (gc_delivery_attempts c !! o)) 1).
Proof.
  revert c. induction fuel as [|fuel IH]; intros c Hwf Hlen Hfuel; [lia|]. cbn [sizing_loop].
  pose proof (sizing_candidate_spec c messages) as Hc.
  destruct (List.find _ _) as [[o m]|]; [|exists None; split; [done|]].
  2:{ intros bound. split; [done|]. intros (o & m & (Hm & Hw & _) & _). by apply Hc in Hw. }
  destruct Hc as (Hm & Hw & Hmin). pose proof (vec_get_lt _ _ _ Hm).
  destruct (group_policy_total _ c o legacy (gp_policy_version request) Hwf) as [policy Hp].
  rewrite Hp. step_bind. destruct (attempts_exhausted policy _ && _) eqn:Hx.
  - apply andb_true_iff in Hx as [Hx Hdl%negb_true_iff].
    pose proof (ack_step_spec _ _ _ Hwf Hlen (proj1 Hw)) as Hack.
    destruct (IH (acknowledge_group_offset c o)) as (r & -> & Hr); [|done| |].
    + apply acknowledge_group_wf; try done; [apply Hw|by left].
    + eapply Nat.lt_le_trans; [|apply Nat.lt_succ_r, Hfuel].
      eapply open_offsets_ack; [exact Hack|lia|done|apply Hw|set_solver].
    + exists r. split; [done|]. intros bound. rewrite Hr.
      assert (Hf : forall o' m', first_waiting st request legacy messages
          (acknowledge_group_offset c o) o' m' <-> first_waiting st request legacy messages c o' m').
      { intros o' m'. eapply first_waiting_passed; [exact Hack|lia|apply Hw|by exists policy|done]. }
      split; intros (o' & m' & Hf' & ->); exists o', m'; (split; [by apply Hf|]);
        rewrite (as_attempts _ _ _ Hack), lookup_delete_ne; try done; intros <-;
        destruct Hf' as (_ & Hw' & Hg & _); [|by apply Hg; split; [exists policy|]].
      apply Hw'. apply (as_done _ _ _ Hack); [lia|by right].
  - eexists. split; [reflexivity|]. intros bound.
    assert (Hf : first_waiting st request legacy messages c o m).
    { split_and!; [done..| |by eauto]. intros [(policy' & Hp' & Hx') Hdl].
      rewrite Hp in Hp'. injection Hp' as <-. by rewrite Hx', Hdl in Hx. }
    split; [intros Heq%(inj Some); exists o, m; by split|]. intros (o' & m' & (Hm' & Hw' & Hg' & Hmin') & ->).
    assert (o' = o) as ->.
    { pose proof (Hmin _ _ Hm' Hw'). destruct Hf as (_ & _ & Hg & _).
      pose proof (Hmin' _ _ Hm Hw Hg). lia. }
    rewrite Hm in Hm'. injection Hm' as <-. unfold answer_bound. reflexivity.
Qed.

(** The bound of the answer the poll would give. *)
Definition sized (st : SnapshotState) (request : GroupPollRequest) (log_id : string) (bound : N) :
  Prop :=
  let now := N.max (st_lease_clock_ms st) (gp_now_ms request) in
  let legacy := policy_legacy (default 0 (gp_legacy_ack_timeout_ms request))
                  (gp_max_delivery_attempts request) in
  let c := retain_live (consumer_of st (gp_stream request, gp_consumer request)) now in
  let messages := messages_of st (gp_stream request) in
  match member_delivery c (gp_member request) with
  | Some (o, d) => exists m, vec_get messages o = Some m /\
      bound = answer_bound request o m (gd_delivery_token d) (gd_delivery_attempt d)
  | None => exists o m, first_waiting st request legacy messages c o m /\
      bound = answer_bound request o m ("raft-" +:+ log_id)
        (u32_saturating_add (default 0 (gc_delivery_attempts c !! o)) 1)
  end.

Lemma upper_bound_spec st request log_id :
  snapshot_wf st -> stream_fits st (gp_stream request) ->
  is_Some (st_streams st !! gp_stream request) ->
  exists r, group_poll_response_upper_bound st request log_id = Some r /\
    forall bound, r = Some bound <-> sized st request log_id bound.
Proof.
  intros Hwf Hfit [ss Hs]. unfold group_poll_response_upper_bound, sized. rewrite Hs.
  assert (Hms : messages_of st (gp_stream request) = ss_messages ss)
    by (unfold messages_of; by rewrite Hs).
  pose proof (retain_live_wf _ _ (N.max (st_lease_clock_ms st) (gp_now_ms request))
    (consumer_of_wf st (gp_stream request) (gp_consumer request) Hwf)) as Hc.
  unfold stream_fits in Hfit. rewrite Hms in *. cbv zeta. unfold consumer_of in *.
  destruct (member_delivery _ _) as [[o d]|] eqn:Hmd.
  - destruct (member_delivery_Some _ _ _ _ _ Hc Hmd) as (_ & _ & [m Hm] & _). rewrite Hm.
    eexists. split; [reflexivity|]. intros bound. split; [intros Heq%(inj Some); by exists m|].
    intros (m' & [= <-] & ->). unfold answer_bound. reflexivity.
  - apply sizing_loop_spec; [done..|]. apply Nat.lt_succ_r, open_offsets_le.
Qed.

(** How [apply_group_poll] answers on an active stream. *)
Inductive poll_outcome (st : SnapshotState) (request : GroupPollRequest) (log_id : string) :
  CommandResponse -> SnapshotState -> Prop :=
| poll_too_large bound :
    sized st request log_id bound -> gp_max_response_bytes request < bound ->
    poll_outcome st request log_id (RGroupPollResponseTooLarge (gp_max_response_bytes request)) st
| poll_resumes st0 o m d :
    (forall bound, sized st request log_id bound -> bound <= gp_max_response_bytes request) ->
    st0 = prepared st (gp_stream request) (gp_consumer request)
            (N.max (st_lease_clock_ms st) (gp_now_ms request)) ->
    gc_in_flight (consumer_of st0 (gp_stream request, gp_consumer request)) !! o = Some d ->
    gd_member d = gp_member request ->
    (forall o' d', gc_in_flight (consumer_of st0 (gp_stream request, gp_consumer request)) !! o' =
       Some d' -> gd_member d' = gp_member request -> o <= o') ->
    vec_get (messages_of st (gp_stream request)) o = Some m ->
    poll_outcome st request log_id (poll_response (gp_stream request) o m d) st0
| poll_empty st0 moved st' :
    (forall bound, sized st request log_id bound -> bound <= gp_max_response_bytes request) ->
    st0 = prepared st (gp_stream request) (gp_consumer request)
            (N.max (st_lease_clock_ms st) (gp_now_ms request)) ->
    (forall o d, gc_in_flight (consumer_of st0 (gp_stream request, gp_consumer request)) !! o =
       Some d -> gd_member d <> gp_member request) ->
    dead_lettered (policy_legacy (default 0 (gp_legacy_ack_timeout_ms request))
      (gp_max_delivery_attempts request)) (gp_policy_version request) (gp_stream request)
      (gp_consumer request) moved st0 st' ->
    (forall o m, vec_get (messages_of st (gp_stream request)) o = Some m ->
       ~ deliverable (consumer_of st' (gp_stream request, gp_consumer request))
           (st_lease_clock_ms st0) ∅ ∅ o m) ->
    poll_outcome st request log_id (RGroupPoll PollEmpty) st'
| poll_new st0 moved st1 o m d st' :
    (forall bound, sized st request log_id bound -> bound <= gp_max_response_bytes request) ->
    st0 = prepared st (gp_stream request) (gp_consumer request)
            (N.max (st_lease_clock_ms st) (gp_now_ms request)) ->
    (forall o d, gc_in_flight (consumer_of st0 (gp_stream request, gp_consumer request)) !! o =
       Some d -> gd_member d <> gp_member request) ->
    dead_lettered (policy_legacy (default 0 (gp_legacy_ack_timeout_ms request))
      (gp_max_delivery_attempts request)) (gp_policy_version request) (gp_stream request)
      (gp_consumer request) moved st0 st1 ->
    delivers st1 request log_id (st_lease_clock_ms st0)
      (policy_legacy (default 0 (gp_legacy_ack_timeout_ms request))
         (gp_max_delivery_attempts request)) o m d st' ->
    poll_outcome st request log_id (poll_response (gp_stream request) o m d) st'.

Lemma apply_group_poll_outcome st request log_id kind :
  snapshot_wf st -> stream_fits st (gp_stream request) -> kind_is_metadata kind = false ->
  stream_is_active st (gp_stream request) = true ->
  exists r st', apply_group_poll st request log_id kind = Some (r, st') /\
    poll_outcome st request log_id r st'.
Proof.
  intros Hwf Hfit Hkind Hact. unfold apply_group_poll. rewrite Hkind, Hact. cbn [negb].
  pose proof (active_stream _ _ Hact) as Hs.
  destruct (upper_bound_spec st request log_id Hwf Hfit Hs) as (bound & -> & Hsized). step_bind.
  destruct (is_some_and _ bound) eqn:Hover.
  { destruct bound as [bound|]; [|done]. apply N.ltb_lt in Hover.
    eexists _, _. split; [done|]. by eapply poll_too_large; [apply Hsized|]. }
  assert (Hfits : forall bound, sized st request log_id bound -> bound <= gp_max_response_bytes request).
  { intros b Hb%Hsized. subst bound. by apply N.ltb_ge in Hover. }
  unfold observe_lease_clock. cbn [st_lease_clock_ms set_lease_clock].
  set (now := N.max (st_lease_clock_ms st) (gp_now_ms request)).
  rewrite observe_prepared by done. step_bind. rewrite prepared_lookup.
  pose proof (prepared_wf st (gp_stream request) (gp_consumer request) now Hwf Hs) as Hwf0.
  remember (prepared st (gp_stream request) (gp_consumer request) now) as st0 eqn:E0.
  assert (Hc0 : consumer_of st0 (gp_stream request, gp_consumer request) =
    expired_consumer (consumer_of st (gp_stream request, gp_consumer request)) now)
    by (subst st0; apply prepared_consumer).
  assert (Hm0 : messages_of st0 (gp_stream request) = messages_of st (gp_stream request)) by by subst st0.
  assert (Hs0 : is_Some (st_streams st0 !! gp_stream request)) by by subst st0.
  pose proof (consumer_of_wf st0 (gp_stream request) (gp_consumer request) Hwf0) as Hw0.
  step_bind. destruct Hs0 as [ss Hss]. rewrite Hss. step_bind.
  assert (Hms : messages_of st0 (gp_stream request) = ss_messages ss)
    by (unfold messages_of; by rewrite Hss).
  rewrite <-Hc0. destruct (member_delivery _ _) as [[o d]|] eqn:Hmd.
  - destruct (member_delivery_Some _ _ _ _ _ Hw0 Hmd) as (Hif & Hmem & [m Hm] & Hmin).
    eexists _, _. split; [reflexivity|]. rewrite (group_poll_message_eq _ _ _ m) by congruence.
    econstructor; [done|exact E0|done|done|done|]. congruence.
  - destruct (group_poll_loop_spec (S (length (ss_messages ss))) st0 request log_id now
      (policy_legacy (default 0 (gp_legacy_ack_timeout_ms request))
         (gp_max_delivery_attempts request)))
      as (moved & st1 & r & st' & -> & Hdl & Hr); try done.
    + unfold stream_fits. by rewrite Hm0.
    + subst st0. rewrite prepared_lookup. eauto.
    + rewrite Hms. apply Nat.lt_succ_r, open_offsets_le.
    + exists r, st'. split; [done|]. rewrite Hm0 in Hr.
      assert (Hclock : now = st_lease_clock_ms st0) by by subst st0. rewrite Hclock in Hr.
      destruct Hr as [(-> & -> & Hn)|(o & m & d & -> & Hdel)].
      * apply (poll_empty _ _ _ st0 moved); try done. by apply member_delivery_None.
      * apply (poll_new _ _ _ st0 moved st1); try done. by apply member_delivery_None.
Qed.
