(* ===== verification/RaftBatch.v ===== *)
(** Batch polls of delivery.rs: what the loop of [apply_group_batch_poll]
    collects, and that recording the collected deliveries keeps the invariant. *)

From S2P Require Import Prelude Engine RecordFormat Names RaftState RaftDelivery RaftInvariant RaftHandlers.

Local Open Scope N_scope.

(** ** Pending deliveries *)

(** A pending entry of the batch: the message of an open offset that is not in
    flight, with everything earlier of its key finished, and its delivery. *)
Record pending_ok (request : GroupBatchPollRequest) (messages : list StoredMessage)
  (c : GroupConsumerState) (message : Message) (d : GroupDelivery) (m : StoredMessage) : Prop := {
  po_stored : vec_get messages (msg_offset message) = Some m;
  po_message : message = delivered_message (gb_stream request) (msg_offset message) m
    (gd_delivery_token d) (gd_delivery_attempt d);
  po_token : gd_delivery_token d = batch_token (gb_token_seed request) (msg_offset message);
  po_delivery : gd_member d = gb_member request /\ gd_key d = sm_key m /\
    gd_requires_receipt d = true;
  po_open : ~ group_done c (msg_offset message);
  po_idle : gc_in_flight c !! msg_offset message = None;
  po_attempt : gd_delivery_attempt d =
    u32_saturating_add (default 0 (gc_delivery_attempts c !! msg_offset message)) 1;
  po_behind : key_behind messages c (msg_offset message) m;
}.

Definition pending_offsets (pending : list (Message * GroupDelivery * ConsumerPolicy)) :
  list Offset := (fun p => msg_offset p.1.1) <$> pending.

(** The locals of the loop agree with the pending entries. *)
Record batch_ok (request : GroupBatchPollRequest) (messages : list StoredMessage)
  (c : GroupConsumerState) (l : BatchLocals) : Prop := {
  bo_pending : forall message d policy, (message, d, policy) ∈ bl_pending l ->
    exists m, pending_ok request messages c message d m;
  bo_offsets : forall o, o ∈ bl_selected_offsets l <-> o ∈ pending_offsets (bl_pending l);
  bo_nodup : NoDup (pending_offsets (bl_pending l));
  bo_keys : keys_selected messages (bl_selected_offsets l) (bl_selected_keys l);
  bo_records : vec_len (bl_pending l) <= gb_max_records request;
  bo_bytes : bl_pending l <> [] -> encoded_len (bl_sizer l) <= gb_max_bytes request;
  bo_sizer : bl_sizer l = foldl sizer_push (sizer_new (gb_stream request) (gb_consumer request)
    (gb_response_member request)) ((fun p => p.1.1) <$> bl_pending l);
}.

Lemma batch_ok_new request messages c : batch_ok request messages c (batch_locals_new request).
Proof.
  split; cbn; try done; try set_solver.
  - constructor.
  - unfold vec_len. cbn. lia.
Qed.

(** A dead-letter step at an unselected offset leaves the pending entries valid. *)
Lemma batch_ok_dead_letter request messages legacy version s n st st' o l :
  dead_lettered legacy version s n [o] st st' -> o ∉ bl_selected_offsets l ->
  batch_ok request messages (consumer_of st (s, n)) l ->
  batch_ok request messages (consumer_of st' (s, n)) (count_transition l).
Proof.
  intros Hdl Ho [H1 H2 H3 H4 H5 H6 H7]. split; try done. cbn. intros message d policy Hin.
  destruct (H1 message d policy Hin) as [m [P1 P2 P3 P4 P5 P6 P7 P8]]. exists m.
  assert (Hne : msg_offset message ∉ [o]).
  { intros Heq%list_elem_of_singleton. subst o. apply Ho, H2.
    by apply (list_elem_of_fmap_2 (fun p => msg_offset p.1.1)) in Hin. }
  split; try done.
  - rewrite (dl_done _ _ _ _ _ _ _ Hdl). naive_solver.
  - by rewrite (dl_in_flight _ _ _ _ _ _ _ Hdl).
  - by rewrite (dl_attempts _ _ _ _ _ _ _ Hdl).
  - intros k o' m' Hk Hlt Hm' Hk'. apply (dl_done _ _ _ _ _ _ _ Hdl). left. by apply (P8 k o' m').
Qed.

Lemma pending_offsets_snoc l message d policy :
  pending_offsets (l ++ [(message, d, policy)]) = pending_offsets l ++ [msg_offset message].
Proof. unfold pending_offsets. by rewrite fmap_app. Qed.

Lemma batch_ok_select request messages c l message d m policy :
  batch_ok request messages c l -> pending_ok request messages c message d m ->
  msg_offset message ∉ bl_selected_offsets l ->
  vec_len (bl_pending l) < gb_max_records request ->
  projected_len (bl_sizer l) message <= gb_max_bytes request ->
  batch_ok request messages c (select l message d policy).
Proof.
  intros [H1 H2 H3 H4 H5 H6 H7] Hp Hni Hrec Hproj. split; cbn.
  - intros message' d' policy' [Hin|[= -> -> ->]%list_elem_of_singleton]%elem_of_app; eauto.
  - intros o. rewrite elem_of_union, elem_of_singleton, H2, pending_offsets_snoc, elem_of_app,
      list_elem_of_singleton. tauto.
  - rewrite pending_offsets_snoc. apply NoDup_app. split_and!; [done| |apply NoDup_singleton].
    intros o Ho ->%list_elem_of_singleton. by apply Hni, H2.
  - destruct (po_delivery _ _ _ _ _ _ Hp) as (_ & Hk & _).
    intros o m' k [->%elem_of_singleton|Ho]%elem_of_union Hm' Hk'.
    + rewrite (po_stored _ _ _ _ _ _ Hp) in Hm'. injection Hm' as <-. rewrite Hk, Hk'. set_solver.
    + specialize (H4 o m' k Ho Hm' Hk'). case_match; set_solver.
  - rewrite vec_len_app. unfold vec_len at 2. cbn. lia.
  - intros _. exact Hproj.
  - by rewrite fmap_app, foldl_app, H7.
Qed.

(** ** The loop *)

Lemma batch_ok_stop request messages c l :
  batch_ok request messages c l -> batch_ok request messages c (stop_at_byte_limit l).
Proof. by intros []. Qed.

(** A candidate of the loop makes a valid pending entry. *)
Lemma candidate_pending_ok request messages c now l o m deadline :
  group_wf messages c -> batch_ok request messages c l ->
  vec_get messages o = Some m ->
  deliverable c now (bl_selected_offsets l) (bl_selected_keys l) o m ->
  (forall o' m', vec_get messages o' = Some m' ->
     deliverable c now (bl_selected_offsets l) (bl_selected_keys l) o' m' -> o <= o') ->
  let attempt := u32_saturating_add (default 0 (gc_delivery_attempts c !! o)) 1 in
  let token := batch_token (gb_token_seed request) o in
  pending_ok request messages c (delivered_message (gb_stream request) o m token attempt)
    {| gd_member := gb_member request; gd_key := sm_key m; gd_delivery_attempt := attempt;
       gd_delivery_token := token; gd_requires_receipt := true; gd_deadline_ms := deadline |} m.
Proof.
  intros Hwf Hok Hm Hd Hmin. split; cbn; try done.
  - apply Hd.
  - apply Hd.
  - eapply candidate_key_behind; eauto. apply Hok.
Qed.

(** Why the loop stopped collecting. *)
Definition batch_stopped (request : GroupBatchPollRequest) (messages : list StoredMessage)
  (now_ms : N) (c : GroupConsumerState) (l : BatchLocals) : Prop :=
  vec_len (bl_pending l) = gb_max_records request \/
  gb_max_bytes request <= encoded_len (bl_sizer l) \/
  bl_stopped_at_byte_limit l = true \/ gb_transition_only request = true \/
  (forall o m, vec_get messages o = Some m ->
     ~ deliverable c now_ms (bl_selected_offsets l) (bl_selected_keys l) o m).

(** The result of the loop from [st]: offsets moved to the dead-letter stream,
    and valid locals unless a first record is over the byte limit. *)
Definition batch_loop_result (request : GroupBatchPollRequest) (now_ms : N)
  (legacy : ConsumerPolicy) (st : SnapshotState) (r : option (BatchExit * SnapshotState)) : Prop :=
  exists moved exit st1, r = Some (exit, st1) /\
    dead_lettered legacy (gb_policy_version request) (gb_stream request) (gb_consumer request)
      moved st st1 /\
    match exit with
    | BatchRecordTooLarge => True
    | BatchCollected l =>
      batch_ok request (messages_of st (gb_stream request))
        (consumer_of st1 (gb_stream request, gb_consumer request)) l /\
      batch_stopped request (messages_of st (gb_stream request)) now_ms
        (consumer_of st1 (gb_stream request, gb_consumer request)) l
    end.

Lemma batch_loop_stops request now legacy st l :
  snapshot_wf st -> is_Some (st_group_consumers st !! (gb_stream request, gb_consumer request)) ->
  batch_ok request (messages_of st (gb_stream request))
    (consumer_of st (gb_stream request, gb_consumer request)) l ->
  batch_stopped request (messages_of st (gb_stream request)) now
    (consumer_of st (gb_stream request, gb_consumer request)) l ->
  batch_loop_result request now legacy st (Some (BatchCollected l, st)).
Proof.
  intros Hwf Hc Hok Hs. exists [], (BatchCollected l), st. split; [done|].
  split; [by apply dead_lettered_refl|done].
Qed.

Lemma batch_loop_moved request now legacy st st2 o r :
  dead_lettered legacy (gb_policy_version request) (gb_stream request) (gb_consumer request)
    [o] st st2 ->
  batch_loop_result request now legacy st2 r -> batch_loop_result request now legacy st r.
Proof.
  intros Hstep (moved & exit & st1 & -> & Hdl & Hr). exists ([o] ++ moved), exit, st1.
  split_and!; [done|by eapply dead_lettered_trans|].
  by rewrite (dead_lettered_messages _ _ _ _ _ _ _ Hstep) in Hr.
Qed.

Lemma group_batch_loop_spec fuel st request now legacy l :
  snapshot_wf st -> stream_fits st (gb_stream request) ->
  is_Some (st_group_consumers st !! (gb_stream request, gb_consumer request)) ->
  is_Some (st_streams st !! gb_stream request) ->
  batch_ok request (messages_of st (gb_stream request))
    (consumer_of st (gb_stream request, gb_consumer request)) l ->
  (length (open_offsets (messages_of st (gb_stream request)) (bl_selected_offsets l)
     (consumer_of st (gb_stream request, gb_consumer request))) < fuel)%nat ->
  batch_loop_result request now legacy st (group_batch_loop fuel st request now legacy l).
Proof.
  revert st l. induction fuel as [|fuel IH]; intros st l Hwf Hfit Hgc [ss Hs] Hok Hfuel; [lia|].
  pose proof (fun l' => batch_loop_stops request now legacy st l' Hwf Hgc) as Hstop.
  destruct Hgc as [c Hc]. cbn [group_batch_loop]. rewrite Hc, Hs. step_bind.
  assert (Hco : consumer_of st (gb_stream request, gb_consumer request) = c)
    by (unfold consumer_of; by rewrite Hc).
  assert (Hms : messages_of st (gb_stream request) = ss_messages ss)
    by (unfold messages_of; by rewrite Hs).
  rewrite Hco, Hms in *. destruct (sw_group _ Hwf _ _ _ Hc) as [_ Hcw]. rewrite Hms in Hcw.
  destruct (_ && _) eqn:Hcond; cbn [negb].
  2:{ apply Hstop; [done|]. pose proof (bo_records _ _ _ _ Hok).
      apply andb_false_iff in Hcond as [?%N.ltb_ge|?%N.ltb_ge]; [left; lia|by right; left]. }
  apply andb_true_iff in Hcond as [Hrec%N.ltb_lt _].
  rewrite (surjective_pairing (retry_filter c now)).
  destruct (List.find _ _) as [[o m]|] eqn:Hf.
  2:{ apply Hstop; [done|]. do 4 right. by apply no_candidate_spec. }
  apply candidate_spec in Hf as (Hm & Hd & Hmin). pose proof (vec_get_lt _ _ _ Hm) as Hlt.
  assert (Hopen : o ∈ open_offsets (ss_messages ss) (bl_selected_offsets l) c).
  { apply elem_of_open_offsets. split_and!; [done|apply Hd..]. }
  destruct (group_policy_total _ c o legacy (gb_policy_version request) Hcw) as [policy Hp].
  rewrite Hp. step_bind. rewrite Hm. step_bind.
  destruct (attempts_exhausted policy _ && _) eqn:Hx.
  - apply andb_true_iff in Hx as [Hx _].
    assert (Hstep : dead_lettered legacy (gb_policy_version request) (gb_stream request)
      (gb_consumer request) [o] st (dead_letter_group_offset st (gb_stream request)
      (gb_stream request, gb_consumer request) c o m)).
    { apply dead_letter_step; try done; [by rewrite Hms|apply Hd|apply Hd|by exists policy]. }
    pose proof (dead_lettered_messages _ _ _ _ _ _ _ Hstep) as Hm1. rewrite Hms in Hm1.
    eapply batch_loop_moved; [exact Hstep|]. apply IH; try apply Hstep.
    + unfold stream_fits. rewrite Hm1. by rewrite <-Hms.
    + rewrite Hs. eauto.
    + rewrite Hm1. eapply batch_ok_dead_letter; [exact Hstep|apply Hd|by rewrite Hco].
    + rewrite Hm1. eapply Nat.lt_le_trans; [|apply Nat.lt_succ_r, Hfuel].
      apply (open_offsets_shrink _ _ _ _ _ o); [done|].
      intros x. rewrite (dl_done _ _ _ _ _ _ _ Hstep), Hco, list_elem_of_singleton. naive_solver.
  - destruct (gb_transition_only request) eqn:Ht; [apply Hstop; [done|]; do 3 right; by left|].
    case_match eqn:Hproj.
    + case_decide; [|apply Hstop; [by apply batch_ok_stop|]; do 2 right; by left].
      exists [], BatchRecordTooLarge, st. split_and!; [done|by apply dead_lettered_refl|done].
    + apply N.ltb_ge in Hproj. apply IH; try done; rewrite ?Hc, ?Hs, ?Hco, ?Hms; [eauto..| |].
      * eapply batch_ok_select; [done| |apply Hd|done|exact Hproj].
        by apply (candidate_pending_ok request _ c now l o m).
      * eapply Nat.lt_le_trans; [|apply Nat.lt_succ_r, Hfuel].
        apply (open_offsets_shrink _ _ _ _ _ o); [done|].
        intros x. cbn. rewrite elem_of_union, elem_of_singleton. naive_solver.
Qed.

(** ** Recording the batch *)

Lemma commit_pending_recorded request messages c r message d policy m :
  group_wf messages c -> pending_ok request messages c message d m ->
  delivery_recorded c (msg_offset message) d policy (commit_pending (c, r) (message, d, policy)).1.
Proof.
  intros Hwf Hp. split; cbn; try done; [|by rewrite pin_policy].
  f_equal. destruct (u32_next_attempt _ _ (msg_offset message) Hwf) as [_ Hle].
  rewrite <-(po_attempt _ _ _ _ _ _ Hp) in Hle.
  destruct (gc_delivery_attempts c !! msg_offset message) as [a|]; [|done].
  specialize (Hle a eq_refl). lia.
Qed.

Lemma pending_ok_wf request messages c message d m policy c' :
  group_wf messages c -> pending_ok request messages c message d m ->
  delivery_recorded c (msg_offset message) d policy c' -> group_wf messages c'.
Proof.
  intros Hwf Hp Hr. destruct (po_delivery _ _ _ _ _ _ Hp) as (_ & Hk & _).
  eapply (delivery_recorded_wf _ _ _ m d); eauto; try apply Hp.
  rewrite (po_attempt _ _ _ _ _ _ Hp). by destruct (u32_next_attempt _ _ (msg_offset message) Hwf).
Qed.

Lemma pending_ok_other request messages c message d m o d' policy c' :
  pending_ok request messages c message d m -> delivery_recorded c o d' policy c' ->
  msg_offset message <> o -> pending_ok request messages c' message d m.
Proof.
  intros [P1 P2 P3 P4 P5 P6 P7 P8] Hr Hne. split; try done.
  - by rewrite (delivery_recorded_done _ _ _ _ _ _ Hr).
  - by rewrite (dr_in_flight _ _ _ _ _ Hr), lookup_insert_ne.
  - by rewrite (dr_attempts _ _ _ _ _ Hr), lookup_insert_ne.
  - intros k o' m' Hk Hlt Hm' Hk'. rewrite (delivery_recorded_done _ _ _ _ _ _ Hr). eauto.
Qed.

(** Recording the pending entries puts exactly them in flight. *)
Lemma commit_all_spec request messages pending c r :
  group_wf messages c -> NoDup (pending_offsets pending) ->
  (forall message d policy, (message, d, policy) ∈ pending ->
     exists m, pending_ok request messages c message d m) ->
  let c' := (foldl commit_pending (c, r) pending).1 in
  group_wf messages c' /\ (forall o, group_done c' o <-> group_done c o) /\
  (forall message d policy, (message, d, policy) ∈ pending ->
     gc_in_flight c' !! msg_offset message = Some d) /\
  (forall o, o ∉ pending_offsets pending -> gc_in_flight c' !! o = gc_in_flight c !! o).
Proof.
  revert c r. induction pending as [|[[message d] policy] pending IH];
    intros c r Hwf Hnd Hok; cbn [foldl].
  - cbn. split_and!; try done. by intros ??? ?%not_elem_of_nil.
  - destruct (Hok message d policy) as [m Hp]; [by left|].
    cbn in Hnd. apply NoDup_cons in Hnd as [Hni Hnd].
    pose proof (commit_pending_recorded request messages c r message d policy m Hwf Hp) as Hr.
    destruct (commit_pending (c, r) (message, d, policy)) as [c1 r1]. cbn [fst] in Hr.
    destruct (IH c1 r1) as (H1 & H2 & H3 & H4); [by eapply pending_ok_wf|done| |].
    { intros message' d' policy' Hin. destruct (Hok message' d' policy') as [m' Hp']; [by right|].
      exists m'. eapply pending_ok_other; [done|exact Hr|]. intros Heq. apply Hni. rewrite <-Heq.
      by apply (list_elem_of_fmap_2 (fun p => msg_offset p.1.1)) in Hin. }
    split_and!; [done| | |].
    + intros o. by rewrite H2, (delivery_recorded_done _ _ _ _ _ _ Hr).
    + intros message' d' policy' [[= -> -> ->]|Hin]%elem_of_cons; [|eauto].
      rewrite H4 by done. rewrite (dr_in_flight _ _ _ _ _ Hr). by rewrite lookup_insert_eq.
    + cbn. intros o [Hne Ho]%not_elem_of_cons. rewrite H4 by done.
      rewrite (dr_in_flight _ _ _ _ _ Hr). by rewrite lookup_insert_ne.
Qed.

(** ** The whole handler *)

(** The messages of pending entries. *)
Definition pending_messages (l : BatchLocals) : list Message := (fun p => p.1.1) <$> bl_pending l.

(** How [apply_group_batch_poll] answers on an active stream with positive
    limits. *)
Inductive batch_outcome (st : SnapshotState) (request : GroupBatchPollRequest) :
  CommandResponse -> SnapshotState -> Prop :=
| batch_resumes st0 existing ss :
    st0 = prepared st (gb_stream request) (gb_consumer request)
            (N.max (st_lease_clock_ms st) (gb_now_ms request)) ->
    st_streams st !! gb_stream request = Some ss ->
    existing = filter (fun p => gd_member p.2 = gb_member request)
      (btree_items (gc_in_flight (consumer_of st0 (gb_stream request, gb_consumer request)))) ->
    existing <> [] ->
    batch_outcome st request (existing_response request (ss_messages ss) existing) st0
| batch_too_large st0 moved st' :
    st0 = prepared st (gb_stream request) (gb_consumer request)
            (N.max (st_lease_clock_ms st) (gb_now_ms request)) ->
    dead_lettered (policy_legacy (default 0 (gb_legacy_ack_timeout_ms request))
      (gb_max_delivery_attempts request)) (gb_policy_version request) (gb_stream request)
      (gb_consumer request) moved st0 st' ->
    batch_outcome st request (RGroupBatchPollRecordTooLarge (gb_max_bytes request)) st'
| batch_collected st0 moved st1 l complete c' redeliveries :
    st0 = prepared st (gb_stream request) (gb_consumer request)
            (N.max (st_lease_clock_ms st) (gb_now_ms request)) ->
    dead_lettered (policy_legacy (default 0 (gb_legacy_ack_timeout_ms request))
      (gb_max_delivery_attempts request)) (gb_policy_version request) (gb_stream request)
      (gb_consumer request) moved st0 st1 ->
    batch_ok request (messages_of st (gb_stream request))
      (consumer_of st1 (gb_stream request, gb_consumer request)) l ->
    batch_stopped request (messages_of st (gb_stream request)) (st_lease_clock_ms st0)
      (consumer_of st1 (gb_stream request, gb_consumer request)) l ->
    foldl commit_pending (consumer_of st1 (gb_stream request, gb_consumer request),
      st_redeliveries st1) (bl_pending l) = (c', redeliveries) ->
    batch_outcome st request (RGroupBatchPoll (pending_messages l) complete
      (bl_terminal_transitions l))
      (set_redeliveries (put_consumer st1 (gb_stream request, gb_consumer request) c') redeliveries).

Lemma put_same_consumer st key c r :
  st_group_consumers st !! key = Some c -> st_redeliveries st = r ->
  set_redeliveries (put_consumer st key c) r = st.
Proof.
  intros H <-. unfold put_consumer, set_group_consumers, set_redeliveries. cbn.
  rewrite insert_id by done. by destruct st.
Qed.

Lemma finish_batch_spec request l st :
  is_Some (st_group_consumers st !! (gb_stream request, gb_consumer request)) ->
  exists complete c' redeliveries,
    foldl commit_pending (consumer_of st (gb_stream request, gb_consumer request),
      st_redeliveries st) (bl_pending l) = (c', redeliveries) /\
    finish_batch request l st = Some (RGroupBatchPoll (pending_messages l) complete
      (bl_terminal_transitions l), set_redeliveries (put_consumer st (gb_stream request,
      gb_consumer request) c') redeliveries).
Proof.
  intros [c Hc]. unfold finish_batch, consumer_of, pending_messages. rewrite Hc.
  cbn [mbind option_bind default from_option id]. case_decide as Hp.
  - rewrite Hp. cbn. eexists _, _, _. split; [done|].
    by rewrite (put_same_consumer st _ c (st_redeliveries st)).
  - destruct (foldl commit_pending _ _) as [c' r]. eexists _, _, _. split; done.
Qed.

Lemma apply_group_batch_poll_outcome st request kind :
  snapshot_wf st -> stream_fits st (gb_stream request) -> kind_is_metadata kind = false ->
  stream_is_active st (gb_stream request) = true ->
  0 < gb_max_records request -> 0 < gb_max_bytes request ->
  exists r st', apply_group_batch_poll st request kind = Some (r, st') /\
    batch_outcome st request r st'.
Proof.
  intros Hwf Hfit Hkind Hact Hrec Hbytes. unfold apply_group_batch_poll. rewrite Hkind, Hact.
  rewrite !(proj2 (N.eqb_neq _ 0)) by lia. cbn [negb orb].
  pose proof (active_stream _ _ Hact) as Hs.
  unfold observe_lease_clock. cbn [st_lease_clock_ms set_lease_clock].
  rewrite observe_prepared by done. step_bind. rewrite prepared_lookup.
  pose proof (prepared_wf st (gb_stream request) (gb_consumer request)
    (N.max (st_lease_clock_ms st) (gb_now_ms request)) Hwf Hs) as Hwf0.
  rewrite <-prepared_consumer. remember (prepared st _ _ _) as st0 eqn:E0.
  assert (Hss0 : st_streams st0 = st_streams st) by by subst st0.
  assert (Hclock : st_lease_clock_ms st0 = N.max (st_lease_clock_ms st) (gb_now_ms request))
    by by subst st0.
  assert (Hg0 : is_Some (st_group_consumers st0 !! (gb_stream request, gb_consumer request))).
  { subst st0. rewrite prepared_lookup. eauto. }
  destruct Hs as [ss Hss]. step_bind. rewrite Hss0, Hss. step_bind.
  assert (Hms : messages_of st0 (gb_stream request) = ss_messages ss)
    by (unfold messages_of; by rewrite Hss0, Hss).
  assert (Hm0 : messages_of st (gb_stream request) = ss_messages ss)
    by (unfold messages_of; by rewrite Hss).
  case_bool_decide as He; cbn [negb].
  2:{ eexists _, _. split; [done|]. by econstructor. }
  destruct (group_batch_loop_spec (S (length (ss_messages ss))) st0 request
    (N.max (st_lease_clock_ms st) (gb_now_ms request))
    (policy_legacy (default 0 (gb_legacy_ack_timeout_ms request)) (gb_max_delivery_attempts request))
    (batch_locals_new request)) as (moved & exit & st1 & -> & Hdl & Hr); try done.
  - unfold stream_fits in *. by rewrite Hms, <-Hm0.
  - rewrite Hss0, Hss. eauto.
  - apply batch_ok_new.
  - rewrite Hms. apply Nat.lt_succ_r, open_offsets_le.
  - step_bind. destruct exit as [|l].
    + eexists _, _. split; [done|]. by econstructor.
    + destruct Hr as [Hok Hstop]. rewrite Hms, <-Hm0 in *. rewrite <-Hclock in Hstop.
      destruct (finish_batch_spec request l st1) as (complete & c' & r & Hf & ->); [apply Hdl|].
      eexists _, _. split; [done|]. by eapply batch_collected.
Qed.

(** ** Acknowledging several offsets *)

Lemma acknowledge_all_spec messages c offsets :
  group_wf messages c -> vec_len messages <= u64_max -> NoDup offsets ->
  (forall o, o ∈ offsets -> is_Some (gc_in_flight c !! o)) ->
  let c' := foldl acknowledge_group_offset c offsets in
  group_wf messages c' /\ (forall o, group_done c' o <-> group_done c o \/ o ∈ offsets) /\
  (forall o, gc_in_flight c' !! o = (if decide (o ∈ offsets) then None else gc_in_flight c !! o)).
Proof.
  intros Hwf Hlen. revert c Hwf. induction offsets as [|o offsets IH]; intros c Hwf Hnd Hin;
    cbn [foldl].
  - cbn. split_and!; [done| |].
    + intros o. rewrite elem_of_nil. naive_solver.
    + intros o. by rewrite decide_False by apply not_elem_of_nil.
  - apply NoDup_cons in Hnd as [Hni Hnd]. destruct (Hin o) as [d Hd]; [by left|].
    destruct (gw_in_flight _ _ Hwf o d Hd) as (Ha & m & Hm & _).
    destruct (gw_attempted _ _ Hwf o ltac:(eauto)) as [Hlt Hno].
    pose proof (ack_step_spec _ _ _ Hwf Hlen Hno) as Hack.
    destruct (IH (acknowledge_group_offset c o)) as (H1 & H2 & H3).
    + apply acknowledge_group_wf; try done. by left.
    + done.
    + intros o' Ho'. rewrite (as_in_flight _ _ _ Hack), lookup_delete_ne by congruence.
      apply Hin. by right.
    + split_and!; [done| |].
      * intros o'. rewrite H2, (as_done _ _ _ Hack), elem_of_cons by lia. tauto.
      * intros o'. rewrite H3, (as_in_flight _ _ _ Hack).
        destruct (decide (o' = o)) as [->|Hne].
        -- rewrite lookup_delete_eq, (decide_True (P := o ∈ o :: offsets)) by by left.
           by case_decide.
        -- rewrite lookup_delete_ne by done. repeat case_decide; set_solver.
Qed.

Lemma receipt_confirmed_in_flight c member receipt :
  receipt_outcome c member receipt = Confirmed <->
  ~ group_done c (dr_offset receipt) /\ dr_delivery_token receipt <> "" /\
  exists d, gc_in_flight c !! dr_offset receipt = Some d /\ gd_member d = member /\
    gd_delivery_token d = dr_delivery_token receipt.
Proof.
  unfold receipt_outcome, group_done.
  destruct (N.ltb_spec (dr_offset receipt) (gc_committed_offset c));
    [cbn; split; [done|naive_solver lia]|].
  case_bool_decide; [cbn; split; [done|naive_solver]|]. cbn [orb].
  case_bool_decide; [split; [done|naive_solver]|].
  destruct (gc_in_flight c !! dr_offset receipt) as [d|].
  - repeat case_bool_decide; cbn; split; try done; try naive_solver lia.
  - case_bool_decide; split; naive_solver.
Qed.
