(* ===== verification/RaftStateMachine.v ===== *)
(** The replicated state machine of crates/runnel-raft/src/state_machine.rs:
    [apply_command] on every command, the invariant over all runs, and the
    guarantees that follow from it. *)

From S2P Require Import Prelude Engine RecordFormat Names RaftState RaftDelivery RaftInvariant RaftHandlers RaftBatch.

Local Open Scope N_scope.

Definition default_poll_response_limit : N := MAX_CONSUME_BATCH_RESPONSE_BYTES.

Definition apply_replay (st : SnapshotState) (stream : string) (offset : Offset)
  (kind : GroupKind) : CommandResponse :=
  if kind_is_metadata kind then RStreamNotFound
  else
  match st_streams st !! stream with
  | None => RStreamNotFound
  | Some stream_state =>
    if negb (is_active stream_state) then RStreamNotFound
    else
      let next_offset := vec_len (ss_messages stream_state) in
      match vec_get (ss_messages stream_state) offset with
      | None => RHistoryUnavailable offset 0 next_offset
      | Some message =>
        RReplay {| rm_stream := stream; rm_offset := offset; rm_key := sm_key message;
                   rm_payload := sm_payload message;
                   rm_published_at_ms := sm_published_at_ms message |}
      end
  end.

Definition apply_create_stream (st : SnapshotState) (stream : string)
  (stream_id group_id : option string) (kind : GroupKind) : CommandResponse * SnapshotState :=
  if kind_is_data kind then (RNoop, st)
  else
    let '(derived_stream_id, derived_group_id) := stream_identity stream in
    let lifecycle := if kind_is_metadata kind then Creating else Active in
    match st_streams st !! stream with
    | None =>
      let entry := {| ss_stream_id := default derived_stream_id stream_id;
                      ss_group_id := default derived_group_id group_id;
                      ss_lifecycle := lifecycle; ss_messages := [] |} in
      (RStreamCreated true, set_streams st (<[stream := entry]> (st_streams st)))
    | Some _ => (RStreamCreated false, st)
    end.

Definition apply_initialize_data_stream (st : SnapshotState) (stream stream_id group_id : string)
  (kind : GroupKind) : CommandResponse * SnapshotState :=
  match kind with
  | Data expected_stream expected_stream_id expected_group_id =>
    if negb (bool_decide (stream = expected_stream))
       || negb (bool_decide (stream_id = expected_stream_id))
       || negb (bool_decide (group_id = expected_group_id))
    then (RNoop, st)
    else
      match st_streams st !! stream with
      | None =>
        (RDataStreamInitialized true,
         set_streams st (<[stream := stream_active stream_id group_id]> (st_streams st)))
      | Some _ => (RDataStreamInitialized false, st)
      end
  | _ => (RNoop, st)
  end.

Definition activate (s : StreamState) : StreamState :=
  {| ss_stream_id := ss_stream_id s; ss_group_id := ss_group_id s; ss_lifecycle := Active;
     ss_messages := ss_messages s |}.

Definition apply_activate_stream (st : SnapshotState) (stream : string) (kind : GroupKind) :
  CommandResponse * SnapshotState :=
  if kind_is_data kind then (RNoop, st)
  else
  match st_streams st !! stream with
  | None => (RStreamActivated false, st)
  | Some stream_state =>
    let activated := negb (bool_decide (ss_lifecycle stream_state = Active)) in
    (RStreamActivated activated,
     set_streams st (<[stream := activate stream_state]> (st_streams st)))
  end.

(** [key.as_deref().unwrap_or_default().as_bytes()] *)
Definition key_bytes (key : option string) : list byte := as_bytes (default "" key).

(** The deduplication lookup of [Publish]. *)
Definition dedup_offset (st : SnapshotState) (stream : string) (request_id : option string) :
  option Offset :=
  request_id ← request_id;
  requests ← st_dedup st !! stream;
  requests !! request_id.

Definition apply_publish (st : SnapshotState) (stream : string) (key : option string)
  (payload : list byte) (published_at_ms : N) (request_id : option string) (kind : GroupKind) :
  CommandResponse * SnapshotState :=
  if kind_is_metadata kind then (RStreamNotFound, st)
  else
  match dedup_offset st stream request_id with
  | Some offset =>
    match (stream_state ← st_streams st !! stream; vec_get (ss_messages stream_state) offset) with
    | None => (RNoop, st)
    | Some existing =>
      if negb (bool_decide (key_bytes (sm_key existing) = key_bytes key))
         || negb (bool_decide (sm_payload existing = payload))
      then (RRequestIdContentConflict, st)
      else (RPublished offset, st)
    end
  | None =>
    let '(stream_id, group_id) := stream_identity stream in
    let stream_state := default (stream_active stream_id group_id) (st_streams st !! stream) in
    let st := set_streams st (<[stream := stream_state]> (st_streams st)) in
    if negb (is_active stream_state) then (RStreamNotFound, st)
    else
      let offset := vec_len (ss_messages stream_state) in
      let message := {| sm_key := key; sm_payload := payload;
                        sm_published_at_ms := published_at_ms |} in
      let st := set_streams st
                  (<[stream := push_message stream_state message]> (st_streams st)) in
      let st :=
        match request_id with
        | Some request_id =>
          let requests := default ∅ (st_dedup st !! stream) in
          set_dedup st (<[stream := <[request_id := offset]> requests]> (st_dedup st))
        | None => st
        end in
      (RPublished offset, st)
  end.

(** [offset + 1] wraps around in a release build. *)
Definition apply_ack (st : SnapshotState) (stream consumer : string) (offset : Offset)
  (kind : GroupKind) : CommandResponse * SnapshotState :=
  if kind_is_metadata kind then (RStreamNotFound, st)
  else
  match st_streams st !! stream with
  | None => (RStreamNotFound, st)
  | Some stream_state =>
    if negb (is_active stream_state) then (RStreamNotFound, st)
    else
      let key := (stream, consumer) in
      let expected := default 0 (st_consumers st !! key) in
      if offset <? expected then (RAlreadyAcknowledged, st)
      else if expected <? offset then (ROutOfOrderAck expected offset, st)
      else (RAcknowledged,
            set_consumers st (<[key := u64_wrapping_add offset 1]> (st_consumers st)))
  end.

Definition set_policy (c : GroupConsumerState) (policy : ConsumerPolicy) : GroupConsumerState :=
  {| gc_committed_offset := gc_committed_offset c;
     gc_acknowledged_offsets := gc_acknowledged_offsets c;
     gc_delivery_attempts := gc_delivery_attempts c; gc_policy := Some policy;
     gc_delivery_policies := gc_delivery_policies c; gc_in_flight := gc_in_flight c;
     gc_retry_not_before := gc_retry_not_before c |}.

Definition same_settings (current : ConsumerPolicy) (timeout : N) (attempts : option N)
  (delay : N) : bool :=
  (ack_timeout_ms current =? timeout) && bool_decide (max_delivery_attempts current = attempts)
  && (retry_delay_ms current =? delay).

Definition apply_configure_consumer (st : SnapshotState) (stream consumer : string) (timeout : N)
  (attempts : option N) (delay : N) (kind : GroupKind) : CommandResponse * SnapshotState :=
  if kind_is_metadata kind || negb (stream_is_active st stream) then (RStreamNotFound, st)
  else if negb (is_ok (validate_consumer_policy timeout attempts delay)) then (RNoop, st)
  else
    let key := (stream, consumer) in
    let entry := default group_consumer_default (st_group_consumers st !! key) in
    let st := put_consumer st key entry in
    let configure :=
      let version :=
        match gc_policy entry with
        | Some policy => u64_saturating_add (policy_version policy) 1
        | None => 1
        end in
      if version =? 0 then (RNoop, st)
      else
        let policy := policy_configured version timeout attempts delay in
        (RConsumerPolicy policy, put_consumer st key (set_policy entry policy)) in
    match gc_policy entry with
    | Some current =>
      if same_settings current timeout attempts delay then (RConsumerPolicy current, st)
      else configure
    | None => configure
    end.

Definition apply_command (st : SnapshotState) (command : Command) (kind : GroupKind)
  (log_id : string) : option (CommandResponse * SnapshotState) :=
  match command with
  | CreateStream stream stream_id group_id =>
    Some (apply_create_stream st stream stream_id group_id kind)
  | InitializeDataStream stream stream_id group_id =>
    Some (apply_initialize_data_stream st stream stream_id group_id kind)
  | ActivateStream stream => Some (apply_activate_stream st stream kind)
  | Publish stream key payload published_at_ms request_id =>
    Some (apply_publish st stream key payload published_at_ms request_id kind)
  | Ack stream consumer offset => Some (apply_ack st stream consumer offset kind)
  | ConfigureConsumer stream consumer timeout attempts delay =>
    Some (apply_configure_consumer st stream consumer timeout attempts delay kind)
  | Replay stream _ offset => Some (apply_replay st stream offset kind, st)
  | PollGroup stream consumer member response_member max_response_bytes now_ms lease_deadline_ms
      attempts legacy_timeout version =>
    apply_group_poll st
      {| gp_stream := stream; gp_consumer := consumer; gp_member := member;
         gp_response_member := response_member; gp_max_response_bytes := max_response_bytes;
         gp_now_ms := now_ms; gp_lease_deadline_ms := lease_deadline_ms;
         gp_max_delivery_attempts := attempts; gp_legacy_ack_timeout_ms := legacy_timeout;
         gp_policy_version := version |} log_id kind
  | PollGroupBatch stream consumer member response_member max_records max_bytes token_seed now_ms
      lease_deadline_ms attempts legacy_timeout version transition_only =>
    apply_group_batch_poll st
      {| gb_stream := stream; gb_consumer := consumer; gb_member := member;
         gb_response_member := response_member; gb_max_records := max_records;
         gb_max_bytes := max_bytes; gb_token_seed := token_seed; gb_now_ms := now_ms;
         gb_lease_deadline_ms := lease_deadline_ms; gb_max_delivery_attempts := attempts;
         gb_legacy_ack_timeout_ms := legacy_timeout; gb_policy_version := version;
         gb_transition_only := transition_only |} kind
  | AckGroup stream consumer member offset delivery_token now_ms =>
    apply_group_ack st
      {| ga_stream := stream; ga_consumer := consumer; ga_member := member; ga_offset := offset;
         ga_delivery_token := delivery_token; ga_now_ms := now_ms |} kind
  | AckGroupBatch stream consumer member receipts now_ms =>
    apply_group_batch_ack st
      {| gba_stream := stream; gba_consumer := consumer; gba_member := member;
         gba_receipts := receipts; gba_now_ms := now_ms |} kind
  end.

(** ** Acknowledgements *)

(** When a single acknowledgement is accepted: the member holds the delivery and
    its receipt, where one is required or given, matches; or nothing of the
    offset is in flight, it is the next one, and the request names the consumer
    itself without a receipt. *)
Definition ack_accepted (c : GroupConsumerState) (request : GroupAckRequest) : Prop :=
  ~ group_done c (ga_offset request) /\
  match gc_in_flight c !! ga_offset request with
  | Some d =>
    gd_member d = ga_member request /\
    (gd_requires_receipt d = true \/ ga_delivery_token request <> "" ->
     gd_delivery_token d = ga_delivery_token request)
  | None =>
    ga_delivery_token request = "" /\ ga_member request = ga_consumer request /\
    ga_offset request = gc_committed_offset c
  end.

Inductive ack_outcome (st0 : SnapshotState) (request : GroupAckRequest) :
  CommandResponse -> SnapshotState -> Prop :=
| ack_refused r :
    let c := consumer_of st0 (ga_stream request, ga_consumer request) in
    ~ ack_accepted c request ->
    r = (if decide (group_done c (ga_offset request)) then RGroupAlreadyAcknowledged
         else if decide (is_Some (gc_delivery_attempts c !! ga_offset request))
         then RGroupStaleDelivery (ga_consumer request) (ga_offset request)
         else RGroupAckNotInFlight (ga_consumer request) (ga_offset request)) ->
    ack_outcome st0 request r st0
| ack_done :
    let c := consumer_of st0 (ga_stream request, ga_consumer request) in
    ack_accepted c request ->
    ack_outcome st0 request RGroupAcknowledged
      (put_consumer st0 (ga_stream request, ga_consumer request)
         (acknowledge_group_offset c (ga_offset request))).

Lemma put_same st key c : st_group_consumers st !! key = Some c -> put_consumer st key c = st.
Proof.
  intros H. unfold put_consumer, set_group_consumers. rewrite insert_id by done. by destruct st.
Qed.

Lemma apply_group_ack_outcome st request kind :
  snapshot_wf st -> kind_is_metadata kind = false ->
  stream_is_active st (ga_stream request) = true ->
  exists r st', apply_group_ack st request kind = Some (r, st') /\
    ack_outcome (prepared st (ga_stream request) (ga_consumer request)
      (N.max (st_lease_clock_ms st) (ga_now_ms request))) request r st'.
Proof.
  intros Hwf Hkind Hact. unfold apply_group_ack. rewrite Hkind.
  pose proof (active_stream _ _ Hact) as Hs. unfold stream_is_active in Hact.
  destruct (st_streams st !! ga_stream request) as [ss|] eqn:Ess; [|done].
  cbn [is_some_and] in Hact. rewrite Hact. cbn [negb].
  unfold observe_lease_clock. cbn [st_lease_clock_ms set_lease_clock].
  rewrite observe_prepared by done. step_bind. rewrite prepared_lookup.
  cbn [default from_option id]. rewrite put_same by apply prepared_lookup.
  pose proof (prepared_wf st (ga_stream request) (ga_consumer request)
    (N.max (st_lease_clock_ms st) (ga_now_ms request)) Hwf ltac:(by rewrite Ess)) as Hwf0.
  rewrite <-prepared_consumer. remember (prepared st _ _ _) as st0 eqn:E0. clear E0.
  pose proof (consumer_of_wf st0 (ga_stream request) (ga_consumer request) Hwf0) as Hc.
  set (c := consumer_of st0 _) in *.
  rewrite group_done_test. case_bool_decide as Hd.
  - eexists _, _. split; [done|]. apply ack_refused; [unfold ack_accepted; tauto|].
    by rewrite decide_True.
  - destruct (gc_in_flight c !! ga_offset request) as [d|] eqn:Hif.
    + assert (Ha : is_Some (gc_delivery_attempts c !! ga_offset request)).
      { apply (gw_in_flight _ _ Hc) in Hif as [-> _]. eauto. }
      case_match eqn:E; eexists _, _; (split; [done|]).
      * apply ack_refused; [|by rewrite decide_False, decide_True].
        unfold ack_accepted. fold c. rewrite Hif. destruct (gd_requires_receipt d);
          repeat case_bool_decide; cbn in E; naive_solver.
      * apply ack_done. unfold ack_accepted. fold c. rewrite Hif. split; [done|].
        destruct (gd_requires_receipt d); repeat case_bool_decide; cbn in E; naive_solver.
    + case_match eqn:E; [|case_match eqn:E2]; eexists _, _; (split; [done|]).
      * apply ack_done. unfold ack_accepted. fold c. rewrite Hif. split; [done|].
        rewrite !andb_true_iff, !bool_decide_eq_true, N.eqb_eq in E. tauto.
      * apply bool_decide_eq_true_1 in E2.
        apply ack_refused; [|by rewrite decide_False, decide_True].
        unfold ack_accepted. fold c. rewrite Hif. intros (_ & H1 & H2 & H3).
        apply not_true_iff_false in E. apply E.
        by rewrite !andb_true_iff, !bool_decide_eq_true, N.eqb_eq.
      * apply bool_decide_eq_false_1 in E2.
        apply ack_refused; [|by rewrite !decide_False].
        unfold ack_accepted. fold c. rewrite Hif. intros (_ & H1 & H2 & H3).
        apply not_true_iff_false in E. apply E.
        by rewrite !andb_true_iff, !bool_decide_eq_true, N.eqb_eq.
Qed.

Lemma ack_outcome_wf st0 request r st' :
  snapshot_wf st0 -> stream_fits st0 (ga_stream request) ->
  is_Some (st_streams st0 !! ga_stream request) -> ack_outcome st0 request r st' ->
  snapshot_wf st'.
Proof.
  intros Hwf Hfit Hs [r' c _ _|c [Hnd Hacc]]; [done|]. apply put_consumer_wf; [done..|].
  pose proof (consumer_of_wf st0 (ga_stream request) (ga_consumer request) Hwf) as Hc. fold c in Hc.
  apply acknowledge_group_wf; try done.
  destruct (gc_in_flight c !! ga_offset request) as [d|] eqn:Hif.
  - left. destruct (gw_in_flight _ _ Hc _ _ Hif) as (_ & m & Hm & _). by apply vec_get_lt in Hm.
  - right. apply Hacc.
Qed.

Lemma apply_group_batch_ack_outcome st request kind :
  snapshot_wf st -> stream_fits st (gba_stream request) -> kind_is_metadata kind = false ->
  stream_is_active st (gba_stream request) = true ->
  NoDup (dr_offset <$> gba_receipts request) ->
  let st0 := prepared st (gba_stream request) (gba_consumer request)
               (N.max (st_lease_clock_ms st) (gba_now_ms request)) in
  let c := consumer_of st0 (gba_stream request, gba_consumer request) in
  exists c', apply_group_batch_ack st request kind =
    Some (RGroupBatchAcknowledged ((fun receipt =>
            {| abi_offset := dr_offset receipt;
               abi_outcome := receipt_outcome c (gba_member request) receipt |}) <$>
            gba_receipts request),
          put_consumer st0 (gba_stream request, gba_consumer request) c') /\
    group_wf (messages_of st (gba_stream request)) c' /\
    (forall o, group_done c' o <-> group_done c o \/
       exists receipt, receipt ∈ gba_receipts request /\ dr_offset receipt = o /\
         receipt_outcome c (gba_member request) receipt = Confirmed) /\
    (forall o d, gc_in_flight c' !! o = Some d -> gc_in_flight c !! o = Some d).
Proof.
  intros Hwf Hfit Hkind Hact Hnd st0 c. unfold apply_group_batch_ack. rewrite Hkind, Hact. cbn [negb].
  pose proof (active_stream _ _ Hact) as Hs.
  unfold observe_lease_clock. cbn [st_lease_clock_ms set_lease_clock].
  rewrite observe_prepared by done. step_bind. rewrite prepared_lookup.
  step_bind. rewrite <-prepared_consumer. fold st0. fold c.
  pose proof (consumer_of_wf st0 (gba_stream request) (gba_consumer request)
    (prepared_wf _ _ _ _ Hwf Hs)) as Hc. fold c in Hc.
  change (messages_of st0 (gba_stream request)) with (messages_of st (gba_stream request)) in Hc.
  set (confirmed := filter _ (gba_receipts request)).
  assert (Hin : forall receipt, receipt ∈ confirmed <-> receipt ∈ gba_receipts request /\
    receipt_outcome c (gba_member request) receipt = Confirmed).
  { intros receipt. unfold confirmed. rewrite list_elem_of_filter. tauto. }
  destruct (acknowledge_all_spec (messages_of st (gba_stream request)) c (dr_offset <$> confirmed))
    as (H1 & H2 & H3); [done|done| | |].
  - eapply sublist_NoDup; [exact Hnd|]. apply fmap_sublist, sublist_filter.
  - intros o (receipt & -> & [_ Hr]%Hin)%list_elem_of_fmap.
    apply receipt_confirmed_in_flight in Hr as (_ & _ & d & Hd & _). eauto.
  - eexists. split; [reflexivity|]. split_and!; [done| |].
    + intros o. rewrite H2, list_elem_of_fmap. setoid_rewrite Hin. naive_solver.
    + intros o d. rewrite H3. by case_decide.
Qed.

(** ** Progress *)

(** Every stored consumer stays stored, what it finished stays finished, and
    [P] holds of what it finishes newly. *)
Definition progress (P : string -> string -> Offset -> Prop) (st st' : SnapshotState) : Prop :=
  forall s n c, st_group_consumers st !! (s, n) = Some c ->
    exists c', st_group_consumers st' !! (s, n) = Some c' /\
      (forall o, group_done c o -> group_done c' o) /\
      (forall o, group_done c' o -> group_done c o \/ P s n o).

Lemma progress_same P st st' :
  st_group_consumers st' = st_group_consumers st -> progress P st st'.
Proof. intros H s n c Hc. exists c. rewrite H. split_and!; [done|done|]. by left. Qed.

Lemma progress_trans P st1 st2 st3 : progress P st1 st2 -> progress P st2 st3 -> progress P st1 st3.
Proof.
  intros H1 H2 s n c Hc. destruct (H1 s n c Hc) as (c2 & Hc2 & A1 & A2).
  destruct (H2 s n c2 Hc2) as (c3 & Hc3 & B1 & B2). exists c3. split_and!; [done|auto|].
  intros o [?|?]%B2; [|by right]. auto.
Qed.

Lemma progress_put P st s n c' :
  (forall c, st_group_consumers st !! (s, n) = Some c ->
     (forall o, group_done c o -> group_done c' o) /\
     (forall o, group_done c' o -> group_done c o \/ P s n o)) ->
  progress P st (put_consumer st (s, n) c').
Proof.
  intros H s' n' c Hc. cbn. destruct (decide ((s', n') = (s, n))) as [[= -> ->]|Hne].
  - exists c'. rewrite lookup_insert_eq. split; [done|]. by apply H.
  - exists c. rewrite lookup_insert_ne by done. split_and!; [done|done|]. by left.
Qed.

Lemma progress_prepared P st s n now : progress P st (prepared st s n now).
Proof.
  eapply progress_trans; [by apply (progress_same _ st (set_lease_clock st now))|].
  apply progress_put. intros c Hc. cbn in Hc. unfold consumer_of. rewrite Hc. cbn.
  split; [done|]. by left.
Qed.

Lemma progress_dead_lettered P legacy version s n moved st st' :
  dead_lettered legacy version s n moved st st' -> (forall o, o ∈ moved -> P s n o) ->
  progress P st st'.
Proof.
  intros Hdl HP s' n' c Hc. destruct (decide ((s', n') = (s, n))) as [[= -> ->]|Hne].
  - destruct (dl_present _ _ _ _ _ _ _ Hdl) as [c' Hc']. exists c'. split; [done|].
    pose proof (dl_done _ _ _ _ _ _ _ Hdl) as Hd. unfold consumer_of in Hd. rewrite Hc, Hc' in Hd.
    cbn in Hd. split; intros o; rewrite Hd; naive_solver.
  - exists c. rewrite (dl_groups _ _ _ _ _ _ _ Hdl) by done. split_and!; [done|done|]. by left.
Qed.

(** ** One command *)

(** The command is a poll of the consumer [n] on the stream [s]. *)
Definition polls (command : Command) (s n : string) : Prop :=
  match command with
  | PollGroup s' n' _ _ _ _ _ _ _ _ => s' = s /\ n' = n
  | PollGroupBatch s' n' _ _ _ _ _ _ _ _ _ _ _ => s' = s /\ n' = n
  | _ => False
  end.

(** Why an offset counts as finished: an accepted acknowledgement of it, a
    confirmed receipt for it, or a poll that copied it to the dead-letter stream. *)
Inductive finishes (st : SnapshotState) (command : Command) (r : CommandResponse)
  (st' : SnapshotState) (s n : string) (o : Offset) : Prop :=
| finished_by_ack member token now_ms :
    command = AckGroup s n member o token now_ms -> r = RGroupAcknowledged ->
    finishes st command r st' s n o
| finished_by_batch_ack member receipts now_ms outcomes :
    command = AckGroupBatch s n member receipts now_ms ->
    r = RGroupBatchAcknowledged outcomes ->
    {| abi_offset := o; abi_outcome := Confirmed |} ∈ outcomes ->
    finishes st command r st' s n o
| finished_by_dead_letter m more :
    polls command s n -> vec_get (messages_of st s) o = Some m ->
    messages_of st' (raft_dead_letter_stream_name s) =
      messages_of st (raft_dead_letter_stream_name s) ++ more ->
    m ∈ more -> finishes st command r st' s n o.

(** Known request ids keep their offsets. *)
Definition dedup_kept (st st' : SnapshotState) : Prop :=
  forall s id o, dedup_offset st s (Some id) = Some o -> dedup_offset st' s (Some id) = Some o.

Lemma dedup_kept_same st st' : st_dedup st' = st_dedup st -> dedup_kept st st'.
Proof. intros H s id o. unfold dedup_offset. by rewrite H. Qed.

Record command_step (st : SnapshotState) (command : Command) (r : CommandResponse)
  (st' : SnapshotState) : Prop := {
  cst_wf : snapshot_wf st';
  cst_clock : st_lease_clock_ms st <= st_lease_clock_ms st';
  cst_streams : streams_extended st st';
  cst_progress : progress (finishes st command r st') st st';
  cst_dedup : dedup_kept st st';
}.

#[export] Hint Resolve streams_extended_eq progress_same progress_prepared dedup_kept_same
  active_stream : runnel.

Lemma command_step_same st command r : snapshot_wf st -> command_step st command r st.
Proof.
  intros Hwf. split; auto with runnel; done.
Qed.

#[export] Hint Resolve command_step_same : runnel.

Lemma dead_lettered_finishes legacy version s n moved st0 st1 st command r st' :
  dead_lettered legacy version s n moved st0 st1 -> polls command s n ->
  (forall s, messages_of st0 s = messages_of st s) ->
  (forall s, messages_of st' s = messages_of st1 s) ->
  forall o, o ∈ moved -> finishes st command r st' s n o.
Proof.
  intros Hdl Hp H0 H' o Ho. destruct (dl_open _ _ _ _ _ _ _ Hdl o Ho) as (Hlt & _ & _).
  apply vec_get_is_Some in Hlt as [m Hm].
  rewrite H0 in Hm.
  apply (finished_by_dead_letter _ _ _ _ _ _ _ m (omap (vec_get (messages_of st s)) moved));
    [done|done| |].
  - by rewrite H', (dl_copied _ _ _ _ _ _ _ Hdl), !H0.
  - apply list_elem_of_omap. eauto.
Qed.

Lemma dead_lettered_step legacy version s n now moved st st1 command r :
  st_lease_clock_ms st <= now -> polls command s n ->
  dead_lettered legacy version s n moved (prepared st s n now) st1 -> command_step st command r st1.
Proof.
  intros Hnow Hp Hdl. split.
  - apply Hdl.
  - by rewrite (dl_clock _ _ _ _ _ _ _ Hdl).
  - eapply streams_extended_trans; [|apply Hdl]. by apply streams_extended_eq.
  - eapply progress_trans; [apply progress_prepared|].
    by eapply progress_dead_lettered, dead_lettered_finishes.
  - apply dedup_kept_same. by rewrite (dl_dedup _ _ _ _ _ _ _ Hdl).
Qed.

(** A poll that ends by recording deliveries in the consumer [c']. *)
Lemma recorded_step legacy version s n now moved st st1 command r c' rd :
  st_lease_clock_ms st <= now -> polls command s n -> is_Some (st_streams st !! s) ->
  dead_lettered legacy version s n moved (prepared st s n now) st1 ->
  group_wf (messages_of st1 s) c' ->
  (forall o, group_done c' o <-> group_done (consumer_of st1 (s, n)) o) ->
  command_step st command r (set_redeliveries (put_consumer st1 (s, n) c') rd).
Proof.
  intros Hnow Hp Hs Hdl Hc Hdone. split.
  - apply (snapshot_wf_frame (put_consumer st1 (s, n) c')); try done.
    apply put_consumer_wf; [apply Hdl|by apply Hdl|done].
  - cbn. by rewrite (dl_clock _ _ _ _ _ _ _ Hdl).
  - eapply (streams_extended_trans _ st1); [|by apply streams_extended_eq].
    eapply streams_extended_trans; [|apply Hdl]. by apply streams_extended_eq.
  - eapply progress_trans; [apply progress_prepared|]. eapply progress_trans.
    + by eapply progress_dead_lettered, dead_lettered_finishes.
    + eapply progress_trans; [|by apply progress_same]. apply (progress_put _ st1 s n c').
      intros c1 Hc1. unfold consumer_of in Hdone. rewrite Hc1 in Hdone. cbn in Hdone.
      split; intros o; rewrite Hdone; auto.
  - apply dedup_kept_same. cbn. by rewrite (dl_dedup _ _ _ _ _ _ _ Hdl).
Qed.

Lemma poll_outcome_step st request log_id r st' command :
  snapshot_wf st -> is_Some (st_streams st !! gp_stream request) ->
  polls command (gp_stream request) (gp_consumer request) ->
  poll_outcome st request log_id r st' -> command_step st command r st'.
Proof.
  intros Hwf Hs Hp Hout. pose proof (prepared_wf st (gp_stream request) (gp_consumer request)
    (N.max (st_lease_clock_ms st) (gp_now_ms request)) Hwf Hs) as Hwf0.
  destruct Hout as [|st0 o m d _ -> _ _ _ _|st0 moved st1 _ -> _ Hdl _|
    st0 moved st1 o m d st2 _ -> _ Hdl Hdel].
  - auto with runnel.
  - split; auto with runnel. cbn. lia.
  - eapply dead_lettered_step; [|exact Hp|exact Hdl]. lia.
  - assert (Hs1 : is_Some (st_streams st1 !! gp_stream request)) by by apply Hdl.
    pose proof (delivers_wf _ _ _ _ _ _ _ _ _ (dl_wf _ _ _ _ _ _ _ Hdl) Hs1 Hdel) as Hwf2.
    destruct Hdel as [_ _ _ _ _ (policy & c' & rd & Hrec & ->) _].
    eapply recorded_step; [|exact Hp|done|exact Hdl| |].
    + lia.
    + by destruct (sw_group _ Hwf2 (gp_stream request) (gp_consumer request) c'
        ltac:(cbn; by rewrite lookup_insert_eq)).
    + intros o'. by apply (delivery_recorded_done _ _ _ _ _ _ Hrec).
Qed.

Lemma batch_outcome_step st request r st' command :
  snapshot_wf st -> is_Some (st_streams st !! gb_stream request) ->
  polls command (gb_stream request) (gb_consumer request) ->
  batch_outcome st request r st' -> command_step st command r st'.
Proof.
  intros Hwf Hs Hp Hout. pose proof (prepared_wf st (gb_stream request) (gb_consumer request)
    (N.max (st_lease_clock_ms st) (gb_now_ms request)) Hwf Hs) as Hwf0.
  destruct Hout as [st0 existing ss -> _ _ _|st0 moved st1 -> Hdl|
    st0 moved st1 l complete c' rd -> Hdl Hok _ Hfold].
  - split; auto with runnel. cbn. lia.
  - eapply dead_lettered_step; [|exact Hp|exact Hdl]. lia.
  - pose proof (dead_lettered_messages _ _ _ _ _ _ _ Hdl) as Hm.
    change (messages_of (prepared st _ _ _) (gb_stream request))
      with (messages_of st (gb_stream request)) in Hm. rewrite <-Hm in Hok.
    destruct (commit_all_spec request (messages_of st1 (gb_stream request)) (bl_pending l)
      (consumer_of st1 (gb_stream request, gb_consumer request)) (st_redeliveries st1))
      as (H1 & H2 & _); [apply consumer_of_wf, Hdl|apply Hok|apply Hok|].
    rewrite Hfold in H1, H2. cbn in H1, H2.
    eapply recorded_step; [|exact Hp|done|exact Hdl|done|done]. lia.
Qed.

Lemma ack_outcome_step st s n member o token now r st' :
  snapshot_wf st -> stream_fits st s -> is_Some (st_streams st !! s) ->
  ack_outcome (prepared st s n (N.max (st_lease_clock_ms st) now))
    {| ga_stream := s; ga_consumer := n; ga_member := member; ga_offset := o;
       ga_delivery_token := token; ga_now_ms := now |} r st' ->
  command_step st (AckGroup s n member o token now) r st'.
Proof.
  intros Hwf Hfit Hs Hout.
  pose proof (prepared_wf st s n (N.max (st_lease_clock_ms st) now) Hwf Hs) as Hwf0.
  assert (Hwf' : snapshot_wf st') by (by eapply ack_outcome_wf in Hout).
  destruct Hout as [r' c _ _|c [Hnd _]]; (split; [done|cbn; lia|by apply streams_extended_eq| |by apply dedup_kept_same]).
  - apply progress_prepared.
  - eapply progress_trans; [apply progress_prepared|]. apply progress_put. cbn [ga_stream ga_consumer].
    intros c0 Hc0. assert (c = c0) as -> by (unfold c, consumer_of; cbn [ga_stream ga_consumer]; by rewrite Hc0).
    destruct (sw_group _ Hwf0 s n c0 Hc0) as [_ Hc].
    pose proof (ack_step_spec _ _ _ Hc Hfit Hnd) as Hack. cbn [ga_offset] in *.
    split; [apply (as_keeps _ _ _ Hack)|]. intros o' [?| ->]%(as_only _ _ _ Hack); [by left|right].
    by eapply finished_by_ack.
Qed.

Lemma batch_ack_step st s n member receipts now kind :
  snapshot_wf st -> stream_fits st s -> kind_is_metadata kind = false ->
  stream_is_active st s = true -> NoDup (dr_offset <$> receipts) ->
  exists r st', apply_group_batch_ack st {| gba_stream := s; gba_consumer := n;
      gba_member := member; gba_receipts := receipts; gba_now_ms := now |} kind = Some (r, st') /\
    command_step st (AckGroupBatch s n member receipts now) r st'.
Proof.
  intros Hwf Hfit Hk Hact Hnd. pose proof (active_stream _ _ Hact) as Hs.
  pose proof (prepared_wf st s n (N.max (st_lease_clock_ms st) now) Hwf Hs) as Hwf0.
  destruct (apply_group_batch_ack_outcome st {| gba_stream := s; gba_consumer := n;
    gba_member := member; gba_receipts := receipts; gba_now_ms := now |} kind)
    as (c' & -> & Hc' & Hdone & _); [done..|].
  cbn [gba_stream gba_consumer gba_member gba_receipts gba_now_ms] in *.
  eexists _, _. split; [done|]. split.
  - by apply put_consumer_wf.
  - cbn. lia.
  - by apply streams_extended_eq.
  - eapply progress_trans; [apply progress_prepared|]. apply progress_put. intros c0 Hc0.
    unfold consumer_of in Hdone. rewrite Hc0 in Hdone. cbn [default from_option id] in Hdone.
    split; intros o; rewrite Hdone; [by left|].
    intros [?|(receipt & Hin & <- & Hr)]; [by left|right].
    eapply finished_by_batch_ack; [done|done|]. apply list_elem_of_fmap. exists receipt.
    split; [|done]. unfold consumer_of. rewrite Hc0. cbn. by rewrite Hr.
  - by apply dedup_kept_same.
Qed.

Lemma set_streams_step st command r streams :
  snapshot_wf st -> streams_extended st (set_streams st streams) ->
  command_step st command r (set_streams st streams).
Proof.
  intros Hwf Hex. split; [by apply (snapshot_wf_extended st)|done|done|by apply progress_same|].
  by apply dedup_kept_same.
Qed.

Lemma streams_extended_insert st s ss :
  (forall ss0, st_streams st !! s = Some ss0 ->
     exists more, ss_messages ss = ss_messages ss0 ++ more) ->
  streams_extended st (set_streams st (<[s := ss]> (st_streams st))).
Proof.
  intros H s' [ss' Hs']. unfold messages_of. cbn. destruct (decide (s' = s)) as [->|Hne].
  - rewrite lookup_insert_eq, Hs'. cbn. split; [eauto|]. by apply H.
  - rewrite lookup_insert_ne, Hs' by done. cbn. split; [eauto|]. exists []. by rewrite app_nil_r.
Qed.

Lemma create_stream_step st stream stream_id group_id kind :
  snapshot_wf st ->
  let '(r, st') := apply_create_stream st stream stream_id group_id kind in
  command_step st (CreateStream stream stream_id group_id) r st'.
Proof.
  intros Hwf. unfold apply_create_stream. destruct (kind_is_data kind); [auto with runnel|].
  destruct (stream_identity stream). destruct (st_streams st !! stream) eqn:E.
  - auto with runnel.
  - apply set_streams_step; [done|]. apply streams_extended_insert. congruence.
Qed.

Lemma initialize_data_stream_step st stream stream_id group_id kind :
  snapshot_wf st ->
  let '(r, st') := apply_initialize_data_stream st stream stream_id group_id kind in
  command_step st (InitializeDataStream stream stream_id group_id) r st'.
Proof.
  intros Hwf. unfold apply_initialize_data_stream. destruct kind; try auto with runnel.
  destruct (_ || _); [auto with runnel|]. destruct (st_streams st !! stream) eqn:E.
  - auto with runnel.
  - apply set_streams_step; [done|]. apply streams_extended_insert. congruence.
Qed.

Lemma activate_stream_step st stream kind :
  snapshot_wf st ->
  let '(r, st') := apply_activate_stream st stream kind in
  command_step st (ActivateStream stream) r st'.
Proof.
  intros Hwf. unfold apply_activate_stream. destruct (kind_is_data kind); [auto with runnel|].
  destruct (st_streams st !! stream) as [ss|] eqn:E; [|auto with runnel].
  apply set_streams_step; [done|]. apply streams_extended_insert. intros ss0 Hss.
  assert (ss0 = ss) as -> by congruence. exists []. cbn. by rewrite app_nil_r.
Qed.

Lemma publish_step st stream key payload published_at_ms request_id kind :
  snapshot_wf st ->
  let '(r, st') := apply_publish st stream key payload published_at_ms request_id kind in
  command_step st (Publish stream key payload published_at_ms request_id) r st'.
Proof.
  intros Hwf. unfold apply_publish. destruct (kind_is_metadata kind); [auto with runnel|].
  destruct (dedup_offset st stream request_id) as [o|] eqn:Hnew.
  { destruct (_ ← _; _); [|auto with runnel]. destruct (_ || _); auto with runnel. }
  destruct (stream_identity stream) as [sid gid].
  set (ss := default (stream_active sid gid) (st_streams st !! stream)).
  assert (Hss : forall ss0, st_streams st !! stream = Some ss0 -> ss_messages ss = ss_messages ss0).
  { intros ss0 H. unfold ss. by rewrite H. }
  destruct (is_active ss); cbn [negb].
  2:{ apply set_streams_step; [done|]. apply streams_extended_insert. intros ss0 H0.
      exists []. rewrite app_nil_r. by apply Hss. }
  set (m := {| sm_key := key; sm_payload := payload; sm_published_at_ms := published_at_ms |}).
  set (st1 := set_streams (set_streams st _) _).
  assert (Hst1 : st1 = set_streams st (<[stream := push_message ss m]> (st_streams st))).
  { unfold st1. cbn. by rewrite insert_insert_eq. }
  assert (Hex : streams_extended st st1).
  { rewrite Hst1. apply streams_extended_insert. intros ss0 H0. exists [m]. cbn. by rewrite (Hss ss0). }
  destruct request_id as [id|]; [|by rewrite Hst1 in *; apply set_streams_step].
  split; [|done|done|by apply progress_same|].
  2:{ intros s i o Ho. unfold dedup_offset in *. cbn in *.
      destruct (decide (s = stream)) as [->|Hne]; [|by rewrite lookup_insert_ne].
      rewrite lookup_insert_eq. cbn. destruct (st_dedup st !! stream) as [reqs|]; cbn in *; [|done].
      destruct (decide (i = id)) as [->|Hne]; [congruence|]. by rewrite lookup_insert_ne. }
  assert (Hwf1 : snapshot_wf st1) by (by apply (snapshot_wf_extended st)).
  split; cbn; try apply Hwf1.
  intros s reqs id' o [[<- <-]|[Hne Hr]]%lookup_insert_Some Ho; [|by eapply (sw_dedup _ Hwf1)].
  change (o < vec_len (messages_of st1 stream)). apply lookup_insert_Some in Ho as [[<- <-]|[_ Ho]].
  - rewrite Hst1. unfold messages_of. cbn. rewrite lookup_insert_eq. cbn. rewrite vec_len_app.
    unfold vec_len at 3. cbn. lia.
  - destruct (st_dedup st !! stream) as [reqs|] eqn:Er; cbn in Ho; [|by rewrite lookup_empty in Ho].
    by eapply (sw_dedup _ Hwf1).
Qed.

Lemma ack_step_command st stream consumer offset kind :
  snapshot_wf st ->
  let '(r, st') := apply_ack st stream consumer offset kind in
  command_step st (Ack stream consumer offset) r st'.
Proof.
  intros Hwf. unfold apply_ack.
  destruct (kind_is_metadata kind); [auto with runnel|].
  destruct (st_streams st !! stream) as [ss|]; [|auto with runnel].
  destruct (is_active ss); cbn [negb]; [|auto with runnel].
  destruct (_ <? _); [auto with runnel|].
  destruct (_ <? _); [auto with runnel|].
  split; [|done|by apply streams_extended_eq|by apply progress_same|by apply dedup_kept_same].
  split; cbn; try apply Hwf. intros k o [[_ <-]|[_ Ho]]%lookup_insert_Some.
  - unfold u64_wrapping_add. pose proof (N.mod_lt (offset + 1) (u64_max + 1)). unfold u64_max in *. lia.
  - by apply (sw_consumer _ Hwf) in Ho.
Qed.

Lemma set_policy_wf messages c policy : group_wf messages c -> group_wf messages (set_policy c policy).
Proof. by intros []. Qed.

Lemma configure_consumer_step st stream consumer timeout attempts delay kind :
  snapshot_wf st ->
  let '(r, st') := apply_configure_consumer st stream consumer timeout attempts delay kind in
  command_step st (ConfigureConsumer stream consumer timeout attempts delay) r st'.
Proof.
  intros Hwf. unfold apply_configure_consumer.
  destruct (kind_is_metadata kind || _) eqn:Hact; [auto with runnel|].
  apply orb_false_iff in Hact as [_ Hact%negb_false_iff]. apply active_stream in Hact.
  destruct (is_ok _); cbn [negb]; [|auto with runnel].
  set (entry := default group_consumer_default _).
  assert (Hentry : group_wf (messages_of st stream) entry).
  { unfold entry. destruct (st_group_consumers st !! _) eqn:E; cbn;
      [by apply (sw_group _ Hwf) in E as [_ ?]|].
    apply (group_wf_at _ 0). unfold u64_max. lia. }
  assert (Hput : forall c r, group_wf (messages_of st stream) c ->
    (forall o, group_done c o <-> group_done entry o) ->
    command_step st (ConfigureConsumer stream consumer timeout attempts delay) r
      (put_consumer st (stream, consumer) c)).
  { intros c r Hc Hd. split; [by apply put_consumer_wf|done|by apply streams_extended_eq| |by apply dedup_kept_same].
    apply progress_put. intros c0 Hc0. unfold entry in Hd. rewrite Hc0 in Hd. cbn in Hd.
    split; intros o; rewrite Hd; auto. }
  assert (Hconf : forall r c, group_wf (messages_of st stream) c ->
    (forall o, group_done c o <-> group_done entry o) ->
    command_step st (ConfigureConsumer stream consumer timeout attempts delay) r
      (put_consumer (put_consumer st (stream, consumer) entry) (stream, consumer) c)).
  { intros r c Hc Hd. unfold put_consumer at 1. cbn. rewrite insert_insert_eq. by apply Hput. }
  destruct (gc_policy entry) as [current|]; [destruct (same_settings _ _ _ _); [by apply Hput|]|];
    (destruct (_ =? 0); [by apply Hput|]); apply Hconf; try done; by apply set_policy_wf.
Qed.

(** What the engine checks before it proposes a command: receipts name distinct
    offsets. *)
Definition command_valid (command : Command) : Prop :=
  match command with
  | AckGroupBatch _ _ _ receipts _ => validate_ack_batch_receipts receipts = Ok tt
  | _ => True
  end.

Definition state_fits (st : SnapshotState) : Prop := forall s, stream_fits st s.

Lemma valid_receipts_distinct receipts :
  validate_ack_batch_receipts receipts = Ok tt -> NoDup (dr_offset <$> receipts).
Proof.
  unfold validate_ack_batch_receipts. destruct (_ || _); [done|].
  intros H. by apply check_duplicate_receipts_Ok in H as [? _].
Qed.

Ltac refused :=
  eexists _, _; split; [reflexivity|auto with runnel].

(** [r] is a command's result: it is defined, and a step of the state. *)
Definition steps (st : SnapshotState) (command : Command)
  (result : option (CommandResponse * SnapshotState)) : Prop :=
  exists r st', result = Some (r, st') /\ command_step st command r st'.

Lemma poll_steps st request log_id kind command :
  snapshot_wf st -> state_fits st -> polls command (gp_stream request) (gp_consumer request) ->
  steps st command (apply_group_poll st request log_id kind).
Proof.
  intros Hwf Hfit Hp. destruct (kind_is_metadata kind) eqn:Hk;
    [unfold apply_group_poll; rewrite Hk; refused|].
  destruct (stream_is_active st (gp_stream request)) eqn:Ha;
    [|unfold apply_group_poll; rewrite Hk, Ha; refused].
  destruct (apply_group_poll_outcome st request log_id kind) as (r & st' & -> & Hout); [done..|].
  eexists _, _. split; [done|]. eapply poll_outcome_step; eauto using active_stream.
Qed.

Lemma batch_poll_steps st request kind command :
  snapshot_wf st -> state_fits st -> polls command (gb_stream request) (gb_consumer request) ->
  steps st command (apply_group_batch_poll st request kind).
Proof.
  intros Hwf Hfit Hp. destruct (kind_is_metadata kind) eqn:Hk;
    [unfold apply_group_batch_poll; rewrite Hk; refused|].
  destruct ((gb_max_records request =? 0) || (gb_max_bytes request =? 0)) eqn:Hl;
    [unfold apply_group_batch_poll; rewrite Hk, Hl; refused|].
  destruct (stream_is_active st (gb_stream request)) eqn:Ha;
    [|unfold apply_group_batch_poll; rewrite Hk, Hl, Ha; refused].
  apply orb_false_iff in Hl as [?%N.eqb_neq ?%N.eqb_neq].
  destruct (apply_group_batch_poll_outcome st request kind) as (r & st' & -> & Hout);
    [done..|lia|lia|].
  eexists _, _. split; [done|]. eapply batch_outcome_step; eauto using active_stream.
Qed.

Lemma ack_steps st s n member o token now kind :
  snapshot_wf st -> state_fits st ->
  steps st (AckGroup s n member o token now)
    (apply_group_ack st {| ga_stream := s; ga_consumer := n; ga_member := member; ga_offset := o;
       ga_delivery_token := token; ga_now_ms := now |} kind).
Proof.
  intros Hwf Hfit. destruct (kind_is_metadata kind) eqn:Hk;
    [unfold apply_group_ack; rewrite Hk; refused|].
  destruct (stream_is_active st s) eqn:Ha.
  2:{ unfold apply_group_ack, stream_is_active in *. rewrite Hk. cbn [ga_stream].
      destruct (st_streams st !! s) as [ss|]; cbn in Ha; [rewrite Ha|]; refused. }
  destruct (apply_group_ack_outcome st {| ga_stream := s; ga_consumer := n; ga_member := member;
    ga_offset := o; ga_delivery_token := token; ga_now_ms := now |} kind)
    as (r & st' & -> & Hout); [done..|].
  eexists _, _. split; [done|].
  apply ack_outcome_step; [done|apply Hfit|by apply active_stream|exact Hout].
Qed.

Lemma batch_ack_steps st s n member receipts now kind :
  snapshot_wf st -> state_fits st -> NoDup (dr_offset <$> receipts) ->
  steps st (AckGroupBatch s n member receipts now)
    (apply_group_batch_ack st {| gba_stream := s; gba_consumer := n; gba_member := member;
       gba_receipts := receipts; gba_now_ms := now |} kind).
Proof.
  intros Hwf Hfit Hnd. destruct (kind_is_metadata kind) eqn:Hk;
    [unfold apply_group_batch_ack; rewrite Hk; refused|].
  destruct (stream_is_active st s) eqn:Ha.
  2:{ unfold apply_group_batch_ack. rewrite Hk. cbn [gba_stream]. rewrite Ha. refused. }
  apply batch_ack_step; [done|apply Hfit|done..].
Qed.

Lemma total_steps st command p :
  (let '(r, st') := p in command_step st command r st') -> steps st command (Some p).
Proof. destruct p as [r st']. intros H. by exists r, st'. Qed.

Lemma apply_command_steps st command kind log_id :
  snapshot_wf st -> state_fits st -> command_valid command ->
  steps st command (apply_command st command kind log_id).
Proof.
  intros Hwf Hfit Hval. destruct command; cbn [apply_command].
  - by apply total_steps, create_stream_step.
  - by apply total_steps, initialize_data_stream_step.
  - by apply total_steps, activate_stream_step.
  - by apply total_steps, publish_step.
  - by apply total_steps, ack_step_command.
  - by apply total_steps, configure_consumer_step.
  - refused.
  - by apply poll_steps.
  - by apply batch_poll_steps.
  - by apply ack_steps.
  - apply batch_ack_steps; [done..|by apply valid_receipts_distinct].
Qed.

(** ** Runs *)

(** The states a group reaches by applying valid commands in log order. *)
Inductive reachable (kind : GroupKind) : SnapshotState -> Prop :=
| reach_start : reachable kind snapshot_default
| reach_apply st command log_id r st' :
    reachable kind st -> state_fits st -> command_valid command ->
    apply_command st command kind log_id = Some (r, st') -> reachable kind st'.

Lemma reachable_wf kind st : reachable kind st -> snapshot_wf st.
Proof.
  induction 1 as [|st command log_id r st' _ IH Hfit Hval Happ]; [apply snapshot_default_wf|].
  destruct (apply_command_steps st command kind log_id IH Hfit Hval) as (r' & st'' & Heq & Hstep).
  rewrite Happ in Heq. injection Heq as -> ->. apply Hstep.
Qed.
