(* ===== verification/RaftGuarantees.v ===== *)
(** What the replicated state machine guarantees to producers and consumers:
    the theorems about crates/runnel-raft/src/state_machine.rs and delivery.rs. *)

From S2P Require Import Prelude Engine RecordFormat Names RaftState RaftDelivery RaftInvariant RaftHandlers RaftBatch RaftStateMachine.

Local Open Scope N_scope.

(** ** Runs of commands *)

(** Apply a log of commands, each with the text of its log id. *)
Fixpoint run (kind : GroupKind) (st : SnapshotState) (log : list (Command * string)) :
  option (list CommandResponse * SnapshotState) :=
  match log with
  | [] => Some ([], st)
  | (command, log_id) :: log =>
    '(r, st) ← apply_command st command kind log_id;
    '(rs, st) ← run kind st log;
    Some (r :: rs, st)
  end.

Definition fits_test (st : SnapshotState) : bool :=
  forallb (fun p => vec_len (ss_messages p.2) <=? u64_max) (map_to_list (st_streams st)).

Definition valid_test (command : Command) : bool :=
  match command with
  | AckGroupBatch _ _ _ receipts _ => is_ok (validate_ack_batch_receipts receipts)
  | _ => true
  end.

Fixpoint run_test (kind : GroupKind) (st : SnapshotState) (log : list (Command * string)) : bool :=
  match log with
  | [] => true
  | (command, log_id) :: log =>
    fits_test st && valid_test command &&
    match apply_command st command kind log_id with
    | Some (_, st) => run_test kind st log
    | None => false
    end
  end.

Lemma fits_test_true st : fits_test st = true -> state_fits st.
Proof.
  unfold fits_test. rewrite forallb_Forall_true, Forall_forall. intros H s.
  unfold stream_fits, messages_of. destruct (st_streams st !! s) as [ss|] eqn:E; cbn.
  - apply elem_of_map_to_list in E. apply H in E. cbn in E. by apply N.leb_le.
  - unfold vec_len, u64_max. cbn. lia.
Qed.

Lemma valid_test_true command : valid_test command = true -> command_valid command.
Proof.
  destruct command; try done. cbn. destruct (validate_ack_batch_receipts receipts) as [[]|]; done.
Qed.

Lemma run_reachable kind st log rs st' :
  reachable kind st -> run_test kind st log = true -> run kind st log = Some (rs, st') ->
  reachable kind st'.
Proof.
  revert st rs. induction log as [|[command log_id] log IH]; intros st rs Hr; cbn [run run_test].
  - by intros _ [= <- <-].
  - destruct (fits_test st) eqn:Hf; [|done]. destruct (valid_test command) eqn:Hv; [|done].
    cbn [andb]. destruct (apply_command st command kind log_id) as [[r st1]|] eqn:Ha; [|done].
    intros Ht. step_bind. intros (x & Hx & Hy)%bind_Some. destruct x as [rs1 st2].
    injection Hy as <- <-. eapply IH; [|done|done].
    eapply reach_apply; [done|by apply fits_test_true|by apply valid_test_true|done].
Qed.

(** The state after a log, for the examples. *)
Definition state_after (log : list (Command * string)) : SnapshotState :=
  from_option snd snapshot_default (run Combined snapshot_default log).

Lemma state_after_reachable log :
  run_test Combined snapshot_default log = true -> reachable Combined (state_after log).
Proof.
  intros H. unfold state_after. destruct (run Combined snapshot_default log) as [[rs st]|] eqn:E.
  - eapply run_reachable; [constructor|done|done].
  - constructor.
Qed.

(** Two keyed messages, one of them delivered to a member of [billing]. *)
Definition example_publish (key : option string) (payload : list byte) (id : option string) :
  Command := Publish "orders" key payload 1 id.

Definition example_poll (member : string) (max_response_bytes now_ms : N) : Command :=
  PollGroup "orders" "billing" member (Some member) max_response_bytes now_ms (now_ms + 30) None
    (Some 30) None.

Definition example_log : list (Command * string) :=
  [(CreateStream "orders" None None, "1-1-1");
   (example_publish (Some "eu") [Byte.x61] (Some "r1"), "1-1-2");
   (example_publish (Some "eu") [Byte.x62] None, "1-1-3");
   (example_publish (Some "us") [Byte.x63] None, "1-1-4");
   (example_poll "m1" 1000 10, "1-1-5")].

Definition example_state : SnapshotState := state_after example_log.

Definition example_consumer : GroupConsumerState :=
  consumer_of example_state ("orders", "billing").

Definition example_delivery : GroupDelivery :=
  {| gd_member := "m1"; gd_key := Some "eu"; gd_delivery_attempt := 1;
     gd_delivery_token := "raft-1-1-5"; gd_requires_receipt := false; gd_deadline_ms := 40 |}.

Lemma example_reachable : reachable Combined example_state.
Proof. apply state_after_reachable. vm_compute. reflexivity. Qed.

Lemma example_fits : state_fits example_state.
Proof. apply fits_test_true. vm_compute. reflexivity. Qed.

(** ** Every command *)

(** C18: In every reachable state every command that the engine proposes is
    applied: no [expect] of the handlers fails and their loops end. The result
    keeps every consumer in the shape that recovery checks
    ([validate_pinned_policies]), never moves the lease clock back, and never
    removes or changes a stored message. *)
Theorem raft_command_safe kind st command log_id :
  reachable kind st -> state_fits st -> command_valid command ->
  exists r st', apply_command st command kind log_id = Some (r, st') /\
    (forall s n c, st_group_consumers st' !! (s, n) = Some c -> validate_pinned_policies c = Ok tt) /\
    st_lease_clock_ms st <= st_lease_clock_ms st' /\
    (forall s, exists more, messages_of st' s = messages_of st s ++ more).
Proof.
  intros Hr Hfit Hval.
  destruct (apply_command_steps st command kind log_id (reachable_wf _ _ Hr) Hfit Hval)
    as (r & st' & Happ & [Hwf Hclock Hex _ _]).
  exists r, st'. split_and!; [done| |done|].
  - intros s n c Hc. destruct (sw_group _ Hwf s n c Hc) as [_ Hg]. by eapply group_wf_validates.
  - intros s. destruct (st_streams st !! s) as [ss|] eqn:E; [apply Hex; eauto|].
    exists (messages_of st' s). unfold messages_of at 2. by rewrite E.
Qed.

Lemma raft_command_safe_witness :
  exists r st', apply_command example_state (example_poll "m2" 1000 20) Combined "1-1-6" =
    Some (r, st') /\
    (forall s n c, st_group_consumers st' !! (s, n) = Some c -> validate_pinned_policies c = Ok tt) /\
    st_lease_clock_ms example_state <= st_lease_clock_ms st' /\
    (forall s, exists more, messages_of st' s = messages_of example_state s ++ more).
Proof.
  apply raft_command_safe; [apply example_reachable|apply example_fits|done].
Defined.

(** C19: Deliveries respect the order of keys. In every reachable state a
    delivery in flight under a key belongs to an unfinished message with that
    key, every earlier message with that key is finished, and it is the only
    delivery in flight under that key. *)
Theorem raft_delivery_key_order kind st s n c o d k :
  reachable kind st -> st_group_consumers st !! (s, n) = Some c ->
  gc_in_flight c !! o = Some d -> gd_key d = Some k ->
  (exists m, vec_get (messages_of st s) o = Some m /\ sm_key m = Some k) /\
  ~ group_done c o /\
  (forall o' m, o' < o -> vec_get (messages_of st s) o' = Some m -> sm_key m = Some k ->
     group_done c o') /\
  (forall o' d', gc_in_flight c !! o' = Some d' -> gd_key d' = Some k -> o' = o).
Proof.
  intros Hr Hc Ho Hk. destruct (sw_group _ (reachable_wf _ _ Hr) s n c Hc) as [_ Hwf].
  destruct (gw_in_flight _ _ Hwf o d Ho) as (Ha & m & Hm & Hkm).
  assert (Hopen : forall o d, gc_in_flight c !! o = Some d -> ~ group_done c o).
  { intros o1 d1 H1. apply (gw_in_flight _ _ Hwf) in H1 as [H1 _].
    apply (gw_attempted _ _ Hwf). rewrite H1. eauto. }
  split_and!; [exists m; split; congruence|eauto| |].
  - intros o' m' Hlt Hm' Hk'. by eapply (gw_order _ _ Hwf).
  - intros o' d' Ho' Hk'. destruct (gw_in_flight _ _ Hwf o' d' Ho') as (_ & m' & Hm' & Hkm').
    destruct (N.lt_trichotomy o' o) as [Hlt|[->|Hlt]]; [|done|].
    + destruct (Hopen o' d' Ho'). eapply (gw_order _ _ Hwf o d); eauto. congruence.
    + destruct (Hopen o d Ho). eapply (gw_order _ _ Hwf o' d'); eauto. congruence.
Qed.

Lemma raft_delivery_key_order_witness :
  gc_in_flight example_consumer !! 0 = Some example_delivery /\ ~ group_done example_consumer 0 /\
  (forall o' d', gc_in_flight example_consumer !! o' = Some d' -> gd_key d' = Some "eu" -> o' = 0).
Proof.
  split; [vm_compute; reflexivity|].
  destruct (raft_delivery_key_order Combined example_state "orders" "billing" example_consumer 0
    example_delivery "eu" example_reachable) as (_ & H1 & _ & H2);
    [vm_compute; reflexivity..|]. split; [exact H1|exact H2].
Defined.

(** C17: Messages are never lost. A command leaves what a consumer group of the state
    has finished finished; and an offset becomes finished only by an accepted acknowledgement
    of that offset, by a confirmed receipt for it, or by a poll that appended the
    message to the dead-letter stream. *)
Theorem raft_progress_has_cause kind st command log_id r st' s n c :
  reachable kind st -> state_fits st -> command_valid command ->
  apply_command st command kind log_id = Some (r, st') ->
  st_group_consumers st !! (s, n) = Some c ->
  exists c', st_group_consumers st' !! (s, n) = Some c' /\
    (forall o, group_done c o -> group_done c' o) /\
    (forall o, group_done c' o -> ~ group_done c o -> finishes st command r st' s n o).
Proof.
  intros Hr Hfit Hval Happ Hc.
  destruct (apply_command_steps st command kind log_id (reachable_wf _ _ Hr) Hfit Hval)
    as (r' & st'' & Heq & [_ _ _ Hp _]). rewrite Happ in Heq. injection Heq as <- <-.
  destruct (Hp s n c Hc) as (c' & Hc' & H1 & H2). exists c'. split_and!; [done..|].
  intros o Ho Hno. by destruct (H2 o Ho).
Qed.

Lemma raft_progress_has_cause_witness :
  let ack := AckGroup "orders" "billing" "m1" 0 "raft-1-1-5" 20 in
  exists r st' c', apply_command example_state ack Combined "1-1-6" = Some (r, st') /\
    st_group_consumers st' !! ("orders", "billing") = Some c' /\
    (forall o, group_done c' o -> ~ group_done example_consumer o ->
       finishes example_state ack r st' "orders" "billing" o).
Proof.
  intros ack. destruct (apply_command example_state ack Combined "1-1-6") as [[r st']|] eqn:E;
    [|vm_compute in E; discriminate].
  destruct (raft_progress_has_cause Combined example_state ack "1-1-6" r st' "orders" "billing"
    example_consumer example_reachable example_fits I E) as (c' & Hc' & _ & H);
    [vm_compute; reflexivity|].
  exists r, st', c'. split; [done|]. split; [exact Hc'|exact H].
Defined.

(** ** Polls *)

(** [msg] is handed to [member]: it is the stored message, its delivery is in
    flight for the member with the token and attempt of [msg], and every earlier
    message with its key is finished. *)
Definition handed_out (st : SnapshotState) (s n member : string) (msg : Message)
  (st' : SnapshotState) : Prop :=
  exists m d, vec_get (messages_of st s) (msg_offset msg) = Some m /\
    msg = delivered_message s (msg_offset msg) m (gd_delivery_token d) (gd_delivery_attempt d) /\
    gc_in_flight (consumer_of st' (s, n)) !! msg_offset msg = Some d /\ gd_member d = member /\
    key_behind (messages_of st s) (consumer_of st' (s, n)) (msg_offset msg) m.

Lemma in_flight_key_behind messages c o d m :
  group_wf messages c -> gc_in_flight c !! o = Some d -> vec_get messages o = Some m ->
  key_behind messages c o m.
Proof.
  intros Hwf Ho Hm k o' m' Hk Hlt Hm' Hk'.
  destruct (gw_in_flight _ _ Hwf o d Ho) as (_ & m0 & Hm0 & Hk0).
  eapply (gw_order _ _ Hwf o d k); eauto. congruence.
Qed.

Lemma handed_out_intro st st' s n member o m d :
  snapshot_wf st' -> messages_of st' s = messages_of st s ->
  gc_in_flight (consumer_of st' (s, n)) !! o = Some d -> gd_member d = member ->
  vec_get (messages_of st s) o = Some m ->
  handed_out st s n member
    (delivered_message s o m (gd_delivery_token d) (gd_delivery_attempt d)) st'.
Proof.
  intros Hwf Hms Ho Hmem Hm. exists m, d. cbn. split_and!; try done.
  eapply in_flight_key_behind; [|done|done]. rewrite <-Hms. by apply consumer_of_wf.
Qed.

Lemma delivers_handed_out st st0 st1 request log_id now legacy o m d st' :
  snapshot_wf st1 -> is_Some (st_streams st1 !! gp_stream request) ->
  messages_of st0 (gp_stream request) = messages_of st (gp_stream request) ->
  messages_of st1 (gp_stream request) = messages_of st0 (gp_stream request) ->
  delivers st1 request log_id now legacy o m d st' ->
  handed_out st (gp_stream request) (gp_consumer request) (gp_member request)
    (delivered_message (gp_stream request) o m (gd_delivery_token d) (gd_delivery_attempt d)) st'.
Proof.
  intros Hwf Hs Hm0 Hm1 Hdel. pose proof (delivers_wf _ _ _ _ _ _ _ _ _ Hwf Hs Hdel) as Hwf'.
  destruct Hdel as [Hm _ _ (Hmem & _) _ (policy & c' & rd & Hrec & ->) _].
  apply handed_out_intro; [done| | |done|by rewrite <-Hm0, <-Hm1].
  - change (messages_of st1 (gp_stream request) = messages_of st (gp_stream request)). congruence.
  - unfold consumer_of at 1. cbn. rewrite lookup_insert_eq. cbn.
    rewrite (dr_in_flight _ _ _ _ _ Hrec). by rewrite lookup_insert_eq.
Qed.

(** The time a poll observes. *)
Definition poll_time (st : SnapshotState) (request : GroupPollRequest) : N :=
  N.max (st_lease_clock_ms st) (gp_now_ms request).

(** The member holds the delivery [d] of [o], and its lease has not lapsed. *)
Definition holds_live (st : SnapshotState) (request : GroupPollRequest) (o : Offset)
  (d : GroupDelivery) : Prop :=
  gc_in_flight (consumer_of st (gp_stream request, gp_consumer request)) !! o = Some d /\
  gd_member d = gp_member request /\ poll_time st request < gd_deadline_ms d.

(** [msg] is the first delivery the member already holds, as it was handed out,
    and the poll does no more than observe the clock and release lapsed leases. *)
Definition resumes (st : SnapshotState) (request : GroupPollRequest) (msg : Message)
  (st' : SnapshotState) : Prop :=
  exists m d, holds_live st request (msg_offset msg) d /\
    (forall o' d', holds_live st request o' d' -> msg_offset msg <= o') /\
    vec_get (messages_of st (gp_stream request)) (msg_offset msg) = Some m /\
    msg = delivered_message (gp_stream request) (msg_offset msg) m (gd_delivery_token d)
            (gd_delivery_attempt d) /\
    st' = prepared st (gp_stream request) (gp_consumer request) (poll_time st request).

(** The member holds nothing, and [msg] is the first deliverable message once
    messages whose attempts are used up went to the dead-letter stream. It has
    attempts left, and is recorded in flight with the next attempt and the token
    of this log entry. *)
Definition hands_out_next (st : SnapshotState) (request : GroupPollRequest) (log_id : string)
  (msg : Message) (st' : SnapshotState) : Prop :=
  let legacy := policy_legacy (default 0 (gp_legacy_ack_timeout_ms request))
                  (gp_max_delivery_attempts request) in
  (forall o d, ~ holds_live st request o d) /\
  exists moved st1 m d,
    dead_lettered legacy (gp_policy_version request) (gp_stream request) (gp_consumer request) moved
      (prepared st (gp_stream request) (gp_consumer request) (poll_time st request)) st1 /\
    delivers st1 request log_id (poll_time st request) legacy (msg_offset msg) m d st' /\
    msg = delivered_message (gp_stream request) (msg_offset msg) m (gd_delivery_token d)
            (gd_delivery_attempt d).

Lemma prepared_holds st request o d :
  gc_in_flight (consumer_of (prepared st (gp_stream request) (gp_consumer request)
    (poll_time st request)) (gp_stream request, gp_consumer request)) !! o = Some d /\
  gd_member d = gp_member request <-> holds_live st request o d.
Proof.
  rewrite prepared_consumer, lookup_live. unfold holds_live, lease_expired.
  rewrite N.leb_gt. naive_solver.
Qed.

Lemma prepared_holds_none st request :
  (forall o d, gc_in_flight (consumer_of (prepared st (gp_stream request) (gp_consumer request)
     (poll_time st request)) (gp_stream request, gp_consumer request)) !! o = Some d ->
     gd_member d <> gp_member request) ->
  forall o d, ~ holds_live st request o d.
Proof. intros H o d [Ho Hm]%prepared_holds. by apply (H o d). Qed.

Lemma resumed st request o m d :
  gc_in_flight (consumer_of (prepared st (gp_stream request) (gp_consumer request)
    (poll_time st request)) (gp_stream request, gp_consumer request)) !! o = Some d ->
  gd_member d = gp_member request ->
  (forall o' d', gc_in_flight (consumer_of (prepared st (gp_stream request) (gp_consumer request)
     (poll_time st request)) (gp_stream request, gp_consumer request)) !! o' = Some d' ->
     gd_member d' = gp_member request -> o <= o') ->
  vec_get (messages_of st (gp_stream request)) o = Some m ->
  resumes st request (delivered_message (gp_stream request) o m (gd_delivery_token d)
    (gd_delivery_attempt d)) (prepared st (gp_stream request) (gp_consumer request)
    (poll_time st request)).
Proof.
  intros Ho Hmem Hmin Hm. exists m, d. cbn. split_and!; try done.
  - by apply prepared_holds.
  - intros o' d' [Ho' Hm']%prepared_holds. by apply (Hmin o' d').
Qed.

(** C20: A poll of an active stream always answers, in one of four ways. It refuses,
    and changes nothing, exactly when the message it sizes would make a response
    over the limit: the one the member holds, or else the first open one that is
    not held and has attempts left, whether or not a retry delay holds it back. A
    member that holds a live delivery gets the first such delivery again. Otherwise
    it gets the first deliverable message, with the next attempt and the token of
    the log entry, once messages without attempts left are dead-lettered. It is
    told that there is nothing only when it holds nothing and no message is
    deliverable: each is finished, in flight, or held back by its key or by a retry
    delay. A message handed out is in flight for the member, and everything earlier
    of its key is finished. *)
Theorem raft_poll_correct kind st request log_id :
  reachable kind st -> state_fits st -> kind_is_metadata kind = false ->
  stream_is_active st (gp_stream request) = true ->
  exists r st', apply_group_poll st request log_id kind = Some (r, st') /\
    match r with
    | RGroupPollResponseTooLarge bytes => bytes = gp_max_response_bytes request /\ st' = st /\
        exists bound, sized st request log_id bound /\ gp_max_response_bytes request < bound
    | RGroupPoll answer =>
        (forall bound, sized st request log_id bound -> bound <= gp_max_response_bytes request) /\
        match answer with
        | PollEmpty => (forall o d, ~ holds_live st request o d) /\
            forall o m, vec_get (messages_of st (gp_stream request)) o = Some m ->
              ~ deliverable (consumer_of st' (gp_stream request, gp_consumer request))
                  (st_lease_clock_ms st') ∅ ∅ o m
        | PollMessage msg =>
            handed_out st (gp_stream request) (gp_consumer request) (gp_member request) msg st' /\
            (resumes st request msg st' \/ hands_out_next st request log_id msg st')
        end
    | _ => False
    end.
Proof.
  intros Hr Hfit Hkind Hact. pose proof (reachable_wf _ _ Hr) as Hwf.
  pose proof (active_stream _ _ Hact) as Hs.
  destruct (apply_group_poll_outcome st request log_id kind) as (r & st' & Happ & Hout); [done..|].
  exists r, st'. split; [done|].
  pose proof (prepared_wf st (gp_stream request) (gp_consumer request)
    (poll_time st request) Hwf Hs) as Hwf0.
  destruct Hout as [bound Hb Hover|st0 o m d Hfits -> Hif Hmem Hmin Hm|
    st0 moved st1 Hfits -> Hnone Hdl Hno|st0 moved st1 o m d st2 Hfits -> Hnone Hdl Hdel].
  - split_and!; [done..|]. by exists bound.
  - split; [exact Hfits|]. split; [by apply handed_out_intro|]. left. by apply resumed.
  - split; [exact Hfits|]. split; [by apply prepared_holds_none|].
    by rewrite (dl_clock _ _ _ _ _ _ _ Hdl).
  - split; [exact Hfits|]. split.
    + eapply delivers_handed_out; [apply Hdl|by apply Hdl| | |exact Hdel]; [reflexivity|].
      by apply (dead_lettered_messages _ _ _ _ _ _ _ Hdl).
    + right. split; [by apply prepared_holds_none|]. by exists moved, st1, m, d.
Qed.

Definition example_poll_request (member : string) : GroupPollRequest :=
  {| gp_stream := "orders"; gp_consumer := "billing"; gp_member := member;
     gp_response_member := Some member; gp_max_response_bytes := 1000; gp_now_ms := 20;
     gp_lease_deadline_ms := 50; gp_max_delivery_attempts := None;
     gp_legacy_ack_timeout_ms := Some 30; gp_policy_version := None |}.

Lemma raft_poll_correct_witness :
  exists msg st', apply_group_poll example_state (example_poll_request "m2") "1-1-6" Combined =
      Some (RGroupPoll (PollMessage msg), st') /\ msg_offset msg = 2 /\
    handed_out example_state "orders" "billing" "m2" msg st' /\
    (resumes example_state (example_poll_request "m2") msg st' \/
     hands_out_next example_state (example_poll_request "m2") "1-1-6" msg st').
Proof.
  destruct (raft_poll_correct Combined example_state (example_poll_request "m2") "1-1-6"
    example_reachable example_fits eq_refl) as (r & st' & Happ & Hr); [vm_compute; reflexivity|].
  destruct (apply_group_poll example_state (example_poll_request "m2") "1-1-6" Combined)
    as [[r' st'']|] eqn:E; [|discriminate]. injection Happ as -> ->.
  assert (Hr' : exists msg, r = RGroupPoll (PollMessage msg) /\ msg_offset msg = 2).
  { vm_compute in E. injection E as <- _. eexists. split; reflexivity. }
  destruct Hr' as (msg & -> & Ho). exists msg, st'. split; [done|]. split; [exact Ho|].
  destruct Hr as [_ Hr]. exact Hr.
Defined.

(** The answer built from deliveries the member already holds. *)
Lemma existing_response_spec request messages existing :
  match existing_response request messages existing with
  | RGroupBatchPoll msgs _ _ =>
    vec_len msgs <= gb_max_records request /\
    poll_batch_response_len (gb_stream request) (gb_consumer request)
      (gb_response_member request) msgs <= gb_max_bytes request /\
    msgs = existing_messages (gb_stream request) messages existing
  | RGroupBatchPollActiveSetLimitExceeded => True
  | _ => False
  end.
Proof.
  unfold existing_response. destruct (N.ltb_spec (gb_max_records request) (vec_len existing)); [done|].
  destruct (_ || _) eqn:E; [done|].
  apply orb_false_iff in E as [E1%negb_false_iff%N.eqb_eq E2%N.ltb_ge]. split_and!; [lia|done|done].
Qed.

Lemma elem_of_existing_messages stream messages existing msg :
  msg ∈ existing_messages stream messages existing ->
  exists o d m, (o, d) ∈ existing /\ vec_get messages o = Some m /\
    msg = delivered_message stream o m (gd_delivery_token d) (gd_delivery_attempt d).
Proof.
  unfold existing_messages. intros ([o d] & Hin & Hm)%list_elem_of_omap.
  apply bind_Some in Hm as (m & Hm & [= <-]). eauto 10.
Qed.

Lemma existing_messages_offsets stream messages existing :
  NoDup existing.*1 -> NoDup (msg_offset <$> existing_messages stream messages existing).
Proof.
  intros Hnd. eapply sublist_NoDup; [exact Hnd|]. clear Hnd. unfold existing_messages.
  induction existing as [|[o d] existing IH]; cbn; [constructor|].
  destruct (vec_get messages o); cbn; by constructor.
Qed.

(** The pending entries are in flight once they are recorded. *)
Lemma pending_handed_out st st1 request l c' rd msg :
  snapshot_wf st1 -> is_Some (st_streams st1 !! gb_stream request) ->
  messages_of st1 (gb_stream request) = messages_of st (gb_stream request) ->
  batch_ok request (messages_of st (gb_stream request))
    (consumer_of st1 (gb_stream request, gb_consumer request)) l ->
  foldl commit_pending (consumer_of st1 (gb_stream request, gb_consumer request),
    st_redeliveries st1) (bl_pending l) = (c', rd) ->
  msg ∈ pending_messages l ->
  handed_out st (gb_stream request) (gb_consumer request) (gb_member request) msg
    (set_redeliveries (put_consumer st1 (gb_stream request, gb_consumer request) c') rd).
Proof.
  intros Hwf Hs Hms Hok Hfold Hin. rewrite <-Hms in Hok.
  destruct (commit_all_spec request (messages_of st1 (gb_stream request)) (bl_pending l)
    (consumer_of st1 (gb_stream request, gb_consumer request)) (st_redeliveries st1))
    as (Hw' & _ & Hif & _); [by apply consumer_of_wf|apply Hok|apply Hok|].
  rewrite Hfold in Hw', Hif. cbn [fst] in Hw', Hif.
  apply list_elem_of_fmap in Hin as ([[msg' d] policy] & -> & Hin). cbn [fst].
  destruct (bo_pending _ _ _ _ Hok msg' d policy Hin) as [m Hp].
  rewrite (po_message _ _ _ _ _ _ Hp). apply handed_out_intro.
  - apply (snapshot_wf_frame (put_consumer st1 (gb_stream request, gb_consumer request) c'));
      try done. by apply put_consumer_wf.
  - exact Hms.
  - unfold consumer_of. cbn. rewrite lookup_insert_eq. by eapply Hif.
  - apply Hp.
  - rewrite <-Hms. apply Hp.
Qed.

Lemma live_subset st s n now :
  gc_in_flight (consumer_of (prepared st s n now) (s, n)) ⊆ gc_in_flight (consumer_of st (s, n)).
Proof. rewrite prepared_consumer. cbn. apply map_filter_subseteq. Qed.

(** C21: A batch poll of an active stream with positive limits always answers. The
    messages it hands out are distinct, no more than [max_records], fit in
    [max_bytes] by the engine's measure, and are each in flight for the member
    with everything earlier of its key finished; a refusal hands out nothing. *)
Theorem raft_batch_poll_correct kind st request :
  reachable kind st -> state_fits st -> kind_is_metadata kind = false ->
  stream_is_active st (gb_stream request) = true ->
  0 < gb_max_records request -> 0 < gb_max_bytes request ->
  exists r st', apply_group_batch_poll st request kind = Some (r, st') /\
    match r with
    | RGroupBatchPoll messages _ _ =>
      vec_len messages <= gb_max_records request /\
      (messages <> [] -> poll_batch_response_len (gb_stream request) (gb_consumer request)
         (gb_response_member request) messages <= gb_max_bytes request) /\
      NoDup (msg_offset <$> messages) /\
      (forall msg, msg ∈ messages ->
         handed_out st (gb_stream request) (gb_consumer request) (gb_member request) msg st')
    | RGroupBatchPollRecordTooLarge _ | RGroupBatchPollActiveSetLimitExceeded =>
      gc_in_flight (consumer_of st' (gb_stream request, gb_consumer request)) ⊆
      gc_in_flight (consumer_of st (gb_stream request, gb_consumer request))
    | _ => False
    end.
Proof.
  intros Hr Hfit Hkind Hact Hrec Hbytes. pose proof (reachable_wf _ _ Hr) as Hwf.
  pose proof (active_stream _ _ Hact) as Hs.
  destruct (apply_group_batch_poll_outcome st request kind) as (r & st' & Happ & Hout); [done..|].
  exists r, st'. split; [done|].
  pose proof (prepared_wf st (gb_stream request) (gb_consumer request)
    (N.max (st_lease_clock_ms st) (gb_now_ms request)) Hwf Hs) as Hwf0.
  destruct Hout as [st0 existing ss -> Hss -> _|st0 moved st1 -> Hdl|
    st0 moved st1 l complete c' rd -> Hdl Hok _ Hfold].
  - assert (Hms : messages_of st (gb_stream request) = ss_messages ss)
      by (unfold messages_of; by rewrite Hss).
    set (existing := filter _ _). pose proof (existing_response_spec request (ss_messages ss) existing) as Hx.
    destruct (existing_response _ _ _); try done; [|apply live_subset].
    destruct Hx as (H1 & H2 & ->). split_and!; [done|done| |].
    + apply existing_messages_offsets, NoDup_filter_items.
    + intros msg (o & d & m & Hin & Hm & ->)%elem_of_existing_messages.
      apply list_elem_of_filter in Hin as [Hmem Hin%elem_of_btree_items].
      apply handed_out_intro; try done. by rewrite Hms.
  - rewrite (dl_in_flight _ _ _ _ _ _ _ Hdl). apply live_subset.
  - split_and!.
    + unfold pending_messages, vec_len. rewrite length_fmap. apply Hok.
    + intros Hne. unfold poll_batch_response_len, pending_messages in *.
      rewrite <-(bo_sizer _ _ _ _ Hok). apply Hok. intros Hp. apply Hne. by rewrite Hp.
    + unfold pending_messages. rewrite <-list_fmap_compose. apply Hok.
    + intros msg Hin. eapply pending_handed_out; [apply Hdl|by apply Hdl| |done|done|done].
      by rewrite (dead_lettered_messages _ _ _ _ _ _ _ Hdl).
Qed.

Definition example_batch_request (member : string) (now : N) : GroupBatchPollRequest :=
  {| gb_stream := "orders"; gb_consumer := "billing"; gb_member := member;
     gb_response_member := Some member; gb_max_records := 10; gb_max_bytes := 1000;
     gb_token_seed := "t"; gb_now_ms := now; gb_lease_deadline_ms := now + 30;
     gb_max_delivery_attempts := None; gb_legacy_ack_timeout_ms := Some 30;
     gb_policy_version := None; gb_transition_only := false |}.

Lemma raft_batch_poll_correct_witness :
  exists messages complete transitions st',
    apply_group_batch_poll example_state (example_batch_request "m2" 50) Combined =
      Some (RGroupBatchPoll messages complete transitions, st') /\
    (msg_offset <$> messages) = [0; 2] /\
    (forall msg, msg ∈ messages -> handed_out example_state "orders" "billing" "m2" msg st').
Proof.
  destruct (raft_batch_poll_correct Combined example_state (example_batch_request "m2" 50)
    example_reachable example_fits eq_refl) as (r & st' & Happ & Hr);
    [vm_compute; reflexivity|reflexivity|reflexivity|].
  destruct (apply_group_batch_poll example_state (example_batch_request "m2" 50) Combined)
    as [[r' st'']|] eqn:E; [|discriminate]. injection Happ as -> ->.
  assert (Hr' : exists messages complete transitions,
    r = RGroupBatchPoll messages complete transitions /\ (msg_offset <$> messages) = [0; 2]).
  { vm_compute in E. injection E as <- _. eexists _, _, _. split; reflexivity. }
  destruct Hr' as (messages & complete & transitions & -> & Ho).
  exists messages, complete, transitions, st'. split; [done|]. split; [exact Ho|].
  destruct Hr as (_ & _ & _ & Hh). exact Hh.
Defined.

(** ** Acknowledgements *)

(** What an acknowledgement needs, in terms of the consumer before the command:
    an unfinished offset, and either its live delivery to the member, confirmed by
    the token or, for a delivery that does not require a receipt, by an empty one;
    or no live delivery of it, an empty token from the consumer itself, and nothing
    unfinished before it. *)
Definition confirms (st : SnapshotState) (request : GroupAckRequest) : Prop :=
  let c := consumer_of st (ga_stream request, ga_consumer request) in
  let now := N.max (st_lease_clock_ms st) (ga_now_ms request) in
  ~ group_done c (ga_offset request) /\
  ((exists d, gc_in_flight c !! ga_offset request = Some d /\ now < gd_deadline_ms d /\
      gd_member d = ga_member request /\
      (ga_delivery_token request = gd_delivery_token d \/
       ga_delivery_token request = "" /\ gd_requires_receipt d = false)) \/
   (forall d, gc_in_flight c !! ga_offset request = Some d -> gd_deadline_ms d <= now) /\
   ga_delivery_token request = "" /\ ga_member request = ga_consumer request /\
   (forall o, o < ga_offset request -> group_done c o)).

(** The committed offset is the first unfinished one. *)
Lemma committed_first messages c o :
  group_wf messages c -> ~ group_done c o ->
  o = gc_committed_offset c <-> (forall o', o' < o -> group_done c o').
Proof.
  intros Hwf Hnd. split; [intros -> o' Hlt; by left|]. intros Hall.
  destruct (N.lt_trichotomy o (gc_committed_offset c)) as [Hlt|[?|Hlt]]; [|done|].
  - destruct Hnd. by left.
  - destruct (Hall _ Hlt) as [?|Ha%(gw_acknowledged _ _ Hwf)]; lia.
Qed.

Lemma consumer_of_put st key c : consumer_of (put_consumer st key c) key = c.
Proof. unfold consumer_of. cbn. by rewrite lookup_insert_eq. Qed.

Lemma confirms_accepted st request :
  snapshot_wf st ->
  ack_accepted (consumer_of (prepared st (ga_stream request) (ga_consumer request)
    (N.max (st_lease_clock_ms st) (ga_now_ms request))) (ga_stream request, ga_consumer request))
    request <-> confirms st request.
Proof.
  intros Hwf. pose proof (consumer_of_wf st (ga_stream request) (ga_consumer request) Hwf) as Hc.
  rewrite prepared_consumer. unfold ack_accepted, confirms. cbv zeta.
  set (c := consumer_of st _) in *. set (now := N.max _ _).
  change (group_done (expired_consumer c now)) with (group_done c).
  change (gc_committed_offset (expired_consumer c now)) with (gc_committed_offset c).
  destruct (decide (group_done c (ga_offset request))) as [?|Hnd]; [tauto|].
  apply and_iff_compat_l. rewrite <-(committed_first _ _ _ Hc Hnd).
  destruct (gc_in_flight (expired_consumer c now) !! ga_offset request) as [d|] eqn:Hd.
  - apply lookup_live in Hd as [Hd Hlive%N.leb_gt].
    split.
    + intros [Hm Ht]. left. exists d. split_and!; try done.
      destruct (gd_requires_receipt d); [left; symmetry; apply Ht; by left|].
      destruct (decide (ga_delivery_token request = "")); [by right|left; symmetry; apply Ht; by right].
    + intros [(d' & Hd' & _ & Hm & Ht)|(Hn & _)]; [|apply Hn in Hd; lia].
      rewrite Hd in Hd'. injection Hd' as <-. split; [done|].
      intros Hreq. destruct Ht as [Ht|[Ht Hrr]]; [done|]. rewrite Hrr in Hreq. by destruct Hreq.
  - rewrite lookup_live_None in Hd. unfold lease_expired in Hd. setoid_rewrite N.leb_le in Hd.
    split; [naive_solver|]. intros [(d & Hd' & Hlive & _)|?]; [|naive_solver].
    apply Hd in Hd'. lia.
Qed.

(** C22: A single acknowledgement is exact. It is accepted exactly when the offset is
    unfinished and either the member holds its live delivery and sends that
    delivery's token (an empty token will do for a delivery that needs no
    receipt), or no live delivery of it exists, the consumer itself sends an empty
    token, and nothing before the offset is unfinished. The second case is wider
    than the engine interface says: it takes a delivery of a batch poll whose lease
    has lapsed, and an offset that was never delivered. Acceptance finishes that
    offset and no other and ends its delivery; a refusal finishes nothing and says
    whether the offset is already finished, was delivered before, or never was. *)
Theorem raft_ack_exact kind st request :
  reachable kind st -> state_fits st -> kind_is_metadata kind = false ->
  stream_is_active st (ga_stream request) = true -> ga_offset request < u64_max ->
  let key := (ga_stream request, ga_consumer request) in
  exists r st', apply_group_ack st request kind = Some (r, st') /\
    (r = RGroupAcknowledged <-> confirms st request) /\
    (forall o, group_done (consumer_of st' key) o <->
       group_done (consumer_of st key) o \/ (r = RGroupAcknowledged /\ o = ga_offset request)) /\
    (r = RGroupAcknowledged -> gc_in_flight (consumer_of st' key) !! ga_offset request = None) /\
    (r <> RGroupAcknowledged ->
     r = (if decide (group_done (consumer_of st key) (ga_offset request)) then
            RGroupAlreadyAcknowledged
          else if decide (is_Some (gc_delivery_attempts (consumer_of st key) !! ga_offset request))
          then RGroupStaleDelivery (ga_consumer request) (ga_offset request)
          else RGroupAckNotInFlight (ga_consumer request) (ga_offset request))).
Proof.
  intros Hr Hfit Hkind Hact Hlt key. pose proof (reachable_wf _ _ Hr) as Hwf.
  pose proof (active_stream _ _ Hact) as Hs.
  pose proof (prepared_wf st (ga_stream request) (ga_consumer request)
    (N.max (st_lease_clock_ms st) (ga_now_ms request)) Hwf Hs) as Hwf0.
  destruct (apply_group_ack_outcome st request kind Hwf Hkind Hact) as (r & st' & Happ & Hout).
  exists r, st'. split; [done|]. rewrite <-(confirms_accepted st request Hwf).
  destruct Hout as [r c Hno Hresp|c Hyes]; subst c.
  - assert (r <> RGroupAcknowledged) by (rewrite Hresp; repeat case_decide; done).
    rewrite prepared_consumer in Hresp. split_and!; [naive_solver| |done|done].
    intros o. unfold key. rewrite prepared_consumer.
    change (group_done (expired_consumer ?c ?now)) with (group_done c). naive_solver.
  - pose proof (consumer_of_wf _ (ga_stream request) (ga_consumer request) Hwf0) as Hc.
    pose proof (ack_step_spec _ _ _ Hc (Hfit _) (proj1 Hyes)) as Hack.
    split_and!; [done| | |done]; unfold key; rewrite consumer_of_put.
    + intros o. rewrite (as_done _ _ _ Hack) by done. rewrite prepared_consumer.
      change (group_done (expired_consumer ?c ?now)) with (group_done c). naive_solver.
    + intros _. rewrite (as_in_flight _ _ _ Hack). apply lookup_delete_eq.
Qed.

Definition example_ack (member : string) (offset : Offset) (token : string) (now : N) :
  GroupAckRequest :=
  {| ga_stream := "orders"; ga_consumer := "billing"; ga_member := member; ga_offset := offset;
     ga_delivery_token := token; ga_now_ms := now |}.

Lemma raft_ack_exact_witness :
  exists r st', apply_group_ack example_state (example_ack "m1" 0 "raft-1-1-5" 20) Combined =
    Some (r, st') /\ r = RGroupAcknowledged /\
    (forall o, group_done (consumer_of st' ("orders", "billing")) o <->
       group_done example_consumer o \/ (r = RGroupAcknowledged /\ o = 0)).
Proof.
  destruct (raft_ack_exact Combined example_state (example_ack "m1" 0 "raft-1-1-5" 20)
    example_reachable example_fits eq_refl) as (r & st' & Happ & _ & Hdone & _);
    [vm_compute; reflexivity|reflexivity|].
  exists r, st'. split; [exact Happ|]. split; [|exact Hdone].
  vm_compute in Happ. injection Happ as <- _. reflexivity.
Defined.

(** C24: A lapsed lease is fenced. Once the replicated clock has reached the
    deadline of a delivery, an acknowledgement that carries a receipt is refused
    as stale, whatever the receipt, and the message stays unfinished, so that it
    is delivered again. *)
Theorem raft_lease_fencing kind st request c d :
  reachable kind st -> kind_is_metadata kind = false ->
  stream_is_active st (ga_stream request) = true ->
  st_group_consumers st !! (ga_stream request, ga_consumer request) = Some c ->
  gc_in_flight c !! ga_offset request = Some d ->
  gd_deadline_ms d <= N.max (st_lease_clock_ms st) (ga_now_ms request) ->
  ga_delivery_token request <> "" ->
  exists st', apply_group_ack st request kind =
      Some (RGroupStaleDelivery (ga_consumer request) (ga_offset request), st') /\
    ~ group_done (consumer_of st' (ga_stream request, ga_consumer request)) (ga_offset request) /\
    gc_in_flight (consumer_of st' (ga_stream request, ga_consumer request)) !! ga_offset request =
      None.
Proof.
  intros Hr Hkind Hact Hc Hif Hexp Htok. pose proof (reachable_wf _ _ Hr) as Hwf.
  destruct (sw_group _ Hwf _ _ _ Hc) as [_ Hcw].
  destruct (gw_in_flight _ _ Hcw _ _ Hif) as [Ha _].
  assert (Hnd : ~ group_done c (ga_offset request)) by (apply (gw_attempted _ _ Hcw); eauto).
  destruct (apply_group_ack_outcome st request kind Hwf Hkind Hact) as (r & st' & Happ & Hout).
  assert (Hc0 : consumer_of (prepared st (ga_stream request) (ga_consumer request)
    (N.max (st_lease_clock_ms st) (ga_now_ms request))) (ga_stream request, ga_consumer request) =
    expired_consumer c (N.max (st_lease_clock_ms st) (ga_now_ms request))).
  { rewrite prepared_consumer. unfold consumer_of. by rewrite Hc. }
  assert (Hif0 : gc_in_flight (expired_consumer c (N.max (st_lease_clock_ms st)
    (ga_now_ms request))) !! ga_offset request = None).
  { apply lookup_live_None. intros d' Hd'. rewrite Hif in Hd'. injection Hd' as <-.
    by apply N.leb_le. }
  destruct Hout as [r c' _ Hresp|c' [_ Hacc]]; subst c'.
  - rewrite Hc0 in Hresp. rewrite decide_False in Hresp by done.
    rewrite decide_True in Hresp by (cbn; eauto). exists (prepared st (ga_stream request)
      (ga_consumer request) (N.max (st_lease_clock_ms st) (ga_now_ms request))).
    rewrite Hc0. subst r. split_and!; done.
  - rewrite Hc0, Hif0 in Hacc. by destruct Hacc as [? _].
Qed.

Lemma raft_lease_fencing_witness :
  exists st', apply_group_ack example_state (example_ack "m1" 0 "raft-1-1-5" 40) Combined =
      Some (RGroupStaleDelivery "billing" 0, st') /\
    ~ group_done (consumer_of st' ("orders", "billing")) 0 /\
    gc_in_flight (consumer_of st' ("orders", "billing")) !! 0 = None.
Proof.
  apply (raft_lease_fencing Combined example_state (example_ack "m1" 0 "raft-1-1-5" 40)
    example_consumer example_delivery example_reachable eq_refl);
    [vm_compute; reflexivity..|vm_compute; discriminate|discriminate].
Defined.

(** C23: A batch acknowledgement is exact. Each receipt is judged against the
    consumer as it was before the batch, a receipt is confirmed exactly when the
    member holds that delivery under that token, and the offsets that become
    finished are exactly those of the confirmed receipts. *)
Theorem raft_batch_ack_exact kind st request :
  reachable kind st -> state_fits st -> kind_is_metadata kind = false ->
  stream_is_active st (gba_stream request) = true ->
  validate_ack_batch_receipts (gba_receipts request) = Ok tt ->
  let key := (gba_stream request, gba_consumer request) in
  let st0 := prepared st (gba_stream request) (gba_consumer request)
               (N.max (st_lease_clock_ms st) (gba_now_ms request)) in
  exists outcomes st', apply_group_batch_ack st request kind =
      Some (RGroupBatchAcknowledged outcomes, st') /\
    (abi_offset <$> outcomes) = (dr_offset <$> gba_receipts request) /\
    (forall receipt, receipt ∈ gba_receipts request ->
       ({| abi_offset := dr_offset receipt; abi_outcome := Confirmed |} ∈ outcomes <->
        dr_delivery_token receipt <> "" /\
        exists d, gc_in_flight (consumer_of st0 key) !! dr_offset receipt = Some d /\
          gd_member d = gba_member request /\
          gd_delivery_token d = dr_delivery_token receipt)) /\
    (forall o, group_done (consumer_of st' key) o <-> group_done (consumer_of st key) o \/
       {| abi_offset := o; abi_outcome := Confirmed |} ∈ outcomes).
Proof.
  intros Hr Hfit Hkind Hact Hval key st0. pose proof (reachable_wf _ _ Hr) as Hwf.
  pose proof (active_stream _ _ Hact) as Hs.
  pose proof (valid_receipts_distinct _ Hval) as Hnd.
  destruct (apply_group_batch_ack_outcome st request kind Hwf (Hfit _) Hkind Hact Hnd)
    as (c' & Happ & _ & Hdone & _). fold st0 in Happ, Hdone. fold key in Happ, Hdone.
  pose proof (consumer_of_wf st0 (gba_stream request) (gba_consumer request)
    (prepared_wf _ _ _ _ Hwf Hs)) as Hc. fold key in Hc.
  eexists _, _. split; [exact Happ|].
  assert (Hconf : forall o, {| abi_offset := o; abi_outcome := Confirmed |} ∈ ((fun receipt =>
    {| abi_offset := dr_offset receipt; abi_outcome := receipt_outcome (consumer_of st0 key)
       (gba_member request) receipt |}) <$> gba_receipts request) <->
    exists receipt, receipt ∈ gba_receipts request /\ dr_offset receipt = o /\
      receipt_outcome (consumer_of st0 key) (gba_member request) receipt = Confirmed).
  { intros o. rewrite list_elem_of_fmap. split.
    - intros (receipt & [= -> Hro] & Hin). eauto.
    - intros (receipt & Hin & <- & Hro). exists receipt. by rewrite Hro. }
  split_and!.
  - by rewrite <-list_fmap_compose.
  - intros receipt Hin. rewrite Hconf. split.
    + intros (receipt' & Hin' & Ho & (_ & Ht & Hd)%receipt_confirmed_in_flight).
      assert (receipt' = receipt) as -> by (by eapply (NoDup_fmap_inj dr_offset)). done.
    + intros [Ht (d & Hd & Hm & Htk)]. exists receipt. split_and!; [done..|].
      apply receipt_confirmed_in_flight. split_and!; [|done|eauto].
      apply (gw_in_flight _ _ Hc) in Hd as [Ha _]. apply (gw_attempted _ _ Hc). rewrite Ha. eauto.
  - intros o. unfold consumer_of at 1. cbn. rewrite lookup_insert_eq. cbn. rewrite Hdone, Hconf.
    unfold st0 at 1, key at 1. by rewrite prepared_consumer.
Qed.

Definition example_batch_ack : GroupBatchAckRequest :=
  {| gba_stream := "orders"; gba_consumer := "billing"; gba_member := "m1";
     gba_receipts := [{| dr_offset := 0; dr_delivery_token := "raft-1-1-5" |};
                      {| dr_offset := 1; dr_delivery_token := "other" |}];
     gba_now_ms := 20 |}.

Lemma raft_batch_ack_exact_witness :
  exists outcomes st', apply_group_batch_ack example_state example_batch_ack Combined =
      Some (RGroupBatchAcknowledged outcomes, st') /\
    (abi_outcome <$> outcomes) = [Confirmed; ReceiptRejected NotInFlight] /\
    (forall o, group_done (consumer_of st' ("orders", "billing")) o <->
       group_done example_consumer o \/
       {| abi_offset := o; abi_outcome := Confirmed |} ∈ outcomes).
Proof.
  destruct (raft_batch_ack_exact Combined example_state example_batch_ack example_reachable
    example_fits eq_refl) as (outcomes & st' & Happ & _ & _ & Hdone);
    [vm_compute; reflexivity|vm_compute; reflexivity|].
  exists outcomes, st'. split; [exact Happ|]. split; [|exact Hdone].
  vm_compute in Happ. injection Happ as <- _. reflexivity.
Defined.

(** ** Publishing *)

(** States that follow [st] by applying valid commands. *)
Inductive later (kind : GroupKind) (st : SnapshotState) : SnapshotState -> Prop :=
| later_refl : later kind st st
| later_apply st1 command log_id r st2 :
    later kind st st1 -> state_fits st1 -> command_valid command ->
    apply_command st1 command kind log_id = Some (r, st2) -> later kind st st2.

(** A request id is known in [st] for the content [key], [payload] at [o]. *)
Definition request_known (st : SnapshotState) (s id : string) (key : option string)
  (payload : list byte) (o : Offset) : Prop :=
  dedup_offset st s (Some id) = Some o /\
  exists m, vec_get (messages_of st s) o = Some m /\ key_bytes (sm_key m) = key_bytes key /\
    sm_payload m = payload.

Lemma stored_in_stream st s o m :
  vec_get (messages_of st s) o = Some m ->
  exists ss, st_streams st !! s = Some ss /\ vec_get (ss_messages ss) o = Some m.
Proof.
  unfold messages_of. destruct (st_streams st !! s) as [ss|]; cbn; [eauto|].
  intros H%vec_get_lt. unfold vec_len in H. cbn in H. lia.
Qed.

Lemma known_step kind st command log_id r st' s id key payload o :
  snapshot_wf st -> state_fits st -> command_valid command ->
  apply_command st command kind log_id = Some (r, st') ->
  request_known st s id key payload o -> snapshot_wf st' /\ request_known st' s id key payload o.
Proof.
  intros Hwf Hfit Hval Happ [Hd (m & Hm & Hk)].
  destruct (apply_command_steps st command kind log_id Hwf Hfit Hval) as (r' & st'' & Heq & Hstep).
  rewrite Happ in Heq. injection Heq as <- <-. split; [apply Hstep|].
  split; [by apply (cst_dedup _ _ _ _ Hstep)|]. exists m. split; [|done].
  destruct (stored_in_stream st s o m Hm) as (ss & E & _).
  destruct (cst_streams _ _ _ _ Hstep s) as [_ [more ->]]; [rewrite E; eauto|].
  by apply vec_get_app_l.
Qed.

Lemma known_later kind st st' s id key payload o :
  snapshot_wf st -> later kind st st' -> request_known st s id key payload o ->
  snapshot_wf st' /\ request_known st' s id key payload o.
Proof.
  intros Hwf Hl Hk. induction Hl as [|st1 command log_id r st2 _ [Hw1 Hk1] Hfit Hval Happ]; [done|].
  by eapply known_step.
Qed.

Lemma publish_known st s key payload t id kind o st1 :
  apply_publish st s key payload t (Some id) kind = (RPublished o, st1) ->
  request_known st1 s id key payload o.
Proof.
  unfold apply_publish. destruct (kind_is_metadata kind); [done|].
  destruct (dedup_offset st s (Some id)) as [o'|] eqn:Hd.
  - destruct (_ ← _; _) as [m|] eqn:Hm; [|done]. destruct (_ || _) eqn:E; [done|].
    intros [= <- <-]. apply orb_false_iff in E as [E1%negb_false_iff E2%negb_false_iff].
    apply bool_decide_eq_true_1 in E1, E2. split; [done|]. exists m. split_and!; [|done|done].
    apply bind_Some in Hm as (ss & Hs & Hm). unfold messages_of. by rewrite Hs.
  - destruct (stream_identity s) as [sid gid]. destruct (is_active _); [|done]. cbn [negb].
    intros [= <- <-]. split.
    + unfold dedup_offset. cbn. rewrite lookup_insert_eq. cbn. by rewrite lookup_insert_eq.
    + exists {| sm_key := key; sm_payload := payload; sm_published_at_ms := t |}.
      split_and!; [|done|done]. unfold messages_of. cbn. rewrite lookup_insert_eq. cbn.
      apply vec_get_snoc.
Qed.

Lemma publish_again st s id key payload o key' payload' t kind :
  kind_is_metadata kind = false -> request_known st s id key payload o ->
  apply_publish st s key' payload' t (Some id) kind =
  (if decide (key_bytes key' = key_bytes key /\ payload' = payload)
   then RPublished o else RRequestIdContentConflict, st).
Proof.
  intros Hk [Hd (m & Hm & Hkm & Hpm)]. unfold apply_publish. rewrite Hk, Hd.
  destruct (stored_in_stream st s o m Hm) as (ss & -> & Hm'). step_bind.
  rewrite Hm', Hkm, Hpm.
  repeat case_bool_decide; cbn; case_decide; naive_solver.
Qed.

(** C25: Publishing is idempotent. Once a publish with a request id was accepted at
    an offset, then after any further commands the same id with the same content
    answers that offset again, the same id with other content is refused, and in
    both cases nothing is stored. *)
Theorem raft_publish_idempotent kind st s key payload t id o st1 st2 key' payload' t' :
  reachable kind st -> state_fits st -> kind_is_metadata kind = false ->
  apply_publish st s key payload t (Some id) kind = (RPublished o, st1) ->
  later kind st1 st2 ->
  apply_publish st2 s key' payload' t' (Some id) kind =
  (if decide (key_bytes key' = key_bytes key /\ payload' = payload)
   then RPublished o else RRequestIdContentConflict, st2).
Proof.
  intros Hr Hfit Hk Hp Hl. apply publish_again; [done|].
  eapply (known_later kind st1); [|done|by eapply publish_known].
  apply (reachable_wf kind). eapply (reach_apply _ st (Publish s key payload t (Some id)) "");
    [done|done|done|]. cbn. by rewrite Hp.
Qed.

Lemma raft_publish_idempotent_witness :
  let first := apply_publish example_state "orders" (Some "eu") [Byte.x64] 5 (Some "r2") Combined in
  apply_publish first.2 "orders" (Some "eu") [Byte.x65] 6 (Some "r2") Combined =
  (RRequestIdContentConflict, first.2).
Proof.
  intros first.
  rewrite (raft_publish_idempotent Combined example_state "orders" (Some "eu") [Byte.x64] 5 "r2" 3
    first.2 first.2); [|apply example_reachable|apply example_fits|reflexivity| |constructor].
  - rewrite decide_False by (intros [_ ?]; discriminate). reflexivity.
  - vm_compute. reflexivity.
Defined.

(** ** Where the handlers depart from their contract *)

(** The responses of a log of commands. *)
Definition responses (log : list (Command * string)) : list CommandResponse :=
  from_option fst [] (run Combined snapshot_default log).

(** A large and a small message; the delivery of the large one has expired and
    waits for its retry delay. *)
Definition waiting_log : list (Command * string) :=
  [(CreateStream "orders" None None, "1-1-1");
   (ConfigureConsumer "orders" "billing" 30 None 1000, "1-1-2");
   (Publish "orders" (Some "eu") (repeat Byte.x61 200) 1 None, "1-1-3");
   (Publish "orders" (Some "us") [Byte.x62] 1 None, "1-1-4");
   (PollGroup "orders" "billing" "m1" None 1000 10 40 None None (Some 1), "1-1-5")].

Definition waiting_poll (max_response_bytes : N) : Command :=
  PollGroup "orders" "billing" "m2" None max_response_bytes 50 80 None None (Some 1).

(**  The size check of a poll measures a message that the poll would not
    deliver. With a large message waiting for its retry delay, a poll limited to
    100 bytes is refused as too large, although the message it would hand out
    (the one a poll with a larger limit returns) fits in that limit. *)
Theorem poll_size_check_ignores_retry_delay :
  exists msg,
    drop 5 (responses (waiting_log ++ [(waiting_poll 100, "1-1-6")])) =
      [RGroupPollResponseTooLarge 100] /\
    drop 5 (responses (waiting_log ++ [(waiting_poll 1000, "1-1-6")])) =
      [RGroupPoll (PollMessage msg)] /\
    msg_offset msg = 1 /\ poll_message_response_upper_bound msg "billing" None false <= 100.
Proof.
  eexists. split; [vm_compute; reflexivity|]. split; [vm_compute; reflexivity|].
  split; [reflexivity|]. vm_compute. discriminate.
Qed.

(**  Configuring a consumer forgets its older progress. A consumer that
    acknowledged offset 0 with the older acknowledgement command polls nothing;
    if a policy is configured before that poll, offset 0 is delivered again. *)
Theorem configure_forgets_acknowledged_offset :
  let acknowledged :=
    [(CreateStream "orders" None None, "1-1-1");
     (Publish "orders" None [Byte.x61] 1 None, "1-1-2");
     (Ack "orders" "billing" 0, "1-1-3")] in
  exists msg,
    drop 3 (responses (acknowledged ++ [(example_poll "billing" 1000 10, "1-1-4")])) =
      [RGroupPoll PollEmpty] /\
    drop 4 (responses (acknowledged ++
      [(ConfigureConsumer "orders" "billing" 30 None 0, "1-1-4");
       (example_poll "billing" 1000 10, "1-1-5")])) = [RGroupPoll (PollMessage msg)] /\
    msg_offset msg = 0.
Proof.
  eexists. split; [vm_compute; reflexivity|]. split; [vm_compute; reflexivity|reflexivity].
Qed.
