(* ===== verification/RaftPreview.v ===== *)
(** The read-only preview of a batch poll ([preview_group_batch] of delivery.rs)
    gives the answer that the replicated poll gives.

    The preview keeps the consumer as it is and tracks the offsets that would go
    to the dead-letter stream in a set; the poll changes the state at each step.
    [preview_sim] relates the two, and both loops keep it. *)

From S2P Require Import Prelude Engine RecordFormat Names RaftState RaftDelivery RaftInvariant RaftHandlers RaftBatch RaftStateMachine RaftGuarantees.

Local Open Scope N_scope.

(** ** The committed offset of the preview *)

Lemma advance_preview_spec fuel committed c terminal :
  (size (filter (fun o => (committed <= o)%N) (gc_acknowledged_offsets c ∪ terminal)) <= fuel)%nat ->
  (forall o, o ∈ gc_acknowledged_offsets c ∪ terminal -> o < u64_max) ->
  let e := advance_preview_committed_offset fuel committed (Some c) terminal in
  committed <= e /\
  (forall o, committed <= o < e -> o ∈ gc_acknowledged_offsets c ∪ terminal).
Proof.
  revert committed. induction fuel as [|fuel IH]; intros committed Hsz Hmax;
    cbn [advance_preview_committed_offset is_some_and].
  - cbn. split; [lia|]. intros o Ho. lia.
  - destruct (negb _ && negb _) eqn:E; [split; [lia|]; intros o Ho; lia|].
    assert (Hin : committed ∈ gc_acknowledged_offsets c ∪ terminal).
    { apply andb_false_iff in E as [E|E]; apply negb_false_iff, bool_decide_eq_true_1 in E; set_solver. }
    unfold u64_checked_add. pose proof (Hmax _ Hin). rewrite (proj2 (N.leb_le _ _)) by lia.
    destruct (IH (committed + 1)) as [H1 H2]; [|done|].
    + set (U := gc_acknowledged_offsets c ∪ terminal) in *.
      assert (Hsub : filter (fun o => committed + 1 <= o) U ⊂ filter (fun o => committed <= o) U).
      { split; [intros o; rewrite !elem_of_filter; intros [? ?]; split; [lia|done]|].
        intros Hc. specialize (Hc committed). rewrite !elem_of_filter in Hc.
        destruct Hc as [? _]; [split; [lia|done]|]. lia. }
      apply subset_size in Hsub. lia.
    + split; [lia|]. intros o Ho. destruct (decide (o = committed)) as [->|]; [done|].
      apply H2. lia.
Qed.

(** The fuel given by [preview_fuel] suffices. *)
Lemma advance_preview_ge committed c terminal o :
  (forall o, o ∈ gc_acknowledged_offsets c ∪ terminal -> o < u64_max) ->
  o ∉ gc_acknowledged_offsets c -> o ∉ terminal ->
  advance_preview_committed_offset (preview_fuel (Some c) terminal) committed (Some c) terminal <= o
  <-> committed <= o.
Proof.
  intros Hmax Ha Ht. unfold preview_fuel. cbn [from_option].
  destruct (advance_preview_spec (size (gc_acknowledged_offsets c) + size terminal) committed c
    terminal) as [H1 H2]; [|done|].
  - etrans; [apply subseteq_size; intros x Hx; by apply elem_of_filter in Hx as [_ ?]|]. rewrite size_union_alt.
    assert (size (terminal ∖ gc_acknowledged_offsets c) <= size terminal)%nat; [|lia].
    apply subseteq_size. set_solver.
  - split; [lia|]. intros Hle. apply N.nlt_ge. intros Hlt. specialize (H2 o). set_solver.
Qed.

(** ** The retry filter of the preview *)

(** An expired delivery that the poll would put on a retry delay. *)
Definition will_retry (c : GroupConsumerState) (now_ms : N) (o : Offset) (d : GroupDelivery) : Prop :=
  gc_in_flight c !! o = Some d /\ is_Some (expiry_schedule c now_ms o d).

Lemma preview_expired_spec messages c now legacy version offsets keys o d :
  group_wf messages c -> gc_in_flight c !! o = Some d ->
  preview_expired now legacy version c (offsets, keys) (o, d) =
  Some (if decide (is_Some (expiry_schedule c now o d))
        then ({[o]} ∪ offsets, match gd_key d with Some key => {[key]} ∪ keys | None => keys end)
        else (offsets, keys)).
Proof.
  intros Hwf Ho. destruct (group_wf_expirable _ _ _ _ Hwf Ho) as [Hr (a & p & Ha & Hpos & Hp)].
  unfold preview_expired, expiry_schedule. rewrite Hr, Ha, Hp.
  rewrite (bool_decide_eq_false_2 (is_Some (@None GroupRetrySchedule))) by (by intros [? ?]).
  rewrite orb_false_r. destruct (lease_expired _ _); cbn [negb];
    [|rewrite decide_False; [done|by intros [? ?]]].
  change (default 0 (Some a)) with a. rewrite (group_policy_pinned _ _ _ _ _ p) by done.
  step_bind. rewrite (orb_comm (_ =? 0)).
  destruct (_ || _); [rewrite decide_False; [done|by intros [? ?]]|].
  rewrite decide_True; [done|eauto].
Qed.

Lemma preview_retry_filter_spec messages c now legacy version l offsets keys :
  group_wf messages c -> (forall o d, (o, d) ∈ l -> gc_in_flight c !! o = Some d) ->
  exists offsets' keys',
    preview_retry_filter now legacy version c (offsets, keys) l = Some (offsets', keys') /\
    (forall o, o ∈ offsets' <-> o ∈ offsets \/
       exists d, (o, d) ∈ l /\ is_Some (expiry_schedule c now o d)) /\
    (forall k, k ∈ keys' <-> k ∈ keys \/
       exists o d, (o, d) ∈ l /\ is_Some (expiry_schedule c now o d) /\ gd_key d = Some k).
Proof.
  intros Hwf. revert offsets keys. induction l as [|[o d] l IH]; intros offsets keys Hl;
    cbn [preview_retry_filter].
  - exists offsets, keys. split_and!; [done|set_solver|set_solver].
  - rewrite (preview_expired_spec messages) by (done || (apply Hl; by left)).
    step_bind. case_decide as Hs.
    + destruct (IH ({[o]} ∪ offsets) (match gd_key d with Some key => {[key]} ∪ keys | None => keys end))
        as (offsets' & keys' & Heq & H1 & H2); [intros; apply Hl; by right|].
      exists offsets', keys'. split_and!; [done| |]; intros x; rewrite ?H1, ?H2;
        setoid_rewrite elem_of_cons; clear -Hs.
      * rewrite elem_of_union, elem_of_singleton. naive_solver.
      * destruct (gd_key d) eqn:E; rewrite ?elem_of_union, ?elem_of_singleton; naive_solver.
    + destruct (IH offsets keys) as (offsets' & keys' & Heq & H1 & H2);
        [intros; apply Hl; by right|].
      exists offsets', keys'. split_and!; [done| |]; intros x; rewrite ?H1, ?H2;
        setoid_rewrite elem_of_cons; clear -Hs; naive_solver.
Qed.

Lemma expiry_schedule_pending c now o d s :
  now < u64_max -> expiry_schedule c now o d = Some s ->
  now < grs_retry_not_before_ms s /\ grs_key s = gd_key d.
Proof.
  intros Hnow. unfold expiry_schedule. destruct (lease_expired _ _); [|done].
  intros (a & _ & H)%bind_Some. apply bind_Some in H as (p & _ & H).
  destruct (_ || _) eqn:E; [done|]. injection H as <-. cbn.
  apply orb_false_iff in E as [_ E%N.eqb_neq]. unfold u64_saturating_add, saturating_add. split; [lia|done].
Qed.

Lemma expired_retry_pending messages c now o s :
  group_wf messages c -> now < u64_max ->
  retry_pending (expired_consumer c now) now o s <->
  retry_pending c now o s \/
  exists d, gc_in_flight c !! o = Some d /\ expiry_schedule c now o d = Some s.
Proof.
  intros Hwf Hnow. unfold retry_pending. cbn.
  rewrite lookup_union_Some_raw, map_lookup_imap. split.
  - intros [[Hs|[_ Hs]] Hlt]; [by left|right]. apply bind_Some in Hs as (d & Hd & Hs). eauto.
  - intros [[Hs Hlt]|(d & Hd & Hs)]; [split; [by left|done]|].
    split; [|by apply expiry_schedule_pending in Hs as [? _]]. right.
    destruct (group_wf_expirable _ _ _ _ Hwf Hd) as [Hr _]. split; [done|]. by rewrite Hd.
Qed.

(** The retry filter of the preview is the one the poll computes after it has
    observed the expired deliveries. *)
Lemma preview_filter_eq messages c now legacy version :
  group_wf messages c -> now < u64_max ->
  exists ro rk,
    preview_retry_filter now legacy version c (retry_filter c now) (btree_items (gc_in_flight c)) =
      Some (ro, rk) /\
    (forall o, o ∈ ro <-> exists s, retry_pending (expired_consumer c now) now o s) /\
    (forall k, k ∈ rk <-> exists o s, retry_pending (expired_consumer c now) now o s /\ grs_key s = Some k).
Proof.
  intros Hwf Hnow. destruct (retry_filter_spec c now) as [F1 F2].
  destruct (retry_filter c now) as [offsets keys]. cbn in F1, F2.
  destruct (preview_retry_filter_spec messages c now legacy version (btree_items (gc_in_flight c))
    offsets keys Hwf) as (ro & rk & Heq & H1 & H2);
    [intros o d Hin; by apply elem_of_btree_items|].
  exists ro, rk. split; [done|].
  setoid_rewrite (expired_retry_pending messages c now); [|done..].
  setoid_rewrite elem_of_btree_items in H1. setoid_rewrite elem_of_btree_items in H2.
  split; [intros o; rewrite H1, F1|intros k; rewrite H2, F2].
  - unfold is_Some. naive_solver.
  - split.
    + intros [(o & s & Hs & Hk)|(o & d & Hd & [s Hs] & Hk)]; [eauto|].
      exists o, s. split; [eauto|]. apply expiry_schedule_pending in Hs as [_ ->]; done.
    + intros (o & s & [Hs|(d & Hd & Hs)] & Hk); [eauto|]. right. exists o, d.
      split_and!; [done|eauto|]. apply expiry_schedule_pending in Hs as [_ Hks]; congruence.
Qed.

(** ** The relation between the two loops *)

Section sim.
Context (request : GroupBatchPollRequest) (now : N) (legacy : ConsumerPolicy).
Context (messages : list StoredMessage) (c0 : GroupConsumerState).
Context (ro : gset Offset) (rk : gset string).
Hypothesis wf0 : group_wf messages c0.
Hypothesis len0 : vec_len messages <= u64_max.
Hypothesis ro_spec : forall o,
  o ∈ ro <-> exists s, retry_pending (expired_consumer c0 now) now o s.
Hypothesis rk_spec : forall k,
  k ∈ rk <-> exists o s, retry_pending (expired_consumer c0 now) now o s /\ grs_key s = Some k.

Let key := (gb_stream request, gb_consumer request).

Record preview_sim (st : SnapshotState) (l : BatchLocals) (pl : PreviewLocals) : Prop := {
  ps_done : forall o, group_done (consumer_of st key) o <->
    group_done c0 o \/ o ∈ pl_terminal_offsets pl;
  ps_terminal : forall o, o ∈ pl_terminal_offsets pl -> o < vec_len messages;
  ps_in_flight : gc_in_flight (consumer_of st key) = gc_in_flight (expired_consumer c0 now);
  ps_policy : gc_policy (consumer_of st key) = gc_policy c0;
  ps_attempts : forall o, o ∉ pl_terminal_offsets pl ->
    gc_delivery_attempts (consumer_of st key) !! o = gc_delivery_attempts c0 !! o;
  ps_policies : forall o, o ∉ pl_terminal_offsets pl ->
    gc_delivery_policies (consumer_of st key) !! o = gc_delivery_policies c0 !! o;
  ps_retry : forall o s, retry_pending (consumer_of st key) now o s <->
    retry_pending (expired_consumer c0 now) now o s;
  ps_offsets : pl_selected_offsets pl = bl_selected_offsets l;
  ps_keys : pl_selected_keys pl = bl_selected_keys l;
  ps_messages : pl_messages pl = pending_messages l;
  ps_sizer : pl_sizer pl = bl_sizer l;
  ps_stopped : pl_stopped_at_byte_limit pl = bl_stopped_at_byte_limit l;
  ps_transitions : pl_terminal_transitions pl = bl_terminal_transitions l;
}.

(** The test of the preview, as a proposition. *)
Lemma preview_eligible_true terminal so sk o m :
  preview_eligible (Some c0) now ro rk terminal so sk (o, m) = true <->
  (o ∉ gc_acknowledged_offsets c0) /\ (o ∉ terminal) /\ (o ∉ so) /\ (o ∉ ro) /\
  gc_in_flight (expired_consumer c0 now) !! o = None /\
  (forall k, sm_key m = Some k -> (k ∉ sk) /\ (k ∉ rk) /\
     forall o' d, gc_in_flight (expired_consumer c0 now) !! o' = Some d -> gd_key d <> Some k).
Proof.
  unfold preview_eligible. cbn [is_some_and]. rewrite lookup_live_None.
  assert (Hlive : is_some_and (fun d => negb (lease_expired (gd_deadline_ms d) now))
    (gc_in_flight c0 !! o) = true <->
    ~ (forall d, gc_in_flight c0 !! o = Some d -> lease_expired (gd_deadline_ms d) now = true)).
  { destruct (gc_in_flight c0 !! o) as [d|]; cbn; [|split; [done|]; intros []; done].
    destruct (lease_expired (gd_deadline_ms d) now) eqn:E; cbn; (split; [|done || intros []]); try done.
    - by intros d' [= <-].
    - intros _ H'. specialize (H' d eq_refl). congruence. }
  case_bool_decide; [cbn; naive_solver|]. case_bool_decide; [cbn; naive_solver|]. cbn [orb].
  destruct (is_some_and _ (gc_in_flight c0 !! o)); cbn [orb];
    [split; [done|]; intros (_ & _ & _ & _ & H5 & _); by destruct (proj1 Hlive eq_refl)|].
  case_bool_decide; [naive_solver|]. case_bool_decide; [naive_solver|]. cbn [orb].
  assert (Hidle : forall d, gc_in_flight c0 !! o = Some d -> lease_expired (gd_deadline_ms d) now = true).
  { intros d Hd. apply not_false_iff_true. intros E. assert (false = true); [|done].
    apply Hlive. intros H'. specialize (H' d Hd). congruence. }
  destruct (sm_key m) as [k|]; cbn [is_none_or]; [|naive_solver].
  rewrite !andb_true_iff, !negb_true_iff, !bool_decide_eq_false, <-not_true_iff_false, existsb_exists.
  setoid_rewrite lookup_live. split.
  - intros ([H1' H2'] & H3'). split_and!; try done. intros k' [= <-]. split_and!; try done.
    intros o' d [Hd Hl] Hk. apply H3'. exists d. rewrite Hl, (bool_decide_eq_true_2 _ Hk).
    split; [|done]. apply list_elem_of_In, elem_of_btree_values. eauto.
  - intros (_ & _ & _ & _ & _ & Hk). destruct (Hk k eq_refl) as (Ha & Hb & Hc). split_and!; try done.
    intros (d & Hin & [Hl%negb_true_iff Hkd%bool_decide_eq_true_1]%andb_true_iff).
    apply list_elem_of_In, elem_of_btree_values in Hin as [o' Ho']. by apply (Hc o' d).
Qed.

(** The candidates of the two loops are the same. *)
Lemma preview_eligible_spec st l pl o m :
  preview_sim st l pl ->
  (advance_preview_committed_offset (preview_fuel (Some c0) (pl_terminal_offsets pl))
     (gc_committed_offset c0) (Some c0) (pl_terminal_offsets pl) <= o /\
   preview_eligible (Some c0) now ro rk (pl_terminal_offsets pl) (pl_selected_offsets pl)
     (pl_selected_keys pl) (o, m) = true) <->
  deliverable (consumer_of st key) now (bl_selected_offsets l) (bl_selected_keys l) o m.
Proof.
  intros Hsim. rewrite preview_eligible_true. unfold deliverable.
  rewrite (ps_done _ _ _ Hsim), (ps_in_flight _ _ _ Hsim), (ps_offsets _ _ _ Hsim),
    (ps_keys _ _ _ Hsim), ro_spec. setoid_rewrite rk_spec. setoid_rewrite (ps_retry _ _ _ Hsim).
  assert (Hadv : o ∉ gc_acknowledged_offsets c0 -> o ∉ pl_terminal_offsets pl ->
    advance_preview_committed_offset (preview_fuel (Some c0) (pl_terminal_offsets pl))
      (gc_committed_offset c0) (Some c0) (pl_terminal_offsets pl) <= o <->
    gc_committed_offset c0 <= o).
  { apply advance_preview_ge. intros o' [Ho|Ho]%elem_of_union.
    - apply (gw_acknowledged _ _ wf0) in Ho. lia.
    - apply (ps_terminal _ _ _ Hsim) in Ho. lia. }
  unfold group_done. split.
  - intros (Hle & Ha & Ht & Hs & Hr & Hi & Hk). apply Hadv in Hle; [|done..].
    split_and!; [intros [[?|?]|?]; [lia|done|done]|done|done|naive_solver|].
    intros k Hm. destruct (Hk k Hm) as (? & ? & ?). split_and!; naive_solver.
  - intros (Hd & Hi & Hs & Hr & Hk). assert (Ha : o ∉ gc_acknowledged_offsets c0) by naive_solver.
    assert (Ht : o ∉ pl_terminal_offsets pl) by naive_solver.
    split; [apply Hadv; [done..|]; apply N.nlt_ge; naive_solver|].
    split_and!; [done..|naive_solver|done|].
    intros k Hm. destruct (Hk k Hm) as (? & ? & ?). split_and!; naive_solver.
Qed.

Lemma preview_candidate st l pl :
  preview_sim st l pl ->
  List.find (preview_eligible (Some c0) now ro rk (pl_terminal_offsets pl)
      (pl_selected_offsets pl) (pl_selected_keys pl))
    (filter (fun p => advance_preview_committed_offset
       (preview_fuel (Some c0) (pl_terminal_offsets pl)) (gc_committed_offset c0) (Some c0)
       (pl_terminal_offsets pl) <= p.1) (enumerate messages)) =
  List.find (batch_eligible (consumer_of st key) (retry_filter (consumer_of st key) now).1
      (retry_filter (consumer_of st key) now).2 (bl_selected_offsets l) (bl_selected_keys l))
    (filter (fun p => gc_committed_offset (consumer_of st key) <= p.1) (enumerate messages)).
Proof.
  intros Hsim. rewrite !find_filter. apply find_ext_in. intros [o m] _. cbn [fst].
  apply eq_true_iff_eq. rewrite !andb_true_iff, !bool_decide_eq_true.
  by rewrite (preview_eligible_spec st l pl), batch_eligible_spec.
Qed.

Lemma sim_dead_letter st l pl version o m st2 :
  preview_sim st l pl -> snapshot_wf st2 -> o < vec_len messages ->
  dead_lettered legacy version (gb_stream request) (gb_consumer request) [o] st st2 ->
  deliverable (consumer_of st key) now (bl_selected_offsets l) (bl_selected_keys l) o m ->
  preview_sim st2 (count_transition l) (preview_terminal pl o).
Proof.
  intros Hsim Hwf2 Hlt Hdl (Hnd & _ & _ & Hnr & _).
  assert (Hnone : forall s, ~ retry_pending (consumer_of st2 key) now o s).
  { intros s [Hs _]. pose proof (consumer_of_wf st2 (gb_stream request) (gb_consumer request) Hwf2) as Hc.
    apply (gw_retry _ _ Hc) in Hs as (Ha & _). apply (gw_attempted _ _ Hc) in Ha as [_ Hn].
    apply Hn, (dl_done _ _ _ _ _ _ _ Hdl). right. by apply list_elem_of_singleton. }
  split; cbn; try apply Hsim.
  - intros o'. unfold key. rewrite (dl_done _ _ _ _ _ _ _ Hdl), list_elem_of_singleton.
    fold key. rewrite (ps_done _ _ _ Hsim), elem_of_union, elem_of_singleton. tauto.
  - intros o' [->%elem_of_singleton|Ho]%elem_of_union; [done|]. by apply (ps_terminal _ _ _ Hsim).
  - unfold key. rewrite (dl_in_flight _ _ _ _ _ _ _ Hdl). apply Hsim.
  - unfold key. rewrite (dl_policy _ _ _ _ _ _ _ Hdl). apply Hsim.
  - intros o' Ho. unfold key. rewrite (dl_attempts _ _ _ _ _ _ _ Hdl) by set_solver.
    apply Hsim. set_solver.
  - intros o' Ho. unfold key. rewrite (dl_policies _ _ _ _ _ _ _ Hdl) by set_solver.
    apply Hsim. set_solver.
  - intros o' s. destruct (decide (o' = o)) as [->|Hne].
    + rewrite <-(ps_retry _ _ _ Hsim). split; [by intros ?%Hnone|by intros ?%Hnr].
    + rewrite <-(ps_retry _ _ _ Hsim). unfold retry_pending, key.
      rewrite (dl_retries _ _ _ _ _ _ _ Hdl); [done|]. by rewrite list_elem_of_singleton.
  - by rewrite (ps_transitions _ _ _ Hsim).
Qed.

Lemma sim_select st l pl message d policy :
  preview_sim st l pl -> gd_key d = msg_key message ->
  preview_sim st (select l message d policy) (preview_select pl message).
Proof.
  intros Hsim Hk. split; cbn; try apply Hsim.
  - by rewrite (ps_offsets _ _ _ Hsim).
  - by rewrite Hk, (ps_keys _ _ _ Hsim).
  - unfold pending_messages. cbn. rewrite fmap_app. cbn. by rewrite (ps_messages _ _ _ Hsim).
  - by rewrite (ps_sizer _ _ _ Hsim).
Qed.

(** The loops end alike. *)
Definition same_exit (exit : BatchExit) (pr : option PreviewLocals) : Prop :=
  match exit, pr with
  | BatchRecordTooLarge, None => True
  | BatchCollected l, Some pl =>
    pl_messages pl = pending_messages l /\
    pl_stopped_at_byte_limit pl = bl_stopped_at_byte_limit l /\
    pl_terminal_transitions pl = bl_terminal_transitions l
  | _, _ => False
  end.

Lemma sim_same_exit st l pl : preview_sim st l pl -> same_exit (BatchCollected l) (Some pl).
Proof. intros Hsim. split_and!; apply Hsim. Qed.

Lemma preview_loop_sim dl fuel st l pl exit st' :
  (forall st, is_dead_letter_stream st (gb_stream request) = dl) ->
  snapshot_wf st -> messages_of st (gb_stream request) = messages ->
  preview_sim st l pl ->
  group_batch_loop fuel st request now legacy l = Some (exit, st') ->
  exists pr, preview_loop fuel request now legacy (Some c0) (gc_committed_offset c0) messages
      ro rk dl pl = Some pr /\ same_exit exit pr.
Proof.
  intros Hdl. revert st l pl. induction fuel as [|fuel IH]; intros st l pl Hwf Hms Hsim;
    cbn [group_batch_loop preview_loop]; rewrite (ps_messages _ _ _ Hsim), (ps_sizer _ _ _ Hsim);
    unfold pending_messages at 1, vec_len at 2; rewrite length_fmap; fold (vec_len (bl_pending l));
    destruct (negb _); try done.
  1,2: intros [= <- <-]; exists (Some pl); split; [done|by apply (sim_same_exit st)].
  intros (c & Hc & H)%bind_Some. apply bind_Some in H as (ss & Hs & H).
  assert (Hco : consumer_of st key = c) by (unfold consumer_of, key; by rewrite Hc).
  assert (Hmss : ss_messages ss = messages) by (rewrite <-Hms; unfold messages_of; by rewrite Hs).
  rewrite (surjective_pairing (retry_filter c now)) in H. rewrite Hmss, <-Hco in H.
  rewrite (preview_candidate st l pl Hsim). destruct (List.find _ _) as [[o m]|] eqn:Hf.
  2:{ injection H as <- <-. exists (Some pl). split; [done|by apply (sim_same_exit st)]. }
  apply candidate_spec in Hf as (Hm & Hd & _). rewrite Hm in H.
  assert (Ho : o ∉ pl_terminal_offsets pl).
  { intros Ho. apply (proj1 Hd), (ps_done _ _ _ Hsim). by right. }
  step_bind. rewrite <-(ps_attempts _ _ _ Hsim) by done.
  rewrite <-(group_policy_ext c0 _ o _ _ _ (ps_policy _ _ _ Hsim) (ps_policies _ _ _ Hsim o Ho)).
  destruct (group_policy_for_offset _ _ _ _ _) as [policy|] eqn:Hp; [|done].
  cbn [mbind option_bind] in H |- *. rewrite Hdl in H. destruct (_ && negb dl) eqn:Hx.
  - pose proof (vec_get_lt _ _ _ Hm) as Hlt.
    assert (Hstep : dead_lettered legacy (gb_policy_version request) (gb_stream request)
      (gb_consumer request) [o] st (dead_letter_group_offset st (gb_stream request) key
      (consumer_of st key) o m)).
    { apply dead_letter_step; [done|unfold stream_fits; by rewrite Hms|by rewrite Hco|
        by rewrite Hms|apply Hd|apply Hd|].
      exists policy. by apply andb_true_iff in Hx as [Hx _]. }
    eapply IH; [apply Hstep| |by eapply sim_dead_letter; [..|exact Hd]; [done|apply Hstep|done|exact Hstep]|exact H].
    by rewrite (dead_lettered_messages _ _ _ _ _ _ _ Hstep).
  - destruct (gb_transition_only request).
    { injection H as <- <-. exists (Some pl). split; [done|by apply (sim_same_exit st)]. }
    destruct (_ <? _).
    + assert (Hnil : bl_pending l = [] <-> pending_messages l = []).
      { unfold pending_messages. split; [by intros ->|]. by destruct (bl_pending l). }
      case_decide as H1; case_decide as H2; try tauto; injection H as <- <-.
      * by exists None.
      * exists (Some (preview_stop pl)). split; [done|]. split_and!; try done; apply Hsim.
    + eapply IH; [done|done| |exact H]. by apply sim_select.
Qed.
End sim.

(** ** A consumer that does not exist yet *)

Lemma group_policy_at committed o legacy version :
  group_policy_for_offset (group_consumer_at committed) o 0 legacy version = Some legacy.
Proof.
  unfold group_policy_for_offset, group_consumer_at. cbn. rewrite lookup_empty. cbn.
  by destruct version.
Qed.

(** For a consumer that is not stored the preview reads the one the poll would
    create. *)
Lemma preview_loop_none fuel request now legacy committed messages dl pl :
  preview_loop fuel request now legacy None committed messages ∅ ∅ dl pl =
  preview_loop fuel request now legacy (Some (group_consumer_at committed)) committed messages
    ∅ ∅ dl pl.
Proof.
  assert (Hadv : forall fuel e terminal,
    advance_preview_committed_offset fuel e None terminal =
    advance_preview_committed_offset fuel e (Some (group_consumer_at committed)) terminal).
  { clear. intros fuel. induction fuel as [|fuel IH]; intros e terminal; [done|].
    cbn [advance_preview_committed_offset is_some_and group_consumer_at gc_acknowledged_offsets].
    rewrite (bool_decide_eq_false_2 (e ∈ (∅ : gset Offset))) by set_solver.
    destruct (_ && _); [done|]. destruct (u64_checked_add e 1); [|done]. apply IH. }
  revert pl. induction fuel as [|fuel IH]; intros pl; cbn [preview_loop];
    destruct (negb _); try done.
  rewrite Hadv. change (preview_fuel None (pl_terminal_offsets pl))
    with (preview_fuel (Some (group_consumer_at committed)) (pl_terminal_offsets pl)).
  rewrite (find_ext_in (preview_eligible None _ _ _ _ _ _) (preview_eligible
    (Some (group_consumer_at committed)) now ∅ ∅ (pl_terminal_offsets pl) (pl_selected_offsets pl)
    (pl_selected_keys pl))); [destruct (List.find _ _) as [[o m]|]; [|done]|].
  - cbn [mbind option_bind group_consumer_at gc_delivery_attempts]. rewrite lookup_empty.
    fold (group_consumer_at committed). cbn [default]. rewrite group_policy_at.
    step_bind. destruct (_ && _); [apply IH|].
    destruct (gb_transition_only request); [done|]. destruct (_ <? _); [done|apply IH].
  - intros [o m] _. cbn. rewrite lookup_empty. cbn.
    rewrite !(bool_decide_eq_false_2 (o ∈ (∅ : gset Offset))) by set_solver. done.
Qed.

(** ** The preview *)

(** The preview on an active stream, in terms of the consumer the poll reads. *)
Lemma preview_active st request kind ss :
  let key := (gb_stream request, gb_consumer request) in
  let c := consumer_of st key in
  let now := N.max (st_lease_clock_ms st) (gb_now_ms request) in
  let legacy := policy_legacy (default 0 (gb_legacy_ack_timeout_ms request))
                  (gb_max_delivery_attempts request) in
  let existing := filter (fun p => gd_member p.2 = gb_member request)
                    (btree_items (gc_in_flight (expired_consumer c now))) in
  kind_is_metadata kind = false -> 0 < gb_max_records request -> 0 < gb_max_bytes request ->
  st_streams st !! gb_stream request = Some ss -> is_active ss = true ->
  preview_group_batch st request kind =
  if negb (bool_decide (existing = [])) then
    Some (existing_response request (ss_messages ss) existing)
  else
    '(ro, rk) ← preview_retry_filter now legacy (gb_policy_version request) c
       (retry_filter c now) (btree_items (gc_in_flight c));
    exit ← preview_loop (S (length (ss_messages ss))) request now legacy (Some c)
      (gc_committed_offset c) (ss_messages ss) ro rk
      (is_dead_letter_stream st (gb_stream request)) (preview_locals_new request);
    match exit with
    | None => Some (RGroupBatchPollRecordTooLarge (gb_max_bytes request))
    | Some l =>
      Some (RGroupBatchPoll (pl_messages l)
        (negb (bool_decide (pl_messages l = []))
         && ((vec_len (pl_messages l) =? gb_max_records request) || pl_stopped_at_byte_limit l))
        (pl_terminal_transitions l))
    end.
Proof.
  intros key c now legacy existing Hk Hr Hb Hs Ha. unfold preview_group_batch.
  rewrite Hk, Hs, Ha, !(proj2 (N.eqb_neq _ 0)) by lia. cbn [orb negb]. fold key. fold now.
  unfold existing, expired_consumer. cbn [gc_in_flight]. rewrite btree_items_filter.
  unfold c, consumer_of. destruct (st_group_consumers st !! key) as [c'|] eqn:E;
    cbn [default from_option id]; [done|].
  step_bind. rewrite preview_loop_none. reflexivity.
Qed.

(** At the start of the loops the relation holds. *)
Lemma preview_sim_start request now messages st s n :
  s = gb_stream request -> n = gb_consumer request ->
  group_wf messages (consumer_of st (s, n)) ->
  preview_sim request now messages (consumer_of st (s, n)) (prepared st s n now)
    (batch_locals_new request) (preview_locals_new request).
Proof.
  intros -> -> Hwf. split; rewrite ?prepared_consumer; cbn; try done.
  intros o. unfold group_done. cbn. set_solver.
Qed.

Lemma reserved_stable stream :
  starts_with stream DEAD_LETTER_HASH_PREFIX = false ->
  forall st, is_dead_letter_stream st stream = ends_with stream DEAD_LETTER_SUFFIX.
Proof. intros H st. unfold is_dead_letter_stream. rewrite H. by destruct (ends_with _ _). Qed.

(** The answers built from equal exits are equal. *)
Lemma finish_same request l pl st :
  is_Some (st_group_consumers st !! (gb_stream request, gb_consumer request)) ->
  same_exit (BatchCollected l) (Some pl) ->
  exists st', finish_batch request l st = Some (RGroupBatchPoll (pl_messages pl)
    (negb (bool_decide (pl_messages pl = []))
     && ((vec_len (pl_messages pl) =? gb_max_records request) || pl_stopped_at_byte_limit pl))
    (pl_terminal_transitions pl), st').
Proof.
  intros [c Hc] (-> & -> & ->). unfold finish_batch. case_decide as Hp.
  - unfold pending_messages. rewrite Hp. by exists st.
  - rewrite Hc. step_bind. destruct (foldl _ _ _) as [c' rd]. eexists.
    rewrite (bool_decide_eq_false_2 (pending_messages l = [])).
    + cbn [negb andb]. unfold pending_messages, vec_len. by rewrite length_fmap.
    + unfold pending_messages. by destruct (bl_pending l).
Qed.

(** The loops on an active stream, from the prepared state. *)
Lemma preview_loops_agree st request now legacy ro rk ss :
  let c := consumer_of st (gb_stream request, gb_consumer request) in
  let st0 := prepared st (gb_stream request) (gb_consumer request) now in
  snapshot_wf st -> state_fits st -> st_streams st !! gb_stream request = Some ss ->
  starts_with (gb_stream request) DEAD_LETTER_HASH_PREFIX = false ->
  (forall o, o ∈ ro <-> exists s, retry_pending (expired_consumer c now) now o s) ->
  (forall k, k ∈ rk <-> exists o s, retry_pending (expired_consumer c now) now o s /\
     grs_key s = Some k) ->
  exists exit st1 pr,
    group_batch_loop (S (length (ss_messages ss))) st0 request now legacy
      (batch_locals_new request) = Some (exit, st1) /\
    is_Some (st_group_consumers st1 !! (gb_stream request, gb_consumer request)) /\
    preview_loop (S (length (ss_messages ss))) request now legacy (Some c) (gc_committed_offset c)
      (ss_messages ss) ro rk (is_dead_letter_stream st (gb_stream request))
      (preview_locals_new request) = Some pr /\ same_exit exit pr.
Proof.
  intros c st0 Hwf Hfit Hs Hpre Hro Hrk.
  pose proof (consumer_of_wf st (gb_stream request) (gb_consumer request) Hwf) as Hc. fold c in Hc.
  assert (Hms : messages_of st (gb_stream request) = ss_messages ss)
    by (unfold messages_of; by rewrite Hs).
  pose proof (Hfit (gb_stream request)) as Hlen. unfold stream_fits in Hlen. rewrite Hms in Hc, Hlen.
  assert (Hwf0 : snapshot_wf st0) by (apply prepared_wf; [done|rewrite Hs; eauto]).
  destruct (group_batch_loop_spec (S (length (ss_messages ss))) st0 request now legacy
    (batch_locals_new request)) as (moved & exit & st1 & Hloop & Hdl & _).
  - done.
  - apply (Hfit (gb_stream request)).
  - unfold st0. rewrite prepared_lookup. eauto.
  - change (is_Some (st_streams st !! gb_stream request)). rewrite Hs. eauto.
  - apply batch_ok_new.
  - change (messages_of st0 (gb_stream request)) with (messages_of st (gb_stream request)).
    rewrite Hms. apply Nat.lt_succ_r, open_offsets_le.
  - destruct (preview_loop_sim request now legacy (ss_messages ss) c ro rk Hc Hlen Hro Hrk
      (ends_with (gb_stream request) DEAD_LETTER_SUFFIX) (S (length (ss_messages ss))) st0
      (batch_locals_new request) (preview_locals_new request) exit st1) as (pr & Hpr & Hsame);
      [by apply reserved_stable|done|exact Hms|by apply preview_sim_start|done|].
    exists exit, st1, pr. rewrite (reserved_stable _ Hpre). split_and!; [done|apply Hdl|done|done].
Qed.

Lemma preview_matches_active kind st request ss :
  snapshot_wf st -> state_fits st -> kind_is_metadata kind = false ->
  (gb_max_records request =? 0) || (gb_max_bytes request =? 0) = false ->
  st_streams st !! gb_stream request = Some ss -> is_active ss = true ->
  starts_with (gb_stream request) DEAD_LETTER_HASH_PREFIX = false ->
  N.max (st_lease_clock_ms st) (gb_now_ms request) < u64_max ->
  exists r st', preview_group_batch st request kind = Some r /\
    apply_group_batch_poll st request kind = Some (r, st').
Proof.
  intros Hwf Hfit Hk Hl Hs Ha Hpre Hnow.
  pose proof (consumer_of_wf st (gb_stream request) (gb_consumer request) Hwf) as Hc.
  pose proof Hl as Hl'. apply orb_false_iff in Hl as [?%N.eqb_neq ?%N.eqb_neq].
  rewrite (preview_active st request kind ss Hk ltac:(lia) ltac:(lia) Hs Ha).
  unfold apply_group_batch_poll, stream_is_active. rewrite Hk, Hl', Hs. cbn [is_some_and].
  rewrite Ha. cbn [negb]. unfold observe_lease_clock. cbn [st_lease_clock_ms set_lease_clock].
  rewrite observe_prepared by done. step_bind. rewrite prepared_lookup.
  step_bind. change (st_streams (prepared st _ _ _)) with (st_streams st).
  rewrite Hs. step_bind. destruct (negb _) eqn:He; [eauto|].
  set (legacy := policy_legacy _ _). set (now := N.max _ _) in *.
  destruct (preview_filter_eq _ _ now legacy (gb_policy_version request) Hc Hnow)
    as (ro & rk & -> & Hro & Hrk). step_bind.
  destruct (preview_loops_agree st request now legacy ro rk ss Hwf Hfit Hs Hpre Hro Hrk)
    as (exit & st1 & pr & -> & Hg & -> & Hsame). step_bind.
  destruct exit as [|l], pr as [pl|]; try done; [eauto|].
  destruct (finish_same request l pl st1 Hg Hsame) as [st2 ->]. eauto.
Qed.

(** C26: The preview of a batch poll answers exactly what the poll answers. From
    every reachable state, for a stream whose name does not use the reserved
    dead-letter prefix and a clock below the end of [u64], the preview gives a
    response, and the replicated poll of the same request gives the same one. *)
Theorem preview_matches_poll kind st request :
  reachable kind st -> state_fits st ->
  starts_with (gb_stream request) DEAD_LETTER_HASH_PREFIX = false ->
  N.max (st_lease_clock_ms st) (gb_now_ms request) < u64_max ->
  exists r st', preview_group_batch st request kind = Some r /\
    apply_group_batch_poll st request kind = Some (r, st').
Proof.
  intros Hr Hfit Hpre Hnow. pose proof (reachable_wf _ _ Hr) as Hwf.
  destruct (kind_is_metadata kind) eqn:Hk.
  { unfold preview_group_batch, apply_group_batch_poll. rewrite Hk. eauto. }
  destruct ((gb_max_records request =? 0) || (gb_max_bytes request =? 0)) eqn:Hl.
  { unfold preview_group_batch, apply_group_batch_poll. rewrite Hk, Hl. eauto. }
  destruct (st_streams st !! gb_stream request) as [ss|] eqn:Hs.
  2:{ unfold preview_group_batch, apply_group_batch_poll, stream_is_active.
      rewrite Hk, Hl, Hs. cbn. eauto. }
  destruct (is_active ss) eqn:Ha; [by eapply preview_matches_active|].
  unfold preview_group_batch, apply_group_batch_poll, stream_is_active.
  rewrite Hk, Hl, Hs. cbn. rewrite Ha. eauto.
Qed.

Lemma preview_matches_poll_witness :
  exists r st', preview_group_batch example_state (example_batch_request "m2" 50) Combined = Some r /\
    apply_group_batch_poll example_state (example_batch_request "m2" 50) Combined = Some (r, st').
Proof.
  apply (preview_matches_poll Combined example_state (example_batch_request "m2" 50)
    example_reachable example_fits); vm_compute; reflexivity.
Defined.
