(* ===== verification/Disk.v ===== *)
(** Files and directories with faults: what crates/runnel-raft uses of
    [std::fs] to keep its logs and snapshots.

    A disk maps directories to their files. Every operation reads the operating
    system ([Os]) at the next position of its stream of outcomes: it succeeds,
    or fails, and a write that fails leaves any number of its bytes behind. A
    crash is a failure after which the process is started again: each write of
    the code is synced before the code goes on, so what a crash leaves of
    unsynced bytes is what a write that failed there leaves. *)

From S2P Require Import Prelude Engine RecordFormat.

Local Open Scope N_scope.

Record IoError := {
  ie_kind : IoErrorKind;
  ie_message : string;
}.

Abbreviation Dir := (gmap string (list byte)).
Abbreviation Disk := (gmap string Dir).

(** A path is a directory and the name of a file in it. *)
Record Path := {
  path_parent : string;
  path_file_name : string;
}.

Record Fault := {
  ft_error : IoError;
  ft_written : nat;
}.

(** The outcome of each operation, the order in which a directory lists its
    files, and the process id. *)
Record Os := {
  os_fault : nat -> option Fault;
  os_order : nat -> list string -> list string;
  os_pid : N;
}.

Record World := {
  w_disk : Disk;
  w_tick : nat;
}.

(** Computations with errors of type [X]; those of the operating system are [Io]. *)
Definition IoE (X A : Type) : Type := World -> Result A X * World.
Abbreviation Io := (IoE IoError).

Definition io_ret {X A} (a : A) : IoE X A := fun w => (Ok a, w).
Definition io_fail {X A} (e : X) : IoE X A := fun w => (Err e, w).
Definition io_bind {X A B} (m : IoE X A) (k : A -> IoE X B) : IoE X B := fun w =>
  match m w with
  | (Ok a, w) => k a w
  | (Err e, w) => (Err e, w)
  end.
Definition io_lift {X A} (r : Result A X) : IoE X A :=
  match r with Ok a => io_ret a | Err e => io_fail e end.

(** [Result::map_err] *)
Definition io_map_err {X Y A} (f : X -> Y) (m : IoE X A) : IoE Y A := fun w =>
  match m w with
  | (Ok a, w) => (Ok a, w)
  | (Err e, w) => (Err (f e), w)
  end.

Declare Scope io_scope.
Delimit Scope io_scope with io.
Notation "'let*' x ':=' c 'in' k" := (io_bind c (fun x => k))
  (at level 10, x pattern, c at level 100, k at level 200) : io_scope.
Notation "'do*' c 'in' k" := (io_bind c (fun _ => k))
  (at level 10, c at level 100, k at level 200) : io_scope.
Open Scope io_scope.

(** ** Files *)

Definition disk_file (disk : Disk) (path : Path) : option (list byte) :=
  dir ← disk !! path_parent path; dir !! path_file_name path.

Definition disk_put (disk : Disk) (path : Path) (bytes : list byte) : Disk :=
  alter (insert (path_file_name path) bytes) (path_parent path) disk.

Definition disk_remove (disk : Disk) (path : Path) : Disk :=
  alter (delete (path_file_name path)) (path_parent path) disk.

Definition not_found : IoError :=
  {| ie_kind := NotFound; ie_message := "No such file or directory" |}.
Definition already_exists : IoError := {| ie_kind := AlreadyExists; ie_message := "File exists" |}.

(** [Path::display] *)
Definition path_display (path : Path) : string := path_parent path +:+ "/" +:+ path_file_name path.

(** ** Operations *)

Section os.
Context (os : Os).

(** An operation that [run]s on the disk, or leaves [partial] of its effect
    when it fails. *)
Definition syscall {A} (run : Disk -> Result A IoError * Disk) (partial : nat -> Disk -> Disk) : Io A :=
  fun w =>
    match os_fault os (w_tick w) with
    | Some fault =>
      (Err (ft_error fault), {| w_disk := partial (ft_written fault) (w_disk w); w_tick := S (w_tick w) |})
    | None =>
      let '(r, disk) := run (w_disk w) in (r, {| w_disk := disk; w_tick := S (w_tick w) |})
    end.

Definition unchanged (_ : nat) (disk : Disk) : Disk := disk.

(** [fs::create_dir_all] and [fs::create_dir] *)
Definition create_dir_all (dir : string) : Io unit :=
  syscall (fun disk =>
    (Ok tt, match disk !! dir with Some _ => disk | None => <[dir := ∅]> disk end)) unchanged.

Definition create_dir (dir : string) : Io unit :=
  syscall (fun disk =>
    match disk !! dir with
    | Some _ => (Err already_exists, disk)
    | None => (Ok tt, <[dir := ∅]> disk)
    end) unchanged.

(** [fs::File::create], and an open with [create(true)] and [truncate(true)] *)
Definition file_create (path : Path) : Io unit :=
  syscall (fun disk =>
    match disk !! path_parent path with
    | Some _ => (Ok tt, disk_put disk path [])
    | None => (Err not_found, disk)
    end) unchanged.

(** An open with [create_new(true)]. *)
Definition file_create_new (path : Path) : Io unit :=
  syscall (fun disk =>
    match disk !! path_parent path, disk_file disk path with
    | Some _, None => (Ok tt, disk_put disk path [])
    | Some _, Some _ => (Err already_exists, disk)
    | None, _ => (Err not_found, disk)
    end) unchanged.

(** An open of a file that must exist. *)
Definition file_open (path : Path) : Io unit :=
  syscall (fun disk =>
    match disk_file disk path with
    | Some _ => (Ok tt, disk)
    | None => (Err not_found, disk)
    end) unchanged.

(** An open with [create(true)] and [append(true)]. *)
Definition file_open_append (path : Path) : Io unit :=
  syscall (fun disk =>
    match disk !! path_parent path, disk_file disk path with
    | Some _, Some _ => (Ok tt, disk)
    | Some _, None => (Ok tt, disk_put disk path [])
    | None, _ => (Err not_found, disk)
    end) unchanged.

(** [Write::write_all] at the end of a file that is open. *)
Definition file_write (path : Path) (bytes : list byte) : Io unit :=
  let append disk bytes := disk_put disk path (default [] (disk_file disk path) ++ bytes) in
  syscall (fun disk => (Ok tt, append disk bytes)) (fun n disk => append disk (take n bytes)).

(** [File::sync_all] and [File::sync_data], of files and of directories. *)
Definition sync : Io unit := syscall (fun disk => (Ok tt, disk)) unchanged.

(** [File::set_len] to a length that the file has. *)
Definition file_set_len (path : Path) (n : N) : Io unit :=
  syscall (fun disk =>
    (Ok tt, disk_put disk path (take (N.to_nat n) (default [] (disk_file disk path))))) unchanged.

Definition rename (from to : Path) : Io unit :=
  syscall (fun disk =>
    match disk_file disk from with
    | Some bytes => (Ok tt, disk_put (disk_remove disk from) to bytes)
    | None => (Err not_found, disk)
    end) unchanged.

Definition remove_file (path : Path) : Io unit :=
  syscall (fun disk =>
    match disk_file disk path with
    | Some _ => (Ok tt, disk_remove disk path)
    | None => (Err not_found, disk)
    end) unchanged.

(** [fs::read] *)
Definition read_file (path : Path) : Io (list byte) :=
  syscall (fun disk =>
    match disk_file disk path with
    | Some bytes => (Ok bytes, disk)
    | None => (Err not_found, disk)
    end) unchanged.

(** [fs::read_dir]: the names of the files, in no particular order. *)
Definition read_dir (dir : string) : Io (list string) := fun w =>
  syscall (fun disk =>
    match disk !! dir with
    | Some files => (Ok (os_order os (w_tick w) (map_to_list files).*1), disk)
    | None => (Err not_found, disk)
    end) unchanged w.

(** [Path::exists] *)
Definition file_exists {X} (path : Path) : IoE X bool := fun w =>
  (Ok (bool_decide (is_Some (disk_file (w_disk w) path))), w).
Definition dir_exists {X} (dir : string) : IoE X bool := fun w =>
  (Ok (bool_decide (is_Some (w_disk w !! dir))), w).
End os.

(** ** Weakest preconditions

    [io_wp m Q E w]: a run of [m] from [w] ends in [Q], or fails and leaves a
    disk in [E]. *)

Definition io_wp {X A} (m : IoE X A) (Q : A -> World -> Prop) (E : Disk -> Prop) (w : World) : Prop :=
  match m w with
  | (Ok a, w') => Q a w'
  | (Err _, w') => E (w_disk w')
  end.

Lemma io_wp_mono {X A} (m : IoE X A) (Q Q' : A -> World -> Prop) (E E' : Disk -> Prop) w :
  io_wp m Q E w -> (forall a w', Q a w' -> Q' a w') -> (forall d, E d -> E' d) -> io_wp m Q' E' w.
Proof. unfold io_wp. destruct (m w) as [[a|e] w']; naive_solver. Qed.

Lemma io_wp_bind {X A B} (m : IoE X A) (k : A -> IoE X B) Q E w :
  io_wp m (fun a w' => io_wp (k a) Q E w') E w -> io_wp (io_bind m k) Q E w.
Proof. unfold io_wp, io_bind. by destruct (m w) as [[a|e] w']. Qed.

Lemma io_wp_ret {X A} (a : A) (Q : A -> World -> Prop) E w : Q a w -> io_wp (X := X) (io_ret a) Q E w.
Proof. done. Qed.

Lemma io_wp_fail {X A} (e : X) (Q : A -> World -> Prop) (E : Disk -> Prop) w : E (w_disk w) -> io_wp (io_fail e) Q E w.
Proof. done. Qed.

Lemma io_wp_map_err {X Y A} (f : X -> Y) (m : IoE X A) Q E w : io_wp m Q E w -> io_wp (io_map_err f m) Q E w.
Proof. unfold io_wp, io_map_err. by destruct (m w) as [[a|e] w']. Qed.

(** The same disk, later. *)
Definition later (w : World) (d : Disk) : World := {| w_disk := d; w_tick := S (w_tick w) |}.

Section rules.
Context (os : Os).

Definition faulty : Prop := exists n fault, os_fault os n = Some fault.

Lemma io_wp_syscall {A} (run : Disk -> Result A IoError * Disk) partial (Q : A -> World -> Prop) (E : Disk -> Prop) w :
  (match run (w_disk w) with (Ok a, d) => Q a (later w d) | (Err _, d) => E d end) ->
  (faulty -> forall n, E (partial n (w_disk w))) -> io_wp (syscall os run partial) Q E w.
Proof.
  intros HQ HE. unfold io_wp, syscall. destruct (os_fault os (w_tick w)) as [fault|] eqn:Hf.
  - apply HE. by exists (w_tick w), fault.
  - unfold later in HQ. by destruct (run (w_disk w)) as [[a|e] d].
Qed.

Lemma io_wp_sync (Q : unit -> World -> Prop) (E : Disk -> Prop) w :
  Q tt (later w (w_disk w)) -> (faulty -> E (w_disk w)) -> io_wp (sync os) Q E w.
Proof. intros HQ HE. apply io_wp_syscall; [done|]. intros Hf n0. by apply HE. Qed.

Lemma io_wp_create_dir_all dir files (Q : unit -> World -> Prop) (E : Disk -> Prop) w :
  w_disk w !! dir = Some files ->
  Q tt (later w (w_disk w)) -> (faulty -> E (w_disk w)) -> io_wp (create_dir_all os dir) Q E w.
Proof. intros Hd HQ HE. apply io_wp_syscall; [by rewrite Hd|]. intros Hf n0. by apply HE. Qed.

Lemma io_wp_file_create path files (Q : unit -> World -> Prop) (E : Disk -> Prop) w :
  w_disk w !! path_parent path = Some files ->
  Q tt (later w (disk_put (w_disk w) path [])) -> (faulty -> E (w_disk w)) -> io_wp (file_create os path) Q E w.
Proof. intros Hd HQ HE. apply io_wp_syscall; [by rewrite Hd|]. intros Hf n0. by apply HE. Qed.

Lemma io_wp_file_create_new path files (Q : unit -> World -> Prop) (E : Disk -> Prop) w :
  w_disk w !! path_parent path = Some files -> disk_file (w_disk w) path = None ->
  Q tt (later w (disk_put (w_disk w) path [])) -> (faulty -> E (w_disk w)) -> io_wp (file_create_new os path) Q E w.
Proof. intros Hd Hn HQ HE. apply io_wp_syscall; [by rewrite Hd, Hn|]. intros Hf n0. by apply HE. Qed.

Lemma io_wp_file_open path bytes (Q : unit -> World -> Prop) (E : Disk -> Prop) w :
  disk_file (w_disk w) path = Some bytes ->
  Q tt (later w (w_disk w)) -> (faulty -> E (w_disk w)) -> io_wp (file_open os path) Q E w.
Proof. intros Hb HQ HE. apply io_wp_syscall; [by rewrite Hb|]. intros Hf n0. by apply HE. Qed.

Lemma io_wp_file_write path old bytes (Q : unit -> World -> Prop) (E : Disk -> Prop) w :
  disk_file (w_disk w) path = Some old ->
  Q tt (later w (disk_put (w_disk w) path (old ++ bytes))) ->
  (faulty -> forall n, E (disk_put (w_disk w) path (old ++ take n bytes))) -> io_wp (file_write os path bytes) Q E w.
Proof. intros Hb HQ HE. apply io_wp_syscall; rewrite Hb; auto. Qed.

Lemma io_wp_set_len path old n (Q : unit -> World -> Prop) (E : Disk -> Prop) w :
  disk_file (w_disk w) path = Some old ->
  Q tt (later w (disk_put (w_disk w) path (take (N.to_nat n) old))) -> (faulty -> E (w_disk w)) ->
  io_wp (file_set_len os path n) Q E w.
Proof. intros Hb HQ HE. apply io_wp_syscall; [by rewrite Hb|]. intros Hf n0. by apply HE. Qed.

Lemma io_wp_rename from to bytes (Q : unit -> World -> Prop) (E : Disk -> Prop) w :
  disk_file (w_disk w) from = Some bytes ->
  Q tt (later w (disk_put (disk_remove (w_disk w) from) to bytes)) -> (faulty -> E (w_disk w)) ->
  io_wp (rename os from to) Q E w.
Proof. intros Hb HQ HE. apply io_wp_syscall; [by rewrite Hb|]. intros Hf n0. by apply HE. Qed.

Lemma io_wp_remove path bytes (Q : unit -> World -> Prop) (E : Disk -> Prop) w :
  disk_file (w_disk w) path = Some bytes ->
  Q tt (later w (disk_remove (w_disk w) path)) -> (faulty -> E (w_disk w)) -> io_wp (remove_file os path) Q E w.
Proof. intros Hb HQ HE. apply io_wp_syscall; [by rewrite Hb|]. intros Hf n0. by apply HE. Qed.

Lemma io_wp_read_file path bytes (Q : list byte -> World -> Prop) (E : Disk -> Prop) w :
  disk_file (w_disk w) path = Some bytes ->
  Q bytes (later w (w_disk w)) -> (faulty -> E (w_disk w)) -> io_wp (read_file os path) Q E w.
Proof. intros Hb HQ HE. apply io_wp_syscall; [by rewrite Hb|]. intros Hf n0. by apply HE. Qed.

(** A directory lists each of its files once. *)
Definition lists_files : Prop := forall n l, os_order os n l ≡ₚ l.

Lemma io_wp_read_dir dir files (Q : list string -> World -> Prop) (E : Disk -> Prop) w :
  lists_files -> w_disk w !! dir = Some files ->
  (forall names, names ≡ₚ (map_to_list files).*1 -> Q names (later w (w_disk w))) ->
  (faulty -> E (w_disk w)) -> io_wp (read_dir os dir) Q E w.
Proof.
  intros Hl Hd HQ HE. unfold read_dir. apply io_wp_syscall; [rewrite Hd; by apply HQ|]. intros Hf n0. by apply HE.
Qed.

(** A computation that reads: it gives [r], and the disk stays as it is. *)
Definition reads {X A} (m : IoE X A) (r : A) (w : World) : Prop :=
  io_wp m (fun a w' => a = r /\ w_disk w' = w_disk w) (fun d => faulty /\ d = w_disk w) w.

Lemma reads_bind {X A B} (m : IoE X A) (k : A -> IoE X B) r (Q : B -> World -> Prop) (E : Disk -> Prop) w :
  reads m r w -> (forall w', w_disk w' = w_disk w -> io_wp (k r) Q E w') -> (faulty -> E (w_disk w)) ->
  io_wp (io_bind m k) Q E w.
Proof.
  intros Hm HQ HE. apply io_wp_bind. eapply io_wp_mono; [exact Hm| |].
  - intros a w' [-> Hw]. by apply HQ.
  - intros d [Hf ->]. by apply HE.
Qed.

Lemma reads_then {X A B} (m : IoE X A) (k : A -> IoE X B) r r' w :
  reads m r w -> (forall w', w_disk w' = w_disk w -> reads (k r) r' w') -> reads (io_bind m k) r' w.
Proof.
  intros Hm Hk. eapply reads_bind; [exact Hm| |done]. intros w' Hw. unfold reads in *.
  rewrite <-Hw. by apply Hk.
Qed.

Lemma reads_ret {X A} (a : A) w : reads (X := X) (io_ret a) a w.
Proof. done. Qed.

Lemma reads_lift {X A} (x : Result A X) a w : x = Ok a -> reads (io_lift x) a w.
Proof. by intros ->. Qed.

Lemma reads_file path bytes w : disk_file (w_disk w) path = Some bytes -> reads (read_file os path) bytes w.
Proof. intros H. by apply (io_wp_read_file path bytes). Qed.
End rules.

(** The lookups of a disk after a change. *)
Lemma disk_put_dir d path bytes files :
  d !! path_parent path = Some files ->
  disk_put d path bytes !! path_parent path = Some (<[path_file_name path := bytes]> files).
Proof. intros H. unfold disk_put. by rewrite lookup_alter_eq, H. Qed.

Lemma disk_put_other d path bytes dir : dir <> path_parent path -> disk_put d path bytes !! dir = d !! dir.
Proof. intros H. unfold disk_put. by apply lookup_alter_ne. Qed.

Lemma disk_remove_dir d path files :
  d !! path_parent path = Some files ->
  disk_remove d path !! path_parent path = Some (delete (path_file_name path) files).
Proof. intros H. unfold disk_remove. by rewrite lookup_alter_eq, H. Qed.

Lemma disk_remove_other d path dir : dir <> path_parent path -> disk_remove d path !! dir = d !! dir.
Proof. intros H. unfold disk_remove. by apply lookup_alter_ne. Qed.

Lemma disk_file_dir d path files : d !! path_parent path = Some files -> disk_file d path = files !! path_file_name path.
Proof. intros H. unfold disk_file. by rewrite H. Qed.

Lemma io_wp_file_absent {X} path (Q : bool -> World -> Prop) (E : Disk -> Prop) w :
  disk_file (w_disk w) path = None -> Q false w -> io_wp (X := X) (file_exists path) Q E w.
Proof. intros Hn HQ. unfold io_wp, file_exists. by rewrite Hn. Qed.

Lemma io_wp_file_present {X} path bytes (Q : bool -> World -> Prop) (E : Disk -> Prop) w :
  disk_file (w_disk w) path = Some bytes -> Q true w -> io_wp (X := X) (file_exists path) Q E w.
Proof. intros Hn HQ. unfold io_wp, file_exists. by rewrite Hn. Qed.

Lemma io_wp_open_append os path files (Q : unit -> World -> Prop) (E : Disk -> Prop) w :
  w_disk w !! path_parent path = Some files ->
  Q tt (later w (match disk_file (w_disk w) path with Some _ => w_disk w | None => disk_put (w_disk w) path [] end)) ->
  (faulty os -> E (w_disk w)) -> io_wp (file_open_append os path) Q E w.
Proof.
  intros Hd HQ HE. apply io_wp_syscall; [|intros Hf n0; by apply HE]. rewrite Hd. by destruct (disk_file (w_disk w) path).
Qed.
