(* ===== verification/RaftLogFormat.v ===== *)
(** The files of the durable Raft log of crates/runnel-raft/src/raft_log_segments.rs:
    segments that hold checksummed batches of entries, and the names of the
    files.

    Entries, votes and their JSON (serde_json) are the class [LogJson]; a log id
    of openraft is a term, a node and an index. Positions in a file are below
    2^63, as the length of every [Vec] is, so adding them does not overflow. *)

From S2P Require Import Prelude Engine RecordFormat Names Disk Paths.

Local Open Scope N_scope.

(** ** Data *)

Record LogId := {
  li_term : N;
  li_node : N;
  li_index : N;
}.

#[export] Instance LogId_eq_dec : EqDecision LogId.
Proof. solve_decision. Defined.

Definition LOG_FORMAT_VERSION : N := 3.
Definition SEGMENT_TARGET_BYTES : N := 1024 * 1024.
Definition SEGMENT_MAGIC : list byte := as_bytes "RSG3".
Definition BATCH_MAGIC : list byte := as_bytes "BAT3".
Definition BATCH_END : list byte := as_bytes "END3".
Definition SEGMENT_HEADER_LEN : N := 16.
Definition BATCH_HEADER_LEN : N := 36.
Definition BATCH_TRAILER_LEN : N := 8.

(** openraft's [StorageError]: what was being done to what. *)
Inductive ErrorSubject := SubjectLogs | SubjectStateMachine | SubjectSnapshot.
Inductive ErrorVerb := VerbRead | VerbWrite.

Record StorageError := {
  se_subject : ErrorSubject;
  se_verb : ErrorVerb;
  se_error : IoError;
}.

Record ControlState {Vote : Type} := {
  cl_generation : N;
  cl_truncation_pending_from : option N;
  cl_last_purged_log_id : option LogId;
  cl_committed : option LogId;
  cl_vote : option Vote;
}.
Arguments ControlState Vote : clear implicits.

Definition control_default {Vote} : ControlState Vote :=
  {| cl_generation := 0; cl_truncation_pending_from := None; cl_last_purged_log_id := None;
     cl_committed := None; cl_vote := None |}.

Record ControlRecord {Vote : Type} := {
  cr_state : ControlState Vote;
  cr_checksum : N;
}.
Arguments ControlRecord Vote : clear implicits.

Record VersionMarker := {
  vm_version : N;
  vm_artifact : string;
}.

Record EntryRecord {E : Type} := {
  er_generation : N;
  er_entry : E;
}.
Arguments EntryRecord E : clear implicits.

Record ReadSegment {E : Type} := {
  rg_name : string;
  rg_start_index : N;
  rg_records : list (EntryRecord E);
  rg_record_count : N;
  rg_valid_length : N;
  rg_incomplete_tail : bool;
}.
Arguments ReadSegment E : clear implicits.

Record Tail := {
  tl_name : string;
  tl_length : N;
}.

(** Entries with their log ids, and what serde_json makes of the stored types.
    [json_version] reads the member "version" of any JSON object: [None] when the
    text is not JSON, [Some None] when it has no such number. *)
Class LogJson (E Vote : Type) := {
  entry_log_id : E -> LogId;
  entry_to_json : E -> option (list byte);
  entry_from_json : list byte -> option E;
  state_to_json : ControlState Vote -> option (list byte);
  record_to_json : ControlRecord Vote -> option (list byte);
  record_from_json : list byte -> option (ControlRecord Vote);
  marker_to_json : VersionMarker -> option (list byte);
  marker_from_json : list byte -> option VersionMarker;
  json_version : list byte -> option (option N);
}.

(** What the code relies on: the types are written without error and read back. *)
Class LogJsonLaws {E Vote} (J : LogJson E Vote) : Prop := {
  entry_index_u64 e : li_index (entry_log_id e) <= u64_max;
  entry_json_total e : is_Some (entry_to_json e);
  entry_json_roundtrip e l : entry_to_json e = Some l -> entry_from_json l = Some e;
  state_json_total s : is_Some (state_to_json s);
  record_json_total r : is_Some (record_to_json r);
  record_json_roundtrip r l : record_to_json r = Some l -> record_from_json l = Some r;
  marker_json_total m : is_Some (marker_to_json m);
  marker_json_roundtrip m l : marker_to_json m = Some l -> marker_from_json l = Some m;
  marker_json_version m l : marker_to_json m = Some l -> json_version l = Some (Some (vm_version m));
}.

Definition invalid_data (message : string) : IoError := {| ie_kind := InvalidData; ie_message := message |}.

(** The error of serde_json, wrapped. *)
Definition invalid_input : IoError := invalid_data "serde_json error".

Definition of_json {A} (o : option A) : Result A IoError :=
  match o with Some a => Ok a | None => Err invalid_input end.

(** ** CRC-32 *)

Definition u32_wrapping_neg (v : N) : N := (u32_max + 1 - v) mod (u32_max + 1).

Definition crc32_bit (crc : N) : N :=
  N.lxor (N.shiftr crc 1) (N.land 0xedb88320 (u32_wrapping_neg (N.land crc 1))).

Definition crc32_byte (crc : N) (b : byte) : N := Nat.iter 8 crc32_bit (N.lxor crc (Byte.to_N b)).

Definition crc32 (bytes : list byte) : N := u32_not (foldl crc32_byte u32_max bytes).

(** ** Writing *)

Definition segment_header (start_index : N) : list byte :=
  SEGMENT_MAGIC ++ to_le_bytes 4 LOG_FORMAT_VERSION ++ to_le_bytes 8 start_index.

Definition frame_size (payload_size : N) : N :=
  usize_saturating_add (usize_saturating_add BATCH_HEADER_LEN payload_size) BATCH_TRAILER_LEN.

(** The loop over the entries of a batch: each with its length before it. *)
Fixpoint encode_entries (start_index ordinal : N) (entries : list (N * list byte)) :
  Result (list byte) IoError :=
  match entries with
  | [] => Ok []
  | (index, bytes) :: entries =>
    match u64_checked_add start_index ordinal with
    | None => Err (invalid_data "Raft-log index overflow")
    | Some expected_index =>
      if negb (index =? expected_index) then
        Err (invalid_data ("non-contiguous Raft-log append: expected index "
               +:+ pretty expected_index +:+ ", found " +:+ pretty index))
      else
        match u32_try_from (vec_len bytes) with
        | None => Err (invalid_data "Raft-log entry exceeds the frame length field")
        | Some length =>
          let? rest := encode_entries start_index (ordinal + 1) entries in
          Ok (to_le_bytes 4 length ++ bytes ++ rest)
        end
    end
  end.

(** The header of a batch up to its checksum. *)
Definition batch_header (start_generation start_index count payload_length : N) : list byte :=
  BATCH_MAGIC ++ to_le_bytes 8 start_generation ++ to_le_bytes 8 start_index
  ++ to_le_bytes 4 count ++ to_le_bytes 8 payload_length.

(** The header with its checksum, and the payload. *)
Definition batch_body (start_generation start_index count : N) (payload : list byte) : list byte :=
  let header := batch_header start_generation start_index count (vec_len payload) in
  header ++ to_le_bytes 4 (crc32 header) ++ payload.

Definition encode_frame (start_generation start_index : N) (entries : list (N * list byte)) :
  Result (list byte) IoError :=
  match u32_try_from (vec_len entries) with
  | None => Err (invalid_data "Raft-log segment batch has too many entries")
  | Some count =>
    let? payload := encode_entries start_index 0 entries in
    let frame := batch_body start_generation start_index count payload in
    Ok (frame ++ to_le_bytes 4 (crc32 frame) ++ BATCH_END)
  end.

(** ** Names of files *)

Definition SEGMENT_PREFIX : list byte := as_bytes "segment-".
Definition SEGMENT_SUFFIX : list byte := as_bytes ".rlog".

Definition segment_file_name (start_index : N) : string :=
  of_bytes (SEGMENT_PREFIX ++ dec_digits 20 start_index ++ SEGMENT_SUFFIX).

(** The index in the name of a segment. *)
Definition segment_index (name : string) : Result N IoError :=
  let stem := file_stem (as_bytes name) in
  match strip_prefix SEGMENT_PREFIX stem with
  | Some index =>
    match parse_uint u64_max index with
    | Some index => Ok index
    | None => Err (invalid_data ("invalid Raft-log segment filename '" +:+ of_bytes stem +:+ "'"))
    end
  | None => Err (invalid_data ("invalid Raft-log segment filename '" +:+ of_bytes stem +:+ "'"))
  end.

Definition temporary_process (name : list byte) : option (list byte) :=
  match strip_prefix (as_bytes "control.tmp-") name with
  | Some process_id => Some process_id
  | None =>
    match strip_prefix SEGMENT_PREFIX name with
    | Some segment =>
      match split_once (as_bytes ".tmp-") segment with
      | Some (index, process_id) =>
        if negb (Nat.eqb (length index) 20) || negb (forallb is_ascii_digit index)
           || negb (bool_decide (is_Some (parse_uint u64_max index)))
        then None
        else Some process_id
      | None => None
      end
    | None => None
    end
  end.

Definition is_temporary_artifact (name : string) : bool :=
  match temporary_process (as_bytes name) with
  | Some process_id =>
    forallb is_ascii_digit process_id && bool_decide (is_Some (parse_uint u32_max process_id))
  | None => false
  end.

(** ** Reading *)

Definition read_u32 (bytes : list byte) (offset : nat) : Result N IoError :=
  let value := slice offset (offset + 4) bytes in
  if Nat.eqb (length value) 4 then Ok (from_le_bytes value) else Err (invalid_data "truncated Raft-log integer").

Definition read_u64 (bytes : list byte) (offset : nat) : Result N IoError :=
  let value := slice offset (offset + 8) bytes in
  if Nat.eqb (length value) 8 then Ok (from_le_bytes value) else Err (invalid_data "truncated Raft-log integer").

Section parse.
Context {E Vote : Type} `{J : LogJson E Vote} (path : Path) (state : ControlState Vote).

Definition entry_index (e : E) : N := li_index (entry_log_id e).

(** [retain_record]: while a truncation is pending, entries from its boundary
    on are gone, and no earlier entry belongs to the new generation. *)
Definition retain_record (generation expected_index : N) : Result bool IoError :=
  match cl_truncation_pending_from state with
  | None => Ok true
  | Some boundary =>
    if boundary <=? expected_index then Ok false
    else if generation <? cl_generation state then Ok true
    else Err (invalid_data ("Raft-log entry at index " +:+ pretty expected_index
                +:+ " belongs to the pending truncation generation"))
  end.

(** The entries of a batch, from what is left of its payload. *)
Fixpoint parse_entries (count : nat) (generation batch_start ordinal : N) (payload : list byte)
  (records : list (EntryRecord E)) : Result (list (EntryRecord E)) IoError :=
  match count with
  | O =>
    match payload with
    | [] => Ok records
    | _ => Err (invalid_data "Raft-log batch has trailing entry payload bytes")
    end
  | S count =>
    if (length payload <? 4)%nat then
      Err (invalid_data "truncated Raft-log entry frame in completed batch")
    else
      let? entry_length := read_u32 payload 0 in
      let payload := drop 4 payload in
      if vec_len payload <? entry_length then
        Err (invalid_data "truncated Raft-log entry in completed batch")
      else
        let? entry := of_json (entry_from_json (take (N.to_nat entry_length) payload)) in
        match u64_checked_add batch_start ordinal with
        | None => Err (invalid_data "Raft-log entry index overflow")
        | Some expected_index =>
          if negb (entry_index entry =? expected_index) then
            Err (invalid_data ("Raft-log entry index " +:+ pretty (entry_index entry)
                   +:+ " does not match batch index " +:+ pretty expected_index))
          else
            let? retain := retain_record generation expected_index in
            let records :=
              if (retain : bool) then records ++ [{| er_generation := generation; er_entry := entry |}]
              else records in
            parse_entries count generation batch_start (ordinal + 1)
              (drop (N.to_nat entry_length) payload) records
        end
  end.

(** What the loop over the batches has gathered: the records, the number of
    entries, the length of the complete batches, and whether bytes follow. *)
Record ParsedBatches := {
  pb_records : list (EntryRecord E);
  pb_record_count : N;
  pb_offset : N;
  pb_incomplete_tail : bool;
}.

(** A complete batch of [frame_length] bytes at the start of [rest]. *)
Definition parse_batch (rest : list byte) (payload_length : N) (records : list (EntryRecord E)) (offset : N) :
  Result (list (EntryRecord E) * N) IoError :=
  let? generation := read_u64 rest 4 in
  let? batch_start := read_u64 rest 12 in
  let? count := read_u32 rest 20 in
  let checksum_position := N.to_nat (BATCH_HEADER_LEN + payload_length) in
  let? checksum := read_u32 rest checksum_position in
  if negb (bool_decide (slice (checksum_position + 4) (checksum_position + 8) rest = BATCH_END)) then
    Err (invalid_data ("invalid Raft-log batch completion marker in '" +:+ path_display path
           +:+ "' at byte " +:+ pretty offset))
  else if negb (crc32 (take checksum_position rest) =? checksum) then
    Err (invalid_data ("Raft-log batch checksum mismatch in '" +:+ path_display path
           +:+ "' at byte " +:+ pretty offset))
  else if count =? 0 then Err (invalid_data "Raft-log batch cannot be empty")
  else
    let? records :=
      parse_entries (N.to_nat count) generation batch_start 0
        (slice (N.to_nat BATCH_HEADER_LEN) checksum_position rest) records in
    Ok (records, count).

(** The loop over the batches of a segment: [rest] is [bytes[offset..]]. *)
Fixpoint parse_batches (fuel : nat) (rest : list byte) (batches : ParsedBatches) :
  Result ParsedBatches IoError :=
  match rest, fuel with
  | [], _ => Ok batches
  | _, O => Ok batches
  | _, S fuel =>
    let offset := pb_offset batches in
    let incomplete :=
      {| pb_records := pb_records batches; pb_record_count := pb_record_count batches;
         pb_offset := offset; pb_incomplete_tail := true |} in
    let remaining := vec_len rest in
    if remaining <? BATCH_HEADER_LEN then Ok incomplete
    else if negb (bool_decide (slice 0 4 rest = BATCH_MAGIC)) then
      Err (invalid_data ("invalid Raft-log batch marker in '" +:+ path_display path
             +:+ "' at byte " +:+ pretty offset))
    else
      let? payload_length := read_u64 rest 24 in
      let? header_checksum := read_u32 rest 32 in
      if negb (crc32 (take 32 rest) =? header_checksum) then
        Err (invalid_data ("Raft-log batch header checksum mismatch in '" +:+ path_display path
               +:+ "' at byte " +:+ pretty offset))
      else
        let frame_length :=
          match u64_checked_add BATCH_HEADER_LEN payload_length with
          | Some length => u64_checked_add length BATCH_TRAILER_LEN
          | None => None
          end in
        match frame_length with
        | None => Err (invalid_data "Raft-log batch length overflow")
        | Some frame_length =>
          if remaining <? frame_length then Ok incomplete
          else
            let? (records, count) := parse_batch rest payload_length (pb_records batches) offset in
            parse_batches fuel (drop (N.to_nat frame_length) rest)
              {| pb_records := records; pb_record_count := pb_record_count batches + count;
                 pb_offset := offset + frame_length; pb_incomplete_tail := false |}
        end
  end.

(** [parse_segment] on the bytes of the file. A batch takes more than one byte,
    so as many rounds as the file has bytes are enough. *)
Definition parse_segment (bytes : list byte) (expected_start : N) : Result (ReadSegment E) IoError :=
  if vec_len bytes <? SEGMENT_HEADER_LEN then
    Err (invalid_data ("truncated Raft-log segment header in '" +:+ path_display path +:+ "'"))
  else if negb (bool_decide (slice 0 4 bytes = SEGMENT_MAGIC)) then
    Err (invalid_data ("invalid Raft-log segment magic in '" +:+ path_display path +:+ "'"))
  else
    let? version := read_u32 bytes 4 in
    if negb (version =? LOG_FORMAT_VERSION) then
      Err (invalid_data ("unsupported Raft-log segment version " +:+ pretty version +:+ " in '"
             +:+ path_display path +:+ "'"))
    else
      let? start_index := read_u64 bytes 8 in
      if negb (start_index =? expected_start) then
        Err (invalid_data ("Raft-log segment filename index " +:+ pretty expected_start
               +:+ " does not match header index " +:+ pretty start_index))
      else
        let? batches :=
          parse_batches (length bytes) (drop (N.to_nat SEGMENT_HEADER_LEN) bytes)
            {| pb_records := []; pb_record_count := 0; pb_offset := SEGMENT_HEADER_LEN;
               pb_incomplete_tail := false |} in
        if pb_record_count batches =? 0 then
          Err (invalid_data ("Raft-log segment '" +:+ path_display path
                 +:+ "' contains no complete batch"))
        else
          Ok {| rg_name := path_file_name path; rg_start_index := start_index;
                rg_records := pb_records batches; rg_record_count := pb_record_count batches;
                rg_valid_length := pb_offset batches;
                rg_incomplete_tail := pb_incomplete_tail batches |}.
End parse.

(** ** What is written is read back *)

Lemma crc32_bit_bound c : c < 2 ^ 32 -> crc32_bit c < 2 ^ 32.
Proof.
  intros Hc. unfold crc32_bit. apply lxor_bound.
  - apply N.lt_le_trans with (2 ^ 31); [|done]. apply (shiftr_lt_pow2 c 1 31). exact Hc.
  - apply N.le_lt_trans with 0xedb88320; [|done]. apply N.land_le_l.
Qed.

Lemma crc32_byte_bound c b : c < 2 ^ 32 -> crc32_byte c b < 2 ^ 32.
Proof.
  intros Hc. unfold crc32_byte.
  assert (H : N.lxor c (Byte.to_N b) < 2 ^ 32).
  { apply lxor_bound; [done|]. apply N.lt_trans with 256; [apply byte_to_N_bound|done]. }
  revert H. generalize (N.lxor c (Byte.to_N b)). intros x Hx.
  assert (H : forall n, Nat.iter n crc32_bit x < 2 ^ 32); [|apply H].
  intros n. induction n as [|n IH]; [exact Hx|]. cbn [Nat.iter]. by apply crc32_bit_bound.
Qed.

Lemma crc32_bound l : crc32 l < 2 ^ 32.
Proof.
  unfold crc32. apply u32_not_bound. assert (H : u32_max < 2 ^ 32) by done. revert H. generalize u32_max.
  induction l as [|b l IH]; intros c Hc; [done|]. cbn. by apply IH, crc32_byte_bound.
Qed.

#[local] Arguments to_le_bytes : simpl never.
#[local] Arguments N.add : simpl never.

Section written.
Context {E Vote : Type} {J : LogJson E Vote} {L : LogJsonLaws J}.

Definition entry_json (e : E) : list byte := default [] (entry_to_json e).

Lemma entry_to_json_eq e : entry_to_json e = Some (entry_json e).
Proof. unfold entry_json. by destruct (entry_json_total e) as [l ->]. Qed.

(** The entries with their index and text, as the log store hands them over. *)
Definition encoded (es : list E) : list (N * list byte) := (fun e => (entry_index e, entry_json e)) <$> es.

Definition contiguous (i : N) (es : list E) : Prop := forall k e, es !! k = Some e -> entry_index e = i + N.of_nat k.

Definition payload_bytes (es : list E) : list byte :=
  concat ((fun e => to_le_bytes 4 (vec_len (entry_json e)) ++ entry_json e) <$> es).

Definition first_index (es : list E) : N := match es with [] => 0 | e :: _ => entry_index e end.

Definition frame_bytes (generation : N) (es : list E) : list byte :=
  let body := batch_body generation (first_index es) (vec_len es) (payload_bytes es) in
  body ++ to_le_bytes 4 (crc32 body) ++ BATCH_END.

(** Entries that fit in one batch. *)
Record fits (es : list E) : Prop := {
  fit_some : es <> [];
  fit_entries : Forall (fun e => vec_len (entry_json e) <= u32_max) es;
  fit_count : vec_len es <= u32_max;
  fit_contiguous : contiguous (first_index es) es;
  fit_length : 44 + vec_len (payload_bytes es) <= u64_max;
}.

Lemma contiguous_cons i e es : contiguous i (e :: es) <-> entry_index e = i /\ contiguous (i + 1) es.
Proof.
  split.
  - intros H. split; [rewrite (H 0%nat e eq_refl); lia|]. intros k e' Hk. rewrite (H (S k) e' Hk). lia.
  - intros [He H] [|k] e' Hk; cbn in Hk; [injection Hk as <-; lia|]. rewrite (H k e' Hk). lia.
Qed.

Lemma contiguous_app i es es' : contiguous i (es ++ es') <-> contiguous i es /\ contiguous (i + vec_len es) es'.
Proof.
  revert i; induction es as [|e es IH]; intros i; cbn [app].
  - rewrite vec_len_nil, N.add_0_r. split; [intros H; split; [|done]|by intros []].
    intros k e Hk. by rewrite lookup_nil in Hk.
  - rewrite !contiguous_cons, IH, vec_len_cons, N.add_assoc. tauto.
Qed.

Lemma contiguous_nil i : contiguous i [].
Proof. intros k e Hk. by rewrite lookup_nil in Hk. Qed.

Lemma payload_bytes_cons e es :
  payload_bytes (e :: es) = to_le_bytes 4 (vec_len (entry_json e)) ++ entry_json e ++ payload_bytes es.
Proof. unfold payload_bytes. cbn [fmap list_fmap concat]. by rewrite <-app_assoc. Qed.

(** What [encode_entries] accepts, and what it writes. *)
Lemma encode_entries_spec start ordinal es :
  contiguous (start + ordinal) es -> Forall (fun e => vec_len (entry_json e) <= u32_max) es ->
  encode_entries start ordinal (encoded es) = Ok (payload_bytes es).
Proof.
  revert ordinal; induction es as [|e es IH]; intros ordinal Hc Hf; [done|].
  apply contiguous_cons in Hc as [He Hc]. apply Forall_cons in Hf as [Hl Hf]. cbn [encoded fmap list_fmap encode_entries].
  pose proof (entry_index_u64 e) as Hu. change (li_index (entry_log_id e)) with (entry_index e) in Hu.
  unfold u64_checked_add. rewrite (proj2 (N.leb_le _ _)) by lia.
  rewrite (proj2 (N.eqb_eq _ _)) by done. cbn [negb]. unfold u32_try_from. rewrite (proj2 (N.leb_le _ _)) by done.
  rewrite payload_bytes_cons.
  change ((fun e0 : E => (entry_index e0, entry_json e0)) <$> es) with (encoded es).
  by rewrite IH by (rewrite ?N.add_assoc; done).
Qed.

Lemma encode_entries_inv start ordinal es payload :
  encode_entries start ordinal (encoded es) = Ok payload ->
  payload = payload_bytes es /\ contiguous (start + ordinal) es /\
  Forall (fun e => vec_len (entry_json e) <= u32_max) es.
Proof.
  revert ordinal payload; induction es as [|e es IH]; intros ordinal payload; cbn [encoded fmap list_fmap encode_entries].
  - intros [= <-]. split_and!; [done|apply contiguous_nil|constructor].
  - unfold u64_checked_add. n_cases; [|done]. destruct (N.eqb_spec (entry_index e) (start + ordinal)) as [He|]; [|done].
    cbn [negb]. unfold u32_try_from. n_cases; [|done].
    destruct (encode_entries _ _ _) as [rest|] eqn:Er; [|done]. intros [= <-].
    apply IH in Er as (-> & Hc & Hf). split_and!; [by rewrite payload_bytes_cons| |by constructor].
    apply contiguous_cons. split; [done|]. by rewrite <-N.add_assoc.
Qed.

Lemma vec_len_encoded es : vec_len (encoded es) = vec_len es.
Proof. unfold vec_len, encoded. by rewrite length_fmap. Qed.

Lemma encode_frame_fits generation es : fits es -> encode_frame generation (first_index es) (encoded es) = Ok (frame_bytes generation es).
Proof.
  intros []. unfold encode_frame, u32_try_from. rewrite vec_len_encoded, (proj2 (N.leb_le _ _)) by done.
  rewrite encode_entries_spec by (rewrite ?N.add_0_r; done). done.
Qed.

(** The bytes of a batch. *)
Lemma batch_header_len generation start count n : length (batch_header generation start count n) = 32%nat.
Proof. unfold batch_header. rewrite !length_app, !length_to_le_bytes. done. Qed.

Lemma frame_bytes_eq generation es :
  let header := batch_header generation (first_index es) (vec_len es) (vec_len (payload_bytes es)) in
  let body := header ++ to_le_bytes 4 (crc32 header) ++ payload_bytes es in
  frame_bytes generation es = header ++ to_le_bytes 4 (crc32 header) ++ payload_bytes es ++ to_le_bytes 4 (crc32 body) ++ BATCH_END.
Proof. cbv zeta. unfold frame_bytes, batch_body. cbv zeta. by rewrite <-!app_assoc. Qed.

Lemma vec_len_frame generation es : vec_len (frame_bytes generation es) = 44 + vec_len (payload_bytes es).
Proof.
  rewrite frame_bytes_eq. unfold vec_len. rewrite !length_app, !length_to_le_bytes, batch_header_len.
  change (length BATCH_END) with 4%nat. lia.
Qed.

(** Fields at their offsets. *)
Lemma slice_at l l1 x l2 a b : l = l1 ++ x ++ l2 -> length l1 = a -> (a + length x)%nat = b -> slice a b l = x.
Proof.
  intros -> <- <-. unfold slice. rewrite drop_app_length. replace (length l1 + length x - length l1)%nat with (length x) by lia.
  by rewrite take_app_length.
Qed.

Lemma read_u32_at l l1 v l2 off :
  l = l1 ++ to_le_bytes 4 v ++ l2 -> length l1 = off -> v < 2 ^ 32 -> read_u32 l off = Ok v.
Proof.
  intros Hl Hoff Hv. unfold read_u32. rewrite (slice_at l l1 (to_le_bytes 4 v) l2) by (rewrite ?length_to_le_bytes; done).
  rewrite length_to_le_bytes. cbn. by rewrite from_to_le_bytes.
Qed.

Lemma read_u64_at l l1 v l2 off :
  l = l1 ++ to_le_bytes 8 v ++ l2 -> length l1 = off -> v < 2 ^ 64 -> read_u64 l off = Ok v.
Proof.
  intros Hl Hoff Hv. unfold read_u64. rewrite (slice_at l l1 (to_le_bytes 8 v) l2) by (rewrite ?length_to_le_bytes; done).
  rewrite length_to_le_bytes. cbn. by rewrite from_to_le_bytes.
Qed.

(** The entries that a pending truncation leaves. *)
Definition before (state : ControlState Vote) (index : N) : bool :=
  is_none_or (fun boundary => index <? boundary) (cl_truncation_pending_from state).

Definition records (generation : N) (es : list E) : list (EntryRecord E) :=
  (fun e => {| er_generation := generation; er_entry := e |}) <$> es.

Definition remaining (state : ControlState Vote) (es : list E) : list E :=
  filter (fun e => before state (entry_index e) = true) es.

(** Entries before the boundary of a pending truncation are of earlier generations. *)
Definition earlier (state : ControlState Vote) (generation : N) : Prop :=
  is_Some (cl_truncation_pending_from state) -> generation < cl_generation state.

Lemma retain_record_spec state generation i : earlier state generation -> retain_record state generation i = Ok (before state i).
Proof.
  unfold earlier, retain_record, before. destruct (cl_truncation_pending_from state) as [b|]; [|done].
  intros H. specialize (H ltac:(done)). cbn. destruct (N.leb_spec b i), (N.ltb_spec i b); try done; [lia| |lia].
  by rewrite (proj2 (N.ltb_lt _ _)).
Qed.

Lemma parse_entries_written state generation start ordinal es recs :
  earlier state generation ->
  contiguous (start + ordinal) es -> Forall (fun e => vec_len (entry_json e) <= u32_max) es ->
  parse_entries state (length es) generation start ordinal (payload_bytes es) recs =
    Ok (recs ++ records generation (remaining state es)).
Proof.
  intros Hgen. revert ordinal recs; induction es as [|e es IH]; intros ordinal recs Hc Hf.
  - cbn. by rewrite app_nil_r.
  - apply contiguous_cons in Hc as [He Hc]. apply Forall_cons in Hf as [Hl Hf].
    rewrite payload_bytes_cons. cbn [length parse_entries].
    rewrite (proj2 (Nat.ltb_ge _ _)) by (rewrite length_app, length_to_le_bytes; lia).
    assert (Hl' : vec_len (entry_json e) < 2 ^ 32) by (change u32_max with (2 ^ 32 - 1) in Hl; lia).
    rewrite (read_u32_at _ [] (vec_len (entry_json e)) (entry_json e ++ payload_bytes es)) by done.
    rewrite drop_app_length' by (by rewrite length_to_le_bytes).
    rewrite (proj2 (N.ltb_ge _ _)) by (rewrite vec_len_app; lia).
    assert (Hn : N.to_nat (vec_len (entry_json e)) = length (entry_json e)) by (unfold vec_len; lia).
    rewrite Hn, take_app_length, drop_app_length.
    rewrite (entry_json_roundtrip e _ (entry_to_json_eq e)). cbn [of_json].
    pose proof (entry_index_u64 e) as Hu. change (li_index (entry_log_id e)) with (entry_index e) in Hu.
    unfold u64_checked_add. rewrite (proj2 (N.leb_le _ _)) by lia.
    rewrite (proj2 (N.eqb_eq _ _)) by done. cbn [negb]. rewrite <-He, retain_record_spec by done.
    rewrite IH by (rewrite ?N.add_assoc; done). unfold remaining. rewrite filter_cons.
    destruct (before state (entry_index e)); cbn; [|done]. by rewrite <-app_assoc.
Qed.

Definition frame_header (generation : N) (es : list E) : list byte :=
  batch_header generation (first_index es) (vec_len es) (vec_len (payload_bytes es)).

Definition frame_body (generation : N) (es : list E) : list byte :=
  batch_body generation (first_index es) (vec_len es) (payload_bytes es).

Lemma frame_split generation es rest :
  frame_bytes generation es ++ rest =
  BATCH_MAGIC ++ to_le_bytes 8 generation ++ to_le_bytes 8 (first_index es) ++ to_le_bytes 4 (vec_len es)
  ++ to_le_bytes 8 (vec_len (payload_bytes es)) ++ to_le_bytes 4 (crc32 (frame_header generation es))
  ++ payload_bytes es ++ to_le_bytes 4 (crc32 (frame_body generation es)) ++ BATCH_END ++ rest.
Proof.
  rewrite frame_bytes_eq. unfold batch_header at 1. rewrite <-!app_assoc. done.
Qed.

(** A field that follows what a list of fields takes up. *)
Tactic Notation "at_field" constr(pre) :=
  lazymatch goal with
  | |- read_u32 _ _ = _ => eapply (read_u32_at _ pre)
  | |- read_u64 _ _ = _ => eapply (read_u64_at _ pre)
  | |- slice _ _ _ = _ => eapply (slice_at _ pre)
  end; [rewrite frame_split, <-?app_assoc; reflexivity|rewrite ?length_app, ?length_to_le_bytes; try reflexivity|].

Lemma u64_max_lt v : v <= u64_max -> v < 2 ^ 64.
Proof. change u64_max with (2 ^ 64 - 1). lia. Qed.

Lemma u32_max_lt v : v <= u32_max -> v < 2 ^ 32.
Proof. change u32_max with (2 ^ 32 - 1). lia. Qed.

Section frame.
Context (generation : N) (es : list E) (Hg : generation <= u64_max) (Hfit : fits es) (rest : list byte).

Abbreviation frame := (frame_bytes generation es).
Abbreviation m8 := (BATCH_MAGIC ++ to_le_bytes 8 generation).
Abbreviation m16 := (m8 ++ to_le_bytes 8 (first_index es)).
Abbreviation m20 := (m16 ++ to_le_bytes 4 (vec_len es)).
Abbreviation m28 := (m20 ++ to_le_bytes 8 (vec_len (payload_bytes es))).

Lemma first_index_u64 : first_index es <= u64_max.
Proof. destruct es as [|e es']; [by apply N.leb_le|]. apply (entry_index_u64 e). Qed.

Lemma frame_magic : slice 0 4 (frame ++ rest) = BATCH_MAGIC.
Proof. at_field (@nil byte). done. Qed.

Lemma frame_generation : read_u64 (frame ++ rest) 4 = Ok generation.
Proof. at_field BATCH_MAGIC. by apply u64_max_lt. Qed.

Lemma frame_start : read_u64 (frame ++ rest) 12 = Ok (first_index es).
Proof. at_field m8. apply u64_max_lt, first_index_u64. Qed.

Lemma frame_count : read_u32 (frame ++ rest) 20 = Ok (vec_len es).
Proof. at_field m16. apply u32_max_lt, Hfit. Qed.

Lemma frame_payload_length : read_u64 (frame ++ rest) 24 = Ok (vec_len (payload_bytes es)).
Proof. at_field m20. apply u64_max_lt. pose proof (fit_length es Hfit). lia. Qed.

Lemma frame_header_checksum : read_u32 (frame ++ rest) 32 = Ok (crc32 (frame_header generation es)).
Proof. at_field m28. apply crc32_bound. Qed.

Lemma frame_header_bytes : take 32 (frame ++ rest) = frame_header generation es.
Proof.
  rewrite frame_bytes_eq, <-!app_assoc.
  by rewrite take_app_length' by (by rewrite batch_header_len).
Qed.

Lemma length_payload : N.to_nat (BATCH_HEADER_LEN + vec_len (payload_bytes es)) = (36 + length (payload_bytes es))%nat.
Proof. unfold BATCH_HEADER_LEN, vec_len. lia. Qed.

Lemma frame_body_len : length (frame_body generation es) = (36 + length (payload_bytes es))%nat.
Proof.
  unfold frame_body, batch_body. rewrite !length_app, length_to_le_bytes, batch_header_len. lia.
Qed.

Lemma frame_body_split : frame ++ rest = frame_body generation es ++ to_le_bytes 4 (crc32 (frame_body generation es)) ++ BATCH_END ++ rest.
Proof. unfold frame_bytes. cbv zeta. by rewrite <-!app_assoc. Qed.

Lemma parse_batch_written path (state : ControlState Vote) recs offset :
  earlier state generation ->
  parse_batch path state (frame ++ rest) (vec_len (payload_bytes es)) recs offset =
    Ok (recs ++ records generation (remaining state es), vec_len es).
Proof.
  intros He. unfold parse_batch. rewrite frame_generation, frame_start, frame_count. cbv zeta. rewrite length_payload.
  pose proof frame_body_len as Hb.
  rewrite (read_u32_at _ (frame_body generation es) (crc32 (frame_body generation es)) (BATCH_END ++ rest)
    _ frame_body_split Hb (crc32_bound _)).
  assert (Hend : slice (36 + length (payload_bytes es) + 4) (36 + length (payload_bytes es) + 8) (frame ++ rest) = BATCH_END).
  { eapply slice_at; [rewrite frame_body_split, (app_assoc (frame_body _ _)); reflexivity| |].
    - rewrite length_app, length_to_le_bytes, Hb. lia.
    - change (length BATCH_END) with 4%nat. lia. }
  rewrite Hend, bool_decide_eq_true_2 by done. cbn [negb].
  assert (Ht : take (36 + length (payload_bytes es)) (frame ++ rest) = frame_body generation es).
  { rewrite frame_body_split. by rewrite take_app_length'. }
  rewrite Ht, N.eqb_refl. cbn [negb]. destruct (N.eqb_spec (vec_len es) 0) as [H0|_].
  { exfalso. apply (fit_some es Hfit), length_zero_iff_nil. unfold vec_len in H0. lia. }
  rewrite (slice_at _ (frame_header generation es ++ to_le_bytes 4 (crc32 (frame_header generation es)))
    (payload_bytes es) (to_le_bytes 4 (crc32 (frame_body generation es)) ++ BATCH_END ++ rest)).
  - assert (Hn : N.to_nat (vec_len es) = length es) by (unfold vec_len; lia). rewrite Hn.
    destruct Hfit as [_ Hf _ Hc _]. by rewrite parse_entries_written by (rewrite ?N.add_0_r; done).
  - rewrite frame_body_split. unfold frame_body at 1, batch_body. by rewrite <-!app_assoc.
  - unfold frame_header. by rewrite length_app, length_to_le_bytes, batch_header_len.
  - unfold BATCH_HEADER_LEN. lia.
Qed.
End frame.

(** A batch that is complete is read; a batch that is cut short ends the file. *)
Lemma frame_length_ok es : fits es ->
  match u64_checked_add BATCH_HEADER_LEN (vec_len (payload_bytes es)) with
  | Some length => u64_checked_add length BATCH_TRAILER_LEN
  | None => None
  end = Some (44 + vec_len (payload_bytes es)).
Proof.
  intros Hf. pose proof (fit_length es Hf) as Hl. unfold u64_checked_add, BATCH_HEADER_LEN, BATCH_TRAILER_LEN.
  rewrite (proj2 (N.leb_le _ _)) by lia. rewrite (proj2 (N.leb_le _ _)) by lia. f_equal. lia.
Qed.

Lemma parse_batches_frame path (state : ControlState Vote) fuel generation es rest b :
  generation <= u64_max -> fits es -> earlier state generation ->
  parse_batches path state (S fuel) (frame_bytes generation es ++ rest) b =
  parse_batches path state fuel rest
    {| pb_records := pb_records b ++ records generation (remaining state es);
       pb_record_count := pb_record_count b + vec_len es;
       pb_offset := pb_offset b + vec_len (frame_bytes generation es);
       pb_incomplete_tail := false |}.
Proof.
  intros Hg Hf He. set (l := frame_bytes generation es ++ rest).
  assert (Hlen : vec_len l = 44 + vec_len (payload_bytes es) + vec_len rest).
  { unfold l. by rewrite vec_len_app, vec_len_frame. }
  destruct l as [|x l'] eqn:El; [rewrite vec_len_nil in Hlen; lia|]. rewrite <-El in *.
  cbn [parse_batches]. rewrite El. rewrite <-El. unfold l in *.
  rewrite (proj2 (N.ltb_ge _ _)) by (unfold BATCH_HEADER_LEN; lia).
  rewrite frame_magic, bool_decide_eq_true_2 by done. cbn [negb].
  rewrite frame_payload_length, frame_header_checksum, frame_header_bytes by done. rewrite N.eqb_refl. cbn [negb].
  rewrite frame_length_ok by done. rewrite (proj2 (N.ltb_ge _ _)) by lia.
  rewrite parse_batch_written by done. rewrite <-vec_len_frame with (generation := generation).
  assert (Hd : N.to_nat (vec_len (frame_bytes generation es)) = length (frame_bytes generation es)) by (unfold vec_len; lia).
  by rewrite Hd, drop_app_length.
Qed.

Lemma take_take_app {A} (l1 l2 : list A) n m : (n <= length l1)%nat -> (n <= m)%nat -> take n (take m (l1 ++ l2)) = take n l1.
Proof. intros H1 H2. rewrite take_take, Nat.min_l by done. by apply take_app_le. Qed.

(** What a crash leaves of a batch: a part that is not all of it. *)
Definition torn_batch (t : list byte) : Prop :=
  t = [] \/ exists generation es n, generation <= u64_max /\ fits es /\
    (n < length (frame_bytes generation es))%nat /\ t = take n (frame_bytes generation es).

Lemma torn_nil : torn_batch [].
Proof. by left. Qed.

Lemma slice_take n a b (l : list byte) : (b <= n)%nat -> slice a b (take n l) = slice a b l.
Proof.
  intros H. unfold slice. rewrite skipn_firstn_comm, take_take. f_equal. lia.
Qed.

Lemma read_u32_take n l off v : (off + 4 <= n)%nat -> read_u32 l off = Ok v -> read_u32 (take n l) off = Ok v.
Proof. intros H Hr. unfold read_u32 in *. by rewrite slice_take. Qed.

Lemma read_u64_take n l off v : (off + 8 <= n)%nat -> read_u64 l off = Ok v -> read_u64 (take n l) off = Ok v.
Proof. intros H Hr. unfold read_u64 in *. by rewrite slice_take. Qed.

Lemma parse_batches_torn path (state : ControlState Vote) fuel t b :
  torn_batch t -> t <> [] ->
  parse_batches path state (S fuel) t b =
    Ok {| pb_records := pb_records b; pb_record_count := pb_record_count b; pb_offset := pb_offset b;
          pb_incomplete_tail := true |}.
Proof.
  intros [->|(generation & es & n & Hg & Hf & Hn & Ht)] Hne; [done|].
  assert (Hlen : vec_len t = N.of_nat n) by (rewrite Ht; unfold vec_len; rewrite length_take; f_equal; lia).
  pose proof (vec_len_frame generation es) as Hfl. unfold vec_len at 1 in Hfl.
  destruct t as [|x t'] eqn:Et; [done|]. rewrite <-Et in *. cbn [parse_batches]. rewrite Et, <-Et, Hlen.
  destruct (N.ltb_spec (N.of_nat n) BATCH_HEADER_LEN) as [|Hh]; [done|]. unfold BATCH_HEADER_LEN in Hh.
  rewrite Ht, slice_take by lia. rewrite <-(app_nil_r (frame_bytes generation es)).
  rewrite frame_magic, bool_decide_eq_true_2 by done. cbn [negb].
  rewrite (read_u64_take n _ 24 _ ltac:(lia) (frame_payload_length generation es Hg Hf [])).
  rewrite (read_u32_take n _ 32 _ ltac:(lia) (frame_header_checksum generation es [])).
  rewrite take_take, Nat.min_l by lia. rewrite frame_header_bytes, N.eqb_refl. cbn [negb].
  rewrite frame_length_ok by done. by rewrite (proj2 (N.ltb_lt _ _)) by lia.
Qed.
End written.
