(* ===== verification/RaftLogSegments.v ===== *)
(** The segment store of crates/runnel-raft/src/raft_log_segments.rs: appends,
    truncations and purges of the durable Raft log, and its recovery.

    Operations return the new store; after an error the log store above never
    uses the old one again, so what an error leaves of the store in memory does
    not matter. *)

From S2P Require Import Prelude Engine RecordFormat Names Paths Disk RaftLogFormat.

Local Open Scope N_scope.

(** [path.with_extension(format!("tmp-{}", std::process::id()))] *)
Definition temp_path (os : Os) (path : Path) : Path :=
  {| path_parent := path_parent path;
     path_file_name :=
       of_bytes (with_extension (as_bytes (path_file_name path)) (as_bytes "tmp-" ++ dec_u32 (os_pid os))) |}.

(** [atomic_write_with_role]: the file is complete under a temporary name before
    it takes the place of the old one. *)
Definition atomic_write (os : Os) (path : Path) (bytes : list byte) : Io unit :=
  let temp := temp_path os path in
  do* create_dir_all os (path_parent path) in
  do* file_create os temp in
  do* file_write os temp bytes in
  do* sync os in
  do* rename os temp path in
  sync os.

Definition family_directory (marker_path : Path) : string :=
  path_parent marker_path +:+ "/"
  +:+ of_bytes (with_extension (as_bytes (path_file_name marker_path)) (as_bytes "segments")).

Definition ARTIFACT : string := "runnel-raft-log-segments".
Definition CONTROL_FILE : string := "control.json".

Section segments.
Context {E Vote : Type} {J : LogJson E Vote} (os : Os).

Record SegmentStore := {
  sg_marker_path : Path;
  sg_directory : string;
  sg_control : ControlState Vote;
  sg_tail : option Tail;
}.

Definition in_directory (directory name : string) : Path :=
  {| path_parent := directory; path_file_name := name |}.

Definition set_control (store : SegmentStore) (control : ControlState Vote) : SegmentStore :=
  {| sg_marker_path := sg_marker_path store; sg_directory := sg_directory store; sg_control := control;
     sg_tail := sg_tail store |}.

Definition set_tail (store : SegmentStore) (tail : option Tail) : SegmentStore :=
  {| sg_marker_path := sg_marker_path store; sg_directory := sg_directory store;
     sg_control := sg_control store; sg_tail := tail |}.

(** The control state with another pending truncation, purge point and so on. *)
Definition with_pending (c : ControlState Vote) (generation : N) (pending : option N) : ControlState Vote :=
  {| cl_generation := generation; cl_truncation_pending_from := pending;
     cl_last_purged_log_id := cl_last_purged_log_id c; cl_committed := cl_committed c; cl_vote := cl_vote c |}.

Definition with_purged (c : ControlState Vote) (floor : option LogId) : ControlState Vote :=
  {| cl_generation := cl_generation c; cl_truncation_pending_from := cl_truncation_pending_from c;
     cl_last_purged_log_id := floor; cl_committed := cl_committed c; cl_vote := cl_vote c |}.

(** ** The control file *)

Definition persist_control (store : SegmentStore) (state : ControlState Vote) : Io SegmentStore :=
  let* state_bytes := io_lift (of_json (state_to_json state)) in
  let* bytes :=
    io_lift (of_json (record_to_json {| cr_state := state; cr_checksum := crc32 state_bytes |})) in
  do* atomic_write os (in_directory (sg_directory store) CONTROL_FILE) bytes in
  io_ret (set_control store state).

Definition read_control (directory : string) : Io (ControlState Vote) :=
  let* bytes := read_file os (in_directory directory CONTROL_FILE) in
  let* record := io_lift (of_json (record_from_json bytes)) in
  let* state_bytes := io_lift (of_json (state_to_json (cr_state record))) in
  if negb (crc32 state_bytes =? cr_checksum record) then
    io_fail (invalid_data "Raft-log control checksum mismatch")
  else io_ret (cr_state record).

(** ** Appending *)

(** How many of the entries go into the next batch. *)
Fixpoint batch_len (entries : list (N * list byte)) (taken : nat) (payload_size : N) : Result nat IoError :=
  match entries with
  | [] => Ok taken
  | (_, bytes) :: entries =>
    match u64_checked_add 4 (vec_len bytes) with
    | None => Err (invalid_data "Raft-log segment size overflow")
    | Some candidate_size =>
      let next_payload_size := usize_saturating_add payload_size candidate_size in
      if (0 <? taken)%nat && (SEGMENT_TARGET_BYTES <? frame_size next_payload_size) then Ok taken
      else if SEGMENT_TARGET_BYTES <? frame_size next_payload_size then Ok (S taken)
      else batch_len entries (S taken) next_payload_size
    end
  end.

Definition use_tail (store : SegmentStore) (frame : list byte) : option Tail :=
  match sg_tail store with
  | Some tail =>
    match u64_checked_add (tl_length tail) (vec_len frame) with
    | Some length => if length <=? SEGMENT_TARGET_BYTES then Some tail else None
    | None => None
    end
  | None => None
  end.

Definition append_to_tail (store : SegmentStore) (tail : Tail) (frame : list byte) : Io SegmentStore :=
  let path := in_directory (sg_directory store) (tl_name tail) in
  do* file_open os path in
  do* file_write os path frame in
  do* sync os in
  io_ret (set_tail store
    (Some {| tl_name := tl_name tail; tl_length := u64_saturating_add (tl_length tail) (vec_len frame) |})).

Definition create_segment (store : SegmentStore) (batch_start : N) (frame : list byte) : Io SegmentStore :=
  let path := in_directory (sg_directory store) (segment_file_name batch_start) in
  let* exists_ := file_exists path in
  if (exists_ : bool) then
    io_fail (invalid_data ("Raft-log segment already exists at index " +:+ pretty batch_start))
  else
    let temp := temp_path os path in
    do* file_create_new os temp in
    let header := segment_header batch_start in
    do* file_write os temp header in
    do* file_write os temp frame in
    do* sync os in
    do* rename os temp path in
    io_ret (set_tail store
      (Some {| tl_name := path_file_name path; tl_length := vec_len header + vec_len frame |})).

(** One round of the loop: the batch goes to the tail segment or to a new one. *)
Definition append_batch (store : SegmentStore) (generation : N) (batch : list (N * list byte)) :
  Io (SegmentStore * bool) :=
  let batch_start := match batch with (index, _) :: _ => index | [] => 0 end in
  let* frame := io_lift (encode_frame generation batch_start batch) in
  match use_tail store frame with
  | Some tail => let* store := append_to_tail store tail frame in io_ret (store, false)
  | None => let* store := create_segment store batch_start frame in io_ret (store, true)
  end.

(** Each round takes at least one entry. *)
Fixpoint append_loop (fuel : nat) (store : SegmentStore) (generation : N) (entries : list (N * list byte))
  (created_segment : bool) : Io (SegmentStore * bool) :=
  match entries, fuel with
  | [], _ | _, O => io_ret (store, created_segment)
  | _, S fuel =>
    let* n := io_lift (batch_len entries 0 0) in
    let* (store, created) := append_batch store generation (take n entries) in
    append_loop fuel store generation (drop n entries) (created_segment || created)
  end.

Definition store_append (store : SegmentStore) (generation : N) (entries : list (N * list byte)) :
  Io SegmentStore :=
  let* (store, created_segment) := append_loop (length entries) store generation entries false in
  do* (if (created_segment : bool) then sync os else io_ret tt) in
  io_ret store.

(** ** Reading the segments *)

(** The names of the segment files; any other name but the control file and
    temporary files is an error. *)
Fixpoint segment_names (directory : string) (names : list string) : Result (list string) IoError :=
  match names with
  | [] => Ok []
  | name :: names =>
    if bool_decide (name = CONTROL_FILE) || is_temporary_artifact name then segment_names directory names
    else if negb (starts_with name "segment-") || negb (ends_with name ".rlog") then
      Err (invalid_data ("unexpected Raft-log artifact '" +:+ path_display (in_directory directory name) +:+ "'"))
    else let? rest := segment_names directory names in Ok (name :: rest)
  end.

Fixpoint parse_segments (directory : string) (state : ControlState Vote) (names : list string) :
  Io (list (ReadSegment E)) :=
  match names with
  | [] => io_ret []
  | name :: names =>
    let path := in_directory directory name in
    let* start_index := io_lift (segment_index name) in
    let* bytes := read_file os path in
    let* segment := io_lift (parse_segment path state bytes start_index) in
    let* rest := parse_segments directory state names in
    io_ret (segment :: rest)
  end.

Definition read_segments (directory : string) (state : ControlState Vote) : Io (list (ReadSegment E)) :=
  let* names := read_dir os directory in
  let* paths := io_lift (segment_names directory names) in
  parse_segments directory state (sort_names paths).

(** ** Building the log *)

Definition purged_at (state : ControlState Vote) (index : N) : bool :=
  is_some_and (fun purged => index <=? li_index purged) (cl_last_purged_log_id state).

Fixpoint insert_records (state : ControlState Vote) (records : list (EntryRecord E)) (log : gmap N E) :
  Result (gmap N E) IoError :=
  match records with
  | [] => Ok log
  | record :: records =>
    let index := entry_index (er_entry record) in
    if purged_at state index then insert_records state records log
    else
      match log !! index with
      | Some _ => Err (invalid_data ("duplicate Raft-log entry at index " +:+ pretty index))
      | None => insert_records state records (<[index := er_entry record]> log)
      end
  end.

Fixpoint insert_segments (state : ControlState Vote) (segments : list (ReadSegment E)) (log : gmap N E)
  (tail : option Tail) : Result (gmap N E * option Tail) IoError :=
  match segments with
  | [] => Ok (log, tail)
  | segment :: segments =>
    let? log := insert_records state (rg_records segment) log in
    insert_segments state segments log
      (Some {| tl_name := rg_name segment; tl_length := rg_valid_length segment |})
  end.

(** The entries are contiguous from the purge point on. *)
Fixpoint check_contiguous (expected : option N) (items : list (N * E)) : Result unit IoError :=
  match items with
  | [] => Ok tt
  | (index, entry) :: items =>
    if negb (bool_decide (Some index = expected)) then
      Err (invalid_data ("expected contiguous Raft-log entry, found " +:+ pretty index))
    else if negb (entry_index entry =? index) then
      Err (invalid_data ("Raft-log map index " +:+ pretty index +:+ " does not match its entry"))
    else check_contiguous (u64_checked_add index 1) items
  end.

Definition last_key (log : gmap N E) : option N := last (btree_keys log).

Definition check_committed (state : ControlState Vote) (log : gmap N E) : Result unit IoError :=
  match cl_committed state with
  | None => Ok tt
  | Some committed =>
    let last_index :=
      match last_key log with
      | Some index => Some index
      | None => li_index <$> cl_last_purged_log_id state
      end in
    match last_index with
    | None =>
      Err (invalid_data ("committed log index " +:+ pretty (li_index committed)
             +:+ " is present but the persisted log is empty"))
    | Some last_index =>
      if last_index <? li_index committed then
        Err (invalid_data ("committed log index " +:+ pretty (li_index committed)
               +:+ " is beyond last persisted log index " +:+ pretty last_index))
      else
        match log !! li_index committed with
        | Some entry =>
          if bool_decide (entry_log_id entry = committed) then Ok tt
          else
            Err (invalid_data ("committed Raft-log id does not match entry at index "
                   +:+ pretty (li_index committed)))
        | None => Ok tt
        end
    end
  end.

Definition build_log (segments : list (ReadSegment E)) (state : ControlState Vote) :
  Result (gmap N E * option Tail) IoError :=
  let? (log, tail) := insert_segments state segments ∅ None in
  let expected :=
    match cl_last_purged_log_id state with
    | Some log_id => u64_checked_add (li_index log_id) 1
    | None => Some 0
    end in
  let? _ := check_contiguous expected (btree_items log) in
  let? _ := check_committed state log in
  Ok (log, tail).

(** ** Recovery *)

(** Only the final segment may end in the middle of a batch. *)
Definition check_incomplete (segments : list (ReadSegment E)) : Result unit IoError :=
  if existsb rg_incomplete_tail (take (length segments - 1) segments) then
    Err (invalid_data "incomplete Raft-log batch occurs before the final segment")
  else Ok tt.

(** The unfinished batch at the end of the last segment is cut off. *)
Definition repair_tail (directory : string) (segments : list (ReadSegment E)) : Io unit :=
  match last segments with
  | Some segment =>
    if rg_incomplete_tail segment then
      let path := in_directory directory (rg_name segment) in
      do* file_open os path in
      do* file_set_len os path (rg_valid_length segment) in
      sync os
    else io_ret tt
  | None => io_ret tt
  end.

Definition recover_segments (directory : string) (segments : list (ReadSegment E)) (state : ControlState Vote) :
  Io (gmap N E * option Tail) :=
  do* io_lift (check_incomplete segments) in
  do* repair_tail directory segments in
  io_lift (build_log segments state).

Definition scan_and_recover (store : SegmentStore) (state : ControlState Vote) : Io (gmap N E * option Tail) :=
  let* segments := read_segments (sg_directory store) state in
  recover_segments (sg_directory store) segments state.

Definition scan_readonly (store : SegmentStore) (state : ControlState Vote) : Io (gmap N E) :=
  let* segments := read_segments (sg_directory store) state in
  do* io_lift (check_incomplete segments) in
  let* (log, _) := io_lift (build_log segments state) in
  io_ret log.

Fixpoint remove_temporaries (directory : string) (names : list string) (changed : bool) : Io bool :=
  match names with
  | [] => io_ret changed
  | name :: names =>
    if is_temporary_artifact name then
      do* remove_file os (in_directory directory name) in
      remove_temporaries directory names true
    else remove_temporaries directory names changed
  end.

(** [sync_directory], when something changed. *)
Definition sync_if (changed : bool) : Io unit := if changed then sync os else io_ret tt.

Definition remove_temporary_files (store : SegmentStore) : Io unit :=
  let* names := read_dir os (sg_directory store) in
  let* changed := remove_temporaries (sg_directory store) names false in
  sync_if changed.

(** ** Purging *)

Definition segment_purged (state : ControlState Vote) (segment : ReadSegment E) : bool :=
  let last_index :=
    match last (rg_records segment) with
    | Some record => entry_index (er_entry record)
    | None => rg_start_index segment - 1
    end in
  purged_at state last_index.

(** The segments that hold nothing after the purge point are removed. *)
Fixpoint remove_purged (directory : string) (state : ControlState Vote) (segments : list (ReadSegment E))
  (retained : list (ReadSegment E)) (changed : bool) : Io (list (ReadSegment E) * bool) :=
  match segments with
  | [] => io_ret (retained, changed)
  | segment :: segments =>
    if segment_purged state segment then
      do* remove_file os (in_directory directory (rg_name segment)) in
      remove_purged directory state segments retained true
    else remove_purged directory state segments (retained ++ [segment]) changed
  end.

Definition finish_purge (store : SegmentStore) (state : ControlState Vote) : Io (SegmentStore * gmap N E) :=
  let* segments := read_segments (sg_directory store) state in
  let* (retained, changed) := remove_purged (sg_directory store) state segments [] false in
  do* sync_if changed in
  let* (log, tail) := recover_segments (sg_directory store) retained state in
  io_ret (set_tail store tail, log).

Definition store_purge (store : SegmentStore) (floor : option LogId) : Io SegmentStore :=
  let state := with_purged (sg_control store) floor in
  let* store := persist_control store state in
  let* (store, _) := finish_purge store state in
  io_ret store.

(** ** Truncating *)

(** The records with the generation of the first, and the rest. *)
Fixpoint same_generation (generation : N) (records : list (EntryRecord E)) :
  list (EntryRecord E) * list (EntryRecord E) :=
  match records with
  | record :: rest =>
    if er_generation record =? generation then
      let '(batch, rest) := same_generation generation rest in (record :: batch, rest)
    else ([], records)
  | [] => ([], [])
  end.

Fixpoint encode_records (records : list (EntryRecord E)) : Result (list (N * list byte)) IoError :=
  match records with
  | [] => Ok []
  | record :: records =>
    let? encoded := of_json (entry_to_json (er_entry record)) in
    let? rest := encode_records records in
    Ok ((entry_index (er_entry record), encoded) :: rest)
  end.

(** The batches of a rewritten segment, one for each run of a generation. *)
Fixpoint rewrite_batches (fuel : nat) (records : list (EntryRecord E)) : Result (list byte) IoError :=
  match records, fuel with
  | [], _ | _, O => Ok []
  | record :: _, S fuel =>
    let '(batch, rest) := same_generation (er_generation record) records in
    let? entries := encode_records batch in
    let? frame := encode_frame (er_generation record) (entry_index (er_entry record)) entries in
    let? frames := rewrite_batches fuel rest in
    Ok (frame ++ frames)
  end.

Definition rewrite_segment (path : Path) (start_index : N) (records : list (EntryRecord E)) : Io unit :=
  let* batches := io_lift (rewrite_batches (length records) records) in
  let temp := temp_path os path in
  do* file_create os temp in
  do* file_write os temp (segment_header start_index ++ batches) in
  do* sync os in
  do* rename os temp path in
  io_ret tt.

(** The first loop of [finish_truncation]: whole segments from the boundary on. *)
Fixpoint remove_from (directory : string) (boundary : N) (names : list string) (changed : bool) : Io bool :=
  match names with
  | [] => io_ret changed
  | name :: names =>
    if bool_decide (extension (as_bytes name) = Some (as_bytes "rlog")) then
      let* start_index := io_lift (segment_index name) in
      if boundary <=? start_index then
        do* remove_file os (in_directory directory name) in
        remove_from directory boundary names true
      else remove_from directory boundary names changed
    else remove_from directory boundary names changed
  end.

Definition retained_records (boundary generation : N) (segment : ReadSegment E) : list (EntryRecord E) :=
  filter (fun record => entry_index (er_entry record) < boundary /\ er_generation record < generation)
    (rg_records segment).

(** The second loop: segments that hold entries before and after the boundary. *)
Fixpoint rewrite_segments (directory : string) (boundary generation : N) (segments : list (ReadSegment E))
  (changed : bool) : Io bool :=
  match segments with
  | [] => io_ret changed
  | segment :: segments =>
    let retained := retained_records boundary generation segment in
    let path := in_directory directory (rg_name segment) in
    if vec_len retained =? rg_record_count segment then
      rewrite_segments directory boundary generation segments changed
    else
      do* match retained with
          | [] => remove_file os path
          | _ => rewrite_segment path (rg_start_index segment) retained
          end in
      rewrite_segments directory boundary generation segments true
  end.

Definition finish_truncation (store : SegmentStore) (boundary generation : N) : Io unit :=
  let* names := read_dir os (sg_directory store) in
  let* changed := remove_from (sg_directory store) boundary names false in
  do* sync_if changed in
  let* segments := read_segments (sg_directory store) (sg_control store) in
  let* changed := rewrite_segments (sg_directory store) boundary generation segments changed in
  sync_if changed.

Definition store_truncate (store : SegmentStore) (boundary generation : N) : Io SegmentStore :=
  let state := with_pending (sg_control store) generation (Some boundary) in
  let* store := persist_control store state in
  do* finish_truncation store boundary generation in
  let* store := persist_control store (with_pending state generation None) in
  let* (_, tail) := scan_and_recover store (sg_control store) in
  io_ret (set_tail store tail).

(** ** Opening *)

Definition read_version (marker_path : Path) : Io N :=
  let* bytes := read_file os marker_path in
  let* value := io_lift (of_json (json_version bytes)) in
  match value with
  | Some version =>
    match u32_try_from version with
    | Some version => io_ret version
    | None => io_fail (invalid_data "Raft-log marker has no valid version")
    end
  | None => io_fail (invalid_data "Raft-log marker has no valid version")
  end.

Definition read_marker (marker_path : Path) : Io unit :=
  let* bytes := read_file os marker_path in
  let* marker := io_lift (of_json (marker_from_json bytes)) in
  if negb (vm_version marker =? LOG_FORMAT_VERSION) || negb (bool_decide (vm_artifact marker = ARTIFACT)) then
    io_fail (invalid_data ("unsupported Raft-log segment marker in '" +:+ path_display marker_path +:+ "'"))
  else io_ret tt.

(** The marker, the directory and the control file of a log that exists. *)
Definition open_family (marker_path : Path) : Io SegmentStore :=
  do* read_marker marker_path in
  let directory := family_directory marker_path in
  let* exists_ := dir_exists directory in
  if negb exists_ then
    io_fail (invalid_data ("missing selected Raft-log segment family '" +:+ directory +:+ "'"))
  else
    let* control := read_control directory in
    io_ret {| sg_marker_path := marker_path; sg_directory := directory; sg_control := control; sg_tail := None |}.

Definition initialize (marker_path : Path) : Io (SegmentStore * gmap N E * ControlState Vote) :=
  let directory := family_directory marker_path in
  let* exists_ := dir_exists directory in
  if (exists_ : bool) then
    io_fail (invalid_data ("unselected Raft-log segment family '" +:+ directory +:+ "'"))
  else
    do* create_dir_all os (path_parent marker_path) in
    do* create_dir os directory in
    do* sync os in
    let store := {| sg_marker_path := marker_path; sg_directory := directory; sg_control := control_default;
                    sg_tail := None |} in
    let* store := persist_control store control_default in
    let* bytes :=
      io_lift (of_json (marker_to_json {| vm_version := LOG_FORMAT_VERSION; vm_artifact := ARTIFACT |})) in
    do* atomic_write os marker_path bytes in
    io_ret (store, ∅, control_default).

Definition store_open (marker_path : Path) : Io (SegmentStore * gmap N E * ControlState Vote) :=
  let* store := open_family marker_path in
  do* remove_temporary_files store in
  let control := sg_control store in
  let* store :=
    match cl_truncation_pending_from control with
    | Some boundary =>
      do* finish_truncation store boundary (cl_generation control) in
      persist_control store (with_pending control (cl_generation control) None)
    | None => io_ret store
    end in
  let* (store, log) := finish_purge store (sg_control store) in
  io_ret (store, log, sg_control store).

Definition store_validate (marker_path : Path) : Io unit :=
  let* store := open_family marker_path in
  do* scan_readonly store (sg_control store) in
  io_ret tt.
End segments.
Arguments SegmentStore Vote : clear implicits.
