(* ===== verification/RaftLogFiles.v ===== *)
(** What the directory of a durable Raft log holds: the control file, the
    segments with the entries in them, and temporary files; and that reading
    the directory gives back these entries. *)

From S2P Require Import Prelude Engine RecordFormat Names Paths Disk RaftLogFormat RaftLogSegments.

Local Open Scope N_scope.

(** ** Names *)

Lemma as_bytes_segment_file_name i :
  as_bytes (segment_file_name i) = SEGMENT_PREFIX ++ dec_digits 20 i ++ SEGMENT_SUFFIX.
Proof. apply as_bytes_of_bytes. Qed.

Lemma pow10_20 i : i <= u64_max -> i < 10 ^ N.of_nat 20.
Proof. intros Hi. apply N.le_lt_trans with u64_max; [done|]. by apply N.ltb_lt. Qed.

Lemma digits_no_dot n i : Forall (fun b => b <> dot) (dec_digits n i).
Proof. eapply Forall_impl; [apply dec_digits_digits|]. intros b Hb ->. done. Qed.

Lemma split_segment_name i :
  split_last_dot (as_bytes (segment_file_name i)) = Some (SEGMENT_PREFIX ++ dec_digits 20 i, as_bytes "rlog").
Proof.
  rewrite as_bytes_segment_file_name. change SEGMENT_SUFFIX with (dot :: as_bytes "rlog"). rewrite app_assoc.
  apply split_last_dot_app. by repeat constructor.
Qed.

Lemma segment_stem i : file_stem (as_bytes (segment_file_name i)) = SEGMENT_PREFIX ++ dec_digits 20 i.
Proof. unfold file_stem. by rewrite split_segment_name. Qed.

Lemma segment_extension i : extension (as_bytes (segment_file_name i)) = Some (as_bytes "rlog").
Proof. unfold extension. by rewrite split_segment_name. Qed.

Lemma segment_index_name i : i <= u64_max -> segment_index (segment_file_name i) = Ok i.
Proof.
  intros Hi. unfold segment_index. rewrite segment_stem, strip_prefix_app.
  rewrite parse_uint_dec; [done|lia|by apply pow10_20|done].
Qed.

Lemma segment_file_name_inj i j : i <= u64_max -> j <= u64_max -> segment_file_name i = segment_file_name j -> i = j.
Proof.
  intros Hi Hj E. pose proof (segment_index_name i Hi) as H. rewrite E, segment_index_name in H by done. congruence.
Qed.

Lemma segment_name_order i j : i <= j -> j <= u64_max -> name_le (segment_file_name i) (segment_file_name j).
Proof.
  intros Hij Hj. unfold name_le. rewrite !as_bytes_segment_file_name.
  assert (H : forall pre l1 l2, bytes_leb l1 l2 = true -> bytes_leb (pre ++ l1) (pre ++ l2) = true).
  { intros pre l1 l2 Hl. induction pre as [|b pre IH]; [done|]. cbn. by rewrite IH, N.eqb_refl, orb_true_r. }
  apply H, dec_digits_order. pose proof (pow10_20 j Hj). rewrite !N.mod_small by lia. done.
Qed.

Lemma segment_not_control i : segment_file_name i <> CONTROL_FILE.
Proof. intros E. apply (f_equal as_bytes) in E. rewrite as_bytes_segment_file_name in E. done. Qed.

Lemma strip_control_segment rest : strip_prefix (as_bytes "control.tmp-") (SEGMENT_PREFIX ++ rest) = None.
Proof. done. Qed.

Lemma segment_not_temporary i : is_temporary_artifact (segment_file_name i) = false.
Proof.
  unfold is_temporary_artifact, temporary_process. rewrite as_bytes_segment_file_name, strip_control_segment.
  rewrite strip_prefix_app. change (as_bytes ".tmp-") with (dot :: as_bytes "tmp-").
  rewrite split_once_skip by apply digits_no_dot. done.
Qed.

Lemma control_not_temporary : is_temporary_artifact CONTROL_FILE = false.
Proof. vm_compute. reflexivity. Qed.

Lemma segment_starts_with i : starts_with (segment_file_name i) "segment-" = true.
Proof. unfold starts_with. apply bool_decide_eq_true. rewrite as_bytes_segment_file_name. by eexists. Qed.

Lemma segment_ends_with i : ends_with (segment_file_name i) ".rlog" = true.
Proof.
  unfold ends_with. apply bool_decide_eq_true. rewrite as_bytes_segment_file_name.
  exists (SEGMENT_PREFIX ++ dec_digits 20 i). by rewrite app_assoc.
Qed.

Section names.
Context (os : Os) (Hpid : os_pid os <= u32_max).

Definition temp_name (name : string) : string := path_file_name (temp_path os (in_directory "" name)).

Lemma temp_path_name path : temp_path os path = in_directory (path_parent path) (temp_name (path_file_name path)).
Proof. done. Qed.

Lemma process_temporary : forallb is_ascii_digit (dec_u32 (os_pid os)) && bool_decide (is_Some (parse_uint u32_max (dec_u32 (os_pid os)))) = true.
Proof.
  apply andb_true_iff. split; [apply forallb_Forall_true, dec_u32_digits|].
  apply bool_decide_eq_true. rewrite parse_dec_u32 by done. done.
Qed.

Lemma temp_control : is_temporary_artifact (temp_name CONTROL_FILE) = true.
Proof.
  unfold temp_name, temp_path, is_temporary_artifact. cbn [path_file_name in_directory]. rewrite as_bytes_of_bytes.
  change (with_extension (as_bytes CONTROL_FILE) (as_bytes "tmp-" ++ dec_u32 (os_pid os)))
    with (as_bytes "control.tmp-" ++ dec_u32 (os_pid os)).
  unfold temporary_process. rewrite strip_prefix_app. apply process_temporary.
Qed.

Lemma temp_segment i : i <= u64_max -> is_temporary_artifact (temp_name (segment_file_name i)) = true.
Proof.
  intros Hi. unfold temp_name, temp_path, is_temporary_artifact. cbn [path_file_name in_directory].
  rewrite as_bytes_of_bytes. unfold with_extension. rewrite segment_stem, <-!app_assoc.
  unfold temporary_process. rewrite strip_control_segment, strip_prefix_app.
  change ([dot] ++ as_bytes "tmp-" ++ dec_u32 (os_pid os)) with (as_bytes ".tmp-" ++ dec_u32 (os_pid os)).
  change (as_bytes ".tmp-") with (dot :: as_bytes "tmp-"). rewrite split_once_skip by apply digits_no_dot.
  replace (split_once (dot :: as_bytes "tmp-") ((dot :: as_bytes "tmp-") ++ dec_u32 (os_pid os)))
    with (Some ([] : list byte, dec_u32 (os_pid os))).
  2: { destruct (dot :: as_bytes "tmp-") as [|b l] eqn:El; [done|]. cbn [app split_once].
       pose proof (strip_prefix_app (b :: l) (dec_u32 (os_pid os))) as H. cbn [app] in H. by rewrite H. }
  rewrite app_nil_r, dec_digits_len, (proj2 (forallb_Forall_true _ _) (dec_digits_digits 20 i)).
  rewrite parse_uint_dec by (by try apply pow10_20; lia). cbn [Nat.eqb negb orb]. rewrite bool_decide_eq_true_2 by done.
  apply process_temporary.
Qed.
End names.

(** ** Segments *)

Section segs.
Context {E Vote : Type} {J : LogJson E Vote} {L : LogJsonLaws J}.

(** A segment: its first index and its batches, each of a generation. *)
Record Seg := {
  s_start : N;
  s_frames : list (N * list E);
}.

Definition frames_bytes (frames : list (N * list E)) : list byte := concat ((fun f => frame_bytes f.1 f.2) <$> frames).
Definition seg_bytes (s : Seg) : list byte := segment_header (s_start s) ++ frames_bytes (s_frames s).
Definition seg_entries (s : Seg) : list E := concat (s_frames s).*2.
Definition seg_name (s : Seg) : string := segment_file_name (s_start s).

Record seg_ok (s : Seg) : Prop := {
  so_start : s_start s <= u64_max;
  so_frames : s_frames s <> [];
  so_fits : Forall (fun f => f.1 <= u64_max /\ fits f.2) (s_frames s);
  so_contiguous : contiguous (s_start s) (seg_entries s);
  so_count : vec_len (seg_entries s) <= u32_max;
  so_length : 44 + vec_len (payload_bytes (seg_entries s)) <= u64_max;
}.

(** What recovery reads of a segment under a control state. *)
Definition seen (state : ControlState Vote) (s : Seg) : list (EntryRecord E) :=
  concat ((fun f => records f.1 (remaining state f.2)) <$> s_frames s).

Definition read_seg (state : ControlState Vote) (s : Seg) (torn : list byte) : ReadSegment E :=
  {| rg_name := seg_name s; rg_start_index := s_start s; rg_records := seen state s;
     rg_record_count := vec_len (seg_entries s); rg_valid_length := vec_len (seg_bytes s);
     rg_incomplete_tail := bool_decide (torn <> []) |}.

Lemma parse_batches_written path state fuel frames torn b :
  Forall (fun f => f.1 <= u64_max /\ fits f.2 /\ earlier state f.1) frames -> torn_batch torn ->
  (length frames < fuel)%nat -> pb_incomplete_tail b = false ->
  parse_batches path state fuel (frames_bytes frames ++ torn) b =
    Ok {| pb_records := pb_records b ++ concat ((fun f => records f.1 (remaining state f.2)) <$> frames);
          pb_record_count := pb_record_count b + vec_len (concat frames.*2);
          pb_offset := pb_offset b + vec_len (frames_bytes frames);
          pb_incomplete_tail := bool_decide (torn <> []) |}.
Proof.
  intros Hf Ht. revert fuel b; induction Hf as [|[g es] frames (Hg & Hfit & He) Hf IH]; intros fuel b Hfuel Hb.
  - destruct fuel as [|fuel]; [lia|]. change (frames_bytes [] ++ torn) with torn. cbn [fmap list_fmap concat].
    rewrite app_nil_r, vec_len_nil, N.add_0_r. change (vec_len (frames_bytes [])) with 0. rewrite N.add_0_r.
    destruct (decide (torn = [])) as [->|Hne].
    + rewrite bool_decide_eq_false_2 by tauto. destruct b; cbn in *. by subst.
    + rewrite parse_batches_torn by done. by rewrite bool_decide_eq_true_2.
  - cbn [length] in Hfuel. destruct fuel as [|fuel]; [lia|]. unfold frames_bytes. cbn [fmap list_fmap concat fst snd].
    rewrite <-app_assoc. cbn in Hg, Hfit, He. rewrite parse_batches_frame by done.
    rewrite IH by (cbn; lia || done). cbn [pb_records pb_record_count pb_offset].
    rewrite !vec_len_app. f_equal. f_equal; rewrite <-?app_assoc, ?N.add_assoc; done.
Qed.

Lemma header_len start : length (segment_header start) = 16%nat.
Proof. unfold segment_header. rewrite !length_app, !length_to_le_bytes. done. Qed.

Lemma frames_length (frames : list (N * list E)) : (length frames <= length (frames_bytes frames))%nat.
Proof.
  induction frames as [|[g es] frames IH]; [done|]. unfold frames_bytes in *. cbn [fmap list_fmap concat length fst snd].
  rewrite length_app. pose proof (vec_len_frame g es) as H. unfold vec_len at 1 in H. lia.
Qed.

Lemma seg_entries_some s : seg_ok s -> seg_entries s <> [].
Proof.
  intros [_ Hn Hf _ _ _]. unfold seg_entries. destruct (s_frames s) as [|[g es] frames]; [done|].
  apply Forall_cons in Hf as [[_ [Hs _ _ _ _]] _]. cbn. intros [E1 _]%app_nil. by apply Hs.
Qed.

Lemma parse_segment_written directory state s torn :
  seg_ok s -> Forall (fun f => earlier state f.1) (s_frames s) -> torn_batch torn ->
  parse_segment (in_directory directory (seg_name s)) state (seg_bytes s ++ torn) (s_start s) = Ok (read_seg state s torn).
Proof.
  intros Hs He Ht. pose proof (seg_entries_some s Hs) as Hne. destruct Hs as [Hst Hfr Hf _ _ _].
  pose proof (header_len (s_start s)) as Hh. unfold parse_segment, seg_bytes. rewrite <-app_assoc.
  set (rest := frames_bytes (s_frames s) ++ torn).
  rewrite (proj2 (N.ltb_ge _ _)) by (unfold SEGMENT_HEADER_LEN; rewrite vec_len_app; unfold vec_len; rewrite Hh; lia).
  rewrite (slice_at _ [] SEGMENT_MAGIC (to_le_bytes 4 LOG_FORMAT_VERSION ++ to_le_bytes 8 (s_start s) ++ rest))
    by (unfold segment_header; rewrite <-?app_assoc; done).
  rewrite bool_decide_eq_true_2 by done. cbn [negb].
  rewrite (read_u32_at _ SEGMENT_MAGIC LOG_FORMAT_VERSION (to_le_bytes 8 (s_start s) ++ rest))
    by (unfold segment_header; rewrite <-?app_assoc; done).
  rewrite N.eqb_refl. cbn [negb].
  rewrite (read_u64_at _ (SEGMENT_MAGIC ++ to_le_bytes 4 LOG_FORMAT_VERSION) (s_start s) rest 8).
  2: { unfold segment_header. by rewrite <-!app_assoc. }
  2: { by rewrite length_app, length_to_le_bytes. }
  2: { by apply u64_max_lt. }
  rewrite N.eqb_refl. cbn [negb]. change (N.to_nat SEGMENT_HEADER_LEN) with 16%nat.
  rewrite <-Hh, drop_app_length. unfold rest. rewrite parse_batches_written.
  - cbn [pb_record_count pb_records pb_offset pb_incomplete_tail app]. rewrite N.add_0_l.
    destruct (N.eqb_spec (vec_len (concat (s_frames s).*2)) 0) as [H0|_].
    { exfalso. apply Hne, length_zero_iff_nil. unfold vec_len in H0. unfold seg_entries. lia. }
    unfold read_seg, seen, seg_bytes. do 2 f_equal. rewrite vec_len_app. f_equal.
  - rewrite Forall_forall in Hf, He |- *. intros f Hin. destruct (Hf f Hin). split_and!; auto.
  - done.
  - rewrite !length_app. pose proof (frames_length (s_frames s)). lia.
  - done.
Qed.

(** ** Directories *)

(** The files of the segments; the last may end in the middle of a batch. *)
Fixpoint seg_files (segs : list Seg) (torn : list byte) : list (string * list byte) :=
  match segs with
  | [] => []
  | [s] => [(seg_name s, seg_bytes s ++ torn)]
  | s :: segs => (seg_name s, seg_bytes s) :: seg_files segs torn
  end.

Fixpoint read_segs (state : ControlState Vote) (segs : list Seg) (torn : list byte) : list (ReadSegment E) :=
  match segs with
  | [] => []
  | [s] => [read_seg state s torn]
  | s :: segs => read_seg state s [] :: read_segs state segs torn
  end.

Definition control_bytes (state : ControlState Vote) : list byte :=
  default [] (record_to_json {| cr_state := state; cr_checksum := crc32 (default [] (state_to_json state)) |}).

(** The control file and the segments are there, and nothing else but
    temporary files. *)
Record holds (files : Dir) (state : ControlState Vote) (segs : list Seg) (torn : list byte) : Prop := {
  ho_control : files !! CONTROL_FILE = Some (control_bytes state);
  ho_segments name : name <> CONTROL_FILE -> is_temporary_artifact name = false ->
    files !! name = (list_to_map (seg_files segs torn) : Dir) !! name;
}.

(** The segments are in order, and together with the control state they mean
    the entries [es]: those of the segments before the boundary of a pending
    truncation, without the purged ones. *)
Definition in_order (segs : list Seg) : Prop := StronglySorted N.lt (s_start <$> segs).

Definition kept (state : ControlState Vote) (segs : list Seg) : list Seg :=
  filter (fun s => before state (s_start s) = true) segs.

Definition next_index (purged : option LogId) : N :=
  match purged with Some log_id => li_index log_id + 1 | None => 0 end.

Definition live (state : ControlState Vote) (e : E) : Prop :=
  before state (entry_index e) = true /\ next_index (cl_last_purged_log_id state) <= entry_index e.

#[export] Instance live_dec state e : Decision (live state e).
Proof. unfold live. apply _. Defined.

Definition all_entries (segs : list Seg) : list E := concat (seg_entries <$> segs).

Record means (state : ControlState Vote) (segs : list Seg) (torn : list byte) (es : list E) : Prop := {
  me_order : in_order segs;
  me_segs : Forall seg_ok segs;
  me_generations : Forall (fun s => Forall (fun f => f.1 <= cl_generation state /\ earlier state f.1) (s_frames s)) segs;
  me_generation : cl_generation state <= u64_max;
  me_torn : torn_batch torn;
  me_joined s segs' : kept state segs = s :: segs' ->
    s_start s <= next_index (cl_last_purged_log_id state) /\ contiguous (s_start s) (all_entries (kept state segs));
  me_entries : es = filter (live state) (all_entries (kept state segs));
}.

(** ** Reading a directory *)

Lemma seg_files_names segs torn : (seg_files segs torn).*1 = seg_name <$> segs.
Proof. induction segs as [|s [|s' segs] IH]; [done..|]. change (seg_files (s :: s' :: segs) torn) with ((seg_name s, seg_bytes s) :: seg_files (s' :: segs) torn). cbn [fmap list_fmap fst]. by f_equal. Qed.

Lemma seg_name_inj s s' : seg_ok s -> seg_ok s' -> seg_name s = seg_name s' -> s_start s = s_start s'.
Proof. intros H H'. apply segment_file_name_inj; [apply H|apply H']. Qed.

Lemma seg_names_NoDup segs : in_order segs -> Forall seg_ok segs -> NoDup (seg_name <$> segs).
Proof.
  unfold in_order. intros Ho Hok. induction segs as [|s segs IH]; [constructor|]. cbn in Ho |- *.
  apply StronglySorted_inv in Ho as [Ho Hlt]. apply Forall_cons in Hok as [Hs Hok]. constructor; [|by apply IH].
  intros (s' & E1 & Hin)%list_elem_of_fmap. rewrite Forall_forall in Hlt. rewrite Forall_forall in Hok.
  specialize (Hlt (s_start s') (list_elem_of_fmap_2 _ _ _ Hin)).
  apply seg_name_inj in E1; [lia|done|by apply Hok].
Qed.

Lemma seg_names_sorted segs : in_order segs -> Forall seg_ok segs -> StronglySorted name_le (seg_name <$> segs).
Proof.
  unfold in_order. intros Ho Hok. induction segs as [|s segs IH]; [constructor|]. cbn in Ho |- *.
  apply StronglySorted_inv in Ho as [Ho Hlt]. apply Forall_cons in Hok as [Hs Hok]. constructor; [by apply IH|].
  rewrite Forall_forall in Hlt. rewrite Forall_forall in Hok. apply Forall_forall. intros n (s' & -> & Hin)%list_elem_of_fmap.
  specialize (Hlt (s_start s') (list_elem_of_fmap_2 _ _ _ Hin)).
  apply segment_name_order; [lia|]. by apply (so_start s'), Hok.
Qed.

(** The files of the segments are in the directory under their names. *)
Lemma holds_file files state segs torn name bytes :
  holds files state segs torn -> in_order segs -> Forall seg_ok segs ->
  (name, bytes) ∈ seg_files segs torn -> files !! name = Some bytes.
Proof.
  intros Hh Ho Hok Hin.
  assert (Hn : name ∈ seg_name <$> segs) by (rewrite <-(seg_files_names segs torn); by apply (list_elem_of_fmap_2 fst) in Hin).
  apply list_elem_of_fmap in Hn as (s & -> & _).
  rewrite (ho_segments _ _ _ _ Hh) by (apply segment_not_control || apply segment_not_temporary).
  apply elem_of_list_to_map_1; [|done]. rewrite seg_files_names. by apply seg_names_NoDup.
Qed.

Lemma segment_names_spec directory names :
  (forall n, n ∈ names -> n = CONTROL_FILE \/ is_temporary_artifact n = true \/ exists i, n = segment_file_name i) ->
  segment_names directory names =
    Ok (filter (fun n => n <> CONTROL_FILE /\ is_temporary_artifact n = false) names).
Proof.
  induction names as [|n names IH]; intros H; [done|]. cbn [segment_names]. rewrite filter_cons.
  assert (IH' := IH (fun n' Hn => H n' ltac:(by right))). specialize (H n ltac:(by left)).
  case_bool_decide as Hc; cbn [orb].
  - rewrite decide_False by tauto. done.
  - destruct (is_temporary_artifact n) eqn:Ht; [by rewrite decide_False by (intros []; congruence)|].
    rewrite decide_True by done. destruct H as [|[|[i ->]]]; [done|congruence|].
    rewrite segment_starts_with, segment_ends_with. cbn [negb orb]. by rewrite IH'.
Qed.

Section reading.
Context (os : Os) (Hlist : lists_files os).

(** The names that a directory gives, sorted, are those of the segments. *)
Lemma sorted_names directory files state segs torn names :
  holds files state segs torn -> in_order segs -> Forall seg_ok segs -> names ≡ₚ (map_to_list files).*1 ->
  exists paths, segment_names directory names = Ok paths /\ sort_names paths = seg_name <$> segs.
Proof.
  intros Hh Ho Hok Hn. eexists. split.
  - apply segment_names_spec. intros n Hin. rewrite Hn in Hin. apply list_elem_of_fmap in Hin as ([n' bytes] & -> & Hin).
    apply elem_of_map_to_list in Hin. cbn. destruct (decide (n' = CONTROL_FILE)) as [|Hc]; [by left|].
    destruct (is_temporary_artifact n') eqn:Ht; [by right; left|]. do 2 right.
    rewrite (ho_segments _ _ _ _ Hh) in Hin by done. apply elem_of_list_to_map_2 in Hin.
    assert (Hs : n' ∈ seg_name <$> segs) by (rewrite <-(seg_files_names segs torn); by apply (list_elem_of_fmap_2 fst) in Hin).
    apply list_elem_of_fmap in Hs as (s & -> & _). by eexists.
  - apply sort_names_unique; [|by apply seg_names_sorted]. apply NoDup_Permutation.
    + apply NoDup_filter. rewrite Hn. apply NoDup_fst_map_to_list.
    + by apply seg_names_NoDup.
    + intros n. rewrite list_elem_of_filter, Hn, <-(seg_files_names segs torn). rewrite !list_elem_of_fmap. split.
      * intros ([Hc Ht] & [n' bytes] & -> & Hin). apply elem_of_map_to_list in Hin. cbn in *.
        rewrite (ho_segments _ _ _ _ Hh) in Hin by done. apply elem_of_list_to_map_2 in Hin. by exists (n', bytes).
      * intros ([n' bytes] & -> & Hin). pose proof (holds_file _ _ _ _ _ _ Hh Ho Hok Hin) as Hf. cbn.
        assert (Hs : n' ∈ seg_name <$> segs) by (rewrite <-(seg_files_names segs torn); by apply (list_elem_of_fmap_2 fst) in Hin).
        apply list_elem_of_fmap in Hs as (s & -> & _).
        split; [split; [apply segment_not_control|apply segment_not_temporary]|].
        exists (seg_name s, bytes). split; [done|]. by apply elem_of_map_to_list.
Qed.

Lemma parse_segments_spec directory state segs torn w :
  (forall name bytes, (name, bytes) ∈ seg_files segs torn ->
     disk_file (w_disk w) (in_directory directory name) = Some bytes) ->
  Forall seg_ok segs -> Forall (fun s => Forall (fun f => earlier state f.1) (s_frames s)) segs -> torn_batch torn ->
  reads os (parse_segments os directory state (seg_name <$> segs)) (read_segs state segs torn) w.
Proof.
  intros Hfile Hok He Ht. revert w Hfile; induction segs as [|s segs IH]; intros w Hfile; [done|].
  apply Forall_cons in Hok as [Hs Hok]. apply Forall_cons in He as [Hes He]. specialize (IH Hok He).
  set (t := match segs with [] => torn | _ => [] end).
  assert (Hnil : torn_batch t).
  { unfold t. destruct segs; [done|apply torn_nil]. }
  assert (Hread : read_segs state (s :: segs) torn = read_seg state s t :: read_segs state segs torn).
  { unfold t. by destruct segs. }
  assert (Hthis : disk_file (w_disk w) (in_directory directory (seg_name s)) = Some (seg_bytes s ++ t)).
  { apply Hfile. unfold t. destruct segs; [by left|]. rewrite app_nil_r. by left. }
  rewrite Hread. cbn [fmap list_fmap parse_segments].
  eapply reads_then; [by apply reads_lift, segment_index_name, Hs|intros w1 Hw1].
  eapply reads_then; [apply reads_file; rewrite Hw1; exact Hthis|intros w2 Hw2].
  eapply reads_then; [by apply reads_lift, parse_segment_written|intros w3 Hw3].
  eapply reads_then; [apply IH|intros w4 Hw4; apply reads_ret].
  intros name bytes Hin. rewrite Hw3, Hw2, Hw1. apply Hfile. destruct segs; [by apply not_elem_of_nil in Hin|by right].
Qed.

Lemma read_segments_spec directory files state segs torn w :
  w_disk w !! directory = Some files -> holds files state segs torn -> in_order segs -> Forall seg_ok segs ->
  Forall (fun s => Forall (fun f => earlier state f.1) (s_frames s)) segs -> torn_batch torn ->
  reads os (read_segments os directory state) (read_segs state segs torn) w.
Proof.
  intros Hd Hh Ho Hok He Ht. unfold read_segments, reads. apply io_wp_bind.
  apply (io_wp_read_dir os directory files); [done|done| |done]. intros names Hn.
  destruct (sorted_names directory files state segs torn names Hh Ho Hok Hn) as (paths & -> & Hs).
  apply io_wp_bind. cbn [io_lift]. apply io_wp_ret. rewrite Hs.
  apply (parse_segments_spec directory state segs torn (later w (w_disk w))); [|done..].
  intros name bytes Hin. cbn [later w_disk]. rewrite (disk_file_dir _ _ files) by done. cbn.
  by eapply holds_file.
Qed.
End reading.
End segs.
Arguments Seg E : clear implicits.
