(* ===== verification/RaftLogRecovery.v ===== *)
(** Recovery of the durable Raft log: the segments of a directory give back the
    entries they mean, and the final segment is repaired. *)

From S2P Require Import Prelude Engine RecordFormat Names Paths Disk RaftLogFormat RaftLogSegments RaftLogFiles.

Local Open Scope N_scope.

Section recovery.
Context {E Vote : Type} {J : LogJson E Vote} {L : LogJsonLaws J}.

(** ** Contiguous entries *)

Lemma contiguous_drop i k (es : list E) : contiguous i es -> contiguous (i + N.of_nat k) (drop k es).
Proof. intros H j e Hj. rewrite lookup_drop in Hj. rewrite (H _ _ Hj). lia. Qed.

Lemma contiguous_take i k (es : list E) : contiguous i es -> contiguous i (take k es).
Proof. intros H j e Hj. apply lookup_take_Some in Hj as [Hj _]. by apply H. Qed.

Lemma contiguous_elem i (es : list E) e : contiguous i es -> e ∈ es -> i <= entry_index e < i + vec_len es.
Proof.
  intros H [k Hk]%list_elem_of_lookup. rewrite (H _ _ Hk). apply lookup_lt_Some in Hk. unfold vec_len. lia.
Qed.

Lemma filter_all {A} (P : A -> Prop) `{!forall x, Decision (P x)} (l : list A) :
  (forall x, x ∈ l -> P x) -> filter P l = l.
Proof.
  induction l as [|x l IH]; intros Hp; [done|]. rewrite filter_cons, decide_True by (apply Hp; by left).
  f_equal. apply IH. intros y Hy. apply Hp. by right.
Qed.

Lemma filter_none {A} (P : A -> Prop) `{!forall x, Decision (P x)} (l : list A) :
  (forall x, x ∈ l -> ~ P x) -> filter P l = [].
Proof.
  induction l as [|x l IH]; intros Hp; [done|]. rewrite filter_cons, decide_False by (apply Hp; by left).
  apply IH. intros y Hy. apply Hp. by right.
Qed.

(** Bounds on the index cut a contiguous list at its ends. *)
Lemma filter_from i n (es : list E) :
  contiguous i es -> filter (fun e => n <= entry_index e) es = drop (N.to_nat (n - i)) es.
Proof.
  intros H. rewrite <-(take_drop (N.to_nat (n - i)) es) at 1. rewrite filter_app, filter_none, filter_all; [done| |].
  - intros e Hin. apply (contiguous_elem _ _ _ (contiguous_drop _ _ _ H)) in Hin. lia.
  - intros e Hin. apply list_elem_of_lookup in Hin as [k Hk]. apply lookup_take_Some in Hk as [Hk ?].
    rewrite (H _ _ Hk). lia.
Qed.

Definition cut (state : ControlState Vote) (i : N) (es : list E) : list E :=
  match cl_truncation_pending_from state with
  | None => es
  | Some boundary => take (N.to_nat (boundary - i)) es
  end.

Lemma remaining_cut state i es : contiguous i es -> remaining state es = cut state i es.
Proof.
  intros H. unfold remaining, cut, before. destruct (cl_truncation_pending_from state) as [b|]; cbn.
  - rewrite <-(take_drop (N.to_nat (b - i)) es) at 1. rewrite filter_app, filter_all, filter_none; [apply app_nil_r| |].
    + intros e Hin. apply (contiguous_elem _ _ _ (contiguous_drop _ _ _ H)) in Hin. rewrite N.ltb_lt. lia.
    + intros e Hin. apply list_elem_of_lookup in Hin as [k Hk]. apply lookup_take_Some in Hk as [Hk ?].
      rewrite (H _ _ Hk). apply N.ltb_lt. lia.
  - by apply filter_all.
Qed.

Lemma cut_contiguous state i es : contiguous i es -> contiguous i (cut state i es).
Proof. unfold cut. destruct (cl_truncation_pending_from state); [apply contiguous_take|done]. Qed.

Definition from (n : N) (es : list E) : list E := filter (fun e => n <= entry_index e) es.

Lemma filter_live state (es : list E) :
  filter (live state) es = from (next_index (cl_last_purged_log_id state)) (remaining state es).
Proof.
  unfold from, remaining. rewrite list_filter_filter. apply list_filter_iff. intros e. unfold live. tauto.
Qed.

Lemma live_contiguous state i es :
  contiguous i es -> i <= next_index (cl_last_purged_log_id state) ->
  contiguous (next_index (cl_last_purged_log_id state)) (filter (live state) es).
Proof.
  intros H Hi. rewrite filter_live, (remaining_cut _ i) by done. unfold from.
  apply (cut_contiguous state) in H. rewrite (filter_from i) by done.
  set (n := next_index _) in *. replace n with (i + N.of_nat (N.to_nat (n - i))) at 1 by lia. by apply contiguous_drop.
Qed.

(** ** The log in memory *)

Definition log_map (es : list E) : gmap N E := foldl (fun m e => <[entry_index e := e]> m) ∅ es.

Lemma log_map_snoc es e : log_map (es ++ [e]) = <[entry_index e := e]> (log_map es).
Proof. unfold log_map. by rewrite foldl_snoc. Qed.

Lemma log_map_lookup i es k : contiguous i es -> log_map es !! k = if i <=? k then es !! N.to_nat (k - i) else None.
Proof.
  induction es as [|e es IH] using rev_ind; intros H.
  - cbn. rewrite lookup_empty. by n_cases.
  - apply contiguous_app in H as [H [He _]%contiguous_cons]. rewrite log_map_snoc. unfold vec_len in He.
    destruct (decide (k = entry_index e)) as [->|Hne].
    + rewrite lookup_insert_eq. n_cases; [|lia]. replace (N.to_nat _) with (length es) by lia.
      by rewrite list_lookup_middle.
    + rewrite lookup_insert_ne, IH by done. n_cases; [|done].
      destruct (decide (N.to_nat (k - i) < length es)%nat).
      * by rewrite lookup_app_l.
      * rewrite !lookup_ge_None_2 by (rewrite ?length_app; cbn; lia). done.
Qed.

Lemma log_map_elem i es k e : contiguous i es -> log_map es !! k = Some e <-> e ∈ es /\ entry_index e = k.
Proof.
  intros H. rewrite (log_map_lookup i) by done. split.
  - n_cases; [|done]. intros Hl. split; [by eapply list_elem_of_lookup_2|]. rewrite (H _ _ Hl). lia.
  - intros [[j Hj]%list_elem_of_lookup <-]. rewrite (H _ _ Hj). n_cases; [|lia]. rewrite <-Hj. f_equal. lia.
Qed.

Lemma log_map_items i es : contiguous i es -> btree_items (log_map es) = (fun e => (entry_index e, e)) <$> es.
Proof.
  intros H. apply (StronglySorted_unique key_lt); [apply btree_items_sorted| |].
  - revert i H. induction es as [|e es IH]; intros i H; cbn; [constructor|].
    apply contiguous_cons in H as [He H]. constructor; [by eapply IH|]. apply Forall_fmap, Forall_forall.
    intros e' Hin. apply (contiguous_elem _ _ _ H) in Hin. unfold key_lt; cbn. lia.
  - apply NoDup_Permutation.
    + apply (NoDup_fmap_1 fst), btree_items_NoDup_keys.
    + apply NoDup_alt. intros j k p Hj Hk. rewrite list_lookup_fmap in Hj, Hk.
      destruct (es !! j) as [e|] eqn:Ej; [|done]. destruct (es !! k) as [e'|] eqn:Ek; [|done]. cbn in Hj, Hk.
      pose proof (H _ _ Ej). pose proof (H _ _ Ek). simplify_eq. lia.
    + intros [k e]. rewrite elem_of_btree_items, (log_map_elem i) by done. rewrite list_elem_of_fmap. split.
      * intros [Hin <-]. by exists e.
      * intros (e' & [= -> ->] & Hin). done.
Qed.

Lemma check_contiguous_ok i es : contiguous i es -> check_contiguous (Some i) ((fun e => (entry_index e, e)) <$> es) = Ok tt.
Proof.
  revert i; induction es as [|e es IH]; intros i H; [done|]. apply contiguous_cons in H as [He H].
  cbn [fmap list_fmap check_contiguous]. rewrite bool_decide_eq_true_2 by congruence. rewrite N.eqb_refl. cbn [negb].
  destruct es as [|e' es]; [done|]. pose proof (proj1 (contiguous_cons _ _ _) H) as [He' _].
  pose proof (entry_index_u64 e') as Hu. change (li_index (entry_log_id e')) with (entry_index e') in Hu.
  unfold u64_checked_add. rewrite (proj2 (N.leb_le _ _)) by lia. rewrite He. by apply IH.
Qed.

Lemma purged_at_next (state : ControlState Vote) k :
  purged_at state k = negb (next_index (cl_last_purged_log_id state) <=? k).
Proof.
  unfold purged_at, next_index. destruct (cl_last_purged_log_id state) as [p|]; cbn.
  - destruct (N.leb_spec k (li_index p)), (N.leb_spec (li_index p + 1) k); try done; lia.
  - by destruct k.
Qed.

Lemma insert_records_spec (state : ControlState Vote) i recs es0 :
  contiguous i (es0 ++ from (next_index (cl_last_purged_log_id state)) (er_entry <$> recs)) ->
  insert_records state recs (log_map es0) =
    Ok (log_map (es0 ++ from (next_index (cl_last_purged_log_id state)) (er_entry <$> recs))).
Proof.
  unfold from. revert es0; induction recs as [|[g e] recs IH]; intros es0 H; cbn [insert_records fmap list_fmap er_entry].
  - change (filter _ []) with (@nil E). by rewrite app_nil_r.
  - cbn [fmap list_fmap er_entry] in H. rewrite filter_cons in H |- *. rewrite purged_at_next.
    destruct (N.leb_spec (next_index (cl_last_purged_log_id state)) (entry_index e)); cbn [negb].
    + rewrite decide_True in H |- * by done.
      destruct (proj1 (contiguous_app _ _ _) H) as [Hc0 [He _]%contiguous_cons].
      rewrite (log_map_lookup i) by done. unfold vec_len in He. rewrite (lookup_ge_None_2 es0) by lia.
      replace (if i <=? entry_index e then None else None) with (@None E) by (by n_cases).
      rewrite <-log_map_snoc. rewrite cons_middle, app_assoc in H. rewrite (cons_middle e es0 (filter _ _)), app_assoc. by apply IH.
    + rewrite decide_False in H |- * by lia. by apply IH.
Qed.

Lemma insert_records_app (state : ControlState Vote) recs recs' (log : gmap N E) :
  insert_records state (recs ++ recs') log =
  let? log := insert_records state recs log in insert_records state recs' log.
Proof.
  revert log; induction recs as [|r recs IH]; intros log; [done|]. cbn.
  destruct (purged_at _ _); [apply IH|]. destruct (log !! _); [done|apply IH].
Qed.

Lemma insert_segments_spec (state : ControlState Vote) rsegs (log : gmap N E) tail log' :
  insert_records state (concat (rg_records <$> rsegs)) log = Ok log' ->
  insert_segments state rsegs log tail =
    Ok (log', from_option (fun r => Some {| tl_name := rg_name r; tl_length := rg_valid_length r |}) tail (last rsegs)).
Proof.
  revert log tail; induction rsegs as [|r rsegs IH]; intros log tail; cbn [fmap list_fmap concat].
  - by intros [= ->].
  - rewrite insert_records_app. intros H. cbn [insert_segments].
    destruct (insert_records state (rg_records r) log) as [log1|] eqn:E1; [|done]. rewrite (IH log1) by done.
    rewrite last_cons. by destruct (last rsegs).
Qed.

(** ** The log that a directory means *)

Lemma seen_entries state (s : Seg E) : er_entry <$> seen state s = remaining state (seg_entries s).
Proof.
  unfold seen, seg_entries. induction (s_frames s) as [|[g es] frames IH]; [done|].
  cbn [fmap list_fmap concat fst snd]. unfold remaining. rewrite fmap_app, filter_app. f_equal; [|exact IH].
  unfold records. rewrite <-list_fmap_compose. by apply list_fmap_id.
Qed.

Lemma read_segs_records state segs torn :
  er_entry <$> concat (rg_records <$> read_segs state segs torn) = remaining state (all_entries segs).
Proof.
  assert (H : rg_records <$> read_segs state segs torn = seen state <$> segs).
  { induction segs as [|s [|s' segs] IH]; [done..|].
    change (read_segs state (s :: s' :: segs) torn) with (read_seg state s [] :: read_segs state (s' :: segs) torn).
    cbn [fmap list_fmap]. by f_equal. }
  rewrite H. unfold all_entries. clear H. induction segs as [|s segs IH]; [done|].
  cbn [fmap list_fmap concat]. unfold remaining. rewrite fmap_app, filter_app. f_equal; [apply seen_entries|exact IH].
Qed.

Lemma remaining_kept state segs : Forall seg_ok segs -> remaining state (all_entries segs) = remaining state (all_entries (kept state segs)).
Proof.
  induction 1 as [|s segs Hs _ IH]; [done|]. unfold kept, all_entries, remaining in *. rewrite filter_cons.
  cbn [fmap list_fmap concat]. rewrite filter_app, IH. case_decide as Hb; cbn [fmap list_fmap concat]; [by rewrite filter_app|].
  rewrite filter_none; [done|]. intros e Hin. apply (contiguous_elem _ _ _ (so_contiguous s Hs)) in Hin.
  unfold before in Hb |- *. destruct (cl_truncation_pending_from state) as [b|]; cbn in *; [|done].
  intros He. apply Hb, N.ltb_lt. apply N.ltb_lt in He. lia.
Qed.

Lemma means_contiguous state segs torn es : means state segs torn es -> contiguous (next_index (cl_last_purged_log_id state)) es.
Proof.
  intros H. rewrite (me_entries _ _ _ _ H). destruct (kept state segs) as [|s segs'] eqn:Hk; [apply contiguous_nil|].
  destruct (me_joined _ _ _ _ H s segs' Hk) as [Hs Hc]. rewrite <-Hk. by eapply live_contiguous.
Qed.

Definition tail_of (segs : list (Seg E)) : option Tail :=
  (fun s => {| tl_name := seg_name s; tl_length := vec_len (seg_bytes s) |}) <$> last segs.

Lemma read_segs_last state segs torn :
  from_option (fun r => Some {| tl_name := rg_name r; tl_length := rg_valid_length r |}) None (last (read_segs state segs torn))
  = tail_of segs.
Proof.
  unfold tail_of. induction segs as [|s [|s' segs] IH]; [done..|].
  change (read_segs state (s :: s' :: segs) torn) with (read_seg state s [] :: read_segs state (s' :: segs) torn).
  rewrite last_cons_cons. rewrite last_cons. rewrite <-IH.
  destruct (last (read_segs state (s' :: segs) torn)) eqn:El; [done|]. apply last_None in El. by destruct segs.
Qed.

(** The committed entry is in the log, or purged. *)
Definition committed_ok (purged committed : option LogId) (es : list E) : Prop :=
  forall c, committed = Some c ->
    (exists e, e ∈ es /\ entry_log_id e = c) \/ (exists p, purged = Some p /\ li_index c <= li_index p).

Lemma last_key_spec i es : contiguous i es -> last_key (log_map es) = entry_index <$> last es.
Proof.
  intros H. unfold last_key, btree_keys. rewrite (log_map_items i), <-list_fmap_compose by done. by rewrite fmap_last.
Qed.

Lemma check_committed_ok state es :
  contiguous (next_index (cl_last_purged_log_id state)) es ->
  committed_ok (cl_last_purged_log_id state) (cl_committed state) es -> check_committed state (log_map es) = Ok tt.
Proof.
  intros Hc Hok. unfold check_committed. destruct (cl_committed state) as [c|]; [|done].
  rewrite (last_key_spec (next_index (cl_last_purged_log_id state))) by done.
  destruct (Hok c eq_refl) as [(e & Hin & He)|(p & Hp & Hle)].
  - destruct (last es) as [e'|] eqn:El; [|apply last_None in El; subst; by apply not_elem_of_nil in Hin].
    cbn. assert (Hi : entry_index e = li_index c) by (unfold entry_index; by rewrite He).
    pose proof (contiguous_elem _ _ _ Hc Hin) as Hb. rewrite last_lookup in El. pose proof (Hc _ _ El) as Hl.
    unfold vec_len in Hb. rewrite (proj2 (N.ltb_ge _ _)) by lia.
    rewrite (proj2 (log_map_elem _ es (li_index c) e Hc)) by done. by rewrite bool_decide_eq_true_2.
  - rewrite Hp in *. cbn [next_index] in Hc.
    assert (Hnone : log_map es !! li_index c = None).
    { destruct (log_map es !! li_index c) as [e|] eqn:El; [|done]. apply (log_map_elem _ _ _ _ Hc) in El as [Hin Hi].
      apply (contiguous_elem _ _ _ Hc) in Hin. lia. }
    rewrite Hnone. destruct (last es) as [e|] eqn:El; cbn.
    + assert (Hin : e ∈ es) by (apply last_Some in El as [l ->]; apply elem_of_app; right; by left).
      apply (contiguous_elem _ _ _ Hc) in Hin. by rewrite (proj2 (N.ltb_ge _ _)) by lia.
    + by rewrite (proj2 (N.ltb_ge _ _)) by lia.
Qed.

Lemma build_log_spec state segs torn es :
  means state segs torn es -> committed_ok (cl_last_purged_log_id state) (cl_committed state) es ->
  build_log (read_segs state segs torn) state = Ok (log_map es, tail_of segs).
Proof.
  intros H Hcom. pose proof (means_contiguous _ _ _ _ H) as Hc. unfold build_log.
  rewrite (insert_segments_spec state _ ∅ None (log_map es)).
  - rewrite read_segs_last, (log_map_items (next_index (cl_last_purged_log_id state))) by done.
    assert (Hchk : check_contiguous match cl_last_purged_log_id state with
      | Some log_id => u64_checked_add (li_index log_id) 1 | None => Some 0 end ((fun e => (entry_index e, e)) <$> es) = Ok tt).
    { destruct es as [|e es']; [done|]. pose proof (proj1 (contiguous_cons _ _ _) Hc) as [He _].
      pose proof (entry_index_u64 e) as Hu. change (li_index (entry_log_id e)) with (entry_index e) in Hu.
      unfold next_index in *. destruct (cl_last_purged_log_id state) as [p|]; [|by apply check_contiguous_ok].
      unfold u64_checked_add. rewrite (proj2 (N.leb_le _ _)) by lia. by apply check_contiguous_ok. }
    rewrite Hchk. by rewrite check_committed_ok.
  - assert (He : es = from (next_index (cl_last_purged_log_id state)) (er_entry <$> concat (rg_records <$> read_segs state segs torn))).
    { rewrite read_segs_records, remaining_kept, <-filter_live by apply H. apply H. }
    change ∅ with (log_map []). rewrite He at 1. rewrite (insert_records_spec _ (next_index (cl_last_purged_log_id state))).
    + done.
    + cbn [app]. by rewrite <-He.
Qed.
End recovery.
