(* ===== verification/RaftLogSteps.v ===== *)
(** The steps that operations of the durable Raft log are made of: what each
    leaves in the directory when it succeeds, and when it fails at any point. *)

From S2P Require Import Prelude Engine RecordFormat Names Paths Disk RaftLogFormat RaftLogSegments RaftLogFiles RaftLogRecovery.

Local Open Scope N_scope.

Section steps.
Context {E Vote : Type} {J : LogJson E Vote} {L : LogJsonLaws J}.

(** ** Changes of a directory *)

Definition plain (segs : list (Seg E)) : list (string * list byte) := (fun s => (seg_name s, seg_bytes s)) <$> segs.

Lemma seg_files_app (l1 : list (Seg E)) s l2 torn : seg_files (l1 ++ s :: l2) torn = plain l1 ++ seg_files (s :: l2) torn.
Proof.
  induction l1 as [|s1 l1 IH]; [done|]. cbn [app plain fmap list_fmap]. fold (plain l1). rewrite <-IH. by destruct l1.
Qed.

Lemma seg_files_cons (s : Seg E) l torn : l <> [] -> seg_files (s :: l) torn = (seg_name s, seg_bytes s) :: seg_files l torn.
Proof. by destruct l. Qed.

Lemma seg_files_whole l : seg_files l [] = plain l.
Proof.
  induction l as [|s [|s' l] IH]; [done|cbn; by rewrite app_nil_r|].
  change (seg_files (s :: s' :: l) []) with ((seg_name s, seg_bytes s) :: seg_files (s' :: l) []). by rewrite IH.
Qed.

Lemma plain_names l : (plain l).*1 = seg_name <$> l.
Proof. unfold plain. rewrite <-list_fmap_compose. done. Qed.

Lemma in_order_app (l1 l2 : list (Seg E)) :
  in_order (l1 ++ l2) <-> in_order l1 /\ in_order l2 /\ forall s s', s ∈ l1 -> s' ∈ l2 -> s_start s < s_start s'.
Proof.
  unfold in_order. rewrite fmap_app. induction l1 as [|s l1 IH]; cbn.
  - split; [intros H; split_and!; [constructor|done|intros s s' Hs; by apply not_elem_of_nil in Hs]|by intros (_ & ? & _)].
  - split.
    + intros [H Hf]%StronglySorted_inv. apply IH in H as (H1 & H2 & H12). apply Forall_app in Hf as [Hf1 Hf2].
      split_and!; [by constructor|done|]. intros s0 s' [->|Hs]%elem_of_cons Hs'; [|by apply H12].
      rewrite Forall_forall in Hf2. by apply Hf2, list_elem_of_fmap_2.
    + intros ([H1 Hf]%StronglySorted_inv & H2 & H12). constructor.
      * apply IH. split_and!; [done|done|]. intros s0 s' Hs Hs'. apply H12; [by right|done].
      * apply Forall_app. split; [done|]. apply Forall_fmap, Forall_forall. intros s' Hs'. apply H12; [by left|done].
Qed.

Section change.
Context (files : Dir) (st : ControlState Vote) (segs : list (Seg E)) (torn : list byte).
Context (Hh : holds files st segs torn).

(** Temporary files do not matter. *)
Lemma holds_temp_insert n bytes : is_temporary_artifact n = true -> holds (<[n := bytes]> files) st segs torn.
Proof.
  intros Hn. split.
  - rewrite lookup_insert_ne; [apply Hh|]. intros ->. by rewrite control_not_temporary in Hn.
  - intros name Hc Ht. rewrite lookup_insert_ne by congruence. by apply Hh.
Qed.

Lemma holds_temp_delete n : is_temporary_artifact n = true -> holds (delete n files) st segs torn.
Proof.
  intros Hn. split.
  - rewrite lookup_delete_ne; [apply Hh|]. intros ->. by rewrite control_not_temporary in Hn.
  - intros name Hc Ht. rewrite lookup_delete_ne by congruence. by apply Hh.
Qed.

Lemma holds_control st' : holds (<[CONTROL_FILE := control_bytes st']> files) st' segs torn.
Proof.
  split; [apply lookup_insert_eq|]. intros name Hc Ht. rewrite lookup_insert_ne by congruence. by apply Hh.
Qed.
End change.

Lemma not_in_names (s : Seg E) (l : list (Seg E)) :
  seg_ok s -> Forall seg_ok l -> (forall s', s' ∈ l -> s_start s' <> s_start s) -> seg_name s ∉ seg_name <$> l.
Proof.
  intros Hs Hl Hne (s' & E1 & Hin)%list_elem_of_fmap. rewrite Forall_forall in Hl.
  apply (Hne s' Hin). symmetry. apply seg_name_inj; [done|by apply Hl|done].
Qed.

(** The starts of the other segments. *)
Lemma in_order_other (l1 l2 : list (Seg E)) s :
  in_order (l1 ++ s :: l2) -> forall s', s' ∈ l1 ++ l2 -> s_start s' <> s_start s.
Proof.
  intros (_ & H2 & H12)%in_order_app s' [Hs|Hs]%elem_of_app Heq.
  - specialize (H12 s' s Hs ltac:(by left)). lia.
  - apply StronglySorted_inv in H2 as [_ Hf]. rewrite Forall_forall in Hf.
    specialize (Hf (s_start s') (list_elem_of_fmap_2 _ _ _ Hs)). lia.
Qed.

Lemma holds_remove files st l1 s l2 torn :
  holds files st (l1 ++ s :: l2) torn -> in_order (l1 ++ s :: l2) -> Forall seg_ok (l1 ++ s :: l2) ->
  holds (delete (seg_name s) files) st (l1 ++ l2) (match l2 with [] => [] | _ => torn end).
Proof.
  intros Hh Ho Hok. pose proof (in_order_other _ _ _ Ho) as Hne.
  apply Forall_app in Hok as [Hok1 [Hs Hok2]%Forall_cons].
  assert (Hni : seg_name s ∉ seg_name <$> (l1 ++ l2)) by (apply not_in_names; [done|by apply Forall_app|done]).
  split.
  - rewrite lookup_delete_ne by apply segment_not_control. apply Hh.
  - intros name Hc Ht. set (torn' := match l2 with [] => [] | _ => torn end).
    destruct (decide (name = seg_name s)) as [->|Hn].
    + rewrite lookup_delete_eq. symmetry. apply not_elem_of_list_to_map_1. by rewrite seg_files_names.
    + rewrite lookup_delete_ne by done. rewrite (ho_segments _ _ _ _ Hh), seg_files_app by done.
      destruct l2 as [|s2 l2].
      * rewrite app_nil_r. cbn [seg_files]. rewrite list_to_map_snoc by (rewrite plain_names; by rewrite app_nil_r in Hni).
        rewrite lookup_insert_ne by done. unfold torn'. by rewrite seg_files_whole.
      * rewrite seg_files_cons by done. rewrite (seg_files_app l1 s2 l2), !list_to_map_app.
        rewrite list_to_map_cons. rewrite !lookup_union. by rewrite lookup_insert_ne.
Qed.

(** A new version of the last segment. *)
Lemma holds_last files st l s s' torn torn' :
  holds files st (l ++ [s]) torn -> in_order (l ++ [s]) -> Forall seg_ok (l ++ [s]) -> s_start s' = s_start s ->
  holds (<[seg_name s := seg_bytes s' ++ torn']> files) st (l ++ [s']) torn'.
Proof.
  intros Hh Ho Hok Hst. pose proof (in_order_other _ _ _ Ho) as Hne. rewrite app_nil_r in Hne.
  apply Forall_app in Hok as [Hok1 [Hs _]%Forall_cons].
  assert (Hni : seg_name s ∉ seg_name <$> l) by (by apply not_in_names).
  assert (Hname : seg_name s' = seg_name s) by (unfold seg_name; by rewrite Hst).
  split.
  - rewrite lookup_insert_ne by apply segment_not_control. apply Hh.
  - intros name Hc Ht. rewrite (seg_files_app l s' []). cbn [seg_files].
    rewrite list_to_map_snoc by (by rewrite plain_names, Hname). rewrite Hname.
    destruct (decide (name = seg_name s)) as [->|Hn]; [by rewrite !lookup_insert_eq|].
    rewrite !lookup_insert_ne by done. rewrite (ho_segments _ _ _ _ Hh), (seg_files_app l s []) by done. cbn [seg_files].
    rewrite list_to_map_snoc by (by rewrite plain_names). by rewrite lookup_insert_ne.
Qed.

(** One segment more. *)
Lemma holds_snoc files st l s torn :
  holds files st l [] -> in_order (l ++ [s]) -> Forall seg_ok (l ++ [s]) ->
  holds (<[seg_name s := seg_bytes s ++ torn]> files) st (l ++ [s]) torn.
Proof.
  intros Hh Ho Hok. pose proof (in_order_other _ _ _ Ho) as Hne. rewrite app_nil_r in Hne.
  apply Forall_app in Hok as [Hok1 [Hs _]%Forall_cons].
  assert (Hni : seg_name s ∉ seg_name <$> l) by (by apply not_in_names).
  split.
  - rewrite lookup_insert_ne by apply segment_not_control. apply Hh.
  - intros name Hc Ht. rewrite (seg_files_app l s []). cbn [seg_files].
    rewrite list_to_map_snoc by (by rewrite plain_names).
    destruct (decide (name = seg_name s)) as [->|Hn]; [by rewrite !lookup_insert_eq|].
    rewrite !lookup_insert_ne by done. rewrite (ho_segments _ _ _ _ Hh) by done. by rewrite seg_files_whole.
Qed.

(** ** Segments that follow each other *)

Definition seg_end (s : Seg E) : N := s_start s + vec_len (seg_entries s).

Lemma kept_none (st : ControlState Vote) (segs : list (Seg E)) : cl_truncation_pending_from st = None -> kept st segs = segs.
Proof. intros H. apply filter_all. intros s _. unfold before. by rewrite H. Qed.

Lemma remaining_none (st : ControlState Vote) (es : list E) : cl_truncation_pending_from st = None -> remaining st es = es.
Proof. intros H. apply filter_all. intros e _. unfold before. by rewrite H. Qed.

Lemma all_entries_app (l1 l2 : list (Seg E)) : all_entries (l1 ++ l2) = all_entries l1 ++ all_entries l2.
Proof. unfold all_entries. by rewrite fmap_app, concat_app. Qed.

Lemma all_entries_cons (s : Seg E) l : all_entries (s :: l) = seg_entries s ++ all_entries l.
Proof. done. Qed.

Lemma seg_entries_first s : seg_ok s -> exists e es, seg_entries s = e :: es /\ entry_index e = s_start s.
Proof.
  intros Hs. pose proof (so_contiguous s Hs) as Hc. destruct (seg_entries s) as [|e es] eqn:Ee.
  - by apply seg_entries_some in Hs.
  - apply contiguous_cons in Hc as [He _]. by exists e, es.
Qed.

(** In a contiguous row every segment starts where those before it end. *)
Lemma joined_start i (l1 : list (Seg E)) s l2 :
  contiguous i (all_entries (l1 ++ s :: l2)) -> seg_ok s -> s_start s = i + vec_len (all_entries l1).
Proof.
  intros Hc Hs. rewrite all_entries_app in Hc. apply contiguous_app in Hc as [_ Hc].
  destruct (seg_entries_first s Hs) as (e & es & Ee & He). rewrite all_entries_cons, Ee in Hc. cbn [app] in Hc.
  apply contiguous_cons in Hc as [Hi _]. lia.
Qed.

Lemma joined_end i (l1 : list (Seg E)) s l2 :
  contiguous i (all_entries (l1 ++ s :: l2)) -> seg_ok s -> seg_end s = i + vec_len (all_entries (l1 ++ [s])).
Proof.
  intros Hc Hs. unfold seg_end. rewrite (joined_start i l1 s l2) by done. rewrite all_entries_app, vec_len_app.
  rewrite all_entries_cons, vec_len_app. change (vec_len (all_entries [])) with 0. lia.
Qed.

Lemma segment_purged_spec (st : ControlState Vote) s torn :
  cl_truncation_pending_from st = None -> seg_ok s ->
  segment_purged st (read_seg st s torn) = (seg_end s <=? next_index (cl_last_purged_log_id st)).
Proof.
  intros Hp Hs. unfold segment_purged. cbn [rg_records rg_start_index read_seg].
  pose proof (seen_entries st s) as He. rewrite remaining_none in He by done.
  pose proof (so_contiguous s Hs) as Hc. destruct (last (seen st s)) as [r|] eqn:El.
  - assert (Hl : last (seg_entries s) = Some (er_entry r)) by (rewrite <-He, fmap_last, El; done).
    rewrite purged_at_next. rewrite last_lookup in Hl. pose proof (Hc _ _ Hl) as Hi. apply lookup_lt_Some in Hl.
    unfold seg_end, vec_len. destruct (N.leb_spec (next_index (cl_last_purged_log_id st)) (entry_index (er_entry r)));
      destruct (N.leb_spec (s_start s + N.of_nat (length (seg_entries s))) (next_index (cl_last_purged_log_id st))); try done; lia.
  - apply last_None in El. rewrite El in He. symmetry in He. by apply seg_entries_some in He.
Qed.

(** Without its purged first segment a directory means the same. *)
Lemma means_drop (st : ControlState Vote) s segs torn torn' es :
  means st (s :: segs) torn es -> cl_truncation_pending_from st = None ->
  seg_end s <= next_index (cl_last_purged_log_id st) -> torn_batch torn' -> means st segs torn' es.
Proof.
  intros [Ho Hok Hg Hgen Ht Hj He] Hp Hend Ht'. rewrite kept_none in Hj, He by done.
  destruct (Hj s segs eq_refl) as [Hs Hc]. apply Forall_cons in Hok as [Hsok Hok]. apply Forall_cons in Hg as [_ Hg].
  split; try done.
  - by apply StronglySorted_inv in Ho as [Ho _].
  - intros s' segs' Hk. rewrite kept_none in Hk |- * by done. subst segs. apply Forall_cons in Hok as [Hsok' _].
    pose proof (joined_start (s_start s) [s] s' segs' Hc Hsok') as Hst.
    rewrite all_entries_cons in Hc. apply contiguous_app in Hc as [_ Hc].
    rewrite all_entries_cons, vec_len_app in Hst. change (vec_len (all_entries [])) with 0 in Hst.
    unfold seg_end in Hend. split; [lia|]. rewrite Hst. by rewrite N.add_0_r.
  - rewrite kept_none by done. rewrite He. unfold all_entries. cbn [fmap list_fmap concat]. rewrite filter_app, filter_none; [done|].
    intros e Hin [_ Hl]. apply (contiguous_elem _ _ _ (so_contiguous s Hsok)) in Hin. unfold seg_end in Hend. lia.
Qed.

(** ** The directory on the disk *)

Lemma family_not_parent marker_path : family_directory marker_path <> path_parent marker_path.
Proof.
  intros E1. apply (f_equal (fun s => length (as_bytes s))) in E1. unfold family_directory in E1.
  rewrite !as_bytes_app, !length_app in E1. cbn in E1. lia.
Qed.

Section disk.
Context (os : Os) (Hpid : os_pid os <= u32_max) (Hlist : lists_files os) (marker_path : Path).

Abbreviation dir := (family_directory marker_path).

Definition marker_bytes : list byte :=
  default [] (marker_to_json {| vm_version := LOG_FORMAT_VERSION; vm_artifact := ARTIFACT |}).

Record at_dir (d : Disk) (files : Dir) : Prop := {
  ad_files : d !! dir = Some files;
  ad_marker : disk_file d marker_path = Some marker_bytes;
}.

Lemma at_dir_put d files name bytes :
  at_dir d files -> at_dir (disk_put d (in_directory dir name) bytes) (<[name := bytes]> files).
Proof.
  intros [Hf Hm]. split.
  - by apply (disk_put_dir d (in_directory dir name)).
  - unfold disk_file in *. rewrite disk_put_other by (apply not_eq_sym, family_not_parent). done.
Qed.

Lemma at_dir_remove d files name : at_dir d files -> at_dir (disk_remove d (in_directory dir name)) (delete name files).
Proof.
  intros [Hf Hm]. split.
  - by apply (disk_remove_dir d (in_directory dir name)).
  - unfold disk_file in *. rewrite disk_remove_other by (apply not_eq_sym, family_not_parent). done.
Qed.

Lemma at_dir_file d files name : at_dir d files -> disk_file d (in_directory dir name) = files !! name.
Proof. intros [Hf _]. by apply disk_file_dir. Qed.

Definition clean (files : Dir) : Prop := forall name, is_temporary_artifact name = true -> files !! name = None.

(** The directory holds the segments; without temporary files if [c]. *)
Definition stored (c : bool) (d : Disk) (st : ControlState Vote) (segs : list (Seg E)) (torn : list byte) : Prop :=
  exists files, at_dir d files /\ holds files st segs torn /\ (c = true -> clean files).

Lemma stored_weaken c d st segs torn : stored c d st segs torn -> stored false d st segs torn.
Proof. intros (files & Hd & Hh & _). by exists files. Qed.

(** Replacing a file by way of a temporary one. *)
Lemma wp_replace {A} name files bytes (k : Io A) (Q : A -> World -> Prop) (F : Disk -> Prop) w :
  at_dir (w_disk w) files -> is_temporary_artifact (temp_name os name) = true ->
  (forall w', at_dir (w_disk w') (<[name := bytes]> (delete (temp_name os name) files)) -> io_wp k Q F w') ->
  (faulty os -> forall d files', at_dir d files' ->
     (exists b, files' = <[temp_name os name := b]> files) -> F d) ->
  (faulty os -> F (w_disk w)) ->
  io_wp (let temp := temp_path os (in_directory dir name) in
    do* file_create os temp in do* file_write os temp bytes in do* sync os in do* rename os temp (in_directory dir name) in k) Q F w.
Proof.
  intros Hd Ht HQ HF HF0. cbv zeta. rewrite temp_path_name. cbn [path_parent path_file_name in_directory].
  set (tmp := temp_name os name) in *. pose proof (at_dir_put _ _ tmp [] Hd) as Hd1.
  apply io_wp_bind. apply (io_wp_file_create os _ files); [apply Hd| |done].
  assert (Hf1 : disk_file (disk_put (w_disk w) (in_directory dir tmp) []) (in_directory dir tmp) = Some []).
  { rewrite (at_dir_file _ _ _ Hd1). apply lookup_insert_eq. }
  apply io_wp_bind. apply (io_wp_file_write os _ []); [exact Hf1| |].
  2: { intros Hflt n. cbn [later w_disk app]. pose proof (at_dir_put _ _ tmp (take n bytes) Hd1) as Hd2.
       rewrite insert_insert_eq in Hd2. eapply (HF Hflt _ _ Hd2). by eexists. }
  cbn [later w_disk app]. pose proof (at_dir_put _ _ tmp bytes Hd1) as Hd2. rewrite insert_insert_eq in Hd2.
  apply io_wp_bind, io_wp_sync; cbn [w_disk]. 2: { intros Hflt. eapply (HF Hflt _ _ Hd2). by eexists. }
  apply io_wp_bind. apply (io_wp_rename os _ _ bytes); cbn [w_disk later].
  - rewrite (at_dir_file _ _ _ Hd2). apply lookup_insert_eq.
  - apply HQ. cbn [later w_disk]. pose proof (at_dir_put _ _ name bytes (at_dir_remove _ _ tmp Hd2)) as Hd3.
    rewrite delete_insert_eq in Hd3. done.
  - intros Hflt. eapply (HF Hflt _ _ Hd2). by eexists.
Qed.

Lemma clean_insert files n bytes : is_temporary_artifact n = false -> clean files -> clean (<[n := bytes]> files).
Proof. intros Hn Hc name Ht. rewrite lookup_insert_ne by congruence. by apply Hc. Qed.

Lemma clean_delete files n : clean files -> clean (delete n files).
Proof. intros Hc name Ht. apply lookup_delete_None. right. by apply Hc. Qed.

Lemma wp_persist_control c store st0 st segs torn w :
  stored c (w_disk w) st0 segs torn -> sg_directory store = dir ->
  io_wp (persist_control os store st)
    (fun store' w' => store' = set_control store st /\ stored c (w_disk w') st segs torn)
    (fun d => faulty os /\ (stored false d st0 segs torn \/ stored false d st segs torn)) w.
Proof.
  intros (files & Hd & Hh & Hc) Hdir. unfold persist_control.
  destruct (state_json_total st) as [sb Hsb]. rewrite Hsb. cbn [of_json io_lift]. apply io_wp_bind, io_wp_ret.
  destruct (record_json_total {| cr_state := st; cr_checksum := crc32 sb |}) as [rb Hrb]. rewrite Hrb.
  cbn [of_json io_lift]. apply io_wp_bind, io_wp_ret. rewrite Hdir.
  assert (Hb : rb = control_bytes st) by (unfold control_bytes; rewrite Hsb; cbn; by rewrite Hrb). subst rb.
  assert (Hold : faulty os -> faulty os /\ (stored false (w_disk w) st0 segs torn \/ stored false (w_disk w) st segs torn)).
  { intros Hf. split; [done|]. left. by exists files. }
  pose proof (temp_control os Hpid) as Ht. apply io_wp_bind. unfold atomic_write.
  apply io_wp_bind. eapply (io_wp_create_dir_all os _ files); [apply Hd| |done].
  apply (wp_replace CONTROL_FILE files (control_bytes st)); [exact Hd|exact Ht| | |exact Hold].
  - intros w' Hd'.
    assert (Hnew : stored c (w_disk w') st segs torn).
    { eexists. split_and!; [exact Hd'| |].
      - apply (holds_control _ st0), (holds_temp_delete _ _ _ _ Hh), Ht.
      - intros Hcc. apply clean_insert; [apply control_not_temporary|by apply clean_delete, Hc]. }
    apply io_wp_sync; [by apply io_wp_ret|]. intros Hf. split; [done|]. right. by eapply stored_weaken.
  - intros Hf d files' Hd' [b ->]. split; [done|]. left. eexists. split_and!; [exact Hd'| |done].
    by apply holds_temp_insert.
Qed.

(** ** Recovery *)

(** What a failure may leave of a log with the entries [es]. *)
Definition leaves (st : ControlState Vote) (es : list E) (d : Disk) : Prop :=
  exists segs torn, stored false d st segs torn /\ means st segs torn es.

Lemma means_torn st segs torn torn' (es : list E) : means st segs torn es -> torn_batch torn' -> means st segs torn' es.
Proof. intros [] Ht. by split. Qed.

Lemma stored_leaves c d st segs torn es : stored c d st segs torn -> means st segs torn es -> leaves st es d.
Proof. intros Hs Hm. exists segs, torn. split; [by eapply stored_weaken|done]. Qed.

Lemma read_segs_length st (segs : list (Seg E)) torn : length (read_segs st segs torn) = length segs.
Proof.
  induction segs as [|s [|s' segs] IH]; [done..|].
  change (read_segs st (s :: s' :: segs) torn) with (read_seg st s [] :: read_segs st (s' :: segs) torn). cbn [length].
  by rewrite IH.
Qed.

Lemma read_segs_snoc st (l : list (Seg E)) s torn :
  read_segs st (l ++ [s]) torn = ((fun s => read_seg st s []) <$> l) ++ [read_seg st s torn].
Proof. induction l as [|s1 l IH]; [done|]. cbn [app fmap list_fmap]. rewrite <-IH. by destruct l. Qed.

Lemma check_incomplete_ok st segs torn : check_incomplete (read_segs st segs torn) = Ok tt.
Proof.
  unfold check_incomplete. destruct segs as [|s l _] using rev_ind; [done|].
  rewrite read_segs_snoc, length_app, length_fmap. cbn [length]. replace (length l + 1 - 1)%nat with (length l) by lia.
  rewrite take_app_length' by (by rewrite length_fmap). rewrite existsb_false_intro; [done|].
  by intros r (s' & -> & _)%list_elem_of_fmap.
Qed.

Lemma wp_recover c st segs torn es w :
  stored c (w_disk w) st segs torn -> means st segs torn es ->
  committed_ok (cl_last_purged_log_id st) (cl_committed st) es ->
  io_wp (recover_segments os dir (read_segs st segs torn) st)
    (fun r w' => r = (log_map es, tail_of segs) /\ stored c (w_disk w') st segs [])
    (fun d => faulty os /\ leaves st es d) w.
Proof.
  intros Hs Hm Hcom. unfold recover_segments. rewrite check_incomplete_ok, (build_log_spec st segs torn es) by done.
  cbn [io_lift]. apply io_wp_bind, io_wp_ret. unfold repair_tail.
  destruct segs as [|s l _] using rev_ind.
  { split; [done|]. destruct Hs as (files & Hd & Hh & Hc).
    exists files. split_and!; [done| |done]. by split; [apply Hh|apply (ho_segments _ _ _ _ Hh)]. }
  rewrite read_segs_snoc, last_snoc. cbn [rg_incomplete_tail read_seg rg_name rg_valid_length].
  case_bool_decide as Ht.
  2: { apply io_wp_bind, io_wp_ret. apply io_wp_ret. split; [done|]. by subst torn. }
  pose proof Hs as (files & Hd & Hh & Hc).
  pose proof (me_order _ _ _ _ Hm) as Ho. pose proof (me_segs _ _ _ _ Hm) as Hok.
  assert (Hfile : files !! seg_name s = Some (seg_bytes s ++ torn)).
  { eapply holds_file; [exact Hh|done|done|]. rewrite seg_files_app. apply elem_of_app. right. by left. }
  assert (Hdf : disk_file (w_disk w) (in_directory dir (seg_name s)) = Some (seg_bytes s ++ torn)).
  { by rewrite (at_dir_file _ _ _ Hd). }
  apply io_wp_bind. apply io_wp_bind.
  apply (io_wp_file_open os _ (seg_bytes s ++ torn)); [exact Hdf| |intros Hf; split; [done|by eapply stored_leaves]].
  apply io_wp_bind.
  apply (io_wp_set_len os _ (seg_bytes s ++ torn)); [exact Hdf| |intros Hf; split; [done|by eapply stored_leaves]].
  cbn [later w_disk].
  assert (Hlen : N.to_nat (vec_len (seg_bytes s)) = length (seg_bytes s)) by (unfold vec_len; lia).
  rewrite Hlen, take_app_length.
  assert (Hnew : stored c (disk_put (w_disk w) (in_directory dir (seg_name s)) (seg_bytes s)) st (l ++ [s]) []).
  { exists (<[seg_name s := seg_bytes s]> files). split_and!; [by apply at_dir_put| |].
    - rewrite <-(app_nil_r (seg_bytes s)). by eapply holds_last.
    - intros Hcc. apply clean_insert; [apply segment_not_temporary|by apply Hc]. }
  apply io_wp_sync; cbn [w_disk later].
  - apply io_wp_ret. done.
  - intros Hf. split; [done|]. eapply stored_leaves; [exact Hnew|]. eapply means_torn; [done|]. apply torn_nil.
Qed.

(** ** Purging *)

Lemma remove_purged_none st rsegs acc changed :
  Forall (fun r => segment_purged st r = false) rsegs ->
  remove_purged os dir st rsegs acc changed = io_ret (acc ++ rsegs, changed).
Proof.
  intros H. revert acc; induction H as [|r rsegs Hr _ IH]; intros acc; cbn [remove_purged]; [by rewrite app_nil_r|].
  rewrite Hr, IH. by rewrite <-app_assoc.
Qed.

Definition unpurged (st : ControlState Vote) (segs : list (Seg E)) : Prop :=
  Forall (fun s => next_index (cl_last_purged_log_id st) < seg_end s) segs.

(** If the first segment is needed, so are the others. *)
Lemma unpurged_all st s segs torn es :
  means st (s :: segs) torn es -> cl_truncation_pending_from st = None ->
  next_index (cl_last_purged_log_id st) < seg_end s -> unpurged st (s :: segs).
Proof.
  intros Hm Hp Hend. destruct (me_joined _ _ _ _ Hm s segs) as [_ Hc]; [by rewrite kept_none|].
  rewrite kept_none in Hc by done. unfold unpurged. constructor; [done|]. apply Forall_forall.
  intros s' (l1 & l2 & ->)%list_elem_of_split.
  pose proof (me_segs _ _ _ _ Hm) as Hok. rewrite app_comm_cons in Hok, Hc. apply Forall_app in Hok as [Hok1 [Hs' _]%Forall_cons].
  apply Forall_cons in Hok1 as [Hs Hok1].
  rewrite (joined_end _ _ _ _ Hc Hs'), all_entries_app, all_entries_cons, !vec_len_app.
  unfold seg_end in Hend. lia.
Qed.

Lemma read_segs_cons st s (segs : list (Seg E)) torn :
  exists t, read_segs st (s :: segs) torn = read_seg st s t :: read_segs st segs torn.
Proof. destruct segs; by eexists. Qed.

Lemma read_segs_elem st (segs : list (Seg E)) torn r : r ∈ read_segs st segs torn -> exists s t, s ∈ segs /\ r = read_seg st s t.
Proof.
  induction segs as [|s segs IH]; [by intros ?%not_elem_of_nil|].
  destruct (read_segs_cons st s segs torn) as [t ->]. intros [->|Hin]%elem_of_cons.
  - exists s, t. split; [by left|done].
  - destruct (IH Hin) as (s' & t' & Hs & ->). exists s', t'. split; [by right|done].
Qed.

Lemma wp_remove_purged c st segs torn es changed w :
  stored c (w_disk w) st segs torn -> means st segs torn es -> cl_truncation_pending_from st = None ->
  io_wp (remove_purged os dir st (read_segs st segs torn) [] changed)
    (fun r w' => exists segs' torn', r.1 = read_segs st segs' torn' /\ stored c (w_disk w') st segs' torn' /\
       means st segs' torn' es /\ unpurged st segs')
    (fun d => faulty os /\ leaves st es d) w.
Proof.
  revert torn changed w; induction segs as [|s segs IH]; intros torn changed w Hs Hm Hp.
  { cbn. exists [], torn. split_and!; [done|done|done|constructor]. }
  pose proof (me_segs _ _ _ _ Hm) as Hok. pose proof Hok as [Hsok Hok']%Forall_cons.
  destruct (read_segs_cons st s segs torn) as [t Ht]. rewrite Ht. cbn [remove_purged].
  rewrite segment_purged_spec by done. destruct (N.leb_spec (seg_end s) (next_index (cl_last_purged_log_id st))) as [Hend|Hend].
  - pose proof Hs as (files & Hd & Hh & Hc). cbn [rg_name read_seg].
    set (torn' := match segs with [] => [] | _ => torn end).
    assert (Ht' : torn_batch torn') by (unfold torn'; destruct segs; [apply torn_nil|apply Hm]).
    pose proof (holds_remove files st [] s segs torn Hh (me_order _ _ _ _ Hm) Hok) as Hh'. fold torn' in Hh'. cbn [app] in Hh'.
    assert (Hname : (seg_name s, seg_bytes s ++ match segs with [] => torn | _ => [] end) ∈ seg_files (s :: segs) torn).
    { destruct segs; [by left|]. rewrite app_nil_r. by left. }
    apply (holds_file _ _ _ _ _ _ Hh (me_order _ _ _ _ Hm) Hok) in Hname.
    apply io_wp_bind. eapply io_wp_remove; [by rewrite (at_dir_file _ _ _ Hd)| |intros Hf; split; [done|by eapply stored_leaves]].
    assert (Hr : read_segs st segs torn = read_segs st segs torn') by (unfold torn'; by destruct segs). rewrite Hr.
    apply IH; [|by eapply means_drop|done]. exists (delete (seg_name s) files). cbn [later w_disk].
    split_and!; [by apply at_dir_remove|exact Hh'|]. intros Hcc. by apply clean_delete, Hc.
  - pose proof (unpurged_all _ _ _ _ _ Hm Hp Hend) as Hun. rewrite remove_purged_none.
    + apply io_wp_ret. exists (s :: segs), torn. rewrite Ht. split_and!; done.
    + apply Forall_forall. intros r Hin.
      destruct (read_segs_elem st segs torn r Hin) as (s' & t' & Hs' & ->). rewrite Forall_forall in Hok'.
      rewrite segment_purged_spec by (by try apply Hok'). apply Forall_cons in Hun as [_ Hun]. rewrite Forall_forall in Hun.
      specialize (Hun s' Hs'). cbn in Hun. by apply N.leb_gt.
Qed.

Lemma wp_sync_if changed (Q : unit -> World -> Prop) (F : Disk -> Prop) w :
  (forall w', w_disk w' = w_disk w -> Q tt w') -> (faulty os -> F (w_disk w)) -> io_wp (sync_if os changed) Q F w.
Proof. intros HQ HF. destruct changed; cbn; [apply io_wp_sync|]; auto. Qed.

Lemma wp_finish_purge c store st segs torn es w :
  stored c (w_disk w) st segs torn -> means st segs torn es -> cl_truncation_pending_from st = None ->
  committed_ok (cl_last_purged_log_id st) (cl_committed st) es -> sg_directory store = dir ->
  io_wp (finish_purge os store st)
    (fun r w' => exists segs', r = (set_tail store (tail_of segs'), log_map es) /\ stored c (w_disk w') st segs' [] /\
       means st segs' [] es /\ unpurged st segs')
    (fun d => faulty os /\ leaves st es d) w.
Proof.
  intros Hs Hm Hp Hcom Hdir. unfold finish_purge. rewrite Hdir. pose proof Hs as (files & Hd & Hh & Hc).
  eapply reads_bind.
  - apply (read_segments_spec os Hlist dir files st segs torn); [apply Hd|done|apply Hm|apply Hm| |apply Hm].
    eapply Forall_impl; [apply (me_generations _ _ _ _ Hm)|]. intros s Hg. eapply Forall_impl; [exact Hg|]. by intros f [].
  - intros w1 Hw1. apply io_wp_bind. eapply io_wp_mono;
      [apply (wp_remove_purged c st segs torn es false); [by rewrite Hw1|done|done]| |done].
    intros [retained ch] w2 (segs' & torn' & Hr & Hs' & Hm' & Hun). cbn in Hr. subst retained. apply io_wp_bind.
    apply wp_sync_if; [|intros Hf; split; [done|by eapply stored_leaves]]. intros w3 Hw3. apply io_wp_bind.
    eapply io_wp_mono; [apply (wp_recover c st segs' torn' es); [by rewrite Hw3|done|done]| |done].
    intros r w4 [-> Hs4]. apply io_wp_ret. exists segs'. split_and!; [done|done| |done].
    eapply means_torn; [done|]. apply torn_nil.
  - intros Hf. split; [done|]. by eapply stored_leaves.
Qed.
End disk.
End steps.
