(* ===== verification/RaftLogTruncation.v ===== *)
(** Truncation of the durable Raft log: removing whole segments and rewriting
    the one that crosses the boundary, and that neither changes what a
    directory with a pending truncation means. *)

From S2P Require Import Prelude Engine RecordFormat Names Paths Disk RaftLogFormat RaftLogSegments RaftLogFiles RaftLogRecovery RaftLogSteps.

Local Open Scope N_scope.

Section truncation.
Context {E Vote : Type} {J : LogJson E Vote} {L : LogJsonLaws J}.

(** ** Regrouping records into batches *)

Lemma same_generation_spec g (recs : list (EntryRecord E)) batch rest :
  same_generation g recs = (batch, rest) -> recs = batch ++ rest /\ batch = records g (er_entry <$> batch).
Proof.
  revert batch rest; induction recs as [|[g' e] recs IH]; intros batch rest; cbn.
  - intros [= <- <-]. done.
  - destruct (N.eqb_spec g' g) as [->|]; [|by intros [= <- <-]].
    destruct (same_generation g recs) as [b r] eqn:Er. intros [= <- <-].
    destruct (IH b r eq_refl) as [-> Hb]. split; [done|]. cbn. by f_equal.
Qed.

Lemma encode_records_spec (recs : list (EntryRecord E)) : encode_records recs = Ok (encoded (er_entry <$> recs)).
Proof.
  induction recs as [|[g e] recs IH]; [done|]. cbn [encode_records er_entry]. rewrite entry_to_json_eq. cbn [of_json].
  by rewrite IH.
Qed.

Lemma payload_bytes_app (es es' : list E) : payload_bytes (es ++ es') = payload_bytes es ++ payload_bytes es'.
Proof. unfold payload_bytes. by rewrite fmap_app, concat_app. Qed.

(** Entries that would fit in one batch. *)
Record batchable (i : N) (es : list E) : Prop := {
  ba_entries : Forall (fun e => vec_len (entry_json e) <= u32_max) es;
  ba_count : vec_len es <= u32_max;
  ba_contiguous : contiguous i es;
  ba_length : 44 + vec_len (payload_bytes es) <= u64_max;
}.

Lemma batchable_app i es es' : batchable i (es ++ es') -> batchable i es /\ batchable (i + vec_len es) es'.
Proof.
  intros [Hf Hn Hc Hl]. apply Forall_app in Hf as [Hf Hf']. apply contiguous_app in Hc as [Hc Hc'].
  rewrite vec_len_app in Hn. rewrite payload_bytes_app, vec_len_app in Hl. split; split; try done; lia.
Qed.

Lemma batchable_fits i es : batchable i es -> es <> [] -> fits es.
Proof.
  intros [Hf Hn Hc Hl] Hne. split; try done. destruct es as [|e es]; [done|]. cbn [first_index].
  pose proof (proj1 (contiguous_cons _ _ _) Hc) as [-> _]. done.
Qed.

Lemma rewrite_batches_spec fuel i (recs : list (EntryRecord E)) :
  (length recs <= fuel)%nat -> batchable i (er_entry <$> recs) ->
  exists frames, rewrite_batches fuel recs = Ok (frames_bytes frames) /\ concat frames.*2 = er_entry <$> recs /\
    Forall (fun f => fits f.2 /\ exists r, r ∈ recs /\ er_generation r = f.1) frames.
Proof.
  revert i recs; induction fuel as [|fuel IH]; intros i recs Hlen Hb.
  { destruct recs; [|cbn in Hlen; lia]. exists []. split_and!; [done|done|constructor]. }
  destruct recs as [|r recs]; [exists []; split_and!; [done|done|constructor]|]. cbn [rewrite_batches].
  destruct (same_generation (er_generation r) (r :: recs)) as [batch rest] eqn:Es.
  assert (Hhd : exists batch', batch = r :: batch').
  { cbn in Es. rewrite N.eqb_refl in Es. destruct (same_generation _ recs). injection Es as <- _. by eexists. }
  apply same_generation_spec in Es as [Es Hrec]. rewrite encode_records_spec.
  rewrite Es, fmap_app in Hb. apply batchable_app in Hb as [Hb1 Hb2]. destruct Hhd as [batch' Hbatch].
  assert (Hfit : fits (er_entry <$> batch)) by (eapply batchable_fits; [done|]; by rewrite Hbatch).
  assert (Hfi : entry_index (er_entry r) = first_index (er_entry <$> batch)) by (by rewrite Hbatch).
  rewrite Hfi, encode_frame_fits by done.
  assert (Hl2 : (length rest <= fuel)%nat).
  { apply (f_equal length) in Es. rewrite Hbatch, length_app in Es. cbn in Es, Hlen. lia. }
  destruct (IH _ rest Hl2 Hb2) as (frames & -> & Hcat & Hall).
  exists ((er_generation r, er_entry <$> batch) :: frames). split_and!.
  - done.
  - rewrite Es, fmap_app, <-Hcat. done.
  - constructor.
    + split; [done|]. exists r. split; [by left|done].
    + eapply Forall_impl; [exact Hall|]. intros f (Hf & r' & Hin & Hg). split; [done|]. exists r'. split; [|done].
      rewrite Es. apply elem_of_app. by right.
Qed.

(** ** Removing segments that a pending truncation ignores *)

Lemma kept_remove (st : ControlState Vote) (l1 : list (Seg E)) s l2 :
  before st (s_start s) = false -> kept st (l1 ++ s :: l2) = kept st (l1 ++ l2).
Proof. intros Hb. unfold kept. rewrite !filter_app, filter_cons, decide_False by congruence. done. Qed.

Lemma kept_below (st : ControlState Vote) b (segs : list (Seg E)) :
  cl_truncation_pending_from st = Some b -> (forall s, s ∈ segs -> s_start s < b) -> kept st segs = segs.
Proof. intros Hp Hb. apply filter_all. intros s Hin. unfold before. rewrite Hp. by apply N.ltb_lt, Hb. Qed.

Lemma means_remove_rest (st : ControlState Vote) l1 s l2 torn torn' es :
  means st (l1 ++ s :: l2) torn es -> before st (s_start s) = false -> torn_batch torn' -> means st (l1 ++ l2) torn' es.
Proof.
  intros [Ho Hok Hg Hgen Ht Hj He] Hb Ht'.
  rewrite kept_remove in Hj, He by done. apply Forall_app in Hok as [Hok1 [_ Hok2]%Forall_cons]. apply Forall_app in Hg as [Hg1 [_ Hg2]%Forall_cons].
  split; try done; [|by apply Forall_app..].
  apply in_order_app in Ho as (Ho1 & Ho2 & Ho12). apply in_order_app. apply StronglySorted_inv in Ho2 as [Ho2 _].
  split_and!; [done|done|]. intros s1 s2 H1 H2. apply Ho12; [done|by right].
Qed.

Lemma filter_agree {A} (P Q : A -> Prop) `{!forall x, Decision (P x)} `{!forall x, Decision (Q x)} (l : list A) :
  (forall x, x ∈ l -> P x <-> Q x) -> filter P l = filter Q l.
Proof.
  induction l as [|x l IH]; intros Hi; [done|]. rewrite !filter_cons. rewrite IH by (intros y Hy; apply Hi; by right).
  specialize (Hi x ltac:(by left)). repeat case_decide; tauto || done.
Qed.

(** A truncation that has removed and rewritten everything is finished. *)
Lemma means_finish (st : ControlState Vote) b segs torn es :
  means st segs torn es -> cl_truncation_pending_from st = Some b ->
  (forall s, s ∈ segs -> s_start s < b) -> (forall e, e ∈ all_entries segs -> entry_index e < b) ->
  means (with_pending st (cl_generation st) None) segs torn es.
Proof.
  intros [Ho Hok Hg Hgen Ht Hj He] Hp Hs Hall. set (st' := with_pending st (cl_generation st) None).
  assert (Hk : kept st segs = segs).
  { apply filter_all. intros s Hin. unfold before. rewrite Hp. cbn. by apply N.ltb_lt, Hs. }
  assert (Hk' : kept st' segs = segs) by (by apply kept_none). rewrite Hk in Hj, He.
  split; try done.
  - eapply Forall_impl; [exact Hg|]. intros s Hf. eapply Forall_impl; [exact Hf|]. intros f [Hle _]. split; [done|].
    by intros [? ?].
  - rewrite Hk'. done.
  - rewrite Hk', He. apply filter_agree. intros e Hin. unfold live, before. rewrite Hp. cbn.
    rewrite N.ltb_lt. split; intros [_ ?]; (split; [|done]); [done|by apply Hall].
Qed.

(** The cut version of a segment. *)
Lemma seen_batchable (st : ControlState Vote) s : seg_ok s -> batchable (s_start s) (er_entry <$> seen st s).
Proof.
  intros Hs. rewrite seen_entries.
  assert (Hb : batchable (s_start s) (seg_entries s)).
  { destruct Hs as [_ _ Hf Hc Hn Hl]. split; try done. unfold seg_entries. apply Forall_concat, Forall_fmap.
    eapply Forall_impl; [exact Hf|]. intros f [_ []]. done. }
  rewrite (remaining_cut _ (s_start s)) by apply Hs. unfold cut. destruct (cl_truncation_pending_from st) as [b|]; [|done].
  rewrite <-(take_drop (N.to_nat (b - s_start s)) (seg_entries s)) in Hb. by apply batchable_app in Hb as [Hb _].
Qed.

Lemma seen_record (st : ControlState Vote) s r :
  r ∈ seen st s -> exists f, f ∈ s_frames s /\ er_generation r = f.1 /\ er_entry r ∈ remaining st (seg_entries s).
Proof.
  intros Hin. assert (He : er_entry r ∈ remaining st (seg_entries s)) by (rewrite <-seen_entries; by apply list_elem_of_fmap_2).
  unfold seen in Hin. apply list_elem_of_In, in_concat in Hin as (l & Hl & Hin).
  apply list_elem_of_In, list_elem_of_fmap in Hl as (f & -> & Hf). apply list_elem_of_In in Hin.
  unfold records in Hin. apply list_elem_of_fmap in Hin as (e & -> & _). by exists f.
Qed.

(** ** The directory on the disk *)

Section disk.
Context (os : Os) (Hpid : os_pid os <= u32_max) (Hlist : lists_files os) (marker_path : Path).

Abbreviation dir := (family_directory marker_path).
Abbreviation stored := (RaftLogSteps.stored marker_path).
Abbreviation leaves := (RaftLogSteps.leaves marker_path).

Lemma wp_remove_temporaries st segs torn names changed files w :
  at_dir marker_path (w_disk w) files -> holds files st segs torn -> NoDup names ->
  (forall n, is_temporary_artifact n = true -> n ∈ names <-> is_Some (files !! n)) ->
  io_wp (remove_temporaries os dir names changed)
    (fun _ w' => stored true (w_disk w') st segs torn)
    (fun d => faulty os /\ stored false d st segs torn) w.
Proof.
  revert changed files w; induction names as [|n names IH]; intros changed files w Hd Hh Hnd Hn; cbn [remove_temporaries].
  { apply io_wp_ret. exists files. split_and!; [done|done|]. intros _ n Ht. apply eq_None_not_Some. rewrite <-Hn by done. apply not_elem_of_nil. }
  apply NoDup_cons in Hnd as [Hni Hnd]. destruct (is_temporary_artifact n) eqn:Ht.
  - destruct (proj1 (Hn n Ht) ltac:(by left)) as [bytes Hb].
    apply io_wp_bind. eapply io_wp_remove; [by rewrite (at_dir_file _ _ _ _ Hd)| |].
    2: { intros Hf. split; [done|]. by exists files. }
    apply (IH true (delete n files)); [by apply at_dir_remove|by apply holds_temp_delete|done|].
    intros m Hm. destruct (decide (m = n)) as [->|Hmn].
    + rewrite lookup_delete_eq. split; [done|]. by intros [? ?].
    + rewrite lookup_delete_ne, <-Hn by done. split; [by right|]. by intros [->|?]%elem_of_cons.
  - apply (IH changed files); [done|done|done|]. intros m Hm. rewrite <-Hn by done. split; [by right|].
    intros [->|?]%elem_of_cons; [congruence|done].
Qed.

Lemma wp_remove_temporary_files c (store : SegmentStore Vote) (st : ControlState Vote) segs torn w :
  stored c (w_disk w) st segs torn -> sg_directory store = dir ->
  io_wp (remove_temporary_files os store)
    (fun _ w' => stored true (w_disk w') st segs torn)
    (fun d => faulty os /\ stored false d st segs torn) w.
Proof.
  intros Hs Hdir. pose proof Hs as (files & Hd & Hh & _). unfold remove_temporary_files. rewrite Hdir. apply io_wp_bind.
  apply (io_wp_read_dir os _ files); [done|apply Hd| |intros Hf; split; [done|by eapply stored_weaken]]. intros names Hn.
  apply io_wp_bind. eapply io_wp_mono; [apply (wp_remove_temporaries st segs torn names false files); [done|done| |]| |done].
  - rewrite Hn. apply NoDup_fst_map_to_list.
  - intros n _. rewrite Hn. rewrite list_elem_of_fmap. split.
    + intros ([n' b] & -> & Hin). apply elem_of_map_to_list in Hin. by exists b.
    + intros [b Hb]. exists (n, b). split; [done|by apply elem_of_map_to_list].
  - intros ch w' Hs'. cbn beta in *. apply wp_sync_if; [by intros w'' ->|]. intros Hf. split; [done|by eapply stored_weaken].
Qed.

(** *** Removing whole segments *)

Lemma stored_file c d st l1 s l2 torn :
  stored c d st (l1 ++ s :: l2) torn -> in_order (l1 ++ s :: l2) -> Forall seg_ok (l1 ++ s :: l2) ->
  disk_file d (in_directory dir (seg_name s)) = Some (seg_bytes s ++ match l2 with [] => torn | _ => [] end).
Proof.
  intros (files & Hd & Hh & _) Ho Hok. rewrite (at_dir_file _ _ _ _ Hd). cbn [in_directory path_file_name].
  eapply holds_file; [exact Hh|done|done|]. rewrite seg_files_app. apply elem_of_app. right.
  destruct l2; [by left|]. rewrite app_nil_r. by left.
Qed.

Lemma wp_remove_segment c st l1 s l2 torn es (Q : unit -> World -> Prop) (F : Disk -> Prop) w :
  stored c (w_disk w) st (l1 ++ s :: l2) torn -> means st (l1 ++ s :: l2) torn es -> before st (s_start s) = false ->
  (forall w' torn', stored c (w_disk w') st (l1 ++ l2) torn' -> means st (l1 ++ l2) torn' es -> Q tt w') ->
  (faulty os -> F (w_disk w)) -> io_wp (remove_file os (in_directory dir (seg_name s))) Q F w.
Proof.
  intros Hs Hm Hb HQ HF. pose proof (me_order _ _ _ _ Hm) as Ho. pose proof (me_segs _ _ _ _ Hm) as Hok.
  eapply io_wp_remove; [by eapply stored_file| |done]. set (torn' := match l2 with [] => [] | _ => torn end).
  apply (HQ _ torn').
  - destruct Hs as (files & Hd & Hh & Hc). exists (delete (seg_name s) files). cbn [later w_disk]. split_and!.
    + by apply at_dir_remove.
    + by apply holds_remove.
    + intros Hcc. by apply clean_delete, Hc.
  - eapply means_remove_rest; [done|done|]. unfold torn'. destruct l2; [apply torn_nil|apply Hm].
Qed.

Lemma wp_remove_from st b names changed segs torn es w :
  stored true (w_disk w) st segs torn -> means st segs torn es -> cl_truncation_pending_from st = Some b -> NoDup names ->
  (forall n, n ∈ names -> n = CONTROL_FILE \/ exists s, s ∈ segs /\ n = seg_name s) ->
  (forall s, s ∈ segs -> s_start s < b \/ seg_name s ∈ names) ->
  io_wp (remove_from os dir b names changed)
    (fun _ w' => exists segs' torn', stored true (w_disk w') st segs' torn' /\ means st segs' torn' es /\
       (forall s, s ∈ segs' -> s_start s < b) /\ segs' = kept st segs)
    (fun d => faulty os /\ leaves st es d) w.
Proof.
  revert changed segs torn w; induction names as [|n names IH]; intros changed segs torn w Hs Hm Hp Hnd Hn Hall; cbn [remove_from].
  { assert (Hb : forall s, s ∈ segs -> s_start s < b) by (intros s Hin; by destruct (Hall s Hin) as [?|?%not_elem_of_nil]).
    apply io_wp_ret. exists segs, torn. split_and!; [done..|]. symmetry. by apply (kept_below _ b). }
  apply NoDup_cons in Hnd as [Hni Hnd]. destruct (Hn n ltac:(by left)) as [->|(s & Hin & ->)].
  - rewrite bool_decide_eq_false_2 by (intros E1; by vm_compute in E1).
    apply (IH changed segs torn); [done..| |].
    + intros m Hm'. apply Hn. by right.
    + intros s Hin. destruct (Hall s Hin) as [?|[E1|?]%elem_of_cons]; [by left| |by right]. by apply segment_not_control in E1.
  - rewrite bool_decide_eq_true_2 by apply segment_extension.
    pose proof (me_segs _ _ _ _ Hm) as Hok. pose proof Hok as Hok'. rewrite Forall_forall in Hok'.
    unfold seg_name at 1. rewrite segment_index_name by (by apply so_start, Hok'). cbn [io_lift]. apply io_wp_bind, io_wp_ret.
    destruct (N.leb_spec b (s_start s)) as [Hb|Hb].
    + apply list_elem_of_split in Hin as (l1 & l2 & ->). apply io_wp_bind.
      eapply wp_remove_segment; [done|done|by unfold before; rewrite Hp; apply N.ltb_ge| |intros Hf; split; [done|by eapply stored_leaves]].
      intros w1 torn' Hs1 Hm1. rewrite kept_remove by (unfold before; rewrite Hp; by apply N.ltb_ge). apply (IH true (l1 ++ l2) torn'); [done..| |].
      * intros m Hm'. destruct (Hn m ltac:(by right)) as [->|(s' & Hin' & ->)]; [by left|]. right. exists s'. split; [|done].
        apply elem_of_app in Hin' as [?|[->|?]%elem_of_cons]; [apply elem_of_app; by left|done|apply elem_of_app; by right].
      * intros s' Hin'. pose proof (in_order_other _ _ _ (me_order _ _ _ _ Hm) s' Hin') as Hne.
        assert (Hin2 : s' ∈ l1 ++ s :: l2) by (apply elem_of_app in Hin' as [?|?]; apply elem_of_app; [by left|right; by right]).
        destruct (Hall s' Hin2) as [?|[E1|?]%elem_of_cons]; [by left| |by right]. exfalso. apply Hne.
        apply seg_name_inj; [by apply Hok'| |done]. apply Hok', elem_of_app. right. by left.
    + apply (IH changed segs torn); [done..| |].
      * intros m Hm'. apply Hn. by right.
      * intros s' Hin'. destruct (Hall s' Hin') as [?|[E1|?]%elem_of_cons]; [by left| |by right]. left.
        apply seg_name_inj in E1; [lia|by apply Hok'..].
Qed.

(** *** Rewriting the segment that crosses the boundary *)

Lemma retained_spec st b segs torn es s t :
  means st segs torn es -> cl_truncation_pending_from st = Some b -> s ∈ segs ->
  retained_records b (cl_generation st) (read_seg st s t) = seen st s.
Proof.
  intros Hm Hp Hin. apply filter_all. intros r Hr. cbn [read_seg rg_records] in Hr.
  apply seen_record in Hr as (f & Hf & -> & He). split.
  - apply list_elem_of_filter in He as [He _]. unfold before in He. rewrite Hp in He. by apply N.ltb_lt.
  - pose proof (me_generations _ _ _ _ Hm) as Hg. rewrite Forall_forall in Hg. specialize (Hg s Hin).
    rewrite Forall_forall in Hg. destruct (Hg f Hf) as [_ H]. apply H. by rewrite Hp.
Qed.

Lemma rewrite_segments_skip b g rs rs' changed :
  Forall (fun r => vec_len (retained_records b g r) = rg_record_count r) rs ->
  rewrite_segments os dir b g (rs ++ rs') changed = rewrite_segments os dir b g rs' changed.
Proof. induction 1 as [|r rs Hr _ IH]; [done|]. cbn [app rewrite_segments]. by rewrite Hr, N.eqb_refl. Qed.

Lemma seen_length (st : ControlState Vote) s : vec_len (seen st s) = vec_len (remaining st (seg_entries s)).
Proof. rewrite <-seen_entries. unfold vec_len. by rewrite length_fmap. Qed.

(** All segments but the last end before the boundary. *)
Lemma ends_before st b l s torn es :
  means st (l ++ [s]) torn es -> cl_truncation_pending_from st = Some b -> (forall s', s' ∈ l ++ [s] -> s_start s' < b) ->
  forall e, e ∈ all_entries l -> entry_index e < b.
Proof.
  intros Hm Hp Hb e He. pose proof (kept_below st b _ Hp Hb) as Hk.
  pose proof (me_segs _ _ _ _ Hm) as [_ [Hs _]%Forall_cons]%Forall_app.
  destruct (l ++ [s]) as [|s0 l'] eqn:El; [by destruct l|]. destruct (me_joined _ _ _ _ Hm s0 l' Hk) as [_ Hc].
  rewrite Hk, <-El in Hc. pose proof (joined_start _ l s [] Hc Hs) as Hst.
  rewrite all_entries_app in Hc. apply contiguous_app in Hc as [Hc _]. apply (contiguous_elem _ _ _ Hc) in He.
  specialize (Hb s). rewrite <-El in Hb. specialize (Hb ltac:(apply elem_of_app; right; by left)). lia.
Qed.

Lemma remaining_all st b (es : list E) :
  cl_truncation_pending_from st = Some b -> (forall e, e ∈ es -> entry_index e < b) -> remaining st es = es.
Proof. intros Hp Hb. apply filter_all. intros e Hin. unfold before. rewrite Hp. by apply N.ltb_lt, Hb. Qed.

(** A segment cut at the boundary. *)
Lemma cut_entries st s frames :
  concat frames.*2 = er_entry <$> seen st s ->
  seg_entries {| s_start := s_start s; s_frames := frames |} = remaining st (seg_entries s).
Proof. intros Hcat. unfold seg_entries at 1. cbn. by rewrite Hcat, seen_entries. Qed.

Lemma remaining_some st b s :
  seg_ok s -> cl_truncation_pending_from st = Some b -> s_start s < b -> remaining st (seg_entries s) <> [].
Proof.
  intros Hs Hp Hsb Hcat. destruct (seg_entries_first s Hs) as (e & es' & Ee & He). rewrite Ee in Hcat. unfold remaining in Hcat.
  rewrite filter_cons_True in Hcat; [done|]. unfold before. rewrite Hp. apply N.ltb_lt. lia.
Qed.

Lemma cut_generations (P : N -> Prop) st s (frames : list (N * list E)) :
  Forall (fun f => fits f.2 /\ exists r, r ∈ seen st s /\ er_generation r = f.1) frames ->
  Forall (fun f => P f.1) (s_frames s) -> Forall (fun f => P f.1) frames.
Proof.
  intros Hf HP. rewrite Forall_forall in HP. eapply Forall_impl; [exact Hf|].
  intros f (_ & r & Hr & <-). apply seen_record in Hr as (f' & Hf' & -> & _). by apply HP.
Qed.

Lemma cut_ok st b s frames :
  seg_ok s -> cl_truncation_pending_from st = Some b -> s_start s < b -> concat frames.*2 = er_entry <$> seen st s ->
  Forall (fun f => fits f.2 /\ exists r, r ∈ seen st s /\ er_generation r = f.1) frames ->
  seg_ok {| s_start := s_start s; s_frames := frames |}.
Proof.
  intros Hs Hp Hsb Hcat Hf. pose proof (cut_entries _ _ _ Hcat) as Hse.
  pose proof (seen_batchable st s Hs) as Hba. rewrite seen_entries, <-Hse in Hba. split; try apply Hba.
  - apply Hs.
  - intros E1. cbn in E1. rewrite E1, seen_entries in Hcat. symmetry in Hcat.
    by apply (remaining_some st b s) in Hcat.
  - assert (Hg : Forall (fun f => f.1 <= u64_max) frames).
    { apply (cut_generations (fun g => g <= u64_max) st s); [done|]. eapply Forall_impl; [apply Hs|]. by intros f [].  }
    cbn. rewrite Forall_forall in Hg. rewrite Forall_forall in Hf. apply Forall_forall. intros f Hin.
    split; [by apply Hg|]. by apply Hf.
Qed.

(** With it in the place of the segment a directory means the same. *)
Lemma means_cut st b l s torn es frames :
  means st (l ++ [s]) torn es -> cl_truncation_pending_from st = Some b -> (forall s', s' ∈ l ++ [s] -> s_start s' < b) ->
  concat frames.*2 = er_entry <$> seen st s ->
  Forall (fun f => fits f.2 /\ exists r, r ∈ seen st s /\ er_generation r = f.1) frames ->
  means st (l ++ [{| s_start := s_start s; s_frames := frames |}]) [] es.
Proof.
  intros Hm Hp Hb Hcat Hf. pose proof (cut_entries _ _ _ Hcat) as Hse.
  set (s' := {| s_start := s_start s; s_frames := frames |}) in *.
  assert (Hsb : s_start s < b) by (apply Hb, elem_of_app; right; by left).
  assert (Hb' : forall x, x ∈ l ++ [s'] -> s_start x < b).
  { intros x [Hx|Hx]%elem_of_app; [apply Hb, elem_of_app; by left|]. apply list_elem_of_singleton in Hx as ->. done. }
  pose proof (kept_below st b _ Hp Hb) as Hk. pose proof (kept_below st b _ Hp Hb') as Hk'.
  pose proof (me_segs _ _ _ _ Hm) as [Hl [Hs _]%Forall_cons]%Forall_app.
  pose proof (me_generations _ _ _ _ Hm) as [Hgl [Hgs _]%Forall_cons]%Forall_app.
  split.
  - unfold in_order. rewrite fmap_app. pose proof (me_order _ _ _ _ Hm) as Ho. unfold in_order in Ho. by rewrite fmap_app in Ho.
  - apply Forall_app. split; [done|]. constructor; [|constructor]. by eapply cut_ok.
  - apply Forall_app. split; [done|]. constructor; [|constructor].
    by apply (cut_generations (fun g => g <= cl_generation st /\ earlier st g) st s).
  - apply Hm.
  - apply torn_nil.
  - rewrite Hk'. intros s0 l0 E0. pose proof (me_joined _ _ _ _ Hm) as Hj. rewrite Hk in Hj.
    assert (Hs0 : exists s1 l1, l ++ [s] = s1 :: l1 /\ s_start s1 = s_start s0).
    { destruct l; cbn in E0 |- *; injection E0 as <- _; by eexists _, _. }
    destruct Hs0 as (s1 & l1 & E1 & Hst). destruct (Hj _ _ E1) as [Hle Hc]. rewrite Hst in Hle, Hc. split; [done|].
    rewrite all_entries_app, all_entries_cons, app_nil_r in Hc |- *. rewrite Hse.
    apply contiguous_app in Hc as [Hc1 Hc2]. apply contiguous_app. split; [done|].
    rewrite (remaining_cut _ _ _ Hc2). unfold cut. rewrite Hp. by apply contiguous_take.
  - rewrite Hk'. rewrite (me_entries _ _ _ _ Hm), Hk, !all_entries_app, !filter_app. f_equal.
    rewrite !all_entries_cons, !app_nil_r, Hse. unfold remaining. rewrite list_filter_filter.
    apply filter_agree. intros e _. unfold live. tauto.
Qed.

Lemma wp_rewrite_segment c st b l s torn es (Q : unit -> World -> Prop) (F : Disk -> Prop) w :
  stored c (w_disk w) st (l ++ [s]) torn -> means st (l ++ [s]) torn es -> cl_truncation_pending_from st = Some b ->
  (forall s', s' ∈ l ++ [s] -> s_start s' < b) ->
  (forall w' s', stored c (w_disk w') st (l ++ [s']) [] -> means st (l ++ [s']) [] es -> s_start s' = s_start s ->
     seg_entries s' = remaining st (seg_entries s) -> Q tt w') ->
  (faulty os -> forall d, leaves st es d -> F d) ->
  io_wp (rewrite_segment os (in_directory dir (seg_name s)) (s_start s) (seen st s)) Q F w.
Proof.
  intros Hs Hm Hp Hb HQ HF. pose proof (me_segs _ _ _ _ Hm) as [_ [Hsok _]%Forall_cons]%Forall_app.
  pose proof Hs as (files & Hd & Hh & Hc). unfold rewrite_segment.
  destruct (rewrite_batches_spec (length (seen st s)) _ (seen st s) ltac:(done) (seen_batchable st s Hsok)) as (frames & Hr & Hcat & Hf).
  rewrite Hr. cbn [io_lift]. apply io_wp_bind, io_wp_ret.
  pose proof (means_cut _ _ _ _ _ _ _ Hm Hp Hb Hcat Hf) as Hm'. set (s' := {| s_start := s_start s; s_frames := frames |}) in *.
  assert (Ht : is_temporary_artifact (temp_name os (seg_name s)) = true) by apply (temp_segment os Hpid), Hsok.
  apply (wp_replace os marker_path (seg_name s) files); [done|done| | |].
  - intros w' Hd'. apply io_wp_ret. apply (HQ w' s'); [|done|done|by apply cut_entries].
    eexists. split_and!; [exact Hd'| |].
    + change (segment_header (s_start s) ++ frames_bytes frames) with (seg_bytes s'). rewrite <-(app_nil_r (seg_bytes s')).
      eapply (holds_last _ _ _ s); [apply holds_temp_delete; [exact Hh|done]|apply Hm|apply Hm|done].
    + intros Hcc. apply clean_insert; [apply segment_not_temporary|by apply clean_delete, Hc].
  - intros Hflt d files' Hd' [bs ->]. apply HF; [done|]. exists (l ++ [s]), torn. split; [|done].
    eexists. split_and!; [exact Hd'|by apply holds_temp_insert|done].
  - intros Hflt. apply HF; [done|]. by eapply stored_leaves.
Qed.

(** The rows end at the same index, or the second at the boundary. *)
Definition cut_end (b : N) (segs segs' : list (Seg E)) : Prop :=
  forall s', last segs' = Some s' -> exists s, last segs = Some s /\ seg_end s' = N.min b (seg_end s).

Lemma seg_end_before s b :
  seg_ok s -> (forall e, e ∈ seg_entries s -> entry_index e < b) -> seg_end s <= b.
Proof.
  intros Hs Hb. destruct (last (seg_entries s)) as [e|] eqn:El; [|by apply last_None, seg_entries_some in El].
  rewrite last_lookup in El. pose proof (so_contiguous s Hs _ _ El) as Hi. apply list_elem_of_lookup_2 in El as Hin.
  apply Hb in Hin. apply lookup_lt_Some in El. unfold seg_end, vec_len. lia.
Qed.

Lemma seg_end_cut st b s s' :
  seg_ok s -> cl_truncation_pending_from st = Some b -> s_start s < b -> s_start s' = s_start s ->
  seg_entries s' = remaining st (seg_entries s) -> seg_end s' = N.min b (seg_end s).
Proof.
  intros Hs Hp Hb Hst Hse. unfold seg_end. rewrite Hst, Hse, (remaining_cut _ _ _ (so_contiguous s Hs)). unfold cut. rewrite Hp.
  unfold vec_len. rewrite length_take. lia.
Qed.

Lemma wp_rewrite_segments st b segs torn es changed w :
  stored true (w_disk w) st segs torn -> means st segs torn es -> cl_truncation_pending_from st = Some b ->
  (forall s, s ∈ segs -> s_start s < b) ->
  io_wp (rewrite_segments os dir b (cl_generation st) (read_segs st segs torn) changed)
    (fun _ w' => exists segs' torn', stored true (w_disk w') st segs' torn' /\ means st segs' torn' es /\
       (forall s, s ∈ segs' -> s_start s < b) /\ (forall e, e ∈ all_entries segs' -> entry_index e < b) /\
       cut_end b segs segs')
    (fun d => faulty os /\ leaves st es d) w.
Proof.
  intros Hs Hm Hp Hb. destruct segs as [|s l _] using rev_ind.
  { cbn. exists [], torn. split_and!; [done|done|done|by intros e ?%not_elem_of_nil|done]. }
  pose proof (me_segs _ _ _ _ Hm) as [_ [Hsok _]%Forall_cons]%Forall_app.
  assert (Hsb : s_start s < b) by (apply Hb, elem_of_app; right; by left).
  pose proof (ends_before _ _ _ _ _ _ Hm Hp Hb) as Hl. rewrite read_segs_snoc, rewrite_segments_skip.
  2: { apply Forall_fmap, Forall_forall. intros s1 Hin. unfold compose. rewrite (retained_spec _ _ _ _ _ _ _ Hm Hp) by (apply elem_of_app; by left).
       rewrite seen_length, (remaining_all st b); [done|done|]. intros e He. apply Hl.
       apply list_elem_of_split in Hin as (l1 & l2 & ->). rewrite all_entries_app, all_entries_cons, !elem_of_app. auto. }
  cbn [rewrite_segments]. rewrite (retained_spec _ _ _ _ _ _ _ Hm Hp) by (apply elem_of_app; right; by left).
  cbn [read_seg rg_record_count rg_name rg_start_index]. rewrite seen_length. destruct (N.eqb_spec (vec_len (remaining st (seg_entries s))) (vec_len (seg_entries s))) as [Heq|Hne].
  - apply io_wp_ret. exists (l ++ [s]), torn. 
    assert (Hse : forall e, e ∈ seg_entries s -> entry_index e < b).
    { intros e He.
    destruct (N.ltb_spec (entry_index e) b) as [|Hge]; [done|]. exfalso.
    assert (Hlt : (length (remaining st (seg_entries s)) < length (seg_entries s))%nat).
    { apply (length_filter_lt _ _ e); [done|]. unfold before. rewrite Hp. cbn. rewrite N.ltb_lt. lia. }
    unfold vec_len in Heq. lia. }
    split_and!; [done..| |].
    + intros e. rewrite all_entries_app, all_entries_cons, app_nil_r, elem_of_app. intros [He|He]; [by apply Hl|by apply Hse].
    + intros s'. rewrite last_snoc. intros [= <-]. exists s. split; [done|]. pose proof (seg_end_before s b Hsok Hse). lia.
  - destruct (seen st s) as [|r rs] eqn:Hseen.
    { exfalso. apply (remaining_some st b s); [done|done|done|]. by rewrite <-seen_entries, Hseen. }
    rewrite <-Hseen. apply io_wp_bind. eapply wp_rewrite_segment; [done..| |by intros Hf].
    intros w' s' Hs' Hm' Hst Hse. apply io_wp_ret. exists (l ++ [s']), []. split_and!; [done|done| | |].
    + intros s0 [H0|H0]%elem_of_app; [apply Hb, elem_of_app; by left|]. apply list_elem_of_singleton in H0 as ->. by rewrite Hst.
    + intros e. rewrite all_entries_app, all_entries_cons, app_nil_r, elem_of_app, Hse. intros [He|He]; [by apply Hl|].
      apply list_elem_of_filter in He as [He _]. unfold before in He. rewrite Hp in He. by apply N.ltb_lt.
    + intros s0. rewrite !last_snoc. intros [= <-]. exists s. split; [done|]. by eapply seg_end_cut.
Qed.

(** *** The whole truncation *)

Lemma names_in_directory d st segs torn files :
  at_dir marker_path d files -> holds files st segs torn -> in_order segs -> Forall seg_ok segs -> clean files ->
  forall n, is_Some (files !! n) <-> n = CONTROL_FILE \/ exists s, s ∈ segs /\ n = seg_name s.
Proof.
  intros Hd Hh Ho Hok Hc n. split.
  - intros [bytes Hb]. destruct (decide (n = CONTROL_FILE)) as [|Hn]; [by left|]. right.
    destruct (is_temporary_artifact n) eqn:Ht; [by rewrite Hc in Hb|].
    rewrite (ho_segments _ _ _ _ Hh) in Hb by done. apply elem_of_list_to_map_2, (list_elem_of_fmap_2 fst) in Hb.
    rewrite seg_files_names in Hb. cbn [fst] in Hb. apply list_elem_of_fmap in Hb as (s & -> & Hs). by exists s.
  - intros [->|(s & Hs & ->)]; [rewrite (ho_control _ _ _ _ Hh); by eexists|].
    apply list_elem_of_split in Hs as (l1 & l2 & ->). rewrite <-(at_dir_file marker_path d files) by done.
    eexists. eapply stored_file; [by exists files|done|done].
    Unshelve. exact false.
Qed.

Lemma wp_finish_truncation (store : SegmentStore Vote) st b segs torn es w :
  stored true (w_disk w) st segs torn -> means st segs torn es -> cl_truncation_pending_from st = Some b ->
  sg_directory store = dir -> sg_control store = st ->
  io_wp (finish_truncation os store b (cl_generation st))
    (fun _ w' => exists segs' torn', stored true (w_disk w') st segs' torn' /\ means st segs' torn' es /\
       means (with_pending st (cl_generation st) None) segs' torn' es /\ cut_end b (kept st segs) segs')
    (fun d => faulty os /\ leaves st es d) w.
Proof.
  intros Hs Hm Hp Hdir Hst. pose proof Hs as (files & Hd & Hh & Hc). unfold finish_truncation. rewrite Hdir, Hst.
  pose proof (names_in_directory _ _ _ _ _ Hd Hh (me_order _ _ _ _ Hm) (me_segs _ _ _ _ Hm) (Hc eq_refl)) as Hnames.
  assert (Herr : faulty os -> faulty os /\ leaves st es (w_disk w)) by (intros Hf; split; [done|by eapply stored_leaves]).
  apply io_wp_bind. apply (io_wp_read_dir os _ files); [done|apply Hd| |done]. intros names Hn.
  assert (Hin : forall n, n ∈ names <-> is_Some (files !! n)).
  { intros n. rewrite Hn, list_elem_of_fmap. split.
    - intros ([n' b'] & -> & Hin). apply elem_of_map_to_list in Hin. by exists b'.
    - intros [b' Hb]. exists (n, b'). split; [done|by apply elem_of_map_to_list]. }
  apply io_wp_bind. eapply io_wp_mono; [apply (wp_remove_from st b names false segs torn es); [done|done|done| | |]| |done].
  - rewrite Hn. apply NoDup_fst_map_to_list.
  - intros n. by rewrite Hin, Hnames.
  - intros s Hs0. right. apply Hin, Hnames. right. by exists s.
  - intros ch w1 (segs1 & torn1 & Hs1 & Hm1 & Hb1 & Hk1). apply io_wp_bind.
    apply wp_sync_if; [|intros Hf; split; [done|by eapply stored_leaves]]. intros w2 Hw2.
    pose proof Hs1 as (files1 & Hd1 & Hh1 & _). rewrite <-Hw2 in Hs1, Hd1. eapply reads_bind.
    + apply (read_segments_spec os Hlist dir files1 st segs1 torn1); [apply Hd1|done|apply Hm1|apply Hm1| |apply Hm1].
      eapply Forall_impl; [apply (me_generations _ _ _ _ Hm1)|]. intros s Hg. eapply Forall_impl; [exact Hg|]. by intros f [].
    + intros w3 Hw3. apply io_wp_bind. eapply io_wp_mono; [apply (wp_rewrite_segments st b segs1 torn1 es); [by rewrite Hw3|done..]| |done].
      intros ch' w4 (segs' & torn' & Hs' & Hm' & Hb' & He' & Hend). apply wp_sync_if.
      * intros w5 Hw5. exists segs', torn'. rewrite Hw5. split_and!; [done|done| |by rewrite <-Hk1]. by eapply means_finish.
      * intros Hf. split; [done|]. by eapply stored_leaves.
    + intros Hf. split; [done|]. by eapply stored_leaves.
Qed.
End disk.
End truncation.
