(* ===== verification/RaftLogAppend.v ===== *)
(** Appending to the durable Raft log: how entries are cut into batches, where
    a batch goes, and what an append that fails on the way leaves behind. *)

From S2P Require Import Prelude Engine RecordFormat Names Paths Disk RaftLogFormat RaftLogSegments RaftLogFiles RaftLogRecovery RaftLogSteps RaftLogTruncation.

Local Open Scope N_scope.

Section append.
Context {E Vote : Type} {J : LogJson E Vote} {L : LogJsonLaws J}.

(** ** Sizes *)

Definition small (e : E) : Prop := vec_len (entry_json e) <= u32_max.

Lemma vec_len_le n v : vec_len (to_le_bytes n v) = N.of_nat n.
Proof. unfold vec_len. by rewrite length_to_le_bytes. Qed.

Lemma payload_count (es : list E) : 4 * vec_len es <= vec_len (payload_bytes es).
Proof.
  induction es as [|e es IH]; [unfold vec_len; cbn; lia|]. rewrite payload_bytes_cons. unfold vec_len in *.
  rewrite !length_app, length_to_le_bytes. cbn [length]. lia.
Qed.

Lemma frames_payload (frames : list (N * list E)) : vec_len (payload_bytes (concat frames.*2)) <= vec_len (frames_bytes frames).
Proof.
  induction frames as [|f frames IH]; [done|]. cbn [fmap list_fmap concat]. rewrite payload_bytes_app.
  change (frames_bytes (f :: frames)) with (frame_bytes f.1 f.2 ++ frames_bytes frames).
  rewrite !vec_len_app, vec_len_frame. lia.
Qed.

Lemma seg_payload (s : Seg E) : vec_len (payload_bytes (seg_entries s)) <= vec_len (seg_bytes s).
Proof. unfold seg_entries, seg_bytes. rewrite vec_len_app. pose proof (frames_payload (s_frames s)). lia. Qed.

(** ** Batches *)

Lemma frame_size_le p : (SEGMENT_TARGET_BYTES <? frame_size p) = negb (p + 44 <=? SEGMENT_TARGET_BYTES).
Proof.
  unfold frame_size, usize_saturating_add, saturating_add, BATCH_HEADER_LEN, BATCH_TRAILER_LEN, SEGMENT_TARGET_BYTES, usize_max, u64_max.
  match goal with |- (?a <? ?b) = negb (?c <=? ?d) => destruct (N.ltb_spec a b), (N.leb_spec c d) end; done || lia.
Qed.

(** A batch is one entry, or as many as make a frame of the size of a segment. *)
Lemma batch_len_spec (es : list E) taken size n :
  batch_len (encoded es) taken size = Ok n -> (taken = 0%nat /\ size = 0) \/ size + 44 <= SEGMENT_TARGET_BYTES ->
  exists k, n = (taken + k)%nat /\ (k <= length es)%nat /\ (es <> [] -> (1 <= n)%nat) /\
    ((n <= 1)%nat \/ size + vec_len (payload_bytes (take k es)) + 44 <= SEGMENT_TARGET_BYTES).
Proof.
  revert taken size; induction es as [|e es IH]; intros taken size; cbn [encoded fmap list_fmap batch_len].
  { intros [= <-] Hsz. exists 0%nat. split_and!; [lia|done|done|]. cbn [take]. change (vec_len (payload_bytes [])) with 0. destruct Hsz; lia. }
  fold (encoded es). unfold u64_checked_add. destruct (N.leb_spec (4 + vec_len (entry_json e)) u64_max) as [Hs|]; [|done].
  set (next := usize_saturating_add size (4 + vec_len (entry_json e))).
  assert (Hnext : next + 44 <= SEGMENT_TARGET_BYTES -> next = size + (4 + vec_len (entry_json e))).
  { unfold next, usize_saturating_add, saturating_add, SEGMENT_TARGET_BYTES, usize_max. unfold u64_max. lia. }
  rewrite frame_size_le. destruct (N.leb_spec (next + 44) SEGMENT_TARGET_BYTES) as [Hn|Hn]; cbn [negb].
  - rewrite andb_false_r. intros Hb Hsz. destruct (IH _ _ Hb ltac:(by right)) as (k & -> & Hk & Hne & Hle).
    exists (S k). split_and!; [lia|cbn; lia|lia|]. destruct Hle as [|Hle]; [by left|]. right. cbn [take].
    rewrite payload_bytes_cons, !vec_len_app. rewrite (Hnext Hn) in Hle.
    rewrite vec_len_le. lia.
  - rewrite andb_true_r. destruct taken as [|taken]; cbn.
    + intros [= <-] _. exists 1%nat. split_and!; [done|cbn; lia|lia|by left].
    + intros [= <-] Hsz. exists 0%nat. split_and!; [lia|lia|lia|]. right. cbn [take]. change (vec_len (payload_bytes [])) with 0.
      destruct Hsz as [[??]|]; lia.
Qed.

Lemma batch_len_total (es : list E) taken size : Forall small es -> exists n, batch_len (encoded es) taken size = Ok n.
Proof.
  intros H. revert taken size; induction H as [|e es He _ IH]; intros taken size; cbn [encoded fmap list_fmap batch_len]; [by eexists|].
  fold (encoded es). unfold small in He. unfold u64_checked_add.
  rewrite (proj2 (N.leb_le _ _)) by (unfold u64_max, u32_max in *; lia). by repeat case_match; eauto.
Qed.

(** A batch that is cut off fits in a frame. *)
Lemma batch_fits i (es : list E) n :
  batch_len (encoded es) 0 0 = Ok n -> es <> [] -> contiguous i es -> Forall small (take n es) -> fits (take n es) /\ (1 <= n)%nat.
Proof.
  intros Hb Hne Hc Hs. destruct (batch_len_spec es 0 0 n Hb ltac:(by left)) as (k & -> & Hk & Hn & Hle). cbn [Nat.add] in *. rewrite ?N.add_0_l in Hle.
  specialize (Hn Hne). split; [|done].
  assert (Hlen : vec_len (take k es) <= u32_max /\ 44 + vec_len (payload_bytes (take k es)) <= u64_max).
  { destruct Hle as [Hle|Hle].
    - destruct k as [|[|k]]; [lia| |lia]. destruct es as [|e es]; [done|]. cbn [take] in *. rewrite take_0 in *. apply Forall_cons in Hs as [Hs _].
      rewrite payload_bytes_cons, !vec_len_app. change (vec_len (payload_bytes [])) with 0. change (vec_len [e]) with 1.
      rewrite vec_len_le. unfold small, u64_max, u32_max in *. lia.
    - pose proof (payload_count (take k es)). unfold u64_max, u32_max, SEGMENT_TARGET_BYTES in *. lia. }
  apply (batchable_fits i); [|destruct es, k; by try lia].
  split; [done|apply Hlen|by apply contiguous_take|apply Hlen].
Qed.

(** ** Rows of segments that grow *)

(** The last segment does not end before the purge point. *)
Definition reaches (st : ControlState Vote) (segs : list (Seg E)) : Prop :=
  forall s, last segs = Some s -> next_index (cl_last_purged_log_id st) <= seg_end s.

Lemma row_end (st : ControlState Vote) segs torn es s :
  means st segs torn es -> cl_truncation_pending_from st = None -> reaches st segs -> last segs = Some s ->
  seg_end s = next_index (cl_last_purged_log_id st) + vec_len es.
Proof.
  intros Hm Hp Hr Hl. specialize (Hr s Hl). apply last_Some in Hl as [l ->].
  pose proof (me_segs _ _ _ _ Hm) as [_ [Hs _]%Forall_cons]%Forall_app.
  pose proof (me_joined _ _ _ _ Hm) as Hj. pose proof (me_entries _ _ _ _ Hm) as He. rewrite kept_none in Hj, He by done.
  assert (Hs0 : exists s0 l0, l ++ [s] = s0 :: l0) by (destruct l; by eexists _, _). destruct Hs0 as (s0 & l0 & E0).
  destruct (Hj _ _ E0) as [Hle Hc]. pose proof (joined_end _ l s [] Hc Hs) as Hend.
  rewrite He, filter_live, remaining_none by done. unfold from. rewrite (filter_from _ _ _ Hc).
  unfold vec_len in *. rewrite length_drop. lia.
Qed.

(** A row continues where it ends. *)
Lemma row_continues (st : ControlState Vote) s1 segs torn es batch :
  means st (s1 :: segs) torn es -> cl_truncation_pending_from st = None -> reaches st (s1 :: segs) ->
  contiguous (next_index (cl_last_purged_log_id st) + vec_len es) batch ->
  s_start s1 <= next_index (cl_last_purged_log_id st) /\ contiguous (s_start s1) (all_entries (s1 :: segs) ++ batch).
Proof.
  intros Hm Hp Hr Hcb. destruct (me_joined _ _ _ _ Hm s1 segs) as [Hle Hc]; [by rewrite kept_none|].
  rewrite kept_none in Hc by done. split; [done|]. apply contiguous_app. split; [done|].
  destruct (last (s1 :: segs)) as [sl|] eqn:El; [|by apply last_None in El].
  pose proof (row_end _ _ _ _ _ Hm Hp Hr El) as Hend. apply last_Some in El as [l El].
  pose proof (me_segs _ _ _ _ Hm) as Hok1. rewrite El in Hc, Hok1 |- *. apply Forall_app in Hok1 as [_ [Hsl _]%Forall_cons].
  by rewrite <-(joined_end _ l sl [] Hc Hsl), Hend.
Qed.

Lemma row_joined (st : ControlState Vote) segs s0 l0 torn es batch :
  means st segs torn es -> cl_truncation_pending_from st = None -> reaches st segs -> seg_ok s0 ->
  contiguous (next_index (cl_last_purged_log_id st) + vec_len es) batch ->
  all_entries (s0 :: l0) = all_entries segs ++ batch ->
  s_start s0 <= next_index (cl_last_purged_log_id st) /\ contiguous (s_start s0) (all_entries (s0 :: l0)).
Proof.
  intros Hm Hp Hr Hs0 Hcb Hall. rewrite Hall. destruct (seg_entries_first s0 Hs0) as (e & es0 & Ee & Hi).
  rewrite all_entries_cons, Ee in Hall. cbn [app] in Hall. destruct segs as [|s1 segs].
  - rewrite (me_entries _ _ _ _ Hm) in Hcb. cbn in Hall. change (vec_len (filter _ _)) with 0 in Hcb. rewrite N.add_0_r in Hcb.
    subst batch. pose proof Hcb as [He' _]%contiguous_cons. cbn [app all_entries fmap list_fmap concat]. rewrite <-Hi, He'. done.
  - pose proof (me_segs _ _ _ _ Hm) as [Hs1 _]%Forall_cons. destruct (seg_entries_first s1 Hs1) as (e1 & es1 & Ee1 & Hi1).
    rewrite all_entries_cons, Ee1 in Hall. injection Hall as -> _. rewrite <-Hi, Hi1. by eapply row_continues.
Qed.

Lemma means_grow (st : ControlState Vote) segs segs' torn torn' es batch :
  means st segs torn es -> cl_truncation_pending_from st = None -> reaches st segs ->
  contiguous (next_index (cl_last_purged_log_id st) + vec_len es) batch -> batch <> [] ->
  in_order segs' -> Forall seg_ok segs' -> all_entries segs' = all_entries segs ++ batch ->
  Forall (fun s => Forall (fun f => f.1 <= cl_generation st) (s_frames s)) segs' -> torn_batch torn' ->
  means st segs' torn' (es ++ batch) /\ reaches st segs'.
Proof.
  intros Hm Hp Hr Hcb Hbne Ho Hok Hall Hg Ht. pose proof (me_entries _ _ _ _ Hm) as He. rewrite kept_none in He by done.
  set (next := next_index _) in *.
  assert (Hj : forall s0 l0, segs' = s0 :: l0 -> s_start s0 <= next /\ contiguous (s_start s0) (all_entries segs')).
  { intros s0 l0 ->. apply Forall_cons in Hok as [Hs0 _]. by eapply row_joined. }
  split.
  - split; try done.
    + eapply Forall_impl; [exact Hg|]. intros s Hf. eapply Forall_impl; [exact Hf|]. intros f Hle. split; [done|].
      unfold earlier. rewrite Hp. by intros [? ?].
    + apply Hm.
    + rewrite kept_none by done. exact Hj.
    + rewrite kept_none by done. rewrite Hall, filter_app, <-He. f_equal. symmetry. apply filter_all. intros e Hin.
      apply (contiguous_elem _ _ _ Hcb) in Hin. unfold live, before. rewrite Hp. split; [done|]. fold next. lia.
  - intros s [l ->]%last_Some. apply Forall_app in Hok as [_ [Hs _]%Forall_cons].
    assert (Hs0 : exists s0 l0, l ++ [s] = s0 :: l0) by (destruct l; by eexists _, _). destruct Hs0 as (s0 & l0 & E0).
    destruct (Hj s0 l0 E0) as [_ Hc]. rewrite (joined_end _ l s [] Hc Hs), Hall.
    destruct batch as [|e batch]; [done|]. rewrite Hall in Hc. apply contiguous_app in Hc as [_ [Hi _]%contiguous_cons].
    apply contiguous_cons in Hcb as [Hi' _]. rewrite vec_len_app. fold next. lia.
Qed.

(** A segment with one batch more, and a segment of one batch. *)
Definition add_frame (s : Seg E) (g : N) (batch : list E) : Seg E :=
  {| s_start := s_start s; s_frames := s_frames s ++ [(g, batch)] |}.

Definition one_frame (g : N) (batch : list E) : Seg E := {| s_start := first_index batch; s_frames := [(g, batch)] |}.

Lemma add_frame_entries s g batch : seg_entries (add_frame s g batch) = seg_entries s ++ batch.
Proof. unfold seg_entries. cbn. rewrite fmap_app, concat_app. cbn. by rewrite app_nil_r. Qed.

Lemma add_frame_bytes s g batch : seg_bytes (add_frame s g batch) = seg_bytes s ++ frame_bytes g batch.
Proof.
  unfold seg_bytes, frames_bytes, add_frame. cbn [s_start s_frames]. rewrite fmap_app, concat_app, <-app_assoc.
  cbn [fmap list_fmap concat fst snd]. by rewrite app_nil_r.
Qed.

Lemma one_frame_bytes g batch : seg_bytes (one_frame g batch) = segment_header (first_index batch) ++ frame_bytes g batch.
Proof. unfold seg_bytes, frames_bytes, one_frame. cbn [s_start s_frames fmap list_fmap concat fst snd]. by rewrite app_nil_r. Qed.

Lemma one_frame_entries g batch : seg_entries (one_frame g batch) = batch.
Proof. unfold seg_entries. cbn. apply app_nil_r. Qed.

Lemma add_frame_ok s g batch :
  seg_ok s -> fits batch -> contiguous (seg_end s) batch -> g <= u64_max ->
  vec_len (seg_bytes s) + vec_len (frame_bytes g batch) <= SEGMENT_TARGET_BYTES -> seg_ok (add_frame s g batch).
Proof.
  intros Hs Hf Hc Hg Hlen. pose proof (seg_payload (add_frame s g batch)) as Hp. rewrite add_frame_bytes, vec_len_app in Hp.
  pose proof (payload_count (seg_entries (add_frame s g batch))) as Hn. unfold SEGMENT_TARGET_BYTES in *.
  split; [apply Hs| | | | |].
  - cbn. by destruct (s_frames s).
  - cbn. apply Forall_app. split; [apply Hs|]. by constructor.
  - rewrite add_frame_entries. apply contiguous_app. split; [apply Hs|exact Hc].
  - unfold u32_max. lia.
  - unfold u64_max. lia.
Qed.

Lemma one_frame_ok g batch : fits batch -> g <= u64_max -> seg_ok (one_frame g batch).
Proof.
  intros Hf Hg. split; rewrite ?one_frame_entries; try apply Hf; [|done|by constructor].
  cbn. destruct batch as [|e batch]; [by destruct Hf|]. apply (entry_index_u64 e).
Qed.

(** ** On the disk *)

Section disk.
Context (os : Os) (marker_path : Path).

Abbreviation dir := (family_directory marker_path).
Abbreviation stored := (RaftLogSteps.stored marker_path).
Abbreviation leaves := (RaftLogSteps.leaves marker_path).

(** A store that is in use, and the disk under it. *)
Record opened (store : SegmentStore Vote) (d : Disk) (segs : list (Seg E)) (es : list E) : Prop := {
  op_stored : stored true d (sg_control store) segs [];
  op_means : means (sg_control store) segs [] es;
  op_pending : cl_truncation_pending_from (sg_control store) = None;
  op_directory : sg_directory store = dir;
  op_tail : sg_tail store = tail_of segs;
  op_reaches : reaches (sg_control store) segs;
}.

(** What an append of a batch that fails leaves behind. *)
Definition half_done (st : ControlState Vote) (es batch : list E) (d : Disk) : Prop :=
  leaves st es d \/ leaves st (es ++ batch) d.

Lemma frame_prefix g (batch : list E) n :
  fits batch -> g <= u64_max -> torn_batch (take n (frame_bytes g batch)) \/ take n (frame_bytes g batch) = frame_bytes g batch.
Proof.
  intros Hf Hg. destruct (decide (n < length (frame_bytes g batch))%nat) as [Hn|Hn].
  - left. right. by exists g, batch, n.
  - right. apply take_ge. lia.
Qed.

Lemma target_u64 n : n <= SEGMENT_TARGET_BYTES -> n <= u64_max.
Proof. unfold SEGMENT_TARGET_BYTES, u64_max. lia. Qed.

Lemma use_tail_spec (store : SegmentStore Vote) frame tail :
  use_tail store frame = Some tail -> sg_tail store = Some tail /\ tl_length tail + vec_len frame <= SEGMENT_TARGET_BYTES.
Proof.
  unfold use_tail, u64_checked_add. destruct (sg_tail store) as [t|]; [|done]. n_cases; [|done]. n_cases; [|done]. by intros [= ->].
Qed.

(** A new file by way of a temporary one. *)
Lemma wp_create_by_temp {A} tmp name files header bytes (k : Io A) (Q : A -> World -> Prop) (F : Disk -> Prop) w :
  at_dir marker_path (w_disk w) files -> files !! tmp = None ->
  (forall w', at_dir marker_path (w_disk w') (<[name := header ++ bytes]> (delete tmp files)) -> io_wp k Q F w') ->
  (faulty os -> forall d b, at_dir marker_path d (<[tmp := b]> files) -> F d) -> (faulty os -> F (w_disk w)) ->
  io_wp (do* file_create_new os (in_directory dir tmp) in do* file_write os (in_directory dir tmp) header in
    do* file_write os (in_directory dir tmp) bytes in do* sync os in
    do* rename os (in_directory dir tmp) (in_directory dir name) in k) Q F w.
Proof.
  intros Hd Hn HQ HF HF0. apply io_wp_bind.
  apply (io_wp_file_create_new os _ files); [apply Hd|by rewrite (at_dir_file _ _ _ _ Hd)| |done].
  pose proof (at_dir_put _ _ _ tmp [] Hd) as Hd1.
  assert (Hput : forall d old new, at_dir marker_path d (<[tmp := old]> files) ->
    at_dir marker_path (disk_put d (in_directory dir tmp) new) (<[tmp := new]> files)).
  { intros d old new Hd'. apply (at_dir_put _ _ _ tmp new) in Hd'. by rewrite insert_insert_eq in Hd'. }
  assert (Hfile : forall d b, at_dir marker_path d (<[tmp := b]> files) -> disk_file d (in_directory dir tmp) = Some b).
  { intros d b Hd'. rewrite (at_dir_file _ _ _ _ Hd'). apply lookup_insert_eq. }
  apply io_wp_bind. apply (io_wp_file_write os _ []); [by apply Hfile| |].
  2: { intros Hf n. eapply HF; [done|]. by eapply Hput. }
  cbn [later w_disk app]. pose proof (Hput _ _ header Hd1) as Hd2.
  apply io_wp_bind. apply (io_wp_file_write os _ header); [by apply Hfile| |].
  2: { intros Hf n. eapply HF; [done|]. by eapply Hput. }
  cbn [later w_disk]. pose proof (Hput _ _ (header ++ bytes) Hd2) as Hd3.
  apply io_wp_bind, io_wp_sync; [|intros Hf; by eapply HF]. cbn [later w_disk].
  apply io_wp_bind. apply (io_wp_rename os _ _ (header ++ bytes)); [by apply Hfile| |intros Hf; by eapply HF].
  apply HQ. cbn [later w_disk]. pose proof (at_dir_put _ _ _ name (header ++ bytes) (at_dir_remove _ _ _ tmp Hd3)) as Hd4.
  by rewrite delete_insert_eq in Hd4.
Qed.

Section batch.
Context (store : SegmentStore Vote) (es batch : list E).
Context (Hfit : fits batch) (Hcb : contiguous (next_index (cl_last_purged_log_id (sg_control store)) + vec_len es) batch).

Abbreviation st := (sg_control store).
Abbreviation frame := (frame_bytes (cl_generation st) batch).

(** A row with the batch in it. *)
Lemma opened_grow d segs d' segs' :
  opened store d segs es -> stored true d' st segs' [] -> in_order segs' -> Forall seg_ok segs' ->
  all_entries segs' = all_entries segs ++ batch ->
  Forall (fun s => Forall (fun f => f.1 <= cl_generation st) (s_frames s)) segs' ->
  opened (set_tail store (tail_of segs')) d' segs' (es ++ batch).
Proof.
  intros [Hs Hm Hp Hd Ht Hr] Hs' Ho Hok Hall Hg.
  destruct (means_grow st segs segs' [] [] es batch) as [Hm' Hr']; first [done|apply Hfit|apply Hm|by split].
Qed.

Lemma generations_le segs torn : means st segs torn es -> Forall (fun s => Forall (fun f => f.1 <= cl_generation st) (s_frames s)) segs.
Proof.
  intros Hm. eapply Forall_impl; [apply (me_generations _ _ _ _ Hm)|]. intros s Hf. eapply Forall_impl; [exact Hf|]. by intros f [].
Qed.

Lemma tail_grow l s g :
  vec_len (seg_bytes s) + vec_len (frame_bytes g batch) <= u64_max ->
  tail_of (l ++ [add_frame s g batch]) =
    Some {| tl_name := seg_name s; tl_length := u64_saturating_add (vec_len (seg_bytes s)) (vec_len (frame_bytes g batch)) |}.
Proof.
  intros Hl. unfold tail_of. rewrite last_snoc. cbn [fmap option_fmap option_map]. rewrite add_frame_bytes, vec_len_app.
  unfold u64_saturating_add, saturating_add. rewrite N.min_l by exact Hl. reflexivity.
Qed.

Lemma wp_append_to_tail segs tail w :
  opened store (w_disk w) segs es -> use_tail store frame = Some tail ->
  io_wp (append_to_tail os store tail frame)
    (fun store' w' => sg_control store' = st /\ exists segs', opened store' (w_disk w') segs' (es ++ batch))
    (fun d => faulty os /\ half_done st es batch d) w.
Proof.
  intros Hop [Hut Hl2]%use_tail_spec. pose proof Hop as [Hs Hm Hp Hd Ht Hr]. rewrite Ht in Hut.
  destruct segs as [|s l _] using rev_ind; [done|]. unfold tail_of in Hut. rewrite last_snoc in Hut. injection Hut as <-.
  cbn [tl_length] in Hl2.
  pose proof (me_segs _ _ _ _ Hm) as Hok. pose proof Hok as [Hokl [Hsok _]%Forall_cons]%Forall_app.
  pose proof (me_generation _ _ _ _ Hm) as Hgen. pose proof (me_order _ _ _ _ Hm) as Ho.
  set (s' := add_frame s (cl_generation st) batch).
  assert (Hs'ok : seg_ok s').
  { apply add_frame_ok; [done..| |done|done]. by rewrite (row_end _ _ _ _ _ Hm Hp Hr (last_snoc _ _)). }
  pose proof Hs as (files & Hf & Hh & Hc). set (path := in_directory dir (seg_name s)).
  assert (Hwrite : forall x torn', s_start x = s_start s ->
    stored true (disk_put (w_disk w) path (seg_bytes x ++ torn')) st (l ++ [x]) torn').
  { intros x torn' Hx. eexists. split_and!; [by apply at_dir_put|by eapply holds_last|].
    intros _. apply clean_insert; [apply segment_not_temporary|by apply Hc]. }
  assert (Hnew : opened (set_tail store (tail_of (l ++ [s']))) (disk_put (w_disk w) path (seg_bytes s ++ frame)) (l ++ [s']) (es ++ batch)).
  { rewrite <-add_frame_bytes. fold s'. rewrite <-(app_nil_r (seg_bytes s')). eapply opened_grow; [done|by apply Hwrite| | | |].
    - unfold in_order in *. by rewrite fmap_app in *.
    - apply Forall_app. split; [done|]. by constructor.
    - rewrite !all_entries_app, !all_entries_cons, !app_nil_r. unfold s'. by rewrite add_frame_entries, app_assoc.
    - apply Forall_app. pose proof (generations_le _ _ Hm) as [Hg [Hgs _]%Forall_cons]%Forall_app. split; [done|].
      constructor; [|done]. cbn. apply Forall_app. split; [done|]. by constructor. }
  assert (Hfile : disk_file (w_disk w) path = Some (seg_bytes s)).
  { rewrite <-(app_nil_r (seg_bytes s)). by eapply (stored_file marker_path _ _ _ l s [] []). }
  assert (Hdone : leaves st (es ++ batch) (disk_put (w_disk w) path (seg_bytes s ++ frame))) by (eapply stored_leaves; apply Hnew).
  unfold append_to_tail. rewrite Hd. cbn [tl_name tl_length]. fold path. apply io_wp_bind.
  apply (io_wp_file_open os _ (seg_bytes s)); [done| |intros ?; split; [done|left; by eapply stored_leaves]]. apply io_wp_bind.
  apply (io_wp_file_write os _ (seg_bytes s)); [done| |].
  2: { intros ? n. split; [done|]. cbn [later w_disk]. destruct (frame_prefix (cl_generation st) batch n) as [Htb| ->]; [done|done| |by right].
       left. eapply stored_leaves; [by apply Hwrite|]. by eapply means_torn. }
  cbn [later w_disk]. apply io_wp_bind, io_wp_sync; [|intros ?; split; [done|by right]]. apply io_wp_ret. split; [done|].
  exists (l ++ [s']). cbn [later w_disk]. rewrite <-(tail_grow l) by (by apply target_u64). exact Hnew.
Qed.

(** A new segment comes after the others. *)
Lemma new_in_order segs g :
  means st segs [] es -> cl_truncation_pending_from st = None -> reaches st segs -> in_order (segs ++ [one_frame g batch]).
Proof.
  intros Hm Hp Hr. apply in_order_app. split_and!; [apply Hm|by repeat constructor|].
  intros s s' Hs ->%list_elem_of_singleton. cbn [one_frame s_start].
  destruct batch as [|e b'] eqn:Eb; [by destruct Hfit|]. apply contiguous_cons in Hcb as [He _]. cbn [first_index]. rewrite He.
  destruct (last segs) as [sl|] eqn:El; [|apply last_None in El; subst; by apply not_elem_of_nil in Hs].
  rewrite <-(row_end _ _ _ _ _ Hm Hp Hr El). pose proof (me_order _ _ _ _ Hm) as Ho. pose proof (me_segs _ _ _ _ Hm) as Hok.
  apply last_Some in El as [l ->]. apply in_order_app in Ho as (_ & _ & Ho). apply Forall_app in Hok as [_ [Hsl _]%Forall_cons].
  assert (Hlt : s_start sl < seg_end sl).
  { destruct (seg_entries_first sl Hsl) as (x & xs & Ex & _). unfold seg_end. rewrite Ex. unfold vec_len. cbn. lia. }
  apply elem_of_app in Hs as [Hs|Hs%list_elem_of_singleton]; [|by subst]. specialize (Ho s sl Hs ltac:(by left)). lia.
Qed.

Lemma tail_new segs g :
  tail_of (segs ++ [one_frame g batch]) =
    Some {| tl_name := seg_name (one_frame g batch);
            tl_length := vec_len (segment_header (first_index batch)) + vec_len (frame_bytes g batch) |}.
Proof. unfold tail_of. rewrite last_snoc. cbn [fmap option_fmap option_map]. by rewrite one_frame_bytes, vec_len_app. Qed.

Lemma wp_create_segment segs w :
  opened store (w_disk w) segs es -> os_pid os <= u32_max ->
  io_wp (create_segment os store (first_index batch) frame)
    (fun store' w' => sg_control store' = st /\ exists segs', opened store' (w_disk w') segs' (es ++ batch))
    (fun d => faulty os /\ half_done st es batch d) w.
Proof.
  intros Hop Hpid. pose proof Hop as [Hs Hm Hp Hd Ht Hr]. pose proof Hs as (files & Hf & Hh & Hc). specialize (Hc eq_refl).
  set (s' := one_frame (cl_generation st) batch). pose proof (new_in_order segs (cl_generation st) Hm Hp Hr) as Ho.
  assert (Hs' : seg_ok s') by (apply one_frame_ok; [done|apply Hm]).
  assert (Hok : Forall seg_ok (segs ++ [s'])) by (apply Forall_app; split; [apply Hm|by constructor]).
  change (first_index batch) with (s_start s'). set (name := seg_name s'). set (tmp := temp_name os name).
  assert (Htmp : is_temporary_artifact tmp = true) by apply (temp_segment os Hpid), Hs'.
  assert (Hnone : files !! name = None).
  { apply eq_None_not_Some. rewrite (names_in_directory marker_path _ _ _ _ _ Hf Hh) by (done || apply Hm).
    intros [E1|(s & Hin & E1)]; [by apply segment_not_control in E1|]. revert E1. apply in_order_app in Ho as (_ & _ & Ho).
    intros E1. apply seg_name_inj in E1; [|done|].
    - specialize (Ho s s' Hin ltac:(by left)). lia.
    - pose proof (me_segs _ _ _ _ Hm) as Hok'. rewrite Forall_forall in Hok'. by apply Hok'. }
  assert (Hbad : forall d bytes, faulty os -> at_dir marker_path d (<[tmp := bytes]> files) -> faulty os /\ half_done st es batch d).
  { intros d bytes ? Hd'. split; [done|]. left. exists segs, []. split; [|done]. eexists. split_and!; [exact Hd'|by apply holds_temp_insert|done]. }
  assert (Herr : faulty os -> faulty os /\ half_done st es batch (w_disk w)) by (intros ?; split; [done|left; by eapply stored_leaves]).
  unfold create_segment. rewrite Hd. apply io_wp_bind, io_wp_file_absent; [by rewrite (at_dir_file marker_path _ _ _ Hf)|].
  fold (seg_name s'). fold name. rewrite temp_path_name. cbn [in_directory path_parent path_file_name]. fold tmp.
  change {| path_parent := dir; path_file_name := tmp |} with (in_directory dir tmp).
  apply (wp_create_by_temp tmp name files); [done|by apply Hc| |intros ? d bytes; by apply Hbad|done].
  intros w' Hd'. apply io_wp_ret. split; [done|]. exists (segs ++ [s']).
  assert (Hbytes : segment_header (s_start s') ++ frame = seg_bytes s') by (symmetry; apply one_frame_bytes). rewrite Hbytes in Hd'.
  pose proof (tail_new segs (cl_generation st)) as Htail. fold s' in Htail. fold name in Htail.
  change (first_index batch) with (s_start s') in Htail. rewrite <-Htail.
  apply (opened_grow (w_disk w) segs); [done| |done|done| |].
  - eexists. split_and!; [exact Hd'| |].
    + rewrite <-(app_nil_r (seg_bytes s')). apply holds_snoc; [by apply holds_temp_delete|done|done].
    + intros _. apply clean_insert; [apply segment_not_temporary|by apply clean_delete].
  - rewrite all_entries_app, all_entries_cons, app_nil_r. unfold s'. by rewrite one_frame_entries.
  - apply Forall_app. split; [by apply (generations_le _ [])|]. by repeat constructor.
Qed.

Lemma wp_append_batch segs w :
  opened store (w_disk w) segs es -> os_pid os <= u32_max ->
  io_wp (append_batch os store (cl_generation st) (encoded batch))
    (fun r w' => sg_control r.1 = st /\ exists segs', opened r.1 (w_disk w') segs' (es ++ batch))
    (fun d => faulty os /\ half_done st es batch d) w.
Proof.
  intros Hop Hpid. unfold append_batch.
  replace (match encoded batch with (index, _) :: _ => index | [] => 0 end) with (first_index batch) by (by destruct batch).
  rewrite (encode_frame_fits _ _ Hfit). cbn [io_lift]. apply io_wp_bind, io_wp_ret.
  destruct (use_tail store frame) as [tail|] eqn:Hut; apply io_wp_bind.
  - eapply io_wp_mono; [by eapply wp_append_to_tail| |done]. done.
  - eapply io_wp_mono; [by eapply wp_create_segment| |done]. done.
Qed.
End batch.

(** An entry that is too large is refused. *)
Lemma append_large store g (batch : list E) (Q : SegmentStore Vote * bool -> World -> Prop) (F : Disk -> Prop) w :
  ~ Forall small batch -> F (w_disk w) -> io_wp (append_batch os store g (encoded batch)) Q F w.
Proof.
  intros Hs HF. unfold append_batch, encode_frame. destruct (u32_try_from _); [|done].
  destruct (encode_entries _ 0 _) as [payload|] eqn:Ee; [|done]. by apply encode_entries_inv in Ee as (_ & _ & ?).
Qed.

Lemma wp_append_loop fuel store segs es entries created w :
  opened store (w_disk w) segs es -> os_pid os <= u32_max -> (length entries <= fuel)%nat ->
  contiguous (next_index (cl_last_purged_log_id (sg_control store)) + vec_len es) entries ->
  io_wp (append_loop os fuel store (cl_generation (sg_control store)) (encoded entries) created)
    (fun r w' => sg_control r.1 = sg_control store /\ exists segs', opened r.1 (w_disk w') segs' (es ++ entries))
    (fun d => (faulty os \/ ~ Forall small entries) /\ exists k, leaves (sg_control store) (es ++ take k entries) d) w.
Proof.
  revert store segs es entries created w; induction fuel as [|fuel IH]; intros store segs es entries created w Hop Hpid Hfuel Hc.
  { destruct entries; [|cbn in Hfuel; lia]. rewrite app_nil_r. split; [done|]. by exists segs. }
  destruct (decide (entries = [])) as [->|Hne]; [rewrite app_nil_r; split; [done|]; by exists segs|].
  assert (Hloop : append_loop os (S fuel) store (cl_generation (sg_control store)) (encoded entries) created =
    (let* n := io_lift (batch_len (encoded entries) 0 0) in
     let* (store', created') := append_batch os store (cl_generation (sg_control store)) (take n (encoded entries)) in
     append_loop os fuel store' (cl_generation (sg_control store)) (drop n (encoded entries)) (created || created'))).
  { by destruct entries. }
  rewrite Hloop. assert (Hnow : forall P, P -> P /\ exists k, leaves (sg_control store) (es ++ take k entries) (w_disk w)).
  { intros P HP. split; [done|]. exists 0%nat. rewrite take_0, app_nil_r. eapply stored_leaves; apply Hop. }
  destruct (batch_len (encoded entries) 0 0) as [n|] eqn:Hn; cbn [io_lift]; apply io_wp_bind.
  2: { apply io_wp_fail, Hnow. right. intros Hs. by destruct (batch_len_total entries 0 0 Hs) as [? ?]; congruence. }
  apply io_wp_ret. apply io_wp_bind. unfold encoded. rewrite <-fmap_take, <-fmap_drop. fold (encoded (take n entries)) (encoded (drop n entries)).
  destruct (decide (Forall small (take n entries))) as [Hs|Hs].
  2: { apply append_large; [done|]. apply Hnow. right. intros Ha. by apply Hs, Forall_take. }
  destruct (batch_fits _ _ _ Hn Hne Hc Hs) as [Hfit Hn1].
  pose proof Hc as Hc'. rewrite <-(take_drop n entries) in Hc'. apply contiguous_app in Hc' as [Hc1 Hc2].
  eapply io_wp_mono; [by apply (wp_append_batch store es (take n entries) Hfit Hc1 segs)| |].
  - intros [store' created'] w' [Hst [segs' Hop']]. cbn [fst] in Hst, Hop'. rewrite <-Hst.
    assert (Hlen : (length (drop n entries) <= fuel)%nat) by (rewrite length_drop; lia).
    eapply io_wp_mono; [apply (IH store' segs' (es ++ take n entries)); [done|done|done|]| |].
    + by rewrite Hst, vec_len_app, N.add_assoc.
    + intros r w2. by rewrite <-app_assoc, take_drop.
    + intros d [Hf [k Hk]]. split.
      * destruct Hf as [|Hf]; [by left|]. right. intros Ha. by apply Hf, Forall_drop.
      * exists (n + k)%nat. by rewrite <-take_take_drop, app_assoc.
  - intros d [Hf [Hl|Hl]]; (split; [by left|]); [exists 0%nat|by exists n]. by rewrite take_0, app_nil_r.
Qed.

Lemma wp_store_append store segs es entries w :
  opened store (w_disk w) segs es -> os_pid os <= u32_max ->
  contiguous (next_index (cl_last_purged_log_id (sg_control store)) + vec_len es) entries ->
  io_wp (store_append os store (cl_generation (sg_control store)) (encoded entries))
    (fun store' w' => sg_control store' = sg_control store /\ exists segs', opened store' (w_disk w') segs' (es ++ entries))
    (fun d => (faulty os \/ ~ Forall small entries) /\ exists k, leaves (sg_control store) (es ++ take k entries) d) w.
Proof.
  intros Hop Hpid Hc. unfold store_append. apply io_wp_bind.
  eapply io_wp_mono; [apply (wp_append_loop _ store segs es entries); [done|done|unfold encoded; by rewrite length_fmap|done]| |done].
  intros [store' created] w' [Hst [segs' Hop']]. cbn [fst] in *. apply io_wp_bind. apply (wp_sync_if os created).
  - intros w2 Hw2. apply io_wp_ret. split; [done|]. exists segs'. by rewrite Hw2.
  - intros Hf. split; [by left|]. exists (length entries). rewrite firstn_all, <-Hst. eapply stored_leaves; apply Hop'.
Qed.
End disk.
End append.
