(* ===== verification/RaftLogOps.v ===== *)
(** The operations of the durable Raft log: writing the control state, purging,
    truncating, opening, creating and validating. Each ends with the store in
    use, or fails and leaves a directory that the next start recovers. *)

From S2P Require Import Prelude Engine RecordFormat Names Paths Disk RaftLogFormat RaftLogSegments RaftLogFiles RaftLogRecovery RaftLogSteps RaftLogTruncation RaftLogAppend.

Local Open Scope N_scope.

Section ops.
Context {E Vote : Type} {J : LogJson E Vote} {L : LogJsonLaws J}.

(** ** What a directory means under another control state *)

Lemma means_control (st st' : ControlState Vote) segs torn (es : list E) :
  cl_generation st' = cl_generation st -> cl_truncation_pending_from st' = cl_truncation_pending_from st ->
  cl_last_purged_log_id st' = cl_last_purged_log_id st -> means st segs torn es -> means st' segs torn es.
Proof.
  destruct st as [g p l c v], st' as [g' p' l' c' v']. cbn. intros -> -> -> [Ho Hok Hg Hgen Ht Hj He]. by split.
Qed.

Lemma means_purged (st : ControlState Vote) segs torn es floor :
  means st segs torn es -> cl_truncation_pending_from st = None ->
  next_index (cl_last_purged_log_id st) <= next_index floor ->
  means (with_purged st floor) segs torn (from (next_index floor) es).
Proof.
  intros Hm Hp Hle. pose proof Hm as [Ho Hok Hg Hgen Ht Hj He]. set (st' := with_purged st floor).
  rewrite kept_none in Hj, He by done. assert (Hk : kept st' segs = segs) by (by apply kept_none). split; try done.
  - rewrite Hk. intros s l E0. destruct (Hj s l E0). split; [cbn; lia|done].
  - rewrite Hk, He, !filter_live, !remaining_none by done. unfold from. rewrite list_filter_filter.
    apply filter_agree. intros e _. cbn. lia.
Qed.

Lemma committed_purged purged committed (es : list E) floor :
  committed_ok purged committed es -> next_index purged <= li_index floor + 1 ->
  committed_ok (Some floor) committed (from (li_index floor + 1) es).
Proof.
  intros Hc Hle c Ec. destruct (Hc c Ec) as [(e & He & Hid)|(p & -> & Hp)].
  - destruct (N.le_gt_cases (li_index c) (li_index floor)) as [Hi|Hi]; [right; by exists floor|]. left. exists e. split; [|done].
    apply list_elem_of_filter. split; [|done]. unfold entry_index. rewrite Hid. lia.
  - right. exists floor. cbn in Hle. split; [done|lia].
Qed.

Lemma kept_prefix (st : ControlState Vote) b (segs : list (Seg E)) :
  in_order segs -> cl_truncation_pending_from st = Some b ->
  exists l2, segs = kept st segs ++ l2 /\ forall s, s ∈ l2 -> b <= s_start s.
Proof.
  intros Ho Hp. induction segs as [|s segs IH]; [exists []; split; [done|]; by intros x ?%not_elem_of_nil|]. apply StronglySorted_inv in Ho as [Ho Hf].
  unfold kept in *. rewrite filter_cons.
  case_decide as Hb; unfold before in Hb; rewrite Hp in Hb; cbn in Hb.
  - destruct (IH Ho) as (l2 & E1 & H2). exists l2. split; [|done]. cbn. by f_equal.
  - assert (Hge : forall x, x ∈ segs -> b <= s_start x).
    { intros x Hx. rewrite Forall_forall in Hf. specialize (Hf (s_start x) (list_elem_of_fmap_2 _ _ _ Hx)).
      rewrite N.ltb_lt in Hb. lia. }
    exists (s :: segs). rewrite filter_none.
    + split; [done|]. intros x [->|Hx]%elem_of_cons; [rewrite N.ltb_lt in Hb; lia|by apply Hge].
    + intros x Hx. unfold before. rewrite Hp. cbn. specialize (Hge x Hx). rewrite N.ltb_lt. lia.
Qed.

Definition until (b : N) (es : list E) : list E := filter (fun e => entry_index e < b) es.

Lemma means_truncated (st : ControlState Vote) segs torn es b g :
  means st segs torn es -> cl_truncation_pending_from st = None -> g = cl_generation st + 1 -> g <= u64_max ->
  means (with_pending st g (Some b)) segs torn (until b es).
Proof.
  intros Hm Hp -> Hgu. pose proof Hm as [Ho Hok Hg Hgen Ht Hj He]. set (st' := with_pending st _ (Some b)).
  rewrite kept_none in Hj, He by done. destruct (kept_prefix st' b segs Ho eq_refl) as (l2 & E2 & Hl2). split; try done.
  - eapply Forall_impl; [exact Hg|]. intros s Hf. eapply Forall_impl; [exact Hf|]. intros f [Hle _]. cbn.
    unfold earlier. cbn. split; [lia|]. intros _. lia.
  - intros s l E0. rewrite E0 in E2. destruct (Hj s (l ++ l2)) as [Hle Hc]; [done|]. split; [done|]. rewrite E0.
    rewrite E2, all_entries_app in Hc. by apply contiguous_app in Hc as [Hc _].
  - rewrite He. rewrite E2 at 1. rewrite all_entries_app. unfold until. rewrite !list_filter_filter, filter_app.
    rewrite (filter_none _ (all_entries l2)), app_nil_r.
    + apply filter_agree. intros e _. unfold live, before. rewrite Hp. cbn. rewrite N.ltb_lt. tauto.
    + rewrite E2 in Hok. apply Forall_app in Hok as [_ Hok2]. intros e Hin [Hlt _]. unfold all_entries in Hin.
      apply list_elem_of_In, in_concat in Hin as (x & Hx & Hin). apply list_elem_of_In, list_elem_of_fmap in Hx as (s & -> & Hs).
      apply list_elem_of_In in Hin. rewrite Forall_forall in Hok2.
      apply (contiguous_elem _ _ _ (so_contiguous s (Hok2 s Hs))) in Hin. specialize (Hl2 s Hs). lia.
Qed.

(** ** Operations of an open store *)

Section disk.
Context (os : Os) (Hpid : os_pid os <= u32_max) (Hlist : lists_files os) (marker_path : Path).

Abbreviation dir := (family_directory marker_path).
Abbreviation stored := (RaftLogSteps.stored marker_path).
Abbreviation leaves := (RaftLogSteps.leaves marker_path).
Abbreviation opened := (RaftLogAppend.opened marker_path).

Definition committed_within (st : ControlState Vote) (es : list E) : Prop :=
  committed_ok (cl_last_purged_log_id st) (cl_committed st) es.

(** A directory that the next start recovers. *)
Definition recoverable (st : ControlState Vote) (es : list E) (d : Disk) : Prop := leaves st es d /\ committed_within st es.

Lemma opened_recoverable store d segs es : opened store d segs es -> committed_within (sg_control store) es -> recoverable (sg_control store) es d.
Proof. intros Hop Hc. split; [|done]. eapply stored_leaves; apply Hop. Qed.

Lemma wp_store_control store segs es st w :
  opened store (w_disk w) segs es -> committed_within (sg_control store) es -> committed_within st es ->
  cl_generation st = cl_generation (sg_control store) -> cl_truncation_pending_from st = None ->
  cl_last_purged_log_id st = cl_last_purged_log_id (sg_control store) ->
  io_wp (persist_control os store st)
    (fun store' w' => sg_control store' = st /\ exists segs', opened store' (w_disk w') segs' es)
    (fun d => faulty os /\ (recoverable (sg_control store) es d \/ recoverable st es d)) w.
Proof.
  intros [Hs Hm Hp Hd Ht Hr] Hc Hc' Hg Hp' Hl.
  assert (Hm' : means st segs [] es) by (eapply means_control; [done|by rewrite Hp|done|done]).
  eapply io_wp_mono; [by apply (wp_persist_control os Hpid marker_path true store (sg_control store) st segs [])| |].
  - intros store' w' [-> Hs']. split; [done|]. exists segs. split; try done. intros s El. cbn [set_control sg_control]. rewrite Hl. by apply Hr.
  - intros d [Hf [Hs'|Hs']]; (split; [done|]); [left|right]; (split; [|done]); by eapply stored_leaves.
Qed.

Lemma wp_store_purge store segs es floor w :
  opened store (w_disk w) segs es -> committed_within (sg_control store) es ->
  next_index (cl_last_purged_log_id (sg_control store)) <= li_index floor + 1 ->
  let st := with_purged (sg_control store) (Some floor) in
  io_wp (store_purge os store (Some floor))
    (fun store' w' => sg_control store' = st /\ exists segs', opened store' (w_disk w') segs' (from (li_index floor + 1) es))
    (fun d => faulty os /\ (recoverable (sg_control store) es d \/ recoverable st (from (li_index floor + 1) es) d)) w.
Proof.
  intros [Hs Hm Hp Hd Ht Hr] Hc Hle st. pose proof (means_purged _ _ _ _ (Some floor) Hm Hp Hle) as Hm'.
  change (next_index (Some floor)) with (li_index floor + 1) in Hm'. fold st in Hm'.
  assert (Hc' : committed_within st (from (li_index floor + 1) es)) by (by eapply committed_purged).
  unfold store_purge. apply io_wp_bind.
  eapply io_wp_mono; [by apply (wp_persist_control os Hpid marker_path true store (sg_control store) st segs [])| |].
  - intros store' w' [-> Hs']. apply io_wp_bind.
    eapply io_wp_mono; [apply (wp_finish_purge os Hpid Hlist marker_path true (set_control store st) st segs []); [done|done|done|exact Hc'|done]| |].
    + intros r w2 (segs' & -> & Hs2 & Hm2 & Hun). apply io_wp_ret. split; [done|]. exists segs'. split; try done.
      intros s El. apply last_Some_elem_of in El. unfold unpurged in Hun. rewrite Forall_forall in Hun. specialize (Hun s El). cbn in Hun |- *. lia.
    + intros d [Hf Hl]. split; [done|]. by right.
  - intros d [Hf [Hs'|Hs']]; (split; [done|]); [left|right]; (split; [|done]); by eapply stored_leaves.
Qed.

Lemma reads_segments c d w st segs torn es :
  stored c d st segs torn -> means st segs torn es -> w_disk w = d ->
  reads os (read_segments os dir st) (read_segs st segs torn) w.
Proof.
  intros (files & Hd & Hh & _) Hm <-.
  apply (read_segments_spec os Hlist dir files st segs torn); [apply Hd|done|apply Hm|apply Hm| |apply Hm].
  eapply Forall_impl; [apply (me_generations _ _ _ _ Hm)|]. intros s Hg. eapply Forall_impl; [exact Hg|]. by intros f [].
Qed.

Lemma wp_scan_and_recover c (store : SegmentStore Vote) st segs torn es w :
  stored c (w_disk w) st segs torn -> means st segs torn es -> committed_within st es -> sg_directory store = dir ->
  io_wp (scan_and_recover os store st)
    (fun r w' => r = (log_map es, tail_of segs) /\ stored c (w_disk w') st segs [])
    (fun d => faulty os /\ recoverable st es d) w.
Proof.
  intros Hs Hm Hc Hd. unfold scan_and_recover. rewrite Hd. eapply reads_bind; [by eapply reads_segments| |].
  - intros w' Hw'. eapply io_wp_mono; [by apply (wp_recover os Hpid marker_path c st segs torn es); rewrite ?Hw'|done|].
    intros d [Hf Hl]. by split.
  - intros Hf. split; [done|]. split; [by eapply stored_leaves|done].
Qed.

(** Rows that end where the boundary is do not end before the purge point. *)
Lemma reaches_cut (st : ControlState Vote) segs es b g segs' :
  means st segs [] es -> cl_truncation_pending_from st = None -> reaches st segs ->
  next_index (cl_last_purged_log_id st) <= b -> cut_end b (kept (with_pending st g (Some b)) segs) segs' ->
  forall s', last segs' = Some s' -> next_index (cl_last_purged_log_id st) <= seg_end s'.
Proof.
  intros Hm Hp Hr Hb Hcut s' Hl'. destruct (Hcut s' Hl') as (s & Hl & ->). set (st' := with_pending st g (Some b)) in *.
  destruct (kept_prefix st' b segs (me_order _ _ _ _ Hm) eq_refl) as ([|s2 l2] & E2 & H2).
  - rewrite app_nil_r in E2. rewrite <-E2 in Hl. specialize (Hr s Hl). lia.
  - specialize (H2 s2 ltac:(by left)). apply last_Some in Hl as [l Hl]. rewrite Hl, <-app_assoc in E2. cbn [app] in E2.
    pose proof (me_segs _ _ _ _ Hm) as Hok. pose proof (me_joined _ _ _ _ Hm) as Hj. rewrite kept_none in Hj by done.
    assert (Hs0 : exists s0 l0, segs = s0 :: l0) by (rewrite E2; destruct l; by eexists _, _). destruct Hs0 as (s0 & l0 & E0).
    destruct (Hj _ _ E0) as [_ Hc]. rewrite E2 in Hc, Hok. apply Forall_app in Hok as [_ [Hs [Hs2 _]%Forall_cons]%Forall_cons].
    pose proof (joined_end _ l s (s2 :: l2) Hc Hs) as Hend.
    replace (l ++ s :: s2 :: l2) with ((l ++ [s]) ++ s2 :: l2) in Hc by (by rewrite <-app_assoc).
    pose proof (joined_start _ _ s2 l2 Hc Hs2). lia.
Qed.

Lemma wp_store_truncate store segs es b w :
  opened store (w_disk w) segs es -> committed_within (sg_control store) es ->
  next_index (cl_last_purged_log_id (sg_control store)) <= b -> committed_within (sg_control store) (until b es) ->
  cl_generation (sg_control store) + 1 <= u64_max ->
  let g := cl_generation (sg_control store) + 1 in
  io_wp (store_truncate os store b g)
    (fun store' w' => sg_control store' = with_pending (sg_control store) g None /\
       exists segs', opened store' (w_disk w') segs' (until b es))
    (fun d => faulty os /\ (recoverable (sg_control store) es d \/
       exists pending, recoverable (with_pending (sg_control store) g pending) (until b es) d)) w.
Proof.
  intros [Hs Hm Hp Hd Ht Hr] Hc Hb Hcb Hg g. set (st0 := sg_control store) in *.
  pose proof (means_truncated st0 _ _ _ b g Hm Hp eq_refl Hg) as Hm1. set (st := with_pending st0 g (Some b)) in *.
  assert (Hrec : forall d pending, leaves (with_pending st0 g pending) (until b es) d ->
    recoverable st0 es d \/ exists pending, recoverable (with_pending st0 g pending) (until b es) d).
  { intros d pending Hl. right. by exists pending. }
  unfold store_truncate. fold st0. fold st. apply io_wp_bind.
  eapply io_wp_mono; [by apply (wp_persist_control os Hpid marker_path true store st0 st segs [])| |].
  2: { intros d [Hf [Hs'|Hs']]; (split; [done|]); [left; split; [|done]|apply (Hrec d (Some b))]; by eapply stored_leaves. }
  intros store1 w1 [-> Hs1]. apply io_wp_bind.
  eapply io_wp_mono; [by apply (wp_finish_truncation os Hpid Hlist marker_path (set_control store st) st b segs [] (until b es))| |].
  2: { intros d [Hf Hl]. split; [done|]. by apply (Hrec d (Some b)). }
  intros [] w2 (segs' & torn' & Hs2 & Hm2 & Hm3 & Hcut). apply io_wp_bind.
  change (with_pending st g None) with (with_pending st0 g None).
  eapply io_wp_mono; [by apply (wp_persist_control os Hpid marker_path true (set_control store st) st (with_pending st0 g None) segs' torn')| |].
  2: { intros d [Hf [Hs'|Hs']]; (split; [done|]); [apply (Hrec d (Some b))|apply (Hrec d None)]; by eapply stored_leaves. }
  intros store2 w3 [-> Hs3]. apply io_wp_bind. cbn [set_control sg_control sg_directory].
  eapply io_wp_mono; [by apply (wp_scan_and_recover true _ (with_pending st0 g None) segs' torn' (until b es))| |].
  2: { intros d [Hf [Hl _]]. split; [done|]. by apply (Hrec d None). }
  intros r w4 [-> Hs4]. apply io_wp_ret. split; [done|]. exists segs'. split; try done.
  - eapply means_torn; [exact Hm3|]. apply torn_nil.
  - intros s. by apply (reaches_cut st0 segs es b g).
Qed.

(** ** Opening *)

Lemma marker_json : marker_to_json {| vm_version := LOG_FORMAT_VERSION; vm_artifact := ARTIFACT |} = Some marker_bytes.
Proof. unfold marker_bytes. by destruct (marker_json_total {| vm_version := LOG_FORMAT_VERSION; vm_artifact := ARTIFACT |}) as [b ->]. Qed.

Lemma reads_marker w files : at_dir marker_path (w_disk w) files -> reads os (read_marker os marker_path) tt w.
Proof.
  intros [_ Hm]. unfold read_marker. eapply reads_then; [by apply reads_file|]. intros w' _.
  eapply reads_then; [apply reads_lift; by rewrite (marker_json_roundtrip _ _ marker_json)|]. intros w2 _.
  cbn [vm_version vm_artifact]. rewrite bool_decide_eq_true_2 by done. apply reads_ret.
Qed.

Lemma reads_version w files : at_dir marker_path (w_disk w) files -> reads os (read_version os marker_path) LOG_FORMAT_VERSION w.
Proof.
  intros [_ Hm]. unfold read_version. eapply reads_then; [by apply reads_file|]. intros w' _.
  eapply reads_then; [apply reads_lift; by rewrite (marker_json_version _ _ marker_json)|]. intros w2 _. apply reads_ret.
Qed.

Lemma reads_control c st segs torn w : stored c (w_disk w) st segs torn -> reads os (read_control os dir) st w.
Proof.
  intros (files & Hd & Hh & _). unfold read_control.
  eapply reads_then; [apply reads_file; rewrite (at_dir_file marker_path _ _ _ Hd); apply Hh|]. intros w' _.
  unfold control_bytes. destruct (state_json_total st) as [sb Hsb]. rewrite Hsb. cbn [default].
  destruct (record_json_total {| cr_state := st; cr_checksum := crc32 sb |}) as [rb Hrb].
  eapply reads_then; [apply reads_lift|].
  { cbn. rewrite Hrb. cbn. by rewrite (record_json_roundtrip _ _ Hrb). }
  intros w2 _. cbn [cr_state cr_checksum]. eapply reads_then; [apply reads_lift; by rewrite Hsb|]. intros w3 _.
  rewrite N.eqb_refl. apply reads_ret.
Qed.

Lemma reads_family c st segs torn w :
  stored c (w_disk w) st segs torn ->
  reads os (open_family os marker_path)
    {| sg_marker_path := marker_path; sg_directory := dir; sg_control := st; sg_tail := None |} w.
Proof.
  intros Hs. pose proof Hs as (files & Hd & _). unfold open_family. eapply reads_then; [by eapply reads_marker|]. intros w' Hw'.
  eapply (reads_then _ _ _ true).
  { unfold reads, io_wp, dir_exists. rewrite Hw', (ad_files _ _ _ Hd). done. }
  intros w2 Hw2. cbn [negb]. rewrite <-Hw', <-Hw2 in Hs. eapply reads_then; [by eapply reads_control|]. intros w3 _. apply reads_ret.
Qed.

(** The control state without a pending truncation. *)
Definition settled (st : ControlState Vote) : ControlState Vote := with_pending st (cl_generation st) None.

Lemma settled_none st : cl_truncation_pending_from st = None -> settled st = st.
Proof. destruct st. cbn. by intros ->. Qed.

Lemma wp_finish_open store st segs torn es w :
  stored true (w_disk w) st segs torn -> means st segs torn es -> sg_directory store = dir -> sg_control store = st ->
  io_wp (match cl_truncation_pending_from st with
         | Some boundary =>
           do* finish_truncation os store boundary (cl_generation st) in
           persist_control os store (with_pending st (cl_generation st) None)
         | None => io_ret store
         end)
    (fun store' w' => sg_control store' = settled st /\ sg_directory store' = dir /\
       exists segs' torn', stored true (w_disk w') (settled st) segs' torn' /\ means (settled st) segs' torn' es)
    (fun d => faulty os /\ (leaves st es d \/ leaves (settled st) es d)) w.
Proof.
  intros Hs Hm Hd Hst. destruct (cl_truncation_pending_from st) as [b|] eqn:Hp.
  - apply io_wp_bind. eapply io_wp_mono; [by apply (wp_finish_truncation os Hpid Hlist marker_path store st b segs torn es)| |].
    + intros [] w' (segs' & torn' & Hs' & Hm' & Hm2 & _).
      eapply io_wp_mono; [by apply (wp_persist_control os Hpid marker_path true store st (settled st) segs' torn')| |].
      * intros store' w2 [-> Hs2]. split; [done|]. split; [done|]. by exists segs', torn'.
      * intros d [Hf [Hl|Hl]]; (split; [done|]); [left|right]; by eapply stored_leaves.
    + intros d [Hf Hl]. split; [done|by left].
  - apply io_wp_ret. rewrite settled_none by done. split; [done|]. split; [done|]. by exists segs, torn.
Qed.

Lemma wp_store_open st es w :
  recoverable st es (w_disk w) ->
  io_wp (store_open os marker_path)
    (fun r w' => let '(store, log, control) := r in
       control = sg_control store /\ control = settled st /\ log = log_map es /\ exists segs', opened store (w_disk w') segs' es)
    (fun d => faulty os /\ exists st', settled st' = settled st /\ recoverable st' es d) w.
Proof.
  intros [(segs & torn & Hs & Hm) Hc]. unfold store_open.
  assert (Hrec : forall d, leaves st es d \/ leaves (settled st) es d -> exists st', settled st' = settled st /\ recoverable st' es d).
  { intros d [Hl|Hl]; [by exists st|by exists (settled st)]. }
  assert (Herr : forall d, stored false d st segs torn -> exists st', settled st' = settled st /\ recoverable st' es d).
  { intros d Hs'. apply Hrec. left. by eapply stored_leaves. }
  eapply reads_bind; [by eapply reads_family| |intros Hf; split; [done|by apply Herr]]. intros w1 Hw1. rewrite <-Hw1 in Hs.
  set (store := {| sg_marker_path := _ |}). apply io_wp_bind.
  eapply io_wp_mono; [by apply (wp_remove_temporary_files os Hlist marker_path false store st segs torn)| |].
  2: { intros d [Hf Hl]. split; [done|]. by apply Herr. }
  intros [] w2 Hs2. apply io_wp_bind. cbn [sg_control store].
  eapply io_wp_mono; [by apply (wp_finish_open store st segs torn es)| |].
  2: { intros d [Hf Hl]. split; [done|]. by apply Hrec. }
  intros store' w3 (Hst & Hd & segs' & torn' & Hs3 & Hm3). rewrite Hst. apply io_wp_bind.
  eapply io_wp_mono; [by apply (wp_finish_purge os Hpid Hlist marker_path true store' (settled st) segs' torn' es)| |].
  2: { intros d [Hf Hl]. split; [done|]. apply Hrec. by right. }
  intros r w4 (segs2 & -> & Hs4 & Hm4 & Hun). apply io_wp_ret. cbn [set_tail sg_control]. split_and!; [done|done|done|].
  exists segs2. split; cbn [set_tail sg_control sg_directory sg_tail]; rewrite ?Hst; try done.
  intros s El%last_Some_elem_of. unfold unpurged in Hun. rewrite Forall_forall in Hun. specialize (Hun s El). cbn in Hun |- *. lia.
Qed.

Lemma reads_validate st es w : recoverable st es (w_disk w) -> reads os (store_validate os marker_path) tt w.
Proof.
  intros [(segs & torn & Hs & Hm) Hc]. unfold store_validate. eapply reads_then; [by eapply reads_family|]. intros w1 Hw1.
  eapply reads_then; [|intros; apply reads_ret]. unfold scan_readonly. cbn [sg_control sg_directory].
  eapply reads_then; [by eapply reads_segments|]. intros w2 _. rewrite (check_incomplete_ok os Hpid). cbn [io_lift].
  eapply reads_then; [apply reads_ret|]. intros w3 _. rewrite (build_log_spec st segs torn es) by done. cbn [io_lift].
  eapply reads_then; [apply reads_ret|]. intros w4 _. apply reads_ret.
Qed.

(** ** Creating a log *)

Lemma wp_atomic_write path bytes files (Q : unit -> World -> Prop) (F : Disk -> Prop) w :
  w_disk w !! path_parent path = Some files ->
  (forall w', w_disk w' !! path_parent path = Some (<[path_file_name path := bytes]> (delete (path_file_name (temp_path os path)) files)) ->
     (forall x, x <> path_parent path -> w_disk w' !! x = w_disk w !! x) -> Q tt w') ->
  (faulty os -> forall d, F d) -> io_wp (atomic_write os path bytes) Q F w.
Proof.
  intros Hd HQ HF. unfold atomic_write. set (tmp := temp_path os path). change (path_parent path) with (path_parent tmp) in *.
  apply io_wp_bind. apply (io_wp_create_dir_all os _ files); [done| |by intros; apply HF].
  apply io_wp_bind. apply (io_wp_file_create os _ files); [done| |by intros; apply HF]. cbn [later w_disk].
  apply io_wp_bind. pose proof (disk_put_dir (w_disk w) tmp [] files Hd) as Hd1.
  apply (io_wp_file_write os _ []); [cbn [later w_disk]; rewrite (disk_file_dir _ _ _ Hd1); apply lookup_insert_eq| |by intros; apply HF].
  cbn [later w_disk app]. apply io_wp_bind, io_wp_sync; [|by intros; apply HF]. cbn [later w_disk].
  pose proof (disk_put_dir _ tmp bytes _ Hd1) as Hd2. rewrite insert_insert_eq in Hd2. apply io_wp_bind.
  apply (io_wp_rename os _ _ bytes); [cbn [later w_disk]; rewrite (disk_file_dir _ _ _ Hd2); apply lookup_insert_eq| |by intros; apply HF].
  cbn [later w_disk]. apply io_wp_sync; [|by intros; apply HF]. apply HQ; cbn [later w_disk].
  - pose proof (disk_remove_dir _ tmp _ Hd2) as Hd3. rewrite delete_insert_eq in Hd3.
    apply (disk_put_dir _ path bytes _ Hd3).
  - intros x Hx. rewrite disk_put_other, disk_remove_other, !disk_put_other by done. done.
Qed.

Lemma empty_opened store d files :
  sg_control store = control_default -> sg_directory store = dir -> sg_tail store = None ->
  d !! dir = Some (<[CONTROL_FILE := control_bytes control_default]> (delete files ∅)) -> disk_file d marker_path = Some marker_bytes ->
  opened store d [] [].
Proof.
  intros Hst Hd Ht Hf Hm. split; rewrite ?Hst; try done.
  - eexists. split_and!; [by split| |].
    + split; [apply lookup_insert_eq|]. intros name Hc _. rewrite lookup_insert_ne, lookup_delete_None by done. by right.
    + intros _ name Hn. rewrite lookup_insert_ne by (intros <-; by rewrite control_not_temporary in Hn).
      apply lookup_delete_None. by right.
  - split; try done; [constructor|apply torn_nil].
Qed.

Lemma wp_initialize w :
  w_disk w !! dir = None ->
  io_wp (initialize os marker_path)
    (fun r w' => let '(store, log, control) := r in
       control = control_default /\ sg_control store = control_default /\ log = ∅ /\ opened store (w_disk w') [] [])
    (fun _ => faulty os) w.
Proof.
  intros Hn. unfold initialize. apply io_wp_bind.
  assert (Hex : io_wp (X := IoError) (dir_exists dir) (fun b w' => b = false /\ w' = w) (fun _ => faulty os) w).
  { unfold io_wp, dir_exists. by rewrite Hn. }
  eapply io_wp_mono; [exact Hex| |done]. intros b w' [-> ->]. apply io_wp_bind.
  pose proof (family_not_parent marker_path) as Hne.
  set (d1 := match w_disk w !! path_parent marker_path with Some _ => w_disk w | None => <[path_parent marker_path := ∅]> (w_disk w) end).
  assert (Hd1 : d1 !! dir = None) by (unfold d1; destruct (w_disk w !! path_parent marker_path); [done|by rewrite lookup_insert_ne]).
  assert (Hp1 : is_Some (d1 !! path_parent marker_path)).
  { unfold d1. destruct (w_disk w !! path_parent marker_path) eqn:Ep; [by rewrite Ep|]. rewrite lookup_insert_eq. by eexists. }
  destruct Hp1 as [pf Hp1]. apply io_wp_syscall; [|by intros]. fold d1. apply io_wp_bind. cbn [later w_disk].
  apply io_wp_syscall; [|by intros]. cbn [later w_disk]. rewrite Hd1. apply io_wp_bind, io_wp_sync; [|done]. cbn [later w_disk].
  apply io_wp_bind. unfold persist_control. destruct (state_json_total (@control_default Vote)) as [sb Hsb]. rewrite Hsb.
  cbn [of_json io_lift]. apply io_wp_bind, io_wp_ret.
  destruct (record_json_total {| cr_state := control_default; cr_checksum := crc32 sb |}) as [rb Hrb]. rewrite Hrb.
  cbn [of_json io_lift]. apply io_wp_bind, io_wp_ret. cbn [sg_directory].
  assert (Hb : rb = control_bytes control_default) by (unfold control_bytes; rewrite Hsb; cbn; by rewrite Hrb). subst rb.
  apply io_wp_bind. apply (wp_atomic_write _ _ ∅); [cbn [later w_disk]; by rewrite lookup_insert_eq| |done].
  intros w2 Hdir2 Hother2. cbn [in_directory path_parent path_file_name later w_disk] in Hdir2, Hother2. apply io_wp_ret.
  rewrite marker_json. cbn [of_json io_lift]. apply io_wp_bind, io_wp_ret. apply io_wp_bind.
  assert (Hp2 : w_disk w2 !! path_parent marker_path = Some pf) by (rewrite Hother2, lookup_insert_ne by done; done).
  apply (wp_atomic_write _ _ pf); [done| |done]. intros w3 Hdir3 Hother3. apply io_wp_ret. split_and!; [done|done|done|].
  apply (empty_opened _ _ (path_file_name (temp_path os (in_directory dir CONTROL_FILE)))); [done|done|done|by rewrite Hother3|].
  rewrite (disk_file_dir _ _ _ Hdir3). apply lookup_insert_eq.
Qed.
End disk.
End ops.
