(* ===== verification/RaftLogStore.v ===== *)
(** crates/runnel-raft/src/log_store.rs: the log that Raft reads and writes,
    kept in memory and on the disk. *)

From S2P Require Import Prelude Engine RecordFormat Names Paths Disk RaftLogFormat RaftLogSegments.

Local Open Scope N_scope.

Definition storage_error (verb : ErrorVerb) (error : IoError) : StorageError := 
  {| se_subject := SubjectLogs; se_verb := verb; se_error := error |}.

Definition io_other (message : string) : IoError := {| ie_kind := OtherIo; ie_message := message |}.
Definition invalid_input_error (message : string) : IoError := {| ie_kind := InvalidInput; ie_message := message |}.

(** [std::ops::Bound] *)
Inductive Bound := Included (n : N) | Excluded (n : N) | Unbounded.

Section log_store.
Context {E Vote : Type} {J : LogJson E Vote} (os : Os).

Inductive Persistence :=
| Memory
| Segmented (store : SegmentStore Vote).

Record LogStoreInner := {
  ls_last_purged_log_id : option LogId;
  ls_log : gmap N E;
  ls_committed : option LogId;
  ls_vote : option Vote;
  ls_persistence : Persistence;
  ls_poisoned : bool;
}.

Definition log_store_default : LogStoreInner :=
  {| ls_last_purged_log_id := None; ls_log := ∅; ls_committed := None; ls_vote := None; ls_persistence := Memory;
     ls_poisoned := false |}.

(** ** Opening *)

Definition unsupported_log_version (path : Path) (version : N) : StorageError :=
  storage_error VerbRead (invalid_data ("unsupported Raft-log format version " +:+ pretty version +:+ " in '"
    +:+ path_display path +:+ "' (supported version " +:+ pretty LOG_FORMAT_VERSION +:+ ")")).

(** A computation whose errors are reported under [verb]. *)
Definition with_verb {A} (verb : ErrorVerb) (m : Io A) : IoE StorageError A := io_map_err (storage_error verb) m.

Definition inner_of (opened : SegmentStore Vote * gmap N E * ControlState Vote) : LogStoreInner :=
  let '(store, log, control) := opened in
  {| ls_last_purged_log_id := cl_last_purged_log_id control; ls_log := log; ls_committed := cl_committed control;
     ls_vote := cl_vote control; ls_persistence := Segmented store; ls_poisoned := false |}.

Definition log_open (path : Path) : IoE StorageError LogStoreInner := fun w =>
  if bool_decide (is_Some (disk_file (w_disk w) path)) then
    match with_verb VerbRead (read_version os path) w with
    | (Err e, w) => (Err e, w)
    | (Ok version, w) =>
      if negb (version =? LOG_FORMAT_VERSION) then (Err (unsupported_log_version path version), w)
      else
        match with_verb VerbRead (store_open os path) w with
        | (Err e, w) => (Err e, w)
        | (Ok opened, w) => (Ok (inner_of opened), w)
        end
    end
  else
    let family := family_directory path in
    if bool_decide (is_Some (w_disk w !! family)) then
      (Err (storage_error VerbRead (invalid_data ("unselected Raft-log segment family '" +:+ family
              +:+ "' without marker '" +:+ path_display path +:+ "'"))), w)
    else
      match with_verb VerbWrite (initialize os path) w with
      | (Err e, w) => (Err e, w)
      | (Ok opened, w) => (Ok (inner_of opened), w)
      end.

Definition log_validate (path : Path) : IoE StorageError unit := fun w =>
  if negb (bool_decide (is_Some (disk_file (w_disk w) path))) then
    let family := family_directory path in
    if bool_decide (is_Some (w_disk w !! family)) then
      (Err (storage_error VerbRead (invalid_data ("unselected Raft-log segment family '" +:+ family +:+ "'"))), w)
    else (Ok tt, w)
  else
    match with_verb VerbRead (read_version os path) w with
    | (Err e, w) => (Err e, w)
    | (Ok version, w) =>
      if negb (version =? LOG_FORMAT_VERSION) then (Err (unsupported_log_version path version), w)
      else with_verb VerbRead (store_validate os path) w
    end.

(** ** State *)

Definition ensure_healthy (inner : LogStoreInner) : Result unit StorageError :=
  if ls_poisoned inner then
    Err (storage_error VerbWrite (io_other
      "Raft log store is unavailable after an ambiguous persistence failure; reopen it to recover"))
  else Ok tt.

Definition control_state (inner : LogStoreInner) : ControlState Vote :=
  let rest := match ls_persistence inner with Segmented store => sg_control store | Memory => control_default end in
  {| cl_generation := cl_generation rest; cl_truncation_pending_from := cl_truncation_pending_from rest;
     cl_last_purged_log_id := ls_last_purged_log_id inner; cl_committed := ls_committed inner; cl_vote := ls_vote inner |}.

Definition poison (inner : LogStoreInner) : LogStoreInner :=
  {| ls_last_purged_log_id := ls_last_purged_log_id inner; ls_log := ls_log inner; ls_committed := ls_committed inner;
     ls_vote := ls_vote inner; ls_persistence := ls_persistence inner; ls_poisoned := true |}.

Definition set_persistence (inner : LogStoreInner) (p : Persistence) : LogStoreInner :=
  {| ls_last_purged_log_id := ls_last_purged_log_id inner; ls_log := ls_log inner; ls_committed := ls_committed inner;
     ls_vote := ls_vote inner; ls_persistence := p; ls_poisoned := ls_poisoned inner |}.

Definition set_vote (inner : LogStoreInner) (vote : option Vote) : LogStoreInner :=
  {| ls_last_purged_log_id := ls_last_purged_log_id inner; ls_log := ls_log inner; ls_committed := ls_committed inner;
     ls_vote := vote; ls_persistence := ls_persistence inner; ls_poisoned := ls_poisoned inner |}.

Definition set_committed (inner : LogStoreInner) (committed : option LogId) : LogStoreInner :=
  {| ls_last_purged_log_id := ls_last_purged_log_id inner; ls_log := ls_log inner; ls_committed := committed;
     ls_vote := ls_vote inner; ls_persistence := ls_persistence inner; ls_poisoned := ls_poisoned inner |}.

Definition set_log (inner : LogStoreInner) (log : gmap N E) : LogStoreInner :=
  {| ls_last_purged_log_id := ls_last_purged_log_id inner; ls_log := log; ls_committed := ls_committed inner;
     ls_vote := ls_vote inner; ls_persistence := ls_persistence inner; ls_poisoned := ls_poisoned inner |}.

Definition set_purged (inner : LogStoreInner) (purged : option LogId) : LogStoreInner :=
  {| ls_last_purged_log_id := purged; ls_log := ls_log inner; ls_committed := ls_committed inner;
     ls_vote := ls_vote inner; ls_persistence := ls_persistence inner; ls_poisoned := ls_poisoned inner |}.

(** ** Reading *)

Definition from_bound (b : Bound) (n : N) : bool :=
  match b with Included m => m <=? n | Excluded m => m <? n | Unbounded => true end.

Definition to_bound (b : Bound) (n : N) : bool :=
  match b with Included m => n <=? m | Excluded m => n <? m | Unbounded => true end.

(** [BTreeMap::range] panics for a range whose start is after its end. *)
Definition range_panics (from to : Bound) : bool :=
  match from, to with
  | Unbounded, _ | _, Unbounded => false
  | Excluded a, Excluded b => b <=? a
  | Included a, (Included b | Excluded b) | Excluded a, Included b => b <? a
  end.

Definition try_get_log_entries (from to : Bound) (inner : LogStoreInner) : option (Result (list E) StorageError) :=
  match ensure_healthy inner with
  | Err e => Some (Err e)
  | Ok _ =>
    if range_panics from to then None
    else Some (Ok (snd <$> filter (fun item => from_bound from item.1 = true /\ to_bound to item.1 = true)
                             (btree_items (ls_log inner))))
  end.

(** openraft's [LogState]: the purge point and the last log id. *)
Definition get_log_state (inner : LogStoreInner) : Result (option LogId * option LogId) StorageError :=
  let? _ := ensure_healthy inner in
  let last_log_id :=
    match last (btree_values (ls_log inner)) with
    | Some entry => Some (entry_log_id entry)
    | None => ls_last_purged_log_id inner
    end in
  Ok (ls_last_purged_log_id inner, last_log_id).

Definition read_vote (inner : LogStoreInner) : Result (option Vote) StorageError :=
  let? _ := ensure_healthy inner in Ok (ls_vote inner).

Definition read_committed (inner : LogStoreInner) : Result (option LogId) StorageError :=
  let? _ := ensure_healthy inner in Ok (ls_committed inner).

(** ** Writing

    An operation gives its result, the state of the store and the world. A
    store whose write failed is poisoned; what the failed call left in its
    [SegmentStore] is not read again. *)

Definition Update (A : Type) : Type := LogStoreInner -> World -> Result A StorageError * LogStoreInner * World.

(** A write of the segment store, and what follows when it succeeds. *)
Definition on_store (m : Io (SegmentStore Vote)) (after : LogStoreInner -> LogStoreInner) : Update unit := fun inner w =>
  match m w with
  | (Ok store, w) => (Ok tt, after (set_persistence inner (Segmented store)), w)
  | (Err e, w) => (Err (storage_error VerbWrite e), poison inner, w)
  end.

Definition save_vote (vote : Vote) : Update unit := fun inner w =>
  match ensure_healthy inner with
  | Err e => (Err e, inner, w)
  | Ok _ =>
    let state := control_state (set_vote inner (Some vote)) in
    let after inner := set_vote inner (Some vote) in
    match ls_persistence inner with
    | Segmented store => on_store (persist_control os store state) after inner w
    | Memory => (Ok tt, after inner, w)
    end
  end.

Definition save_committed (committed : option LogId) : Update unit := fun inner w =>
  match ensure_healthy inner with
  | Err e => (Err e, inner, w)
  | Ok _ =>
    let state := control_state (set_committed inner committed) in
    let after inner := set_committed inner committed in
    match ls_persistence inner with
    | Segmented store => on_store (persist_control os store state) after inner w
    | Memory => (Ok tt, after inner, w)
    end
  end.

(** The loop over the entries of an append: each must have the next index. *)
Fixpoint append_entries (segmented : bool) (expected_index : option N) (entries : list E) :
  Result (list (E * N * list byte)) StorageError :=
  match entries with
  | [] => Ok []
  | entry :: entries =>
    match expected_index with
    | None => Err (storage_error VerbWrite (invalid_input_error "Raft-log index overflow"))
    | Some expected =>
      let index := entry_index entry in
      if negb (index =? expected) then
        Err (storage_error VerbWrite (invalid_input_error ("non-contiguous Raft-log append: expected index "
               +:+ pretty expected +:+ ", found " +:+ pretty index)))
      else
        let? encoded :=
          if segmented then
            match entry_to_json entry with
            | Some encoded => Ok encoded
            | None => Err (storage_error VerbWrite (io_other "serde_json error"))
            end
          else Ok [] in
        let? batch := append_entries segmented (u64_checked_add index 1) entries in
        Ok ((entry, index, encoded) :: batch)
    end
  end.

Definition next_expected (inner : LogStoreInner) : option N :=
  match last (btree_keys (ls_log inner)) with
  | Some index => u64_checked_add index 1
  | None =>
    match ls_last_purged_log_id inner with
    | Some log_id => u64_checked_add (li_index log_id) 1
    | None => Some 0
    end
  end.

Definition insert_batch (batch : list (E * N * list byte)) (inner : LogStoreInner) : LogStoreInner :=
  set_log inner (foldl (fun log '(entry, index, _) => <[index := entry]> log) (ls_log inner) batch).

(** The result also goes to the callback that openraft passes. *)
Definition log_append (entries : list E) : Update unit := fun inner w =>
  match ensure_healthy inner with
  | Err e => (Err e, inner, w)
  | Ok _ =>
    let segmented := match ls_persistence inner with Segmented _ => true | Memory => false end in
    match append_entries segmented (next_expected inner) entries with
    | Err e => (Err e, inner, w)
    | Ok batch =>
      match ls_persistence inner with
      | Segmented store =>
        let encoded := (fun '(_, index, bytes) => (index, bytes)) <$> batch in
        on_store (store_append os store (cl_generation (sg_control store)) encoded) (insert_batch batch) inner w
      | Memory => (Ok tt, insert_batch batch inner, w)
      end
    end
  end.

Definition retain (keep : N -> bool) (inner : LogStoreInner) : LogStoreInner :=
  set_log inner (filter (fun kv => keep kv.1 = true) (ls_log inner)).

Definition log_truncate (log_id : LogId) : Update unit := fun inner w =>
  match ensure_healthy inner with
  | Err e => (Err e, inner, w)
  | Ok _ =>
    let after := retain (fun index => index <? li_index log_id) in
    match ls_persistence inner with
    | Segmented store =>
      match u64_checked_add (cl_generation (sg_control store)) 1 with
      | None => (Err (storage_error VerbWrite (io_other "Raft-log generation exhausted")), inner, w)
      | Some generation => on_store (store_truncate os store (li_index log_id) generation) after inner w
      end
    | Memory => (Ok tt, after inner, w)
    end
  end.

Definition log_purge (log_id : LogId) : Update unit := fun inner w =>
  match ensure_healthy inner with
  | Err e => (Err e, inner, w)
  | Ok _ =>
    let after inner := retain (fun index => li_index log_id <? index) (set_purged inner (Some log_id)) in
    match ls_persistence inner with
    | Segmented store => on_store (store_purge os store (Some log_id)) after inner w
    | Memory => (Ok tt, after inner, w)
    end
  end.
End log_store.
