(* ===== verification/RaftLogGuarantees.v ===== *)
(** What the durable Raft log promises: after every operation that it
    acknowledged, and after any failure and restart, the log is what the
    operations say it is. *)

From S2P Require Import Prelude Engine RecordFormat Names Paths Disk RaftLogFormat RaftLogSegments RaftLogFiles RaftLogRecovery RaftLogSteps RaftLogTruncation RaftLogAppend RaftLogOps RaftLogStore.

Local Open Scope N_scope.

Section guarantees.
Context {E Vote : Type} {J : LogJson E Vote} {L : LogJsonLaws J}.

(** ** The log as Raft sees it *)

Record LogSpec := {
  lg_purged : option LogId;
  lg_entries : list E;
  lg_committed : option LogId;
  lg_vote : option Vote;
}.

Definition lg_empty : LogSpec := {| lg_purged := None; lg_entries := []; lg_committed := None; lg_vote := None |}.

Inductive LogOp :=
| OpVote (vote : Vote)
| OpCommitted (committed : option LogId)
| OpAppend (entries : list E)
| OpTruncate (log_id : LogId)
| OpPurge (log_id : LogId).

Definition with_entries (a : LogSpec) (es : list E) : LogSpec :=
  {| lg_purged := lg_purged a; lg_entries := es; lg_committed := lg_committed a; lg_vote := lg_vote a |}.

Definition lg_apply (a : LogSpec) (op : LogOp) : LogSpec :=
  match op with
  | OpVote vote => {| lg_purged := lg_purged a; lg_entries := lg_entries a; lg_committed := lg_committed a; lg_vote := Some vote |}
  | OpCommitted c => {| lg_purged := lg_purged a; lg_entries := lg_entries a; lg_committed := c; lg_vote := lg_vote a |}
  | OpAppend entries => with_entries a (lg_entries a ++ entries)
  | OpTruncate log_id => with_entries a (until (li_index log_id) (lg_entries a))
  | OpPurge log_id =>
    {| lg_purged := Some log_id; lg_entries := from (li_index log_id + 1) (lg_entries a); lg_committed := lg_committed a;
       lg_vote := lg_vote a |}
  end.

(** What Raft keeps to: it saves as committed an entry of the log, never takes
    back a committed entry, and never purges backwards. *)
Definition lg_allowed (a : LogSpec) (op : LogOp) : Prop :=
  match op with
  | OpVote _ | OpAppend _ => True
  | OpCommitted c => committed_ok (lg_purged a) c (lg_entries a)
  | OpTruncate log_id =>
    next_index (lg_purged a) <= li_index log_id /\
    committed_ok (lg_purged a) (lg_committed a) (until (li_index log_id) (lg_entries a))
  | OpPurge log_id => next_index (lg_purged a) <= li_index log_id + 1
  end.

(** What a failed operation may leave: the log as it was, or as it would be; of
    an append, any number of its entries. *)
Definition lg_failed (a : LogSpec) (op : LogOp) (a' : LogSpec) : Prop :=
  match op with
  | OpAppend entries => exists k, a' = lg_apply a (OpAppend (take k entries))
  | _ => a' = a \/ a' = lg_apply a op
  end.

(** ** The code *)

Section code.
Context (os : Os) (marker_path : Path).

Definition run_op (op : LogOp) : Update unit :=
  match op with
  | OpVote vote => save_vote os vote
  | OpCommitted committed => save_committed os committed
  | OpAppend entries => log_append os entries
  | OpTruncate log_id => log_truncate os log_id
  | OpPurge log_id => log_purge os log_id
  end.

Definition spec_of (st : ControlState Vote) (es : list E) : LogSpec :=
  {| lg_purged := cl_last_purged_log_id st; lg_entries := es; lg_committed := cl_committed st; lg_vote := cl_vote st |}.

(** The store in memory and on the disk is the log [a]. *)
Record serves (inner : LogStoreInner (E := E) (Vote := Vote)) (d : Disk) (a : LogSpec) : Prop := {
  sv_healthy : ls_poisoned inner = false;
  sv_purged : ls_last_purged_log_id inner = lg_purged a;
  sv_log : ls_log inner = log_map (lg_entries a);
  sv_committed : ls_committed inner = lg_committed a;
  sv_vote : ls_vote inner = lg_vote a;
  sv_store : exists store segs, ls_persistence inner = Segmented store /\ opened marker_path store d segs (lg_entries a) /\
    spec_of (sg_control store) (lg_entries a) = a /\ committed_within (sg_control store) (lg_entries a);
}.

(** The next start finds the log [a] on the disk. *)
Definition survives (a : LogSpec) (d : Disk) : Prop :=
  exists st, recoverable marker_path st (lg_entries a) d /\ spec_of st (lg_entries a) = a.

Lemma serves_survives inner d a : serves inner d a -> survives a d.
Proof.
  intros [_ _ _ _ _ (store & segs & _ & Hop & Hsp & Hc)]. exists (sg_control store). split; [|done]. by eapply opened_recoverable.
Qed.

(** ** The log in memory *)

Lemma on_store_wp {m : Io (SegmentStore Vote)} {after inner w Q F} :
  io_wp m Q F w ->
  match on_store m after inner w with
  | (Ok _, inner', w') => exists store, Q store w' /\ inner' = after (set_persistence inner (Segmented store))
  | (Err _, inner', w') => F (w_disk w') /\ inner' = poison (E := E) inner
  end.
Proof. unfold io_wp, on_store. destruct (m w) as [[store|e] w']; [|done]. intros HQ. by exists store. Qed.

Lemma retain_until i b (es : list E) :
  contiguous i es -> filter (fun kv => (kv.1 <? b) = true) (log_map es) = log_map (until b es).
Proof.
  intros Hc. assert (Hu : contiguous i (until b es)).
  { pose proof (remaining_cut (with_pending (Vote := Vote) control_default 0 (Some b)) i es Hc) as Hr. unfold remaining, before in Hr. cbn in Hr.
    assert (Hun : until b es = take (N.to_nat (b - i)) es).
    { rewrite <-Hr. apply filter_agree. intros e _. by rewrite N.ltb_lt. }
    rewrite Hun. by apply contiguous_take. }
  apply map_eq. intros k. apply option_eq. intros e.
  rewrite map_lookup_filter_Some, !(log_map_elem i) by done. cbn. unfold until. rewrite list_elem_of_filter, N.ltb_lt. naive_solver.
Qed.

Lemma retain_from i n (es : list E) :
  contiguous i es -> filter (fun kv => (n <? kv.1) = true) (log_map es) = log_map (from (n + 1) es).
Proof.
  intros Hc. assert (Hf : contiguous (i + N.of_nat (N.to_nat (n + 1 - i))) (from (n + 1) es)).
  { unfold from. rewrite (filter_from i) by done. by apply contiguous_drop. }
  apply map_eq. intros k. apply option_eq. intros e.
  rewrite map_lookup_filter_Some, (log_map_elem i), (log_map_elem _ _ _ _ Hf) by done. cbn. unfold from.
  rewrite list_elem_of_filter, N.ltb_lt. split; [intros [[? <-] ?]; split_and!; [lia|done|done]|intros [[? ?] <-]; split_and!; [done|done|lia]].
Qed.

(** The index that the next entry must have. *)
Definition expected (n : N) : option N := if n <=? u64_max then Some n else None.

Lemma expected_next n : n <= u64_max -> u64_checked_add n 1 = expected (n + 1).
Proof. done. Qed.

Lemma next_expected_spec inner d a : serves inner d a -> next_expected inner = expected (next_index (lg_purged a) + vec_len (lg_entries a)).
Proof.
  intros [_ Hp Hl _ _ (store & segs & _ & Hop & Hsp & _)]. unfold next_expected. rewrite Hp, Hl.
  pose proof (means_contiguous _ _ _ _ (op_means _ _ _ _ _ Hop)) as Hc.
  assert (Hpp : cl_last_purged_log_id (sg_control store) = lg_purged a) by (by rewrite <-Hsp). rewrite Hpp in Hc.
  change (last (btree_keys (log_map (lg_entries a)))) with (last_key (log_map (lg_entries a))). rewrite (last_key_spec _ _ Hc).
  destruct (last (lg_entries a)) as [e|] eqn:El; cbn [fmap option_fmap option_map].
  - rewrite last_lookup in El. rewrite (Hc _ _ El). apply lookup_lt_Some in El. unfold u64_checked_add, expected, vec_len.
    replace (next_index (lg_purged a) + N.of_nat (pred (length (lg_entries a))) + 1)
      with (next_index (lg_purged a) + N.of_nat (length (lg_entries a))) by lia. done.
  - apply last_None in El. rewrite El. change (vec_len []) with 0. rewrite N.add_0_r. by destruct (lg_purged a).
Qed.

Definition batch_of (entries : list E) : list (E * N * list byte) := (fun e => (e, entry_index e, entry_json e)) <$> entries.

Lemma append_entries_inv n entries batch :
  append_entries true (expected n) entries = Ok batch -> contiguous n entries /\ batch = batch_of entries.
Proof.
  revert n batch; induction entries as [|e entries IH]; intros n batch; cbn [append_entries].
  { intros [= <-]. split; [apply contiguous_nil|done]. }
  unfold expected. destruct (N.leb_spec n u64_max) as [Hn|]; [|done].
  destruct (N.eqb_spec (entry_index e) n) as [He|]; [|done]. cbn [negb]. rewrite entry_to_json_eq.
  rewrite He, expected_next by done. destruct (append_entries true (expected (n + 1)) entries) as [rest|] eqn:Er; [|done].
  intros [= <-]. apply IH in Er as [Hc ->]. split; [by apply contiguous_cons|]. unfold batch_of. cbn. by rewrite He.
Qed.

Lemma append_entries_total n entries : contiguous n entries -> append_entries true (expected n) entries = Ok (batch_of entries).
Proof.
  revert n; induction entries as [|e entries IH]; intros n; [done|]. intros [He Hc]%contiguous_cons. cbn [append_entries].
  pose proof (entry_index_u64 e) as Hu. change (li_index (entry_log_id e)) with (entry_index e) in Hu.
  unfold expected at 1. rewrite (proj2 (N.leb_le n u64_max)) by lia. rewrite He, N.eqb_refl. cbn [negb]. rewrite entry_to_json_eq.
  rewrite expected_next by lia. rewrite IH by done. unfold batch_of. cbn. by rewrite He.
Qed.

Lemma insert_batch_log entries (es : list E) :
  foldl (fun log '(entry, index, _) => <[index := entry]> log) (log_map es) (batch_of entries) = log_map (es ++ entries).
Proof.
  unfold log_map. rewrite foldl_app. unfold batch_of. generalize (foldl (fun m e => <[entry_index e := e]> m) (∅ : gmap N E) es).
  induction entries as [|e entries IH]; intros m; [done|]. cbn. apply IH.
Qed.

Lemma batch_encoded entries : (fun '(_, index, bytes) => (index, bytes)) <$> batch_of entries = encoded entries.
Proof. unfold batch_of, encoded. by rewrite <-list_fmap_compose. Qed.

(** ** Each operation *)

Section operations.
Context (Hpid : os_pid os <= u32_max) (Hlist : lists_files os).

(** What is refused: an append that leaves a gap, and a truncation when the
    generations are used up. *)
Definition refused (inner : LogStoreInner (E := E) (Vote := Vote)) (a : LogSpec) (op : LogOp) : Prop :=
  match op with
  | OpAppend entries => ~ contiguous (next_index (lg_purged a) + vec_len (lg_entries a)) entries
  | OpTruncate _ => u64_max <= cl_generation (control_state inner)
  | _ => False
  end.

Definition oversized (op : LogOp) : Prop := match op with OpAppend entries => ~ Forall small entries | _ => False end.

(** An operation succeeds and does what it says, or is refused and does
    nothing, or fails and poisons the store. *)
Definition op_outcome (a : LogSpec) (op : LogOp) (inner : LogStoreInner) (r : Result unit StorageError * LogStoreInner * World) : Prop :=
  match r with
  | (Ok _, inner', w') => serves inner' (w_disk w') (lg_apply a op)
  | (Err _, inner', w') =>
    (refused inner a op /\ serves inner' (w_disk w') a) \/
    ((faulty os \/ oversized op) /\ ls_poisoned inner' = true /\ exists a', lg_failed a op a' /\ survives a' (w_disk w'))
  end.

Lemma healthy inner d a : serves inner d a -> ensure_healthy inner = Ok tt.
Proof. intros [Hh _ _ _ _ _]. unfold ensure_healthy. by rewrite Hh. Qed.

Lemma survives_intro st es d a : recoverable marker_path st es d -> spec_of st es = a -> survives a d.
Proof. intros Hr <-. exists st. by split. Qed.

(** A new control state that says what the operation does. *)
Lemma run_control inner w a op store segs st after :
  serves inner (w_disk w) a -> ls_persistence inner = Segmented store -> opened marker_path store (w_disk w) segs (lg_entries a) ->
  spec_of (sg_control store) (lg_entries a) = a -> committed_within (sg_control store) (lg_entries a) ->
  st = control_state (after inner) -> cl_last_purged_log_id st = lg_purged a ->
  committed_ok (lg_purged a) (cl_committed st) (lg_entries a) ->
  (forall p, after (set_persistence inner p) = set_persistence (after inner) p) ->
  ls_poisoned (after inner) = false -> ls_log (after inner) = ls_log inner -> ls_persistence (after inner) = Segmented store ->
  spec_of st (lg_entries a) = lg_apply a op -> lg_failed a op a -> lg_failed a op (lg_apply a op) ->
  op_outcome a op inner (on_store (persist_control os store st) after inner w).
Proof.
  intros Hsv Hst Hop Hsp Hcw Est Hpur Hcom Hafter Hh Hlog Hst' Hspec Hf1 Hf2.
  assert (Hp0 : cl_last_purged_log_id (sg_control store) = lg_purged a) by (by rewrite <-Hsp).
  assert (Hcw' : committed_within st (lg_entries a)) by (unfold committed_within; by rewrite Hpur).
  assert (Hent : lg_entries (lg_apply a op) = lg_entries a) by (by rewrite <-Hspec).
  assert (Hgen : cl_generation st = cl_generation (sg_control store)) by (rewrite Est; unfold control_state; by rewrite Hst').
  assert (Hpen : cl_truncation_pending_from st = None) by (rewrite Est; unfold control_state; rewrite Hst'; apply Hop).
  pose proof (on_store_wp (after := after) (inner := inner)
    (wp_store_control os Hpid marker_path store segs (lg_entries a) st w Hop Hcw Hcw' Hgen Hpen ltac:(by rewrite Hp0))) as Hwp.
  unfold op_outcome. destruct (on_store _ after inner w) as [[[[]|e] inner'] w'].
  - destruct Hwp as (store' & [Hst2 [segs' Hop']] & ->). rewrite Hafter. split; cbn.
    + done.
    + rewrite <-Hspec, Est. done.
    + by rewrite Hent, Hlog, (sv_log _ _ _ Hsv).
    + rewrite <-Hspec, Est. done.
    + rewrite <-Hspec, Est. done.
    + exists store', segs'. rewrite Hent, Hst2. done.
  - destruct Hwp as [[Hf [Hr|Hr]] ->]; right; (split; [by left|]); (split; [done|]).
    + exists a. split; [done|]. by eapply survives_intro.
    + exists (lg_apply a op). split; [done|]. by eapply survives_intro.
Qed.

Lemma run_vote inner w a vote : serves inner (w_disk w) a -> op_outcome a (OpVote vote) inner (save_vote os vote inner w).
Proof.
  intros Hsv. unfold save_vote. rewrite (healthy _ _ _ Hsv). pose proof Hsv as [Hh Hp Hl Hc Hv (store & segs & Hst & Hop & Hsp & Hcw)].
  rewrite Hst. eapply run_control; try done.
  - cbn. rewrite Hc. unfold committed_within in Hcw. by rewrite <-Hsp.
  - unfold spec_of. cbn. by rewrite Hp, Hc.
  - by left.
  - by right.
Qed.

Lemma run_committed inner w a c :
  serves inner (w_disk w) a -> lg_allowed a (OpCommitted c) -> op_outcome a (OpCommitted c) inner (save_committed os c inner w).
Proof.
  intros Hsv Hal. unfold save_committed. rewrite (healthy _ _ _ Hsv).
  pose proof Hsv as [Hh Hp Hl Hc Hv (store & segs & Hst & Hop & Hsp & Hcw)]. rewrite Hst. eapply run_control; try done.
  - unfold spec_of. cbn. by rewrite Hp, Hv.
  - by left.
  - by right.
Qed.

Lemma spec_of_entries st es a : spec_of st (lg_entries a) = a -> spec_of st es = with_entries a es.
Proof. intros H. unfold with_entries. by rewrite <-H. Qed.

(** A committed entry stays in a log that grows. *)
Lemma committed_grows st (es es' : list E) : committed_within st es -> committed_within st (es ++ es').
Proof.
  intros Hc c Ec. destruct (Hc c Ec) as [(e & He & Hid)|]; [|by right]. left. exists e. split; [|done]. apply elem_of_app. by left.
Qed.

Lemma run_append inner w a entries : serves inner (w_disk w) a -> op_outcome a (OpAppend entries) inner (log_append os entries inner w).
Proof.
  intros Hsv. unfold log_append. rewrite (healthy _ _ _ Hsv), (next_expected_spec _ _ _ Hsv).
  pose proof Hsv as [Hh Hp Hl Hc Hv (store & segs & Hst & Hop & Hsp & Hcw)]. rewrite Hst.
  destruct (append_entries true _ entries) as [batch|e] eqn:Ee.
  2: { left. split; [|done]. intros Hcon. by rewrite append_entries_total in Ee. }
  apply append_entries_inv in Ee as [Hcon ->].
  rewrite batch_encoded. assert (Hp0 : cl_last_purged_log_id (sg_control store) = lg_purged a) by (by rewrite <-Hsp).
  rewrite <-Hp0 in Hcon.
  pose proof (on_store_wp (after := insert_batch (batch_of entries)) (inner := inner)
    (wp_store_append os marker_path store segs (lg_entries a) entries w Hop Hpid Hcon)) as Hwp.
  unfold op_outcome. destruct (on_store _ _ inner w) as [[[[]|e] inner'] w'].
  - destruct Hwp as (store' & [Hst2 [segs' Hop']] & ->). split; try done.
    + cbn. by rewrite Hl, insert_batch_log.
    + exists store', segs'. rewrite Hst2. split_and!; [done|done|by apply spec_of_entries|by apply committed_grows].
  - destruct Hwp as [[Hf [k Hk]] ->]. right. split; [done|]. split; [done|]. exists (lg_apply a (OpAppend (take k entries))). split; [by exists k|].
    eapply survives_intro; [split; [exact Hk|by apply committed_grows]|by apply spec_of_entries].
Qed.

Lemma run_truncate inner w a log_id :
  serves inner (w_disk w) a -> lg_allowed a (OpTruncate log_id) -> op_outcome a (OpTruncate log_id) inner (log_truncate os log_id inner w).
Proof.
  intros Hsv [Hb Hcb]. unfold log_truncate. rewrite (healthy _ _ _ Hsv).
  pose proof Hsv as [Hh Hp Hl Hc Hv (store & segs & Hst & Hop & Hsp & Hcw)]. rewrite Hst.
  assert (Hp0 : cl_last_purged_log_id (sg_control store) = lg_purged a) by (by rewrite <-Hsp).
  assert (Hc0 : cl_committed (sg_control store) = lg_committed a) by (by rewrite <-Hsp).
  assert (Hcut : committed_within (sg_control store) (until (li_index log_id) (lg_entries a))) by (unfold committed_within; by rewrite Hp0, Hc0).
  unfold u64_checked_add. destruct (N.leb_spec (cl_generation (sg_control store) + 1) u64_max) as [Hg|Hg].
  2: { left. split; [|done]. unfold refused, control_state. rewrite Hst. cbn. lia. }
  pose proof (on_store_wp (after := retain (fun index => index <? li_index log_id)) (inner := inner)
    (wp_store_truncate os Hpid Hlist marker_path store segs (lg_entries a) (li_index log_id) w Hop Hcw ltac:(by rewrite Hp0) Hcut Hg)) as Hwp.
  unfold op_outcome. destruct (on_store _ _ inner w) as [[[[]|e] inner'] w'].
  - destruct Hwp as (store' & [Hst2 [segs' Hop']] & ->). split; try done.
    + cbn. rewrite Hl. eapply retain_until, means_contiguous, Hop.
    + exists store', segs'. rewrite Hst2. split_and!; [done|done|by apply (spec_of_entries (sg_control store))|done].
  - destruct Hwp as [[Hf [Hr|[pending Hr]]] ->]; right; (split; [by left|]); (split; [done|]).
    + exists a. split; [by left|]. by eapply survives_intro.
    + exists (lg_apply a (OpTruncate log_id)). split; [by right|]. eapply survives_intro; [done|]. by apply (spec_of_entries (sg_control store)).
Qed.

Lemma run_purge inner w a log_id :
  serves inner (w_disk w) a -> lg_allowed a (OpPurge log_id) -> op_outcome a (OpPurge log_id) inner (log_purge os log_id inner w).
Proof.
  intros Hsv Hal. cbn in Hal. unfold log_purge. rewrite (healthy _ _ _ Hsv).
  pose proof Hsv as [Hh Hp Hl Hc Hv (store & segs & Hst & Hop & Hsp & Hcw)]. rewrite Hst.
  assert (Hp0 : cl_last_purged_log_id (sg_control store) = lg_purged a) by (by rewrite <-Hsp). rewrite <-Hp0 in Hal.
  pose proof (on_store_wp (after := fun inner => retain (fun index => li_index log_id <? index) (set_purged inner (Some log_id))) (inner := inner)
    (wp_store_purge os Hpid Hlist marker_path store segs (lg_entries a) log_id w Hop Hcw Hal)) as Hwp.
  assert (Hspec : spec_of (with_purged (sg_control store) (Some log_id)) (from (li_index log_id + 1) (lg_entries a)) = lg_apply a (OpPurge log_id)).
  { cbn. by rewrite <-Hsp. }
  unfold op_outcome. destruct (on_store _ _ inner w) as [[[[]|e] inner'] w'].
  - destruct Hwp as (store' & [Hst2 [segs' Hop']] & ->). split; try done.
    + cbn. rewrite Hl. eapply retain_from, means_contiguous, Hop.
    + exists store', segs'. rewrite Hst2. split_and!; [done|done|done|]. by eapply committed_purged.
  - destruct Hwp as [[Hf [Hr|Hr]] ->]; right; (split; [by left|]); (split; [done|]).
    + exists a. split; [by left|]. by eapply survives_intro.
    + exists (lg_apply a (OpPurge log_id)). split; [by right|]. by eapply survives_intro.
Qed.

Lemma run_op_outcome inner w a op : serves inner (w_disk w) a -> lg_allowed a op -> op_outcome a op inner (run_op op inner w).
Proof.
  intros Hsv Hal. destruct op; cbn [run_op];
    [by apply run_vote|by apply run_committed|by apply run_append|by apply run_truncate|by apply run_purge].
Qed.

(** ** Opening *)

Lemma spec_settled st (es : list E) : spec_of (settled st) es = spec_of st es.
Proof. done. Qed.

Lemma serves_opened store segs d es log :
  opened marker_path store d segs es -> committed_within (sg_control store) es -> log = log_map es ->
  serves (inner_of (store, log, sg_control store)) d (spec_of (sg_control store) es).
Proof. intros Hop Hc ->. split; try done. by exists store, segs. Qed.

Lemma survives_marker a d : survives a d -> exists files, at_dir marker_path d files.
Proof. intros (st & [(segs & torn & (files & Hd & _) & _) _] & _). by exists files. Qed.

Lemma open_survivor w a :
  survives a (w_disk w) ->
  match log_open os marker_path w with
  | (Ok inner, w') => serves inner (w_disk w') a
  | (Err _, w') => faulty os /\ survives a (w_disk w')
  end.
Proof.
  intros Hsv. destruct (survives_marker _ _ Hsv) as [files Hd]. unfold log_open. rewrite (ad_marker _ _ _ Hd).
  rewrite bool_decide_eq_true_2 by done. pose proof (reads_version os marker_path w files Hd) as Hv. unfold reads, io_wp in Hv.
  unfold with_verb, io_map_err. destruct (read_version os marker_path w) as [[v|e] w1]; [|by destruct Hv as [? ->]].
  destruct Hv as [-> Hw1]. rewrite N.eqb_refl. cbn [negb]. destruct Hsv as (st & Hr & Hsp). rewrite <-Hw1 in Hr.
  pose proof (wp_store_open os Hpid Hlist marker_path st (lg_entries a) w1 Hr) as Ho. unfold io_wp in Ho.
  destruct (store_open os marker_path w1) as [[[[store log] control]|e] w2].
  - destruct Ho as (-> & Hst & -> & segs & Hop). rewrite <-Hsp, <-spec_settled, <-Hst. eapply serves_opened; [done| |done].
    rewrite Hst. apply Hr.
  - destruct Ho as [Hf (st' & Hst & Hr')]. split; [done|]. exists st'. split; [done|]. by rewrite <-spec_settled, Hst, spec_settled.
Qed.

Lemma open_fresh w :
  disk_file (w_disk w) marker_path = None -> w_disk w !! family_directory marker_path = None ->
  match log_open os marker_path w with
  | (Ok inner, w') => serves inner (w_disk w') lg_empty
  | (Err _, w') => faulty os
  end.
Proof.
  intros Hm Hd. unfold log_open. rewrite Hm, Hd, !bool_decide_eq_false_2 by (by intros [? ?]).
  pose proof (wp_initialize os marker_path w Hd) as Hi. unfold io_wp in Hi. unfold with_verb, io_map_err.
  destruct (initialize os marker_path w) as [[[[store log] control]|e] w1]; [|done].
  destruct Hi as (-> & Hst & -> & Hop). rewrite <-Hst. change lg_empty with (spec_of (@control_default Vote) []). rewrite <-Hst.
  eapply serves_opened; [done| |done]. rewrite Hst. by intros c.
Qed.

(** ** Reading *)

(** What Raft reads of a store. *)
Definition observe (inner : LogStoreInner) : option LogSpec :=
  match try_get_log_entries Unbounded Unbounded inner, get_log_state inner, read_committed inner, read_vote inner with
  | Some (Ok entries), Ok (purged, _), Ok committed, Ok vote =>
    Some {| lg_purged := purged; lg_entries := entries; lg_committed := committed; lg_vote := vote |}
  | _, _, _, _ => None
  end.

Lemma serves_items inner d a : serves inner d a -> btree_items (ls_log inner) = (fun e => (entry_index e, e)) <$> lg_entries a.
Proof.
  intros [_ _ Hl _ _ (store & segs & _ & Hop & _)]. rewrite Hl. eapply log_map_items, means_contiguous, Hop.
Qed.

Definition in_range (lo hi : Bound) (e : E) : Prop := from_bound lo (entry_index e) = true /\ to_bound hi (entry_index e) = true.

#[local] Instance in_range_dec lo hi e : Decision (in_range lo hi e).
Proof. unfold in_range. apply _. Defined.

Lemma read_range inner d a lo hi :
  serves inner d a -> range_panics lo hi = false ->
  try_get_log_entries lo hi inner = Some (Ok (filter (in_range lo hi) (lg_entries a))).
Proof.
  intros Hsv Hr. unfold try_get_log_entries. rewrite (healthy _ _ _ Hsv), Hr, (serves_items _ _ _ Hsv). do 2 f_equal.
  induction (lg_entries a) as [|e es IH]; [done|]. cbn [fmap list_fmap]. rewrite !filter_cons. cbn.
  repeat case_decide; try (unfold in_range in *; tauto); cbn; by rewrite IH.
Qed.

Lemma read_state inner d a :
  serves inner d a ->
  get_log_state inner = Ok (lg_purged a, match last (lg_entries a) with Some e => Some (entry_log_id e) | None => lg_purged a end).
Proof.
  intros Hsv. unfold get_log_state. rewrite (healthy _ _ _ Hsv). cbn. unfold btree_values. rewrite (serves_items _ _ _ Hsv).
  rewrite <-list_fmap_compose, (sv_purged _ _ _ Hsv). do 2 f_equal. change (snd ∘ (fun e => (entry_index e, e))) with (@id E).
  by rewrite list_fmap_id.
Qed.

Lemma observe_serves inner d a : serves inner d a -> observe inner = Some a.
Proof.
  intros Hsv. unfold observe. rewrite (read_range _ _ _ _ _ Hsv) by done. rewrite (read_state _ _ _ Hsv).
  unfold read_committed, read_vote. rewrite (healthy _ _ _ Hsv). cbn. rewrite (sv_committed _ _ _ Hsv), (sv_vote _ _ _ Hsv).
  rewrite filter_all by done. by destruct a.
Qed.
End operations.

(** ** Histories

    A process that uses the log, fails and is started again. *)

Record Session := {
  ss_store : option (LogStoreInner (E := E) (Vote := Vote));
  ss_world : World;
}.

Inductive LogEvent :=
| EvOp (op : LogOp)
| EvRestart.

Inductive Outcome :=
| Done
| Failed
| Found (log : option LogSpec).

Definition session_step (s : Session) (ev : LogEvent) : Outcome * Session :=
  match ev, ss_store s with
  | EvOp op, Some inner =>
    match run_op op inner (ss_world s) with
    | (Ok _, inner, w) => (Done, {| ss_store := Some inner; ss_world := w |})
    | (Err _, inner, w) => (Failed, {| ss_store := Some inner; ss_world := w |})
    end
  | EvOp _, None => (Failed, s)
  | EvRestart, _ =>
    match log_open os marker_path (ss_world s) with
    | (Ok inner, w) => (Found (observe inner), {| ss_store := Some inner; ss_world := w |})
    | (Err _, w) => (Failed, {| ss_store := None; ss_world := w |})
    end
  end.

Fixpoint session_run (s : Session) (evs : list LogEvent) : list Outcome * Session :=
  match evs with
  | [] => ([], s)
  | ev :: evs =>
    let '(out, s) := session_step s ev in
    let '(outs, s) := session_run s evs in (out :: outs, s)
  end.

(** What a log may do: the log, and whether it is in use. *)
Inductive log_step : LogSpec * bool -> LogEvent -> Outcome -> LogSpec * bool -> Prop :=
| step_done a op : log_step (a, true) (EvOp op) Done (lg_apply a op, true)
| step_refused a op : log_step (a, true) (EvOp op) Failed (a, true)
| step_failed a op a' : lg_failed a op a' -> log_step (a, true) (EvOp op) Failed (a', false)
| step_down a op : log_step (a, false) (EvOp op) Failed (a, false)
| step_found a up : log_step (a, up) EvRestart (Found (Some a)) (a, true)
| step_lost a up : log_step (a, up) EvRestart Failed (a, false).

Inductive log_steps : LogSpec * bool -> list LogEvent -> list Outcome -> LogSpec * bool -> Prop :=
| steps_nil x : log_steps x [] [] x
| steps_cons x ev out y evs outs z : log_step x ev out y -> log_steps y evs outs z -> log_steps x (ev :: evs) (out :: outs) z.

(** Raft keeps to its side in every log that the outcomes so far allow. *)
Fixpoint keeps_protocol (x : LogSpec * bool) (evs : list LogEvent) (outs : list Outcome) : Prop :=
  match evs, outs with
  | ev :: evs, out :: outs =>
    match ev with EvOp op => x.2 = true -> lg_allowed x.1 op | EvRestart => True end /\
    forall y, log_step x ev out y -> keeps_protocol y evs outs
  | _, _ => True
  end.

Definition tracks (s : Session) (x : LogSpec * bool) : Prop :=
  if x.2 then exists inner, ss_store s = Some inner /\ serves inner (w_disk (ss_world s)) x.1
  else match ss_store s with Some inner => ls_poisoned inner = true | None => True end /\ survives x.1 (w_disk (ss_world s)).

Lemma tracks_survives s x : tracks s x -> survives x.1 (w_disk (ss_world s)).
Proof. unfold tracks. destruct x as [a [|]]; cbn; [intros (inner & _ & Hsv); by eapply serves_survives|by intros [_ ?]]. Qed.

Lemma poisoned_refuses op inner w : ls_poisoned inner = true -> exists e, run_op op inner w = (Err e, inner, w).
Proof.
  intros Hp. destruct op; cbn [run_op];
    unfold save_vote, save_committed, log_append, log_truncate, log_purge, ensure_healthy; rewrite Hp; by eexists.
Qed.

Section histories.
Context (Hpid : os_pid os <= u32_max) (Hlist : lists_files os).

Lemma step_tracks s x ev out s' :
  tracks s x -> match ev with EvOp op => x.2 = true -> lg_allowed x.1 op | EvRestart => True end ->
  session_step s ev = (out, s') -> exists y, log_step x ev out y /\ tracks s' y.
Proof.
  intros Htr Hal Hst. destruct ev as [op|].
  - destruct x as [a [|]]; cbn in Hal.
    + destruct Htr as (inner & Hin & Hsv). cbn in Hsv. unfold session_step in Hst. rewrite Hin in Hst.
      pose proof (run_op_outcome Hpid Hlist inner (ss_world s) a op Hsv (Hal eq_refl)) as Ho. unfold op_outcome in Ho.
      destruct (run_op op inner (ss_world s)) as [[[[]|e] inner'] w']; injection Hst as <- <-.
      * exists (lg_apply a op, true). split; [constructor|]. by exists inner'.
      * destruct Ho as [[_ Hsv']|(_ & Hpo & a' & Hf & Hsu)].
        -- exists (a, true). split; [constructor|]. by exists inner'.
        -- exists (a', false). split; [by constructor|]. done.
    + exists (a, false). unfold session_step in Hst. destruct Htr as [Hpo Hsu]. destruct (ss_store s) as [inner|] eqn:Es.
      * destruct (poisoned_refuses op inner (ss_world s) Hpo) as [e He]. rewrite He in Hst. injection Hst as <- <-.
        split; [constructor|]. by split.
      * injection Hst as <- <-. split; [constructor|]. split; [by rewrite Es|done].
  - pose proof (open_survivor Hpid Hlist (ss_world s) x.1 (tracks_survives _ _ Htr)) as Ho. unfold session_step in Hst.
    assert (Hst' : match log_open os marker_path (ss_world s) with
      | (Ok inner, w) => (Found (observe inner), {| ss_store := Some inner; ss_world := w |})
      | (Err _, w) => (Failed, {| ss_store := None; ss_world := w |}) end = (out, s')) by (by destruct (ss_store s)).
    clear Hst. destruct x as [a up]. destruct (log_open os marker_path (ss_world s)) as [[inner|e] w']; injection Hst' as <- <-.
    + exists (a, true). rewrite (observe_serves _ _ _ Ho). split; [constructor|]. by exists inner.
    + exists (a, false). split; [constructor|]. by destruct Ho.
Qed.

Lemma run_tracks evs s x outs s' :
  tracks s x -> session_run s evs = (outs, s') -> keeps_protocol x evs outs -> exists y, log_steps x evs outs y /\ tracks s' y.
Proof.
  revert s x outs; induction evs as [|ev evs IH]; intros s x outs Htr; cbn [session_run].
  { intros [= <- <-] _. exists x. split; [constructor|done]. }
  destruct (session_step s ev) as [out s1] eqn:E1. destruct (session_run s1 evs) as [outs1 s2] eqn:E2. intros [= <- <-].
  intros [Hal Hk]. destruct (step_tracks s x ev out s1 Htr Hal E1) as (y & Hy & Htr1).
  destruct (IH s1 y outs1 Htr1 E2 (Hk y Hy)) as (z & Hz & Htr2). exists z. split; [by econstructor|done].
Qed.
End histories.
End code.

(** ** Guarantees *)

Definition fault_free (os : Os) : Prop := forall n, os_fault os n = None.

Lemma fault_free_not_faulty os : fault_free os -> ~ faulty os.
Proof. intros Hf (n & fault & Hn). by rewrite Hf in Hn. Qed.

Section theorems.
Context (os : Os) (marker_path : Path) (Hpid : os_pid os <= u32_max) (Hlist : lists_files os).

(** A log is created, and then used, broken and restarted in any way. *)
Context (w w1 : World) (inner : LogStoreInner (E := E) (Vote := Vote)).
Context (Hmarker : disk_file (w_disk w) marker_path = None) (Hfamily : w_disk w !! family_directory marker_path = None).
Context (Hopen : log_open os marker_path w = (Ok inner, w1)).

Lemma created_tracks : tracks marker_path {| ss_store := Some inner; ss_world := w1 |} (lg_empty, true).
Proof. pose proof (open_fresh os marker_path w Hmarker Hfamily) as Ho. rewrite Hopen in Ho. by exists inner. Qed.

(** C13: The outcomes of every history are those of the log of [LogSpec]: what was
    acknowledged is there after every restart, a refused operation did nothing,
    and one that failed half way left the log as it was, or as it would have
    been, or with some of the appended entries. What can be read is that log. *)
Theorem raft_log_refines evs outs s :
  session_run os marker_path {| ss_store := Some inner; ss_world := w1 |} evs = (outs, s) ->
  keeps_protocol (lg_empty, true) evs outs ->
  exists y, log_steps (lg_empty, true) evs outs y /\
    (y.2 = true -> exists inner', ss_store s = Some inner' /\ observe inner' = Some y.1).
Proof.
  intros Hr Hk. destruct (run_tracks os marker_path Hpid Hlist _ _ _ _ _ created_tracks Hr Hk) as ([a up] & Hy & Htr).
  exists (a, up). split; [done|]. cbn. intros ->. destruct Htr as (inner' & Hin & Hsv). exists inner'. split; [done|].
  by eapply observe_serves.
Qed.

(** C14: However it went, a start whose operations do not fail finds the log. *)
Theorem raft_log_recovers evs outs s os' :
  session_run os marker_path {| ss_store := Some inner; ss_world := w1 |} evs = (outs, s) ->
  keeps_protocol (lg_empty, true) evs outs -> os_pid os' <= u32_max -> lists_files os' -> fault_free os' ->
  exists y inner' w', log_steps (lg_empty, true) evs outs y /\
    log_open os' marker_path (ss_world s) = (Ok inner', w') /\ observe inner' = Some y.1.
Proof.
  intros Hr Hk Hpid' Hlist' Hff. destruct (run_tracks os marker_path Hpid Hlist _ _ _ _ _ created_tracks Hr Hk) as (y & Hy & Htr).
  pose proof (open_survivor os' marker_path Hpid' Hlist' (ss_world s) y.1 (tracks_survives _ _ _ Htr)) as Ho.
  destruct (log_open os' marker_path (ss_world s)) as [[inner'|e] w']; [|by destruct Ho as [?%fault_free_not_faulty _]].
  exists y, inner', w'. split_and!; [done|done|]. by eapply observe_serves.
Qed.
End theorems.

(** C29: Without faults an operation that is not refused does exactly what it says. *)
Theorem raft_log_accepts os marker_path inner w a op :
  os_pid os <= u32_max -> lists_files os -> fault_free os -> serves marker_path inner (w_disk w) a ->
  lg_allowed a op -> ~ refused inner a op -> ~ oversized op ->
  exists inner' w', run_op os op inner w = (Ok tt, inner', w') /\ serves marker_path inner' (w_disk w') (lg_apply a op) /\
    observe inner' = Some (lg_apply a op).
Proof.
  intros Hpid Hlist Hff Hsv Hal Hnr Hno. pose proof (run_op_outcome os marker_path Hpid Hlist inner w a op Hsv Hal) as Ho.
  unfold op_outcome in Ho. destruct (run_op os op inner w) as [[[[]|e] inner'] w'].
  - exists inner', w'. split_and!; [done|done|]. by eapply observe_serves.
  - destruct Ho as [[? _]|[[?%fault_free_not_faulty|?] _]]; done.
Qed.

Lemma encode_frame_inv g (es : list E) frame :
  es <> [] -> encode_frame g (first_index es) (encoded es) = Ok frame -> 44 + vec_len (payload_bytes es) <= u64_max ->
  fits es /\ frame = frame_bytes g es.
Proof.
  intros Hne He Hl. assert (Hf : fits es).
  { unfold encode_frame, u32_try_from in He. rewrite vec_len_encoded in He. destruct (N.leb_spec (vec_len es) u32_max); [|done].
    destruct (encode_entries (first_index es) 0 (encoded es)) as [payload|] eqn:Ee; [|done].
    apply encode_entries_inv in Ee as (_ & Hc & Hs). rewrite N.add_0_r in Hc. by split. }
  split; [done|]. rewrite encode_frame_fits in He by done. by injection He as <-.
Qed.

Lemma frames_written (batches : list (N * list E)) frames :
  Forall (fun b => b.1 <= u64_max /\ b.2 <> []) batches ->
  Forall2 (fun b frame => encode_frame b.1 (first_index b.2) (encoded b.2) = Ok frame) batches frames ->
  (forall b, b ∈ batches -> 44 + vec_len (payload_bytes b.2) <= u64_max) ->
  Forall (fun b => b.1 <= u64_max /\ fits b.2) batches /\ concat frames = frames_bytes batches.
Proof.
  intros Hb Hf Hl. induction Hf as [|b frame batches frames He Hf IH]; [done|]. apply Forall_cons in Hb as [[Hg Hne] Hb].
  destruct IH as [IHf IHc]; [done|intros b' Hin; apply Hl; by right|].
  destruct (encode_frame_inv _ _ _ Hne He) as [Hfit ->]; [apply Hl; by left|]. split; [by constructor|].
  cbn [concat]. by rewrite IHc.
Qed.

(** C27: What was written is read back: the entries of every batch in order, and of
    a batch that was cut off nothing, but that it was cut off. *)
Theorem segment_roundtrip directory start (batches : list (N * list E)) frames torn :
  start <= u64_max -> batches <> [] -> contiguous start (concat batches.*2) ->
  44 + vec_len (payload_bytes (concat batches.*2)) <= u64_max -> vec_len (concat batches.*2) <= u32_max ->
  Forall (fun b => b.1 <= u64_max /\ b.2 <> []) batches ->
  Forall2 (fun b frame => encode_frame b.1 (first_index b.2) (encoded b.2) = Ok frame) batches frames ->
  torn_batch torn ->
  parse_segment (E := E) (in_directory directory (segment_file_name start)) (@control_default Vote)
    (segment_header start ++ concat frames ++ torn) start =
  Ok {| rg_name := segment_file_name start; rg_start_index := start;
        rg_records := concat ((fun b => records b.1 b.2) <$> batches); rg_record_count := vec_len (concat batches.*2);
        rg_valid_length := vec_len (segment_header start ++ concat frames); rg_incomplete_tail := bool_decide (torn <> []) |}.
Proof.
  intros Hst Hne Hc Hlen Hn Hb Hf Ht. set (s := {| s_start := start; s_frames := batches |}).
  destruct (frames_written batches frames Hb Hf) as [Hfits Hcat].
  { intros b Hin. apply list_elem_of_split in Hin as (l1 & l2 & ->). rewrite fmap_app, concat_app in Hlen. cbn in Hlen.
    rewrite !payload_bytes_app, !vec_len_app in Hlen. lia. }
  assert (Hs : seg_ok s) by (by split).
  pose proof (parse_segment_written directory (@control_default Vote) s torn Hs) as Hp.
  unfold seg_bytes in Hp. cbn [s s_start s_frames] in Hp. rewrite <-app_assoc, <-Hcat in Hp.
  change (seg_name s) with (segment_file_name start) in Hp. rewrite Hp; [|by apply Forall_forall; intros ? _ [? ?]|done].
  unfold read_seg, seen, seg_bytes, seg_entries, seg_name. cbn [s s_start s_frames]. rewrite <-Hcat. do 2 f_equal.
  f_equal. apply list_fmap_ext. intros _ b _. by rewrite remaining_none.
Qed.
End guarantees.

(** ** An example *)

Module ToyLog.

Record ToyEntry := { te_index : byte; te_data : byte }.

Definition toy_id (e : ToyEntry) : LogId := {| li_term := 1; li_node := 1; li_index := Byte.to_N (te_index e) |}.

(** Any countable type as bytes, one per bit. *)
Fixpoint bits (p : positive) : list byte :=
  match p with xH => [] | xO p => Byte.x00 :: bits p | xI p => Byte.x01 :: bits p end.

Fixpoint of_bits (l : list byte) : positive :=
  match l with [] => xH | Byte.x00 :: l => xO (of_bits l) | _ :: l => xI (of_bits l) end.

Lemma of_bits_bits p : of_bits (bits p) = p.
Proof. induction p as [p IH|p IH|]; cbn; by rewrite ?IH. Qed.

#[local] Instance log_id_eq_dec : EqDecision LogId.
Proof. solve_decision. Defined.
#[local] Instance log_id_countable : Countable LogId :=
  inj_countable' (fun i => (li_term i, li_node i, li_index i))
    (fun '(t, n, i) => {| li_term := t; li_node := n; li_index := i |}) ltac:(by intros []).

#[local] Instance control_eq_dec : EqDecision (ControlState N).
Proof. solve_decision. Defined.
#[local] Instance control_countable : Countable (ControlState N) :=
  inj_countable'
    (fun c => (cl_generation c, cl_truncation_pending_from c, cl_last_purged_log_id c, cl_committed c, cl_vote c))
    (fun '(g, t, p, c, v) => {| cl_generation := g; cl_truncation_pending_from := t; cl_last_purged_log_id := p;
       cl_committed := c; cl_vote := v |}) ltac:(by intros []).

#[local] Instance record_eq_dec : EqDecision (ControlRecord N).
Proof. solve_decision. Defined.
#[local] Instance record_countable : Countable (ControlRecord N) :=
  inj_countable' (fun r => (cr_state r, cr_checksum r)) (fun '(s, c) => {| cr_state := s; cr_checksum := c |}) ltac:(by intros []).

#[local] Instance marker_eq_dec : EqDecision VersionMarker.
Proof. solve_decision. Defined.
#[local] Instance marker_countable : Countable VersionMarker :=
  inj_countable' (fun m => (vm_version m, vm_artifact m)) (fun '(v, a) => {| vm_version := v; vm_artifact := a |}) ltac:(by intros []).

#[local] Instance toy_json : LogJson ToyEntry N := {|
  entry_log_id := toy_id;
  entry_to_json e := Some [te_index e; te_data e];
  entry_from_json l := match l with [i; b] => Some {| te_index := i; te_data := b |} | _ => None end;
  state_to_json s := Some (bits (encode s));
  record_to_json r := Some (bits (encode r));
  record_from_json l := decode (of_bits l);
  marker_to_json m := Some (bits (encode m));
  marker_from_json l := decode (of_bits l);
  json_version l := (fun m => Some (vm_version m)) <$> (decode (of_bits l) : option VersionMarker);
|}.

#[local] Instance toy_laws : LogJsonLaws toy_json.
Proof.
  split; cbn; try done; try (by eexists).
  - intros e. pose proof (Byte.to_N_bounded (te_index e)). unfold u64_max. lia.
  - by intros [] l [= <-].
  - intros r l [= <-]. by rewrite of_bits_bits, decode_encode.
  - intros m l [= <-]. by rewrite of_bits_bits, decode_encode.
  - intros m l [= <-]. by rewrite of_bits_bits, decode_encode.
Qed.

Definition toy_os (faults : list nat) : Os := {|
  os_fault n := if bool_decide (n ∈ faults) then Some {| ft_error := io_other "broken"; ft_written := 7 |} else None;
  os_order _ l := l;
  os_pid := 42;
|}.

Definition toy_path : Path := {| path_parent := "data"; path_file_name := "raft-log.json" |}.
Definition toy_world : World := {| w_disk := ∅; w_tick := 0 |}.
Definition entry (i d : byte) : ToyEntry := {| te_index := i; te_data := d |}.

Definition toy_open (faults : list nat) := log_open (E := ToyEntry) (Vote := N) (toy_os faults) toy_path toy_world.

Definition toy_inner (faults : list nat) : LogStoreInner (E := ToyEntry) (Vote := N) :=
  match toy_open faults with (Ok inner, _) => inner | (Err _, _) => log_store_default end.
Definition toy_opened (faults : list nat) : World := (toy_open faults).2.

Definition toy_events : list (LogEvent (E := ToyEntry) (Vote := N)) :=
  [EvOp (OpVote 3); EvOp (OpAppend [entry Byte.x00 Byte.x61; entry Byte.x01 Byte.x62]);
   EvOp (OpAppend [entry Byte.x02 Byte.x63]); EvOp (OpAppend [entry Byte.x03 Byte.x64]); EvRestart;
   EvOp (OpAppend [entry Byte.x03 Byte.x65])].

Definition toy_run (faults : list nat) :=
  session_run (toy_os faults) toy_path {| ss_store := Some (toy_inner faults); ss_world := toy_opened faults |} toy_events.

Lemma toy_pid faults : os_pid (toy_os faults) <= u32_max.
Proof. done. Qed.

Lemma toy_lists faults : lists_files (toy_os faults).
Proof. intros n l. reflexivity. Qed.

Lemma toy_protocol x outs : keeps_protocol x toy_events outs.
Proof.
  revert x outs. unfold toy_events.
  assert (H : forall evs, Forall (fun ev => match ev with EvOp (OpAppend _ | OpVote _) | EvRestart => True | _ => False end) evs ->
    forall x outs, keeps_protocol (E := ToyEntry) (Vote := N) x evs outs).
  { induction 1 as [|ev evs Hev _ IH]; intros x [|out outs]; cbn; [done..|]. split; [|by intros y _].
    destruct ev as [[]|]; cbn in *; tauto. }
  apply H. by repeat constructor.
Qed.

(** The 32nd operation fails: the append of the fourth entry writes 7 of its
    bytes. The restart cuts them off, and the entry is appended again. *)
Lemma raft_log_refines_witness :
  (toy_run [31%nat]).1 =
    [Done; Done; Done; Failed;
     Found (Some {| lg_purged := None; lg_entries := [entry Byte.x00 Byte.x61; entry Byte.x01 Byte.x62; entry Byte.x02 Byte.x63];
                    lg_committed := None; lg_vote := Some 3 |});
     Done] /\
  exists y, log_steps (lg_empty, true) toy_events (toy_run [31%nat]).1 y /\
    (y.2 = true -> exists inner', ss_store (toy_run [31%nat]).2 = Some inner' /\ observe inner' = Some y.1).
Proof.
  split; [vm_compute; reflexivity|].
  apply (raft_log_refines (toy_os [31%nat]) toy_path (toy_pid _) (toy_lists _) toy_world (toy_opened [31%nat]) (toy_inner [31%nat])
    eq_refl eq_refl); [vm_compute; reflexivity|apply surjective_pairing|apply toy_protocol].
Defined.

(** The restart after it fails as well; the next one, without faults, does not. *)
Lemma raft_log_recovers_witness :
  exists y inner' w', log_steps (lg_empty, true) toy_events (toy_run [31%nat; 36%nat]).1 y /\
    log_open (toy_os []) toy_path (ss_world (toy_run [31%nat; 36%nat]).2) = (Ok inner', w') /\ observe inner' = Some y.1.
Proof.
  apply (raft_log_recovers (toy_os [31%nat; 36%nat]) toy_path (toy_pid _) (toy_lists _) toy_world (toy_opened [31%nat; 36%nat])
    (toy_inner [31%nat; 36%nat]) eq_refl eq_refl);
    [vm_compute; reflexivity|apply surjective_pairing|apply toy_protocol|apply toy_pid|apply toy_lists|].
  intros n. reflexivity.
Defined.

Lemma toy_serves : serves toy_path (toy_inner []) (w_disk (toy_opened [])) lg_empty.
Proof.
  pose proof (open_fresh (E := ToyEntry) (Vote := N) (toy_os []) toy_path toy_world eq_refl eq_refl) as H.
  assert (Ho : log_open (toy_os []) toy_path toy_world = (Ok (toy_inner []), toy_opened [])) by (vm_compute; reflexivity).
  by rewrite Ho in H.
Qed.

Lemma raft_log_accepts_witness :
  exists inner' w', run_op (toy_os []) (OpAppend [entry Byte.x00 Byte.x61]) (toy_inner []) (toy_opened []) = (Ok tt, inner', w') /\
    serves toy_path inner' (w_disk w') (lg_apply lg_empty (OpAppend [entry Byte.x00 Byte.x61])) /\
    observe inner' = Some (lg_apply lg_empty (OpAppend [entry Byte.x00 Byte.x61])).
Proof.
  apply (raft_log_accepts (toy_os []) toy_path); [apply toy_pid|apply toy_lists|by intros n|apply toy_serves|exact I| |].
  - intros Hn. apply Hn. apply contiguous_cons. split; [reflexivity|apply contiguous_nil].
  - intros Hn. apply Hn. constructor; [|constructor]. unfold small. by vm_compute.
Defined.

Definition toy_batches : list (N * list ToyEntry) :=
  [(1, [entry Byte.x03 Byte.x61; entry Byte.x04 Byte.x62]); (2, [entry Byte.x05 Byte.x63])].
Definition toy_frames : list (list byte) := (fun b => frame_bytes b.1 b.2) <$> toy_batches.
Definition toy_torn : list byte := take 30 (frame_bytes 2 [entry Byte.x06 Byte.x64]).

Lemma segment_roundtrip_witness :
  rg_records <$> match parse_segment (E := ToyEntry) (in_directory "d" (segment_file_name 3)) (@control_default N)
                   (segment_header 3 ++ concat toy_frames ++ toy_torn) 3 with Ok s => Some s | Err _ => None end =
  Some (concat ((fun b => records b.1 b.2) <$> toy_batches)).
Proof.
  rewrite (segment_roundtrip "d" 3 toy_batches toy_frames toy_torn).
  - reflexivity.
  - done.
  - done.
  - cbn. repeat (apply contiguous_cons; split; [reflexivity|]). apply contiguous_nil.
  - by vm_compute.
  - by vm_compute.
  - by repeat constructor.
  - unfold toy_frames, toy_batches. cbn [fmap list_fmap]. repeat constructor; vm_compute; reflexivity.
  - right. exists 2, [entry Byte.x06 Byte.x64], 30%nat. split_and!; [done| |vm_compute; lia|done].
    split; [done| |by vm_compute| |by vm_compute].
    + by repeat constructor.
    + apply contiguous_cons. split; [reflexivity|apply contiguous_nil].
Defined.
End ToyLog.
