(* ===== verification/RaftJournal.v ===== *)
(** crates/runnel-raft/src/state_machine_journal.rs: the journal of applied
    entries. A record is its length and its JSON; a record that was cut off is
    dropped when the journal is read, and the entries that the state does not
    have yet are applied again. *)

From S2P Require Import Prelude Engine RecordFormat Names Paths Disk RaftLogFormat RaftLogSegments RaftState RaftDelivery RaftHandlers RaftBatch RaftStateMachine.

Local Open Scope N_scope.

Definition JOURNAL_FORMAT_VERSION : N := 3.
Definition JOURNAL_FILE : string := "state-machine.log".
Definition MAX_RECORD_SIZE : N := 96 * 1024 * 1024.

(** openraft's types, with the members of the cluster left open. *)
Inductive EntryPayload {Membership : Type} :=
| Blank
| Normal (command : Command)
| MembershipChange (membership : Membership).
Arguments EntryPayload Membership : clear implicits.

Record StoredMembership {Membership : Type} := {
  sme_log_id : option LogId;
  sme_membership : Membership;
}.
Arguments StoredMembership Membership : clear implicits.

Record JournalEntry {Membership : Type} := {
  je_version : N;
  je_log_id : LogId;
  je_payload : EntryPayload Membership;
}.
Arguments JournalEntry Membership : clear implicits.

(** openraft's [Entry] *)
Record LogEntry {Membership : Type} := {
  le_log_id : LogId;
  le_payload : EntryPayload Membership;
}.
Arguments LogEntry Membership : clear implicits.

Record StateMachineData {Membership : Type} := {
  sd_last_applied_log : option LogId;
  sd_last_membership : StoredMembership Membership;
  sd_state : SnapshotState;
}.
Arguments StateMachineData Membership : clear implicits.

(** What serde_json makes of a record; [journal_version] reads its version only. *)
Class JournalJson (Membership : Type) := {
  journal_to_json : JournalEntry Membership -> option (list byte);
  journal_from_json : list byte -> option (JournalEntry Membership);
  journal_version : list byte -> option N;
}.

Class JournalJsonLaws {Membership} (J : JournalJson Membership) : Prop := {
  journal_json_total e : is_Some (journal_to_json e);
  journal_json_roundtrip e l : journal_to_json e = Some l -> journal_from_json l = Some e;
  journal_json_version e l : journal_to_json e = Some l -> journal_version l = Some (je_version e);
}.

(** [BrokerError::from(io::Error)] *)
Definition broker_io (e : IoError) : BrokerError := Engine.Io (ie_kind e) (ie_message e).

Section journal.
Context {Membership : Type} {J : JournalJson Membership} (os : Os).

Definition journal_entry (entry : LogEntry Membership) : JournalEntry Membership :=
  {| je_version := JOURNAL_FORMAT_VERSION; je_log_id := le_log_id entry; je_payload := le_payload entry |}.

(** ** Reading *)

Definition parse_record (path : Path) (record_bytes : list byte) : Result (JournalEntry Membership) BrokerError :=
  let invalid := Cluster ("invalid state-machine journal record in '" +:+ path_display path +:+ "': serde_json error") in
  match journal_version record_bytes with
  | None => Err invalid
  | Some version =>
    if negb (version =? JOURNAL_FORMAT_VERSION) then
      Err (Cluster ("unsupported state-machine journal format version " +:+ pretty version +:+ " in '"
             +:+ path_display path +:+ "' (supported version " +:+ pretty JOURNAL_FORMAT_VERSION +:+ ")"))
    else
      match journal_from_json record_bytes with
      | None => Err invalid
      | Some entry => Ok entry
      end
  end.

(** The loop over the rest of the file, which starts at [cursor]: the entries,
    and where the first record that is not complete starts. *)
Fixpoint parse_records (fuel : nat) (path : Path) (rest : list byte) (cursor : N) :
  Result (list (JournalEntry Membership) * option N) BrokerError :=
  match rest, fuel with
  | [], _ | _, O => Ok ([], None)
  | _, S fuel =>
    if vec_len rest <? 4 then Ok ([], Some cursor)
    else
      let record_len := from_le_bytes (take 4 rest) in
      let body := drop 4 rest in
      if MAX_RECORD_SIZE <? record_len then
        Err (Cluster ("state-machine journal record is too large: " +:+ pretty record_len +:+ " bytes"))
      else if vec_len body <? record_len then Ok ([], Some cursor)
      else
        let? entry := parse_record path (take (N.to_nat record_len) body) in
        let? (entries, truncated_at) :=
          parse_records fuel path (drop (N.to_nat record_len) body) (cursor + 4 + record_len) in
        Ok (entry :: entries, truncated_at)
  end.

Definition journal_parse (path : Path) : IoE BrokerError (list (JournalEntry Membership) * option N) :=
  let* exists_ := file_exists path in
  if negb exists_ then io_ret ([], None)
  else
    let* bytes :=
      io_map_err (fun e => Cluster ("could not read state-machine journal '" +:+ path_display path +:+ "': " +:+ ie_message e))
        (read_file os path) in
    io_lift (parse_records (length bytes) path bytes 0).

Definition journal_read (path : Path) : IoE BrokerError (list (JournalEntry Membership)) :=
  let* (entries, truncated_at) := journal_parse path in
  match truncated_at with
  | None => io_ret entries
  | Some truncated_at =>
    do* io_map_err broker_io (file_open os path) in
    do* io_map_err broker_io (file_set_len os path truncated_at) in
    do* io_map_err broker_io (sync os) in
    io_ret entries
  end.

Definition journal_validate (path : Path) : IoE BrokerError unit :=
  let* _ := journal_parse path in io_ret tt.

(** ** Writing *)

Definition journal_append (path : Path) (entry : JournalEntry Membership) : Io unit :=
  match journal_to_json entry with
  | None => io_fail {| ie_kind := OtherIo; ie_message := "serde_json error" |}
  | Some bytes =>
    if MAX_RECORD_SIZE <? vec_len bytes then
      io_fail {| ie_kind := InvalidInput; ie_message := "state-machine journal record exceeds configured size" |}
    else
      match u32_try_from (vec_len bytes) with
      | None => io_fail {| ie_kind := InvalidInput; ie_message := "state-machine journal record exceeds u32 length" |}
      | Some length =>
        do* file_write os path (to_le_bytes 4 length) in
        file_write os path bytes
      end
  end.

(** ** Applying *)

Context (log_id_text : LogId -> string).

(** The pair (term, index) orders the log. *)
Definition is_log_after (candidate current : LogId) : bool :=
  (li_term current <? li_term candidate) ||
  ((li_term candidate =? li_term current) && (li_index current <? li_index candidate)).

(** One entry: the new state, and the response of a command. [None]: a panic. *)
Definition apply_entry (kind : GroupKind) (data : StateMachineData Membership) (log_id : LogId)
  (payload : EntryPayload Membership) : option (CommandResponse * StateMachineData Membership) :=
  match payload with
  | Blank => Some (RNoop, {| sd_last_applied_log := Some log_id; sd_last_membership := sd_last_membership data; sd_state := sd_state data |})
  | MembershipChange membership =>
    Some (RNoop, {| sd_last_applied_log := Some log_id;
                    sd_last_membership := {| sme_log_id := Some log_id; sme_membership := membership |};
                    sd_state := sd_state data |})
  | Normal command =>
    '(response, state) ← apply_command (sd_state data) command kind (log_id_text log_id);
    Some (response, {| sd_last_applied_log := Some log_id; sd_last_membership := sd_last_membership data; sd_state := state |})
  end.

Fixpoint journal_replay (kind : GroupKind) (data : StateMachineData Membership) (entries : list (JournalEntry Membership)) :
  option (StateMachineData Membership) :=
  match entries with
  | [] => Some data
  | entry :: entries =>
    if is_some_and (fun last => negb (is_log_after (je_log_id entry) last)) (sd_last_applied_log data) then
      journal_replay kind data entries
    else
      '(_, data) ← apply_entry kind data (je_log_id entry) (je_payload entry);
      journal_replay kind data entries
  end.
End journal.
