(* ===== verification/RaftStateStore.v ===== *)
(** crates/runnel-raft/src/state_machine_store.rs: the replicated state in
    memory, its checkpoint, snapshot and journal on the disk, and how the three
    make the state again after a restart. *)

From S2P Require Import Prelude Engine RecordFormat Names Paths Disk RaftLogFormat RaftLogSegments RaftState RaftDelivery RaftHandlers RaftBatch RaftStateMachine RaftJournal.

Local Open Scope N_scope.

(** lib.rs *)
Definition FORMAT_VERSION : N := 3.

(** ** What is written *)

Record PersistedStream := {
  ps_stream_id : string;
  ps_group_id : string;
  ps_lifecycle : StreamLifecycle;
  ps_messages : list StoredMessage;
}.

Record PersistedConsumer := {
  pc_stream : string;
  pc_consumer : string;
  pc_offset : Offset;
}.

Record PersistedGroupConsumer := {
  pg_stream : string;
  pg_consumer : string;
  pg_state : GroupConsumerState;
}.

Record PersistedSnapshotState := {
  pn_version : N;
  pn_streams : gmap string PersistedStream;
  pn_consumers : list PersistedConsumer;
  pn_group_consumers : list PersistedGroupConsumer;
  pn_lease_clock_ms : N;
  pn_dedup : gmap string (gmap string Offset);
  pn_redeliveries : N;
  pn_dead_letters : N;
}.

Record PersistedState {Membership : Type} := {
  pt_version : N;
  pt_last_applied_log : option LogId;
  pt_last_membership : StoredMembership Membership;
  pt_streams : gmap string PersistedStream;
  pt_consumers : list PersistedConsumer;
  pt_group_consumers : list PersistedGroupConsumer;
  pt_lease_clock_ms : N;
  pt_dedup : gmap string (gmap string Offset);
  pt_redeliveries : N;
  pt_dead_letters : N;
}.
Arguments PersistedState Membership : clear implicits.

(** openraft's [SnapshotMeta] *)
Record SnapshotMeta {Membership : Type} := {
  mt_last_log_id : option LogId;
  mt_last_membership : StoredMembership Membership;
  mt_snapshot_id : string;
}.
Arguments SnapshotMeta Membership : clear implicits.

Record StoredSnapshot {Membership : Type} := {
  sn_meta : SnapshotMeta Membership;
  sn_data : list byte;
}.
Arguments StoredSnapshot Membership : clear implicits.

Definition into_state (p : PersistedStream) : StreamState :=
  {| ss_stream_id := ps_stream_id p; ss_group_id := ps_group_id p; ss_lifecycle := ps_lifecycle p; ss_messages := ps_messages p |}.

(** [PersistedStreamRef::current] *)
Definition persisted_stream (s : StreamState) : PersistedStream :=
  {| ps_stream_id := ss_stream_id s; ps_group_id := ss_group_id s; ps_lifecycle := ss_lifecycle s; ps_messages := ss_messages s |}.

(** The entries of a map in the order of its keys. *)
Definition pair_le {A} (a b : (string * string) * A) : Prop :=
  if bool_decide (a.1.1 = b.1.1) then name_le a.1.2 b.1.2 else name_le a.1.1 b.1.1.

#[export] Instance pair_le_dec {A} : RelDecision (@pair_le A).
Proof. intros a b. unfold pair_le. destruct (bool_decide _); apply _. Defined.

Definition pair_items {A} (m : gmap (string * string) A) : list ((string * string) * A) := merge_sort pair_le (map_to_list m).

Definition name_items {A} (m : gmap string A) : list (string * A) :=
  omap (fun name => pair name <$> m !! name) (sort_names (map_to_list m).*1).

(** [Iterator::collect] into a map: the last of several entries of a key stays. *)
Definition btree_collect {K A} `{Countable K} (l : list (K * A)) : gmap K A := foldl (fun m '(k, a) => <[k := a]> m) ∅ l.

(** [PersistedStateBodyRef::new] *)
Definition persisted_consumers (st : SnapshotState) : list PersistedConsumer :=
  (fun '((stream, consumer), offset) => {| pc_stream := stream; pc_consumer := consumer; pc_offset := offset |})
    <$> pair_items (st_consumers st).

Definition persisted_group_consumers (st : SnapshotState) : list PersistedGroupConsumer :=
  (fun '((stream, consumer), state) => {| pg_stream := stream; pg_consumer := consumer; pg_state := state |})
    <$> pair_items (st_group_consumers st).

(** [PersistedSnapshotStateRef::new] *)
Definition persisted_snapshot (st : SnapshotState) : PersistedSnapshotState :=
  {| pn_version := FORMAT_VERSION; pn_streams := persisted_stream <$> st_streams st; pn_consumers := persisted_consumers st;
     pn_group_consumers := persisted_group_consumers st; pn_lease_clock_ms := st_lease_clock_ms st; pn_dedup := st_dedup st;
     pn_redeliveries := st_redeliveries st; pn_dead_letters := st_dead_letters st |}.

(** [PersistedStateRef::new] *)
Definition persisted_state {Membership} (data : StateMachineData Membership) : PersistedState Membership :=
  let st := sd_state data in
  {| pt_version := FORMAT_VERSION; pt_last_applied_log := sd_last_applied_log data; pt_last_membership := sd_last_membership data;
     pt_streams := persisted_stream <$> st_streams st; pt_consumers := persisted_consumers st;
     pt_group_consumers := persisted_group_consumers st; pt_lease_clock_ms := st_lease_clock_ms st; pt_dedup := st_dedup st;
     pt_redeliveries := st_redeliveries st; pt_dead_letters := st_dead_letters st |}.

(** [state_machine_data_from_persisted] and [snapshot_state_from_persisted] *)
Definition collect_consumers (l : list PersistedConsumer) : gmap (string * string) Offset :=
  btree_collect ((fun c => ((pc_stream c, pc_consumer c), pc_offset c)) <$> l).

Definition collect_group_consumers (l : list PersistedGroupConsumer) : gmap (string * string) GroupConsumerState :=
  btree_collect ((fun c => ((pg_stream c, pg_consumer c), pg_state c)) <$> l).

Definition snapshot_state_from_persisted (p : PersistedSnapshotState) : SnapshotState :=
  {| st_streams := into_state <$> pn_streams p; st_consumers := collect_consumers (pn_consumers p);
     st_group_consumers := collect_group_consumers (pn_group_consumers p); st_lease_clock_ms := pn_lease_clock_ms p;
     st_dedup := pn_dedup p; st_redeliveries := pn_redeliveries p; st_dead_letters := pn_dead_letters p |}.

Definition state_machine_data_from_persisted {Membership} (p : PersistedState Membership) : StateMachineData Membership :=
  {| sd_last_applied_log := pt_last_applied_log p; sd_last_membership := pt_last_membership p;
     sd_state :=
       {| st_streams := into_state <$> pt_streams p; st_consumers := collect_consumers (pt_consumers p);
          st_group_consumers := collect_group_consumers (pt_group_consumers p); st_lease_clock_ms := pt_lease_clock_ms p;
          st_dedup := pt_dedup p; st_redeliveries := pt_redeliveries p; st_dead_letters := pt_dead_letters p |} |}.

(** What serde_json makes of the files. *)
Class StoreJson (Membership : Type) := {
  persisted_to_json : PersistedState Membership -> option (list byte);
  persisted_from_json : list byte -> option (PersistedState Membership);
  snapshot_to_json : PersistedSnapshotState -> option (list byte);
  snapshot_from_json : list byte -> option PersistedSnapshotState;
  stored_to_json : StoredSnapshot Membership -> option (list byte);
  stored_from_json : list byte -> option (StoredSnapshot Membership);
}.

Class StoreJsonLaws {Membership} (S : StoreJson Membership) : Prop := {
  persisted_json_total p : is_Some (persisted_to_json p);
  persisted_json_roundtrip p l : persisted_to_json p = Some l -> persisted_from_json l = Some p;
  snapshot_json_total p : is_Some (snapshot_to_json p);
  snapshot_json_roundtrip p l : snapshot_to_json p = Some l -> snapshot_from_json l = Some p;
  stored_json_total s : is_Some (stored_to_json s);
  stored_json_roundtrip s l : stored_to_json s = Some l -> stored_from_json l = Some s;
}.

Definition STATE_FILE : string := "state-machine.json".
Definition SNAPSHOT_FILE : string := "snapshot.json".

(** [StorageIOError::write_state_machine] and the like. *)
Definition write_state_machine (e : IoError) : StorageError := {| se_subject := SubjectStateMachine; se_verb := VerbWrite; se_error := e |}.
Definition read_state_machine (e : IoError) : StorageError := {| se_subject := SubjectStateMachine; se_verb := VerbRead; se_error := e |}.
Definition write_snapshot (e : IoError) : StorageError := {| se_subject := SubjectSnapshot; se_verb := VerbWrite; se_error := e |}.
Definition read_snapshot (e : IoError) : StorageError := {| se_subject := SubjectSnapshot; se_verb := VerbRead; se_error := e |}.

Definition serde_error : IoError := {| ie_kind := OtherIo; ie_message := "serde_json error" |}.

(** The first consumer whose pinned policies are not consistent. *)
Fixpoint validate_group_consumer_entries (entries : list ((string * string) * GroupConsumerState)) : Result unit string :=
  match entries with
  | [] => Ok tt
  | ((stream, consumer), state) :: entries =>
    match validate_pinned_policies state with
    | Err error => Err ("consumer '" +:+ stream +:+ "/" +:+ consumer +:+ "': " +:+ error)
    | Ok _ => validate_group_consumer_entries entries
    end
  end.

Section store.
Context {Membership : Type} {J : JournalJson Membership} {S : StoreJson Membership} (os : Os).
Context (log_id_text : LogId -> string) (broker_error_text : BrokerError -> string) (no_members : StoredMembership Membership).

Record StateMachineStore := {
  sm_state : StateMachineData Membership;
  sm_snapshot_idx : N;
  sm_current_snapshot : option (StoredSnapshot Membership);
  sm_path : option string;
  sm_kind : GroupKind;
}.

(** [StateMachineData::default()] *)
Definition data_default : StateMachineData Membership :=
  {| sd_last_applied_log := None; sd_last_membership := no_members; sd_state := snapshot_default |}.

Definition entries_of (l : list PersistedGroupConsumer) : list ((string * string) * GroupConsumerState) :=
  (fun c => ((pg_stream c, pg_consumer c), pg_state c)) <$> l.

(** ** Opening *)

Definition read_persisted_state (path : Path) : IoE BrokerError (option (PersistedState Membership)) :=
  let* exists_ := file_exists path in
  if negb exists_ then io_ret None
  else
    let* bytes :=
      io_map_err (fun e => Cluster ("could not read persisted state-machine '" +:+ path_display path +:+ "': " +:+ ie_message e))
        (read_file os path) in
    match persisted_from_json bytes with
    | None => io_fail (Cluster ("invalid persisted state-machine '" +:+ path_display path +:+ "': serde_json error"))
    | Some persisted =>
      if negb (pt_version persisted =? FORMAT_VERSION) then
        io_fail (Cluster ("unsupported state-machine format version " +:+ pretty (pt_version persisted) +:+ " in '"
          +:+ path_display path +:+ "' (checkpoint; supported version " +:+ pretty FORMAT_VERSION +:+ ")"))
      else
        match validate_group_consumer_entries (entries_of (pt_group_consumers persisted)) with
        | Err error => io_fail (Cluster ("invalid persisted state-machine '" +:+ path_display path +:+ "': " +:+ error))
        | Ok _ => io_ret (Some persisted)
        end
    end.

Definition read_persisted_snapshot (path : Path) : IoE BrokerError (option (StoredSnapshot Membership)) :=
  let* exists_ := file_exists path in
  if negb exists_ then io_ret None
  else
    let* bytes :=
      io_map_err (fun e => Cluster ("could not read persisted snapshot '" +:+ path_display path +:+ "': " +:+ ie_message e))
        (read_file os path) in
    match stored_from_json bytes with
    | None => io_fail (Cluster ("invalid persisted snapshot '" +:+ path_display path +:+ "': serde_json error"))
    | Some snapshot => io_ret (Some snapshot)
    end.

Definition validate_snapshot_data (data : list byte) : Result PersistedSnapshotState IoError :=
  match snapshot_from_json data with
  | None => Err (invalid_data "serde_json error")
  | Some persisted =>
    if negb (pn_version persisted =? FORMAT_VERSION) then
      Err (invalid_data ("unsupported snapshot format version " +:+ pretty (pn_version persisted)
             +:+ " (supported version " +:+ pretty FORMAT_VERSION +:+ ")"))
    else
      match validate_group_consumer_entries (entries_of (pn_group_consumers persisted)) with
      | Err error => Err (invalid_data error)
      | Ok _ => Ok persisted
      end
  end.

Definition is_optional_log_after (candidate current : option LogId) : bool :=
  match candidate, current with
  | Some candidate, Some current => is_log_after candidate current
  | Some _, None => true
  | _, _ => false
  end.

(** The snapshot, when there is one, with the state in it. *)
Definition open_snapshot (path : Path) : IoE BrokerError (option (StoredSnapshot Membership * SnapshotState)) :=
  let* snapshot := read_persisted_snapshot path in
  match snapshot with
  | None => io_ret None
  | Some snapshot =>
    match validate_snapshot_data (sn_data snapshot) with
    | Err e => io_fail (Cluster ("invalid persisted snapshot '" +:+ path_display path +:+ "': " +:+ ie_message e))
    | Ok persisted => io_ret (Some (snapshot, snapshot_state_from_persisted persisted))
    end
  end.

(** The newer of the checkpoint and the snapshot. *)
Definition newer_state (state : StateMachineData Membership) (snapshot : option (StoredSnapshot Membership * SnapshotState)) :
  StateMachineData Membership :=
  match snapshot with
  | Some (snapshot, snapshot_state) =>
    if is_optional_log_after (mt_last_log_id (sn_meta snapshot)) (sd_last_applied_log state) then
      {| sd_last_applied_log := mt_last_log_id (sn_meta snapshot); sd_last_membership := mt_last_membership (sn_meta snapshot);
         sd_state := snapshot_state |}
    else state
  | None => state
  end.

(** [StateMachineStore::open]. [None]: replaying the journal panics. *)
Definition sm_open (path : string) (kind : GroupKind) : IoE BrokerError (option StateMachineStore) :=
  let* persisted := read_persisted_state (in_directory path STATE_FILE) in
  let state := match persisted with Some p => state_machine_data_from_persisted p | None => data_default end in
  let* snapshot := open_snapshot (in_directory path SNAPSHOT_FILE) in
  let state := newer_state state snapshot in
  let journal_path := in_directory path JOURNAL_FILE in
  let* journal_entries := journal_read os journal_path in
  match journal_replay log_id_text kind state journal_entries with
  | None => io_ret None
  | Some state =>
    match validate_group_consumer_entries (pair_items (st_group_consumers (sd_state state))) with
    | Err error => io_fail (Cluster ("invalid recovered state-machine '" +:+ path +:+ "': " +:+ error))
    | Ok _ =>
      do* io_map_err broker_io (create_dir_all os path) in
      do* io_map_err broker_io (file_open_append os journal_path) in
      io_ret (Some {| sm_state := state; sm_snapshot_idx := 0; sm_current_snapshot := fst <$> snapshot; sm_path := Some path;
                      sm_kind := kind |})
    end
  end.

(** [validate_state_machine_storage] of a path that is a directory, if it is anything. *)
Definition validate_state_machine_storage (path : string) : IoE BrokerError unit :=
  let* exists_ := dir_exists path in
  if negb exists_ then io_ret tt
  else
    do* read_persisted_state (in_directory path STATE_FILE) in
    do* open_snapshot (in_directory path SNAPSHOT_FILE) in
    journal_validate os (in_directory path JOURNAL_FILE).

(** ** Writing *)

Definition with_state (store : StateMachineStore) (state : StateMachineData Membership) : StateMachineStore :=
  {| sm_state := state; sm_snapshot_idx := sm_snapshot_idx store; sm_current_snapshot := sm_current_snapshot store;
     sm_path := sm_path store; sm_kind := sm_kind store |}.

Definition with_snapshot (store : StateMachineStore) (snapshot : StoredSnapshot Membership) : StateMachineStore :=
  {| sm_state := sm_state store; sm_snapshot_idx := sm_snapshot_idx store; sm_current_snapshot := Some snapshot;
     sm_path := sm_path store; sm_kind := sm_kind store |}.

Fixpoint append_all (path : Path) (entries : list (JournalEntry Membership)) : Io unit :=
  match entries with
  | [] => io_ret tt
  | entry :: entries => do* journal_append os path entry in append_all path entries
  end.

Definition persist_journal (store : StateMachineStore) (entries : list (LogEntry Membership)) : IoE StorageError unit :=
  match sm_path store with
  | None => io_ret tt
  | Some path =>
    io_map_err write_state_machine
      (do* append_all (in_directory path JOURNAL_FILE) (journal_entry <$> entries) in sync os)
  end.

Definition persist_checkpoint (store : StateMachineStore) (state : StateMachineData Membership) : IoE StorageError unit :=
  match sm_path store with
  | None => io_ret tt
  | Some path =>
    match persisted_to_json (persisted_state state) with
    | None => io_fail (write_state_machine serde_error)
    | Some bytes => io_map_err write_state_machine (atomic_write os (in_directory path STATE_FILE) bytes)
    end
  end.

Definition persist_snapshot (store : StateMachineStore) (snapshot : StoredSnapshot Membership) : IoE StorageError unit :=
  match sm_path store with
  | None => io_ret tt
  | Some path =>
    match stored_to_json snapshot with
    | None => io_fail (write_snapshot serde_error)
    | Some bytes => io_map_err write_snapshot (atomic_write os (in_directory path SNAPSHOT_FILE) bytes)
    end
  end.

(** The entries that a state at [last_applied_log] does not have. *)
Definition retained_entries (last_applied_log : option LogId) (entries : list (JournalEntry Membership)) :
  list (JournalEntry Membership) :=
  filter (fun entry => is_none_or (is_log_after (je_log_id entry)) last_applied_log = true) entries.

Definition compact_journal (store : StateMachineStore) (last_applied_log : option LogId) : IoE StorageError unit :=
  match sm_path store with
  | None => io_ret tt
  | Some path =>
    let journal_path := in_directory path JOURNAL_FILE in
    let* entries :=
      io_map_err (fun e => write_state_machine {| ie_kind := OtherIo; ie_message := broker_error_text e |})
        (journal_read os journal_path) in
    let temporary_path := temp_path os journal_path in
    io_map_err write_state_machine
      (do* file_create os temporary_path in
       do* append_all temporary_path (retained_entries last_applied_log entries) in
       do* sync os in
       do* rename os temporary_path journal_path in
       do* sync os in
       file_open_append os journal_path)
  end.

(** ** Snapshots

    [build_snapshot] takes the state under the lock, and writes it after the lock
    is released: entries may be applied between its steps. *)

Definition build_capture (store : StateMachineStore) : Result (StoredSnapshot Membership * StateMachineStore) StorageError :=
  match snapshot_to_json (persisted_snapshot (sd_state (sm_state store))) with
  | None => Err (read_state_machine serde_error)
  | Some data =>
    let idx := (sm_snapshot_idx store + 1) mod (u64_max + 1) in
    let meta := {| mt_last_log_id := sd_last_applied_log (sm_state store);
                   mt_last_membership := sd_last_membership (sm_state store);
                   mt_snapshot_id := "snapshot-" +:+ pretty (sm_snapshot_idx store + 1) |} in
    Ok ({| sn_meta := meta; sn_data := data |},
        {| sm_state := sm_state store; sm_snapshot_idx := idx; sm_current_snapshot := sm_current_snapshot store;
           sm_path := sm_path store; sm_kind := sm_kind store |})
  end.

Definition build_finish (store : StateMachineStore) (snapshot : StoredSnapshot Membership) : IoE StorageError StateMachineStore :=
  do* compact_journal store (mt_last_log_id (sn_meta snapshot)) in
  io_ret (with_snapshot store snapshot).

Definition build_snapshot (store : StateMachineStore) : IoE StorageError (StateMachineStore * StoredSnapshot Membership) :=
  let* (snapshot, store) := io_lift (build_capture store) in
  do* persist_snapshot store snapshot in
  let* store := build_finish store snapshot in
  io_ret (store, snapshot).

(** The loop over the entries: the responses and the state after them. *)
Fixpoint apply_entries (kind : GroupKind) (data : StateMachineData Membership) (entries : list (LogEntry Membership)) :
  option (list CommandResponse * StateMachineData Membership) :=
  match entries with
  | [] => Some ([], data)
  | entry :: entries =>
    '(response, data) ← apply_entry log_id_text kind data (le_log_id entry) (le_payload entry);
    '(responses, data) ← apply_entries kind data entries;
    Some (response :: responses, data)
  end.

(** [RaftStateMachine::apply]. [None]: applying an entry panics. *)
Definition sm_apply (store : StateMachineStore) (entries : list (LogEntry Membership)) :
  IoE StorageError (option (list CommandResponse * StateMachineStore)) :=
  do* match entries with [] => io_ret tt | _ => persist_journal store entries end in
  match apply_entries (sm_kind store) (sm_state store) entries with
  | None => io_ret None
  | Some (responses, state) => io_ret (Some (responses, with_state store state))
  end.

Definition install_snapshot (store : StateMachineStore) (meta : SnapshotMeta Membership) (data : list byte) :
  IoE StorageError StateMachineStore :=
  let* persisted := io_lift (match validate_snapshot_data data with Ok p => Ok p | Err e => Err (read_snapshot e) end) in
  let next_state := {| sd_last_applied_log := mt_last_log_id meta; sd_last_membership := mt_last_membership meta;
                       sd_state := snapshot_state_from_persisted persisted |} in
  let snapshot := {| sn_meta := meta; sn_data := data |} in
  do* persist_snapshot store snapshot in
  do* persist_checkpoint store next_state in
  do* compact_journal store (sd_last_applied_log next_state) in
  io_ret (with_snapshot (with_state store next_state) snapshot).

(** ** Reading *)

Definition applied_state (store : StateMachineStore) : option LogId * StoredMembership Membership :=
  (sd_last_applied_log (sm_state store), sd_last_membership (sm_state store)).

Definition get_current_snapshot (store : StateMachineStore) : option (StoredSnapshot Membership) := sm_current_snapshot store.

Definition sm_metadata (store : StateMachineStore) (stream : string) : Result StreamMetadata BrokerError :=
  match st_streams (sd_state (sm_state store)) !! stream with
  | Some stream_state => Ok (stream_metadata stream_state stream)
  | None => Err (StreamNotFound stream)
  end.

Definition sm_consumer_policy (store : StateMachineStore) (stream consumer : string) (legacy : ConsumerPolicy) :
  Result ConsumerPolicy BrokerError :=
  let st := sd_state (sm_state store) in
  if negb (is_some_and is_active (st_streams st !! stream)) then Err (StreamNotFound stream)
  else Ok (default legacy (st_group_consumers st !! (stream, consumer) ≫= gc_policy)).

Definition metadata_by_group_id (store : StateMachineStore) (group_id : string) : option (string * StreamMetadata) :=
  (fun '(stream, stream_state) => (stream, stream_metadata stream_state stream)) <$>
    List.find (fun item => bool_decide (ss_group_id item.2 = group_id)) (name_items (st_streams (sd_state (sm_state store)))).

Definition dead_letter_source (store : StateMachineStore) (dead_letter_stream : string) : option (string * StreamMetadata) :=
  (fun '(stream, stream_state) => (stream, stream_metadata stream_state stream)) <$>
    List.find (fun item => bool_decide (raft_dead_letter_stream_name item.1 = dead_letter_stream))
      (name_items (st_streams (sd_state (sm_state store)))).

Definition sm_health (store : StateMachineStore) : HealthSnapshot :=
  let st := sd_state (sm_state store) in
  let message_bytes m := vec_len (sm_payload m) + match sm_key m with Some key => vec_len (as_bytes key) | None => 0 end in
  {| hs_streams := vec_len (map_to_list (st_streams st));
     hs_storage_bytes :=
       foldl N.add 0 (message_bytes <$> concat ((fun item => ss_messages item.2) <$> name_items (st_streams st)));
     hs_in_flight_deliveries :=
       foldl N.add 0 ((fun item => vec_len (btree_keys (gc_in_flight item.2))) <$> pair_items (st_group_consumers st));
     hs_redeliveries := st_redeliveries st;
     hs_dead_letters := st_dead_letters st |}.

Definition minimum (l : list N) : option N :=
  match l with [] => None | n :: l => Some (foldl N.min n l) end.

Fixpoint any_option {A} (f : A -> option bool) (l : list A) : option bool :=
  match l with
  | [] => Some false
  | a :: l => b ← f a; if (b : bool) then Some true else any_option f l
  end.

(** [StateMachineStore::preview_group_batch]: the preview, when the next lease or
    retry delay ends, and whether a delivery that expired needs a retry time. *)
Definition sm_preview_group_batch (store : StateMachineStore) (request : GroupBatchPollRequest) :
  option (CommandResponse * option N * bool) :=
  let st := sd_state (sm_state store) in
  let effective_now_ms := N.max (st_lease_clock_ms st) (gb_now_ms request) in
  let consumer := st_group_consumers st !! (gb_stream request, gb_consumer request) in
  let after_now := filter (fun deadline => effective_now_ms < deadline) in
  let next_lease_expiry_ms := consumer ≫= fun c => minimum (after_now (gd_deadline_ms <$> btree_values (gc_in_flight c))) in
  let next_retry_ms := consumer ≫= fun c => minimum (after_now (grs_retry_not_before_ms <$> btree_values (gc_retry_not_before c))) in
  let next_expiry_ms := minimum (option_list next_lease_expiry_ms ++ option_list next_retry_ms) in
  let legacy_policy := policy_legacy (default 0 (gb_legacy_ack_timeout_ms request)) (gb_max_delivery_attempts request) in
  needs_retry_schedule ←
    match consumer with
    | None => Some false
    | Some c =>
      any_option (fun '(offset, delivery) =>
        if (effective_now_ms <? gd_deadline_ms delivery) || bool_decide (is_Some (gc_retry_not_before c !! offset)) then Some false
        else
          let attempts := default 0 (gc_delivery_attempts c !! offset) in
          policy ← group_policy_for_offset c offset attempts legacy_policy (gb_policy_version request);
          Some ((0 <? retry_delay_ms policy) && negb (attempts_exhausted policy attempts)))
        (btree_items (gc_in_flight c))
    end;
  response ← preview_group_batch st request (sm_kind store);
  Some (response, next_expiry_ms, needs_retry_schedule).
End store.
