(* ===== verification/RaftStateRecovery.v ===== *)
(** Recovery of the replicated state: what the journal gives back, what
    replaying it does, and what a checkpoint, a snapshot and a journal together
    mean. *)

From S2P Require Import Prelude Engine RecordFormat Names Paths Disk RaftLogFormat RaftLogSegments RaftState RaftDelivery RaftInvariant RaftHandlers RaftBatch RaftStateMachine RaftJournal RaftStateStore.

Local Open Scope N_scope.

Section recovery.
Context {Membership : Type} {J : JournalJson Membership} {L : JournalJsonLaws J}.

(** ** The bytes of the journal *)

Definition entry_bytes (e : JournalEntry Membership) : list byte := default [] (journal_to_json e).

Definition record_frame (e : JournalEntry Membership) : list byte := to_le_bytes 4 (vec_len (entry_bytes e)) ++ entry_bytes e.

Definition frames (es : list (JournalEntry Membership)) : list byte := concat (record_frame <$> es).

Definition writable (e : JournalEntry Membership) : Prop :=
  je_version e = JOURNAL_FORMAT_VERSION /\ vec_len (entry_bytes e) <= MAX_RECORD_SIZE.

(** What a crash leaves of a record. *)
Definition torn_record (t : list byte) : Prop :=
  t = [] \/ exists e n, writable e /\ (n < length (record_frame e))%nat /\ t = take n (record_frame e).

Lemma journal_to_json_eq e : journal_to_json e = Some (entry_bytes e).
Proof. unfold entry_bytes. by destruct (journal_json_total e) as [l ->]. Qed.

Lemma parse_record_written path e : writable e -> parse_record path (entry_bytes e) = Ok e.
Proof.
  intros [Hv _]. unfold parse_record. pose proof (journal_to_json_eq e) as He.
  rewrite (journal_json_version _ _ He), Hv, N.eqb_refl. cbn [negb]. by rewrite (journal_json_roundtrip _ _ He).
Qed.

Lemma record_frame_length e : vec_len (record_frame e) = 4 + vec_len (entry_bytes e).
Proof. unfold record_frame. rewrite vec_len_app. done. Qed.

Lemma record_len_read e rest : writable e -> from_le_bytes (take 4 (record_frame e ++ rest)) = vec_len (entry_bytes e).
Proof.
  intros [_ Hl]. unfold record_frame. rewrite <-app_assoc, take_app_length' by (by rewrite length_to_le_bytes).
  apply from_to_le_bytes. unfold MAX_RECORD_SIZE in Hl. cbn. lia.
Qed.

Lemma record_body e rest : drop 4 (record_frame e ++ rest) = entry_bytes e ++ rest.
Proof. unfold record_frame. by rewrite <-app_assoc, drop_app_length' by (by rewrite length_to_le_bytes). Qed.

Lemma parse_torn fuel path t cursor :
  torn_record t -> t <> [] -> parse_records (Membership := Membership) (S fuel) path t cursor = Ok ([], Some cursor).
Proof.
  intros [->|(e & n & Hw & Hn & ->)] Hne; [done|]. set (t := take n (record_frame e)) in *.
  pose proof (record_frame_length e) as Hlen. unfold vec_len at 1 in Hlen.
  assert (Ht : vec_len t = N.of_nat n) by (unfold t, vec_len; rewrite length_take; lia).
  cbn [parse_records]. destruct t as [|x t'] eqn:Et; [done|]. rewrite <-Et in *. rewrite Ht.
  destruct (N.ltb_spec (N.of_nat n) 4) as [|Hn4]; [done|].
  assert (H4 : take 4 t = take 4 (record_frame e ++ [])) by (unfold t; rewrite app_nil_r, take_take; f_equal; lia).
  assert (Hb : vec_len (drop 4 t) = N.of_nat n - 4) by (unfold vec_len in *; rewrite length_drop; lia).
  rewrite H4, record_len_read, Hb by done. destruct Hw as [_ Hw].
  rewrite (proj2 (N.ltb_ge _ _)) by done. by rewrite (proj2 (N.ltb_lt _ _)) by lia.
Qed.

Lemma parse_frames fuel path es t cursor :
  Forall writable es -> torn_record t -> (length (frames es ++ t) <= fuel)%nat ->
  parse_records fuel path (frames es ++ t) cursor = Ok (es, if decide (t = []) then None else Some (cursor + vec_len (frames es))).
Proof.
  intros Hw Ht. revert fuel cursor; induction Hw as [|e es He _ IH]; intros fuel cursor Hfuel.
  - cbn [frames fmap list_fmap concat app] in *. change (vec_len []) with 0. rewrite N.add_0_r. case_decide as Hd; [by subst; destruct fuel|].
    destruct fuel as [|fuel]; [destruct t; [done|cbn in Hfuel; lia]|]. by apply parse_torn.
  - change (frames (e :: es)) with (record_frame e ++ frames es) in *. rewrite <-app_assoc in *.
    pose proof (record_frame_length e) as Hlen. rewrite length_app in Hfuel. unfold vec_len at 1 in Hlen.
    destruct fuel as [|fuel]; [lia|]. cbn [parse_records].
    destruct (record_frame e ++ frames es ++ t) as [|x l] eqn:El; [by apply (f_equal length) in El; rewrite length_app in El; cbn in El; lia|].
    rewrite <-El. clear El x l. rewrite (proj2 (N.ltb_ge _ _)) by (unfold vec_len; rewrite length_app; lia).
    rewrite record_len_read, record_body by done. pose proof He as [_ Hmax]. rewrite (proj2 (N.ltb_ge _ _)) by done.
    rewrite (proj2 (N.ltb_ge _ _)) by (rewrite vec_len_app; lia).
    rewrite take_app_length', drop_app_length' by (unfold vec_len; lia). rewrite parse_record_written by done.
    rewrite IH by lia. do 2 f_equal. case_decide; [done|]. f_equal. rewrite vec_len_app, record_frame_length. lia.
Qed.

(** ** The order of the log *)

(** [a] does not come after [b]. *)
Definition upto (a : LogId) (b : option LogId) : Prop := is_some_and (fun last => negb (is_log_after a last)) b = true.

Definition oupto (a b : option LogId) : Prop := is_optional_log_after a b = false.

Lemma is_log_after_spec a b :
  is_log_after a b = true <-> li_term b < li_term a \/ (li_term a = li_term b /\ li_index b < li_index a).
Proof.
  unfold is_log_after. rewrite orb_true_iff, andb_true_iff, !N.ltb_lt, N.eqb_eq. tauto.
Qed.

Lemma upto_spec a b : upto a b <-> exists last, b = Some last /\ is_log_after a last <> true.
Proof.
  unfold upto. destruct b as [last|]; cbn; [|split; [done|by intros (? & ? & _)]].
  rewrite negb_true_iff. split; [intros H; exists last; by rewrite H|intros (? & [= <-] & H); by apply not_true_is_false].
Qed.

Lemma upto_trans a b c : upto a (Some b) -> upto b c -> upto a c.
Proof.
  rewrite !upto_spec. intros (? & [= <-] & H1) (last & -> & H2). exists last. split; [done|].
  rewrite is_log_after_spec in *. lia.
Qed.

Lemma upto_after a b last : upto a (Some last) -> is_log_after b last = true -> upto a (Some b).
Proof.
  rewrite !upto_spec. intros (? & [= <-] & H1) H2. exists b. split; [done|]. rewrite is_log_after_spec in *. lia.
Qed.

Lemma upto_refl a : upto a (Some a).
Proof. rewrite upto_spec. exists a. split; [done|]. rewrite is_log_after_spec. lia. Qed.

Lemma oupto_some a b : oupto (Some a) b <-> upto a b.
Proof.
  unfold oupto, upto. destruct b; cbn; [by rewrite negb_true_iff|done].
Qed.

Lemma oupto_refl a : oupto a a.
Proof. destruct a; [apply oupto_some, upto_refl|done]. Qed.

Lemma oupto_trans a b c : oupto a b -> oupto b c -> oupto a c.
Proof.
  destruct a as [a|]; [|by destruct c]. rewrite !oupto_some. destruct b as [b|]; [|by rewrite upto_spec; intros (? & ? & _)].
  rewrite oupto_some. apply upto_trans.
Qed.

Lemma upto_oupto a b c : upto a b -> oupto b c -> upto a c.
Proof. rewrite <-!oupto_some. apply oupto_trans. Qed.

(** ** Replaying *)

Context (log_id_text : LogId -> string) (kind : GroupKind).
Abbreviation replay := (journal_replay log_id_text kind).

Lemma replay_app (data : StateMachineData Membership) es es' : replay data (es ++ es') = (replay data es ≫= fun data' => replay data' es').
Proof.
  revert data; induction es as [|e es IH]; intros data; [done|]. cbn [app journal_replay]. case_match; [apply IH|].
  destruct (apply_entry _ _ _ _ _) as [[r data']|]; [apply IH|done].
Qed.

Lemma replay_skip (data : StateMachineData Membership) es :
  (forall e, e ∈ es -> upto (je_log_id e) (sd_last_applied_log data)) -> replay data es = Some data.
Proof.
  induction es as [|e es IH]; intros H; [done|]. cbn [journal_replay]. rewrite (H e) by (by left).
  apply IH. intros e' He'. apply H. by right.
Qed.

Lemma apply_entry_last data id payload r (data' : StateMachineData Membership) :
  apply_entry log_id_text kind data id payload = Some (r, data') -> sd_last_applied_log data' = Some id.
Proof.
  destruct payload; cbn; [by intros [= <- <-]| |by intros [= <- <-]].
  destruct (apply_command _ _ _ _) as [[r' st]|]; [|done]. by intros [= <- <-].
Qed.

(** Entries that the state has can be left out. *)
Lemma replay_filter (P : JournalEntry Membership -> Prop) `{!forall e, Decision (P e)} data es :
  (forall e, e ∈ es -> ~ P e -> upto (je_log_id e) (sd_last_applied_log data)) -> replay data (filter P es) = replay data es.
Proof.
  revert data; induction es as [|e es IH]; intros data Hup; [done|]. rewrite filter_cons. cbn [journal_replay].
  assert (Hes : forall e', e' ∈ es -> ~ P e' -> upto (je_log_id e') (sd_last_applied_log data)) by (intros; apply Hup; [by right|done]).
  case_decide as HP.
  - cbn [journal_replay]. destruct (is_some_and _ _) eqn:Hs; [by apply IH|].
    destruct (apply_entry _ _ _ _ _) as [[r data']|] eqn:Ha; [|done]. cbn. apply IH. intros e' He' Hn.
    specialize (Hes e' He' Hn). rewrite (apply_entry_last _ _ _ _ _ Ha). pose proof Hes as (last & Hl & _)%upto_spec.
    rewrite Hl in Hes, Hs. cbn in Hs. apply negb_false_iff in Hs. by eapply upto_after.
  - rewrite (Hup e) by (by try left). by apply IH.
Qed.

(** New entries: each comes after the one before. *)
Fixpoint ascending (last : option LogId) (ids : list LogId) : Prop :=
  match ids with
  | [] => True
  | id :: ids => ~ upto id last /\ ascending (Some id) ids
  end.

Lemma replay_apply data es rs (data' : StateMachineData Membership) :
  ascending (sd_last_applied_log data) (le_log_id <$> es) -> apply_entries log_id_text kind data es = Some (rs, data') ->
  replay data (journal_entry <$> es) = Some data' /\ oupto (sd_last_applied_log data) (sd_last_applied_log data') /\
  forall e, e ∈ journal_entry <$> es -> upto (je_log_id e) (sd_last_applied_log data').
Proof.
  revert data rs; induction es as [|e es IH]; intros data rs; cbn [fmap list_fmap ascending apply_entries journal_replay].
  { intros _ [= <- <-]. split_and!; [done|apply oupto_refl|by intros e ?%not_elem_of_nil]. }
  intros [Hn Ha]. cbn [je_log_id journal_entry je_payload].
  assert (Hs : is_some_and (fun last => negb (is_log_after (le_log_id e) last)) (sd_last_applied_log data) = false) by (by apply not_true_is_false).
  rewrite Hs. destruct (apply_entry log_id_text kind data (le_log_id e) (le_payload e)) as [[r d1]|] eqn:E1; [|done]. cbn.
  destruct (apply_entries log_id_text kind d1 es) as [[rs1 d2]|] eqn:E2; [|done]. cbn. intros [= <- <-].
  pose proof (apply_entry_last _ _ _ _ _ E1) as Hl. rewrite <-Hl in Ha. destruct (IH _ _ Ha E2) as (Hr & Ho & Hu). rewrite Hl in Ho.
  split_and!; [done| |].
  - eapply oupto_trans; [|exact Ho]. unfold oupto. destruct (sd_last_applied_log data) as [last|]; [|done]. cbn in Hs |- *.
    apply negb_false_iff, is_log_after_spec in Hs. apply not_true_is_false. rewrite is_log_after_spec. lia.
  - intros x [->|Hx]%elem_of_cons; [|by apply Hu]. by apply oupto_some.
Qed.

(** ** Round trips of the written forms *)

Lemma btree_collect_lookup {K A} `{Countable K} (l : list (K * A)) k a :
  NoDup l.*1 -> btree_collect l !! k = Some a <-> (k, a) ∈ l.
Proof.
  unfold btree_collect. induction l as [|[k' a'] l IH] using rev_ind; intros Hnd.
  - cbn [foldl]. rewrite lookup_empty. split; [done|by intros ?%not_elem_of_nil].
  - rewrite fmap_app in Hnd. apply NoDup_app in Hnd as (Hnd & Hd & _). rewrite foldl_snoc, elem_of_app, list_elem_of_singleton.
    destruct (decide (k = k')) as [->|Hne].
    + rewrite lookup_insert_eq. split; [intros [= ->]; by right|]. intros [Hin|[= ->]]; [|done].
      apply (list_elem_of_fmap_2 fst) in Hin. exfalso. apply (Hd _ Hin). by left.
    + rewrite lookup_insert_ne, IH by done. split; [by left|]. by intros [?|[= ? ?]].
Qed.

Lemma btree_collect_items {K A} `{Countable K} (m : gmap K A) l : l ≡ₚ map_to_list m -> btree_collect l = m.
Proof.
  intros Hp. assert (Hnd : NoDup l.*1) by (rewrite Hp; apply NoDup_fst_map_to_list).
  apply map_eq. intros k. apply option_eq. intros a. by rewrite btree_collect_lookup, Hp, elem_of_map_to_list.
Qed.

Lemma pair_items_perm {A} (m : gmap (string * string) A) : pair_items m ≡ₚ map_to_list m.
Proof. unfold pair_items. by rewrite merge_sort_Permutation. Qed.

Lemma collect_persisted_consumers st : collect_consumers (persisted_consumers st) = st_consumers st.
Proof.
  unfold collect_consumers, persisted_consumers. apply btree_collect_items. rewrite <-list_fmap_compose, pair_items_perm.
  rewrite (list_fmap_ext _ id); [by rewrite list_fmap_id|]. by intros _ [[s c] o] _.
Qed.

Lemma entries_of_persisted st : entries_of (persisted_group_consumers st) = pair_items (st_group_consumers st).
Proof.
  unfold entries_of, persisted_group_consumers. rewrite <-list_fmap_compose.
  rewrite (list_fmap_ext _ id); [by rewrite list_fmap_id|]. by intros _ [[s c] o] _.
Qed.

Lemma collect_persisted_group_consumers st : collect_group_consumers (persisted_group_consumers st) = st_group_consumers st.
Proof.
  unfold collect_group_consumers. change ((fun c => ((pg_stream c, pg_consumer c), pg_state c)) <$> persisted_group_consumers st)
    with (entries_of (persisted_group_consumers st)). rewrite entries_of_persisted. apply btree_collect_items, pair_items_perm.
Qed.

Lemma collect_persisted_streams st : into_state <$> (persisted_stream <$> st_streams st) = st_streams st.
Proof. rewrite <-map_fmap_compose. rewrite (map_fmap_ext _ id); [by rewrite map_fmap_id|]. by intros k [] _. Qed.

Lemma snapshot_state_roundtrip st : snapshot_state_from_persisted (persisted_snapshot st) = st.
Proof.
  unfold snapshot_state_from_persisted, persisted_snapshot.
  cbn [pn_streams pn_consumers pn_group_consumers pn_lease_clock_ms pn_dedup pn_redeliveries pn_dead_letters].
  rewrite collect_persisted_streams, collect_persisted_consumers, collect_persisted_group_consumers. by destruct st.
Qed.

Lemma state_data_roundtrip (data : StateMachineData Membership) : state_machine_data_from_persisted (persisted_state data) = data.
Proof.
  unfold state_machine_data_from_persisted, persisted_state.
  cbn [pt_last_applied_log pt_last_membership pt_streams pt_consumers pt_group_consumers pt_lease_clock_ms pt_dedup pt_redeliveries
    pt_dead_letters].
  rewrite collect_persisted_streams, collect_persisted_consumers, collect_persisted_group_consumers. by destruct data as [l m []].
Qed.

(** ** States that pass the check of recovery *)

Definition checked (st : SnapshotState) : Prop :=
  forall k c, st_group_consumers st !! k = Some c -> validate_pinned_policies c = Ok tt.

Lemma validate_entries_ok l : (forall k c, (k, c) ∈ l -> validate_pinned_policies c = Ok tt) -> validate_group_consumer_entries l = Ok tt.
Proof.
  induction l as [|[[s n] c] l IH]; intros Hl; [done|]. cbn. rewrite (Hl (s, n) c) by (by left). apply IH. intros k c' Hin.
  apply (Hl k). by right.
Qed.

Lemma checked_items st : checked st -> validate_group_consumer_entries (pair_items (st_group_consumers st)) = Ok tt.
Proof. intros Hc. apply validate_entries_ok. intros k c. rewrite pair_items_perm, elem_of_map_to_list. apply Hc. Qed.

Lemma wf_checked st : snapshot_wf st -> checked st.
Proof. intros Hwf [s n] c Hc. destruct (sw_group _ Hwf s n c Hc) as [_ Hg]. by eapply group_wf_validates. Qed.

(** Entries that can be applied: valid commands, and room for what they store. *)
Fixpoint appliable (data : StateMachineData Membership) (es : list (LogEntry Membership)) : Prop :=
  match es with
  | [] => True
  | e :: es =>
    match le_payload e with Normal command => state_fits (sd_state data) /\ command_valid command | _ => True end /\
    forall r data', apply_entry log_id_text kind data (le_log_id e) (le_payload e) = Some (r, data') -> appliable data' es
  end.

Lemma apply_entry_total data e :
  snapshot_wf (sd_state data) ->
  match le_payload e with Normal command => state_fits (sd_state data) /\ command_valid command | _ => True end ->
  exists r data', apply_entry (Membership := Membership) log_id_text kind data (le_log_id e) (le_payload e) = Some (r, data') /\ snapshot_wf (sd_state data').
Proof.
  intros Hwf He. destruct (le_payload e) as [|command|m]; cbn; [by eexists _, _| |by eexists _, _]. destruct He as [Hf Hv].
  destruct (apply_command_steps (sd_state data) command kind (log_id_text (le_log_id e)) Hwf Hf Hv) as (r & st & -> & Hs).
  cbn. eexists _, _. split; [done|]. apply Hs.
Qed.

Lemma apply_entries_total data es :
  snapshot_wf (sd_state data) -> appliable data es ->
  exists rs data', apply_entries log_id_text kind data es = Some (rs, data') /\ snapshot_wf (sd_state data').
Proof.
  revert data; induction es as [|e es IH]; intros data Hwf; [by eexists _, _|]. cbn [appliable apply_entries]. intros [He Hes].
  destruct (apply_entry_total data e Hwf He) as (r & d1 & E1 & Hwf1). rewrite E1. cbn.
  destruct (IH d1 Hwf1 (Hes _ _ E1)) as (rs & d2 & E2 & Hwf2). rewrite E2. cbn. by eexists _, _.
Qed.

Lemma appliable_take data es k : appliable data es -> appliable data (take k es).
Proof.
  revert data k; induction es as [|e es IH]; intros data [|k] H; [done..|]. cbn [take appliable] in *. destruct H as [He Hes].
  split; [done|]. intros r data' Ha. apply IH. by eapply Hes.
Qed.

Lemma ascending_take last ids k : ascending last ids -> ascending last (take k ids).
Proof. revert last k; induction ids as [|id ids IH]; intros last [|k]; cbn; [done..|]. intros [? ?]. auto. Qed.
End recovery.
