(* ===== verification/RaftStateSteps.v ===== *)
(** The steps of the state machine store on the disk: replacing a file,
    appending to the journal, reading and compacting it, and what each leaves
    when it fails on the way. *)

From S2P Require Import Prelude Engine RecordFormat Names Paths Disk RaftLogFormat RaftLogSegments RaftState RaftDelivery RaftInvariant RaftHandlers RaftBatch RaftStateMachine RaftJournal RaftStateStore RaftStateRecovery.

Local Open Scope N_scope.

Section steps.
Context {Membership : Type} {J : JournalJson Membership} {L : JournalJsonLaws J} (os : Os) (path : string).

(** ** The files of the directory *)

Definition fl (d : Disk) (name : string) : option (list byte) := disk_file d (in_directory path name).

(** The disks have the same files in the directory but for [names]. *)
Definition agree (names : list string) (d d' : Disk) : Prop :=
  (is_Some (d !! path) -> is_Some (d' !! path)) /\ forall n, n ∉ names -> fl d' n = fl d n.

Lemma files_agree_refl names d : agree names d d.
Proof. by split. Qed.

Lemma agree_trans names d d' d'' : agree names d d' -> agree names d' d'' -> agree names d d''.
Proof. intros [Hd1 H1] [Hd H2]. split; [auto|]. intros n Hn. by rewrite H2, H1. Qed.

Lemma agree_weaken names names' d d' : agree names d d' -> names ⊆ names' -> agree names' d d'.
Proof. intros [Hd Hn] Hsub. split; [done|]. intros n Hni. apply Hn. set_solver. Qed.

Lemma fl_put d n b m : is_Some (d !! path) -> fl (disk_put d (in_directory path n) b) m = if decide (m = n) then Some b else fl d m.
Proof.
  intros [files Hd]. unfold fl. rewrite (disk_file_dir _ (in_directory path m) (<[n := b]> files)) by (by apply (disk_put_dir d (in_directory path n))).
  cbn. case_decide as Hm; [subst; apply lookup_insert_eq|]. rewrite lookup_insert_ne by done. by rewrite (disk_file_dir _ _ files).
Qed.

Lemma fl_remove d n m : is_Some (d !! path) -> fl (disk_remove d (in_directory path n)) m = if decide (m = n) then None else fl d m.
Proof.
  intros [files Hd]. unfold fl. rewrite (disk_file_dir _ (in_directory path m) (delete n files)) by (by apply (disk_remove_dir d (in_directory path n))).
  cbn. case_decide as Hm; [subst; apply lookup_delete_eq|]. rewrite lookup_delete_ne by done. by rewrite (disk_file_dir _ _ files).
Qed.

Lemma put_dir d n b : is_Some (d !! path) -> is_Some (disk_put d (in_directory path n) b !! path).
Proof. intros [files Hd]. eexists. exact (disk_put_dir d (in_directory path n) b files Hd). Qed.

Lemma remove_dir d n : is_Some (d !! path) -> is_Some (disk_remove d (in_directory path n) !! path).
Proof. intros [files Hd]. eexists. exact (disk_remove_dir d (in_directory path n) files Hd). Qed.

Lemma agree_put names d n b : is_Some (d !! path) -> n ∈ names -> agree names d (disk_put d (in_directory path n) b).
Proof. intros Hd Hn. split; [intros; by apply put_dir|]. intros m Hm. rewrite fl_put by done. by case_decide; subst. Qed.

Lemma agree_remove names d n : is_Some (d !! path) -> n ∈ names -> agree names d (disk_remove d (in_directory path n)).
Proof. intros Hd Hn. split; [intros; by apply remove_dir|]. intros m Hm. rewrite fl_remove by done. by case_decide; subst. Qed.

(** The temporary name that a file is written under. *)
Definition temp_of (name : string) : string := path_file_name (temp_path os (in_directory path name)).

Lemma temp_path_of name : temp_path os (in_directory path name) = in_directory path (temp_of name).
Proof. done. Qed.

(** ** Replacing a file *)

Lemma wp_atomic name bytes (Q : unit -> World -> Prop) (F : Disk -> Prop) w :
  is_Some (w_disk w !! path) ->
  (forall w', agree [temp_of name; name] (w_disk w) (w_disk w') -> fl (w_disk w') name = Some bytes -> Q tt w') ->
  (faulty os -> forall d, agree [temp_of name] (w_disk w) d \/ (agree [temp_of name; name] (w_disk w) d /\ fl d name = Some bytes) -> F d) ->
  io_wp (atomic_write os (in_directory path name) bytes) Q F w.
Proof.
  intros Hd HQ HF. pose proof Hd as [files Hfiles]. unfold atomic_write. rewrite temp_path_of. set (tmp := temp_of name) in *.
  assert (Hsame : forall d b, is_Some (d !! path) -> agree [tmp] (w_disk w) d -> agree [tmp] (w_disk w) (disk_put d (in_directory path tmp) b)).
  { intros d b Hd' Ha. eapply agree_trans; [exact Ha|]. apply agree_put; [done|by left]. }
  assert (H0 : agree [tmp] (w_disk w) (w_disk w)) by (by apply files_agree_refl).
  apply io_wp_bind. apply (io_wp_create_dir_all os _ files); [done| |intros Hf; apply HF; [done|by left]].
  apply io_wp_bind. apply (io_wp_file_create os _ files); [done| |intros Hf; apply HF; [done|by left]]. cbn [later w_disk].
  set (d1 := disk_put (w_disk w) (in_directory path tmp) []). assert (Hd1 : is_Some (d1 !! path)) by (by apply put_dir).
  assert (Ha1 : agree [tmp] (w_disk w) d1) by (by apply Hsame).
  assert (Hf1 : disk_file d1 (in_directory path tmp) = Some []) by (change (fl d1 tmp = Some []); unfold d1; by rewrite fl_put, decide_True by done).
  apply io_wp_bind. apply (io_wp_file_write os _ []); [exact Hf1| |intros Hf n; apply HF; [done|left; by apply Hsame]].
  cbn [later w_disk app]. set (d2 := disk_put d1 (in_directory path tmp) bytes). assert (Hd2 : is_Some (d2 !! path)) by (by apply put_dir).
  assert (Ha2 : agree [tmp] (w_disk w) d2) by (by apply Hsame).
  assert (Hf2 : disk_file d2 (in_directory path tmp) = Some bytes) by (change (fl d2 tmp = Some bytes); unfold d2; by rewrite fl_put, decide_True by done).
  apply io_wp_bind, io_wp_sync; [|intros Hf; apply HF; [done|by left]]. cbn [later w_disk].
  apply io_wp_bind. apply (io_wp_rename os _ _ bytes); [exact Hf2| |intros Hf; apply HF; [done|by left]]. cbn [later w_disk].
  set (d3 := disk_put (disk_remove d2 (in_directory path tmp)) (in_directory path name) bytes).
  assert (Ha3 : agree [tmp; name] (w_disk w) d3).
  { eapply agree_trans; [eapply agree_weaken; [exact Ha2|set_solver]|]. eapply agree_trans; [by apply agree_remove; [|left]|].
    apply agree_put; [by apply remove_dir|right; by left]. }
  assert (Hf3 : fl d3 name = Some bytes) by (unfold d3; by rewrite fl_put, decide_True by (done || by apply remove_dir)).
  apply io_wp_sync; [by apply HQ|]. intros Hf. apply HF; [done|]. by right.
Qed.

(** ** Writing the journal *)

Lemma frames_app (es es' : list (JournalEntry Membership)) : frames (es ++ es') = frames es ++ frames es'.
Proof. unfold frames. by rewrite fmap_app, concat_app. Qed.

Lemma record_part e n : writable e -> torn_record (take n (record_frame e)) \/ take n (record_frame e) = record_frame e.
Proof.
  intros Hw. destruct (decide (n < length (record_frame e))%nat); [left; right; by exists e, n|]. right. apply take_ge. lia.
Qed.

Lemma wp_journal_append n e old (Q : unit -> World -> Prop) (F : Disk -> Prop) w :
  fl (w_disk w) n = Some old -> je_version e = JOURNAL_FORMAT_VERSION -> is_Some (w_disk w !! path) ->
  (forall w', agree [n] (w_disk w) (w_disk w') -> fl (w_disk w') n = Some (old ++ record_frame e) -> writable e -> Q tt w') ->
  (~ writable e -> F (w_disk w)) ->
  (faulty os -> writable e -> forall d k, agree [n] (w_disk w) d -> fl d n = Some (old ++ take k (record_frame e)) -> F d) ->
  io_wp (journal_append os (in_directory path n) e) Q F w.
Proof.
  intros Hold Hv Hd HQ HF0 HF. unfold journal_append. rewrite journal_to_json_eq.
  destruct (N.ltb_spec MAX_RECORD_SIZE (vec_len (entry_bytes e))) as [Hbig|Hok].
  { apply io_wp_fail, HF0. intros [_ ?]. lia. }
  assert (Hw : writable e) by done. unfold u32_try_from.
  rewrite (proj2 (N.leb_le _ _)) by (unfold MAX_RECORD_SIZE, u32_max in *; lia).
  assert (Hput : forall d b, is_Some (d !! path) -> agree [n] (w_disk w) d -> agree [n] (w_disk w) (disk_put d (in_directory path n) b)).
  { intros d b Hd' Ha. eapply agree_trans; [exact Ha|]. apply agree_put; [done|by left]. }
  set (len := to_le_bytes 4 (vec_len (entry_bytes e))).
  assert (Hfr : record_frame e = len ++ entry_bytes e) by done.
  assert (Hll : length len = 4%nat) by apply length_to_le_bytes.
  apply io_wp_bind. apply (io_wp_file_write os _ old); [exact Hold| |].
  2: { intros Hf k. apply (HF Hf Hw _ (Nat.min k 4)); [by apply Hput|]. rewrite fl_put, decide_True by done. do 2 f_equal.
       rewrite Hfr, take_app_le by lia. by rewrite <-Hll, <-take_take, firstn_all. }
  cbn [later w_disk]. set (d1 := disk_put (w_disk w) (in_directory path n) (old ++ len)).
  assert (Hd1 : is_Some (d1 !! path)) by (by apply put_dir). assert (Ha1 : agree [n] (w_disk w) d1) by (by apply Hput).
  assert (Hf1 : disk_file d1 (in_directory path n) = Some (old ++ len)).
  { change (fl d1 n = Some (old ++ len)). unfold d1. by rewrite fl_put, decide_True by done. }
  apply (io_wp_file_write os _ (old ++ len)); [exact Hf1| |].
  - cbn [later w_disk]. apply HQ; cbn [later w_disk]; [by apply Hput| |done].
    rewrite fl_put, decide_True by done. by rewrite Hfr, app_assoc.
  - intros Hf k. cbn [later w_disk]. apply (HF Hf Hw _ (4 + k)%nat); [by apply Hput|].
    rewrite fl_put, decide_True by done. by rewrite <-app_assoc, Hfr, take_app_add' by done.
Qed.

Lemma wp_append_all n es old (Q : unit -> World -> Prop) (F : Disk -> Prop) w :
  fl (w_disk w) n = Some old -> Forall (fun e => je_version e = JOURNAL_FORMAT_VERSION) es -> is_Some (w_disk w !! path) ->
  (forall w', agree [n] (w_disk w) (w_disk w') -> fl (w_disk w') n = Some (old ++ frames es) -> Forall writable es -> Q tt w') ->
  (faulty os \/ ~ Forall writable es -> forall d k t, agree [n] (w_disk w) d -> torn_record t -> Forall writable (take k es) ->
     fl d n = Some (old ++ frames (take k es) ++ t) -> F d) ->
  io_wp (append_all os (in_directory path n) es) Q F w.
Proof.
  revert old w; induction es as [|e es IH]; intros old w Hold Hv Hd HQ HF; cbn [append_all].
  { apply io_wp_ret, HQ; [by apply files_agree_refl|by rewrite app_nil_r|constructor]. }
  apply Forall_cons in Hv as [Hve Hv]. apply io_wp_bind. apply (wp_journal_append n e old); [done|done|done| | |].
  - intros w1 Ha1 Hf1 Hw. apply (IH (old ++ record_frame e)); [done|done|by apply Ha1| |].
    + intros w2 Ha2 Hf2 Hws. apply HQ; [by eapply agree_trans| |by constructor]. by rewrite Hf2, <-app_assoc.
    + intros Hc d k t Ha Ht Hws Hfl. apply (HF ltac:(destruct Hc as [?|Hc]; [by left|right; intros [_ ?]%Forall_cons; by apply Hc]) d (S k) t);
        [by eapply agree_trans|done|by constructor|].
      rewrite Hfl. cbn [take]. change (frames (e :: take k es)) with (record_frame e ++ frames (take k es)). by rewrite <-!app_assoc.
  - intros Hnw. apply (HF ltac:(right; by intros [? _]%Forall_cons) _ 0%nat []); [by apply files_agree_refl|by left|constructor|].
    by rewrite app_nil_r.
  - intros Hf Hw d k Ha Hfl. destruct (record_part e k Hw) as [Ht|Ht].
    + apply (HF ltac:(by left) d 0%nat (take k (record_frame e))); [done|done|constructor|done].
    + apply (HF ltac:(by left) d 1%nat []); [done|by left|cbn [take]; rewrite take_0; apply Forall_cons; split; [done|constructor]|]. rewrite Hfl, Ht. do 2 f_equal.
      cbn [take]. rewrite take_0. unfold frames. cbn. by rewrite !app_nil_r.
Qed.

(** ** Reading the journal *)

Definition journal_holds (d : Disk) (es : list (JournalEntry Membership)) (torn : list byte) : Prop :=
  fl d JOURNAL_FILE = Some (frames es ++ torn) \/ (fl d JOURNAL_FILE = None /\ es = [] /\ torn = []).

Lemma reads_journal_parse es torn w :
  Forall writable es -> torn_record torn -> journal_holds (w_disk w) es torn ->
  reads os (journal_parse os (in_directory path JOURNAL_FILE))
    (es, if decide (torn = []) then None else Some (vec_len (frames es))) w.
Proof.
  intros Hw Ht [Hj|(Hj & -> & ->)]; unfold journal_parse, reads, fl in *.
  - apply io_wp_bind. eapply io_wp_file_present; [done|]. cbn [negb].
    apply io_wp_bind, io_wp_map_err. apply (io_wp_read_file os _ (frames es ++ torn)); [done| |done].
    rewrite parse_frames, N.add_0_l by done. cbn [io_lift]. by apply io_wp_ret.
  - apply io_wp_bind, io_wp_file_absent; [done|]. by apply io_wp_ret.
Qed.

Lemma wp_journal_read es torn w :
  Forall writable es -> torn_record torn -> journal_holds (w_disk w) es torn ->
  io_wp (journal_read os (in_directory path JOURNAL_FILE))
    (fun r w' => r = es /\ agree [JOURNAL_FILE] (w_disk w) (w_disk w') /\ journal_holds (w_disk w') es [])
    (fun d => faulty os /\ agree [JOURNAL_FILE] (w_disk w) d /\ exists torn', torn_record torn' /\ journal_holds d es torn') w.
Proof.
  intros Hw Ht Hj. unfold journal_read. eapply reads_bind; [by apply reads_journal_parse| |].
  2: { intros Hf. split_and!; [done|apply files_agree_refl|by exists torn]. }
  intros w1 Hw1. cbn. case_decide as Htn.
  { apply io_wp_ret. rewrite Hw1. subst torn. split_and!; [done|apply files_agree_refl|done]. }
  destruct Hj as [Hj|(_ & _ & ->)]; [|done]. unfold fl in Hj.
  assert (Herr : faulty os -> faulty os /\ agree [JOURNAL_FILE] (w_disk w) (w_disk w) /\ exists torn', torn_record torn' /\ journal_holds (w_disk w) es torn').
  { intros Hf. split_and!; [done|apply files_agree_refl|]. exists torn. split; [done|by left]. }
  apply io_wp_bind, io_wp_map_err. apply (io_wp_file_open os _ (frames es ++ torn)); [by rewrite Hw1| |by rewrite Hw1].
  apply io_wp_bind, io_wp_map_err. apply (io_wp_set_len os _ (frames es ++ torn)); cbn [later w_disk]; rewrite ?Hw1; [done| |done].
  assert (Hlen : N.to_nat (vec_len (frames es)) = length (frames es)) by (unfold vec_len; lia). rewrite Hlen, take_app_length.
  assert (Hdir : is_Some (w_disk w !! path)).
  { unfold disk_file in Hj. cbn in Hj. destruct (w_disk w !! path); [by eexists|done]. }
  set (d1 := disk_put (w_disk w) (in_directory path JOURNAL_FILE) (frames es)).
  assert (Ha1 : agree [JOURNAL_FILE] (w_disk w) d1) by (apply agree_put; [done|by left]).
  assert (Hj1 : journal_holds d1 es []) by (left; unfold d1; by rewrite fl_put, decide_True, app_nil_r by done).
  apply io_wp_bind, io_wp_map_err, io_wp_sync; cbn [later w_disk]; [by apply io_wp_ret|].
  intros Hf. split_and!; [done|done|]. exists []. split; [by left|done].
Qed.

(** ** Compacting the journal *)

Context (broker_error_text : BrokerError -> string).

Lemma wp_compact (store : StateMachineStore (Membership := Membership)) last es torn w :
  sm_path store = Some path -> is_Some (w_disk w !! path) -> temp_of JOURNAL_FILE <> JOURNAL_FILE ->
  Forall writable es -> torn_record torn -> journal_holds (w_disk w) es torn ->
  io_wp (compact_journal os broker_error_text store last)
    (fun _ w' => agree [temp_of JOURNAL_FILE; JOURNAL_FILE] (w_disk w) (w_disk w') /\
       fl (w_disk w') JOURNAL_FILE = Some (frames (retained_entries last es)))
    (fun d => faulty os /\ agree [temp_of JOURNAL_FILE; JOURNAL_FILE] (w_disk w) d /\
       ((exists torn', torn_record torn' /\ journal_holds d es torn') \/ journal_holds d (retained_entries last es) [])) w.
Proof.
  intros Hpath Hd Htmp Hw Ht Hj. unfold compact_journal. rewrite Hpath. set (tmp := temp_of JOURNAL_FILE) in *. apply io_wp_bind, io_wp_map_err.
  assert (Hsub : forall n d d', agree [n] d d' -> n ∈ [tmp; JOURNAL_FILE] -> agree [tmp; JOURNAL_FILE] d d').
  { intros n d d' Ha Hn. eapply agree_weaken; [exact Ha|set_solver]. }
  eapply io_wp_mono; [by apply (wp_journal_read es torn)| |].
  2: { intros d (Hf & Ha & Ht'). split_and!; [done|eapply Hsub; [exact Ha|right; by left]|by left]. }
  intros entries w1 (-> & Ha1 & Hj1). apply io_wp_map_err. rewrite temp_path_of. fold tmp.
  apply (Hsub _ _ _) in Ha1; [|right; by left]. assert (Hd1 : is_Some (w_disk w1 !! path)) by (by apply Ha1). pose proof Hd1 as [files1 Hfiles1].
  (* a disk that differs from the one after reading in the temporary file *)
  assert (Hkeep : faulty os -> forall d, agree [tmp] (w_disk w1) d -> faulty os /\ agree [tmp; JOURNAL_FILE] (w_disk w) d /\
    ((exists torn', torn_record torn' /\ journal_holds d es torn') \/ journal_holds d (retained_entries last es) [])).
  { intros Hf d Ha. split_and!; [done|eapply agree_trans; [exact Ha1|eapply Hsub; [exact Ha|by left]]|]. left. exists []. split; [by left|].
    unfold journal_holds. rewrite (proj2 Ha) by (by intros ?%list_elem_of_singleton). exact Hj1. }
  apply io_wp_bind. apply (io_wp_file_create os _ files1); [done| |intros Hf; by apply Hkeep, files_agree_refl]. cbn [later w_disk].
  set (d2 := disk_put (w_disk w1) (in_directory path tmp) []). assert (Ha2 : agree [tmp] (w_disk w1) d2) by (apply agree_put; [done|by left]).
  apply io_wp_bind. apply (wp_append_all tmp (retained_entries last es) []); cbn [later w_disk]; fold d2.
  - unfold d2. by rewrite fl_put, decide_True by done.
  - apply Forall_forall. intros e [_ He]%list_elem_of_filter. rewrite Forall_forall in Hw. by apply Hw.
  - by apply Ha2.
  - intros w3 Ha3 Hf3 Hwr. apply (agree_trans _ _ _ _ Ha2) in Ha3.
    apply io_wp_bind, io_wp_sync; [|intros Hf; by apply Hkeep]. cbn [later w_disk]. apply io_wp_bind.
    apply (io_wp_rename os _ _ (frames (retained_entries last es))); [exact Hf3| |intros Hf; by apply Hkeep]. cbn [later w_disk].
    assert (Hd3 : is_Some (w_disk w3 !! path)) by (by apply Ha3).
    set (d4 := disk_put (disk_remove (w_disk w3) (in_directory path tmp)) (in_directory path JOURNAL_FILE) _).
    assert (Ha4 : agree [tmp; JOURNAL_FILE] (w_disk w) d4).
    { eapply agree_trans; [exact Ha1|]. eapply agree_trans; [eapply Hsub; [exact Ha3|by left]|].
      eapply agree_trans; [by apply agree_remove; [|left]|]. apply agree_put; [by apply remove_dir|right; by left]. }
    assert (Hf4 : fl d4 JOURNAL_FILE = Some (frames (retained_entries last es))).
    { unfold d4. by rewrite fl_put, decide_True by (done || by apply remove_dir). }
    assert (Hj4 : journal_holds d4 (retained_entries last es) []) by (left; by rewrite app_nil_r).
    apply io_wp_bind, io_wp_sync; [|intros Hf; split_and!; [done|done|by right]]. cbn [later w_disk].
    destruct (proj1 Ha4 Hd) as [files4 Hd4]. apply (io_wp_open_append os _ files4); [done| |intros Hf; split_and!; [done|done|by right]].
    cbn [later w_disk]. pose proof Hf4 as Hf5. unfold fl in Hf5. by rewrite Hf5.
  - intros Hc d k t Ha _ _ _. apply Hkeep; [|by eapply agree_trans]. destruct Hc as [?|Hc]; [done|]. exfalso. apply Hc.
    apply Forall_forall. intros e [_ He]%list_elem_of_filter. rewrite Forall_forall in Hw. by apply Hw.
Qed.
End steps.
