(* ===== verification/RaftStateGuarantees.v ===== *)
(** What the state machine store promises: the state after every restart is
    the one that the acknowledged entries and snapshots make, whatever failed
    on the way and however the steps of building a snapshot fall between the
    other operations. *)

From S2P Require Import Prelude Engine RecordFormat Names Paths Disk RaftLogFormat RaftLogSegments RaftState RaftDelivery RaftInvariant RaftHandlers RaftBatch RaftStateMachine RaftJournal RaftStateStore RaftStateRecovery RaftStateSteps.

Local Open Scope N_scope.

(** ** The names of the files *)

Definition store_files : list string := [STATE_FILE; SNAPSHOT_FILE; JOURNAL_FILE].

Lemma in_state : STATE_FILE ∈ store_files.
Proof. unfold store_files. set_solver. Qed.
Lemma in_snapshot : SNAPSHOT_FILE ∈ store_files.
Proof. unfold store_files. set_solver. Qed.
Lemma in_journal : JOURNAL_FILE ∈ store_files.
Proof. unfold store_files. set_solver. Qed.

Lemma temp_not_file os path name m : name ∈ store_files -> m ∈ store_files -> temp_of os path name <> m.
Proof.
  intros Hn Hm Heq. apply (f_equal as_bytes) in Heq. unfold temp_of, temp_path in Heq. cbn [path_file_name in_directory] in Heq.
  rewrite as_bytes_of_bytes in Heq. unfold store_files in *.
  revert Heq. generalize (dec_u32 (os_pid os)). intros pid Heq.
  repeat (apply elem_of_cons in Hn as [->|Hn]); try (by apply not_elem_of_nil in Hn);
    repeat (apply elem_of_cons in Hm as [->|Hm]); try (by apply not_elem_of_nil in Hm); by vm_compute in Heq.
Qed.

(** The checkpoint and the compacted journal are written under the same name. *)
Lemma temp_shared os path : temp_of os path STATE_FILE = temp_of os path JOURNAL_FILE.
Proof.
  unfold temp_of, temp_path. cbn [path_file_name in_directory]. generalize (dec_u32 (os_pid os)). intros pid. f_equal.
Qed.

Section guarantees.
Context {Membership : Type} {J : JournalJson Membership} {L : JournalJsonLaws J} {S : StoreJson Membership} {SL : StoreJsonLaws S}.
Context (log_id_text : LogId -> string) (broker_error_text : BrokerError -> string) (no_members : StoredMembership Membership).
Context (path : string) (kind : GroupKind).

Abbreviation Data := (StateMachineData Membership).
Abbreviation replay := (journal_replay log_id_text kind).
Abbreviation fl := (RaftStateSteps.fl path).
Abbreviation agree := (RaftStateSteps.agree path).
Abbreviation journal_holds := (RaftStateSteps.journal_holds path).

(** ** What the files hold *)

(** A snapshot with the state in it. *)
Definition Image : Type := StoredSnapshot Membership * SnapshotState.

Definition image_ok (i : Image) : Prop :=
  exists p, validate_snapshot_data (sn_data i.1) = Ok p /\ snapshot_state_from_persisted p = i.2.

Definition image_log (i : Image) : option LogId := mt_last_log_id (sn_meta i.1).

Definition image_data (i : Image) : Data :=
  {| sd_last_applied_log := image_log i; sd_last_membership := mt_last_membership (sn_meta i.1); sd_state := i.2 |}.

Definition state_bytes (c : Data) : list byte := default [] (persisted_to_json (persisted_state c)).
Definition stored_bytes (i : Image) : list byte := default [] (stored_to_json i.1).

Record on_disk (d : Disk) (c : option Data) (s : option Image) (es : list (JournalEntry Membership)) (torn : list byte) : Prop := {
  od_state : fl d STATE_FILE = state_bytes <$> c;
  od_snapshot : fl d SNAPSHOT_FILE = stored_bytes <$> s;
  od_journal : journal_holds d es torn;
}.

(** Where replaying the journal starts. *)
Definition start_data (c : option Data) : Data := default (data_default no_members) c.
Definition base (c : option Data) (s : option Image) : Data := newer_state (start_data c) s.

(** The files mean the state [data]. *)
Record means (c : option Data) (s : option Image) (es : list (JournalEntry Membership)) (data : Data) : Prop := {
  me_replay : replay (base c s) es = Some data;
  me_journal : Forall writable es;
  me_upto : forall e, e ∈ es -> upto (je_log_id e) (sd_last_applied_log data);
  me_state : forall x, c = Some x -> checked (sd_state x) /\ oupto (sd_last_applied_log x) (sd_last_applied_log data);
  me_snapshot : forall i, s = Some i -> image_ok i /\ oupto (image_log i) (sd_last_applied_log data);
  me_wf : snapshot_wf (sd_state data);
}.

Definition keeps (data : Data) (d : Disk) : Prop :=
  exists c s es torn, on_disk d c s es torn /\ torn_record torn /\ means c s es data.

Lemma on_disk_agree names d d' c s es torn :
  on_disk d c s es torn -> agree names d d' -> (forall n, n ∈ store_files -> n ∉ names) -> on_disk d' c s es torn.
Proof.
  intros [H1 H2 H3] [_ Ha] Hn. split; unfold RaftStateSteps.journal_holds; rewrite Ha by (apply Hn; unfold store_files; set_solver); done.
Qed.

Lemma base_data c s : base c s = match s with
  | Some i => if is_optional_log_after (image_log i) (sd_last_applied_log (start_data c)) then image_data i else start_data c
  | None => start_data c end.
Proof. unfold base, newer_state. destruct s as [[s st]|]; [|done]. done. Qed.

(** ** How the meaning changes *)

Lemma means_apply c s es data xs rs data' :
  means c s es data -> ascending (sd_last_applied_log data) (le_log_id <$> xs) ->
  apply_entries log_id_text kind data xs = Some (rs, data') -> snapshot_wf (sd_state data') ->
  Forall writable (journal_entry <$> xs) -> means c s (es ++ (journal_entry <$> xs)) data'.
Proof.
  intros [Hr Hj Hu Hc Hs Hwf] Ha Hap Hwf' Hw. destruct (replay_apply log_id_text kind data xs rs data' Ha Hap) as (Hr' & Ho & Hu'). split.
  - by rewrite replay_app, Hr.
  - by apply Forall_app.
  - intros e [He|He]%elem_of_app; [|by apply Hu']. eapply upto_oupto; [by apply Hu|done].
  - intros x Hx. destruct (Hc x Hx). split; [done|by eapply oupto_trans].
  - intros i Hi. destruct (Hs i Hi). split; [done|by eapply oupto_trans].
  - done.
Qed.

(** A snapshot that may take the place of the one on the disk. *)
Lemma means_replace c s es data i :
  means c s es data -> image_ok i -> oupto (image_log i) (sd_last_applied_log data) -> replay (base c (Some i)) es = Some data ->
  means c (Some i) es data.
Proof. intros [] Hi Hl Hr. split; try done. by intros i' [= <-]. Qed.

(** The entries that the start of the replay has can go. *)
Lemma means_compact c s es data last :
  means c s es data -> oupto last (sd_last_applied_log (base c s)) -> means c s (retained_entries last es) data.
Proof.
  intros [Hr Hj Hu Hc Hs Hwf] Hl. split; try done.
  - unfold retained_entries. rewrite replay_filter; [done|]. intros e _ Hn. destruct last as [last|]; cbn in Hn; [|done].
    eapply (upto_oupto _ (Some last)); [|done]. apply not_true_is_false in Hn. unfold upto. cbn. by rewrite Hn.
  - apply Forall_forall. intros e [_ He]%list_elem_of_filter. rewrite Forall_forall in Hj. by apply Hj.
  - intros e [_ He]%list_elem_of_filter. by apply Hu.
Qed.

(** A snapshot or checkpoint of a later state takes the place of everything. *)
Lemma means_newer es data' c s :
  Forall writable es -> (forall e, e ∈ es -> upto (je_log_id e) (sd_last_applied_log data')) -> snapshot_wf (sd_state data') ->
  base c s = data' ->
  (forall x, c = Some x -> checked (sd_state x) /\ oupto (sd_last_applied_log x) (sd_last_applied_log data')) ->
  (forall i, s = Some i -> image_ok i /\ oupto (image_log i) (sd_last_applied_log data')) -> means c s es data'.
Proof. intros Hj Hu Hwf Hb Hc Hs. split; try done. rewrite Hb. by apply replay_skip. Qed.

Lemma base_last c s es data : means c s es data -> oupto (sd_last_applied_log (start_data c)) (sd_last_applied_log data).
Proof.
  intros Hm. destruct c as [c|]; [by apply (me_state _ _ _ _ Hm)|]. done.
Qed.

(** The state as it is now, as a snapshot. *)
Lemma capture_ok c s es data i :
  means c s es data -> image_data i = data ->
  oupto (image_log i) (sd_last_applied_log data) /\ replay (base c (Some i)) es = Some data.
Proof.
  intros Hm Hi. assert (Hl : image_log i = sd_last_applied_log data) by (by rewrite <-Hi). rewrite Hl. split; [apply oupto_refl|].
  rewrite base_data, Hi, Hl. destruct (is_optional_log_after _ _) eqn:Ha; [by apply replay_skip, Hm|].
  pose proof (me_replay _ _ _ _ Hm) as Hr. rewrite base_data in Hr. destruct s as [s|]; [|done].
  destruct (me_snapshot _ _ _ _ Hm s eq_refl) as [_ Hs].
  assert (Hns : is_optional_log_after (image_log s) (sd_last_applied_log (start_data c)) = false) by (by eapply oupto_trans).
  by rewrite Hns in Hr.
Qed.

(** ** The store in use *)

Record serving (store : StateMachineStore (Membership := Membership)) (d : Disk) (c : option Data) (s : option Image)
  (es : list (JournalEntry Membership)) (data : Data) : Prop := {
  se_state : sm_state store = data;
  se_path : sm_path store = Some path;
  se_kind : sm_kind store = kind;
  se_dir : is_Some (d !! path);
  se_disk : on_disk d c s es [];
  se_file : fl d JOURNAL_FILE = Some (frames es);
  se_means : means c s es data;
}.

Lemma serving_keeps store d c s es data : serving store d c s es data -> keeps data d.
Proof. intros []. exists c, s, es, []. split_and!; [done|by left|done]. Qed.

Lemma keeps_intro c s es torn data d : on_disk d c s es torn -> torn_record torn -> means c s es data -> keeps data d.
Proof. intros. by exists c, s, es, torn. Qed.

Section operations.
Context (os : Os).

(** *** Applying entries *)

Lemma wp_apply store c s es data xs w :
  serving store (w_disk w) c s es data -> ascending (sd_last_applied_log data) (le_log_id <$> xs) -> appliable log_id_text kind data xs ->
  io_wp (sm_apply os log_id_text store xs)
    (fun r w' => exists rs data', apply_entries log_id_text kind data xs = Some (rs, data') /\ r = Some (rs, with_state store data') /\
       serving (with_state store data') (w_disk w') c s (es ++ (journal_entry <$> xs)) data')
    (fun d => (faulty os \/ ~ Forall writable (journal_entry <$> xs)) /\
       exists k rs data', apply_entries log_id_text kind data (take k xs) = Some (rs, data') /\ keeps data' d) w.
Proof.
  intros Hsv Ha Hap. pose proof Hsv as [Hst Hp Hk Hd Hon Hf Hm]. unfold sm_apply. rewrite Hst, Hk.
  destruct (apply_entries_total log_id_text kind data xs (me_wf _ _ _ _ Hm) Hap) as (rs & data' & Happ & Hwf').
  destruct xs as [|x xs'].
  { apply io_wp_bind, io_wp_ret. cbn in Happ |- *. injection Happ as <- <-. eexists _, _. split_and!; [done|done|].
    rewrite app_nil_r. destruct store. cbn in *. by subst. }
  cbv match. remember (x :: xs') as xs eqn:Exs. clear Exs. apply io_wp_bind. unfold persist_journal. rewrite Hp. apply io_wp_map_err, io_wp_bind.
  apply (wp_append_all os path JOURNAL_FILE (journal_entry <$> xs) (frames es)); [done|by apply Forall_fmap, Forall_true|done| |].
  - intros w1 Ha1 Hf1 Hw. rewrite <-frames_app in Hf1.
    assert (Hm' : means c s (es ++ (journal_entry <$> xs)) data') by (by eapply means_apply).
    assert (Hon1 : on_disk (w_disk w1) c s (es ++ (journal_entry <$> xs)) []).
    { split; [rewrite (proj2 Ha1) by (by intros ?%list_elem_of_singleton); apply Hon..|]. left. by rewrite app_nil_r. }
    apply io_wp_sync.
    + rewrite Happ. apply io_wp_ret. exists rs, data'. split_and!; [done|done|]. split; try done. by apply Ha1.
    + intros Hflt. split; [by left|]. exists (length xs), rs, data'. rewrite firstn_all. split; [done|].
      eapply keeps_intro; [done|by left|done].
  - intros Hc d k t Ha1 Ht Hw Hf1. split; [done|]. rewrite <-fmap_take in Hw, Hf1.
    assert (Hap' : appliable log_id_text kind data (take k xs)) by (by apply appliable_take).
    destruct (apply_entries_total log_id_text kind data (take k xs) (me_wf _ _ _ _ Hm) Hap') as (rsk & datak & Hk1 & Hwfk).
    exists k, rsk, datak. split; [done|]. apply (keeps_intro c s (es ++ (journal_entry <$> take k xs)) t).
    + split; [rewrite (proj2 Ha1) by (by intros ?%list_elem_of_singleton); apply Hon..|]. left. by rewrite frames_app, <-app_assoc.
    + done.
    + eapply means_apply; try done. rewrite fmap_take. by apply ascending_take.
Qed.

(** *** Building a snapshot *)

Lemma capture_image store i store' data :
  sm_state store = data -> snapshot_wf (sd_state data) -> build_capture store = Ok (i, store') ->
  exists st, image_ok (i, st) /\ image_data (i, st) = data /\ sm_state store' = data /\ sm_path store' = sm_path store /\ sm_kind store' = sm_kind store.
Proof.
  intros <- Hwf. unfold build_capture. destruct (snapshot_json_total (persisted_snapshot (sd_state (sm_state store)))) as [bytes Hb].
  rewrite Hb. intros [= <- <-]. exists (sd_state (sm_state store)). split_and!; [|by destruct (sm_state store)|done..].
  exists (persisted_snapshot (sd_state (sm_state store))). split; [|apply snapshot_state_roundtrip].
  unfold validate_snapshot_data. cbn [sn_data fst]. rewrite (snapshot_json_roundtrip _ _ Hb), N.eqb_refl. cbn [negb].
  cbn [persisted_snapshot pn_group_consumers]. by rewrite entries_of_persisted, checked_items by (by apply wf_checked).
Qed.

Lemma temp_notin m : m ∈ store_files -> forall n, n ∈ store_files -> n ∉ [temp_of os path m].
Proof. intros Hm n Hn E1%list_elem_of_singleton. symmetry in E1. exact (temp_not_file os path m n Hm Hn E1). Qed.

Lemma file_notin n m : n ∈ store_files -> m ∈ store_files -> n <> m -> n ∉ [temp_of os path m; m].
Proof.
  intros Hn Hm Hne [E1|[E1|E1%not_elem_of_nil]%elem_of_cons]%elem_of_cons; [|done..].
  symmetry in E1. exact (temp_not_file os path m n Hm Hn E1).
Qed.

Lemma wp_persist_snapshot store c s es data i w :
  serving store (w_disk w) c s es data -> image_ok i ->
  io_wp (persist_snapshot os store i.1)
    (fun _ w' => is_Some (w_disk w' !! path) /\ on_disk (w_disk w') c (Some i) es [] /\ fl (w_disk w') JOURNAL_FILE = Some (frames es))
    (fun d => faulty os /\ (on_disk d c s es [] \/ on_disk d c (Some i) es [])) w.
Proof.
  intros [Hst Hp Hk Hd Hon Hf Hm] Hi. unfold persist_snapshot. rewrite Hp. destruct (stored_json_total i.1) as [bytes Hb]. rewrite Hb.
  apply io_wp_map_err. assert (Hbytes : bytes = stored_bytes i) by (unfold stored_bytes; by rewrite Hb). subst bytes.
  assert (Hnew : forall d, agree [temp_of os path SNAPSHOT_FILE; SNAPSHOT_FILE] (w_disk w) d -> fl d SNAPSHOT_FILE = Some (stored_bytes i) ->
    on_disk d c (Some i) es [] /\ fl d JOURNAL_FILE = Some (frames es)).
  { intros d Ha Hfi. assert (Hj : fl d JOURNAL_FILE = fl (w_disk w) JOURNAL_FILE).
    { apply Ha, file_notin; [apply in_journal|apply in_snapshot|done]. }
    split; [|by rewrite Hj]. split; [|done|].
    - rewrite (proj2 Ha) by (apply file_notin; [apply in_state|apply in_snapshot|done]). apply Hon.
    - unfold RaftStateSteps.journal_holds. rewrite Hj. apply Hon. }
  apply (wp_atomic os path SNAPSHOT_FILE); [done| |].
  - intros w' Ha Hfi. split; [by apply Ha|]. by apply Hnew.
  - intros Hflt d [Ha|[Ha Hfi]]; (split; [done|]); [left|right; by apply Hnew].
    eapply on_disk_agree; [done|exact Ha|]. apply temp_notin, in_snapshot.
Qed.

(** *** Compacting *)

Lemma wp_compact_journal store c s es data last w :
  sm_path store = Some path -> is_Some (w_disk w !! path) -> on_disk (w_disk w) c s es [] -> means c s es data ->
  oupto last (sd_last_applied_log (base c s)) ->
  io_wp (compact_journal os broker_error_text store last)
    (fun _ w' => is_Some (w_disk w' !! path) /\ on_disk (w_disk w') c s (retained_entries last es) [] /\
       fl (w_disk w') JOURNAL_FILE = Some (frames (retained_entries last es)) /\ means c s (retained_entries last es) data)
    (fun d => faulty os /\ keeps data d) w.
Proof.
  intros Hp Hd Hon Hm Hl. pose proof (means_compact _ _ _ _ _ Hm Hl) as Hm'.
  assert (Hother : forall d es' torn', agree [temp_of os path JOURNAL_FILE; JOURNAL_FILE] (w_disk w) d -> journal_holds d es' torn' ->
    on_disk d c s es' torn').
  { intros d es' torn' Ha Hj. split; [..|done]; rewrite (proj2 Ha).
    - apply Hon.
    - apply file_notin; [apply in_state|apply in_journal|done].
    - apply Hon.
    - apply file_notin; [apply in_snapshot|apply in_journal|done]. }
  eapply io_wp_mono; [apply (wp_compact os path broker_error_text store last es []); [done|done| |apply Hm|by left|apply Hon]| |].
  - exact (temp_not_file os path _ _ in_journal in_journal).
  - intros [] w' [Ha Hf]. split_and!; [by apply Ha| |done|done]. apply Hother; [done|]. left. by rewrite app_nil_r.
  - intros d (Hf & Ha & [(torn' & Ht & Hj)|Hj]); (split; [done|]).
    + eapply keeps_intro; [by apply Hother|done|done].
    + eapply keeps_intro; [by apply Hother|by left|done].
Qed.

(** *** The checkpoint *)

Lemma wp_persist_checkpoint store c s es x w :
  sm_path store = Some path -> is_Some (w_disk w !! path) -> on_disk (w_disk w) c s es [] ->
  io_wp (persist_checkpoint os store x)
    (fun _ w' => is_Some (w_disk w' !! path) /\ on_disk (w_disk w') (Some x) s es [])
    (fun d => faulty os /\ (on_disk d c s es [] \/ on_disk d (Some x) s es [])) w.
Proof.
  intros Hp Hd Hon. unfold persist_checkpoint. rewrite Hp. destruct (persisted_json_total (persisted_state x)) as [bytes Hb]. rewrite Hb.
  apply io_wp_map_err. assert (Hbytes : bytes = state_bytes x) by (unfold state_bytes; by rewrite Hb). subst bytes.
  assert (Hnew : forall d, agree [temp_of os path STATE_FILE; STATE_FILE] (w_disk w) d -> fl d STATE_FILE = Some (state_bytes x) ->
    on_disk d (Some x) s es []).
  { intros d Ha Hfi. split; [done|..]; unfold RaftStateSteps.journal_holds; rewrite (proj2 Ha).
    - apply Hon.
    - apply file_notin; [apply in_snapshot|apply in_state|done].
    - apply Hon.
    - apply file_notin; [apply in_journal|apply in_state|done]. }
  apply (wp_atomic os path STATE_FILE); [done| |].
  - intros w' Ha Hfi. split; [by apply Ha|by apply Hnew].
  - intros Hflt d [Ha|[Ha Hfi]]; (split; [done|]); [left|right; by apply Hnew].
    eapply on_disk_agree; [done|exact Ha|]. apply temp_notin, in_state.
Qed.

(** *** Installing a snapshot *)

Lemma after_upto a b c : is_optional_log_after a b = true -> oupto c b -> is_optional_log_after a c = true.
Proof.
  destruct a as [a|]; [|done]. destruct c as [c|]; [|done]. rewrite oupto_some. cbn. destruct b as [b|].
  - rewrite upto_spec. intros H1 (? & [= <-] & H2). rewrite is_log_after_spec in *. lia.
  - rewrite upto_spec. by intros _ (? & ? & _).
Qed.

Lemma after_oupto a b : is_optional_log_after a b = true -> oupto b a.
Proof.
  intros H. destruct (is_optional_log_after b a) eqn:E1; [|done]. destruct a as [a|], b as [b|]; cbn in *; try done.
  rewrite is_log_after_spec in *. lia.
Qed.

Lemma wp_install store c s es data meta bytes p w :
  serving store (w_disk w) c s es data -> validate_snapshot_data bytes = Ok p -> snapshot_wf (snapshot_state_from_persisted p) ->
  is_optional_log_after (mt_last_log_id meta) (sd_last_applied_log data) = true ->
  let i := ({| sn_meta := meta; sn_data := bytes |}, snapshot_state_from_persisted p) in
  io_wp (install_snapshot os broker_error_text store meta bytes)
    (fun store' w' => serving store' (w_disk w') (Some (image_data i)) (Some i) (retained_entries (image_log i) es) (image_data i))
    (fun d => faulty os /\ (keeps data d \/ keeps (image_data i) d)) w.
Proof.
  intros Hsv Hv Hwf Haf i. pose proof Hsv as [Hst Hp Hk Hd Hon Hf Hm]. unfold install_snapshot. rewrite Hv. cbn [io_lift].
  apply io_wp_bind, io_wp_ret. set (data' := image_data i). assert (Hi : image_ok i) by (by exists p).
  assert (Hle : oupto (sd_last_applied_log data) (image_log i)) by (by apply after_oupto).
  assert (Hu : forall e, e ∈ es -> upto (je_log_id e) (image_log i)) by (intros e He; eapply upto_oupto; [by apply Hm|done]).
  assert (Hm1 : means c (Some i) es data').
  { apply means_newer; [apply Hm|done|done| | |].
    - rewrite base_data. pose proof (after_upto _ _ _ Haf (base_last _ _ _ _ Hm)) as Hst'.
      change (mt_last_log_id meta) with (image_log i) in Hst'. by rewrite Hst'.
    - intros x Hx. destruct (me_state _ _ _ _ Hm x Hx). split; [done|by eapply oupto_trans].
    - intros i' [= <-]. split; [done|apply oupto_refl]. }
  assert (Hm2 : means (Some data') (Some i) es data').
  { apply means_newer; [apply Hm|done|done| | |].
    - rewrite base_data. cbn [start_data default from_option id]. change (sd_last_applied_log data') with (image_log i). by rewrite oupto_refl.
    - intros x [= <-]. split; [by apply wf_checked|apply oupto_refl].
    - intros i' [= <-]. split; [done|apply oupto_refl]. }
  apply io_wp_bind. eapply io_wp_mono; [by apply (wp_persist_snapshot store c s es data i)| |].
  2: { intros d [Hflt [Ho|Ho]]; (split; [done|]); [left|right]; (eapply keeps_intro; [done|by left|done]). }
  intros [] w1 (Hd1 & Hon1 & _). apply io_wp_bind.
  eapply io_wp_mono; [by apply (wp_persist_checkpoint store c (Some i) es data')| |].
  2: { intros d [Hflt [Ho|Ho]]; (split; [done|]); right; (eapply keeps_intro; [done|by left|done]). }
  intros [] w2 (Hd2 & Hon2). apply io_wp_bind.
  eapply io_wp_mono; [apply (wp_compact_journal store (Some data') (Some i) es data' (image_log i)); [done|done|done|done|]| |].
  - rewrite base_data. cbn [start_data default from_option id]. change (sd_last_applied_log data') with (image_log i).
    rewrite oupto_refl. apply oupto_refl.
  - intros [] w3 (Hd3 & Hon3 & Hf3 & Hm3). apply io_wp_ret. by split.
  - intros d [Hflt Hkp]. split; [done|by right].
Qed.

(** *** Opening *)

Lemma reads_persisted_state c w :
  fl (w_disk w) STATE_FILE = state_bytes <$> c -> (forall x, c = Some x -> checked (sd_state x)) ->
  reads os (read_persisted_state os (in_directory path STATE_FILE)) (persisted_state <$> c) w.
Proof.
  unfold RaftStateSteps.fl, reads, read_persisted_state. intros Hf Hc. apply io_wp_bind. destruct c as [x|].
  - destruct (persisted_json_total (persisted_state x)) as [bytes Hb]. unfold state_bytes in Hf. cbn in Hf. rewrite Hb in Hf. cbn in Hf.
    eapply io_wp_file_present; [done|]. cbn [negb]. apply io_wp_bind, io_wp_map_err.
    apply (io_wp_read_file os _ bytes); [done| |done]. rewrite (persisted_json_roundtrip _ _ Hb). cbn [persisted_state pt_version pt_group_consumers].
    rewrite N.eqb_refl, entries_of_persisted, checked_items by (by apply Hc). by apply io_wp_ret.
  - apply io_wp_file_absent; [done|]. by apply io_wp_ret.
Qed.

Lemma reads_open_snapshot s w :
  fl (w_disk w) SNAPSHOT_FILE = stored_bytes <$> s -> (forall i, s = Some i -> image_ok i) ->
  reads os (open_snapshot os (in_directory path SNAPSHOT_FILE)) s w.
Proof.
  unfold RaftStateSteps.fl, reads, open_snapshot, read_persisted_snapshot. intros Hf Hs. apply io_wp_bind, io_wp_bind. destruct s as [[sn st]|].
  - destruct (stored_json_total sn) as [bytes Hb]. unfold stored_bytes in Hf. cbn in Hf. rewrite Hb in Hf. cbn in Hf.
    eapply io_wp_file_present; [done|]. cbn [negb]. apply io_wp_bind, io_wp_map_err.
    apply (io_wp_read_file os _ bytes); [done| |done]. rewrite (stored_json_roundtrip _ _ Hb). apply io_wp_ret.
    destruct (Hs _ eq_refl) as (p & Hp & Hst). cbn [fst snd] in Hp, Hst. rewrite Hp, Hst. by apply io_wp_ret.
  - apply io_wp_file_absent; [done|]. by do 2 apply io_wp_ret.
Qed.

Lemma fl_new_dir d n : d !! path = None -> fl (<[path := ∅]> d) n = fl d n.
Proof. intros Hd. unfold RaftStateSteps.fl, disk_file. cbn. by rewrite lookup_insert_eq, Hd. Qed.

Lemma wp_make_dir c s es data (Q : unit -> World -> Prop) (F : Disk -> Prop) w :
  on_disk (w_disk w) c s es [] -> means c s es data ->
  (forall w', is_Some (w_disk w' !! path) -> on_disk (w_disk w') c s es [] -> Q tt w') ->
  (faulty os -> forall d, keeps data d -> F d) -> io_wp (create_dir_all os path) Q F w.
Proof.
  intros Hon Hm HQ HF. apply io_wp_syscall; [|intros Hf n; apply HF; [done|]; eapply keeps_intro; [done|by left|done]].
  destruct (w_disk w !! path) as [files|] eqn:Hd; apply HQ; cbn [later w_disk]; [by eexists|done|by rewrite lookup_insert_eq|].
  split; unfold RaftStateSteps.journal_holds; rewrite fl_new_dir by done; apply Hon.
Qed.

Lemma wp_open_journal c s es data (Q : unit -> World -> Prop) (F : Disk -> Prop) w :
  is_Some (w_disk w !! path) -> on_disk (w_disk w) c s es [] -> means c s es data ->
  (forall w', is_Some (w_disk w' !! path) -> on_disk (w_disk w') c s es [] -> fl (w_disk w') JOURNAL_FILE = Some (frames es) -> Q tt w') ->
  (faulty os -> forall d, keeps data d -> F d) -> io_wp (file_open_append os (in_directory path JOURNAL_FILE)) Q F w.
Proof.
  intros Hd Hon Hm HQ HF. pose proof Hd as [files Hfiles].
  apply (io_wp_open_append os _ files); [done| |intros Hf; apply HF; [done|]; eapply keeps_intro; [done|by left|done]].
  destruct (od_journal _ _ _ _ _ Hon) as [Hj|(Hj & -> & _)]; unfold RaftStateSteps.fl in Hj; rewrite Hj.
  - rewrite app_nil_r in Hj. by apply HQ.
  - assert (Hput : forall n, fl (disk_put (w_disk w) (in_directory path JOURNAL_FILE) []) n = if decide (n = JOURNAL_FILE) then Some [] else fl (w_disk w) n)
      by (intros n; by apply fl_put).
    apply HQ; cbn [later w_disk]; [by apply put_dir| |by rewrite Hput, decide_True].
    split; unfold RaftStateSteps.journal_holds; rewrite Hput.
    + rewrite decide_False by done. apply Hon.
    + rewrite decide_False by done. apply Hon.
    + by rewrite decide_True by done; left.
Qed.

Lemma wp_sm_open data w :
  keeps data (w_disk w) ->
  io_wp (sm_open os log_id_text no_members path kind)
    (fun r w' => exists store c s es, r = Some store /\ serving store (w_disk w') c s es data)
    (fun d => faulty os /\ keeps data d) w.
Proof.
  intros (c & s & es & torn & Hon & Ht & Hm). pose proof Hm as [Hr Hj _ Hc Hs Hwf]. unfold sm_open.
  assert (Hsame : faulty os -> faulty os /\ keeps data (w_disk w)) by (intros Hf; split; [done|by eapply keeps_intro]).
  eapply reads_bind; [apply reads_persisted_state; [apply Hon|intros x Hx; by apply (Hc x Hx)]| |done]. intros w1 Hw1.
  eapply reads_bind; [apply reads_open_snapshot; [rewrite Hw1; apply Hon|intros i Hi; by apply (Hs i Hi)]| |by rewrite Hw1].
  intros w2 Hw2. rewrite Hw1 in Hw2. apply io_wp_bind. eapply io_wp_mono; [apply (wp_journal_read os path es torn); rewrite ?Hw2; [done|done|apply Hon]| |].
  2: { intros d (Hf & Ha & torn' & Ht' & Hj'). split; [done|]. rewrite Hw2 in Ha. apply (keeps_intro c s es torn'); [|done|done].
       split; [rewrite (proj2 Ha) by (by intros ?%list_elem_of_singleton); apply Hon..|done]. }
  intros entries w3 (-> & Ha & Hj3). rewrite Hw2 in Ha.
  assert (Hbase : newer_state (match persisted_state <$> c with Some p => state_machine_data_from_persisted p | None => data_default no_members end) s
    = base c s) by (unfold base, start_data; destruct c as [x|]; cbn; [by rewrite state_data_roundtrip|done]).
  rewrite Hbase, Hr, checked_items by (by apply wf_checked).
  assert (Hon3 : on_disk (w_disk w3) c s es []).
  { split; [rewrite (proj2 Ha) by (by intros ?%list_elem_of_singleton); apply Hon..|done]. }
  apply io_wp_bind, io_wp_map_err. apply (wp_make_dir c s es data); [done|done| |done]. intros w4 Hd4 Hon4.
  apply io_wp_bind, io_wp_map_err. apply (wp_open_journal c s es data); [done|done|done| |done]. intros w5 Hd5 Hon5 Hf5.
  apply io_wp_ret. eexists _, c, s, es. split; [done|]. by split.
Qed.
End operations.
End guarantees.
