(* ===== verification/RaftStateHistory.v ===== *)
(** Histories of the state machine store: entries are applied, snapshots are
    built step by step between them and installed, the process fails and is
    started again. The outcomes are those of a state that is only kept. *)

From S2P Require Import Prelude Engine RecordFormat Names Paths Disk RaftLogFormat RaftLogSegments RaftState RaftDelivery RaftInvariant RaftHandlers RaftBatch RaftStateMachine RaftJournal RaftStateStore RaftStateRecovery RaftStateSteps RaftStateGuarantees.

Local Open Scope N_scope.

Section history.
Context {Membership : Type} {J : JournalJson Membership} {L : JournalJsonLaws J} {S : StoreJson Membership} {SL : StoreJsonLaws S}.
Context (log_id_text : LogId -> string) (broker_error_text : BrokerError -> string) (no_members : StoredMembership Membership).
Context (path : string) (kind : GroupKind).

Abbreviation Data := (StateMachineData Membership).
Abbreviation Store := (StateMachineStore (Membership := Membership)).
Abbreviation replay := (journal_replay log_id_text kind).
Abbreviation base := (RaftStateGuarantees.base no_members).
Abbreviation means := (RaftStateGuarantees.means log_id_text no_members kind).
Abbreviation keeps := (RaftStateGuarantees.keeps log_id_text no_members path kind).
Abbreviation serving := (RaftStateGuarantees.serving log_id_text no_members path kind).

(** ** The building of a snapshot

    [build_snapshot] in the steps that the locks make of it. *)

Inductive Builder :=
| Idle
| Captured (snapshot : StoredSnapshot Membership)
| Stored (snapshot : StoredSnapshot Membership).

Definition build_step (os : Os) (store : Store) (b : Builder) : IoE StorageError (Store * Builder) :=
  match b with
  | Idle => let* (snapshot, store) := io_lift (build_capture store) in io_ret (store, Captured snapshot)
  | Captured snapshot => do* persist_snapshot os store snapshot in io_ret (store, Stored snapshot)
  | Stored snapshot => let* store := build_finish os broker_error_text store snapshot in io_ret (store, Idle)
  end.

(** With nothing in between, the three steps are [build_snapshot]. *)
Lemma build_steps_build os store w :
  build_snapshot os broker_error_text store w =
  match build_capture store with
  | Err e => (Err e, w)
  | Ok (snapshot, _) =>
    io_bind (build_step os store Idle) (fun '(store, b) => io_bind (build_step os store b) (fun '(store, b) =>
      io_bind (build_step os store b) (fun '(store, _) => io_ret (store, snapshot)))) w
  end.
Proof.
  unfold build_snapshot, build_step, io_bind, io_lift, io_ret, io_fail. destruct (build_capture store) as [[sn store']|e]; [|done].
  cbn. destruct (persist_snapshot os store' sn w) as [[]]; [|done]. by destruct (build_finish os broker_error_text store' sn _) as [[]].
Qed.

(** What the step that comes next needs of the files. *)
Definition building (b : Builder) (c : option Data) (s : option (Image (Membership := Membership))) (es : list (JournalEntry Membership)) (data : Data) : Prop :=
  match b with
  | Idle => True
  | Captured sn => exists st, image_ok (sn, st) /\ oupto (image_log (sn, st)) (sd_last_applied_log data) /\ replay (base c (Some (sn, st))) es = Some data
  | Stored sn => oupto (mt_last_log_id (sn_meta sn)) (sd_last_applied_log (base c s))
  end.

Lemma base_upto c s es data : means c s es data -> oupto (sd_last_applied_log (base c s)) (sd_last_applied_log data).
Proof.
  intros Hm. rewrite base_data. pose proof (base_last _ _ _ _ _ _ _ Hm) as Hc. destruct s as [i|]; [|done].
  destruct (is_optional_log_after _ _); [|done]. by apply (me_snapshot _ _ _ _ _ _ _ Hm i).
Qed.

Lemma building_apply b c s es data xs rs data' :
  building b c s es data -> ascending (sd_last_applied_log data) (le_log_id <$> xs) ->
  apply_entries log_id_text kind data xs = Some (rs, data') -> building b c s (es ++ (journal_entry <$> xs)) data'.
Proof.
  intros Hb Ha Hap. destruct (replay_apply log_id_text kind data xs rs data' Ha Hap) as (Hr & Ho & _).
  destruct b as [|sn|sn]; [done| |done]. destruct Hb as (st & Hi & Hl & Hrep). exists st. split_and!; [done|by eapply oupto_trans|].
  by rewrite replay_app, Hrep.
Qed.

Lemma building_install b c s es data (i : Image (Membership := Membership)) :
  building b c s es data -> means c s es data -> oupto (sd_last_applied_log data) (image_log i) ->
  building b (Some (image_data i)) (Some i) (retained_entries (image_log i) es) (image_data i).
Proof.
  intros Hb Hm Hl. assert (Hstart : sd_last_applied_log (start_data no_members (Some (image_data i))) = image_log i) by done.
  destruct b as [|sn|sn]; [done| |]; unfold building in *.
  - destruct Hb as (st & Hi & Ho & _). exists st. assert (Ho' : oupto (image_log (sn, st)) (image_log i)) by (by eapply oupto_trans).
    split_and!; [done|done|]. rewrite base_data, Hstart, Ho'. apply replay_skip. intros e [_ He]%list_elem_of_filter.
    eapply upto_oupto; [by apply (me_upto _ _ _ _ _ _ _ Hm)|done].
  - rewrite base_data, Hstart, oupto_refl. eapply oupto_trans; [exact Hb|]. eapply oupto_trans; [by eapply base_upto|done].
Qed.

(** ** A process and its store *)

Section process.
Context (os : Os).

Definition working (store : Store) (b : Builder) (d : Disk) (data : Data) : Prop :=
  exists c s es, serving store d c s es data /\ building b c s es data.

Lemma working_keeps store b d data : working store b d data -> keeps data d.
Proof. intros (c & s & es & Hs & _). by eapply serving_keeps. Qed.

Lemma wp_open_working data w :
  keeps data (w_disk w) ->
  io_wp (sm_open os log_id_text no_members path kind)
    (fun r w' => exists store, r = Some store /\ sm_state store = data /\ working store Idle (w_disk w') data)
    (fun d => faulty os /\ keeps data d) w.
Proof.
  intros Hk. eapply io_wp_mono; [by apply wp_sm_open| |done]. intros r w' (store & c & s & es & -> & Hs).
  exists store. split_and!; [done|apply Hs|]. by exists c, s, es.
Qed.

Lemma wp_build_step store b data w :
  working store b (w_disk w) data ->
  io_wp (build_step os store b) (fun '(store', b') w' => sm_state store' = data /\ working store' b' (w_disk w') data)
    (fun d => faulty os /\ keeps data d) w.
Proof.
  intros (c & s & es & Hs & Hb). pose proof Hs as [Hst Hp Hk Hd Hon Hf Hm]. destruct b as [|sn|sn]; unfold build_step.
  - destruct (build_capture store) as [[sn store']|e] eqn:Ec.
    + destruct (capture_image store sn store' data Hst (me_wf _ _ _ _ _ _ _ Hm) Ec) as (st & Hi & Hid & Hst' & Hp' & Hk').
      apply io_wp_bind, io_wp_ret, io_wp_ret. split; [done|]. exists c, s, es. split; [split; [..|done]; congruence|].
      exists st. split; [done|]. by apply (capture_ok _ _ _ c s).
    + exfalso. unfold build_capture in Ec. by destruct (snapshot_json_total (persisted_snapshot (sd_state (sm_state store)))) as [? Hj]; rewrite Hj in Ec.
  - destruct Hb as (st & Hi & Ho & Hr). set (i := (sn, st)) in *. assert (Hm' : means c (Some i) es data) by (by eapply means_replace).
    apply io_wp_bind. eapply io_wp_mono; [by apply (wp_persist_snapshot log_id_text no_members path kind os store c s es data i)| |].
    + intros [] w' (Hd' & Hon' & Hf'). apply io_wp_ret. split; [done|]. exists c, (Some i), es. split; [by split|]. unfold building.
      rewrite base_data. destruct (is_optional_log_after _ _) eqn:Ha; [apply oupto_refl|done].
    + intros d [Hflt [H|H]]; (split; [done|]); (eapply keeps_intro; [exact H|by left|done]).
  - apply io_wp_bind. unfold build_finish. apply io_wp_bind.
    eapply io_wp_mono; [apply (wp_compact_journal log_id_text broker_error_text no_members path kind os store c s es data); done| |done].
    intros [] w' (Hd' & Hon' & Hf' & Hm'). do 2 apply io_wp_ret. split; [done|]. exists c, s, (retained_entries (mt_last_log_id (sn_meta sn)) es).
    split; [by split|done].
Qed.

Lemma wp_apply_working store b data xs w :
  working store b (w_disk w) data -> ascending (sd_last_applied_log data) (le_log_id <$> xs) -> appliable log_id_text kind data xs ->
  io_wp (sm_apply os log_id_text store xs)
    (fun r w' => exists rs data' store', apply_entries log_id_text kind data xs = Some (rs, data') /\ r = Some (rs, store') /\
       sm_state store' = data' /\ working store' b (w_disk w') data')
    (fun d => (faulty os \/ ~ Forall writable (journal_entry <$> xs)) /\
       exists k rs data', apply_entries log_id_text kind data (take k xs) = Some (rs, data') /\ keeps data' d) w.
Proof.
  intros (c & s & es & Hs & Hb) Ha Hap. eapply io_wp_mono; [by apply (wp_apply _ no_members path kind os store c s es data xs)| |done].
  intros r w' (rs & data' & Happ & -> & Hs'). exists rs, data', (with_state store data'). split_and!; [done..|].
  eexists c, s, _. split; [done|]. by eapply building_apply.
Qed.

(** The state that a snapshot brings. *)
Definition installed (meta : SnapshotMeta Membership) (persisted : PersistedSnapshotState) : Data :=
  {| sd_last_applied_log := mt_last_log_id meta; sd_last_membership := mt_last_membership meta;
     sd_state := snapshot_state_from_persisted persisted |}.

Lemma wp_install_working store b data meta bytes p w :
  working store b (w_disk w) data -> validate_snapshot_data bytes = Ok p -> snapshot_wf (snapshot_state_from_persisted p) ->
  is_optional_log_after (mt_last_log_id meta) (sd_last_applied_log data) = true ->
  io_wp (install_snapshot os broker_error_text store meta bytes)
    (fun store' w' => sm_state store' = installed meta p /\ working store' b (w_disk w') (installed meta p))
    (fun d => faulty os /\ (keeps data d \/ keeps (installed meta p) d)) w.
Proof.
  intros (c & s & es & Hs & Hb) Hv Hwf Ha.
  eapply io_wp_mono; [by apply (wp_install log_id_text broker_error_text no_members path kind os store c s es data meta bytes p)| |done].
  intros store' w' Hs'. split; [apply Hs'|]. eexists _, _, _. split; [exact Hs'|]. eapply building_install; [done|apply Hs|].
  by apply after_oupto.
Qed.
(** ** Histories *)

Record StoreSession := {
  sx_store : option (Store * Builder);
  sx_world : World;
}.

Inductive StoreEvent :=
| EvApply (entries : list (LogEntry Membership))
| EvBuild
| EvInstall (meta : SnapshotMeta Membership) (bytes : list byte)
| EvStart.

Inductive StoreOutcome :=
| Applied (responses : list CommandResponse)
| Built
| Installed
| Opened (state : Data)
| Stopped
| Panicked.

(** A storage error stops the process: nothing runs until the next start. *)
Definition store_event (s : StoreSession) (ev : StoreEvent) : StoreOutcome * StoreSession :=
  let stopped := fun w => {| sx_store := None; sx_world := w |} in
  let running := fun store b w => {| sx_store := Some (store, b); sx_world := w |} in
  match ev, sx_store s with
  | EvStart, _ =>
    match sm_open os log_id_text no_members path kind (sx_world s) with
    | (Ok (Some store), w) => (Opened (sm_state store), running store Idle w)
    | (Ok None, w) => (Panicked, stopped w)
    | (Err _, w) => (Stopped, stopped w)
    end
  | _, None => (Stopped, s)
  | EvApply entries, Some (store, b) =>
    match sm_apply os log_id_text store entries (sx_world s) with
    | (Ok (Some (responses, store)), w) => (Applied responses, running store b w)
    | (Ok None, w) => (Panicked, stopped w)
    | (Err _, w) => (Stopped, stopped w)
    end
  | EvBuild, Some (store, b) =>
    match build_step os store b (sx_world s) with
    | (Ok (store, b), w) => (Built, running store b w)
    | (Err _, w) => (Stopped, stopped w)
    end
  | EvInstall meta bytes, Some (store, b) =>
    match install_snapshot os broker_error_text store meta bytes (sx_world s) with
    | (Ok store, w) => (Installed, running store b w)
    | (Err _, w) => (Stopped, stopped w)
    end
  end.

Fixpoint store_run (s : StoreSession) (evs : list StoreEvent) : list StoreOutcome * StoreSession :=
  match evs with
  | [] => ([], s)
  | ev :: evs =>
    let '(out, s) := store_event s ev in
    let '(outs, s) := store_run s evs in (out :: outs, s)
  end.

(** What a state that is kept may do: the state, and whether a process runs on
    it. A stop has its cause, and what it leaves is said. *)
Inductive state_step : Data * bool -> StoreEvent -> StoreOutcome -> Data * bool -> Prop :=
| state_applied data xs rs data' :
    apply_entries log_id_text kind data xs = Some (rs, data') -> state_step (data, true) (EvApply xs) (Applied rs) (data', true)
| state_part_applied data xs k rs data' :
    faulty os \/ ~ Forall writable (journal_entry <$> xs) ->
    apply_entries log_id_text kind data (take k xs) = Some (rs, data') -> state_step (data, true) (EvApply xs) Stopped (data', false)
| state_built data : state_step (data, true) EvBuild Built (data, true)
| state_build_stopped data : faulty os -> state_step (data, true) EvBuild Stopped (data, false)
| state_installed data meta bytes p :
    validate_snapshot_data bytes = Ok p -> state_step (data, true) (EvInstall meta bytes) Installed (installed meta p, true)
| state_install_refused data meta bytes e :
    validate_snapshot_data bytes = Err e -> state_step (data, true) (EvInstall meta bytes) Stopped (data, false)
| state_install_stopped data meta bytes p data' :
    faulty os -> validate_snapshot_data bytes = Ok p -> data' = data \/ data' = installed meta p ->
    state_step (data, true) (EvInstall meta bytes) Stopped (data', false)
| state_down data ev : ev <> EvStart -> state_step (data, false) ev Stopped (data, false)
| state_opened data up : state_step (data, up) EvStart (Opened data) (data, true)
| state_open_stopped data up : faulty os -> state_step (data, up) EvStart Stopped (data, false).

Inductive state_steps : Data * bool -> list StoreEvent -> list StoreOutcome -> Data * bool -> Prop :=
| state_steps_nil x : state_steps x [] [] x
| state_steps_cons x ev out y evs outs z :
    state_step x ev out y -> state_steps y evs outs z -> state_steps x (ev :: evs) (out :: outs) z.

(** What Raft may ask for: entries after the applied ones that can be applied,
    and a snapshot that is newer and holds the state of another member. *)
Definition may_ask (data : Data) (ev : StoreEvent) : Prop :=
  match ev with
  | EvApply xs => ascending (sd_last_applied_log data) (le_log_id <$> xs) /\ appliable log_id_text kind data xs
  | EvInstall meta bytes =>
    is_optional_log_after (mt_last_log_id meta) (sd_last_applied_log data) = true /\
    forall p, validate_snapshot_data bytes = Ok p -> snapshot_wf (snapshot_state_from_persisted p)
  | EvBuild | EvStart => True
  end.

Fixpoint asks (x : Data * bool) (evs : list StoreEvent) (outs : list StoreOutcome) : Prop :=
  match evs, outs with
  | ev :: evs, out :: outs => (x.2 = true -> may_ask x.1 ev) /\ forall y, state_step x ev out y -> asks y evs outs
  | _, _ => True
  end.

(** The session is at this state. *)
Definition at_state (s : StoreSession) (x : Data * bool) : Prop :=
  if x.2 then exists store b, sx_store s = Some (store, b) /\ sm_state store = x.1 /\ working store b (w_disk (sx_world s)) x.1
  else sx_store s = None /\ keeps x.1 (w_disk (sx_world s)).

Lemma at_state_keeps s x : at_state s x -> keeps x.1 (w_disk (sx_world s)).
Proof. unfold at_state. destruct x as [data [|]]; cbn; [|by intros []]. intros (store & b & _ & _ & Hw). by eapply working_keeps. Qed.

Lemma start_at_state s x out s' :
  at_state s x -> store_event s EvStart = (out, s') -> exists y, state_step x EvStart out y /\ at_state s' y.
Proof.
  intros Hat Hst. destruct x as [data up]. pose proof (wp_open_working data (sx_world s) (at_state_keeps _ _ Hat)) as Ho.
  cbn [store_event] in Hst. unfold io_wp in Ho. destruct (sm_open os log_id_text no_members path kind (sx_world s)) as [[r|e] w].
  - destruct Ho as (store & -> & Hd & Hw). injection Hst as <- <-. rewrite Hd. exists (data, true). split; [constructor|]. by eexists _, _.
  - destruct Ho as [Hf Hk]. injection Hst as <- <-. exists (data, false). by split; [constructor|].
Qed.

Lemma event_at_state s x ev out s' :
  at_state s x -> (x.2 = true -> may_ask x.1 ev) -> store_event s ev = (out, s') -> exists y, state_step x ev out y /\ at_state s' y.
Proof.
  intros Hat Hask Hst. assert (Hc : ev = EvStart \/ ev <> EvStart) by (destruct ev; (by left) || (by right)).
  destruct Hc as [->|Hne]; [by eapply start_at_state|].
  destruct x as [data [|]]; cbn in Hask; [specialize (Hask eq_refl)|].
  - destruct Hat as (store & b & Hs & Hd & Hw). cbn in Hd, Hw. unfold store_event in Hst. rewrite Hs in Hst. destruct ev as [xs| |meta bytes|]; [| | |done].
    + destruct Hask as [Ha Hap]. pose proof (wp_apply_working store b data xs (sx_world s) Hw Ha Hap) as Ho. unfold io_wp in Ho.
      destruct (sm_apply os log_id_text store xs (sx_world s)) as [[r|e] w].
      * destruct Ho as (rs & data' & store' & Happ & -> & Hd' & Hw'). injection Hst as <- <-. exists (data', true).
        split; [by constructor|]. by exists store', b.
      * destruct Ho as (Hc & k & rs & data' & Happ & Hk). injection Hst as <- <-. exists (data', false). split; [by econstructor|done].
    + pose proof (wp_build_step store b data (sx_world s) Hw) as Ho. unfold io_wp in Ho.
      destruct (build_step os store b (sx_world s)) as [[[store' b']|e] w]; injection Hst as <- <-.
      * destruct Ho as [Hd' Hw']. exists (data, true). split; [constructor|]. by exists store', b'.
      * destruct Ho. exists (data, false). by split; [constructor|].
    + destruct Hask as [Ha Hwf]. destruct (validate_snapshot_data bytes) as [p|e] eqn:Hv.
      * pose proof (wp_install_working store b data meta bytes p (sx_world s) Hw Hv (Hwf p eq_refl) Ha) as Ho. unfold io_wp in Ho.
        destruct (install_snapshot os broker_error_text store meta bytes (sx_world s)) as [[store'|e] w]; injection Hst as <- <-.
        -- destruct Ho as [Hd' Hw']. exists (installed meta p, true). split; [by constructor|]. by exists store', b.
        -- destruct Ho as [Hf [Hk|Hk]]; eexists (_, false); (split; [|by split; [|exact Hk]]); (econstructor; [done|done|]; auto).
      * unfold install_snapshot in Hst. rewrite Hv in Hst. injection Hst as <- <-. exists (data, false). split; [by econstructor|].
        split; [done|]. by eapply working_keeps.
  - exists (data, false). destruct Hat as [Hs Hk]. unfold store_event in Hst. rewrite Hs in Hst.
    destruct ev; [..|done]; injection Hst as <- <-; (split; [by constructor|by split]).
Qed.
Lemma run_at_state evs s x outs s' :
  at_state s x -> store_run s evs = (outs, s') -> asks x evs outs -> exists y, state_steps x evs outs y /\ at_state s' y.
Proof.
  revert s x outs; induction evs as [|ev evs IH]; intros s x outs Hat; cbn [store_run].
  { intros [= <- <-] _. exists x. split; [constructor|done]. }
  destruct (store_event s ev) as [out s1] eqn:E1. destruct (store_run s1 evs) as [outs1 s2] eqn:E2. intros [= <- <-].
  intros [Hal Hk]. destruct (event_at_state s x ev out s1 Hat Hal E1) as (y & Hy & Hat1).
  destruct (IH s1 y outs1 Hat1 E2 (Hk y Hy)) as (z & Hz & Hat2). exists z. split; [by econstructor|done].
Qed.

(** A directory that no store has been in. *)
Lemma fresh_at_state w : w_disk w !! path = None -> at_state {| sx_store := None; sx_world := w |} (data_default no_members, false).
Proof.
  intros Hd. split; [done|]. cbn [fst snd sx_world]. assert (Hn : forall n, RaftStateSteps.fl path (w_disk w) n = None).
  { intros n. unfold RaftStateSteps.fl, disk_file. cbn. by rewrite Hd. }
  exists None, None, [], []. split_and!; [|by left|].
  - split; [apply Hn|apply Hn|]. right. split_and!; [apply Hn|done|done].
  - split; try done. by intros e ?%not_elem_of_nil.
Qed.
End process.
(** ** Guarantees *)

Definition brand_new (w : World) : StoreSession := {| sx_store := None; sx_world := w |}.

(** C15: In every history of a store that starts in a new directory, what the
    operations answer and what a start finds is what the state alone gives: the
    entries that were answered are applied, also after every restart; building a
    snapshot, at whatever points its steps run, changes nothing; a snapshot is
    installed as a whole or not at all; no start and no operation panics; and the
    process stops only for a fault of the system, an entry that is too large
    for the journal or a snapshot that is not valid. *)
Theorem state_store_refines os w evs outs s :
  w_disk w !! path = None -> store_run os (brand_new w) evs = (outs, s) -> asks os (data_default no_members, false) evs outs ->
  exists y, state_steps os (data_default no_members, false) evs outs y /\
    sm_state <$> (fst <$> sx_store s) = if y.2 then Some y.1 else None.
Proof.
  intros Hw Hr Ha. destruct (run_at_state os _ _ _ _ _ (fresh_at_state w Hw) Hr Ha) as ([data up] & Hy & Hat). exists (data, up).
  split; [done|]. destruct up; cbn in Hat |- *; [|by destruct Hat as [-> _]]. destruct Hat as (store & b & -> & <- & _). done.
Qed.

(** C16: However it went, and on whatever system: a start without faults opens the
    store, in the state that the history left. *)
Theorem state_store_recovers os w evs outs s os' :
  w_disk w !! path = None -> store_run os (brand_new w) evs = (outs, s) -> asks os (data_default no_members, false) evs outs ->
  ~ faulty os' ->
  exists y store w', state_steps os (data_default no_members, false) evs outs y /\
    sm_open os' log_id_text no_members path kind (sx_world s) = (Ok (Some store), w') /\ sm_state store = y.1.
Proof.
  intros Hw Hr Ha Hf. destruct (run_at_state os _ _ _ _ _ (fresh_at_state w Hw) Hr Ha) as (y & Hy & Hat).
  pose proof (wp_open_working os' y.1 (sx_world s) (at_state_keeps _ _ Hat)) as Ho. unfold io_wp in Ho.
  destruct (sm_open os' log_id_text no_members path kind (sx_world s)) as [[r|e] w']; [|by destruct Ho].
  destruct Ho as (store & -> & Hd & _). by exists y, store, w'.
Qed.

(** C28: A snapshot that one member builds brings another to the very state it was
    built from, and is what that member then sends on. *)
Theorem snapshot_transfer os os' (builder installer : Store) builder' snapshot w w' w1 w1' installer' :
  snapshot_wf (sd_state (sm_state builder)) ->
  build_snapshot os broker_error_text builder w = (Ok (builder', snapshot), w') ->
  install_snapshot os' broker_error_text installer (sn_meta snapshot) (sn_data snapshot) w1 = (Ok installer', w1') ->
  sm_state installer' = sm_state builder /\ get_current_snapshot installer' = get_current_snapshot builder' /\
  get_current_snapshot builder' = Some snapshot.
Proof.
  intros Hwf Hb Hi. unfold build_snapshot, io_bind, io_lift in Hb. destruct (build_capture builder) as [[sn b1]|e] eqn:Ec; [|done].
  destruct (capture_image builder sn b1 _ eq_refl Hwf Ec) as (st & (p & Hp & Hst) & Hid & _). cbn in Hp, Hst.
  cbn in Hb. destruct (persist_snapshot os b1 sn w) as [[[]|e] w2]; [|done]. unfold build_finish, io_bind in Hb.
  destruct (compact_journal os broker_error_text b1 _ w2) as [[[]|e] w3]; [|done]. injection Hb as <- <- <-.
  unfold install_snapshot, io_bind in Hi. rewrite Hp in Hi. cbn in Hi. rewrite Hst in Hi.
  destruct (persist_snapshot os' installer _ w1) as [[[]|e] w4]; [|done].
  destruct (persist_checkpoint os' installer _ w4) as [[[]|e] w5]; [|done].
  destruct (compact_journal os' broker_error_text installer _ w5) as [[[]|e] w6]; [|done]. injection Hi as <- <-.
  split_and!; [exact Hid| |done]. cbn. by destruct sn.
Qed.
End history.
