(* ===== verification/RaftStateConflict.v ===== *)
(** The checkpoint that installing a snapshot writes and the journal that
    building a snapshot compacts have the same temporary file. The first is
    written under the lock of the state, the second under the lock of the journal,
    so neither waits for the other: what happens when they meet. *)

From S2P Require Import Prelude Engine RecordFormat Names Paths Disk RaftLogFormat RaftLogSegments RaftState RaftDelivery RaftInvariant RaftHandlers RaftBatch RaftStateMachine RaftJournal RaftStateStore RaftStateRecovery RaftStateSteps RaftStateGuarantees.

Local Open Scope N_scope.

Section conflict.
Context {Membership : Type} {J : JournalJson Membership} {L : JournalJsonLaws J} {S : StoreJson Membership} {SL : StoreJsonLaws S}.
Context (log_id_text : LogId -> string) (broker_error_text : BrokerError -> string) (no_members : StoredMembership Membership).
Context (path : string) (kind : GroupKind).

Abbreviation Data := (StateMachineData Membership).
Abbreviation Store := (StateMachineStore (Membership := Membership)).

(** ** The two operations, call by call *)

Fixpoint in_order (actions : list (Io unit)) : Io unit :=
  match actions with
  | [] => io_ret tt
  | action :: actions => do* action in in_order actions
  end.

(** What [compact_journal] does with the entries it keeps. *)
Definition compact_actions (os : Os) (retained : list (JournalEntry Membership)) : list (Io unit) :=
  let journal_path := in_directory path JOURNAL_FILE in
  let temporary_path := temp_path os journal_path in
  [file_create os temporary_path; append_all os temporary_path retained; sync os; rename os temporary_path journal_path; sync os;
   file_open_append os journal_path].

(** What [persist_checkpoint] does with the encoded state. *)
Definition checkpoint_actions (os : Os) (bytes : list byte) : list (Io unit) :=
  let state_path := in_directory path STATE_FILE in
  let temp := temp_path os state_path in
  [create_dir_all os path; file_create os temp; file_write os temp bytes; sync os; rename os temp state_path; sync os].

Lemma in_order_last (m : Io unit) w : (do* m in io_ret tt) w = m w.
Proof. unfold io_bind, io_ret. by destruct (m w) as [[[]|e] w']. Qed.

Lemma bind_ext {X A B} (m : IoE X A) (k k' : A -> IoE X B) w : (forall a w', k a w' = k' a w') -> io_bind m k w = io_bind m k' w.
Proof. intros Hk. unfold io_bind. destruct (m w) as [[a|e] w']; [apply Hk|done]. Qed.

Lemma map_err_ext {X Y A} (f : X -> Y) (m m' : IoE X A) w : m w = m' w -> io_map_err f m w = io_map_err f m' w.
Proof. intros Hm. unfold io_map_err. by rewrite Hm. Qed.

Lemma compact_journal_actions os (store : Store) last w :
  sm_path store = Some path ->
  compact_journal os broker_error_text store last w =
  (let* entries := io_map_err (fun e => write_state_machine {| ie_kind := OtherIo; ie_message := broker_error_text e |})
                     (journal_read os (in_directory path JOURNAL_FILE)) in
   io_map_err write_state_machine (in_order (compact_actions os (retained_entries last entries)))) w.
Proof.
  intros Hp. unfold compact_journal. rewrite Hp. apply bind_ext. intros entries w'. apply map_err_ext. unfold compact_actions, in_order.
  repeat (apply bind_ext; intros ? ?). by rewrite in_order_last.
Qed.

Lemma persist_checkpoint_actions os (store : Store) x w :
  sm_path store = Some path ->
  persist_checkpoint os store x w = io_map_err write_state_machine (in_order (checkpoint_actions os (state_bytes x))) w.
Proof.
  intros Hp. unfold persist_checkpoint, state_bytes. rewrite Hp. destruct (persisted_json_total (persisted_state x)) as [bytes Hb].
  rewrite Hb. apply map_err_ext. unfold atomic_write, checkpoint_actions, in_order. cbn [default from_option id].
  repeat (apply bind_ext; intros ? ?). by rewrite in_order_last.
Qed.

(** ** Two threads *)

(** What a thread still has to do, or the error that ended it. *)
Definition Thread : Type := Result (list (Io unit)) IoError.

Definition advance (t : Thread) (w : World) : Thread * World :=
  match t with
  | Ok (action :: actions) => match action w with (Ok _, w) => (Ok actions, w) | (Err e, w) => (Err e, w) end
  | _ => (t, w)
  end.

(** [true]: the first thread makes its next call. *)
Fixpoint interleave (schedule : list bool) (a b : Thread) (w : World) : Thread * Thread * World :=
  match schedule with
  | [] => (a, b, w)
  | true :: schedule => let '(a, w) := advance a w in interleave schedule a b w
  | false :: schedule => let '(b, w) := advance b w in interleave schedule a b w
  end.

(** Alone, a thread does what its operation does. *)
Lemma alone actions b w :
  let '(a, _, w') := interleave (replicate (length actions) true) (Ok actions) b w in
  in_order actions w = (match a with Ok _ => Ok tt | Err e => Err e end, w').
Proof.
  revert w; induction actions as [|action actions IH]; intros w; [done|]. cbn. unfold io_bind. destruct (action w) as [[[]|e] w1]; [apply IH|].
  assert (Hstuck : forall n, interleave (replicate n true) (Err e) b w1 = (Err e, b, w1)) by (induction n; done). by rewrite Hstuck.
Qed.

(** ** What is left when they meet *)

Lemma advance_ok os (action : Io unit) actions (Q : unit -> World -> Prop) w :
  ~ faulty os -> io_wp action Q (fun _ => faulty os) w -> exists w', advance (Ok (action :: actions)) w = (Ok actions, w') /\ Q tt w'.
Proof. intros Hf Hwp. unfold io_wp in Hwp. cbn. destruct (action w) as [[[]|e] w']; [by exists w'|done]. Qed.

Lemma reading_keeps os p w : io_wp (read_file os p) (fun _ w' => w_disk w' = w_disk w) (fun _ => True) w.
Proof. apply io_wp_syscall; [|done]. by destruct (disk_file (w_disk w) p). Qed.

Lemma reading_state_keeps os p w : io_wp (read_persisted_state os p) (fun _ w' => w_disk w' = w_disk w) (fun _ => True) w.
Proof.
  unfold read_persisted_state. apply io_wp_bind. unfold io_wp at 1, file_exists. destruct (disk_file (w_disk w) p) as [file|]; cbn [negb]; [|done].
  apply io_wp_bind, io_wp_map_err. eapply io_wp_mono; [apply reading_keeps| |done]. intros bytes w' Hw.
  destruct (persisted_from_json bytes) as [p'|]; [|done]. destruct (negb _); [done|]. by destruct (validate_group_consumer_entries _).
Qed.

Lemma reading_snapshot_keeps os p w : io_wp (open_snapshot os p) (fun _ w' => w_disk w' = w_disk w) (fun _ => True) w.
Proof.
  unfold open_snapshot, read_persisted_snapshot. apply io_wp_bind, io_wp_bind. unfold io_wp at 1, file_exists. destruct (disk_file (w_disk w) p) as [file|]; cbn [negb]; [|done].
  apply io_wp_bind, io_wp_map_err. eapply io_wp_mono; [apply reading_keeps| |done]. intros bytes w' Hw.
  destruct (stored_from_json bytes) as [sn|]; [|done]. apply io_wp_ret. by destruct (validate_snapshot_data _).
Qed.

(** A journal that starts with a length that no record has. *)
Definition no_journal (bytes : list byte) : Prop := 4 <= vec_len bytes /\ MAX_RECORD_SIZE < from_le_bytes (take 4 bytes).

Lemma no_journal_parses bytes p cursor : no_journal bytes -> exists e, parse_records (length bytes) p bytes cursor = Err e.
Proof.
  intros [Hl Hm]. destruct bytes as [|b bytes]; [unfold vec_len in Hl; cbn in Hl; lia|]. remember (b :: bytes) as l eqn:El. cbn [length]. rewrite El.
  cbn [length parse_records]. rewrite <-El. destruct (N.ltb_spec (vec_len l) 4); [lia|]. destruct (N.ltb_spec MAX_RECORD_SIZE (from_le_bytes (take 4 l))); [|lia].
  by eexists.
Qed.

Lemma no_journal_no_start os bytes w :
  RaftStateSteps.fl path (w_disk w) JOURNAL_FILE = Some bytes -> no_journal bytes ->
  exists e w', sm_open os log_id_text no_members path kind w = (Err e, w').
Proof.
  intros Hf Hn. enough (H : io_wp (sm_open os log_id_text no_members path kind) (fun _ _ => False) (fun _ => True) w).
  { unfold io_wp in H. destruct (sm_open os log_id_text no_members path kind w) as [[r|e] w']; [done|by exists e, w']. }
  unfold sm_open. apply io_wp_bind. eapply io_wp_mono; [apply reading_state_keeps| |done]. intros persisted w1 Hw1.
  apply io_wp_bind. eapply io_wp_mono; [apply reading_snapshot_keeps| |done]. intros snapshot w2 Hw2.
  unfold journal_read, journal_parse. do 3 apply io_wp_bind. eapply (io_wp_file_present _ bytes); [by rewrite Hw2, Hw1|]. cbn [negb].
  apply io_wp_bind, io_wp_map_err. apply (io_wp_read_file os _ bytes); [by rewrite Hw2, Hw1| |done].
  destruct (no_journal_parses bytes (in_directory path JOURNAL_FILE) 0 Hn) as [e He]. by rewrite He.
Qed.

Abbreviation fl := (RaftStateSteps.fl path).
Abbreviation agree := (RaftStateSteps.agree path).

(** The compaction up to its rename: the temporary file is there. *)
Lemma compact_prepares os retained b w :
  ~ faulty os -> is_Some (w_disk w !! path) -> Forall writable retained ->
  exists w', interleave [true; true; true] (Ok (compact_actions os retained)) b w = (Ok (drop 3 (compact_actions os retained)), b, w') /\
    is_Some (w_disk w' !! path).
Proof.
  intros Hf [files Hd] Hw. unfold compact_actions. rewrite temp_path_of. set (tmp := temp_of os path JOURNAL_FILE). cbn [interleave drop].
  set (rest := [rename os (in_directory path tmp) (in_directory path JOURNAL_FILE); sync os; file_open_append os (in_directory path JOURNAL_FILE)]).
  destruct (advance_ok os (file_create os (in_directory path tmp)) (append_all os (in_directory path tmp) retained :: sync os :: rest)
    (fun _ w' => is_Some (w_disk w' !! path) /\ fl (w_disk w') tmp = Some []) w Hf) as (w1 & E1 & Hd1 & Hf1).
  { apply (io_wp_file_create os _ files); [done| |done]. cbn [later w_disk]. split; [by apply put_dir|by rewrite fl_put, decide_True by done]. }
  rewrite E1.
  destruct (advance_ok os (append_all os (in_directory path tmp) retained) (sync os :: rest) (fun _ w' => is_Some (w_disk w' !! path)) w1 Hf)
    as (w2 & E2 & Hd2).
  { apply (wp_append_all os path tmp retained []); [done| |done| |].
    - eapply Forall_impl; [exact Hw|]. by intros e [].
    - intros w' Ha _ _. by apply Ha.
    - by intros [?|?]. }
  rewrite E2. destruct (advance_ok os (sync os) rest (fun _ w' => is_Some (w_disk w' !! path)) w2 Hf) as (w3 & E3 & Hd3); [by apply io_wp_sync|].
  rewrite E3. by exists w3.
Qed.

(** The checkpoint up to its rename: the temporary file has its bytes. *)
Lemma checkpoint_prepares os a bytes w :
  ~ faulty os -> is_Some (w_disk w !! path) ->
  exists w', interleave [false; false; false; false] a (Ok (checkpoint_actions os bytes)) w = (a, Ok (drop 4 (checkpoint_actions os bytes)), w') /\
    is_Some (w_disk w' !! path) /\ fl (w_disk w') (temp_of os path STATE_FILE) = Some bytes.
Proof.
  intros Hf [files Hd]. unfold checkpoint_actions. rewrite temp_path_of. set (tmp := temp_of os path STATE_FILE). cbn [interleave drop].
  set (rest := [rename os (in_directory path tmp) (in_directory path STATE_FILE); sync os]).
  destruct (advance_ok os (create_dir_all os path) (file_create os (in_directory path tmp) :: file_write os (in_directory path tmp) bytes :: sync os :: rest)
    (fun _ w' => w_disk w' = w_disk w) w Hf) as (w1 & E1 & Hw1); [by apply (io_wp_create_dir_all os _ files)|]. rewrite E1.
  destruct (advance_ok os (file_create os (in_directory path tmp)) (file_write os (in_directory path tmp) bytes :: sync os :: rest)
    (fun _ w' => is_Some (w_disk w' !! path) /\ fl (w_disk w') tmp = Some []) w1 Hf) as (w2 & E2 & Hd2 & Hf2).
  { apply (io_wp_file_create os _ files); [by rewrite Hw1| |done]. cbn [later w_disk]. rewrite Hw1. split; [by apply put_dir|by rewrite fl_put, decide_True by done]. }
  rewrite E2.
  destruct (advance_ok os (file_write os (in_directory path tmp) bytes) (sync os :: rest)
    (fun _ w' => is_Some (w_disk w' !! path) /\ fl (w_disk w') tmp = Some bytes) w2 Hf) as (w3 & E3 & Hd3 & Hf3).
  { apply (io_wp_file_write os _ []); [done| |done]. cbn [later w_disk app]. split; [by apply put_dir|by rewrite fl_put, decide_True by done]. }
  rewrite E3.
  destruct (advance_ok os (sync os) rest (fun _ w' => w_disk w' = w_disk w3) w3 Hf) as (w4 & E4 & Hw4); [by apply io_wp_sync|].
  rewrite E4. exists w4. by rewrite Hw4.
Qed.

(** The compaction from its rename: it takes what is there under the shared name. *)
Lemma compact_renames os retained bytes b w :
  ~ faulty os -> is_Some (w_disk w !! path) -> fl (w_disk w) (temp_of os path JOURNAL_FILE) = Some bytes ->
  exists w', interleave [true; true; true] (Ok (drop 3 (compact_actions os retained))) b w = (Ok [], b, w') /\
    fl (w_disk w') JOURNAL_FILE = Some bytes /\ fl (w_disk w') (temp_of os path JOURNAL_FILE) = None.
Proof.
  intros Hf Hd Hb. unfold compact_actions. rewrite temp_path_of. set (tmp := temp_of os path JOURNAL_FILE) in *. cbn [interleave drop].
  set (renamed w' := is_Some (w_disk w' !! path) /\ fl (w_disk w') JOURNAL_FILE = Some bytes /\ fl (w_disk w') tmp = None).
  destruct (advance_ok os (rename os (in_directory path tmp) (in_directory path JOURNAL_FILE)) [sync os; file_open_append os (in_directory path JOURNAL_FILE)]
    (fun _ w' => renamed w') w Hf) as (w1 & E1 & Hd1 & Hj1 & Ht1).
  { apply (io_wp_rename os _ _ bytes); [exact Hb| |by intros]. unfold renamed. cbn [later w_disk].
    assert (Hd' : is_Some (disk_remove (w_disk w) (in_directory path tmp) !! path)) by (by apply remove_dir).
    split_and!; [by apply put_dir|by rewrite fl_put, decide_True by done|].
    rewrite fl_put, decide_False, fl_remove, decide_True by (by try exact (temp_not_file os path _ _ in_journal in_journal)). reflexivity. }
  rewrite E1.
  destruct (advance_ok os (sync os) [file_open_append os (in_directory path JOURNAL_FILE)] (fun _ w' => w_disk w' = w_disk w1) w1 Hf)
    as (w2 & E2 & Hw2); [by apply io_wp_sync|]. rewrite E2.
  destruct (advance_ok os (file_open_append os (in_directory path JOURNAL_FILE)) [] (fun _ w' => w_disk w' = w_disk w1) w2 Hf) as (w3 & E3 & Hw3).
  { destruct Hd1 as [files1 Hd1]. apply (io_wp_open_append os _ files1); [by rewrite Hw2| |by intros]. rewrite Hw2.
    unfold RaftStateSteps.fl in Hj1. by rewrite Hj1. }
  rewrite E3. exists w3. by rewrite Hw3.
Qed.

Lemma interleave_app schedule schedule' a b w :
  interleave (schedule ++ schedule') a b w = let '(a, b, w) := interleave schedule a b w in interleave schedule' a b w.
Proof.
  revert a b w; induction schedule as [|[|] schedule IH]; intros a b w; [done|..]; cbn; [destruct (advance a w)|destruct (advance b w)]; apply IH.
Qed.

(** C38: A store in use, on a system without faults: when the checkpoint of a
    snapshot that is installed is written just before the compaction of a
    snapshot that is built renames, the checkpoint becomes the journal. The
    compaction succeeds, the installation fails, and no start opens the store
    again. *)
Theorem shared_temporary_loses_store os (store : Store) c s es data last x w :
  ~ faulty os -> serving log_id_text no_members path kind store (w_disk w) c s es data -> no_journal (state_bytes x) ->
  exists schedule w',
    interleave schedule (Ok (compact_actions os (retained_entries last es))) (Ok (checkpoint_actions os (state_bytes x))) w = (Ok [], Err not_found, w') /\
    forall os' t, exists e w'', sm_open os' log_id_text no_members path kind {| w_disk := w_disk w'; w_tick := t |} = (Err e, w'').
Proof.
  intros Hf Hs Hn. assert (Hw : Forall writable (retained_entries last es)).
  { apply Forall_forall. intros e [_ He]%list_elem_of_filter. pose proof (me_journal _ _ _ _ _ _ _ (se_means _ _ _ _ _ _ _ _ _ _ Hs)) as Hj.
    rewrite Forall_forall in Hj. by apply Hj. }
  exists ([true; true; true] ++ [false; false; false; false] ++ [true; true; true] ++ [false]).
  destruct (compact_prepares os (retained_entries last es) (Ok (checkpoint_actions os (state_bytes x))) w Hf (se_dir _ _ _ _ _ _ _ _ _ _ Hs) Hw) as (w1 & E1 & Hd1).
  rewrite interleave_app, E1.
  destruct (checkpoint_prepares os (Ok (drop 3 (compact_actions os (retained_entries last es)))) (state_bytes x) w1 Hf Hd1) as (w2 & E2 & Hd2 & Hf2).
  rewrite interleave_app, E2. rewrite temp_shared in Hf2.
  destruct (compact_renames os (retained_entries last es) _ (Ok (drop 4 (checkpoint_actions os (state_bytes x)))) w2 Hf Hd2 Hf2) as (w3 & E3 & Hj3 & Ht3).
  rewrite interleave_app, E3. rewrite <-temp_shared in Ht3. unfold RaftStateSteps.fl in Ht3. rewrite <-temp_path_of in Ht3.
  exists {| w_disk := w_disk w3; w_tick := Datatypes.S (w_tick w3) |}. split.
  - cbn [interleave drop checkpoint_actions advance]. unfold rename, syscall. destruct (os_fault os (w_tick w3)) as [fault|] eqn:Hft.
    + destruct Hf. by exists (w_tick w3), fault.
    + by rewrite Ht3.
  - intros os' t. by apply (no_journal_no_start os' (state_bytes x)).
Qed.
End conflict.
