(* ===== verification/RaftStateExample.v ===== *)
(** The guarantees of the state machine store on a concrete store: a format in
    place of JSON, and a history with a fault, a snapshot that is built between
    other operations and one that is installed. *)

From S2P Require Import Prelude Engine RecordFormat Names Paths Disk RaftLogFormat RaftLogSegments RaftState RaftDelivery RaftInvariant RaftHandlers RaftBatch RaftStateMachine RaftGuarantees RaftLogGuarantees RaftJournal RaftStateStore RaftStateRecovery RaftStateSteps RaftStateGuarantees RaftStateHistory RaftStateConflict.

Local Open Scope N_scope.

Module ToyStore.

(** ** A format

    Values as bytes, so that what follows a value can be told from it. *)

Class Codec (A : Type) := {
  put : A -> list byte;
  get : list byte -> option (A * list byte);
  get_put a l : get (put a ++ l) = Some (a, l);
}.

#[local] Instance codec_byte : Codec byte := {|
  put b := [b];
  get l := match l with b :: l => Some (b, l) | [] => None end;
  get_put b l := eq_refl;
|}.

Fixpoint put_pos (p : positive) : list byte :=
  match p with xH => [Byte.x02] | xO p => Byte.x00 :: put_pos p | xI p => Byte.x01 :: put_pos p end.

Fixpoint get_pos (l : list byte) : option (positive * list byte) :=
  match l with
  | Byte.x00 :: l => '(p, l) ← get_pos l; Some (xO p, l)
  | Byte.x01 :: l => '(p, l) ← get_pos l; Some (xI p, l)
  | Byte.x02 :: l => Some (xH, l)
  | _ => None
  end.

#[local] Instance codec_pos : Codec positive.
Proof.
  refine {| put := put_pos; get := get_pos |}.
  induction a as [p IH|p IH|]; intros l; cbn; [by rewrite IH..|done].
Defined.

(** A type that is part of another. *)
Definition codec_into {A B} `{Codec B} (f : A -> B) (g : B -> A) (Hgf : forall a, g (f a) = a) : Codec A.
Proof.
  refine {| put a := put (f a); get l := '(b, l) ← get l; Some (g b, l) |}.
  intros a l. rewrite get_put. cbn. by rewrite Hgf.
Defined.

#[local] Instance codec_N : Codec N := codec_into N.succ_pos Pos.pred_N N.pos_pred_succ.
#[local] Instance codec_unit : Codec unit := codec_into (fun _ => Byte.x00) (fun _ => tt) ltac:(by intros []).
#[local] Instance codec_bool : Codec bool :=
  codec_into (fun b : bool => if b then Byte.x01 else Byte.x00) (fun b => match b with Byte.x01 => true | _ => false end) ltac:(by intros []).

#[local] Instance codec_prod {A B} `{Codec A, Codec B} : Codec (A * B).
Proof.
  refine {| put '(a, b) := put a ++ put b; get l := '(a, l) ← get l; '(b, l) ← get l; Some ((a, b), l) |}.
  intros [a b] l. rewrite <-app_assoc, get_put. cbn. by rewrite get_put.
Defined.

#[local] Instance codec_sum {A B} `{Codec A, Codec B} : Codec (A + B).
Proof.
  refine {| put x := match x with inl a => Byte.x00 :: put a | inr b => Byte.x01 :: put b end;
            get l := match l with
                     | Byte.x00 :: l => '(a, l) ← get l; Some (inl a, l)
                     | Byte.x01 :: l => '(b, l) ← get l; Some (inr b, l)
                     | _ => None
                     end |}.
  intros [a|b] l; cbn; by rewrite get_put.
Defined.

#[local] Instance codec_option {A} `{Codec A} : Codec (option A) :=
  codec_into (fun x => match x with Some a => inl a | None => inr tt end) (fun x => match x with inl a => Some a | inr _ => None end)
    ltac:(by intros []).

Fixpoint get_list {A} `{Codec A} (n : nat) (l : list byte) : option (list A * list byte) :=
  match n with
  | O => Some ([], l)
  | S n => '(a, l) ← get l; '(rest, l) ← get_list n l; Some (a :: rest, l)
  end.

#[local] Instance codec_list {A} `{Codec A} : Codec (list A).
Proof.
  refine {| put x := put (N.of_nat (length x)) ++ concat (put <$> x); get l := '(n, l) ← get l; get_list (N.to_nat n) l |}.
  intros x l. rewrite <-app_assoc, get_put. cbn. rewrite Nat2N.id. induction x as [|a x IH]; [done|]. cbn.
  rewrite <-app_assoc, get_put. cbn. by rewrite IH.
Defined.

#[local] Instance codec_string : Codec string :=
  codec_into String.list_byte_of_string String.string_of_list_byte String.string_of_list_byte_of_string.
#[local] Instance codec_map {K A} `{Countable K, Codec K, Codec A} : Codec (gmap K A) :=
  codec_into map_to_list list_to_map list_to_map_to_list.
#[local] Instance codec_set {K} `{Countable K, Codec K} : Codec (gset K) :=
  codec_into elements list_to_set list_to_set_elements_L.

(** ** What the store writes, in this format *)

#[local] Instance codec_log_id : Codec LogId :=
  codec_into (fun i => (li_term i, li_node i, li_index i)) (fun '(t, n, i) => {| li_term := t; li_node := n; li_index := i |}) ltac:(by intros []).
#[local] Instance codec_receipt : Codec DeliveryReceipt :=
  codec_into (fun r => (dr_offset r, dr_delivery_token r)) (fun '(o, t) => {| dr_offset := o; dr_delivery_token := t |}) ltac:(by intros []).

Definition command_form : Type :=
  (string * option string * option string) + (string * string * string) + string +
  (string * option string * list byte * N * option string) + (string * string * N) +
  (string * string * N * option N * N) + (string * string * N) +
  (string * string * string * option string * N * N * N * option N * option N * option N) +
  (string * string * string * option string * N * N * string * N * N * option N * option N * option N * bool) +
  (string * string * string * N * string * N) + (string * string * string * list DeliveryReceipt * N).

Definition of_command (c : Command) : command_form :=
  match c with
  | CreateStream s i g => inl (inl (inl (inl (inl (inl (inl (inl (inl (inl (s, i, g))))))))))
  | InitializeDataStream s i g => inl (inl (inl (inl (inl (inl (inl (inl (inl (inr (s, i, g))))))))))
  | ActivateStream s => inl (inl (inl (inl (inl (inl (inl (inl (inr s))))))))
  | Publish s k p t r => inl (inl (inl (inl (inl (inl (inl (inr (s, k, p, t, r))))))))
  | Ack s c o => inl (inl (inl (inl (inl (inl (inr (s, c, o)))))))
  | ConfigureConsumer s c a m r => inl (inl (inl (inl (inl (inr (s, c, a, m, r))))))
  | Replay s c o => inl (inl (inl (inl (inr (s, c, o)))))
  | PollGroup s c m rm b n l a t v => inl (inl (inl (inr (s, c, m, rm, b, n, l, a, t, v))))
  | PollGroupBatch s c m rm r b k n l a t v o => inl (inl (inr (s, c, m, rm, r, b, k, n, l, a, t, v, o)))
  | AckGroup s c m o t n => inl (inr (s, c, m, o, t, n))
  | AckGroupBatch s c m r n => inr (s, c, m, r, n)
  end.

Definition to_command (f : command_form) : Command :=
  match f with
  | inl (inl (inl (inl (inl (inl (inl (inl (inl (inl (s, i, g)))))))))) => CreateStream s i g
  | inl (inl (inl (inl (inl (inl (inl (inl (inl (inr (s, i, g)))))))))) => InitializeDataStream s i g
  | inl (inl (inl (inl (inl (inl (inl (inl (inr s)))))))) => ActivateStream s
  | inl (inl (inl (inl (inl (inl (inl (inr (s, k, p, t, r)))))))) => Publish s k p t r
  | inl (inl (inl (inl (inl (inl (inr (s, c, o))))))) => Ack s c o
  | inl (inl (inl (inl (inl (inr (s, c, a, m, r)))))) => ConfigureConsumer s c a m r
  | inl (inl (inl (inl (inr (s, c, o))))) => Replay s c o
  | inl (inl (inl (inr (s, c, m, rm, b, n, l, a, t, v)))) => PollGroup s c m rm b n l a t v
  | inl (inl (inr (s, c, m, rm, r, b, k, n, l, a, t, v, o))) => PollGroupBatch s c m rm r b k n l a t v o
  | inl (inr (s, c, m, o, t, n)) => AckGroup s c m o t n
  | inr (s, c, m, r, n) => AckGroupBatch s c m r n
  end.

#[local] Instance codec_command : Codec Command := codec_into of_command to_command ltac:(by intros []).

#[local] Instance codec_payload : Codec (EntryPayload unit) :=
  codec_into (fun p : EntryPayload unit => match p with Blank => inl (inl tt) | Normal c => inl (inr c) | MembershipChange m => inr m end)
    (fun f => match f with inl (inl _) => Blank | inl (inr c) => Normal c | inr m => MembershipChange m end) ltac:(by intros []).
#[local] Instance codec_journal_entry : Codec (JournalEntry unit) :=
  codec_into (fun e : JournalEntry unit => (je_version e, je_log_id e, je_payload e))
    (fun '(v, i, p) => {| je_version := v; je_log_id := i; je_payload := p |}) ltac:(by intros []).
#[local] Instance codec_membership : Codec (StoredMembership unit) :=
  codec_into (fun m : StoredMembership unit => (sme_log_id m, sme_membership m)) (fun '(i, m) => {| sme_log_id := i; sme_membership := m |}) ltac:(by intros []).
#[local] Instance codec_message : Codec StoredMessage :=
  codec_into (fun m => (sm_key m, sm_payload m, sm_published_at_ms m))
    (fun '(k, p, t) => {| sm_key := k; sm_payload := p; sm_published_at_ms := t |}) ltac:(by intros []).
#[local] Instance codec_lifecycle : Codec StreamLifecycle :=
  codec_into (fun l => match l with Creating => true | Active => false end) (fun b : bool => if b then Creating else Active) ltac:(by intros []).
#[local] Instance codec_stream : Codec PersistedStream :=
  codec_into (fun s => (ps_stream_id s, ps_group_id s, ps_lifecycle s, ps_messages s))
    (fun '(i, g, l, m) => {| ps_stream_id := i; ps_group_id := g; ps_lifecycle := l; ps_messages := m |}) ltac:(by intros []).
#[local] Instance codec_consumer : Codec PersistedConsumer :=
  codec_into (fun c => (pc_stream c, pc_consumer c, pc_offset c))
    (fun '(s, c, o) => {| pc_stream := s; pc_consumer := c; pc_offset := o |}) ltac:(by intros []).
#[local] Instance codec_policy : Codec ConsumerPolicy :=
  codec_into (fun p => (policy_version p, configured p, ack_timeout_ms p, max_delivery_attempts p, retry_delay_ms p))
    (fun '(v, c, a, m, r) => {| policy_version := v; configured := c; ack_timeout_ms := a; max_delivery_attempts := m; retry_delay_ms := r |})
    ltac:(by intros []).
#[local] Instance codec_delivery : Codec GroupDelivery :=
  codec_into (fun d => (gd_member d, gd_key d, gd_delivery_attempt d, gd_delivery_token d, gd_requires_receipt d, gd_deadline_ms d))
    (fun '(m, k, a, t, r, l) => {| gd_member := m; gd_key := k; gd_delivery_attempt := a; gd_delivery_token := t;
       gd_requires_receipt := r; gd_deadline_ms := l |}) ltac:(by intros []).
#[local] Instance codec_schedule : Codec GroupRetrySchedule :=
  codec_into (fun r => (grs_retry_not_before_ms r, grs_key r))
    (fun '(t, k) => {| grs_retry_not_before_ms := t; grs_key := k |}) ltac:(by intros []).
#[local] Instance codec_group_state : Codec GroupConsumerState :=
  codec_into (fun c => (gc_committed_offset c, gc_acknowledged_offsets c, gc_delivery_attempts c, gc_policy c, gc_delivery_policies c,
                        gc_in_flight c, gc_retry_not_before c))
    (fun '(o, a, d, p, dp, f, r) => {| gc_committed_offset := o; gc_acknowledged_offsets := a; gc_delivery_attempts := d; gc_policy := p;
       gc_delivery_policies := dp; gc_in_flight := f; gc_retry_not_before := r |}) ltac:(by intros []).
#[local] Instance codec_group_consumer : Codec PersistedGroupConsumer :=
  codec_into (fun c => (pg_stream c, pg_consumer c, pg_state c))
    (fun '(s, c, g) => {| pg_stream := s; pg_consumer := c; pg_state := g |}) ltac:(by intros []).
#[local] Instance codec_snapshot_state : Codec PersistedSnapshotState :=
  codec_into (fun s => (pn_version s, pn_streams s, pn_consumers s, pn_group_consumers s, pn_lease_clock_ms s, pn_dedup s,
                        pn_redeliveries s, pn_dead_letters s))
    (fun '(v, st, c, g, l, d, r, dl) => {| pn_version := v; pn_streams := st; pn_consumers := c; pn_group_consumers := g;
       pn_lease_clock_ms := l; pn_dedup := d; pn_redeliveries := r; pn_dead_letters := dl |}) ltac:(by intros []).
#[local] Instance codec_state : Codec (PersistedState unit) :=
  codec_into (fun s : PersistedState unit => (pt_version s, pt_last_applied_log s, pt_last_membership s, pt_streams s, pt_consumers s, pt_group_consumers s,
                        pt_lease_clock_ms s, pt_dedup s, pt_redeliveries s, pt_dead_letters s))
    (fun '(v, i, m, st, c, g, l, d, r, dl) => {| pt_version := v; pt_last_applied_log := i; pt_last_membership := m; pt_streams := st;
       pt_consumers := c; pt_group_consumers := g; pt_lease_clock_ms := l; pt_dedup := d; pt_redeliveries := r; pt_dead_letters := dl |})
    ltac:(by intros []).
#[local] Instance codec_meta : Codec (SnapshotMeta unit) :=
  codec_into (fun m : SnapshotMeta unit => (mt_last_log_id m, mt_last_membership m, mt_snapshot_id m))
    (fun '(i, m, s) => {| mt_last_log_id := i; mt_last_membership := m; mt_snapshot_id := s |}) ltac:(by intros []).
#[local] Instance codec_snapshot : Codec (StoredSnapshot unit) :=
  codec_into (fun s : StoredSnapshot unit => (sn_meta s, sn_data s)) (fun '(m, d) => {| sn_meta := m; sn_data := d |}) ltac:(by intros []).

Definition get_all {A} `{Codec A} (l : list byte) : option A :=
  match get l with Some (a, []) => Some a | _ => None end.

Lemma get_all_put {A} `{Codec A} (a : A) : get_all (put a) = Some a.
Proof. unfold get_all. by rewrite <-(app_nil_r (put a)), get_put. Qed.

(** The text of an object starts with a brace and the name of its first field. *)
Definition object {A} `{Codec A} (a : A) : list byte := [Byte.x7b; Byte.x22; Byte.x76; Byte.x65] ++ put a.
Definition of_object {A} `{Codec A} (l : list byte) : option A := get_all (drop 4 l).

Lemma of_object_object {A} `{Codec A} (a : A) : of_object (object a) = Some a.
Proof. apply get_all_put. Qed.

#[local] Instance toy_journal_json : JournalJson unit := {|
  journal_to_json e := Some (object e);
  journal_from_json := of_object;
  journal_version l := je_version <$> of_object l;
|}.
#[local] Instance toy_store_json : StoreJson unit := {|
  persisted_to_json p := Some (object p);
  persisted_from_json := of_object;
  snapshot_to_json p := Some (object p);
  snapshot_from_json := of_object;
  stored_to_json p := Some (object p);
  stored_from_json := of_object;
|}.

#[local] Instance toy_journal_laws : JournalJsonLaws toy_journal_json.
Proof. split; cbn -[of_object object]; [by eexists| |]; intros e l [= <-]; by rewrite of_object_object. Qed.
#[local] Instance toy_store_laws : StoreJsonLaws toy_store_json.
Proof. split; cbn -[of_object object]; try (by eexists); intros p l [= <-]; apply of_object_object. Qed.

(** ** Checking what Raft asks for *)

Definition log_id_text (i : LogId) : string := pretty (li_term i) +:+ "-" +:+ pretty (li_index i).
Definition broker_error_text (e : BrokerError) : string := "error".
Definition no_members : StoredMembership unit := {| sme_log_id := None; sme_membership := tt |}.

Abbreviation Data := (StateMachineData unit).
Abbreviation State := (Data * bool)%type.
Abbreviation Event := (StoreEvent (Membership := unit)).
Abbreviation Outcome := (StoreOutcome (Membership := unit)).

Fixpoint ascending_test (last : option LogId) (ids : list LogId) : bool :=
  match ids with
  | [] => true
  | id :: ids => negb (is_some_and (fun last => negb (is_log_after id last)) last) && ascending_test (Some id) ids
  end.

Lemma ascending_test_true last ids : ascending_test last ids = true -> ascending last ids.
Proof.
  revert last; induction ids as [|id ids IH]; intros last; [done|]. cbn. intros [H1%negb_true_iff H2]%andb_true_iff. split; [|by apply IH].
  unfold upto. by rewrite H1.
Qed.

Fixpoint appliable_test (data : Data) (es : list (LogEntry unit)) : bool :=
  match es with
  | [] => true
  | e :: es =>
    match le_payload e with Normal command => fits_test (sd_state data) && valid_test command | _ => true end &&
    match apply_entry log_id_text Combined data (le_log_id e) (le_payload e) with Some (_, data') => appliable_test data' es | None => true end
  end.

Lemma appliable_test_true data es : appliable_test data es = true -> appliable log_id_text Combined data es.
Proof.
  revert data; induction es as [|e es IH]; intros data; [done|]. cbn. intros [H1 H2]%andb_true_iff. split.
  - destruct (le_payload e); [done| |done]. apply andb_true_iff in H1 as [Hf Hv]. split; [by apply fits_test_true|by apply valid_test_true].
  - intros r data' Ha. rewrite Ha in H2. by apply IH.
Qed.

(** The states that an event with this outcome may lead to. *)
Definition next_states (x : State) (ev : Event) (out : Outcome) : list State :=
  let '(data, up) := x in
  match ev, up with
  | EvStart, _ =>
    match out with
    | Opened found => if decide (sd_last_applied_log found = sd_last_applied_log data) then [(data, true)] else []
    | _ => [(data, false)]
    end
  | _, false => [(data, false)]
  | EvApply xs, true =>
    match out with
    | Applied _ => match apply_entries log_id_text Combined data xs with Some (_, data') => [(data', true)] | None => [] end
    | _ => omap (fun k => match apply_entries log_id_text Combined data (take k xs) with Some (_, data') => Some (data', false) | None => None end)
             (seq 0 (S (length xs)))
    end
  | EvBuild, true => match out with Built => [(data, true)] | _ => [(data, false)] end
  | EvInstall meta bytes, true =>
    match validate_snapshot_data bytes, out with
    | Ok p, Installed => [(installed meta p, true)]
    | Ok p, _ => [(data, false); (installed meta p, false)]
    | Err _, _ => [(data, false)]
    end
  end.

Lemma next_states_all os x ev out y : state_step log_id_text Combined os x ev out y -> y ∈ next_states x ev out.
Proof.
  destruct 1 as [data xs rs data' Ha|data xs k rs data' _ Ha|data|data _|data meta bytes p Hv|data meta bytes e Hv|data meta bytes p data' _ Hv Hd
    |data ev Hne|data up|data up _]; cbn [next_states].
  - rewrite Ha. by left.
  - apply list_elem_of_omap. exists (min k (length xs)). split; [apply elem_of_seq; lia|].
    assert (Ht : take (min k (length xs)) xs = take k xs).
    { destruct (decide (k <= length xs)%nat); [by rewrite Nat.min_l by lia|]. rewrite Nat.min_r by lia. by rewrite !take_ge by lia. }
    by rewrite Ht, Ha.
  - by left.
  - by left.
  - rewrite Hv. by left.
  - rewrite Hv. by left.
  - rewrite Hv. destruct Hd as [->| ->]; [by left|by right; left].
  - destruct ev; [by left..|done].
  - rewrite decide_True by done. by left.
  - by left.
Qed.

(** Snapshots are those of one state that another member has. *)
Section asking.
Context (good : list byte) (Hgood : forall p, validate_snapshot_data good = Ok p -> snapshot_wf (snapshot_state_from_persisted p)).

Definition ask_test (data : Data) (ev : Event) : bool :=
  match ev with
  | EvApply xs => ascending_test (sd_last_applied_log data) (le_log_id <$> xs) && appliable_test data xs
  | EvInstall meta bytes => is_optional_log_after (mt_last_log_id meta) (sd_last_applied_log data) && bool_decide (bytes = good)
  | EvBuild | EvStart => true
  end.

Fixpoint asks_test (x : State) (evs : list Event) (outs : list Outcome) : bool :=
  match evs, outs with
  | ev :: evs, out :: outs => implb x.2 (ask_test x.1 ev) && forallb (fun y => asks_test y evs outs) (next_states x ev out)
  | _, _ => true
  end.

Lemma asks_test_true os x evs outs : asks_test x evs outs = true -> asks log_id_text Combined os x evs outs.
Proof.
  revert x outs; induction evs as [|ev evs IH]; intros x [|out outs]; [done..|]. cbn. intros [H1 H2]%andb_true_iff. split.
  - intros Hx. rewrite Hx in H1. cbn in H1. destruct ev as [xs| |meta bytes|]; cbn in H1 |- *; [|done| |done]; apply andb_true_iff in H1 as [Ha Hb].
    + split; [by apply ascending_test_true|by apply appliable_test_true].
    + apply bool_decide_eq_true in Hb as ->. done.
  - intros y Hy%next_states_all. apply IH. rewrite forallb_forall in H2. by apply H2, list_elem_of_In.
Qed.
End asking.

(** ** A history *)

Definition at_index (i : N) (command : Command) : LogEntry unit :=
  {| le_log_id := {| li_term := 1; li_node := 1; li_index := i |}; le_payload := Normal command |}.
Definition publish (payload : byte) : Command := Publish "orders" None [payload] 5 None.

Definition first_entries : list (LogEntry unit) := [at_index 1 (CreateStream "orders" None None); at_index 2 (publish Byte.x61)].

(** What the other member has: the stream with a message, at a later index. *)
Definition other_data : Data :=
  match apply_entries log_id_text Combined (data_default no_members) [at_index 1 (CreateStream "orders" None None); at_index 9 (publish Byte.x7a)] with
  | Some (_, data) => data
  | None => data_default no_members
  end.
Definition other_bytes : list byte := object (persisted_snapshot (sd_state other_data)).
Definition other_meta : SnapshotMeta unit :=
  {| mt_last_log_id := sd_last_applied_log other_data; mt_last_membership := no_members; mt_snapshot_id := "snapshot-1" |}.

(** A snapshot is taken after the first entries, written after the third is
    applied, and the journal is compacted later; the fourth entry meets a fault. *)
Definition toy_events : list Event :=
  [EvStart; EvApply first_entries; EvBuild; EvApply [at_index 3 (publish Byte.x62)]; EvBuild;
   EvApply [at_index 4 (publish Byte.x63)]; EvStart; EvApply [at_index 4 (publish Byte.x64)]; EvBuild; EvInstall other_meta other_bytes; EvBuild;
   EvStart].

Definition toy_run (faults : list nat) :=
  store_run (Membership := unit) log_id_text broker_error_text no_members "data" Combined (ToyLog.toy_os faults)
    (brand_new ToyLog.toy_world) toy_events.

Definition outcome_summary (o : Outcome) : string * N :=
  match o with
  | Applied rs => ("applied", vec_len rs)
  | Built => ("built", 0)
  | Installed => ("installed", 0)
  | Opened data => ("opened", from_option li_index 0 (sd_last_applied_log data))
  | Stopped => ("stopped", 0)
  | Panicked => ("panicked", 0)
  end.

Lemma other_wf p : validate_snapshot_data other_bytes = Ok p -> snapshot_wf (snapshot_state_from_persisted p).
Proof.
  assert (Hp : validate_snapshot_data other_bytes = Ok (persisted_snapshot (sd_state other_data))) by (vm_compute; reflexivity).
  rewrite Hp. intros [= <-]. rewrite snapshot_state_roundtrip.
  set (es := [at_index 1 (CreateStream "orders" None None); at_index 9 (publish Byte.x7a)]).
  destruct (apply_entries_total log_id_text Combined (data_default no_members) es) as (rs & data & Ha & Hwf).
  - apply snapshot_default_wf.
  - apply appliable_test_true. vm_compute. reflexivity.
  - unfold other_data. fold es. rewrite Ha. exact Hwf.
Qed.

Lemma toy_asks faults : asks_test other_bytes (data_default no_members, false) toy_events (toy_run faults).1 = true ->
  asks log_id_text Combined (ToyLog.toy_os faults) (data_default no_members, false) toy_events (toy_run faults).1.
Proof. apply (asks_test_true other_bytes other_wf). Qed.

(** The 18th operation fails, and leaves 7 bytes of the fourth entry: the next
    start cuts them off. *)
Lemma state_store_refines_witness :
  outcome_summary <$> (toy_run [17%nat]).1 =
    [("opened", 0); ("applied", 2); ("built", 0); ("applied", 1); ("built", 0); ("stopped", 0); ("opened", 3); ("applied", 1);
     ("built", 0); ("installed", 0); ("built", 0); ("opened", 9)] /\
  exists y, state_steps log_id_text Combined (ToyLog.toy_os [17%nat]) (data_default no_members, false) toy_events (toy_run [17%nat]).1 y /\
    sm_state <$> (fst <$> sx_store (toy_run [17%nat]).2) = if y.2 then Some y.1 else None.
Proof.
  split; [vm_compute; reflexivity|].
  apply (state_store_refines log_id_text broker_error_text no_members "data" Combined (ToyLog.toy_os [17%nat]) ToyLog.toy_world);
    [vm_compute; reflexivity|apply surjective_pairing|].
  apply toy_asks. vm_compute. reflexivity.
Defined.

(** The last start fails; one without faults finds the installed state. *)
Lemma state_store_recovers_witness :
  exists y store w',
    state_steps log_id_text Combined (ToyLog.toy_os [17%nat; 50%nat]) (data_default no_members, false) toy_events (toy_run [17%nat; 50%nat]).1 y /\
    sm_open (ToyLog.toy_os []) log_id_text no_members "data" Combined (sx_world (toy_run [17%nat; 50%nat]).2) = (Ok (Some store), w') /\
    sm_state store = y.1.
Proof.
  apply (state_store_recovers log_id_text broker_error_text no_members "data" Combined (ToyLog.toy_os [17%nat; 50%nat]) ToyLog.toy_world);
    [vm_compute; reflexivity|apply surjective_pairing| |].
  - apply toy_asks. vm_compute. reflexivity.
  - intros (n & fault & Hn). discriminate Hn.
Defined.

Definition toy_builder : StateMachineStore (Membership := unit) :=
  {| sm_state := other_data; sm_snapshot_idx := 0; sm_current_snapshot := None; sm_path := None; sm_kind := Combined |}.
Definition toy_installer : StateMachineStore (Membership := unit) :=
  {| sm_state := data_default no_members; sm_snapshot_idx := 0; sm_current_snapshot := None; sm_path := Some "other"; sm_kind := Combined |}.
Definition toy_built := build_snapshot (ToyLog.toy_os []) broker_error_text toy_builder ToyLog.toy_world.
Definition toy_snapshot : StoredSnapshot unit :=
  match toy_built with (Ok (_, sn), _) => sn | _ => {| sn_meta := other_meta; sn_data := [] |} end.

Lemma snapshot_transfer_witness :
  exists installer' w',
    install_snapshot (ToyLog.toy_os []) broker_error_text toy_installer (sn_meta toy_snapshot) (sn_data toy_snapshot) ToyLog.toy_world = (Ok installer', w') /\
    sm_state installer' = other_data.
Proof.
  destruct toy_built as [[[builder' sn]|e] w] eqn:Hb; [|vm_compute in Hb; discriminate Hb].
  assert (Hsn : toy_snapshot = sn) by (unfold toy_snapshot; by rewrite Hb).
  destruct (install_snapshot (ToyLog.toy_os []) broker_error_text toy_installer (sn_meta toy_snapshot) (sn_data toy_snapshot) ToyLog.toy_world)
    as [[installer'|e] w'] eqn:Hi; [|vm_compute in Hi; discriminate Hi].
  exists installer', w'. split; [reflexivity|]. rewrite Hsn in Hi.
  apply (snapshot_transfer broker_error_text (ToyLog.toy_os []) (ToyLog.toy_os []) toy_builder toy_installer builder' sn
    ToyLog.toy_world w ToyLog.toy_world w' installer'); [|exact Hb|exact Hi].
  change (snapshot_wf (sd_state other_data)). rewrite <-(snapshot_state_roundtrip (sd_state other_data)). apply other_wf. vm_compute. reflexivity.
Defined.

(** ** The conflict *)

Definition first_data : Data :=
  match apply_entries log_id_text Combined (data_default no_members) first_entries with Some (_, data) => data | None => data_default no_members end.
Definition first_journal : list (JournalEntry unit) := journal_entry <$> first_entries.
Definition first_store : StateMachineStore (Membership := unit) :=
  {| sm_state := first_data; sm_snapshot_idx := 0; sm_current_snapshot := None; sm_path := Some "data"; sm_kind := Combined |}.
Definition first_world : World := {| w_disk := {["data" := {[JOURNAL_FILE := frames first_journal]}]}; w_tick := 0 |}.

Lemma first_means : means log_id_text no_members Combined None None first_journal first_data.
Proof.
  destruct (apply_entries_total log_id_text Combined (data_default no_members) first_entries) as (rs & data & Ha & Hwf).
  - apply snapshot_default_wf.
  - apply appliable_test_true. vm_compute. reflexivity.
  - unfold first_data. rewrite Ha. apply (means_apply log_id_text no_members Combined None None [] (data_default no_members) first_entries rs); [|..|exact Ha|exact Hwf|].
    + split; try done. by intros e ?%not_elem_of_nil.
    + apply ascending_test_true. vm_compute. reflexivity.
    + repeat constructor; vm_compute; discriminate.
Qed.

Lemma first_serving : serving log_id_text no_members "data" Combined first_store (w_disk first_world) None None first_journal first_data.
Proof.
  assert (Hj : RaftStateSteps.fl "data" (w_disk first_world) JOURNAL_FILE = Some (frames first_journal)) by (vm_compute; reflexivity).
  split; [reflexivity..|by vm_compute; eexists| |exact Hj|apply first_means].
  split; [vm_compute; reflexivity|vm_compute; reflexivity|]. left. by rewrite app_nil_r.
Qed.

Lemma shared_temporary_loses_store_witness :
  exists schedule w',
    interleave schedule (Ok (compact_actions "data" (ToyLog.toy_os []) (retained_entries (sd_last_applied_log first_data) first_journal)))
      (Ok (checkpoint_actions "data" (ToyLog.toy_os []) (state_bytes other_data))) first_world = (Ok [], Err not_found, w') /\
    forall os' t, exists e w'', sm_open os' log_id_text no_members "data" Combined {| w_disk := w_disk w'; w_tick := t |} = (Err e, w'').
Proof.
  apply (shared_temporary_loses_store log_id_text no_members "data" Combined (ToyLog.toy_os []) first_store None None first_journal first_data
    (sd_last_applied_log first_data) other_data first_world).
  - intros (n & fault & Hn). discriminate Hn.
  - apply first_serving.
  - split; vm_compute; [discriminate|reflexivity].
Defined.
End ToyStore.
