(* ===== verification/Protobuf.v ===== *)
(** The protobuf wire format, as far as the schema in
    crates/runnel-protocol/proto/runnel.proto uses it: integers in groups of
    seven bits, and fields that carry an integer or a string of bytes. The
    library that encodes and decodes messages (prost) is the class
    [ProstMessage], whose laws say that it writes this format. *)

From S2P Require Import Prelude Engine RecordFormat.

Local Open Scope N_scope.

(** [Option::ok_or] *)
Definition ok_or {A E} (e : E) (o : option A) : Result A E := match o with Some a => Ok a | None => Err e end.

(** [to_be_bytes] and [from_be_bytes] *)
Definition to_be_bytes (n : nat) (v : N) : list byte := reverse (to_le_bytes n v).
Definition from_be_bytes (l : list byte) : N := from_le_bytes (reverse l).

(** ** Integers *)

Fixpoint varint_loop (rounds : nat) (v : N) : list byte :=
  match rounds with
  | O => [byte_of_N v]
  | S rounds => if v <? 128 then [byte_of_N v] else byte_of_N (128 + v mod 128) :: varint_loop rounds (v / 128)
  end.

(** Ten bytes hold any [u64]. *)
Definition varint (v : N) : list byte := varint_loop 9 v.

Inductive V2ProtocolError :=
| InvalidFrame
| FrameTooLarge
| MissingMessage
| MissingOperation
| UnsupportedOperation
| InvalidOperation
| InvalidResponse
| InvalidHello.

(** [read_varint], from the bytes at the cursor to those behind the integer. *)
Fixpoint read_varint_loop (rounds : nat) (shift value : N) (rest : list byte) : Result (N * list byte) V2ProtocolError :=
  match rounds with
  | O => Err InvalidFrame
  | S rounds =>
    match rest with
    | [] => Err InvalidFrame
    | b :: rest =>
      let byte := Byte.to_N b in
      if (shift =? 63) && (1 <? byte) then Err InvalidFrame
      else
        let value := N.lor value (N.shiftl (N.land byte 127) shift) in
        if N.land byte 128 =? 0 then Ok (value, rest) else read_varint_loop rounds (shift + 7) value rest
    end
  end.

Definition read_varint (rest : list byte) : Result (N * list byte) V2ProtocolError := read_varint_loop 10 0 0 rest.

(** ** Fields *)

Inductive Raw :=
| RVarint (v : N)
| RBytes (l : list byte).

Definition raw_bytes (f : N * Raw) : list byte :=
  match f.2 with
  | RVarint v => varint (8 * f.1) ++ varint v
  | RBytes l => varint (8 * f.1 + 2) ++ varint (vec_len l) ++ l
  end.

Definition raws_bytes (fs : list (N * Raw)) : list byte := concat (raw_bytes <$> fs).

(** The values of the schema. *)
#[warnings="-register-all"]
Inductive FieldValue :=
| VString (s : string)
| VBytes (l : list byte)
| VUint32 (v : N)
| VUint64 (v : N)
| VBool (b : bool)
| VEnum (v : Z)
| VMessage (fields : list (N * FieldValue)).

Fixpoint raw_of (v : FieldValue) : Raw :=
  match v with
  | VString s => RBytes (as_bytes s)
  | VBytes l => RBytes l
  | VUint32 v | VUint64 v => RVarint v
  | VBool b => RVarint (if b then 1 else 0)
  | VEnum v => RVarint (Z.to_N (v mod 2 ^ 64))
  | VMessage fields => RBytes (raws_bytes (map (fun f => (f.1, raw_of f.2)) fields))
  end.

Definition message_bytes (fields : list (N * FieldValue)) : list byte :=
  raws_bytes (map (fun f => (f.1, raw_of f.2)) fields).

(** What the types of Rust make true: strings are UTF-8, integers have their width. *)
Fixpoint value_ok (v : FieldValue) : bool :=
  match v with
  | VString s => utf8_valid (as_bytes s)
  | VBytes _ | VBool _ => true
  | VUint32 v => v <=? u32_max
  | VUint64 v => v <=? u64_max
  | VEnum v => (- 2 ^ 31 <=? v)%Z && (v <? 2 ^ 31)%Z
  | VMessage fields => forallb (fun f => value_ok f.2) fields
  end.

Definition fields_ok (fields : list (N * FieldValue)) : bool := forallb (fun f => value_ok f.2) fields.

(** Fields that are left out when they have their default. *)
Definition string_field (n : N) (s : string) : list (N * FieldValue) := if bool_decide (s = "") then [] else [(n, VString s)].
Definition bytes_field (n : N) (l : list byte) : list (N * FieldValue) := if bool_decide (l = []) then [] else [(n, VBytes l)].
Definition uint32_field (n v : N) : list (N * FieldValue) := if v =? 0 then [] else [(n, VUint32 v)].
Definition uint64_field (n v : N) : list (N * FieldValue) := if v =? 0 then [] else [(n, VUint64 v)].
Definition bool_field (n : N) (b : bool) : list (N * FieldValue) := if b then [(n, VBool b)] else [].
Definition enum_field (n : N) (v : Z) : list (N * FieldValue) := if (v =? 0)%Z then [] else [(n, VEnum v)].

(** Fields that are written when they are present. *)
Definition optional_field {A} (field : A -> FieldValue) (n : N) (o : option A) : list (N * FieldValue) :=
  match o with Some a => [(n, field a)] | None => [] end.
Definition repeated_field {A} (field : A -> FieldValue) (n : N) (l : list A) : list (N * FieldValue) :=
  (fun a => (n, field a)) <$> l.

(** ** The library *)

Class WireMessage (M : Type) := wire_fields : M -> list (N * FieldValue).

Class ProstMessage (M : Type) := {
  prost_encode : M -> list byte;
  prost_decode : list byte -> option M;
}.

(** Messages are written field by field in the order of their numbers, and what
    was written is read back. *)
Class ProstLaws (M : Type) {W : WireMessage M} {P : ProstMessage M} : Prop := {
  prost_encode_fields m : prost_encode m = message_bytes (wire_fields m);
  prost_decode_encode m :
    fields_ok (wire_fields m) = true -> vec_len (prost_encode m) <= u32_max -> prost_decode (prost_encode m) = Some m;
}.

(** ** Facts *)

Lemma varint_loop_len rounds v acc :
  v < 128 ^ N.of_nat (S rounds) -> varint_len_loop (S rounds) v (acc + 1) = acc + vec_len (varint_loop rounds v).
Proof.
  revert v acc; induction rounds as [|rounds IH]; intros v acc Hv; cbn [varint_loop].
  - change (N.of_nat 1) with 1 in Hv. cbn [varint_len_loop]. destruct (N.leb_spec 128 v); [lia|]. unfold vec_len. cbn. lia.
  - remember (S rounds) as r eqn:Er. cbn [varint_len_loop]. subst r. destruct (N.leb_spec 128 v), (N.ltb_spec v 128); try lia.
    + rewrite N.shiftr_div_pow2. change (2 ^ 7) with 128. rewrite (IH (v / 128) (acc + 1)); [rewrite vec_len_cons; lia|].
      rewrite Nat2N.inj_succ, N.pow_succ_r' in Hv. apply N.Div0.div_lt_upper_bound. lia.
    + unfold vec_len. cbn. lia.
Qed.

Lemma varint_len v : v <= u64_max -> vec_len (varint v) = protobuf_varint_len v.
Proof.
  intros Hv. unfold protobuf_varint_len, varint. change 1 with (0 + 1). rewrite varint_loop_len; [lia|].
  change (N.of_nat 10) with 10. change (128 ^ 10) with 1180591620717411303424. unfold u64_max in Hv. lia.
Qed.

Lemma lor_shifted value x shift : value < 2 ^ shift -> N.lor value (N.shiftl x shift) = value + x * 2 ^ shift.
Proof.
  intros Hv. rewrite N.shiftl_mul_pow2. assert (Hd : N.land value (x * 2 ^ shift) = 0).
  { apply N.bits_inj_0. intros n. rewrite N.land_spec. destruct (N.lt_ge_cases n shift) as [Hn|Hn].
    - rewrite N.mul_pow2_bits_low by done. apply andb_false_r.
    - destruct (decide (value = 0)) as [->|Hz]; [done|]. rewrite (N.bits_above_log2 value n); [done|].
      apply N.log2_lt_pow2; [lia|]. eapply N.lt_le_trans; [exact Hv|]. apply N.pow_le_mono_r; lia. }
  by rewrite <-N.lxor_lor, N.add_nocarry_lxor.
Qed.

Lemma land_127 v : N.land v 127 = v mod 128.
Proof. change 127 with (N.ones 7). by rewrite N.land_ones. Qed.

Lemma land_128_small v : v < 128 -> N.land v 128 = 0.
Proof.
  intros Hv. apply N.bits_inj_0. intros n. rewrite N.land_spec. change 128 with (2 ^ 7). rewrite N.pow2_bits_eqb.
  destruct (N.eqb_spec 7 n) as [<-|]; [|apply andb_false_r]. rewrite andb_true_r. destruct (decide (v = 0)) as [->|]; [done|].
  apply N.bits_above_log2. apply N.log2_lt_pow2; [lia|done].
Qed.

Lemma land_128_large v : v < 128 -> N.land (128 + v) 128 = 128.
Proof.
  intros Hv. assert (Hl : 128 + v = N.lor v (N.shiftl 1 7)) by (rewrite lor_shifted by done; change (2 ^ 7) with 128; lia).
  rewrite Hl, N.land_lor_distr_l. rewrite land_128_small by done. done.
Qed.

Lemma read_varint_loop_written rounds v shift value rest :
  v < 128 ^ N.of_nat (S rounds) -> shift = 7 * (9 - N.of_nat rounds) -> (rounds <= 9)%nat -> value < 2 ^ shift -> v * 2 ^ shift <= u64_max ->
  read_varint_loop (S rounds) shift value (varint_loop rounds v ++ rest) = Ok (value + v * 2 ^ shift, rest).
Proof.
  revert v shift value; induction rounds as [|rounds IH]; intros v shift value Hv Hs Hr Hval Hmax.
  - change (N.of_nat 1) with 1 in Hv. change (128 ^ 1) with 128 in Hv. cbn [varint_loop app read_varint_loop].
    rewrite byte_to_N_of_N, N.mod_small by lia. rewrite land_127, N.mod_small, lor_shifted, land_128_small by (done || lia). change (7 * (9 - N.of_nat 0)) with 63 in Hs. subst shift.
    destruct (N.ltb_spec 1 v) as [H1|H1]; [|done].
    change (2 ^ 63) with 9223372036854775808 in Hmax. unfold u64_max in Hmax. lia.
  - cbn [varint_loop]. remember (S rounds) as r eqn:Er. destruct (N.ltb_spec v 128) as [H1|H1]; cbn [app read_varint_loop].
    + rewrite byte_to_N_of_N, N.mod_small by lia. rewrite land_127, N.mod_small, lor_shifted, land_128_small by (done || lia).
      destruct (N.eqb_spec shift 63) as [H2|H2]; [lia|]. done.
    + pose proof (N.mod_lt v 128 ltac:(lia)) as Hm. rewrite byte_to_N_of_N, (N.mod_small (128 + v mod 128)) by lia.
      rewrite land_128_large by done. rewrite land_127. replace ((128 + v mod 128) mod 128) with (v mod 128).
      2: { rewrite <-N.Div0.add_mod_idemp_l. change (128 mod 128) with 0. rewrite N.add_0_l. symmetry. by apply N.mod_small. }
      rewrite lor_shifted by done. destruct (N.eqb_spec shift 63) as [H2|H2]; [lia|]. cbn [andb]. change (128 =? 0) with false. cbv match.
      assert (Hp : 2 ^ (shift + 7) = 2 ^ shift * 128) by (by rewrite N.pow_add_r). pose proof (N.div_mod v 128 ltac:(lia)) as Hdm.
      subst r. rewrite IH; [|..].
      * do 2 f_equal. rewrite Hp. nia.
      * rewrite Nat2N.inj_succ, N.pow_succ_r' in Hv. apply N.Div0.div_lt_upper_bound. lia.
      * lia.
      * lia.
      * rewrite Hp. nia.
      * rewrite Hp. etransitivity; [|exact Hmax]. replace (v / 128 * (2 ^ shift * 128)) with (128 * (v / 128) * 2 ^ shift) by ring.
        apply N.mul_le_mono_r, N.Div0.mul_div_le.
Qed.

Lemma read_varint_written v rest : v <= u64_max -> read_varint (varint v ++ rest) = Ok (v, rest).
Proof.
  intros Hv. unfold read_varint, varint. rewrite read_varint_loop_written; [|unfold u64_max in Hv|..]; try (cbn; lia).
  change (2 ^ 0) with 1. do 2 f_equal. lia.
Qed.
