(* ===== verification/WireMessages.v ===== *)
(** The messages of crates/runnel-protocol/proto/runnel.proto: a type for each,
    as the build generates them for v2.rs, and the numbers and kinds of their
    fields. A message that occurs in one place only is the arguments of the
    constructor that holds it. *)

From S2P Require Import Prelude Engine RecordFormat Protobuf.

Local Open Scope N_scope.

Module Wire.

(** ** Negotiation *)

Record VersionRange := {
  vr_major : N;
  vr_min_minor : N;
  vr_max_minor : N;
}.

Record ClientHello := {
  ch_versions : list VersionRange;
  ch_offered_capabilities : list string;
  ch_required_capabilities : list string;
  ch_max_outbound_frame_bytes : N;
  ch_max_inbound_frame_bytes : N;
}.

Record HelloAccepted := {
  ha_major : N;
  ha_minor : N;
  ha_capabilities : list string;
  ha_max_inbound_frame_bytes : N;
  ha_max_outbound_frame_bytes : N;
  ha_client_to_server_frame_bytes : N;
  ha_server_to_client_frame_bytes : N;
  ha_auth_required : option bool;
}.

Inductive ServerHelloResult :=
| Accepted (accepted : HelloAccepted)
| Refusal (code : Z) (diagnostic : string).

Inductive HelloMessage :=
| HelloClient (hello : ClientHello)
| HelloServer (result : option ServerHelloResult).

Record HelloFrame := { hf_message : option HelloMessage }.

(** ** Requests *)

Record PublishBatchRecord := {
  pr_key : option string;
  pr_payload : list byte;
  pr_request_id : option string;
}.

Record Receipt := {
  re_offset : N;
  re_delivery_token : string;
}.

Inductive Operation :=
| OpCreateStream (stream : string)
| OpPublish (stream : string) (key : option string) (payload : list byte) (request_id : option string)
| OpPublishBatch (stream : string) (records : list PublishBatchRecord)
| OpPoll (stream consumer : string)
| OpPollBatch (stream consumer : string) (max_records max_bytes max_wait_ms : N)
| OpReplay (stream consumer : string) (offset : N)
| OpPollGroup (stream consumer member : string)
| OpPollGroupBatch (stream consumer member : string) (max_records max_bytes max_wait_ms : N)
| OpConfigureConsumer (stream consumer : string) (ack_timeout_ms : N) (max_delivery_attempts : option N) (retry_delay_ms : N)
| OpInspectConsumer (stream consumer : string)
| OpAck (stream consumer : string) (offset : N)
| OpAckBatch (stream consumer : string) (receipts : list Receipt)
| OpAckGroup (stream consumer member : string) (offset : N) (delivery_token : string)
| OpAckGroupBatch (stream consumer member : string) (receipts : list Receipt)
| OpHealth.

Inductive ClientBody :=
| BearerAuth (token : string)
| ClientApplication (operation : option Operation).

Record ClientFrame := { cf_body : option ClientBody }.

(** ** Responses *)

Record PublishItemResult := {
  pi_outcome : Z;
  pi_stage : Z;
  pi_offset : option N;
  pi_code : option string;
  pi_diagnostic : option string;
}.

Record MessageResult := {
  mr_stream : string;
  mr_consumer : string;
  mr_member : option string;
  mr_offset : N;
  mr_key : option string;
  mr_payload : list byte;
  mr_published_at_ms : N;
  mr_delivery_token : option string;
  mr_delivery_attempt : option N;
}.

Record MessageItemResult := {
  mi_outcome : Z;
  mi_stage : Z;
  mi_message : option MessageResult;
}.

Record ReplayResult := {
  rr_stream : string;
  rr_consumer : string;
  rr_offset : N;
  rr_key : option string;
  rr_payload : list byte;
  rr_published_at_ms : N;
}.

Record AckItemResult := {
  ai_offset : N;
  ai_outcome : Z;
  ai_stage : Z;
  ai_status : Z;
  ai_code : option string;
  ai_diagnostic : option string;
}.

Inductive ResultBody :=
| StreamCreatedResult (stream : string) (created : bool)
| PublishedResult (stream : string) (offset : N)
| PublishBatchResult (stream : string) (items : list PublishItemResult)
| PollBatchResult (stream consumer : string) (items : list MessageItemResult)
| MessageResultBody (message : MessageResult)
| ReplayResultBody (replay : ReplayResult)
| EmptyResult (stream consumer : string)
| AcknowledgedResult (stream consumer : string) (offset : N) (already_acknowledged : bool)
| AckBatchResult (stream consumer : string) (items : list AckItemResult)
| ConsumerPolicyResult (stream consumer : string) (version : N) (configured : bool) (ack_timeout_ms : N)
    (max_delivery_attempts : option N) (retry_delay_ms : N)
| HealthResult (status : string) (streams storage_bytes : N)
| ErrorResult (code diagnostic : string).

Record ApplicationResponse := {
  ar_outcome : option Z;
  ar_stage : option Z;
  ar_result : option ResultBody;
}.

Inductive ServerBody :=
| Authenticated
| AuthenticationFailed
| ServerApplication (response : ApplicationResponse).

Record ServerFrame := { sf_body : option ServerBody }.

(** ** Fields *)

Definition version_range_fields (r : VersionRange) : list (N * FieldValue) :=
  uint32_field 1 (vr_major r) ++ uint32_field 2 (vr_min_minor r) ++ uint32_field 3 (vr_max_minor r).

Definition client_hello_fields (h : ClientHello) : list (N * FieldValue) :=
  repeated_field (fun r => VMessage (version_range_fields r)) 1 (ch_versions h)
  ++ repeated_field VString 2 (ch_offered_capabilities h) ++ repeated_field VString 3 (ch_required_capabilities h)
  ++ uint32_field 4 (ch_max_outbound_frame_bytes h) ++ uint32_field 5 (ch_max_inbound_frame_bytes h).

Definition hello_accepted_fields (a : HelloAccepted) : list (N * FieldValue) :=
  uint32_field 1 (ha_major a) ++ uint32_field 2 (ha_minor a) ++ repeated_field VString 3 (ha_capabilities a)
  ++ uint32_field 4 (ha_max_inbound_frame_bytes a) ++ uint32_field 5 (ha_max_outbound_frame_bytes a)
  ++ uint32_field 6 (ha_client_to_server_frame_bytes a) ++ uint32_field 7 (ha_server_to_client_frame_bytes a)
  ++ optional_field VBool 8 (ha_auth_required a).

Definition server_hello_fields (r : option ServerHelloResult) : list (N * FieldValue) :=
  match r with
  | Some (Accepted accepted) => [(1, VMessage (hello_accepted_fields accepted))]
  | Some (Refusal code diagnostic) => [(2, VMessage (enum_field 1 code ++ string_field 2 diagnostic))]
  | None => []
  end.

#[global] Instance hello_frame_wire : WireMessage HelloFrame := fun f =>
  match hf_message f with
  | Some (HelloClient hello) => [(1, VMessage (client_hello_fields hello))]
  | Some (HelloServer result) => [(2, VMessage (server_hello_fields result))]
  | None => []
  end.

Definition publish_batch_record_fields (r : PublishBatchRecord) : list (N * FieldValue) :=
  optional_field VString 1 (pr_key r) ++ bytes_field 2 (pr_payload r) ++ optional_field VString 3 (pr_request_id r).

Definition receipt_fields (r : Receipt) : list (N * FieldValue) :=
  uint64_field 1 (re_offset r) ++ string_field 2 (re_delivery_token r).

Definition operation_fields (op : Operation) : N * list (N * FieldValue) :=
  match op with
  | OpCreateStream stream => (1, string_field 1 stream)
  | OpPublish stream key payload request_id =>
    (2, string_field 1 stream ++ optional_field VString 2 key ++ bytes_field 3 payload ++ optional_field VString 4 request_id)
  | OpPublishBatch stream records =>
    (3, string_field 1 stream ++ repeated_field (fun r => VMessage (publish_batch_record_fields r)) 2 records)
  | OpPoll stream consumer => (4, string_field 1 stream ++ string_field 2 consumer)
  | OpPollBatch stream consumer max_records max_bytes max_wait_ms =>
    (5, string_field 1 stream ++ string_field 2 consumer ++ uint32_field 3 max_records ++ uint32_field 4 max_bytes
        ++ uint64_field 5 max_wait_ms)
  | OpReplay stream consumer offset => (6, string_field 1 stream ++ string_field 2 consumer ++ uint64_field 3 offset)
  | OpPollGroup stream consumer member => (7, string_field 1 stream ++ string_field 2 consumer ++ string_field 3 member)
  | OpPollGroupBatch stream consumer member max_records max_bytes max_wait_ms =>
    (8, string_field 1 stream ++ string_field 2 consumer ++ string_field 3 member ++ uint32_field 4 max_records
        ++ uint32_field 5 max_bytes ++ uint64_field 6 max_wait_ms)
  | OpConfigureConsumer stream consumer ack_timeout_ms max_delivery_attempts retry_delay_ms =>
    (9, string_field 1 stream ++ string_field 2 consumer ++ uint64_field 3 ack_timeout_ms
        ++ optional_field VUint32 4 max_delivery_attempts ++ uint64_field 5 retry_delay_ms)
  | OpInspectConsumer stream consumer => (10, string_field 1 stream ++ string_field 2 consumer)
  | OpAck stream consumer offset => (11, string_field 1 stream ++ string_field 2 consumer ++ uint64_field 3 offset)
  | OpAckBatch stream consumer receipts =>
    (12, string_field 1 stream ++ string_field 2 consumer ++ repeated_field (fun r => VMessage (receipt_fields r)) 3 receipts)
  | OpAckGroup stream consumer member offset delivery_token =>
    (13, string_field 1 stream ++ string_field 2 consumer ++ string_field 3 member ++ uint64_field 4 offset
         ++ string_field 5 delivery_token)
  | OpAckGroupBatch stream consumer member receipts =>
    (14, string_field 1 stream ++ string_field 2 consumer ++ string_field 3 member
         ++ repeated_field (fun r => VMessage (receipt_fields r)) 4 receipts)
  | OpHealth => (15, [])
  end.

Definition oneof_field (f : N * list (N * FieldValue)) : list (N * FieldValue) := [(f.1, VMessage f.2)].

#[global] Instance client_frame_wire : WireMessage ClientFrame := fun f =>
  match cf_body f with
  | Some (BearerAuth token) => [(1, VMessage (string_field 1 token))]
  | Some (ClientApplication operation) =>
    [(2, VMessage (match operation with Some op => oneof_field (operation_fields op) | None => [] end))]
  | None => []
  end.

Definition publish_item_fields (i : PublishItemResult) : list (N * FieldValue) :=
  enum_field 1 (pi_outcome i) ++ enum_field 2 (pi_stage i) ++ optional_field VUint64 3 (pi_offset i)
  ++ optional_field VString 4 (pi_code i) ++ optional_field VString 5 (pi_diagnostic i).

Definition message_fields (m : MessageResult) : list (N * FieldValue) :=
  string_field 1 (mr_stream m) ++ string_field 2 (mr_consumer m) ++ optional_field VString 3 (mr_member m)
  ++ uint64_field 4 (mr_offset m) ++ optional_field VString 5 (mr_key m) ++ bytes_field 6 (mr_payload m)
  ++ uint64_field 7 (mr_published_at_ms m) ++ optional_field VString 8 (mr_delivery_token m)
  ++ optional_field VUint32 9 (mr_delivery_attempt m).

Definition message_item_fields (i : MessageItemResult) : list (N * FieldValue) :=
  enum_field 1 (mi_outcome i) ++ enum_field 2 (mi_stage i)
  ++ optional_field (fun m => VMessage (message_fields m)) 3 (mi_message i).

Definition replay_fields (r : ReplayResult) : list (N * FieldValue) :=
  string_field 1 (rr_stream r) ++ string_field 2 (rr_consumer r) ++ uint64_field 3 (rr_offset r)
  ++ optional_field VString 4 (rr_key r) ++ bytes_field 5 (rr_payload r) ++ uint64_field 6 (rr_published_at_ms r).

Definition ack_item_fields (i : AckItemResult) : list (N * FieldValue) :=
  uint64_field 1 (ai_offset i) ++ enum_field 2 (ai_outcome i) ++ enum_field 3 (ai_stage i) ++ enum_field 4 (ai_status i)
  ++ optional_field VString 5 (ai_code i) ++ optional_field VString 6 (ai_diagnostic i).

Definition result_fields (r : ResultBody) : N * list (N * FieldValue) :=
  match r with
  | StreamCreatedResult stream created => (3, string_field 1 stream ++ bool_field 2 created)
  | PublishedResult stream offset => (4, string_field 1 stream ++ uint64_field 2 offset)
  | PublishBatchResult stream items =>
    (5, string_field 1 stream ++ repeated_field (fun i => VMessage (publish_item_fields i)) 2 items)
  | PollBatchResult stream consumer items =>
    (6, string_field 1 stream ++ string_field 2 consumer ++ repeated_field (fun i => VMessage (message_item_fields i)) 3 items)
  | MessageResultBody message => (7, message_fields message)
  | ReplayResultBody replay => (8, replay_fields replay)
  | EmptyResult stream consumer => (9, string_field 1 stream ++ string_field 2 consumer)
  | AcknowledgedResult stream consumer offset already_acknowledged =>
    (10, string_field 1 stream ++ string_field 2 consumer ++ uint64_field 3 offset ++ bool_field 4 already_acknowledged)
  | AckBatchResult stream consumer items =>
    (11, string_field 1 stream ++ string_field 2 consumer ++ repeated_field (fun i => VMessage (ack_item_fields i)) 3 items)
  | ConsumerPolicyResult stream consumer version configured ack_timeout_ms max_delivery_attempts retry_delay_ms =>
    (12, string_field 1 stream ++ string_field 2 consumer ++ uint64_field 3 version ++ bool_field 4 configured
         ++ uint64_field 5 ack_timeout_ms ++ optional_field VUint32 6 max_delivery_attempts ++ uint64_field 7 retry_delay_ms)
  | HealthResult status streams storage_bytes =>
    (13, string_field 1 status ++ uint64_field 2 streams ++ uint64_field 3 storage_bytes)
  | ErrorResult code diagnostic => (14, string_field 1 code ++ string_field 2 diagnostic)
  end.

Definition application_response_fields (r : ApplicationResponse) : list (N * FieldValue) :=
  optional_field VEnum 1 (ar_outcome r) ++ optional_field VEnum 2 (ar_stage r)
  ++ match ar_result r with Some result => oneof_field (result_fields result) | None => [] end.

#[global] Instance server_frame_wire : WireMessage ServerFrame := fun f =>
  match sf_body f with
  | Some Authenticated => [(1, VMessage [])]
  | Some AuthenticationFailed => [(2, VMessage [])]
  | Some (ServerApplication response) => [(3, VMessage (application_response_fields response))]
  | None => []
  end.
End Wire.
