(* ===== verification/Protocol.v ===== *)
(** The application protocol of crates/runnel-protocol (lib.rs, v2.rs): requests
    and responses, the negotiation, and their conversion to and from frames. *)

From S2P Require Import Prelude Engine RecordFormat Protobuf WireMessages.

Local Open Scope N_scope.

(** ** Limits *)

Definition PREFACE : list byte := [Byte.x52; Byte.x4e; Byte.x4c; Byte.x4e; Byte.x01; Byte.x00; Byte.x00; Byte.x00].
Definition HELLO_MAX_BODY_BYTES : N := 16 * 1024.
Definition AUTH_MAX_BODY_BYTES : N := 1024.
Definition MIN_FRAME_BODY_BYTES : N := 1024.
Definition MAX_CLIENT_TO_SERVER_FRAME_BYTES : N := 64 * 1024 * 1024.
Definition MAX_SERVER_TO_CLIENT_FRAME_BYTES : N := 65 * 1024 * 1024.
Definition DEFAULT_CLIENT_TO_SERVER_FRAME_BYTES : N := 64 * 1024 * 1024.
Definition DEFAULT_SERVER_TO_CLIENT_FRAME_BYTES : N := 65 * 1024 * 1024.
Definition CURRENT_MAJOR : N := 2.
Definition CURRENT_MINOR : N := 0.

(** ** Requests and responses *)

Inductive PayloadEncoding := Utf8Text | BinaryEncoding.

Record PublishBatchRecord := {
  pbr_key : option string;
  pbr_payload : list byte;
  pbr_request_id : option string;
}.

Record BatchDeliveryReceipt := {
  bdr_offset : N;
  bdr_delivery_token : string;
}.

Inductive Request :=
| RqCreateStream (stream : string)
| RqPublish (stream : string) (key : option string) (payload : string) (request_id : option string)
| RqPublishBytes (stream : string) (key : option string) (payload : list byte) (request_id : option string)
| RqPublishBatch (stream : string) (records : list PublishBatchRecord)
| RqPoll (stream consumer : string)
| RqPollBatch (stream consumer : string) (max_records max_bytes max_wait_ms : N)
| RqReplay (stream consumer : string) (offset : N)
| RqPollGroup (stream consumer member : string)
| RqPollGroupBatch (stream consumer member : string) (max_records max_bytes max_wait_ms : N)
| RqConfigureConsumer (stream consumer : string) (ack_timeout_ms : N) (max_delivery_attempts : option N) (retry_delay_ms : N)
| RqInspectConsumer (stream consumer : string)
| RqAck (stream consumer : string) (offset : N)
| RqAckBatch (stream consumer : string) (receipts : list BatchDeliveryReceipt)
| RqAckGroup (stream consumer member : string) (offset : N) (delivery_token : string)
| RqAckGroupBatch (stream consumer member : string) (receipts : list BatchDeliveryReceipt)
| RqHealth.

Definition request_payload_encoding (r : Request) : option PayloadEncoding :=
  match r with
  | RqPublish _ _ _ _ => Some Utf8Text
  | RqPublishBytes _ _ _ _ | RqPublishBatch _ _ => Some BinaryEncoding
  | _ => None
  end.

Inductive PublishBatchRecordResponse :=
| RecordPublished (offset : N)
| RecordError (code message : string).

(** A message as text, when it is UTF-8, or as bytes. *)
Inductive MessagePayload :=
| Text (payload : string)
| Bytes (payload : list byte).

Record MessageFields := {
  mf_stream : string;
  mf_consumer : string;
  mf_member : option string;
  mf_offset : N;
  mf_key : option string;
  mf_published_at_ms : N;
  mf_delivery_token : option string;
  mf_delivery_attempt : option N;
}.

(** [BatchMessageResponse::Text] and [BatchMessageResponse::Bytes] *)
Record BatchMessageResponse := {
  bm_fields : MessageFields;
  bm_payload : MessagePayload;
}.

Inductive AckBatchItemOutcome := ItemConfirmed | ItemAlreadyConfirmed | ItemRejected.

Record AckBatchItemResponse := {
  abr_offset : N;
  abr_outcome : AckBatchItemOutcome;
  abr_code : option string;
  abr_message : option string;
}.

(** [Message] and [MessageBytes], [ReplayMessage] and [ReplayMessageBytes] have
    the same fields but for their payload. *)
Inductive Response :=
| RsStreamCreated (stream : string) (created : bool)
| RsPublished (stream : string) (offset : N)
| RsPublishBatch (stream : string) (outcomes : list PublishBatchRecordResponse)
| RsPollBatch (stream consumer : string) (messages : list BatchMessageResponse)
| RsMessage (fields : MessageFields) (payload : MessagePayload)
| RsReplayMessage (stream consumer : string) (offset : N) (key : option string) (payload : MessagePayload) (published_at_ms : N)
| RsEmpty (stream consumer : string)
| RsAcknowledged (stream consumer : string) (offset : N) (already_acknowledged : bool)
| RsAckBatch (stream consumer : string) (outcomes : list AckBatchItemResponse)
| RsConsumerPolicy (stream consumer : string) (version : N) (configured : bool) (ack_timeout_ms : N)
    (max_delivery_attempts : option N) (retry_delay_ms : N)
| RsHealth (status : string) (streams storage_bytes : N)
| RsError (code message : string).

(** [Response::kind] *)
Definition response_kind (r : Response) : string :=
  match r with
  | RsStreamCreated _ _ => "stream_created"
  | RsPublished _ _ => "published"
  | RsPublishBatch _ _ => "publish_batch"
  | RsPollBatch _ _ _ => "poll_batch"
  | RsMessage _ (Text _) => "message"
  | RsMessage _ (Bytes _) => "message_bytes"
  | RsReplayMessage _ _ _ _ (Text _) _ => "replay_message"
  | RsReplayMessage _ _ _ _ (Bytes _) _ => "replay_message_bytes"
  | RsEmpty _ _ => "empty"
  | RsAcknowledged _ _ _ _ => "acknowledged"
  | RsAckBatch _ _ _ => "ack_batch"
  | RsConsumerPolicy _ _ _ _ _ _ _ => "consumer_policy"
  | RsHealth _ _ _ => "health"
  | RsError _ _ => "error"
  end.

Definition response_payload_encoding (r : Response) : option PayloadEncoding :=
  match r with
  | RsMessage _ (Text _) | RsReplayMessage _ _ _ _ (Text _) _ => Some Utf8Text
  | RsMessage _ (Bytes _) | RsReplayMessage _ _ _ _ (Bytes _) _ => Some BinaryEncoding
  | _ => None
  end.

(** ** Replies *)

Inductive ReplyOutcome := OutcomeConfirmed | OutcomeRejected | OutcomeRetryable | OutcomeUnknown.
Inductive Stage := StageReceived | StageValidated | StageExecutionStarted | StageDurable | StageCompleted | StageUnknown.

#[export] Instance ReplyOutcome_eq_dec : EqDecision ReplyOutcome.
Proof. solve_decision. Defined.

Record ItemMetadata := {
  im_outcome : ReplyOutcome;
  im_stage : Stage;
}.

Record ApplicationReply := {
  rp_response : Response;
  rp_outcome : option ReplyOutcome;
  rp_stage : option Stage;
  rp_items : list ItemMetadata;
}.

Definition reply_confirmed (response : Response) (state_changing : bool) : ApplicationReply :=
  {| rp_response := response; rp_outcome := Some OutcomeConfirmed;
     rp_stage := Some (if state_changing then StageDurable else StageCompleted); rp_items := [] |}.

Definition reply_failed (response : Response) (outcome : ReplyOutcome) (stage : Stage) : ApplicationReply :=
  {| rp_response := response; rp_outcome := Some outcome; rp_stage := Some stage; rp_items := [] |}.

Definition reply_batch (response : Response) (items : list ItemMetadata) : ApplicationReply :=
  {| rp_response := response; rp_outcome := None; rp_stage := None; rp_items := items |}.

(** ** Negotiation *)

Record VersionRange := {
  major : N;
  min_minor : N;
  max_minor : N;
}.

Record ClientHello := {
  versions : list VersionRange;
  offered_capabilities : list string;
  required_capabilities : list string;
  max_outbound_frame_bytes : N;
  max_inbound_frame_bytes : N;
}.

Definition core_v2 : ClientHello :=
  {| versions := [{| major := CURRENT_MAJOR; min_minor := CURRENT_MINOR; max_minor := CURRENT_MINOR |}];
     offered_capabilities := []; required_capabilities := [];
     max_outbound_frame_bytes := DEFAULT_CLIENT_TO_SERVER_FRAME_BYTES;
     max_inbound_frame_bytes := DEFAULT_SERVER_TO_CLIENT_FRAME_BYTES |}.

Inductive RefusalCode := RcInvalidHello | RcUnsupportedVersion | RcUnsupportedCapability | RcLimitTooSmall | RcLimitTooLarge.

Record HelloAccepted := {
  hel_major : N;
  hel_minor : N;
  hel_capabilities : list string;
  hel_max_inbound_frame_bytes : N;
  hel_max_outbound_frame_bytes : N;
  hel_client_to_server_frame_bytes : N;
  hel_server_to_client_frame_bytes : N;
  hel_auth_required : option bool;
}.

Inductive ServerHello :=
| HelloAcceptance (accepted : HelloAccepted)
| HelloRefused (code : RefusalCode) (diagnostic : string).

(** The loop over the version ranges: [majors] are those seen. *)
Fixpoint check_ranges (majors : gset N) (ranges : list VersionRange) : Result unit RefusalCode :=
  match ranges with
  | [] => Ok tt
  | range :: ranges =>
    if (major range =? 0) || (max_minor range <? min_minor range) || bool_decide (major range ∈ majors) then Err RcInvalidHello
    else check_ranges ({[major range]} ∪ majors) ranges
  end.

Definition is_ascii_lowercase (b : byte) : bool := in_range 0x61 0x7a b.
Definition is_digit (b : byte) : bool := in_range 0x30 0x39 b.

Definition capability_name_ok (value : string) : bool :=
  match as_bytes value with
  | [] => false
  | first :: rest =>
    (vec_len (first :: rest) <=? 64) && is_ascii_lowercase first
    && forallb (fun b => is_ascii_lowercase b || is_digit b || bool_decide (b = Byte.x5f)) rest
  end.

Fixpoint capability_set (set : gset string) (values : list string) : Result (gset string) RefusalCode :=
  match values with
  | [] => Ok set
  | value :: values =>
    if negb (capability_name_ok value) || bool_decide (value ∈ set) then Err RcInvalidHello
    else capability_set ({[value]} ∪ set) values
  end.

Definition validate_capability_set (values : list string) : Result (gset string) RefusalCode := capability_set ∅ values.

Definition validate_limit (value maximum : N) : Result unit RefusalCode :=
  if value <? MIN_FRAME_BODY_BYTES then Err RcLimitTooSmall else if maximum <? value then Err RcLimitTooLarge else Ok tt.

Definition validate_client_hello (hello : ClientHello) : Result unit RefusalCode :=
  if bool_decide (versions hello = []) then Err RcInvalidHello
  else
    let? _ := check_ranges ∅ (versions hello) in
    let? offered := validate_capability_set (offered_capabilities hello) in
    let? required := validate_capability_set (required_capabilities hello) in
    if negb (bool_decide (required ⊆ offered)) then Err RcInvalidHello
    else
      let? _ := validate_limit (max_outbound_frame_bytes hello) MAX_CLIENT_TO_SERVER_FRAME_BYTES in
      validate_limit (max_inbound_frame_bytes hello) MAX_SERVER_TO_CLIENT_FRAME_BYTES.

(** ** Conversion to the wire *)

Definition to_u32 (value : N) : Result N V2ProtocolError := if value <=? u32_max then Ok value else Err InvalidHello.

Definition range_to_wire (r : VersionRange) : Wire.VersionRange :=
  {| Wire.vr_major := major r; Wire.vr_min_minor := min_minor r; Wire.vr_max_minor := max_minor r |}.

Definition range_from_wire (r : Wire.VersionRange) : VersionRange :=
  {| major := Wire.vr_major r; min_minor := Wire.vr_min_minor r; max_minor := Wire.vr_max_minor r |}.

Definition hello_to_wire (hello : ClientHello) : Result Wire.ClientHello V2ProtocolError :=
  let? outbound := to_u32 (max_outbound_frame_bytes hello) in
  let? inbound := to_u32 (max_inbound_frame_bytes hello) in
  Ok {| Wire.ch_versions := range_to_wire <$> versions hello; Wire.ch_offered_capabilities := offered_capabilities hello;
        Wire.ch_required_capabilities := required_capabilities hello; Wire.ch_max_outbound_frame_bytes := outbound;
        Wire.ch_max_inbound_frame_bytes := inbound |}.

Definition hello_from_wire (hello : Wire.ClientHello) : ClientHello :=
  {| versions := range_from_wire <$> Wire.ch_versions hello; offered_capabilities := Wire.ch_offered_capabilities hello;
     required_capabilities := Wire.ch_required_capabilities hello; max_outbound_frame_bytes := Wire.ch_max_outbound_frame_bytes hello;
     max_inbound_frame_bytes := Wire.ch_max_inbound_frame_bytes hello |}.

Definition refusal_to_wire (code : RefusalCode) : Z :=
  match code with
  | RcInvalidHello => 1 | RcUnsupportedVersion => 2 | RcUnsupportedCapability => 3 | RcLimitTooSmall => 4 | RcLimitTooLarge => 5
  end%Z.

Definition refusal_from_wire (value : Z) : Result RefusalCode V2ProtocolError :=
  match value with
  | 1 => Ok RcInvalidHello | 2 => Ok RcUnsupportedVersion | 3 => Ok RcUnsupportedCapability | 4 => Ok RcLimitTooSmall
  | 5 => Ok RcLimitTooLarge | _ => Err InvalidHello
  end%Z.

Definition outcome_to_wire (outcome : ReplyOutcome) : Z :=
  match outcome with OutcomeConfirmed => 1 | OutcomeRejected => 2 | OutcomeRetryable => 3 | OutcomeUnknown => 4 end%Z.

Definition outcome_from_wire (outcome : Z) : Result ReplyOutcome V2ProtocolError :=
  match outcome with
  | 1 => Ok OutcomeConfirmed | 2 => Ok OutcomeRejected | 3 => Ok OutcomeRetryable | 4 => Ok OutcomeUnknown
  | _ => Err InvalidResponse
  end%Z.

Definition stage_to_wire (stage : Stage) : Z :=
  match stage with
  | StageReceived => 1 | StageValidated => 2 | StageExecutionStarted => 3 | StageDurable => 4 | StageCompleted => 5 | StageUnknown => 6
  end%Z.

Definition stage_from_wire (stage : Z) : Result Stage V2ProtocolError :=
  match stage with
  | 1 => Ok StageReceived | 2 => Ok StageValidated | 3 => Ok StageExecutionStarted | 4 => Ok StageDurable
  | 5 => Ok StageCompleted | 6 => Ok StageUnknown | _ => Err InvalidResponse
  end%Z.

(** ** Requests *)

Definition record_to_wire (r : PublishBatchRecord) : Wire.PublishBatchRecord :=
  {| Wire.pr_key := pbr_key r; Wire.pr_payload := pbr_payload r; Wire.pr_request_id := pbr_request_id r |}.
Definition record_from_wire (r : Wire.PublishBatchRecord) : PublishBatchRecord :=
  {| pbr_key := Wire.pr_key r; pbr_payload := Wire.pr_payload r; pbr_request_id := Wire.pr_request_id r |}.

Definition receipt_to_wire (r : BatchDeliveryReceipt) : Wire.Receipt :=
  {| Wire.re_offset := bdr_offset r; Wire.re_delivery_token := bdr_delivery_token r |}.
Definition receipt_from_wire (r : Wire.Receipt) : BatchDeliveryReceipt :=
  {| bdr_offset := Wire.re_offset r; bdr_delivery_token := Wire.re_delivery_token r |}.

Definition request_to_wire (request : Request) : Result Wire.Operation V2ProtocolError :=
  match request with
  | RqCreateStream stream => Ok (Wire.OpCreateStream stream)
  | RqPublish stream key payload request_id => Ok (Wire.OpPublish stream key (as_bytes payload) request_id)
  | RqPublishBytes stream key payload request_id => Ok (Wire.OpPublish stream key payload request_id)
  | RqPublishBatch stream records => Ok (Wire.OpPublishBatch stream (record_to_wire <$> records))
  | RqPoll stream consumer => Ok (Wire.OpPoll stream consumer)
  | RqPollBatch stream consumer max_records max_bytes max_wait_ms =>
    let? max_records := to_u32 max_records in
    let? max_bytes := to_u32 max_bytes in
    Ok (Wire.OpPollBatch stream consumer max_records max_bytes max_wait_ms)
  | RqReplay stream consumer offset => Ok (Wire.OpReplay stream consumer offset)
  | RqPollGroup stream consumer member => Ok (Wire.OpPollGroup stream consumer member)
  | RqPollGroupBatch stream consumer member max_records max_bytes max_wait_ms =>
    let? max_records := to_u32 max_records in
    let? max_bytes := to_u32 max_bytes in
    Ok (Wire.OpPollGroupBatch stream consumer member max_records max_bytes max_wait_ms)
  | RqConfigureConsumer stream consumer ack_timeout_ms max_delivery_attempts retry_delay_ms =>
    Ok (Wire.OpConfigureConsumer stream consumer ack_timeout_ms max_delivery_attempts retry_delay_ms)
  | RqInspectConsumer stream consumer => Ok (Wire.OpInspectConsumer stream consumer)
  | RqAck stream consumer offset => Ok (Wire.OpAck stream consumer offset)
  | RqAckBatch stream consumer receipts => Ok (Wire.OpAckBatch stream consumer (receipt_to_wire <$> receipts))
  | RqAckGroup stream consumer member offset delivery_token => Ok (Wire.OpAckGroup stream consumer member offset delivery_token)
  | RqAckGroupBatch stream consumer member receipts =>
    Ok (Wire.OpAckGroupBatch stream consumer member (receipt_to_wire <$> receipts))
  | RqHealth => Ok Wire.OpHealth
  end.

Definition request_from_wire (operation : Wire.Operation) : Request :=
  match operation with
  | Wire.OpCreateStream stream => RqCreateStream stream
  | Wire.OpPublish stream key payload request_id => RqPublishBytes stream key payload request_id
  | Wire.OpPublishBatch stream records => RqPublishBatch stream (record_from_wire <$> records)
  | Wire.OpPoll stream consumer => RqPoll stream consumer
  | Wire.OpPollBatch stream consumer max_records max_bytes max_wait_ms => RqPollBatch stream consumer max_records max_bytes max_wait_ms
  | Wire.OpReplay stream consumer offset => RqReplay stream consumer offset
  | Wire.OpPollGroup stream consumer member => RqPollGroup stream consumer member
  | Wire.OpPollGroupBatch stream consumer member max_records max_bytes max_wait_ms =>
    RqPollGroupBatch stream consumer member max_records max_bytes max_wait_ms
  | Wire.OpConfigureConsumer stream consumer ack_timeout_ms max_delivery_attempts retry_delay_ms =>
    RqConfigureConsumer stream consumer ack_timeout_ms max_delivery_attempts retry_delay_ms
  | Wire.OpInspectConsumer stream consumer => RqInspectConsumer stream consumer
  | Wire.OpAck stream consumer offset => RqAck stream consumer offset
  | Wire.OpAckBatch stream consumer receipts => RqAckBatch stream consumer (receipt_from_wire <$> receipts)
  | Wire.OpAckGroup stream consumer member offset delivery_token => RqAckGroup stream consumer member offset delivery_token
  | Wire.OpAckGroupBatch stream consumer member receipts => RqAckGroupBatch stream consumer member (receipt_from_wire <$> receipts)
  | Wire.OpHealth => RqHealth
  end.

(** ** Replies *)

Definition payload_bytes (p : MessagePayload) : list byte := match p with Text s => as_bytes s | Bytes l => l end.

(** [String::from_utf8] *)
Definition payload_from_bytes (l : list byte) : MessagePayload := if utf8_valid l then Text (of_bytes l) else Bytes l.

(** The message of a response on the wire; also [batch_message_to_wire]. *)
Definition message_to_wire (f : MessageFields) (p : MessagePayload) : Wire.MessageResult :=
  {| Wire.mr_stream := mf_stream f; Wire.mr_consumer := mf_consumer f; Wire.mr_member := mf_member f; Wire.mr_offset := mf_offset f;
     Wire.mr_key := mf_key f; Wire.mr_payload := payload_bytes p; Wire.mr_published_at_ms := mf_published_at_ms f;
     Wire.mr_delivery_token := mf_delivery_token f; Wire.mr_delivery_attempt := mf_delivery_attempt f |}.

Definition message_from_wire (m : Wire.MessageResult) : MessageFields * MessagePayload :=
  ({| mf_stream := Wire.mr_stream m; mf_consumer := Wire.mr_consumer m; mf_member := Wire.mr_member m; mf_offset := Wire.mr_offset m;
      mf_key := Wire.mr_key m; mf_published_at_ms := Wire.mr_published_at_ms m; mf_delivery_token := Wire.mr_delivery_token m;
      mf_delivery_attempt := Wire.mr_delivery_attempt m |}, payload_from_bytes (Wire.mr_payload m)).

Definition batch_message_from_wire (m : Wire.MessageResult) : BatchMessageResponse :=
  {| bm_fields := (message_from_wire m).1; bm_payload := (message_from_wire m).2 |}.

Definition publish_item_to_wire (item : PublishBatchRecordResponse) (metadata : ItemMetadata) :
  Result Wire.PublishItemResult V2ProtocolError :=
  let outcome := outcome_to_wire (im_outcome metadata) in
  let stage := stage_to_wire (im_stage metadata) in
  match item with
  | RecordPublished offset =>
    if bool_decide (im_outcome metadata <> OutcomeConfirmed) then Err InvalidResponse
    else Ok {| Wire.pi_outcome := outcome; Wire.pi_stage := stage; Wire.pi_offset := Some offset; Wire.pi_code := None;
               Wire.pi_diagnostic := None |}
  | RecordError code message =>
    if bool_decide (im_outcome metadata = OutcomeConfirmed) then Err InvalidResponse
    else Ok {| Wire.pi_outcome := outcome; Wire.pi_stage := stage; Wire.pi_offset := None; Wire.pi_code := Some code;
               Wire.pi_diagnostic := Some message |}
  end.

Definition message_item_to_wire (message : BatchMessageResponse) (metadata : ItemMetadata) :
  Result Wire.MessageItemResult V2ProtocolError :=
  if bool_decide (im_outcome metadata <> OutcomeConfirmed) then Err InvalidResponse
  else Ok {| Wire.mi_outcome := outcome_to_wire (im_outcome metadata); Wire.mi_stage := stage_to_wire (im_stage metadata);
             Wire.mi_message := Some (message_to_wire (bm_fields message) (bm_payload message)) |}.

Definition ack_item_to_wire (item : AckBatchItemResponse) (metadata : ItemMetadata) : Result Wire.AckItemResult V2ProtocolError :=
  let '(status, code, diagnostic) :=
    match abr_outcome item with
    | ItemConfirmed => (1%Z, None, None)
    | ItemAlreadyConfirmed => (2%Z, None, None)
    | ItemRejected => (3%Z, abr_code item, abr_message item)
    end in
  Ok {| Wire.ai_offset := abr_offset item; Wire.ai_outcome := outcome_to_wire (im_outcome metadata);
        Wire.ai_stage := stage_to_wire (im_stage metadata); Wire.ai_status := status; Wire.ai_code := code; Wire.ai_diagnostic := diagnostic |}.

(** [items.iter().zip(metadata).map(f).collect()] *)
Fixpoint zip_items {A B C E} (f : A -> B -> Result C E) (l : list A) (k : list B) : Result (list C) E :=
  match l, k with
  | a :: l, b :: k => let? c := f a b in let? rest := zip_items f l k in Ok (c :: rest)
  | _, _ => Ok []
  end.

(** The checks on the metadata of a batch. *)
Definition batch_items {A B} (reply : ApplicationReply) (f : A -> ItemMetadata -> Result B V2ProtocolError) (l : list A) :
  Result (list B) V2ProtocolError :=
  if bool_decide (is_Some (rp_outcome reply)) || bool_decide (is_Some (rp_stage reply))
     || negb (Nat.eqb (length (rp_items reply)) (length l)) then Err InvalidResponse
  else zip_items f l (rp_items reply).

Definition response_to_wire (reply : ApplicationReply) : Result (Wire.ResultBody * bool) V2ProtocolError :=
  match rp_response reply with
  | RsStreamCreated stream created => Ok (Wire.StreamCreatedResult stream created, false)
  | RsPublished stream offset => Ok (Wire.PublishedResult stream offset, false)
  | RsPublishBatch stream outcomes =>
    let? items := batch_items reply publish_item_to_wire outcomes in Ok (Wire.PublishBatchResult stream items, true)
  | RsPollBatch stream consumer messages =>
    let? items := batch_items reply message_item_to_wire messages in Ok (Wire.PollBatchResult stream consumer items, true)
  | RsMessage fields payload => Ok (Wire.MessageResultBody (message_to_wire fields payload), false)
  | RsReplayMessage stream consumer offset key payload published_at_ms =>
    Ok (Wire.ReplayResultBody {| Wire.rr_stream := stream; Wire.rr_consumer := consumer; Wire.rr_offset := offset; Wire.rr_key := key;
          Wire.rr_payload := payload_bytes payload; Wire.rr_published_at_ms := published_at_ms |}, false)
  | RsEmpty stream consumer => Ok (Wire.EmptyResult stream consumer, false)
  | RsAcknowledged stream consumer offset already => Ok (Wire.AcknowledgedResult stream consumer offset already, false)
  | RsAckBatch stream consumer outcomes =>
    let? items := batch_items reply ack_item_to_wire outcomes in Ok (Wire.AckBatchResult stream consumer items, true)
  | RsConsumerPolicy stream consumer version configured ack_timeout_ms attempts retry_delay_ms =>
    Ok (Wire.ConsumerPolicyResult stream consumer version configured ack_timeout_ms attempts retry_delay_ms, false)
  | RsHealth status streams storage_bytes => Ok (Wire.HealthResult status streams storage_bytes, false)
  | RsError code message => Ok (Wire.ErrorResult code message, false)
  end.

Definition reply_to_wire (reply : ApplicationReply) : Result Wire.ApplicationResponse V2ProtocolError :=
  let? (result, batched) := response_to_wire reply in
  if batched then Ok {| Wire.ar_outcome := None; Wire.ar_stage := None; Wire.ar_result := Some result |}
  else if negb (bool_decide (rp_items reply = [])) then Err InvalidResponse
  else
    match rp_outcome reply, rp_stage reply with
    | Some outcome, Some stage =>
      Ok {| Wire.ar_outcome := Some (outcome_to_wire outcome); Wire.ar_stage := Some (stage_to_wire stage); Wire.ar_result := Some result |}
    | _, _ => Err InvalidResponse
    end.

Definition publish_item_from_wire (item : Wire.PublishItemResult) : Result (PublishBatchRecordResponse * ItemMetadata) V2ProtocolError :=
  let? outcome := outcome_from_wire (Wire.pi_outcome item) in
  let? stage := stage_from_wire (Wire.pi_stage item) in
  let metadata := {| im_outcome := outcome; im_stage := stage |} in
  match Wire.pi_offset item with
  | Some offset =>
    if bool_decide (outcome <> OutcomeConfirmed) || bool_decide (is_Some (Wire.pi_code item))
       || bool_decide (is_Some (Wire.pi_diagnostic item)) then Err InvalidResponse
    else Ok (RecordPublished offset, metadata)
  | None =>
    let? code := ok_or InvalidResponse (Wire.pi_code item) in
    let? message := ok_or InvalidResponse (Wire.pi_diagnostic item) in
    if bool_decide (outcome = OutcomeConfirmed) then Err InvalidResponse else Ok (RecordError code message, metadata)
  end.

Definition message_item_from_wire (item : Wire.MessageItemResult) : Result (BatchMessageResponse * ItemMetadata) V2ProtocolError :=
  let? outcome := outcome_from_wire (Wire.mi_outcome item) in
  let? stage := stage_from_wire (Wire.mi_stage item) in
  if bool_decide (outcome <> OutcomeConfirmed) then Err InvalidResponse
  else
    let? message := ok_or InvalidResponse (Wire.mi_message item) in
    Ok (batch_message_from_wire message, {| im_outcome := outcome; im_stage := stage |}).

Definition ack_status_from_wire (status : Z) (outcome : ReplyOutcome) : Result AckBatchItemOutcome V2ProtocolError :=
  match status with
  | 1%Z => if bool_decide (outcome = OutcomeConfirmed) then Ok ItemConfirmed else Err InvalidResponse
  | 2%Z => if bool_decide (outcome = OutcomeConfirmed) then Ok ItemAlreadyConfirmed else Err InvalidResponse
  | 3%Z => if bool_decide (outcome <> OutcomeConfirmed) then Ok ItemRejected else Err InvalidResponse
  | _ => Err InvalidResponse
  end.

Definition ack_item_from_wire (item : Wire.AckItemResult) : Result (AckBatchItemResponse * ItemMetadata) V2ProtocolError :=
  let? outcome := outcome_from_wire (Wire.ai_outcome item) in
  let? stage := stage_from_wire (Wire.ai_stage item) in
  let? status := ack_status_from_wire (Wire.ai_status item) outcome in
  let has_failure := match status with ItemRejected => true | _ => false end in
  if negb (Bool.eqb has_failure (bool_decide (is_Some (Wire.ai_code item)) && bool_decide (is_Some (Wire.ai_diagnostic item))))
  then Err InvalidResponse
  else
    Ok ({| abr_offset := Wire.ai_offset item; abr_outcome := status; abr_code := Wire.ai_code item; abr_message := Wire.ai_diagnostic item |},
        {| im_outcome := outcome; im_stage := stage |}).

(** The loops over the items of a batch. *)
Fixpoint items_from_wire {A B} (f : A -> Result (B * ItemMetadata) V2ProtocolError) (l : list A) :
  Result (list B * list ItemMetadata) V2ProtocolError :=
  match l with
  | [] => Ok ([], [])
  | a :: l =>
    let? (b, metadata) := f a in
    let? (rest, items) := items_from_wire f l in
    Ok (b :: rest, metadata :: items)
  end.

Definition replay_from_wire (r : Wire.ReplayResult) : Response :=
  RsReplayMessage (Wire.rr_stream r) (Wire.rr_consumer r) (Wire.rr_offset r) (Wire.rr_key r) (payload_from_bytes (Wire.rr_payload r))
    (Wire.rr_published_at_ms r).

Definition is_batch (result : Wire.ResultBody) : bool :=
  match result with Wire.PublishBatchResult _ _ | Wire.PollBatchResult _ _ _ | Wire.AckBatchResult _ _ _ => true | _ => false end.

(** The response of a result, with the metadata of its items. A [usize] is a
    [u64]: the conversion of the number of streams does not fail. *)
Definition response_from_wire (result : Wire.ResultBody) : Result (Response * list ItemMetadata) V2ProtocolError :=
  match result with
  | Wire.StreamCreatedResult stream created => Ok (RsStreamCreated stream created, [])
  | Wire.PublishedResult stream offset => Ok (RsPublished stream offset, [])
  | Wire.PublishBatchResult stream items =>
    let? (outcomes, items) := items_from_wire publish_item_from_wire items in Ok (RsPublishBatch stream outcomes, items)
  | Wire.PollBatchResult stream consumer items =>
    let? (messages, items) := items_from_wire message_item_from_wire items in Ok (RsPollBatch stream consumer messages, items)
  | Wire.MessageResultBody message => Ok (RsMessage (message_from_wire message).1 (message_from_wire message).2, [])
  | Wire.ReplayResultBody replay => Ok (replay_from_wire replay, [])
  | Wire.EmptyResult stream consumer => Ok (RsEmpty stream consumer, [])
  | Wire.AcknowledgedResult stream consumer offset already => Ok (RsAcknowledged stream consumer offset already, [])
  | Wire.AckBatchResult stream consumer items =>
    let? (outcomes, items) := items_from_wire ack_item_from_wire items in Ok (RsAckBatch stream consumer outcomes, items)
  | Wire.ConsumerPolicyResult stream consumer version configured ack_timeout_ms attempts retry_delay_ms =>
    Ok (RsConsumerPolicy stream consumer version configured ack_timeout_ms attempts retry_delay_ms, [])
  | Wire.HealthResult status streams storage_bytes => Ok (RsHealth status streams storage_bytes, [])
  | Wire.ErrorResult code diagnostic => Ok (RsError code diagnostic, [])
  end.

Definition reply_from_wire (reply : Wire.ApplicationResponse) : Result ApplicationReply V2ProtocolError :=
  let? result := ok_or InvalidResponse (Wire.ar_result reply) in
  if is_batch result && (bool_decide (is_Some (Wire.ar_outcome reply)) || bool_decide (is_Some (Wire.ar_stage reply)))
  then Err InvalidResponse
  else
    let? (response, items) := response_from_wire result in
    if is_batch result then Ok (reply_batch response items)
    else
      let? outcome := ok_or InvalidResponse (Wire.ar_outcome reply) in
      let? outcome := outcome_from_wire outcome in
      let? stage := ok_or InvalidResponse (Wire.ar_stage reply) in
      let? stage := stage_from_wire stage in
      Ok {| rp_response := response; rp_outcome := Some outcome; rp_stage := Some stage; rp_items := items |}.

(** ** Frames *)

(** The secret of a [BearerToken] is the string it holds. *)
Inductive ClientFrame :=
| ClientBearerAuth (token : string)
| ClientRequest (request : Request).

Inductive ClientFrameKind := KindBearerAuth | KindApplication | KindMissing.

#[export] Instance ClientFrameKind_eq_dec : EqDecision ClientFrameKind.
Proof. solve_decision. Defined.

Inductive ServerFrame :=
| ServerAuthenticated
| ServerAuthenticationFailed
| ServerReply (reply : ApplicationReply).

Record EncodedFrame := {
  ef_bytes : list byte;
  ef_contains_secret : bool;
}.

(** The loop of [client_frame_kind]: [rest] are the bytes from the cursor on.
    Every round reads a byte, so that the length of the body is enough fuel. *)
Fixpoint client_frame_kind_loop (fuel : nat) (kind : ClientFrameKind) (rest : list byte) : Result ClientFrameKind V2ProtocolError :=
  match rest with
  | [] => Ok kind
  | _ :: _ =>
    match fuel with
    | O => Err InvalidFrame
    | S fuel =>
      let? (key, rest) := read_varint rest in
      let field_number := N.shiftr key 3 in
      let wire_type := N.land key 7 in
      if (field_number =? 0) || (0x1fffffff <? field_number) then Err InvalidFrame
      else if wire_type =? 2 then
        let? (length, rest) := read_varint rest in
        if vec_len rest <? length then Err InvalidFrame
        else
          let kind := if field_number =? 1 then KindBearerAuth else if field_number =? 2 then KindApplication else kind in
          client_frame_kind_loop fuel kind (drop (N.to_nat length) rest)
      else if wire_type =? 0 then
        let? (_, rest) := read_varint rest in client_frame_kind_loop fuel kind rest
      else if wire_type =? 1 then
        if vec_len rest <? 8 then Err InvalidFrame else client_frame_kind_loop fuel kind (drop 8 rest)
      else if wire_type =? 5 then
        if vec_len rest <? 4 then Err InvalidFrame else client_frame_kind_loop fuel kind (drop 4 rest)
      else Err InvalidFrame
    end
  end.

Definition client_frame_kind (body : list byte) : Result ClientFrameKind V2ProtocolError :=
  if bool_decide (body = []) then Err FrameTooLarge else client_frame_kind_loop (length body) KindMissing body.

Section messages.
Context {M : Type} {P : ProstMessage M}.

(** Writing to a [Vec] does not run out of room: [encode] does not fail. *)
Definition encode_message (message : M) (max_bytes : N) (contains_secret : bool) : Result EncodedFrame V2ProtocolError :=
  let body := prost_encode message in
  let body_len := vec_len body in
  if (body_len =? 0) || (max_bytes <? body_len) || (u32_max <? body_len) then Err FrameTooLarge
  else Ok {| ef_bytes := to_be_bytes 4 body_len ++ body; ef_contains_secret := contains_secret |}.

Definition decode_message (body : list byte) (max_bytes : N) : Result M V2ProtocolError :=
  if bool_decide (body = []) || (max_bytes <? vec_len body) || (u32_max <? vec_len body) then Err FrameTooLarge
  else ok_or InvalidFrame (prost_decode body).
End messages.

Section frames.
Context {PH : ProstMessage Wire.HelloFrame} {PC : ProstMessage Wire.ClientFrame} {PS : ProstMessage Wire.ServerFrame}.

Definition encode_client_hello (hello : ClientHello) : Result EncodedFrame V2ProtocolError :=
  let? client := hello_to_wire hello in
  encode_message {| Wire.hf_message := Some (Wire.HelloClient client) |} HELLO_MAX_BODY_BYTES false.

Definition decode_client_hello (body : list byte) : Result ClientHello V2ProtocolError :=
  let? frame := decode_message (M := Wire.HelloFrame) body HELLO_MAX_BODY_BYTES in
  match Wire.hf_message frame with
  | Some (Wire.HelloClient hello) => Ok (hello_from_wire hello)
  | _ => Err MissingMessage
  end.

Definition server_hello_to_wire (hello : ServerHello) : Result Wire.ServerHelloResult V2ProtocolError :=
  match hello with
  | HelloAcceptance accepted =>
    let? max_inbound := to_u32 (hel_max_inbound_frame_bytes accepted) in
    let? max_outbound := to_u32 (hel_max_outbound_frame_bytes accepted) in
    let? client_to_server := to_u32 (hel_client_to_server_frame_bytes accepted) in
    let? server_to_client := to_u32 (hel_server_to_client_frame_bytes accepted) in
    Ok (Wire.Accepted {| Wire.ha_major := hel_major accepted; Wire.ha_minor := hel_minor accepted;
          Wire.ha_capabilities := hel_capabilities accepted; Wire.ha_max_inbound_frame_bytes := max_inbound;
          Wire.ha_max_outbound_frame_bytes := max_outbound; Wire.ha_client_to_server_frame_bytes := client_to_server;
          Wire.ha_server_to_client_frame_bytes := server_to_client; Wire.ha_auth_required := hel_auth_required accepted |})
  | HelloRefused code diagnostic => Ok (Wire.Refusal (refusal_to_wire code) diagnostic)
  end.

Definition encode_server_hello (hello : ServerHello) : Result EncodedFrame V2ProtocolError :=
  let? result := server_hello_to_wire hello in
  encode_message {| Wire.hf_message := Some (Wire.HelloServer (Some result)) |} HELLO_MAX_BODY_BYTES false.

Definition decode_server_hello (body : list byte) : Result ServerHello V2ProtocolError :=
  let? frame := decode_message (M := Wire.HelloFrame) body HELLO_MAX_BODY_BYTES in
  match Wire.hf_message frame with
  | Some (Wire.HelloServer server) =>
    let? result := ok_or MissingMessage server in
    match result with
    | Wire.Accepted accepted =>
      Ok (HelloAcceptance {| hel_major := Wire.ha_major accepted; hel_minor := Wire.ha_minor accepted;
            hel_capabilities := Wire.ha_capabilities accepted;
            hel_max_inbound_frame_bytes := Wire.ha_max_inbound_frame_bytes accepted;
            hel_max_outbound_frame_bytes := Wire.ha_max_outbound_frame_bytes accepted;
            hel_client_to_server_frame_bytes := Wire.ha_client_to_server_frame_bytes accepted;
            hel_server_to_client_frame_bytes := Wire.ha_server_to_client_frame_bytes accepted;
            hel_auth_required := Wire.ha_auth_required accepted |})
    | Wire.Refusal code diagnostic =>
      let? code := refusal_from_wire code in Ok (HelloRefused code diagnostic)
    end
  | _ => Err MissingMessage
  end.

Definition encode_bearer_auth (token : string) : Result EncodedFrame V2ProtocolError :=
  encode_message {| Wire.cf_body := Some (Wire.BearerAuth token) |} AUTH_MAX_BODY_BYTES true.

Definition encode_application_request (request : Request) : Result EncodedFrame V2ProtocolError :=
  let? operation := request_to_wire request in
  encode_message {| Wire.cf_body := Some (Wire.ClientApplication (Some operation)) |} MAX_CLIENT_TO_SERVER_FRAME_BYTES false.

Definition encode_client_frame (frame : ClientFrame) : Result EncodedFrame V2ProtocolError :=
  match frame with
  | ClientBearerAuth token => encode_bearer_auth token
  | ClientRequest request =>
    let? operation := request_to_wire request in
    encode_message {| Wire.cf_body := Some (Wire.ClientApplication (Some operation)) |} MAX_CLIENT_TO_SERVER_FRAME_BYTES false
  end.

Definition decode_client_frame (body : list byte) (max_bytes : N) : Result ClientFrame V2ProtocolError :=
  let? kind := client_frame_kind body in
  if bool_decide (kind = KindBearerAuth) && (AUTH_MAX_BODY_BYTES <? vec_len body) then Err FrameTooLarge
  else
    let? frame := decode_message (M := Wire.ClientFrame) body max_bytes in
    let? body := ok_or MissingMessage (Wire.cf_body frame) in
    match body with
    | Wire.BearerAuth token => Ok (ClientBearerAuth token)
    | Wire.ClientApplication operation =>
      let? operation := ok_or MissingOperation operation in Ok (ClientRequest (request_from_wire operation))
    end.

Definition encode_server_frame (frame : ServerFrame) : Result EncodedFrame V2ProtocolError :=
  let? body :=
    match frame with
    | ServerAuthenticated => Ok Wire.Authenticated
    | ServerAuthenticationFailed => Ok Wire.AuthenticationFailed
    | ServerReply reply => let? response := reply_to_wire reply in Ok (Wire.ServerApplication response)
    end in
  encode_message {| Wire.sf_body := Some body |} MAX_SERVER_TO_CLIENT_FRAME_BYTES false.

Definition decode_server_frame (body : list byte) (max_bytes : N) : Result ServerFrame V2ProtocolError :=
  let? frame := decode_message (M := Wire.ServerFrame) body max_bytes in
  let? body := ok_or MissingMessage (Wire.sf_body frame) in
  match body with
  | Wire.Authenticated => Ok ServerAuthenticated
  | Wire.AuthenticationFailed => Ok ServerAuthenticationFailed
  | Wire.ServerApplication response => let? reply := reply_from_wire response in Ok (ServerReply reply)
  end.
End frames.
