(* ===== verification/ProtocolRoundtrip.v ===== *)
(** Round trips of the protocol of crates/runnel-protocol/src/v2.rs: the frames
    one side writes are the frames the other side reads, and the kind of a
    client frame is found without decoding it. *)

From S2P Require Import Prelude Engine RecordFormat Protobuf WireMessages Protocol.

Local Open Scope N_scope.

(** ** Values of the Rust types *)

Definition string_typed (s : string) : bool := utf8_valid (as_bytes s).
Definition u32_typed (v : N) : bool := v <=? u32_max.
Definition u64_typed (v : N) : bool := v <=? u64_max.
Definition option_typed {A} (typed : A -> bool) (o : option A) : bool := match o with Some a => typed a | None => true end.

Definition record_typed (r : PublishBatchRecord) : bool :=
  option_typed string_typed (pbr_key r) && option_typed string_typed (pbr_request_id r).
Definition receipt_typed (r : BatchDeliveryReceipt) : bool := u64_typed (bdr_offset r) && string_typed (bdr_delivery_token r).

Definition request_typed (r : Request) : bool :=
  match r with
  | RqCreateStream stream => string_typed stream
  | RqPublish stream key payload request_id =>
    string_typed stream && option_typed string_typed key && string_typed payload && option_typed string_typed request_id
  | RqPublishBytes stream key payload request_id =>
    string_typed stream && option_typed string_typed key && option_typed string_typed request_id
  | RqPublishBatch stream records => string_typed stream && forallb record_typed records
  | RqPoll stream consumer | RqInspectConsumer stream consumer => string_typed stream && string_typed consumer
  | RqPollBatch stream consumer max_records max_bytes max_wait_ms =>
    string_typed stream && string_typed consumer && u64_typed max_records && u64_typed max_bytes && u64_typed max_wait_ms
  | RqReplay stream consumer offset | RqAck stream consumer offset =>
    string_typed stream && string_typed consumer && u64_typed offset
  | RqPollGroup stream consumer member => string_typed stream && string_typed consumer && string_typed member
  | RqPollGroupBatch stream consumer member max_records max_bytes max_wait_ms =>
    string_typed stream && string_typed consumer && string_typed member && u64_typed max_records && u64_typed max_bytes
    && u64_typed max_wait_ms
  | RqConfigureConsumer stream consumer ack_timeout_ms max_delivery_attempts retry_delay_ms =>
    string_typed stream && string_typed consumer && u64_typed ack_timeout_ms && option_typed u32_typed max_delivery_attempts
    && u64_typed retry_delay_ms
  | RqAckBatch stream consumer receipts => string_typed stream && string_typed consumer && forallb receipt_typed receipts
  | RqAckGroup stream consumer member offset delivery_token =>
    string_typed stream && string_typed consumer && string_typed member && u64_typed offset && string_typed delivery_token
  | RqAckGroupBatch stream consumer member receipts =>
    string_typed stream && string_typed consumer && string_typed member && forallb receipt_typed receipts
  | RqHealth => true
  end.

(** A publication of text arrives as one of bytes. *)
Definition canonical_request (r : Request) : Request :=
  match r with
  | RqPublish stream key payload request_id => RqPublishBytes stream key (as_bytes payload) request_id
  | r => r
  end.

(** ** Fields are typed *)

Lemma fields_ok_app k l : fields_ok (k ++ l) = fields_ok k && fields_ok l.
Proof. apply forallb_app. Qed.

Lemma fields_ok_cons n v l : fields_ok ((n, v) :: l) = value_ok v && fields_ok l.
Proof. done. Qed.

Lemma fields_ok_string n s : fields_ok (string_field n s) = string_typed s.
Proof. unfold string_field. case_bool_decide; [by subst s|]. cbn. by rewrite andb_true_r. Qed.

Lemma fields_ok_bytes n l : fields_ok (bytes_field n l) = true.
Proof. unfold bytes_field. by case_bool_decide. Qed.

Lemma fields_ok_uint32 n v : fields_ok (uint32_field n v) = u32_typed v.
Proof. unfold uint32_field. destruct (N.eqb_spec v 0); [by subst v|]. cbn. by rewrite andb_true_r. Qed.

Lemma fields_ok_uint64 n v : fields_ok (uint64_field n v) = u64_typed v.
Proof. unfold uint64_field. destruct (N.eqb_spec v 0); [by subst v|]. cbn. by rewrite andb_true_r. Qed.

Lemma fields_ok_bool n b : fields_ok (bool_field n b) = true.
Proof. by destruct b. Qed.

Lemma fields_ok_enum n v : (- 2 ^ 31 <= v < 2 ^ 31)%Z -> fields_ok (enum_field n v) = true.
Proof. intros Hv. unfold enum_field. destruct (v =? 0)%Z; [done|]. cbn -[Z.pow]. destruct (Z.leb_spec (- 2 ^ 31) v), (Z.ltb_spec v (2 ^ 31)); lia || done. Qed.

Lemma fields_ok_optional {A} (field : A -> FieldValue) (typed : A -> bool) n o :
  (forall a, typed a = value_ok (field a)) -> fields_ok (optional_field field n o) = option_typed typed o.
Proof. intros H. destruct o; [|done]. cbn. by rewrite andb_true_r, H. Qed.

Lemma fields_ok_repeated {A} (field : A -> FieldValue) (typed : A -> bool) n l :
  (forall a, a ∈ l -> typed a = true -> value_ok (field a) = true) -> forallb typed l = true ->
  fields_ok (repeated_field field n l) = true.
Proof.
  intros H Hl. induction l as [|a l IH]; [done|]. cbn [forallb] in Hl. apply andb_true_iff in Hl as [Ha Hl].
  change (repeated_field field n (a :: l)) with ((n, field a) :: repeated_field field n l). rewrite fields_ok_cons, IH; [|by set_solver|done].
  rewrite H; [done|left|done].
Qed.

Lemma value_ok_message fields : value_ok (VMessage fields) = fields_ok fields.
Proof. done. Qed.

Create Rewrite HintDb wire.
#[export] Hint Rewrite fields_ok_app fields_ok_cons fields_ok_string fields_ok_bytes fields_ok_uint32 fields_ok_uint64 fields_ok_bool value_ok_message : wire.

(** Splits hypotheses about typed values and rewrites with them. *)
Ltac typed_split := repeat match goal with H : _ && _ = true |- _ => apply andb_true_iff in H as [? ?] end.
Ltac typed_rewrite := repeat match goal with H : ?t = true |- _ => rewrite H end.

Lemma record_fields_typed r : record_typed r = true -> fields_ok (Wire.publish_batch_record_fields (record_to_wire r)) = true.
Proof.
  unfold record_typed, Wire.publish_batch_record_fields. intros H. autorewrite with wire. cbn [Wire.pr_key Wire.pr_payload Wire.pr_request_id record_to_wire].
  by rewrite !(fields_ok_optional VString string_typed) by done.
Qed.

Lemma receipt_fields_typed r : receipt_typed r = true -> fields_ok (Wire.receipt_fields (receipt_to_wire r)) = true.
Proof. unfold receipt_typed, Wire.receipt_fields. intros H. by autorewrite with wire. Qed.

Lemma records_typed n l :
  forallb record_typed l = true ->
  fields_ok (repeated_field (fun r => VMessage (Wire.publish_batch_record_fields r)) n (record_to_wire <$> l)) = true.
Proof.
  intros H. induction l as [|r l IH]; [done|]. cbn [forallb] in H. typed_split. rewrite fmap_cons.
  unfold repeated_field in *. rewrite fmap_cons, fields_ok_cons, IH by done. by rewrite value_ok_message, record_fields_typed.
Qed.

Lemma receipts_typed n l :
  forallb receipt_typed l = true ->
  fields_ok (repeated_field (fun r => VMessage (Wire.receipt_fields r)) n (receipt_to_wire <$> l)) = true.
Proof.
  intros H. induction l as [|r l IH]; [done|]. cbn [forallb] in H. typed_split. rewrite fmap_cons.
  unfold repeated_field in *. rewrite fmap_cons, fields_ok_cons, IH by done. by rewrite value_ok_message, receipt_fields_typed.
Qed.

Lemma to_u32_ok v w : to_u32 v = Ok w -> w = v /\ v <= u32_max.
Proof. unfold to_u32. destruct (N.leb_spec v u32_max); naive_solver. Qed.

Lemma operation_typed r op :
  request_typed r = true -> request_to_wire r = Ok op -> fields_ok (Wire.operation_fields op).2 = true.
Proof.
  intros Ht Hw. destruct r; cbn in Ht, Hw; repeat match type of Hw with context [to_u32 ?v] =>
    let E := fresh "E" in destruct (to_u32 v) eqn:E; cbn in Hw; [apply to_u32_ok in E as [-> E%N.leb_le]|done] end;
    injection Hw as <-; typed_split; cbn [Wire.operation_fields snd]; autorewrite with wire;
    rewrite ?(fields_ok_optional VString string_typed), ?(fields_ok_optional VUint32 u32_typed), ?records_typed, ?receipts_typed by done;
    unfold u32_typed in *; typed_rewrite; try done.
Qed.

Lemma request_from_to_wire r op : request_to_wire r = Ok op -> request_from_wire op = canonical_request r.
Proof.
  intros Hw. destruct r; cbn in Hw; repeat match type of Hw with context [to_u32 ?v] =>
    let E := fresh "E" in destruct (to_u32 v) eqn:E; cbn in Hw; [apply to_u32_ok in E as [-> E]|done] end;
    injection Hw as <-; cbn; f_equal; rewrite <-list_fmap_compose; etransitivity; try apply list_fmap_id; apply list_fmap_ext;
    by intros ? [].
Qed.

(** ** Frames *)

(** The body behind the length of a frame. *)
Definition frame_body (frame : EncodedFrame) : list byte := drop 4 (ef_bytes frame).

(** A frame is its length, in four bytes of which the highest comes first, and a
    body of that length that is not empty and no longer than [max_bytes]. *)
Definition framed (frame : EncodedFrame) (max_bytes : N) : Prop :=
  ef_bytes frame = to_be_bytes 4 (vec_len (frame_body frame)) ++ frame_body frame
  /\ frame_body frame <> [] /\ vec_len (frame_body frame) <= N.min max_bytes u32_max.

Lemma length_to_be_bytes n v : length (to_be_bytes n v) = n.
Proof. unfold to_be_bytes. by rewrite length_reverse, length_to_le_bytes. Qed.

Lemma from_to_be_bytes n v : v < 256 ^ N.of_nat n -> from_be_bytes (to_be_bytes n v) = v.
Proof. intros Hv. unfold from_be_bytes, to_be_bytes. rewrite reverse_involutive. by apply from_to_le_bytes. Qed.

Section message.
Context {M : Type} {W : WireMessage M} {P : ProstMessage M} {L : ProstLaws M}.

Lemma encode_message_framed (m : M) max_bytes secret frame :
  encode_message m max_bytes secret = Ok frame ->
  framed frame max_bytes /\ frame_body frame = message_bytes (wire_fields m) /\ ef_contains_secret frame = secret.
Proof.
  unfold encode_message. rewrite prost_encode_fields. set (body := message_bytes _). intros H.
  destruct (N.eqb_spec (vec_len body) 0), (N.ltb_spec max_bytes (vec_len body)), (N.ltb_spec u32_max (vec_len body)); cbn [orb] in H; try done.
  assert (Hf : frame = {| ef_bytes := to_be_bytes 4 (vec_len body) ++ body; ef_contains_secret := secret |}) by congruence.
  rewrite Hf. unfold framed, frame_body. cbn [ef_bytes ef_contains_secret].
  assert (Hd : drop 4 (to_be_bytes 4 (vec_len body) ++ body) = body) by (apply drop_app_length'; by rewrite length_to_be_bytes).
  rewrite Hd. repeat split; [|lia]. by intros ->.
Qed.

Lemma encode_message_ok (m : M) max_bytes secret :
  message_bytes (wire_fields m) <> [] -> vec_len (message_bytes (wire_fields m)) <= N.min max_bytes u32_max ->
  exists frame, encode_message m max_bytes secret = Ok frame.
Proof.
  intros Hne Hlen. unfold encode_message. rewrite prost_encode_fields.
  destruct (N.eqb_spec (vec_len (message_bytes (wire_fields m))) 0) as [E|_].
  { unfold vec_len in E. destruct (message_bytes (wire_fields m)); [done|]. cbn in E. lia. }
  destruct (N.ltb_spec max_bytes (vec_len (message_bytes (wire_fields m)))); [lia|].
  destruct (N.ltb_spec u32_max (vec_len (message_bytes (wire_fields m)))); [lia|]. cbn. by eexists.
Qed.

Lemma decode_message_encoded (m : M) max_bytes secret frame limit :
  fields_ok (wire_fields m) = true -> encode_message m max_bytes secret = Ok frame -> vec_len (frame_body frame) <= limit ->
  decode_message (frame_body frame) limit = Ok m.
Proof.
  intros Hok He Hlen. destruct (encode_message_framed m max_bytes secret frame He) as [(_ & Hne & Hmax) [Hb _]].
  unfold decode_message. rewrite bool_decide_eq_false_2 by done.
  destruct (N.ltb_spec limit (vec_len (frame_body frame))); [lia|].
  destruct (N.ltb_spec u32_max (vec_len (frame_body frame))); [lia|]. cbn [orb].
  rewrite Hb, <-(prost_encode_fields m), prost_decode_encode; [done|done|]. rewrite prost_encode_fields, <-Hb. lia.
Qed.
End message.

(** ** The kind of a client frame *)

Definition raw_ok (f : N * Raw) : Prop :=
  1 <= f.1 <= 0x1fffffff /\ match f.2 with RVarint v => v <= u64_max | RBytes l => vec_len l <= u64_max end.

(** The last field of a body decides. *)
Definition field_kind (kind : ClientFrameKind) (f : N * Raw) : ClientFrameKind :=
  match f with
  | (1, RBytes _) => KindBearerAuth
  | (2, RBytes _) => KindApplication
  | _ => kind
  end.

Lemma raw_bytes_head f : exists b l, raw_bytes f = b :: l.
Proof.
  destruct f as [n [v|l]]; unfold raw_bytes, varint; cbn [fst snd]; remember 9%nat as k eqn:Ek; clear Ek;
    (destruct k; cbn [varint_loop]; [|destruct (_ <? 128)]); cbn [app]; by eexists _, _.
Qed.

Lemma key_parts n t : t < 8 -> N.shiftr (8 * n + t) 3 = n /\ N.land (8 * n + t) 7 = t.
Proof.
  intros Ht. rewrite N.shiftr_div_pow2. change 7 with (N.ones 3). rewrite N.land_ones. change (2 ^ 3) with 8. split.
  - rewrite N.mul_comm, N.div_add_l by done. rewrite N.div_small by done. lia.
  - rewrite N.add_comm, N.mul_comm, N.Div0.mod_add. by apply N.mod_small.
Qed.

Lemma kind_step fuel kind f rest :
  raw_ok f ->
  client_frame_kind_loop (S fuel) kind (raw_bytes f ++ rest) = client_frame_kind_loop fuel (field_kind kind f) rest.
Proof.
  intros [Hn Hv]. destruct (raw_bytes_head f) as (b & l & Hb). cbn [client_frame_kind_loop]. rewrite Hb. cbn [app].
  change (b :: l ++ rest) with ((b :: l) ++ rest). rewrite <-Hb. clear Hb b l.
  destruct f as [n r]; cbn [fst snd] in *; unfold raw_bytes; cbn [fst snd].
  destruct r as [v|l]; rewrite <-!app_assoc; rewrite read_varint_written by (unfold u64_max; lia).
  - destruct (key_parts n 0 ltac:(done)) as [H1 H2]. rewrite N.add_0_r in H1, H2. rewrite H1, H2.
    destruct (N.eqb_spec n 0), (N.ltb_spec 0x1fffffff n); try lia. cbn [orb]. change (0 =? 2) with false. change (0 =? 0) with true. cbv match.
    rewrite read_varint_written by done. by destruct n as [|[p|[p|p|]|]].
  - destruct (key_parts n 2 ltac:(done)) as [H1 H2]. rewrite H1, H2.
    destruct (N.eqb_spec n 0), (N.ltb_spec 0x1fffffff n); try lia. cbn [orb]. change (2 =? 2) with true. cbv match.
    rewrite read_varint_written by done. rewrite vec_len_app. destruct (N.ltb_spec (vec_len l + vec_len rest) (vec_len l)); [lia|].
    unfold vec_len. rewrite Nat2N.id, drop_app_length. by destruct n as [|[p|[p|p|]|]].
Qed.

Lemma kind_of_fields fuel kind fs :
  Forall raw_ok fs -> (length fs <= fuel)%nat -> client_frame_kind_loop fuel kind (raws_bytes fs) = Ok (fold_left field_kind fs kind).
Proof.
  intros Hok. revert fuel kind. induction Hok as [|f fs Hf _ IH]; intros fuel kind Hl; [by destruct fuel|].
  destruct fuel as [|fuel]; cbn in Hl; [lia|]. unfold raws_bytes. cbn [fmap list_fmap concat]. rewrite kind_step by done.
  apply IH. lia.
Qed.

Lemma raws_bytes_length fs : (length fs <= length (raws_bytes fs))%nat.
Proof.
  induction fs as [|f fs IH]; [done|]. unfold raws_bytes in *. cbn [fmap list_fmap concat]. rewrite length_app.
  destruct (raw_bytes_head f) as (b & l & ->). cbn. cbn in IH. lia.
Qed.

Lemma client_frame_kind_fields fs :
  fs <> [] -> Forall raw_ok fs -> client_frame_kind (raws_bytes fs) = Ok (fold_left field_kind fs KindMissing).
Proof.
  intros Hne Hok. unfold client_frame_kind. rewrite bool_decide_eq_false_2.
  - apply kind_of_fields; [done|]. apply raws_bytes_length.
  - destruct fs as [|f fs]; [done|]. unfold raws_bytes. cbn [fmap list_fmap concat]. by destruct (raw_bytes_head f) as (b & l & ->).
Qed.

(** Reading an integer takes a byte at least, so that the loop of
    [client_frame_kind] does not run out of fuel. *)
Lemma read_varint_loop_consumes rounds shift value l v rest :
  read_varint_loop rounds shift value l = Ok (v, rest) -> (length rest < length l)%nat.
Proof.
  revert shift value l. induction rounds as [|rounds IH]; intros shift value l H; [done|]. destruct l as [|b l]; [done|].
  cbn [read_varint_loop] in H. destruct (_ && _); [done|]. destruct (_ =? 0).
  - injection H as _ <-. cbn. lia.
  - apply IH in H. cbn. lia.
Qed.

Lemma client_frame_kind_enough fuel kind l :
  (length l <= fuel)%nat -> client_frame_kind_loop fuel kind l = client_frame_kind_loop (length l) kind l.
Proof.
  intros Hl. remember (length l) as m eqn:Hm. assert (Hle : (length l <= m)%nat) by lia. clear Hm. revert fuel kind l Hl Hle.
  induction m as [|m IH]; intros fuel kind l Hl Hle; [destruct l; [by destruct fuel|cbn in Hle; lia]|].
  destruct fuel as [|fuel]; [lia|]. destruct l as [|b l]; [done|]. cbn [client_frame_kind_loop].
  destruct (read_varint (b :: l)) as [[key rest]|] eqn:E1; [|done]. apply read_varint_loop_consumes in E1. cbn [length] in *.
  assert (HI : forall k r, (length r <= length rest)%nat -> client_frame_kind_loop fuel k r = client_frame_kind_loop m k r).
  { intros k r Hr. apply IH; lia. }
  repeat (match goal with |- (if ?c then _ else _) = _ => destruct c; [try done|] end); try done.
  - destruct (read_varint rest) as [[len rest']|] eqn:E2; [|done]. apply read_varint_loop_consumes in E2.
    destruct (_ <? _); [done|]. apply HI. rewrite length_drop. lia.
  - destruct (read_varint rest) as [[len rest']|] eqn:E2; [|done]. apply read_varint_loop_consumes in E2. apply HI. lia.
  - apply HI. rewrite length_drop. lia.
  - apply HI. rewrite length_drop. lia.
Qed.

(** ** Client frames *)

Definition client_frame_typed (frame : ClientFrame) : bool :=
  match frame with ClientBearerAuth token => string_typed token | ClientRequest request => request_typed request end.

Definition canonical_client_frame (frame : ClientFrame) : ClientFrame :=
  match frame with ClientBearerAuth token => ClientBearerAuth token | ClientRequest request => ClientRequest (canonical_request request) end.

Definition kind_of_frame (frame : ClientFrame) : ClientFrameKind :=
  match frame with ClientBearerAuth _ => KindBearerAuth | ClientRequest _ => KindApplication end.

(** The limit of a frame: credentials come in small ones. *)
Definition client_frame_limit (frame : ClientFrame) : N :=
  match frame with ClientBearerAuth _ => AUTH_MAX_BODY_BYTES | ClientRequest _ => MAX_CLIENT_TO_SERVER_FRAME_BYTES end.

Definition client_frame_to_wire (frame : ClientFrame) : Result Wire.ClientFrame V2ProtocolError :=
  match frame with
  | ClientBearerAuth token => Ok {| Wire.cf_body := Some (Wire.BearerAuth token) |}
  | ClientRequest request =>
    let? operation := request_to_wire request in Ok {| Wire.cf_body := Some (Wire.ClientApplication (Some operation)) |}
  end.

Lemma one_field_len n fields l : message_bytes [(n, VMessage fields)] = l -> vec_len (message_bytes fields) <= vec_len l.
Proof.
  intros <-. unfold message_bytes at 2. unfold raws_bytes. cbn [map fmap list_fmap concat raw_of fst snd]. rewrite app_nil_r.
  unfold raw_bytes. cbn [fst snd]. rewrite !vec_len_app. unfold message_bytes. lia.
Qed.

Lemma one_field_kind n fields :
  1 <= n <= 2 -> vec_len (message_bytes fields) <= u32_max ->
  client_frame_kind (message_bytes [(n, VMessage fields)]) = Ok (if n =? 1 then KindBearerAuth else KindApplication).
Proof.
  intros Hn Hl. unfold message_bytes at 1. cbn [map raw_of fst snd]. rewrite client_frame_kind_fields; [|done|].
  - assert (n = 1 \/ n = 2) as [->| ->] by lia; done.
  - repeat constructor; cbn [fst snd]; [lia|lia|]. change (raws_bytes _) with (message_bytes fields). unfold u32_max, u64_max in *. lia.
Qed.

Section client.
Context {PC : ProstMessage Wire.ClientFrame} {LC : ProstLaws Wire.ClientFrame}.

Lemma encode_client_frame_wire frame :
  encode_client_frame frame =
  match client_frame_to_wire frame with
  | Ok m => encode_message m (client_frame_limit frame) (bool_decide (kind_of_frame frame = KindBearerAuth))
  | Err e => Err e
  end.
Proof. destruct frame as [token|request]; cbn; [done|]. by destruct (request_to_wire request). Qed.

Lemma client_wire_frame frame m :
  client_frame_typed frame = true -> client_frame_to_wire frame = Ok m -> vec_len (message_bytes (wire_fields m)) <= u32_max ->
  fields_ok (wire_fields m) = true
  /\ client_frame_kind (message_bytes (wire_fields m)) = Ok (kind_of_frame frame)
  /\ match Wire.cf_body m with
     | Some (Wire.BearerAuth token) => frame = ClientBearerAuth token
     | Some (Wire.ClientApplication (Some op)) => exists r, frame = ClientRequest r /\ request_from_wire op = canonical_request r
     | _ => False
     end.
Proof.
  intros Ht Em Hlen. destruct frame as [token|request]; cbn [client_frame_to_wire] in Em.
  - injection Em as <-. cbn [wire_fields Wire.client_frame_wire Wire.cf_body] in *. rewrite one_field_kind; [|lia|].
    + split; [|done]. rewrite fields_ok_cons, value_ok_message, fields_ok_string. cbn in Ht. by rewrite Ht.
    + etransitivity; [apply (one_field_len 1 _ _ eq_refl)|]. exact Hlen.
  - destruct (request_to_wire request) as [op|] eqn:Eo; [|done]. injection Em as <-. cbn [wire_fields Wire.client_frame_wire Wire.cf_body] in *.
    rewrite one_field_kind; [|lia|].
    + split; [|split; [done|]; exists request; split; [done|by apply request_from_to_wire]].
      unfold Wire.oneof_field. rewrite fields_ok_cons, value_ok_message, fields_ok_cons, value_ok_message.
      by rewrite (operation_typed request) by done.
    + etransitivity; [apply (one_field_len 2 _ _ eq_refl)|]. exact Hlen.
Qed.

Lemma client_frame_roundtrip frame encoded :
  client_frame_typed frame = true -> encode_client_frame frame = Ok encoded ->
  framed encoded (client_frame_limit frame)
  /\ client_frame_kind (frame_body encoded) = Ok (kind_of_frame frame)
  /\ forall max_bytes, vec_len (frame_body encoded) <= max_bytes ->
     decode_client_frame (frame_body encoded) max_bytes = Ok (canonical_client_frame frame).
Proof.
  intros Ht He. rewrite encode_client_frame_wire in He. destruct (client_frame_to_wire frame) as [m|] eqn:Em; [|done].
  pose proof (encode_message_framed _ _ _ _ He) as (Hf & Hb & _). split; [done|]. destruct Hf as (_ & _ & Hmax).
  destruct (client_wire_frame frame m Ht Em) as (Hok & Hk & Hm); [rewrite <-Hb; lia|]. rewrite <-Hb in Hk. split; [done|].
  intros max_bytes Hlen. unfold decode_client_frame. rewrite Hk. cbv match.
  rewrite (decode_message_encoded _ _ _ _ _ Hok He Hlen). destruct (Wire.cf_body m) as [[token|[op|]]|]; try done.
  - subst frame. cbn [kind_of_frame client_frame_limit] in *. rewrite bool_decide_eq_true_2 by done.
    destruct (N.ltb_spec AUTH_MAX_BODY_BYTES (vec_len (frame_body encoded))); [lia|]. done.
  - destruct Hm as (r & -> & Hr). cbn [kind_of_frame]. rewrite bool_decide_eq_false_2 by done. cbn. by rewrite Hr.
Qed.
End client.

(** ** Replies *)

Definition message_fields_typed (f : MessageFields) : bool :=
  string_typed (mf_stream f) && string_typed (mf_consumer f) && option_typed string_typed (mf_member f) && u64_typed (mf_offset f)
  && option_typed string_typed (mf_key f) && u64_typed (mf_published_at_ms f) && option_typed string_typed (mf_delivery_token f)
  && option_typed u32_typed (mf_delivery_attempt f).

Definition payload_typed (p : MessagePayload) : bool := match p with Text s => string_typed s | Bytes _ => true end.

Definition batch_message_typed (m : BatchMessageResponse) : bool := message_fields_typed (bm_fields m) && payload_typed (bm_payload m).

Definition publish_item_typed (i : PublishBatchRecordResponse) : bool :=
  match i with RecordPublished offset => u64_typed offset | RecordError code message => string_typed code && string_typed message end.

Definition ack_item_typed (i : AckBatchItemResponse) : bool :=
  u64_typed (abr_offset i) && option_typed string_typed (abr_code i) && option_typed string_typed (abr_message i).

Definition response_typed (r : Response) : bool :=
  match r with
  | RsStreamCreated stream _ => string_typed stream
  | RsPublished stream offset => string_typed stream && u64_typed offset
  | RsPublishBatch stream outcomes => string_typed stream && forallb publish_item_typed outcomes
  | RsPollBatch stream consumer messages => string_typed stream && string_typed consumer && forallb batch_message_typed messages
  | RsMessage fields payload => message_fields_typed fields && payload_typed payload
  | RsReplayMessage stream consumer offset key payload published_at_ms =>
    string_typed stream && string_typed consumer && u64_typed offset && option_typed string_typed key && payload_typed payload
    && u64_typed published_at_ms
  | RsEmpty stream consumer => string_typed stream && string_typed consumer
  | RsAcknowledged stream consumer offset _ => string_typed stream && string_typed consumer && u64_typed offset
  | RsAckBatch stream consumer outcomes => string_typed stream && string_typed consumer && forallb ack_item_typed outcomes
  | RsConsumerPolicy stream consumer version _ ack_timeout_ms max_delivery_attempts retry_delay_ms =>
    string_typed stream && string_typed consumer && u64_typed version && u64_typed ack_timeout_ms
    && option_typed u32_typed max_delivery_attempts && u64_typed retry_delay_ms
  | RsHealth status streams storage_bytes => string_typed status && u64_typed streams && u64_typed storage_bytes
  | RsError code message => string_typed code && string_typed message
  end.

(** A payload arrives as text when it is UTF-8. *)
Definition canonical_payload (p : MessagePayload) : MessagePayload := payload_from_bytes (payload_bytes p).
Definition canonical_message (m : BatchMessageResponse) : BatchMessageResponse :=
  {| bm_fields := bm_fields m; bm_payload := canonical_payload (bm_payload m) |}.

(** A receipt that was accepted has no reason to be told. *)
Definition canonical_ack_item (i : AckBatchItemResponse) : AckBatchItemResponse :=
  match abr_outcome i with
  | ItemRejected => i
  | outcome => {| abr_offset := abr_offset i; abr_outcome := outcome; abr_code := None; abr_message := None |}
  end.

Definition canonical_response (r : Response) : Response :=
  match r with
  | RsPollBatch stream consumer messages => RsPollBatch stream consumer (canonical_message <$> messages)
  | RsMessage fields payload => RsMessage fields (canonical_payload payload)
  | RsReplayMessage stream consumer offset key payload published_at_ms =>
    RsReplayMessage stream consumer offset key (canonical_payload payload) published_at_ms
  | RsAckBatch stream consumer outcomes => RsAckBatch stream consumer (canonical_ack_item <$> outcomes)
  | r => r
  end.

Definition canonical_reply (r : ApplicationReply) : ApplicationReply :=
  {| rp_response := canonical_response (rp_response r); rp_outcome := rp_outcome r; rp_stage := rp_stage r; rp_items := rp_items r |}.

(** The result of a receipt agrees with its metadata, and a rejection has its
    reason. [reply_to_wire] does not look at this, [reply_from_wire] does. *)
Definition ack_item_agrees (i : AckBatchItemResponse) (m : ItemMetadata) : Prop :=
  match abr_outcome i with
  | ItemRejected => im_outcome m <> OutcomeConfirmed /\ is_Some (abr_code i) /\ is_Some (abr_message i)
  | _ => im_outcome m = OutcomeConfirmed
  end.

Definition reply_agrees (r : ApplicationReply) : Prop :=
  match rp_response r with RsAckBatch _ _ outcomes => Forall2 ack_item_agrees outcomes (rp_items r) | _ => True end.

Lemma outcome_from_to_wire o : outcome_from_wire (outcome_to_wire o) = Ok o.
Proof. by destruct o. Qed.

Lemma stage_from_to_wire s : stage_from_wire (stage_to_wire s) = Ok s.
Proof. by destruct s. Qed.

Lemma fields_ok_outcome n o : fields_ok (enum_field n (outcome_to_wire o)) = true.
Proof. by destruct o. Qed.

Lemma fields_ok_stage n s : fields_ok (enum_field n (stage_to_wire s)) = true.
Proof. by destruct s. Qed.

Lemma fields_ok_optional_string n o : fields_ok (optional_field VString n o) = option_typed string_typed o.
Proof. by apply fields_ok_optional. Qed.

Lemma fields_ok_optional_u32 n o : fields_ok (optional_field VUint32 n o) = option_typed u32_typed o.
Proof. by apply fields_ok_optional. Qed.

Lemma fields_ok_optional_u64 n o : fields_ok (optional_field VUint64 n o) = option_typed u64_typed o.
Proof. by apply fields_ok_optional. Qed.

#[export] Hint Rewrite fields_ok_outcome fields_ok_stage fields_ok_optional_string fields_ok_optional_u32 fields_ok_optional_u64 : wire.

Lemma message_to_wire_typed f p : message_fields_typed f = true -> fields_ok (Wire.message_fields (message_to_wire f p)) = true.
Proof.
  unfold message_fields_typed, Wire.message_fields, message_to_wire.
  cbn [Wire.mr_stream Wire.mr_consumer Wire.mr_member Wire.mr_offset Wire.mr_key Wire.mr_payload Wire.mr_published_at_ms Wire.mr_delivery_token
       Wire.mr_delivery_attempt]. intros H. typed_split. autorewrite with wire. by typed_rewrite.
Qed.

Lemma batch_message_from_to_wire m :
  batch_message_from_wire (message_to_wire (bm_fields m) (bm_payload m)) = canonical_message m.
Proof. by destruct m as [[] p]. Qed.

(** ** Items *)

Section items.
Context {A B : Type} (to_wire : A -> ItemMetadata -> Result B V2ProtocolError) (from_wire : B -> Result (A * ItemMetadata) V2ProtocolError).
Context (canonical : A -> A) (typed : A -> bool) (fields : B -> list (N * FieldValue)) (agrees : A -> ItemMetadata -> Prop).

Lemma zip_items_from_wire l k ws :
  (forall a m w, agrees a m -> to_wire a m = Ok w -> from_wire w = Ok (canonical a, m)) ->
  Forall2 agrees l k -> zip_items to_wire l k = Ok ws -> items_from_wire from_wire ws = Ok (canonical <$> l, k).
Proof.
  intros Hw Hl. revert ws. induction Hl as [|a m l k Ha _ IH]; intros ws H; cbn [zip_items] in H; [by injection H as <-|].
  destruct (to_wire a m) as [w|] eqn:Ew; [|done]. destruct (zip_items to_wire l k) as [ws'|] eqn:Ews; [|done].
  injection H as <-. cbn [items_from_wire]. rewrite (Hw a m w) by done. by rewrite (IH ws').
Qed.

Lemma zip_items_typed n l k ws :
  (forall a m w, typed a = true -> to_wire a m = Ok w -> fields_ok (fields w) = true) ->
  forallb typed l = true -> zip_items to_wire l k = Ok ws -> fields_ok (repeated_field (fun w => VMessage (fields w)) n ws) = true.
Proof.
  intros Hw. revert k ws. induction l as [|a l IH]; intros k ws Ht H; cbn [zip_items forallb] in *; [by injection H as <-|].
  destruct k as [|m k]; [by injection H as <-|]. typed_split. destruct (to_wire a m) as [w|] eqn:Ew; [|done].
  destruct (zip_items to_wire l k) as [ws'|] eqn:Ews; [|done]. injection H as <-.
  unfold repeated_field in *. rewrite fmap_cons, fields_ok_cons, value_ok_message, (Hw a m w) by done. by rewrite (IH k ws').
Qed.

Lemma batch_items_ok reply l ws :
  batch_items reply to_wire l = Ok ws ->
  rp_outcome reply = None /\ rp_stage reply = None /\ length l = length (rp_items reply) /\ zip_items to_wire l (rp_items reply) = Ok ws.
Proof.
  unfold batch_items. intros H. destruct (rp_outcome reply), (rp_stage reply); cbn in H; try done.
  destruct (Nat.eqb_spec (length (rp_items reply)) (length l)); cbn in H; [|done]. done.
Qed.
End items.

Lemma publish_item_wire i m w : publish_item_to_wire i m = Ok w -> publish_item_from_wire w = Ok (i, m).
Proof.
  unfold publish_item_to_wire, publish_item_from_wire. destruct m as [o s]. cbn [im_outcome im_stage].
  destruct i as [offset|code message]; case_bool_decide as Ho; intros H; try done; injection H as <-; cbn -[bool_decide];
    rewrite outcome_from_to_wire, stage_from_to_wire; cbn -[bool_decide].
  - by subst o.
  - by rewrite bool_decide_eq_false_2.
Qed.

Lemma message_item_wire i m w : message_item_to_wire i m = Ok w -> message_item_from_wire w = Ok (canonical_message i, m).
Proof.
  unfold message_item_to_wire, message_item_from_wire. destruct m as [o s]. cbn [im_outcome im_stage]. case_bool_decide as Ho; [done|].
  intros H. injection H as <-. cbn [Wire.mi_outcome Wire.mi_stage Wire.mi_message]. rewrite outcome_from_to_wire, stage_from_to_wire.
  subst o. rewrite bool_decide_eq_false_2 by naive_solver. cbn [ok_or]. by rewrite batch_message_from_to_wire.
Qed.

Lemma ack_item_wire i m w : ack_item_agrees i m -> ack_item_to_wire i m = Ok w -> ack_item_from_wire w = Ok (canonical_ack_item i, m).
Proof.
  unfold ack_item_agrees, ack_item_to_wire, ack_item_from_wire, canonical_ack_item. destruct m as [o s], i as [offset outcome code message].
  cbn [im_outcome im_stage abr_offset abr_outcome abr_code abr_message].
  destruct outcome; intros Ha H; injection H as <-;
    cbn [Wire.ai_outcome Wire.ai_stage Wire.ai_status Wire.ai_offset Wire.ai_code Wire.ai_diagnostic];
    rewrite outcome_from_to_wire, stage_from_to_wire; cbn [ack_status_from_wire].
  - by rewrite bool_decide_eq_true_2.
  - by rewrite bool_decide_eq_true_2.
  - destruct Ha as (Ho & [c ->] & [d ->]). by rewrite bool_decide_eq_true_2.
Qed.

Lemma publish_item_fields_typed i m w :
  publish_item_typed i = true -> publish_item_to_wire i m = Ok w -> fields_ok (Wire.publish_item_fields w) = true.
Proof.
  unfold publish_item_to_wire, Wire.publish_item_fields. destruct i; cbn [publish_item_typed]; case_bool_decide as Ho; intros Ht H; try done;
    injection H as <-; cbn [Wire.pi_outcome Wire.pi_stage Wire.pi_offset Wire.pi_code Wire.pi_diagnostic]; typed_split;
    autorewrite with wire; cbn [option_typed]; by typed_rewrite.
Qed.

Lemma message_item_fields_typed i m w :
  batch_message_typed i = true -> message_item_to_wire i m = Ok w -> fields_ok (Wire.message_item_fields w) = true.
Proof.
  unfold message_item_to_wire, Wire.message_item_fields, batch_message_typed. case_bool_decide as Ho; intros Ht H; [done|].
  injection H as <-. cbn [Wire.mi_outcome Wire.mi_stage Wire.mi_message optional_field]. typed_split.
  autorewrite with wire. by rewrite message_to_wire_typed.
Qed.

Lemma ack_item_fields_typed i m w :
  ack_item_typed i = true -> ack_item_to_wire i m = Ok w -> fields_ok (Wire.ack_item_fields w) = true.
Proof.
  unfold ack_item_to_wire, Wire.ack_item_fields, ack_item_typed. destruct (abr_outcome i); intros Ht H; injection H as <-;
    cbn [Wire.ai_outcome Wire.ai_stage Wire.ai_status Wire.ai_offset Wire.ai_code Wire.ai_diagnostic]; typed_split;
    autorewrite with wire; by typed_rewrite.
Qed.

Lemma response_wire_typed reply result batched :
  response_typed (rp_response reply) = true -> response_to_wire reply = Ok (result, batched) ->
  fields_ok (Wire.result_fields result).2 = true.
Proof.
  unfold response_to_wire. intros Ht H. destruct (rp_response reply) as [| |stream outcomes|stream consumer messages|fields payload| | | |stream consumer outcomes| | |];
    cbn [response_typed] in Ht; typed_split; try (injection H as <- <-; cbn [Wire.result_fields snd]; autorewrite with wire; by typed_rewrite).
  - destruct (batch_items _ _ _) as [ws|] eqn:E; [|done]. injection H as <- <-. apply batch_items_ok in E as (_ & _ & _ & E).
    cbn [Wire.result_fields snd]. autorewrite with wire. typed_rewrite. cbn [andb].
    eapply zip_items_typed; [|done|exact E]. apply publish_item_fields_typed.
  - destruct (batch_items _ _ _) as [ws|] eqn:E; [|done]. injection H as <- <-. apply batch_items_ok in E as (_ & _ & _ & E).
    cbn [Wire.result_fields snd]. autorewrite with wire. typed_rewrite. cbn [andb].
    eapply zip_items_typed; [|done|exact E]. apply message_item_fields_typed.
  - injection H as <- <-. cbn [Wire.result_fields snd]. by apply message_to_wire_typed.
  - injection H as <- <-. cbn [Wire.result_fields snd]. unfold Wire.replay_fields. autorewrite with wire.
    cbn [Wire.rr_stream Wire.rr_consumer Wire.rr_offset Wire.rr_key Wire.rr_payload Wire.rr_published_at_ms]. by typed_rewrite.
  - destruct (batch_items _ _ _) as [ws|] eqn:E; [|done]. injection H as <- <-. apply batch_items_ok in E as (_ & _ & _ & E).
    cbn [Wire.result_fields snd]. autorewrite with wire. typed_rewrite. cbn [andb].
    eapply zip_items_typed; [|done|exact E]. apply ack_item_fields_typed.
Qed.

Lemma response_from_to_wire reply result batched :
  reply_agrees reply -> response_to_wire reply = Ok (result, batched) ->
  is_batch result = batched
  /\ (batched = true -> rp_outcome reply = None /\ rp_stage reply = None)
  /\ response_from_wire result = Ok (canonical_response (rp_response reply), if batched then rp_items reply else []).
Proof.
  unfold response_to_wire, reply_agrees. intros Ha H.
  destruct (rp_response reply) as [| |stream outcomes|stream consumer messages|fields payload| | | |stream consumer outcomes| | |];
    try (injection H as <- <-; done).
  - destruct (batch_items _ _ _) as [ws|] eqn:E; [|done]. injection H as <- <-. apply batch_items_ok in E as (Ho & Hs & Hl & E).
    split; [done|]. split; [done|]. cbn [response_from_wire].
    rewrite (zip_items_from_wire _ publish_item_from_wire id (fun _ _ => True) _ _ _ (fun a m w _ => publish_item_wire a m w)
               (Forall2_true _ _ _ (fun _ _ => I) Hl) E). by rewrite list_fmap_id.
  - destruct (batch_items _ _ _) as [ws|] eqn:E; [|done]. injection H as <- <-. apply batch_items_ok in E as (Ho & Hs & Hl & E).
    split; [done|]. split; [done|]. cbn [response_from_wire].
    by rewrite (zip_items_from_wire _ message_item_from_wire canonical_message (fun _ _ => True) _ _ _ (fun a m w _ => message_item_wire a m w)
               (Forall2_true _ _ _ (fun _ _ => I) Hl) E).
  - injection H as <- <-. split; [done|]. split; [done|]. by destruct fields.
  - destruct (batch_items _ _ _) as [ws|] eqn:E; [|done]. injection H as <- <-. apply batch_items_ok in E as (Ho & Hs & Hl & E).
    split; [done|]. split; [done|]. cbn [response_from_wire].
    by rewrite (zip_items_from_wire _ ack_item_from_wire canonical_ack_item ack_item_agrees _ _ _ ack_item_wire Ha E).
Qed.

Lemma reply_from_to_wire reply response :
  reply_agrees reply -> reply_to_wire reply = Ok response -> reply_from_wire response = Ok (canonical_reply reply).
Proof.
  intros Ha H. unfold reply_to_wire in H. destruct (response_to_wire reply) as [[result batched]|] eqn:E; [|done].
  destruct (response_from_to_wire _ _ _ Ha E) as (Hb & Hn & Hr). unfold canonical_reply. destruct batched.
  - injection H as <-. destruct (Hn eq_refl) as [-> ->]. unfold reply_from_wire. cbn [Wire.ar_result Wire.ar_outcome Wire.ar_stage ok_or].
    by rewrite Hb, Hr.
  - case_bool_decide as Hi; [|done]. cbn [negb] in H. destruct (rp_outcome reply) as [o|]; [|done]. destruct (rp_stage reply) as [s|]; [|done].
    injection H as <-. unfold reply_from_wire. cbn [Wire.ar_result Wire.ar_outcome Wire.ar_stage ok_or].
    rewrite Hb, Hr. cbn [andb]. rewrite outcome_from_to_wire, stage_from_to_wire. by rewrite Hi.
Qed.

Lemma reply_wire_typed reply response :
  response_typed (rp_response reply) = true -> reply_to_wire reply = Ok response ->
  fields_ok (Wire.application_response_fields response) = true.
Proof.
  intros Ht H. unfold reply_to_wire in H. destruct (response_to_wire reply) as [[result batched]|] eqn:E; [|done].
  apply response_wire_typed in E; [|done]. unfold Wire.application_response_fields, Wire.oneof_field. destruct batched.
  - injection H as <-. cbn [Wire.ar_result Wire.ar_outcome Wire.ar_stage optional_field]. autorewrite with wire. by rewrite E.
  - destruct (bool_decide _); [|done]. cbn [negb] in H. destruct (rp_outcome reply) as [o|]; [|done]. destruct (rp_stage reply) as [s|]; [|done].
    injection H as <-. cbn [Wire.ar_result Wire.ar_outcome Wire.ar_stage optional_field]. autorewrite with wire. rewrite E.
    by destruct o, s.
Qed.

#[export] Instance ack_item_agrees_dec i m : Decision (ack_item_agrees i m).
Proof. unfold ack_item_agrees. destruct (abr_outcome i); apply _. Defined.

Lemma ack_item_refused i m w : ~ ack_item_agrees i m -> ack_item_to_wire i m = Ok w -> ack_item_from_wire w = Err InvalidResponse.
Proof.
  unfold ack_item_agrees, ack_item_to_wire, ack_item_from_wire. destruct m as [o s], i as [offset outcome code message].
  cbn [im_outcome im_stage abr_offset abr_outcome abr_code abr_message].
  destruct outcome; intros Ha H; injection H as <-;
    cbn [Wire.ai_outcome Wire.ai_stage Wire.ai_status Wire.ai_offset Wire.ai_code Wire.ai_diagnostic];
    rewrite outcome_from_to_wire, stage_from_to_wire; cbn [ack_status_from_wire].
  - by rewrite bool_decide_eq_false_2.
  - by rewrite bool_decide_eq_false_2.
  - case_bool_decide as Ho; [|done]. destruct code, message; try done. destruct Ha. by split_and!; [|eexists..].
Qed.

Lemma zip_items_refused l k ws :
  ~ Forall2 ack_item_agrees l k -> length l = length k -> zip_items ack_item_to_wire l k = Ok ws ->
  items_from_wire ack_item_from_wire ws = Err InvalidResponse.
Proof.
  revert k ws. induction l as [|a l IH]; intros [|m k] ws Hn Hl H; try done; [by destruct Hn|].
  cbn [zip_items] in H. destruct (ack_item_to_wire a m) as [w|] eqn:Ew; [|done].
  destruct (zip_items ack_item_to_wire l k) as [ws'|] eqn:Ews; [|done]. injection H as <-. cbn [items_from_wire].
  destruct (decide (ack_item_agrees a m)) as [Ha|Ha]; [|by rewrite (ack_item_refused a m w)].
  rewrite (ack_item_wire a m w) by done. rewrite (IH k ws'); [done| |by injection Hl|done]. intros Hf. apply Hn. by constructor.
Qed.

Lemma reply_refused reply response :
  ~ reply_agrees reply -> reply_to_wire reply = Ok response -> reply_from_wire response = Err InvalidResponse.
Proof.
  intros Hn H. unfold reply_to_wire, response_to_wire, reply_agrees in *. destruct (rp_response reply); try (by destruct Hn).
  destruct (batch_items _ _ _) as [ws|] eqn:E; [|done]. injection H as <-. apply batch_items_ok in E as (_ & _ & Hl & E).
  unfold reply_from_wire. cbn [Wire.ar_result ok_or is_batch Wire.ar_outcome Wire.ar_stage response_from_wire andb].
  by rewrite (zip_items_refused _ _ _ Hn Hl E).
Qed.

Definition server_frame_typed (frame : ServerFrame) : bool :=
  match frame with ServerReply reply => response_typed (rp_response reply) | _ => true end.

Definition server_frame_agrees (frame : ServerFrame) : Prop := match frame with ServerReply reply => reply_agrees reply | _ => True end.

Definition canonical_server_frame (frame : ServerFrame) : ServerFrame :=
  match frame with ServerReply reply => ServerReply (canonical_reply reply) | frame => frame end.

Section server.
Context {PS : ProstMessage Wire.ServerFrame} {LS : ProstLaws Wire.ServerFrame}.

Lemma server_frame_roundtrip frame encoded :
  server_frame_typed frame = true -> encode_server_frame frame = Ok encoded ->
  framed encoded MAX_SERVER_TO_CLIENT_FRAME_BYTES
  /\ forall max_bytes, vec_len (frame_body encoded) <= max_bytes ->
     (server_frame_agrees frame -> decode_server_frame (frame_body encoded) max_bytes = Ok (canonical_server_frame frame))
     /\ (~ server_frame_agrees frame -> decode_server_frame (frame_body encoded) max_bytes = Err InvalidResponse).
Proof.
  intros Ht He. unfold encode_server_frame in He. destruct frame as [| |reply]; cbn [server_frame_agrees canonical_server_frame].
  1, 2: split; [by eapply encode_message_framed|]; intros max_bytes Hlen; split; [intros _|by intros []]; unfold decode_server_frame;
    by rewrite (fun t => decode_message_encoded _ _ _ _ _ t He Hlen).
  destruct (reply_to_wire reply) as [response|] eqn:Er; [|done]. split; [by eapply encode_message_framed|].
  intros max_bytes Hlen. cbn [server_frame_typed] in Ht.
  assert (Hd : decode_server_frame (frame_body encoded) max_bytes =
               match reply_from_wire response with Ok reply => Ok (ServerReply reply) | Err e => Err e end).
  { unfold decode_server_frame. rewrite (fun t => decode_message_encoded _ _ _ _ _ t He Hlen); [done|].
    cbn [wire_fields Wire.server_frame_wire Wire.sf_body]. rewrite fields_ok_cons, value_ok_message. by rewrite (reply_wire_typed reply). }
  rewrite Hd. split; intros Ha; [by rewrite (reply_from_to_wire reply)|by rewrite (reply_refused reply)].
Qed.
End server.

(** ** Negotiation *)

Definition range_typed (r : VersionRange) : bool := u32_typed (major r) && u32_typed (min_minor r) && u32_typed (max_minor r).

Definition client_hello_typed (h : ClientHello) : bool :=
  forallb range_typed (versions h) && forallb string_typed (offered_capabilities h) && forallb string_typed (required_capabilities h).

Definition server_hello_typed (h : ServerHello) : bool :=
  match h with
  | HelloAcceptance a => u32_typed (hel_major a) && u32_typed (hel_minor a) && forallb string_typed (hel_capabilities a)
  | HelloRefused _ diagnostic => string_typed diagnostic
  end.

Lemma strings_typed n l : forallb string_typed l = true -> fields_ok (repeated_field VString n l) = true.
Proof. apply fields_ok_repeated. by intros. Qed.

Lemma ranges_typed n l :
  forallb range_typed l = true ->
  fields_ok (repeated_field (fun r => VMessage (Wire.version_range_fields r)) n (range_to_wire <$> l)) = true.
Proof.
  intros H. induction l as [|r l IH]; [done|]. cbn [forallb] in H. unfold range_typed at 1 in H. typed_split. rewrite fmap_cons.
  unfold repeated_field in *. rewrite fmap_cons, fields_ok_cons, IH by done. rewrite value_ok_message. unfold Wire.version_range_fields.
  autorewrite with wire. cbn [Wire.vr_major Wire.vr_min_minor Wire.vr_max_minor range_to_wire]. by typed_rewrite.
Qed.

Lemma to_u32_typed v w : to_u32 v = Ok w -> w = v /\ u32_typed v = true.
Proof. intros [-> H]%to_u32_ok. split; [done|]. by apply N.leb_le. Qed.

Section hello.
Context {PH : ProstMessage Wire.HelloFrame} {LH : ProstLaws Wire.HelloFrame}.

Lemma client_hello_roundtrip hello frame :
  client_hello_typed hello = true -> encode_client_hello hello = Ok frame ->
  framed frame HELLO_MAX_BODY_BYTES /\ decode_client_hello (frame_body frame) = Ok hello.
Proof.
  intros Ht He. unfold encode_client_hello in He. destruct (hello_to_wire hello) as [w|] eqn:Ew; [|done].
  pose proof (encode_message_framed _ _ _ _ He) as (Hf & _). split; [done|]. unfold decode_client_hello.
  unfold client_hello_typed in Ht. typed_split. unfold hello_to_wire in Ew. destruct (to_u32 _) as [outbound|] eqn:E1; [|done].
  destruct (to_u32 (max_inbound_frame_bytes hello)) as [inbound|] eqn:E2; [|done]. apply to_u32_typed in E1 as [-> ?], E2 as [-> ?].
  injection Ew as <-. rewrite (fun t => decode_message_encoded _ _ _ _ _ t He).
  - destruct hello as [v o r c i]. unfold hello_from_wire.
    cbn [Wire.hf_message Wire.ch_versions Wire.ch_offered_capabilities Wire.ch_required_capabilities Wire.ch_max_outbound_frame_bytes
         Wire.ch_max_inbound_frame_bytes versions offered_capabilities required_capabilities max_outbound_frame_bytes max_inbound_frame_bytes].
    do 2 f_equal. rewrite <-list_fmap_compose. etransitivity; [|apply list_fmap_id].
    apply list_fmap_ext. by intros ? [].
  - cbn [wire_fields Wire.hello_frame_wire Wire.hf_message]. unfold Wire.client_hello_fields. autorewrite with wire.
    cbn [Wire.ch_versions Wire.ch_offered_capabilities Wire.ch_required_capabilities Wire.ch_max_outbound_frame_bytes Wire.ch_max_inbound_frame_bytes].
    rewrite ranges_typed, !strings_typed by done. by typed_rewrite.
  - destruct Hf as (_ & _ & Hl). lia.
Qed.

Lemma server_hello_roundtrip hello frame :
  server_hello_typed hello = true -> encode_server_hello hello = Ok frame ->
  framed frame HELLO_MAX_BODY_BYTES /\ decode_server_hello (frame_body frame) = Ok hello.
Proof.
  intros Ht He. unfold encode_server_hello in He. destruct (server_hello_to_wire hello) as [w|] eqn:Ew; [|done].
  pose proof (encode_message_framed _ _ _ _ He) as (Hf & _). split; [done|]. unfold decode_server_hello.
  assert (Hl : vec_len (frame_body frame) <= HELLO_MAX_BODY_BYTES) by (destruct Hf as (_ & _ & Hl); lia).
  destruct hello as [a|code diagnostic]; cbn [server_hello_to_wire server_hello_typed] in *.
  - repeat match type of Ew with context [to_u32 ?v] =>
      let E := fresh "E" in destruct (to_u32 v) eqn:E; [apply to_u32_typed in E as [-> ?]|done] end.
    injection Ew as <-. typed_split. rewrite (fun t => decode_message_encoded _ _ _ _ _ t He Hl); [by destruct a|].
    cbn [wire_fields Wire.hello_frame_wire Wire.hf_message Wire.server_hello_fields]. unfold Wire.hello_accepted_fields. autorewrite with wire.
    cbn [Wire.ha_major Wire.ha_minor Wire.ha_capabilities Wire.ha_max_inbound_frame_bytes Wire.ha_max_outbound_frame_bytes
         Wire.ha_client_to_server_frame_bytes Wire.ha_server_to_client_frame_bytes Wire.ha_auth_required].
    rewrite strings_typed by done. typed_rewrite. by destruct (hel_auth_required a).
  - injection Ew as <-. rewrite (fun t => decode_message_encoded _ _ _ _ _ t He Hl); [by destruct code|].
    cbn [wire_fields Wire.hello_frame_wire Wire.hf_message Wire.server_hello_fields]. autorewrite with wire. typed_rewrite. by destruct code.
Qed.
End hello.
