(* ===== verification/ProtobufDecoder.v ===== *)
(** A decoder of the protobuf wire format for the messages of the protocol. The
    theorems about frames hold for any library that follows the laws of
    [ProstLaws]; the decoder shows that those laws can be met. *)

From S2P Require Import Prelude Engine RecordFormat Protobuf WireMessages Protocol ProtocolRoundtrip.

Local Open Scope N_scope.

(** ** Fields *)

Fixpoint parse_raws (fuel : nat) (l : list byte) : option (list (N * Raw)) :=
  match l with
  | [] => Some []
  | _ :: _ =>
    match fuel with
    | O => None
    | S fuel =>
      match read_varint l with
      | Err _ => None
      | Ok (key, rest) =>
        match read_varint rest with
        | Err _ => None
        | Ok (v, rest) =>
          if N.land key 7 =? 0 then
            fs ← parse_raws fuel rest; Some ((N.shiftr key 3, RVarint v) :: fs)
          else if (N.land key 7 =? 2) && (v <=? vec_len rest) then
            fs ← parse_raws fuel (drop (N.to_nat v) rest); Some ((N.shiftr key 3, RBytes (take (N.to_nat v) rest)) :: fs)
          else None
        end
      end
    end
  end.

Definition parse (l : list byte) : option (list (N * Raw)) := parse_raws (length l) l.

Lemma parse_raws_bytes fuel fs : Forall raw_ok fs -> (length fs <= fuel)%nat -> parse_raws fuel (raws_bytes fs) = Some fs.
Proof.
  intros Hok. revert fuel. induction Hok as [|f fs [Hn Hv] _ IH]; intros fuel Hl; [by destruct fuel|].
  destruct fuel as [|fuel]; cbn in Hl; [lia|]. unfold raws_bytes. cbn [fmap list_fmap concat parse_raws].
  fold (raws_bytes fs). destruct (raw_bytes_head f) as (b & l & Hb). rewrite Hb. cbn [app].
  change (b :: l ++ raws_bytes fs) with ((b :: l) ++ raws_bytes fs). rewrite <-Hb. clear Hb b l.
  destruct f as [n [v|l]]; unfold raw_bytes; cbn [fst snd] in *; rewrite <-!app_assoc;
    rewrite !read_varint_written by (unfold u64_max in *; lia).
  - destruct (key_parts n 0 ltac:(done)) as [H1 H2]. rewrite N.add_0_r in H1, H2. rewrite H1, H2.
    rewrite IH by lia. done.
  - destruct (key_parts n 2 ltac:(done)) as [H1 H2]. rewrite H1, H2. rewrite vec_len_app.
    rewrite (proj2 (N.leb_le _ _)) by lia. change (2 =? 0) with false. change (2 =? 2) with true. cbv [andb].
    unfold vec_len. rewrite Nat2N.id, drop_app_length, take_app_length. rewrite IH by lia. done.
Qed.

(** The numbers of the fields of the schema. *)
Definition numbers_ok (fields : list (N * FieldValue)) : bool := forallb (fun f => (1 <=? f.1) && (f.1 <=? 15)) fields.

Definition raw_fields (fields : list (N * FieldValue)) : list (N * Raw) := map (fun f => (f.1, raw_of f.2)) fields.

Lemma raw_bytes_bound n l fs : (n, RBytes l) ∈ fs -> vec_len l <= vec_len (raws_bytes fs).
Proof.
  induction fs as [|f fs IH]; [by intros ?%not_elem_of_nil|]. unfold raws_bytes. cbn [fmap list_fmap concat]. rewrite vec_len_app.
  intros [<-|Hin]%elem_of_cons; [|apply IH in Hin; unfold raws_bytes in Hin; lia].
  unfold raw_bytes. cbn [fst snd]. rewrite !vec_len_app. lia.
Qed.

Lemma raw_fields_ok fields :
  fields_ok fields = true -> numbers_ok fields = true -> vec_len (message_bytes fields) <= u64_max ->
  Forall raw_ok (raw_fields fields).
Proof.
  intros Hok Hn Hlen. apply Forall_forall. intros [n r] Hin. pose proof Hin as Hb.
  apply list_elem_of_fmap in Hin as ([n' v] & [= -> ->] & Hin). cbn [fst snd] in *.
  unfold fields_ok in Hok. unfold numbers_ok in Hn. rewrite forallb_forall in Hok, Hn.
  apply list_elem_of_In in Hin. pose proof (Hok _ Hin) as Hv. pose proof (Hn _ Hin) as Hn'. cbn [fst snd] in *.
  apply andb_true_iff in Hn' as [H1%N.leb_le H2%N.leb_le]. split; [cbn; lia|]. cbn [snd].
  destruct (raw_of v) as [u|l] eqn:Er.
  - clear Hb. destruct v; cbn in Er, Hv; try done; injection Er as <-.
    + apply N.leb_le in Hv. unfold u32_max, u64_max in *. lia.
    + by apply N.leb_le.
    + destruct b; unfold u64_max; lia.
    + pose proof (Z.mod_pos_bound v (2 ^ 64) ltac:(done)). unfold u64_max. change (2 ^ 64)%Z with 18446744073709551616%Z in *. lia.
  - etransitivity; [eapply raw_bytes_bound, Hb|]. exact Hlen.
Qed.

Lemma parse_message_bytes fields :
  fields_ok fields = true -> numbers_ok fields = true -> vec_len (message_bytes fields) <= u64_max ->
  parse (message_bytes fields) = Some (raw_fields fields).
Proof. intros Hok Hn Hlen. apply parse_raws_bytes; [by apply raw_fields_ok|apply raws_bytes_length]. Qed.

(** ** Values *)

Definition as_string (r : Raw) : option string :=
  match r with RBytes l => if utf8_valid l then Some (of_bytes l) else None | RVarint _ => None end.
Definition as_raw_bytes (r : Raw) : option (list byte) := match r with RBytes l => Some l | RVarint _ => None end.
Definition as_uint (r : Raw) : option N := match r with RVarint v => Some v | RBytes _ => None end.
Definition as_bool (r : Raw) : option bool := match r with RVarint v => Some (negb (v =? 0)) | RBytes _ => None end.
Definition as_enum (r : Raw) : option Z :=
  match r with
  | RVarint v => let w := (Z.of_N v mod 2 ^ 32)%Z in Some (if w <? 2 ^ 31 then w else w - 2 ^ 32)%Z
  | RBytes _ => None
  end.
Definition as_message {A} (decode : list (N * Raw) -> option A) (r : Raw) : option A :=
  match r with RBytes l => fs ← parse l; decode fs | RVarint _ => None end.

(** The values of the field [n]. *)
Definition get_all (n : N) (fs : list (N * Raw)) : list Raw := (filter (fun f => f.1 = n) fs).*2.

(** The last value of a field counts. *)
Definition required {A} (read : Raw -> option A) (default : A) (rs : list Raw) : option A :=
  match last rs with Some r => read r | None => Some default end.
Definition optional {A} (read : Raw -> option A) (rs : list Raw) : option (option A) :=
  match last rs with Some r => Some <$> read r | None => Some None end.

Lemma as_string_of s : string_typed s = true -> as_string (raw_of (VString s)) = Some s.
Proof. intros H. unfold string_typed in H. cbn. by rewrite H, of_bytes_as_bytes. Qed.

Lemma as_enum_of v : value_ok (VEnum v) = true -> as_enum (raw_of (VEnum v)) = Some v.
Proof.
  cbn -[Z.pow Z.modulo]. intros [H1%Z.leb_le H2%Z.ltb_lt]%andb_true_iff. f_equal.
  rewrite Z2N.id by (apply Z.mod_pos_bound; done). rewrite Z.mod_mod_divide by (exists (2 ^ 32)%Z; done).
  change (2 ^ 31)%Z with 2147483648%Z in *. change (2 ^ 32)%Z with 4294967296%Z.
  pose proof (Z.mod_pos_bound v 4294967296 ltac:(done)). pose proof (Z.div_mod v 4294967296 ltac:(done)).
  destruct (Z.ltb_spec (v mod 4294967296) 2147483648); lia.
Qed.

(** ** Reading what was written *)

(** [decode] reads what [fields] writes. *)
Class Decodes {A} (decode : list (N * Raw) -> option A) (fields : A -> list (N * FieldValue)) : Prop := {
  fields_numbered a : numbers_ok (fields a) = true;
  fields_decoded a :
    fields_ok (fields a) = true -> vec_len (message_bytes (fields a)) <= u64_max -> decode (raw_fields (fields a)) = Some a;
}.

Lemma as_message_of {A} decode (fields : A -> list (N * FieldValue)) `{Decodes A decode fields} a :
  fields_ok (fields a) = true -> vec_len (message_bytes (fields a)) <= u64_max ->
  as_message decode (raw_of (VMessage (fields a))) = Some a.
Proof.
  intros Hok Hlen. cbn. change (raws_bytes _) with (message_bytes (fields a)).
  rewrite parse_message_bytes by (done || apply fields_numbered). cbn. by apply fields_decoded.
Qed.

Lemma get_all_app n k l : get_all n (raw_fields (k ++ l)) = get_all n (raw_fields k) ++ get_all n (raw_fields l).
Proof. unfold get_all, raw_fields. by rewrite map_app, filter_app, fmap_app. Qed.

Lemma get_all_cons n m v l : get_all n (raw_fields ((m, v) :: l)) = (if m =? n then [raw_of v] else []) ++ get_all n (raw_fields l).
Proof.
  unfold get_all, raw_fields. cbn [map fst snd]. rewrite filter_cons. cbn [fst].
  destruct (N.eqb_spec m n); [rewrite decide_True by done|rewrite decide_False by done]; done.
Qed.

Lemma message_bytes_app k l : message_bytes (k ++ l) = message_bytes k ++ message_bytes l.
Proof. unfold message_bytes, raws_bytes. by rewrite map_app, fmap_app, concat_app. Qed.

Lemma message_bytes_cons n v l : message_bytes ((n, v) :: l) = raw_bytes (n, raw_of v) ++ message_bytes l.
Proof. done. Qed.

Lemma numbers_ok_app k l : numbers_ok (k ++ l) = numbers_ok k && numbers_ok l.
Proof. apply forallb_app. Qed.

Lemma nested_len n g : vec_len (message_bytes g) <= vec_len (raw_bytes (n, raw_of (VMessage g))).
Proof. unfold raw_bytes. cbn [fst snd raw_of]. rewrite !vec_len_app. change (raws_bytes _) with (message_bytes g). lia. Qed.

(** The fields of other numbers. *)
Section other.
Context (n m : N) (Hnm : (m =? n) = false).

Lemma get_all_string_ne s : get_all n (raw_fields (string_field m s)) = [].
Proof. unfold string_field. case_bool_decide; [done|]. by rewrite get_all_cons, Hnm. Qed.
Lemma get_all_bytes_ne l : get_all n (raw_fields (bytes_field m l)) = [].
Proof. unfold bytes_field. case_bool_decide; [done|]. by rewrite get_all_cons, Hnm. Qed.
Lemma get_all_uint32_ne v : get_all n (raw_fields (uint32_field m v)) = [].
Proof. unfold uint32_field. case_match; [done|]. by rewrite get_all_cons, Hnm. Qed.
Lemma get_all_uint64_ne v : get_all n (raw_fields (uint64_field m v)) = [].
Proof. unfold uint64_field. case_match; [done|]. by rewrite get_all_cons, Hnm. Qed.
Lemma get_all_bool_ne b : get_all n (raw_fields (bool_field m b)) = [].
Proof. unfold bool_field. case_match; [|done]. by rewrite get_all_cons, Hnm. Qed.
Lemma get_all_enum_ne v : get_all n (raw_fields (enum_field m v)) = [].
Proof. unfold enum_field. case_match; [done|]. by rewrite get_all_cons, Hnm. Qed.
Lemma get_all_optional_ne {A} (field : A -> FieldValue) o : get_all n (raw_fields (optional_field field m o)) = [].
Proof. destruct o; cbn [optional_field]; [|done]. by rewrite get_all_cons, Hnm. Qed.
Lemma get_all_repeated_ne {A} (field : A -> FieldValue) l : get_all n (raw_fields (repeated_field field m l)) = [].
Proof.
  induction l as [|a l IH]; [done|]. unfold repeated_field in *. by rewrite fmap_cons, get_all_cons, Hnm, IH.
Qed.
End other.

(** The field itself. *)
Section this.
Context (n : N).

Lemma read_string s :
  fields_ok (string_field n s) = true -> required as_string "" (get_all n (raw_fields (string_field n s))) = Some s.
Proof.
  rewrite fields_ok_string. intros H. unfold string_field. case_bool_decide; [by subst s|].
  rewrite get_all_cons, N.eqb_refl. by apply as_string_of.
Qed.
Lemma read_bytes l : required as_raw_bytes [] (get_all n (raw_fields (bytes_field n l))) = Some l.
Proof. unfold bytes_field. case_bool_decide; [by subst l|]. by rewrite get_all_cons, N.eqb_refl. Qed.
Lemma read_uint32 v : required as_uint 0 (get_all n (raw_fields (uint32_field n v))) = Some v.
Proof. unfold uint32_field. destruct (N.eqb_spec v 0); [by subst v|]. by rewrite get_all_cons, N.eqb_refl. Qed.
Lemma read_uint64 v : required as_uint 0 (get_all n (raw_fields (uint64_field n v))) = Some v.
Proof. unfold uint64_field. destruct (N.eqb_spec v 0); [by subst v|]. by rewrite get_all_cons, N.eqb_refl. Qed.
Lemma read_bool b : required as_bool false (get_all n (raw_fields (bool_field n b))) = Some b.
Proof. unfold bool_field. destruct b; [|done]. by rewrite get_all_cons, N.eqb_refl. Qed.
Lemma read_enum v :
  fields_ok (enum_field n v) = true -> required as_enum 0%Z (get_all n (raw_fields (enum_field n v))) = Some v.
Proof.
  unfold enum_field. destruct (Z.eqb_spec v 0); [by subst v|]. rewrite fields_ok_cons, andb_true_iff. intros [H _].
  rewrite get_all_cons, N.eqb_refl. by apply as_enum_of.
Qed.

Lemma read_optional {A} (field : A -> FieldValue) read o :
  (forall a, value_ok (field a) = true -> vec_len (message_bytes [(n, field a)]) <= u64_max -> read (raw_of (field a)) = Some a) ->
  fields_ok (optional_field field n o) = true -> vec_len (message_bytes (optional_field field n o)) <= u64_max ->
  optional read (get_all n (raw_fields (optional_field field n o))) = Some o.
Proof.
  intros Hr. destruct o as [a|]; [|done]. cbn [optional_field]. rewrite fields_ok_cons, andb_true_iff. intros [H _] Hlen.
  rewrite get_all_cons, N.eqb_refl. cbn. by rewrite Hr.
Qed.

Lemma read_repeated {A} (field : A -> FieldValue) read l :
  (forall a, value_ok (field a) = true -> vec_len (message_bytes [(n, field a)]) <= u64_max -> read (raw_of (field a)) = Some a) ->
  fields_ok (repeated_field field n l) = true -> vec_len (message_bytes (repeated_field field n l)) <= u64_max ->
  mapM read (get_all n (raw_fields (repeated_field field n l))) = Some l.
Proof.
  intros Hr. induction l as [|a l IH]; [done|]. unfold repeated_field in *. rewrite fmap_cons, fields_ok_cons, andb_true_iff.
  intros [H1 H2] Hlen. rewrite message_bytes_cons, vec_len_app in Hlen. rewrite get_all_cons, N.eqb_refl. cbn [app mapM].
  rewrite Hr; [|done|rewrite message_bytes_cons, app_nil_r; lia]. cbn. rewrite IH; [done|done|lia].
Qed.
End this.

Lemma nested_read {A} decode (fields : A -> list (N * FieldValue)) `{Decodes A decode fields} n a :
  value_ok (VMessage (fields a)) = true -> vec_len (message_bytes [(n, VMessage (fields a))]) <= u64_max ->
  as_message decode (raw_of (VMessage (fields a))) = Some a.
Proof.
  rewrite value_ok_message, message_bytes_cons, app_nil_r. intros Hok Hlen. apply (as_message_of decode fields); [done|].
  etransitivity; [apply (nested_len n)|done].
Qed.

Section kinds.
Context (n : N).

Lemma read_optional_string o :
  fields_ok (optional_field VString n o) = true -> vec_len (message_bytes (optional_field VString n o)) <= u64_max ->
  optional as_string (get_all n (raw_fields (optional_field VString n o))) = Some o.
Proof. apply read_optional. intros s Hs _. by apply as_string_of. Qed.
Lemma read_optional_uint32 o :
  fields_ok (optional_field VUint32 n o) = true -> vec_len (message_bytes (optional_field VUint32 n o)) <= u64_max ->
  optional as_uint (get_all n (raw_fields (optional_field VUint32 n o))) = Some o.
Proof. by apply read_optional. Qed.
Lemma read_optional_uint64 o :
  fields_ok (optional_field VUint64 n o) = true -> vec_len (message_bytes (optional_field VUint64 n o)) <= u64_max ->
  optional as_uint (get_all n (raw_fields (optional_field VUint64 n o))) = Some o.
Proof. by apply read_optional. Qed.
Lemma read_optional_bool o :
  fields_ok (optional_field VBool n o) = true -> vec_len (message_bytes (optional_field VBool n o)) <= u64_max ->
  optional as_bool (get_all n (raw_fields (optional_field VBool n o))) = Some o.
Proof. apply read_optional. by intros []. Qed.
Lemma read_optional_enum o :
  fields_ok (optional_field VEnum n o) = true -> vec_len (message_bytes (optional_field VEnum n o)) <= u64_max ->
  optional as_enum (get_all n (raw_fields (optional_field VEnum n o))) = Some o.
Proof. apply read_optional. intros v Hv _. by apply as_enum_of. Qed.
Lemma read_optional_message {A} decode (fields : A -> list (N * FieldValue)) `{Decodes A decode fields} o :
  fields_ok (optional_field (fun a => VMessage (fields a)) n o) = true ->
  vec_len (message_bytes (optional_field (fun a => VMessage (fields a)) n o)) <= u64_max ->
  optional (as_message decode) (get_all n (raw_fields (optional_field (fun a => VMessage (fields a)) n o))) = Some o.
Proof. apply read_optional. intros a. apply (nested_read decode fields). Qed.
Lemma read_repeated_string l :
  fields_ok (repeated_field VString n l) = true -> vec_len (message_bytes (repeated_field VString n l)) <= u64_max ->
  mapM as_string (get_all n (raw_fields (repeated_field VString n l))) = Some l.
Proof. apply read_repeated. intros s Hs _. by apply as_string_of. Qed.
Lemma read_repeated_message {A} decode (fields : A -> list (N * FieldValue)) `{Decodes A decode fields} l :
  fields_ok (repeated_field (fun a => VMessage (fields a)) n l) = true ->
  vec_len (message_bytes (repeated_field (fun a => VMessage (fields a)) n l)) <= u64_max ->
  mapM (as_message decode) (get_all n (raw_fields (repeated_field (fun a => VMessage (fields a)) n l))) = Some l.
Proof. apply read_repeated. intros a. apply (nested_read decode fields). Qed.
End kinds.

(** The numbers of fields are in range. *)
Section numbers.
Context (n : N) (Hn : (1 <=? n) && (n <=? 15) = true).

Lemma numbers_ok_cons v l : numbers_ok ((n, v) :: l) = numbers_ok l.
Proof. unfold numbers_ok. cbn [forallb fst]. by rewrite Hn. Qed.
Lemma numbers_ok_string s : numbers_ok (string_field n s) = true.
Proof. unfold string_field. case_bool_decide; [done|]. by rewrite numbers_ok_cons. Qed.
Lemma numbers_ok_bytes l : numbers_ok (bytes_field n l) = true.
Proof. unfold bytes_field. case_bool_decide; [done|]. by rewrite numbers_ok_cons. Qed.
Lemma numbers_ok_uint32 v : numbers_ok (uint32_field n v) = true.
Proof. unfold uint32_field. case_match; [done|]. by rewrite numbers_ok_cons. Qed.
Lemma numbers_ok_uint64 v : numbers_ok (uint64_field n v) = true.
Proof. unfold uint64_field. case_match; [done|]. by rewrite numbers_ok_cons. Qed.
Lemma numbers_ok_bool b : numbers_ok (bool_field n b) = true.
Proof. unfold bool_field. case_match; [|done]. by rewrite numbers_ok_cons. Qed.
Lemma numbers_ok_enum v : numbers_ok (enum_field n v) = true.
Proof. unfold enum_field. case_match; [done|]. by rewrite numbers_ok_cons. Qed.
Lemma numbers_ok_optional {A} (field : A -> FieldValue) o : numbers_ok (optional_field field n o) = true.
Proof. destruct o; cbn [optional_field]; [|done]. by rewrite numbers_ok_cons. Qed.
Lemma numbers_ok_repeated {A} (field : A -> FieldValue) l : numbers_ok (repeated_field field n l) = true.
Proof. induction l as [|a l IH]; [done|]. unfold repeated_field in *. by rewrite fmap_cons, numbers_ok_cons. Qed.
End numbers.

Create Rewrite HintDb numbers.
#[export] Hint Rewrite numbers_ok_app : numbers.
#[export] Hint Rewrite numbers_ok_cons numbers_ok_string numbers_ok_bytes numbers_ok_uint32 numbers_ok_uint64 numbers_ok_bool numbers_ok_enum @numbers_ok_optional @numbers_ok_repeated using done : numbers.

(** Drops the fields of other numbers. *)
Ltac drop_other :=
  repeat match goal with |- context [get_all ?n (raw_fields (?field ?m ?v))] =>
    first [rewrite (get_all_string_ne n m ltac:(done) v) | rewrite (get_all_bytes_ne n m ltac:(done) v)
          |rewrite (get_all_uint32_ne n m ltac:(done) v) | rewrite (get_all_uint64_ne n m ltac:(done) v)
          |rewrite (get_all_bool_ne n m ltac:(done) v) | rewrite (get_all_enum_ne n m ltac:(done) v)
          |rewrite (get_all_optional_ne n m ltac:(done)) | rewrite (get_all_repeated_ne n m ltac:(done))] end.

(** Reads the fields of a message. *)
Ltac read_fields :=
  rewrite ?fields_ok_app in *; rewrite ?message_bytes_app, ?vec_len_app in *; typed_split; rewrite ?get_all_app; drop_other;
  rewrite ?app_nil_l, ?app_nil_r;
  repeat first [rewrite read_string by done | rewrite read_bytes | rewrite read_uint32 | rewrite read_uint64 | rewrite read_bool
    |rewrite read_enum by done | rewrite read_optional_string by (done || lia) | rewrite read_optional_uint32 by (done || lia)
    |rewrite read_optional_uint64 by (done || lia) | rewrite read_optional_bool by (done || lia)
    |rewrite read_optional_enum by (done || lia) | rewrite read_repeated_string by (done || lia)
    |rewrite (read_optional_message _ _ _) by (done || lia) | rewrite (read_repeated_message _ _ _) by (done || lia)];
  cbn [mbind option_bind].

(** ** Messages *)

Definition decode_version_range (fs : list (N * Raw)) : option Wire.VersionRange :=
  major ← required as_uint 0 (get_all 1 fs); min_minor ← required as_uint 0 (get_all 2 fs);
  max_minor ← required as_uint 0 (get_all 3 fs);
  Some {| Wire.vr_major := major; Wire.vr_min_minor := min_minor; Wire.vr_max_minor := max_minor |}.

#[export] Instance version_range_decodes : Decodes decode_version_range Wire.version_range_fields.
Proof.
  split; intros r; unfold Wire.version_range_fields, decode_version_range; [by autorewrite with numbers|].
  intros Hok Hlen. read_fields. by destruct r.
Qed.

Definition decode_client_hello_message (fs : list (N * Raw)) : option Wire.ClientHello :=
  versions ← mapM (as_message decode_version_range) (get_all 1 fs);
  offered ← mapM as_string (get_all 2 fs); required_names ← mapM as_string (get_all 3 fs);
  outbound ← required as_uint 0 (get_all 4 fs); inbound ← required as_uint 0 (get_all 5 fs);
  Some {| Wire.ch_versions := versions; Wire.ch_offered_capabilities := offered; Wire.ch_required_capabilities := required_names;
          Wire.ch_max_outbound_frame_bytes := outbound; Wire.ch_max_inbound_frame_bytes := inbound |}.

#[export] Instance client_hello_decodes : Decodes decode_client_hello_message Wire.client_hello_fields.
Proof.
  split; intros r; unfold Wire.client_hello_fields, decode_client_hello_message; [by autorewrite with numbers|].
  intros Hok Hlen. read_fields. by destruct r.
Qed.

Definition decode_hello_accepted (fs : list (N * Raw)) : option Wire.HelloAccepted :=
  major ← required as_uint 0 (get_all 1 fs); minor ← required as_uint 0 (get_all 2 fs);
  capabilities ← mapM as_string (get_all 3 fs);
  inbound ← required as_uint 0 (get_all 4 fs); outbound ← required as_uint 0 (get_all 5 fs);
  to_server ← required as_uint 0 (get_all 6 fs); to_client ← required as_uint 0 (get_all 7 fs);
  auth ← optional as_bool (get_all 8 fs);
  Some {| Wire.ha_major := major; Wire.ha_minor := minor; Wire.ha_capabilities := capabilities;
          Wire.ha_max_inbound_frame_bytes := inbound; Wire.ha_max_outbound_frame_bytes := outbound;
          Wire.ha_client_to_server_frame_bytes := to_server; Wire.ha_server_to_client_frame_bytes := to_client;
          Wire.ha_auth_required := auth |}.

#[export] Instance hello_accepted_decodes : Decodes decode_hello_accepted Wire.hello_accepted_fields.
Proof.
  split; intros r; unfold Wire.hello_accepted_fields, decode_hello_accepted; [by autorewrite with numbers|].
  intros Hok Hlen. read_fields. by destruct r.
Qed.

Definition refusal_fields (r : Z * string) : list (N * FieldValue) := enum_field 1 r.1 ++ string_field 2 r.2.

Definition decode_refusal (fs : list (N * Raw)) : option (Z * string) :=
  code ← required as_enum 0%Z (get_all 1 fs); diagnostic ← required as_string "" (get_all 2 fs); Some (code, diagnostic).

#[export] Instance refusal_decodes : Decodes decode_refusal refusal_fields.
Proof.
  split; intros r; unfold refusal_fields, decode_refusal; [by autorewrite with numbers|].
  intros Hok Hlen. read_fields. by destruct r.
Qed.

Definition string_message (s : string) : list (N * FieldValue) := string_field 1 s.

Definition decode_string_message (fs : list (N * Raw)) : option string := required as_string "" (get_all 1 fs).

#[export] Instance string_message_decodes : Decodes decode_string_message string_message.
Proof.
  split; intros r; unfold string_message, decode_string_message; [by autorewrite with numbers|].
  intros Hok Hlen. by read_fields.
Qed.

Definition decode_publish_batch_record (fs : list (N * Raw)) : option Wire.PublishBatchRecord :=
  key ← optional as_string (get_all 1 fs); payload ← required as_raw_bytes [] (get_all 2 fs);
  request_id ← optional as_string (get_all 3 fs);
  Some {| Wire.pr_key := key; Wire.pr_payload := payload; Wire.pr_request_id := request_id |}.

#[export] Instance publish_batch_record_decodes : Decodes decode_publish_batch_record Wire.publish_batch_record_fields.
Proof.
  split; intros r; unfold Wire.publish_batch_record_fields, decode_publish_batch_record; [by autorewrite with numbers|].
  intros Hok Hlen. read_fields. by destruct r.
Qed.

Definition decode_receipt (fs : list (N * Raw)) : option Wire.Receipt :=
  offset ← required as_uint 0 (get_all 1 fs); token ← required as_string "" (get_all 2 fs);
  Some {| Wire.re_offset := offset; Wire.re_delivery_token := token |}.

#[export] Instance receipt_decodes : Decodes decode_receipt Wire.receipt_fields.
Proof.
  split; intros r; unfold Wire.receipt_fields, decode_receipt; [by autorewrite with numbers|].
  intros Hok Hlen. read_fields. by destruct r.
Qed.

Definition decode_publish_item (fs : list (N * Raw)) : option Wire.PublishItemResult :=
  outcome ← required as_enum 0%Z (get_all 1 fs); stage ← required as_enum 0%Z (get_all 2 fs);
  offset ← optional as_uint (get_all 3 fs); code ← optional as_string (get_all 4 fs); diagnostic ← optional as_string (get_all 5 fs);
  Some {| Wire.pi_outcome := outcome; Wire.pi_stage := stage; Wire.pi_offset := offset; Wire.pi_code := code;
          Wire.pi_diagnostic := diagnostic |}.

#[export] Instance publish_item_decodes : Decodes decode_publish_item Wire.publish_item_fields.
Proof.
  split; intros r; unfold Wire.publish_item_fields, decode_publish_item; [by autorewrite with numbers|].
  intros Hok Hlen. read_fields. by destruct r.
Qed.

Definition decode_message_result (fs : list (N * Raw)) : option Wire.MessageResult :=
  stream ← required as_string "" (get_all 1 fs); consumer ← required as_string "" (get_all 2 fs);
  member ← optional as_string (get_all 3 fs); offset ← required as_uint 0 (get_all 4 fs);
  key ← optional as_string (get_all 5 fs); payload ← required as_raw_bytes [] (get_all 6 fs);
  published ← required as_uint 0 (get_all 7 fs); token ← optional as_string (get_all 8 fs); attempt ← optional as_uint (get_all 9 fs);
  Some {| Wire.mr_stream := stream; Wire.mr_consumer := consumer; Wire.mr_member := member; Wire.mr_offset := offset;
          Wire.mr_key := key; Wire.mr_payload := payload; Wire.mr_published_at_ms := published; Wire.mr_delivery_token := token;
          Wire.mr_delivery_attempt := attempt |}.

#[export] Instance message_result_decodes : Decodes decode_message_result Wire.message_fields.
Proof.
  split; intros r; unfold Wire.message_fields, decode_message_result; [by autorewrite with numbers|].
  intros Hok Hlen. read_fields. by destruct r.
Qed.

Definition decode_message_item (fs : list (N * Raw)) : option Wire.MessageItemResult :=
  outcome ← required as_enum 0%Z (get_all 1 fs); stage ← required as_enum 0%Z (get_all 2 fs);
  message ← optional (as_message decode_message_result) (get_all 3 fs);
  Some {| Wire.mi_outcome := outcome; Wire.mi_stage := stage; Wire.mi_message := message |}.

#[export] Instance message_item_decodes : Decodes decode_message_item Wire.message_item_fields.
Proof.
  split; intros r; unfold Wire.message_item_fields, decode_message_item; [by autorewrite with numbers|].
  intros Hok Hlen. read_fields. by destruct r.
Qed.

Definition decode_replay (fs : list (N * Raw)) : option Wire.ReplayResult :=
  stream ← required as_string "" (get_all 1 fs); consumer ← required as_string "" (get_all 2 fs);
  offset ← required as_uint 0 (get_all 3 fs); key ← optional as_string (get_all 4 fs);
  payload ← required as_raw_bytes [] (get_all 5 fs); published ← required as_uint 0 (get_all 6 fs);
  Some {| Wire.rr_stream := stream; Wire.rr_consumer := consumer; Wire.rr_offset := offset; Wire.rr_key := key;
          Wire.rr_payload := payload; Wire.rr_published_at_ms := published |}.

#[export] Instance replay_decodes : Decodes decode_replay Wire.replay_fields.
Proof.
  split; intros r; unfold Wire.replay_fields, decode_replay; [by autorewrite with numbers|].
  intros Hok Hlen. read_fields. by destruct r.
Qed.

Definition decode_ack_item (fs : list (N * Raw)) : option Wire.AckItemResult :=
  offset ← required as_uint 0 (get_all 1 fs); outcome ← required as_enum 0%Z (get_all 2 fs);
  stage ← required as_enum 0%Z (get_all 3 fs); status ← required as_enum 0%Z (get_all 4 fs);
  code ← optional as_string (get_all 5 fs); diagnostic ← optional as_string (get_all 6 fs);
  Some {| Wire.ai_offset := offset; Wire.ai_outcome := outcome; Wire.ai_stage := stage; Wire.ai_status := status;
          Wire.ai_code := code; Wire.ai_diagnostic := diagnostic |}.

#[export] Instance ack_item_decodes : Decodes decode_ack_item Wire.ack_item_fields.
Proof.
  split; intros r; unfold Wire.ack_item_fields, decode_ack_item; [by autorewrite with numbers|].
  intros Hok Hlen. read_fields. by destruct r.
Qed.

Definition decode_operation (n : N) (fs : list (N * Raw)) : option Wire.Operation :=
  stream ← required as_string "" (get_all 1 fs);
  match n with
  | 1 => Some (Wire.OpCreateStream stream)
  | 2 =>
    key ← optional as_string (get_all 2 fs); payload ← required as_raw_bytes [] (get_all 3 fs);
    request_id ← optional as_string (get_all 4 fs); Some (Wire.OpPublish stream key payload request_id)
  | 3 => records ← mapM (as_message decode_publish_batch_record) (get_all 2 fs); Some (Wire.OpPublishBatch stream records)
  | 15 => Some Wire.OpHealth
  | _ =>
    consumer ← required as_string "" (get_all 2 fs);
    match n with
    | 4 => Some (Wire.OpPoll stream consumer)
    | 5 =>
      max_records ← required as_uint 0 (get_all 3 fs); max_bytes ← required as_uint 0 (get_all 4 fs);
      max_wait ← required as_uint 0 (get_all 5 fs); Some (Wire.OpPollBatch stream consumer max_records max_bytes max_wait)
    | 6 => offset ← required as_uint 0 (get_all 3 fs); Some (Wire.OpReplay stream consumer offset)
    | 9 =>
      timeout ← required as_uint 0 (get_all 3 fs); attempts ← optional as_uint (get_all 4 fs);
      delay ← required as_uint 0 (get_all 5 fs); Some (Wire.OpConfigureConsumer stream consumer timeout attempts delay)
    | 10 => Some (Wire.OpInspectConsumer stream consumer)
    | 11 => offset ← required as_uint 0 (get_all 3 fs); Some (Wire.OpAck stream consumer offset)
    | 12 => receipts ← mapM (as_message decode_receipt) (get_all 3 fs); Some (Wire.OpAckBatch stream consumer receipts)
    | _ =>
      member ← required as_string "" (get_all 3 fs);
      match n with
      | 7 => Some (Wire.OpPollGroup stream consumer member)
      | 8 =>
        max_records ← required as_uint 0 (get_all 4 fs); max_bytes ← required as_uint 0 (get_all 5 fs);
        max_wait ← required as_uint 0 (get_all 6 fs); Some (Wire.OpPollGroupBatch stream consumer member max_records max_bytes max_wait)
      | 13 =>
        offset ← required as_uint 0 (get_all 4 fs); token ← required as_string "" (get_all 5 fs);
        Some (Wire.OpAckGroup stream consumer member offset token)
      | 14 => receipts ← mapM (as_message decode_receipt) (get_all 4 fs); Some (Wire.OpAckGroupBatch stream consumer member receipts)
      | _ => None
      end
    end
  end.

Lemma operation_numbered op :
  (1 <=? (Wire.operation_fields op).1) && ((Wire.operation_fields op).1 <=? 15) = true /\ numbers_ok (Wire.operation_fields op).2 = true.
Proof. destruct op; cbn [Wire.operation_fields fst snd]; (split; [done|by autorewrite with numbers]). Qed.

Lemma operation_decoded op :
  fields_ok (Wire.operation_fields op).2 = true -> vec_len (message_bytes (Wire.operation_fields op).2) <= u64_max ->
  decode_operation (Wire.operation_fields op).1 (raw_fields (Wire.operation_fields op).2) = Some op.
Proof.
  destruct op; cbn [Wire.operation_fields fst snd]; unfold decode_operation; intros Hok Hlen; [..|done]; by read_fields.
Qed.

(** A message with one field, whose number says how to read it. *)
Lemma as_oneof_of {A} (decode : N -> list (N * Raw) -> option A) n g a :
  numbers_ok g = true ->
  (fields_ok g = true -> vec_len (message_bytes g) <= u64_max -> decode n (raw_fields g) = Some a) ->
  value_ok (VMessage g) = true -> vec_len (message_bytes [(n, VMessage g)]) <= u64_max ->
  as_message (decode n) (raw_of (VMessage g)) = Some a.
Proof.
  rewrite value_ok_message, message_bytes_cons, app_nil_r. intros Hn Hd Hok Hlen. pose proof (nested_len n g).
  cbn. change (raws_bytes _) with (message_bytes g). rewrite parse_message_bytes by (done || lia). cbn. apply Hd; [done|lia].
Qed.

Definition application_fields (o : option Wire.Operation) : list (N * FieldValue) :=
  match o with Some op => Wire.oneof_field (Wire.operation_fields op) | None => [] end.

Definition decode_application (fs : list (N * Raw)) : option (option Wire.Operation) :=
  match last fs with
  | Some (n, r) => op ← as_message (decode_operation n) r; Some (Some op)
  | None => Some None
  end.

#[export] Instance application_decodes : Decodes decode_application application_fields.
Proof.
  split; intros [op|]; try done; unfold application_fields, Wire.oneof_field.
  - rewrite numbers_ok_cons by apply operation_numbered. done.
  - rewrite fields_ok_cons, andb_true_iff. intros [Hok _] Hlen. cbn [raw_fields map fst snd decode_application last].
    rewrite (as_oneof_of decode_operation _ _ op); [done|apply operation_numbered|apply operation_decoded|done|done].
Qed.

Definition decode_result (n : N) (fs : list (N * Raw)) : option Wire.ResultBody :=
  match n with
  | 3 => stream ← required as_string "" (get_all 1 fs); created ← required as_bool false (get_all 2 fs);
         Some (Wire.StreamCreatedResult stream created)
  | 4 => stream ← required as_string "" (get_all 1 fs); offset ← required as_uint 0 (get_all 2 fs);
         Some (Wire.PublishedResult stream offset)
  | 5 => stream ← required as_string "" (get_all 1 fs); items ← mapM (as_message decode_publish_item) (get_all 2 fs);
         Some (Wire.PublishBatchResult stream items)
  | 6 => stream ← required as_string "" (get_all 1 fs); consumer ← required as_string "" (get_all 2 fs);
         items ← mapM (as_message decode_message_item) (get_all 3 fs); Some (Wire.PollBatchResult stream consumer items)
  | 7 => message ← decode_message_result fs; Some (Wire.MessageResultBody message)
  | 8 => replay ← decode_replay fs; Some (Wire.ReplayResultBody replay)
  | 9 => stream ← required as_string "" (get_all 1 fs); consumer ← required as_string "" (get_all 2 fs);
         Some (Wire.EmptyResult stream consumer)
  | 10 => stream ← required as_string "" (get_all 1 fs); consumer ← required as_string "" (get_all 2 fs);
          offset ← required as_uint 0 (get_all 3 fs); already ← required as_bool false (get_all 4 fs);
          Some (Wire.AcknowledgedResult stream consumer offset already)
  | 11 => stream ← required as_string "" (get_all 1 fs); consumer ← required as_string "" (get_all 2 fs);
          items ← mapM (as_message decode_ack_item) (get_all 3 fs); Some (Wire.AckBatchResult stream consumer items)
  | 12 => stream ← required as_string "" (get_all 1 fs); consumer ← required as_string "" (get_all 2 fs);
          version ← required as_uint 0 (get_all 3 fs); configured ← required as_bool false (get_all 4 fs);
          timeout ← required as_uint 0 (get_all 5 fs); attempts ← optional as_uint (get_all 6 fs);
          delay ← required as_uint 0 (get_all 7 fs);
          Some (Wire.ConsumerPolicyResult stream consumer version configured timeout attempts delay)
  | 13 => status ← required as_string "" (get_all 1 fs); streams ← required as_uint 0 (get_all 2 fs);
          bytes ← required as_uint 0 (get_all 3 fs); Some (Wire.HealthResult status streams bytes)
  | 14 => code ← required as_string "" (get_all 1 fs); diagnostic ← required as_string "" (get_all 2 fs);
          Some (Wire.ErrorResult code diagnostic)
  | _ => None
  end.

Lemma result_numbered r :
  (3 <=? (Wire.result_fields r).1) && ((Wire.result_fields r).1 <=? 14) = true /\ numbers_ok (Wire.result_fields r).2 = true.
Proof.
  destruct r; cbn [Wire.result_fields fst snd]; (split; [done|]); try (by autorewrite with numbers); apply fields_numbered.
Qed.

Lemma result_decoded r :
  fields_ok (Wire.result_fields r).2 = true -> vec_len (message_bytes (Wire.result_fields r).2) <= u64_max ->
  decode_result (Wire.result_fields r).1 (raw_fields (Wire.result_fields r).2) = Some r.
Proof.
  destruct r; cbn [Wire.result_fields fst snd]; unfold decode_result; intros Hok Hlen; try (by read_fields);
    rewrite fields_decoded by done; done.
Qed.

(** The fields of the result are those from 3 on. *)
Definition get_result (fs : list (N * Raw)) : option (N * Raw) := last (filter (fun f => 3 <= f.1) fs).

Definition decode_application_response (fs : list (N * Raw)) : option Wire.ApplicationResponse :=
  outcome ← optional as_enum (get_all 1 fs); stage ← optional as_enum (get_all 2 fs);
  match get_result fs with
  | Some (n, r) =>
    result ← as_message (decode_result n) r;
    Some {| Wire.ar_outcome := outcome; Wire.ar_stage := stage; Wire.ar_result := Some result |}
  | None => Some {| Wire.ar_outcome := outcome; Wire.ar_stage := stage; Wire.ar_result := None |}
  end.

Lemma get_result_of o1 o2 l :
  Forall (fun f => 3 <= f.1) l ->
  get_result (raw_fields (optional_field VEnum 1 o1 ++ optional_field VEnum 2 o2 ++ l)) = last (raw_fields l).
Proof.
  intros Hl. unfold get_result. unfold raw_fields. rewrite !map_app, !filter_app.
  assert (Hn : forall (n : N) (o : option Z), n < 3 -> filter (fun f : N * Raw => 3 <= f.1)
      (map (fun f => (f.1, raw_of f.2)) (optional_field VEnum n o)) = []).
  { intros n [v|] Hn; [|done]. cbn [optional_field map]. rewrite filter_cons_False by (cbn; lia). done. }
  rewrite !Hn by lia. cbn [app]. f_equal. induction Hl as [|f l Hf _ IH]; [done|].
  cbn [map]. rewrite filter_cons_True by done. by rewrite IH.
Qed.

#[export] Instance application_response_decodes : Decodes decode_application_response Wire.application_response_fields.
Proof.
  split; intros [outcome stage result]; unfold Wire.application_response_fields, Wire.oneof_field; cbn [Wire.ar_outcome Wire.ar_stage Wire.ar_result].
  - autorewrite with numbers. destruct result as [result|]; [|done]. rewrite numbers_ok_cons; [done|].
    destruct (result_numbered result) as [[H1%N.leb_le H2%N.leb_le]%andb_true_iff _]. apply andb_true_iff. rewrite !N.leb_le. lia.
  - intros Hok Hlen. unfold decode_application_response. destruct result as [result|].
    + destruct (result_numbered result) as [[H1%N.leb_le H2%N.leb_le]%andb_true_iff Hn].
      rewrite get_result_of by (repeat constructor; done). rewrite !get_all_app, !get_all_cons.
      rewrite !(proj2 (N.eqb_neq _ _)) by lia. rewrite fields_ok_app, fields_ok_app, fields_ok_cons in Hok.
      rewrite !message_bytes_app, !vec_len_app in Hlen. typed_split. drop_other. rewrite ?app_nil_l, ?app_nil_r.
      rewrite !read_optional_enum by (done || lia). cbn [mbind option_bind raw_fields map last fst snd].
      rewrite (as_oneof_of decode_result _ _ result); [done|done|apply result_decoded|done|lia].
    + rewrite get_result_of by constructor. rewrite app_nil_r in *. by read_fields.
Qed.

(** ** Frames *)

Definition server_hello_decode (fs : list (N * Raw)) : option (option Wire.ServerHelloResult) :=
  match last fs with
  | None => Some None
  | Some (1, r) => accepted ← as_message decode_hello_accepted r; Some (Some (Wire.Accepted accepted))
  | Some (2, r) => refusal ← as_message decode_refusal r; Some (Some (Wire.Refusal refusal.1 refusal.2))
  | Some _ => None
  end.

Definition decode_hello_frame (fs : list (N * Raw)) : option Wire.HelloFrame :=
  match last fs with
  | None => Some {| Wire.hf_message := None |}
  | Some (1, r) =>
    hello ← as_message decode_client_hello_message r; Some {| Wire.hf_message := Some (Wire.HelloClient hello) |}
  | Some (2, r) =>
    result ← as_message server_hello_decode r;
    Some {| Wire.hf_message := Some (Wire.HelloServer result) |}
  | Some _ => None
  end.

Definition decode_client_frame_message (fs : list (N * Raw)) : option Wire.ClientFrame :=
  match last fs with
  | None => Some {| Wire.cf_body := None |}
  | Some (1, r) => token ← as_message decode_string_message r; Some {| Wire.cf_body := Some (Wire.BearerAuth token) |}
  | Some (2, r) =>
    operation ← as_message decode_application r; Some {| Wire.cf_body := Some (Wire.ClientApplication operation) |}
  | Some _ => None
  end.

Definition decode_server_frame_message (fs : list (N * Raw)) : option Wire.ServerFrame :=
  match last fs with
  | None => Some {| Wire.sf_body := None |}
  | Some (1, RBytes _) => Some {| Wire.sf_body := Some Wire.Authenticated |}
  | Some (2, RBytes _) => Some {| Wire.sf_body := Some Wire.AuthenticationFailed |}
  | Some (3, r) =>
    response ← as_message decode_application_response r; Some {| Wire.sf_body := Some (Wire.ServerApplication response) |}
  | Some _ => None
  end.

#[export] Instance server_hello_decodes : Decodes server_hello_decode Wire.server_hello_fields.
Proof.
  split; intros [[accepted|code diagnostic]|]; try done; cbn [Wire.server_hello_fields]; rewrite fields_ok_cons, andb_true_iff;
    intros [Hok _] Hlen; cbn [server_hello_decode raw_fields map last fst snd].
  - by rewrite (nested_read decode_hello_accepted Wire.hello_accepted_fields 1).
  - change (enum_field 1 code ++ string_field 2 diagnostic) with (refusal_fields (code, diagnostic)).
    by rewrite (nested_read decode_refusal refusal_fields 2).
Qed.

#[export] Instance hello_frame_decodes : Decodes decode_hello_frame (wire_fields (M := Wire.HelloFrame)).
Proof.
  split; intros [[[hello|result]|]]; try done; cbn [wire_fields Wire.hello_frame_wire Wire.hf_message]; rewrite fields_ok_cons, andb_true_iff;
    intros [Hok _] Hlen; cbn [decode_hello_frame raw_fields map last fst snd].
  - by rewrite (nested_read decode_client_hello_message Wire.client_hello_fields 1).
  - by rewrite (nested_read server_hello_decode Wire.server_hello_fields 2).
Qed.

#[export] Instance client_frame_decodes : Decodes decode_client_frame_message (wire_fields (M := Wire.ClientFrame)).
Proof.
  split; intros [[[token|operation]|]]; try done; cbn [wire_fields Wire.client_frame_wire Wire.cf_body]; rewrite fields_ok_cons, andb_true_iff;
    intros [Hok _] Hlen; cbn [decode_client_frame_message raw_fields map last fst snd].
  - change (string_field 1 token) with (string_message token). by rewrite (nested_read decode_string_message string_message 1).
  - change (match operation with Some op => _ | None => _ end) with (application_fields operation).
    by rewrite (nested_read decode_application application_fields 2).
Qed.

#[export] Instance server_frame_decodes : Decodes decode_server_frame_message (wire_fields (M := Wire.ServerFrame)).
Proof.
  split; intros [[[| |response]|]]; try done; cbn [wire_fields Wire.server_frame_wire Wire.sf_body]; rewrite fields_ok_cons, andb_true_iff;
    intros [Hok _] Hlen; cbn [decode_server_frame_message raw_fields map last fst snd].
  by rewrite (nested_read decode_application_response Wire.application_response_fields 3).
Qed.

(** ** The laws *)

Definition prost_of {M} `{WireMessage M} (decode : list (N * Raw) -> option M) : ProstMessage M :=
  {| prost_encode m := message_bytes (wire_fields m); prost_decode l := fs ← parse l; decode fs |}.

Lemma prost_of_laws {M} {W : WireMessage M} decode (HD : Decodes decode (wire_fields (M := M))) :
  ProstLaws M (P := prost_of decode).
Proof.
  split; [done|]. intros m Hok Hlen. cbn [prost_encode prost_decode prost_of] in *. assert (u32_max <= u64_max) by (vm_compute; discriminate).
  rewrite parse_message_bytes; [|done|apply fields_numbered|lia]. cbn [mbind option_bind]. apply fields_decoded; [done|lia].
Qed.

#[export] Instance hello_frame_prost : ProstMessage Wire.HelloFrame := prost_of decode_hello_frame.
#[export] Instance client_frame_prost : ProstMessage Wire.ClientFrame := prost_of decode_client_frame_message.
#[export] Instance server_frame_prost : ProstMessage Wire.ServerFrame := prost_of decode_server_frame_message.

#[export] Instance hello_frame_laws : ProstLaws Wire.HelloFrame.
Proof. apply prost_of_laws, _. Qed.
#[export] Instance client_frame_laws : ProstLaws Wire.ClientFrame.
Proof. apply prost_of_laws, _. Qed.
#[export] Instance server_frame_laws : ProstLaws Wire.ServerFrame.
Proof. apply prost_of_laws, _. Qed.
