(* ===== verification/ProtocolGuarantees.v ===== *)
(** What the protocol of crates/runnel-protocol promises to both sides: a frame is
    read as what was written, and a frame that is not written has a reason. *)

From S2P Require Import Prelude Engine RecordFormat Protobuf WireMessages Protocol ProtocolRoundtrip ProtobufDecoder.

Local Open Scope N_scope.

(** ** Frames that are written *)

Section message.
Context {M : Type} {W : WireMessage M} {P : ProstMessage M} {L : ProstLaws M}.

(** A message that is not empty is written unless it is too long. *)
Lemma encode_message_cases (m : M) max_bytes secret :
  message_bytes (wire_fields m) <> [] -> max_bytes <= u32_max ->
  (exists frame, encode_message m max_bytes secret = Ok frame) \/
  (encode_message m max_bytes secret = Err FrameTooLarge /\ max_bytes < vec_len (message_bytes (wire_fields m))).
Proof.
  intros Hne Hmax. destruct (N.le_gt_cases (vec_len (message_bytes (wire_fields m))) max_bytes) as [Hle|Hgt].
  - left. apply encode_message_ok; [done|lia].
  - right. split; [|done]. unfold encode_message. rewrite prost_encode_fields.
    rewrite (proj2 (N.ltb_lt _ _) Hgt). by rewrite orb_true_r.
Qed.
End message.

Lemma one_field_nonempty n v : message_bytes [(n, v)] <> [].
Proof.
  rewrite message_bytes_cons. destruct (raw_bytes_head (n, raw_of v)) as (b & l & ->). done.
Qed.

(** The numbers of a request that travel in fewer bits than they have. *)
Definition request_fits (r : Request) : Prop :=
  match r with
  | RqPollBatch _ _ max_records max_bytes _ | RqPollGroupBatch _ _ _ max_records max_bytes _ =>
    max_records <= u32_max /\ max_bytes <= u32_max
  | _ => True
  end.

Lemma request_to_wire_cases r :
  (request_fits r /\ exists op, request_to_wire r = Ok op) \/ (~ request_fits r /\ request_to_wire r = Err InvalidHello).
Proof.
  destruct r; cbn; try (left; split; [done|by eexists]); unfold to_u32;
    destruct (N.leb_spec max_records u32_max), (N.leb_spec max_bytes u32_max); cbn; try (left; split; [done|by eexists]); right;
    (split; [lia|done]).
Qed.

(** ** Replies that are consistent *)

Definition publish_item_consistent (i : PublishBatchRecordResponse) (m : ItemMetadata) : Prop :=
  match i with
  | RecordPublished _ => im_outcome m = OutcomeConfirmed
  | RecordError _ _ => im_outcome m <> OutcomeConfirmed
  end.

Definition message_item_consistent (i : BatchMessageResponse) (m : ItemMetadata) : Prop := im_outcome m = OutcomeConfirmed.
Definition ack_item_consistent (i : AckBatchItemResponse) (m : ItemMetadata) : Prop := True.

(** A batch has an outcome and a stage for each item and none of its own; any
    other reply has its own and no items. *)
Definition batch_consistent {A} (consistent : A -> ItemMetadata -> Prop) (r : ApplicationReply) (l : list A) : Prop :=
  rp_outcome r = None /\ rp_stage r = None /\ Forall2 consistent l (rp_items r).

Definition reply_consistent (r : ApplicationReply) : Prop :=
  match rp_response r with
  | RsPublishBatch _ outcomes => batch_consistent publish_item_consistent r outcomes
  | RsPollBatch _ _ messages => batch_consistent message_item_consistent r messages
  | RsAckBatch _ _ outcomes => batch_consistent ack_item_consistent r outcomes
  | _ => rp_items r = [] /\ is_Some (rp_outcome r) /\ is_Some (rp_stage r)
  end.

Section items.
Context {A B : Type} (to_wire : A -> ItemMetadata -> Result B V2ProtocolError) (consistent : A -> ItemMetadata -> Prop).
Context (Hcases : forall a m, (consistent a m /\ exists w, to_wire a m = Ok w) \/ (~ consistent a m /\ to_wire a m = Err InvalidResponse)).

Lemma zip_items_cases l k :
  length l = length k ->
  (Forall2 consistent l k /\ exists ws, zip_items to_wire l k = Ok ws) \/
  (~ Forall2 consistent l k /\ zip_items to_wire l k = Err InvalidResponse).
Proof.
  revert k. induction l as [|a l IH]; intros [|m k] Hl; try done; [left; split; [constructor|by eexists]|]. cbn [zip_items].
  destruct (Hcases a m) as [[Hc [w ->]]|[Hc ->]]; [|right; split; [|done]; by inversion 1].
  destruct (IH k) as [[Hf [ws ->]]|[Hf ->]]; [by injection Hl|left; split; [by constructor|by eexists]|].
  right. split; [|done]. by inversion 1.
Qed.

Lemma batch_items_cases reply l :
  (batch_consistent consistent reply l /\ exists ws, batch_items reply to_wire l = Ok ws) \/
  (~ batch_consistent consistent reply l /\ batch_items reply to_wire l = Err InvalidResponse).
Proof.
  unfold batch_items, batch_consistent.
  destruct (rp_outcome reply); [right; split; [naive_solver|done]|].
  destruct (rp_stage reply); [right; split; [naive_solver|done]|].
  rewrite !bool_decide_eq_false_2 by (by intros [? ?]). cbn [orb].
  destruct (Nat.eqb_spec (length (rp_items reply)) (length l)) as [Hl|Hl]; cbn [negb].
  - destruct (zip_items_cases l (rp_items reply)) as [[Hf Hw]|[Hf Hw]]; [done|by left|right; split; [naive_solver|done]].
  - right. split; [|done]. intros (_ & _ & Hf%Forall2_length). done.
Qed.
End items.

Lemma publish_item_cases i m :
  (publish_item_consistent i m /\ exists w, publish_item_to_wire i m = Ok w) \/
  (~ publish_item_consistent i m /\ publish_item_to_wire i m = Err InvalidResponse).
Proof.
  unfold publish_item_to_wire, publish_item_consistent. destruct i; case_bool_decide; try (left; split; [naive_solver|by eexists]); right;
    (split; [naive_solver|done]).
Qed.

Lemma message_item_cases i m :
  (message_item_consistent i m /\ exists w, message_item_to_wire i m = Ok w) \/
  (~ message_item_consistent i m /\ message_item_to_wire i m = Err InvalidResponse).
Proof.
  unfold message_item_to_wire, message_item_consistent. case_bool_decide; [right; by split|left; split; [naive_solver|by eexists]].
Qed.

Lemma ack_item_cases i m :
  (ack_item_consistent i m /\ exists w, ack_item_to_wire i m = Ok w) \/
  (~ ack_item_consistent i m /\ ack_item_to_wire i m = Err InvalidResponse).
Proof. left. split; [done|]. unfold ack_item_to_wire. destruct (abr_outcome i); by eexists. Qed.

Lemma reply_to_wire_cases r :
  (reply_consistent r /\ exists w, reply_to_wire r = Ok w) \/ (~ reply_consistent r /\ reply_to_wire r = Err InvalidResponse).
Proof.
  unfold reply_to_wire, response_to_wire, reply_consistent.
  destruct (rp_response r) as [| |stream outcomes|stream consumer messages| | | | |stream consumer outcomes| | |].
  3: destruct (batch_items_cases _ _ publish_item_cases r outcomes) as [[Hc [ws ->]]|[Hc ->]]; [left; split; [done|by eexists]|by right].
  3: destruct (batch_items_cases _ _ message_item_cases r messages) as [[Hc [ws ->]]|[Hc ->]]; [left; split; [done|by eexists]|by right].
  7: destruct (batch_items_cases _ _ ack_item_cases r outcomes) as [[Hc [ws ->]]|[Hc ->]]; [left; split; [done|by eexists]|by right].
  all: case_bool_decide; cbn [negb]; [|right; split; [naive_solver|done]];
    destruct (rp_outcome r); [|right; split; [intros (_ & [? ?] & _); done|done]];
    destruct (rp_stage r); [|right; split; [intros (_ & _ & [? ?]); done|done]];
    left; (split; [|by eexists]); split_and!; [done|by eexists..].
Qed.

(** ** Both directions *)

(** Why a client frame is not written. *)
Definition client_frame_refused (frame : ClientFrame) (e : V2ProtocolError) : Prop :=
  (e = InvalidHello /\ exists r, frame = ClientRequest r /\ ~ request_fits r) \/
  (e = FrameTooLarge /\ exists m, client_frame_to_wire frame = Ok m /\
     client_frame_limit frame < vec_len (message_bytes (wire_fields m))).

Definition server_frame_to_wire (frame : ServerFrame) : Result Wire.ServerFrame V2ProtocolError :=
  match frame with
  | ServerAuthenticated => Ok {| Wire.sf_body := Some Wire.Authenticated |}
  | ServerAuthenticationFailed => Ok {| Wire.sf_body := Some Wire.AuthenticationFailed |}
  | ServerReply reply =>
    let? response := reply_to_wire reply in Ok {| Wire.sf_body := Some (Wire.ServerApplication response) |}
  end.

Definition server_frame_refused (frame : ServerFrame) (e : V2ProtocolError) : Prop :=
  (e = InvalidResponse /\ exists r, frame = ServerReply r /\ ~ reply_consistent r) \/
  (e = FrameTooLarge /\ exists m, server_frame_to_wire frame = Ok m /\
     MAX_SERVER_TO_CLIENT_FRAME_BYTES < vec_len (message_bytes (wire_fields m))).

Lemma client_frame_refusal {PC : ProstMessage Wire.ClientFrame} {LC : ProstLaws Wire.ClientFrame} frame e :
  encode_client_frame frame = Err e -> client_frame_refused frame e.
Proof.
  intros He. rewrite encode_client_frame_wire in He. unfold client_frame_refused.
  assert (Hlim : client_frame_limit frame <= u32_max) by (by destruct frame).
  destruct (client_frame_to_wire frame) as [m|e'] eqn:Em.
  - right. destruct (encode_message_cases m (client_frame_limit frame) (bool_decide (kind_of_frame frame = KindBearerAuth)))
      as [[f Hf]|[Hf Hlen]]; [|done| |].
    + destruct frame as [token|request]; cbn in Em; [|destruct (request_to_wire request); [|done]]; injection Em as <-;
        apply one_field_nonempty.
    + congruence.
    + rewrite Hf in He. injection He as <-. eauto.
  - left. destruct frame as [token|request]; [done|]. cbn in Em.
    destruct (request_to_wire_cases request) as [[_ [op Hop]]|[Hn Hop]]; rewrite Hop in Em; [done|].
    injection He as <-. injection Em as <-. eauto.
Qed.

Lemma server_frame_refusal {PS : ProstMessage Wire.ServerFrame} {LS : ProstLaws Wire.ServerFrame} frame e :
  encode_server_frame frame = Err e -> server_frame_refused frame e.
Proof.
  intros He. unfold server_frame_refused.
  assert (Hw : encode_server_frame frame = match server_frame_to_wire frame with
    | Ok m => encode_message m MAX_SERVER_TO_CLIENT_FRAME_BYTES false | Err e => Err e end).
  { unfold encode_server_frame, server_frame_to_wire. destruct frame as [| |reply]; [done..|]. by destruct (reply_to_wire reply). }
  rewrite Hw in He. clear Hw. destruct (server_frame_to_wire frame) as [m|e'] eqn:Em.
  - right. destruct (encode_message_cases m MAX_SERVER_TO_CLIENT_FRAME_BYTES false) as [[f Hf]|[Hf Hlen]]; [|done| |].
    + destruct frame as [| |reply]; cbn in Em; [| |destruct (reply_to_wire reply); [|done]]; injection Em as <-;
        apply one_field_nonempty.
    + congruence.
    + rewrite Hf in He. injection He as <-. eauto.
  - left. destruct frame as [| |reply]; [done..|]. cbn in Em.
    destruct (reply_to_wire_cases reply) as [[_ [w Hop]]|[Hn Hop]]; rewrite Hop in Em; [done|].
    injection He as <-. injection Em as <-. eauto.
Qed.

(** C40: Both directions of the protocol round trip. A client frame is refused only for
    a batch limit beyond 32 bits or a body over the limit of its kind; otherwise
    its four length bytes and body are written, the server tells its kind from the
    undecoded body, and decodes it to the same frame, where a publication of text
    has become one of bytes. A server frame is refused only when a reply's outcomes
    do not fit its items or its body is too long; otherwise the client decodes it
    to the same frame, where a payload is text exactly when it is UTF-8. The one
    reply the server writes and the client rejects is an acknowledgement batch
    whose results disagree with their outcomes or lack their reasons. *)
Theorem frames_round_trip {PC : ProstMessage Wire.ClientFrame} {LC : ProstLaws Wire.ClientFrame} {PS : ProstMessage Wire.ServerFrame} {LS : ProstLaws Wire.ServerFrame} request reply :
  client_frame_typed request = true -> server_frame_typed reply = true ->
  match encode_client_frame request with
  | Err e => client_frame_refused request e
  | Ok encoded => framed encoded (client_frame_limit request) /\
      client_frame_kind (frame_body encoded) = Ok (kind_of_frame request) /\
      forall max_bytes, vec_len (frame_body encoded) <= max_bytes ->
        decode_client_frame (frame_body encoded) max_bytes = Ok (canonical_client_frame request)
  end /\
  match encode_server_frame reply with
  | Err e => server_frame_refused reply e
  | Ok encoded => framed encoded MAX_SERVER_TO_CLIENT_FRAME_BYTES /\
      forall max_bytes, vec_len (frame_body encoded) <= max_bytes ->
        (server_frame_agrees reply -> decode_server_frame (frame_body encoded) max_bytes = Ok (canonical_server_frame reply)) /\
        (~ server_frame_agrees reply -> decode_server_frame (frame_body encoded) max_bytes = Err InvalidResponse)
  end.
Proof.
  intros Hc Hs. split.
  - destruct (encode_client_frame request) eqn:E; [by apply client_frame_roundtrip|by apply client_frame_refusal].
  - destruct (encode_server_frame reply) eqn:E; [by apply server_frame_roundtrip|by apply server_frame_refusal].
Qed.

Definition example_request : ClientFrame := ClientRequest (RqPublish "orders" (Some "eu") "hello" None).

Definition example_reply : ServerFrame :=
  ServerReply (reply_confirmed (RsMessage {| mf_stream := "orders"; mf_consumer := "billing"; mf_member := None; mf_offset := 3;
    mf_key := Some "eu"; mf_published_at_ms := 5; mf_delivery_token := Some "t"; mf_delivery_attempt := Some 1 |} (Text "hello")) false).

Lemma frames_round_trip_witness :
  exists sent answered, encode_client_frame example_request = Ok sent /\ encode_server_frame example_reply = Ok answered /\
    decode_client_frame (frame_body sent) 1000 = Ok (ClientRequest (RqPublishBytes "orders" (Some "eu") (as_bytes "hello") None)) /\
    decode_server_frame (frame_body answered) 1000 = Ok example_reply.
Proof.
  destruct (frames_round_trip example_request example_reply) as [Hc Hs]; [vm_compute; reflexivity|vm_compute; reflexivity|].
  eexists _, _. split; [vm_compute; reflexivity|]. split; [vm_compute; reflexivity|]. split.
  - destruct (encode_client_frame example_request) as [sent|] eqn:E; [|by vm_compute in E].
    destruct Hc as (_ & _ & Hd). vm_compute in E. injection E as <-. apply Hd. vm_compute. discriminate.
  - destruct (encode_server_frame example_reply) as [answered|] eqn:E; [|by vm_compute in E].
    destruct Hs as (_ & Hd). vm_compute in E. injection E as <-. apply Hd; [vm_compute; discriminate|exact I].
Defined.
