(* ===== verification/ProtocolSizes.v ===== *)
(** Sizes of encoded responses, against the estimates of
    crates/runnel-engine/src/lib.rs by which engines decide whether a delivery
    fits a response. The estimate of a single delivery is a bound; the one of a
    batch is short by at most six bytes, and it is short in an ordinary case. *)

From S2P Require Import Prelude Engine RecordFormat Protobuf WireMessages Protocol ProtocolRoundtrip.

Local Open Scope N_scope.

Definition fields_size (fields : list (N * FieldValue)) : N := vec_len (message_bytes fields).

(** The size of a string of bytes of length [n] with its key and its length. *)
Definition delimited (n : N) : N := 1 + protobuf_varint_len n + n.

Lemma fields_size_nil : fields_size [] = 0.
Proof. done. Qed.

Lemma fields_size_app k l : fields_size (k ++ l) = fields_size k + fields_size l.
Proof.
  unfold fields_size, message_bytes, raws_bytes. rewrite map_app, fmap_app. rewrite <-vec_len_app. f_equal. apply concat_app.
Qed.

Lemma fields_size_cons n v l : fields_size ((n, v) :: l) = vec_len (raw_bytes (n, raw_of v)) + fields_size l.
Proof. unfold fields_size, message_bytes, raws_bytes. cbn [map fmap list_fmap concat fst snd]. by rewrite vec_len_app. Qed.

Lemma varint_key n t : n <= 15 -> t <= 7 -> vec_len (varint (8 * n + t)) = 1.
Proof. intros Hn Ht. unfold varint. cbn [varint_loop]. destruct (N.ltb_spec (8 * n + t) 128); [done|lia]. Qed.

Lemma raw_varint_size n v : n <= 15 -> v <= u64_max -> vec_len (raw_bytes (n, RVarint v)) = 1 + protobuf_varint_len v.
Proof.
  intros Hn Hv. unfold raw_bytes. cbn [fst snd]. rewrite vec_len_app, (varint_len v) by done. rewrite <-(N.add_0_r (8 * n)), varint_key by lia. done.
Qed.

Lemma raw_bytes_size n l : n <= 15 -> vec_len l <= u64_max -> vec_len (raw_bytes (n, RBytes l)) = delimited (vec_len l).
Proof.
  intros Hn Hv. unfold raw_bytes, delimited. cbn [fst snd]. rewrite !vec_len_app, (varint_len (vec_len l)) by done. rewrite varint_key by lia. lia.
Qed.

Lemma varint_len_loop_ge fuel v acc : acc <= varint_len_loop fuel v acc.
Proof. revert v acc. induction fuel as [|fuel IH]; intros v acc; cbn; [done|]. destruct (128 <=? v); [|done]. specialize (IH (N.shiftr v 7) (acc + 1)). lia. Qed.

Lemma varint_len_loop_mono fuel v w acc : v <= w -> varint_len_loop fuel v acc <= varint_len_loop fuel w acc.
Proof.
  revert v w acc. induction fuel as [|fuel IH]; intros v w acc Hvw; cbn; [done|].
  destruct (N.leb_spec 128 v), (N.leb_spec 128 w); [|lia| |done].
  - apply IH. rewrite !N.shiftr_div_pow2. by apply N.Div0.div_le_mono.
  - pose proof (varint_len_loop_ge fuel (N.shiftr w 7) (acc + 1)). lia.
Qed.

Lemma protobuf_varint_len_mono v w : v <= w -> protobuf_varint_len v <= protobuf_varint_len w.
Proof. apply varint_len_loop_mono. Qed.

Lemma delimited_mono v w : v <= w -> delimited v <= delimited w.
Proof. intros H. unfold delimited. pose proof (protobuf_varint_len_mono v w H). lia. Qed.

(** ** Bounds in [usize]

    [covers a x]: the machine number [a], which may have stopped at the largest
    one, is a bound of [x]. *)

Definition covers (a x : N) : Prop := a <= usize_max /\ N.min x usize_max <= a.

Lemma covers_le a x : covers a x -> x <= usize_max -> x <= a.
Proof. unfold covers. lia. Qed.

Lemma covers_small a x y : covers a x -> y <= x -> covers a y.
Proof. unfold covers. lia. Qed.

Lemma covers_add a b x y : covers a x -> covers b y -> covers (usize_saturating_add a b) (x + y).
Proof. unfold covers, usize_saturating_add, saturating_add. lia. Qed.

Lemma covers_self x : x <= usize_max -> covers x x.
Proof. unfold covers. lia. Qed.

Lemma covers_delimited a x : covers a x -> covers (protobuf_bytes_field_upper_bound a) (if x <=? u64_max then delimited x else x).
Proof.
  intros [Ha Hx]. unfold protobuf_bytes_field_upper_bound, delimited. split; [unfold usize_saturating_add, saturating_add; lia|].
  pose proof (protobuf_varint_len_bounds a Ha) as Hb. unfold usize_saturating_add, saturating_add, usize_max in *. destruct (N.leb_spec x u64_max) as [Hu|Hu].
  - pose proof (protobuf_varint_len_mono x a ltac:(lia)). lia.
  - lia.
Qed.

Lemma raw_bytes_covered n l a : n <= 15 -> covers a (vec_len l) -> covers (protobuf_bytes_field_upper_bound a) (vec_len (raw_bytes (n, RBytes l))).
Proof.
  intros Hn Ha. pose proof (covers_delimited a _ Ha) as Hc. destruct (N.leb_spec (vec_len l) u64_max) as [Hu|Hu]; [by rewrite raw_bytes_size|].
  unfold covers in *. unfold raw_bytes. cbn [fst snd]. rewrite !vec_len_app. unfold usize_max in *. lia.
Qed.

Lemma bytes_covered n l : n <= 15 -> covers (protobuf_bytes_field_upper_bound (vec_len l)) (vec_len (raw_bytes (n, RBytes l))).
Proof.
  intros Hn. destruct (N.le_gt_cases (vec_len l) usize_max) as [Hs|Hs]; [by apply raw_bytes_covered, covers_self|].
  unfold covers, protobuf_bytes_field_upper_bound, usize_saturating_add, saturating_add. lia.
Qed.

Lemma string_field_covered n s : n <= 15 -> covers (protobuf_string_field_upper_bound s) (fields_size (string_field n s)).
Proof.
  intros Hn. pose proof (bytes_covered n (as_bytes s) Hn) as Hc. unfold string_field.
  case_bool_decide; [|by rewrite fields_size_cons, fields_size_nil, N.add_0_r]. eapply covers_small; [exact Hc|]. rewrite fields_size_nil. lia.
Qed.

Lemma optional_string_size n s : n <= 15 -> covers (protobuf_string_field_upper_bound s) (fields_size (optional_field VString n (Some s))).
Proof. intros Hn. cbn [optional_field]. rewrite fields_size_cons, fields_size_nil, N.add_0_r. by apply (bytes_covered n (as_bytes s)). Qed.

Lemma bytes_field_covered n l : n <= 15 -> covers (protobuf_bytes_field_upper_bound (vec_len l)) (fields_size (bytes_field n l)).
Proof.
  intros Hn. pose proof (bytes_covered n l Hn) as Hc. unfold bytes_field.
  case_bool_decide; [|by rewrite fields_size_cons, fields_size_nil, N.add_0_r]. eapply covers_small; [exact Hc|]. rewrite fields_size_nil. lia.
Qed.

Lemma varint_covered n v : n <= 15 -> v <= u64_max -> covers (protobuf_varint_field_upper_bound v) (vec_len (raw_bytes (n, RVarint v))).
Proof.
  intros Hn Hv. rewrite raw_varint_size by done. pose proof (protobuf_varint_len_bounds v Hv).
  unfold covers, protobuf_varint_field_upper_bound, usize_saturating_add, saturating_add, usize_max, u64_max. lia.
Qed.

Lemma uint64_field_covered n v : n <= 15 -> v <= u64_max -> covers (protobuf_varint_field_upper_bound v) (fields_size (uint64_field n v)).
Proof.
  intros Hn Hv. pose proof (varint_covered n v Hn Hv) as Hc. unfold uint64_field. destruct (v =? 0).
  - eapply covers_small; [exact Hc|]. rewrite fields_size_nil. lia.
  - by rewrite fields_size_cons, fields_size_nil, N.add_0_r.
Qed.

(** ** The estimates *)

(** The metadata an engine measures is that of the message in the response. *)
Record measures (meta : MessageResultMetadata) (f : MessageFields) (p : MessagePayload) : Prop := {
  ms_stream : mrm_stream meta = mf_stream f;
  ms_consumer : mrm_consumer meta = mf_consumer f;
  ms_member : mrm_member meta = mf_member f;
  ms_offset : mrm_offset meta = mf_offset f;
  ms_key : mrm_key meta = mf_key f;
  ms_payload : mrm_payload_len meta = vec_len (payload_bytes p);
  ms_published : mrm_published_at_ms meta = mf_published_at_ms f;
  ms_token : (if mrm_include_delivery_token meta then mrm_delivery_token meta else None) = mf_delivery_token f;
  ms_attempt : mrm_delivery_attempt meta = mf_delivery_attempt f;
}.

Lemma covers_optional_string a x n o :
  n <= 15 -> covers a x ->
  covers (match o with Some s => usize_saturating_add a (protobuf_string_field_upper_bound s) | None => a end)
    (x + fields_size (optional_field VString n o)).
Proof. intros Hn Ha. destruct o; [|by rewrite (fields_size_nil : fields_size (optional_field _ n None) = 0), N.add_0_r]. apply covers_add; [done|by apply optional_string_size]. Qed.

Lemma covers_optional_u32 a x n o :
  n <= 15 -> option_typed u32_typed o = true -> covers a x ->
  covers (match o with Some v => usize_saturating_add a (protobuf_varint_field_upper_bound v) | None => a end)
    (x + fields_size (optional_field VUint32 n o)).
Proof.
  intros Hn Ho Ha. destruct o; [|by rewrite (fields_size_nil : fields_size (optional_field _ n None) = 0), N.add_0_r]. apply covers_add; [done|].
  cbn [optional_field]. rewrite fields_size_cons, fields_size_nil, N.add_0_r. apply varint_covered; [done|].
  apply N.leb_le in Ho. unfold u32_max, u64_max in *. lia.
Qed.

Lemma message_covered meta f p :
  measures meta f p -> message_fields_typed f = true ->
  covers (message_result_upper_bound meta) (fields_size (Wire.message_fields (message_to_wire f p))).
Proof.
  intros [H1 H2 H3 H4 H5 H6 H7 H8 H9] Ht. unfold message_fields_typed in Ht. typed_split. unfold message_result_upper_bound, Wire.message_fields.
  rewrite H1, H2, H3, H4, H5, H6, H7, H8, H9. unfold message_to_wire.
  cbn [Wire.mr_stream Wire.mr_consumer Wire.mr_member Wire.mr_offset Wire.mr_key Wire.mr_payload Wire.mr_published_at_ms Wire.mr_delivery_token
       Wire.mr_delivery_attempt]. rewrite !fields_size_app.
  eapply covers_small; [apply covers_optional_u32; [|eassumption|apply covers_optional_string; [|apply covers_optional_string; [|apply covers_optional_string;
    [|apply covers_add; [apply covers_add; [apply covers_add; [apply covers_add|]|]|]]]]]|].
  - instantiate (1 := 9). done.
  - instantiate (1 := 8). done.
  - instantiate (1 := 5). done.
  - instantiate (1 := 3). done.
  - by apply (string_field_covered 1).
  - by apply (string_field_covered 2).
  - apply (uint64_field_covered 4); [done|by apply N.leb_le].
  - by apply (bytes_field_covered 6).
  - apply (uint64_field_covered 7); [done|by apply N.leb_le].
  - lia.
Qed.

Lemma outcome_size n o : n <= 15 -> vec_len (raw_bytes (n, raw_of (VEnum (outcome_to_wire o)))) = 2.
Proof. intros Hn. destruct o; cbn [outcome_to_wire raw_of]; by rewrite raw_varint_size. Qed.

Lemma stage_size n s : n <= 15 -> vec_len (raw_bytes (n, raw_of (VEnum (stage_to_wire s)))) = 2.
Proof. intros Hn. destruct s; cbn [stage_to_wire raw_of]; by rewrite raw_varint_size. Qed.

Lemma outcome_field_size n o : n <= 15 -> fields_size (enum_field n (outcome_to_wire o)) = 2.
Proof. intros Hn. transitivity (fields_size [(n, VEnum (outcome_to_wire o))]); [by destruct o|]. by rewrite fields_size_cons, outcome_size, fields_size_nil. Qed.

Lemma stage_field_size n s : n <= 15 -> fields_size (enum_field n (stage_to_wire s)) = 2.
Proof. intros Hn. transitivity (fields_size [(n, VEnum (stage_to_wire s))]); [by destruct s|]. by rewrite fields_size_cons, stage_size, fields_size_nil. Qed.

Lemma message_field_covered n fields a :
  n <= 15 -> covers a (fields_size fields) -> covers (length_delimited_field_upper_bound a) (vec_len (raw_bytes (n, raw_of (VMessage fields)))).
Proof. intros Hn Ha. by apply (raw_bytes_covered n (message_bytes fields)). Qed.

(** The size of a reply without items. *)
Lemma scalar_body_covered response outcome stage a :
  covers a (fields_size (Wire.result_fields response).2) -> (Wire.result_fields response).1 <= 15 ->
  covers (length_delimited_field_upper_bound (usize_saturating_add 4 (length_delimited_field_upper_bound a)))
    (fields_size (wire_fields {| Wire.sf_body := Some (Wire.ServerApplication
       {| Wire.ar_outcome := Some (outcome_to_wire outcome); Wire.ar_stage := Some (stage_to_wire stage); Wire.ar_result := Some response |}) |})).
Proof.
  intros Ha Hn. cbn [wire_fields Wire.server_frame_wire Wire.sf_body]. rewrite fields_size_cons, fields_size_nil, N.add_0_r.
  apply message_field_covered; [done|]. unfold Wire.application_response_fields, Wire.oneof_field.
  cbn [Wire.ar_outcome Wire.ar_stage Wire.ar_result optional_field]. rewrite !fields_size_app, !fields_size_cons, !fields_size_nil.
  rewrite outcome_size, stage_size by done. rewrite !N.add_0_r, N.add_assoc. change (2 + 2) with 4.
  apply covers_add; [apply covers_self; unfold usize_max, u64_max; lia|]. by apply message_field_covered.
Qed.

Section server.
Context {PS : ProstMessage Wire.ServerFrame} {LS : ProstLaws Wire.ServerFrame}.

Lemma server_frame_size m max_bytes secret frame :
  encode_message (M := Wire.ServerFrame) m max_bytes secret = Ok frame -> vec_len (frame_body frame) = fields_size (wire_fields m) /\ fields_size (wire_fields m) <= u32_max.
Proof. intros (Hf & Hb & _)%encode_message_framed. unfold fields_size. rewrite <-Hb. split; [done|]. destruct Hf as (_ & _ & Hl). lia. Qed.

(** A single delivery takes no more than the engine's estimate. *)
Lemma message_reply_fits f p outcome stage meta frame :
  measures meta f p -> message_fields_typed f = true ->
  encode_server_frame (ServerReply (reply_failed (RsMessage f p) outcome stage)) = Ok frame ->
  vec_len (frame_body frame)
  <= length_delimited_field_upper_bound (usize_saturating_add 4 (length_delimited_field_upper_bound (message_result_upper_bound meta))).
Proof.
  intros Hm Ht He. cbn in He. destruct (server_frame_size _ _ _ _ He) as [-> Hu]. apply covers_le; [|unfold u32_max, usize_max, u64_max in *; lia].
  apply (scalar_body_covered (Wire.MessageResultBody (message_to_wire f p))); [|done]. by apply message_covered.
Qed.
End server.

(** ** Batches *)

Definition batch_metadata (f : MessageFields) (p : MessagePayload) : MessageResultMetadata :=
  {| mrm_stream := mf_stream f; mrm_consumer := mf_consumer f; mrm_member := mf_member f; mrm_offset := mf_offset f; mrm_key := mf_key f;
     mrm_payload_len := vec_len (payload_bytes p); mrm_published_at_ms := mf_published_at_ms f; mrm_delivery_token := mf_delivery_token f;
     mrm_delivery_attempt := mf_delivery_attempt f; mrm_include_delivery_token := bool_decide (is_Some (mf_delivery_token f)) |}.

Lemma batch_metadata_measures f p : measures (batch_metadata f p) f p.
Proof. split; try done. cbn. by destruct (mf_delivery_token f). Qed.

Lemma message_item_covered m metadata w :
  message_fields_typed (bm_fields m) = true -> message_item_to_wire m metadata = Ok w ->
  covers (length_delimited_field_upper_bound (usize_saturating_add 4
            (length_delimited_field_upper_bound (message_result_upper_bound (batch_metadata (bm_fields m) (bm_payload m))))))
    (vec_len (raw_bytes (3, raw_of (VMessage (Wire.message_item_fields w))))).
Proof.
  intros Ht H. unfold message_item_to_wire in H. case_bool_decide; [done|]. injection H as <-. apply message_field_covered; [done|].
  unfold Wire.message_item_fields. cbn [Wire.mi_outcome Wire.mi_stage Wire.mi_message optional_field].
  rewrite !fields_size_app, outcome_field_size, stage_field_size by done. rewrite N.add_assoc. change (2 + 2) with 4.
  apply covers_add; [apply covers_self; unfold usize_max, u64_max; lia|]. rewrite fields_size_cons, fields_size_nil, N.add_0_r.
  apply message_field_covered; [done|]. apply message_covered; [apply batch_metadata_measures|done].
Qed.
